(* ===== verification/_CoqProject ===== *)
-Q . S2P
Prelude.v
Text.v
Field.v
Commitments.v
Instrument.v
Kernel.v
Anchor.v
Batch.v
Chain.v
Accept.v
Wire.v
Block.v
Network.v
Messages.v
Peer.v
Gcs.v
HeaderChain.v
FullScan.v
Scan.v
ScanFile.v
Client.v
Bitcoin.v
Bech32.v
Rpc.v
NodeChain.v
NodeScan.v
NodeFile.v
BatchV2.v
BatchDemo.v
BatchRules.v
BatchWire.v
BatchFinal.v
BatchWeight.v
BatchInputs.v
Replacement.v
FeeModel.v
BatchV1.v
Relay.v
GossipFrame.v
GossipDemo.v
GossipStore.v
GossipSession.v
GossipSafety.v
GossipPhases.v
GossipRestart.v
AccountText.v
AccountTypes.v
Observation.v
Issuance.v
Registry.v
AccountGate.v
AccountJournal.v
IssuanceLedger.v
AccountDemo.v
Circuit.v
Pcd.v
PcdLedger.v
PcdAccept.v
PcdProve.v
PcdDemo.v
Snapshot.v
Wallet.v
WalletFacts.v
WalletSelect.v
WalletPay.v
WalletExport.v
WalletDemo.v
