(* ===== verification/Prelude.v ===== *)
(** * A verification development for the OpenCSV client-side-validation library

    OpenCSV moves coins off chain: a transfer is a proof handed to its receiver,
    and the chain carries only a 64-byte record that makes the spent coins'
    nullifiers public, once.  A receiver accepts a coin after checking the proof,
    that the record it names binds exactly the spent nullifiers, that no earlier
    record on the chain binds them, and that the issuer's public supply is
    sound.  The development models that decision, the proof behind it, every way
    the program has of learning what the chain says, the co-funded Bitcoin
    transactions that carry many records as one, the gossip that builds them, and
    the wallets that plan, store and receive coins.  Paths below are under
    [src/crates], those that begin with [ffi/] under [src].

    ** The program and the files that model it

    - Texts.  [Text.v]: Rust strings, their slicing and number parsing, hexadecimal.
    - Commitments.  [Field.v], [Commitments.v], [Instrument.v]:
      [opencsv-core/src/{field,digest,coin,asset,issuer,consignment,instrument}.rs]
      and [opencsv-kernel/src/hash.rs].  Bytes packed into field elements, the
      domain-separated sponge calls, and the terms an asset commits to.
    - Decision.  [Kernel.v]: [opencsv-kernel/src], the pure functions that decide
      binding, first occurrence, supply and acceptance.
    - Records.  [Anchor.v], [Batch.v]: [opencsv-core/src/{anchor,kernel,batch}.rs],
      the 64-byte record, its occurrence test, and the witness envelopes that put
      many transfers behind one record.
    - Chains.  [Chain.v]: [opencsv-core/src/{chain,crosscheck,audit}.rs].  The
      trait [AnchorChain] is a record of queries, [ChainLaws] what a backend owes
      its clients; the in-memory chain and the quorum of several backends are
      instances.
    - Acceptance.  [Accept.v]: [opencsv-core/src/accept.rs], which queries a chain,
      calls the proof verifier and calls the kernel's decision, in the code's order
      with its early returns.
    - Proofs, [opencsv-pcd/src].  [Circuit.v] (value.rs, hash.rs, issuer.rs) holds the
      gadgets, [Pcd.v] (node.rs, security.rs) the four circuits, the provers and the
      verifier, [PcdAccept.v] (accept.rs) the proof envelope and the implementation of
      the verifier [Accept.v] calls.  [PcdLedger.v] is their specification - histories
      that conserve value - with the refinement theorems, [PcdProve.v] the completeness of
      the provers, [PcdDemo.v] a transparent proof system that satisfies the laws.
    - The light client, [opencsv-cbf/src].  [Wire.v] (error.rs, hash.rs, wire.rs),
      [Block.v] (block.rs), [Network.v] (network.rs, proof of work), [Messages.v]
      and [Peer.v] (messages.rs, peer.rs), [Gcs.v] (siphash.rs, gcs.rs),
      [HeaderChain.v] (chain.rs), [FullScan.v] and [Scan.v] (fullscan.rs, scan.rs:
      anchor chains obtained from blocks and filters), [ScanFile.v] (the file of the
      scan index), [Client.v] (client.rs: several peers, agreement, cached filters,
      verdicts on anchors and outputs).
    - The node backend, [opencsv-bitcoin/src].  [Rpc.v] (rpc.rs, error.rs), [Bech32.v]
      (bech32.rs), [NodeChain.v] (chain.rs: the index kept from a node's blocks, solo
      anchors) with its theorems in [NodeScan.v] and [NodeFile.v], [FeeModel.v]
      (fee_model.rs), [BatchV1.v] (batch.rs), [Relay.v] (relay.rs).
    - Batches on Bitcoin, [opencsv-bitcoin/src].  [Bitcoin.v] is the interface to
      the third-party [bitcoin] crate; [BatchV2.v] models batch_v2.rs, and
      [BatchRules.v], [BatchWire.v], [BatchFinal.v], [BatchWeight.v] hold its
      theorems; [BatchInputs.v] models [opencsv-cbf/src/batch.rs], the receipts that
      tie a batch to outputs the light client verified; [Replacement.v] models
      replacement.rs; [BatchDemo.v] the concrete batch the witnesses evaluate.
    - Batch gossip, [opencsv-cli/src/batch_gossip.rs].  [GossipFrame.v] the signed frames
      and stored reservations, [GossipStore.v] the session directory under a schedule of
      faults, [GossipSession.v] the sessions; [GossipSafety.v], [GossipPhases.v] and
      [GossipRestart.v] hold the theorems, [GossipDemo.v] a signature library.
    - The account wallet, [ffi/src/account.rs] and production_issuance.rs.  [AccountText.v]
      (with hex.rs) and [AccountTypes.v] its texts and data; [Observation.v] the evidence
      about unconfirmed transactions; [Issuance.v] threshold-signed mint authorizations;
      [Registry.v] the release floor; [AccountGate.v] the write gates and caps;
      [AccountJournal.v] planned transfers and local batches; [IssuanceLedger.v] the supply
      ledger; [AccountDemo.v] a concrete account.
    - The in-memory wallet, [ffi/src].  [Snapshot.v] (snapshot.rs) the anchor log a host
      supplies, [Wallet.v] (wallet.rs) every operation of the wallet; [WalletFacts.v],
      [WalletSelect.v], [WalletPay.v] and [WalletExport.v] hold the theorems,
      [WalletDemo.v] a concrete wallet.

    The components meet at a few interfaces.  [AnchorChain] with [ChainLaws]: acceptance
    is proved against it, and the in-memory, quorum, full-scan, index, node and snapshot
    chains provide it.  [ProofVerifier]: acceptance is proved against it, and
    [CoinProofVerifier] of [PcdAccept.v] is one; the wallet calls the driver through it.
    [HeaderSource] and [PeerOps]: the header chain and the client are proved against any
    peer, and [Peer.v] is one.  [ChainClient]: the scans are proved against any client,
    and [Client.v] is one.  [BitcoinLib], [Ecdsa] and [Secp] with their laws: batches,
    gossip and issuance are proved against any implementation.

    ** Conventions

    Bytes are [Byte.byte]; an integer of the sources is a [Z], with [checked_],
    [saturating_] and wrapping operations written out where the code uses them and
    its range stated where a theorem needs it.  Unchecked sums wrap around, as in the
    release builds that are shipped; the build flags of test code are off.  Fallible
    code is in [result], the sources' [?] is bind; code that mutates a connection, a
    client, a session, a wallet or a scan index is a state-and-error program whose state
    survives an error, because the code keeps what it had already changed.  A panic is
    [None] of an option, or [Panicked] or [Crashed] where errors are reported too.  A
    definition keeps the name it has in the source, with a prefix where two components
    use the same name.

    What is not in the sources is a parameter: the Poseidon2 sponge ([Poseidon],
    [Permutation]), SHA-256 ([Sha256d], [Sha256]), the STARK prover and verifier
    ([StarkSystem]), the [bitcoin] crate, secp256k1, the JSON, URL, bincode, postcard and
    base64 codecs, the peers' and the node's answers, the cache directory, the clock and
    the random numbers - random contexts are a list of draws, and a loop that draws more
    reports it.  Laws say only what is documented of them - lengths of digests, round
    trips of encodings, soundness and completeness of the proof system - and no
    theorem assumes a hash function injective: where one is needed to be, the
    theorem's conclusion offers the colliding inputs instead ([collides],
    [collide_within], [no_collision]).  Each law has an instance, and each theorem with a
    hypothesis a witness that evaluates it.

    ** What the theorems show

    - Proofs.  A verified proof whose root key is a circuit of the crate stands for a
      history that conserves value; a ledger of proven entries with distinct
      nullifiers never holds more than was minted; honest transfers prove; the
      gadgets compute exactly the sponge and the balance; every accepted coin has such a
      history - and, because acceptance does not look at the anchors of ancestors, one
      minted coin can be accepted twice.  The verifier does not compare the root key with
      a fixed one, so these theorems assume it is ([authentic]).
    - Acceptance.  A transfer is accepted exactly under the stated conditions on
      chain, proof and supply; no two accepted transfers spend one nullifier;
      the driver refines the kernel's decision; a settled transfer is accepted;
      the binding check is the record's constructor read backwards; copied records
      and quorum disagreement spend nothing.
    - Commitments.  Distinct commitments, and commitments of distinct values, are
      distinct digests up to a sponge collision; an asset fixes its terms.
    - Chain views.  What a scan reports is exactly what the blocks of its window
      carry, so a scanned chain excludes a double spend inside the window; the index
      follows the best chain through reorganisations and is read back from its file;
      verdicts of the client on an anchor or an output are true of its validated chain;
      one honest peer is enough, and the client's invariant survives every operation.  The
      node's index misses the spends inside batches.
    - Headers and peers.  The chain stays valid and reaches the honest tip; the
      validation of a header is the stated predicate; work and targets are exact;
      loops over a connection end; parsers accept only in-range values.
    - Batches.  A manifest moves exactly the value it says and charges each
      participant the fair share; every message parses exactly from what is
      written; signing, collecting and finalizing are exact; verified signatures
      always fit the weight charged for; the finalized transaction shows every
      participant's transfer to a scan; a reservation is not released after a
      signature has been; replacements keep what they must.
    - Gossip.  Under every fault schedule a share is published only after its release is
      durable and reservations stay exclusive; a restarted session is the one that
      stopped; one torn write makes a session unopenable.
    - The account wallet.  Accepted evidence is exact; a mint needs its threshold of distinct
      authorities; the registry floor never rolls back; the caps of a rolling day hold over
      every sequence of calls; the ledger admits each authorization once and in order.
    - The in-memory wallet.  Over every sequence of calls coins are neither lost nor revived
      and a spent coin is never planned again; coin selection is optimal; a payment takes
      exactly its amount from the unspent total and reveals exactly its inputs' nullifiers;
      a planned transaction is imported as itself, except redeems, which never are; saved
      secrets reopen exactly when the currency codes are texts; a mined anchor always
      replaces a provisional one.

    ** Fuel and bounds

    Recursion that is not structural takes fuel, and running out is a [None] or an
    error the code does not have, so every such loop has a theorem that it does not
    happen.  [merkle_loop] takes the number of leaves ([merkle_fuel_enough]).  The loops
    over a connection take the number of messages it still holds
    ([connection_loops_terminate]).  [fetch_pages] takes the number of heights of its
    range and [work_loop] 256 rounds, one per bit.  The extended Euclid of the field
    inverse takes 63 rounds, twice the bits of the modulus.  [sync] may really run for ever
    against a peer that keeps serving headers that attach nowhere; against an honest
    peer more rounds than its chain has headers are enough ([sync_reaches_peer_tip]).

    ** Not modelled

    The proving library behind [opencsv-pcd]: a circuit is the function from wires to
    outputs it constrains, its wires hold base-field elements, and a verification key is the
    construction of its circuit.  Sockets, name resolution, files and HTTP are input and
    output; what they deliver is an argument.  Calls to the account database succeed,
    uniqueness constraints apart.  Of [ffi/src/account.rs] the recovery journal, the
    signing and broadcast of account transactions, migrations, the synchronisation of
    accounts and the table layout are left out; of [ffi/src] the binding layer (lib.rs),
    the scan and cross-check entry points and the issuer's command line; and the
    command line of [opencsv-cli], [opencsv-anchor-server] and [opencsv-signal], which call
    what is modelled here.

    ** This file

    Bytes, fixed-width codecs, the [Result] type of the sources with its
    monadic notation, list searches and slices, sorting, and the tactics and hint
    databases the component files share. *)


From stdpp Require Export base list sorting numbers countable strings sets gmap.
From Stdlib Require Export ZArith Lia.
From Corelib Require Export Init.Byte.
From Stdlib Require Strings.Byte.
From Stdlib Require ZArith.Zbitwise.

#[global] Open Scope Z_scope.

Create HintDb csv.


(** ** Rust's [Result] *)

Inductive result (E A : Type) : Type :=
  | Ok (a : A)
  | Err (e : E).
Arguments Ok {E A} a.
Arguments Err {E A} e.

#[export] Instance result_ret E : MRet (result E) := λ A a, Ok a.
#[export] Instance result_bind E : MBind (result E) := λ A B f m,
  match m with Ok a => f a | Err e => Err e end.
#[export] Instance result_fmap E : FMap (result E) := λ A B f m,
  match m with Ok a => Ok (f a) | Err e => Err e end.

#[export] Instance result_eq_dec {E A} `{EqDecision E, EqDecision A} :
  EqDecision (result E A).
Proof. solve_decision. Defined.

(** [Option::ok_or] and [Option::ok_or_else]. *)
Definition ok_or {E A} (o : option A) (e : E) : result E A :=
  match o with Some a => Ok a | None => Err e end.

(** [if cond { return Err(e) }] *)
Definition ensure {E} (b : bool) (e : E) : result E () :=
  if b then Ok tt else Err e.

(** [Result::ok] *)
Definition to_option {E A} (m : result E A) : option A :=
  match m with Ok a => Some a | Err _ => None end.

Definition is_ok {E A} (m : result E A) : bool :=
  match m with Ok _ => true | Err _ => false end.

Lemma is_ok_Ok {E A} (r : result E A) : is_ok r = true → ∃ a, r = Ok a.
Proof. destruct r as [a|]; [by exists a|done]. Qed.

Lemma bind_Ok {E A B} (m : result E A) (f : A → result E B) b :
  m ≫= f = Ok b ↔ ∃ a, m = Ok a ∧ f a = Ok b.
Proof.
  destruct m; cbn; [naive_solver|]. split; [done|]. by intros (? & ? & _).
Qed.

Lemma ok_or_Ok {E A} (o : option A) (e : E) a : ok_or o e = Ok a ↔ o = Some a.
Proof. destruct o; cbn; naive_solver. Qed.

Lemma ensure_Ok {E} b (e : E) u : ensure b e = Ok u ↔ b = true.
Proof. destruct b, u; cbn; naive_solver. Qed.

Lemma and_iff_compat (A B C : Prop) : (A → (B ↔ C)) → (A ∧ B ↔ A ∧ C).
Proof. tauto. Qed.

(** ** Programs with a state of type [S] that may fail *)
Definition prog (E S A : Type) : Type := S → result E A * S.

#[export] Instance prog_ret E S : MRet (prog E S) := λ A a s, (Ok a, s).
#[export] Instance prog_bind E S : MBind (prog E S) := λ A B f m s,
  match m s with (Ok a, s') => f a s' | (Err e, s') => (Err e, s') end.

(** [?] on a value computed from the state; an update; a program on a part of the state. *)
Definition reading {E S A} (f : S → result E A) : prog E S A := λ s, (f s, s).
Definition checked {E S A} (r : result E A) : prog E S A := λ s, (r, s).
Definition updating {E S} (f : S → S) : prog E S () := λ s, (Ok tt, f s).
Definition zoom {E S T A} (get : S → T) (put : T → S → S) (m : prog E T A) : prog E S A :=
  λ s, let '(r, t) := m (get s) in (r, put t s).

Lemma prog_bind_eq {E S A B} (m : prog E S A) (f : A → prog E S B) s :
  (m ≫= f) s = match m s with (Ok a, s') => f a s' | (Err e, s') => (Err e, s') end.
Proof. reflexivity. Qed.

Lemma prog_bind_Ok {E S A B} (m : prog E S A) (f : A → prog E S B) s b s' :
  (m ≫= f) s = (Ok b, s') ↔ ∃ a s1, m s = (Ok a, s1) ∧ f a s1 = (Ok b, s').
Proof.
  rewrite prog_bind_eq. destruct (m s) as [[a|e] s1]; [naive_solver|]. split; [done|]. by intros (? & ? & ? & _).
Qed.

(** A sequence, whatever its outcome: the first part fails, or the second one runs. *)
Lemma prog_bind_inv {E S A B} (m : prog E S A) (f : A → prog E S B) s r s' :
  (m ≫= f) s = (r, s') →
  (∃ e, m s = (Err e, s') ∧ r = Err e) ∨ (∃ a s1, m s = (Ok a, s1) ∧ f a s1 = (r, s')).
Proof. rewrite prog_bind_eq. destruct (m s) as [[a|e] s1]; [right; eauto|]. intros [= <- <-]. left; eauto. Qed.

Lemma reading_Ok {E S A} (f : S → result E A) s a s' : reading f s = (Ok a, s') ↔ f s = Ok a ∧ s' = s.
Proof. unfold reading. split; [by intros [= -> ->]|by intros [-> ->]]. Qed.

Lemma checked_Ok {E S A} (x : result E A) (s : S) a s' : checked x s = (Ok a, s') ↔ x = Ok a ∧ s' = s.
Proof. unfold checked. split; [by intros [= -> ->]|by intros [-> ->]]. Qed.

(** The two steps that only read. *)
Lemma reading_bind_inv {E S A B} (f : S → result E A) (k : A → prog E S B) s r s' :
  (reading f ≫= k) s = (r, s') → (∃ e, s' = s ∧ r = Err e) ∨ ∃ a, f s = Ok a ∧ k a s = (r, s').
Proof. rewrite prog_bind_eq. unfold reading. destruct (f s); [right; eauto|]. intros [= <- <-]. left; eauto. Qed.

Lemma checked_bind_inv {E S A B} (x : result E A) (k : A → prog E S B) s r s' :
  (checked x ≫= k) s = (r, s') → (∃ e, s' = s ∧ r = Err e) ∨ ∃ a, x = Ok a ∧ k a s = (r, s').
Proof. apply (reading_bind_inv (λ _, x)). Qed.

(** ** What programs leave alone *)

(** Every outcome of the program is related to where it started. *)
Definition always {E S A} (R : S → S → Prop) (m : prog E S A) : Prop := ∀ s r s', m s = (r, s') → R s s'.

Section always.
Context {E S : Type} (R : S → S → Prop) `{!PreOrder R}.

Lemma always_bind {A B} (m : prog E S A) (f : A → prog E S B) :
  always R m → (∀ a, always R (f a)) → always R (m ≫= f).
Proof.
  intros Hm Hf s r s' [(e & Em & _)|(a & s1 & Em & Ef)]%prog_bind_inv; [by eapply Hm|].
  etrans; [by eapply Hm|by eapply Hf].
Qed.
Lemma always_ret {A} (a : A) : always R (mret a : prog E S A).
Proof. intros s r s' [= <- <-]. reflexivity. Qed.
Lemma always_reading {A} (f : S → result E A) : always R (reading f).
Proof. intros s r s' [= <- <-]. reflexivity. Qed.
Lemma always_checked {A} (x : result E A) : always R (checked x : prog E S A).
Proof. intros s r s' [= <- <-]. reflexivity. Qed.
Lemma always_updating (f : S → S) : (∀ s, R s (f s)) → always R (updating f : prog E S ()).
Proof. intros Hf s r s' [= <- <-]. apply Hf. Qed.
End always.

(** The steps of a program that only read. *)
Ltac always_steps :=
  repeat match goal with
  | |- always _ (mret _) => apply (always_ret _)
  | |- always _ (reading _) => apply (always_reading _)
  | |- always _ (checked _) => apply (always_checked _)
  | |- always _ (_ ≫= _) => apply (always_bind _); [|intros ?]
  end.

(** ** Bytes *)

#[export] Instance byte_eq_dec : EqDecision byte.
Proof. exact Byte.byte_eq_dec. Defined.

Abbreviation bytes := (list byte).

Definition bval (b : byte) : Z := Z.of_N (Byte.to_N b).

Definition bof (z : Z) : byte :=
  match Byte.of_N (Z.to_N (z mod 256)) with Some b => b | None => x00 end.

Lemma bval_bound b : 0 ≤ bval b < 256.
Proof. unfold bval. pose proof (Byte.to_N_bounded b). lia. Qed.

Lemma bof_bval b : bof (bval b) = b.
Proof.
  unfold bof. pose proof (bval_bound b). rewrite Z.mod_small by lia.
  unfold bval. by rewrite N2Z.id, Byte.of_to_N.
Qed.

Lemma bval_bof z : bval (bof z) = z mod 256.
Proof.
  unfold bof, bval. pose proof (Z.mod_pos_bound z 256 ltac:(lia)).
  destruct (Byte.of_N (Z.to_N (z mod 256))) as [b|] eqn:E.
  - apply Byte.to_of_N in E. rewrite E. lia.
  - apply Byte.of_N_None_iff in E. lia.
Qed.

Lemma bval_inj a b : bval a = bval b → a = b.
Proof. intros E. by rewrite <- (bof_bval a), <- (bof_bval b), E. Qed.

Lemma bof_small_inj x y : 0 ≤ x < 256 → 0 ≤ y < 256 → bof x = bof y → x = y.
Proof.
  intros Hx Hy E. apply (f_equal bval) in E. rewrite !bval_bof in E.
  by rewrite !Z.mod_small in E by lia.
Qed.

#[export] Instance byte_countable : Countable byte.
Proof.
  refine (inj_countable' bval bof _). intros; apply bof_bval.
Defined.

#[export] Hint Rewrite bof_bval bval_bof : csv.

(** ** Fixed-width little-endian integers *)

Fixpoint le_val (bs : bytes) : Z :=
  match bs with [] => 0 | b :: t => bval b + 256 * le_val t end.

Fixpoint le_bytes (n : nat) (z : Z) : bytes :=
  match n with O => [] | S n => bof z :: le_bytes n (z / 256) end.

Definition be_bytes (n : nat) (z : Z) : bytes := reverse (le_bytes n z).

Lemma length_le_bytes n z : length (le_bytes n z) = n.
Proof. revert z; induction n; intros; cbn; auto. Qed.

Lemma length_be_bytes n z : length (be_bytes n z) = n.
Proof. unfold be_bytes. by rewrite length_reverse, length_le_bytes. Qed.

Lemma pow256_S n : 256 ^ Z.of_nat (S n) = 256 * 256 ^ Z.of_nat n.
Proof. rewrite Nat2Z.inj_succ, Z.pow_succ_r by lia. lia. Qed.

Lemma le_val_bound bs : 0 ≤ le_val bs < 256 ^ Z.of_nat (length bs).
Proof.
  induction bs as [|b bs IH]; [done|]. cbn [length le_val].
  rewrite pow256_S. pose proof (bval_bound b). nia.
Qed.

Lemma le_val_le_bytes n z : le_val (le_bytes n z) = z mod 256 ^ Z.of_nat n.
Proof.
  revert z; induction n as [|n IH]; intros z; cbn [le_bytes le_val].
  - by rewrite Z.mod_1_r.
  - rewrite IH, pow256_S, bval_bof.
    rewrite Z.rem_mul_r by lia. lia.
Qed.

Lemma le_val_le_bytes_small n z :
  0 ≤ z < 256 ^ Z.of_nat n → le_val (le_bytes n z) = z.
Proof. intros. rewrite le_val_le_bytes. by apply Z.mod_small. Qed.

Lemma le_bytes_le_val bs n : length bs = n → le_bytes n (le_val bs) = bs.
Proof.
  intros <-. induction bs as [|b bs IH]; [done|]. cbn [length le_bytes le_val].
  pose proof (bval_bound b).
  replace ((bval b + 256 * le_val bs) / 256) with (le_val bs)
    by (rewrite Z.add_comm, Z.mul_comm, Z.div_add_l, (Z.div_small (bval b)); lia).
  rewrite IH. f_equal. apply bval_inj. rewrite bval_bof.
  rewrite Z.add_comm, Z.mul_comm, Z.add_comm, Z.mod_add by lia.
  by apply Z.mod_small.
Qed.

Lemma le_val_inj a b : length a = length b → le_val a = le_val b → a = b.
Proof.
  intros HL E. rewrite <- (le_bytes_le_val a (length a)) by done.
  by rewrite E, HL, le_bytes_le_val.
Qed.

Lemma le_bytes_inj n x y :
  0 ≤ x < 256 ^ Z.of_nat n → 0 ≤ y < 256 ^ Z.of_nat n →
  le_bytes n x = le_bytes n y → x = y.
Proof.
  intros Hx Hy E. apply (f_equal le_val) in E.
  by rewrite !le_val_le_bytes_small in E.
Qed.

Lemma le_val_app a b :
  le_val (a ++ b) = le_val a + 256 ^ Z.of_nat (length a) * le_val b.
Proof.
  induction a as [|x a IH]; [cbn; lia|].
  cbn [app le_val length]. rewrite pow256_S, IH. lia.
Qed.

Lemma le_val_zeros n : le_val (replicate n x00) = 0.
Proof. induction n as [|n IH]; [done|]. cbn [replicate le_val]. by rewrite IH. Qed.

(** Integer ranges of the machine types. *)
Definition u8_max : Z := 2 ^ 8 - 1.
Definition u16_max : Z := 2 ^ 16 - 1.
Definition u32_max : Z := 2 ^ 32 - 1.
Definition u64_max : Z := 2 ^ 64 - 1.
Definition u128_max : Z := 2 ^ 128 - 1.

Definition is_u8 (z : Z) : Prop := 0 ≤ z ≤ u8_max.
Definition is_u16 (z : Z) : Prop := 0 ≤ z ≤ u16_max.
Definition is_u32 (z : Z) : Prop := 0 ≤ z ≤ u32_max.
Definition is_u64 (z : Z) : Prop := 0 ≤ z ≤ u64_max.

(** [checked_add], [checked_sub], [checked_mul] on [u64];
    [saturating_add] and [saturating_sub]. *)
Definition checked_add64 (a b : Z) : option Z :=
  if decide (a + b ≤ u64_max) then Some (a + b) else None.
Definition checked_sub64 (a b : Z) : option Z :=
  if decide (b ≤ a) then Some (a - b) else None.
Definition checked_mul64 (a b : Z) : option Z :=
  if decide (a * b ≤ u64_max) then Some (a * b) else None.

(** [div_ceil] of unsigned integers. *)
Definition div_ceil (a b : Z) : Z := a / b + (if a mod b =? 0 then 0 else 1).

Definition saturating_add64 (a b : Z) : Z := Z.min (a + b) u64_max.
Definition saturating_sub64 (a b : Z) : Z := Z.max (a - b) 0.

(** Rust's [as i32]/[i32::from_le_bytes] reading of a 32-bit pattern. *)
Definition to_signed (w : Z) (z : Z) : Z :=
  if decide (z < 2 ^ (w - 1)) then z else z - 2 ^ w.
Definition of_signed (w : Z) (z : Z) : Z := z mod 2 ^ w.

Lemma to_of_signed w z : 0 < w → - 2 ^ (w - 1) ≤ z < 2 ^ (w - 1) →
  to_signed w (of_signed w z) = z.
Proof.
  intros Hw Hz. unfold to_signed, of_signed.
  assert (E : 2 ^ w = 2 * 2 ^ (w - 1)) by (rewrite <- Z.pow_succ_r by lia; f_equal; lia).
  destruct (decide (0 ≤ z)).
  - rewrite Z.mod_small by lia. rewrite decide_True; lia.
  - replace (z mod 2 ^ w) with (z + 2 ^ w).
    + rewrite decide_False; lia.
    + apply Z.mod_unique with (q := -1); lia.
Qed.

Lemma of_to_signed w z : 0 < w → 0 ≤ z < 2 ^ w →
  of_signed w (to_signed w z) = z.
Proof.
  intros Hw Hz. unfold to_signed, of_signed. case_decide.
  - by rewrite Z.mod_small.
  - symmetry; apply Z.mod_unique with (q := -1); lia.
Qed.

(** Disjoint bit fields: [or] is addition. *)
Lemma testbit_small l n i : 0 ≤ l < 2 ^ n → n ≤ i → Z.testbit l i = false.
Proof.
  intros Hl Hi. destruct (decide (0 ≤ n)) as [Hn|Hn].
  - rewrite <- (Z.mod_small l (2 ^ n)) by done. apply Z.mod_pow2_bits_high. lia.
  - rewrite Z.pow_neg_r in Hl by lia. lia.
Qed.

Lemma land_shift_small h l n : 0 ≤ n → 0 ≤ l < 2 ^ n → Z.land (Z.shiftl h n) l = 0.
Proof.
  intros Hn Hl. apply Z.bits_inj'. intros i Hi. rewrite Z.land_spec, Z.bits_0.
  destruct (decide (i < n)) as [Hlt|Hge].
  - by rewrite Z.shiftl_spec_low.
  - rewrite (testbit_small l n i), andb_false_r by lia. done.
Qed.

Lemma lor_shift_add h l n : 0 ≤ n → 0 ≤ l < 2 ^ n →
  Z.lor (Z.shiftl h n) l = h * 2 ^ n + l.
Proof.
  intros Hn Hl. pose proof (Z.add_lor_land (Z.shiftl h n) l) as E.
  rewrite land_shift_small in E by done. rewrite Z.shiftl_mul_pow2 in * by done. lia.
Qed.

(** Induction on the length of a list, for loops that consume a prefix. *)
Lemma list_length_ind {A} (P : list A → Prop) :
  (∀ l, (∀ k, (length k < length l)%nat → P k) → P l) → ∀ l, P l.
Proof.
  intros step l. remember (length l) as m eqn:Hm. revert l Hm.
  induction (lt_wf m) as [m _ IH]. intros l ->. apply step. eauto.
Qed.

(** ** Slices and fixed-size arrays *)

(** [&l[a..b]] of an in-range slice. *)
Definition slice {A} (a b : nat) (l : list A) : list A := take (b - a) (drop a l).

Lemma length_slice {A} a b (l : list A) :
  (a ≤ b ≤ length l)%nat → length (slice a b l) = (b - a)%nat.
Proof. intros. unfold slice. rewrite length_take, length_drop. lia. Qed.

Lemma slice_app {A} a b c (l : list A) : (a ≤ b ≤ c)%nat →
  slice a b l ++ slice b c l = slice a c l.
Proof.
  intros. unfold slice. replace (drop b l) with (drop (b - a) (drop a l))
    by (rewrite drop_drop; f_equal; lia).
  replace (c - a)%nat with ((b - a) + (c - b))%nat by lia. by rewrite take_take_drop.
Qed.

Lemma slice_nth {A} i c (l : list A) d : (i < c)%nat → (i < length l)%nat →
  nth i l d :: slice (S i) c l = slice i c l.
Proof.
  intros Hc Hl. unfold slice. revert c l Hc Hl.
  induction i as [|i IH]; intros [|c] [|x l] Hc Hl; cbn in Hl; try lia.
  - cbn. by rewrite Nat.sub_0_r.
  - cbn [nth drop Nat.sub]. rewrite <- IH by lia. done.
Qed.

Lemma slice_0 {A} c (l : list A) : slice 0 c l = take c l.
Proof. unfold slice. by rewrite Nat.sub_0_r. Qed.

Definition zeros (n : nat) : bytes := replicate n x00.

Lemma length_zeros n : length (zeros n) = n.
Proof. apply length_replicate. Qed.

(** Reading one field of a concatenation of fields. *)
Lemma drop_fields {A} (pre post : list (list A)) i : i = sum_list (length <$> pre) →
  drop i (concat (pre ++ post)) = concat post.
Proof.
  intros ->. induction pre as [|b pre IH]; [done|]. rewrite fmap_cons.
  change (sum_list (length b :: (length <$> pre))) with (length b + sum_list (length <$> pre))%nat.
  change (concat ((b :: pre) ++ post)) with (b ++ concat (pre ++ post)).
  rewrite drop_app_ge by lia. by rewrite Nat.add_comm, Nat.add_sub.
Qed.

Lemma slice_field {A} (pre : list (list A)) b post w i j : w = concat (pre ++ b :: post) → i = sum_list (length <$> pre) → j = (i + length b)%nat →
  slice i j w = b.
Proof.
  intros -> Hi ->. unfold slice. rewrite (drop_fields pre (b :: post)) by done. cbn [concat].
  replace (i + length b - i)%nat with (length b) by lia. apply take_app_length.
Qed.

Lemma nth_field {A} (pre : list (list A)) b bs post w i d : w = concat (pre ++ (b :: bs) :: post) → i = sum_list (length <$> pre) →
  nth i w d = b.
Proof.
  intros -> Hi. pose proof (drop_fields pre ((b :: bs) :: post) i Hi) as E. cbn [concat app] in E.
  assert (concat (pre ++ (b :: bs) :: post) !! i = Some b) as Hl.
  { rewrite <- (Nat.add_0_r i), <- lookup_drop, E. done. }
  by apply nth_lookup_Some.
Qed.

(** [slice::chunks(n)]: consecutive pieces of [n] elements, the last possibly
    shorter; [fuel] is the list's length. *)
Fixpoint chunks_go {A} (fuel n : nat) (l : list A) : list (list A) :=
  match fuel, l with
  | _, [] => []
  | O, _ => []
  | S f, _ => take n l :: chunks_go f n (drop n l)
  end.
Definition chunks {A} (n : nat) (l : list A) : list (list A) :=
  chunks_go (length l) n l.

Lemma chunks_go_fuel {A} n (l : list A) f g : (0 < n)%nat →
  (length l ≤ f)%nat → (length l ≤ g)%nat → chunks_go f n l = chunks_go g n l.
Proof.
  intros Hn. revert l g; induction f as [|f IH]; intros l g Hf Hg.
  - destruct l; [by destruct g | cbn in Hf; lia].
  - destruct l as [|x l]; [by destruct g|].
    destruct g as [|g]; [cbn in Hg; lia|]. cbn [chunks_go]. f_equal.
    apply IH; rewrite length_drop; cbn in *; lia.
Qed.

Lemma chunks_nil {A} n : chunks n (@nil A) = [].
Proof. done. Qed.

Lemma chunks_cons {A} n (l : list A) : (0 < n)%nat → l ≠ [] →
  chunks n l = take n l :: chunks n (drop n l).
Proof.
  intros Hn Hl. unfold chunks. destruct l as [|x l]; [done|].
  cbn [length chunks_go]. f_equal.
  apply chunks_go_fuel; rewrite ?length_drop; cbn [length]; lia.
Qed.

(** Splitting into chunks is injective: the pieces concatenate back. *)
Lemma concat_chunks {A} n (l : list A) : (0 < n)%nat → concat (chunks n l) = l.
Proof.
  intros Hn. induction l as [l IH] using list_length_ind.
  destruct l as [|x l]; [done|].
  rewrite (chunks_cons n (x :: l)) by done. cbn [concat].
  rewrite IH; [by rewrite take_drop|]. rewrite length_drop. cbn [length]. lia.
Qed.

Lemma length_concat_const {A} n (ls : list (list A)) : Forall (λ l, length l = n) ls →
  length (concat ls) = (length ls * n)%nat.
Proof. induction 1 as [|l ls Hl _ IH]; cbn; rewrite ?length_app; lia. Qed.

Lemma chunks_concat {A} n (ls : list (list A)) : (0 < n)%nat → Forall (λ l, length l = n) ls →
  chunks n (concat ls) = ls.
Proof.
  intros Hn. induction 1 as [|l ls Hl _ IH]; [done|]. cbn [concat].
  rewrite chunks_cons; [|done|by destruct l; [cbn in Hl; lia|]].
  rewrite take_app_length', drop_app_length' by done. by rewrite IH.
Qed.

Lemma chunks_exact {A} n (l : list A) : (0 < n)%nat → (length l mod n = 0)%nat →
  Forall (λ c, length c = n) (chunks n l).
Proof.
  intros Hn. induction l as [l IH] using list_length_ind. intros Hm.
  destruct l as [|x l]; [constructor|]. rewrite chunks_cons by done.
  assert (Hge : (n ≤ length (x :: l))%nat).
  { destruct (Nat.le_gt_cases n (length (x :: l))); [done|]. rewrite Nat.mod_small in Hm by done.
    cbn in Hm. lia. }
  constructor; [rewrite length_take; lia|]. apply IH; rewrite length_drop; [cbn [length]; lia|].
  rewrite <- Hm. replace (length (x :: l)) with ((length (x :: l) - n) + 1 * n)%nat at 2 by lia.
  by rewrite Nat.Div0.mod_add.
Qed.

(** ** Searches *)

(** [iter().find(p)] *)
Fixpoint find_first {A} (p : A → bool) (l : list A) : option A :=
  match l with
  | [] => None
  | x :: l => if p x then Some x else find_first p l
  end.

(** [iter().position(p)] *)
Fixpoint position {A} (p : A → bool) (l : list A) : option nat :=
  match l with
  | [] => None
  | x :: l => if p x then Some O else S <$> position p l
  end.

(** [iter().find_map(f)] *)
Fixpoint find_map {A B} (f : A → option B) (l : list A) : option B :=
  match l with
  | [] => None
  | x :: l => match f x with Some y => Some y | None => find_map f l end
  end.

Lemma find_first_Some {A} (p : A → bool) l x :
  find_first p l = Some x → x ∈ l ∧ p x = true.
Proof.
  induction l as [|y l IH]; cbn; [done|].
  destruct (p y) eqn:E; intros; simplify_eq.
  - split; [apply list_elem_of_here|done].
  - destruct IH; auto. split; [by apply list_elem_of_further|done].
Qed.

Lemma find_first_None {A} (p : A → bool) l :
  find_first p l = None ↔ Forall (λ x, p x = false) l.
Proof.
  induction l as [|y l IH]; cbn; [done|].
  rewrite Forall_cons. destruct (p y) eqn:E; naive_solver.
Qed.

Lemma position_Some {A} (p : A → bool) l i :
  position p l = Some i ↔
  (∃ x, l !! i = Some x ∧ p x = true) ∧
  ∀ j y, (j < i)%nat → l !! j = Some y → p y = false.
Proof.
  revert i; induction l as [|x l IH]; intros i; cbn.
  { split; [done|]. by intros [(? & ? & _) _]. }
  destruct (p x) eqn:E.
  - split.
    + intros [= <-]. split; [eauto|]. lia.
    + intros [_ Hmin]. destruct i as [|i]; [done|].
      specialize (Hmin O x ltac:(lia) eq_refl). congruence.
  - rewrite fmap_Some. split.
    + intros (k & Hk & ->). apply IH in Hk as [Hx Hmin]. split; [exact Hx|].
      intros [|j] y Hj; cbn; [naive_solver|]. apply Hmin. lia.
    + intros [Hx Hmin]. destruct i as [|i].
      { destruct Hx as (? & [= <-] & ?). congruence. }
      exists i. split; [|done]. apply IH. split; [exact Hx|].
      intros j y Hj Hy. apply (Hmin (S j)); [lia|done].
Qed.

Lemma position_None {A} (p : A → bool) l :
  position p l = None ↔ Forall (λ x, p x = false) l.
Proof.
  induction l as [|x l IH]; cbn; [done|]. rewrite Forall_cons.
  destruct (p x) eqn:E; [naive_solver|]. rewrite fmap_None. naive_solver.
Qed.

Lemma find_map_Some {A B} (f : A → option B) l y :
  find_map f l = Some y → ∃ x, x ∈ l ∧ f x = Some y.
Proof.
  induction l as [|x l IH]; cbn; [done|].
  destruct (f x) eqn:E; intros; simplify_eq.
  - exists x. split; [apply list_elem_of_here|done].
  - destruct IH as (z & ? & ?); auto. exists z. split; [by apply list_elem_of_further|done].
Qed.

Lemma find_map_None {A B} (f : A → option B) l :
  find_map f l = None ↔ Forall (λ x, f x = None) l.
Proof.
  induction l as [|x l IH]; cbn; [done|]. rewrite Forall_cons.
  destruct (f x) eqn:E; naive_solver.
Qed.

(** ** Filters and choices *)

Lemma filter_same {A} (f g : A → bool) l : (∀ x, x ∈ l → f x = g x) → List.filter f l = List.filter g l.
Proof.
  intros E. induction l as [|x l IH]; [done|]. cbn. rewrite E by apply list_elem_of_here.
  rewrite IH; [done|]. intros y Hy. apply E. by apply list_elem_of_further.
Qed.

(** A stronger test that keeps as many elements keeps the same ones. *)
Lemma keep_all {A} (p q : A → bool) l : (∀ x, p x = true → q x = true) →
  (length (List.filter q l) ≤ length (List.filter p l))%nat → Forall (λ x, q x = true → p x = true) l.
Proof.
  intros Hpq. assert (∀ k, (length (List.filter p k) ≤ length (List.filter q k))%nat) as Hle.
  { intros k; induction k as [|x k IH]; [done|]. cbn. destruct (p x) eqn:Ep; [rewrite (Hpq x Ep); cbn; lia|].
    destruct (q x); cbn; lia. }
  induction l as [|x l IH]; intros Hl; [constructor|]. cbn in Hl. specialize (Hle l).
  destruct (p x) eqn:Ep; [rewrite (Hpq x Ep) in Hl|destruct (q x) eqn:Eq]; cbn in Hl; try lia;
    (constructor; [congruence|apply IH; lia]).
Qed.
Lemma forall_choice {A B} (P : A → B → Prop) l : Forall (λ x, ∃ y, P x y) l → ∃ k, Forall2 P l k.
Proof. induction 1 as [|x l (y & Hy) _ (k & IH)]; [by exists []|]. exists (y :: k). by constructor. Qed.

(** Decidable absence of duplicates, as a [HashSet] size test computes it. *)
Definition distinct {A} `{EqDecision A} (l : list A) : bool := bool_decide (NoDup l).

Lemma distinct_NoDup {A} `{EqDecision A} (l : list A) : distinct l = true ↔ NoDup l.
Proof. apply bool_decide_eq_true. Qed.

(** ** Tactics *)

(** Destruct a chain of successful [Result]/[option] binds in hypotheses. *)
Ltac inv_bind :=
  repeat match goal with
  | H : _ ≫= _ = Ok _ |- _ =>
      apply bind_Ok in H; let a := fresh "a" in let E := fresh "E" in
      destruct H as (a & E & H)
  | H : _ ≫= _ = Some _ |- _ =>
      apply bind_Some in H; let a := fresh "a" in let E := fresh "E" in
      destruct H as (a & E & H)
  | H : ensure _ _ = Ok _ |- _ => apply ensure_Ok in H
  | H : ok_or _ _ = Ok _ |- _ => apply ok_or_Ok in H
  | H : mret _ = Ok _ |- _ => injection H as H
  | H : Ok _ = Ok _ |- _ => injection H as H
  | H : Err _ = Ok _ |- _ => discriminate H
  end.

(** Boolean tests as propositions. *)
Ltac bool_props :=
  repeat match goal with
  | H : andb _ _ = true |- _ => apply andb_true_iff in H as [? ?]
  | H : orb _ _ = false |- _ => apply orb_false_iff in H as [? ?]
  | H : negb _ = true |- _ => apply negb_true_iff in H
  | H : negb _ = false |- _ => apply negb_false_iff in H
  | H : bool_decide _ = true |- _ => apply bool_decide_eq_true in H
  | H : bool_decide _ = false |- _ => apply bool_decide_eq_false in H
  | H : (_ =? _) = true |- _ => apply Z.eqb_eq in H
  | H : (_ =? _) = false |- _ => apply Z.eqb_neq in H
  | H : (_ <? _) = true |- _ => apply Z.ltb_lt in H
  | H : (_ <? _) = false |- _ => apply Z.ltb_ge in H
  | H : (_ <=? _) = true |- _ => apply Z.leb_le in H
  | H : (_ <=? _) = false |- _ => apply Z.leb_gt in H
  end.

(** Prove [Forall] of an explicit list element by element. *)
Ltac forall_list :=
  repeat (apply List.Forall_cons; [first [done | lia | assumption | idtac]|]); try apply List.Forall_nil.

(** Split the first conditional of the goal and close easy branches. *)
Ltac case_if :=
  match goal with
  | |- context [if ?b then _ else _] => destruct b eqn:?
  end.
