(* ===== verification/Text.v ===== *)
(** * Rust strings

    A Rust string is the list of its Unicode scalar values.  The methods of the
    standard library the sources call - trimming, splitting, byte-indexed slicing,
    number parsing and formatting - and the hexadecimal helpers of
    [crates/opencsv-cbf/src/hash.rs] and [crates/opencsv-bitcoin/src/chain.rs], with
    the round trips the file formats rest on. *)

From S2P Require Import Prelude.
From Stdlib Require Strings.String.
#[local] Open Scope Z_scope.

(** ** Rust strings *)
Definition rstring : Type := list Z.

Definition is_scalar (c : Z) : Prop := 0 ≤ c < 0xD800 ∨ 0xE000 ≤ c ≤ 0x10FFFF.

#[export] Instance is_scalar_dec c : Decision (is_scalar c).
Proof. unfold is_scalar. apply _. Defined.

Definition utf8_char (c : Z) : bytes :=
  if c <? 0x80 then [bof c]
  else if c <? 0x800 then [bof (0xC0 + c / 64); bof (0x80 + c mod 64)]
  else if c <? 0x10000 then
    [bof (0xE0 + c / 4096); bof (0x80 + c / 64 mod 64); bof (0x80 + c mod 64)]
  else [bof (0xF0 + c / 262144); bof (0x80 + c / 4096 mod 64); bof (0x80 + c / 64 mod 64);
        bof (0x80 + c mod 64)].

(** [str::as_bytes] *)
Definition utf8 (s : rstring) : bytes := concat (utf8_char <$> s).

(** A string literal of the sources. *)
Definition lit (s : string) : rstring := bval <$> Strings.String.list_byte_of_string s.

#[global] Arguments lit : simpl never.

(** [char::is_control] and [char::is_whitespace] *)
Definition is_control (c : Z) : bool := (c <=? 0x1F) || ((0x7F <=? c) && (c <=? 0x9F)).
Definition is_whitespace (c : Z) : bool :=
  ((9 <=? c) && (c <=? 13)) || ((0x2000 <=? c) && (c <=? 0x200A)) ||
  bool_decide (c ∈ [0x20; 0x85; 0xA0; 0x1680; 0x2028; 0x2029; 0x202F; 0x205F; 0x3000]).

Fixpoint trim_start (s : rstring) : rstring :=
  match s with [] => [] | c :: s' => if is_whitespace c then trim_start s' else s end.
Definition trim (s : rstring) : rstring := reverse (trim_start (reverse (trim_start s))).

Definition starts_with (s p : rstring) : bool := bool_decide (take (length p) s = p).

(** [str::strip_prefix] *)
Definition strip_prefix (s p : rstring) : option rstring :=
  if starts_with s p then Some (drop (length p) s) else None.

(** [str::strip_suffix] and [str::rsplit_once] for one character. *)
Definition strip_last (c : Z) (s : rstring) : option rstring :=
  match reverse s with
  | x :: r => if x =? c then Some (reverse r) else None
  | [] => None
  end.

Fixpoint split_once (c : Z) (s : rstring) : option (rstring * rstring) :=
  match s with
  | [] => None
  | x :: r => if x =? c then Some ([], r)
              else '(a, b) ← split_once c r; Some (x :: a, b)
  end.

Definition rsplit_once (c : Z) (s : rstring) : option (rstring * rstring) :=
  '(b, a) ← split_once c (reverse s); Some (reverse a, reverse b).

(** [s.split_at(n)] on a byte offset; [None] is the panic of an offset that is out of
    range or inside a character. *)
Fixpoint split_bytes (n : nat) (s : rstring) : option (rstring * rstring) :=
  match n, s with
  | O, _ => Some ([], s)
  | _, [] => None
  | _, c :: r =>
    let k := length (utf8_char c) in
    if bool_decide (k ≤ n)%nat then '(a, b) ← split_bytes (n - k) r; Some (c :: a, b) else None
  end.

(** [str::lines]: the text of a line without its terminator. *)
Definition strip_cr (s : rstring) : rstring :=
  match strip_last 13 s with Some r => r | None => s end.

Fixpoint lines_from (line : rstring) (s : rstring) : list rstring :=
  match s with
  | [] => match line with [] => [] | _ => [reverse line] end
  | c :: r => if c =? 10 then strip_cr (reverse line) :: lines_from [] r
              else lines_from (c :: line) r
  end.
Definition lines (s : rstring) : list rstring := lines_from [] s.

(** [str::split_whitespace] *)
Fixpoint words_from (word : rstring) (s : rstring) : list rstring :=
  match s with
  | [] => match word with [] => [] | _ => [reverse word] end
  | c :: r => if is_whitespace c
              then match word with [] => words_from [] r | _ => reverse word :: words_from [] r end
              else words_from (c :: word) r
  end.
Definition split_whitespace (s : rstring) : list rstring := words_from [] s.

(** [char::to_digit] *)
Definition to_digit (radix c : Z) : option Z :=
  let d := if (48 <=? c) && (c <=? 57) then c - 48
           else if (97 <=? c) && (c <=? 122) then c - 87
           else if (65 <=? c) && (c <=? 90) then c - 55 else radix in
  if d <? radix then Some d else None.

Fixpoint parse_digits (radix max acc : Z) (s : rstring) : option Z :=
  match s with
  | [] => Some acc
  | c :: r => d ← to_digit radix c;
              let v := acc * radix + d in
              if v <=? max then parse_digits radix max v r else None
  end.

(** [uN::from_str_radix]: a leading plus sign is accepted before digits. *)
Definition from_str_radix (radix max : Z) (s : rstring) : option Z :=
  match s with
  | [] => None
  | c :: r => if c =? 43 then match r with [] => None | _ => parse_digits radix max 0 r end
              else parse_digits radix max 0 s
  end.
Definition parse_u64 : rstring → option Z := from_str_radix 10 u64_max.
Definition parse_u32 : rstring → option Z := from_str_radix 10 u32_max.
Definition parse_u8 : rstring → option Z := from_str_radix 10 u8_max.

(** The [{}] format of an unsigned integer below 10^20. *)
Fixpoint decimal_digits (fuel : nat) (n : Z) : rstring :=
  match fuel with
  | O => []
  | S fuel => if n <? 10 then [48 + n] else decimal_digits fuel (n / 10) ++ [48 + n mod 10]
  end.
Definition decimal (n : Z) : rstring := decimal_digits 20 n.

(** ** Hexadecimal *)
Definition hex_digit (n : Z) : Z := if n <? 10 then 48 + n else 87 + n.
Definition to_hex (bs : bytes) : rstring :=
  concat ((λ b, [hex_digit (bval b / 16); hex_digit (bval b mod 16)]) <$> bs).

(** [Sliced] is the panic of slicing inside a character; the others are errors. *)
Inductive HexError := OddLength (n : Z) | NonHex (offset : Z) | Sliced.

(** [(0..s.len()).step_by(2)]: [n] steps, the first at byte [i]. *)
Fixpoint hex_loop (n : nat) (i : Z) (s : rstring) : result HexError bytes :=
  match n with
  | O => Ok []
  | S n =>
    '(two, rest) ← ok_or (split_bytes 2 s) Sliced;
    b ← ok_or (from_str_radix 16 u8_max two) (NonHex i);
    bs ← hex_loop n (i + 2) rest;
    Ok (bof b :: bs)
  end.

Definition from_hex (s : rstring) : result HexError bytes :=
  let s := trim s in
  let len := length (utf8 s) in
  ensure (Nat.even len) (OddLength (Z.of_nat len));;
  hex_loop (len / 2) 0 s.

(** [hash_to_display], [hash_to_rpc] *)
Definition hash_to_display (hash : bytes) : rstring := to_hex (reverse hash).

(** ** A line of words *)
Fixpoint unwords (ws : list rstring) : rstring :=
  match ws with
  | [] => []
  | [w] => w
  | w :: ws => w ++ 32 :: unwords ws
  end.

(** [std::fs::read_to_string]: what reading a text file gives. *)
Inductive FileRead (E : Type) := NoFile | Unreadable (e : E) | Contents (text : rstring).
Arguments NoFile {E}.
Arguments Unreadable {E} e.
Arguments Contents {E} text.

(** ** Lemmas: UTF-8 is self-delimiting *)

(** Reading one character back. *)
Definition utf8_next (bs : bytes) : option (Z * bytes) :=
  match bs with
  | b0 :: r =>
    let z := bval b0 in
    if z <? 0x80 then Some (z, r)
    else if z <? 0xE0 then
      match r with b1 :: r => Some ((z - 0xC0) * 64 + (bval b1 - 0x80), r) | _ => None end
    else if z <? 0xF0 then
      match r with
      | b1 :: b2 :: r => Some ((z - 0xE0) * 4096 + (bval b1 - 0x80) * 64 + (bval b2 - 0x80), r)
      | _ => None
      end
    else
      match r with
      | b1 :: b2 :: b3 :: r => Some ((z - 0xF0) * 262144 + (bval b1 - 0x80) * 4096 +
                                     (bval b2 - 0x80) * 64 + (bval b3 - 0x80), r)
      | _ => None
      end
  | [] => None
  end.

Lemma bval_small z : 0 ≤ z < 256 → bval (bof z) = z.
Proof. intros. rewrite bval_bof. by apply Z.mod_small. Qed.

(** Base-64 digits. *)
Lemma digits64 c : 0 ≤ c →
  c = 64 * (c / 64) + c mod 64 ∧ 0 ≤ c mod 64 < 64 ∧ 0 ≤ c / 64 ∧ c / 64 / 64 = c / 4096 ∧
  c / 64 / 64 / 64 = c / 262144.
Proof.
  intros Hc. pose proof (Z.div_mod c 64 ltac:(lia)). pose proof (Z.mod_pos_bound c 64 ltac:(lia)).
  pose proof (Z.div_pos c 64 Hc ltac:(lia)). rewrite !Z.div_div by lia. split_and!; lia || done.
Qed.

Ltac decide_tests :=
  repeat match goal with |- context [?a <? ?b] =>
    first [rewrite (proj2 (Z.ltb_lt a b)) by lia | rewrite (proj2 (Z.ltb_ge a b)) by lia] end.

Lemma utf8_char_next c rest : is_scalar c → utf8_next (utf8_char c ++ rest) = Some (c, rest).
Proof.
  intros Hc. assert (0 ≤ c ≤ 0x10FFFF) as Hr by (unfold is_scalar in Hc; lia). clear Hc. unfold utf8_char.
  destruct (digits64 c ltac:(lia)) as (E1 & R1 & P1 & D2 & D3).
  destruct (digits64 (c / 64) P1) as (E2 & R2 & P2 & _ & _).
  destruct (digits64 (c / 64 / 64) P2) as (E3 & R3 & P3 & _ & _). rewrite <- D2, <- D3.
  destruct (c <? 0x80) eqn:T1; [|destruct (c <? 0x800) eqn:T2; [|destruct (c <? 0x10000) eqn:T3]]; bool_props;
    cbn [app utf8_next]; rewrite !bval_small by lia; decide_tests; repeat f_equal; lia.
Qed.

Lemma utf8_char_nonempty c : utf8_char c ≠ [].
Proof. unfold utf8_char. repeat case_match; done. Qed.

Lemma utf8_inj s t : Forall is_scalar s → Forall is_scalar t → utf8 s = utf8 t → s = t.
Proof.
  revert t; induction s as [|c s IH]; intros [|d t] Hs Ht E; cbn in E; [done| | |].
  - symmetry in E. apply app_nil in E as [E _]. by apply utf8_char_nonempty in E.
  - apply app_nil in E as [E _]. by apply utf8_char_nonempty in E.
  - apply Forall_cons in Hs as [Hc Hs], Ht as [Hd Ht]. apply (f_equal utf8_next) in E.
    rewrite !utf8_char_next in E by done. injection E as -> E. f_equal. by apply IH.
Qed.

(** [std::str::from_utf8]: the bytes are the encoding of what they decode to. *)
Fixpoint utf8_decode (fuel : nat) (bs : bytes) : option rstring :=
  match fuel, bs with
  | _, [] => Some []
  | O, _ => None
  | S fuel, _ => '(c, rest) ← utf8_next bs; s ← utf8_decode fuel rest; Some (c :: s)
  end.
Definition from_utf8 (bs : bytes) : option rstring :=
  s ← utf8_decode (length bs) bs;
  if bool_decide (Forall is_scalar s) && bool_decide (utf8 s = bs) then Some s else None.

Lemma utf8_decode_utf8 s : ∀ fuel, Forall is_scalar s → (length s ≤ fuel)%nat → utf8_decode fuel (utf8 s) = Some s.
Proof.
  induction s as [|c s IH]; intros fuel Hs Hf; [by destruct fuel|]. apply Forall_cons in Hs as [Hc Hs].
  destruct fuel as [|fuel]; [cbn in Hf; lia|]. change (utf8 (c :: s)) with (utf8_char c ++ utf8 s).
  cbn [utf8_decode]. destruct (utf8_char c ++ utf8 s) as [|b r] eqn:E; [by apply app_nil in E as [E%utf8_char_nonempty _]|].
  rewrite <- E, utf8_char_next by done. cbn [mbind option_bind]. rewrite IH; [done|done|cbn in Hf; lia].
Qed.

Lemma length_utf8 s : (length s ≤ length (utf8 s))%nat.
Proof.
  induction s as [|c s IH]; [done|]. change (utf8 (c :: s)) with (utf8_char c ++ utf8 s). rewrite length_app.
  destruct (utf8_char c) eqn:E; [by apply utf8_char_nonempty in E|]. cbn. lia.
Qed.

Lemma from_utf8_exact bs s : from_utf8 bs = Some s ↔ Forall is_scalar s ∧ bs = utf8 s.
Proof.
  unfold from_utf8. split.
  - intros E. apply bind_Some in E as (t & _ & E). case_bool_decide; [|done]. case_bool_decide; [|done].
    by injection E as <-.
  - intros [Hs ->]. rewrite utf8_decode_utf8 by (done || apply length_utf8). cbn [mbind option_bind].
    by rewrite !bool_decide_eq_true_2.
Qed.

Lemma lit_scalar s : Forall is_scalar (lit s).
Proof.
  unfold lit. apply Forall_fmap, Forall_forall. intros b _. cbn. left. pose proof (bval_bound b). lia.
Qed.


(** ** Lemmas: printable words *)

(** A word of the file formats: visible ASCII characters. *)
Definition visible (c : Z) : Prop := 33 ≤ c ≤ 126.
Definition word (s : rstring) : Prop := s ≠ [] ∧ Forall visible s.

#[export] Instance visible_dec c : Decision (visible c).
Proof. unfold visible. apply _. Defined.

Lemma visible_utf8 c : 0 ≤ c < 128 → utf8_char c = [bof c].
Proof. intros. unfold utf8_char. by rewrite (proj2 (Z.ltb_lt _ _)) by lia. Qed.

Lemma visible_not_space c : visible c → is_whitespace c = false.
Proof.
  unfold visible, is_whitespace. intros Hc. repeat rewrite orb_false_iff. rewrite !andb_false_iff, !Z.leb_gt.
  split; [lia|]. apply bool_decide_eq_false. rewrite !elem_of_cons, elem_of_nil. lia.
Qed.

Lemma trim_start_visible s : Forall visible s → trim_start s = s.
Proof. destruct 1 as [|c s Hc _]; [done|]. cbn. by rewrite visible_not_space. Qed.

Lemma trim_visible s : Forall visible s → trim s = s.
Proof.
  intros Hs. unfold trim. rewrite (trim_start_visible s Hs), (trim_start_visible (reverse s)) by (by rewrite Forall_reverse).
  apply reverse_involutive.
Qed.

Lemma length_utf8_ascii s : Forall (λ c, 0 ≤ c < 128) s → length (utf8 s) = length s.
Proof.
  induction 1 as [|c s Hc _ IH]; [done|]. unfold utf8 in *. cbn. by rewrite visible_utf8, length_app, IH.
Qed.

Lemma visible_ascii s : Forall visible s → Forall (λ c, 0 ≤ c < 128) s.
Proof. intros Hs. eapply Forall_impl; [exact Hs|]. unfold visible. cbn. lia. Qed.

Lemma split_bytes_ascii a r : Forall (λ c, 0 ≤ c < 128) a → split_bytes (length a) (a ++ r) = Some (a, r).
Proof.
  induction 1 as [|c a Hc _ IH]; [by destruct r|]. cbn in Hc |- *. rewrite visible_utf8 by done. cbn.
  by rewrite Nat.sub_0_r, IH.
Qed.

Lemma split_bytes_parts n s a b : split_bytes n s = Some (a, b) → s = a ++ b ∧ length (utf8 a) = n.
Proof.
  revert n a b; induction s as [|c s IH]; intros [|n] a b; cbn; try by intros [= <- <-].
  case_bool_decide as Hk; [|done]. destruct (split_bytes _ s) as [[x y]|] eqn:E; [|done].
  cbn. intros [= <- <-]. apply IH in E as [-> El]. split; [done|]. cbn. rewrite length_app. unfold utf8 in *. lia.
Qed.

(** Splitting after whole characters never panics. *)
Lemma split_bytes_app a b : split_bytes (length (utf8 a)) (a ++ b) = Some (a, b).
Proof.
  induction a as [|c a IH]; [by destruct b|]. unfold utf8 in *. cbn. rewrite length_app.
  pose proof (utf8_char_nonempty c). destruct (length (utf8_char c)) as [|k] eqn:Ek; [by destruct (utf8_char c)|].
  cbn [Nat.add]. rewrite bool_decide_true by lia. 
  replace (S (k + length (concat (utf8_char <$> a))) - S k)%nat with (length (concat (utf8_char <$> a))) by lia.
  by rewrite IH.
Qed.

(** ** Lemmas: splitting *)

Lemma words_from_word w acc r : Forall visible w → words_from acc (w ++ r) = words_from (reverse w ++ acc) r.
Proof.
  intros Hw; revert acc; induction Hw as [|c w Hc _ IH]; intros acc; [done|].
  cbn [app words_from]. rewrite visible_not_space by done. rewrite IH, reverse_cons, <- app_assoc. done.
Qed.

Lemma split_unwords ws : Forall word ws → split_whitespace (unwords ws) = ws.
Proof.
  unfold split_whitespace. induction 1 as [|w ws [Hne Hw] Hws IH]; [done|].
  destruct ws as [|v ws].
  - cbn [unwords]. rewrite <- (app_nil_r w) at 1. rewrite words_from_word by done. cbn. rewrite app_nil_r.
    destruct (reverse w) eqn:E; [|by rewrite <- E, reverse_involutive].
    apply (f_equal reverse) in E. rewrite reverse_involutive in E. by subst.
  - cbn [unwords] in *. rewrite words_from_word by done. rewrite app_nil_r. cbn [words_from].
    change (is_whitespace 32) with true. cbv iota.
    destruct (reverse w) eqn:E; [|by rewrite <- E, reverse_involutive, IH].
    apply (f_equal reverse) in E. rewrite reverse_involutive in E. by subst.
Qed.

(** Text without line breaks. *)
Definition one_line (s : rstring) : Prop := Forall (λ c, c ≠ 10 ∧ c ≠ 13) s.

Lemma lines_from_line l acc r : one_line l → lines_from acc (l ++ r) = lines_from (reverse l ++ acc) r.
Proof.
  intros Hl; revert acc; induction Hl as [|c l [Hc _] _ IH]; intros acc; [done|].
  cbn [app lines_from]. rewrite (proj2 (Z.eqb_neq _ _)) by done. by rewrite IH, reverse_cons, <- app_assoc.
Qed.

Lemma strip_cr_line l : one_line l → strip_cr l = l.
Proof.
  intros Hl. unfold strip_cr, strip_last. destruct (reverse l) as [|c r] eqn:E; [done|].
  assert (c ≠ 13) as Hc.
  { apply (f_equal reverse) in E. rewrite reverse_involutive, reverse_cons in E. subst l.
    apply Forall_app in Hl as [_ Hl]. by apply Forall_singleton in Hl as [_ ?]. }
  by rewrite (proj2 (Z.eqb_neq _ _)).
Qed.

Lemma lines_concat ls : Forall one_line ls → lines (concat ((λ l, l ++ [10]) <$> ls)) = ls.
Proof.
  unfold lines. induction 1 as [|l ls Hl _ IH]; [done|]. cbn [fmap list_fmap concat].
  rewrite <- app_assoc, lines_from_line by done. rewrite app_nil_r. cbn [app lines_from].
  change (10 =? 10) with true. cbv iota. by rewrite reverse_involutive, strip_cr_line, IH.
Qed.

Lemma one_line_words ws : Forall word ws → one_line (unwords ws).
Proof.
  induction 1 as [|w ws [_ Hw] _ IH]; [constructor|].
  assert (one_line w) by (eapply Forall_impl; [exact Hw|]; unfold visible; intros; cbn in *; lia).
  destruct ws; [done|]. apply Forall_app. split; [done|]. constructor; [lia|done].
Qed.

Lemma strip_last_snoc c s : strip_last c (s ++ [c]) = Some s.
Proof. unfold strip_last. rewrite reverse_snoc, Z.eqb_refl. by rewrite reverse_involutive. Qed.

Lemma split_once_app c a b : Forall (λ x, x ≠ c) a → split_once c (a ++ c :: b) = Some (a, b).
Proof.
  induction 1 as [|x a Hx _ IH]; cbn [app split_once]; [by rewrite Z.eqb_refl|].
  rewrite (proj2 (Z.eqb_neq _ _)) by done. by rewrite IH.
Qed.

Lemma rsplit_once_app c a b : Forall (λ x, x ≠ c) b → rsplit_once c (a ++ c :: b) = Some (a, b).
Proof.
  intros Hb. unfold rsplit_once. rewrite reverse_app, reverse_cons, <- app_assoc. cbn [app].
  rewrite split_once_app by (by rewrite Forall_reverse). cbn. by rewrite !reverse_involutive.
Qed.

Lemma strip_prefix_app p s : strip_prefix (p ++ s) p = Some s.
Proof.
  unfold strip_prefix, starts_with. rewrite take_app_length, bool_decide_eq_true_2 by done.
  by rewrite drop_app_length.
Qed.

(** ** Lemmas: numbers *)

Lemma to_digit_decimal radix d : 0 ≤ d < 10 → d < radix → to_digit radix (48 + d) = Some d.
Proof.
  intros Hd Hr. unfold to_digit. rewrite !(proj2 (Z.leb_le _ _)) by lia. cbn.
  replace (48 + d - 48) with d by lia. by rewrite (proj2 (Z.ltb_lt _ _)).
Qed.

Lemma parse_digits_app radix max a b : ∀ acc,
  parse_digits radix max acc (a ++ b) = v ← parse_digits radix max acc a; parse_digits radix max v b.
Proof.
  induction a as [|c a IH]; intros acc; [done|]. cbn.
  destruct (to_digit radix c) as [d|]; [|done]. cbn. by destruct (_ <=? max).
Qed.

Lemma decimal_digits_visible fuel n : 0 ≤ n → Forall visible (decimal_digits fuel n).
Proof.
  revert n; induction fuel as [|fuel IH]; intros n Hn; cbn; [constructor|].
  assert (0 ≤ n mod 10 < 10) by by apply Z.mod_pos_bound.
  destruct (n <? 10) eqn:E; bool_props.
  - constructor; [unfold visible; lia|constructor].
  - apply Forall_app. split; [apply IH; by apply Z.div_pos|]. constructor; [unfold visible; lia|constructor].
Qed.

(** Formatting starts with a digit, never a sign. *)
Lemma decimal_digits_head fuel n : 0 ≤ n → ∃ d r, 0 ≤ d < 10 ∧ decimal_digits (S fuel) n = 48 + d :: r.
Proof.
  revert n; induction fuel as [|fuel IH]; intros n Hn; cbn [decimal_digits];
    assert (0 ≤ n mod 10 < 10) by (by apply Z.mod_pos_bound); destruct (n <? 10) eqn:E; bool_props.
  - by exists n, [].
  - by exists (n mod 10), [].
  - by exists n, [].
  - destruct (IH (n / 10)) as (d & r & Hd & Er); [by apply Z.div_pos|]. cbn [decimal_digits] in Er.
    rewrite Er. by eexists _, _.
Qed.

Lemma parse_decimal_digits max fuel n : 0 ≤ n < 10 ^ Z.of_nat fuel → n ≤ max →
  parse_digits 10 max 0 (decimal_digits fuel n) = Some n.
Proof.
  revert n; induction fuel as [|fuel IH]; intros n Hn Hm; [cbn in *; f_equal; lia|]. cbn [decimal_digits].
  destruct (n <? 10) eqn:E; bool_props.
  - cbn [parse_digits]. rewrite to_digit_decimal by lia. cbn. by rewrite (proj2 (Z.leb_le _ _)) by lia.
  - pose proof (Z.div_mod n 10 ltac:(lia)). pose proof (Z.mod_pos_bound n 10 ltac:(lia)).
    pose proof (Z.div_pos n 10 ltac:(lia) ltac:(lia)).
    rewrite parse_digits_app, IH; cycle 1.
    + split; [done|]. rewrite Nat2Z.inj_succ, Z.pow_succ_r in Hn by lia.
      apply Z.div_lt_upper_bound; lia.
    + lia.
    + cbn [mbind option_bind parse_digits]. rewrite to_digit_decimal by lia. cbn [mbind option_bind].
      rewrite (proj2 (Z.leb_le _ _)) by lia. f_equal. lia.
Qed.

Lemma decimal_word n : 0 ≤ n → word (decimal n).
Proof.
  intros Hn. split; [|by apply decimal_digits_visible]. unfold decimal.
  by destruct (decimal_digits_head 19 n Hn) as (d & r & _ & ->).
Qed.

Lemma parse_decimal max n : 0 ≤ n ≤ max → max ≤ u64_max → from_str_radix 10 max (decimal n) = Some n.
Proof.
  intros Hn Hm. assert (parse_digits 10 max 0 (decimal n) = Some n) as E.
  { apply parse_decimal_digits; [|lia]. change (Z.of_nat 20) with 20. unfold u64_max in Hm. lia. }
  unfold from_str_radix, decimal in *.
  destruct (decimal_digits_head 19 n) as (d & r & Hd & Er); [lia|]. rewrite Er in *.
  rewrite (proj2 (Z.eqb_neq _ _)) by lia. exact E.
Qed.

(** ** Lemmas: hexadecimal *)

Lemma hex_digit_visible n : 0 ≤ n < 16 → visible (hex_digit n).
Proof. unfold hex_digit, visible. destruct (n <? 10) eqn:E; bool_props; lia. Qed.

Lemma to_digit_hex n : 0 ≤ n < 16 → to_digit 16 (hex_digit n) = Some n.
Proof.
  intros Hn. unfold hex_digit. destruct (n <? 10) eqn:E; bool_props; [apply to_digit_decimal; lia|].
  unfold to_digit. rewrite !(proj2 (Z.leb_gt (87 + n) 57)) by lia. rewrite andb_false_r.
  rewrite !(proj2 (Z.leb_le _ _)) by lia. cbn. replace (87 + n - 87) with n by lia.
  by rewrite (proj2 (Z.ltb_lt _ _)) by lia.
Qed.

Lemma nibbles b : 0 ≤ bval b / 16 < 16 ∧ 0 ≤ bval b mod 16 < 16 ∧ bval b = bval b / 16 * 16 + bval b mod 16.
Proof.
  pose proof (bval_bound b). pose proof (Z.div_mod (bval b) 16 ltac:(lia)).
  pose proof (Z.mod_pos_bound (bval b) 16 ltac:(lia)).
  pose proof (Z.div_pos (bval b) 16 ltac:(lia) ltac:(lia)).
  pose proof (Z.div_lt_upper_bound (bval b) 16 16 ltac:(lia) ltac:(lia)). lia.
Qed.

Lemma to_hex_visible bs : Forall visible (to_hex bs).
Proof.
  unfold to_hex. apply Forall_concat, Forall_fmap, Forall_forall. intros b _. cbn.
  destruct (nibbles b) as (H1 & H2 & _). repeat constructor; by apply hex_digit_visible.
Qed.

Lemma to_hex_word bs : bs ≠ [] → word (to_hex bs).
Proof. intros Hb. split; [by destruct bs|apply to_hex_visible]. Qed.

Lemma length_to_hex bs : length (to_hex bs) = (2 * length bs)%nat.
Proof. unfold to_hex. rewrite (length_concat_const 2); [rewrite length_fmap; lia|]. apply Forall_fmap, Forall_forall. by intros b _. Qed.

Lemma parse_hex_byte b :
  from_str_radix 16 u8_max [hex_digit (bval b / 16); hex_digit (bval b mod 16)] = Some (bval b).
Proof.
  destruct (nibbles b) as (H1 & H2 & E). pose proof (bval_bound b). unfold from_str_radix.
  pose proof (hex_digit_visible _ H1). rewrite (proj2 (Z.eqb_neq _ 43)).
  2:{ unfold hex_digit. destruct (_ <? 10) eqn:E1; bool_props; lia. }
  cbn [parse_digits]. rewrite !to_digit_hex by done. cbn [mbind option_bind].
  rewrite Z.add_0_l, !(proj2 (Z.leb_le _ _)) by (unfold u8_max; lia). cbn [mbind option_bind]. f_equal. lia.
Qed.

Lemma hex_loop_to_hex bs i : hex_loop (length bs) i (to_hex bs) = Ok bs.
Proof.
  revert i; induction bs as [|b bs IH]; intros i; [done|]. cbn [length hex_loop].
  set (x := hex_digit (bval b / 16)). set (y := hex_digit (bval b mod 16)).
  change (to_hex (b :: bs)) with ([x; y] ++ to_hex bs).
  destruct (nibbles b) as (H1 & H2 & _).
  rewrite (split_bytes_ascii [x; y]) by (apply visible_ascii; repeat constructor; by apply hex_digit_visible).
  cbn [ok_or mbind result_bind]. unfold x, y. rewrite parse_hex_byte. cbn [ok_or mbind result_bind].
  rewrite IH. cbn. by rewrite bof_bval.
Qed.

Lemma from_to_hex bs : from_hex (to_hex bs) = Ok bs.
Proof.
  unfold from_hex. rewrite trim_visible by apply to_hex_visible.
  rewrite length_utf8_ascii, length_to_hex by apply visible_ascii, to_hex_visible.
  rewrite Nat.even_mul. cbn [Nat.even orb ensure mbind result_bind].
  rewrite Nat.mul_comm, Nat.div_mul by done. apply hex_loop_to_hex.
Qed.

Lemma to_hex_inj a b : to_hex a = to_hex b → a = b.
Proof. intros E. apply (f_equal from_hex) in E. rewrite !from_to_hex in E. by injection E. Qed.

#[global] Arguments decimal : simpl never.
#[global] Arguments to_hex : simpl never.

(** Reading hexadecimal panics exactly when a pair of bytes cuts a character. *)
Example hex_of_accented : from_hex [97; 233; 98] = Err Sliced.
Proof. vm_compute. reflexivity. Qed.
Example hex_with_signs : from_hex (lit "+f+1") = Ok [x0f; x01].
Proof. vm_compute. reflexivity. Qed.
