(* ===== verification/Field.v ===== *)
(** * Field encodings, digests and the Poseidon2 hash boundary

    Models [crates/opencsv-core/src/field.rs], [digest.rs] and the
    byte-identical copy of the hash boundary in
    [crates/opencsv-kernel/src/hash.rs].  The Poseidon2 sponge itself is
    third-party code (Plonky3): it is the class parameter [Poseidon], a map
    from absorbed field elements to the eight squeezed ones. *)

From S2P Require Import Prelude.

(** ** The sponge, a parameter *)

Class Poseidon := hash_iter : list Z → list Z.

Definition BABY_BEAR_P : Z := 0x78000001.
Definition DIGEST_ELEMS : nat := 8.
Definition DIGEST_BYTES : nat := 32.
Definition TRUNCATED_DIGEST_BYTES : nat := 24.

(** Documented behaviour of the sponge: it squeezes [DIGEST_ELEMS] canonical
    field elements. *)
Class PoseidonLaws (H : Poseidon) : Prop := {
  hash_iter_length : ∀ x, length (hash_iter x) = DIGEST_ELEMS;
  hash_iter_canonical : ∀ x, Forall (λ e, 0 ≤ e < BABY_BEAR_P) (hash_iter x);
}.

(** Two sponge inputs collide when they differ and squeeze the same output;
    [collides_prefix n] only compares the first [n] output elements. *)
Definition collides `{Poseidon} (x y : list Z) : Prop :=
  x ≠ y ∧ hash_iter x = hash_iter y.
Definition collides_prefix `{Poseidon} (n : nat) (x y : list Z) : Prop :=
  x ≠ y ∧ take n (hash_iter x) = take n (hash_iter y).

(** ** Encodings into field elements *)

(** [BabyBear::new]: reduce a [u32] modulo [p]. *)
Definition felt (x : Z) : Z := x mod BABY_BEAR_P.

Definition word_of_chunk (chunk : bytes) : Z :=
  le_val (chunk ++ zeros (4 - length chunk)).

Definition bytes_to_felts (bs : bytes) : list Z :=
  (λ chunk, felt (word_of_chunk chunk)) <$> chunks 3 bs.

Definition u64_to_felts (v : Z) : list Z :=
  [ felt (Z.land v 0xFFFFFF);
    felt (Z.land (Z.shiftr v 24) 0xFFFFFF);
    felt (Z.shiftr v 48) ].

Definition domain_bytes (domain : string) : bytes :=
  String.list_byte_of_string domain.

(** ** Digests *)

(** A [Digest] is a 32-byte string, a [TruncatedDigest] a 24-byte one. *)
Definition to_elems (d : bytes) : list Z :=
  (λ chunk, felt (le_val chunk)) <$> chunks 4 d.

Definition from_elems (elems : list Z) : bytes := concat (le_bytes 4 <$> elems).

Definition to_anchor (d : bytes) : bytes := take TRUNCATED_DIGEST_BYTES d.

Definition is_canonical (d : bytes) : bool :=
  forallb (λ chunk, le_val chunk <? BABY_BEAR_P) (chunks 4 d).

(** [Digest::deserialize] after the inner [[u8; 32]] was read. *)
Definition digest_deserialize (raw : bytes) : result string bytes :=
  if negb (is_canonical raw)
  then Err "non-canonical digest: a little-endian u32 limb is >= BabyBear p"%string
  else Ok raw.

(** [Digest::random_canonical]: [n] limbs drawn by rejection sampling from the
    [u32] stream of the generator; [None] when the finite prefix [rng] of that
    stream is used up before the last limb. *)
Fixpoint random_limb (rng : list Z) : option (Z * list Z) :=
  match rng with
  | [] => None
  | candidate :: rng =>
      if candidate <? BABY_BEAR_P then Some (candidate, rng) else random_limb rng
  end.

Fixpoint random_limbs (n : nat) (rng : list Z) : option bytes :=
  match n with
  | O => Some []
  | S n => '(canonical, rng) ← random_limb rng;
           rest ← random_limbs n rng;
           Some (le_bytes 4 canonical ++ rest)
  end.

Definition random_canonical (rng : list Z) : option bytes :=
  random_limbs DIGEST_ELEMS rng.

(** ** Domain-separated hashing *)

Definition hash_input (domain : string) (parts : list (list Z)) : list Z :=
  let domain_felts := bytes_to_felts (domain_bytes domain) in
  let n := (length domain_felts + sum_list (length <$> parts))%nat in
  felt (Z.of_nat n mod 2 ^ 32) :: domain_felts ++ concat parts.

Definition hash_felts `{Poseidon} (domain : string) (parts : list (list Z)) : bytes :=
  from_elems (hash_iter (hash_input domain parts)).

(** ** The kernel's copy of the hash boundary ([opencsv-kernel/src/hash.rs]) *)
Module KernelHash.
(** [while offset < bytes.len()] with the fuel of one iteration per byte. *)
Fixpoint bytes_to_felts_loop (fuel offset : nat) (bs : bytes) (result : list Z)
  : list Z :=
  match fuel with
  | O => result
  | S fuel =>
      if decide (offset < length bs)%nat then
        let e := Nat.min (offset + 3) (length bs) in
        let word := slice offset e bs ++ zeros (4 - (e - offset)) in
        bytes_to_felts_loop fuel e bs (result ++ [felt (le_val word)])
      else result
  end.

Definition bytes_to_felts (bs : bytes) : list Z :=
  bytes_to_felts_loop (length bs) 0 bs [].

Definition digest_to_felts (bs : bytes) : list Z :=
  (λ index, felt (le_val (slice (index * 4) (index * 4 + 4) bs)))
    <$> seq 0 DIGEST_ELEMS.

Definition hash_felts `{Poseidon} (domain : string) (parts : list (list Z)) : bytes :=
  let domain_felts := bytes_to_felts (domain_bytes domain) in
  let part_len := sum_list (length <$> parts) in
  let input_len := (length domain_felts + part_len)%nat in
  let input := felt (Z.of_nat input_len mod 2 ^ 32)
                 :: domain_felts ++ concat parts in
  concat (le_bytes 4 <$> hash_iter input).

Definition hash_bind `{Poseidon} (raw_nf ctx : bytes) : bytes :=
  hash_felts "bind" [digest_to_felts raw_nf; bytes_to_felts ctx].

Definition hash_batch `{Poseidon} (payloads : list bytes) (ctx : bytes) : bytes :=
  let payload_bytes := concat payloads in
  hash_felts "batch" [bytes_to_felts payload_bytes; bytes_to_felts ctx].
End KernelHash.

(** ** Lemmas on the byte encodings *)

Lemma le_val_zeros_app c n : le_val (c ++ zeros n) = le_val c.
Proof. rewrite le_val_app. unfold zeros. rewrite le_val_zeros. lia. Qed.

Lemma felt_small x : 0 ≤ x < BABY_BEAR_P → felt x = x.
Proof. apply Z.mod_small. Qed.

Lemma felt_range x : 0 ≤ felt x < BABY_BEAR_P.
Proof. apply Z.mod_pos_bound. done. Qed.

Lemma chunk3_felt c : (length c ≤ 3)%nat → felt (word_of_chunk c) = le_val c.
Proof.
  intros Hc. unfold word_of_chunk. rewrite le_val_zeros_app. apply felt_small.
  pose proof (le_val_bound c) as [H0 H1]. split; [done|].
  assert (256 ^ Z.of_nat (length c) ≤ 256 ^ 3) by (apply Z.pow_le_mono_r; lia).
  unfold BABY_BEAR_P. lia.
Qed.

Lemma chunks_bound {A} n (l : list A) : (0 < n)%nat →
  Forall (λ c, (0 < length c ≤ n)%nat) (chunks n l).
Proof.
  intros Hn. induction l as [l IH] using list_length_ind.
  destruct l as [|x l]; [done|].
  rewrite (chunks_cons n (x :: l)) by done. constructor.
  - rewrite length_take. cbn [length]. lia.
  - apply IH. rewrite length_drop. cbn [length]. lia.
Qed.

Lemma length_chunks_eq {A B} n (l : list A) (k : list B) : (0 < n)%nat →
  length l = length k → length (chunks n l) = length (chunks n k).
Proof.
  intros Hn. revert k. induction l as [l IH] using list_length_ind. intros k Hk.
  destruct l as [|x l], k as [|y k]; try done.
  rewrite (chunks_cons n (x :: l)), (chunks_cons n (y :: k)) by done.
  cbn [length]. f_equal.
  apply IH; rewrite !length_drop; cbn [length] in *; lia.
Qed.

(** Mapping an injective-per-length chunk reading is injective on strings of
    equal length. *)
Lemma chunks_map_inj {B} (f : bytes → B) n (P : bytes → Prop) l k : (0 < n)%nat →
  (∀ a b, (length a ≤ n)%nat → length a = length b → P a → P b → f a = f b → a = b) →
  length l = length k → Forall P (chunks n l) → Forall P (chunks n k) →
  f <$> chunks n l = f <$> chunks n k → l = k.
Proof.
  intros Hn Hf. revert k. induction l as [l IH] using list_length_ind. intros k Hk.
  destruct l as [|x l], k as [|y k]; try done.
  rewrite (chunks_cons n (x :: l)), (chunks_cons n (y :: k)) by done.
  rewrite !fmap_cons, !Forall_cons.
  intros [HPl HFl] [HPk HFk] [= Hhd Htl].
  rewrite <- (take_drop n (x :: l)), <- (take_drop n (y :: k)). f_equal.
  - apply Hf; try done; rewrite !length_take; lia.
  - apply IH; try done; rewrite !length_drop; cbn [length] in *; lia.
Qed.

Lemma bytes_to_felts_inj a b :
  length a = length b → bytes_to_felts a = bytes_to_felts b → a = b.
Proof.
  intros HL. unfold bytes_to_felts.
  apply (chunks_map_inj _ 3 (λ _, True)); [lia| |done|by apply Forall_true..].
  intros x y Hx Hxy _ _. rewrite !chunk3_felt by lia. by apply le_val_inj.
Qed.

Lemma length_bytes_to_felts a b :
  length a = length b → length (bytes_to_felts a) = length (bytes_to_felts b).
Proof. intros. unfold bytes_to_felts. rewrite !length_fmap. apply length_chunks_eq; lia. Qed.

Lemma land_ones_mod x n : 0 ≤ n → Z.land x (Z.ones n) = x mod 2 ^ n.
Proof. apply Z.land_ones. Qed.

Lemma u64_to_felts_val v : is_u64 v →
  u64_to_felts v = [v mod 2^24; (v / 2^24) mod 2^24; v / 2^48].
Proof.
  intros Hv. unfold u64_to_felts.
  change 0xFFFFFF with (Z.ones 24). rewrite !land_ones_mod by lia.
  rewrite !Z.shiftr_div_pow2 by lia. unfold is_u64, u64_max in Hv.
  rewrite !felt_small; [done|..]; unfold BABY_BEAR_P.
  - pose proof (Z.div_pos v (2^48)). split; [lia|].
    apply Z.lt_le_trans with (2^16); [|lia].
    apply Z.div_lt_upper_bound; lia.
  - pose proof (Z.mod_pos_bound (v / 2^24) (2^24)). lia.
  - pose proof (Z.mod_pos_bound v (2^24)). lia.
Qed.

Lemma u64_to_felts_inj v w : is_u64 v → is_u64 w →
  u64_to_felts v = u64_to_felts w → v = w.
Proof.
  intros Hv Hw. rewrite !u64_to_felts_val by done. intros [= H1 H2 H3].
  assert (E : ∀ x, x = x mod 2^24 + 2^24 * ((x / 2^24) mod 2^24) + 2^48 * (x / 2^48)).
  { intros x. rewrite (Z.div_mod x (2^24)) at 1 by lia.
    rewrite (Z.div_mod (x / 2^24) (2^24)) at 1 by lia.
    rewrite Z.div_div by lia. change (2^24 * 2^24) with (2^48). lia. }
  rewrite (E v), (E w). congruence.
Qed.

(** ** Digests: canonical encodings *)

Lemma chunks_app_exact {A} n (a b : list A) : (0 < n)%nat → length a = n →
  chunks n (a ++ b) = a :: chunks n b.
Proof.
  intros Hn Ha. rewrite chunks_cons; [|done|by destruct a; cbn in *; [lia|]].
  rewrite <- Ha, take_app_length, drop_app_length. done.
Qed.

Lemma chunks_from_elems elems :
  chunks 4 (from_elems elems) = le_bytes 4 <$> elems.
Proof.
  induction elems as [|e elems IH]; [done|]. unfold from_elems in *.
  rewrite fmap_cons. cbn [concat]. rewrite chunks_app_exact by (rewrite ?length_le_bytes; lia).
  by rewrite IH.
Qed.

Lemma length_from_elems elems : length (from_elems elems) = (4 * length elems)%nat.
Proof.
  induction elems as [|e elems IH]; [done|]. unfold from_elems in *.
  rewrite fmap_cons. cbn [concat]. rewrite length_app, length_le_bytes, IH. cbn. lia.
Qed.

Lemma to_from_elems elems : Forall (λ e, 0 ≤ e < BABY_BEAR_P) elems →
  to_elems (from_elems elems) = elems.
Proof.
  intros He. unfold to_elems. rewrite chunks_from_elems.
  induction He as [|e elems He _ IH]; [done|]. cbn [fmap list_fmap]. f_equal; [|exact IH].
  rewrite le_val_le_bytes_small, felt_small; unfold BABY_BEAR_P in *; lia.
Qed.

Lemma is_canonical_Forall d :
  is_canonical d = true ↔ Forall (λ c, le_val c < BABY_BEAR_P) (chunks 4 d).
Proof.
  unfold is_canonical. rewrite forallb_forall, Forall_forall.
  setoid_rewrite list_elem_of_In. by setoid_rewrite Z.ltb_lt.
Qed.

Lemma to_elems_inj a b :
  length a = length b → is_canonical a = true → is_canonical b = true →
  to_elems a = to_elems b → a = b.
Proof.
  intros HL Ha Hb. apply is_canonical_Forall in Ha, Hb. revert HL Ha Hb.
  apply (chunks_map_inj _ 4 (λ c, le_val c < BABY_BEAR_P)); [lia|].
  intros x y Hx Hxy Px Py.
  rewrite !felt_small by (pose proof (le_val_bound x); pose proof (le_val_bound y); lia).
  by apply le_val_inj.
Qed.

Lemma length_to_elems d n : length d = (4 * n)%nat → length (to_elems d) = n.
Proof.
  intros Hd. unfold to_elems. rewrite length_fmap. revert d Hd.
  induction n as [|n IH]; intros d Hd; [by destruct d|].
  rewrite chunks_cons by (try lia; destruct d; done). cbn [length]. f_equal.
  apply IH. rewrite length_drop. lia.
Qed.

Lemma is_canonical_from_elems elems :
  Forall (λ e, 0 ≤ e < BABY_BEAR_P) elems → is_canonical (from_elems elems) = true.
Proof.
  intros He. apply is_canonical_Forall. rewrite chunks_from_elems.
  apply Forall_fmap. eapply Forall_impl; [exact He|]. intros e ?. unfold compose.
  rewrite le_val_le_bytes_small; unfold BABY_BEAR_P in *; lia.
Qed.

Lemma from_to_elems d n : length d = (4 * n)%nat → is_canonical d = true →
  from_elems (to_elems d) = d.
Proof.
  intros Hd Hc.
  assert (HF : Forall (λ e, 0 ≤ e < BABY_BEAR_P) (to_elems d)).
  { unfold to_elems. apply Forall_fmap, Forall_forall. intros c _. apply felt_range. }
  apply to_elems_inj; [|by apply is_canonical_from_elems|done|by apply to_from_elems].
  rewrite length_from_elems, (length_to_elems d n) by done. lia.
Qed.

Lemma from_elems_inj a b :
  Forall (λ e, 0 ≤ e < BABY_BEAR_P) a → Forall (λ e, 0 ≤ e < BABY_BEAR_P) b →
  from_elems a = from_elems b → a = b.
Proof. intros Ha Hb E. by rewrite <- (to_from_elems a), <- (to_from_elems b), E. Qed.

(** The 24-byte anchor form keeps the first six field elements. *)
Lemma to_anchor_from_elems a :
  to_anchor (from_elems a) = from_elems (take 6 a).
Proof.
  unfold to_anchor, from_elems, TRUNCATED_DIGEST_BYTES.
  do 6 (destruct a as [|? a]; [done|]). cbn. by rewrite take_0.
Qed.

(** ** Hash inputs *)

Lemma hash_felts_digest `{PoseidonLaws} domain parts :
  length (hash_felts domain parts) = DIGEST_BYTES ∧
  is_canonical (hash_felts domain parts) = true.
Proof.
  unfold hash_felts. split.
  - by rewrite length_from_elems, hash_iter_length.
  - apply is_canonical_from_elems, hash_iter_canonical.
Qed.

(** Equal digests come from equal inputs or exhibit a collision of the sponge
    on the two inputs at hand. *)
Lemma hash_felts_inj `{PoseidonLaws} d1 p1 d2 p2 :
  hash_felts d1 p1 = hash_felts d2 p2 →
  hash_input d1 p1 = hash_input d2 p2 ∨
  collides (hash_input d1 p1) (hash_input d2 p2).
Proof.
  unfold hash_felts. intros E.
  apply from_elems_inj in E; [|apply hash_iter_canonical..].
  destruct (decide (hash_input d1 p1 = hash_input d2 p2)); [by left|by right].
Qed.

Lemma hash_felts_anchor_inj `{PoseidonLaws} d1 p1 d2 p2 :
  to_anchor (hash_felts d1 p1) = to_anchor (hash_felts d2 p2) →
  hash_input d1 p1 = hash_input d2 p2 ∨
  collides_prefix 6 (hash_input d1 p1) (hash_input d2 p2).
Proof.
  unfold hash_felts. rewrite !to_anchor_from_elems. intros E.
  apply from_elems_inj in E; [|apply Forall_take, hash_iter_canonical..].
  destruct (decide (hash_input d1 p1 = hash_input d2 p2)); [by left|by right].
Qed.

(** A concrete sponge for the witnesses: a weighted checksum spread over eight
    elements. It satisfies the documented laws and separates small inputs. *)
Definition demo_sponge : Poseidon := λ x,
  (λ i : nat, foldl (λ acc e, (acc * (31 + Z.of_nat i) + e + 7) mod BABY_BEAR_P)
                    (Z.of_nat i) x mod BABY_BEAR_P)
    <$> seq 1 DIGEST_ELEMS.

Lemma demo_sponge_laws : PoseidonLaws demo_sponge.
Proof.
  split; intros x; unfold hash_iter, demo_sponge.
  - by rewrite length_fmap, length_seq.
  - apply Forall_fmap, Forall_forall. intros i _. by apply Z.mod_pos_bound.
Qed.

(** ** The kernel's loops compute the core encodings *)

Lemma kernel_bytes_loop fuel offset bs acc :
  (length bs ≤ fuel + offset)%nat →
  KernelHash.bytes_to_felts_loop fuel offset bs acc
    = acc ++ bytes_to_felts (drop offset bs).
Proof.
  revert offset acc. induction fuel as [|fuel IH]; intros offset acc Hf; cbn.
  { rewrite drop_ge by lia. by rewrite app_nil_r. }
  case_decide as Ho.
  - rewrite IH by lia. rewrite <- app_assoc. f_equal.
    unfold bytes_to_felts at 2. rewrite chunks_cons; [|lia|].
    2: { intros E. apply (f_equal length) in E. rewrite length_drop in E. cbn in E. lia. }
    rewrite fmap_cons. cbn [app]. unfold word_of_chunk, slice. rewrite drop_drop.
    destruct (Nat.le_gt_cases (offset + 3) (length bs)).
    + rewrite Nat.min_l by lia. replace (offset + 3 - offset)%nat with 3%nat by lia.
      by rewrite length_take_le by (rewrite length_drop; lia).
    + rewrite Nat.min_r by lia.
      rewrite !(take_ge (drop offset bs)) by (rewrite length_drop; lia).
      rewrite length_drop, (drop_ge bs (length bs)), (drop_ge bs (offset + 3)) by lia. done.
  - rewrite drop_ge by lia. by rewrite app_nil_r.
Qed.

Lemma kernel_bytes_to_felts bs : KernelHash.bytes_to_felts bs = bytes_to_felts bs.
Proof. unfold KernelHash.bytes_to_felts. rewrite kernel_bytes_loop by lia. by rewrite drop_0. Qed.

Lemma kernel_digest_to_felts d : length d = DIGEST_BYTES →
  KernelHash.digest_to_felts d = to_elems d.
Proof.
  unfold DIGEST_BYTES. intros Hd.
  do 32 (destruct d as [|? d]; [discriminate Hd|]). destruct d; [|discriminate Hd].
  reflexivity.
Qed.

Lemma random_limb_Some rng c rest :
  random_limb rng = Some (c, rest) → c < BABY_BEAR_P ∧ c ∈ rng ∧ ∀ x, x ∈ rest → x ∈ rng.
Proof.
  induction rng as [|x rng IH]; cbn; [done|].
  destruct (x <? BABY_BEAR_P) eqn:E; bool_props; intros; simplify_eq.
  - repeat split; [done|set_solver..].
  - destruct IH as (? & ? & ?); [done|]. repeat split; [done|set_solver..].
Qed.

Lemma random_limbs_Some n rng d : Forall is_u32 rng → random_limbs n rng = Some d →
  ∃ elems, length elems = n ∧ Forall (λ e, 0 ≤ e < BABY_BEAR_P) elems ∧ d = from_elems elems.
Proof.
  revert rng d. induction n as [|n IH]; intros rng d Hr; cbn.
  { intros [= <-]. by exists []. }
  destruct (random_limb rng) as [[c rest]|] eqn:E; cbn; [|done].
  intros H. inv_bind. simplify_eq.
  apply random_limb_Some in E as (Hc & Hin & Hsub). rewrite Forall_forall in Hr.
  destruct (IH rest a) as (elems & <- & HF & ->); [apply Forall_forall; eauto|done|].
  exists (c :: elems). split; [done|]. split; [|done]. constructor; [|done].
  specialize (Hr c Hin). unfold is_u32 in Hr. lia.
Qed.

#[global] Arguments le_val : simpl never.
#[global] Arguments le_bytes : simpl never.
#[global] Arguments chunks : simpl never.
#[global] Arguments to_elems : simpl never.
#[global] Arguments from_elems : simpl never.
#[global] Arguments bytes_to_felts : simpl never.
#[global] Arguments u64_to_felts : simpl never.
#[global] Arguments is_canonical : simpl never.
#[global] Arguments to_anchor : simpl never.

(** ** Properties *)

Lemma kernel_hash_felts `{Poseidon} domain parts :
  KernelHash.hash_felts domain parts = hash_felts domain parts.
Proof.
  unfold KernelHash.hash_felts, hash_felts, hash_input. by rewrite kernel_bytes_to_felts.
Qed.

(** the kernel's self-contained hash boundary is byte-identical to the core
    one: its [while] loops (three-byte words, four-byte limbs) always run to the
    end of their input and produce exactly the field elements of
    [bytes_to_felts] and [Digest::to_elems], so both crates hash the same
    sponge input for every domain and every parts list. *)
Theorem kernel_hash_matches_core `{Poseidon} :
  (∀ bs, KernelHash.bytes_to_felts bs = bytes_to_felts bs) ∧
  (∀ d, length d = DIGEST_BYTES → KernelHash.digest_to_felts d = to_elems d) ∧
  (∀ domain parts, KernelHash.hash_felts domain parts = hash_felts domain parts).
Proof.
  split; [exact kernel_bytes_to_felts|]. split; [exact kernel_digest_to_felts|].
  exact kernel_hash_felts.
Qed.

(** a canonical 32-byte digest is the unique canonical byte string of its
    field elements: re-encoding its elements gives the digest back, any other
    32-byte string with the same elements is a twin that [is_canonical] and
    deserialization reject, and rejection sampling over a [u32] stream only
    ever returns canonical digests. *)
Theorem canonical_digest_identity d : length d = DIGEST_BYTES → is_canonical d = true →
  from_elems (to_elems d) = d ∧
  (∀ d', length d' = DIGEST_BYTES → to_elems d' = to_elems d → d' ≠ d →
     is_canonical d' = false ∧ to_option (digest_deserialize d') = None) ∧
  digest_deserialize d = Ok d ∧
  (∀ rng r, Forall is_u32 rng → random_canonical rng = Some r →
     length r = DIGEST_BYTES ∧ is_canonical r = true).
Proof.
  intros Hd Hc. split; [by apply (from_to_elems d 8)|]. split; [|split].
  - intros d' Hd' He Hne. destruct (is_canonical d') eqn:Hc'.
    + destruct Hne. apply to_elems_inj; congruence.
    + split; [done|]. unfold digest_deserialize. by rewrite Hc'.
  - unfold digest_deserialize. by rewrite Hc.
  - intros rng r Hr Hrnd.
    destruct (random_limbs_Some _ _ _ Hr Hrnd) as (elems & HL & HF & ->).
    split; [by rewrite length_from_elems, HL|]. by apply is_canonical_from_elems.
Qed.

Lemma canonical_digest_identity_witness :
  from_elems (to_elems (zeros 32)) = zeros 32.
Proof.
  refine (proj1 (canonical_digest_identity (zeros 32) _ _)); reflexivity.
Defined.
