(* ===== verification/Commitments.v ===== *)
(** * Coins, assets and every domain-separated commitment of the scheme

    Models [crates/opencsv-core/src/coin.rs], [asset.rs], [issuer.rs] (the
    Poseidon issuer authorization), [consignment.rs] (openings) and the
    commitment functions of [anchor.rs] and [batch.rs]: who hashes what, under
    which domain.  The theorem of this file is that these call sites never
    collide with one another except through a collision of the sponge. *)

From S2P Require Import Prelude Field.

(** ** Data *)

Record Coin := {
  coin_asset_id : bytes;
  coin_value : Z;
  coin_owner : bytes;
  coin_randomness : bytes;
}.

#[export] Instance coin_eq_dec : EqDecision Coin.
Proof. solve_decision. Defined.

Record CoinOpening := {
  asset_id : bytes;
  value : Z;
  owner : bytes;
  randomness : bytes;
}.

#[export] Instance coin_opening_eq_dec : EqDecision CoinOpening.
Proof. solve_decision. Defined.

Record AssetGenesis := {
  issuer_pk : bytes;
  currency_code : bytes;
  terms_hash : bytes;
  nonce : Z;
}.

#[export] Instance asset_genesis_eq_dec : EqDecision AssetGenesis.
Proof. solve_decision. Defined.

Definition to_coin (o : CoinOpening) : Coin := {|
  coin_asset_id := asset_id o;
  coin_value := value o;
  coin_owner := owner o;
  coin_randomness := randomness o;
|}.

Definition to_public_input_bytes (o : CoinOpening) : bytes :=
  asset_id o ++ le_bytes 8 (value o) ++ owner o ++ randomness o.

(** ** Commitments *)
Section commitments.
Context `{Poseidon}.

(** [OwnerSecret::owner]; the secret is the 32 raw bytes. *)
Definition secret_owner (osk : bytes) : bytes := hash_felts "" [bytes_to_felts osk].

Definition commitment (c : Coin) : bytes :=
  hash_felts "coin"
    [to_elems (coin_asset_id c); u64_to_felts (coin_value c);
     to_elems (coin_owner c); to_elems (coin_randomness c)].

(** the free function [nullifier] of [coin.rs] *)
Definition nullifier (osk commitment : bytes) : bytes :=
  hash_felts "null" [bytes_to_felts osk; to_elems commitment].

(** [Coin::nullifier] *)
Definition coin_nullifier (c : Coin) (osk : bytes) : bytes :=
  nullifier osk (commitment c).

Definition opening_commitment (o : CoinOpening) : bytes := commitment (to_coin o).

(** [AssetGenesis::asset_id] *)
Definition genesis_asset_id (g : AssetGenesis) : bytes :=
  hash_felts "OpenCSV-asset"
    [bytes_to_felts (issuer_pk g); bytes_to_felts (currency_code g);
     to_elems (terms_hash g); u64_to_felts (nonce g)].

(** [PoseidonIssuerAuthorization] *)
Definition issuer_public_key (seed : bytes) : bytes :=
  hash_felts "issuer-key-v1" [bytes_to_felts seed].

Definition issuer_controls (seed public_key : bytes) : bool :=
  bool_decide (issuer_public_key seed = public_key).

Definition mint_commit (asset_id : bytes) (value : Z) (mint_nonce : bytes) : bytes :=
  hash_felts "mint" [to_elems asset_id; u64_to_felts value; to_elems mint_nonce].

Definition nullifier_commit (nullifiers : list bytes) : bytes :=
  hash_felts "xfer" [concat (to_elems <$> nullifiers)].

(** [anchor::binding], through the kernel's hash boundary. *)
Definition binding (raw ctx : bytes) : bytes := KernelHash.hash_bind raw ctx.

(** [batch::batch_commit] and [batch::batch_commit_v2]. *)
Definition batch_commit (payloads : list bytes) (ctx : bytes) : bytes :=
  KernelHash.hash_batch payloads ctx.

Definition batch_commit_v2 (payloads : list bytes) (ctx : bytes) : bytes :=
  let concatenated := concat payloads in
  hash_felts "batch-v2" [bytes_to_felts concatenated; bytes_to_felts ctx].
End commitments.

(** ** The call sites as data *)

(** One constructor per place where the scheme hashes. *)
Inductive hash_call :=
  | HOwner (osk : bytes)
  | HCoin (c : Coin)
  | HNull (osk commitment : bytes)
  | HAsset (g : AssetGenesis)
  | HIssuer (seed : bytes)
  | HMint (asset_id : bytes) (value : Z) (mint_nonce : bytes)
  | HXfer (nullifiers : list bytes)
  | HBind (raw ctx : bytes)
  | HBatch (payloads : list bytes) (ctx : bytes)
  | HBatchV2 (payloads : list bytes) (ctx : bytes).

Definition hash_call_digest `{Poseidon} (c : hash_call) : bytes :=
  match c with
  | HOwner osk => secret_owner osk
  | HCoin c => commitment c
  | HNull osk c => nullifier osk c
  | HAsset g => genesis_asset_id g
  | HIssuer seed => issuer_public_key seed
  | HMint a v n => mint_commit a v n
  | HXfer nfs => nullifier_commit nfs
  | HBind raw ctx => binding raw ctx
  | HBatch ps ctx => batch_commit ps ctx
  | HBatchV2 ps ctx => batch_commit_v2 ps ctx
  end.

(** The field elements each call absorbs. *)
Definition hash_call_input (c : hash_call) : list Z :=
  match c with
  | HOwner osk => hash_input "" [bytes_to_felts osk]
  | HCoin c => hash_input "coin"
      [to_elems (coin_asset_id c); u64_to_felts (coin_value c);
       to_elems (coin_owner c); to_elems (coin_randomness c)]
  | HNull osk c => hash_input "null" [bytes_to_felts osk; to_elems c]
  | HAsset g => hash_input "OpenCSV-asset"
      [bytes_to_felts (issuer_pk g); bytes_to_felts (currency_code g);
       to_elems (terms_hash g); u64_to_felts (nonce g)]
  | HIssuer seed => hash_input "issuer-key-v1" [bytes_to_felts seed]
  | HMint a v n => hash_input "mint" [to_elems a; u64_to_felts v; to_elems n]
  | HXfer nfs => hash_input "xfer" [concat (to_elems <$> nfs)]
  | HBind raw ctx => hash_input "bind" [to_elems raw; bytes_to_felts ctx]
  | HBatch ps ctx => hash_input "batch" [bytes_to_felts (concat ps); bytes_to_felts ctx]
  | HBatchV2 ps ctx =>
      hash_input "batch-v2" [bytes_to_felts (concat ps); bytes_to_felts ctx]
  end.

(** The Rust types of the arguments: 32-byte digests with canonical limbs (the
    invariant deserialization enforces), 32-byte contexts and secrets, 24-byte
    payloads, [u64] values. *)
Definition is_bytes (n : nat) (b : bytes) : bool := bool_decide (length b = n).
Definition is_digest (d : bytes) : bool := is_bytes DIGEST_BYTES d && is_canonical d.
Definition u64b (z : Z) : bool := (0 <=? z) && (z <=? u64_max).

Definition hash_call_wf (c : hash_call) : bool :=
  match c with
  | HOwner osk => is_bytes 32 osk
  | HCoin c => is_digest (coin_asset_id c) && u64b (coin_value c) &&
               is_digest (coin_owner c) && is_digest (coin_randomness c)
  | HNull osk c => is_bytes 32 osk && is_digest c
  | HAsset g => is_bytes 32 (issuer_pk g) && is_bytes 3 (currency_code g) &&
                is_digest (terms_hash g) && u64b (nonce g)
  | HIssuer seed => is_bytes 32 seed
  | HMint a v n => is_digest a && u64b v && is_digest n
  | HXfer nfs => forallb is_digest nfs
  | HBind raw ctx => is_digest raw && is_bytes 32 ctx
  | HBatch ps ctx | HBatchV2 ps ctx => forallb (is_bytes 24) ps && is_bytes 32 ctx
  end.

(** ** Lemmas *)

Lemma is_bytes_length n b : is_bytes n b = true ↔ length b = n.
Proof. apply bool_decide_eq_true. Qed.

Lemma is_digest_spec d :
  is_digest d = true ↔ length d = DIGEST_BYTES ∧ is_canonical d = true.
Proof. unfold is_digest. by rewrite andb_true_iff, is_bytes_length. Qed.

Lemma u64b_spec z : u64b z = true ↔ is_u64 z.
Proof. unfold u64b, is_u64. rewrite andb_true_iff. lia. Qed.

Lemma digest_elems_length d : is_digest d = true → length (to_elems d) = 8%nat.
Proof. intros [? _]%is_digest_spec. by apply length_to_elems. Qed.

Lemma digest_elems_inj a b : is_digest a = true → is_digest b = true →
  to_elems a = to_elems b → a = b.
Proof.
  intros [? ?]%is_digest_spec [? ?]%is_digest_spec. apply to_elems_inj; congruence.
Qed.

Lemma bytes_felts_inj n a b : is_bytes n a = true → is_bytes n b = true →
  bytes_to_felts a = bytes_to_felts b → a = b.
Proof. rewrite !is_bytes_length. intros; apply bytes_to_felts_inj; congruence. Qed.

(** A field-element string is the concatenation of fixed-length encodings. *)
Lemma concat_elems_inj l k : forallb is_digest l = true → forallb is_digest k = true →
  concat (to_elems <$> l) = concat (to_elems <$> k) → l = k.
Proof.
  revert k. induction l as [|a l IH]; intros [|b k]; cbn; intros Ha Hb E; bool_props; try done.
  - apply (f_equal length) in E. rewrite length_app, digest_elems_length in E by done. cbn in E; lia.
  - apply (f_equal length) in E. rewrite length_app, digest_elems_length in E by done. cbn in E; lia.
  - apply app_inj_1 in E as [E1 E2]; [|by rewrite !digest_elems_length].
    f_equal; [by apply digest_elems_inj|by apply IH].
Qed.

Lemma length_concat_bytes n l : forallb (is_bytes n) l = true →
  length (concat l) = (n * length l)%nat.
Proof.
  induction l as [|a l IH]; cbn; intros; bool_props; [lia|].
  rewrite length_app, IH by done. rewrite (proj1 (is_bytes_length n a)) by done. lia.
Qed.

Lemma concat_bytes_inj n l k : (0 < n)%nat →
  forallb (is_bytes n) l = true → forallb (is_bytes n) k = true →
  concat l = concat k → l = k.
Proof.
  intros Hn. revert k. induction l as [|a l IH]; intros [|b k]; cbn; intros Ha Hb E; bool_props; try done.
  - apply (f_equal length) in E. rewrite length_app in E.
    rewrite (proj1 (is_bytes_length n b)) in E by done. cbn in E; lia.
  - apply (f_equal length) in E. rewrite length_app in E.
    rewrite (proj1 (is_bytes_length n a)) in E by done. cbn in E; lia.
  - apply app_inj_1 in E as [-> E2]; [by rewrite (IH k)|].
    by rewrite !(proj1 (is_bytes_length n _)).
Qed.

(** A whole number of 24-byte payloads is 8 field elements each. *)
Lemma length_felts_payloads m b : length b = (24 * m)%nat →
  length (bytes_to_felts b) = (8 * m)%nat.
Proof.
  unfold bytes_to_felts. rewrite length_fmap.
  assert (H : ∀ k (b : bytes), length b = (3 * k)%nat → length (chunks 3 b) = k).
  { intros k. induction k as [|k IH]; intros c Hc; [by destruct c|].
    rewrite chunks_cons by (try lia; destruct c; done). cbn [length]. f_equal.
    apply IH. rewrite length_drop. lia. }
  intros. apply H. lia.
Qed.

Lemma felts32_length b : is_bytes 32 b = true → length (bytes_to_felts b) = 11%nat.
Proof.
  intros Hb%is_bytes_length.
  by rewrite (length_bytes_to_felts b (zeros 32)) by (by rewrite length_zeros).
Qed.

Lemma felts3_length b : is_bytes 3 b = true → length (bytes_to_felts b) = 1%nat.
Proof.
  intros Hb%is_bytes_length.
  by rewrite (length_bytes_to_felts b (zeros 3)) by (by rewrite length_zeros).
Qed.

Lemma payloads_felts_inj l k :
  forallb (is_bytes 24) l = true → forallb (is_bytes 24) k = true →
  length (bytes_to_felts (concat l)) = length (bytes_to_felts (concat k)) →
  bytes_to_felts (concat l) = bytes_to_felts (concat k) → l = k.
Proof.
  intros Hl Hk HL E.
  rewrite !(length_felts_payloads (length _)) in HL by (by apply length_concat_bytes).
  apply (concat_bytes_inj 24); [lia|done..|]. apply bytes_to_felts_inj; [|done].
  rewrite !(length_concat_bytes 24) by done. lia.
Qed.

(** The domain tag of a call, already encoded, and what follows it. *)
Definition hash_call_parts (c : hash_call) : string * list (list Z) :=
  match c with
  | HOwner osk => (""%string, [bytes_to_felts osk])
  | HCoin c => ("coin"%string,
      [to_elems (coin_asset_id c); u64_to_felts (coin_value c);
       to_elems (coin_owner c); to_elems (coin_randomness c)])
  | HNull osk c => ("null"%string, [bytes_to_felts osk; to_elems c])
  | HAsset g => ("OpenCSV-asset"%string,
      [bytes_to_felts (issuer_pk g); bytes_to_felts (currency_code g);
       to_elems (terms_hash g); u64_to_felts (nonce g)])
  | HIssuer seed => ("issuer-key-v1"%string, [bytes_to_felts seed])
  | HMint a v n => ("mint"%string, [to_elems a; u64_to_felts v; to_elems n])
  | HXfer nfs => ("xfer"%string, [concat (to_elems <$> nfs)])
  | HBind raw ctx => ("bind"%string, [to_elems raw; bytes_to_felts ctx])
  | HBatch ps ctx => ("batch"%string, [bytes_to_felts (concat ps); bytes_to_felts ctx])
  | HBatchV2 ps ctx =>
      ("batch-v2"%string, [bytes_to_felts (concat ps); bytes_to_felts ctx])
  end.

Definition hash_call_body (c : hash_call) : list Z :=
  bytes_to_felts (domain_bytes (hash_call_parts c).1) ++ concat (hash_call_parts c).2.

Lemma hash_call_input_body a b :
  hash_call_input a = hash_call_input b → hash_call_body a = hash_call_body b.
Proof.
  assert (E : ∀ c, hash_call_input c
                 = hash_input (hash_call_parts c).1 (hash_call_parts c).2) by (by intros []).
  rewrite !E. by intros [= _ ?].
Qed.

Lemma length_concat_elems l : forallb is_digest l = true →
  length (concat (to_elems <$> l)) = (8 * length l)%nat.
Proof.
  induction l as [|d l IH]; cbn; intros; bool_props; [done|].
  rewrite length_app, IH, digest_elems_length by done. lia.
Qed.

Definition hash_call_length (c : hash_call) : nat :=
  match c with
  | HOwner _ => 11 | HCoin _ => 29 | HNull _ _ => 21 | HAsset _ => 28
  | HIssuer _ => 16 | HMint _ _ _ => 21 | HXfer nfs => 2 + 8 * length nfs
  | HBind _ _ => 21 | HBatch ps _ => 13 + 8 * length ps
  | HBatchV2 ps _ => 14 + 8 * length ps
  end.

Lemma length_payload_felts ps : forallb (is_bytes 24) ps = true →
  length (bytes_to_felts (concat ps)) = (8 * length ps)%nat.
Proof. intros. by apply length_felts_payloads, length_concat_bytes. Qed.

Lemma length_u64_felts v : length (u64_to_felts v) = 3%nat.
Proof. done. Qed.

Ltac parts_length :=
  repeat first
    [ rewrite digest_elems_length by assumption
    | rewrite felts32_length by assumption
    | rewrite felts3_length by assumption
    | rewrite length_concat_elems by assumption
    | rewrite length_payload_felts by assumption
    | rewrite length_u64_felts ].

Lemma hash_call_body_length c : hash_call_wf c = true →
  length (hash_call_body c) = hash_call_length c.
Proof.
  intros Hwf. destruct c; cbn [hash_call_wf] in Hwf; bool_props;
    unfold hash_call_body; cbn [hash_call_parts fst snd concat];
    rewrite !length_app; cbn [length hash_call_length];
    match goal with |- (length (bytes_to_felts (domain_bytes ?s)) + _)%nat = _ =>
      let n := eval vm_compute in (length (bytes_to_felts (domain_bytes s))) in
      change (length (bytes_to_felts (domain_bytes s))) with n end;
    parts_length; lia.
Qed.

(** Only the owner hash absorbs exactly eleven elements after the length. *)
Lemma owner_body_length c : hash_call_wf c = true →
  length (hash_call_body c) = 11%nat → ∃ osk, c = HOwner osk.
Proof.
  intros Hwf. rewrite hash_call_body_length by done.
  destruct c; cbn [hash_call_length]; intros; eauto; lia.
Qed.

(** The first two elements of every other call identify its domain. *)
Definition hash_call_kind (c : hash_call) : nat :=
  match c with
  | HOwner _ => 0 | HCoin _ => 1 | HNull _ _ => 2 | HAsset _ => 3 | HIssuer _ => 4
  | HMint _ _ _ => 5 | HXfer _ => 6 | HBind _ _ => 7 | HBatch _ _ => 8
  | HBatchV2 _ _ => 9
  end.

Definition kind_tag (k : nat) : list Z :=
  take 2 (bytes_to_felts (domain_bytes
    (default ""%string (["" ; "coin"; "null"; "OpenCSV-asset"; "issuer-key-v1"; "mint";
                         "xfer"; "bind"; "batch"; "batch-v2"]%string !! k)))).

Lemma body_tag c : hash_call_kind c ≠ O →
  take 2 (hash_call_body c) = kind_tag (hash_call_kind c).
Proof. by destruct c. Qed.

Lemma kind_tag_inj i j : (i < 10)%nat → (j < 10)%nat → kind_tag i = kind_tag j → i = j.
Proof.
  intros Hi Hj.
  do 10 (destruct i as [|i]; [do 10 (destruct j as [|j]; [vm_compute; (done || discriminate)|]); lia|]).
  lia.
Qed.

Lemma kind_bound c : (hash_call_kind c < 10)%nat.
Proof. destruct c; cbn; lia. Qed.

Lemma hash_call_kind_inj a b : hash_call_wf a = true → hash_call_wf b = true →
  hash_call_body a = hash_call_body b → hash_call_kind a = hash_call_kind b.
Proof.
  assert (HO : ∀ o, hash_call_wf (HOwner o) = true → length (hash_call_body (HOwner o)) = 11%nat)
    by (intros o Ho; by rewrite hash_call_body_length).
  intros Ha Hb E.
  destruct (decide (hash_call_kind a = O)) as [Ka|Ka].
  { destruct a; try done. destruct (owner_body_length b) as [? ->]; [done| |done].
    rewrite <- E. by apply HO. }
  destruct (decide (hash_call_kind b = O)) as [Kb|Kb].
  { destruct b; try done. destruct (owner_body_length a) as [? ->]; [done| |done].
    rewrite E. by apply HO. }
  apply kind_tag_inj; [apply kind_bound..|]. by rewrite <- !body_tag, E.
Qed.

Ltac peel_parts :=
  repeat match goal with
  | H : ?x ++ _ = ?y ++ _ |- _ =>
      apply app_inj_1 in H as [? H];
      [|first [reflexivity | by rewrite !digest_elems_length by assumption
              | by rewrite !felts32_length by assumption
              | by rewrite !felts3_length by assumption]]
  end.

(** The sponge input determines the call. *)
Lemma hash_call_input_inj a b :
  hash_call_wf a = true → hash_call_wf b = true →
  hash_call_input a = hash_call_input b → a = b.
Proof.
  intros Ha Hb HI%hash_call_input_body.
  pose proof (hash_call_kind_inj a b Ha Hb HI) as HK.
  destruct a, b; try discriminate HK; clear HK; revert HI; unfold hash_call_body;
  cbn [hash_call_parts fst snd concat hash_call_wf] in *; intros HI;
  apply app_inv_head in HI; bool_props; rewrite ?app_nil_r in *.
  all: try (apply (f_equal length) in HI as HL; rewrite !length_app in HL;
            rewrite !length_payload_felts, !felts32_length in HL by assumption;
            apply app_inj_1 in HI as [HI ?];
            [|by rewrite !length_payload_felts by assumption; lia]).
  all: peel_parts.
  all: repeat match goal with
  | c : Coin |- _ => destruct c; cbn in *
  | g : AssetGenesis |- _ => destruct g; cbn in *
  end.
  all: repeat match goal with
  | H : to_elems _ = to_elems _ |- _ => apply digest_elems_inj in H; [|assumption..]
  | H : u64_to_felts _ = u64_to_felts _ |- _ =>
      apply u64_to_felts_inj in H; [|by apply u64b_spec..]
  | H : bytes_to_felts (concat _) = bytes_to_felts (concat _) |- _ =>
      apply payloads_felts_inj in H; [|assumption..|by rewrite H]
  | H : bytes_to_felts _ = bytes_to_felts _ |- _ =>
      eapply bytes_felts_inj in H; [|eassumption..]
  | H : concat (to_elems <$> _) = concat (to_elems <$> _) |- _ =>
      apply concat_elems_inj in H; [|assumption..]
  end.
  all: by subst.
Qed.

(** The functions of the scheme hash the input their call absorbs. *)
Lemma hash_call_digest_input `{Poseidon} c : hash_call_wf c = true →
  hash_call_digest c = from_elems (hash_iter (hash_call_input c)).
Proof.
  intros Hwf. destruct c; try reflexivity; cbn [hash_call_wf] in Hwf; bool_props;
    cbn [hash_call_digest hash_call_input];
    unfold binding, batch_commit, KernelHash.hash_bind, KernelHash.hash_batch;
    rewrite kernel_hash_felts, !kernel_bytes_to_felts; [|done].
  rewrite kernel_digest_to_felts; [done|]. by apply (is_digest_spec raw).
Qed.

(** The anchor form of a digest identifies its call up to a collision on the
    first six squeezed elements. *)
Lemma hash_call_anchor_inj `{PoseidonLaws} a b :
  hash_call_wf a = true → hash_call_wf b = true →
  to_anchor (hash_call_digest a) = to_anchor (hash_call_digest b) →
  a = b ∨ collides_prefix 6 (hash_call_input a) (hash_call_input b).
Proof.
  intros Ha Hb. rewrite !hash_call_digest_input, !to_anchor_from_elems by done.
  intros E%from_elems_inj; [|apply Forall_take, hash_iter_canonical..].
  destruct (decide (hash_call_input a = hash_call_input b)) as [HE|HE];
    [left; by apply hash_call_input_inj | right; by split].
Qed.

Lemma hash_call_inj `{PoseidonLaws} a b :
  hash_call_wf a = true → hash_call_wf b = true →
  hash_call_digest a = hash_call_digest b →
  a = b ∨ collides (hash_call_input a) (hash_call_input b).
Proof.
  intros Ha Hb. rewrite !hash_call_digest_input by done.
  intros E%from_elems_inj; [|apply hash_iter_canonical..].
  destruct (decide (hash_call_input a = hash_call_input b)) as [HE|HE];
    [left; by apply hash_call_input_inj | right; by split].
Qed.

(** ** Property *)

(** every digest the scheme computes - owner keys, coin commitments,
    nullifiers, asset identifiers, issuer keys, mint commitments, nullifier
    lists, context bindings and both batch commitments - identifies its call
    site and all its arguments: if two well-formed calls return the same digest
    they are the same call, or the two explicit sponge inputs collide.  The same
    holds for the 24-byte anchor form with a collision on the first six output
    elements.  In particular no digest of one domain can stand for another. *)
Theorem hash_calls_bind `{PoseidonLaws} a b :
  hash_call_wf a = true → hash_call_wf b = true →
  (hash_call_digest a = hash_call_digest b →
     a = b ∨ collides (hash_call_input a) (hash_call_input b)) ∧
  (to_anchor (hash_call_digest a) = to_anchor (hash_call_digest b) →
     a = b ∨ collides_prefix 6 (hash_call_input a) (hash_call_input b)).
Proof. intros Ha Hb. split; [by apply hash_call_inj | by apply hash_call_anchor_inj]. Qed.

Definition demo_digest (n : Z) : bytes := le_bytes 32 n.

Lemma hash_calls_bind_witness :
  HBind (demo_digest 5) (zeros 32) = HBind (demo_digest 5) (zeros 32) ∨
  collides (H := demo_sponge) (hash_call_input (HBind (demo_digest 5) (zeros 32)))
    (hash_call_input (HBind (demo_digest 5) (zeros 32))).
Proof.
  refine (proj1 (@hash_calls_bind demo_sponge demo_sponge_laws
    (HBind (demo_digest 5) (zeros 32)) (HBind (demo_digest 5) (zeros 32)) _ _) _);
    vm_compute; reflexivity.
Defined.
