(* ===== verification/Instrument.v ===== *)
(** * Instrument terms

    Models [crates/opencsv-core/src/instrument.rs]: the human and legal terms an
    asset genesis commits to, over the strings of [Text.v]. *)

From S2P Require Import Prelude Text Field Commitments.
#[local] Open Scope Z_scope.

(** ** Instrument terms *)
Definition INSTRUMENT_TERMS_VERSION : Z := 1.
Definition MAX_INSTRUMENT_DECIMALS : Z := 18.
Definition PREVIEW_USD_DISPLAY_NAME : string := "OpenCSV Test USD v2".
Definition PREVIEW_USD_ISSUER_NAME : string := "OpenCSV Test Issuer v2".
Definition PREVIEW_USD_DECIMALS : Z := 6.
Definition PREVIEW_USD_TERMS_URI : string := "https://opencsv.net/usd-preview/terms-v2".

Record InstrumentTermsV1 := {
  it_version : Z;
  it_network : rstring;
  display_name : rstring;
  unit_code : rstring;
  decimals : Z;
  issuer_name : rstring;
  terms_uri : rstring;
  redemption_summary : rstring;
  test_only : bool;
}.

#[export] Instance instrument_terms_eq_dec : EqDecision InstrumentTermsV1.
Proof. solve_decision. Defined.

(** [InstrumentError] is its message. *)
Abbreviation checked := (result string).

Definition preview_usd_terms (network : rstring) : checked InstrumentTermsV1 :=
  ensure (bool_decide (network = lit "signet") || bool_decide (network = lit "regtest"))
    "OpenCSV Test USD v2 is available only on signet or regtest"%string;;
  Ok {| it_version := INSTRUMENT_TERMS_VERSION; it_network := network;
        display_name := lit PREVIEW_USD_DISPLAY_NAME; unit_code := lit "USD";
        decimals := PREVIEW_USD_DECIMALS; issuer_name := lit PREVIEW_USD_ISSUER_NAME;
        terms_uri := lit PREVIEW_USD_TERMS_URI;
        redemption_summary :=
          lit "Test USD v2 has no monetary value and is not redeemable for dollars or USDT.";
        test_only := true |}.

Definition validate_text (value : rstring) (minimum maximum : nat) : checked () :=
  ensure (bool_decide (minimum ≤ length (utf8 value))%nat && bool_decide (length (utf8 value) ≤ maximum)%nat)
    "field must be within its UTF-8 byte limits"%string;;
  ensure (bool_decide (trim value = value) && negb (existsb is_control value))
    "field must not contain surrounding whitespace or control characters"%string.

Definition is_ascii_uppercase (b : byte) : bool := (0x41 <=? bval b) && (bval b <=? 0x5A).

Definition terms_validate (t : InstrumentTermsV1) : checked () :=
  ensure (it_version t =? INSTRUMENT_TERMS_VERSION) "unsupported instrument terms version"%string;;
  ensure (bool_decide (it_network t = lit "mainnet") || bool_decide (it_network t = lit "signet") ||
          bool_decide (it_network t = lit "regtest")) "network must be mainnet, signet, or regtest"%string;;
  validate_text (display_name t) 1 96;;
  validate_text (issuer_name t) 1 160;;
  validate_text (redemption_summary t) 1 512;;
  ensure (bool_decide (length (utf8 (unit_code t)) = 3%nat) && forallb is_ascii_uppercase (utf8 (unit_code t)))
    "unit code must be exactly three uppercase ASCII letters"%string;;
  ensure (negb (decimals t >? MAX_INSTRUMENT_DECIMALS)) "instrument decimals exceed 18"%string;;
  validate_text (terms_uri t) 1 512;;
  ensure (starts_with (terms_uri t) (lit "https://")) "terms URI must use HTTPS"%string;;
  ensure (negb (bool_decide (it_network t = lit "mainnet") && test_only t))
    "a mainnet instrument cannot be marked test-only"%string;;
  ensure (negb (negb (bool_decide (it_network t = lit "mainnet")) && negb (test_only t)))
    "signet and regtest instruments must be marked test-only"%string.

Definition push_text (value : rstring) : bytes :=
  be_bytes 4 (Z.of_nat (length (utf8 value))) ++ utf8 value.

Definition canonical_bytes (t : InstrumentTermsV1) : bytes :=
  be_bytes 4 (it_version t) ++ push_text (it_network t) ++ push_text (display_name t) ++
  push_text (unit_code t) ++ be_bytes 1 (decimals t) ++ push_text (issuer_name t) ++
  push_text (terms_uri t) ++ push_text (redemption_summary t) ++
  be_bytes 1 (if test_only t then 1 else 0).

Record InstrumentManifestV1 := { im_terms : InstrumentTermsV1; im_genesis : AssetGenesis }.

Section instrument.
Context `{Poseidon}.

Definition instrument_terms_hash (t : InstrumentTermsV1) : checked bytes :=
  terms_validate t;;
  Ok (hash_felts "OpenCSV-instrument-terms-v1" [bytes_to_felts (canonical_bytes t)]).

Definition instrument_validate (m : InstrumentManifestV1) : checked () :=
  let expected_code := utf8 (unit_code (im_terms m)) in
  ensure (bool_decide (length expected_code = 3%nat)) "unit code is not three bytes"%string;;
  ensure (bool_decide (currency_code (im_genesis m) = expected_code))
    "manifest unit code does not match asset genesis"%string;;
  h ← instrument_terms_hash (im_terms m);
  ensure (bool_decide (terms_hash (im_genesis m) = h))
    "manifest terms do not match the genesis terms hash"%string.
End instrument.

(** ** Lemmas: length-prefixed texts *)

Lemma be_bytes_inj n x y : 0 ≤ x < 256 ^ Z.of_nat n → 0 ≤ y < 256 ^ Z.of_nat n →
  be_bytes n x = be_bytes n y → x = y.
Proof.
  intros Hx Hy E. unfold be_bytes in E. apply (inj reverse) in E. by eapply le_bytes_inj in E.
Qed.

(** A length-prefixed text determines the text and what follows it. *)
Lemma push_text_inj s t x y : Forall is_scalar s → Forall is_scalar t →
  (length (utf8 s) ≤ 512)%nat → (length (utf8 t) ≤ 512)%nat →
  push_text s ++ x = push_text t ++ y → s = t ∧ x = y.
Proof.
  unfold push_text. intros Hs Ht Ls Lt E. rewrite <- !app_assoc in E.
  apply app_inj_1 in E as [E1 E]; [|by rewrite !length_be_bytes].
  apply be_bytes_inj in E1; [|change (256 ^ Z.of_nat 4) with 4294967296; lia..].
  apply app_inj_1 in E as [E2 E]; [|lia]. apply utf8_inj in E2; done.
Qed.

(** ** Lemmas: what validation fixes *)

Definition terms_typed (t : InstrumentTermsV1) : Prop :=
  is_u8 (decimals t) ∧ Forall is_scalar (it_network t) ∧ Forall is_scalar (display_name t) ∧
  Forall is_scalar (unit_code t) ∧ Forall is_scalar (issuer_name t) ∧ Forall is_scalar (terms_uri t) ∧
  Forall is_scalar (redemption_summary t).

Lemma validate_text_Ok s a b u : validate_text s a b = Ok u →
  (a ≤ length (utf8 s) ≤ b)%nat ∧ trim s = s ∧ Forall (λ c, is_control c = false) s.
Proof.
  unfold validate_text. intros E. apply bind_Ok in E as ([] & E1 & E). apply ensure_Ok in E1, E. bool_props.
  split; [lia|]. split; [done|]. apply Forall_forall. intros c Hc.
  destruct (is_control c) eqn:Ec; [|done].
  rewrite (proj2 (existsb_exists _ _)) in *; [done|]. exists c. by rewrite <- list_elem_of_In.
Qed.

Lemma terms_validate_Ok t u : terms_validate t = Ok u →
  it_version t = 1 ∧ (it_network t = lit "mainnet" ∧ test_only t = false ∨
    (it_network t = lit "signet" ∨ it_network t = lit "regtest") ∧ test_only t = true) ∧
  (length (utf8 (display_name t)) ≤ 512)%nat ∧ (length (utf8 (unit_code t)) = 3)%nat ∧
  (length (utf8 (issuer_name t)) ≤ 512)%nat ∧ (length (utf8 (terms_uri t)) ≤ 512)%nat ∧
  (length (utf8 (redemption_summary t)) ≤ 512)%nat ∧ starts_with (terms_uri t) (lit "https://") = true ∧
  decimals t ≤ 18.
Proof.
  unfold terms_validate. intros E. apply bind_Ok in E as ([] & E1%ensure_Ok & E).
  apply bind_Ok in E as ([] & E2%ensure_Ok & E). apply bind_Ok in E as ([] & E3%validate_text_Ok & E).
  apply bind_Ok in E as ([] & E4%validate_text_Ok & E). apply bind_Ok in E as ([] & E5%validate_text_Ok & E).
  apply bind_Ok in E as ([] & E6%ensure_Ok & E). apply bind_Ok in E as ([] & E7%ensure_Ok & E).
  apply bind_Ok in E as ([] & E8%validate_text_Ok & E). apply bind_Ok in E as ([] & E9%ensure_Ok & E).
  apply bind_Ok in E as ([] & E10%ensure_Ok & E). apply ensure_Ok in E.
  rewrite Z.gtb_ltb in E7. unfold MAX_INSTRUMENT_DECIMALS, INSTRUMENT_TERMS_VERSION in *. bool_props.
  split; [done|]. split; [|split_and!; try lia; done].
  apply orb_true_iff in E2 as [E2|E2]; [apply orb_true_iff in E2 as [E2|E2]|];
    apply bool_decide_eq_true in E2; rewrite E2 in E10, E |- *.
  - left. split; [done|]. by destruct (test_only t).
  - right. split; [by left|]. by destruct (test_only t).
  - right. split; [by right|]. by destruct (test_only t).
Qed.

(** The encoding of validated terms is prefix-free. *)
Lemma canonical_bytes_inj t v x y : terms_typed t → terms_typed v →
  terms_validate t = Ok tt → terms_validate v = Ok tt →
  canonical_bytes t ++ x = canonical_bytes v ++ y → t = v.
Proof.
  intros (Td & Tn & T1 & T2 & T3 & T4 & T5) (Vd & Vn & V1 & V2 & V3 & V4 & V5).
  intros (Ht & Hn & L1 & L2 & L3 & L4 & L5 & _)%terms_validate_Ok.
  intros (Hv & Hm & M1 & M2 & M3 & M4 & M5 & _)%terms_validate_Ok.
  unfold canonical_bytes. rewrite <- !app_assoc. intros E.
  apply app_inj_1 in E as [_ E]; [|by rewrite !length_be_bytes].
  assert (∀ s, s = lit "mainnet" ∨ s = lit "signet" ∨ s = lit "regtest" → (length (utf8 s) ≤ 512)%nat) as Hnet
    by (intros s [->|[-> | ->]]; vm_compute; lia).
  apply push_text_inj in E as [En E]; [|done|done|apply Hnet; tauto..].
  apply push_text_inj in E as [E1 E]; [|done..]. apply push_text_inj in E as [E2 E]; [|done|done|lia..].
  apply app_inj_1 in E as [Ed E]; [|by rewrite !length_be_bytes].
  apply be_bytes_inj in Ed; [|unfold is_u8, u8_max in *; cbn; lia..].
  apply push_text_inj in E as [E3 E]; [|done..]. apply push_text_inj in E as [E4 E]; [|done..].
  apply push_text_inj in E as [E5 E]; [|done..].
  apply app_inj_1 in E as [Eb _]; [|by rewrite !length_be_bytes].
  apply be_bytes_inj in Eb; [|cbn; destruct (test_only t), (test_only v); lia..].
  destruct t, v; cbn in *. destruct test_only0, test_only1; try lia; by subst.
Qed.

(** ** Lemmas: field packing up to zero padding *)

Lemma felts_padded a : ∃ k, bytes_to_felts (a ++ zeros k) = bytes_to_felts a ∧
  (length (a ++ zeros k) = 3 * length (bytes_to_felts a))%nat.
Proof.
  induction a as [a IH] using list_length_ind.
  destruct a as [|b0 [|b1 [|b2 a]]]; [by exists O|exists 2%nat|exists 1%nat|].
  - by split.
  - by split.
  - destruct (IH a ltac:(cbn; lia)) as (k & E & HL). exists k. unfold bytes_to_felts in *.
    assert (∀ l, chunks 3 (b0 :: b1 :: b2 :: l) = [b0; b1; b2] :: chunks 3 l) as Hc
      by (intros l; by rewrite chunks_cons by (done || lia)).
    cbn [app]. rewrite !Hc, !fmap_cons, E. split; [done|]. cbn [length]. rewrite HL. lia.
Qed.

(** Equal packings come from byte strings that agree up to trailing zeros. *)
Lemma felts_eq_padded a b : bytes_to_felts a = bytes_to_felts b → ∃ j k, a ++ zeros j = b ++ zeros k.
Proof.
  intros E. destruct (felts_padded a) as (j & Ea & La), (felts_padded b) as (k & Eb & Lb).
  exists j, k. apply bytes_to_felts_inj; [by rewrite La, Lb, E|congruence].
Qed.

Section binding.
Context `{PoseidonLaws}.

Lemma terms_hash_inj t v h : terms_typed t → terms_typed v →
  instrument_terms_hash t = Ok h → instrument_terms_hash v = Ok h →
  t = v ∨ collides (hash_input "OpenCSV-instrument-terms-v1" [bytes_to_felts (canonical_bytes t)])
                   (hash_input "OpenCSV-instrument-terms-v1" [bytes_to_felts (canonical_bytes v)]).
Proof.
  intros Tt Tv Et Ev. unfold instrument_terms_hash in *.
  apply bind_Ok in Et as ([] & Vt & Et), Ev as ([] & Vv & Ev). injection Et as Et. injection Ev as Ev.
  rewrite <- Ev in Et. apply hash_felts_inj in Et as [E|]; [left|by right].
  unfold hash_input in E. cbv zeta in E. apply (f_equal tail) in E. cbn [tail] in E.
  apply app_inv_head in E. cbn [concat] in E.
  rewrite !app_nil_r in E. apply felts_eq_padded in E as (j & k & E). by eapply canonical_bytes_inj.
Qed.

(** One asset, one set of terms: if two instrument manifests validate and name the
    same asset, then they are the same manifest - every human and legal field
    included - or two explicit sponge inputs collide. The variable-length encoding
    is unambiguous even though packing into field elements forgets trailing zero
    bytes. *)
Theorem asset_fixes_terms m v : terms_typed (im_terms m) → terms_typed (im_terms v) →
  hash_call_wf (HAsset (im_genesis m)) = true → hash_call_wf (HAsset (im_genesis v)) = true →
  instrument_validate m = Ok tt → instrument_validate v = Ok tt →
  genesis_asset_id (im_genesis m) = genesis_asset_id (im_genesis v) →
  m = v ∨
  collides (hash_call_input (HAsset (im_genesis m))) (hash_call_input (HAsset (im_genesis v))) ∨
  collides (hash_input "OpenCSV-instrument-terms-v1" [bytes_to_felts (canonical_bytes (im_terms m))])
           (hash_input "OpenCSV-instrument-terms-v1" [bytes_to_felts (canonical_bytes (im_terms v))]).
Proof.
  intros Tm Tv Wm Wv Em Ev Hid. unfold instrument_validate in *.
  apply bind_Ok in Em as ([] & _ & Em), Ev as ([] & _ & Ev). apply bind_Ok in Em as ([] & _ & Em), Ev as ([] & _ & Ev).
  apply bind_Ok in Em as (h & Hm & Em), Ev as (g & Hv & Ev). apply ensure_Ok, bool_decide_eq_true in Em, Ev.
  change (hash_call_digest (HAsset (im_genesis m)) = hash_call_digest (HAsset (im_genesis v))) in Hid.
  apply hash_call_inj in Hid as [Hid|Hc]; [|by right; left|done..]. injection Hid as Hid.
  subst h g. rewrite <- Hid in Hv. destruct (terms_hash_inj _ _ _ Tm Tv Hm Hv) as [Et|Hc]; [left|by right; right].
  destruct m, v; cbn in *. by subst.
Qed.
End binding.

(** The built-in instrument exists on the two test networks only, and its terms
    validate there and are marked as test-only. *)
Theorem preview_usd_valid network t : preview_usd_terms network = Ok t →
  terms_validate t = Ok tt ∧ test_only t = true ∧ terms_typed t ∧
  (it_network t = lit "signet" ∨ it_network t = lit "regtest").
Proof.
  unfold preview_usd_terms. intros E. apply bind_Ok in E as ([] & E1%ensure_Ok & [= <-]).
  assert (Forall is_scalar network) as Hs
    by (apply orb_true_iff in E1 as [E1|E1]; apply bool_decide_eq_true in E1; subst; apply lit_scalar).
  split; [apply orb_true_iff in E1 as [E1|E1]; apply bool_decide_eq_true in E1; subst; vm_compute; reflexivity|].
  split; [reflexivity|]. split.
  - unfold terms_typed; cbn [decimals it_network display_name unit_code issuer_name terms_uri redemption_summary].
    split_and!; [vm_compute; split; discriminate|exact Hs|apply lit_scalar..].
  - cbn [it_network]. apply orb_true_iff in E1 as [E1|E1]; apply bool_decide_eq_true in E1; [by left|by right].
Qed.

(** ** Witness: a signet manifest *)
Section demo.
#[local] Existing Instances demo_sponge demo_sponge_laws.

Definition demo_terms : InstrumentTermsV1 :=
  match preview_usd_terms (lit "signet") with
  | Ok t => t
  | Err _ => {| it_version := 0; it_network := []; display_name := []; unit_code := []; decimals := 0;
                issuer_name := []; terms_uri := []; redemption_summary := []; test_only := false |}
  end.

Lemma demo_terms_eq : preview_usd_terms (lit "signet") = Ok demo_terms.
Proof. vm_compute. reflexivity. Qed.

Definition demo_instrument : InstrumentManifestV1 := {|
  im_terms := demo_terms;
  im_genesis := {| issuer_pk := replicate 32 x05; currency_code := utf8 (lit "USD");
    terms_hash := hash_felts "OpenCSV-instrument-terms-v1" [bytes_to_felts (canonical_bytes demo_terms)];
    nonce := 1 |} |}.

Lemma asset_fixes_terms_witness : instrument_validate demo_instrument = Ok tt ∧
  (demo_instrument = demo_instrument ∨
   collides (hash_call_input (HAsset (im_genesis demo_instrument)))
            (hash_call_input (HAsset (im_genesis demo_instrument))) ∨
   collides
     (hash_input "OpenCSV-instrument-terms-v1" [bytes_to_felts (canonical_bytes (im_terms demo_instrument))])
     (hash_input "OpenCSV-instrument-terms-v1" [bytes_to_felts (canonical_bytes (im_terms demo_instrument))])).
Proof.
  assert (instrument_validate demo_instrument = Ok tt) as Hv by (vm_compute; reflexivity).
  assert (hash_call_wf (HAsset (im_genesis demo_instrument)) = true) as Hw by (vm_compute; reflexivity).
  assert (terms_typed (im_terms demo_instrument)) as Ht
    by exact (proj1 (proj2 (proj2 (preview_usd_valid _ _ demo_terms_eq)))).
  split; [exact Hv|].
  exact (asset_fixes_terms demo_instrument demo_instrument Ht Ht Hw Hw Hv Hv eq_refl).
Defined.
End demo.
