(* ===== verification/Kernel.v ===== *)
(** * The pure decision kernel

    Models [crates/opencsv-kernel]: plain types, bound payloads, the occurrence
    tests over records and batches, the first-occurrence scan, the public
    supply audit and the receiver accept decision.  The kernel's [while] loops
    over an index are structural recursions over the remaining slice. *)

From S2P Require Import Prelude Field.

(** ** Plain data ([types.rs], [record.rs]) *)

Record Location := MkLocation { height : Z; loc_position : Z }.

#[export] Instance location_eq_dec : EqDecision Location.
Proof. solve_decision. Defined.

(** The derived [Ord]: height first, then position. *)
Definition loc_lt (a b : Location) : Prop :=
  height a < height b ∨ (height a = height b ∧ loc_position a < loc_position b).
Definition loc_le (a b : Location) : Prop := loc_lt a b ∨ a = b.

#[export] Instance loc_lt_dec : RelDecision loc_lt.
Proof. intros a b. unfold loc_lt. apply _. Defined.
#[export] Instance loc_le_dec : RelDecision loc_le.
Proof. intros a b. unfold loc_le. apply _. Defined.

Lemma loc_le_spec a b : loc_le a b ↔
  height a < height b ∨ (height a = height b ∧ loc_position a ≤ loc_position b).
Proof.
  destruct a as [h p], b as [h' p']; unfold loc_le, loc_lt; cbn. split.
  - intros [|[= -> ->]]; lia.
  - intros [?|[-> ?]]; [left; lia|]. destruct (decide (p = p')) as [->|]; [by right|left; lia].
Qed.

#[export] Instance loc_le_po : PartialOrder loc_le.
Proof.
  split; [split|].
  - intros a. by right.
  - intros a b c. rewrite !loc_le_spec. lia.
  - intros [h p] [h' p']. rewrite !loc_le_spec; cbn. intros. f_equal; lia.
Qed.

#[export] Instance loc_le_total : Total loc_le.
Proof. intros a b. rewrite !loc_le_spec. lia. Qed.

Lemma loc_lt_le_trans a b c : loc_lt a b → loc_le b c → loc_lt a c.
Proof. rewrite loc_le_spec. unfold loc_lt. lia. Qed.

Lemma loc_le_not_lt a b : loc_le a b ↔ ¬ loc_lt b a.
Proof. rewrite loc_le_spec. unfold loc_lt. lia. Qed.

(** [opencsv_kernel::Record]. *)
Inductive KRecord :=
  | KMint (asset_id : bytes) (value : Z) (mint_commit : bytes)
  | KXfer (payload_1 payload_2 : bytes)
  | KXferCompressed (payload : bytes)
  | KBatchHeader (count : Z) (batch_commit : bytes)
  | KRedeem (asset_id : bytes) (value : Z) (payload : bytes).

#[export] Instance krecord_eq_dec : EqDecision KRecord.
Proof. solve_decision. Defined.

Record KEntry := { ke_record : KRecord; ke_ctx : bytes; ke_location : Location }.

(** ** Occurrence tests ([binding.rs], [record.rs], [scan.rs], [batch.rs]) *)
Section occurrence.
Context `{Poseidon}.

Definition truncate24 (digest : bytes) : bytes := take 24 digest.

Definition kbinding (raw ctx : bytes) : bytes :=
  truncate24 (KernelHash.hash_bind raw ctx).

Definition kwell_formed (r : KRecord) (ctx raw_nf : bytes) : bool :=
  let bound := kbinding raw_nf ctx in
  match r with
  | KMint _ _ _ | KBatchHeader _ _ => false
  | KXfer p1 p2 => bool_decide (p1 = bound) || bool_decide (p2 = bound)
  | KXferCompressed p => bool_decide (p = bound)
  | KRedeem _ _ p => bool_decide (p = bound)
  end.

Fixpoint first_occurrence_from (i : nat) (entries : list KEntry) (raw_nf : bytes)
  : option nat :=
  match entries with
  | [] => None
  | e :: entries =>
      if kwell_formed (ke_record e) (ke_ctx e) raw_nf then Some i
      else first_occurrence_from (S i) entries raw_nf
  end.

Definition first_occurrence (entries : list KEntry) (raw_nf : bytes) : option nat :=
  first_occurrence_from 0 entries raw_nf.

Fixpoint payload_index_from (i : Z) (envelope : list bytes) (bound : bytes)
  : option Z :=
  match envelope with
  | [] => None
  | p :: envelope =>
      if decide (p = bound) then Some (i mod 2 ^ 32)
      else payload_index_from (i + 1) envelope bound
  end.

Definition batch_occurrence (count : Z) (batch_commit : bytes)
    (envelope : list bytes) (ctx raw_nf : bytes) : option Z :=
  if decide (Z.of_nat (length envelope) ≠ count) then None
  else
    let committed := truncate24 (KernelHash.hash_batch envelope ctx) in
    if decide (committed ≠ batch_commit) then None
    else payload_index_from 0 envelope (kbinding raw_nf ctx).
End occurrence.

(** ** Public supply audit ([audit.rs]) *)

Inductive SupplyError := NegativeSupply.

#[export] Instance supply_error_eq_dec : EqDecision SupplyError.
Proof. solve_decision. Defined.

Fixpoint seen_contains (seen : list bytes) (commit : bytes) : bool :=
  match seen with
  | [] => false
  | s :: seen => if decide (s = commit) then true else seen_contains seen commit
  end.

(** One iteration of the audit loop over the [(seen_mints, total)] state. *)
Definition supply_step (asset_id : bytes) (h : Z) (st : list bytes * Z)
    (anchor : Location * KRecord) : list bytes * Z :=
  let '(seen_mints, total) := st in
  let '(location, record) := anchor in
  if height location <=? h then
    match record with
    | KMint record_asset value mint_commit =>
        if bool_decide (record_asset = asset_id) && negb (seen_contains seen_mints mint_commit)
        then (seen_mints ++ [mint_commit], total + value)
        else st
    | KRedeem record_asset value _ =>
        if bool_decide (record_asset = asset_id) then (seen_mints, total - value) else st
    | _ => st
    end
  else st.

Definition supply (anchors : list (Location * KRecord)) (asset_id : bytes) (h : Z)
  : result SupplyError Z :=
  let total := (foldl (supply_step asset_id h) ([], 0) anchors).2 in
  if (total <? 0) || (total >? u64_max) then Err NegativeSupply else Ok total.

(** ** The accept decision ([accept.rs]) *)

Inductive AssetObservation := Valid | OGenesisMismatch | OUnknownAsset.

Record OccurrenceObservation := { occ_nullifier : bytes; occ_first : option Location }.

Inductive AnchorObservation :=
  | Missing
  | Present (location : Location) (confirmations : Z) (binds_nullifiers : bool)
            (occurrences : list OccurrenceObservation).

Record AcceptInput := {
  has_openings : bool;
  asset : AssetObservation;
  anchor : AnchorObservation;
  has_distinct_nullifiers : bool;
  proof_valid : bool;
  required_confirmations : Z;
  has_owned_output : bool;
}.

Inductive RejectReason :=
  | EmptyConsignment
  | GenesisMismatch
  | UnknownAsset
  | AnchorNotFound
  | DuplicateNullifier
  | InsufficientConfirmations (have required : Z)
  | NullifierConflict (nullifier : bytes) (first : Location)
  | IllFormedAnchor
  | InvalidProof
  | NoOwnedOutput.

#[export] Instance reject_reason_eq_dec : EqDecision RejectReason.
Proof. solve_decision. Defined.

(** [RejectReason::code] *)
Definition reject_code (r : RejectReason) : string :=
  match r with
  | EmptyConsignment => "empty_consignment"
  | GenesisMismatch => "genesis_mismatch"
  | UnknownAsset => "unknown_asset"
  | AnchorNotFound => "anchor_not_found"
  | DuplicateNullifier => "duplicate_nullifier"
  | InsufficientConfirmations _ _ => "insufficient_confirmations"
  | NullifierConflict _ _ => "nullifier_conflict"
  | IllFormedAnchor => "ill_formed_anchor"
  | InvalidProof => "invalid_proof"
  | NoOwnedOutput => "no_owned_output"
  end.

Inductive AcceptDecision := Accept (anchor : Location) | Reject (r : RejectReason).

Definition preflight_rejection (has_openings : bool) (asset : AssetObservation)
  : option RejectReason :=
  if negb has_openings then Some EmptyConsignment
  else match asset with
       | Valid => None
       | OGenesisMismatch => Some GenesisMismatch
       | OUnknownAsset => Some UnknownAsset
       end.

Definition anchor_rejection (anchor_present : bool) : option RejectReason :=
  if anchor_present then None else Some AnchorNotFound.

Definition structure_rejection (has_distinct_nullifiers : bool) : option RejectReason :=
  if has_distinct_nullifiers then None else Some DuplicateNullifier.

Definition proof_rejection (proof_valid : bool) : option RejectReason :=
  if proof_valid then None else Some InvalidProof.

Definition chain_prefix_rejection (confirmations required : Z) (binds_nullifiers : bool)
  : option RejectReason :=
  if confirmations <? required
  then Some (InsufficientConfirmations confirmations required)
  else if binds_nullifiers then None else Some IllFormedAnchor.

Fixpoint occurrence_rejection (anchor : Location)
    (occurrences : list OccurrenceObservation) : option RejectReason :=
  match occurrences with
  | [] => None
  | o :: occurrences =>
      match occ_first o with
      | None => Some AnchorNotFound
      | Some first =>
          if decide (first ≠ anchor) then Some (NullifierConflict (occ_nullifier o) first)
          else occurrence_rejection anchor occurrences
      end
  end.

Definition decide_accept (input : AcceptInput) : AcceptDecision :=
  match preflight_rejection (has_openings input) (asset input) with
  | Some reason => Reject reason
  | None =>
  match anchor input with
  | Missing => Reject AnchorNotFound
  | Present location confirmations binds_nullifiers occurrences =>
  match structure_rejection (has_distinct_nullifiers input) with
  | Some reason => Reject reason
  | None =>
  match proof_rejection (proof_valid input) with
  | Some reason => Reject reason
  | None =>
  match chain_prefix_rejection confirmations (required_confirmations input)
          binds_nullifiers with
  | Some reason => Reject reason
  | None =>
  match occurrence_rejection location occurrences with
  | Some reason => Reject reason
  | None =>
      if negb (has_owned_output input) then Reject NoOwnedOutput else Accept location
  end end end end end end.

(** ** The scan finds the least index *)
Section scan.
Context `{Poseidon}.

Lemma first_occurrence_from_position i es nf :
  first_occurrence_from i es nf =
  Nat.add i <$> position (λ e, kwell_formed (ke_record e) (ke_ctx e) nf) es.
Proof.
  revert i; induction es as [|e es IH]; intros i; cbn; [done|].
  case_if; cbn; [f_equal; lia|]. rewrite IH, <- option_fmap_compose.
  apply option_fmap_ext. intros k. cbn. lia.
Qed.

(** [first_occurrence] returns exactly the least index of an entry whose
    record reveals the nullifier under that entry's own context, so it is the
    canonical occurrence of the nullifier in the ordered log. *)
Theorem first_occurrence_least es nf i :
  first_occurrence es nf = Some i ↔
  (∃ e, es !! i = Some e ∧ kwell_formed (ke_record e) (ke_ctx e) nf = true) ∧
  ∀ j e, (j < i)%nat → es !! j = Some e →
         kwell_formed (ke_record e) (ke_ctx e) nf = false.
Proof.
  unfold first_occurrence. rewrite first_occurrence_from_position.
  rewrite <- position_Some. destruct (position _ es); cbn; done.
Qed.

Lemma payload_index_from_spec i es b : payload_index_from i es b =
  (λ k, (i + Z.of_nat k) mod 2 ^ 32) <$> position (λ p, bool_decide (p = b)) es.
Proof.
  revert i; induction es as [|p es IH]; intros i; cbn [payload_index_from position]; [done|].
  case_decide as Hp.
  - rewrite bool_decide_eq_true_2 by done. cbn. do 2 f_equal. lia.
  - rewrite bool_decide_eq_false_2 by done. rewrite IH, <- option_fmap_compose.
    apply option_fmap_ext. intros k. cbn. f_equal. lia.
Qed.

(** A batch reveals a nullifier at position [p] exactly when the header's
    declared count is the envelope's length, its 24-byte commitment is the
    truncated batch digest of the envelope under the transaction's context,
    and [p] is the least index of the bound payload (as a [u32]). *)
Theorem batch_occurrence_spec count commit env ctx nf p :
  batch_occurrence count commit env ctx nf = Some p ↔
  Z.of_nat (length env) = count ∧
  truncate24 (KernelHash.hash_batch env ctx) = commit ∧
  ∃ k, p = Z.of_nat k mod 2 ^ 32 ∧
    env !! k = Some (kbinding nf ctx) ∧
    ∀ j, (j < k)%nat → env !! j ≠ Some (kbinding nf ctx).
Proof.
  unfold batch_occurrence. rewrite payload_index_from_spec. case_decide as Hc; [naive_solver|].
  case_decide as Hb; [naive_solver|].
  rewrite fmap_Some. split.
  - intros (k & Hk & ->). apply position_Some in Hk as [(x & Hx & Hxb) Hmin].
    apply bool_decide_eq_true in Hxb as ->.
    split_and!; [done..|]. exists k. split_and!; [done..|].
    intros j Hj E. specialize (Hmin j _ Hj E). by apply bool_decide_eq_false in Hmin.
  - intros (_ & _ & k & -> & Hk & Hmin). exists k. split; [|done].
    apply position_Some. split.
    + eexists. split; [done|]. by apply bool_decide_eq_true.
    + intros j y Hj Hy. apply bool_decide_eq_false. intros ->. by eapply Hmin.
Qed.
End scan.

(** ** The audit computes distinct mints less redemptions *)
Section supply_spec.
Context (asset_id : bytes) (h : Z).

(** Mints of the asset in the prefix, as (commitment, value). *)
Definition minted (anchors : list (Location * KRecord)) : list (bytes * Z) :=
  omap (λ a, match a.2 with
             | KMint x v c => if (height a.1 <=? h) && bool_decide (x = asset_id)
                              then Some (c, v) else None
             | _ => None end) anchors.

Definition redeemed (anchors : list (Location * KRecord)) : list Z :=
  omap (λ a, match a.2 with
             | KRedeem x v _ => if (height a.1 <=? h) && bool_decide (x = asset_id)
                                then Some v else None
             | _ => None end) anchors.

Definition sumZ (l : list Z) : Z := foldr Z.add 0 l.

(** Keep the first mint of each commitment not in [seen]. *)
Fixpoint first_mints (seen : list bytes) (l : list (bytes * Z)) : list (bytes * Z) :=
  match l with
  | [] => []
  | (c, v) :: l =>
      if bool_decide (c ∈ seen) then first_mints seen l
      else (c, v) :: first_mints (seen ++ [c]) l
  end.

Lemma seen_contains_spec seen c : seen_contains seen c = bool_decide (c ∈ seen).
Proof.
  induction seen as [|s seen IH]; cbn [seen_contains]; [done|].
  destruct (decide (s = c)) as [Hs|Hs].
  - symmetry. apply bool_decide_eq_true. subst. apply list_elem_of_here.
  - rewrite IH. apply bool_decide_ext. rewrite elem_of_cons. naive_solver.
Qed.

Lemma supply_fold anchors seen total :
  (foldl (supply_step asset_id h) (seen, total) anchors).2 =
  total + sumZ (first_mints seen (minted anchors)).*2 - sumZ (redeemed anchors).
Proof.
  revert seen total. induction anchors as [|[loc r] l IH]; intros seen total.
  { cbn. lia. }
  cbn [foldl supply_step minted redeemed omap list_omap fst snd].
  destruct (height loc <=? h); [|destruct r; cbn [andb]; apply IH].
  destruct r as [x v c| | | |x v p]; cbn [andb]; try apply IH.
  - destruct (bool_decide (x = asset_id)); cbn [andb]; [|apply IH].
    cbn [first_mints]. rewrite seen_contains_spec. destruct (bool_decide (c ∈ seen)); cbn [negb].
    + apply IH.
    + rewrite IH. cbn [fmap list_fmap snd sumZ foldr]. unfold sumZ, minted, redeemed. lia.
  - destruct (bool_decide (x = asset_id)); [|apply IH].
    rewrite IH. cbn [sumZ foldr]. unfold sumZ, minted, redeemed. lia.
Qed.
End supply_spec.

Definition net_supply (anchors : list (Location * KRecord)) (asset_id : bytes) (h : Z) : Z :=
  sumZ (first_mints [] (minted asset_id h anchors)).*2 - sumZ (redeemed asset_id h anchors).

(** C38: The public audit equals its reference definition: the values of the
    first mint of each distinct mint commitment of the asset, up to the given
    height, less every redemption; it succeeds exactly when that net amount is
    a [u64], so an amount above the maximum is reported like a negative one. *)
Theorem supply_spec anchors asset_id h :
  supply anchors asset_id h =
  if decide (0 ≤ net_supply anchors asset_id h ≤ u64_max)
  then Ok (net_supply anchors asset_id h) else Err NegativeSupply.
Proof.
  unfold supply. rewrite supply_fold, Z.add_0_l. fold (net_supply anchors asset_id h).
  set (n := net_supply _ _ _). clearbody n. rewrite Z.gtb_ltb.
  destruct (n <? 0) eqn:E1, (u64_max <? n) eqn:E2; cbn [orb];
    bool_props; case_decide; try done; lia.
Qed.

Lemma first_mints_app seen l k :
  first_mints seen (l ++ k) =
  first_mints seen l ++ first_mints (seen ++ (first_mints seen l).*1) k.
Proof.
  revert seen; induction l as [|[c v] l IH]; intros seen; cbn [first_mints app].
  { cbn. by rewrite app_nil_r. }
  case_if; [apply IH|]. rewrite IH. cbn. by rewrite <- app_assoc.
Qed.

Lemma first_mints_covers seen l c :
  c ∈ l.*1 → c ∈ seen ++ (first_mints seen l).*1.
Proof.
  revert seen; induction l as [|[d v] l IH]; intros seen; [by intros ?%elem_of_nil|].
  cbn [fmap list_fmap fst first_mints]. rewrite elem_of_cons. intros Hc.
  case_if; bool_props.
  - destruct Hc as [->|Hc]; [|by apply IH]. set_solver.
  - destruct Hc as [->|Hc]; [set_solver|].
    specialize (IH (seen ++ [d]) Hc). cbn. set_solver.
Qed.

(** Replaying a mint is inert: once a mint of the asset is in the audited
    prefix, a later record with the same asset and mint commitment (a byte copy,
    or the same coin under another claimed value) leaves the audit unchanged. *)
Theorem supply_replayed_mint l1 l2 l3 loc loc' a v v' c asset_id h :
  loc_le loc loc' →
  supply (l1 ++ (loc, KMint a v c) :: l2 ++ (loc', KMint a v' c) :: l3) asset_id h =
  supply (l1 ++ (loc, KMint a v c) :: l2 ++ l3) asset_id h.
Proof.
  intros Hle%loc_le_spec. rewrite !supply_spec.
  enough (E : net_supply (l1 ++ (loc, KMint a v c) :: l2 ++ (loc', KMint a v' c) :: l3) asset_id h
    = net_supply (l1 ++ (loc, KMint a v c) :: l2 ++ l3) asset_id h) by by rewrite E.
  rewrite !(cons_middle (_, _)), !app_assoc. set (pre := (_ ++ _) ++ l2).
  assert (Hin : height loc' ≤ h → asset_id = a → c ∈ (minted asset_id h pre).*1).
  { intros Hh ->. unfold minted, pre. rewrite !omap_app, !fmap_app.
    cbn. rewrite bool_decide_eq_true_2 by done.
    replace (height loc <=? h) with true by (symmetry; apply Z.leb_le; lia). cbn. set_solver. }
  clearbody pre. unfold net_supply, minted, redeemed. rewrite <- app_assoc, !omap_app.
  cbn [omap list_omap fst snd].
  unfold minted in Hin. destruct (height loc' <=? h) eqn:Eh; [|done].
  destruct (decide (a = asset_id)) as [->|Hne].
  2:{ cbn. by rewrite bool_decide_eq_false_2. }
  rewrite bool_decide_eq_true_2 by done. cbn [andb app].
  rewrite !first_mints_app. cbn [first_mints].
  rewrite bool_decide_eq_true_2; [done|]. apply (first_mints_covers []), Hin; bool_props; auto.
Qed.

Lemma supply_replayed_mint_witness :
  loc_le (MkLocation 5 0) (MkLocation 5 3) ∧
  supply ([] ++ (MkLocation 5 0, KMint [x01] 100 [x07]) ::
          [(MkLocation 5 1, KRedeem [x01] 30 [x09])] ++
          (MkLocation 5 3, KMint [x01] 100 [x07]) :: []) [x01] 6 =
  supply ([] ++ (MkLocation 5 0, KMint [x01] 100 [x07]) ::
          [(MkLocation 5 1, KRedeem [x01] 30 [x09])] ++ []) [x01] 6 ∧
  supply [(MkLocation 5 0, KMint [x01] 100 [x07]);
          (MkLocation 5 1, KRedeem [x01] 30 [x09])] [x01] 6 = Ok 70.
Proof.
  split_and!; [by apply (bool_decide_unpack _); vm_compute| |by vm_compute].
  apply (supply_replayed_mint [] [(MkLocation 5 1, KRedeem [x01] 30 [x09])] []
           (MkLocation 5 0) (MkLocation 5 3) [x01] 100 100 [x07] [x01] 6).
  by apply (bool_decide_unpack _); vm_compute.
Defined.

(** ** The accept decision *)

Lemma occurrence_rejection_None a occs :
  occurrence_rejection a occs = None ↔ Forall (λ o, occ_first o = Some a) occs.
Proof.
  induction occs as [|o occs IH]; cbn; [done|]. rewrite Forall_cons.
  destruct (occ_first o) as [f|]; [|naive_solver]. case_decide; naive_solver.
Qed.

(** Inversion of an accepting decision. *)
Lemma decide_accepts input loc :
  decide_accept input = Accept loc ↔
  has_openings input = true ∧ asset input = Valid ∧
  has_distinct_nullifiers input = true ∧ proof_valid input = true ∧
  has_owned_output input = true ∧
  ∃ confirmations occurrences,
    anchor input = Present loc confirmations true occurrences ∧
    required_confirmations input ≤ confirmations ∧
    Forall (λ o, occ_first o = Some loc) occurrences.
Proof.
  destruct input as [op ass anc dis prf req own].
  unfold decide_accept, preflight_rejection, structure_rejection, proof_rejection,
    chain_prefix_rejection; cbn.
  destruct op, ass, anc as [|l c b occs]; cbn; try naive_solver.
  destruct dis, prf; cbn; try naive_solver.
  destruct (c <? req) eqn:Ec; bool_props.
  { split; [done|]. intros (_&_&_&_&_&? & ? & [= -> -> -> ->] & ? & _). lia. }
  destruct b; [|naive_solver].
  destruct (occurrence_rejection l occs) eqn:Eo.
  { split; [done|]. intros (_&_&_&_&_&? & ? & [= -> -> ->] & _ & Ho).
    apply occurrence_rejection_None in Ho. congruence. }
  apply occurrence_rejection_None in Eo.
  destruct own; cbn; naive_solver.
Qed.

(** The receiver accepts exactly when the consignment opens coins, its
    asset is valid, its anchor is on chain and binds its nullifiers under the
    transaction, the nullifiers are distinct, the proof verifies, the required
    depth is met, every nullifier first occurs at that very anchor, and the
    wallet owns an output; the location returned is the anchor's. *)
Theorem decide_accept_iff input loc :
  decide_accept input = Accept loc ↔
  has_openings input = true ∧ asset input = Valid ∧
  has_distinct_nullifiers input = true ∧ proof_valid input = true ∧
  has_owned_output input = true ∧
  ∃ confirmations occurrences,
    anchor input = Present loc confirmations true occurrences ∧
    required_confirmations input ≤ confirmations ∧
    Forall (λ o, occ_first o = Some loc) occurrences.
Proof. exact (decide_accepts input loc). Qed.

(** A [NullifierConflict] verdict is precise: it is returned exactly when
    every earlier check passes and the named nullifier is the first of the
    consignment whose canonical occurrence is not the claimed anchor, all the
    nullifiers before it being first revealed there. *)
Theorem decide_accept_conflict input nf first :
  decide_accept input = Reject (NullifierConflict nf first) ↔
  has_openings input = true ∧ asset input = Valid ∧
  has_distinct_nullifiers input = true ∧ proof_valid input = true ∧
  ∃ loc confirmations before after,
    anchor input = Present loc confirmations true
      (before ++ {| occ_nullifier := nf; occ_first := Some first |} :: after) ∧
    required_confirmations input ≤ confirmations ∧
    Forall (λ o, occ_first o = Some loc) before ∧ first ≠ loc.
Proof.
  assert (Hocc : ∀ l occs, occurrence_rejection l occs = Some (NullifierConflict nf first) ↔
    ∃ before after, occs = before ++ {| occ_nullifier := nf; occ_first := Some first |} :: after
      ∧ Forall (λ o, occ_first o = Some l) before ∧ first ≠ l).
  { intros l occs. induction occs as [|[n f] occs IH]; cbn.
    { split; [done|]. by intros ([|??] & ? & ? & _). }
    destruct f as [f|]; cbn [occ_first occ_nullifier]; [case_decide as Hf|].
    - split.
      + intros [= -> ->]. by exists [], occs.
      + intros ([|o b] & aft & E & Hb & Hn); injection E; [naive_solver|].
        intros _ <-. apply Forall_cons in Hb as [[= ->] _]. done.
    - rewrite Hf, IH. split.
      + intros (b & aft & -> & Hb & Hn). exists ({| occ_nullifier := n; occ_first := Some l |} :: b), aft.
        split_and!; [done| by constructor | done].
      + intros ([|o b] & aft & E & Hb & Hn); injection E; [naive_solver|].
        intros -> _. apply Forall_cons in Hb as [_ Hb]. eauto.
    - split; [done|]. intros ([|o b] & aft & E & Hb & Hn); injection E; [done|].
      intros _ <-. apply Forall_cons in Hb as [[=] _]. }
  destruct input as [op ass anc dis prf req own].
  unfold decide_accept, preflight_rejection, structure_rejection, proof_rejection,
    chain_prefix_rejection; cbn.
  destruct op, ass, anc as [|l c b occs]; cbn; try naive_solver.
  destruct dis, prf; cbn; try naive_solver.
  destruct (c <? req) eqn:Ec; bool_props.
  { split; [done|]. intros (_&_&_&_&? & ? & ? & ? & [= -> -> -> ->] & ? & _). lia. }
  destruct b; [|naive_solver].
  destruct (occurrence_rejection l occs) as [r|] eqn:Eo.
  - split.
    + intros [= ->]. apply Hocc in Eo as (b & aft & -> & ? & ?). naive_solver.
    + intros (_&_&_&_&? & ? & ? & ? & [= -> -> ->] & ? & ? & ?). f_equal.
      enough (Some r = Some (NullifierConflict nf first)) by congruence.
      rewrite <- Eo. apply Hocc. eauto.
  - split; [by destruct own|]. intros (_&_&_&_&? & ? & ? & ? & [= -> -> ->] & ? & ? & ?).
    enough (None = Some (NullifierConflict nf first)) by done.
    rewrite <- Eo. apply Hocc. eauto.
Qed.
