(* ===== verification/Anchor.v ===== *)
(** * 64-byte anchor records

    Models [crates/opencsv-core/src/anchor.rs] and the kernel adapters of
    [crates/opencsv-core/src/kernel.rs]: the record type, its constructors,
    serialization, total parse, and the occurrence test.  Rust's [assert!]s in
    the constructors are [None]. *)

From S2P Require Import Prelude Field Commitments Kernel.

Definition ANCHOR_SIZE : nat := 64.
Definition TAG_MINT : byte := x01.
Definition TAG_REDEEM : byte := x04.
Definition TAG_BATCH : byte := x05.
Definition MAX_BATCH_V2_PARTICIPANTS : nat := 64.

Inductive AnchorRecord :=
  | Mint (asset_id : bytes) (value : Z) (mint_commit : bytes)
  | Xfer (payload_1 payload_2 : bytes)
  | XferCompressed (nullifier_commit : bytes)
  | BatchHeader (count : Z) (batch_commit : bytes)
  | Redeem (asset_id : bytes) (value : Z) (payload : bytes).

#[export] Instance anchor_record_eq_dec : EqDecision AnchorRecord.
Proof. solve_decision. Defined.

(** ** The kernel boundary ([kernel.rs]); locations are shared *)
Definition to_krecord (r : AnchorRecord) : KRecord :=
  match r with
  | Mint a v c => KMint a v c
  | Xfer p q => KXfer p q
  | XferCompressed p => KXferCompressed p
  | BatchHeader n c => KBatchHeader n c
  | Redeem a v p => KRedeem a v p
  end.

Definition to_kanchors (l : list (Location * AnchorRecord)) : list (Location * KRecord) :=
  (λ '(loc, r), (loc, to_krecord r)) <$> l.

(** ** Constructors *)
Section constructors.
Context `{Poseidon}.

Definition bound (ctx nf : bytes) : bytes := to_anchor (binding nf ctx).

Definition xfer (raw_nullifiers : list bytes) (ctx : bytes) : option AnchorRecord :=
  match raw_nullifiers with
  | [nf] => Some (Xfer (bound ctx nf) (zeros 24))
  | [nf1; nf2] => Some (Xfer (bound ctx nf1) (bound ctx nf2))
  | _ => None
  end.

Definition xfer_compressed (raw_nf_commit ctx : bytes) : AnchorRecord :=
  XferCompressed (bound ctx raw_nf_commit).

Definition batch_header (payloads : list bytes) (ctx : bytes) : option AnchorRecord :=
  if negb (bool_decide (payloads = [])) && (Z.of_nat (length payloads) <=? u8_max)
  then Some (BatchHeader (Z.of_nat (length payloads)) (to_anchor (batch_commit payloads ctx)))
  else None.

Definition batch_header_v2 (payloads : list bytes) (ctx : bytes) : option AnchorRecord :=
  if negb (bool_decide (payloads = [])) &&
     bool_decide (length payloads ≤ MAX_BATCH_V2_PARTICIPANTS)%nat
  then Some (BatchHeader (Z.of_nat (length payloads)) (to_anchor (batch_commit_v2 payloads ctx)))
  else None.

Definition redeem (asset_id : bytes) (value : Z) (raw_nf ctx : bytes) : AnchorRecord :=
  Redeem asset_id value (bound ctx raw_nf).

Definition payload_slots (r : AnchorRecord) : list bytes :=
  match r with
  | Mint _ _ _ | BatchHeader _ _ => []
  | Xfer p q => [p; q]
  | XferCompressed p => [p]
  | Redeem _ _ p => [p]
  end.

Definition well_formed (r : AnchorRecord) (ctx raw_nf : bytes) : bool :=
  kwell_formed (to_krecord r) ctx raw_nf.
End constructors.

(** ** Serialization *)

(** The zero-initialised 64-byte buffer with each field copied at its offset. *)
Definition record_to_bytes (r : AnchorRecord) : bytes :=
  match r with
  | Mint a v c => TAG_MINT :: a ++ le_bytes 8 v ++ c ++ zeros 7
  | BatchHeader n c => TAG_BATCH :: bof n :: c ++ zeros 38
  | Redeem a v p => TAG_REDEEM :: a ++ le_bytes 8 v ++ p ++ zeros 7
  | Xfer p q => p ++ q ++ zeros 16
  | XferCompressed p => p ++ zeros 40
  end.

(** [padded(from)]: every byte from there on is zero. *)
Definition padded (from : nat) (bs : bytes) : bool :=
  forallb (λ b, bool_decide (b = x00)) (drop from bs).

Definition record_from_bytes (bs : bytes) : AnchorRecord :=
  let td a b := slice a b bs in
  let tag := nth 0 bs x00 in
  if bool_decide (tag = TAG_MINT) && padded 57 bs
  then Mint (td 1 25)%nat (le_val (slice 25 33 bs)) (td 33 57)%nat
  else if bool_decide (tag = TAG_REDEEM) && padded 57 bs
  then Redeem (td 1 25)%nat (le_val (slice 25 33 bs)) (td 33 57)%nat
  else if bool_decide (tag = TAG_BATCH) && padded 26 bs
  then BatchHeader (bval (nth 1 bs x00)) (td 2 26)%nat
  else Xfer (td 0 24)%nat (td 24 48)%nat.

Definition parses_cleanly (r : AnchorRecord) : bool :=
  match r, record_from_bytes (record_to_bytes r) with
  | Mint _ _ _, Mint _ _ _ => true
  | Redeem _ _ _, Redeem _ _ _ => true
  | BatchHeader _ _, BatchHeader _ _ => true
  | (Xfer _ _ | XferCompressed _), (Xfer _ _ | XferCompressed _) => true
  | _, _ => false
  end.

(** The Rust field types: 24-byte digests, [u64] values, a [u8] count. *)
Definition record_wf (r : AnchorRecord) : Prop :=
  match r with
  | Mint a v c | Redeem a v c => length a = 24%nat ∧ is_u64 v ∧ length c = 24%nat
  | Xfer p q => length p = 24%nat ∧ length q = 24%nat
  | XferCompressed p => length p = 24%nat
  | BatchHeader n c => is_u8 n ∧ length c = 24%nat
  end.

#[export] Instance record_wf_dec r : Decision (record_wf r).
Proof. destruct r; unfold record_wf, is_u64, is_u8; apply _. Defined.

(** [Xfer] and [XferCompressed] share a layout; the parse picks [Xfer]. *)
Definition canonical_class (r : AnchorRecord) : AnchorRecord :=
  match r with XferCompressed p => Xfer p (zeros 24) | _ => r end.

(** ** Lemmas *)

Lemma length_record_to_bytes r : record_wf r → length (record_to_bytes r) = ANCHOR_SIZE.
Proof.
  destruct r; cbn [record_wf record_to_bytes length];
    rewrite ?length_app, ?length_le_bytes, ?length_zeros; unfold ANCHOR_SIZE; lia.
Qed.

Lemma slice_app_mid {A} a b (x y z : list A) :
  length x = a → length y = (b - a)%nat → slice a b (x ++ y ++ z) = y.
Proof. intros <- Hy. unfold slice. by rewrite drop_app_length, <- Hy, take_app_length. Qed.

Lemma padded_spec from bs : padded from bs = true ↔ drop from bs = zeros (length bs - from).
Proof.
  unfold padded. rewrite <- length_drop. generalize (drop from bs); intros l.
  induction l as [|b l IH]; [done|]. cbn [forallb length zeros replicate].
  rewrite andb_true_iff, bool_decide_eq_true, IH. unfold zeros.
  split; [intros [-> E]; cbn; by rewrite <- E | by intros [= -> ?]].
Qed.

Lemma forallb_zeros n : forallb (λ b, bool_decide (b = x00)) (zeros n) = true.
Proof. by induction n. Qed.

Lemma padded_app from (x : bytes) n : length x = from → padded from (x ++ zeros n) = true.
Proof. intros <-. unfold padded. by rewrite drop_app_length, forallb_zeros. Qed.

(** The shared layout [tag ∥ 24 ∥ 8 ∥ 24 ∥ pad] of MINT and REDEEM. *)
Lemma tagged_layout tag a v c : length a = 24%nat → length c = 24%nat → is_u64 v →
  let bs := tag :: a ++ le_bytes 8 v ++ c ++ zeros 7 in
  nth 0 bs x00 = tag ∧ padded 57 bs = true ∧ slice 1 25 bs = a ∧
  le_val (slice 25 33 bs) = v ∧ slice 33 57 bs = c.
Proof.
  intros Ha Hc Hv bs. split_and!.
  - done.
  - replace bs with ((tag :: a ++ le_bytes 8 v ++ c) ++ zeros 7)
      by (unfold bs; cbn [app]; by rewrite <- !app_assoc).
    apply padded_app. cbn [length]. rewrite !length_app, length_le_bytes. lia.
  - by apply (slice_app_mid 1 25 [tag] a).
  - transitivity (le_val (le_bytes 8 v)).
    + f_equal. apply (slice_app_mid 25 33 (tag :: a) (le_bytes 8 v) (c ++ zeros 7));
        [cbn; lia|by rewrite length_le_bytes].
    + apply le_val_le_bytes_small. unfold is_u64, u64_max in Hv. lia.
  - replace bs with ((tag :: a ++ le_bytes 8 v) ++ c ++ zeros 7)
      by (unfold bs; cbn [app]; by rewrite <- !app_assoc).
    apply slice_app_mid; [|done]. cbn [length]. rewrite length_app, length_le_bytes. lia.
Qed.

Lemma batch_layout n c : length c = 24%nat → is_u8 n →
  let bs := TAG_BATCH :: bof n :: c ++ zeros 38 in
  padded 26 bs = true ∧ bval (nth 1 bs x00) = n ∧ slice 2 26 bs = c.
Proof.
  intros Hc Hn bs. split_and!.
  - apply (padded_app 26 (TAG_BATCH :: bof n :: c)). cbn [length]. lia.
  - cbn. rewrite bval_bof. unfold is_u8, u8_max in Hn. apply Z.mod_small. lia.
  - by apply (slice_app_mid 2 26 [TAG_BATCH; bof n] c (zeros 38)).
Qed.

Lemma from_to_tagged r : record_wf r →
  match r with Xfer _ _ | XferCompressed _ => True
             | _ => record_from_bytes (record_to_bytes r) = r end.
Proof.
  destruct r as [a v c| | |n c|a v c]; cbn [record_wf]; try done.
  - intros (Ha & Hv & Hc). unfold record_from_bytes. cbn [record_to_bytes].
    destruct (tagged_layout TAG_MINT a v c) as (-> & -> & -> & -> & ->); done.
  - intros (Hn & Hc). unfold record_from_bytes. cbn [record_to_bytes].
    destruct (batch_layout n c) as (-> & -> & ->); done.
  - intros (Ha & Hv & Hc). unfold record_from_bytes. cbn [record_to_bytes].
    destruct (tagged_layout TAG_REDEEM a v c) as (-> & -> & -> & -> & ->); done.
Qed.

(** The bytes that read as a tagged record. *)
Definition reads_tagged (bs : bytes) : bool :=
  let tag := nth 0 bs x00 in
  ((bool_decide (tag = TAG_MINT) || bool_decide (tag = TAG_REDEEM)) && padded 57 bs)
  || (bool_decide (tag = TAG_BATCH) && padded 26 bs).

Lemma from_bytes_untagged bs : reads_tagged bs = false →
  record_from_bytes bs = Xfer (slice 0 24 bs) (slice 24 48 bs).
Proof.
  unfold reads_tagged, record_from_bytes. intros H. apply orb_false_iff in H as [H1 H2].
  rewrite H2. destruct (padded 57 bs); rewrite ?andb_true_r, ?andb_false_r in *; [|done].
  by apply orb_false_iff in H1 as [-> ->].
Qed.

Lemma transfer_slots p q : length p = 24%nat → length q = 24%nat →
  slice 0 24 (p ++ q ++ zeros 16) = p ∧ slice 24 48 (p ++ q ++ zeros 16) = q.
Proof.
  intros Hp Hq. split; [|by apply slice_app_mid].
  by apply (slice_app_mid 0 24 [] p (q ++ zeros 16)).
Qed.

Lemma canonical_bytes r : record_to_bytes (canonical_class r) = record_to_bytes r.
Proof. destruct r; try done. Qed.

Lemma canonical_wf r : record_wf r → record_wf (canonical_class r).
Proof. by destruct r. Qed.

Lemma is_tagged_class bs : reads_tagged bs = true →
  match record_from_bytes bs with Xfer _ _ | XferCompressed _ => False | _ => True end.
Proof.
  unfold reads_tagged, record_from_bytes.
  destruct (bool_decide (_ = TAG_MINT)), (bool_decide (_ = TAG_REDEEM)),
    (bool_decide (_ = TAG_BATCH)), (padded 57 bs), (padded 26 bs); done.
Qed.

(** The record parses back in its own class exactly when it is tagged, or its
    bytes do not read as a tagged record. *)
Lemma parses_cleanly_reads r : record_wf r →
  parses_cleanly r =
  match r with Xfer _ _ | XferCompressed _ => negb (reads_tagged (record_to_bytes r))
             | _ => true end.
Proof.
  intros Hr. pose proof (from_to_tagged r Hr) as HT. unfold parses_cleanly.
  destruct r; try (rewrite HT; done).
  all: destruct (reads_tagged _) eqn:E; [|by rewrite from_bytes_untagged].
  all: apply is_tagged_class in E; by destruct (record_from_bytes _).
Qed.

Lemma padded_57_transfer p q : length p = 24%nat → length q = 24%nat →
  padded 57 (p ++ q ++ zeros 16) = true.
Proof.
  intros Hp Hq.
  replace (p ++ q ++ zeros 16) with ((p ++ q ++ zeros 9) ++ zeros 7) by (by rewrite <- !app_assoc).
  apply padded_app. rewrite !length_app, length_zeros. lia.
Qed.

Lemma padded_26_transfer p q : length p = 24%nat → length q = 24%nat →
  padded 26 (p ++ q ++ zeros 16) = padded 2 q.
Proof.
  intros Hp Hq. unfold padded. rewrite drop_app_ge, drop_app_le by lia.
  rewrite forallb_app, forallb_zeros, andb_true_r. by replace (26 - length p)%nat with 2%nat by lia.
Qed.

Lemma transfer_tag (p l : bytes) : length p = 24%nat → nth 0 (p ++ l) x00 = nth 0 p x00.
Proof. by destruct p. Qed.

Lemma from_to_clean r : record_wf r → parses_cleanly r = true →
  record_from_bytes (record_to_bytes r) = canonical_class r.
Proof.
  intros Hr Hc. pose proof (from_to_tagged r Hr) as HT.
  rewrite parses_cleanly_reads in Hc by done.
  destruct r as [|p q|p| |]; try done; cbn [canonical_class]; apply negb_true_iff in Hc;
    rewrite from_bytes_untagged by done; cbn [record_to_bytes].
  - destruct Hr as [Hp Hq]. by destruct (transfer_slots p q Hp Hq) as [-> ->].
  - by destruct (transfer_slots p (zeros 24) Hr eq_refl) as [E1 E2]; f_equal.
Qed.

Lemma tagged_cases bs : reads_tagged bs = true →
  (nth 0 bs x00 = TAG_MINT ∧ padded 57 bs = true ∧ record_from_bytes bs =
     Mint (slice 1 25 bs) (le_val (slice 25 33 bs)) (slice 33 57 bs)) ∨
  (nth 0 bs x00 = TAG_REDEEM ∧ padded 57 bs = true ∧ record_from_bytes bs =
     Redeem (slice 1 25 bs) (le_val (slice 25 33 bs)) (slice 33 57 bs)) ∨
  (nth 0 bs x00 = TAG_BATCH ∧ padded 26 bs = true ∧ record_from_bytes bs =
     BatchHeader (bval (nth 1 bs x00)) (slice 2 26 bs)).
Proof.
  unfold reads_tagged, record_from_bytes.
  destruct (bool_decide (_ = TAG_MINT)) eqn:E1, (bool_decide (_ = TAG_REDEEM)) eqn:E2,
    (bool_decide (_ = TAG_BATCH)) eqn:E3, (padded 57 bs), (padded 26 bs); try done;
    bool_props; intros _; first [by left | by right; left | by right; right | congruence].
Qed.

Lemma padded_zeros from bs : length bs = ANCHOR_SIZE → padded from bs = true →
  take from bs ++ zeros (64 - from) = bs.
Proof. unfold ANCHOR_SIZE. intros HL Hp%padded_spec. rewrite HL in Hp. by rewrite <- Hp, take_drop. Qed.

Lemma tagged_rebuild bs : length bs = ANCHOR_SIZE → padded 57 bs = true →
  nth 0 bs x00 :: slice 1 25 bs ++ slice 25 33 bs ++ slice 33 57 bs ++ zeros 7 = bs.
Proof.
  intros HL Hp. rewrite (app_assoc (slice 25 33 bs)), slice_app by lia.
  rewrite (app_assoc (slice 1 25 bs)), slice_app, app_comm_cons, slice_nth, slice_0
    by (unfold ANCHOR_SIZE in *; lia).
  by apply (padded_zeros 57).
Qed.

Lemma batch_rebuild bs : length bs = ANCHOR_SIZE → padded 26 bs = true →
  nth 0 bs x00 :: nth 1 bs x00 :: slice 2 26 bs ++ zeros 38 = bs.
Proof.
  intros HL Hp. unfold ANCHOR_SIZE in *.
  rewrite !app_comm_cons, slice_nth, slice_nth, slice_0 by lia.
  by apply (padded_zeros 26).
Qed.

Lemma slice_u64 a b bs : (b = a + 8 ∧ b ≤ length bs)%nat → is_u64 (le_val (slice a b bs)).
Proof.
  intros [-> Hb]. unfold is_u64, u64_max. pose proof (le_val_bound (slice a (a + 8) bs)) as H.
  rewrite length_slice in H by lia. replace (a + 8 - a)%nat with 8%nat in H by lia.
  change (256 ^ Z.of_nat 8) with (2 ^ 64) in H. lia.
Qed.

(** ** Properties *)

(** Every well-typed anchor record serializes to exactly 64 bytes, and it
    parses back to itself (a compressed transfer as the plain transfer with a
    zero second slot, the layout they share) exactly when [parses_cleanly]
    accepts it. *)
Theorem anchor_record_roundtrip r : record_wf r →
  length (record_to_bytes r) = ANCHOR_SIZE ∧
  (parses_cleanly r = true ↔ record_from_bytes (record_to_bytes r) = canonical_class r).
Proof.
  intros Hr. split; [by apply length_record_to_bytes|]. split; [by apply from_to_clean|].
  intros E. unfold parses_cleanly. by destruct r; rewrite E.
Qed.

Lemma anchor_record_roundtrip_witness :
  parses_cleanly (Redeem (replicate 24 x11) 1000 (replicate 24 x22)) = true ↔
  record_from_bytes (record_to_bytes (Redeem (replicate 24 x11) 1000 (replicate 24 x22)))
    = Redeem (replicate 24 x11) 1000 (replicate 24 x22).
Proof.
  apply (anchor_record_roundtrip (Redeem (replicate 24 x11) 1000 (replicate 24 x22))).
  by apply (bool_decide_unpack _); vm_compute.
Defined.

(** The parse never fails and never invents data: every 64-byte string
    yields a well-typed record, which serializes to the same 64 bytes when they
    read as a tagged record, and to their first 48 bytes with cleared padding
    when they are an untagged transfer candidate. *)
Theorem anchor_parse_total bs : length bs = ANCHOR_SIZE →
  record_wf (record_from_bytes bs) ∧
  record_to_bytes (record_from_bytes bs) =
    if reads_tagged bs then bs else take 48 bs ++ zeros 16.
Proof.
  unfold ANCHOR_SIZE. intros HL.
  assert (Hs : ∀ a b, (a ≤ b ≤ 64)%nat → length (slice a b bs) = (b - a)%nat)
    by (intros; apply length_slice; lia).
  destruct (reads_tagged bs) eqn:Hr.
  - pose proof (slice_u64 25 33 bs ltac:(lia)) as Hv.
    pose proof (bval_bound (nth 1 bs x00)) as Hn.
    apply tagged_cases in Hr as [(Et & Ep & ->)|[(Et & Ep & ->)|(Et & Ep & ->)]];
      cbn [record_wf record_to_bytes]; rewrite <- ?Et.
    1-2: rewrite le_bytes_le_val, !Hs by (rewrite ?Hs; lia); split; [done|by apply tagged_rebuild].
    rewrite bof_bval, Hs by lia. split; [|by apply batch_rebuild].
    unfold is_u8, u8_max. split; [lia|done].
  - rewrite from_bytes_untagged by done. cbn [record_wf record_to_bytes]. rewrite !Hs by lia.
    split; [done|]. by rewrite app_assoc, slice_app, slice_0 by lia.
Qed.

Lemma anchor_parse_total_witness :
  length (x05 :: replicate 63 x01) = ANCHOR_SIZE ∧
  record_to_bytes (record_from_bytes (x05 :: replicate 63 x01)) =
    x05 :: replicate 47 x01 ++ zeros 16.
Proof.
  split; [reflexivity|].
  exact (proj2 (anchor_parse_total (x05 :: replicate 63 x01) eq_refl)).
Defined.

(** Exactly which records survive a round trip through the chain: tagged
    records always do; a transfer does unless its first payload byte is the
    MINT or REDEEM tag, or is the BATCH tag and every byte of the second slot
    after its second one is zero (always the case of a compressed transfer,
    whose second slot is empty). *)
Theorem parses_cleanly_exact r : record_wf r →
  parses_cleanly r = true ↔
  match r with
  | Xfer p q =>
      nth 0 p x00 ≠ TAG_MINT ∧ nth 0 p x00 ≠ TAG_REDEEM ∧
      (nth 0 p x00 = TAG_BATCH → drop 2 q ≠ zeros 22)
  | XferCompressed p =>
      nth 0 p x00 ≠ TAG_MINT ∧ nth 0 p x00 ≠ TAG_REDEEM ∧ nth 0 p x00 ≠ TAG_BATCH
  | _ => True
  end.
Proof.
  intros Hr. rewrite parses_cleanly_reads by done.
  assert (HX : ∀ p q, length p = 24%nat → length q = 24%nat →
    reads_tagged (p ++ q ++ zeros 16) =
    bool_decide (nth 0 p x00 = TAG_MINT) || bool_decide (nth 0 p x00 = TAG_REDEEM)
    || (bool_decide (nth 0 p x00 = TAG_BATCH) && padded 2 q)).
  { intros p q Hp Hq. unfold reads_tagged.
    rewrite transfer_tag, padded_57_transfer, padded_26_transfer, andb_true_r by done. done. }
  destruct r as [|p q|p| |]; try done; cbn [record_to_bytes].
  - destruct Hr as [Hp Hq]. rewrite HX by done.
    rewrite negb_true_iff, !orb_false_iff, andb_false_iff, !bool_decide_eq_false.
    rewrite <- not_true_iff_false, padded_spec, Hq.
    destruct (decide (nth 0 p x00 = TAG_BATCH)); naive_solver.
  - replace (zeros 40) with (zeros 24 ++ zeros 16) by done. rewrite HX by done.
    change (padded 2 (zeros 24)) with true.
    rewrite negb_true_iff, andb_true_r, !orb_false_iff, !bool_decide_eq_false. tauto.
Qed.

Lemma parses_cleanly_exact_witness :
  record_wf (Xfer (x05 :: replicate 23 x01) (zeros 24)) ∧
  ¬ parses_cleanly (Xfer (x05 :: replicate 23 x01) (zeros 24)) = true.
Proof.
  split; [by apply (bool_decide_unpack _); vm_compute|].
  intros H.
  apply (parses_cleanly_exact (Xfer (x05 :: replicate 23 x01) (zeros 24))) in H.
  - destruct H as (_ & _ & H). by apply H.
  - by apply (bool_decide_unpack _); vm_compute.
Defined.

(** ** Copies of a record do not spend *)
Section copies.
Context `{PoseidonLaws}.

Lemma well_formed_slots r ctx nf :
  well_formed r ctx nf = true ↔ bound ctx nf ∈ payload_slots r.
Proof.
  unfold well_formed, bound, binding.
  destruct r; cbn -[kbinding]; unfold kbinding, truncate24, to_anchor, TRUNCATED_DIGEST_BYTES;
    rewrite ?orb_true_iff, ?bool_decide_eq_true; set_solver.
Qed.

Lemma bound_inj ctx ctx' nf nf' :
  length ctx = 32%nat → length ctx' = 32%nat → is_digest nf = true → is_digest nf' = true →
  bound ctx nf = bound ctx' nf' →
  (nf = nf' ∧ ctx = ctx') ∨
  collides_prefix 6 (hash_call_input (HBind nf ctx)) (hash_call_input (HBind nf' ctx')).
Proof.
  intros Hc Hc' Hn Hn' E.
  destruct (hash_call_anchor_inj (HBind nf ctx) (HBind nf' ctx')) as [[= -> ->]|HC];
    cbn [hash_call_wf]; rewrite ?andb_true_iff, ?is_bytes_length; auto.
Qed.

(** The raw values a nullifier-bearing record was built from. *)
Definition spends (ctx : bytes) (nfs : list bytes) (r : AnchorRecord) : Prop :=
  (xfer nfs ctx = Some r) ∨
  (∃ nf, nfs = [nf] ∧ (r = xfer_compressed nf ctx ∨ ∃ a v, r = redeem a v nf ctx)).

(** Anti-grief: a record built from raw nullifiers under one transaction
    context is an occurrence of each of them under that context, and a byte copy
    of it mined under any other context is an occurrence of no nullifier at all,
    except through a 24-byte collision of the binding digest (named explicitly)
    or a binding digest whose anchor form is all zeros, the empty slot. *)
Theorem copied_record_spends_nothing r ctx ctx' nfs nf' :
  spends ctx nfs r →
  length ctx = 32%nat → length ctx' = 32%nat →
  Forall (λ nf, is_digest nf = true) nfs → is_digest nf' = true →
  Forall (λ nf, well_formed r ctx nf = true) nfs ∧
  (ctx ≠ ctx' → well_formed r ctx' nf' = true →
   bound ctx' nf' = zeros 24 ∨
   ∃ nf, nf ∈ nfs ∧
     collides_prefix 6 (hash_call_input (HBind nf ctx)) (hash_call_input (HBind nf' ctx'))).
Proof.
  intros Hs Hc Hc' Hd Hd'.
  assert (Hslots : (∀ nf, nf ∈ nfs → bound ctx nf ∈ payload_slots r) ∧
    ∀ p, p ∈ payload_slots r → p = zeros 24 ∨ ∃ nf, nf ∈ nfs ∧ p = bound ctx nf).
  { destruct Hs as [Hx|(nf & -> & [->|(a & v & ->)])].
    - destruct nfs as [|nf1 [|nf2 [|]]]; cbn in Hx; try done; injection Hx as <-; set_solver.
    - set_solver.
    - set_solver. }
  destruct Hslots as [Hin Hout]. split.
  { apply Forall_forall. intros nf Hnf. by apply well_formed_slots, Hin. }
  intros Hne Hw%well_formed_slots. apply Hout in Hw as [->|(nf & Hnf & E)]; [by left|].
  right. exists nf. split; [done|]. rewrite Forall_forall in Hd.
  destruct (bound_inj ctx ctx' nf nf') as [[_ ->]|]; auto. done.
Qed.
End copies.

Lemma copied_record_spends_nothing_witness :
  well_formed (H := demo_sponge)
    (xfer_compressed (H := demo_sponge) (demo_digest 3) (zeros 32)) (zeros 32) (demo_digest 3) = true.
Proof.
  pose proof (@copied_record_spends_nothing demo_sponge demo_sponge_laws
    (xfer_compressed (H := demo_sponge) (demo_digest 3) (zeros 32)) (zeros 32) (demo_digest 3)
    [demo_digest 3] (demo_digest 3)) as Hthm.
  destruct Hthm as [Hw _].
  - right. exists (demo_digest 3). split; [done|]. by left.
  - reflexivity.
  - reflexivity.
  - constructor; [by vm_compute | constructor].
  - by vm_compute.
  - by inversion Hw.
Defined.
