(* ===== verification/Batch.v ===== *)
(** * Batch witness envelopes

    Models [crates/opencsv-core/src/batch.rs]: the [OCSV] (v1) and [OCS2] (v2)
    witness envelopes, the commitment each version selects and the
    version-aware occurrence test. *)

From S2P Require Import Prelude Field Commitments Kernel Anchor.

(** ["OCSV"] and ["OCS2"] *)
Definition WITNESS_MAGIC : bytes := [x4f; x43; x53; x56].
Definition WITNESS_MAGIC_V2 : bytes := [x4f; x43; x53; x32].
Definition MAX_WITNESS_ITEM : nat := 80.

Inductive BatchVersion := V1 | V2.

#[export] Instance batch_version_eq_dec : EqDecision BatchVersion.
Proof. solve_decision. Defined.

Definition envelope_encode (payloads : list bytes) : list bytes := WITNESS_MAGIC :: payloads.

Definition envelope_v2_encode (payloads : list bytes) : option (list bytes) :=
  if bool_decide (payloads = []) ||
     negb (bool_decide (length payloads ≤ MAX_BATCH_V2_PARTICIPANTS)%nat)
  then None else Some (WITNESS_MAGIC_V2 :: payloads).

Definition envelope_decode (items : list bytes) : option (list bytes) :=
  match items with
  | [] => None
  | magic :: payloads =>
      if negb (bool_decide (magic = WITNESS_MAGIC)) || bool_decide (payloads = []) then None
      else mapM (λ item,
        if negb (bool_decide (length item = TRUNCATED_DIGEST_BYTES)) ||
           negb (bool_decide (length item ≤ MAX_WITNESS_ITEM)%nat)
        then None else Some item) payloads
  end.

Definition witness_envelope_decode (witness : list bytes)
  : option (BatchVersion * list bytes) :=
  magic ← head witness;
  let n := length witness in
  if bool_decide (magic = WITNESS_MAGIC) then
    pair V1 <$> envelope_decode (take (n - 1) witness)
  else if bool_decide (magic = WITNESS_MAGIC_V2) then
    if bool_decide (n < 4)%nat || bool_decide (MAX_BATCH_V2_PARTICIPANTS + 3 < n)%nat then None
    else
      let signature := nth (n - 2) witness [] in
      script ← last witness;
      let payloads := slice 1 (n - 2) witness in
      if bool_decide (signature = []) || bool_decide (MAX_WITNESS_ITEM < length signature)%nat
         || bool_decide (script = [])
         || existsb (λ item, negb (bool_decide (length item = TRUNCATED_DIGEST_BYTES))) payloads
      then None
      else Some (V2, payloads)
  else None.

Section occurrence.
Context `{Poseidon}.

Definition versioned_batch_commit (version : BatchVersion) (payloads : list bytes)
    (ctx : bytes) : bytes :=
  match version with
  | V1 => batch_commit payloads ctx
  | V2 => batch_commit_v2 payloads ctx
  end.

Definition envelope_occurrence (record : AnchorRecord) (envelope : list bytes)
    (ctx raw_nf : bytes) : option Z :=
  match record with
  | BatchHeader count committed => batch_occurrence count committed envelope ctx raw_nf
  | _ => None
  end.

Definition versioned_envelope_occurrence (version : BatchVersion) (record : AnchorRecord)
    (envelope : list bytes) (ctx raw_nf : bytes) : option Z :=
  match record with
  | BatchHeader count committed =>
      if negb (bool_decide (Z.of_nat (length envelope) = count)) ||
         negb (bool_decide (to_anchor (versioned_batch_commit version envelope ctx) = committed))
      then None
      else
        let b := to_anchor (binding raw_nf ctx) in
        (λ index, Z.of_nat index mod 2 ^ 32) <$>
          position (λ payload, bool_decide (payload = b)) envelope
  | _ => None
  end.
End occurrence.

(** ** Lemmas *)

Lemma mapM_checked (l k : list bytes) (p : bytes → bool) :
  mapM (λ i, if p i then None else Some i) l = Some k ↔
  k = l ∧ Forall (λ i, p i = false) l.
Proof.
  revert k; induction l as [|x l IH]; intros k; cbn.
  { split; [by intros [= <-]|]. by intros [-> _]. }
  rewrite Forall_cons. destruct (p x) eqn:E; cbn; [naive_solver|].
  split.
  - intros Hm. destruct (mapM _ l) as [k'|] eqn:M; cbn in Hm; [|done].
    injection Hm as <-. destruct (proj1 (IH k') eq_refl) as [-> ?]. auto.
  - intros [-> [_ HF]]. by rewrite (proj2 (IH l) (conj eq_refl HF)).
Qed.

Lemma envelope_decode_spec items ps :
  envelope_decode items = Some ps ↔
  items = envelope_encode ps ∧ ps ≠ [] ∧ Forall (λ p, length p = 24%nat) ps.
Proof.
  unfold envelope_decode, envelope_encode. destruct items as [|m l]; [naive_solver|].
  case_bool_decide as Hm; cbn [negb orb]; [|naive_solver]. subst m.
  case_bool_decide as Hl; [naive_solver|].
  rewrite (mapM_checked l ps (λ i, _)), Forall_forall.
  assert (HF : (∀ x, x ∈ l → negb (bool_decide (length x = TRUNCATED_DIGEST_BYTES)) ||
     negb (bool_decide (length x ≤ MAX_WITNESS_ITEM)%nat) = false) ↔
     Forall (λ p, length p = 24%nat) l).
  { rewrite Forall_forall. unfold TRUNCATED_DIGEST_BYTES, MAX_WITNESS_ITEM.
    split; intros Hx x Hin; specialize (Hx x Hin).
    - apply orb_false_iff in Hx as [Hx _]. by apply negb_false_iff, bool_decide_eq_true in Hx.
    - rewrite orb_false_iff, !negb_false_iff, !bool_decide_eq_true. lia. }
  rewrite HF. naive_solver.
Qed.

Lemma split_last_witness {A} (w : list A) x : last w = Some x →
  w = take (length w - 1) w ++ [x].
Proof.
  intros [k ->]%last_Some. rewrite length_app. cbn [length].
  by rewrite Nat.add_sub, take_app_length.
Qed.

Lemma existsb_lengths (ps : list bytes) :
  existsb (λ i, negb (bool_decide (length i = TRUNCATED_DIGEST_BYTES))) ps = false ↔
  Forall (λ p, length p = 24%nat) ps.
Proof.
  induction ps as [|p ps IH]; cbn [existsb]; [done|].
  by rewrite Forall_cons, orb_false_iff, IH, negb_false_iff, bool_decide_eq_true.
Qed.

(** The v2 witness shape [magic, payloads..., signature, script]. *)
Lemma v2_shape (w : list bytes) : (4 ≤ length w)%nat → head w = Some WITNESS_MAGIC_V2 →
  ∃ script, last w = Some script ∧
    w = WITNESS_MAGIC_V2 :: slice 1 (length w - 2) w ++ [nth (length w - 2) w []; script].
Proof.
  intros HL Hh. destruct w as [|m w]; [done|]. injection Hh as ->.
  cbn [length] in HL. destruct (last w) as [s|] eqn:Hs.
  2:{ apply last_None in Hs as ->. cbn in HL. lia. }
  apply last_Some in Hs as [k ->]. rewrite length_app in HL. cbn [length] in HL.
  destruct (last k) as [g|] eqn:Hg.
  2:{ apply last_None in Hg as ->. cbn in HL. lia. }
  apply last_Some in Hg as [ps ->]. exists s.
  rewrite last_cons, last_snoc. split; [done|]. f_equal.
  cbn [length]. rewrite !length_app. cbn [length].
  replace (S (length ps + 1 + 1) - 2)%nat with (S (length ps)) by lia.
  rewrite <- !app_assoc. cbn [app nth].
  rewrite app_nth2, Nat.sub_diag by lia. cbn [nth].
  unfold slice. cbn [skipn Nat.sub]. by rewrite Nat.sub_0_r, drop_0, take_app_length.
Qed.

Lemma slice_payloads (ps : list bytes) g s :
  let w := WITNESS_MAGIC_V2 :: ps ++ [g; s] in
  slice 1 (length w - 2) w = ps ∧ nth (length w - 2) w [] = g ∧ last w = Some s.
Proof.
  cbn [length]. rewrite length_app. cbn [length].
  replace (S (length ps + 2) - 2)%nat with (S (length ps)) by lia. split_and!.
  - unfold slice. cbn [skipn Nat.sub]. by rewrite Nat.sub_0_r, drop_0, take_app_length.
  - cbn [nth]. by rewrite app_nth2, Nat.sub_diag by lia.
  - by rewrite (app_assoc ps [g] [s] : ps ++ [g; s] = _), app_comm_cons, last_snoc.
Qed.

Lemma witness_v1 w ps :
  witness_envelope_decode w = Some (V1, ps) ↔
  ps ≠ [] ∧ Forall (λ p, length p = 24%nat) ps ∧ ∃ script, w = envelope_encode ps ++ [script].
Proof.
  unfold witness_envelope_decode. split.
  - destruct (head w) as [m|] eqn:Hh; cbn [mbind option_bind]; [|done].
    case_bool_decide as Hm.
    + rewrite fmap_Some. intros (k & Hk & [= ->]).
      apply envelope_decode_spec in Hk as (E & Hne & HF). split_and!; [done..|].
      destruct (last w) as [s|] eqn:Hl.
      * exists s. rewrite <- E. by apply split_last_witness.
      * apply last_None in Hl as ->. done.
    + case_bool_decide; [|done]. case_if; [done|]. destruct (last w); cbn; [|done]. by case_if.
  - intros (Hne & HF & s & ->). unfold envelope_encode. cbn [app head mbind option_bind].
    rewrite bool_decide_eq_true_2 by done. cbn [length]. rewrite length_app. cbn [length].
    replace (S (length ps + 1) - 1)%nat with (S (length ps)) by lia. cbn [firstn].
    rewrite take_app_length. by rewrite (proj2 (envelope_decode_spec (WITNESS_MAGIC :: ps) ps)).
Qed.

Lemma witness_v2 w ps :
  witness_envelope_decode w = Some (V2, ps) ↔
  ps ≠ [] ∧ Forall (λ p, length p = 24%nat) ps ∧
  ∃ items signature script,
    envelope_v2_encode ps = Some items ∧ w = items ++ [signature; script] ∧
    signature ≠ [] ∧ (length signature ≤ MAX_WITNESS_ITEM)%nat ∧ script ≠ [].
Proof.
  unfold witness_envelope_decode, envelope_v2_encode. split.
  - destruct (head w) as [m|] eqn:Hh; cbn [mbind option_bind]; [|done].
    case_bool_decide as Hm; [by destruct (envelope_decode _)|].
    case_bool_decide as Hm2; [subst m|done]. case_if; [done|].
    apply orb_false_iff in Heqb as [H4%bool_decide_eq_false HM%bool_decide_eq_false].
    destruct (v2_shape w) as (s & Hs & E); [lia|done|]. rewrite Hs. cbn [mbind option_bind].
    case_if; [done|]. intros [= <-]. rewrite !orb_false_iff, !bool_decide_eq_false in Heqb.
    destruct Heqb as [[[Hsig Hlen] Hscr] HF]. apply existsb_lengths in HF.
    assert (HL : length (slice 1 (length w - 2) w) = (length w - 3)%nat)
      by (rewrite length_slice; lia).
    unfold MAX_BATCH_V2_PARTICIPANTS in *.
    split_and!; [intros E0; rewrite E0 in HL; cbn in HL; lia | done|].
    exists (WITNESS_MAGIC_V2 :: slice 1 (length w - 2) w), (nth (length w - 2) w []), s.
    split_and!; [|exact E|done|lia|done].
    rewrite bool_decide_eq_false_2, bool_decide_eq_true_2; [done|lia|].
    intros E0. rewrite E0 in HL. cbn in HL. lia.
  - intros (Hne & HF & items & g & s & Henc & -> & Hg & HL & Hs).
    rewrite bool_decide_eq_false_2 in Henc by done. cbn [orb] in Henc.
    case_bool_decide as HP; [|done]. injection Henc as <-.
    cbn [app head mbind option_bind].
    rewrite bool_decide_eq_false_2, bool_decide_eq_true_2 by done.
    destruct (slice_payloads ps g s) as (-> & -> & ->).
    assert (length ps ≠ 0%nat) by (by destruct ps).
    cbn [length mbind option_bind]. rewrite length_app. cbn [length].
    rewrite !(bool_decide_eq_false_2 (_ < _)%nat) by (unfold MAX_BATCH_V2_PARTICIPANTS in *; lia).
    rewrite !bool_decide_eq_false_2 by done.
    by rewrite (proj2 (existsb_lengths ps) HF).
Qed.

(** ** Properties *)

(** A batch witness decodes to a version and its payloads exactly when it
    has that version's canonical shape: [OCSV], one or more 24-byte payloads and
    a script, or [OCS2], one to 64 24-byte payloads, a non-empty signature of at
    most 80 bytes and a non-empty script. Encoding therefore round-trips, one
    version is never read as the other, and no other witness decodes. *)
Theorem witness_envelope_exact w v ps :
  witness_envelope_decode w = Some (v, ps) ↔
  ps ≠ [] ∧ Forall (λ p, length p = 24%nat) ps ∧
  match v with
  | V1 => ∃ script, w = envelope_encode ps ++ [script]
  | V2 => ∃ items signature script,
      envelope_v2_encode ps = Some items ∧ w = items ++ [signature; script] ∧
      signature ≠ [] ∧ (length signature ≤ MAX_WITNESS_ITEM)%nat ∧ script ≠ []
  end.
Proof.
  destruct v; [apply witness_v1 | apply witness_v2].
Qed.

(** The kernel's batch occurrence test and the version-aware test of the
    core crate agree on v1 envelopes, on every record, envelope, context and
    nullifier. *)
Theorem envelope_occurrence_kernel `{Poseidon} r env ctx nf :
  envelope_occurrence r env ctx nf = versioned_envelope_occurrence V1 r env ctx nf.
Proof.
  destruct r as [| | |count c|]; try done. cbn [envelope_occurrence versioned_envelope_occurrence].
  unfold batch_occurrence. rewrite payload_index_from_spec.
  case_bool_decide as Hc; case_decide; cbn [negb orb]; try done; try lia.
  unfold versioned_batch_commit, batch_commit, truncate24, to_anchor, TRUNCATED_DIGEST_BYTES.
  case_bool_decide; case_decide; cbn [negb]; try done; congruence.
Qed.

Section commitment.
Context `{PoseidonLaws}.

(** The call a version's commitment makes. *)
Definition versioned_call (v : BatchVersion) (ps : list bytes) (ctx : bytes) : hash_call :=
  match v with V1 => HBatch ps ctx | V2 => HBatchV2 ps ctx end.

Lemma versioned_call_digest v ps ctx :
  hash_call_digest (versioned_call v ps ctx) = versioned_batch_commit v ps ctx.
Proof. by destruct v. Qed.

Definition versioned_header (v : BatchVersion) (ps : list bytes) (ctx : bytes)
  : option AnchorRecord :=
  match v with V1 => batch_header ps ctx | V2 => batch_header_v2 ps ctx end.

Lemma versioned_header_Some v ps ctx r : versioned_header v ps ctx = Some r →
  r = BatchHeader (Z.of_nat (length ps)) (to_anchor (versioned_batch_commit v ps ctx)).
Proof. destruct v; cbn; unfold batch_header, batch_header_v2; case_if; naive_solver. Qed.

Lemma forallb_is_bytes n l : forallb (is_bytes n) l = true ↔ Forall (λ p, length p = n) l.
Proof.
  induction l as [|x l IH]; cbn; [done|].
  by rewrite andb_true_iff, Forall_cons, is_bytes_length, IH.
Qed.

(** A batch header commits to its whole envelope and to its version: if a
    header built from payloads [ps] under version [v] accepts an occurrence in an
    envelope [env] under version [v'], then the versions and the envelopes are
    the same and the position is that of the first payload bound to the
    nullifier - or the two explicit sponge inputs collide on 24 bytes. *)
Theorem batch_header_binds v v' ps env ctx r nf p :
  versioned_header v ps ctx = Some r →
  versioned_envelope_occurrence v' r env ctx nf = Some p →
  length ctx = 32%nat →
  Forall (λ x, length x = 24%nat) ps → Forall (λ x, length x = 24%nat) env →
  (v' = v ∧ env = ps ∧ ∃ k, p = Z.of_nat k mod 2 ^ 32 ∧
     ps !! k = Some (bound ctx nf) ∧ ∀ j, (j < k)%nat → ps !! j ≠ Some (bound ctx nf)) ∨
  collides_prefix 6 (hash_call_input (versioned_call v' env ctx))
                    (hash_call_input (versioned_call v ps ctx)).
Proof.
  intros ->%versioned_header_Some Ho Hctx Hps Henv. revert Ho.
  cbn [versioned_envelope_occurrence]. case_if; [done|].
  apply orb_false_iff in Heqb as [Hlen Hcom].
  apply negb_false_iff, bool_decide_eq_true in Hlen, Hcom.
  intros (k & Hk & ->)%fmap_Some.
  rewrite <- !versioned_call_digest in Hcom.
  apply hash_call_anchor_inj in Hcom as [Hcom|]; [left|by right|..].
  - assert (v' = v ∧ env = ps) as [-> ->] by (destruct v, v'; cbn in Hcom; naive_solver).
    split_and!; [done..|]. exists k. split; [done|].
    apply position_Some in Hk as [(x & Hx & Ex%bool_decide_eq_true) Hmin].
    unfold bound. rewrite <- Ex. split; [done|].
    intros j Hj Hy. specialize (Hmin j x Hj Hy). apply bool_decide_eq_false in Hmin. by rewrite <- Ex in Hmin.
  - destruct v'; cbn [versioned_call hash_call_wf];
      by rewrite (proj2 (forallb_is_bytes 24 env) Henv), (proj2 (is_bytes_length 32 ctx) Hctx).
  - destruct v; cbn [versioned_call hash_call_wf];
      by rewrite (proj2 (forallb_is_bytes 24 ps) Hps), (proj2 (is_bytes_length 32 ctx) Hctx).
Qed.
End commitment.

Lemma batch_header_binds_witness :
  let H := demo_sponge in
  let ps := [bound (zeros 32) (demo_digest 3); bound (zeros 32) (demo_digest 4)] in
  ∃ r, versioned_header V2 ps (zeros 32) = Some r ∧
    versioned_envelope_occurrence V2 r ps (zeros 32) (demo_digest 4) = Some 1 ∧
    ((V2 = V2 ∧ ps = ps ∧ ∃ k, 1 = Z.of_nat k mod 2 ^ 32 ∧
     ps !! k = Some (bound (zeros 32) (demo_digest 4)) ∧
     ∀ j, (j < k)%nat → ps !! j ≠ Some (bound (zeros 32) (demo_digest 4))) ∨
    collides_prefix 6 (hash_call_input (versioned_call V2 ps (zeros 32)))
                      (hash_call_input (versioned_call V2 ps (zeros 32)))).
Proof.
  intros H ps. exists (BatchHeader 2 (to_anchor (versioned_batch_commit V2 ps (zeros 32)))).
  assert (E : versioned_envelope_occurrence V2
    (BatchHeader 2 (to_anchor (versioned_batch_commit V2 ps (zeros 32)))) ps (zeros 32)
    (demo_digest 4) = Some 1) by (vm_compute; reflexivity).
  assert (F : Forall (λ x, length x = 24%nat) ps)
    by (constructor; [by vm_compute|constructor; [by vm_compute|constructor]]).
  split; [reflexivity|]. split; [exact E|].
  exact (@batch_header_binds H demo_sponge_laws V2 V2 ps ps (zeros 32) _ (demo_digest 4) 1
    eq_refl E eq_refl F F).
Defined.
