(* ===== verification/Chain.v ===== *)
(** * The anchor chain abstraction, the in-memory chain and the quorum chain

    Models [crates/opencsv-core/src/chain.rs] and [crosscheck.rs].  The trait
    [AnchorChain] is a record of its queries (a [dyn AnchorChain]); the laws a
    backend owes its clients are the class [ChainLaws], and the in-memory chain
    and the cross-checked quorum are shown to satisfy them. *)

From S2P Require Import Prelude Field Commitments Kernel Anchor.

Record AnchorRef := MkRef { txid : bytes; ref_location : Location }.

#[export] Instance anchor_ref_eq_dec : EqDecision AnchorRef.
Proof. solve_decision. Defined.

(** ** The trait and its default methods *)
Record AnchorChain := {
  tip_height : Z;
  anchor_at : AnchorRef → option AnchorRecord;
  proof_record_at : AnchorRef → list bytes → option AnchorRecord;
  ctx_at : AnchorRef → option bytes;
  locate : AnchorRef → option Location;
  first_nullifier_occurrence : bytes → option Location;
  nullifier_occurrences : bytes → list Location;
  anchors_up_to : Z → list (Location * AnchorRecord);
  confirmations_at : Z → Z;
}.

Definition default_proof_record_at (anchor_at : AnchorRef → option AnchorRecord)
    (r : AnchorRef) (raw_nullifiers : list bytes) : option AnchorRecord :=
  record ← anchor_at r;
  match record with BatchHeader _ _ => None | _ => Some record end.

Definition default_locate (anchor_at : AnchorRef → option AnchorRecord)
    (r : AnchorRef) : option Location :=
  (λ _, ref_location r) <$> anchor_at r.

Definition default_confirmations_at (tip h : Z) : Z :=
  if h >? tip then 0 else tip - h + 1.

(** ** Promises of a backend *)
Class ChainLaws (c : AnchorChain) : Prop := {
  occurrences_sorted : ∀ nf, StronglySorted loc_lt (nullifier_occurrences c nf);
  first_is_head : ∀ nf,
    first_nullifier_occurrence c nf = head (nullifier_occurrences c nf);
  ctx_with_anchor : ∀ r, is_Some (anchor_at c r) ↔ is_Some (ctx_at c r);
  located_present : ∀ r, is_Some (locate c r) → is_Some (anchor_at c r);
}.

(** A later view of the same chain: first occurrences are never revised. *)
Definition extends (c c' : AnchorChain) : Prop :=
  ∀ nf l, first_nullifier_occurrence c nf = Some l →
          first_nullifier_occurrence c' nf = Some l.

(** ** The public supply audit over a chain ([core/src/audit.rs]) *)
Definition chain_supply (c : AnchorChain) (asset_id : bytes) (h : Z) : result SupplyError Z :=
  supply (to_kanchors (anchors_up_to c h)) (to_anchor asset_id) h.

(** ** The in-memory chain *)
Record Entry := {
  e_txid : bytes;
  e_location : Location;
  e_record : AnchorRecord;
  e_ctx : bytes;
}.

Record MockAnchorChain := MkMock { mock_tip : Z; entries : list Entry }.

Definition mock_new : MockAnchorChain := MkMock 0 [].

Definition advance_blocks (m : MockAnchorChain) (n : Z) : MockAnchorChain :=
  MkMock (saturating_add64 (mock_tip m) n) (entries m).

Definition count_at (h : Z) (es : list Entry) : nat :=
  length (filter (λ e, height (e_location e) = h) es).

Section mock.
Context `{Poseidon}.

Definition append_with_ctx (m : MockAnchorChain) (record : AnchorRecord) (ctx : bytes)
  : MockAnchorChain * AnchorRef :=
  let position := Z.of_nat (count_at (mock_tip m) (entries m)) mod 2 ^ 32 in
  let location := MkLocation (mock_tip m) position in
  let txid := hash_felts "mock-txid" [[felt (Z.of_nat (length (entries m)) mod 2 ^ 32)]] in
  let e := {| e_txid := txid; e_location := location; e_record := record; e_ctx := ctx |} in
  (MkMock (mock_tip m) (entries m ++ [e]), MkRef txid location).

(** [append] draws [random_ctx] from the generator. *)
Definition append (m : MockAnchorChain) (record : AnchorRecord) (random_ctx : bytes)
  : MockAnchorChain * AnchorRef :=
  append_with_ctx m record random_ctx.

Definition matches_ref (r : AnchorRef) (e : Entry) : bool :=
  bool_decide (e_location e = ref_location r) && bool_decide (e_txid e = txid r).

Definition mock_anchor_at (m : MockAnchorChain) (r : AnchorRef) : option AnchorRecord :=
  e_record <$> find_first (matches_ref r) (entries m).

Definition mock_ctx_at (m : MockAnchorChain) (r : AnchorRef) : option bytes :=
  e_ctx <$> find_first (matches_ref r) (entries m).

Definition mock_first (m : MockAnchorChain) (raw_nf : bytes) : option Location :=
  let kernel_entries := (λ e, {| ke_record := to_krecord (e_record e);
                                 ke_ctx := e_ctx e;
                                 ke_location := e_location e |}) <$> entries m in
  index ← first_occurrence kernel_entries raw_nf;
  e_location <$> entries m !! index.

Definition mock_occurrences (m : MockAnchorChain) (raw_nf : bytes) : list Location :=
  merge_sort loc_le
    (e_location <$> filter (λ e, well_formed (e_record e) (e_ctx e) raw_nf = true) (entries m)).

Definition loc_key_le (a b : Location * AnchorRecord) : Prop := loc_le a.1 b.1.

#[local] Instance loc_key_le_dec : RelDecision loc_key_le.
Proof. intros a b. unfold loc_key_le. apply _. Defined.

Definition mock_anchors_up_to (m : MockAnchorChain) (h : Z) : list (Location * AnchorRecord) :=
  merge_sort loc_key_le
    ((λ e, (e_location e, e_record e)) <$> filter (λ e, height (e_location e) ≤ h) (entries m)).

Definition mock_chain (m : MockAnchorChain) : AnchorChain := {|
  tip_height := mock_tip m;
  anchor_at := mock_anchor_at m;
  proof_record_at := default_proof_record_at (mock_anchor_at m);
  ctx_at := mock_ctx_at m;
  locate := default_locate (mock_anchor_at m);
  first_nullifier_occurrence := mock_first m;
  nullifier_occurrences := mock_occurrences m;
  anchors_up_to := mock_anchors_up_to m;
  confirmations_at := default_confirmations_at (mock_tip m);
|}.

(** The chains the operations build. *)
Inductive mock_step : MockAnchorChain → MockAnchorChain → Prop :=
  | step_advance m n : 0 ≤ n → mock_step m (advance_blocks m n)
  | step_append m record ctx : mock_step m (append_with_ctx m record ctx).1.

Definition mock_reachable : MockAnchorChain → Prop := rtc mock_step mock_new.
End mock.

(** ** The quorum chain ([crosscheck.rs]) *)

Inductive CrossCheckError := NoMembers | TipDisagreement (tips : list Z).

#[export] Instance cross_check_error_eq_dec : EqDecision CrossCheckError.
Proof. solve_decision. Defined.

Record CrossCheckedChain := MkCross { members : list AnchorChain; agreed_tip : Z }.

Definition check_tips (members : list AnchorChain) : result CrossCheckError Z :=
  let tips := tip_height <$> members in
  match head tips with
  | Some tip => if forallb (λ t, t =? tip) tips then Ok tip else Err (TipDisagreement tips)
  | None => Err (TipDisagreement tips)
  end.

Definition cross_new (members : list AnchorChain) : result CrossCheckError CrossCheckedChain :=
  match members with
  | [] => Err NoMembers
  | _ => agreed_tip ← check_tips members; mret (MkCross members agreed_tip)
  end.

Definition cross_refresh (c : CrossCheckedChain) : result CrossCheckError CrossCheckedChain :=
  agreed_tip ← check_tips (members c); mret (MkCross (members c) agreed_tip).

(** [Iterator::min] *)
Definition loc_min (a b : Location) : Location := if decide (loc_le a b) then a else b.
Definition locs_min (l : list Location) : option Location :=
  match l with [] => None | x :: l => Some (foldl loc_min x l) end.

(** [Vec::dedup]: drop an element equal to its predecessor. *)
Fixpoint dedup (l : list Location) : list Location :=
  match l with
  | [] => []
  | x :: l => x :: match dedup l with
                   | [] => []
                   | y :: k => if decide (x = y) then k else y :: k
                   end
  end.

Definition cross_first (ms : list AnchorChain) (raw_nf : bytes) : option Location :=
  locs_min (omap (λ m, first_nullifier_occurrence m raw_nf) ms).

Definition cross_occurrences (ms : list AnchorChain) (raw_nf : bytes) : list Location :=
  dedup (merge_sort loc_le (mbind (λ m, nullifier_occurrences m raw_nf) ms)).

Definition cross_chain (c : CrossCheckedChain) : AnchorChain := {|
  tip_height := agreed_tip c;
  anchor_at r := find_map (λ m, anchor_at m r) (members c);
  proof_record_at r nfs := find_map (λ m, proof_record_at m r nfs) (members c);
  ctx_at r := find_map (λ m, ctx_at m r) (members c);
  locate r := find_map (λ m, locate m r) (members c);
  first_nullifier_occurrence := cross_first (members c);
  nullifier_occurrences := cross_occurrences (members c);
  anchors_up_to h := from_option (λ m, anchors_up_to m h) [] (head (members c));
  confirmations_at := default_confirmations_at (agreed_tip c);
|}.

(** ** Lemmas: sorted location lists *)

Lemma loc_lt_irrefl a : ¬ loc_lt a a.
Proof. unfold loc_lt. lia. Qed.

Lemma loc_lt_trans a b c : loc_lt a b → loc_lt b c → loc_lt a c.
Proof. unfold loc_lt. lia. Qed.

Lemma loc_lt_le a b : loc_lt a b → loc_le a b.
Proof. by left. Qed.

Lemma loc_le_lt_eq a b : loc_le a b → a = b ∨ loc_lt a b.
Proof. intros [|]; auto. Qed.

Lemma strict_sorted_le l : StronglySorted loc_lt l → StronglySorted loc_le l.
Proof.
  induction 1 as [|x l Hs IH HF]; constructor; [done|].
  eapply Forall_impl; [exact HF|]. intros; by apply loc_lt_le.
Qed.

Lemma sort_sorted l : StronglySorted loc_lt l → merge_sort loc_le l = l.
Proof.
  intros Hs. apply (StronglySorted_unique loc_le); [apply StronglySorted_merge_sort; apply _| |
    apply merge_sort_Permutation]. by apply strict_sorted_le.
Qed.

Lemma sorted_fmap_filter {A} (f : A → Location) (P : A → Prop) `{∀ x, Decision (P x)} l :
  StronglySorted loc_lt (f <$> l) → StronglySorted loc_lt (f <$> filter P l).
Proof.
  induction l as [|x l IH]; [done|].
  rewrite fmap_cons, filter_cons, StronglySorted_cons. intros [HF Hs].
  case_decide; [|by apply IH]. rewrite fmap_cons. apply StronglySorted_cons.
  split; [|by apply IH]. rewrite Forall_fmap in *. apply Forall_forall. intros y Hy.
  apply list_elem_of_filter in Hy as [_ Hy]. rewrite Forall_forall in HF. by apply HF.
Qed.

(** ** Lemmas: the in-memory chain *)
Section mock_lemmas.
Context `{Poseidon}.

(** Locations strictly increase along the log, none lies above the tip, and the
    positions used in the tip block are those already counted. *)
Record mock_inv (m : MockAnchorChain) : Prop := {
  inv_tip : 0 ≤ mock_tip m ≤ u64_max;
  inv_sorted : StronglySorted loc_lt (e_location <$> entries m);
  inv_below : Forall (λ e, height (e_location e) ≤ mock_tip m) (entries m);
  inv_positions : Forall (λ e, height (e_location e) = mock_tip m →
    loc_position (e_location e) < Z.of_nat (count_at (mock_tip m) (entries m))) (entries m);
}.

Lemma mock_inv_new : mock_inv mock_new.
Proof. split; cbn; unfold u64_max; try constructor; lia. Qed.

Lemma mock_inv_advance m n : 0 ≤ n → mock_inv m → mock_inv (advance_blocks m n).
Proof.
  intros Hn [Ht Hs Hb Hp].
  assert (mock_tip m ≤ mock_tip (advance_blocks m n) ≤ u64_max)
    by (cbn; unfold saturating_add64; lia).
  split; cbn [entries advance_blocks]; [lia|done| |].
  - eapply Forall_impl; [exact Hb|]. cbn beta. lia.
  - destruct (decide (mock_tip (advance_blocks m n) = mock_tip m)) as [->|Hne]; [done|].
    eapply Forall_impl; [exact Hb|]. cbn beta. lia.
Qed.

Lemma count_at_length h es : (count_at h es ≤ length es)%nat.
Proof. apply length_filter. Qed.

Lemma mock_inv_append m record ctx :
  Z.of_nat (length (entries m)) < 2 ^ 32 → mock_inv m →
  mock_inv (append_with_ctx m record ctx).1.
Proof.
  intros HL [Ht Hs Hb Hp]. pose proof (count_at_length (mock_tip m) (entries m)) as Hc.
  assert (Hm : Z.of_nat (count_at (mock_tip m) (entries m)) mod 2 ^ 32 =
    Z.of_nat (count_at (mock_tip m) (entries m))) by (apply Z.mod_small; lia).
  assert (Hcs : ∀ e, height (e_location e) = mock_tip m →
    count_at (mock_tip m) (entries m ++ [e]) = S (count_at (mock_tip m) (entries m))).
  { intros e He. unfold count_at. rewrite filter_app, length_app, filter_cons_True by done.
    cbn. lia. }
  unfold append_with_ctx. rewrite Hm. split; cbn [fst mock_tip entries].
  - done.
  - rewrite fmap_app, StronglySorted_app. split_and!; [|done|repeat constructor].
    intros x1 x2 H1 H2. apply list_elem_of_fmap in H1 as (e & -> & He).
    cbn in H2. apply list_elem_of_singleton in H2 as ->.
    rewrite Forall_forall in Hb, Hp. specialize (Hb e He). specialize (Hp e He).
    unfold loc_lt; cbn. lia.
  - apply Forall_app_2; [done|]. repeat constructor. cbn. lia.
  - rewrite Hcs by done. apply Forall_app_2.
    + eapply Forall_impl; [exact Hp|]. cbn beta. lia.
    + repeat constructor. cbn. lia.
Qed.

Lemma mock_reachable_inv m :
  mock_reachable m → Z.of_nat (length (entries m)) ≤ 2 ^ 32 → mock_inv m.
Proof.
  unfold mock_reachable. revert m.
  apply (rtc_ind_r (λ m, Z.of_nat (length (entries m)) ≤ 2 ^ 32 → mock_inv m)).
  { intros _. apply mock_inv_new. }
  intros m m' Hr Hstep IH HL. destruct Hstep as [m n Hn|m record ctx]; cbn in HL.
  - apply mock_inv_advance; auto.
  - rewrite length_app in HL. cbn in HL. apply mock_inv_append; [lia|]. apply IH. lia.
Qed.

Lemma kernel_entry_wf nf e :
  kwell_formed (to_krecord (e_record e)) (e_ctx e) nf = well_formed (e_record e) (e_ctx e) nf.
Proof. done. Qed.

Lemma position_fmap {A B} (p : B → bool) (f : A → B) l :
  position p (f <$> l) = position (p ∘ f) l.
Proof. induction l as [|x l IH]; cbn; [done|]. by rewrite IH. Qed.

Lemma position_head_filter {A B} (p : A → bool) (f : A → B) l :
  (position p l ≫= λ i, f <$> l !! i) = head (f <$> filter (λ x, p x = true) l).
Proof.
  induction l as [|x l IH]; [done|]. rewrite filter_cons. cbn [position].
  destruct (p x) eqn:E; cbn; [by rewrite decide_True|].
  rewrite decide_False by congruence. rewrite <- IH. by destruct (position p l).
Qed.

Lemma mock_first_head m nf : mock_first m nf =
  head (e_location <$> filter (λ e, well_formed (e_record e) (e_ctx e) nf = true) (entries m)).
Proof.
  unfold mock_first, first_occurrence. rewrite first_occurrence_from_position, position_fmap.
  rewrite <- (position_head_filter (λ e, well_formed (e_record e) (e_ctx e) nf)).
  unfold compose; cbn. by destruct (position _ (entries m)).
Qed.

Lemma mock_occurrences_sorted m nf : mock_inv m →
  mock_occurrences m nf =
  e_location <$> filter (λ e, well_formed (e_record e) (e_ctx e) nf = true) (entries m).
Proof. intros Hi. apply sort_sorted, sorted_fmap_filter, Hi. Qed.

Lemma mock_inv_laws m : mock_inv m → ChainLaws (mock_chain m).
Proof.
  intros Hi. split; cbn.
  - intros nf. rewrite mock_occurrences_sorted by done. apply sorted_fmap_filter, Hi.
  - intros nf. by rewrite mock_occurrences_sorted, mock_first_head.
  - intros r. unfold mock_anchor_at, mock_ctx_at. by rewrite !fmap_is_Some.
  - intros r. unfold default_locate. by rewrite fmap_is_Some.
Qed.
End mock_lemmas.

(** ** Lemmas: the quorum chain *)

Lemma foldl_loc_min x l :
  foldl loc_min x l ∈ x :: l ∧ Forall (loc_le (foldl loc_min x l)) (x :: l).
Proof.
  revert x; induction l as [|y l IH]; intros x; cbn [foldl].
  { split; [apply list_elem_of_here|]. constructor; [reflexivity|constructor]. }
  destruct (IH (loc_min x y)) as [Hin HF]. apply Forall_cons in HF as [H1 HF].
  assert (loc_le (loc_min x y) x ∧ loc_le (loc_min x y) y ∧ (loc_min x y = x ∨ loc_min x y = y))
    as (Hx & Hy & Heq).
  { unfold loc_min. case_decide as Hd; [split_and!; auto; reflexivity|].
    destruct (total loc_le x y); [done|]. split_and!; auto; reflexivity. }
  split.
  - apply elem_of_cons in Hin as [->|Hin]; [destruct Heq as [->| ->]|]; set_solver.
  - constructor; [by etransitivity|]. constructor; [by etransitivity|done].
Qed.

Lemma locs_min_Some l x : locs_min l = Some x ↔ x ∈ l ∧ Forall (loc_le x) l.
Proof.
  destruct l as [|y l]; cbn [locs_min].
  { split; [done|]. by intros [?%elem_of_nil _]. }
  destruct (foldl_loc_min y l) as [Hin HF]. split; [by intros [= <-]|].
  intros [Hx HFx]. f_equal. apply (anti_symm loc_le).
  - rewrite Forall_forall in HF. by apply HF.
  - rewrite Forall_forall in HFx. by apply HFx.
Qed.

Lemma elem_of_dedup l x : x ∈ dedup l ↔ x ∈ l.
Proof.
  induction l as [|y l IH]; [done|]. cbn [dedup]. rewrite elem_of_cons, elem_of_cons, <- IH.
  destruct (dedup l) as [|z k]; [done|]. case_decide; set_solver.
Qed.

Lemma dedup_strict l : StronglySorted loc_le l → StronglySorted loc_lt (dedup l).
Proof.
  induction l as [|x l IH]; cbn [dedup]; [constructor|].
  rewrite StronglySorted_cons. intros [HF Hs]. specialize (IH Hs).
  assert (HF' : Forall (loc_le x) (dedup l))
    by (rewrite Forall_forall in HF |- *; intros y Hy; rewrite elem_of_dedup in Hy; by apply HF).
  destruct (dedup l) as [|y k]; [by repeat constructor|].
  apply StronglySorted_cons in IH as [Hy Hk]. apply Forall_cons in HF' as [Hxy _].
  case_decide as Hd; apply StronglySorted_cons.
  - by subst.
  - assert (loc_lt x y) by (by apply loc_le_lt_eq in Hxy as [|]).
    split; [|by apply StronglySorted_cons]. constructor; [done|].
    eapply Forall_impl; [exact Hy|]. intros z Hz. by apply loc_lt_trans with y.
Qed.

Lemma head_sorted l x : StronglySorted loc_lt l →
  head l = Some x ↔ x ∈ l ∧ Forall (loc_le x) l.
Proof.
  intros Hs. destruct l as [|y l]; cbn.
  { split; [done|]. by intros [?%elem_of_nil _]. }
  apply StronglySorted_cons in Hs as [HF _].
  assert (HF' : Forall (loc_le y) (y :: l)).
  { constructor; [done|]. eapply Forall_impl; [exact HF|]. intros; by apply loc_lt_le. }
  split; [intros [= <-]; split; [apply list_elem_of_here|done]|].
  intros [Hx HFx]. f_equal. rewrite Forall_forall in HF', HFx.
  apply (anti_symm loc_le); [by apply HF'|]. apply HFx, list_elem_of_here.
Qed.

Lemma cross_first_spec ms nf l : cross_first ms nf = Some l ↔
  (∃ m, m ∈ ms ∧ first_nullifier_occurrence m nf = Some l) ∧
  ∀ m l', m ∈ ms → first_nullifier_occurrence m nf = Some l' → loc_le l l'.
Proof.
  unfold cross_first. rewrite locs_min_Some, list_elem_of_omap, Forall_forall.
  setoid_rewrite list_elem_of_omap. naive_solver.
Qed.

Lemma elem_of_cross_occurrences ms nf x :
  x ∈ cross_occurrences ms nf ↔ ∃ m, m ∈ ms ∧ x ∈ nullifier_occurrences m nf.
Proof.
  unfold cross_occurrences. rewrite elem_of_dedup, merge_sort_Permutation, list_elem_of_bind.
  naive_solver.
Qed.

Lemma cross_laws c : Forall ChainLaws (members c) → ChainLaws (cross_chain c).
Proof.
  intros HL. split; cbn.
  - intros nf. apply dedup_strict, StronglySorted_merge_sort; apply _.
  - intros nf. apply option_eq. intros l. rewrite cross_first_spec.
    rewrite (head_sorted (cross_occurrences _ _))
      by (apply dedup_strict, StronglySorted_merge_sort; apply _).
    rewrite elem_of_cross_occurrences, Forall_forall.
    setoid_rewrite elem_of_cross_occurrences.
    rewrite Forall_forall in HL.
    assert (Hm : ∀ m l, m ∈ members c → first_nullifier_occurrence m nf = Some l ↔
      l ∈ nullifier_occurrences m nf ∧ Forall (loc_le l) (nullifier_occurrences m nf)).
    { intros m x Hin. destruct (HL m Hin) as [Hs Hh _ _]. by rewrite Hh, head_sorted. }
    split.
    + intros [(m & Hin & Hl) Hmin]. split; [exists m; naive_solver|].
      intros y (m' & Hin' & Hy).
      destruct (first_nullifier_occurrence m' nf) as [z|] eqn:Ez.
      * specialize (Hmin m' z Hin' Ez). apply Hm in Ez as [_ HF]; [|done].
        rewrite Forall_forall in HF. etransitivity; [done|by apply HF].
      * destruct (HL m' Hin') as [_ Hh _ _]. rewrite Hh in Ez.
        destruct (nullifier_occurrences m' nf); [by apply elem_of_nil in Hy|done].
    + intros [(m & Hin & Hl) Hmin]. split.
      * exists m. split; [done|]. apply Hm; [done|]. split; [done|].
        apply Forall_forall. intros y Hy. apply Hmin. eauto.
      * intros m' y Hin' Hy%Hm; [|done]. apply Hmin. naive_solver.
  - intros r. assert (Hex : ∀ A (q : AnchorChain → option A),
      is_Some (find_map q (members c)) ↔ ∃ m, m ∈ members c ∧ is_Some (q m)).
    { intros A q. split.
      - intros [x Hx]. apply find_map_Some in Hx as (m & ? & ?). eauto.
      - intros (m & Hin & Hs). apply not_eq_None_Some. intros HN%find_map_None.
        rewrite Forall_forall in HN. rewrite (HN m Hin) in Hs. by destruct Hs. }
    rewrite !Hex. rewrite Forall_forall in HL.
    split; intros (m & Hin & Hs); exists m; (split; [done|]); by apply (HL m Hin).
  - intros r [x Hx]. apply find_map_Some in Hx as (m & Hin & Hl). rewrite Forall_forall in HL.
    destruct (HL m Hin) as [_ _ _ Hloc]. pose proof (Hloc r (mk_is_Some _ _ Hl)) as Ha.
    apply not_eq_None_Some. intros HN%find_map_None. rewrite Forall_forall in HN.
    rewrite (HN m Hin) in Ha. by destruct Ha.
Qed.

(** ** Properties *)

Section mock_properties.
Context `{Poseidon}.

(** Every in-memory chain built from the empty one by advancing the tip and
    appending records (at most 2^32 of them, the range of the position counter)
    keeps its promises to clients: its occurrence lists are strictly ordered,
    the kernel's scan finds their head, contexts are known exactly where anchors
    are, and only existing anchors are located. *)
Theorem mock_chain_lawful m :
  mock_reachable m → Z.of_nat (length (entries m)) ≤ 2 ^ 32 →
  ChainLaws (mock_chain m).
Proof. intros. by apply mock_inv_laws, mock_reachable_inv. Qed.

Lemma find_first_app {A} (p : A → bool) l k :
  find_first p (l ++ k) = match find_first p l with Some x => Some x | None => find_first p k end.
Proof. induction l as [|x l IH]; cbn; [done|]. by case_if. Qed.

Lemma append_fresh m record ctx : mock_inv m → Z.of_nat (length (entries m)) < 2 ^ 32 →
  find_first (matches_ref (append_with_ctx m record ctx).2) (entries m) = None.
Proof.
  intros [Ht Hs Hb Hp] HL. apply find_first_None, Forall_forall. intros e He.
  unfold matches_ref, append_with_ctx. cbn. apply andb_false_iff. left.
  apply bool_decide_eq_false. intros E. rewrite Forall_forall in Hp. specialize (Hp e He).
  rewrite E in Hp. cbn in Hp. specialize (Hp eq_refl).
  pose proof (count_at_length (mock_tip m) (entries m)).
  rewrite Z.mod_small in Hp; lia.
Qed.

(** New blocks revise nothing. *)
Lemma advance_extends m n : extends (mock_chain m) (mock_chain (advance_blocks m n)).
Proof. intros nf l E. exact E. Qed.

(** What one append changes and what it leaves alone. *)
Lemma append_facts m record ctx m' r :
  mock_reachable m → Z.of_nat (length (entries m)) < 2 ^ 32 →
  append_with_ctx m record ctx = (m', r) →
  (anchor_at (mock_chain m') r = Some record ∧ ctx_at (mock_chain m') r = Some ctx ∧
   locate (mock_chain m') r = Some (ref_location r)) ∧
  (∀ r' x, anchor_at (mock_chain m) r' = Some x → anchor_at (mock_chain m') r' = Some x) ∧
  (∀ r' c, ctx_at (mock_chain m) r' = Some c → ctx_at (mock_chain m') r' = Some c) ∧
  extends (mock_chain m) (mock_chain m').
Proof.
  intros Hr HL Happ. pose proof (mock_reachable_inv m Hr ltac:(lia)) as Hi.
  pose proof (append_fresh m record ctx Hi HL) as Hfresh. rewrite Happ in Hfresh. cbn in Hfresh.
  unfold append_with_ctx in Happ. injection Happ as <- <-.
  cbn [mock_chain anchor_at ctx_at locate]. unfold default_locate, mock_anchor_at, mock_ctx_at.
  cbn [entries]. split_and!.
  1-3: rewrite find_first_app, Hfresh; cbn [find_first];
    unfold matches_ref; cbn; rewrite !bool_decide_eq_true_2 by done; done.
  1-2: intros r' x; rewrite find_first_app;
    destruct (find_first (matches_ref r') (entries m)); cbn [fmap option_fmap option_map]; [done|intros [=]].
  intros nf l. cbn [first_nullifier_occurrence mock_chain]. rewrite !mock_first_head. cbn [entries]. rewrite filter_app, fmap_app.
  by destruct (e_location <$> filter _ (entries m)).
Qed.

(** Appending is durable and append-only: the reference returned resolves
    to exactly the record and context just anchored, at the claimed location;
    every reference that resolved before still resolves to the same record and
    context; and no first occurrence is ever revised. *)
Theorem append_resolves m record ctx m' r :
  mock_reachable m → Z.of_nat (length (entries m)) < 2 ^ 32 →
  append_with_ctx m record ctx = (m', r) →
  (anchor_at (mock_chain m') r = Some record ∧ ctx_at (mock_chain m') r = Some ctx ∧
   locate (mock_chain m') r = Some (ref_location r)) ∧
  (∀ r' x, anchor_at (mock_chain m) r' = Some x → anchor_at (mock_chain m') r' = Some x) ∧
  (∀ r' c, ctx_at (mock_chain m) r' = Some c → ctx_at (mock_chain m') r' = Some c) ∧
  extends (mock_chain m) (mock_chain m').
Proof. exact (append_facts m record ctx m' r). Qed.
End mock_properties.

Definition demo_mock : MockAnchorChain :=
  (append_with_ctx (H := demo_sponge) (advance_blocks mock_new 100)
     (Mint (replicate 24 x01) 1000 (replicate 24 x02)) (zeros 32)).1.

Lemma demo_mock_reachable : mock_reachable (H := demo_sponge) demo_mock.
Proof.
  eapply rtc_l; [by apply (@step_advance demo_sponge mock_new 100)|].
  eapply rtc_l; [apply (@step_append demo_sponge)|]. apply rtc_refl.
Qed.

Lemma mock_chain_lawful_witness : ChainLaws (mock_chain (H := demo_sponge) demo_mock).
Proof.
  exact (@mock_chain_lawful demo_sponge demo_mock demo_mock_reachable
    ltac:(vm_compute; discriminate)).
Defined.

Lemma append_resolves_witness :
  let m := demo_mock in
  let res := append_with_ctx (H := demo_sponge) m (XferCompressed (replicate 24 x09)) (zeros 32) in
  anchor_at (mock_chain (H := demo_sponge) res.1) res.2 = Some (XferCompressed (replicate 24 x09)).
Proof.
  intros m res.
  exact (proj1 (proj1 (@append_resolves demo_sponge m (XferCompressed (replicate 24 x09)) (zeros 32)
    res.1 res.2 demo_mock_reachable ltac:(vm_compute; reflexivity)
    ltac:(vm_compute; reflexivity)))).
Defined.

(** The quorum's first occurrence is the earliest any member reports, so
    hiding a spend takes every member: one honest member reporting [l] forces an
    answer at or before [l]. *)
Theorem cross_first_earliest c nf l :
  first_nullifier_occurrence (cross_chain c) nf = Some l ↔
  (∃ m, m ∈ members c ∧ first_nullifier_occurrence m nf = Some l) ∧
  ∀ m l', m ∈ members c → first_nullifier_occurrence m nf = Some l' → loc_le l l'.
Proof. apply cross_first_spec. Qed.

(** A quorum of lawful members is lawful: merging, sorting and deduplicating
    the members' occurrence lists gives a strictly ordered list whose head is
    the minimum of the members' first occurrences, and the presence queries stay
    consistent with one another. *)
Theorem cross_chain_lawful c : Forall ChainLaws (members c) → ChainLaws (cross_chain c).
Proof. apply cross_laws. Qed.

Lemma cross_chain_lawful_witness :
  ChainLaws (cross_chain (MkCross [mock_chain (H := demo_sponge) mock_new;
                                   mock_chain (H := demo_sponge) mock_new] 0)).
Proof.
  apply cross_chain_lawful. assert (Hl : ChainLaws (mock_chain (H := demo_sponge) mock_new)).
  { apply mock_inv_laws, mock_inv_new. }
  cbn. repeat constructor; apply Hl.
Defined.

(** Tip agreement is a hard error: assembling a quorum succeeds exactly when
    there is a member and all members report the agreed tip; otherwise the error
    names the cause, and a refresh never changes the members. *)
Theorem cross_new_agreement ms :
  cross_new ms =
  match ms with
  | [] => Err NoMembers
  | m :: _ =>
      if decide (Forall (λ m', tip_height m' = tip_height m) ms)
      then Ok (MkCross ms (tip_height m)) else Err (TipDisagreement (tip_height <$> ms))
  end ∧
  ∀ c c', cross_refresh c = Ok c' →
    members c' = members c ∧ Forall (λ m, tip_height m = agreed_tip c') (members c).
Proof.
  assert (Hall : ∀ t l, forallb (λ x, x =? t) (tip_height <$> l) = true ↔
    Forall (λ m', tip_height m' = t) l).
  { intros t l. induction l as [|x l IH]; cbn; [done|].
    by rewrite andb_true_iff, Forall_cons, IH, Z.eqb_eq. }
  split.
  - destruct ms as [|m ms]; [done|]. unfold cross_new, check_tips.
    cbn [fmap list_fmap head]. rewrite <- fmap_cons. case_decide as Hd.
    + by rewrite (proj2 (Hall _ _) Hd).
    + destruct (forallb _ _) eqn:E; [by apply Hall in E|done].
  - intros [l t] c' Hr. unfold cross_refresh in Hr. inv_bind. subst. cbn. split; [done|].
    unfold check_tips in E. cbn in E. destruct (head _) as [t'|]; [|done].
    destruct (forallb _ _) eqn:E'; [|done]. injection E as <-. by apply Hall.
Qed.
