(* ===== verification/Accept.v ===== *)
(** * The receiver's verification driver

    Models [crates/opencsv-core/src/accept.rs] and the message type of
    [consignment.rs]: the order in which chain queries, proof check, binding
    check, occurrence scan and ownership are performed, the early returns, and
    the final call of the decision kernel.  The proof system is the class
    parameter [ProofVerifier]; [mock_verify] is the test verifier of the source. *)

From S2P Require Import Prelude Field Commitments Kernel Anchor Chain.

(** ** Data *)

Record Consignment := {
  coin_openings : list CoinOpening;
  nullifiers : list bytes;
  proof : bytes;
  anchor_ref : AnchorRef;
  aux : option AssetGenesis;
}.

(** [AcceptParams] and [PublicOwnerAcceptParams]. *)
Record AcceptParams := {
  ap_vk : bytes;
  ap_required_confirmations : Z;
  recipient_secrets : list bytes;
  ap_known_assets : list bytes;
}.

Record PublicOwnerAcceptParams := {
  vk : bytes;
  required_depth : Z;
  recipient_owners : list bytes;
  known_assets : list bytes;
}.

Record AcceptedCoins := { coins : list Coin; accepted_anchor : Location }.

(** The core crate's error, in the order of its source. *)
Inductive CoreReject :=
  | CEmptyConsignment
  | CGenesisMismatch
  | CUnknownAsset
  | CAnchorNotFound
  | CDuplicateNullifier
  | CInsufficientConfirmations (have required : Z)
  | CNullifierConflict (nullifier : bytes) (first : Location)
  | CIllFormedAnchor
  | CInvalidProof
  | CNoOwnedOutput.

(** [RejectReason::code] *)
Definition core_reject_code (r : CoreReject) : string :=
  match r with
  | CEmptyConsignment => "empty_consignment"
  | CGenesisMismatch => "genesis_mismatch"
  | CUnknownAsset => "unknown_asset"
  | CAnchorNotFound => "anchor_not_found"
  | CDuplicateNullifier => "duplicate_nullifier"
  | CInsufficientConfirmations _ _ => "insufficient_confirmations"
  | CNullifierConflict _ _ => "nullifier_conflict"
  | CIllFormedAnchor => "ill_formed_anchor"
  | CInvalidProof => "invalid_proof"
  | CNoOwnedOutput => "no_owned_output"
  end.

Definition from_kernel_rejection (r : RejectReason) : CoreReject :=
  match r with
  | EmptyConsignment => CEmptyConsignment
  | GenesisMismatch => CGenesisMismatch
  | UnknownAsset => CUnknownAsset
  | AnchorNotFound => CAnchorNotFound
  | DuplicateNullifier => CDuplicateNullifier
  | InsufficientConfirmations have required => CInsufficientConfirmations have required
  | NullifierConflict nf first => CNullifierConflict nf first
  | IllFormedAnchor => CIllFormedAnchor
  | InvalidProof => CInvalidProof
  | NoOwnedOutput => CNoOwnedOutput
  end.

Definition reject_if (reason : option RejectReason) : result CoreReject () :=
  match reason with
  | Some reason => Err (from_kernel_rejection reason)
  | None => Ok tt
  end.

(** ** The order of [[u8; 24]], for the multiset comparison *)
Fixpoint bytes_leb (a b : bytes) : bool :=
  match a, b with
  | [], _ => true
  | _ :: _, [] => false
  | x :: a, y :: b => (bval x <? bval y) || (bool_decide (x = y) && bytes_leb a b)
  end.
Definition bytes_le (a b : bytes) : Prop := bytes_leb a b = true.

#[export] Instance bytes_le_dec : RelDecision bytes_le.
Proof. intros a b. unfold bytes_le. apply _. Defined.

(** ** The proof seam *)
Class ProofVerifier := verify_proof : bytes → bytes → bytes → bool.

#[global] Arguments verify_proof : simpl never.

(** [MockVerifier]: 32-bit FNV-1a over [vk ∥ public_input]. *)
Definition mock_checksum (vk public_input : bytes) : Z :=
  foldl (λ h b, (Z.lxor h (bval b) * 0x01000193) mod 2 ^ 32) 0x811c9dc5 (vk ++ public_input).

Definition mock_prove (vk public_input : bytes) : bytes :=
  public_input ++ le_bytes 4 (mock_checksum vk public_input).

Definition mock_verify (vk public_input proof : bytes) : bool :=
  let n := length public_input in
  if bool_decide (n ≤ length proof)%nat
  then bool_decide (take n proof = public_input) &&
       bool_decide (drop n proof = le_bytes 4 (mock_checksum vk public_input))
  else false.

Definition mock_verifier : ProofVerifier := mock_verify.

(** ** The driver *)
Section driver.
Context `{Poseidon, ProofVerifier}.

Definition public_input (record : AnchorRecord) (ctx : bytes) (openings : list CoinOpening)
  : bytes :=
  ctx ++ record_to_bytes record ++ concat (to_public_input_bytes <$> openings).

Definition nullifiers_are_distinct (raw_nullifiers : list bytes) : bool :=
  distinct (to_elems <$> raw_nullifiers).

Definition record_binds_nullifiers (record : AnchorRecord) (ctx : bytes)
    (raw_nullifiers : list bytes) : bool :=
  if negb (nullifiers_are_distinct raw_nullifiers) then false
  else match record with
  | Mint _ _ _ => bool_decide (raw_nullifiers = [])
  | BatchHeader _ _ => false
  | Redeem _ _ payload =>
      match raw_nullifiers with
      | [nf] => bool_decide (bound ctx nf = payload)
      | _ => false
      end
  | XferCompressed slot =>
      negb (bool_decide (raw_nullifiers = [])) &&
      bool_decide (bound ctx (nullifier_commit raw_nullifiers) = slot)
  | Xfer p1 p2 =>
      let slots := merge_sort bytes_le (filter (λ p, p ≠ zeros 24) [p1; p2]) in
      let nfs := merge_sort bytes_le (bound ctx <$> raw_nullifiers) in
      negb (bool_decide (nfs = [])) && bool_decide (slots = nfs)
  end.

Definition observe_asset (cons : Consignment) (known : list bytes) : AssetObservation :=
  match aux cons with
  | Some genesis =>
      let id := genesis_asset_id genesis in
      if existsb (λ o, negb (bool_decide (asset_id o = id))) (coin_openings cons)
      then OGenesisMismatch else Valid
  | None =>
      if existsb (λ o, negb (bool_decide (asset_id o ∈ known))) (coin_openings cons)
      then OUnknownAsset else Valid
  end.

Definition occurrence_keys (record : AnchorRecord) (nfs : list bytes) : list bytes :=
  match record with
  | Mint _ _ _ => []
  | BatchHeader _ _ | Xfer _ _ | Redeem _ _ _ => nfs
  | XferCompressed _ => [nullifier_commit nfs]
  end.

Definition observe_key (chain : AnchorChain) (key : bytes) : OccurrenceObservation :=
  {| occ_nullifier := to_anchor key; occ_first := first_nullifier_occurrence chain key |}.

(** The occurrence loop: push each observation, return at the first rejection. *)
Fixpoint occurrence_loop (chain : AnchorChain) (location : Location) (keys : list bytes)
    (occurrences : list OccurrenceObservation)
  : result CoreReject (list OccurrenceObservation) :=
  match keys with
  | [] => mret occurrences
  | key :: keys =>
      let observation := observe_key chain key in
      reject_if (occurrence_rejection location [observation]);;
      occurrence_loop chain location keys (occurrences ++ [observation])
  end.

Definition owned_coins (owners : list bytes) (openings : list CoinOpening) : list Coin :=
  to_coin <$> filter (λ o, owner o ∈ owners) openings.

Definition accept_for_public_owners (cons : Consignment) (chain : AnchorChain)
    (params : PublicOwnerAcceptParams) : result CoreReject AcceptedCoins :=
  let openings := coin_openings cons in
  reject_if (preflight_rejection (negb (bool_decide (openings = []))) Valid);;
  let asset := observe_asset cons (known_assets params) in
  reject_if (preflight_rejection true asset);;
  record ← ok_or (anchor_at chain (anchor_ref cons)) (from_kernel_rejection AnchorNotFound);
  ctx ← ok_or (ctx_at chain (anchor_ref cons)) (from_kernel_rejection AnchorNotFound);
  location ← ok_or (locate chain (anchor_ref cons)) (from_kernel_rejection AnchorNotFound);
  let has_distinct := nullifiers_are_distinct (nullifiers cons) in
  reject_if (structure_rejection has_distinct);;
  proof_record ← ok_or (proof_record_at chain (anchor_ref cons) (nullifiers cons))
                   (from_kernel_rejection IllFormedAnchor);
  let x := public_input proof_record ctx openings in
  let valid := verify_proof (vk params) x (proof cons) in
  reject_if (proof_rejection valid);;
  let have := confirmations_at chain (height location) in
  reject_if (chain_prefix_rejection have (required_depth params) true);;
  let binds := record_binds_nullifiers proof_record ctx (nullifiers cons) in
  reject_if (chain_prefix_rejection have (required_depth params) binds);;
  occurrences ← occurrence_loop chain location (occurrence_keys record (nullifiers cons)) [];
  let coins := owned_coins (recipient_owners params) openings in
  match decide_accept {|
      has_openings := true;
      asset := asset;
      anchor := Present location have binds occurrences;
      has_distinct_nullifiers := has_distinct;
      proof_valid := valid;
      required_confirmations := required_depth params;
      has_owned_output := negb (bool_decide (coins = []));
    |} with
  | Accept _ => Ok {| coins := coins; accepted_anchor := location |}
  | Reject reason => Err (from_kernel_rejection reason)
  end.

Definition accept (cons : Consignment) (chain : AnchorChain) (params : AcceptParams)
  : result CoreReject AcceptedCoins :=
  let recipient_owners := secret_owner <$> recipient_secrets params in
  accept_for_public_owners cons chain {|
    vk := ap_vk params;
    required_depth := ap_required_confirmations params;
    recipient_owners := recipient_owners;
    known_assets := ap_known_assets params;
  |}.
End driver.

(** ** Refinement of the decision kernel *)
Section refinement.
Context `{Poseidon, ProofVerifier}.

(** The complete observation of a consignment, computed eagerly. *)
Definition observation (cons : Consignment) (chain : AnchorChain)
    (params : PublicOwnerAcceptParams) (record pr : AnchorRecord) (ctx : bytes)
    (location : Location) : AcceptInput := {|
  has_openings := negb (bool_decide (coin_openings cons = []));
  asset := observe_asset cons (known_assets params);
  anchor := Present location (confirmations_at chain (height location))
    (record_binds_nullifiers pr ctx (nullifiers cons))
    (observe_key chain <$> occurrence_keys record (nullifiers cons));
  has_distinct_nullifiers := nullifiers_are_distinct (nullifiers cons);
  proof_valid := verify_proof (vk params) (public_input pr ctx (coin_openings cons)) (proof cons);
  required_confirmations := required_depth params;
  has_owned_output :=
    negb (bool_decide (owned_coins (recipient_owners params) (coin_openings cons) = []));
|}.

(** The observation of a consignment whose anchor cannot be resolved. *)
Definition missing_observation (cons : Consignment) (params : PublicOwnerAcceptParams)
  : AcceptInput := {|
  has_openings := negb (bool_decide (coin_openings cons = []));
  asset := observe_asset cons (known_assets params);
  anchor := Missing;
  has_distinct_nullifiers := nullifiers_are_distinct (nullifiers cons);
  proof_valid := false;
  required_confirmations := required_depth params;
  has_owned_output := false;
|}.

(** The anchor queries of the driver, in its order. *)
Definition resolve_anchor (chain : AnchorChain) (r : AnchorRef)
  : option (AnchorRecord * bytes * Location) :=
  record ← anchor_at chain r;
  ctx ← ctx_at chain r;
  location ← locate chain r;
  Some (record, ctx, location).

Definition outcome (coins : list Coin) (d : AcceptDecision) : result CoreReject AcceptedCoins :=
  match d with
  | Accept location => Ok {| coins := coins; accepted_anchor := location |}
  | Reject reason => Err (from_kernel_rejection reason)
  end.

Lemma occurrence_rejection_cons loc o os :
  occurrence_rejection loc (o :: os) =
  match occurrence_rejection loc [o] with
  | Some r => Some r
  | None => occurrence_rejection loc os
  end.
Proof. cbn. destruct (occ_first o); [|done]. by case_match. Qed.

Lemma occurrence_loop_spec chain loc keys acc :
  occurrence_loop chain loc keys acc =
  match occurrence_rejection loc (observe_key chain <$> keys) with
  | Some r => Err (from_kernel_rejection r)
  | None => Ok (acc ++ (observe_key chain <$> keys))
  end.
Proof.
  revert acc; induction keys as [|k keys IH]; intros acc.
  { cbn. by rewrite app_nil_r. }
  rewrite fmap_cons, occurrence_rejection_cons. cbn [occurrence_loop].
  destruct (occurrence_rejection loc [observe_key chain k]); cbn [reject_if mbind result_bind]; [done|].
  rewrite IH. destruct (occurrence_rejection loc _); [done|]. by rewrite <- app_assoc.
Qed.

Lemma accept_missing cons chain params :
  resolve_anchor chain (anchor_ref cons) = None →
  accept_for_public_owners cons chain params =
  outcome [] (decide_accept (missing_observation cons params)).
Proof.
  unfold resolve_anchor, accept_for_public_owners, decide_accept, missing_observation. cbn.
  destruct (bool_decide (coin_openings cons = [])); cbn; [done|].
  destruct (observe_asset _ _); cbn; try done.
  destruct (anchor_at _ _); cbn; [|done]. destruct (ctx_at _ _); cbn; [|done].
  by destruct (locate _ _).
Qed.

Lemma accept_resolved cons chain params record ctx location pr :
  resolve_anchor chain (anchor_ref cons) = Some (record, ctx, location) →
  proof_record_at chain (anchor_ref cons) (nullifiers cons) = Some pr →
  accept_for_public_owners cons chain params =
  outcome (owned_coins (recipient_owners params) (coin_openings cons))
    (decide_accept (observation cons chain params record pr ctx location)).
Proof.
  unfold resolve_anchor, accept_for_public_owners, decide_accept, observation. cbn.
  intros Hr Hp. destruct (bool_decide (coin_openings cons = [])); cbn; [done|].
  destruct (observe_asset _ _); cbn; try done.
  destruct (anchor_at _ _); cbn in *; [|done]. destruct (ctx_at _ _); cbn in *; [|done].
  destruct (locate _ _); cbn in *; [|done]. injection Hr as -> -> ->.
  rewrite Hp. destruct (nullifiers_are_distinct _); cbn; [|done].
  destruct (verify_proof _ _ _); cbn; [|done].
  unfold chain_prefix_rejection. destruct (_ <? _); cbn; [done|].
  destruct (record_binds_nullifiers _ _ _); cbn; [|done].
  rewrite occurrence_loop_spec. cbn.
  destruct (occurrence_rejection _ _) eqn:Eo; cbn; [done|].
  rewrite Eo. by destruct (bool_decide _).
Qed.

Lemma accept_no_proof_record cons chain params :
  proof_record_at chain (anchor_ref cons) (nullifiers cons) = None →
  ∃ e, accept_for_public_owners cons chain params = Err e.
Proof.
  intros Hp. destruct (accept_for_public_owners cons chain params) eqn:E; [|eauto].
  unfold accept_for_public_owners in E. inv_bind. congruence.
Qed.

Lemma accept_outcome cons chain params res :
  accept_for_public_owners cons chain params = Ok res ↔
  ∃ record ctx location pr,
    resolve_anchor chain (anchor_ref cons) = Some (record, ctx, location) ∧
    proof_record_at chain (anchor_ref cons) (nullifiers cons) = Some pr ∧
    decide_accept (observation cons chain params record pr ctx location)
      = Accept (accepted_anchor res) ∧
    coins res = owned_coins (recipient_owners params) (coin_openings cons).
Proof.
  split.
  - intros Hok. destruct (resolve_anchor chain (anchor_ref cons)) as [[[record ctx] location]|] eqn:Hr.
    + destruct (proof_record_at chain (anchor_ref cons) (nullifiers cons)) as [pr|] eqn:Hp.
      * exists record, ctx, location, pr. rewrite (accept_resolved _ _ _ _ _ _ _ Hr Hp) in Hok.
        unfold outcome in Hok. by destruct (decide_accept _); simplify_eq.
      * destruct (accept_no_proof_record _ _ params Hp) as [e He]. congruence.
    + rewrite accept_missing in Hok by done. unfold outcome in Hok.
      destruct (decide_accept _) eqn:E; [|done].
      apply decide_accepts in E as (_ & _ & _ & _ & _ & ? & ? & [=] & _).
  - intros (record & ctx & location & pr & Hr & Hp & Hd & Hc).
    rewrite (accept_resolved _ _ _ _ _ _ _ Hr Hp), Hd. destruct res; cbn in *. by subst.
Qed.
End refinement.

(** ** Multisets of payloads *)

Lemma bytes_leb_cons x a y b : bytes_leb (x :: a) (y :: b) = true ↔
  bval x < bval y ∨ (x = y ∧ bytes_leb a b = true).
Proof.
  cbn. rewrite orb_true_iff, andb_true_iff, bool_decide_eq_true, Z.ltb_lt. done.
Qed.

#[export] Instance bytes_le_po : PartialOrder bytes_le.
Proof.
  unfold bytes_le. split; [split|].
  - intros a. induction a as [|x a IH]; [done|]. apply bytes_leb_cons. auto.
  - intros a b c. revert a c.
    induction b as [|y b IH]; intros [|x a] [|z c] H1 H2; try done.
    apply bytes_leb_cons in H1 as [H1|[-> H1]], H2 as [H2|[-> H2]]; apply bytes_leb_cons.
    + left; lia.
    + by left.
    + by left.
    + right. eauto.
  - intros a. induction a as [|x a IH]; intros [|y b] H1 H2; try done.
    apply bytes_leb_cons in H1 as [H1|[-> H1]], H2 as [H2|[E H2]];
      [lia|subst; lia|lia|]. f_equal. auto.
Qed.

#[export] Instance bytes_le_total : Total bytes_le.
Proof.
  intros a. unfold bytes_le. induction a as [|x a IH]; intros [|y b]; [by left|by left|by right|].
  rewrite !bytes_leb_cons.
  destruct (Z.lt_trichotomy (bval x) (bval y)) as [?|[E|?]]; [auto| |auto].
  apply bval_inj in E as ->. destruct (IH b); auto.
Qed.

Lemma sorted_eq_perm (l k : list bytes) :
  merge_sort bytes_le l = merge_sort bytes_le k ↔ l ≡ₚ k.
Proof.
  split.
  - intros E. by rewrite <- (merge_sort_Permutation bytes_le l), E, merge_sort_Permutation.
  - intros E. apply (StronglySorted_unique bytes_le); [apply StronglySorted_merge_sort; apply _..|].
    by rewrite !merge_sort_Permutation.
Qed.

Section binding.
Context `{PoseidonLaws}.

Lemma nullifiers_are_distinct_spec nfs :
  Forall (λ nf, is_digest nf = true) nfs →
  nullifiers_are_distinct nfs = true ↔ NoDup nfs.
Proof.
  intros Hd. unfold nullifiers_are_distinct. rewrite distinct_NoDup. split.
  - apply NoDup_fmap_1.
  - intros Hn. induction Hn as [|x l Hx Hn IH]; [constructor|].
    apply Forall_cons in Hd as [Hdx Hd]. rewrite fmap_cons. constructor; [|auto].
    intros (y & E & Hy)%list_elem_of_fmap. rewrite Forall_forall in Hd.
    apply digest_elems_inj in E as ->; auto.
Qed.

(** The nonzero slots of a transfer record. *)
Definition live_slots (p1 p2 : bytes) : list bytes := filter (λ p, p ≠ zeros 24) [p1; p2].

Lemma xfer_binds p1 p2 ctx nfs :
  record_binds_nullifiers (Xfer p1 p2) ctx nfs = true ↔
  nullifiers_are_distinct nfs = true ∧ nfs ≠ [] ∧ bound ctx <$> nfs ≡ₚ live_slots p1 p2.
Proof.
  unfold record_binds_nullifiers, live_slots.
  destruct (nullifiers_are_distinct nfs); cbn [negb]; [|naive_solver].
  rewrite andb_true_iff, negb_true_iff, bool_decide_eq_false, bool_decide_eq_true, sorted_eq_perm.
  assert (HE : merge_sort bytes_le (bound ctx <$> nfs) = [] ↔ nfs = []).
  { split; [|by intros ->]. intros E. apply (fmap_nil_inv (bound ctx)).
    apply Permutation_nil. by rewrite <- (merge_sort_Permutation bytes_le (bound ctx <$> nfs)), E. }
  rewrite HE. intuition; by symmetry.
Qed.

(** Rebinding a permutation of bound payloads: the nullifiers are the same
    multiset, or two bindings under the context collide. *)
Lemma bound_perm ctx nfs nfs' :
  length ctx = 32%nat → Forall (λ nf, is_digest nf = true) nfs →
  Forall (λ nf, is_digest nf = true) nfs' →
  bound ctx <$> nfs' ≡ₚ bound ctx <$> nfs →
  nfs' ≡ₚ nfs ∨ ∃ a b, a ∈ nfs' ∧ b ∈ nfs ∧
    collides_prefix 6 (hash_call_input (HBind a ctx)) (hash_call_input (HBind b ctx)).
Proof.
  intros Hc. revert nfs. induction nfs' as [|a nfs' IH]; intros nfs Hd Hd' HP.
  { left. cbn in HP. apply Permutation_nil in HP. by apply fmap_nil_inv in HP as ->. }
  assert (Ha : bound ctx a ∈ bound ctx <$> nfs) by (rewrite <- HP; apply list_elem_of_here).
  apply list_elem_of_fmap in Ha as (b & Eb & Hb).
  apply list_elem_of_split in Hb as (n1 & n2 & ->).
  apply Forall_cons in Hd' as [Hda Hd'].
  assert (Hdb : is_digest b = true) by (rewrite Forall_forall in Hd; apply Hd; set_solver).
  assert (Hd12 : Forall (λ nf, is_digest nf = true) (n1 ++ n2)).
  { apply Forall_app in Hd as [? [_ ?]%Forall_cons]. by apply Forall_app_2. }
  destruct (bound_inj ctx ctx a b) as [[-> _]|HC]; [done..| |].
  - destruct (IH (n1 ++ n2) Hd12 Hd') as [HP'|(x & y & Hx & Hy & HC)].
    + rewrite fmap_app, !fmap_cons, <- Permutation_middle in HP.
      apply Permutation_cons_inv in HP. by rewrite fmap_app.
    + left. rewrite <- Permutation_middle. by constructor.
    + right. exists x, y. set_solver.
  - right. exists a, b. set_solver.
Qed.
End binding.

Lemma digest_forallb l : forallb is_digest l = true ↔ Forall (λ nf, is_digest nf = true) l.
Proof. induction l as [|x l IH]; cbn; [done|]. by rewrite andb_true_iff, Forall_cons, IH. Qed.

(** ** Properties *)
Section properties.
Context `{Poseidon, ProofVerifier}.

(** C27: The driver refines the decision kernel: although it queries the chain
    and checks the proof lazily and returns early, its result is that of the
    pure [decide] on the complete observation of the consignment. When the
    anchor cannot be resolved the observation is [Missing]; when it resolves
    but no proof record can be reconstructed from it, nothing is accepted. *)
Theorem accept_refines_kernel cons chain params :
  match resolve_anchor chain (anchor_ref cons) with
  | None => accept_for_public_owners cons chain params =
            outcome [] (decide_accept (missing_observation cons params))
  | Some (record, ctx, location) =>
      match proof_record_at chain (anchor_ref cons) (nullifiers cons) with
      | Some pr => accept_for_public_owners cons chain params =
          outcome (owned_coins (recipient_owners params) (coin_openings cons))
            (decide_accept (observation cons chain params record pr ctx location))
      | None => ∃ e, accept_for_public_owners cons chain params = Err e
      end
  end.
Proof.
  destruct (resolve_anchor _ _) as [[[record ctx] location]|] eqn:Hr; [|by apply accept_missing].
  destruct (proof_record_at _ _ _) eqn:Hp; [by eapply accept_resolved|].
  by apply accept_no_proof_record.
Qed.

(** What an accepted consignment has been checked for. *)
Definition accept_conditions (cons : Consignment) (chain : AnchorChain)
    (params : PublicOwnerAcceptParams) (res : AcceptedCoins) : Prop :=
  ∃ record ctx pr,
    anchor_at chain (anchor_ref cons) = Some record ∧
    ctx_at chain (anchor_ref cons) = Some ctx ∧
    locate chain (anchor_ref cons) = Some (accepted_anchor res) ∧
    proof_record_at chain (anchor_ref cons) (nullifiers cons) = Some pr ∧
    observe_asset cons (known_assets params) = Valid ∧
    nullifiers_are_distinct (nullifiers cons) = true ∧
    verify_proof (vk params) (public_input pr ctx (coin_openings cons)) (proof cons) = true ∧
    required_depth params ≤ confirmations_at chain (height (accepted_anchor res)) ∧
    record_binds_nullifiers pr ctx (nullifiers cons) = true ∧
    (∀ key, key ∈ occurrence_keys record (nullifiers cons) →
       first_nullifier_occurrence chain key = Some (accepted_anchor res)) ∧
    coins res = owned_coins (recipient_owners params) (coin_openings cons) ∧
    coins res ≠ [].

Lemma owned_nonempty owners openings :
  owned_coins owners openings ≠ [] → openings ≠ [].
Proof. by intros Hne ->. Qed.

Lemma accept_spec cons chain params res :
  accept_for_public_owners cons chain params = Ok res ↔
  accept_conditions cons chain params res.
Proof.
  rewrite accept_outcome. unfold accept_conditions. split.
  - intros (record & ctx & location & pr & Hr & Hp & Hd & Hc).
    apply decide_accepts in Hd as (Ho & Ha & Hn & Hpv & Hw & cf & occs & HA & Hcf & HF).
    cbn in *. injection HA as -> -> Hb <-.
    unfold resolve_anchor in Hr. inv_bind. simplify_eq.
    exists record, ctx, pr. split_and!; try done.
    + intros key Hk. rewrite Forall_fmap, Forall_forall in HF. by apply HF.
    + rewrite Hc. by apply negb_true_iff, bool_decide_eq_false in Hw.
  - intros (record & ctx & pr & Ha & Hx & Hl & Hp & Has & Hn & Hv & Hcf & Hb & Hk & Hc & Hne).
    exists record, ctx, (accepted_anchor res), pr.
    split_and!; [unfold resolve_anchor; by rewrite Ha, Hx; cbn; rewrite Hl|done| |done].
    apply decide_accepts. cbn. rewrite Hc in Hne.
    split_and!; [|done..| |].
    + apply negb_true_iff, bool_decide_eq_false. by apply owned_nonempty in Hne.
    + by apply negb_true_iff, bool_decide_eq_false.
    + eexists _, _. rewrite Hb. split_and!; [done..|].
      apply Forall_fmap, Forall_forall. intros key Hin. by apply Hk.
Qed.

(** C14: Soundness and completeness of [Accept]: it succeeds exactly when the
    anchor resolves, the asset checks out, the nullifiers are distinct as field
    elements, the proof verifies against the reconstructed public input, the
    anchor is deep enough, the proof record binds exactly the consignment's
    nullifiers, every occurrence key first occurs at this anchor, and the
    recipient owns an output; and it credits exactly the owned outputs. *)
Theorem accept_iff_conditions cons chain params res :
  accept_for_public_owners cons chain params = Ok res ↔
  accept_conditions cons chain params res.
Proof. apply accept_spec. Qed.

(** C15: No double spend: two consignments that spend a common nullifier (or
    nullifier commitment) cannot both be accepted at different anchors, whoever
    accepts them and even if the second receiver looks at a later view of the
    chain. *)
Theorem no_double_spend cons1 cons2 chain1 chain2 params1 params2 res1 res2 record1 record2 key :
  extends chain1 chain2 →
  accept_for_public_owners cons1 chain1 params1 = Ok res1 →
  accept_for_public_owners cons2 chain2 params2 = Ok res2 →
  anchor_at chain1 (anchor_ref cons1) = Some record1 →
  anchor_at chain2 (anchor_ref cons2) = Some record2 →
  key ∈ occurrence_keys record1 (nullifiers cons1) →
  key ∈ occurrence_keys record2 (nullifiers cons2) →
  accepted_anchor res1 = accepted_anchor res2.
Proof.
  intros Hext H1 H2 Hr1 Hr2 Hk1 Hk2.
  apply accept_spec in H1 as (r1 & ? & ? & Ha1 & _ & _ & _ & _ & _ & _ & _ & _ & Ho1 & _).
  apply accept_spec in H2 as (r2 & ? & ? & Ha2 & _ & _ & _ & _ & _ & _ & _ & _ & Ho2 & _).
  simplify_eq. apply Ho1, Hext in Hk1. apply Ho2 in Hk2. congruence.
Qed.

(** Exclusion under a quorum: whatever a consignment accepted over a
    cross-checked chain spends, no member of the quorum reports an occurrence
    of it before the accepted anchor, so one honest member suffices to reject
    every later double spend. *)
Theorem quorum_accept_excludes cons c params res record key m l :
  accept_for_public_owners cons (cross_chain c) params = Ok res →
  anchor_at (cross_chain c) (anchor_ref cons) = Some record →
  key ∈ occurrence_keys record (nullifiers cons) →
  m ∈ members c → first_nullifier_occurrence m key = Some l →
  loc_le (accepted_anchor res) l.
Proof.
  intros Hok Hr Hk Hm Hl.
  apply accept_spec in Hok as (r & ? & ? & Ha & _ & _ & _ & _ & _ & _ & _ & _ & Ho & _).
  simplify_eq. apply Ho in Hk. apply cross_first_spec in Hk as [_ Hmin]. eauto.
Qed.

(** A transfer of more than two coins can never be accepted through a
    backend that reads records from their bytes: the shared layout parses as a
    plain transfer, whose at most two slots are then compared one by one with
    the bound nullifiers instead of with the bound list commitment. *)
Theorem parsed_compressed_never_accepted cons chain params bs :
  anchor_at chain (anchor_ref cons) = Some (record_from_bytes bs) →
  (∀ r nfs, proof_record_at chain r nfs = default_proof_record_at (anchor_at chain) r nfs) →
  (2 < length (nullifiers cons))%nat →
  ∃ e, accept_for_public_owners cons chain params = Err e.
Proof.
  intros Ha Hp HL. destruct (accept_for_public_owners cons chain params) as [res|e] eqn:E; [|eauto].
  exfalso. apply accept_spec in E as (r & ctx & pr & Ha' & _ & _ & Hp' & _ & _ & _ & _ & Hb & _).
  rewrite Ha in Ha'. injection Ha' as <-. rewrite Hp in Hp'. unfold default_proof_record_at in Hp'.
  rewrite Ha in Hp'. cbn in Hp'.
  assert (Hpr : pr = record_from_bytes bs) by (destruct (record_from_bytes bs); congruence).
  subst pr. assert (Hcl : match record_from_bytes bs with XferCompressed _ => False | _ => True end)
    by (unfold record_from_bytes; repeat (case_if; try done)).
  destruct (record_from_bytes bs) as [| p q | | |]; try done.
  - unfold record_binds_nullifiers in Hb. destruct (negb _); [done|]. apply bool_decide_eq_true in Hb.
    rewrite Hb in HL. cbn in HL. lia.
  - apply xfer_binds in Hb as (_ & _ & HP). apply Permutation_length in HP.
    rewrite length_fmap in HP. unfold live_slots in HP.
    pose proof (length_filter (λ p, p ≠ zeros 24) [p; q]) as HF. cbn [length] in HF. lia.
  - unfold record_binds_nullifiers in Hb. destruct (negb _); [done|].
    destruct (nullifiers cons) as [|? [|]]; try done. cbn in HL. lia.
Qed.
End properties.

(** ** Settlement on the in-memory chain *)
Section settlement.
Context `{PoseidonLaws, ProofVerifier}.

Lemma xfer_live_slots nfs ctx record :
  xfer nfs ctx = Some record → Forall (λ nf, bound ctx nf ≠ zeros 24) nfs →
  ∃ p1 p2, record = Xfer p1 p2 ∧ live_slots p1 p2 = bound ctx <$> nfs ∧ nfs ≠ [].
Proof.
  intros Hx HF. unfold live_slots.
  destruct nfs as [|a [|b [|]]]; cbn in Hx; try done; injection Hx as <-;
    eexists _, _; (split; [done|split; [|done]]).
  - apply Forall_cons in HF as [Ha _].
    rewrite filter_cons_True by done. by rewrite filter_cons_False by (intros Hn; by apply Hn).
  - apply Forall_cons in HF as [Ha [Hb _]%Forall_cons].
    by rewrite !filter_cons_True by done.
Qed.

Lemma xfer_records_bind nfs ctx record :
  xfer nfs ctx = Some record → Forall (λ nf, is_digest nf = true) nfs → NoDup nfs →
  Forall (λ nf, bound ctx nf ≠ zeros 24) nfs →
  record_binds_nullifiers record ctx nfs = true.
Proof.
  intros Hx Hd Hn HF. destruct (xfer_live_slots _ _ _ Hx HF) as (p1 & p2 & -> & HL & Hne).
  apply xfer_binds. split_and!; [by apply nullifiers_are_distinct_spec|done|by rewrite HL].
Qed.

(** The binding check is exact: a transfer record built from distinct
    nullifiers under the transaction's context binds a list of nullifiers exactly
    when that list is a permutation of the originals - nothing omitted, nothing
    smuggled in - or two explicit bindings collide on 24 bytes. *)
Theorem binding_check_exact nfs nfs' ctx record :
  xfer nfs ctx = Some record → length ctx = 32%nat →
  Forall (λ nf, is_digest nf = true) nfs → Forall (λ nf, is_digest nf = true) nfs' →
  NoDup nfs → Forall (λ nf, bound ctx nf ≠ zeros 24) nfs →
  (nfs' ≡ₚ nfs → record_binds_nullifiers record ctx nfs' = true) ∧
  (record_binds_nullifiers record ctx nfs' = true →
     nfs' ≡ₚ nfs ∨ ∃ a b, a ∈ nfs' ∧ b ∈ nfs ∧
       collides_prefix 6 (hash_call_input (HBind a ctx)) (hash_call_input (HBind b ctx))).
Proof.
  intros Hx Hc Hd Hd' Hn HF. destruct (xfer_live_slots _ _ _ Hx HF) as (p1 & p2 & -> & HL & Hne).
  rewrite xfer_binds, HL. split.
  - intros HP. split_and!.
    + apply nullifiers_are_distinct_spec; [done|]. by rewrite HP.
    + intros ->. by apply Permutation_nil_l in HP.
    + by apply fmap_Permutation.
  - intros (_ & _ & HP). by apply bound_perm.
Qed.

Lemma mock_first_new m record ctx nf :
  mock_first m nf = None → well_formed record ctx nf = true →
  mock_first (append_with_ctx m record ctx).1 nf =
  Some (ref_location (append_with_ctx m record ctx).2).
Proof.
  rewrite !mock_first_head. cbn [append_with_ctx fst snd entries ref_location]. intros HN Hw.
  rewrite filter_app, fmap_app. destruct (e_location <$> filter _ (entries m)); [|done].
  rewrite filter_cons_True by done. done.
Qed.

(** Liveness end to end: a sender who anchors a transfer of never-revealed
    nullifiers under its own context, waits out the required depth and sends the
    consignment with a verifying proof to an owner of one of its outputs is
    accepted, at the location the append returned. *)
Theorem settled_transfer_accepted m nfs ctx record n cons params :
  let res := append_with_ctx m record ctx in
  mock_reachable m → Z.of_nat (length (entries m)) < 2 ^ 32 →
  xfer nfs ctx = Some record →
  Forall (λ nf, is_digest nf = true) nfs → NoDup nfs →
  Forall (λ nf, bound ctx nf ≠ zeros 24) nfs →
  Forall (λ nf, mock_first m nf = None) nfs →
  nullifiers cons = nfs → anchor_ref cons = res.2 →
  0 ≤ n → mock_tip m + n ≤ u64_max → required_depth params ≤ n + 1 →
  observe_asset cons (known_assets params) = Valid →
  verify_proof (vk params) (public_input record ctx (coin_openings cons)) (proof cons) = true →
  owned_coins (recipient_owners params) (coin_openings cons) ≠ [] →
  accept_for_public_owners cons (mock_chain (advance_blocks res.1 n)) params =
  Ok {| coins := owned_coins (recipient_owners params) (coin_openings cons);
        accepted_anchor := ref_location res.2 |}.
Proof.
  intros res Hr HL Hx Hd Hn HF HN Hnf Href Hn0 Hmax Hk Has Hv Hne.
  destruct (append_facts m record ctx res.1 res.2 Hr HL (surjective_pairing _))
    as ((Ha & Hc & Hl) & _).
  apply accept_spec. exists record, ctx, record. rewrite Href, Hnf. cbn [accepted_anchor coins].
  assert (Hrec : ∃ p1 p2, record = Xfer p1 p2)
    by (destruct (xfer_live_slots _ _ _ Hx HF) as (p1 & p2 & -> & _); eauto).
  split_and!; try done.
  - destruct Hrec as (p1 & p2 & ->). cbn in Ha |- *. unfold default_proof_record_at. by rewrite Ha.
  - by apply nullifiers_are_distinct_spec.
  - cbn. unfold default_confirmations_at, saturating_add64. rewrite Z.min_l by lia.
    rewrite Z.gtb_ltb, (proj2 (Z.ltb_ge _ _)) by lia. lia.
  - by apply xfer_records_bind.
  - intros key Hin. assert (Hin' : key ∈ nfs) by (by destruct Hrec as (? & ? & ->)).
    rewrite Forall_forall in HN. apply (mock_first_new m record ctx key (HN key Hin')).
    apply well_formed_slots. destruct nfs as [|a [|b [|]]]; cbn in Hx; try done;
      injection Hx as <-; set_solver.
Qed.
End settlement.

(** ** A concrete settlement *)
Section demo.
#[local] Existing Instances demo_sponge demo_sponge_laws mock_verifier.

Definition demo_ctx : bytes := zeros 32.
Definition demo_nf : bytes := demo_digest 7.
Definition demo_secret : bytes := replicate 32 x05.
Definition demo_record : AnchorRecord := Xfer (bound demo_ctx demo_nf) (zeros 24).
Definition demo_append : MockAnchorChain * AnchorRef :=
  append_with_ctx demo_mock demo_record demo_ctx.
Definition demo_chain : MockAnchorChain := advance_blocks demo_append.1 5.
Definition demo_openings : list CoinOpening :=
  [{| asset_id := demo_digest 9; value := 40; owner := secret_owner demo_secret;
      randomness := demo_digest 1 |};
   {| asset_id := demo_digest 9; value := 60; owner := demo_digest 2;
      randomness := demo_digest 3 |}].
Definition demo_consignment : Consignment := {|
  coin_openings := demo_openings;
  nullifiers := [demo_nf];
  proof := mock_prove [x01] (public_input demo_record demo_ctx demo_openings);
  anchor_ref := demo_append.2;
  aux := None;
|}.
Definition demo_params : PublicOwnerAcceptParams := {|
  vk := [x01]; required_depth := 6;
  recipient_owners := [secret_owner demo_secret];
  known_assets := [demo_digest 9];
|}.
Definition demo_result : AcceptedCoins := {|
  coins := owned_coins (recipient_owners demo_params) demo_openings;
  accepted_anchor := MkLocation 100 1;
|}.

Lemma demo_accepted :
  accept_for_public_owners demo_consignment (mock_chain demo_chain) demo_params
  = Ok demo_result.
Proof. vm_compute. reflexivity. Qed.

Lemma demo_accepted_quorum :
  accept_for_public_owners demo_consignment
    (cross_chain (MkCross [mock_chain mock_new; mock_chain demo_chain] 105)) demo_params
  = Ok demo_result.
Proof. vm_compute. reflexivity. Qed.

(** The same consignment one block too early, and with a foreign owner. *)
Example demo_too_early :
  accept_for_public_owners demo_consignment
    (mock_chain (advance_blocks demo_append.1 4)) demo_params
  = Err (CInsufficientConfirmations 5 6).
Proof. vm_compute. reflexivity. Qed.

Lemma no_double_spend_witness :
  extends (mock_chain demo_chain) (mock_chain (advance_blocks demo_chain 1)) ∧
  accepted_anchor demo_result = accepted_anchor demo_result.
Proof.
  assert (Hext : extends (mock_chain demo_chain) (mock_chain (advance_blocks demo_chain 1)))
    by apply advance_extends.
  split; [exact Hext|].
  refine (no_double_spend demo_consignment demo_consignment _ _ demo_params demo_params
    demo_result demo_result demo_record demo_record demo_nf Hext _ _ _ _ _ _);
    try (vm_compute; reflexivity); vm_compute; apply list_elem_of_here.
Defined.

Lemma quorum_accept_excludes_witness :
  loc_le (accepted_anchor demo_result) (MkLocation 100 1).
Proof.
  refine (quorum_accept_excludes demo_consignment
    (MkCross [mock_chain mock_new; mock_chain demo_chain] 105) demo_params demo_result
    demo_record demo_nf (mock_chain demo_chain) (MkLocation 100 1) demo_accepted_quorum _ _ _ _).
  - vm_compute. reflexivity.
  - apply list_elem_of_here.
  - apply list_elem_of_further, list_elem_of_here.
  - vm_compute. reflexivity.
Defined.

Lemma binding_check_exact_witness :
  record_binds_nullifiers demo_record demo_ctx [demo_nf] = true.
Proof.
  assert (Hd : Forall (λ nf, is_digest nf = true) [demo_nf])
    by (apply digest_forallb; vm_compute; reflexivity).
  refine (proj1 (binding_check_exact [demo_nf] [demo_nf] demo_ctx demo_record
    eq_refl eq_refl Hd Hd (NoDup_singleton demo_nf) _) (Permutation_refl [demo_nf])).
  constructor; [|constructor]. by apply (bool_decide_unpack _); vm_compute.
Defined.

Lemma settled_transfer_accepted_witness :
  accept_for_public_owners demo_consignment
    (mock_chain (advance_blocks (append_with_ctx demo_mock demo_record demo_ctx).1 5)) demo_params
  = Ok {| coins := owned_coins (recipient_owners demo_params) (coin_openings demo_consignment);
          accepted_anchor := ref_location (append_with_ctx demo_mock demo_record demo_ctx).2 |}.
Proof.
  apply (settled_transfer_accepted demo_mock [demo_nf] demo_ctx demo_record 5
    demo_consignment demo_params demo_mock_reachable).
  - vm_compute. reflexivity.
  - vm_compute. reflexivity.
  - apply digest_forallb. vm_compute. reflexivity.
  - apply NoDup_singleton.
  - constructor; [|constructor]. by apply (bool_decide_unpack _); vm_compute.
  - constructor; [|constructor]. vm_compute. reflexivity.
  - reflexivity.
  - reflexivity.
  - discriminate.
  - vm_compute. discriminate.
  - vm_compute. discriminate.
  - vm_compute. reflexivity.
  - vm_compute. reflexivity.
  - vm_compute. discriminate.
Defined.

(** A three-input transfer anchored as its 64 bytes. *)
Definition demo_compressed : AnchorRecord :=
  xfer_compressed (nullifier_commit [demo_digest 7; demo_digest 8; demo_digest 9]) demo_ctx.
Definition demo_parsed_chain : MockAnchorChain :=
  (append_with_ctx mock_new (record_from_bytes (record_to_bytes demo_compressed)) demo_ctx).1.
Definition demo_compressed_consignment : Consignment := {|
  coin_openings := demo_openings;
  nullifiers := [demo_digest 7; demo_digest 8; demo_digest 9];
  proof := mock_prove [x01] (public_input
    (record_from_bytes (record_to_bytes demo_compressed)) demo_ctx demo_openings);
  anchor_ref := (append_with_ctx mock_new
    (record_from_bytes (record_to_bytes demo_compressed)) demo_ctx).2;
  aux := None;
|}.

Lemma parsed_compressed_never_accepted_witness :
  ∃ e, accept_for_public_owners demo_compressed_consignment (mock_chain demo_parsed_chain)
         demo_params = Err e.
Proof.
  refine (parsed_compressed_never_accepted demo_compressed_consignment
    (mock_chain demo_parsed_chain) demo_params (record_to_bytes demo_compressed) _ _ _).
  - vm_compute. reflexivity.
  - intros r nfs. reflexivity.
  - vm_compute. lia.
Defined.
End demo.
