(* ===== verification/Wire.v ===== *)
(** * Bitcoin wire primitives of the compact-filter client

    Models [crates/opencsv-cbf/src/error.rs], [hash.rs] and [wire.rs].  A
    [Cursor] is the suffix it has not consumed, so the reading methods are a
    state-and-error monad over bytes.  SHA-256 is third-party code: the class
    parameter [Sha256d]. *)

From S2P Require Import Prelude.

(** ** Errors: the constructor and the constant part of the message.  [EPanic] is
    not a value of the source's type: it stands for a failed assertion, which
    unwinds past every caller like an error nobody handles. *)
Inductive Error :=
  | EIo (m : string)
  | EProtocol (m : string)
  | EConsensus (m : string)
  | EFilter (m : string)
  | ENoPeers (m : string)
  | EDivergentPeers (m : string)
  | EInvalidInput (m : string)
  | EDecode (m : string)
  | EPanic (m : string).

#[export] Instance error_eq_dec : EqDecision Error.
Proof. solve_decision. Defined.

(** ** Double SHA-256 *)
Class Sha256d := sha256d : bytes → bytes.
#[global] Arguments sha256d : simpl never.

Class Sha256dLaws (H : Sha256d) : Prop := {
  length_sha256d : ∀ x, length (sha256d x) = 32%nat;
}.

(** ** The cursor monad *)
Definition reader (A : Type) : Type := bytes → result Error (A * bytes).

#[export] Instance reader_ret : MRet reader := λ A a bs, Ok (a, bs).
#[export] Instance reader_bind : MBind reader := λ A B f r bs,
  match r bs with Ok (a, bs') => f a bs' | Err e => Err e end.

Definition fail {A} (e : Error) : reader A := λ _, Err e.
Definition guard_ (b : bool) (e : Error) : reader () := if b then mret tt else fail e.

Definition remaining : reader nat := λ bs, Ok (length bs, bs).

Definition read_bytes (n : nat) : reader bytes := λ bs,
  if bool_decide (length bs < n)%nat then Err (EProtocol "truncated bytes")
  else Ok (take n bs, drop n bs).

Definition read_uint (n : nat) : reader Z := bs ← read_bytes n; mret (le_val bs).
Definition read_hash : reader bytes := read_bytes 32.
Definition read_u8 : reader Z := read_uint 1.
Definition read_u16 : reader Z := read_uint 2.
Definition read_u32 : reader Z := read_uint 4.
Definition read_u64 : reader Z := read_uint 8.
Definition read_i32 : reader Z := n ← read_u32; mret (to_signed 32 n).
Definition read_i64 : reader Z := n ← read_u64; mret (to_signed 64 n).

Definition noncanonical : Error := EProtocol "non-canonical varint".

Definition read_varint : reader Z :=
  first ← read_u8;
  if first =? 0xff then
    n ← read_u64; guard_ (negb (n <? 0x100000000)) noncanonical;; mret n
  else if first =? 0xfe then
    n ← read_u32; guard_ (negb (n <? 0x10000)) noncanonical;; mret n
  else if first =? 0xfd then
    n ← read_u16; guard_ (negb (n <? 0xfd)) noncanonical;; mret n
  else mret first.

Definition read_varbytes : reader bytes :=
  n ← read_varint; read_bytes (Z.to_nat n).

(** [for _ in 0..n { out.push(read()?) }] *)
Fixpoint read_n {A} (n : nat) (r : reader A) : reader (list A) :=
  match n with
  | O => mret []
  | S n => x ← r; xs ← read_n n r; mret (x :: xs)
  end.

Definition write_varint (n : Z) : bytes :=
  if n <? 0xfd then le_bytes 1 n
  else if n <=? 0xffff then xfd :: le_bytes 2 n
  else if n <=? 0xffffffff then xfe :: le_bytes 4 n
  else xff :: le_bytes 8 n.

Definition write_varbytes (bs : bytes) : bytes := write_varint (Z.of_nat (length bs)) ++ bs.

Definition write_i32 (z : Z) : bytes := le_bytes 4 (of_signed 32 z).
Definition is_i32 (z : Z) : Prop := - 2 ^ 31 ≤ z < 2 ^ 31.

(** ** Exact readers

    [reads r P enc]: the reader [r] succeeds exactly on the encodings of the
    values satisfying [P], and consumes exactly the encoding. *)
Definition reads {A} (r : reader A) (P : A → Prop) (enc : A → bytes) : Prop :=
  ∀ bs a rest, r bs = Ok (a, rest) ↔ P a ∧ bs = enc a ++ rest.

Lemma reader_bind_Ok {A B} (r : reader A) (f : A → reader B) bs b rest :
  (r ≫= f) bs = Ok (b, rest) ↔ ∃ a mid, r bs = Ok (a, mid) ∧ f a mid = Ok (b, rest).
Proof.
  unfold mbind, reader_bind. destruct (r bs) as [[a mid]|]; [naive_solver|].
  split; [done|]. by intros (? & ? & [=] & _).
Qed.

Lemma reader_ret_Ok {A} (a b : A) bs rest :
  (mret a : reader A) bs = Ok (b, rest) ↔ a = b ∧ bs = rest.
Proof. unfold mret, reader_ret. naive_solver. Qed.

Lemma guard_Ok b e bs u rest : guard_ b e bs = Ok (u, rest) ↔ b = true ∧ bs = rest.
Proof. destruct b, u; unfold guard_, fail, mret, reader_ret; naive_solver. Qed.

(** Running a sequence forward, one exact reader or passed guard at a time. *)
Lemma reads_step {A B} (r : reader A) P enc (f : A → reader B) a rest out :
  reads r P enc → P a → f a rest = out → (r ≫= f) (enc a ++ rest) = out.
Proof.
  intros Hr Ha <-. unfold mbind, reader_bind. by rewrite (proj2 (Hr (enc a ++ rest) a rest)).
Qed.

Lemma guard_step {B} b e (f : () → reader B) bs out :
  b = true → f tt bs = out → (guard_ b e ≫= f) bs = out.
Proof. by intros -> <-. Qed.

(** Sequencing exact readers: the second part may depend on the first. *)
Lemma reads_bind {A B} (r : reader A) PA encA (f : A → reader B) PB encB (g : B → A) :
  reads r PA encA →
  (∀ a, PA a → reads (f a) (λ b, PB b ∧ g b = a) encB) →
  (∀ b, PB b → PA (g b)) →
  reads (r ≫= f) PB (λ b, encA (g b) ++ encB b).
Proof.
  intros Hr Hf Hg bs b rest. rewrite reader_bind_Ok. split.
  - intros (a & mid & [Ha ->]%Hr & [[HB <-] ->]%(Hf a)); [|done].
    split; [done|]. by rewrite <- app_assoc.
  - intros [HB ->]. exists (g b), (encB b ++ rest). split.
    + apply Hr. split; [by apply Hg|]. by rewrite app_assoc.
    + by apply Hf; auto.
Qed.

Lemma reads_ret {A} (a : A) : reads (mret a) (λ b, b = a) (λ _, []).
Proof. intros bs b rest. rewrite reader_ret_Ok. naive_solver. Qed.

Lemma reads_mret {A} (a : A) (P : A → Prop) :
  (∀ b, P b ↔ b = a) → reads (mret a) P (λ _, []).
Proof. intros HP bs b rest. rewrite reader_ret_Ok, HP. naive_solver. Qed.

Lemma reads_enc {A} (r : reader A) P enc enc' :
  reads r P enc → (∀ a, enc a = enc' a) → reads r P enc'.
Proof. intros Hr HE bs a rest. by rewrite (Hr bs a rest), HE. Qed.

Lemma reads_ext {A} (r : reader A) P Q enc enc' :
  (∀ a, P a ↔ Q a) → (∀ a, P a → enc a = enc' a) → reads r P enc → reads r Q enc'.
Proof.
  intros HP HE Hr bs a rest. rewrite (Hr bs a rest), <- HP.
  split; intros [Ha ->]; (split; [done|]); by rewrite HE.
Qed.

Lemma reads_bytes n : reads (read_bytes n) (λ b, length b = n) (λ b, b).
Proof.
  intros bs a rest. unfold read_bytes. case_bool_decide as Hn.
  - split; [done|]. intros [HL ->]. rewrite length_app in Hn. lia.
  - split.
    + intros [= <- <-]. rewrite length_take, take_drop. split; [lia|done].
    + intros [<- ->]. by rewrite take_app_length, drop_app_length.
Qed.

Lemma reads_uint n : reads (read_uint n) (λ z, 0 ≤ z < 256 ^ Z.of_nat n) (le_bytes n).
Proof.
  intros bs a rest. unfold read_uint. rewrite reader_bind_Ok. split.
  - intros (b & mid & [HL ->]%reads_bytes & [<- <-]%reader_ret_Ok).
    rewrite le_bytes_le_val by done. split; [|done]. rewrite <- HL. apply le_val_bound.
  - intros [Hb ->]. exists (le_bytes n a), rest. split.
    + apply reads_bytes. by rewrite length_le_bytes.
    + apply reader_ret_Ok. by rewrite le_val_le_bytes_small.
Qed.

Lemma reads_hash : reads read_hash (λ b, length b = 32%nat) (λ b, b).
Proof. apply reads_bytes. Qed.
Lemma reads_u8 : reads read_u8 is_u8 (le_bytes 1).
Proof. eapply reads_ext, reads_uint; [|done]. unfold is_u8, u8_max. cbn. lia. Qed.
Lemma reads_u16 : reads read_u16 is_u16 (le_bytes 2).
Proof. eapply reads_ext, reads_uint; [|done]. unfold is_u16, u16_max. cbn. lia. Qed.
Lemma reads_u32 : reads read_u32 is_u32 (le_bytes 4).
Proof. eapply reads_ext, reads_uint; [|done]. unfold is_u32, u32_max. cbn. lia. Qed.
Lemma reads_u64 : reads read_u64 is_u64 (le_bytes 8).
Proof. eapply reads_ext, reads_uint; [|done]. unfold is_u64, u64_max. cbn. lia. Qed.

Lemma of_signed_range w z : 0 < w → 0 ≤ of_signed w z < 2 ^ w.
Proof. intros. unfold of_signed. apply Z.mod_pos_bound. lia. Qed.

Lemma to_signed_range w z : 0 < w → 0 ≤ z < 2 ^ w →
  - 2 ^ (w - 1) ≤ to_signed w z < 2 ^ (w - 1).
Proof.
  intros Hw Hz. unfold to_signed.
  assert (2 ^ w = 2 * 2 ^ (w - 1)) by (rewrite <- Z.pow_succ_r by lia; f_equal; lia).
  case_decide; lia.
Qed.

Lemma reads_i32 : reads read_i32 is_i32 write_i32.
Proof.
  intros bs a rest. unfold read_i32, write_i32, is_i32. rewrite reader_bind_Ok. split.
  - intros (n & mid & [Hn ->]%reads_u32 & [<- <-]%reader_ret_Ok).
    unfold is_u32, u32_max in Hn. rewrite of_to_signed by lia.
    split; [|done]. apply (to_signed_range 32); lia.
  - intros [Ha ->]. exists (of_signed 32 a), rest. split.
    + apply reads_u32. split; [|done]. pose proof (of_signed_range 32 a).
      unfold is_u32, u32_max. lia.
    + apply reader_ret_Ok. rewrite to_of_signed by lia. done.
Qed.

#[export] Hint Resolve reads_hash reads_u8 reads_u16 reads_u32 reads_u64 reads_i32 : csv.

Lemma le_bytes_1 z : le_bytes 1 z = [bof z].
Proof. done. Qed.

Lemma write_varint_cases n : is_u64 n →
  (n < 0xfd ∧ write_varint n = le_bytes 1 n) ∨
  (0xfd ≤ n ≤ u16_max ∧ write_varint n = le_bytes 1 0xfd ++ le_bytes 2 n) ∨
  (0x10000 ≤ n ≤ u32_max ∧ write_varint n = le_bytes 1 0xfe ++ le_bytes 4 n) ∨
  (0x100000000 ≤ n ∧ write_varint n = le_bytes 1 0xff ++ le_bytes 8 n).
Proof.
  unfold is_u64, u64_max, u16_max, u32_max, write_varint. intros Hn.
  destruct (n <? 0xfd) eqn:E1; bool_props; [by left|].
  destruct (n <=? 0xffff) eqn:E2; bool_props; [right; left; split; [lia|done]|].
  destruct (n <=? 0xffffffff) eqn:E3; bool_props; right; right; [left|right]; (split; [lia|done]).
Qed.

Lemma varint_1 n : 0 ≤ n < 253 → length (write_varint n) = 1%nat.
Proof. intros. unfold write_varint. rewrite (proj2 (Z.ltb_lt _ _)) by lia. apply length_le_bytes. Qed.

Lemma varint_3 n : 253 ≤ n ≤ 65535 → length (write_varint n) = 3%nat.
Proof.
  intros Hn. destruct (write_varint_cases n) as [[? _]|[[_ ->]|[[? _]|[? _]]]];
    unfold is_u64, u64_max, u16_max in *; [lia|lia|by rewrite length_app, !length_le_bytes|lia|lia].
Qed.

Lemma read_varint_tail n (r : reader Z) lo hi k mid rest :
  reads r (λ z, 0 ≤ z ≤ hi) (le_bytes k) →
  (x ← r; guard_ (negb (x <? lo)) noncanonical;; mret x) mid = Ok (n, rest) ↔
  (0 ≤ n ≤ hi ∧ lo ≤ n) ∧ mid = le_bytes k n ++ rest.
Proof.
  intros Hr. rewrite reader_bind_Ok. split.
  - intros (x & m & [Hx ->]%Hr & H). apply reader_bind_Ok in H as (u & m' & Hg & Hx').
    apply guard_Ok in Hg as [Hg ->]. apply reader_ret_Ok in Hx' as [-> ->]. bool_props.
    split; [lia|done].
  - intros ([Hn Hlo] & ->). exists n, rest. split; [by apply Hr|].
    apply reader_bind_Ok. exists tt, rest. split; [|by apply reader_ret_Ok].
    apply guard_Ok. split; [|done]. apply negb_true_iff, Z.ltb_ge. lia.
Qed.

Lemma reads_varint : reads read_varint is_u64 write_varint.
Proof.
  assert (H2 : reads read_u16 (λ z, 0 ≤ z ≤ u16_max) (le_bytes 2)) by apply reads_u16.
  assert (H4 : reads read_u32 (λ z, 0 ≤ z ≤ u32_max) (le_bytes 4)) by apply reads_u32.
  assert (H8 : reads read_u64 (λ z, 0 ≤ z ≤ u64_max) (le_bytes 8)) by apply reads_u64.
  intros bs n rest. unfold read_varint. rewrite reader_bind_Ok. split.
  - intros (f & mid & [Hf ->]%reads_u8 & H).
    destruct (f =? 0xff) eqn:Eff; [|destruct (f =? 0xfe) eqn:Efe; [|destruct (f =? 0xfd) eqn:Efd]];
      bool_props; subst.
    + apply (read_varint_tail _ _ _ _ _ _ _ H8) in H as ([Hn Hlo] & ->).
      split; [done|]. unfold is_u64, u64_max in *.
      destruct (write_varint_cases n) as [[? _]|[[? _]|[[? _]|[_ ->]]]];
        unfold is_u64, u64_max, u16_max, u32_max in *; try lia. by rewrite <- app_assoc.
    + apply (read_varint_tail _ _ _ _ _ _ _ H4) in H as ([Hn Hlo] & ->).
      unfold is_u64, u64_max, u32_max in *. split; [lia|].
      destruct (write_varint_cases n) as [[? _]|[[? _]|[[_ ->]|[? _]]]];
        unfold is_u64, u64_max, u16_max, u32_max in *; try lia. by rewrite <- app_assoc.
    + apply (read_varint_tail _ _ _ _ _ _ _ H2) in H as ([Hn Hlo] & ->).
      unfold is_u64, u64_max, u16_max in *. split; [lia|].
      destruct (write_varint_cases n) as [[? _]|[[_ ->]|[[? _]|[? _]]]];
        unfold is_u64, u64_max, u16_max, u32_max in *; try lia. by rewrite <- app_assoc.
    + apply reader_ret_Ok in H as [-> ->]. unfold is_u8, u8_max, is_u64, u64_max in *.
      split; [lia|]. unfold write_varint. by rewrite (proj2 (Z.ltb_lt _ _)) by lia.
  - intros [Hn ->]. destruct (write_varint_cases n Hn) as [[? ->]|[[? ->]|[[? ->]|[? ->]]]];
      unfold is_u64, u64_max, u16_max, u32_max in *; rewrite <- ?app_assoc.
    + exists n, rest. split; [apply reads_u8; split; [unfold is_u8, u8_max; lia|done]|].
      rewrite !(proj2 (Z.eqb_neq _ _)) by lia. by apply reader_ret_Ok.
    + exists 0xfd, (le_bytes 2 n ++ rest).
      split; [apply reads_u8; split; [unfold is_u8, u8_max; lia|done]|].
      apply (read_varint_tail _ _ _ _ _ _ _ H2). unfold u16_max. split; [lia|done].
    + exists 0xfe, (le_bytes 4 n ++ rest).
      split; [apply reads_u8; split; [unfold is_u8, u8_max; lia|done]|].
      apply (read_varint_tail _ _ _ _ _ _ _ H4). unfold u32_max. split; [lia|done].
    + exists 0xff, (le_bytes 8 n ++ rest).
      split; [apply reads_u8; split; [unfold is_u8, u8_max; lia|done]|].
      apply (read_varint_tail _ _ _ _ _ _ _ H8). unfold u64_max. split; [lia|done].
Qed.

(** Byte strings whose length is a [u64]. *)
Definition is_varbytes (b : bytes) : Prop := Z.of_nat (length b) ≤ u64_max.

Lemma reads_varbytes : reads read_varbytes is_varbytes write_varbytes.
Proof.
  intros bs b rest. unfold read_varbytes, write_varbytes, is_varbytes. rewrite reader_bind_Ok. split.
  - intros (n & mid & [Hn ->]%reads_varint & [HL ->]%reads_bytes).
    unfold is_u64 in Hn. replace (Z.of_nat (length b)) with n by lia.
    split; [lia|]. by rewrite <- app_assoc.
  - intros [HL ->]. exists (Z.of_nat (length b)), (b ++ rest). split.
    + apply reads_varint. rewrite <- app_assoc. split; [unfold is_u64; lia|done].
    + apply reads_bytes. split; [lia|done].
Qed.

Lemma reads_n {A} n (r : reader A) P enc : reads r P enc →
  reads (read_n n r) (λ l, length l = n ∧ Forall P l) (λ l, concat (enc <$> l)).
Proof.
  intros Hr. induction n as [|n IH]; intros bs l rest; cbn [read_n].
  - rewrite reader_ret_Ok. split; [by intros [<- <-]|]. by intros [[->%nil_length_inv _] ->].
  - rewrite reader_bind_Ok. split.
    + intros (x & mid & [Hx ->]%Hr & H). apply reader_bind_Ok in H as (xs & m' & Hxs & Hret).
      apply IH in Hxs as [[HL HF] ->]. apply reader_ret_Ok in Hret as [<- <-].
      cbn. rewrite HL, <- app_assoc. split; [split; [done|by constructor]|done].
    + intros [[HL HF] ->]. destruct l as [|x l]; [done|]. apply Forall_cons in HF as [Hx HF].
      exists x, (concat (enc <$> l) ++ rest). split.
      * apply Hr. cbn. by rewrite <- app_assoc.
      * apply reader_bind_Ok. exists l, rest. split; [|by apply reader_ret_Ok].
        apply IH. cbn in HL. split; [split; [lia|done]|done].
Qed.

(** Read field [g] of a record whose typing invariant is [wf]. *)
Ltac read_field wf g H :=
  eapply (reads_bind _ _ _ _ _ _ g);
  [apply H | intros ? ? | intros ? ?; unfold wf in *; tauto].

(** Close a field-by-field reader at its final [mret]. *)
Ltac read_done wf :=
  apply reads_mret; intros []; unfold wf; cbn;
  split; [intros; destruct_and?; by subst | intros [=]; subst; tauto].

(** CompactSize integers and byte strings are read exactly: reading
    succeeds precisely on the canonical encoding the writer produces (the three
    non-minimal forms are refused), yields the value written, and consumes
    nothing beyond it. *)
Theorem varint_exact bs n rest :
  read_varint bs = Ok (n, rest) ↔ is_u64 n ∧ bs = write_varint n ++ rest.
Proof. apply reads_varint. Qed.
