(* ===== verification/Block.v ===== *)
(** * Block headers, transactions, blocks and merkle roots

    Models [crates/opencsv-cbf/src/block.rs]: the 80-byte header codec, the
    transaction parser (legacy and BIP144), transaction ids, the merkle root,
    the BIP158 element set and the OP_RETURN payload rule. *)

From S2P Require Import Prelude Anchor Wire.

(** ** Headers *)
Record BlockHeader := {
  h_version : Z;
  prev_block : bytes;
  h_merkle_root : bytes;
  h_time : Z;
  bits : Z;
  h_nonce : Z;
}.

#[export] Instance block_header_eq_dec : EqDecision BlockHeader.
Proof. solve_decision. Defined.

Definition read_header : reader BlockHeader :=
  version ← read_i32;
  prev ← read_hash;
  root ← read_hash;
  time ← read_u32;
  bits ← read_u32;
  nonce ← read_u32;
  mret {| h_version := version; prev_block := prev; h_merkle_root := root;
          h_time := time; bits := bits; h_nonce := nonce |}.

(** [BlockHeader::parse] *)
Definition header_parse (bs : bytes) : result Error BlockHeader :=
  '(header, rest) ← read_header bs;
  if bool_decide (rest = []) then Ok header
  else Err (EProtocol "block header longer than 80 bytes").

Definition header_serialize (h : BlockHeader) : bytes :=
  write_i32 (h_version h) ++ prev_block h ++ h_merkle_root h ++
  le_bytes 4 (h_time h) ++ le_bytes 4 (bits h) ++ le_bytes 4 (h_nonce h).

Definition header_hash `{Sha256d} (h : BlockHeader) : bytes := sha256d (header_serialize h).

(** ** Transactions *)
Record OutPoint := { op_txid : bytes; vout : Z }.
Record TxIn := { prev : OutPoint; script_sig : bytes; sequence : Z }.
Record TxOut := { tx_value : Z; script_pubkey : bytes }.
Record Transaction := {
  tx_version : Z;
  inputs : list TxIn;
  outputs : list TxOut;
  lock_time : Z;
  witnesses : list (list bytes);
}.

#[export] Instance outpoint_eq_dec : EqDecision OutPoint.
Proof. solve_decision. Defined.
#[export] Instance txin_eq_dec : EqDecision TxIn.
Proof. solve_decision. Defined.
#[export] Instance txout_eq_dec : EqDecision TxOut.
Proof. solve_decision. Defined.
#[export] Instance transaction_eq_dec : EqDecision Transaction.
Proof. solve_decision. Defined.

Definition read_outpoint : reader OutPoint :=
  txid ← read_hash; vout ← read_u32; mret {| op_txid := txid; vout := vout |}.

Definition read_txin : reader TxIn :=
  prev ← read_outpoint;
  script ← read_varbytes;
  sequence ← read_u32;
  mret {| prev := prev; script_sig := script; sequence := sequence |}.

Definition read_txout : reader TxOut :=
  value ← read_u64;
  script ← read_varbytes;
  mret {| tx_value := value; script_pubkey := script |}.

(** A count bounded by [limit], then that many items. *)
Definition read_vec {A} (limit : Z) (msg : string) (r : reader A) : reader (list A) :=
  count ← read_varint;
  guard_ (negb (count >? limit)) (EProtocol msg);;
  read_n (Z.to_nat count) r.

Definition read_stack : reader (list bytes) :=
  read_vec 1000 "absurd witness item count" read_varbytes.

(** The segwit marker, flag and input count. *)
Definition read_input_count : reader (bool * Z) :=
  first ← read_u8;
  if first =? 0 then
    flag ← read_u8;
    guard_ (flag =? 1) (EProtocol "unsupported segwit flag byte");;
    n ← read_varint;
    mret (true, n)
  else mret (false, first).

Definition read_tx_body (version : Z) (segwit : bool) (input_count : Z)
  : reader Transaction :=
  guard_ (negb (input_count >? 1000000)) (EProtocol "absurd input count");;
  inputs ← read_n (Z.to_nat input_count) read_txin;
  outputs ← read_vec 1000000 "absurd output count" read_txout;
  witnesses ← (if segwit then read_n (Z.to_nat input_count) read_stack else mret []);
  lock_time ← read_u32;
  mret {| tx_version := version; inputs := inputs; outputs := outputs;
          lock_time := lock_time; witnesses := witnesses |}.

(** [Transaction::parse] *)
Definition tx_parse : reader Transaction :=
  version ← read_i32;
  '(segwit, input_count) ← read_input_count;
  read_tx_body version segwit input_count.

Definition outpoint_wire (o : OutPoint) : bytes := op_txid o ++ le_bytes 4 (vout o).
Definition txin_wire (i : TxIn) : bytes :=
  outpoint_wire (prev i) ++ write_varbytes (script_sig i) ++ le_bytes 4 (sequence i).
Definition txout_wire (o : TxOut) : bytes :=
  le_bytes 8 (tx_value o) ++ write_varbytes (script_pubkey o).

Definition serialize_legacy (tx : Transaction) : bytes :=
  write_i32 (tx_version tx) ++
  write_varint (Z.of_nat (length (inputs tx))) ++ concat (txin_wire <$> inputs tx) ++
  write_varint (Z.of_nat (length (outputs tx))) ++ concat (txout_wire <$> outputs tx) ++
  le_bytes 4 (lock_time tx).

(** [Transaction::txid] *)
Definition tx_id `{Sha256d} (tx : Transaction) : bytes := sha256d (serialize_legacy tx).

Definition is_coinbase (tx : Transaction) : bool :=
  match inputs tx with
  | [i] => bool_decide (op_txid (prev i) = zeros 32) && (vout (prev i) =? 0xffffffff)
  | _ => false
  end.

(** ** Merkle roots *)
Section merkle.
Context `{Sha256d}.

Definition merkle_pair (pair : list bytes) : bytes :=
  let left := nth 0 pair [] in
  let right := List.last pair [] in
  sha256d (left ++ right).

Definition merkle_level (level : list bytes) : list bytes := merkle_pair <$> chunks 2 level.

(** [while level.len() > 1]; every pass halves the level, so the length is
    enough fuel ([merkle_fuel_enough]). *)
Fixpoint merkle_loop (fuel : nat) (level : list bytes) : option bytes :=
  match level with
  | [] => None
  | [root] => Some root
  | _ => match fuel with
         | O => None
         | S fuel => merkle_loop fuel (merkle_level level)
         end
  end.

(** [None] is the [assert!] on an empty list. *)
Definition merkle_root (leaves : list bytes) : option bytes :=
  merkle_loop (length leaves) leaves.
End merkle.

(** ** Blocks *)
Record Block := { header : BlockHeader; txs : list Transaction }.

(** [Block::parse] *)
Definition block_parse (bs : bytes) : result Error Block :=
  '(header_bytes, rest) ← read_bytes 80 bs;
  header ← header_parse header_bytes;
  '(txs, rest) ← read_vec 1000000 "absurd transaction count" tx_parse rest;
  if bool_decide (rest = []) then Ok {| header := header; txs := txs |}
  else Err (EProtocol "trailing bytes after block").

Definition compute_merkle_root `{Sha256d} (b : Block) : option bytes :=
  merkle_root (tx_id <$> txs b).

Definition output_elements (tx : Transaction) : list bytes :=
  filter (λ script, script ≠ [] ∧ nth 0 script x00 ≠ x6a) (script_pubkey <$> outputs tx).

(** [prevouts.next()] once per input. *)
Fixpoint take_prevouts (n : nat) (prevouts : list bytes) : option (list bytes * list bytes) :=
  match n, prevouts with
  | O, _ => Some ([], prevouts)
  | S n, [] => None
  | S n, script :: prevouts =>
      '(elements, rest) ← take_prevouts n prevouts;
      Some ((if bool_decide (script = []) then elements else script :: elements), rest)
  end.

Fixpoint filter_elements_from (index : nat) (txs : list Transaction) (prevouts : list bytes)
  : result Error (list bytes) :=
  match txs with
  | [] =>
      match prevouts with
      | [] => Ok []
      | _ => Err (EProtocol "more prevout scripts than block inputs")
      end
  | tx :: txs =>
      '(spent, prevouts) ← ok_or
        (if bool_decide (0 < index)%nat then take_prevouts (length (inputs tx)) prevouts
         else Some ([], prevouts))
        (EProtocol "fewer prevout scripts than block inputs");
      rest ← filter_elements_from (S index) txs prevouts;
      mret (output_elements tx ++ spent ++ rest)
  end.

Definition basic_filter_elements (b : Block) (prevout_scripts : list bytes)
  : result Error (list bytes) :=
  filter_elements_from 0 (txs b) prevout_scripts.

(** ** OP_RETURN payloads *)
Definition anchor_script (record_bytes : bytes) : bytes := x6a :: x40 :: record_bytes.

Definition op_return_payload (script : bytes) : option bytes :=
  match script with
  | x6a :: rest =>
      data ← match rest with
             | x40 :: data => Some data
             | x4c :: x40 :: data => Some data
             | x4d :: x40 :: x00 :: data => Some data
             | _ => None
             end;
      if bool_decide (length data = ANCHOR_SIZE) then Some data else None
  | _ => None
  end.

(** ** Lemmas: exact parsing *)

Definition header_wf (h : BlockHeader) : Prop :=
  is_i32 (h_version h) ∧ length (prev_block h) = 32%nat ∧ length (h_merkle_root h) = 32%nat ∧
  is_u32 (h_time h) ∧ is_u32 (bits h) ∧ is_u32 (h_nonce h).

#[export] Instance header_wf_dec h : Decision (header_wf h).
Proof. unfold header_wf, is_i32, is_u32. apply _. Defined.

Lemma reads_header : reads read_header header_wf header_serialize.
Proof.
  eapply reads_enc.
  - unfold read_header.
    read_field header_wf h_version reads_i32.
    read_field header_wf prev_block reads_hash.
    read_field header_wf h_merkle_root reads_hash.
    read_field header_wf h_time reads_u32.
    read_field header_wf bits reads_u32.
    read_field header_wf h_nonce reads_u32.
    read_done header_wf.
  - intros h. unfold header_serialize. cbn. by rewrite app_nil_r.
Qed.

Lemma length_header_serialize h : header_wf h → length (header_serialize h) = 80%nat.
Proof.
  intros (_ & Hp & Hr & _). unfold header_serialize, write_i32.
  rewrite !length_app, !length_le_bytes. lia.
Qed.

Lemma header_exact bs h : header_parse bs = Ok h ↔ header_wf h ∧ bs = header_serialize h.
Proof.
  unfold header_parse. split.
  - intros Hp. apply bind_Ok in Hp as ([h' rest] & Hr & Hp). case_bool_decide; [|done].
    injection Hp as <-. subst. apply reads_header in Hr as [Hw ->]. by rewrite app_nil_r.
  - intros [Hw ->]. apply bind_Ok. exists (h, []). split; [|done].
    apply reads_header. by rewrite app_nil_r.
Qed.

Definition txin_wf (i : TxIn) : Prop :=
  length (op_txid (prev i)) = 32%nat ∧ is_u32 (vout (prev i)) ∧
  is_varbytes (script_sig i) ∧ is_u32 (sequence i).
Definition outpoint_wf (o : OutPoint) : Prop := length (op_txid o) = 32%nat ∧ is_u32 (vout o).
Definition txout_wf (o : TxOut) : Prop := is_u64 (tx_value o) ∧ is_varbytes (script_pubkey o).

Lemma reads_outpoint : reads read_outpoint outpoint_wf outpoint_wire.
Proof.
  eapply reads_enc.
  - unfold read_outpoint. read_field outpoint_wf op_txid reads_hash.
    read_field outpoint_wf vout reads_u32. read_done outpoint_wf.
  - intros o. unfold outpoint_wire. by rewrite app_nil_r.
Qed.

Lemma reads_txin : reads read_txin txin_wf txin_wire.
Proof.
  eapply reads_enc.
  - unfold read_txin.
    eapply (reads_bind _ _ _ _ _ _ prev); [apply reads_outpoint | intros ? [? ?] |
      intros ? ?; unfold txin_wf, outpoint_wf in *; tauto].
    read_field txin_wf script_sig reads_varbytes.
    read_field txin_wf sequence reads_u32. read_done txin_wf.
  - intros i. unfold txin_wire. by rewrite app_nil_r.
Qed.

Lemma reads_txout : reads read_txout txout_wf txout_wire.
Proof.
  eapply reads_enc.
  - unfold read_txout. read_field txout_wf tx_value reads_u64.
    read_field txout_wf script_pubkey reads_varbytes. read_done txout_wf.
  - intros i. unfold txout_wire. by rewrite app_nil_r.
Qed.

Lemma reads_vec {A} limit msg (r : reader A) P enc : 0 ≤ limit ≤ u64_max → reads r P enc →
  reads (read_vec limit msg r) (λ l, Z.of_nat (length l) ≤ limit ∧ Forall P l)
    (λ l, write_varint (Z.of_nat (length l)) ++ concat (enc <$> l)).
Proof.
  intros Hlim Hr bs l rest. unfold read_vec. rewrite reader_bind_Ok. split.
  - intros (n & mid & [Hn ->]%reads_varint & H). apply reader_bind_Ok in H as (u & m & Hg & H).
    apply guard_Ok in Hg as [Hg <-]. rewrite Z.gtb_ltb in Hg. bool_props.
    apply (reads_n _ _ _ _ Hr) in H as [[HL HF] ->]. unfold is_u64 in Hn.
    replace (Z.of_nat (length l)) with n by lia. by rewrite <- app_assoc.
  - intros [[HL HF] ->]. exists (Z.of_nat (length l)), (concat (enc <$> l) ++ rest). split.
    + apply reads_varint. rewrite <- app_assoc. split; [unfold is_u64; lia|done].
    + apply reader_bind_Ok. exists tt, (concat (enc <$> l) ++ rest). split.
      * apply guard_Ok. split; [|done]. rewrite Z.gtb_ltb. apply negb_true_iff, Z.ltb_ge. lia.
      * apply (reads_n _ _ _ _ Hr). rewrite Nat2Z.id. done.
Qed.

Definition stack_wf (s : list bytes) : Prop :=
  Z.of_nat (length s) ≤ 1000 ∧ Forall is_varbytes s.
Definition stack_wire (s : list bytes) : bytes :=
  write_varint (Z.of_nat (length s)) ++ concat (write_varbytes <$> s).

Lemma reads_stack : reads read_stack stack_wf stack_wire.
Proof. apply reads_vec, reads_varbytes. unfold u64_max. lia. Qed.

(** The two encodings a transaction can be read from: the parser takes the
    input count of a legacy transaction from a single byte. *)
Definition tx_wire (segwit : bool) (tx : Transaction) : bytes :=
  let n := Z.of_nat (length (inputs tx)) in
  write_i32 (tx_version tx) ++
  (if segwit then le_bytes 1 0 ++ le_bytes 1 1 ++ write_varint n else le_bytes 1 n) ++
  concat (txin_wire <$> inputs tx) ++
  (write_varint (Z.of_nat (length (outputs tx))) ++ concat (txout_wire <$> outputs tx)) ++
  (if segwit then concat (stack_wire <$> witnesses tx) else []) ++
  le_bytes 4 (lock_time tx).

Definition tx_wf (segwit : bool) (tx : Transaction) : Prop :=
  is_i32 (tx_version tx) ∧ Forall txin_wf (inputs tx) ∧
  (Z.of_nat (length (outputs tx)) ≤ 1000000 ∧ Forall txout_wf (outputs tx)) ∧
  is_u32 (lock_time tx) ∧
  if segwit
  then Z.of_nat (length (inputs tx)) ≤ 1000000 ∧
       length (witnesses tx) = length (inputs tx) ∧ Forall stack_wf (witnesses tx)
  else (1 ≤ length (inputs tx) ≤ 255)%nat ∧ witnesses tx = [].

Lemma reads_input_count bs s n rest : read_input_count bs = Ok ((s, n), rest) ↔
  (if s then is_u64 n else 1 ≤ n ≤ 255) ∧
  bs = (if s then le_bytes 1 0 ++ le_bytes 1 1 ++ write_varint n else le_bytes 1 n) ++ rest.
Proof.
  unfold read_input_count. rewrite reader_bind_Ok. split.
  - intros (f & m & [Hf ->]%reads_u8 & H). destruct (f =? 0) eqn:E; bool_props; subst.
    + apply reader_bind_Ok in H as (g & m1 & [_ ->]%reads_u8 & H).
      apply reader_bind_Ok in H as (u & m2 & [Hg ->]%guard_Ok & H). bool_props; subst.
      apply reader_bind_Ok in H as (k & m3 & [Hk ->]%reads_varint & H).
      apply reader_ret_Ok in H as [[= <- <-] <-]. by rewrite <- !app_assoc.
    + apply reader_ret_Ok in H as [[= <- <-] <-]. unfold is_u8, u8_max in Hf. split; [lia|done].
  - intros [Hn ->]. destruct s; rewrite <- ?app_assoc.
    + exists 0, (le_bytes 1 1 ++ write_varint n ++ rest). split.
      { apply reads_u8. split; [unfold is_u8, u8_max; lia|done]. }
      cbn [Z.eqb]. apply reader_bind_Ok. exists 1, (write_varint n ++ rest). split.
      { apply reads_u8. split; [unfold is_u8, u8_max; lia|done]. }
      apply reader_bind_Ok. exists tt, (write_varint n ++ rest). split; [by apply guard_Ok|].
      apply reader_bind_Ok. exists n, rest. split; [by apply reads_varint|by apply reader_ret_Ok].
    + exists n, rest. split.
      { apply reads_u8. split; [unfold is_u8, u8_max; lia|done]. }
      rewrite (proj2 (Z.eqb_neq _ _)) by lia. by apply reader_ret_Ok.
Qed.

Lemma reads_tx_body v s n : 0 ≤ n → reads (read_tx_body v s n)
  (λ tx, n ≤ 1000000 ∧ tx_version tx = v ∧ Z.of_nat (length (inputs tx)) = n ∧
     Forall txin_wf (inputs tx) ∧
     (Z.of_nat (length (outputs tx)) ≤ 1000000 ∧ Forall txout_wf (outputs tx)) ∧
     is_u32 (lock_time tx) ∧
     if s then length (witnesses tx) = length (inputs tx) ∧ Forall stack_wf (witnesses tx)
     else witnesses tx = [])
  (λ tx, concat (txin_wire <$> inputs tx) ++
     (write_varint (Z.of_nat (length (outputs tx))) ++ concat (txout_wire <$> outputs tx)) ++
     (if s then concat (stack_wire <$> witnesses tx) else []) ++ le_bytes 4 (lock_time tx)).
Proof.
  intros Hn0 bs tx rest. unfold read_tx_body.
  assert (Hout : 0 ≤ 1000000 ≤ u64_max) by (unfold u64_max; lia).
  pose proof (reads_vec 1000000 "absurd output count" _ _ _ Hout reads_txout) as HO.
  pose proof (reads_n (Z.to_nat n) _ _ _ reads_txin) as HI.
  pose proof (reads_n (Z.to_nat n) _ _ _ reads_stack) as HS.
  rewrite reader_bind_Ok. split.
  - intros (u & m & [Hg <-]%guard_Ok & H). rewrite Z.gtb_ltb in Hg. bool_props.
    apply reader_bind_Ok in H as (ins & m1 & [[HL1 HF1] ->]%HI & H).
    apply reader_bind_Ok in H as (outs & m2 & [[HL2 HF2] ->]%HO & H).
    apply reader_bind_Ok in H as (ws & m3 & Hw & H).
    apply reader_bind_Ok in H as (lt & m4 & [Hlt ->]%reads_u32 & H).
    apply reader_ret_Ok in H as [<- <-]. cbn.
    destruct s.
    + apply HS in Hw as [[HL3 HF3] ->]. rewrite <- !app_assoc. split; [|done].
      split_and!; try done; lia.
    + apply reader_ret_Ok in Hw as [<- ->]. rewrite <- !app_assoc. cbn.
      split; [|done]. split_and!; try done; lia.
  - intros [(Hn & <- & HL & HF & HFo & Hlt & Hw) ->]. eexists tt, _. split.
    { apply guard_Ok. split; [|done]. rewrite Z.gtb_ltb. apply negb_true_iff, Z.ltb_ge. lia. }
    rewrite <- !app_assoc. apply reader_bind_Ok. eexists (inputs tx), _. split.
    { apply HI. split; [|done]. split; [lia|done]. }
    apply reader_bind_Ok. eexists (outputs tx), _. split.
    { apply HO. rewrite <- !app_assoc. done. }
    apply reader_bind_Ok. exists (witnesses tx), (le_bytes 4 (lock_time tx) ++ rest). split.
    { destruct s; [|by apply reader_ret_Ok; rewrite Hw]. apply HS. split; [|done].
      destruct Hw. split; [lia|done]. }
    apply reader_bind_Ok. exists (lock_time tx), rest. split; [by apply reads_u32|].
    apply reader_ret_Ok. by destruct tx.
Qed.

Lemma tx_parse_wire bs tx rest :
  tx_parse bs = Ok (tx, rest) ↔ ∃ s, tx_wf s tx ∧ bs = tx_wire s tx ++ rest.
Proof.
  unfold tx_parse. rewrite reader_bind_Ok. split.
  - intros (v & m & [Hv ->]%reads_i32 & H).
    apply reader_bind_Ok in H as ([s n] & m1 & [Hn ->]%reads_input_count & H).
    exists s. assert (Hn0 : 0 ≤ n) by (destruct s; unfold is_u64 in *; lia).
    apply (reads_tx_body v s n Hn0) in H as [(Hmax & <- & <- & HF & [HO1 HO2] & Hlt & Hw) ->].
    unfold tx_wf, tx_wire. rewrite <- !app_assoc.
    split; [|done]. split; [done|]. split; [done|]. split; [done|]. split; [done|].
    destruct s; [by split|]. split; [lia|done].
  - intros (s & (Hv & HF & [HO1 HO2] & Hlt & Hs) & ->). unfold tx_wire. rewrite <- !app_assoc.
    eexists (tx_version tx), _. split; [by apply reads_i32|].
    apply reader_bind_Ok. eexists (s, Z.of_nat (length (inputs tx))), _. split.
    { apply reads_input_count. split; [|done].
      destruct s; unfold is_u64, u64_max; lia. }
    apply reads_tx_body; [lia|]. rewrite <- !app_assoc. split; [|done].
    split_and!; try done; destruct s; destruct_and?; try done; lia.
Qed.

Lemma legacy_wire_small tx : (length (inputs tx) < 253)%nat →
  tx_wire false tx = serialize_legacy tx.
Proof.
  intros HL. unfold tx_wire, serialize_legacy, write_varint at 2.
  rewrite (proj2 (Z.ltb_lt _ _)) by lia. by rewrite <- !app_assoc.
Qed.

(** The transaction parser is exact: it succeeds precisely on the legacy
    encoding (whose input count it reads from one byte) or the BIP144 encoding of
    a well-typed transaction, returns that transaction and stops where it ends;
    below 253 inputs the legacy encoding is the serialization ids commit to. *)
Theorem tx_parse_exact bs tx rest :
  (tx_parse bs = Ok (tx, rest) ↔ ∃ s, tx_wf s tx ∧ bs = tx_wire s tx ++ rest) ∧
  ((length (inputs tx) < 253)%nat → tx_wire false tx = serialize_legacy tx).
Proof. split; [apply tx_parse_wire | apply legacy_wire_small]. Qed.

(** The header codec is exact: a byte string parses as a header precisely
    when it is the 80-byte serialization of that well-typed header, so parsing
    and serializing are inverse to each other and nothing is tolerated after the
    header. *)
Theorem header_parse_exact bs h :
  (header_parse bs = Ok h ↔ header_wf h ∧ bs = header_serialize h) ∧
  (header_wf h → length (header_serialize h) = 80%nat).
Proof.
  split; [apply header_exact|apply length_header_serialize].
Qed.

(** The marker a parsed transaction had. *)
Definition tx_segwit (tx : Transaction) : bool :=
  bool_decide (witnesses tx ≠ []) || bool_decide (inputs tx = []).

Lemma tx_wf_segwit s tx : tx_wf s tx → s = tx_segwit tx.
Proof.
  intros (_ & _ & _ & _ & Hs). unfold tx_segwit. destruct s.
  - destruct Hs as (_ & HL & _). destruct (witnesses tx), (inputs tx); done.
  - destruct Hs as (HL & ->). destruct (inputs tx); [cbn in HL; lia|done].
Qed.

Lemma reads_tx : reads tx_parse (λ tx, tx_wf (tx_segwit tx) tx) (λ tx, tx_wire (tx_segwit tx) tx).
Proof.
  intros bs tx rest. rewrite tx_parse_wire. split.
  - intros (s & Hw & ->). by rewrite <- (tx_wf_segwit s tx Hw).
  - intros [Hw ->]. eauto.
Qed.


(** A legacy transaction with 256 inputs or more never parses back from its
    own serialization: its CompactSize count starts with a byte that the parser
    takes for the whole count. *)
Theorem legacy_many_inputs_misread tx rest rest' :
  (256 ≤ length (inputs tx))%nat →
  tx_parse (serialize_legacy tx ++ rest) ≠ Ok (tx, rest').
Proof.
  intros HL. rewrite tx_parse_wire. intros ([|] & Hw & E).
  - unfold serialize_legacy, tx_wire in E. rewrite <- !app_assoc in E.
    apply app_inj_1 in E as [_ E]; [|done]. unfold write_varint in E at 1.
    rewrite (proj2 (Z.ltb_ge _ _)) in E by lia.
    destruct (_ <=? _); [|destruct (_ <=? _)]; discriminate E.
  - destruct Hw as (_ & _ & _ & _ & Hin & _). lia.
Qed.

Lemma legacy_many_inputs_misread_witness :
  let i := {| prev := {| op_txid := zeros 32; vout := 0 |}; script_sig := []; sequence := 0 |} in
  let tx := {| tx_version := 1; inputs := replicate 300 i; outputs := []; lock_time := 0;
               witnesses := [] |} in
  tx_parse (serialize_legacy tx ++ []) ≠ Ok (tx, []).
Proof.
  intros i tx. apply (legacy_many_inputs_misread tx [] []).
  apply (bool_decide_unpack _). vm_compute. exact I.
Defined.

(** ** Merkle roots *)
Section merkle_lemmas.
Context `{Sha256d}.

(** The inputs of one level's hashes. *)
Fixpoint level_inputs (l : list bytes) : list bytes :=
  match l with
  | [] => []
  | [x] => [x ++ x]
  | x :: y :: l => (x ++ y) :: level_inputs l
  end.

Lemma two_step_ind {A} (P : list A → Prop) :
  P [] → (∀ x, P [x]) → (∀ x y l, P l → P (x :: y :: l)) → ∀ l, P l.
Proof.
  intros H0 H1 H2 l. enough (P l ∧ ∀ x, P (x :: l)) by tauto.
  induction l as [|y l [IH1 IH2]]; auto.
Qed.

Lemma merkle_level_inputs l : merkle_level l = sha256d <$> level_inputs l.
Proof.
  unfold merkle_level. induction l as [|x|x y l IH] using two_step_ind; [done|done|].
  rewrite chunks_cons; [|lia|done]. cbn [firstn skipn]. rewrite fmap_cons, drop_0, IH. done.
Qed.

Lemma length_level_inputs l : length (level_inputs l) = Nat.div2 (S (length l)).
Proof. induction l as [|x|x y l IH] using two_step_ind; [done|done|]. cbn. by rewrite IH. Qed.

Lemma length_merkle_level l : length (merkle_level l) = Nat.div2 (S (length l)).
Proof. by rewrite merkle_level_inputs, length_fmap, length_level_inputs. Qed.

Lemma merkle_loop_step fuel l : (2 ≤ length l)%nat →
  merkle_loop (S fuel) l = merkle_loop fuel (merkle_level l).
Proof. destruct l as [|x [|y l]]; cbn [length]; [lia|lia|done]. Qed.

Lemma div2_shrinks n : (2 ≤ n)%nat → (1 ≤ Nat.div2 (S n) ∧ Nat.div2 (S n) < n)%nat.
Proof.
  intros Hn. pose proof (Nat.div2_odd (S n)) as HO.
  destruct (Nat.odd (S n)); cbn [Nat.b2n] in HO; lia.
Qed.

Lemma merkle_fuel_enough fuel l : l ≠ [] → (length l ≤ fuel)%nat →
  ∃ root, merkle_loop fuel l = Some root.
Proof.
  revert l; induction fuel as [|fuel IH]; intros l Hne HL.
  { by destruct l; [|cbn in HL; lia]. }
  destruct (Nat.le_gt_cases 2 (length l)) as [H2|H1].
  - rewrite merkle_loop_step by done. pose proof (div2_shrinks _ H2) as [Hpos Hlt].
    rewrite <- length_merkle_level in Hpos, Hlt. apply IH; [|lia].
    intros E. rewrite E in Hpos. cbn in Hpos. lia.
  - destruct l as [|x [|y l]]; [done|by exists x|cbn in H1; lia].
Qed.

(** Every input hashed while computing a root. *)
Fixpoint merkle_inputs (fuel : nat) (level : list bytes) : list bytes :=
  match fuel, level with
  | S fuel, _ :: _ :: _ => level_inputs level ++ merkle_inputs fuel (merkle_level level)
  | _, _ => []
  end.

Definition collide_within (xs ys : list bytes) : Prop :=
  ∃ x y, x ∈ xs ∧ y ∈ ys ∧ x ≠ y ∧ sha256d x = sha256d y.

Lemma hashes_inj xs ys : sha256d <$> xs = sha256d <$> ys → xs = ys ∨ collide_within xs ys.
Proof.
  revert ys; induction xs as [|x xs IH]; intros [|y ys] E; try done; [by left|].
  cbn in E. injection E as E1 E2. destruct (decide (x = y)) as [->|Hne].
  - destruct (IH ys E2) as [->|(a & b & Ha & Hb & Hab)]; [by left|].
    right. exists a, b. set_solver.
  - right. exists x, y. set_solver.
Qed.

Lemma level_inputs_inj l k : length l = length k →
  Forall (λ x, length x = 32%nat) l → Forall (λ x, length x = 32%nat) k →
  level_inputs l = level_inputs k → l = k.
Proof.
  revert k; induction l as [|x|x y l IH] using two_step_ind; intros k HL Hl Hk E.
  - by destruct k.
  - destruct k as [|x' [|]]; try done. apply Forall_cons in Hl as [Hx _], Hk as [Hx' _].
    cbn in E. injection E as E. apply app_inj_1 in E as [-> _]; [done|congruence].
  - destruct k as [|x' [|y' k]]; try done.
    apply Forall_cons in Hl as [Hx [Hy Hl]%Forall_cons], Hk as [Hx' [Hy' Hk]%Forall_cons].
    cbn in E, HL. injection E as E1 E2. apply app_inj_1 in E1 as [-> ->]; [|congruence].
    f_equal. f_equal. apply IH; [lia|done..].
Qed.

Lemma merkle_level_hashes `{!Sha256dLaws H} l : Forall (λ x, length x = 32%nat) (merkle_level l).
Proof. rewrite merkle_level_inputs. apply Forall_fmap, Forall_true. intros x. apply length_sha256d. Qed.

Lemma merkle_loop_inj `{!Sha256dLaws H} fuel l k root :
  length l = length k →
  Forall (λ x, length x = 32%nat) l → Forall (λ x, length x = 32%nat) k →
  merkle_loop fuel l = Some root → merkle_loop fuel k = Some root →
  l = k ∨ collide_within (merkle_inputs fuel l) (merkle_inputs fuel k).
Proof.
  revert l k; induction fuel as [|fuel IH]; intros l k HL Hl Hk E1 E2.
  { left. destruct l as [|x [|]], k as [|y [|]]; cbn in *; simplify_eq; try done. }
  destruct (Nat.le_gt_cases 2 (length l)) as [H2|H1].
  - rewrite merkle_loop_step in E1, E2 by lia.
    destruct (IH (merkle_level l) (merkle_level k)) as [E|(x & y & Hx & Hy & Hxy)];
      [by rewrite !length_merkle_level, HL|apply merkle_level_hashes..|done|done| |].
    + rewrite !merkle_level_inputs in E. apply hashes_inj in E as [E|(x & y & Hx & Hy & Hxy)].
      * left. by apply level_inputs_inj.
      * right. exists x, y. destruct l as [|? [|]], k as [|? [|]]; cbn in H2, HL; try lia.
        cbn [merkle_inputs]. rewrite !elem_of_app. auto.
    + right. exists x, y. destruct l as [|? [|]], k as [|? [|]]; cbn in H2, HL; try lia.
      cbn [merkle_inputs]. rewrite !elem_of_app. auto.
  - left. destruct l as [|x [|]], k as [|y [|]]; cbn in *; simplify_eq; try done; lia.
Qed.
End merkle_lemmas.

(** A merkle root identifies the transactions it was computed from: the
    halving loop always terminates with a root, and two lists of 32-byte ids of
    the same length with the same root are the same list, or two different
    inputs hashed in the two computations collide. The number of transactions is
    not identified: duplicating the last of three leaves the root unchanged, so a
    matching root alone does not show that a list is the one that was mined. *)
Theorem merkle_root_binds `{Sha256dLaws} l k root :
  length l = length k →
  Forall (λ x, length x = 32%nat) l → Forall (λ x, length x = 32%nat) k →
  (l ≠ [] → ∃ r, merkle_root l = Some r) ∧
  (merkle_root l = Some root → merkle_root k = Some root →
   l = k ∨ collide_within (merkle_inputs (length l) l) (merkle_inputs (length k) k)) ∧
  (∀ a b c, merkle_root [a; b; c] = merkle_root [a; b; c; c]).
Proof.
  intros HL Hl Hk. split; [intros; by apply merkle_fuel_enough|]. split; [|done].
  unfold merkle_root. rewrite <- HL. intros. eapply merkle_loop_inj; eauto.
Qed.

Definition demo_sha : Sha256d := λ x,
  le_bytes 32 (foldl (λ acc b, (acc * 257 + bval b + 1) mod (2 ^ 256 - 189)) 5 x).

Lemma demo_sha_laws : Sha256dLaws demo_sha.
Proof. split. intros x. apply length_le_bytes. Qed.

Lemma merkle_root_binds_witness :
  ∃ r, merkle_root (H := demo_sha) [zeros 32; replicate 32 x01; replicate 32 x02] = Some r.
Proof.
  refine (proj1 (@merkle_root_binds demo_sha demo_sha_laws
    [zeros 32; replicate 32 x01; replicate 32 x02]
    [zeros 32; replicate 32 x01; replicate 32 x02] [] eq_refl _ _) _).
  - repeat constructor.
  - repeat constructor.
  - discriminate.
Defined.

(** The OP_RETURN rule finds exactly the anchor payloads: a script yields a
    payload precisely when it is OP_RETURN followed by one direct, PUSHDATA1 or
    PUSHDATA2 push of exactly 64 bytes and nothing else; the canonical anchor
    script of any record is one of them. *)
Theorem op_return_payload_exact script data :
  op_return_payload script = Some data ↔
  length data = ANCHOR_SIZE ∧
  (script = anchor_script data ∨ script = x6a :: x4c :: x40 :: data ∨
   script = x6a :: x4d :: x40 :: x00 :: data).
Proof.
  unfold op_return_payload, anchor_script. split.
  - intros E. repeat (case_match; try discriminate); cbn in *; simplify_option_eq;
      try (case_bool_decide; simplify_eq); auto.
  - intros [HL [-> | [-> | ->]]]; cbn; by rewrite bool_decide_eq_true_2.
Qed.
