(* ===== verification/Network.v ===== *)
(** * Consensus parameters and proof-of-work validation

    Models [crates/opencsv-cbf/src/network.rs]: 256-bit arithmetic on four
    64-bit limbs, the compact target encoding, block work, the retargeting rule
    and the validation of one header. *)

From S2P Require Import Prelude Wire Block.

(** ** 256-bit integers: four little-endian [u64] limbs *)
Abbreviation U256 := (list Z).
Definition limb : Z := 2 ^ 64.

Fixpoint limbs_val (l : list Z) : Z :=
  match l with [] => 0 | x :: l => x + limb * limbs_val l end.

Definition limbs_ok (l : list Z) : Prop := Forall (λ x, 0 ≤ x < limb) l.
Definition u256_ok (l : U256) : Prop := length l = 4%nat ∧ limbs_ok l.

#[export] Instance u256_ok_dec l : Decision (u256_ok l).
Proof. unfold u256_ok, limbs_ok. apply _. Defined.

(** [for i in (0..4).rev()] *)
Fixpoint ge_from_top (a b : list Z) : bool :=
  match a, b with
  | x :: a, y :: b => if negb (x =? y) then x >? y else ge_from_top a b
  | _, _ => true
  end.
Definition u256_ge (a b : U256) : bool := ge_from_top (reverse a) (reverse b).

Definition u256_is_zero (a : U256) : bool := forallb (λ l, l =? 0) a.

Definition u256_from_hash (hash : bytes) : U256 :=
  (λ i, le_val (slice (i * 8) (i * 8 + 8) hash)) <$> seq 0 4.

Fixpoint mul_loop (a : list Z) (b carry : Z) : list Z :=
  match a with
  | [] => [carry mod limb]
  | x :: a => let acc := x * b + carry in acc mod limb :: mul_loop a b (Z.shiftr acc 64)
  end.
Definition u256_mul_u64 (a : U256) (b : Z) : list Z := mul_loop a b 0 ++ [0; 0; 0].

(** Quotient limbs from the top one down. *)
Fixpoint div_loop (a_from_top : list Z) (b rem : Z) : list Z :=
  match a_from_top with
  | [] => []
  | x :: a => let cur := Z.lor (Z.shiftl rem 64) x in
              (cur / b) mod limb :: div_loop a b (cur mod b)
  end.
Definition u512_div_u64 (a : list Z) (b : Z) : U256 :=
  take 4 (reverse (div_loop (reverse a) b 0)).

Fixpoint u256_add_one (a : U256) : U256 :=
  match a with
  | [] => []
  | x :: a => if x + 1 =? limb then 0 :: u256_add_one a else (x + 1) :: a
  end.

Fixpoint sub_loop (a b : list Z) (borrow : bool) : list Z :=
  match a, b with
  | x :: a, y :: b =>
      let v1 := (x - y) mod limb in let b1 := x <? y in
      let v2 := (v1 - Z.b2z borrow) mod limb in let b2 := v1 <? Z.b2z borrow in
      v2 :: sub_loop a b (b1 || b2)
  | _, _ => []
  end.
Definition u256_sub (a b : U256) : U256 := sub_loop a b false.

(** ** Compact targets *)

(** [out[pos / 8] |= byte << (8 * (pos % 8))] *)
Definition place_byte (out : U256) (pos : nat) (byte : Z) : U256 :=
  alter (λ l, Z.lor l (Z.shiftl byte (8 * Z.of_nat (pos mod 8)))) (pos / 8)%nat out.

Definition compact_size (bits : Z) : Z := Z.shiftr bits 24.
Definition compact_mantissa (bits : Z) : Z := Z.land bits 0x007fffff.

Fixpoint place_mantissa (idx : list nat) (byte_offset : nat) (mantissa : Z) (out : U256) : U256 :=
  match idx with
  | [] => out
  | i :: idx =>
      let byte := Z.land (Z.shiftr mantissa (8 * Z.of_nat i)) 0xff in
      let pos := (byte_offset + i)%nat in
      place_mantissa idx byte_offset mantissa
        (if bool_decide (pos < 32)%nat then place_byte out pos byte else out)
  end.

Definition from_compact (bits : Z) : option U256 :=
  let size := compact_size bits in
  let mantissa := compact_mantissa bits in
  let out :=
    if size <=? 3 then [Z.shiftr mantissa (8 * (3 - size)); 0; 0; 0]
    else place_mantissa [0; 1; 2]%nat (Z.to_nat (size - 3)) mantissa [0; 0; 0; 0] in
  if negb (mantissa =? 0) &&
     ((size >? 34) || ((mantissa >? 0xff) && (size >? 33)) || ((mantissa >? 0xffff) && (size >? 32)))
  then None
  else if negb (Z.land bits 0x00800000 =? 0) then None
  else Some out.

Definition u256_bytes (target : U256) : bytes := concat (le_bytes 8 <$> target).

(** [while size > 1 && bytes[size - 1] == 0 { size -= 1 }] *)
Fixpoint trim_size (size : nat) (bs : bytes) : nat :=
  match size with
  | O => O
  | S n => if bool_decide (1 < size)%nat && bool_decide (nth n bs x00 = x00)
           then trim_size n bs else size
  end.

Definition byte_at (bs : bytes) (i : nat) : Z := bval (nth i bs x00).

Definition to_compact (target : U256) : Z :=
  let bs := u256_bytes target in
  let size := trim_size 32 bs in
  let compact :=
    if bool_decide (size ≤ 3)%nat then
      Z.shiftl (foldl (λ w i, Z.lor w (Z.shiftl (byte_at bs i) (8 * Z.of_nat i))) 0
                      (seq 0 size)) (8 * (3 - Z.of_nat size))
    else Z.lor (Z.lor (Z.shiftl (byte_at bs (size - 1)) 16)
                      (Z.shiftl (byte_at bs (size - 2)) 8)) (byte_at bs (size - 3)) in
  let '(compact, size) :=
    if negb (Z.land compact 0x00800000 =? 0)
    then (Z.shiftr compact 8, Z.of_nat size + 1) else (compact, Z.of_nat size) in
  Z.lor (Z.shiftl size 24 mod 2 ^ 32) compact.

(** ** Work *)

(** [rem = (rem << 1) | carry], limb by limb. *)
Fixpoint shl1 (carry : Z) (l : list Z) : list Z :=
  match l with
  | [] => []
  | x :: l => Z.lor (Z.shiftl x 1 mod limb) carry :: shl1 (Z.shiftr x 63) l
  end.

Definition numerator_bit (numerator : U256) (i : nat) : Z :=
  Z.land (Z.shiftr (nth (i / 64) numerator 0) (Z.of_nat (i mod 64))) 1.

Definition work_step (numerator denominator : U256) (i : nat) (st : U256 * Z) : U256 * Z :=
  let '(rem, quotient) := st in
  let top := Z.shiftr (nth 3 rem 0) 63 in
  let rem := alter (λ l, Z.lor l (numerator_bit numerator i)) 0%nat (shl1 0 rem) in
  if (top =? 1) || u256_ge rem denominator
  then (u256_sub rem denominator,
        if bool_decide (i < 128)%nat then Z.lor quotient (Z.shiftl 1 (Z.of_nat i)) else quotient)
  else (rem, quotient).

(** The steps for [i] from [n - 1] down to 0. *)
Fixpoint work_loop (n : nat) (numerator denominator : U256) (st : U256 * Z) : U256 * Z :=
  match n with
  | O => st
  | S i => work_loop i numerator denominator (work_step numerator denominator i st)
  end.

(** The [u128] result; [quotient + 1] stays in range for targets of 128 bits or
    more ([work_from_target_exact]). *)
Definition work_from_target (target : U256) : Z :=
  let denominator := u256_add_one target in
  let numerator := (λ l, limb - 1 - l) <$> target in
  (work_loop 256 numerator denominator ([0; 0; 0; 0], 0)).2 + 1.

(** ** Parameters *)
Inductive Network := Mainnet | Signet | Regtest.

#[export] Instance network_eq_dec : EqDecision Network.
Proof. solve_decision. Defined.

Record Params := {
  network : Network;
  magic : Z;
  default_port : Z;
  genesis_hash : bytes;
  pow_limit : U256;
  pow_limit_bits : Z;
  pow_target_spacing : Z;
  pow_target_timespan : Z;
  allow_min_difficulty : bool;
  no_retargeting : bool;
}.

Definition RETARGET_INTERVAL : nat := 2016.

Definition compact_or_zero (b : Z) : U256 := default [0; 0; 0; 0] (from_compact b).

(** [hash_from_display(..)] of the constants, as numbers in display order. *)
Definition hash_of_display (n : Z) : bytes := le_bytes 32 n.

Definition params (n : Network) : Params :=
  match n with
  | Mainnet => {|
      network := n; magic := 0xd9b4bef9; default_port := 8333;
      genesis_hash := hash_of_display
        0x000000000019d6689c085ae165831e934ff763ae46a2a6c172b3f1b60a8ce26f;
      pow_limit := compact_or_zero 0x1d00ffff; pow_limit_bits := 0x1d00ffff;
      pow_target_spacing := 600; pow_target_timespan := 14 * 24 * 60 * 60;
      allow_min_difficulty := false; no_retargeting := false |}
  | Signet => {|
      network := n; magic := 0x40cf030a; default_port := 38333;
      genesis_hash := hash_of_display
        0x00000008819873e925422c1ff0f99f7cc9bbb232af63a077a480a3633bee1ef6;
      pow_limit := compact_or_zero 0x1e0377ae; pow_limit_bits := 0x1e0377ae;
      pow_target_spacing := 600; pow_target_timespan := 14 * 24 * 60 * 60;
      allow_min_difficulty := false; no_retargeting := false |}
  | Regtest => {|
      network := n; magic := 0xdab5bffa; default_port := 18444;
      genesis_hash := hash_of_display
        0x0f9188f13cb7b2c71f2a335e3a4fc328bf5beb436012afca590b1a11466e2206;
      pow_limit := compact_or_zero 0x207fffff; pow_limit_bits := 0x207fffff;
      pow_target_spacing := 600; pow_target_timespan := 14 * 24 * 60 * 60;
      allow_min_difficulty := true; no_retargeting := true |}
  end.

(** ** Header validation *)
Definition no_header : BlockHeader :=
  {| h_version := 0; prev_block := []; h_merkle_root := []; h_time := 0; bits := 0; h_nonce := 0 |}.

(** [headers[i]]; the callers keep the index in range. *)
Definition header_at (headers : list BlockHeader) (i : nat) : BlockHeader :=
  nth i headers no_header.

Definition median_time_past (headers : list BlockHeader) (height : nat) : Z :=
  let start := (height - 11)%nat in
  let times := merge_sort Z.le (h_time <$> slice start height headers) in
  nth (length times / 2) times 0.

(** [None] is the source's [unreachable!] or [expect] panic. *)
Definition next_work_required (p : Params) (headers : list BlockHeader) (height : nat)
  : option Z :=
  let prev := header_at headers (height - 1) in
  if no_retargeting p then Some (bits prev)
  else if negb (bool_decide (height mod RETARGET_INTERVAL = 0)%nat) then
    if allow_min_difficulty p then None else Some (bits prev)
  else
    let first := header_at headers (height - RETARGET_INTERVAL) in
    let timespan := pow_target_timespan p in
    let actual := Z.min (Z.max (h_time prev - h_time first) (timespan / 4)) (timespan * 4) in
    prev_target ← from_compact (bits prev);
    let product := u256_mul_u64 prev_target actual in
    let new_target := u512_div_u64 product timespan in
    let clamped := if u256_ge new_target (pow_limit p) then pow_limit p else new_target in
    Some (to_compact clamped).

(** [while h % 2016 != 0 && headers[h].bits == pow_limit_bits { h -= 1 }] *)
Fixpoint last_real_difficulty (h : nat) (p : Params) (headers : list BlockHeader) : nat :=
  match h with
  | O => O
  | S n => if negb (bool_decide (h mod RETARGET_INTERVAL = 0)%nat) &&
              (bits (header_at headers h) =? pow_limit_bits p)
           then last_real_difficulty n p headers else h
  end.

Definition required_bits (p : Params) (headers : list BlockHeader) (height : nat)
    (header : BlockHeader) : option Z :=
  let prev := header_at headers (height - 1) in
  if no_retargeting p then Some (bits prev)
  else if negb (bool_decide (height mod RETARGET_INTERVAL = 0)%nat) then
    if allow_min_difficulty p then
      if h_time header >? (h_time prev + 2 * pow_target_spacing p) mod 2 ^ 32
      then Some (pow_limit_bits p)
      else Some (bits (header_at headers (last_real_difficulty (height - 1) p headers)))
    else Some (bits prev)
  else next_work_required p headers height.

Definition validate_header `{Sha256d} (p : Params) (headers : list BlockHeader) (height : nat)
    (header : BlockHeader) : result Error Z :=
  ensure (bool_decide (prev_block header = header_hash (header_at headers (height - 1))))
    (EConsensus "previous-block linkage broken");;
  required ← ok_or (required_bits p headers height header) (EConsensus "unreachable");
  ensure (bits header =? required) (EConsensus "bits, required");;
  target ← ok_or (from_compact (bits header)) (EConsensus "invalid compact target");
  ensure (negb (u256_is_zero target ||
                (u256_ge target (pow_limit p) && negb (bool_decide (target = pow_limit p)))))
    (EConsensus "target out of range");;
  ensure (u256_ge target (u256_from_hash (header_hash header)))
    (EConsensus "hash does not meet target");;
  ensure (negb (h_time header <=? median_time_past headers height))
    (EConsensus "timestamp not after median-time-past");;
  Ok (work_from_target target).

(** ** Lemmas: limb arithmetic *)

Lemma limb_pos : 0 < limb.
Proof. done. Qed.

#[export] Hint Resolve limb_pos : csv.

Lemma limbs_val_app a b :
  limbs_val (a ++ b) = limbs_val a + limb ^ Z.of_nat (length a) * limbs_val b.
Proof.
  induction a as [|x a IH]; [cbn; lia|].
  cbn [app limbs_val length]. rewrite Nat2Z.inj_succ, Z.pow_succ_r, IH by lia. lia.
Qed.

Lemma limbs_val_bound l : limbs_ok l → 0 ≤ limbs_val l < limb ^ Z.of_nat (length l).
Proof.
  unfold limbs_ok. induction 1 as [|x l Hx HF IH]; [done|].
  cbn [limbs_val length]. rewrite Nat2Z.inj_succ, Z.pow_succ_r by lia. nia.
Qed.

Lemma u256_val_bound a : u256_ok a → 0 ≤ limbs_val a < 2 ^ 256.
Proof.
  intros [HL HF]. pose proof (limbs_val_bound a HF) as H. rewrite HL in H.
  change (limb ^ Z.of_nat 4) with (2 ^ 256) in H. done.
Qed.

Lemma limbs_val_inj a b : length a = length b → limbs_ok a → limbs_ok b →
  limbs_val a = limbs_val b → a = b.
Proof.
  revert b; induction a as [|x a IH]; intros [|y b] HL Ha Hb E; try done.
  apply Forall_cons in Ha as [Hx Ha], Hb as [Hy Hb]. cbn in HL, E.
  pose proof (limbs_val_bound a Ha). pose proof (limbs_val_bound b Hb).
  assert (x = y ∧ limbs_val a = limbs_val b) as [-> E'].
  { assert (x = y).
    { apply (f_equal (λ z, z mod limb)) in E.
      by rewrite !(Z.mul_comm limb), !Z_mod_plus_full, !Z.mod_small in E. }
    subst. split; [done|]. unfold limb in E. lia. }
  f_equal. apply IH; auto.
Qed.

Lemma ge_from_top_spec a b : length a = length b → limbs_ok a → limbs_ok b →
  ge_from_top a b = true ↔ limbs_val (reverse b) ≤ limbs_val (reverse a).
Proof.
  revert b; induction a as [|x a IH]; intros [|y b] HL Ha Hb; try done.
  apply Forall_cons in Ha as [Hx Ha], Hb as [Hy Hb]. cbn [length] in HL.
  cbn [ge_from_top]. rewrite !reverse_cons, !limbs_val_app, !length_reverse.
  assert (length a = length b) as HL' by lia. rewrite HL'. cbn [limbs_val].
  assert (limbs_ok (reverse a)) as Hra by by apply Forall_reverse.
  assert (limbs_ok (reverse b)) as Hrb by by apply Forall_reverse.
  pose proof (limbs_val_bound _ Hra) as Ba. pose proof (limbs_val_bound _ Hrb) as Bb.
  rewrite length_reverse in Ba, Bb. rewrite HL' in Ba.
  destruct (x =? y) eqn:E; cbn [negb]; bool_props.
  - subst. rewrite IH by done. lia.
  - rewrite Z.gtb_ltb, Z.ltb_lt. nia.
Qed.

Lemma u256_ge_spec a b : u256_ok a → u256_ok b →
  u256_ge a b = true ↔ limbs_val b ≤ limbs_val a.
Proof.
  intros [La Ha] [Lb Hb]. unfold u256_ge.
  rewrite ge_from_top_spec by first [rewrite !length_reverse; congruence | by apply Forall_reverse].
  by rewrite !reverse_involutive.
Qed.

Lemma u256_ge_false a b : u256_ok a → u256_ok b →
  u256_ge a b = false ↔ limbs_val a < limbs_val b.
Proof.
  intros Ha Hb. rewrite <- not_true_iff_false, u256_ge_spec by done. lia.
Qed.

Lemma mul_loop_spec a b c : limbs_ok a → 0 ≤ b < limb → 0 ≤ c < limb →
  limbs_ok (mul_loop a b c) ∧ length (mul_loop a b c) = S (length a) ∧
  limbs_val (mul_loop a b c) = limbs_val a * b + c.
Proof.
  intros Ha Hb. revert c; induction Ha as [|x a Hx Ha IH]; intros c Hc; cbn [mul_loop].
  - rewrite Z.mod_small by done. split_and!; [by forall_list|done|cbn; lia].
  - rewrite Z.shiftr_div_pow2 by lia. change (2 ^ 64) with limb.
    pose proof limb_pos. pose proof (Z.mod_pos_bound (x * b + c) limb ltac:(lia)).
    assert (0 ≤ (x * b + c) / limb < limb)
      by (split; [apply Z.div_pos; nia|apply Z.div_lt_upper_bound; nia]).
    destruct (IH ((x * b + c) / limb)) as (Ho & HL & HV); [done|].
    split_and!; [by constructor|cbn; lia|].
    cbn [limbs_val]. rewrite HV. pose proof (Z.div_mod (x * b + c) limb ltac:(lia)). nia.
Qed.


Lemma div_loop_spec a b r : limbs_ok a → 0 < b ≤ limb → 0 ≤ r < b →
  length (div_loop a b r) = length a ∧ limbs_ok (div_loop a b r) ∧
  limbs_val (reverse (div_loop a b r)) =
    (r * limb ^ Z.of_nat (length a) + limbs_val (reverse a)) / b.
Proof.
  intros Ha Hb. revert r; induction Ha as [|x a Hx Ha IH]; intros r Hr; cbn [div_loop length].
  { split_and!; [done|constructor|]. cbn. rewrite Z.add_0_r, Z.mul_1_r. by rewrite Z.div_small. }
  rewrite lor_shift_add by (unfold limb in *; lia). change (2 ^ 64) with limb.
  pose proof limb_pos as Hlp. pose proof (Z.mod_pos_bound (r * limb + x) b ltac:(lia)) as Hm.
  assert (0 ≤ (r * limb + x) / b < limb)
    by (split; [apply Z.div_pos; nia|apply Z.div_lt_upper_bound; nia]).
  destruct (IH ((r * limb + x) mod b)) as (HL & Ho & HV); [done|].
  rewrite (Z.mod_small _ limb) by done.
  split_and!; [lia|by constructor|].
  rewrite !reverse_cons, !limbs_val_app, HV, !length_reverse, HL. cbn [limbs_val].
  rewrite Nat2Z.inj_succ, Z.pow_succ_r, !Z.mul_0_r, !Z.add_0_r by lia.
  set (P := limb ^ Z.of_nat (length a)). set (A := limbs_val (reverse a)).
  set (n := r * limb + x) in *.
  replace (r * (limb * P) + (A + P * x)) with (n * P + A) by (unfold n; lia).
  pose proof (Z.div_mod n b ltac:(lia)) as HD.
  replace (n * P + A) with ((n mod b * P + A) + (n / b * P) * b) by nia.
  rewrite Z.div_add by lia. lia.
Qed.

Lemma limbs_val_high_zero l k : limbs_ok l → limbs_val l < limb ^ Z.of_nat k →
  limbs_val (take k l) = limbs_val l.
Proof.
  intros Ho. revert k; induction Ho as [|x l Hx Ho IH]; intros k Hk; [by destruct k|].
  pose proof (limbs_val_bound l Ho) as Hb. pose proof limb_pos.
  destruct k as [|k]; cbn [take limbs_val] in *.
  { change (limb ^ Z.of_nat 0) with 1 in Hk. nia. }
  rewrite Nat2Z.inj_succ, Z.pow_succ_r in Hk by lia. rewrite IH; [done|nia].
Qed.

Lemma mul_div_spec a m d : u256_ok a → 0 ≤ m < limb → 0 < d ≤ limb →
  limbs_val a * m / d < 2 ^ 256 →
  u256_ok (u512_div_u64 (u256_mul_u64 a m) d) ∧
  limbs_val (u512_div_u64 (u256_mul_u64 a m) d) = limbs_val a * m / d.
Proof.
  intros [HL Ha] Hm Hd Hfit. unfold u512_div_u64, u256_mul_u64.
  destruct (mul_loop_spec a m 0 Ha Hm ltac:(done)) as (Ho & HLm & HV).
  set (prod := mul_loop a m 0 ++ [0; 0; 0]).
  assert (Hp : limbs_ok prod) by (apply Forall_app_2; [done|]; by forall_list).
  assert (HVp : limbs_val prod = limbs_val a * m).
  { unfold prod. rewrite limbs_val_app, HV. cbn. lia. }
  assert (HLp : length prod = 8%nat) by (unfold prod; rewrite length_app, HLm, HL; done).
  assert (Hrp : limbs_ok (reverse prod)) by by apply Forall_reverse.
  destruct (div_loop_spec (reverse prod) d 0 Hrp Hd ltac:(lia)) as (HLd & Hod & HVd).
  rewrite reverse_involutive, HVp, Z.mul_0_l, Z.add_0_l in HVd.
  rewrite length_reverse, HLp in HLd.
  assert (Hrd : limbs_ok (reverse (div_loop (reverse prod) d 0))) by by apply Forall_reverse.
  split; [split|].
  - rewrite length_take, length_reverse, HLd. done.
  - by apply Forall_take.
  - rewrite limbs_val_high_zero, HVd; [done|done|]. rewrite HVd. exact Hfit.
Qed.

Lemma add_one_spec a : limbs_ok a → limbs_val a + 1 < limb ^ Z.of_nat (length a) →
  limbs_ok (u256_add_one a) ∧ length (u256_add_one a) = length a ∧
  limbs_val (u256_add_one a) = limbs_val a + 1.
Proof.
  induction 1 as [|x a Hx Ha IH]; cbn [u256_add_one limbs_val length].
  { change (limb ^ Z.of_nat 0) with 1. lia. }
  rewrite Nat2Z.inj_succ, Z.pow_succ_r by lia. intros Hb. pose proof limb_pos.
  destruct (x + 1 =? limb) eqn:E; bool_props.
  - destruct IH as (Ho & HL & HV); [nia|]. split_and!; [by constructor|cbn; lia|]. cbn [limbs_val]. nia.
  - split_and!; [constructor; [lia|done]|done|]. cbn [limbs_val]. lia.
Qed.

Lemma sub_loop_spec a b c : length a = length b → limbs_ok a → limbs_ok b →
  limbs_val b + Z.b2z c ≤ limbs_val a →
  limbs_ok (sub_loop a b c) ∧ length (sub_loop a b c) = length a ∧
  limbs_val (sub_loop a b c) = limbs_val a - limbs_val b - Z.b2z c.
Proof.
  intros HL Ha. revert b c HL; induction Ha as [|x a Hx Ha IH]; intros [|y b] c HL Hb Hle; try done.
  { split_and!; [constructor|done|]. destruct c; cbn in *; lia. }
  apply Forall_cons in Hb as [Hy Hb]. cbn [sub_loop limbs_val length] in *.
  pose proof limb_pos. pose proof (limbs_val_bound a Ha). pose proof (limbs_val_bound b Hb).
  assert (Hc : 0 ≤ Z.b2z c ≤ 1) by (destruct c; cbn; lia).
  set (v1 := (x - y) mod limb). set (v2 := (v1 - Z.b2z c) mod limb).
  set (b2 := (x <? y) || (v1 <? Z.b2z c)).
  assert (Hd : v2 = x - y - Z.b2z c + limb * Z.b2z b2 ∧ 0 ≤ v2 < limb).
  { unfold b2, v2, v1. destruct (x <? y) eqn:E1; bool_props; cbn [orb].
    - replace ((x - y) mod limb) with (x - y + limb)
        by (apply Z.mod_unique with (q := -1); lia).
      rewrite Z.mod_small by lia. cbn. lia.
    - rewrite (Z.mod_small (x - y)) by lia.
      destruct (x - y <? Z.b2z c) eqn:E2; bool_props.
      + replace ((x - y - Z.b2z c) mod limb) with (x - y - Z.b2z c + limb)
          by (apply Z.mod_unique with (q := -1); lia). cbn. lia.
      + rewrite Z.mod_small by lia. cbn. lia. }
  destruct Hd as [Hv Hr]. destruct (IH b b2) as (Ho & HLr & HV); [lia|done| |].
  { destruct b2; cbn in *; nia. }
  split_and!; [by constructor|cbn; lia|]. cbn [limbs_val]. rewrite HV, Hv. lia.
Qed.

(** ** Lemmas: block work *)

Lemma u256_sub_spec a b : u256_ok a → u256_ok b → limbs_val b ≤ limbs_val a →
  u256_ok (u256_sub a b) ∧ limbs_val (u256_sub a b) = limbs_val a - limbs_val b.
Proof.
  intros [La Ha] [Lb Hb] Hle.
  destruct (sub_loop_spec a b false) as (Ho & HL & HV); [congruence|done..|cbn; lia|].
  unfold u256_sub. split; [split; [congruence|done]|]. rewrite HV. cbn. lia.
Qed.

Lemma nth_limb l k : limbs_ok l →
  nth k l 0 = (limbs_val l / limb ^ Z.of_nat k) mod limb.
Proof.
  intros Ho. revert k; induction Ho as [|x l Hx Ho IH]; intros k.
  { cbn [limbs_val]. rewrite Z.div_0_l by (apply Z.pow_nonzero; [done|lia]). by destruct k. }
  pose proof limb_pos. destruct k as [|k]; cbn [nth limbs_val].
  - change (limb ^ Z.of_nat 0) with 1.
    by rewrite Z.div_1_r, Z.mul_comm, Z_mod_plus_full, Z.mod_small.
  - rewrite IH, Nat2Z.inj_succ, Z.pow_succ_r by lia.
    rewrite <- Z.div_div by lia. f_equal. f_equal.
    rewrite Z.add_comm, Z.mul_comm, Z.div_add_l by lia. rewrite (Z.div_small x) by done. lia.
Qed.

Lemma numerator_bit_spec l i : limbs_ok l →
  numerator_bit l i = (limbs_val l / 2 ^ Z.of_nat i) mod 2.
Proof.
  intros Ho. unfold numerator_bit. rewrite nth_limb by done.
  change 1 with (Z.ones 1). rewrite Z.land_ones by lia. change (2 ^ 1) with 2.
  rewrite Z.shiftr_div_pow2 by lia. set (k := (i / 64)%nat). set (j := (i mod 64)%nat).
  assert (Hi : i = (64 * k + j)%nat) by (apply Nat.div_mod_eq).
  assert (Hj : (j < 64)%nat) by (apply Nat.mod_upper_bound; lia).
  rewrite <- !Z.testbit_spec' by lia. f_equal.
  change limb with (2 ^ 64) at 2. rewrite Z.mod_pow2_bits_low by lia.
  change limb with (2 ^ 64). rewrite <- Z.pow_mul_r by lia.
  rewrite Z.div_pow2_bits by lia. f_equal. lia.
Qed.

Fixpoint carry_out (c : Z) (l : list Z) : Z :=
  match l with [] => c | x :: l => carry_out (Z.shiftr x 63) l end.

Lemma shl1_spec l c : limbs_ok l → 0 ≤ c ≤ 1 →
  limbs_ok (shl1 c l) ∧ length (shl1 c l) = length l ∧
  limbs_val (shl1 c l) + limb ^ Z.of_nat (length l) * carry_out c l = 2 * limbs_val l + c.
Proof.
  intros Ho. revert c; induction Ho as [|x l Hx Ho IH]; intros c Hc; cbn [shl1 carry_out limbs_val length].
  { split_and!; [constructor|done|]. change (limb ^ Z.of_nat 0) with 1. lia. }
  assert (Hs : Z.shiftr x 63 = x / 2 ^ 63) by (by rewrite Z.shiftr_div_pow2).
  assert (Hs1 : 0 ≤ x / 2 ^ 63 ≤ 1).
  { split; [apply Z.div_pos; lia|]. apply Z.lt_succ_r, Z.div_lt_upper_bound; unfold limb in Hx; lia. }
  assert (Hm : Z.shiftl x 1 mod limb = Z.shiftl (x mod 2 ^ 63) 1).
  { rewrite !Z.shiftl_mul_pow2 by lia. change limb with (2 ^ 63 * 2 ^ 1).
    by rewrite Z.mul_mod_distr_r by lia. }
  rewrite Hm, lor_shift_add, Hs by lia. change (2 ^ 1) with 2.
  destruct (IH (x / 2 ^ 63) Hs1) as (Ho' & HL & HV).
  pose proof (Z.mod_pos_bound x (2 ^ 63) ltac:(lia)).
  pose proof (Z.div_mod x (2 ^ 63) ltac:(lia)).
  rewrite Nat2Z.inj_succ, Z.pow_succ_r by lia. split_and!.
  - constructor; [unfold limb; lia|done].
  - cbn. lia.
  - unfold limb in *. nia.
Qed.

Lemma carry_out_top l : length l = 4%nat → carry_out 0 l = Z.shiftr (nth 3 l 0) 63.
Proof. by destruct l as [|? [|? [|? [|? [|]]]]]. Qed.

Lemma alter_low_bit l b : limbs_ok l → 0 ≤ b ≤ 1 →
  let r := alter (λ x, Z.lor x b) 0%nat (shl1 0 l) in
  limbs_ok r ∧ length r = length l ∧
  limbs_val r + limb ^ Z.of_nat (length l) * carry_out 0 l =
    2 * limbs_val l + (match l with [] => 0 | _ => b end).
Proof.
  intros Ho Hb r. destruct (shl1_spec l 0 Ho ltac:(lia)) as (Ho' & HL & HV).
  destruct l as [|x l]; [done|]. unfold r. cbn [shl1] in *.
  cbn [alter list_alter].
  rewrite Z.lor_0_r in *.
  assert (Hm : Z.shiftl x 1 mod limb = Z.shiftl (x mod 2 ^ 63) 1).
  { rewrite !Z.shiftl_mul_pow2 by lia. change limb with (2 ^ 63 * 2 ^ 1).
    by rewrite Z.mul_mod_distr_r by lia. }
  rewrite Hm in *. pose proof (Z.mod_pos_bound x (2 ^ 63) ltac:(lia)).
  rewrite lor_shift_add by lia. rewrite Z.shiftl_mul_pow2 in * by lia.
  cbn [limbs_val length] in *. apply Forall_cons in Ho' as [_ Ho'].
  split_and!; [constructor; [unfold limb; lia|done]|cbn; lia|lia].
Qed.

(** The long division after the bits from [n] up have been processed. *)
Definition work_inv (N d : Z) (n : nat) (st : U256 * Z) : Prop :=
  u256_ok st.1 ∧ limbs_val st.1 = (N / 2 ^ Z.of_nat n) mod d ∧
  st.2 = (N / 2 ^ Z.of_nat n) / d * 2 ^ Z.of_nat n.

Lemma div_pow2_step N n : 0 ≤ N →
  N / 2 ^ Z.of_nat n = 2 * (N / 2 ^ Z.of_nat (S n)) + (N / 2 ^ Z.of_nat n) mod 2.
Proof.
  intros HN. rewrite Nat2Z.inj_succ, Z.pow_succ_r by lia.
  replace (2 * 2 ^ Z.of_nat n) with (2 ^ Z.of_nat n * 2) by lia.
  rewrite <- Z.div_div by lia. apply Z.div_mod. lia.
Qed.

Lemma work_step_inv numerator denominator i st :
  limbs_ok numerator → u256_ok denominator →
  0 ≤ limbs_val numerator < 2 ^ 256 → 2 ^ 128 < limbs_val denominator ≤ 2 ^ 255 →
  work_inv (limbs_val numerator) (limbs_val denominator) (S i) st →
  work_inv (limbs_val numerator) (limbs_val denominator) i
    (work_step numerator denominator i st).
Proof.
  destruct st as [rem q]. intros Hn Hd HN HD ([HL Ho] & HR & HQ).
  cbn [fst snd] in *. unfold work_step.
  pose proof (numerator_bit_spec numerator i Hn) as Hnb.
  set (N := limbs_val numerator) in *. set (d := limbs_val denominator) in *.
  pose proof (div_pow2_step N i ltac:(lia)) as Hstep.
  rewrite <- Hnb in Hstep. set (bit := numerator_bit numerator i) in *.
  assert (Hbit : 0 ≤ bit ≤ 1)
    by (rewrite Hnb; pose proof (Z.mod_pos_bound (N / 2 ^ Z.of_nat i) 2); lia).
  set (R := N / 2 ^ Z.of_nat (S i)) in *.
  pose proof (Z.mod_pos_bound R d ltac:(lia)) as Hr. pose proof (Z.div_mod R d ltac:(lia)) as HRd.
  destruct (alter_low_bit rem bit Ho Hbit) as (Ho' & HL' & HV).
  set (rem' := alter _ _ _) in *.
  assert (HV' : limbs_val rem' = 2 * limbs_val rem + bit).
  { rewrite HL in HV. change (limb ^ Z.of_nat 4) with (2 ^ 256) in HV.
    pose proof (limbs_val_bound rem' Ho') as Hb. rewrite HL', HL in Hb.
    change (limb ^ Z.of_nat 4) with (2 ^ 256) in Hb.
    destruct rem as [|x rem]; [done|]. rewrite HR in HV |- *. lia. }
  assert (Hc : carry_out 0 rem = 0).
  { rewrite HL in HV. change (limb ^ Z.of_nat 4) with (2 ^ 256) in HV.
    destruct rem as [|x rem]; [done|]. lia. }
  rewrite <- carry_out_top, Hc by done. cbn [Z.eqb orb].
  assert (Hok' : u256_ok rem') by (split; [congruence|done]).
  assert (Hq : R / d * 2 ^ Z.of_nat (S i) = (2 * (R / d)) * 2 ^ Z.of_nat i)
    by (rewrite Nat2Z.inj_succ, Z.pow_succ_r by lia; lia).
  unfold work_inv. rewrite Hstep. rewrite Hq in HQ. rewrite HR in HV'.
  destruct (u256_ge rem' denominator) eqn:E.
  - apply u256_ge_spec in E; [|done..]. destruct (u256_sub_spec rem' denominator Hok' Hd E) as [Hso HsV].
    assert (Hdiv : (2 * R + bit) / d = 2 * (R / d) + 1).
    { symmetry. apply Z.div_unique with (r := 2 * (R mod d) + bit - d); lia. }
    assert (Hmod : (2 * R + bit) mod d = 2 * (R mod d) + bit - d).
    { symmetry. apply Z.mod_unique with (q := 2 * (R / d) + 1); lia. }
    assert (Hi : (i < 128)%nat).
    { apply Nat.nle_gt. intros Hge.
      assert (N / 2 ^ Z.of_nat i < 2 ^ 128).
      { apply Z.div_lt_upper_bound; [lia|]. rewrite <- Z.pow_add_r by lia.
        eapply Z.lt_le_trans; [apply HN|]. apply Z.pow_le_mono_r; lia. }
      rewrite Hstep in H. assert (0 ≤ R / d) by (apply Z.div_pos; [|lia]; apply Z.div_pos; lia).
      lia. }
    cbn [fst snd]. rewrite Hdiv, Hmod, bool_decide_eq_true_2 by done.
    split_and!; [done|lia|]. rewrite HQ, Z.lor_comm.
    replace (2 * (R / d) * 2 ^ Z.of_nat i) with (R / d * 2 ^ (Z.of_nat i + 1))
      by (rewrite Z.pow_add_r by lia; lia).
    rewrite Z.lor_comm, <- Z.shiftl_mul_pow2 by lia. rewrite lor_shift_add.
    + rewrite Z.shiftl_1_l, Z.pow_add_r by lia. lia.
    + lia.
    + rewrite Z.shiftl_1_l. split; [lia|]. apply Z.pow_lt_mono_r; lia.
  - apply u256_ge_false in E; [|done..].
    assert (Hdiv : (2 * R + bit) / d = 2 * (R / d))
      by (symmetry; apply Z.div_unique with (r := 2 * (R mod d) + bit); lia).
    assert (Hmod : (2 * R + bit) mod d = 2 * (R mod d) + bit)
      by (symmetry; apply Z.mod_unique with (q := 2 * (R / d)); lia).
    cbn [fst snd]. rewrite Hdiv, Hmod. split_and!; [done|lia|done].
Qed.

Lemma work_loop_inv n numerator denominator st :
  limbs_ok numerator → u256_ok denominator →
  0 ≤ limbs_val numerator < 2 ^ 256 → 2 ^ 128 < limbs_val denominator ≤ 2 ^ 255 →
  work_inv (limbs_val numerator) (limbs_val denominator) n st →
  work_inv (limbs_val numerator) (limbs_val denominator) 0
    (work_loop n numerator denominator st).
Proof.
  intros Hn Hd HN HD. revert st; induction n as [|i IH]; intros st Hst; [done|].
  cbn [work_loop]. apply IH, work_step_inv; done.
Qed.

Lemma complement_val l : limbs_ok l →
  limbs_ok ((λ x, limb - 1 - x) <$> l) ∧
  limbs_val ((λ x, limb - 1 - x) <$> l) = limb ^ Z.of_nat (length l) - 1 - limbs_val l.
Proof.
  induction 1 as [|x l Hx Ho [IH1 IH2]]; [split; [constructor|done]|]. rewrite fmap_cons. cbn [limbs_val length].
  split; [constructor; [lia|done]|]. rewrite IH2, Nat2Z.inj_succ, Z.pow_succ_r by lia. lia.
Qed.

(** The proof of work of a target is exactly [2^256 / (target + 1)]: the
    256-step binary long division on 64-bit limbs, with its limb-wise shift,
    compare and borrow, never loses a bit and stays in a [u128], for every
    target of at least 128 bits below [2^255] (every pow limit is). *)
Theorem work_from_target_exact target :
  u256_ok target → 2 ^ 128 ≤ limbs_val target < 2 ^ 255 →
  work_from_target target = 2 ^ 256 / (limbs_val target + 1) ∧
  0 < work_from_target target < 2 ^ 128.
Proof.
  intros [HL Ho] Ht. destruct (add_one_spec target Ho) as (Hao & HaL & HaV).
  { rewrite HL. change (limb ^ Z.of_nat 4) with (2 ^ 256). lia. }
  destruct (complement_val target Ho) as (Hco & HcV). rewrite HL in HcV.
  change (limb ^ Z.of_nat 4) with (2 ^ 256) in HcV.
  set (v := limbs_val target) in *.
  destruct (work_loop_inv 256 ((λ l, limb - 1 - l) <$> target) (u256_add_one target)
    ([0; 0; 0; 0], 0) Hco) as (_ & _ & HQ).
  - split; [congruence|done].
  - rewrite HcV. lia.
  - rewrite HaV. lia.
  - rewrite HcV, HaV. unfold work_inv. cbn [fst snd].
    rewrite (Z.div_small _ (2 ^ Z.of_nat 256)) by (change (Z.of_nat 256) with 256; lia).
    rewrite Z.mod_0_l, Z.div_0_l by lia. split_and!; [split; [done|by forall_list]|done|done].
  - assert (E : work_from_target target = 2 ^ 256 / (v + 1)).
    { unfold work_from_target. rewrite HQ, HcV, HaV. change (2 ^ Z.of_nat 0) with 1.
      rewrite Z.div_1_r, Z.mul_1_r.
      replace (2 ^ 256) with (2 ^ 256 - 1 - v + 1 * (v + 1)) at 2 by lia.
      by rewrite Z.div_add by lia. }
    rewrite E. split; [done|]. split.
    + apply Z.div_str_pos. lia.
    + apply Z.div_lt_upper_bound; lia.
Qed.

Lemma work_from_target_exact_witness :
  work_from_target (pow_limit (params Mainnet)) =
    2 ^ 256 / (limbs_val (pow_limit (params Mainnet)) + 1) ∧
  work_from_target (pow_limit (params Mainnet)) = 4295032833.
Proof.
  split; [|vm_compute; reflexivity].
  apply (work_from_target_exact (pow_limit (params Mainnet))).
  - apply (bool_decide_unpack _). vm_compute. exact I.
  - vm_compute. split; [discriminate|reflexivity].
Defined.

(** ** Lemmas: the compact encoding *)

Lemma limbs_val_alter l k f x : l !! k = Some x →
  limbs_val (alter f k l) = limbs_val l + limb ^ Z.of_nat k * (f x - x).
Proof.
  revert k; induction l as [|y l IH]; intros [|k] Hx; try done; cbn in Hx.
  - injection Hx as ->. cbn [alter list_alter limbs_val].
    change (limb ^ Z.of_nat 0) with 1. lia.
  - cbn [alter list_alter limbs_val]. rewrite Nat2Z.inj_succ, Z.pow_succ_r by lia.
    change (list_alter f k l) with (alter f k l). rewrite (IH k Hx). lia.
Qed.

(** Or-ing a byte into a position above everything placed so far adds it. *)
Lemma place_byte_spec out pos byte : u256_ok out → (pos < 32)%nat → 0 ≤ byte < 256 →
  limbs_val out < 256 ^ Z.of_nat pos →
  u256_ok (place_byte out pos byte) ∧
  limbs_val (place_byte out pos byte) = limbs_val out + byte * 256 ^ Z.of_nat pos.
Proof.
  intros [HL Ho] Hp Hb Hv. unfold place_byte.
  set (k := (pos / 8)%nat). set (j := (pos mod 8)%nat).
  assert (Hpos : pos = (8 * k + j)%nat) by apply Nat.div_mod_eq.
  assert (Hj : (j < 8)%nat) by (apply Nat.mod_upper_bound; lia).
  assert (Hk : (k < 4)%nat) by lia.
  destruct (lookup_lt_is_Some_2 out k) as [x Hx]; [lia|].
  assert (Hxr : 0 ≤ x < limb) by (eapply Forall_lookup_1 in Ho; [exact Ho|exact Hx]).
  assert (HP : 256 ^ Z.of_nat pos = limb ^ Z.of_nat k * 2 ^ (8 * Z.of_nat j)).
  { rewrite Hpos. unfold limb. rewrite <- Z.pow_mul_r, <- Z.pow_add_r by lia.
    change 256 with (2 ^ 8). rewrite <- Z.pow_mul_r by lia. f_equal. lia. }
  assert (HLk : 0 < limb ^ Z.of_nat k) by (apply Z.pow_pos_nonneg; [done|lia]).
  assert (Hxj : x < 2 ^ (8 * Z.of_nat j)).
  { pose proof (nth_limb out k Ho) as Hn. rewrite (nth_lookup_Some out k 0 x Hx) in Hn.
    assert (limbs_val out / limb ^ Z.of_nat k < 2 ^ (8 * Z.of_nat j))
      by (apply Z.div_lt_upper_bound; lia).
    assert (0 ≤ limbs_val out / limb ^ Z.of_nat k)
      by (apply Z.div_pos; [apply (limbs_val_bound out Ho)|done]).
    rewrite Hn. eapply Z.le_lt_trans; [apply Z.mod_le; [done|apply limb_pos]|done]. }
  assert (HF : Z.lor x (Z.shiftl byte (8 * Z.of_nat j)) = byte * 2 ^ (8 * Z.of_nat j) + x)
    by (rewrite Z.lor_comm; apply lor_shift_add; lia).
  assert (Hfit : byte * 2 ^ (8 * Z.of_nat j) + x < limb).
  { assert (byte * 2 ^ (8 * Z.of_nat j) + x < 2 ^ 8 * 2 ^ (8 * Z.of_nat j)) by nia.
    rewrite <- Z.pow_add_r in H by lia. eapply Z.lt_le_trans; [exact H|].
    unfold limb. apply Z.pow_le_mono_r; lia. }
  split; [split|].
  - by rewrite length_alter.
  - apply Forall_alter; [done|]. intros y Hy _. rewrite Hx in Hy. injection Hy as <-.
    rewrite HF. split; [|done]. assert (0 ≤ byte * 2 ^ (8 * Z.of_nat j)) by (apply Z.mul_nonneg_nonneg; lia). lia.
  - rewrite (limbs_val_alter _ _ _ x Hx), HF, HP. lia.
Qed.

Definition compact_value (size mantissa : Z) : Z :=
  if size <=? 3 then mantissa / 256 ^ (3 - size) else mantissa * 256 ^ (size - 3).

Lemma compact_mantissa_bound b : 0 ≤ b → 0 ≤ compact_mantissa b < 2 ^ 23.
Proof.
  intros Hb. unfold compact_mantissa. change 0x007fffff with (Z.ones 23).
  rewrite Z.land_ones by lia. apply Z.mod_pos_bound. lia.
Qed.

Lemma mantissa_byte m i : 0 ≤ m →
  Z.land (Z.shiftr m (8 * Z.of_nat i)) 0xff = (m / 256 ^ Z.of_nat i) mod 256.
Proof.
  intros Hm. change 0xff with (Z.ones 8). rewrite Z.land_ones, Z.shiftr_div_pow2 by lia.
  change 256 with (2 ^ 8). by rewrite <- Z.pow_mul_r by lia.
Qed.

Lemma place_step off m i out : 0 ≤ m < 2 ^ 24 → (i ≤ 2)%nat →
  u256_ok out → limbs_val out = (m mod 256 ^ Z.of_nat i) * 256 ^ Z.of_nat off →
  ((32 ≤ off + i)%nat → (m / 256 ^ Z.of_nat i) mod 256 = 0) →
  let byte := Z.land (Z.shiftr m (8 * Z.of_nat i)) 0xff in
  let out' := if bool_decide (off + i < 32)%nat then place_byte out (off + i) byte else out in
  u256_ok out' ∧ limbs_val out' = (m mod 256 ^ Z.of_nat (S i)) * 256 ^ Z.of_nat off.
Proof.
  intros Hm Hi Ho Hv Hz byte out'. unfold out', byte. rewrite mantissa_byte by lia.
  assert (HS : m mod 256 ^ Z.of_nat (S i) =
    m mod 256 ^ Z.of_nat i + 256 ^ Z.of_nat i * ((m / 256 ^ Z.of_nat i) mod 256)).
  { rewrite Nat2Z.inj_succ, Z.pow_succ_r by lia. rewrite (Z.mul_comm 256).
    apply Z.rem_mul_r; lia. }
  pose proof (Z.mod_pos_bound m (256 ^ Z.of_nat i) ltac:(lia)).
  assert (HPo : 0 < 256 ^ Z.of_nat off) by (apply Z.pow_pos_nonneg; lia).
  case_bool_decide as Hp.
  - destruct (place_byte_spec out (off + i) ((m / 256 ^ Z.of_nat i) mod 256) Ho Hp) as [Hok HV].
    + apply Z.mod_pos_bound. lia.
    + rewrite Hv, Nat2Z.inj_add, Z.pow_add_r by lia. nia.
    + split; [done|]. rewrite HV, Hv, HS, Nat2Z.inj_add, Z.pow_add_r by lia. lia.
  - split; [done|]. rewrite HS, Hz, Hv by lia. lia.
Qed.

Lemma from_compact_spec b t : is_u32 b → from_compact b = Some t →
  u256_ok t ∧ limbs_val t = compact_value (compact_size b) (compact_mantissa b).
Proof.
  intros Hb. unfold from_compact, compact_value. unfold is_u32, u32_max in Hb.
  pose proof (compact_mantissa_bound b ltac:(lia)) as Hm.
  assert (Hs : 0 ≤ compact_size b < 256).
  { unfold compact_size. rewrite Z.shiftr_div_pow2 by lia.
    split; [apply Z.div_pos; lia|apply Z.div_lt_upper_bound; lia]. }
  set (s := compact_size b) in *. set (m := compact_mantissa b) in *.
  destruct (negb (m =? 0) && _) eqn:Eov; [done|].
  destruct (negb (Z.land b 0x00800000 =? 0)); [done|]. intros E. apply (inj Some) in E. subst t.
  destruct (s <=? 3) eqn:E3; bool_props.
  - rewrite Z.shiftr_div_pow2 by lia. change 256 with (2 ^ 8). rewrite <- Z.pow_mul_r by lia.
    assert (0 ≤ m / 2 ^ (8 * (3 - s)) ≤ m).
    { split; [apply Z.div_pos; lia|]. apply Z.div_le_upper_bound; [lia|].
      assert (1 ≤ 2 ^ (8 * (3 - s))) by (apply (Z.pow_le_mono_r 2 0); lia). nia. }
    split; [split; [done|forall_list]|cbn; lia]. unfold limb. lia.
  - set (off := Z.to_nat (s - 3)).
    assert (Hover : ∀ i, (i ≤ 2)%nat → (32 ≤ off + i)%nat → (m / 256 ^ Z.of_nat i) mod 256 = 0).
    { intros i Hi Hge. apply andb_false_iff in Eov as [Eov|Eov].
      { bool_props. rewrite Eov, Z.div_0_l by lia. done. }
      rewrite !Z.gtb_ltb in Eov. unfold off in Hge.
      assert (m < 256 ^ Z.of_nat i) as Hlt; [|by rewrite Z.div_small by lia].
      apply orb_false_iff in Eov as [Eov E1]. apply orb_false_iff in Eov as [E34 E2].
      apply andb_false_iff in E1, E2. apply Z.ltb_ge in E34.
      destruct i as [|[|[|]]]; [| | |lia].
      - exfalso. lia.
      - change (256 ^ Z.of_nat 1) with 256. destruct E2; bool_props; lia.
      - change (256 ^ Z.of_nat 2) with 65536. destruct E1; bool_props; lia. }
    cbn [place_mantissa].
    destruct (place_step off m 0 [0; 0; 0; 0]) as [H0 V0]; [lia|lia| | |by auto|].
    { split; [done|by forall_list]. }
    { cbn. by rewrite Z.mod_1_r. }
    destruct (place_step off m 1 _ ltac:(lia) ltac:(lia) H0 V0) as [H1 V1]; [by auto|].
    destruct (place_step off m 2 _ ltac:(lia) ltac:(lia) H1 V1) as [H2 V2]; [by auto|].
    split; [exact H2|]. rewrite V2, Z.mod_small by (change (256 ^ Z.of_nat 3) with (2 ^ 24); lia).
    unfold off. rewrite Z2Nat.id by lia. done.
Qed.

Lemma u256_bytes_val t : limbs_ok t →
  length (u256_bytes t) = (8 * length t)%nat ∧ le_val (u256_bytes t) = limbs_val t.
Proof.
  unfold u256_bytes. induction 1 as [|x l Hx Ho [IH1 IH2]]; [done|].
  rewrite fmap_cons. cbn [concat limbs_val length].
  rewrite length_app, le_val_app, IH1, IH2, length_le_bytes. split; [lia|].
  rewrite le_val_le_bytes_small by exact Hx.
  change (256 ^ Z.of_nat 8) with limb. lia.
Qed.

Lemma byte_at_spec bs i : byte_at bs i = (le_val bs / 256 ^ Z.of_nat i) mod 256.
Proof.
  unfold byte_at. revert i; induction bs as [|b bs IH]; intros i.
  { change (le_val []) with 0. rewrite Z.div_0_l by (apply Z.pow_nonzero; lia). by destruct i. }
  change (le_val (b :: bs)) with (bval b + 256 * le_val bs).
  pose proof (bval_bound b). destruct i as [|i]; cbn [nth].
  - change (256 ^ Z.of_nat 0) with 1. rewrite Z.div_1_r, Z.mul_comm, Z_mod_plus_full.
    by rewrite Z.mod_small.
  - rewrite IH, Nat2Z.inj_succ, Z.pow_succ_r, <- Z.div_div by lia. f_equal. f_equal.
    rewrite Z.add_comm, Z.mul_comm, Z.div_add_l by lia. rewrite (Z.div_small (bval b)) by done. lia.
Qed.

Lemma byte_at_zero bs i : nth i bs x00 = x00 ↔ (le_val bs / 256 ^ Z.of_nat i) mod 256 = 0.
Proof.
  rewrite <- byte_at_spec. unfold byte_at. split; [by intros ->|].
  intros E. by apply bval_inj.
Qed.

Lemma trim_size_spec bs n : (1 ≤ n)%nat → le_val bs < 256 ^ Z.of_nat n →
  (1 ≤ trim_size n bs ≤ n)%nat ∧ le_val bs < 256 ^ Z.of_nat (trim_size n bs) ∧
  (trim_size n bs = 1%nat ∨ 256 ^ Z.of_nat (trim_size n bs - 1) ≤ le_val bs).
Proof.
  pose proof (le_val_bound bs) as Hb0.
  induction n as [|n IH]; [lia|]. intros _ Hv. cbn [trim_size].
  rewrite Nat2Z.inj_succ, Z.pow_succ_r in Hv by lia.
  assert (HP : 0 < 256 ^ Z.of_nat n) by (apply Z.pow_pos_nonneg; lia).
  case_bool_decide as H1; cbn [andb].
  - case_bool_decide as Hz.
    + apply byte_at_zero in Hz.
      assert (le_val bs / 256 ^ Z.of_nat n < 256) by (apply Z.div_lt_upper_bound; lia).
      assert (0 ≤ le_val bs / 256 ^ Z.of_nat n) by (apply Z.div_pos; lia).
      rewrite Z.mod_small in Hz by lia. apply Z.div_small_iff in Hz; [|lia].
      destruct IH as (Hr & Hlt & Hor); [lia|lia|]. split_and!; [lia|lia|done|done].
    + rewrite byte_at_zero in Hz. split_and!; [lia|lia| |].
      { rewrite Nat2Z.inj_succ, Z.pow_succ_r by lia. lia. }
      right. rewrite Nat.sub_1_r. cbn [Nat.pred]. apply Z.nlt_ge. intros Hlt. apply Hz.
      by rewrite Z.div_small by lia.
  - assert (n = 0%nat) as -> by lia. split_and!; [lia|lia| |by left].
    change (256 ^ Z.of_nat 1) with 256. change (256 ^ Z.of_nat 0) with 1 in Hv. lia.
Qed.

(** The first stage of [to_compact]: the three leading bytes. *)
Definition leading (v : Z) (s : nat) : Z :=
  if bool_decide (s ≤ 3)%nat then v * 256 ^ (3 - Z.of_nat s) else v / 256 ^ (Z.of_nat s - 3).

Lemma base256 w : 0 ≤ w < 2 ^ 24 →
  w = (w / 65536) mod 256 * 2 ^ 16 + ((w / 256) mod 256 * 2 ^ 8 + w mod 256).
Proof.
  intros Hw. pose proof (Z.div_mod w 256 ltac:(lia)). pose proof (Z.div_mod (w / 256) 256 ltac:(lia)).
  rewrite Z.div_div in * by lia. change (256 * 256) with 65536 in *.
  assert (0 ≤ w / 65536 < 256) by (split; [apply Z.div_pos; lia|apply Z.div_lt_upper_bound; lia]).
  rewrite (Z.mod_small (w / 65536)) by done. lia.
Qed.

Lemma leading_bytes bs s : (1 ≤ s)%nat → le_val bs < 256 ^ Z.of_nat s →
  (if bool_decide (s ≤ 3)%nat then
     Z.shiftl (foldl (λ w i, Z.lor w (Z.shiftl (byte_at bs i) (8 * Z.of_nat i))) 0
                     (seq 0 s)) (8 * (3 - Z.of_nat s))
   else Z.lor (Z.lor (Z.shiftl (byte_at bs (s - 1)) 16)
                     (Z.shiftl (byte_at bs (s - 2)) 8)) (byte_at bs (s - 3)))
  = leading (le_val bs) s.
Proof.
  intros Hs Hv. pose proof (le_val_bound bs) as [Hv0 _]. unfold leading. set (v := le_val bs) in *.
  assert (Hbyte : ∀ i, 0 ≤ byte_at bs i < 2 ^ 8).
  { intros i. rewrite byte_at_spec. apply (Z.mod_pos_bound _ 256). lia. }
  assert (Hlor : ∀ a b c, 0 ≤ a < 2 ^ 8 → 0 ≤ b < 2 ^ 8 → 0 ≤ c < 2 ^ 8 →
    Z.lor (Z.lor (Z.shiftl a 16) (Z.shiftl b 8)) c = a * 2 ^ 16 + (b * 2 ^ 8 + c)).
  { intros a b c Ha Hb Hc. rewrite <- Z.lor_assoc, (lor_shift_add b c) by lia.
    by rewrite lor_shift_add by lia. }
  case_bool_decide as H3.
  - rewrite Z.shiftl_mul_pow2 by lia. change 256 with (2 ^ 8) at 1.
    rewrite <- Z.pow_mul_r by lia. f_equal.
    pose proof (byte_at_spec bs 0) as E0. pose proof (byte_at_spec bs 1) as E1.
    pose proof (byte_at_spec bs 2) as E2. fold v in E0, E1, E2.
    change (256 ^ Z.of_nat 0) with 1 in E0. change (256 ^ Z.of_nat 1) with 256 in E1.
    change (256 ^ Z.of_nat 2) with 65536 in E2. rewrite Z.div_1_r in E0.
    assert (Hw : v < 2 ^ 24).
    { eapply Z.lt_le_trans; [exact Hv|]. change (2 ^ 24) with (256 ^ 3). apply Z.pow_le_mono_r; lia. }
    pose proof (base256 v ltac:(lia)) as HB. rewrite <- E0, <- E1, <- E2 in HB.
    destruct s as [|[|[|[|]]]]; [lia| | | |lia]; cbn [seq foldl]; rewrite Z.lor_0_l, Z.shiftl_0_r.
    + change (256 ^ Z.of_nat 1) with 256 in Hv. rewrite E0. by apply Z.mod_small.
    + change (256 ^ Z.of_nat 2) with 65536 in Hv. rewrite (Z.div_small v 65536) in E2 by lia.
      change (0 mod 256) with 0 in E2. rewrite E2 in HB. change (8 * Z.of_nat 1) with 8.
      rewrite Z.lor_comm, lor_shift_add by (first [lia | apply Hbyte]). lia.
    + change (8 * Z.of_nat 1) with 8. change (8 * Z.of_nat 2) with 16.
      rewrite (Z.lor_comm (Z.lor _ _)), (Z.lor_comm (byte_at bs 0)), Z.lor_assoc.
      rewrite Hlor by apply Hbyte. lia.
  - rewrite Hlor by apply Hbyte. rewrite !byte_at_spec. fold v.
    set (P := 256 ^ Z.of_nat (s - 3)). assert (HP : 0 < P) by (apply Z.pow_pos_nonneg; lia).
    replace (256 ^ Z.of_nat (s - 1)) with (P * 65536)
      by (unfold P; change 65536 with (256 ^ 2); rewrite <- Z.pow_add_r by lia; f_equal; lia).
    replace (256 ^ Z.of_nat (s - 2)) with (P * 256)
      by (unfold P; change 256 with (256 ^ 1) at 2; rewrite <- Z.pow_add_r by lia; f_equal; lia).
    rewrite <- !Z.div_div by lia.
    replace (256 ^ (Z.of_nat s - 3)) with P by (unfold P; f_equal; lia).
    symmetry. apply base256. split; [apply Z.div_pos; lia|]. apply Z.div_lt_upper_bound; [lia|].
    replace (P * 2 ^ 24) with (256 ^ Z.of_nat s)
      by (unfold P; change (2 ^ 24) with (256 ^ 3); rewrite <- Z.pow_add_r by lia; f_equal; lia).
    done.
Qed.


Lemma land_bit23 c : 0 ≤ c < 2 ^ 24 →
  negb (Z.land c 0x00800000 =? 0) = bool_decide (2 ^ 23 ≤ c).
Proof.
  intros Hc. change 0x00800000 with (Z.shiftl 1 23). rewrite Z.land_comm.
  case_bool_decide as Hb.
  - assert (E : c = Z.lor (Z.shiftl 1 23) (c - 2 ^ 23))
      by (rewrite lor_shift_add by lia; lia).
    rewrite E, Z.land_lor_distr_r, Z.land_diag, land_shift_small, Z.lor_0_r by lia. done.
  - rewrite land_shift_small by lia. done.
Qed.

(** The size and mantissa [to_compact] chooses. *)
Definition compact_parts (v : Z) (s : nat) : Z * Z :=
  let c := leading v s in
  if bool_decide (2 ^ 23 ≤ c) then (Z.of_nat s + 1, c / 256) else (Z.of_nat s, c).

Lemma pow256_split a b : (b ≤ a)%nat →
  256 ^ Z.of_nat a = 256 ^ Z.of_nat (a - b) * 256 ^ Z.of_nat b.
Proof. intros. rewrite <- Z.pow_add_r by lia. f_equal. lia. Qed.

Lemma leading_bound v s : 0 ≤ v < 256 ^ Z.of_nat s → 0 ≤ leading v s < 2 ^ 24.
Proof.
  intros Hv. unfold leading. change (2 ^ 24) with (256 ^ 3). case_bool_decide.
  - replace (256 ^ 3) with (256 ^ Z.of_nat s * 256 ^ (3 - Z.of_nat s))
      by (rewrite <- Z.pow_add_r by lia; f_equal; lia).
    assert (0 < 256 ^ (3 - Z.of_nat s)) by (apply Z.pow_pos_nonneg; lia). nia.
  - assert (0 < 256 ^ (Z.of_nat s - 3)) by (apply Z.pow_pos_nonneg; lia).
    split; [apply Z.div_pos; lia|]. apply Z.div_lt_upper_bound; [done|].
    rewrite <- Z.pow_add_r by lia. replace (Z.of_nat s - 3 + 3) with (Z.of_nat s) by lia. apply Hv.
Qed.

(** Value, size and precision of the chosen parts. *)
Lemma compact_parts_spec v s : (1 ≤ s ≤ 32)%nat → 0 ≤ v < 256 ^ Z.of_nat s →
  (s = 1%nat ∨ 256 ^ Z.of_nat (s - 1) ≤ v) →
  let '(size, m) := compact_parts v s in
  1 ≤ size ≤ 33 ∧ 0 ≤ m < 2 ^ 23 ∧ (size = 33 → m ≤ 0xffff) ∧
  compact_value size m ≤ v ∧ (v - compact_value size m) * 2 ^ 15 ≤ v.
Proof.
  intros Hs Hv Hlead. unfold compact_parts. cbv zeta.
  pose proof (leading_bound v s Hv) as HL.
  assert (Hround : ∀ P, 0 < P → v - v / P * P < P ∧ v / P * P ≤ v).
  { intros P HP. pose proof (Z.div_mod v P ltac:(lia)).
    pose proof (Z.mod_pos_bound v P HP). lia. }
  destruct (decide (s ≤ 3)%nat) as [H3|H3].
  - assert (HE : leading v s = v * 256 ^ (3 - Z.of_nat s))
      by (unfold leading; by rewrite bool_decide_eq_true_2).
    rewrite HE in *. clear HE.
    destruct s as [|[|[|[|]]]]; [lia| | | |lia].
    + change (256 ^ (3 - Z.of_nat 1)) with 65536 in *. change (256 ^ Z.of_nat 1) with 256 in *.
      case_bool_decide as Hb.
      * unfold compact_value. change (Z.of_nat 1 + 1) with 2. change (2 <=? 3) with true. cbv iota.
        replace (v * 65536 / 256) with (v * 256)
          by (replace (v * 65536) with (v * 256 * 256) by lia; by rewrite Z.div_mul).
        change (256 ^ (3 - 2)) with 256. rewrite Z.div_mul by lia. lia.
      * unfold compact_value. change (Z.of_nat 1) with 1. change (1 <=? 3) with true. cbv iota.
        change (256 ^ (3 - 1)) with 65536. rewrite Z.div_mul by lia. lia.
    + change (256 ^ (3 - Z.of_nat 2)) with 256 in *. change (256 ^ Z.of_nat 2) with 65536 in *.
      case_bool_decide as Hb.
      * unfold compact_value. change (Z.of_nat 2 + 1) with 3. change (3 <=? 3) with true. cbv iota.
        rewrite Z.div_mul by lia. change (256 ^ (3 - 3)) with 1. rewrite Z.div_1_r. lia.
      * unfold compact_value. change (Z.of_nat 2) with 2. change (2 <=? 3) with true. cbv iota.
        change (256 ^ (3 - 2)) with 256. rewrite Z.div_mul by lia. lia.
    + change (256 ^ (3 - Z.of_nat 3)) with 1 in *. rewrite Z.mul_1_r in *.
      change (256 ^ Z.of_nat 3) with (2 ^ 24) in *.
      case_bool_decide as Hb.
      * unfold compact_value. change (Z.of_nat 3 + 1) with 4. change (4 <=? 3) with false. cbv iota.
        change (256 ^ (4 - 3)) with 256. destruct (Hround 256 ltac:(lia)) as [Hr1 Hr2].
        lia.
      * unfold compact_value. change (Z.of_nat 3) with 3. change (3 <=? 3) with true. cbv iota.
        change (256 ^ (3 - 3)) with 1. rewrite Z.div_1_r. lia.
  - assert (HE : leading v s = v / 256 ^ (Z.of_nat s - 3))
      by (unfold leading; by rewrite bool_decide_eq_false_2).
    rewrite HE in *. clear HE. destruct Hlead as [->|Hlead]; [lia|].
    set (P := 256 ^ (Z.of_nat s - 3)) in *.
    assert (HP : 0 < P) by (apply Z.pow_pos_nonneg; lia).
    assert (Hv16 : 2 ^ 16 * P ≤ v).
    { replace (2 ^ 16 * P) with (256 ^ Z.of_nat (s - 1)); [done|].
      unfold P. change (2 ^ 16) with (256 ^ 2). rewrite <- Z.pow_add_r by lia. f_equal. lia. }
    case_bool_decide as Hb.
    + rewrite Z.div_div by lia. replace (P * 256) with (256 ^ (Z.of_nat s + 1 - 3))
        by (unfold P; change 256 with (256 ^ 1) at 3; rewrite <- Z.pow_add_r by lia; f_equal; lia).
      set (Q := 256 ^ (Z.of_nat s + 1 - 3)).
      assert (HQ : Q = P * 256)
        by (unfold P, Q; change 256 with (256 ^ 1) at 3; rewrite <- Z.pow_add_r by lia; f_equal; lia).
      assert (Hv23 : 2 ^ 23 * P ≤ v).
      { pose proof (Z.mul_div_le v P HP). nia. }
      destruct (Hround Q ltac:(lia)) as [Hr1 Hr2].
      assert (Hm : v / Q = v / P / 256) by (rewrite Z.div_div by lia; by rewrite HQ).
      assert (Hm' : 0 ≤ v / Q < 2 ^ 16).
      { rewrite Hm. split; [apply Z.div_pos; lia|apply Z.div_lt_upper_bound; lia]. }
      unfold compact_value. rewrite (proj2 (Z.leb_gt _ _)) by lia. fold Q. lia.
    + destruct (Hround P ltac:(lia)) as [Hr1 Hr2].
      unfold compact_value. rewrite (proj2 (Z.leb_gt _ _)) by lia. fold P. lia.
Qed.

Lemma shiftl24 s m : 0 ≤ s ≤ 33 → 0 ≤ m < 2 ^ 24 →
  Z.lor (Z.shiftl s 24 mod 2 ^ 32) m = s * 2 ^ 24 + m.
Proof.
  intros Hs Hm. rewrite Z.mod_small by (rewrite Z.shiftl_mul_pow2 by lia; lia).
  by apply lor_shift_add.
Qed.

Lemma to_compact_parts t : u256_ok t → ∃ s,
  (1 ≤ s ≤ 32)%nat ∧ limbs_val t < 256 ^ Z.of_nat s ∧
  (s = 1%nat ∨ 256 ^ Z.of_nat (s - 1) ≤ limbs_val t) ∧
  to_compact t = (compact_parts (limbs_val t) s).1 * 2 ^ 24 + (compact_parts (limbs_val t) s).2.
Proof.
  intros Ht. pose proof (u256_val_bound t Ht) as Hb. destruct Ht as [HL Ho].
  destruct (u256_bytes_val t Ho) as [HbL HbV].
  destruct (trim_size_spec (u256_bytes t) 32) as (Hs & Hlt & Hlead); [lia| |].
  { rewrite HbV. change (256 ^ Z.of_nat 32) with (2 ^ 256). lia. }
  rewrite HbV in Hlt, Hlead. exists (trim_size 32 (u256_bytes t)). split_and!; try done; try lia.
  unfold to_compact. set (s := trim_size 32 (u256_bytes t)) in *.
  rewrite leading_bytes by (rewrite ?HbV; lia). rewrite HbV.
  pose proof (leading_bound (limbs_val t) s ltac:(lia)) as Hc.
  rewrite land_bit23 by done. unfold compact_parts. cbv zeta.
  clearbody s. clear Hlead Hlt HbV HbL. case_bool_decide; cbn [fst snd].
  - rewrite Z.shiftr_div_pow2 by lia. change (2 ^ 8) with 256. apply shiftl24; [lia|].
    split; [apply Z.div_pos; lia|]. apply Z.div_lt_upper_bound; lia.
  - apply shiftl24; [lia|done].
Qed.

Lemma from_compact_pack size m : 1 ≤ size ≤ 33 → 0 ≤ m < 2 ^ 23 → (size = 33 → m ≤ 0xffff) →
  ∃ t, from_compact (size * 2 ^ 24 + m) = Some t ∧ u256_ok t ∧ limbs_val t = compact_value size m.
Proof.
  intros Hs Hm H33. remember (size * 2 ^ 24 + m) as b eqn:Db.
  assert (Hb : is_u32 b) by (unfold is_u32, u32_max; lia).
  assert (ES : compact_size b = size).
  { unfold compact_size. rewrite Z.shiftr_div_pow2 by lia. rewrite Db.
    rewrite Z.div_add_l, Z.div_small by lia. lia. }
  assert (EM : compact_mantissa b = m).
  { unfold compact_mantissa. change 0x007fffff with (Z.ones 23). rewrite Z.land_ones by lia.
    rewrite Db. replace (size * 2 ^ 24) with (size * 2 * 2 ^ 23) by lia.
    rewrite Z.add_comm, Z_mod_plus_full. by apply Z.mod_small. }
  assert (EN : Z.land b 0x00800000 = 0).
  { change 0x00800000 with (Z.shiftl 1 23). apply Z.bits_inj'. intros i Hi.
    rewrite Z.land_spec, Z.bits_0, Z.shiftl_spec by lia.
    destruct (decide (i = 23)) as [->|Hne].
    - apply andb_false_iff. left. apply not_true_is_false. intros HT.
      apply Z.testbit_true in HT; [|lia]. rewrite Db in HT.
      replace (size * 2 ^ 24) with (size * 2 * 2 ^ 23) in HT by lia.
      rewrite Z.div_add_l, (Z.div_small m), Z.add_0_r, Z.mod_mul in HT by lia. done.
    - apply andb_false_iff. right. destruct (decide (i < 23)).
      + apply Z.testbit_neg_r. lia.
      + apply (testbit_small 1 1); lia. }
  assert (HF : from_compact b ≠ None).
  { unfold from_compact. rewrite ES, EM, EN.
    replace (size >? 34) with false by (rewrite Z.gtb_ltb; symmetry; apply Z.ltb_ge; lia).
    replace (size >? 33) with false by (rewrite Z.gtb_ltb; symmetry; apply Z.ltb_ge; lia).
    replace ((m >? 0xffff) && (size >? 32)) with false.
    - by rewrite andb_false_r, orb_false_r, andb_false_r.
    - symmetry. apply andb_false_iff. rewrite !Z.gtb_ltb.
      destruct (decide (size = 33)); [left|right]; apply Z.ltb_ge; lia. }
  destruct (from_compact b) as [t|] eqn:Et; [|done].
  destruct (from_compact_spec b t Hb Et) as [Hok HV]. rewrite ES, EM in HV. eauto.
Qed.

Lemma to_compact_rounds t : u256_ok t → ∃ t',
  from_compact (to_compact t) = Some t' ∧ is_u32 (to_compact t) ∧ u256_ok t' ∧
  limbs_val t' ≤ limbs_val t ∧ (limbs_val t - limbs_val t') * 2 ^ 15 ≤ limbs_val t.
Proof.
  intros Ht. pose proof (u256_val_bound t Ht) as Hb.
  destruct (to_compact_parts t Ht) as (s & Hs & Hlt & Hlead & ->).
  pose proof (compact_parts_spec (limbs_val t) s Hs ltac:(lia) Hlead) as HP.
  destruct (compact_parts (limbs_val t) s) as [size m]. cbn [fst snd].
  destruct HP as (HS & Hm & H33 & Hle & Hprec).
  destruct (from_compact_pack size m HS Hm H33) as (t' & E & Hok & HV).
  exists t'. rewrite HV. split_and!; try done. unfold is_u32, u32_max. split; lia.
Qed.

(** ** Properties *)

(** The compact target encoding is sound in both directions: the encoding of
    any 256-bit target decodes without failure to a target that is not above it
    and loses less than one part in 2^15, and whatever a compact word decodes to
    is its mantissa scaled by its exponent. *)
Theorem compact_encoding_sound t b : u256_ok t → is_u32 b →
  (∃ t', from_compact (to_compact t) = Some t' ∧ is_u32 (to_compact t) ∧
     limbs_val t' ≤ limbs_val t ∧ (limbs_val t - limbs_val t') * 2 ^ 15 ≤ limbs_val t) ∧
  (∀ t', from_compact b = Some t' →
     u256_ok t' ∧ limbs_val t' = compact_value (compact_size b) (compact_mantissa b)).
Proof.
  intros Ht Hb. split.
  - destruct (to_compact_rounds t Ht) as (t' & ? & ? & _ & ? & ?). eauto.
  - intros t' E. by apply from_compact_spec.
Qed.

Lemma compact_encoding_sound_witness :
  ∃ t', from_compact (to_compact [5; 0; 7; 0]) = Some t' ∧ is_u32 (to_compact [5; 0; 7; 0]) ∧
     limbs_val t' ≤ limbs_val [5; 0; 7; 0] ∧
     (limbs_val [5; 0; 7; 0] - limbs_val t') * 2 ^ 15 ≤ limbs_val [5; 0; 7; 0].
Proof.
  apply (compact_encoding_sound [5; 0; 7; 0] 0x1d00ffff).
  - apply (bool_decide_unpack _). vm_compute. exact I.
  - split; vm_compute; discriminate.
Defined.

(** The clamped timespan of a retarget. *)
Definition retarget_timespan (p : Params) (headers : list BlockHeader) (height : nat) : Z :=
  Z.min (Z.max (h_time (header_at headers (height - 1)) -
                h_time (header_at headers (height - RETARGET_INTERVAL)))
               (pow_target_timespan p / 4)) (pow_target_timespan p * 4).

(** Retargeting at a period boundary never panics and never leaves its
    bounds: with a valid previous target, the required bits decode to the
    previous target scaled by the clamped timespan and capped at the pow limit,
    rounded down by less than one part in 2^15; so difficulty changes by at most
    a factor of four and never falls below the limit. *)
Theorem retarget_bounded p headers height prev_target :
  u256_ok (pow_limit p) → limbs_val (pow_limit p) < 2 ^ 253 →
  4 ≤ pow_target_timespan p < 2 ^ 32 →
  no_retargeting p = false → (height mod RETARGET_INTERVAL = 0)%nat →
  is_u32 (bits (header_at headers (height - 1))) →
  from_compact (bits (header_at headers (height - 1))) = Some prev_target →
  limbs_val prev_target ≤ limbs_val (pow_limit p) →
  ∃ b t, next_work_required p headers height = Some b ∧ is_u32 b ∧
    from_compact b = Some t ∧
    let exact := Z.min (limbs_val prev_target * retarget_timespan p headers height
                          / pow_target_timespan p) (limbs_val (pow_limit p)) in
    limbs_val t ≤ exact ∧ (exact - limbs_val t) * 2 ^ 15 ≤ exact ∧
    exact ≤ 4 * limbs_val prev_target.
Proof.
  intros Hlim Hsmall Hts Hno Hh Hu32 Hprev Hle. unfold next_work_required.
  rewrite Hno, bool_decide_eq_true_2 by done. cbn [negb]. rewrite Hprev. cbn [mbind option_bind].
  fold (retarget_timespan p headers height). set (a := retarget_timespan p headers height).
  set (ts := pow_target_timespan p) in *.
  destruct (from_compact_spec _ _ Hu32 Hprev) as [Hpt _].
  pose proof (u256_val_bound _ Hpt) as Hpb. set (v := limbs_val prev_target) in *.
  assert (Hq : 0 ≤ ts / 4 ≤ ts) by (split; [apply Z.div_pos; lia|apply Z.div_le_upper_bound; lia]).
  assert (Ha : 0 ≤ a ≤ 4 * ts) by (unfold a, retarget_timespan; fold ts; lia).
  assert (Hdiv : 0 ≤ v * a / ts ≤ 4 * v).
  { split; [apply Z.div_pos; nia|]. apply Z.div_le_upper_bound; nia. }
  destruct (mul_div_spec prev_target a ts Hpt) as [Hok HV]; [unfold limb; lia..| |].
  { fold v. lia. }
  fold v in HV. set (new := u512_div_u64 _ _) in *.
  assert (Hclamp : ∃ c, u256_ok c ∧ limbs_val c = Z.min (v * a / ts) (limbs_val (pow_limit p)) ∧
    (if u256_ge new (pow_limit p) then pow_limit p else new) = c).
  { destruct (u256_ge new (pow_limit p)) eqn:E.
    - apply u256_ge_spec in E; [|done..]. exists (pow_limit p). split_and!; [done|lia|done].
    - apply u256_ge_false in E; [|done..]. exists new. split_and!; [done|lia|done]. }
  destruct Hclamp as (c & Hc & HcV & ->).
  destruct (to_compact_rounds c Hc) as (t & Et & Hu & _ & Hlo & Hprec).
  exists (to_compact c), t. rewrite <- HcV. split_and!; try done. lia.
Qed.

Definition demo_headers : list BlockHeader :=
  replicate 2015 {| h_version := 1; prev_block := zeros 32; h_merkle_root := zeros 32;
                    h_time := 1000000; bits := 0x1d00ffff; h_nonce := 0 |} ++
  [{| h_version := 1; prev_block := zeros 32; h_merkle_root := zeros 32;
      h_time := 1600000; bits := 0x1c05a3f4; h_nonce := 0 |}].

Lemma retarget_bounded_witness :
  ∃ b t, next_work_required (params Mainnet) demo_headers 2016 = Some b ∧ is_u32 b ∧
    from_compact b = Some t ∧
    let exact := Z.min (limbs_val (compact_or_zero 0x1c05a3f4) *
        retarget_timespan (params Mainnet) demo_headers 2016
        / pow_target_timespan (params Mainnet)) (limbs_val (pow_limit (params Mainnet))) in
    limbs_val t ≤ exact ∧ (exact - limbs_val t) * 2 ^ 15 ≤ exact ∧
    exact ≤ 4 * limbs_val (compact_or_zero 0x1c05a3f4).
Proof.
  apply (retarget_bounded (params Mainnet) demo_headers 2016 (compact_or_zero 0x1c05a3f4)).
  - apply (bool_decide_unpack _). vm_compute. exact I.
  - vm_compute. reflexivity.
  - vm_compute. split; [discriminate|reflexivity].
  - reflexivity.
  - vm_compute. reflexivity.
  - split; vm_compute; discriminate.
  - vm_compute. reflexivity.
  - vm_compute. discriminate.
Defined.


Lemma u256_from_hash_spec h : length h = 32%nat →
  u256_ok (u256_from_hash h) ∧ limbs_val (u256_from_hash h) = le_val h.
Proof.
  intros HL. unfold u256_from_hash. cbn [seq fmap list_fmap].
  change (0 * 8)%nat with 0%nat. change (1 * 8)%nat with 8%nat.
  change (2 * 8)%nat with 16%nat. change (3 * 8)%nat with 24%nat. cbn [Nat.add].
  assert (Hs : ∀ a, (a + 8 ≤ 32)%nat → 0 ≤ le_val (slice a (a + 8) h) < limb).
  { intros a Ha. pose proof (le_val_bound (slice a (a + 8) h)) as Hb.
    rewrite length_slice in Hb by lia. replace (a + 8 - a)%nat with 8%nat in Hb by lia. exact Hb. }
  split.
  - split; [done|]. unfold limbs_ok. forall_list; [apply (Hs 0%nat)|apply (Hs 8%nat)|
      apply (Hs 16%nat)|apply (Hs 24%nat)]; lia.
  - assert (Hh : h = slice 0 8 h ++ slice 8 16 h ++ slice 16 24 h ++ slice 24 32 h).
    { rewrite !slice_app, slice_0, take_ge by lia. done. }
    rewrite Hh at 5. rewrite !le_val_app, !length_slice by lia. cbn [limbs_val].
    change (256 ^ Z.of_nat (8 - 0)) with limb. change (256 ^ Z.of_nat (16 - 8)) with limb.
    change (256 ^ Z.of_nat (24 - 16)) with limb. lia.
Qed.

Lemma u256_is_zero_spec a : limbs_ok a → u256_is_zero a = true ↔ limbs_val a = 0.
Proof.
  unfold u256_is_zero. induction 1 as [|x l Hx Ho IH]; [done|]. cbn [forallb limbs_val].
  pose proof (limbs_val_bound l Ho). pose proof limb_pos.
  rewrite andb_true_iff, IH, Z.eqb_eq. split; [intros [-> ->]; lia|]. intros E. split; nia.
Qed.

(** A header is valid exactly when it links to its predecessor, carries the
    required bits, its target is positive and within the limit, its hash read as
    a little-endian number does not exceed the target, and its time is after the
    median of the last eleven; the work reported is that of its target. *)
Theorem validate_header_iff `{Sha256dLaws} p headers height h w :
  u256_ok (pow_limit p) → is_u32 (bits h) →
  validate_header p headers height h = Ok w ↔
  prev_block h = header_hash (header_at headers (height - 1)) ∧
  required_bits p headers height h = Some (bits h) ∧
  median_time_past headers height < h_time h ∧
  ∃ t, from_compact (bits h) = Some t ∧ 0 < limbs_val t ≤ limbs_val (pow_limit p) ∧
    le_val (header_hash h) ≤ limbs_val t ∧ w = work_from_target t.
Proof.
  intros Hlim Hbits.
  assert (Hrange : ∀ t, from_compact (bits h) = Some t →
    u256_ok t ∧ (negb (u256_is_zero t || (u256_ge t (pow_limit p) && negb (bool_decide (t = pow_limit p))))
      = true ↔ 0 < limbs_val t ≤ limbs_val (pow_limit p))).
  { intros t Et. destruct (from_compact_spec _ _ Hbits Et) as [Ht _]. split; [done|].
    pose proof (u256_val_bound t Ht). rewrite negb_true_iff, orb_false_iff, andb_false_iff.
    rewrite <- (not_true_iff_false (u256_is_zero t)), u256_is_zero_spec by apply Ht.
    rewrite u256_ge_false, negb_false_iff, bool_decide_eq_true by done. split.
    - intros [Hz [Hl| ->]]; lia.
    - intros [Hz Hl]. split; [lia|]. destruct (decide (limbs_val t < limbs_val (pow_limit p))); [by left|].
      right. destruct Ht as [HL Ho], Hlim as [HL' Ho']. apply limbs_val_inj; [congruence|done..|lia]. }
  destruct (u256_from_hash_spec (header_hash h)) as [Hhash HhV]; [apply length_sha256d|].
  unfold validate_header. split.
  - intros E. apply bind_Ok in E as (? & E1%ensure_Ok & E).
    apply bind_Ok in E as (r & E2%ok_or_Ok & E). apply bind_Ok in E as (? & E3%ensure_Ok & E).
    apply bind_Ok in E as (t & E4%ok_or_Ok & E). apply bind_Ok in E as (? & E5%ensure_Ok & E).
    apply bind_Ok in E as (? & E6%ensure_Ok & E). apply bind_Ok in E as (? & E7%ensure_Ok & E).
    injection E as <-. apply bool_decide_eq_true in E1. apply Z.eqb_eq in E3 as <-.
    destruct (Hrange t E4) as [Ht HR]. apply HR in E5. apply u256_ge_spec in E6; [|done..].
    rewrite HhV in E6. apply negb_true_iff, Z.leb_gt in E7. eauto 10.
  - intros (Hl & Hr & Hm & t & Et & Hv & Hh & ->). destruct (Hrange t Et) as [Ht HR].
    rewrite bool_decide_eq_true_2 by done. rewrite Hr. cbn [ensure mbind result_bind ok_or].
    rewrite Z.eqb_refl. cbn [ensure mbind result_bind]. rewrite Et. cbn [ok_or mbind result_bind].
    rewrite (proj2 HR Hv). cbn [ensure mbind result_bind].
    rewrite (proj2 (u256_ge_spec _ _ Ht Hhash)) by lia. cbn [ensure mbind result_bind].
    by rewrite (proj2 (Z.leb_gt _ _)) by lia.
Qed.

#[local] Existing Instance demo_sha.

Definition demo_genesis : BlockHeader :=
  {| h_version := 1; prev_block := zeros 32; h_merkle_root := zeros 32;
     h_time := 1296688602; bits := 0x207fffff; h_nonce := 2 |}.
Definition demo_child (version : Z) : BlockHeader :=
  {| h_version := version; prev_block := header_hash demo_genesis; h_merkle_root := zeros 32;
     h_time := 1296688603; bits := 0x207fffff; h_nonce := 0 |}.

Lemma validate_header_iff_witness :
  validate_header (params Regtest) [demo_genesis] 1 (demo_child 2) = Ok 2 ∧
  median_time_past [demo_genesis] 1 < h_time (demo_child 2).
Proof.
  assert (E : validate_header (params Regtest) [demo_genesis] 1 (demo_child 2) = Ok 2)
    by (vm_compute; reflexivity).
  split; [exact E|].
  refine (proj1 (proj2 (proj2 (proj1
    (@validate_header_iff demo_sha demo_sha_laws (params Regtest) [demo_genesis] 1 (demo_child 2) 2
      _ _) E)))).
  - apply (bool_decide_unpack _). vm_compute. exact I.
  - split; vm_compute; discriminate.
Defined.
