(* ===== verification/Messages.v ===== *)
(** * Peer-to-peer messages

    Models [crates/opencsv-cbf/src/messages.rs]: the 24-byte message frame and
    the payloads of the version, header, filter-header, filter and block
    exchanges.  Commands are strings; payloads are bytes. *)

From Stdlib Require Import Strings.String.
From S2P Require Import Prelude Wire Block.

Definition PROTOCOL_VERSION : Z := 70016.
Definition NODE_WITNESS : Z := Z.shiftl 1 3.
Definition NODE_COMPACT_FILTERS : Z := Z.shiftl 1 6.
Definition MSG_BLOCK : Z := 2.
Definition MSG_WITNESS_BLOCK : Z := 0x40000002.
Definition MAX_PAYLOAD : Z := 32 * 1024 * 1024.
(** [gcs::BASIC_FILTER_TYPE] *)
Definition BASIC_FILTER_TYPE : Z := 0.

Record Message := { command : string; payload : bytes; wire_bytes : Z }.

#[export] Instance message_eq_dec : EqDecision Message.
Proof. solve_decision. Defined.

Section framing.
Context `{Sha256d}.

Definition checksum (data : bytes) : bytes := take 4 (sha256d data).

(** The commands sent are literals of at most twelve bytes. *)
Definition frame (magic : Z) (command : string) (payload : bytes) : bytes :=
  let name := list_byte_of_string command in
  le_bytes 4 magic ++ (name ++ zeros (12 - length name)) ++
  le_bytes 4 (Z.of_nat (length payload)) ++ checksum payload ++ payload.

(** [Read::read_exact] of the stream. *)
Definition read_exact (n : nat) : reader bytes := λ stream,
  if bool_decide (length stream < n)%nat then Err (EIo "read_exact")
  else Ok (take n stream, drop n stream).

Definition in_range (lo hi : Z) (b : byte) : bool := (lo <=? bval b) && (bval b <=? hi).
Definition continuation : byte → bool := in_range 0x80 0xbf.

(** [std::str::from_utf8] accepts the bytes. *)
Fixpoint utf8_valid (bs : bytes) : bool :=
  match bs with
  | [] => true
  | a :: bs1 =>
    if in_range 0 0x7f a then utf8_valid bs1 else
    match bs1 with
    | [] => false
    | b :: bs2 =>
      if in_range 0xc2 0xdf a then continuation b && utf8_valid bs2 else
      match bs2 with
      | [] => false
      | c :: bs3 =>
        if in_range 0xe0 0xef a then
          (if bval a =? 0xe0 then in_range 0xa0 0xbf b
           else if bval a =? 0xed then in_range 0x80 0x9f b else continuation b)
          && continuation c && utf8_valid bs3
        else
        match bs3 with
        | [] => false
        | d :: bs4 =>
          in_range 0xf0 0xf4 a &&
          (if bval a =? 0xf0 then in_range 0x90 0xbf b
           else if bval a =? 0xf4 then in_range 0x80 0x8f b else continuation b)
          && continuation c && continuation d && utf8_valid bs4
        end
      end
    end
  end.

Definition printable : byte → bool := in_range 0x20 0x7e.

(** The command name: the bytes before the first zero. *)
Definition command_of (field : bytes) : bytes :=
  take (default 12%nat (position (λ b, bval b =? 0) field)) field.

Definition parse_frame_header (magic : Z) : reader (bytes * Z * bytes) :=
  m ← read_u32;
  guard_ (m =? magic) (EProtocol "wrong network magic (peer on another network?)");;
  command_bytes ← read_bytes 12;
  let name := command_of command_bytes in
  guard_ (utf8_valid name) (EProtocol "non-UTF8 command");;
  guard_ (forallb printable name) (EProtocol "non-printable command");;
  len ← read_u32;
  sum ← read_bytes 4;
  mret (name, len, sum).

Definition read_message (magic : Z) : reader Message :=
  header ← read_exact 24;
  match parse_frame_header magic header with
  | Err e => fail e
  | Ok ((name, len, sum), _) =>
    guard_ (len <=? MAX_PAYLOAD) (EProtocol "payload too large");;
    payload ← read_exact (Z.to_nat len);
    guard_ (bool_decide (checksum payload = sum)) (EProtocol "bad checksum");;
    mret {| command := string_of_list_byte name; payload := payload; wire_bytes := 24 + len |}
  end.

End framing.

(** ** Payloads *)
Record VersionInfo := { vi_version : Z; vi_services : Z; vi_start_height : Z }.

(** [now] is the system clock in seconds. *)
Definition version_payload (our_services start_height now : Z) : bytes :=
  let addr := le_bytes 8 0 ++ zeros 16 ++ be_bytes 2 0 in
  write_i32 PROTOCOL_VERSION ++ le_bytes 8 our_services ++ le_bytes 8 (of_signed 64 now) ++
  addr ++ addr ++ le_bytes 8 0x6f636e6376 ++
  write_varbytes (list_byte_of_string "/opencsv-cbf:0.1.0/") ++
  write_i32 start_height ++ [x00].

Definition parse_version_body : reader VersionInfo :=
  version ← read_i32;
  services ← read_u64;
  read_i64;;
  read_bytes 26;;
  left1 ← remaining;
  (if bool_decide (26 ≤ left1)%nat then read_bytes 26 else mret []);;
  left2 ← remaining;
  (if bool_decide (8 ≤ left2)%nat then read_u64 else mret 0);;
  left3 ← remaining;
  start_height ← (if bool_decide (left3 = 0)%nat then mret 0 else
    read_varbytes;;
    left4 ← remaining;
    if bool_decide (4 ≤ left4)%nat then read_i32 else mret 0);
  mret {| vi_version := version; vi_services := services; vi_start_height := start_height |}.

(** Run a cursor over a whole payload; what is left is ignored. *)
Definition run_cursor {A} (r : reader A) (data : bytes) : result Error A := fst <$> r data.

Definition parse_version (data : bytes) : result Error VersionInfo :=
  run_cursor parse_version_body data.

Definition getheaders_payload (locator : list bytes) (stop : bytes) : bytes :=
  write_i32 PROTOCOL_VERSION ++ write_varint (Z.of_nat (length locator)) ++
  concat locator ++ stop.

Definition read_headers_entry : reader BlockHeader :=
  bs ← read_bytes 80;
  header ← (λ rest, match header_parse bs with Ok h => Ok (h, rest) | Err e => Err e end);
  txn_count ← read_varint;
  guard_ (txn_count =? 0) (EProtocol "headers entry with nonzero txn_count");;
  mret header.

Definition parse_headers (data : bytes) : result Error (list BlockHeader) :=
  run_cursor (
    count ← read_varint;
    guard_ (negb (count >? 2000)) (EProtocol "headers message with too many entries");;
    read_n (Z.to_nat count) read_headers_entry) data.

Definition getcfilter_range_payload (filter_type start_height : Z) (stop_hash : bytes) : bytes :=
  le_bytes 1 filter_type ++ le_bytes 4 start_height ++ stop_hash.

Record CfHeaders := {
  stop_hash : bytes;
  previous_filter_header : bytes;
  filter_hashes : list bytes;
}.

Definition parse_cfheaders (data : bytes) : result Error CfHeaders :=
  run_cursor (
    filter_type ← read_u8;
    guard_ (filter_type =? BASIC_FILTER_TYPE) (EProtocol "unexpected filter type");;
    stop ← read_hash;
    previous ← read_hash;
    count ← read_varint;
    guard_ (negb (count >? 2000)) (EProtocol "cfheaders with too many hashes");;
    hashes ← read_n (Z.to_nat count) read_hash;
    mret {| stop_hash := stop; previous_filter_header := previous; filter_hashes := hashes |}) data.

Record CFilter := { cf_block_hash : bytes; filter_bytes : bytes }.

Definition parse_cfilter (data : bytes) : result Error CFilter :=
  run_cursor (
    filter_type ← read_u8;
    guard_ (filter_type =? BASIC_FILTER_TYPE) (EProtocol "unexpected filter type");;
    hash ← read_hash;
    filter ← read_varbytes;
    mret {| cf_block_hash := hash; filter_bytes := filter |}) data.

Definition getdata_payload (inv_type : Z) (hash : bytes) : bytes :=
  write_varint 1 ++ le_bytes 4 inv_type ++ hash.

Definition parse_block_message (data : bytes) : result Error Block := block_parse data.

(** ** Lemmas: the frame *)

Lemma in_range_iff lo hi b : in_range lo hi b = true ↔ lo ≤ bval b ≤ hi.
Proof. unfold in_range. rewrite andb_true_iff, !Z.leb_le. done. Qed.

Lemma printable_utf8 name : forallb printable name = true → utf8_valid name = true.
Proof.
  induction name as [|b name IH]; [done|]. cbn [forallb utf8_valid]. intros [Hb Hn]%andb_true_iff.
  apply in_range_iff in Hb. rewrite (proj2 (in_range_iff 0 0x7f b)) by lia. auto.
Qed.

Lemma printable_nonzero name :
  forallb printable name = true → Forall (λ b, (bval b =? 0) = false) name.
Proof.
  induction name as [|b name IH]; [constructor|]. cbn [forallb]. intros [Hb Hn]%andb_true_iff.
  apply in_range_iff in Hb. constructor; [|auto]. apply Z.eqb_neq. lia.
Qed.

(** What may follow the name in the twelve-byte command field. *)
Definition name_padding (pad : bytes) : Prop := ∀ b, head pad = Some b → bval b = 0.

Lemma position_app_zero name pad : Forall (λ b, (bval b =? 0) = false) name → name_padding pad →
  position (λ b, bval b =? 0) (name ++ pad) =
  match pad with [] => None | _ => Some (length name) end.
Proof.
  intros Hn Hp. destruct pad as [|z pad].
  - rewrite app_nil_r. by apply position_None.
  - apply position_Some. split.
    + exists z. rewrite list_lookup_middle by done. split; [done|]. by rewrite (Hp z).
    + intros j y Hj Hy. rewrite lookup_app_l in Hy by done.
      rewrite Forall_lookup in Hn. eauto.
Qed.

Lemma command_of_app name pad : forallb printable name = true → name_padding pad →
  length (name ++ pad) = 12%nat → command_of (name ++ pad) = name.
Proof.
  intros Hn%printable_nonzero Hp HL. unfold command_of. rewrite position_app_zero by done.
  destruct pad as [|z pad]; cbn [default from_option id].
  - rewrite app_nil_r in *. rewrite take_ge by lia. done.
  - by rewrite take_app_length.
Qed.

Lemma command_of_split field : length field = 12%nat →
  ∃ pad, name_padding pad ∧ field = command_of field ++ pad.
Proof.
  intros HL. unfold command_of.
  destruct (position (λ b, bval b =? 0) field) as [i|] eqn:E; cbn [default from_option id].
  - apply position_Some in E as [(x & Hx & Hz) _]. exists (drop i field).
    rewrite take_drop. split; [|done]. intros b Hb. rewrite (drop_S _ x) in Hb by done.
    cbn in Hb. injection Hb as <-. by apply Z.eqb_eq.
  - exists []. rewrite take_ge by lia. rewrite app_nil_r. done.
Qed.

Lemma reads_exact n : reads (read_exact n) (λ b, length b = n) (λ b, b).
Proof.
  intros bs a rest. unfold read_exact. case_bool_decide as Hn.
  - split; [done|]. intros [HL ->]. rewrite length_app in Hn. lia.
  - split.
    + intros [= <- <-]. rewrite length_take, take_drop. split; [lia|done].
    + intros [<- ->]. by rewrite take_app_length, drop_app_length.
Qed.

Lemma frame_header_exact magic header name len sum rest : is_u32 magic →
  parse_frame_header magic header = Ok ((name, len, sum), rest) ↔
  ∃ pad, header = le_bytes 4 magic ++ (name ++ pad) ++ le_bytes 4 len ++ sum ++ rest ∧
    length (name ++ pad) = 12%nat ∧ name_padding pad ∧ forallb printable name = true ∧
    is_u32 len ∧ length sum = 4%nat.
Proof.
  intros Hm. unfold parse_frame_header. split.
  - intros E. apply reader_bind_Ok in E as (m & r1 & [_ ->]%reads_u32 & E).
    apply reader_bind_Ok in E as (? & ? & [->%Z.eqb_eq ->]%guard_Ok & E).
    apply reader_bind_Ok in E as (field & r2 & [HL ->]%reads_bytes & E).
    apply reader_bind_Ok in E as (? & ? & [_ ->]%guard_Ok & E).
    apply reader_bind_Ok in E as (? & ? & [Hpr ->]%guard_Ok & E).
    apply reader_bind_Ok in E as (n & r3 & [Hn ->]%reads_u32 & E).
    apply reader_bind_Ok in E as (s & r4 & [Hs ->]%reads_bytes & E).
    apply reader_ret_Ok in E as [[= <- <- <-] ->].
    destruct (command_of_split field HL) as (pad & Hpad & Hf). exists pad.
    rewrite <- Hf. done.
  - intros (pad & -> & HL & Hpad & Hpr & Hn & Hs).
    apply (reads_step _ _ _ _ _ _ _ reads_u32 Hm), guard_step; [apply Z.eqb_refl|].
    apply (reads_step _ _ _ _ _ _ _ (reads_bytes 12) HL). cbn zeta.
    rewrite command_of_app by done.
    apply guard_step; [by apply printable_utf8|]. apply guard_step; [done|].
    apply (reads_step _ _ _ _ _ _ _ reads_u32 Hn), (reads_step _ _ _ _ _ _ _ (reads_bytes 4) Hs).
    by apply reader_ret_Ok.
Qed.

(** The wire form of a message: the frame with any padding after the name. *)
Definition framed `{Sha256d} (magic : Z) (m : Message) (pad : bytes) : bytes :=
  le_bytes 4 magic ++ (list_byte_of_string (command m) ++ pad) ++
  le_bytes 4 (Z.of_nat (length (payload m))) ++ checksum (payload m) ++ payload m.

Definition message_wf (m : Message) (pad : bytes) : Prop :=
  length (list_byte_of_string (command m) ++ pad) = 12%nat ∧ name_padding pad ∧
  forallb printable (list_byte_of_string (command m)) = true ∧
  Z.of_nat (length (payload m)) ≤ MAX_PAYLOAD ∧
  wire_bytes m = 24 + Z.of_nat (length (payload m)).

Lemma length_checksum `{Sha256dLaws} data : length (checksum data) = 4%nat.
Proof. unfold checksum. rewrite length_take, length_sha256d. done. Qed.

Lemma read_message_iff `{Sha256dLaws} magic bs m rest : is_u32 magic →
  read_message magic bs = Ok (m, rest) ↔
  ∃ pad, message_wf m pad ∧ bs = framed magic m pad ++ rest.
Proof.
  intros Hm. unfold read_message, framed, message_wf. rewrite reader_bind_Ok. split.
  - intros (hd & r1 & [HL ->]%reads_exact & E).
    destruct (parse_frame_header magic hd) as [[[[name len] sum] r2]|] eqn:Eh; [|done].
    apply frame_header_exact in Eh as (pad & -> & Hf & Hpad & Hpr & Hlen & Hs); [|done].
    apply reader_bind_Ok in E as (? & ? & [Hmax%Z.leb_le ->]%guard_Ok & E).
    apply reader_bind_Ok in E as (data & r3 & [HD ->]%reads_exact & E).
    apply reader_bind_Ok in E as (? & ? & [Hsum ->]%guard_Ok & E).
    apply reader_ret_Ok in E as [<- ->]. cbn [command payload wire_bytes].
    rewrite list_byte_of_string_of_list_byte. bool_props. subst sum. unfold is_u32 in Hlen.
    rewrite !length_app, !length_le_bytes in HL. rewrite length_app in Hf.
    assert (r2 = []) as -> by (apply nil_length_inv; lia).
    replace (Z.of_nat (length data)) with len by lia.
    exists pad. rewrite length_app, !app_assoc, app_nil_r. split_and!; done || lia.
  - intros (pad & (Hf & Hpad & Hpr & Hmax & Hw) & ->).
    exists (le_bytes 4 magic ++ (list_byte_of_string (command m) ++ pad) ++
            le_bytes 4 (Z.of_nat (length (payload m))) ++ checksum (payload m) ++ []),
           (payload m ++ rest).
    assert (Hlen : is_u32 (Z.of_nat (length (payload m))))
      by (unfold is_u32, u32_max; unfold MAX_PAYLOAD in Hmax; lia).
    split.
    + apply reads_exact. rewrite app_nil_r, <- !app_assoc. split; [|done].
      rewrite app_assoc, !length_app, !length_le_bytes, length_checksum. rewrite length_app in Hf. lia.
    + rewrite (proj2 (frame_header_exact magic _ _ _ _ [] Hm)
        (ex_intro _ pad (conj eq_refl (conj Hf (conj Hpad (conj Hpr (conj Hlen (length_checksum _)))))))).
      apply guard_step; [by apply Z.leb_le|]. rewrite Nat2Z.id.
      apply (reads_step _ _ _ _ _ _ _ (reads_exact _) eq_refl).
      apply guard_step; [by apply bool_decide_eq_true|].
      apply reader_ret_Ok. split; [|done]. rewrite string_of_list_byte_of_string, <- Hw. by destruct m.
Qed.

(** ** Lemmas: payloads *)

Lemma run_cursor_reads {A} (r : reader A) P enc data a : reads r P enc →
  run_cursor r data = Ok a ↔ P a ∧ ∃ rest, data = enc a ++ rest.
Proof.
  intros Hr. unfold run_cursor. split.
  - destruct (r data) as [[a' rest]|] eqn:E; [|done]. intros [= <-].
    apply Hr in E as [Ha ->]. eauto.
  - intros [Ha [rest ->]]. by rewrite (proj2 (Hr _ a rest)).
Qed.

Definition headers_entry (h : BlockHeader) : bytes := header_serialize h ++ [x00].

Lemma reads_headers_entry : reads read_headers_entry header_wf headers_entry.
Proof.
  intros bs h rest. unfold read_headers_entry, headers_entry. split.
  - intros E. apply reader_bind_Ok in E as (raw & r1 & [_ ->]%reads_bytes & E).
    apply reader_bind_Ok in E as (h' & r2 & Eh & E).
    destruct (header_parse raw) as [h2|] eqn:Hp; [|done]. injection Eh as <- <-.
    apply header_exact in Hp as [Hw ->].
    apply reader_bind_Ok in E as (n & r3 & [_ ->]%reads_varint & E).
    apply reader_bind_Ok in E as (? & ? & [->%Z.eqb_eq ->]%guard_Ok & E).
    apply reader_ret_Ok in E as [<- ->]. split; [done|]. by rewrite <- !app_assoc.
  - intros [Hw ->]. rewrite <- app_assoc.
    apply (reads_step _ _ _ _ _ _ _ (reads_bytes 80) (length_header_serialize h Hw)).
    apply reader_bind_Ok. exists h, ([x00] ++ rest).
    split; [by rewrite (proj2 (header_exact _ _) (conj Hw eq_refl))|].
    assert (H0 : is_u64 0) by done.
    apply (reads_step _ _ _ _ _ _ _ reads_varint H0), guard_step; [done|].
    by apply reader_ret_Ok.
Qed.

(** A counted vector with a bound on the count. *)
Lemma reads_counted {A} (r : reader A) P enc limit e : reads r P enc → 0 ≤ limit ≤ u64_max →
  reads (n ← read_varint; guard_ (negb (n >? limit)) e;; read_n (Z.to_nat n) r)
    (λ l, Z.of_nat (length l) ≤ limit ∧ Forall P l)
    (λ l, write_varint (Z.of_nat (length l)) ++ concat (enc <$> l)).
Proof.
  intros Hr Hlim bs l rest. split.
  - intros E. apply reader_bind_Ok in E as (n & r1 & [Hn ->]%reads_varint & E).
    apply reader_bind_Ok in E as (? & ? & [Hl ->]%guard_Ok & E).
    apply (reads_n _ _ _ _ Hr) in E as [[HL HF] ->]. unfold is_u64 in Hn.
    rewrite negb_true_iff, Z.gtb_ltb, Z.ltb_ge in Hl. replace (Z.of_nat (length l)) with n by lia.
    rewrite app_assoc. split; [split; [lia|done]|done].
  - intros [[Hl HF] ->]. rewrite <- app_assoc.
    assert (Hn : is_u64 (Z.of_nat (length l))) by (unfold is_u64; lia).
    apply (reads_step _ _ _ _ _ _ _ reads_varint Hn), guard_step.
    { rewrite negb_true_iff, Z.gtb_ltb, Z.ltb_ge. lia. }
    rewrite Nat2Z.id. apply (reads_n _ _ _ _ Hr). done.
Qed.

Lemma parse_headers_iff data hs :
  parse_headers data = Ok hs ↔
  (Z.of_nat (length hs) ≤ 2000 ∧ Forall header_wf hs) ∧
  ∃ rest, data = (write_varint (Z.of_nat (length hs)) ++ concat (headers_entry <$> hs)) ++ rest.
Proof.
  refine (run_cursor_reads _ _ _ data hs (reads_counted _ _ _ 2000 _ reads_headers_entry _)). done.
Qed.

Lemma parse_headers_wf data hs : parse_headers data = Ok hs → Forall header_wf hs.
Proof. intros E. apply parse_headers_iff in E. tauto. Qed.

(** The frame is read exactly: a stream yields a message precisely when it
    starts with the network's magic, the printable name padded to twelve bytes,
    the length of a payload of at most 32 MiB, its checksum and that payload,
    and what follows is left in the stream; the frame the client writes for a
    printable command is one of these. *)
Theorem frame_exact `{Sha256dLaws} magic bs m rest : is_u32 magic →
  (read_message magic bs = Ok (m, rest) ↔
   ∃ pad, message_wf m pad ∧ bs = framed magic m pad ++ rest) ∧
  (length (list_byte_of_string (command m)) ≤ 12 →
   frame magic (command m) (payload m) =
   framed magic m (zeros (12 - length (list_byte_of_string (command m)))))%nat.
Proof. intros Hm. split; [by apply read_message_iff|done]. Qed.

Lemma frame_exact_witness :
  ∃ rest, read_message (H := demo_sha) 0xdab5bffa
    (frame (H := demo_sha) 0xdab5bffa "ping" [x01; x02] ++ [x03]) =
    Ok ({| command := "ping"; payload := [x01; x02]; wire_bytes := 26 |}, rest).
Proof.
  exists [x03].
  refine (proj2 (proj1 (@frame_exact demo_sha demo_sha_laws 0xdab5bffa _
    {| command := "ping"; payload := [x01; x02]; wire_bytes := 26 |} [x03] _)) _).
  - split; vm_compute; discriminate.
  - exists (zeros 8). split; [|vm_compute; reflexivity].
    split; [reflexivity|]. split; [intros b [= <-]; reflexivity|].
    split; [reflexivity|]. split; [vm_compute; discriminate|reflexivity].
Defined.
