(* ===== verification/Peer.v ===== *)
(** * Peers

    Models [crates/opencsv-cbf/src/peer.rs]: the request/response loops over one
    connection.  The connection is what the remote side will ever send before it
    closes or times out, and how many writes it still accepts; operations are
    state-and-error programs over it, whose state survives an error. *)

From Stdlib Require Import Strings.String.
From S2P Require Import Prelude Wire Block Network Messages.

Record Peer := {
  inbound : bytes;
  writes_accepted : nat;
  sent : list bytes;
  p_magic : Z;
  services : Z;
  start_height : Z;
  filter_bytes_fetched : Z;
  block_bytes_fetched : Z;
  versions_sent : Z;
  wire_bytes_sent : Z;
  wire_bytes_received : Z;
}.

Definition set_inbound (f : bytes → bytes) (p : Peer) : Peer :=
  {| inbound := f (inbound p); writes_accepted := writes_accepted p; sent := sent p;
     p_magic := p_magic p; services := services p; start_height := start_height p;
     filter_bytes_fetched := filter_bytes_fetched p; block_bytes_fetched := block_bytes_fetched p;
     versions_sent := versions_sent p; wire_bytes_sent := wire_bytes_sent p;
     wire_bytes_received := wire_bytes_received p |}.
Definition push_sent (message : bytes) (p : Peer) : Peer :=
  {| inbound := inbound p; writes_accepted := pred (writes_accepted p); sent := sent p ++ [message];
     p_magic := p_magic p; services := services p; start_height := start_height p;
     filter_bytes_fetched := filter_bytes_fetched p; block_bytes_fetched := block_bytes_fetched p;
     versions_sent := versions_sent p;
     wire_bytes_sent := wire_bytes_sent p + Z.of_nat (length message);
     wire_bytes_received := wire_bytes_received p |}.
(** Add to the counters: filter bytes, block bytes, versions sent, bytes received. *)
Definition count_bytes (filters blocks versions received : Z) (p : Peer) : Peer :=
  {| inbound := inbound p; writes_accepted := writes_accepted p; sent := sent p;
     p_magic := p_magic p; services := services p; start_height := start_height p;
     filter_bytes_fetched := filter_bytes_fetched p + filters;
     block_bytes_fetched := block_bytes_fetched p + blocks;
     versions_sent := versions_sent p + versions; wire_bytes_sent := wire_bytes_sent p;
     wire_bytes_received := wire_bytes_received p + received |}.
Definition set_version (info : VersionInfo) (p : Peer) : Peer :=
  {| inbound := inbound p; writes_accepted := writes_accepted p; sent := sent p;
     p_magic := p_magic p; services := vi_services info; start_height := vi_start_height info;
     filter_bytes_fetched := filter_bytes_fetched p; block_bytes_fetched := block_bytes_fetched p;
     versions_sent := versions_sent p; wire_bytes_sent := wire_bytes_sent p;
     wire_bytes_received := wire_bytes_received p |}.

(** ** Programs over a connection *)
Definition io (S A : Type) : Type := S → result Error A * S.

#[export] Instance io_ret S : MRet (io S) := λ A a s, (Ok a, s).
#[export] Instance io_bind S : MBind (io S) := λ A B f m s,
  match m s with (Ok a, s') => f a s' | (Err e, s') => (Err e, s') end.
Definition lift {S A} (r : result Error A) : io S A := λ s, (r, s).
Definition modify {S} (f : S → S) : io S () := λ s, (Ok tt, f s).
Definition get_state {S} : io S S := λ s, (Ok s, s).

(** What one header/filter-header server answers; the header chains are
    synchronised against this interface. *)
Class HeaderSource (S : Type) := {
  get_headers : list bytes → bytes → io S (list BlockHeader);
  get_cfheaders : Z → bytes → io S CfHeaders;
}.

Section peer.
Context `{Sha256d}.

Definition peer_write (command : string) (data : bytes) : io Peer () := λ p,
  match writes_accepted p with
  | O => (Err (EIo "write_all"), p)
  | S _ => (Ok tt, push_sent (frame (p_magic p) command data) p)
  end.

(** What a failed [read_message] leaves in the stream. *)
Definition stream_after_error (magic : Z) (stream : bytes) : bytes :=
  match read_exact 24 stream with
  | Err _ => []
  | Ok (header, rest) =>
    match parse_frame_header magic header with
    | Err _ => rest
    | Ok ((_, len, _), _) => if len <=? MAX_PAYLOAD then drop (Z.to_nat len) rest else rest
    end
  end.

Definition peer_read : io Peer Message := λ p,
  match read_message (p_magic p) (inbound p) with
  | Ok (m, rest) => (Ok m, count_bytes 0 0 0 (wire_bytes m) (set_inbound (λ _, rest) p))
  | Err _ => (Err (EProtocol "read from"), set_inbound (stream_after_error (p_magic p)) p)
  end.

Definition ignored_commands : list string :=
  ["getaddr"; "mempool"; "sendheaders"; "sendcmpct"; "feefilter"; "inv"; "addr";
   "wtxidrelay"; "sendaddrv2"; "pong"; "getdata"]%string.

(** One message consumes at least 24 bytes of the stream, so [fuel] as long as
    the stream is never used up. *)
Fixpoint next_message_loop (fuel : nat) : io Peer Message :=
  match fuel with
  | O => lift (Err (EProtocol "read from"))
  | S fuel =>
    message ← peer_read;
    if bool_decide (command message = "ping"%string) then
      peer_write "pong" (payload message);; next_message_loop fuel
    else if bool_decide (command message ∈ ["getheaders"; "getblocks"]%string) then
      peer_write "headers" [x00];; next_message_loop fuel
    else if bool_decide (command message ∈ ignored_commands) then next_message_loop fuel
    else mret message
  end.

Definition next_message : io Peer Message :=
  p ← get_state; next_message_loop (S (length (inbound p))).

Fixpoint request_loop (fuel : nat) (expected : list string) : io Peer Message :=
  match fuel with
  | O => lift (Err (EProtocol "read from"))
  | S fuel =>
    message ← next_message;
    if bool_decide (command message ∈ expected) then mret message
    else request_loop fuel expected
  end.

Definition request (command : string) (data : bytes) (expected : list string) : io Peer Message :=
  peer_write command data;;
  p ← get_state; request_loop (S (length (inbound p))) expected.

Definition peer_get_headers (locator : list bytes) (stop : bytes) : io Peer (list BlockHeader) :=
  message ← request "getheaders" (getheaders_payload locator stop) ["headers"%string];
  lift (parse_headers (payload message)).

Definition peer_get_cfheaders (start : Z) (stop : bytes) : io Peer CfHeaders :=
  message ← request "getcfheaders" (getcfilter_range_payload BASIC_FILTER_TYPE start stop)
    ["cfheaders"%string];
  parsed ← lift (parse_cfheaders (payload message));
  if bool_decide (stop_hash parsed = stop) then mret parsed
  else lift (Err (EProtocol "cfheaders stop-hash mismatch")).

Definition peer_get_cfilter (start : Z) (block_hash : bytes) : io Peer CFilter :=
  message ← request "getcfilters" (getcfilter_range_payload BASIC_FILTER_TYPE start block_hash)
    ["cfilter"%string];
  modify (count_bytes (Z.of_nat (length (payload message))) 0 0 0);;
  parsed ← lift (parse_cfilter (payload message));
  if bool_decide (cf_block_hash parsed = block_hash) then mret parsed
  else lift (Err (EProtocol "cfilter for wrong block")).

Fixpoint get_block_loop (inv_types : list Z) (block_hash : bytes) : io Peer Block :=
  match inv_types with
  | [] => lift (Err (EProtocol "peer does not have block"))
  | inv_type :: inv_types =>
    message ← request "getdata" (getdata_payload inv_type block_hash) ["block"; "notfound"]%string;
    if bool_decide (command message = "block"%string) then
      modify (count_bytes 0 (Z.of_nat (length (payload message))) 0 0);;
      block ← lift (parse_block_message (payload message));
      if bool_decide (header_hash (header block) = block_hash) then mret block
      else lift (Err (EProtocol "peer sent a block that hashes differently"))
    else get_block_loop inv_types block_hash
  end.

Definition get_block (block_hash : bytes) : io Peer Block :=
  get_block_loop [MSG_WITNESS_BLOCK; MSG_BLOCK] block_hash.

Definition our_services : Z := Z.lor NODE_WITNESS NODE_COMPACT_FILTERS.

Fixpoint handshake_loop (fuel : nat) (got_version got_verack : bool) : io Peer () :=
  if got_version && got_verack then mret tt else
  match fuel with
  | O => lift (Err (EProtocol "read from"))
  | S fuel =>
    message ← next_message;
    if bool_decide (command message = "version"%string) then
      info ← lift (parse_version (payload message));
      modify (set_version info);;
      peer_write "verack" [];;
      handshake_loop fuel true got_verack
    else if bool_decide (command message = "verack"%string) then
      handshake_loop fuel got_version true
    else if bool_decide (command message ∈ ["wtxidrelay"; "sendaddrv2"]%string) then
      handshake_loop fuel got_version got_verack
    else lift (Err (EProtocol "expected version/verack"))
  end.

(** [tip_height as i32] *)
Definition handshake (tip_height now : Z) : io Peer () :=
  peer_write "version"
    (version_payload our_services (to_signed 32 (tip_height mod 2 ^ 32)) now);;
  modify (count_bytes 0 0 1 0);;
  p ← get_state; handshake_loop (S (length (inbound p))) false false.

(** [Peer::connect] once the socket is open: [stream] is what the remote sends. *)
Definition connect (params : Params) (stream : bytes) (accepts : nat) (tip_height now : Z)
  : result Error Peer :=
  let peer := {| inbound := stream; writes_accepted := accepts; sent := []; p_magic := magic params;
    services := 0; start_height := 0; filter_bytes_fetched := 0; block_bytes_fetched := 0;
    versions_sent := 0; wire_bytes_sent := 0; wire_bytes_received := 0 |} in
  match handshake tip_height now peer with
  | (Err e, _) => Err e
  | (Ok _, peer) =>
    if Z.land (services peer) our_services =? our_services then Ok peer
    else Err (EProtocol "peer lacks required witness/compact-filter services")
  end.

#[export] Instance peer_header_source : HeaderSource Peer :=
  {| get_headers := peer_get_headers; get_cfheaders := peer_get_cfheaders |}.

End peer.

(** ** Lemmas: the loops consume the stream *)
Section peer_lemmas.
Context `{Sha256dLaws}.

Lemma io_bind_Ok {S A B} (m : io S A) (f : A → io S B) s b s' :
  (m ≫= f) s = (Ok b, s') ↔ ∃ a mid, m s = (Ok a, mid) ∧ f a mid = (Ok b, s').
Proof.
  unfold mbind, io_bind. destruct (m s) as [[a|e] mid]; [naive_solver|].
  split; [done|]. by intros (? & ? & [=] & _).
Qed.

Lemma io_step {S A B} (m : io S A) (f : A → io S B) s a mid out :
  m s = (Ok a, mid) → f a mid = out → (m ≫= f) s = out.
Proof. unfold mbind, io_bind. by intros -> <-. Qed.

Lemma peer_read_shrinks p m p' : peer_read p = (Ok m, p') →
  (length (inbound p') + 24 ≤ length (inbound p))%nat.
Proof.
  unfold peer_read. destruct (read_message (p_magic p) (inbound p)) as [[m' rest]|] eqn:E; [|done].
  intros [= <- <-]. cbn [count_bytes set_inbound inbound]. unfold read_message in E.
  apply reader_bind_Ok in E as (hd & r1 & [HL ->]%reads_exact & E).
  destruct (parse_frame_header _ hd) as [[[[name len] sum] r2]|]; [|done].
  apply reader_bind_Ok in E as (? & ? & [_ ->]%guard_Ok & E).
  apply reader_bind_Ok in E as (data & r3 & [_ ->]%reads_exact & E).
  apply reader_bind_Ok in E as (? & ? & [_ ->]%guard_Ok & E).
  apply reader_ret_Ok in E as [_ ->]. rewrite !length_app. lia.
Qed.

Lemma peer_write_keeps c d p r p' : peer_write c d p = (r, p') →
  inbound p' = inbound p ∧ p_magic p' = p_magic p ∧ writes_accepted p' = pred (writes_accepted p).
Proof. unfold peer_write. destruct (writes_accepted p) eqn:E; intros [= <- <-]; cbn; by rewrite ?E. Qed.

Lemma io_bind_ext {S A B} (m : io S A) (f g : A → io S B) s :
  (∀ a s', m s = (Ok a, s') → f a s' = g a s') → (m ≫= f) s = (m ≫= g) s.
Proof. unfold mbind, io_bind. destruct (m s) as [[a|e] s']; auto. Qed.

Lemma next_loop_fuel f g p : (length (inbound p) < f)%nat → (length (inbound p) < g)%nat →
  next_message_loop f p = next_message_loop g p.
Proof.
  revert g p; induction f as [|f IH]; intros [|g] p Hf Hg; try lia. cbn [next_message_loop].
  apply io_bind_ext. intros m p1 Hr%peer_read_shrinks.
  assert (Hw : ∀ c d, (peer_write c d;; next_message_loop f) p1 =
                      (peer_write c d;; next_message_loop g) p1).
  { intros c d. apply io_bind_ext. intros u p2 (Hi & _)%peer_write_keeps. apply IH; rewrite Hi; lia. }
  repeat case_bool_decide; auto; try done. apply IH; lia.
Qed.

Lemma next_message_unfold p : next_message p =
  (message ← peer_read;
   if bool_decide (command message = "ping"%string) then
     peer_write "pong" (payload message);; next_message
   else if bool_decide (command message ∈ ["getheaders"; "getblocks"]%string) then
     peer_write "headers" [x00];; next_message
   else if bool_decide (command message ∈ ignored_commands) then next_message
   else mret message) p.
Proof.
  unfold next_message, get_state. cbn [mbind io_bind next_message_loop].
  apply (io_bind_ext peer_read). intros m p1 Hr%peer_read_shrinks.
  assert (Hl : ∀ p2, inbound p2 = inbound p1 →
    next_message_loop (length (inbound p)) p2 = next_message p2).
  { intros p2 E. unfold next_message, get_state. cbn [mbind io_bind].
    apply next_loop_fuel; rewrite ?E; lia. }
  assert (Hw : ∀ c d, (peer_write c d;; next_message_loop (length (inbound p))) p1 =
                      (peer_write c d;; next_message) p1).
  { intros c d. apply io_bind_ext. intros u p2 (Hi & _)%peer_write_keeps. by apply Hl. }
  repeat case_bool_decide; auto; done.
Qed.

Lemma next_message_shrinks p m p' : next_message p = (Ok m, p') →
  (length (inbound p') < length (inbound p))%nat ∧ p_magic p' = p_magic p.
Proof.
  remember (length (inbound p)) as n eqn:Hn. revert p Hn.
  induction (lt_wf n) as [n _ IH]. intros p ->. rewrite next_message_unfold.
  intros E. apply io_bind_Ok in E as (m1 & p1 & Hr & E).
  assert (Hm1 : p_magic p1 = p_magic p).
  { unfold peer_read in Hr. destruct (read_message (p_magic p) (inbound p)) as [[]|]; [|done].
    by injection Hr as _ <-. }
  apply peer_read_shrinks in Hr.
  assert (Hrec : ∀ p2, inbound p2 = inbound p1 → p_magic p2 = p_magic p1 →
    next_message p2 = (Ok m, p') →
    (length (inbound p') < length (inbound p))%nat ∧ p_magic p' = p_magic p).
  { intros p2 Hi Hm2 E2. destruct (IH (length (inbound p2)) ltac:(rewrite Hi; lia) p2 eq_refl E2).
    rewrite Hi in *. split; [lia|congruence]. }
  assert (Hw : ∀ c d, (peer_write c d;; next_message) p1 = (Ok m, p') →
    (length (inbound p') < length (inbound p))%nat ∧ p_magic p' = p_magic p).
  { intros c d E2. apply io_bind_Ok in E2 as (u & p2 & (Hi & Hm2 & _)%peer_write_keeps & E2).
    eauto. }
  repeat case_bool_decide; eauto. injection E as <- <-. split; [lia|done].
Qed.

Lemma request_loop_fuel f g expected p : (length (inbound p) < f)%nat →
  (length (inbound p) < g)%nat → request_loop f expected p = request_loop g expected p.
Proof.
  revert g p; induction f as [|f IH]; intros [|g] p Hf Hg; try lia. cbn [request_loop].
  apply io_bind_ext. intros m p1 [Hr _]%next_message_shrinks. case_bool_decide; [done|].
  apply IH; lia.
Qed.

(** The loop of [request] after its write. *)
Definition await (expected : list string) : io Peer Message :=
  p ← get_state; request_loop (S (length (inbound p))) expected.

Lemma await_unfold expected p : await expected p =
  (message ← next_message;
   if bool_decide (command message ∈ expected) then mret message else await expected) p.
Proof.
  change (await expected p) with
    ((message ← next_message; if bool_decide (command message ∈ expected) then mret message
      else request_loop (length (inbound p)) expected) p).
  apply io_bind_ext. intros m p1 [Hr _]%next_message_shrinks. case_bool_decide; [done|].
  change (await expected p1) with (request_loop (S (length (inbound p1))) expected p1).
  apply request_loop_fuel; lia.
Qed.

(** Messages the client answers or drops without returning them. *)
Definition housekeeping (c : string) : Prop :=
  c = "ping"%string ∨ c ∈ ["getheaders"; "getblocks"]%string ∨ c ∈ ignored_commands.

#[export] Instance housekeeping_dec c : Decision (housekeeping c).
Proof. unfold housekeeping. apply _. Defined.

Lemma peer_read_framed p m pad rest : is_u32 (p_magic p) → message_wf m pad →
  inbound p = framed (p_magic p) m pad ++ rest →
  ∃ p', peer_read p = (Ok m, p') ∧ inbound p' = rest ∧ p_magic p' = p_magic p ∧
    writes_accepted p' = writes_accepted p ∧ block_bytes_fetched p' = block_bytes_fetched p.
Proof.
  intros Hm Hw Hi. eexists. unfold peer_read. rewrite Hi.
  rewrite (proj2 (read_message_iff _ _ m rest Hm)) by eauto. split; [reflexivity|]. cbn. by rewrite Z.add_0_r.
Qed.

Lemma next_message_framed p m pad rest : is_u32 (p_magic p) → message_wf m pad →
  inbound p = framed (p_magic p) m pad ++ rest → (0 < writes_accepted p)%nat →
  ∃ p', inbound p' = rest ∧ p_magic p' = p_magic p ∧
    (pred (writes_accepted p) ≤ writes_accepted p')%nat ∧
    block_bytes_fetched p' = block_bytes_fetched p ∧
    next_message p = if decide (housekeeping (command m)) then next_message p' else (Ok m, p').
Proof.
  intros Hm Hw Hi Hacc.
  destruct (peer_read_framed p m pad rest Hm Hw Hi) as (p1 & Hr & Hi1 & Hm1 & Hw1 & Hb1).
  assert (Hnext : ∀ c d, ∃ p2, peer_write c d p1 = (Ok tt, p2) ∧ inbound p2 = rest ∧
    p_magic p2 = p_magic p ∧ writes_accepted p2 = pred (writes_accepted p) ∧
    block_bytes_fetched p2 = block_bytes_fetched p).
  { intros c d. unfold peer_write. destruct (writes_accepted p1) eqn:E; [lia|].
    eexists. split; [done|]. cbn. rewrite E. auto with lia. }
  rewrite next_message_unfold. unfold housekeeping.
  destruct (decide (command m = "ping"%string)) as [Hp|Hp].
  { destruct (Hnext "pong"%string (payload m)) as (p2 & Hwr & ? & ? & ? & ?). exists p2.
    rewrite decide_True by tauto. split_and!; [done|done|lia|done|].
    apply (io_step _ _ _ _ _ _ Hr). rewrite bool_decide_eq_true_2 by done.
    by apply (io_step _ _ _ _ _ _ Hwr). }
  destruct (decide (command m ∈ ["getheaders"; "getblocks"]%string)) as [Hg|Hg].
  { destruct (Hnext "headers"%string [x00]) as (p2 & Hwr & ? & ? & ? & ?). exists p2.
    rewrite decide_True by tauto. split_and!; [done|done|lia|done|].
    apply (io_step _ _ _ _ _ _ Hr). rewrite bool_decide_eq_false_2, bool_decide_eq_true_2 by done.
    by apply (io_step _ _ _ _ _ _ Hwr). }
  exists p1. split_and!; [done|done|lia|done|]. apply (io_step _ _ _ _ _ _ Hr).
  rewrite !(bool_decide_eq_false_2 (command m = _)), (bool_decide_eq_false_2 (_ ∈ [_; _])) by done.
  case_bool_decide; case_decide; try done; tauto.
Qed.

(** A request gets its answer through any amount of other traffic, provided the
    socket accepts a reply to each. *)
Lemma await_reply expected noise p m pad rest : is_u32 (p_magic p) →
  Forall (λ x, message_wf x.1 x.2 ∧ command x.1 ∉ expected) noise →
  message_wf m pad → command m ∈ expected → ¬ housekeeping (command m) →
  (length noise < writes_accepted p)%nat →
  inbound p = concat ((λ x, framed (p_magic p) x.1 x.2) <$> noise) ++
              framed (p_magic p) m pad ++ rest →
  ∃ p', await expected p = (Ok m, p') ∧ inbound p' = rest ∧
        block_bytes_fetched p' = block_bytes_fetched p.
Proof.
  intros Hm Hn Hw He Hh. revert p Hm. induction Hn as [|[n npad] noise [Hnw Hne] _ IH];
    intros p Hm Hacc Hi; cbn [fmap list_fmap concat length] in *.
  - destruct (next_message_framed p m pad rest Hm Hw Hi) as (p1 & Hi1 & _ & _ & Hb & E); [lia|].
    rewrite decide_False in E by done. exists p1. split; [|done].
    rewrite await_unfold. apply (io_step _ _ _ _ _ _ E). by rewrite bool_decide_eq_true_2.
  - rewrite <- app_assoc in Hi. cbn [fst snd] in Hi.
    destruct (next_message_framed p n npad _ Hm Hnw Hi) as (p1 & Hi1 & Hm1 & Ha & Hb & E); [lia|].
    destruct (IH p1) as (p' & Haw & Hi' & Hb'); [by rewrite Hm1|lia|by rewrite Hi1, Hm1|].
    exists p'. split; [|by rewrite <- Hb]. rewrite await_unfold.
    destruct (decide (housekeeping (command n))).
    + rewrite await_unfold in Haw. unfold mbind, io_bind in *. by rewrite E.
    + apply (io_step _ _ _ _ _ _ E). by rewrite bool_decide_eq_false_2.
Qed.

Lemma request_reply c d expected noise p m pad rest : is_u32 (p_magic p) →
  Forall (λ x, message_wf x.1 x.2 ∧ command x.1 ∉ expected) noise →
  message_wf m pad → command m ∈ expected → ¬ housekeeping (command m) →
  (S (length noise) < writes_accepted p)%nat →
  inbound p = concat ((λ x, framed (p_magic p) x.1 x.2) <$> noise) ++
              framed (p_magic p) m pad ++ rest →
  ∃ p', request c d expected p = (Ok m, p') ∧ inbound p' = rest ∧
        block_bytes_fetched p' = block_bytes_fetched p.
Proof.
  intros Hm Hn Hw He Hh Hacc Hi. unfold request.
  destruct (writes_accepted p) as [|a] eqn:Ea; [lia|].
  assert (Hwr : peer_write c d p = (Ok tt, push_sent (frame (p_magic p) c d) p))
    by (unfold peer_write; by rewrite Ea).
  destruct (await_reply expected noise (push_sent (frame (p_magic p) c d) p) m pad rest)
    as (p' & Haw & Hi' & Hb'); try done.
  { cbn. rewrite Ea. cbn. lia. }
  exists p'. split; [|done]. by apply (io_step _ _ _ _ _ _ Hwr).
Qed.

Lemma get_headers_reply locator stop noise hs p pad rest : is_u32 (p_magic p) →
  let m := {| command := "headers";
    payload := write_varint (Z.of_nat (length hs)) ++ concat (headers_entry <$> hs);
    wire_bytes := 24 + Z.of_nat (length (write_varint (Z.of_nat (length hs)) ++
                                         concat (headers_entry <$> hs))) |} in
  Forall (λ x, message_wf x.1 x.2 ∧ command x.1 ≠ "headers"%string) noise →
  message_wf m pad → Z.of_nat (length hs) ≤ 2000 → Forall header_wf hs →
  (S (length noise) < writes_accepted p)%nat →
  inbound p = concat ((λ x, framed (p_magic p) x.1 x.2) <$> noise) ++
              framed (p_magic p) m pad ++ rest →
  ∃ p', peer_get_headers locator stop p = (Ok hs, p') ∧ inbound p' = rest.
Proof.
  intros Hm m Hn Hw HL Hwf Hacc Hi.
  destruct (request_reply "getheaders" (getheaders_payload locator stop) ["headers"%string]
    noise p m pad rest) as (p' & Hr & Hi' & _); try done.
  - eapply Forall_impl; [exact Hn|]. cbn. intros x [? ?]. split; [done|]. set_solver.
  - set_solver.
  - apply (bool_decide_unpack _). vm_compute. exact I.
  - exists p'. split; [|done]. unfold peer_get_headers. apply (io_step _ _ _ _ _ _ Hr).
    unfold lift. f_equal. apply parse_headers_iff. split; [done|]. exists []. by rewrite app_nil_r.
Qed.

Lemma get_block_loop_hash types hash p b p' :
  get_block_loop types hash p = (Ok b, p') → header_hash (header b) = hash.
Proof.
  revert p; induction types as [|t types IH]; intros p; cbn [get_block_loop]; [done|].
  intros E. apply io_bind_Ok in E as (m & p1 & _ & E). case_bool_decide; [|by eapply IH].
  apply io_bind_Ok in E as (u & p2 & _ & E). apply io_bind_Ok in E as (b1 & p3 & _ & E).
  case_bool_decide; [|done]. by injection E as <- <-.
Qed.

Lemma get_block_reply hash noise data b p pad rest : is_u32 (p_magic p) →
  let m := {| command := "block"; payload := data; wire_bytes := 24 + Z.of_nat (length data) |} in
  Forall (λ x, message_wf x.1 x.2 ∧ command x.1 ∉ ["block"; "notfound"]%string) noise →
  message_wf m pad → block_parse data = Ok b → header_hash (header b) = hash →
  (S (length noise) < writes_accepted p)%nat →
  inbound p = concat ((λ x, framed (p_magic p) x.1 x.2) <$> noise) ++
              framed (p_magic p) m pad ++ rest →
  ∃ p', get_block hash p = (Ok b, p') ∧ inbound p' = rest ∧
    block_bytes_fetched p' = block_bytes_fetched p + Z.of_nat (length data).
Proof.
  intros Hm m Hn Hw Hb Hh Hacc Hi.
  destruct (request_reply "getdata" (getdata_payload MSG_WITNESS_BLOCK hash)
    ["block"; "notfound"]%string noise p m pad rest) as (p' & Hr & Hi' & Hbb); try done.
  - set_solver.
  - apply (bool_decide_unpack _). vm_compute. exact I.
  - eexists. split; [|split].
    + unfold get_block. cbn [get_block_loop]. apply (io_step _ _ _ _ _ _ Hr).
      rewrite bool_decide_eq_true_2 by done. cbn [mbind io_bind modify lift].
      unfold parse_block_message. cbn [payload m]. rewrite Hb.
      unfold modify, lift, mbind, io_bind. by rewrite bool_decide_eq_true_2 by done.
    + done.
    + cbn. by rewrite Hbb.
Qed.
End peer_lemmas.

Lemma handshake_loop_fuel `{Sha256d} f g v a p : (length (inbound p) < f)%nat →
  (length (inbound p) < g)%nat → handshake_loop f v a p = handshake_loop g v a p.
Proof.
  revert g v a p; induction f as [|f IH]; intros [|g] v a p Hf Hg; try lia. cbn [handshake_loop].
  destruct (v && a); [done|]. apply io_bind_ext. intros m p1 [Hr _]%next_message_shrinks.
  repeat case_bool_decide; try done; try (apply IH; lia).
  apply io_bind_ext. intros info p2 [= _ <-]. apply io_bind_ext. intros u p2 [= <- <-].
  apply io_bind_ext. intros u' p3 (Hi & _)%peer_write_keeps. apply IH; rewrite Hi; cbn; lia.
Qed.


(** Whatever a peer sends, a block is returned only when its header hashes
    to the one asked for.  When the peer does send that block, after any other
    traffic (which includes pings and requests, answered as long as the socket
    accepts writes), that block is returned, the stream is left just after it
    and its payload is added to the byte count: the request loop always ends. *)
Theorem get_block_exchange `{Sha256dLaws} hash noise data b p pad rest : is_u32 (p_magic p) →
  let m := {| command := "block"; payload := data; wire_bytes := 24 + Z.of_nat (length data) |} in
  (∀ b' p', get_block hash p = (Ok b', p') → header_hash (header b') = hash) ∧
  (Forall (λ x, message_wf x.1 x.2 ∧ command x.1 ∉ ["block"; "notfound"]%string) noise →
   message_wf m pad → block_parse data = Ok b → header_hash (header b) = hash →
   (S (length noise) < writes_accepted p)%nat →
   inbound p = concat ((λ x, framed (p_magic p) x.1 x.2) <$> noise) ++
               framed (p_magic p) m pad ++ rest →
   ∃ p', get_block hash p = (Ok b, p') ∧ inbound p' = rest ∧
     block_bytes_fetched p' = block_bytes_fetched p + Z.of_nat (length data)).
Proof.
  intros Hm m. split; [intros; by eapply get_block_loop_hash|].
  intros. by eapply get_block_reply.
Qed.

Section demo.
#[local] Existing Instance demo_sha.

Definition demo_block : Block := {| header := demo_genesis; txs := [] |}.
Definition demo_block_bytes : bytes := header_serialize demo_genesis ++ [x00].
Definition demo_ping : Message := {| command := "ping"; payload := [x07]; wire_bytes := 25 |}.
Definition demo_block_message : Message :=
  {| command := "block"; payload := demo_block_bytes; wire_bytes := 105 |}.
Definition demo_peer : Peer :=
  {| inbound := framed 0xdab5bffa demo_ping (zeros 8) ++
                framed 0xdab5bffa demo_block_message (zeros 7) ++ [x09];
     writes_accepted := 3; sent := []; p_magic := 0xdab5bffa; services := 0; start_height := 0;
     filter_bytes_fetched := 0; block_bytes_fetched := 0; versions_sent := 0;
     wire_bytes_sent := 0; wire_bytes_received := 0 |}.

Lemma get_block_exchange_witness :
  ∃ p', get_block (header_hash demo_genesis) demo_peer = (Ok demo_block, p') ∧
    inbound p' = [x09] ∧ block_bytes_fetched p' = 81.
Proof.
  assert (Hpad : ∀ n, name_padding (zeros n)) by (intros [|n] b E; [done|by injection E as <-]).
  refine (proj2 (@get_block_exchange demo_sha demo_sha_laws (header_hash demo_genesis)
    [(demo_ping, zeros 8)] demo_block_bytes demo_block demo_peer (zeros 7) [x09] _) _ _ _ _ _ _).
  - split; vm_compute; discriminate.
  - apply List.Forall_cons; [|apply List.Forall_nil]. split.
    + split; [reflexivity|]. split; [apply Hpad|]. split; [reflexivity|].
      split; [vm_compute; discriminate|reflexivity].
    + apply (bool_decide_unpack _). vm_compute. exact I.
  - split; [reflexivity|]. split; [apply Hpad|]. split; [reflexivity|].
    split; [vm_compute; discriminate|reflexivity].
  - vm_compute. reflexivity.
  - reflexivity.
  - cbn. lia.
  - cbn [fmap list_fmap concat]. rewrite app_nil_r. reflexivity.
Defined.
End demo.
