(* ===== verification/Gcs.v ===== *)
(** * Compact block filters

    Models [crates/opencsv-cbf/src/siphash.rs] and [gcs.rs]: SipHash-2-4, the
    bit streams, Golomb-Rice coding, filter construction and membership
    queries, and the filter hash and header. *)

From S2P Require Import Prelude Wire Messages.

(** ** SipHash-2-4 on [u64] words *)
Module SipHash.

Definition C0 : Z := 0x736f6d6570736575.
Definition C1 : Z := 0x646f72616e646f6d.
Definition C2 : Z := 0x6c7967656e657261.
Definition C3 : Z := 0x7465646279746573.

Definition word : Z := 2 ^ 64.
Definition wrapping_add (a b : Z) : Z := (a + b) mod word.
Definition rotate_left (x n : Z) : Z := Z.lor (Z.shiftl x n mod word) (Z.shiftr x (64 - n)).

Record State := { v0 : Z; v1 : Z; v2 : Z; v3 : Z }.

Definition round (s : State) : State :=
  let a := wrapping_add (v0 s) (v1 s) in
  let b := Z.lxor (rotate_left (v1 s) 13) a in
  let a := rotate_left a 32 in
  let c := wrapping_add (v2 s) (v3 s) in
  let d := Z.lxor (rotate_left (v3 s) 16) c in
  let a := wrapping_add a d in
  let d := Z.lxor (rotate_left d 21) a in
  let c := wrapping_add c b in
  let b := Z.lxor (rotate_left b 17) c in
  let c := rotate_left c 32 in
  {| v0 := a; v1 := b; v2 := c; v3 := d |}.

(** Absorb one word: xor into [v3], two rounds, xor into [v0]. *)
Definition absorb (s : State) (m : Z) : State :=
  let s := round (round {| v0 := v0 s; v1 := v1 s; v2 := v2 s; v3 := Z.lxor (v3 s) m |}) in
  {| v0 := Z.lxor (v0 s) m; v1 := v1 s; v2 := v2 s; v3 := v3 s |}.

(** [chunks_exact(8)] and its remainder. *)
Definition full_chunks (msg : bytes) : list bytes :=
  take (length msg / 8) (chunks 8 msg).
Definition remainder (msg : bytes) : bytes := drop (8 * (length msg / 8)) msg.

Fixpoint last_word_loop (i : Z) (rest : bytes) (b : Z) : Z :=
  match rest with
  | [] => b
  | byte :: rest => last_word_loop (i + 1) rest (Z.lor b (Z.shiftl (bval byte) (8 * i) mod word))
  end.

Definition siphash24 (k0 k1 : Z) (msg : bytes) : Z :=
  let s := {| v0 := Z.lxor C0 k0; v1 := Z.lxor C1 k1; v2 := Z.lxor C2 k0; v3 := Z.lxor C3 k1 |} in
  let s := foldl absorb s (le_val <$> full_chunks msg) in
  let b := Z.shiftl (Z.land (Z.of_nat (length msg)) 0xff) 56 mod word in
  let s := absorb s (last_word_loop 0 (remainder msg) b) in
  let s := {| v0 := v0 s; v1 := v1 s; v2 := Z.lxor (v2 s) 0xff; v3 := v3 s |} in
  let s := round (round (round (round s))) in
  Z.lxor (Z.lxor (v0 s) (v1 s)) (Z.lxor (v2 s) (v3 s)).

(** The published vectors for the key 00..0f and the inputs 00, 01, ... *)
Example reference_vectors :
  (λ i, siphash24 0x0706050403020100 0x0f0e0d0c0b0a0908 (bof <$> seqZ 0 i)) <$> [0; 1; 7; 8; 14; 15]
  = [0x726fdb47dd0e0e31; 0x74f839c593dc67fd; 0xab0200f58b01d137; 0x93f5f5799a932462;
     0xf723ca908e7af2ee; 0xa129ca6149be45e5].
Proof. vm_compute. reflexivity. Qed.

End SipHash.

(** ** Parameters *)
Definition BASIC_FILTER_P : nat := 19.
Definition BASIC_FILTER_M : Z := 784931.

Definition filter_key (block_hash : bytes) : bytes := take 16 block_hash.

Definition map_into_range (h f : Z) : Z := Z.shiftr (h * f) 64.

Definition hash_to_range (key item : bytes) (n m : Z) : Z :=
  map_into_range (SipHash.siphash24 (le_val (slice 0 8 key)) (le_val (slice 8 16 key)) item)
    (n * m mod 2 ^ 64).

(** ** Bit streams, most significant bit first *)
Record BitWriter := { bw_bytes : bytes; used : nat }.

Definition new_writer : BitWriter := {| bw_bytes := []; used := 0 |}.

(** [*last |= 1 << (7 - used)] *)
Fixpoint or_last (mask : Z) (bs : bytes) : bytes :=
  match bs with
  | [] => []
  | [b] => [bof (Z.lor (bval b) mask)]
  | b :: bs => b :: or_last mask bs
  end.

Definition write_bit (bit : Z) (w : BitWriter) : BitWriter :=
  let bs := if bool_decide (used w = 0)%nat then bw_bytes w ++ [x00] else bw_bytes w in
  let bs := if bit =? 1 then or_last (Z.shiftl 1 (7 - Z.of_nat (used w))) bs else bs in
  {| bw_bytes := bs; used := ((used w + 1) mod 8)%nat |}.

(** [for i in (0..nbits).rev()] *)
Fixpoint write (data : Z) (nbits : nat) (w : BitWriter) : BitWriter :=
  match nbits with
  | O => w
  | S i => write data i (write_bit (Z.land (Z.shiftr data (Z.of_nat i)) 1) w)
  end.

Definition golomb_rice_encode (p : nat) (x : Z) (w : BitWriter) : BitWriter :=
  let q := Z.shiftr x (Z.of_nat p) in
  write x p (write 0 1 (Nat.iter (Z.to_nat q) (write 1 1) w)).

Record BitReader := { br_data : bytes; bit_pos : nat }.

Definition stream_truncated : Error := EFilter "GCS bitstream truncated".

Definition read_bit (r : BitReader) : result Error (Z * BitReader) :=
  if bool_decide (length (br_data r) * 8 ≤ bit_pos r)%nat then Err stream_truncated
  else
    let byte := nth (bit_pos r / 8) (br_data r) x00 in
    Ok (Z.land (Z.shiftr (bval byte) (7 - Z.of_nat (bit_pos r mod 8))) 1,
        {| br_data := br_data r; bit_pos := S (bit_pos r) |}).

Fixpoint read (nbits : nat) (value : Z) (r : BitReader) : result Error (Z * BitReader) :=
  match nbits with
  | O => Ok (value, r)
  | S n => '(bit, r) ← read_bit r; read n (Z.lor (Z.shiftl value 1 mod 2 ^ 64) bit) r
  end.

(** The unary part; each turn reads a bit, so a fuel of the stream's length in
    bits ends exactly where [read_bit] reports the truncation. *)
Fixpoint quotient_loop (fuel : nat) (q : Z) (r : BitReader) : result Error (Z * BitReader) :=
  match fuel with
  | O => Err stream_truncated
  | S fuel =>
    '(bit, r) ← read_bit r;
    if bit =? 1 then
      if q + 1 >? 2 ^ 32 then Err (EFilter "GCS quotient unreasonably large")
      else quotient_loop fuel (q + 1) r
    else Ok (q, r)
  end.

Definition golomb_rice_decode (p : nat) (r : BitReader) : result Error (Z * BitReader) :=
  '(q, r) ← quotient_loop (S (length (br_data r) * 8)) 0 r;
  '(x, r) ← read p 0 r;
  Ok ((Z.shiftl q (Z.of_nat p) mod 2 ^ 64 + x) mod 2 ^ 64, r).

(** ** Filters *)

(** The distinct elements; the set's order is immaterial, as the hashed values
    are sorted. *)
Definition element_set (elements : list bytes) : list bytes := remove_dups elements.

Fixpoint encode_deltas (p : nat) (last : Z) (values : list Z) (w : BitWriter) : BitWriter :=
  match values with
  | [] => w
  | value :: values => encode_deltas p value values (golomb_rice_encode p (value - last) w)
  end.

Definition encode (elements : list bytes) (key : bytes) (p : nat) (m : Z) : bytes :=
  let set := element_set elements in
  let n := Z.of_nat (length set) in
  if n =? 0 then write_varint n
  else
    let hashed := merge_sort Z.le ((λ item, hash_to_range key item n m) <$> set) in
    write_varint n ++ bw_bytes (encode_deltas p 0 hashed new_writer).

Record GcsFilter := { gcs_n : Z; compressed : bytes }.

Definition gcs_parse (serialized : bytes) : result Error GcsFilter :=
  '(n, rest) ← read_varint serialized;
  ensure (negb (n >=? 2 ^ 32)) (EFilter "GCS N out of range");;
  ensure (negb ((n =? 0) && negb (bool_decide (rest = [])))) (EFilter "GCS filter with N=0 has data");;
  Ok {| gcs_n := n; compressed := rest |}.

Fixpoint match_loop (n : nat) (p : nat) (target last : Z) (r : BitReader) : result Error bool :=
  match n with
  | O => Ok false
  | S n =>
    '(delta, r) ← golomb_rice_decode p r;
    value ← ok_or (checked_add64 last delta) (EFilter "GCS value overflow during decode");
    if value =? target then Ok true
    else if value >? target then Ok false
    else match_loop n p target value r
  end.

Definition matches (f : GcsFilter) (key item : bytes) (p : nat) (m : Z) : result Error bool :=
  if gcs_n f =? 0 then Ok false
  else match_loop (Z.to_nat (gcs_n f)) p (hash_to_range key item (gcs_n f) m) 0
    {| br_data := compressed f; bit_pos := 0 |}.

Definition filter_hash `{Sha256d} (serialized_filter : bytes) : bytes := sha256d serialized_filter.

Definition filter_header `{Sha256d} (hash previous : bytes) : bytes := sha256d (hash ++ previous).

(** ** Lemmas: streams as lists of bits *)
Definition byte_bits (b : byte) : list bool := (λ i, Z.testbit (bval b) (7 - i)) <$> seqZ 0 8.
Definition bits_of (bs : bytes) : list bool := concat (byte_bits <$> bs).

(** The [n] low bits of [x], highest first. *)
Fixpoint bits_msb (n : nat) (x : Z) : list bool :=
  match n with O => [] | S i => Z.testbit x (Z.of_nat i) :: bits_msb i x end.

Lemma length_byte_bits b : length (byte_bits b) = 8%nat.
Proof. done. Qed.

Lemma bits_of_app a b : bits_of (a ++ b) = bits_of a ++ bits_of b.
Proof. unfold bits_of. by rewrite fmap_app, concat_app. Qed.

Lemma length_bits_of bs : length (bits_of bs) = (length bs * 8)%nat.
Proof.
  induction bs as [|b bs IH]; [done|]. change (b :: bs) with ([b] ++ bs).
  rewrite bits_of_app, !length_app, IH. done.
Qed.

Lemma low_bit x i : 0 ≤ i → Z.land (Z.shiftr x i) 1 = Z.b2z (Z.testbit x i).
Proof.
  intros Hi. rewrite Z.testbit_spec' by done. rewrite Z.shiftr_div_pow2 by done.
  change 1 with (Z.ones 1) at 1. by rewrite Z.land_ones by done.
Qed.

Lemma bits_of_lookup bs i : (i < length bs * 8)%nat →
  bits_of bs !! i = Some (Z.testbit (bval (nth (i / 8) bs x00)) (7 - Z.of_nat (i mod 8))).
Proof.
  revert i; induction bs as [|b bs IH]; intros i Hi; cbn [length] in Hi; [lia|].
  unfold bits_of. cbn [fmap list_fmap concat]. change (concat (byte_bits <$> bs)) with (bits_of bs).
  destruct (decide (i < 8)%nat) as [H8|H8].
  - rewrite lookup_app_l by done. rewrite Nat.div_small, Nat.mod_small by done.
    do 8 (destruct i as [|i]; [done|]). lia.
  - rewrite lookup_app_r by (rewrite length_byte_bits; lia). rewrite length_byte_bits.
    replace i with ((i - 8) + 1 * 8)%nat at 2 3 by lia.
    rewrite Nat.div_add, Nat.Div0.mod_add by done. rewrite IH by lia.
    by rewrite Nat.add_comm.
Qed.

Lemma or_mask_bits b u : (u < 8)%nat →
  byte_bits (bof (Z.lor (bval b) (Z.shiftl 1 (7 - Z.of_nat u)))) = <[u:=true]> (byte_bits b).
Proof.
  assert (Hall : forallb (λ z, forallb (λ u, bool_decide
    (byte_bits (bof (Z.lor (bval (bof z)) (Z.shiftl 1 (7 - Z.of_nat u)))) =
     <[u:=true]> (byte_bits (bof z)))) (seq 0 8)) (seqZ 0 256) = true) by (vm_compute; reflexivity).
  intros Hu. rewrite List.forallb_forall in Hall.
  assert (Hb : List.In (bval b) (seqZ 0 256))
    by (apply list_elem_of_In, elem_of_seqZ; pose proof (bval_bound b); lia).
  specialize (Hall _ Hb). rewrite List.forallb_forall in Hall.
  assert (Hin : List.In u (seq 0 8)) by (apply List.in_seq; lia).
  specialize (Hall _ Hin). apply bool_decide_eq_true in Hall. by rewrite bof_bval in Hall.
Qed.

Lemma or_last_snoc mask bs b : or_last mask (bs ++ [b]) = bs ++ [bof (Z.lor (bval b) mask)].
Proof.
  induction bs as [|a bs IH]; [done|]. cbn [app or_last]. rewrite IH. by destruct (bs ++ [b]) eqn:E;
    [destruct bs|].
Qed.

(** The writer holds the bits [l], padded with zeros to a whole byte. *)
Definition written (w : BitWriter) (l : list bool) : Prop :=
  ∃ k, bits_of (bw_bytes w) = l ++ replicate k false ∧ (k < 8)%nat ∧
       used w = (length l mod 8)%nat.

Lemma written_new : written new_writer [].
Proof. exists 0%nat. split; [done|]. split; [lia|done]. Qed.

Lemma write_bit_written bit w l : written w l →
  written (write_bit (Z.b2z bit) w) (l ++ [bit]).
Proof.
  intros (k & Hbits & Hk & Hu).
  assert (HL : (length (bw_bytes w) * 8 = length l + k)%nat)
    by (rewrite <- length_bits_of, Hbits, length_app, length_replicate; done).
  pose proof (Nat.div_mod_eq (length l) 8) as Hdm.
  pose proof (Nat.mod_upper_bound (length l) 8 ltac:(done)) as Hmb.
  (* the bytes before setting the bit, whose next padding bit is at [length l] *)
  assert (Hstep : ∃ bs b j, bits_of (bs ++ [b]) = l ++ false :: replicate j false ∧ (j < 8)%nat ∧
    (if bool_decide (used w = 0)%nat then bw_bytes w ++ [x00] else bw_bytes w) = bs ++ [b]).
  { case_bool_decide as Hz.
    - assert (k = 0)%nat as -> by lia. exists (bw_bytes w), x00, 7%nat.
      rewrite bits_of_app, Hbits, app_nil_r. split; [done|]. split; [lia|done].
    - assert (Hk0 : (0 < k)%nat) by lia. destruct k as [|k]; [lia|].
      destruct (bw_bytes w) as [|b bs _] using rev_ind; [cbn in HL; lia|].
      exists bs, b, k. split; [done|]. split; [lia|done]. }
  destruct Hstep as (bs & b & j & Hb & Hj & Heq). unfold write_bit. rewrite Heq.
  assert (Hlen : (length bs * 8 + 8 = length l + S j)%nat).
  { apply (f_equal length) in Hb. rewrite bits_of_app, !length_app, length_bits_of in Hb.
    cbn [length] in Hb. rewrite length_replicate, length_bits_of in Hb. cbn in Hb. lia. }
  assert (Hm : (length l mod 8 = 7 - j)%nat)
    by (symmetry; apply (Nat.mod_unique _ _ (length bs)); lia).
  exists j. cbn [bw_bytes used]. split; [|split; [done|]].
  - destruct bit; cbn [Z.b2z]; cbn [Z.eqb Pos.eqb].
    + rewrite or_last_snoc, Hu. rewrite bits_of_app in *. unfold bits_of at 2.
      cbn [fmap list_fmap concat]. rewrite app_nil_r, or_mask_bits by lia.
      unfold bits_of at 2 in Hb. cbn [fmap list_fmap concat] in Hb. rewrite app_nil_r in Hb.
      rewrite <- insert_app_r, Hb.
      replace (length (bits_of bs) + length l mod 8)%nat with (length l + 0)%nat
        by (rewrite length_bits_of; lia).
      rewrite insert_app_r. cbn [insert list_insert]. by rewrite <- app_assoc.
    + rewrite Hb. by rewrite <- app_assoc.
  - rewrite Hu, length_app. cbn [length]. by rewrite Nat.Div0.add_mod_idemp_l.
Qed.

Lemma write_written n data w l : written w l → written (write data n w) (l ++ bits_msb n data).
Proof.
  revert w l; induction n as [|n IH]; intros w l Hw; cbn [write bits_msb].
  - by rewrite app_nil_r.
  - rewrite low_bit by lia. change (?a :: ?b) with ([a] ++ b). rewrite app_assoc.
    by apply IH, write_bit_written.
Qed.

(** The Golomb-Rice code of [x]. *)
Definition golomb_bits (p : nat) (x : Z) : list bool :=
  replicate (Z.to_nat (Z.shiftr x (Z.of_nat p))) true ++ false :: bits_msb p x.

Lemma golomb_written p x w l : written w l →
  written (golomb_rice_encode p x w) (l ++ golomb_bits p x).
Proof.
  intros Hw. unfold golomb_rice_encode, golomb_bits. change (?a :: ?b) with ([a] ++ b).
  rewrite !app_assoc. apply write_written, (write_written 1 0).
  generalize (Z.to_nat (Z.shiftr x (Z.of_nat p))). intros n.
  induction n as [|n IH]; cbn [Nat.iter]; [by rewrite app_nil_r|].
  rewrite replicate_S_end, app_assoc. by apply (write_written 1 1).
Qed.

(** What is left to read. *)
Definition unread (r : BitReader) : list bool := drop (bit_pos r) (bits_of (br_data r)).

Lemma read_bit_cons r b rest : unread r = b :: rest →
  ∃ r', read_bit r = Ok (Z.b2z b, r') ∧ unread r' = rest ∧ br_data r' = br_data r.
Proof.
  unfold unread, read_bit. intros E.
  assert (Hlt : (bit_pos r < length (br_data r) * 8)%nat).
  { rewrite <- length_bits_of. apply (f_equal length) in E. rewrite length_drop in E.
    cbn in E. lia. }
  rewrite bool_decide_eq_false_2 by lia.
  exists {| br_data := br_data r; bit_pos := S (bit_pos r) |}. split; [|split; [|done]].
  - pose proof (Nat.mod_upper_bound (bit_pos r) 8 ltac:(done)).
    assert (Hl : bits_of (br_data r) !! (bit_pos r + 0)%nat = Some b)
      by (rewrite <- lookup_drop, E; done).
    rewrite Nat.add_0_r, bits_of_lookup in Hl by done. apply (inj Some) in Hl.
    by rewrite low_bit, Hl by lia.
  - cbn [bit_pos br_data]. replace (S (bit_pos r)) with (bit_pos r + 1)%nat by lia.
    rewrite <- drop_drop, E. done.
Qed.

Lemma read_msb n x : ∀ value r rest, 0 ≤ value → value * 2 ^ Z.of_nat n + 2 ^ Z.of_nat n ≤ 2 ^ 64 →
  unread r = bits_msb n x ++ rest →
  ∃ r', read n value r = Ok (value * 2 ^ Z.of_nat n + x mod 2 ^ Z.of_nat n, r') ∧
    unread r' = rest ∧ br_data r' = br_data r.
Proof.
  induction n as [|n IH]; intros value r rest Hv Hb Hu; cbn [read bits_msb app] in *.
  { exists r. rewrite Z.mul_1_r, Z.mod_1_r, Z.add_0_r. done. }
  rewrite Nat2Z.inj_succ, Z.pow_succ_r in * by lia. set (P := 2 ^ Z.of_nat n) in *.
  assert (HP : 0 < P) by (apply Z.pow_pos_nonneg; lia).
  destruct (read_bit_cons r _ _ Hu) as (r1 & -> & Hu1 & Hd1). cbn [mbind result_bind].
  set (bit := Z.testbit x (Z.of_nat n)) in *.
  assert (Hbit : 0 ≤ Z.b2z bit < 2 ^ 1) by (destruct bit; cbn; lia).
  rewrite Z.mod_small by (rewrite Z.shiftl_mul_pow2 by lia; nia).
  rewrite lor_shift_add by lia.
  destruct (IH (value * 2 ^ 1 + Z.b2z bit) r1 rest) as (r' & -> & Hu' & Hd'); [lia| |done|].
  { destruct bit; cbn [Z.b2z] in *; nia. }
  exists r'. split; [|split; [done|congruence]]. do 2 f_equal.
  assert (Hx : x mod (2 * P) = Z.b2z bit * P + x mod P).
  { rewrite (Z.mul_comm 2 P), Z.rem_mul_r by lia. unfold bit, P.
    rewrite Z.testbit_spec' by lia. lia. }
  rewrite Hx. lia.
Qed.

Lemma quotient_ones q : ∀ fuel n r rest, 0 ≤ n → n + Z.of_nat q ≤ 2 ^ 32 →
  unread r = replicate q true ++ false :: rest → (q < fuel)%nat →
  ∃ r', quotient_loop fuel n r = Ok (n + Z.of_nat q, r') ∧ unread r' = rest ∧ br_data r' = br_data r.
Proof.
  induction q as [|q IH]; intros [|fuel] n r rest Hn Hq Hu Hf; try lia;
    cbn [replicate app quotient_loop] in *.
  - destruct (read_bit_cons r _ _ Hu) as (r1 & -> & Hu1 & Hd1). exists r1.
    split; [|done]. cbn. by rewrite Z.add_0_r.
  - destruct (read_bit_cons r _ _ Hu) as (r1 & -> & Hu1 & Hd1). cbn [mbind result_bind Z.b2z].
    rewrite Z.eqb_refl. rewrite Z.gtb_ltb, (proj2 (Z.ltb_ge _ _)) by lia.
    destruct (IH fuel (n + 1) r1 rest) as (r' & -> & Hu' & Hd'); [lia..|done|lia|].
    exists r'. split; [|split; [done|congruence]]. do 2 f_equal. lia.
Qed.

Lemma golomb_decode p x r rest : 0 ≤ x < 2 ^ 64 → (p < 64)%nat →
  Z.shiftr x (Z.of_nat p) ≤ 2 ^ 32 → unread r = golomb_bits p x ++ rest →
  ∃ r', golomb_rice_decode p r = Ok (x, r') ∧ unread r' = rest ∧ br_data r' = br_data r.
Proof.
  intros Hx Hp Hq Hu. unfold golomb_rice_decode, golomb_bits in *.
  set (q := Z.shiftr x (Z.of_nat p)) in *.
  assert (Hq0 : 0 ≤ q) by (apply Z.shiftr_nonneg; lia).
  rewrite <- app_assoc in Hu. cbn [app] in Hu.
  destruct (quotient_ones (Z.to_nat q) (S (length (br_data r) * 8)) 0 r (bits_msb p x ++ rest))
    as (r1 & -> & Hu1 & Hd1); [lia|lia|done| |].
  { rewrite <- length_bits_of. apply (f_equal length) in Hu. unfold unread in Hu.
    rewrite length_drop, length_app, length_replicate in Hu. cbn in Hu. lia. }
  cbn [mbind result_bind]. assert (H64 : 2 ^ Z.of_nat p ≤ 2 ^ 64) by (apply Z.pow_le_mono_r; lia).
  destruct (read_msb p x 0 r1 rest) as (r' & -> & Hu' & Hd'); [lia|lia|done|].
  exists r'. split; [|split; [done|congruence]]. cbn [mbind result_bind]. do 2 f_equal.
  rewrite Z.add_0_l, Z2Nat.id by lia. subst q.
  rewrite Z.shiftl_mul_pow2, Z.shiftr_div_pow2 by lia.
  assert (HP : 0 < 2 ^ Z.of_nat p) by (apply Z.pow_pos_nonneg; lia).
  pose proof (Z.div_mod x (2 ^ Z.of_nat p) ltac:(lia)) as Hdm.
  pose proof (Z.mod_pos_bound x (2 ^ Z.of_nat p) HP).
  assert (0 ≤ x / 2 ^ Z.of_nat p * 2 ^ Z.of_nat p)
    by (apply Z.mul_nonneg_nonneg; [apply Z.div_pos|]; lia).
  rewrite (Z.mod_small (_ * _)) by lia. rewrite (Z.mod_small (_ * _ + _)); lia.
Qed.

(** ** Lemmas: hashed values *)
Definition is_word (z : Z) : Prop := 0 ≤ z < 2 ^ 64.

Lemma lxor_word a b : is_word a → is_word b → is_word (Z.lxor a b).
Proof.
  unfold is_word. intros Ha Hb. split; [apply Z.lxor_nonneg; lia|].
  destruct (Z.eq_dec (Z.lxor a b) 0) as [->|Hne]; [lia|].
  apply Z.log2_lt_pow2; [pose proof (Z.lxor_nonneg a b); lia|].
  eapply Z.le_lt_trans; [apply Z.log2_lxor; lia|].
  apply Z.max_lub_lt; (destruct (Z.eq_dec a 0) as [->|], (Z.eq_dec b 0) as [->|];
    try (cbn; lia); try (apply Z.log2_lt_pow2; lia)).
Qed.

Lemma lor_word a b : is_word a → is_word b → is_word (Z.lor a b).
Proof.
  unfold is_word. intros Ha Hb. split; [apply Z.lor_nonneg; lia|].
  destruct (Z.eq_dec (Z.lor a b) 0) as [->|Hne]; [lia|].
  apply Z.log2_lt_pow2; [pose proof (Z.lor_nonneg a b); lia|].
  rewrite Z.log2_lor by lia. apply Z.max_lub_lt;
    (destruct (Z.eq_dec a 0) as [->|], (Z.eq_dec b 0) as [->|];
    try (cbn; lia); try (apply Z.log2_lt_pow2; lia)).
Qed.

Lemma mod_word z : is_word (z mod SipHash.word).
Proof. apply Z.mod_pos_bound. done. Qed.

Lemma rotate_word x n : 0 ≤ n ≤ 64 → is_word x → is_word (SipHash.rotate_left x n).
Proof.
  intros Hn Hx. apply lor_word; [apply mod_word|]. unfold is_word in *.
  rewrite Z.shiftr_div_pow2 by lia. assert (0 < 2 ^ (64 - n)) by (apply Z.pow_pos_nonneg; lia).
  split; [apply Z.div_pos; lia|]. apply Z.div_lt_upper_bound; nia.
Qed.

Definition state_ok (s : SipHash.State) : Prop :=
  is_word (SipHash.v0 s) ∧ is_word (SipHash.v1 s) ∧ is_word (SipHash.v2 s) ∧ is_word (SipHash.v3 s).

#[local] Hint Resolve lxor_word mod_word rotate_word : siphash.

Lemma round_ok s : state_ok s → state_ok (SipHash.round s).
Proof.
  intros (H0 & H1 & H2 & H3). unfold SipHash.round, state_ok, SipHash.wrapping_add. cbn.
  split_and!; repeat first [apply lxor_word | apply mod_word | apply rotate_word; [lia|]]; done.
Qed.

#[local] Arguments SipHash.round : simpl never.
#[local] Arguments SipHash.absorb : simpl never.

Lemma absorb_ok s m : state_ok s → is_word m → state_ok (SipHash.absorb s m).
Proof.
  intros (H0 & H1 & H2 & H3) Hm. unfold SipHash.absorb.
  set (s' := {| SipHash.v0 := SipHash.v0 s; SipHash.v1 := _; SipHash.v2 := _; SipHash.v3 := _ |}).
  assert (Hs : state_ok (SipHash.round (SipHash.round s'))).
  { apply round_ok, round_ok. split; [exact H0|]. split; [exact H1|]. split; [exact H2|].
    by apply lxor_word. }
  revert Hs. generalize (SipHash.round (SipHash.round s')). clear s'. intros s' (? & ? & ? & ?).
  split; [by apply lxor_word|]. split; [assumption|]. split; assumption.
Qed.

Lemma last_word_ok rest i b : is_word b → is_word (SipHash.last_word_loop i rest b).
Proof.
  revert i b; induction rest as [|x rest IH]; intros i b Hb; cbn; [done|].
  apply IH, lor_word; [done|apply mod_word].
Qed.

Lemma finish_ok s : state_ok s →
  is_word (Z.lxor (Z.lxor (SipHash.v0 s) (SipHash.v1 s)) (Z.lxor (SipHash.v2 s) (SipHash.v3 s))).
Proof. intros (? & ? & ? & ?). apply lxor_word; by apply lxor_word. Qed.

Lemma full_chunks_short msg : Forall (λ c, (length c ≤ 8)%nat) (SipHash.full_chunks msg).
Proof.
  apply Forall_take. unfold chunks. generalize (length msg) at 1. intros n. revert msg.
  induction n as [|n IH]; intros [|b msg]; cbn [chunks_go]; constructor; [|apply IH].
  rewrite length_take. lia.
Qed.

Lemma le_val_word c : (length c ≤ 8)%nat → is_word (le_val c).
Proof.
  intros Hc. pose proof (le_val_bound c) as Hb. unfold is_word.
  assert (256 ^ Z.of_nat (length c) ≤ 256 ^ 8) by (apply Z.pow_le_mono_r; lia).
  change (256 ^ 8) with (2 ^ 64) in *. lia.
Qed.

Lemma fold_absorb_ok cs s : state_ok s → Forall (λ c, (length c ≤ 8)%nat) cs →
  state_ok (foldl SipHash.absorb s (le_val <$> cs)).
Proof.
  intros Hs Hc. revert s Hs. induction Hc as [|c cs Hc _ IH]; intros s Hs; [done|].
  cbn [fmap list_fmap foldl]. apply IH, absorb_ok; [done|]. by apply le_val_word.
Qed.

Lemma siphash_word k0 k1 msg : is_word k0 → is_word k1 → is_word (SipHash.siphash24 k0 k1 msg).
Proof.
  intros Hk0 Hk1. unfold SipHash.siphash24.
  set (s0 := {| SipHash.v0 := Z.lxor SipHash.C0 k0; SipHash.v1 := _;
                SipHash.v2 := _; SipHash.v3 := _ |}).
  assert (Hs0 : state_ok s0) by (split_and!; apply lxor_word; try assumption; split; done).
  assert (Hf : state_ok (foldl SipHash.absorb s0 (le_val <$> SipHash.full_chunks msg))).
  { apply fold_absorb_ok; [done|]. apply full_chunks_short. }
  set (s1 := foldl _ _ _) in *. cbn zeta. clearbody s1.
  assert (Hs2 : state_ok (SipHash.absorb s1 (SipHash.last_word_loop 0 (SipHash.remainder msg)
    (Z.shiftl (Z.land (Z.of_nat (length msg)) 0xff) 56 mod SipHash.word))))
    by (apply absorb_ok; [done|]; apply last_word_ok, mod_word).
  revert Hs2. generalize (SipHash.absorb s1 (SipHash.last_word_loop 0 (SipHash.remainder msg)
    (Z.shiftl (Z.land (Z.of_nat (length msg)) 0xff) 56 mod SipHash.word))).
  intros s2 (Ha & Hc & Hd & He). apply finish_ok, round_ok, round_ok, round_ok, round_ok.
  split; [exact Ha|]. split; [exact Hc|]. split; [|exact He]. apply lxor_word; [exact Hd|].
  split; done.
Qed.

Lemma hash_to_range_bound key item n m : 0 < n * m < 2 ^ 64 →
  0 ≤ hash_to_range key item n m < n * m.
Proof.
  intros Hnm. unfold hash_to_range, map_into_range.
  assert (Hk : ∀ a b, (b - a ≤ 8)%nat → is_word (le_val (slice a b key))).
  { intros a b Hab. apply le_val_word. unfold slice. rewrite length_take. lia. }
  pose proof (siphash_word (le_val (slice 0 8 key)) (le_val (slice 8 16 key)) item
    (Hk 0%nat 8%nat ltac:(lia)) (Hk 8%nat 16%nat ltac:(lia))) as Hs. unfold is_word in Hs.
  rewrite Z.mod_small, Z.shiftr_div_pow2 by lia.
  split; [apply Z.div_pos; nia|]. apply Z.div_lt_upper_bound; nia.
Qed.

(** ** Lemmas: encoding and matching *)
#[local] Opaque hash_to_range.
Fixpoint deltas (last : Z) (values : list Z) : list Z :=
  match values with [] => [] | v :: values => (v - last) :: deltas v values end.

Lemma encode_deltas_written p last values w l : written w l →
  written (encode_deltas p last values w) (l ++ concat (golomb_bits p <$> deltas last values)).
Proof.
  revert last w l; induction values as [|v values IH]; intros last w l Hw;
    cbn [encode_deltas deltas fmap list_fmap concat]; [by rewrite app_nil_r|].
  rewrite app_assoc. by apply IH, golomb_written.
Qed.

Lemma match_loop_spec p target values : ∀ last r rest,
  (p < 64)%nat → 0 ≤ last → StronglySorted Z.le (last :: values) →
  Forall (λ v, v < 2 ^ 64 ∧ v ≤ 2 ^ (32 + Z.of_nat p)) values →
  unread r = concat (golomb_bits p <$> deltas last values) ++ rest →
  match_loop (length values) p target last r = Ok (bool_decide (target ∈ values)).
Proof.
  induction values as [|v values IH]; intros last r rest Hp Hl Hs Hv Hu;
    cbn [length match_loop deltas fmap list_fmap concat] in *.
  { by rewrite bool_decide_eq_false_2 by apply not_elem_of_nil. }
  apply StronglySorted_inv in Hs as [Hs [Hlv _]%Forall_cons].
  apply Forall_cons in Hv as [[Hv64 Hvp] Hv]. rewrite <- app_assoc in Hu.
  destruct (golomb_decode p (v - last) r (concat (golomb_bits p <$> deltas v values) ++ rest))
    as (r1 & -> & Hu1 & _); [lia|done| |done|].
  { rewrite Z.shiftr_div_pow2 by lia. apply Z.div_le_upper_bound; [apply Z.pow_pos_nonneg; lia|].
    rewrite Z.pow_add_r in Hvp by lia. lia. }
  cbn [mbind result_bind]. unfold checked_add64, u64_max.
  rewrite decide_True by lia. cbn [ok_or mbind result_bind].
  replace (last + (v - last)) with v by lia.
  destruct (v =? target) eqn:Eq; bool_props.
  { subst v. by rewrite bool_decide_eq_true_2 by set_solver. }
  rewrite Z.gtb_ltb. destruct (target <? v) eqn:Hlt; bool_props.
  - rewrite bool_decide_eq_false_2; [done|]. intros [->|Hin]%elem_of_cons; [lia|].
    apply StronglySorted_inv in Hs as [_ Hle]. rewrite Forall_forall in Hle. apply Hle in Hin. lia.
  - rewrite (IH v r1 rest) by (done || lia). f_equal. apply bool_decide_ext. set_solver.
Qed.

Lemma gcs_parse_app n rest : 0 ≤ n < 2 ^ 32 → (n = 0 → rest = []) →
  gcs_parse (write_varint n ++ rest) = Ok {| gcs_n := n; compressed := rest |}.
Proof.
  intros Hn H0. unfold gcs_parse.
  assert (Hu : is_u64 n) by (unfold is_u64, u64_max; lia).
  rewrite (proj2 (reads_varint _ n rest) (conj Hu eq_refl)). cbn [mbind result_bind].
  rewrite Z.geb_leb, (proj2 (Z.leb_gt _ _)) by lia. cbn [negb ensure mbind result_bind].
  destruct (n =? 0) eqn:E; bool_props; [rewrite H0 by done|]; done.
Qed.

Section query.
Context (elements : list bytes) (key : bytes) (p : nat) (m : Z).

Definition set_size : Z := Z.of_nat (length (element_set elements)).
Definition hashed_set : list Z :=
  merge_sort Z.le ((λ e, hash_to_range key e set_size m) <$> element_set elements).

Definition filter_params_ok : Prop :=
  (p < 64)%nat ∧ 0 < m ∧ set_size < 2 ^ 32 ∧ set_size * m < 2 ^ 64 ∧
  set_size * m ≤ 2 ^ (32 + Z.of_nat p).

Lemma hashed_set_ok : filter_params_ok → 0 < set_size →
  StronglySorted Z.le (0 :: hashed_set) ∧ length hashed_set = Z.to_nat set_size ∧
  Forall (λ v, v < 2 ^ 64 ∧ v ≤ 2 ^ (32 + Z.of_nat p)) hashed_set.
Proof.
  intros (Hp & Hm & Hn & Hnm & Hnp) Hpos.
  assert (Hperm : hashed_set ≡ₚ (λ e, hash_to_range key e set_size m) <$> element_set elements)
    by apply merge_sort_Permutation.
  assert (HF : Forall (λ v, 0 ≤ v < set_size * m) hashed_set).
  { rewrite Hperm. apply Forall_fmap, Forall_true. intros e.
    apply (hash_to_range_bound key e set_size m). split; [by apply Z.mul_pos_pos|done]. }
  split_and!.
  - constructor; [apply StronglySorted_merge_sort; apply _|].
    eapply Forall_impl; [exact HF|]. cbn. lia.
  - rewrite Hperm, length_fmap. unfold set_size. lia.
  - eapply Forall_impl; [exact HF|]. cbn. lia.
Qed.

Lemma encode_exact : filter_params_ok →
  ∃ f, gcs_parse (encode elements key p m) = Ok f ∧ gcs_n f = set_size ∧
    ∀ item, matches f key item p m =
      Ok (bool_decide (hash_to_range key item set_size m ∈
                       (λ e, hash_to_range key e set_size m) <$> elements)).
Proof.
  intros Hok. pose proof Hok as (Hp & Hm & Hn & _). unfold encode. fold set_size.
  destruct (set_size =? 0) eqn:Ez; bool_props.
  - exists {| gcs_n := set_size; compressed := [] |}. split; [|split; [done|]].
    + rewrite <- (app_nil_r (write_varint _)). apply gcs_parse_app; [unfold set_size in *; lia|done].
    + intros item. unfold matches. cbn [gcs_n]. rewrite Ez, Z.eqb_refl.
      rewrite bool_decide_eq_false_2; [done|]. intros (e & _ & He)%list_elem_of_fmap.
      assert (Hin : e ∈ element_set elements) by (by apply elem_of_remove_dups).
      unfold set_size in Ez. destruct (element_set elements); [set_solver|cbn in Ez; lia].
  - assert (Hpos : 0 < set_size) by (unfold set_size in *; lia).
    destruct (hashed_set_ok Hok Hpos) as (Hs & HL & Hv). fold hashed_set.
    eexists. split; [apply gcs_parse_app; [lia|done]|]. split; [done|]. intros item.
    unfold matches. cbn [gcs_n compressed]. rewrite (proj2 (Z.eqb_neq _ _) Ez).
    destruct (encode_deltas_written p 0 hashed_set new_writer [] written_new) as (k & Hb & _).
    rewrite <- HL, (match_loop_spec p _ hashed_set 0 _ (replicate k false)); [|done|lia|done|done|].
    + f_equal. apply bool_decide_ext. unfold hashed_set. rewrite merge_sort_Permutation.
      rewrite !list_elem_of_fmap. by setoid_rewrite elem_of_remove_dups.
    + unfold unread. cbn [br_data bit_pos]. rewrite drop_0. exact Hb.
Qed.
End query.

(** Compact filters round-trip exactly up to their hash: a constructed
    filter parses back with the number of distinct elements, every query on it
    ends with an answer, and the answer is whether the item's hash into the
    filter's range is that of an element; so there are no false negatives, and
    the only false positives are range-hash collisions. *)
Theorem filter_exact elements key p m : filter_params_ok elements p m →
  ∃ f, gcs_parse (encode elements key p m) = Ok f ∧ gcs_n f = set_size elements ∧
    (∀ item, matches f key item p m =
       Ok (bool_decide (hash_to_range key item (set_size elements) m ∈
                        (λ e, hash_to_range key e (set_size elements) m) <$> elements))) ∧
    (∀ item, item ∈ elements → matches f key item p m = Ok true).
Proof.
  intros Hok. destruct (encode_exact elements key p m Hok) as (f & Hp & Hn & Hm).
  exists f. split_and!; [done..|]. intros item Hin. rewrite Hm.
  by rewrite bool_decide_eq_true_2 by by apply (list_elem_of_fmap_2 (λ e, hash_to_range key e _ m)).
Qed.

Lemma filter_exact_witness :
  ∃ f, gcs_parse (encode [[x01]; [x02; x03]; [x01]] (replicate 16 x2a) BASIC_FILTER_P BASIC_FILTER_M)
       = Ok f ∧ gcs_n f = 2.
Proof.
  destruct (filter_exact [[x01]; [x02; x03]; [x01]] (replicate 16 x2a) BASIC_FILTER_P BASIC_FILTER_M)
    as (f & Hp & Hn & _).
  - split; [cbv; lia|]. split; [reflexivity|].
    split; [vm_compute; reflexivity|]. split; [vm_compute; reflexivity|vm_compute; discriminate].
  - exists f. split; [exact Hp|exact Hn].
Defined.

(** The published vector of the test network's genesis block. *)
Example genesis_filter_vector :
  encode [be_bytes 67 0x4104678afdb0fe5548271967f1a67130b7105cd6a828e03909a67962e0ea1f61deb649f6bc3f4cef38c4f35504e51ec112de5c384df7ba0b8d578a4c702b6bf11d5fac]
    (filter_key (le_bytes 32 0x000000000933ea01ad0ee984209779baaec3ced90fa3f408719526f8d77f4943))
    BASIC_FILTER_P BASIC_FILTER_M = be_bytes 4 0x019dfca8.
Proof. vm_compute. reflexivity. Qed.
