(* ===== verification/HeaderChain.v ===== *)
(** * The header chain and the filter-header chain

    Models [crates/opencsv-cbf/src/chain.rs]: the validated header chain with
    its cache and its synchronisation across reorganisations, and the chain of
    filter hashes with its paged download and tail re-attestation.  Peers are
    anything that implements [HeaderSource]. *)

From S2P Require Import Prelude Wire Block Network Messages Peer Gcs.

Record HeaderChain := {
  hc_params : Params;
  headers : list BlockHeader;
  hashes : list bytes;
  chainwork : list Z;
}.

Section header_chain.
Context `{Sha256d}.

Definition new_chain (p : Params) : HeaderChain :=
  {| hc_params := p; headers := []; hashes := []; chainwork := [] |}.

(** The checks of [append_validated] over the headers held so far. *)
Definition next_work (p : Params) (hs : list BlockHeader) (header : BlockHeader) : result Error Z :=
  let height := length hs in
  if bool_decide (height = 0)%nat then
    ensure (bool_decide (header_hash header = genesis_hash p))
      (EConsensus "peer's genesis block does not match the network");;
    target ← ok_or (from_compact (bits header)) (EConsensus "bad genesis bits");
    Ok (work_from_target target)
  else validate_header p hs height header.

(** The [u128] total wraps in a release build. *)
Definition append_validated (c : HeaderChain) (header : BlockHeader) : result Error HeaderChain :=
  work ← next_work (hc_params c) (headers c) header;
  let total := (default 0 (last (chainwork c)) + work) mod 2 ^ 128 in
  Ok {| hc_params := hc_params c; headers := headers c ++ [header];
        hashes := hashes c ++ [header_hash header]; chainwork := chainwork c ++ [total] |}.

(** The loop of [load] over the 80-byte records. *)
Fixpoint load_records (c : HeaderChain) (records : list bytes) : result Error HeaderChain :=
  match records with
  | [] => Ok c
  | chunk :: records =>
    header ← header_parse chunk;
    match append_validated c header with
    | Ok c => load_records c records
    | Err _ => Ok (new_chain (hc_params c))
    end
  end.

(** [file]: the contents of the cache, [None] when there is none. *)
Definition load_chain (p : Params) (file : result Error (option bytes)) : result Error HeaderChain :=
  contents ← file;
  match contents with
  | None => Ok (new_chain p)
  | Some bs =>
    if bool_decide (length bs mod 80 = 0)%nat then load_records (new_chain p) (chunks 80 bs)
    else Ok (new_chain p)
  end.

(** The contents [persist] writes. *)
Definition persist_chain (c : HeaderChain) : bytes := concat (header_serialize <$> headers c).

Definition tip_height (c : HeaderChain) : option Z :=
  match headers c with [] => None | _ => Some (Z.of_nat (length (headers c)) - 1) end.
Definition hash_at (c : HeaderChain) (height : nat) : option bytes := hashes c !! height.
Definition chain_header_at (c : HeaderChain) (height : nat) : option BlockHeader :=
  headers c !! height.
Definition tip_work (c : HeaderChain) : Z := default 0 (last (chainwork c)).

Fixpoint common_prefix (l r : list bytes) : nat :=
  match l, r with
  | x :: l, y :: r => if bool_decide (x = y) then S (common_prefix l r) else O
  | _, _ => O
  end.
Definition common_prefix_len (c other : HeaderChain) : nat :=
  common_prefix (hashes c) (hashes other).

(** [while height > 0]; the height falls at every turn, so [fuel] is the length
    of the chain. *)
Fixpoint locator_loop (fuel : nat) (hs : list bytes) (height step : Z) (locator : list bytes)
  : list bytes :=
  match fuel with
  | O => locator
  | S fuel =>
    if height >? 0 then
      let locator := locator ++ [nth (Z.to_nat height) hs []] in
      if bool_decide (10 < length locator)%nat
      then locator_loop fuel hs (height - step * 2) (step * 2) locator
      else locator_loop fuel hs (height - 1) step locator
    else locator
  end.

Definition locator (c : HeaderChain) : list bytes :=
  locator_loop (length (hashes c)) (hashes c) (Z.of_nat (length (headers c)) - 1) 1 [] ++
  match hashes c with [] => [] | g :: _ => [g] end.

Definition truncate_chain (n : nat) (c : HeaderChain) : HeaderChain :=
  {| hc_params := hc_params c; headers := take n (headers c); hashes := take n (hashes c);
     chainwork := take n (chainwork c) |}.

(** [append_validated] on a mutable chain: an error leaves it unchanged. *)
Definition append_mut (header : BlockHeader) : io HeaderChain () := λ c,
  match append_validated c header with Ok c' => (Ok tt, c') | Err e => (Err e, c) end.

(** One turn of the loop over a batch; the result counts the headers appended. *)
Definition attach (header : BlockHeader) : io HeaderChain Z := λ c,
  if bool_decide (last (hashes c) = Some (prev_block header)) then
    (append_mut header;; mret 1) c
  else match position (λ h, bool_decide (h = prev_block header)) (hashes c) with
  | Some fork => (append_mut header;; mret 1) (truncate_chain (fork + 1) c)
  | None => (Ok 0, c)
  end.

Fixpoint attach_all (batch : list BlockHeader) : io HeaderChain Z :=
  match batch with
  | [] => mret 0
  | header :: batch => n ← attach header; k ← attach_all batch; mret (n + k)
  end.

(** ** Synchronisation: the state is the chain and the peer *)
Context {S : Type} `{!HeaderSource S}.

Definition on_chain {A} (m : io HeaderChain A) : io (HeaderChain * S) A := λ '(c, s),
  let '(r, c) := m c in (r, (c, s)).
Definition on_peer {A} (m : io S A) : io (HeaderChain * S) A := λ '(c, s),
  let '(r, s) := m s in (r, (c, s)).

Definition bootstrap : io (HeaderChain * S) Z :=
  '(c, _) ← get_state;
  if bool_decide (headers c = []) then
    served ← on_peer (get_headers [] (genesis_hash (hc_params c)));
    match served with
    | [header] => on_chain (append_mut header);; mret 1
    | _ => lift (Err (EProtocol "genesis request returned headers"))
    end
  else mret 0.

(** One round: ask, then attach what came; [None] when the peer had nothing. *)
Definition sync_round : io (HeaderChain * S) (option Z) :=
  '(c, _) ← get_state;
  served ← on_peer (get_headers (locator c) (zeros 32));
  match served with
  | [] => mret None
  | _ => n ← on_chain (attach_all served); mret (Some n)
  end.

(** The unbounded [loop], run for at most [fuel] rounds; [None] when it is still
    running. *)
Fixpoint sync_loop (fuel : nat) (appended : Z) (st : HeaderChain * S)
  : option (result Error Z * (HeaderChain * S)) :=
  match fuel with
  | O => None
  | Datatypes.S fuel =>
    match sync_round st with
    | (Err e, st) => Some (Err e, st)
    | (Ok None, st) => Some (Ok appended, st)
    | (Ok (Some n), st) => sync_loop fuel (appended + n) st
    end
  end.

Definition sync (fuel : nat) (st : HeaderChain * S) : option (result Error Z * (HeaderChain * S)) :=
  match bootstrap st with
  | (Err e, st) => Some (Err e, st)
  | (Ok n, st) => sync_loop fuel n st
  end.

(** ** The filter-header chain: one filter hash per height *)
Definition FilterHeaderChain : Type := list bytes.

Definition load_filter_hashes (file : result Error (option bytes)) : result Error FilterHeaderChain :=
  contents ← file;
  match contents with
  | None => Ok []
  | Some bs => if bool_decide (length bs mod 32 = 0)%nat then Ok (chunks 32 bs) else Ok []
  end.

Definition persist_filter_hashes (f : FilterHeaderChain) : bytes := concat f.

Definition filter_hash_at (f : FilterHeaderChain) (height : nat) : option bytes := f !! height.

Definition advance_filter_header (hdr : bytes) (fhs : list bytes) : bytes :=
  foldl (λ hdr fh, filter_header fh hdr) hdr fhs.

Definition filter_header_at (f : FilterHeaderChain) (height : nat) : option bytes :=
  if bool_decide (length f ≤ height)%nat then None
  else Some (advance_filter_header (zeros 32) (take (height + 1) f)).

Definition verify_filter (f : FilterHeaderChain) (height : nat) (data : bytes) : result Error () :=
  committed ← ok_or (filter_hash_at f height) (EFilter "no filter hash synced for height");
  ensure (bool_decide (filter_hash data = committed))
    (EFilter "filter does not match the committed filter hash").

(** The pages of [fetch_range]: [start] rises by a page every turn, so a fuel of
    the number of heights left suffices. *)
Fixpoint fetch_pages (fuel : nat) (c : HeaderChain) (stop_height start : nat) (expected_prev : bytes)
    (out : list bytes) : io S (list bytes) :=
  match fuel with
  | O => mret out
  | Datatypes.S fuel =>
    if bool_decide (start ≤ stop_height)%nat then
      let stop := Nat.min (start + 1999) stop_height in
      stop_hash ← lift (ok_or (hash_at c stop) (EFilter "no block hash at height"));
      response ← get_cfheaders (Z.of_nat start mod 2 ^ 32) stop_hash;
      lift (ensure (bool_decide (previous_filter_header response = expected_prev))
        (EFilter "filter-header linkage broken"));;
      lift (ensure (bool_decide (length (filter_hashes response) = stop - start + 1)%nat)
        (EFilter "cfheaders returned hashes, expected"));;
      fetch_pages fuel c stop_height (stop + 1)
        (advance_filter_header expected_prev (filter_hashes response))
        (out ++ filter_hashes response)
    else mret out
  end.

Definition fetch_range (f : FilterHeaderChain) (c : HeaderChain) (stop_height : nat)
  : io S (list bytes) :=
  let start := length f in
  expected_prev ← lift (if bool_decide (start = 0)%nat then Ok (zeros 32)
    else ok_or (filter_header_at f (start - 1)) (EFilter "no preceding filter header"));
  fetch_pages (stop_height + 1 - start) c stop_height start expected_prev [].

Definition reattest_tail (f : FilterHeaderChain) (c : HeaderChain) (max_blocks : nat) : io S () :=
  if bool_decide (f = []) then mret tt
  else if bool_decide (max_blocks = 0)%nat then
    lift (Err (EInvalidInput "filter-cache re-attestation window must be nonzero"))
  else
    let stop := (length f - 1)%nat in
    let start := (stop + 1 - max_blocks)%nat in
    fetched ← fetch_range (take start f) c stop;
    lift (ensure (bool_decide (fetched = slice start (stop + 1) f))
      (EFilter "peer filter-hash tail differs from cached chain")).

Definition extend (f : FilterHeaderChain) (fhs : list bytes) : FilterHeaderChain := f ++ fhs.
Definition truncate (f : FilterHeaderChain) (n : nat) : FilterHeaderChain := take n f.

End header_chain.

(** ** Lemmas: what every reachable chain satisfies *)
Definition preserves {S A} (P : S → Prop) (m : io S A) : Prop := ∀ s, P s → P (m s).2.

Lemma preserves_ret {S A} P (a : A) : preserves P (mret a : io S A).
Proof. by intros s. Qed.
Lemma preserves_lift {S A} P (r : result Error A) : preserves P (lift r : io S A).
Proof. by intros s. Qed.
Lemma preserves_get {S} (P : S → Prop) : preserves P get_state.
Proof. by intros s. Qed.
Lemma preserves_bind {S A B} P (m : io S A) (f : A → io S B) :
  preserves P m → (∀ a, preserves P (f a)) → preserves P (m ≫= f).
Proof.
  intros Hm Hf s Hs. unfold mbind, io_bind. specialize (Hm s Hs).
  destruct (m s) as [[a|e] s']; [by apply Hf|done].
Qed.
#[export] Hint Resolve preserves_ret preserves_lift preserves_get preserves_bind : csv.

Section chain_lemmas.
Context `{Sha256d}.

(** Every header passed the checks of [append_validated] over its ancestors. *)
Inductive valid_headers (p : Params) : list BlockHeader → Prop :=
  | valid_nil : valid_headers p []
  | valid_snoc hs h w : valid_headers p hs → next_work p hs h = Ok w →
      valid_headers p (hs ++ [h]).

Definition header_work (h : BlockHeader) : Z :=
  default 0 (work_from_target <$> from_compact (bits h)).

Fixpoint works_from (acc : Z) (hs : list BlockHeader) : list Z :=
  match hs with
  | [] => []
  | h :: hs => let total := (acc + header_work h) mod 2 ^ 128 in total :: works_from total hs
  end.

Definition chain_wf (c : HeaderChain) : Prop :=
  valid_headers (hc_params c) (headers c) ∧ hashes c = header_hash <$> headers c ∧
  chainwork c = works_from 0 (headers c).

Lemma next_work_value p hs h w : next_work p hs h = Ok w → w = header_work h.
Proof.
  unfold next_work, header_work. case_if.
  - intros E. inv_bind. by simplify_option_eq.
  - unfold validate_header. intros E. inv_bind. by simplify_option_eq.
Qed.

Lemma works_from_snoc acc hs h : works_from acc (hs ++ [h]) =
  works_from acc hs ++ [(default acc (last (works_from acc hs)) + header_work h) mod 2 ^ 128].
Proof.
  revert acc; induction hs as [|x hs IH]; intros acc; cbn [app works_from]; [done|].
  rewrite IH. cbn [app]. do 4 f_equal.
  rewrite last_cons. by destruct (last _).
Qed.

Lemma works_from_take acc hs n : take n (works_from acc hs) = works_from acc (take n hs).
Proof.
  revert acc n; induction hs as [|x hs IH]; intros acc [|n]; cbn [firstn works_from]; try done.
  by rewrite IH.
Qed.

Lemma valid_take p hs n : valid_headers p hs → valid_headers p (take n hs).
Proof.
  induction 1 as [|hs h w Hv IH Hw]; [by rewrite take_nil; constructor|].
  destruct (decide (n ≤ length hs)%nat).
  - by rewrite take_app_le.
  - rewrite take_ge by (rewrite length_app; cbn; lia). by eapply valid_snoc.
Qed.

Lemma valid_next p hs h rest : valid_headers p (hs ++ h :: rest) →
  ∃ w, next_work p hs h = Ok w.
Proof.
  intros Hv. apply (valid_take _ _ (S (length hs))) in Hv.
  rewrite take_app_ge in Hv by lia. replace (S (length hs) - length hs)%nat with 1%nat in Hv by lia.
  cbn [firstn] in Hv. inversion Hv as [E|hs' h' w' Hv' Hw E]; [by destruct hs|].
  apply app_inj_tail in E as [-> ->]. eauto.
Qed.

Lemma valid_link p hs h rest a : valid_headers p (hs ++ a :: h :: rest) →
  prev_block h = header_hash a.
Proof.
  intros Hv. change (a :: h :: rest) with ([a] ++ h :: rest) in Hv. rewrite app_assoc in Hv.
  apply valid_next in Hv as (w & Hw).
  unfold next_work in Hw. rewrite bool_decide_eq_false_2 in Hw by (rewrite length_app; cbn; lia).
  unfold validate_header in Hw. apply bind_Ok in Hw as (? & Hl%ensure_Ok%bool_decide_eq_true & _).
  rewrite Hl. f_equal. unfold header_at. rewrite length_app. cbn [length].
  rewrite app_nth2 by lia. by replace (length hs + 1 - 1 - length hs)%nat with 0%nat by lia.
Qed.

Lemma valid_genesis p h rest : valid_headers p (h :: rest) → header_hash h = genesis_hash p.
Proof.
  intros Hv. apply (valid_next p []) in Hv as (w & Hw). unfold next_work in Hw.
  cbn [length] in Hw. rewrite bool_decide_eq_true_2 in Hw by done.
  by apply bind_Ok in Hw as (? & Hl%ensure_Ok%bool_decide_eq_true & _).
Qed.

Lemma new_chain_wf p : chain_wf (new_chain p).
Proof. split; [constructor|done]. Qed.

Lemma append_spec c h c' : chain_wf c → append_validated c h = Ok c' →
  chain_wf c' ∧ headers c' = headers c ++ [h] ∧ hc_params c' = hc_params c.
Proof.
  intros (Hv & Hh & Hw) E. unfold append_validated in E. apply bind_Ok in E as (w & En & [= <-]).
  split; [|done]. split; [|split]; cbn.
  - by eapply valid_snoc.
  - by rewrite Hh, fmap_app.
  - rewrite works_from_snoc, <- Hw. apply next_work_value in En as ->. done.
Qed.

Lemma append_ok c h w : next_work (hc_params c) (headers c) h = Ok w →
  ∃ c', append_validated c h = Ok c' ∧ headers c' = headers c ++ [h] ∧ hc_params c' = hc_params c.
Proof. intros Hn. unfold append_validated. rewrite Hn. eexists. split; [reflexivity|done]. Qed.

Lemma truncate_wf n c : chain_wf c → chain_wf (truncate_chain n c).
Proof.
  intros (Hv & Hh & Hw). split; [|split]; cbn.
  - by apply valid_take.
  - by rewrite Hh, fmap_take.
  - by rewrite Hw, works_from_take.
Qed.

(** The chain is well formed and follows the rules it started with. *)
Definition follows (p : Params) (c : HeaderChain) : Prop := chain_wf c ∧ hc_params c = p.

Lemma append_mut_follows p h : preserves (follows p) (append_mut h).
Proof.
  intros c [Hc Hp]. unfold append_mut. destruct (append_validated c h) as [c'|] eqn:E; [|done].
  destruct (append_spec _ _ _ Hc E) as (? & _ & ?). split; [done|cbn; congruence].
Qed.

Lemma attach_follows p h : preserves (follows p) (attach h).
Proof.
  intros c Hc. unfold attach. case_bool_decide.
  - apply preserves_bind; [apply append_mut_follows|intros; apply preserves_ret|done].
  - destruct (position _ (hashes c)) as [fork|]; [|done].
    apply preserves_bind; [apply append_mut_follows|intros; apply preserves_ret|].
    destruct Hc. split; [by apply truncate_wf|done].
Qed.

Lemma attach_all_follows p batch : preserves (follows p) (attach_all batch).
Proof.
  induction batch as [|h batch IH]; cbn [attach_all]; [apply preserves_ret|].
  apply preserves_bind; [apply attach_follows|intros n]. apply preserves_bind; [done|].
  intros k. apply preserves_ret.
Qed.

Lemma chain_wf_eq c c' : chain_wf c → chain_wf c' → hc_params c = hc_params c' →
  headers c = headers c' → c = c'.
Proof.
  intros (_ & Hh & Hw) (_ & Hh' & Hw') Hp E. destruct c, c'; cbn in *. congruence.
Qed.

(** ** Lemmas: the cache *)
Lemma load_records_follows p records : ∀ c c', follows p c →
  load_records c records = Ok c' → follows p c'.
Proof.
  induction records as [|r records IH]; intros c c' Hc; cbn [load_records]; [by intros [= <-]|].
  intros E. apply bind_Ok in E as (h & _ & E). destruct Hc as [Hc Hp].
  destruct (append_validated c h) as [c1|] eqn:Ea.
  - destruct (append_spec _ _ _ Hc Ea) as (? & _ & ?). eapply IH; [|exact E]. split; congruence.
  - injection E as <-. split; [apply new_chain_wf|done].
Qed.

(** A reader that only needs [n] more bytes. *)
Definition takes {A} (n : nat) (r : reader A) : Prop := ∀ bs, (n ≤ length bs)%nat →
  ∃ a rest, r bs = Ok (a, rest) ∧ length rest = (length bs - n)%nat.

Lemma takes_bytes n : takes n (read_bytes n).
Proof.
  intros bs Hn. unfold read_bytes. rewrite bool_decide_eq_false_2 by lia.
  eexists _, _. split; [reflexivity|]. apply length_drop.
Qed.

Lemma takes_ret {A} (a : A) : takes 0 (mret a).
Proof. intros bs _. exists a, bs. split; [done|lia]. Qed.

Lemma takes_bind {A B} n k (r : reader A) (f : A → reader B) :
  takes n r → (∀ a, takes k (f a)) → takes (n + k) (r ≫= f).
Proof.
  intros Hr Hf bs Hn. destruct (Hr bs ltac:(lia)) as (a & mid & E & HL).
  destruct (Hf a mid ltac:(lia)) as (b & rest & E' & HL'). exists b, rest.
  split; [|lia]. apply reader_bind_Ok. eauto.
Qed.

Lemma takes_uint n : takes n (read_uint n).
Proof.
  rewrite <- (Nat.add_0_r n) at 1. apply takes_bind; [apply takes_bytes|intros; apply takes_ret].
Qed.

Lemma header_parse_total bs : length bs = 80%nat → ∃ h, header_parse bs = Ok h.
Proof.
  intros HL. assert (Ht : takes ((4 + 0) + (32 + (32 + (4 + (4 + (4 + 0)))))) read_header).
  { unfold read_header, read_i32, read_u32, read_hash.
    repeat first [apply takes_ret | apply takes_bytes | apply takes_uint
                 | apply takes_bind; [|intros ?]]. }
  destruct (Ht bs ltac:(lia)) as (h & rest & E & Hr). exists h. unfold header_parse. rewrite E.
  cbn [mbind result_bind]. rewrite bool_decide_eq_true_2; [done|]. apply nil_length_inv. lia.
Qed.

Lemma load_records_total records : Forall (λ r, length r = 80%nat) records →
  ∀ c, ∃ c', load_records c records = Ok c'.
Proof.
  induction 1 as [|r records Hr _ IH]; intros c; cbn [load_records]; [eauto|].
  destruct (header_parse_total r Hr) as [h ->]. cbn [mbind result_bind].
  destruct (append_validated c h); [apply IH|eauto].
Qed.

Lemma load_records_valid hs : ∀ c, chain_wf c → Forall header_wf hs →
  valid_headers (hc_params c) (headers c ++ hs) →
  ∃ c', load_records c (header_serialize <$> hs) = Ok c' ∧ headers c' = headers c ++ hs ∧
    chain_wf c' ∧ hc_params c' = hc_params c.
Proof.
  induction hs as [|h hs IH]; intros c Hc Hf Hv; cbn [fmap list_fmap load_records].
  { exists c. by rewrite app_nil_r. }
  apply Forall_cons in Hf as [Hh Hf]. rewrite (proj2 (header_exact _ h)) by done.
  cbn [mbind result_bind]. destruct (valid_next _ _ _ _ Hv) as (w & Hw).
  destruct (append_ok c h w Hw) as (c1 & E1 & Hh1 & Hp1). rewrite E1.
  destruct (append_spec _ _ _ Hc E1) as (Hc1 & _ & _).
  destruct (IH c1 Hc1 Hf) as (c' & E & Hh' & Hc' & Hp').
  { by rewrite Hh1, Hp1, <- app_assoc. }
  exists c'. split; [done|]. by rewrite Hh', Hh1, <- app_assoc, Hp', Hp1.
Qed.

Lemma persist_load c : chain_wf c → Forall header_wf (headers c) →
  load_chain (hc_params c) (Ok (Some (persist_chain c))) = Ok c.
Proof.
  intros Hc Hf. unfold load_chain, persist_chain. cbn [mbind result_bind].
  assert (HF : Forall (λ r, length r = 80%nat) (header_serialize <$> headers c)).
  { apply Forall_fmap. eapply Forall_impl; [exact Hf|]. apply length_header_serialize. }
  rewrite (length_concat_const 80), Nat.Div0.mod_mul by done.
  rewrite bool_decide_eq_true_2, chunks_concat by (done || lia).
  destruct (load_records_valid (headers c) (new_chain (hc_params c))) as (c' & -> & Hh & Hc' & Hp);
    [apply new_chain_wf|done|apply Hc|]. f_equal. by apply chain_wf_eq.
Qed.

Lemma load_total p bs : ∃ c, load_chain p (Ok (Some bs)) = Ok c ∧ follows p c.
Proof.
  unfold load_chain. cbn [mbind result_bind]. case_bool_decide as Hm.
  - destruct (load_records_total (chunks 80 bs)) with (c := new_chain p) as [c Hc].
    { apply chunks_exact; [lia|done]. }
    exists c. split; [done|]. eapply load_records_follows; [|exact Hc].
    split; [apply new_chain_wf|done].
  - eexists. split; [reflexivity|]. split; [apply new_chain_wf|done].
Qed.

Lemma load_chain_follows p file c : load_chain p file = Ok c → follows p c.
Proof.
  unfold load_chain. intros E. apply bind_Ok in E as (contents & _ & E).
  assert (Hnew : follows p (new_chain p)) by (split; [apply new_chain_wf|done]).
  destruct contents as [bs|]; [|by injection E as <-].
  case_bool_decide; [by eapply load_records_follows|by injection E as <-].
Qed.

Context {S : Type} `{!HeaderSource S}.

Definition state_follows (p : Params) (st : HeaderChain * S) : Prop := follows p st.1.

Lemma on_chain_follows {A} p (m : io HeaderChain A) :
  preserves (follows p) m → preserves (state_follows p) (on_chain m).
Proof.
  intros Hm [c s] Hc. unfold on_chain, state_follows in *. specialize (Hm c Hc).
  by destruct (m c).
Qed.

Lemma on_peer_follows {A} p (m : io S A) : preserves (state_follows p) (on_peer m).
Proof. intros [c s] Hc. unfold on_peer, state_follows in *. by destruct (m s). Qed.

Lemma bootstrap_follows p : preserves (state_follows p) bootstrap.
Proof.
  apply preserves_bind; [apply preserves_get|intros [c s]]. case_if; [|apply preserves_ret].
  apply preserves_bind; [apply on_peer_follows|]. intros [|h [|]]; try apply preserves_lift.
  apply preserves_bind; [apply on_chain_follows, append_mut_follows|intros; apply preserves_ret].
Qed.

Lemma sync_round_follows p : preserves (state_follows p) sync_round.
Proof.
  apply preserves_bind; [apply preserves_get|intros [c s]].
  apply preserves_bind; [apply on_peer_follows|]. intros [|h hs]; [apply preserves_ret|].
  apply preserves_bind; [apply on_chain_follows, attach_all_follows|intros; apply preserves_ret].
Qed.

Lemma sync_loop_follows p fuel : ∀ n st r st', state_follows p st →
  sync_loop fuel n st = Some (r, st') → state_follows p st'.
Proof.
  induction fuel as [|fuel IH]; intros n st r st' Hst; cbn [sync_loop]; [done|].
  pose proof (sync_round_follows p st Hst) as Hr.
  destruct (sync_round st) as [[[k|]|e] st1]; [by apply IH|by intros [= <- <-]..].
Qed.

Lemma sync_follows p fuel st r st' : state_follows p st → sync fuel st = Some (r, st') →
  state_follows p st'.
Proof.
  intros Hst. unfold sync. pose proof (bootstrap_follows p st Hst) as Hb.
  destruct (bootstrap st) as [[n|e] st1]; [by apply sync_loop_follows|by intros [= <- <-]].
Qed.
End chain_lemmas.

(** ** Lemmas: synchronising with a peer that follows a valid chain *)

(** The height of the first locator hash the peer knows. *)
Definition locator_hit `{Sha256d} (C : list BlockHeader) (loc : list bytes) : option nat :=
  find_map (λ h, position (λ x, bool_decide (header_hash x = h)) C) loc.

(** A peer whose best chain is [C] answers as the protocol prescribes: asked for
    the genesis block it serves it, and given a locator it serves headers that
    follow the first locator hash it knows, at least one unless there is none. *)
Class ServesChain `{Sha256d} (S : Type) `{!HeaderSource S} (C : list BlockHeader) : Prop := {
  serves_genesis : ∀ s g, head C = Some g →
    ∃ s', get_headers [] (header_hash g) s = (Ok [g], s');
  serves_after : ∀ s loc i, locator_hit C loc = Some i →
    ∃ n s', get_headers loc (zeros 32) s = (Ok (take n (drop (Datatypes.S i) C)), s') ∧
            (Datatypes.S i < length C → 0 < n)%nat;
}.

Section honest.
Context `{Sha256d} (p : Params) (C : list BlockHeader).
Hypothesis C_valid : valid_headers p C.
Hypothesis C_nodup : NoDup C.

(** No two different headers of [hs] and [C] have the same hash. *)
Definition no_collision (hs : list BlockHeader) : Prop :=
  ∀ x y, x ∈ hs ++ C → y ∈ hs ++ C → header_hash x = header_hash y → x = y.

Lemma valid_lookup_link hs i a b : valid_headers p hs →
  hs !! i = Some a → hs !! S i = Some b → prev_block b = header_hash a.
Proof.
  intros Hv Ha Hb. rewrite <- (take_drop i hs), (drop_S _ a), (drop_S _ b) in Hv by done.
  by eapply valid_link.
Qed.

Lemma valid_lookup_genesis hs g : valid_headers p hs → hs !! 0%nat = Some g →
  header_hash g = genesis_hash p.
Proof. destruct hs as [|h hs]; [done|]. intros Hv [= <-]. by eapply valid_genesis. Qed.

Lemma common_ancestor hs i j x : valid_headers p hs → NoDup hs → no_collision hs →
  hs !! j = Some x → C !! i = Some x → j = i ∧ take (S i) hs = take (S i) C.
Proof.
  intros Hv Hd Hinj. revert j x. induction i as [|i IH]; intros j x Hj Hi.
  - assert (∃ g, hs !! 0%nat = Some g) as [g Hg].
    { apply lookup_lt_is_Some. apply lookup_lt_Some in Hj. lia. }
    assert (g = x) as ->.
    { apply Hinj; [apply elem_of_app; left; by eapply list_elem_of_lookup_2..|].
      by rewrite (valid_lookup_genesis _ _ Hv Hg), (valid_lookup_genesis _ _ C_valid Hi). }
    split; [by eapply NoDup_lookup|]. by rewrite (take_S_r hs 0 x), (take_S_r C 0 x).
  - destruct j as [|j].
    + assert (∃ g, C !! 0%nat = Some g) as [g Hg].
      { apply lookup_lt_is_Some. apply lookup_lt_Some in Hi. lia. }
      assert (g = x) as ->.
      { apply Hinj; [apply elem_of_app; right; by eapply list_elem_of_lookup_2..|].
        by rewrite (valid_lookup_genesis _ _ Hv Hj), (valid_lookup_genesis _ _ C_valid Hg). }
      by pose proof (NoDup_lookup _ _ _ _ C_nodup Hg Hi).
    + assert (∃ a, hs !! j = Some a) as [a Ha].
      { apply lookup_lt_is_Some. apply lookup_lt_Some in Hj. lia. }
      assert (∃ b, C !! i = Some b) as [b Hb].
      { apply lookup_lt_is_Some. apply lookup_lt_Some in Hi. lia. }
      assert (a = b) as <-.
      { apply Hinj; [apply elem_of_app; left; by eapply list_elem_of_lookup_2|
          apply elem_of_app; right; by eapply list_elem_of_lookup_2|].
        by rewrite <- (valid_lookup_link _ _ _ _ Hv Ha Hj), <- (valid_lookup_link _ _ _ _ C_valid Hb Hi). }
      destruct (IH j a Ha Hb) as [-> E]. split; [done|].
      by rewrite (take_S_r hs _ x), (take_S_r C _ x), E.
Qed.

Lemma append_next c k x : headers c = take k C → C !! k = Some x → chain_wf c → hc_params c = p →
  ∃ c', append_mut x c = (Ok tt, c') ∧ headers c' = take (S k) C ∧ follows p c'.
Proof.
  intros Hh Hx Hc Hp. destruct (valid_next p (take k C) x (drop (S k) C)) as (w & Hw).
  { by rewrite <- (drop_S _ x), take_drop. }
  destruct (append_ok c x w) as (c' & E & Hh' & Hp'); [by rewrite Hh, Hp|].
  exists c'. unfold append_mut. rewrite E. split; [done|].
  rewrite (take_S_r _ _ x), <- Hh by done. split; [done|].
  destruct (append_spec _ _ _ Hc E) as (? & _ & ?). split; [done|congruence].
Qed.

Lemma attach_append c k x a : headers c = take (S k) C → C !! k = Some a → C !! S k = Some x →
  follows p c → ∃ c', attach x c = (Ok 1, c') ∧ headers c' = take (S (S k)) C ∧ follows p c'.
Proof.
  intros Hh Ha Hx [Hc Hp]. destruct (append_next c (S k) x Hh Hx Hc Hp) as (c' & E & Hh' & Hf).
  exists c'. split; [|done]. unfold attach. rewrite bool_decide_eq_true_2.
  - by apply (io_step _ _ _ _ _ _ E).
  - destruct Hc as (_ & -> & _). rewrite Hh, (take_S_r _ _ a), fmap_app by done.
    cbn [fmap list_fmap]. rewrite last_snoc. f_equal. symmetry. by eapply valid_lookup_link.
Qed.

Lemma attach_run batch : ∀ c k a, headers c = take (S k) C → C !! k = Some a →
  batch `prefix_of` drop (S k) C → follows p c →
  ∃ c', attach_all batch c = (Ok (Z.of_nat (length batch)), c') ∧
    headers c' = take (S k + length batch) C ∧ follows p c'.
Proof.
  induction batch as [|x batch IH]; intros c k a Hh Ha [rest Hpre] Hf; cbn [attach_all length].
  - exists c. rewrite Nat.add_0_r. done.
  - assert (Hx : C !! S k = Some x) by (rewrite <- (Nat.add_0_r (S k)), <- lookup_drop, Hpre; done).
    destruct (attach_append c k x a Hh Ha Hx Hf) as (c1 & E1 & Hh1 & Hf1).
    destruct (IH c1 (S k) x Hh1 Hx) as (c' & E & Hh' & Hf'); [|done|].
    { exists rest. rewrite (drop_S _ x) in Hpre by done. by injection Hpre. }
    exists c'. split; [|split; [|done]].
    + apply (io_step _ _ _ _ _ _ E1), (io_step _ _ _ _ _ _ E).
      unfold mret, io_ret. do 2 f_equal. lia.
    + rewrite Hh'. f_equal. lia.
Qed.

Lemma attach_fork c i x a : follows p c → NoDup (headers c) → no_collision (headers c) →
  C !! i = Some a → C !! S i = Some x → headers c !! i = Some a →
  ∃ c', attach x c = (Ok 1, c') ∧ headers c' = take (S (S i)) C ∧ follows p c'.
Proof.
  intros Hf Hd Hinj Ha Hx Hca. pose proof Hf as [Hc Hp]. pose proof Hc as (Hv & Hhash & _).
  rewrite Hp in Hv. pose proof (valid_lookup_link _ _ _ _ C_valid Ha Hx) as Hprev.
  destruct (common_ancestor _ _ _ _ Hv Hd Hinj Hca Ha) as [_ Htake].
  assert (Hat : ∀ j y, headers c !! j = Some y → header_hash y = prev_block x → j = i).
  { intros j y Hj Hy. assert (y = a) as ->.
    { apply Hinj; [apply elem_of_app; left; by eapply list_elem_of_lookup_2..|congruence]. }
    by eapply NoDup_lookup. }
  unfold attach. rewrite Hhash. case_bool_decide as Hlast.
  - rewrite last_lookup, length_fmap, list_lookup_fmap, fmap_Some in Hlast.
    destruct Hlast as (y & Hy & Hyh). pose proof (Hat _ _ Hy (eq_sym Hyh)) as Hlen.
    apply lookup_lt_Some in Hca. destruct (append_next c (S i) x) as (c' & E & Hh' & Hf'); try done.
    { rewrite <- Htake, take_ge by lia. done. }
    exists c'. split; [|done]. by apply (io_step _ _ _ _ _ _ E).
  - destruct (position _ _) as [fork|] eqn:Epos.
    + apply position_Some in Epos as [(h & Hh & Hpr) _]. apply bool_decide_eq_true in Hpr.
      rewrite list_lookup_fmap, fmap_Some in Hh. destruct Hh as (y & Hy & ->).
      rewrite (Hat _ _ Hy Hpr). rewrite Nat.add_1_r.
      destruct (append_next (truncate_chain (S i) c) (S i) x) as (c' & E & Hh' & Hf');
        [done|done|by apply truncate_wf|done|].
      exists c'. split; [|done]. by apply (io_step _ _ _ _ _ _ E).
    + apply position_None in Epos. rewrite Forall_fmap, Forall_lookup in Epos.
      specialize (Epos _ _ Hca). cbn in Epos. apply bool_decide_eq_false in Epos. congruence.
Qed.

(** The locator names blocks of the chain, its tip first. *)
Lemma locator_loop_sub fuel : ∀ hs height step loc, Forall (λ x, x ∈ hs) loc →
  height < Z.of_nat (length hs) → 0 < step →
  Forall (λ x, x ∈ hs) (locator_loop fuel hs height step loc).
Proof.
  induction fuel as [|fuel IH]; intros hs height step loc Hl Hh Hs; cbn [locator_loop]; [done|].
  destruct (height >? 0) eqn:E; [|done]. rewrite Z.gtb_ltb in E. bool_props.
  assert (Hl' : Forall (λ x, x ∈ hs) (loc ++ [nth (Z.to_nat height) hs []])).
  { apply Forall_app. split; [done|]. apply Forall_singleton, list_elem_of_In, nth_In. lia. }
  case_if; apply IH; done || lia.
Qed.

Lemma locator_loop_prefix fuel : ∀ hs height step loc,
  loc `prefix_of` locator_loop fuel hs height step loc.
Proof.
  induction fuel as [|fuel IH]; intros hs height step loc; cbn [locator_loop]; [done|].
  destruct (height >? 0); [|done]. case_if; (etrans; [|apply IH]); by apply prefix_app_r.
Qed.

Lemma locator_loop_step fuel hs height step loc : 0 < height → (length loc < 10)%nat →
  locator_loop (S fuel) hs height step loc =
  locator_loop fuel hs (height - 1) step (loc ++ [nth (Z.to_nat height) hs []]).
Proof.
  intros Hh Hl. cbn [locator_loop]. rewrite Z.gtb_ltb, (proj2 (Z.ltb_lt _ _) Hh).
  rewrite bool_decide_eq_false_2; [done|]. rewrite length_app. cbn. lia.
Qed.

Lemma locator_sub c : chain_wf c → Forall (λ x, x ∈ hashes c) (locator c).
Proof.
  intros (_ & Hh & _). unfold locator. apply Forall_app. split.
  - apply locator_loop_sub; [constructor| |lia]. rewrite Hh, length_fmap. lia.
  - destruct (hashes c) as [|g l]; [constructor|]. apply Forall_singleton. by left.
Qed.

Lemma locator_head c n x : chain_wf c → length (headers c) = S n → headers c !! n = Some x →
  ∃ rest, locator c = header_hash x :: rest.
Proof.
  intros (_ & Hh & _) HL Hx. assert (HLh : length (hashes c) = S n) by (by rewrite Hh, length_fmap).
  unfold locator. rewrite HL, HLh. destruct n as [|n].
  - rewrite Hh. destruct (headers c) as [|g [|]]; try done. injection Hx as ->. by exists [].
  - rewrite locator_loop_step by (cbn; lia).
    replace (Z.to_nat (Z.of_nat (S (S n)) - 1)) with (S n) by lia.
    assert (nth (S n) (hashes c) [] = header_hash x) as ->.
    { rewrite Hh, nth_lookup, list_lookup_fmap, Hx. done. }
    match goal with |- context [locator_loop ?f ?h ?z ?s ?l] =>
      destruct (locator_loop_prefix f h z s l) as [r ->] end.
    eexists. reflexivity.
Qed.

Lemma position_hash i x : C !! i = Some x → no_collision C →
  position (λ y, bool_decide (header_hash y = header_hash x)) C = Some i.
Proof.
  intros Hi Hinj. apply position_Some. split.
  - exists x. split; [done|]. by apply bool_decide_eq_true.
  - intros j y Hj Hy. apply bool_decide_eq_false. intros E.
    assert (y = x) as ->.
    { apply Hinj; [apply elem_of_app; right; by eapply list_elem_of_lookup_2..|done]. }
    pose proof (NoDup_lookup _ _ _ _ C_nodup Hy Hi). lia.
Qed.

Lemma no_collision_C hs : no_collision hs → no_collision C.
Proof. intros Hi x y Hx Hy. apply Hi; set_solver. Qed.

(** The first known locator hash of a chain that shares its genesis. *)
Lemma locator_hit_ancestor c : follows p c → headers c ≠ [] → C ≠ [] → NoDup (headers c) →
  no_collision (headers c) →
  ∃ i a, locator_hit C (locator c) = Some i ∧ C !! i = Some a ∧ headers c !! i = Some a.
Proof.
  intros [Hc Hp] Hne HCne Hd Hinj. pose proof Hc as (Hv & Hh & _). rewrite Hp in Hv.
  pose proof (locator_sub c Hc) as Hsub. unfold locator_hit.
  destruct (find_map _ (locator c)) as [i|] eqn:E.
  - apply find_map_Some in E as (l & Hl & Hpos). rewrite Forall_forall in Hsub. apply Hsub in Hl.
    apply position_Some in Hpos as [(a & Ha & Heq) _]. apply bool_decide_eq_true in Heq.
    rewrite Hh, list_elem_of_fmap in Hl. destruct Hl as (b & -> & Hb).
    apply list_elem_of_lookup in Hb as [j Hj].
    assert (a = b) as <-.
    { apply Hinj; [apply elem_of_app; right; by eapply list_elem_of_lookup_2|
        apply elem_of_app; left; by eapply list_elem_of_lookup_2|done]. }
    destruct (common_ancestor _ _ _ _ Hv Hd Hinj Hj Ha) as [-> _]. eauto.
  - exfalso. apply find_map_None in E. rewrite Forall_forall in E.
    destruct (headers c) as [|g hs] eqn:Ehs; [done|]. destruct C as [|g' C'] eqn:EC; [done|].
    assert (Hg : header_hash g = header_hash g')
      by (rewrite (valid_genesis _ _ _ Hv), (valid_genesis _ _ _ C_valid); done).
    assert (Hin : header_hash g ∈ locator c).
    { unfold locator. rewrite Hh. cbn [fmap list_fmap]. apply elem_of_app. right. by left. }
    specialize (E _ Hin). apply position_None, Forall_cons in E as [E _].
    apply bool_decide_eq_false in E. by rewrite Hg in E.
Qed.

Context {S : Type} `{!HeaderSource S, !ServesChain S C}.

Lemma round_ask c s i a : locator_hit C (locator c) = Some i → C !! i = Some a →
  ∃ n s', (Datatypes.S i < length C → 0 < n)%nat ∧
  sync_round (c, s) = match take n (drop (Datatypes.S i) C) with
    | [] => (Ok None, (c, s'))
    | served => (k ← on_chain (attach_all served); mret (Some k)) (c, s')
    end.
Proof.
  intros Hhit Ha. destruct (serves_after s (locator c) i Hhit) as (n & s' & E & Hn).
  exists n, s'. split; [done|]. unfold sync_round.
  assert (Hop : on_peer (get_headers (locator c) (zeros 32)) (c, s) =
    (Ok (take n (drop (Datatypes.S i) C)), (c, s'))) by (unfold on_peer; by rewrite E).
  apply (io_step _ _ _ _ _ _ (eq_refl : get_state (c, s) = (Ok (c, s), (c, s)))).
  apply (io_step _ _ _ _ _ _ Hop). by destruct (take n _).
Qed.

Lemma round_attach batch c (s : S) n c' : attach_all batch c = (Ok n, c') →
  (k ← on_chain (attach_all batch); mret (Some k)) (c, s) = (Ok (Some n), (c', s)).
Proof.
  intros E. assert (Hop : on_chain (attach_all batch) (c, s) = (Ok n, (c', s)))
    by (unfold on_chain; by rewrite E).
  by apply (io_step _ _ _ _ _ _ Hop).
Qed.

(** A round on a chain the peer's chain extends makes progress. *)
Lemma round_extend c s k : headers c = take (Datatypes.S k) C → (k < length C)%nat → follows p c →
  no_collision C →
  ∃ s', (length C = Datatypes.S k ∧ sync_round (c, s) = (Ok None, (c, s'))) ∨
        ∃ c' m, (0 < m)%nat ∧ (Datatypes.S k + m ≤ length C)%nat ∧
          sync_round (c, s) = (Ok (Some (Z.of_nat m)), (c', s')) ∧
          headers c' = take (Datatypes.S k + m) C ∧ follows p c'.
Proof.
  intros Hh Hk Hf Hinj. pose proof Hf as [Hc _].
  destruct (lookup_lt_is_Some_2 C k Hk) as [a Ha].
  assert (HL : length (headers c) = Datatypes.S k) by (rewrite Hh, length_take; lia).
  destruct (locator_head c k a) as [rest Hl]; [done|done|rewrite Hh, lookup_take_lt; [done|lia]|].
  assert (Hhit : locator_hit C (locator c) = Some k).
  { unfold locator_hit. rewrite Hl. cbn [find_map]. by rewrite (position_hash k a). }
  destruct (round_ask c s k a Hhit Ha) as (n & s' & Hn & E). exists s'.
  destruct (take n (drop (Datatypes.S k) C)) as [|x batch] eqn:Eb.
  - left. split; [|done]. apply (f_equal length) in Eb. rewrite length_take, length_drop in Eb.
    cbn in Eb. lia.
  - right. destruct (attach_run (x :: batch) c k a Hh Ha) as (c' & Er & Hh' & Hf'); [|done|].
    { rewrite <- Eb. exists (drop n (drop (Datatypes.S k) C)). by rewrite take_drop. }
    exists c', (length (x :: batch)). split; [cbn; lia|]. split.
    { apply (f_equal length) in Eb. rewrite length_take, length_drop in Eb. lia. }
    split; [|done]. rewrite E. by apply (round_attach _ _ _ _ _ Er).
Qed.

Lemma loop_extend fuel : ∀ c s k n, headers c = take (Datatypes.S k) C → (k < length C)%nat →
  follows p c → no_collision C → (length C - k ≤ fuel)%nat →
  ∃ m c' s', sync_loop fuel n (c, s) = Some (Ok m, (c', s')) ∧ headers c' = C.
Proof.
  induction fuel as [|fuel IH]; intros c s k n Hh Hk Hf Hinj Hfuel; [lia|].
  destruct (round_extend c s k Hh Hk Hf Hinj) as (s' & [[HL E]|(c' & m & Hm & Hle & E & Hh' & Hf')]);
    cbn [sync_loop]; rewrite E.
  - exists n, c, s'. split; [done|]. by rewrite Hh, take_ge by lia.
  - destruct (IH c' s' (k + m)%nat (n + Z.of_nat m)) as (m' & c2 & s2 & E2 & Hh2);
      [by rewrite Hh'|lia|done|done|lia|]. eauto.
Qed.

(** The first round from an arbitrary chain with the same genesis. *)
Lemma loop_join fuel c s n : follows p c → headers c ≠ [] → C ≠ [] → NoDup (headers c) →
  no_collision (headers c) → (length C < fuel)%nat →
  ∃ m c' s', sync_loop fuel n (c, s) = Some (Ok m, (c', s')) ∧
    (headers c' = C ∨ c' = c ∧ C `prefix_of` headers c).
Proof.
  intros Hf Hne HCne Hd Hinj Hfuel. destruct fuel as [|fuel]; [lia|].
  destruct (locator_hit_ancestor c Hf Hne HCne Hd Hinj) as (i & a & Hhit & Ha & Hca).
  pose proof Hf as [Hc Hp]. pose proof Hc as (Hv & _). rewrite Hp in Hv.
  destruct (common_ancestor _ _ _ _ Hv Hd Hinj Hca Ha) as [_ Htake].
  destruct (round_ask c s i a Hhit Ha) as (k & s' & Hk & E). cbn [sync_loop]. rewrite E.
  pose proof (lookup_lt_Some _ _ _ Ha) as Hi.
  destruct (take k (drop (Datatypes.S i) C)) as [|x batch] eqn:Eb.
  - exists n, c, s'. split; [done|]. right. split; [done|].
    apply (f_equal length) in Eb. rewrite length_take, length_drop in Eb. cbn in Eb.
    exists (drop (Datatypes.S i) (headers c)). rewrite <- (take_drop (Datatypes.S i) (headers c)) at 1.
    rewrite Htake, take_ge by lia. done.
  - assert (Hx : C !! Datatypes.S i = Some x).
    { rewrite <- (Nat.add_0_r (Datatypes.S i)), <- lookup_drop.
      rewrite <- (take_drop k (drop _ C)), Eb. done. }
    pose proof (drop_S C x (Datatypes.S i) Hx) as Hpre.
    destruct (attach_fork c i x a Hf Hd Hinj Ha Hx Hca) as (c1 & E1 & Hh1 & Hf1).
    destruct (attach_run batch c1 (Datatypes.S i) x Hh1 Hx) as (c2 & E2 & Hh2 & Hf2); [|done|].
    { exists (drop k (drop (Datatypes.S i) C)).
      rewrite <- (take_drop k (drop (Datatypes.S i) C)), Eb in Hpre. by injection Hpre. }
    assert (E3 : attach_all (x :: batch) c = (Ok (1 + Z.of_nat (length batch)), c2)).
    { cbn [attach_all]. by apply (io_step _ _ _ _ _ _ E1), (io_step _ _ _ _ _ _ E2). }
    rewrite (round_attach _ _ _ _ _ E3).
    apply (f_equal length) in Eb. rewrite length_take, length_drop in Eb. cbn [length] in Eb.
    destruct (loop_extend fuel c2 s' (Datatypes.S i + length batch)%nat
      (n + (1 + Z.of_nat (length batch)))) as (m & c' & s'' & E4 & Hh4);
      [by rewrite Hh2|lia|done|by eapply no_collision_C|lia|]. eauto 6.
Qed.
End honest.

(** ** Lemmas: filter headers *)
Section filters.
Context `{Sha256dLaws}.

(** The inputs hashed while chaining [fhs] onto [hdr]. *)
Fixpoint advance_inputs (hdr : bytes) (fhs : list bytes) : list bytes :=
  match fhs with
  | [] => []
  | fh :: fhs => (fh ++ hdr) :: advance_inputs (filter_header fh hdr) fhs
  end.

Lemma advance_inj fhs : ∀ fhs' hdr hdr', length fhs = length fhs' →
  Forall (λ x, length x = 32%nat) fhs → Forall (λ x, length x = 32%nat) fhs' →
  advance_filter_header hdr fhs = advance_filter_header hdr' fhs' →
  hdr = hdr' ∧ fhs = fhs' ∨ collide_within (advance_inputs hdr fhs) (advance_inputs hdr' fhs').
Proof.
  induction fhs as [|f fhs IH]; intros [|f' fhs'] hdr hdr' HL Hf Hf' E; try done; [by left|].
  apply Forall_cons in Hf as [Hf Hfs], Hf' as [Hf' Hfs']. cbn [advance_inputs].
  destruct (IH fhs' (filter_header f hdr) (filter_header f' hdr')) as
    [[E1 ->]|(x & y & Hx & Hy & Hxy)]; [by injection HL|done|done|exact E| |].
  - destruct (decide (f ++ hdr = f' ++ hdr')) as [E2|Hne].
    + left. apply app_inj_1 in E2 as [-> ->]; [done|congruence].
    + right. exists (f ++ hdr), (f' ++ hdr'). split; [by left|]. split; [by left|]. done.
  - right. exists x, y. split; [by right|]. split; [by right|]. done.
Qed.

Lemma advance_app hdr a b :
  advance_filter_header hdr (a ++ b) = advance_filter_header (advance_filter_header hdr a) b.
Proof. apply foldl_app. Qed.

Context {S : Type} `{!HeaderSource S} (c : HeaderChain) (F : list bytes).

(** A peer with the filter hashes [F] answers a page request by its own chain. *)
Definition serves_filters : Prop := ∀ s start stop h,
  (start ≤ stop < length F)%nat → (stop - start < 2000)%nat → hash_at c stop = Some h →
  ∃ s', get_cfheaders (Z.of_nat start) h s =
    (Ok {| stop_hash := h;
           previous_filter_header := advance_filter_header (zeros 32) (take start F);
           filter_hashes := slice start (Datatypes.S stop) F |}, s').

Hypothesis serves : serves_filters.
Hypothesis enough_headers : (length F ≤ length (hashes c))%nat.
Hypothesis small : Z.of_nat (length F) < 2 ^ 32.

Lemma fetch_page fuel stop_height start prev out s : (start ≤ stop_height < length F)%nat →
  let stop := Nat.min (start + 1999) stop_height in
  ∃ s', fetch_pages (Datatypes.S fuel) c stop_height start prev out s =
    if bool_decide (advance_filter_header (zeros 32) (take start F) = prev)
    then fetch_pages fuel c stop_height (stop + 1)
           (advance_filter_header (zeros 32) (take (stop + 1) F))
           (out ++ slice start (stop + 1) F) s'
    else (Err (EFilter "filter-header linkage broken"), s').
Proof.
  intros Hs stop. assert (Hlt : (stop < length (hashes c))%nat) by lia.
  destruct (lookup_lt_is_Some_2 _ _ Hlt) as [h Hh].
  destruct (serves s start stop h) as (s' & E); [lia|lia|done|]. exists s'.
  cbn [fetch_pages]. rewrite bool_decide_eq_true_2 by lia. fold stop. unfold hash_at. rewrite Hh.
  apply (io_step (lift (Ok h)) _ s h s _ eq_refl). rewrite Z.mod_small by lia.
  apply (io_step _ _ _ _ _ _ E). cbn [previous_filter_header filter_hashes].
  destruct (bool_decide (_ = prev)) eqn:Hp; [|reflexivity]. apply bool_decide_eq_true in Hp as <-.
  apply (io_step (lift (Ok tt)) _ s' tt s' _ eq_refl).
  rewrite length_slice by lia. rewrite bool_decide_eq_true_2 by lia.
  apply (io_step (lift (Ok tt)) _ s' tt s' _ eq_refl).
  rewrite <- advance_app, <- (slice_0 start), slice_app, slice_0 by lia.
  by rewrite (Nat.add_1_r stop).
Qed.

Lemma fetch_pages_ok fuel : ∀ stop_height start out s, (stop_height < length F)%nat →
  (start ≤ stop_height + 1)%nat → (stop_height + 1 - start ≤ fuel)%nat →
  ∃ s', fetch_pages fuel c stop_height start
    (advance_filter_header (zeros 32) (take start F)) out s =
    (Ok (out ++ slice start (stop_height + 1) F), s').
Proof.
  induction fuel as [|fuel IH]; intros stop_height start out s Hlt Hle Hf.
  - exists s. cbn [fetch_pages]. unfold slice. replace (stop_height + 1 - start)%nat with 0%nat by lia.
    cbn [firstn]. by rewrite app_nil_r.
  - destruct (decide (start ≤ stop_height)%nat).
    + destruct (fetch_page fuel stop_height start (advance_filter_header (zeros 32) (take start F))
        out s) as (s1 & ->); [lia|]. rewrite bool_decide_eq_true_2 by done.
      edestruct IH as (s' & ->); [done| | |]; [lia|lia|].
      exists s'. rewrite <- app_assoc, slice_app by lia. done.
    + exists s. cbn [fetch_pages]. rewrite bool_decide_eq_false_2 by done.
      unfold slice. replace (stop_height + 1 - start)%nat with 0%nat by lia.
      cbn [firstn]. by rewrite app_nil_r.
Qed.

Lemma reattest_honest f max s : f ≠ [] → (0 < max)%nat → (length f ≤ length F)%nat →
  let start := (length f - max)%nat in
  ∃ s', reattest_tail f c max s =
    (if bool_decide (advance_filter_header (zeros 32) (take start F) =
                     advance_filter_header (zeros 32) (take start f))
     then ensure (bool_decide (slice start (length f) F = slice start (length f) f))
            (EFilter "peer filter-hash tail differs from cached chain")
     else Err (EFilter "filter-header linkage broken"), s').
Proof.
  intros Hne Hmax HL start. assert (Hpos : (0 < length f)%nat) by (destruct f; [done|cbn; lia]).
  unfold reattest_tail. rewrite bool_decide_eq_false_2 by done.
  rewrite bool_decide_eq_false_2 by lia.
  replace (length f - 1 + 1 - max)%nat with start by lia.
  replace (length f - 1 + 1)%nat with (length f) by lia.
  assert (Hst : length (take start f) = start) by (rewrite length_take; lia).
  assert (Hfetch : fetch_range (take start f) c (length f - 1) s =
    fetch_pages (length f - 1 + 1 - start) c (length f - 1) start
      (advance_filter_header (zeros 32) (take start f)) [] s).
  { unfold fetch_range. rewrite Hst. case_bool_decide as Hz; [by rewrite Hz|].
    unfold filter_header_at. rewrite Hst, bool_decide_eq_false_2 by lia.
    rewrite take_take. replace (Nat.min (start - 1 + 1) start) with start by lia. done. }
  destruct (length f - 1 + 1 - start)%nat as [|fuel] eqn:Ef; [lia|].
  destruct (fetch_page fuel (length f - 1) start
    (advance_filter_header (zeros 32) (take start f)) [] s) as (s1 & E); [lia|].
  rewrite E in Hfetch. case_bool_decide as Hb.
  - edestruct (fetch_pages_ok fuel (length f - 1)) as (s2 & E2); [| | |rewrite E2 in Hfetch]; [lia..|].
    cbn [app] in Hfetch. rewrite slice_app in Hfetch by lia.
    replace (length f - 1 + 1)%nat with (length f) in Hfetch by lia.
    exists s2. by apply (io_step _ _ _ _ _ _ Hfetch).
  - exists s1. unfold mbind, io_bind. by rewrite Hfetch.
Qed.
End filters.

(** ** Lemmas: the whole synchronisation *)
Lemma sync_reaches `{Sha256d} {S} `{!HeaderSource S, !ServesChain S C} p fuel c (s : S) :
  valid_headers p C → C ≠ [] → NoDup C → chain_wf c → hc_params c = p → NoDup (headers c) →
  no_collision C (headers c) → (length C < fuel)%nat →
  ∃ n c' s', sync fuel (c, s) = Some (Ok n, (c', s')) ∧
    (headers c' = C ∨ c' = c ∧ C `prefix_of` headers c).
Proof.
  intros HC Hne Hd Hc Hp Hdc Hinj Hfuel. assert (Hf : follows p c) by done.
  unfold sync, bootstrap.
  destruct (decide (headers c = [])) as [He|He].
  - destruct C as [|g C'] eqn:EC; [done|]. rewrite <- EC in *.
    assert (Hg : C !! 0%nat = Some g) by (by rewrite EC).
    assert (Hhash : header_hash g = genesis_hash p) by (by eapply valid_lookup_genesis).
    destruct (serves_genesis (C := C) s g) as (s1 & Es); [by rewrite EC|].
    destruct (append_next p C HC c 0 g) as (c1 & Ea & Hh1 & Hf1); [done|done|done|done|].
    assert (Eb : bootstrap (c, s) = (Ok 1, (c1, s1))).
    { unfold bootstrap.
      apply (io_step _ _ _ _ _ _ (eq_refl : get_state (c, s) = (Ok (c, s), (c, s)))).
      rewrite bool_decide_eq_true_2 by done. rewrite Hp, <- Hhash.
      assert (Eo : on_peer (get_headers [] (header_hash g)) (c, s) = (Ok [g], (c, s1)))
        by (unfold on_peer; by rewrite Es).
      apply (io_step _ _ _ _ _ _ Eo).
      assert (Em : on_chain (append_mut g) (c, s1) = (Ok tt, (c1, s1)))
        by (unfold on_chain; by rewrite Ea).
      by apply (io_step _ _ _ _ _ _ Em). }
    unfold bootstrap in Eb. rewrite Eb.
    destruct (loop_extend p C HC Hd fuel c1 s1 0 1) as (m & c' & s' & E & Hh);
      [done|by apply lookup_lt_Some in Hg|done|by eapply no_collision_C|lia|]. eauto 6.
  - assert (Eb : bootstrap (c, s) = (Ok 0, (c, s))).
    { unfold bootstrap.
      apply (io_step _ _ _ _ _ _ (eq_refl : get_state (c, s) = (Ok (c, s), (c, s)))).
      by rewrite bool_decide_eq_false_2. }
    unfold bootstrap in Eb. rewrite Eb. by apply (loop_join p).
Qed.

(** ** Theorems *)

(** Whatever a peer serves, a chain that is well formed stays well formed
    through any number of rounds of synchronisation, whether they succeed, fail
    half-way through a batch or follow a fork: every header has passed the
    consensus checks over its ancestors and names its parent's hash, the first is
    the network's genesis, and hashes and cumulative work match the headers. *)
Theorem sync_keeps_chain_valid `{Sha256d} {S} `{!HeaderSource S} fuel c (s : S) r c' s' :
  chain_wf c → sync fuel (c, s) = Some (r, (c', s')) →
  chain_wf c' ∧ hc_params c' = hc_params c ∧
  (∀ g, headers c' !! 0%nat = Some g → header_hash g = genesis_hash (hc_params c)) ∧
  (∀ i a b, headers c' !! i = Some a → headers c' !! Datatypes.S i = Some b →
     prev_block b = header_hash a).
Proof.
  intros Hc E. destruct (sync_follows (hc_params c) fuel (c, s) r (c', s')) as [Hc' Hp'];
    [by split|done|]. cbn [fst] in *. pose proof Hc' as (Hv & _). rewrite Hp' in Hv.
  split_and!; [done|done| |].
  - intros g. by apply valid_lookup_genesis.
  - intros i a b. by apply (valid_lookup_link (hc_params c)).
Qed.

(** C28: Synchronising with a peer that follows a valid chain terminates, and
    afterwards our chain is the peer's, unless ours already extended it, in which
    case it is left alone: reorganisations below our tip are followed from the
    common ancestor that the locator finds, given that no two of the headers
    involved collide and neither chain repeats a header. *)
Theorem sync_reaches_peer_tip `{Sha256d} {S} `{!HeaderSource S, !ServesChain S C} p fuel c (s : S) :
  valid_headers p C → C ≠ [] → NoDup C → chain_wf c → hc_params c = p → NoDup (headers c) →
  no_collision C (headers c) → (length C < fuel)%nat →
  ∃ n c' s', sync fuel (c, s) = Some (Ok n, (c', s')) ∧
    (headers c' = C ∨ c' = c ∧ C `prefix_of` headers c).
Proof. apply sync_reaches. Qed.

(** The cache is exact and never trusted: a well-formed chain is reloaded as
    it was persisted, and whatever bytes a cache holds, loading them succeeds
    with a chain that has been validated from the genesis on. *)
Theorem header_cache_revalidated `{Sha256d} p c bs :
  (chain_wf c → Forall header_wf (headers c) →
   load_chain (hc_params c) (Ok (Some (persist_chain c))) = Ok c) ∧
  ∃ c', load_chain p (Ok (Some bs)) = Ok c' ∧ chain_wf c' ∧ hc_params c' = p.
Proof. split; [apply persist_load|apply load_total]. Qed.

(** Re-attesting the tail pins the whole cached filter chain: against a peer
    that answers from its own filter hashes, the check passes when the cache is a
    prefix of them, and when it passes the cache is a prefix of them, or two
    different inputs hashed while chaining the two prefixes collide. *)
Theorem reattest_pins_cache `{Sha256dLaws} {S} `{!HeaderSource S} c F f max (s : S) :
  serves_filters (S := S) c F → (length F ≤ length (hashes c))%nat → Z.of_nat (length F) < 2 ^ 32 →
  f ≠ [] → (0 < max)%nat → (length f ≤ length F)%nat →
  Forall (λ x, length x = 32%nat) f → Forall (λ x, length x = 32%nat) F →
  let start := (length f - max)%nat in
  (f `prefix_of` F → ∃ s', reattest_tail f c max s = (Ok tt, s')) ∧
  (∀ s', reattest_tail f c max s = (Ok tt, s') →
   f `prefix_of` F ∨
   collide_within (advance_inputs (zeros 32) (take start F)) (advance_inputs (zeros 32) (take start f))).
Proof.
  intros Hs Hh Hb Hne Hmax HL Hf HF start.
  destruct (reattest_honest c F Hs Hh Hb f max s Hne Hmax HL) as (s1 & E). fold start in E. split.
  - intros [rest ->]. exists s1. rewrite E. rewrite take_app_le by lia.
    rewrite bool_decide_eq_true_2 by done. unfold slice.
    rewrite drop_app_le, take_app_le by (rewrite ?length_drop; lia).
    by rewrite bool_decide_eq_true_2.
  - intros s' E'. rewrite E in E'. case_bool_decide as Ha; [|done].
    injection E' as E' <-. apply ensure_Ok, bool_decide_eq_true in E'.
    destruct (advance_inj (take start F) (take start f) (zeros 32) (zeros 32)) as [[_ Ht]|Hcol];
      [rewrite !length_take; lia|by apply Forall_take..|done| |by right].
    left. exists (drop (length f) F). rewrite <- (take_drop (length f) F) at 1. f_equal.
    rewrite <- (slice_0 (length f) F), <- (slice_app 0 start), E', slice_0, Ht by lia.
    unfold slice. rewrite (take_ge (drop start f)) by (rewrite length_drop; lia).
    apply take_drop.
Qed.

(** ** A two-block chain and a peer that serves it *)
Section demo.
#[local] Existing Instance demo_sha.

Definition demo_params : Params :=
  {| network := Regtest; magic := 0xdab5bffa; default_port := 18444;
     genesis_hash := header_hash demo_genesis;
     pow_limit := compact_or_zero 0x207fffff; pow_limit_bits := 0x207fffff;
     pow_target_spacing := 600; pow_target_timespan := 14 * 24 * 60 * 60;
     allow_min_difficulty := true; no_retargeting := true |}.
Definition demo_chain : list BlockHeader := [demo_genesis; demo_child 2].
Definition demo_filters : list bytes := [replicate 32 x0a; replicate 32 x0b].

(** Its pages hold what follows the first known locator hash. *)
Definition demo_serve (loc : list bytes) (stop : bytes) : list BlockHeader :=
  match loc with
  | [] => if bool_decide (stop = header_hash demo_genesis) then [demo_genesis] else []
  | _ => match locator_hit demo_chain loc with
         | Some i => drop (Datatypes.S i) demo_chain
         | None => []
         end
  end.

#[local] Instance demo_source : HeaderSource () := {|
  get_headers loc stop := λ u, (Ok (demo_serve loc stop), u);
  get_cfheaders start stop := λ u,
    (let n := default 0%nat (position (λ h, bool_decide (header_hash h = stop)) demo_chain) in
     Ok {| stop_hash := stop;
           previous_filter_header :=
             advance_filter_header (zeros 32) (take (Z.to_nat start) demo_filters);
           filter_hashes := slice (Z.to_nat start) (Datatypes.S n) demo_filters |}, u);
|}.

#[local] Instance demo_serves : ServesChain () demo_chain.
Proof.
  split.
  - intros u g E. injection E as <-. exists u. cbn [get_headers demo_source demo_serve].
    by rewrite bool_decide_eq_true_2.
  - intros u loc i E. exists 2%nat, u. split; [|lia].
    destruct loc as [|l loc]; [discriminate E|]. cbn [get_headers demo_source demo_serve].
    rewrite E. f_equal. f_equal. rewrite take_ge; [done|]. rewrite length_drop. cbn. lia.
Qed.

Lemma demo_chain_valid : valid_headers demo_params demo_chain.
Proof.
  assert (E1 : next_work demo_params [] demo_genesis = Ok 2) by (vm_compute; reflexivity).
  assert (E2 : next_work demo_params [demo_genesis] (demo_child 2) = Ok 2)
    by (vm_compute; reflexivity).
  exact (valid_snoc _ _ _ _ (valid_snoc _ [] _ _ (valid_nil _) E1) E2).
Qed.

Lemma demo_no_collision : no_collision demo_chain [].
Proof.
  assert (Hne : header_hash demo_genesis ≠ header_hash (demo_child 2)).
  { apply (bool_decide_unpack _). vm_compute. exact I. }
  intros x y Hx Hy E. unfold demo_chain in *. set_unfold in Hx. set_unfold in Hy.
  destruct Hx as [->|[->|[]]], Hy as [->|[->|[]]]; congruence.
Qed.

Lemma demo_chain_nodup : NoDup demo_chain.
Proof.
  assert (Hne : h_nonce demo_genesis ≠ h_nonce (demo_child 2)) by (cbn; lia).
  apply NoDup_cons_2; [|apply NoDup_singleton]. intros E%list_elem_of_singleton. congruence.
Qed.

Lemma sync_reaches_peer_tip_witness :
  ∃ n c' s', sync 3 (new_chain demo_params, tt) = Some (Ok n, (c', s')) ∧
    (headers c' = demo_chain ∨
     c' = new_chain demo_params ∧ demo_chain `prefix_of` headers (new_chain demo_params)).
Proof.
  apply (sync_reaches_peer_tip demo_params).
  - exact demo_chain_valid.
  - discriminate.
  - exact demo_chain_nodup.
  - apply new_chain_wf.
  - reflexivity.
  - constructor.
  - exact demo_no_collision.
  - cbn. lia.
Defined.

Definition demo_synced : HeaderChain :=
  {| hc_params := demo_params; headers := demo_chain; hashes := header_hash <$> demo_chain;
     chainwork := [2; 4] |}.

Lemma demo_sync : sync 3 (new_chain demo_params, tt) = Some (Ok 2, (demo_synced, tt)).
Proof. vm_compute. reflexivity. Qed.

Lemma sync_keeps_chain_valid_witness : chain_wf demo_synced ∧ hc_params demo_synced = demo_params.
Proof.
  destruct (sync_keeps_chain_valid 3 (new_chain demo_params) tt _ _ _ (new_chain_wf _) demo_sync)
    as (Hc & Hp & _).
  split; [exact Hc|exact Hp].
Defined.

Lemma header_cache_revalidated_witness :
  load_chain demo_params (Ok (Some (persist_chain demo_synced))) = Ok demo_synced.
Proof.
  refine (proj1 (header_cache_revalidated demo_params demo_synced []) _ _).
  - split; [exact demo_chain_valid|]. split; [reflexivity|vm_compute; reflexivity].
  - repeat (apply List.Forall_cons; [apply (bool_decide_unpack _); vm_compute; exact I|]).
    apply List.Forall_nil.
Defined.

Lemma demo_serves_filters : serves_filters (S := ()) demo_synced demo_filters.
Proof.
  intros u start stop h Hs _ Hh. exists u. cbn [get_cfheaders demo_source]. rewrite Nat2Z.id.
  assert (Hp : default 0%nat (position (λ x, bool_decide (header_hash x = h)) demo_chain) = stop).
  { unfold hash_at in Hh. destruct stop as [|[|stop]]; [| |cbn in Hs; lia].
    - injection Hh as <-. vm_compute. reflexivity.
    - injection Hh as <-. vm_compute. reflexivity. }
  by rewrite Hp.
Qed.

Lemma reattest_pins_cache_witness :
  ∃ s', reattest_tail demo_filters demo_synced 1 tt = (Ok tt, s').
Proof.
  refine (proj1 (@reattest_pins_cache demo_sha demo_sha_laws () demo_source demo_synced demo_filters
    demo_filters 1%nat tt demo_serves_filters _ _ _ _ _ _ _) _).
  - cbn. lia.
  - cbn. lia.
  - discriminate.
  - lia.
  - lia.
  - apply (bool_decide_unpack _). vm_compute. exact I.
  - apply (bool_decide_unpack _). vm_compute. exact I.
  - exists []. reflexivity.
Defined.
End demo.
