(* ===== verification/FullScan.v ===== *)
(** * Self-scans over a window of blocks

    Models [crates/opencsv-cbf/src/fullscan.rs] and the context rule of
    [crates/opencsv-bitcoin/src/chain.rs]: the anchor candidates of a block, the
    occurrence test of a candidate, the bounded window scan and the anchor chain
    it gives.  The client is anything that implements [ChainClient]. *)

From S2P Require Import Prelude Field Commitments Kernel Anchor Batch Chain Accept Wire Block Network Peer.

(** SHA-256 is third-party code. *)
Class Sha256 := sha256 : bytes → bytes.
#[global] Arguments sha256 : simpl never.

Class Sha256Laws (H : Sha256) : Prop := {
  length_sha256 : ∀ x, length (sha256 x) = 32%nat;
}.

(** What a scan asks of the light client. *)
Class ChainClient (S : Type) := {
  client_tip : S → Z;
  client_block_hash : S → Z → option bytes;
  fetch_block : bytes → io S Block;
  filter_matches : Z → bytes → io S bool;
  fetched_bytes : S → Z * Z;
}.

Definition MAX_WINDOW_BLOCKS : Z := 2016.

Record BatchCandidate := { bc_version : BatchVersion; bc_index : Z; bc_envelope : list bytes }.

Record ScannedAnchor := {
  sa_location : Location;
  sa_txid : bytes;
  sa_record : AnchorRecord;
  sa_ctx : bytes;
  sa_batch : option BatchCandidate;
}.

Section scan.
Context `{Poseidon, Sha256d, Sha256}.

Definition funding_ctx (txid : bytes) (vout : Z) : bytes := sha256 (txid ++ le_bytes 4 vout).

(** The candidates of the output that carries the record. *)
Definition output_candidates (height : Z) (position : nat) (tx : Transaction) (ctx payload : bytes)
  : list ScannedAnchor :=
  let record := record_from_bytes payload in
  let candidate batch :=
    {| sa_location := MkLocation height (Z.of_nat position mod 2 ^ 32); sa_txid := tx_id tx;
       sa_record := record; sa_ctx := ctx; sa_batch := batch |} in
  match record with
  | BatchHeader _ _ =>
    match (w ← head (witnesses tx); witness_envelope_decode w) with
    | Some (version, envelope) =>
      imap (λ index _, candidate (Some {| bc_version := version;
        bc_index := Z.of_nat index mod 2 ^ 32; bc_envelope := envelope |})) envelope
    | None => [candidate None]
    end
  | _ => [candidate None]
  end.

(** The body of the loop over transactions; the loop over outputs stops at the
    first 64-byte OP_RETURN. *)
Definition tx_candidates (height : Z) (position : nat) (tx : Transaction) : list ScannedAnchor :=
  if is_coinbase tx then [] else
  match head (inputs tx) with
  | None => []
  | Some funding =>
    let ctx := funding_ctx (op_txid (prev funding)) (vout (prev funding)) in
    match find_map (λ output, op_return_payload (script_pubkey output)) (outputs tx) with
    | Some payload => output_candidates height position tx ctx payload
    | None => []
    end
  end.

Definition anchors_in_block (block : Block) (height : Z) : list ScannedAnchor :=
  concat (imap (tx_candidates height) (txs block)).

(** [ScannedAnchor::binds] *)
Definition binds (e : ScannedAnchor) (raw_nf : bytes) : bool :=
  match sa_batch e with
  | None => well_formed (sa_record e) (sa_ctx e) raw_nf
  | Some batch => bool_decide (versioned_envelope_occurrence (bc_version batch) (sa_record e)
      (bc_envelope batch) (sa_ctx e) raw_nf = Some (bc_index batch))
  end.

Record FullScanChain := {
  window_start : Z;
  window_end : Z;
  scan_entries : list ScannedAnchor;
}.

(** ** The window scan *)
Section window.
Context {S : Type} `{!ChainClient S}.

(** [block.compute_merkle_root() != block.header.merkle_root]; the root of a
    block without transactions is an assertion failure. *)
Definition check_merkle (block : Block) : io S () :=
  root ← lift (ok_or (compute_merkle_root block) (EPanic "a block has at least one transaction"));
  lift (ensure (bool_decide (root = h_merkle_root (header block)))
    (EConsensus "block merkle root does not match its header")).

Definition scan_block (h : Z) : io S (list ScannedAnchor) :=
  c ← get_state;
  block_hash ← lift (ok_or (client_block_hash c h) (EConsensus "no header at height"));
  block ← fetch_block block_hash;
  check_merkle block;;
  mret (anchors_in_block block h).

(** [for height in birth..=spend] *)
Fixpoint scan_blocks (n : nat) (h : Z) : io S (list ScannedAnchor) :=
  match n with
  | O => mret []
  | Datatypes.S n => es ← scan_block h; rest ← scan_blocks n (h + 1); mret (es ++ rest)
  end.

Definition full_scan (birth spend : Z) : io S FullScanChain :=
  lift (ensure (negb (birth =? 0)) (EInvalidInput "window starts at height 0"));;
  lift (ensure (negb (spend <? birth)) (EInvalidInput "empty window"));;
  c ← get_state;
  lift (ensure (negb (spend >? client_tip c)) (EInvalidInput "window end is above the verified tip"));;
  lift (ensure (negb (spend - birth + 1 >? MAX_WINDOW_BLOCKS))
    (EInvalidInput "window exceeds MAX_WINDOW_BLOCKS"));;
  es ← scan_blocks (Z.to_nat (spend - birth + 1)) birth;
  mret {| window_start := birth; window_end := spend; scan_entries := es |}.

(** [min_by_key] on the location: the first of the least. *)
Fixpoint min_by_location (best : option (Location * bytes)) (l : list (Location * bytes))
  : option (Location * bytes) :=
  match l with
  | [] => best
  | x :: l => min_by_location
      (match best with
       | Some b => if decide (loc_le b.1 x.1) then Some b else Some x
       | None => Some x
       end) l
  end.

Definition first_occurrence_in_window (raw_nf : bytes) (birth spend : Z)
  : io S (option (Location * bytes)) :=
  scan ← full_scan birth spend;
  mret (min_by_location None ((λ e, (sa_location e, sa_ctx e)) <$>
    filter (λ e, binds e raw_nf = true) (scan_entries scan))).
End window.

(** ** Queries over scanned entries *)
Definition mempool_location : Location := MkLocation 0 0.

Definition refers (r : AnchorRef) (e : ScannedAnchor) : bool :=
  bool_decide (sa_txid e = txid r) &&
  (bool_decide (sa_location e = ref_location r) || bool_decide (ref_location r = mempool_location)).

Definition scan_find (es : list ScannedAnchor) (r : AnchorRef) : option ScannedAnchor :=
  find_first (refers r) es.

Definition is_batch_header (r : AnchorRecord) : bool :=
  match r with BatchHeader _ _ => true | _ => false end.

Definition scan_proof_record_at (es : list ScannedAnchor) (r : AnchorRef)
    (raw_nullifiers : list bytes) : option AnchorRecord :=
  match raw_nullifiers with
  | [raw_nf] =>
    entry ← find_first (λ e, refers r e && binds e raw_nf) es;
    if is_batch_header (sa_record entry) then xfer raw_nullifiers (sa_ctx entry)
    else Some (sa_record entry)
  | _ =>
    entry ← scan_find es r;
    if is_batch_header (sa_record entry) then None else Some (sa_record entry)
  end.

Definition bound_locations (es : list ScannedAnchor) (raw_nf : bytes) : list Location :=
  sa_location <$> filter (λ e, binds e raw_nf = true) es.

Definition scanned_chain (tip : Z) (es : list ScannedAnchor) : AnchorChain := {|
  tip_height := tip;
  anchor_at r := sa_record <$> scan_find es r;
  proof_record_at := scan_proof_record_at es;
  ctx_at r := sa_ctx <$> scan_find es r;
  locate r := sa_location <$> scan_find es r;
  first_nullifier_occurrence nf := locs_min (bound_locations es nf);
  nullifier_occurrences nf := merge_sort loc_le (bound_locations es nf);
  anchors_up_to h := (λ e, (sa_location e, sa_record e)) <$>
    filter (λ e, height (sa_location e) ≤ h) es;
  confirmations_at := default_confirmations_at tip;
|}.

(** [impl AnchorChain for FullScanChain] *)
Definition full_scan_chain (s : FullScanChain) : AnchorChain :=
  scanned_chain (window_end s) (scan_entries s).
End scan.

(** ** Lemmas: candidates *)

Lemma record_count_bound bs count c : record_from_bytes bs = BatchHeader count c → 0 ≤ count < 256.
Proof. unfold record_from_bytes. repeat (case_match; try done). intros [= <- _]. apply bval_bound. Qed.

Lemma filter_key_once {A} (key : A → Z) (P : A → Prop) `{∀ x, Decision (P x)} k l :
  NoDup (key <$> l) → (∀ x, x ∈ l → P x → key x = k) → (length (filter P l) ≤ 1)%nat.
Proof.
  intros Hd Hk. induction l as [|x l IH]; [cbn; lia|].
  rewrite fmap_cons, NoDup_cons in Hd. destruct Hd as [Hx Hd]. rewrite filter_cons.
  case_decide as HP; [|apply IH; [done|]; intros; apply Hk; [by right|done]].
  enough (filter P l = []) as -> by (cbn; lia).
  destruct (filter P l) as [|y m] eqn:E; [done|]. exfalso. apply Hx.
  assert (Hy : y ∈ filter P l) by (rewrite E; left). apply list_elem_of_filter in Hy as [Hy Hin].
  rewrite (Hk x), <- (Hk y); [|by right|done|by left|done]. by apply list_elem_of_fmap_2.
Qed.

Lemma filter_none {A} (P : A → Prop) `{∀ x, Decision (P x)} l :
  (∀ x, x ∈ l → ¬ P x) → filter P l = [].
Proof.
  intros Hl. induction l as [|x l IH]; [done|]. rewrite filter_cons, decide_False by (apply Hl; left).
  apply IH. intros y Hy. apply Hl. by right.
Qed.

Lemma once_sorted {A} (R : A → A → Prop) l : (length l ≤ 1)%nat → StronglySorted R l.
Proof.
  destruct l as [|x [|]]; cbn; [constructor|repeat constructor|lia].
Qed.

Section candidate_lemmas.
Context `{Poseidon, Sha256d, Sha256}.

Lemma output_candidates_location h pos tx ctx payload e :
  e ∈ output_candidates h pos tx ctx payload →
  sa_location e = MkLocation h (Z.of_nat pos mod 2 ^ 32).
Proof.
  unfold output_candidates. intros He. repeat case_match; try (by apply list_elem_of_singleton in He as ->).
  apply list_elem_of_lookup in He as [i Hi]. rewrite list_lookup_imap in Hi.
  by apply fmap_Some in Hi as (? & _ & ->).
Qed.

Lemma tx_candidates_location h pos tx e : e ∈ tx_candidates h pos tx →
  sa_location e = MkLocation h (Z.of_nat pos mod 2 ^ 32).
Proof.
  unfold tx_candidates. intros He. repeat case_match; try by apply elem_of_nil in He.
  by eapply output_candidates_location.
Qed.

Lemma imap_env {A} (mk : nat → A) (env : list bytes) e :
  e ∈ imap (λ i _, mk i) env ↔ ∃ i, (i < length env)%nat ∧ e = mk i.
Proof.
  rewrite list_elem_of_lookup. setoid_rewrite list_lookup_imap. setoid_rewrite fmap_Some. split.
  - intros (i & p & Hp & ->). apply lookup_lt_Some in Hp. eauto.
  - intros (i & [p Hp]%lookup_lt_is_Some & ->). eauto.
Qed.

Lemma output_candidates_once h pos tx ctx payload nf :
  (length (filter (λ e, binds e nf = true) (output_candidates h pos tx ctx payload)) ≤ 1)%nat.
Proof.
  assert (Hone : ∀ e, (length (filter (λ e, binds e nf = true) [e]) ≤ 1)%nat).
  { intros e. rewrite filter_cons. case_decide; cbn; lia. }
  unfold output_candidates. destruct (record_from_bytes payload) as [| | |count com|] eqn:Er;
    try apply Hone.
  destruct (w ← head (witnesses tx); witness_envelope_decode w) as [[v env]|]; [|apply Hone].
  destruct (versioned_envelope_occurrence v (BatchHeader count com) env ctx nf) as [k|] eqn:Eo.
  - assert (HL : (length env < 256)%nat).
    { pose proof (record_count_bound _ _ _ Er). cbn [versioned_envelope_occurrence] in Eo.
      case_bool_decide as Hc; [lia|done]. }
    apply (filter_key_once (λ e, default 0 (bc_index <$> sa_batch e)) _ k).
    + apply NoDup_alt. intros i j x Hi Hj. rewrite list_lookup_fmap, list_lookup_imap in Hi, Hj.
      destruct (env !! i) eqn:Ei; [|done]. destruct (env !! j) eqn:Ej; [|done].
      apply lookup_lt_Some in Ei, Ej. cbn in Hi, Hj. injection Hi as <-. injection Hj as Hj.
      rewrite !Z.mod_small in Hj by lia. lia.
    + intros e (i & _ & ->)%imap_env Hb. unfold binds in Hb. cbn in Hb.
      apply bool_decide_eq_true in Hb. cbn in Eo, Hb. rewrite Eo in Hb. by injection Hb.
  - rewrite filter_none; [cbn; lia|].
    intros e (i & _ & ->)%imap_env Hb. unfold binds in Hb. cbn in Hb.
    apply bool_decide_eq_true in Hb. cbn in Eo, Hb. by rewrite Eo in Hb.
Qed.

Lemma tx_candidates_once h pos tx nf :
  (length (filter (λ e, binds e nf = true) (tx_candidates h pos tx)) ≤ 1)%nat.
Proof. unfold tx_candidates. repeat case_match; try (cbn; lia). apply output_candidates_once. Qed.

(** Whether a transaction is an occurrence of a nullifier: the rule the
    candidates implement. *)
Definition tx_binds (tx : Transaction) (nf : bytes) : Prop :=
  is_coinbase tx = false ∧ ∃ funding payload,
    head (inputs tx) = Some funding ∧
    find_map (λ output, op_return_payload (script_pubkey output)) (outputs tx) = Some payload ∧
    let ctx := funding_ctx (op_txid (prev funding)) (vout (prev funding)) in
    let record := record_from_bytes payload in
    well_formed record ctx nf = true ∨
    ∃ w v env, head (witnesses tx) = Some w ∧ witness_envelope_decode w = Some (v, env) ∧
      is_Some (versioned_envelope_occurrence v record env ctx nf).

Lemma versioned_index v r env ctx nf k : versioned_envelope_occurrence v r env ctx nf = Some k →
  is_batch_header r = true ∧ ∃ i, (i < length env)%nat ∧ k = Z.of_nat i mod 2 ^ 32.
Proof.
  destruct r; cbn [versioned_envelope_occurrence]; try done. case_if; [done|].
  intros (i & Hi & ->)%fmap_Some. split; [done|]. exists i. split; [|done].
  apply position_Some in Hi as [(x & Hx & _) _]. by apply lookup_lt_Some in Hx.
Qed.

Lemma batch_not_solo r ctx nf : is_batch_header r = true → well_formed r ctx nf = false.
Proof. by destruct r. Qed.

Lemma output_candidates_bind h pos tx ctx payload nf :
  let record := record_from_bytes payload in
  (∃ e, e ∈ output_candidates h pos tx ctx payload ∧ binds e nf = true) ↔
  well_formed record ctx nf = true ∨
  ∃ w v env, head (witnesses tx) = Some w ∧ witness_envelope_decode w = Some (v, env) ∧
    is_Some (versioned_envelope_occurrence v record env ctx nf).
Proof.
  intros record. subst record. unfold output_candidates.
  assert (Hone : ∀ e, sa_batch e = None → sa_ctx e = ctx →
    (is_batch_header (sa_record e) = true → head (witnesses tx) ≫= witness_envelope_decode = None) →
    (∃ e', e' ∈ [e] ∧ binds e' nf = true) ↔
    well_formed (sa_record e) ctx nf = true ∨
    ∃ w v env, head (witnesses tx) = Some w ∧ witness_envelope_decode w = Some (v, env) ∧
      is_Some (versioned_envelope_occurrence v (sa_record e) env ctx nf)).
  { intros e Hb <- Hn. setoid_rewrite list_elem_of_singleton. split.
    - intros (? & -> & Hbind). unfold binds in Hbind. rewrite Hb in Hbind. by left.
    - intros [Hw|(w & v & env & Hw & Hd & k & Hk)].
      + exists e. split; [done|]. unfold binds. by rewrite Hb.
      + apply versioned_index in Hk as [Hh _]. specialize (Hn Hh). rewrite Hw in Hn. cbn in Hn.
        congruence. }
  destruct (record_from_bytes payload) as [| | |count com|] eqn:Er;
    try (by apply (Hone {| sa_record := _ |})).
  destruct (w ← head (witnesses tx); witness_envelope_decode w) as [[v env]|] eqn:Ew;
    [|by apply (Hone {| sa_record := BatchHeader count com |})].
  apply bind_Some in Ew as (w & Hw & Hd). split.
  - intros (e & (i & _ & ->)%imap_env & Hb). right. exists w, v, env. split; [done|]. split; [done|].
    unfold binds in Hb. cbn [sa_batch sa_record sa_ctx bc_version bc_envelope bc_index] in Hb.
    apply bool_decide_eq_true in Hb. eauto.
  - intros [Hs|(w' & v' & env' & Hw' & Hd' & k & Hk)]; [by rewrite batch_not_solo in Hs|].
    simplify_eq. pose proof Hk as (_ & i & Hi & ->)%versioned_index. eexists. split.
    + apply imap_env. exists i. split; [done|reflexivity].
    + unfold binds. cbn [sa_batch sa_record sa_ctx bc_version bc_envelope bc_index].
      by apply bool_decide_eq_true.
Qed.

Lemma tx_candidates_bind h pos tx nf :
  (∃ e, e ∈ tx_candidates h pos tx ∧ binds e nf = true) ↔ tx_binds tx nf.
Proof.
  unfold tx_binds, tx_candidates. destruct (is_coinbase tx); [set_solver|].
  destruct (head (inputs tx)) as [funding|]; [|set_solver].
  destruct (find_map _ (outputs tx)) as [payload|]; [|set_solver].
  rewrite output_candidates_bind. split.
  - intros Ho. split; [done|]. by exists funding, payload.
  - intros (_ & f & p & [= <-] & [= <-] & Ho). exact Ho.
Qed.

(** ** Lemmas: blocks and chains of candidates *)
Definition strictly_placed (es : list ScannedAnchor) : Prop :=
  ∀ nf, StronglySorted loc_lt (bound_locations es nf).

Lemma bound_locations_app a b nf :
  bound_locations (a ++ b) nf = bound_locations a nf ++ bound_locations b nf.
Proof. unfold bound_locations. by rewrite filter_app, fmap_app. Qed.

Lemma elem_of_bound_locations es nf l :
  l ∈ bound_locations es nf ↔ ∃ e, e ∈ es ∧ binds e nf = true ∧ sa_location e = l.
Proof.
  unfold bound_locations. rewrite list_elem_of_fmap. setoid_rewrite list_elem_of_filter. naive_solver.
Qed.

Lemma strictly_placed_app a b : strictly_placed a → strictly_placed b →
  (∀ x y, x ∈ a → y ∈ b → loc_lt (sa_location x) (sa_location y)) → strictly_placed (a ++ b).
Proof.
  intros Ha Hb Hab nf. rewrite bound_locations_app. apply StronglySorted_app_2; [|done|done].
  intros l l' (x & Hx & _ & <-)%elem_of_bound_locations (y & Hy & _ & <-)%elem_of_bound_locations.
  by apply Hab.
Qed.

Lemma candidates_from h txs : ∀ n, Z.of_nat (n + length txs) ≤ 2 ^ 32 →
  let es := concat (imap (λ i tx, tx_candidates h (n + i) tx) txs) in
  strictly_placed es ∧
  Forall (λ e, height (sa_location e) = h ∧ Z.of_nat n ≤ loc_position (sa_location e)) es.
Proof.
  induction txs as [|tx txs IH]; intros n Hn; cbn [imap concat length] in *.
  { split; [intros nf|]; constructor. }
  assert (Eq : imap ((λ i tx, tx_candidates h (n + i) tx) ∘ S) txs =
               imap (λ i tx, tx_candidates h (S n + i) tx) txs).
  { apply imap_ext. intros i x _. cbn. f_equal. lia. }
  rewrite Eq. destruct (IH (S n)) as [Hs Hf]; [lia|].
  assert (Hloc : ∀ e, e ∈ tx_candidates h (n + 0) tx → sa_location e = MkLocation h (Z.of_nat n)).
  { intros e He. rewrite (tx_candidates_location _ _ _ _ He), Nat.add_0_r, Z.mod_small by lia. done. }
  rewrite Forall_forall in Hf. split.
  - apply strictly_placed_app; [|done|].
    + intros nf. apply once_sorted. unfold bound_locations. rewrite length_fmap.
      apply tx_candidates_once.
    + intros x y Hx Hy. rewrite (Hloc x Hx). destruct (Hf y Hy) as [Hh Hp]. right. cbn. lia.
  - apply Forall_app. split; apply Forall_forall; intros e He.
    + rewrite (Hloc e He). cbn. lia.
    + destruct (Hf e He). lia.
Qed.

Lemma anchors_in_block_placed b h : Z.of_nat (length (txs b)) ≤ 1000000 →
  strictly_placed (anchors_in_block b h) ∧
  Forall (λ e, height (sa_location e) = h) (anchors_in_block b h).
Proof.
  intros HL. destruct (candidates_from h (txs b) 0) as [Hs Hf]; [lia|].
  split; [exact Hs|]. eapply Forall_impl; [exact Hf|]. by intros e [? _].
Qed.

Lemma elem_of_anchors_in_block b h e : e ∈ anchors_in_block b h ↔
  ∃ pos tx, txs b !! pos = Some tx ∧ e ∈ tx_candidates h pos tx.
Proof.
  unfold anchors_in_block. rewrite list_elem_of_In, List.in_concat. split.
  - intros (es & Hes%list_elem_of_In & He%list_elem_of_In).
    apply list_elem_of_lookup in Hes as [i Hi]. rewrite list_lookup_imap in Hi.
    apply fmap_Some in Hi as (tx & Htx & ->). eauto.
  - intros (i & tx & Htx & He). exists (tx_candidates h i tx). rewrite <- !list_elem_of_In.
    split; [|done]. apply list_elem_of_lookup. exists i. by rewrite list_lookup_imap, Htx.
Qed.

Lemma scanned_chain_laws tip es : strictly_placed es → ChainLaws (scanned_chain tip es).
Proof.
  intros Hs. split; cbn [scanned_chain nullifier_occurrences first_nullifier_occurrence anchor_at
    ctx_at locate].
  - intros nf. by rewrite sort_sorted.
  - intros nf. rewrite sort_sorted by done. apply option_eq. intros l.
    rewrite locs_min_Some, head_sorted by done. done.
  - intros r. by rewrite !fmap_is_Some.
  - intros r. by rewrite !fmap_is_Some.
Qed.
End candidate_lemmas.

(** ** What a client promises its scans *)
Class ChainClientLaws `{Sha256d} (S : Type) `{!ChainClient S} : Prop := {
  fetch_authentic : ∀ hash s b s', fetch_block hash s = (Ok b, s') →
    header_hash (header b) = hash ∧ Z.of_nat (length (txs b)) ≤ 1000000;
  fetch_keeps_view : ∀ hash s r s', fetch_block hash s = (r, s') →
    client_tip s' = client_tip s ∧ ∀ h, client_block_hash s' h = client_block_hash s h;
  filter_keeps_view : ∀ h spk s r s', filter_matches h spk s = (r, s') →
    client_tip s' = client_tip s ∧ ∀ k, client_block_hash s' k = client_block_hash s k;
}.

(** A block is the one at a height of the client's validated chain, and its
    transactions have the merkle root of its header. *)
Definition authentic `{Sha256d} {S : Type} `{!ChainClient S} (s : S) (h : Z) (b : Block) : Prop :=
  client_block_hash s h = Some (header_hash (header b)) ∧
  compute_merkle_root b = Some (h_merkle_root (header b)) ∧
  Z.of_nat (length (txs b)) ≤ 1000000.

Section window_lemmas.
Context `{Poseidon, Sha256d, Sha256} {S : Type} `{!ChainClient S, !ChainClientLaws S}.

Lemma ensure_lift_Ok (b : bool) e (s : S) u s' :
  lift (ensure b e) s = (Ok u, s') ↔ b = true ∧ s' = s.
Proof. unfold lift. destruct b, u; cbn; split; [by intros [= ->]|by intros [_ ->]|done|by intros []]. Qed.

Lemma check_merkle_Ok b (s : S) u s' : check_merkle b s = (Ok u, s') →
  compute_merkle_root b = Some (h_merkle_root (header b)) ∧ s' = s.
Proof.
  unfold check_merkle. intros E. apply io_bind_Ok in E as (root & s1 & Er & E).
  unfold lift at 1 in Er. injection Er as Er <-. apply ok_or_Ok in Er.
  apply ensure_lift_Ok in E as [->%bool_decide_eq_true ->]. done.
Qed.

Definition same_view (s s' : S) : Prop :=
  client_tip s' = client_tip s ∧ ∀ h, client_block_hash s' h = client_block_hash s h.

Lemma same_view_trans s1 s2 s3 : same_view s1 s2 → same_view s2 s3 → same_view s1 s3.
Proof. intros [? H12] [? H23]. split; [congruence|]. intros h. by rewrite H23, H12. Qed.

Lemma authentic_view s s' h b : same_view s s' → authentic s' h b → authentic s h b.
Proof. intros [_ Hv] (Hh & Hm). split; [by rewrite <- Hv|done]. Qed.

Lemma scan_block_Ok h (s : S) es s' : scan_block h s = (Ok es, s') →
  same_view s s' ∧ ∃ b, authentic s h b ∧ es = anchors_in_block b h.
Proof.
  unfold scan_block. intros E. apply io_bind_Ok in E as (c & s0 & Eg & E).
  injection Eg as <- <-. apply io_bind_Ok in E as (hash & s1 & Eh & E).
  unfold lift in Eh. injection Eh as Eh <-. apply ok_or_Ok in Eh.
  apply io_bind_Ok in E as (b & s2 & Ef & E). pose proof (fetch_keeps_view _ _ _ _ Ef) as Hv.
  apply fetch_authentic in Ef as [<- HL].
  apply io_bind_Ok in E as (u & s3 & [Hm ->]%check_merkle_Ok & E). injection E as <- <-.
  split; [done|]. by exists b.
Qed.

Lemma scan_blocks_Ok n : ∀ h (s : S) es s', scan_blocks n h s = (Ok es, s') →
  same_view s s' ∧ ∃ blocks, length blocks = n ∧
    (∀ i b, blocks !! i = Some b → authentic s (h + Z.of_nat i) b) ∧
    es = concat (imap (λ i b, anchors_in_block b (h + Z.of_nat i)) blocks).
Proof.
  induction n as [|n IH]; intros h s es s'; cbn [scan_blocks].
  { intros [= <- <-]. split; [done|]. exists []. done. }
  intros E. apply io_bind_Ok in E as (e1 & s1 & (Hv1 & b & Hb & ->)%scan_block_Ok & E).
  apply io_bind_Ok in E as (e2 & s2 & (Hv2 & blocks & HL & Hbs & ->)%IH & E).
  injection E as <- <-. split; [by eapply same_view_trans|]. exists (b :: blocks).
  split; [cbn; lia|]. split.
  - intros [|i] b'; cbn [lookup list_lookup].
    + intros [= <-]. by rewrite Z.add_0_r.
    + intros Hi. eapply authentic_view; [done|].
      replace (h + Z.of_nat (Datatypes.S i)) with (h + 1 + Z.of_nat i) by lia. by apply Hbs.
  - cbn [imap concat]. rewrite Z.add_0_r. do 2 f_equal. apply imap_ext. intros i x _. cbn.
    f_equal. lia.
Qed.

Lemma scanned_blocks_placed (blocks : list Block) : ∀ h,
  Forall (λ b, Z.of_nat (length (txs b)) ≤ 1000000) blocks →
  let es := concat (imap (λ i b, anchors_in_block b (h + Z.of_nat i)) blocks) in
  strictly_placed es ∧ Forall (λ e, h ≤ height (sa_location e)) es.
Proof.
  induction blocks as [|b blocks IH]; intros h Hb; cbn [imap concat].
  { split; [intros nf|]; constructor. }
  apply Forall_cons in Hb as [Hb Hbs]. rewrite Z.add_0_r.
  assert (Eq : imap ((λ i b, anchors_in_block b (h + Z.of_nat i)) ∘ Datatypes.S) blocks =
               imap (λ i b, anchors_in_block b (h + 1 + Z.of_nat i)) blocks).
  { apply imap_ext. intros i x _. cbn. f_equal. lia. }
  rewrite Eq. destruct (IH (h + 1) Hbs) as [Hs Hf].
  destruct (anchors_in_block_placed b h Hb) as [Hs0 Hf0]. split.
  - apply strictly_placed_app; [done|done|]. intros x y Hx Hy.
    rewrite Forall_forall in Hf0, Hf. left. rewrite (Hf0 x Hx). specialize (Hf y Hy). cbn in Hf. lia.
  - apply Forall_app. split; [eapply Forall_impl; [exact Hf0|cbn; lia]|].
    eapply Forall_impl; [exact Hf|cbn; lia].
Qed.

Lemma full_scan_Ok birth spend (s : S) sc s' : full_scan birth spend s = (Ok sc, s') →
  (birth ≠ 0 ∧ birth ≤ spend ≤ client_tip s ∧ spend - birth + 1 ≤ MAX_WINDOW_BLOCKS) ∧
  window_start sc = birth ∧ window_end sc = spend ∧
  ∃ blocks, Z.of_nat (length blocks) = spend - birth + 1 ∧
    (∀ i b, blocks !! i = Some b → authentic s (birth + Z.of_nat i) b) ∧
    scan_entries sc = concat (imap (λ i b, anchors_in_block b (birth + Z.of_nat i)) blocks).
Proof.
  unfold full_scan. intros E.
  apply io_bind_Ok in E as (? & ? & [Hb ->]%ensure_lift_Ok & E).
  apply io_bind_Ok in E as (? & ? & [Hs ->]%ensure_lift_Ok & E).
  apply io_bind_Ok in E as (? & ? & Eg & E). injection Eg as <- <-.
  apply io_bind_Ok in E as (? & ? & [Ht ->]%ensure_lift_Ok & E).
  apply io_bind_Ok in E as (? & ? & [Hw ->]%ensure_lift_Ok & E).
  apply io_bind_Ok in E as (es & s1 & (_ & blocks & HL & Hbs & ->)%scan_blocks_Ok & E).
  injection E as <- <-. rewrite Z.gtb_ltb in Ht, Hw. bool_props.
  split; [lia|]. split; [done|]. split; [done|]. exists blocks. split; [lia|done].
Qed.

Lemma full_scan_placed birth spend (s : S) sc s' : full_scan birth spend s = (Ok sc, s') →
  strictly_placed (scan_entries sc).
Proof.
  intros (_ & _ & _ & blocks & _ & Hbs & ->)%full_scan_Ok.
  apply (scanned_blocks_placed blocks birth). apply Forall_lookup. intros i b Hi.
  by apply Hbs in Hi as (_ & _ & ?).
Qed.
End window_lemmas.

(** ** Theorems *)

(** Expanding a block into candidates loses and invents nothing: a block has
    a candidate that binds a nullifier exactly when some transaction of it that is
    not the coinbase has, as its first 64-byte OP_RETURN, a record that binds the
    nullifier under the context of its first input, alone or as a batch header
    with its witness envelope; each transaction gives at most one such candidate,
    placed at its own position. *)
Theorem candidates_exact `{Poseidon, Sha256d, Sha256} b h nf :
  ((∃ e, e ∈ anchors_in_block b h ∧ binds e nf = true) ↔ ∃ tx, tx ∈ txs b ∧ tx_binds tx nf) ∧
  (∀ pos tx, txs b !! pos = Some tx →
     (length (filter (λ e, binds e nf = true) (tx_candidates h pos tx)) ≤ 1)%nat ∧
     ∀ e, e ∈ tx_candidates h pos tx → sa_location e = MkLocation h (Z.of_nat pos mod 2 ^ 32)).
Proof.
  split.
  - setoid_rewrite elem_of_anchors_in_block. setoid_rewrite list_elem_of_lookup at 2. split.
    + intros (e & (pos & tx & Htx & He) & Hb). exists tx. split; [eauto|].
      apply (tx_candidates_bind h pos). eauto.
    + intros (tx & [pos Htx] & Hb). apply (tx_candidates_bind h pos) in Hb as (e & He & Hb). eauto 6.
  - intros pos tx _. split; [apply tx_candidates_once|]. intros e. apply tx_candidates_location.
Qed.

(** A self-scan is an anchor chain that keeps its promises to the receiver:
    when the scan of a window succeeds, every block in it is the one of the
    client's validated chain with its header's merkle root, the entries are
    exactly their candidates, and occurrence queries on it are strictly ordered
    with the first occurrence as their head. *)
Theorem full_scan_lawful `{Poseidon, Sha256d, Sha256} {S} `{!ChainClient S, !ChainClientLaws S}
    birth spend (s : S) sc s' : full_scan birth spend s = (Ok sc, s') →
  ChainLaws (full_scan_chain sc) ∧ tip_height (full_scan_chain sc) = spend ∧
  ∃ blocks, Z.of_nat (length blocks) = spend - birth + 1 ∧
    (∀ i b, blocks !! i = Some b → authentic s (birth + Z.of_nat i) b) ∧
    scan_entries sc = concat (imap (λ i b, anchors_in_block b (birth + Z.of_nat i)) blocks).
Proof.
  intros E. pose proof (full_scan_placed _ _ _ _ _ E) as Hp.
  apply full_scan_Ok in E as (_ & _ & He & Hbs).
  split; [by apply scanned_chain_laws|]. by split.
Qed.

(** C17: Exclusion without an indexer: whatever a consignment accepted over a
    self-scanned window spends, every transaction in the window that is an
    occurrence of it, in a block of the validated chain, is at or after the
    accepted anchor. *)
Theorem self_scan_excludes `{Poseidon, Sha256d, Sha256, ProofVerifier} {S}
    `{!ChainClient S, !ChainClientLaws S}
    birth spend (s : S) sc s' cons params res record key :
  full_scan birth spend s = (Ok sc, s') →
  accept_for_public_owners cons (full_scan_chain sc) params = Ok res →
  anchor_at (full_scan_chain sc) (anchor_ref cons) = Some record →
  key ∈ occurrence_keys record (nullifiers cons) →
  ∃ blocks, Z.of_nat (length blocks) = spend - birth + 1 ∧
    (∀ i b, blocks !! i = Some b → authentic s (birth + Z.of_nat i) b) ∧
    ∀ i b pos tx, blocks !! i = Some b → txs b !! pos = Some tx → tx_binds tx key →
      loc_le (accepted_anchor res) (MkLocation (birth + Z.of_nat i) (Z.of_nat pos)).
Proof.
  intros E Hok Hr Hk. apply full_scan_Ok in E as (_ & _ & _ & blocks & HL & Hbs & Hes).
  exists blocks. split; [done|]. split; [done|]. intros i b pos tx Hi Htx Hb.
  apply accept_spec in Hok as (r & ? & ? & Ha & _ & _ & _ & _ & _ & _ & _ & _ & Ho & _).
  simplify_eq. apply Ho in Hk. cbn [full_scan_chain scanned_chain first_nullifier_occurrence] in Hk.
  apply locs_min_Some in Hk as [_ Hmin]. rewrite Forall_forall in Hmin. apply Hmin.
  apply elem_of_bound_locations.
  apply (tx_candidates_bind (birth + Z.of_nat i) pos) in Hb as (e & He & Hbind).
  exists e. split_and!; [|done|].
  - rewrite Hes, list_elem_of_In, List.in_concat.
    exists (anchors_in_block b (birth + Z.of_nat i)). rewrite <- !list_elem_of_In. split.
    + apply list_elem_of_lookup. exists i. by rewrite list_lookup_imap, Hi.
    + apply elem_of_anchors_in_block. eauto.
  - rewrite (tx_candidates_location _ _ _ _ He). f_equal. apply Z.mod_small.
    apply lookup_lt_Some in Htx. destruct (Hbs _ _ Hi) as (_ & _ & HLt). lia.
Qed.

(** ** A one-block window with a settled transfer *)
Section demo.
#[local] Existing Instances demo_sponge demo_sha mock_verifier.
#[local] Instance demo_sha256 : Sha256 := demo_sha.

Definition scan_outpoint : OutPoint := {| op_txid := replicate 32 x07; vout := 1 |}.
Definition scan_ctx : bytes := funding_ctx (replicate 32 x07) 1.
Definition scan_record : AnchorRecord := Xfer (bound scan_ctx demo_nf) (zeros 24).
Definition scan_tx : Transaction := {|
  tx_version := 2;
  inputs := [{| prev := scan_outpoint; script_sig := []; sequence := 0 |}];
  outputs := [{| tx_value := 0; script_pubkey := anchor_script (record_to_bytes scan_record) |}];
  lock_time := 0; witnesses := [];
|}.
Definition scan_demo_block : Block := {|
  header := {| h_version := 2; prev_block := zeros 32; h_merkle_root := tx_id scan_tx;
               h_time := 0; bits := 0x207fffff; h_nonce := 0 |};
  txs := [scan_tx];
|}.

(** A client whose chain has that block at height 100, the tip. *)
#[local] Instance demo_client : ChainClient () := {|
  client_tip _ := 100;
  client_block_hash _ h := if h =? 100 then Some (header_hash (header scan_demo_block)) else None;
  fetch_block hash := λ u,
    (if bool_decide (hash = header_hash (header scan_demo_block)) then Ok scan_demo_block
     else Err (EProtocol "peer does not have block"), u);
  filter_matches _ _ := λ u, (Ok true, u);
  fetched_bytes _ := (0, 0);
|}.

#[local] Instance demo_client_laws : ChainClientLaws ().
Proof.
  split.
  - intros hash u b u'. cbn [fetch_block demo_client]. case_bool_decide as Hh; [|discriminate].
    intros E. injection E as <- <-. split; [symmetry; exact Hh|]. cbn. lia.
  - intros hash u r u' _. by destruct u, u'.
  - intros h spk u r u' _. by destruct u, u'.
Qed.

Definition scan_consignment : Consignment := {|
  coin_openings := demo_openings; nullifiers := [demo_nf];
  proof := mock_prove [x01] (public_input scan_record scan_ctx demo_openings);
  anchor_ref := MkRef (tx_id scan_tx) (MkLocation 100 0); aux := None;
|}.
Definition scan_params : PublicOwnerAcceptParams := {|
  vk := [x01]; required_depth := 1;
  recipient_owners := [secret_owner demo_secret]; known_assets := [demo_digest 9];
|}.
Definition scan_result : AcceptedCoins := {|
  coins := owned_coins (recipient_owners scan_params) demo_openings;
  accepted_anchor := MkLocation 100 0;
|}.
Definition scan_demo : FullScanChain := {|
  window_start := 100; window_end := 100; scan_entries := anchors_in_block scan_demo_block 100;
|}.

Lemma scan_demo_runs : full_scan 100 100 tt = (Ok scan_demo, tt).
Proof. vm_compute. reflexivity. Qed.

Lemma scan_demo_accepted :
  accept_for_public_owners scan_consignment (full_scan_chain scan_demo) scan_params = Ok scan_result.
Proof. vm_compute. reflexivity. Qed.

Lemma full_scan_lawful_witness : ChainLaws (full_scan_chain scan_demo).
Proof. exact (proj1 (full_scan_lawful 100 100 tt scan_demo tt scan_demo_runs)). Defined.

Lemma self_scan_excludes_witness :
  ∃ blocks : list Block, Z.of_nat (length blocks) = 1 ∧
    ∀ i b pos tx, blocks !! i = Some b → txs b !! pos = Some tx → tx_binds tx demo_nf →
      loc_le (accepted_anchor scan_result) (MkLocation (100 + Z.of_nat i) (Z.of_nat pos)).
Proof.
  destruct (self_scan_excludes 100 100 tt scan_demo tt scan_consignment scan_params scan_result
    scan_record demo_nf scan_demo_runs scan_demo_accepted) as (blocks & HL & _ & Hb).
  - vm_compute. reflexivity.
  - vm_compute. apply list_elem_of_here.
  - exists blocks. split; [exact HL|exact Hb].
Defined.

(** The window is checked before any block is asked for. *)
Example scan_rejects_high_window :
  full_scan 100 101 tt = (Err (EInvalidInput "window end is above the verified tip"), tt).
Proof. vm_compute. reflexivity. Qed.

(** A block without transactions passes the parser and the header check of a
    fetch, and its merkle root is an assertion failure. *)
Example empty_block_panics :
  block_parse (header_serialize demo_genesis ++ [x00]) = Ok {| header := demo_genesis; txs := [] |} ∧
  (check_merkle {| header := demo_genesis; txs := [] |} tt).1 =
    Err (EPanic "a block has at least one transaction").
Proof. split; vm_compute; reflexivity. Qed.
End demo.
