(* ===== verification/Scan.v ===== *)
(** * The scan index

    Models [crates/opencsv-cbf/src/scan.rs] and the marker constants of
    [crates/opencsv-bitcoin/src/chain.rs]: the occurrence index kept from filter
    scans, its reconciliation with a reorganised chain, its synchronisation, its
    local queries, and the anchor chain it gives. *)

From S2P Require Import Prelude Field Commitments Kernel Anchor Batch Chain Accept Wire Block.
From S2P Require Import Network Peer HeaderChain FullScan.

Definition MARKER_SPK : bytes := [x00; x20] ++
  be_bytes 32 0x189f40034be7a199f1fa9891668ee3ab6049f82d38c68be70f596eab2e1857b7.
Definition LEGACY_MARKER_SPK : bytes := [x00; x20] ++
  be_bytes 32 0x4ae81572f06e1b88fd5ced7a1a000945432e83e1551e6f721ee9c00b8cc33260.

Inductive ScanLoadStatus := Fresh | Loaded | RebuildRequired.

Record ScanCounters := { filters_bytes : Z; blocks_bytes : Z; blocks_fetched : Z }.

Record ScanIndex := {
  si_network : Network;
  from_height : Z;
  synced_tip : Z;
  chain_hashes : list bytes;
  occurrences : list ScannedAnchor;
  counters : ScanCounters;
  load_status : ScanLoadStatus;
}.

(** [open] when no file exists. *)
Definition fresh_index (n : Network) : ScanIndex :=
  {| si_network := n; from_height := 0; synced_tip := 0; chain_hashes := []; occurrences := [];
     counters := {| filters_bytes := 0; blocks_bytes := 0; blocks_fetched := 0 |};
     load_status := Fresh |}.

Definition with_view (from tip : Z) (hs : list bytes) (occ : list ScannedAnchor) (idx : ScanIndex)
  : ScanIndex :=
  {| si_network := si_network idx; from_height := from; synced_tip := tip; chain_hashes := hs;
     occurrences := occ; counters := counters idx; load_status := load_status idx |}.

Definition add_counters (f b n : Z) (idx : ScanIndex) : ScanIndex :=
  {| si_network := si_network idx; from_height := from_height idx; synced_tip := synced_tip idx;
     chain_hashes := chain_hashes idx; occurrences := occurrences idx;
     counters := {| filters_bytes := filters_bytes (counters idx) + f;
                    blocks_bytes := blocks_bytes (counters idx) + b;
                    blocks_fetched := blocks_fetched (counters idx) + n |};
     load_status := load_status idx |}.

(** ** Reconciliation *)

(** The loop over [(from..=common_tip).rev()], [n] heights of it. *)
Fixpoint find_ancestor (n : nat) (from : Z) (hs : list bytes) (canonical_hash : Z → option bytes)
  : result Error (option Z) :=
  match n with
  | O => Ok None
  | S k =>
    stored ← ok_or (hs !! k) (EConsensus "scan lineage is shorter than its synced tip");
    canonical ← ok_or (canonical_hash (from + Z.of_nat k)) (EConsensus "no header at height");
    if bool_decide (stored = canonical) then Ok (Some (from + Z.of_nat k))
    else find_ancestor k from hs canonical_hash
  end.

Definition reconcile_chain_view (tip : Z) (canonical_hash : Z → option bytes) (idx : ScanIndex)
  : result Error ScanIndex :=
  if bool_decide (chain_hashes idx = []) then Ok idx else
  let from := from_height idx in
  let common_tip := Z.min (synced_tip idx) tip in
  found ← (if common_tip >=? from
           then find_ancestor (Z.to_nat (common_tip - from + 1)) from (chain_hashes idx) canonical_hash
           else Ok None);
  let ancestor := default (saturating_sub64 from 1) found in
  if ancestor <? synced_tip idx then
    let keep := if ancestor <? from then 0%nat else Z.to_nat (ancestor - from + 1) in
    Ok (with_view from ancestor (take keep (chain_hashes idx))
          (filter (λ e, height (sa_location e) ≤ ancestor) (occurrences idx)) idx)
  else Ok idx.

(** ** Synchronisation *)
Section sync.
Context `{Poseidon, Sha256d, Sha256} {S : Type} `{!ChainClient S}.

(** What one height contributes, and whether its block was fetched. *)
Definition scan_height (h : Z) : io S (bytes * bool * list ScannedAnchor) :=
  c ← get_state;
  block_hash ← lift (ok_or (client_block_hash c h) (EConsensus "no header at height"));
  current_marker ← filter_matches h MARKER_SPK;
  legacy_marker ← filter_matches h LEGACY_MARKER_SPK;
  if current_marker || legacy_marker then
    block ← fetch_block block_hash;
    check_merkle block;;
    mret (block_hash, true, anchors_in_block block h)
  else mret (block_hash, false, []).

(** One turn of the loop: the index only changes when nothing failed. *)
Definition sync_height (h : Z) : io (ScanIndex * S) () := λ '(idx, s),
  match scan_height h s with
  | (Err e, s) => (Err e, (idx, s))
  | (Ok (block_hash, fetched, found), s) =>
    (Ok tt, (with_view (from_height idx) h (chain_hashes idx ++ [block_hash])
               (occurrences idx ++ found) (add_counters 0 0 (Z.b2z fetched) idx), s))
  end.

Fixpoint sync_heights (n : nat) (h : Z) : io (ScanIndex * S) () :=
  match n with
  | O => mret tt
  | Datatypes.S n => sync_height h;; sync_heights n (h + 1)
  end.

(** [persist]: the outcome of writing the file. *)
Definition scan_sync (persist : ScanIndex → result Error ()) (requested : Z)
  : io (ScanIndex * S) () := λ '(idx, s),
  let start := Z.max requested 1 in
  let idx := if from_height idx =? 0
    then with_view start (saturating_sub64 start 1) (chain_hashes idx) (occurrences idx) idx
    else idx in
  let tip := client_tip s in
  match reconcile_chain_view tip (client_block_hash s) idx with
  | Err e => (Err e, (idx, s))
  | Ok idx =>
    let '(filters_before, blocks_before) := fetched_bytes s in
    let next := Z.max (saturating_add64 (synced_tip idx) 1) (from_height idx) in
    match sync_heights (Z.to_nat (tip - next + 1)) next (idx, s) with
    | (Err e, st) => (Err e, st)
    | (Ok _, (idx, s)) =>
      let '(filters_after, blocks_after) := fetched_bytes s in
      let idx := add_counters (filters_after - filters_before) (blocks_after - blocks_before) 0 idx in
      (persist idx, (idx, s))
    end
  end.

(** ** Queries *)
Definition scan_check (idx : ScanIndex) (raw_nf : bytes) (birth spend : Z)
  : option (Location * bytes) :=
  min_by_location None ((λ e, (sa_location e, sa_ctx e)) <$>
    filter (λ e, (birth ≤ height (sa_location e) ∧ height (sa_location e) ≤ spend) ∧
                 binds e raw_nf = true) (occurrences idx)).

(** [impl AnchorChain for ScanIndex] *)
Definition scan_index_chain (idx : ScanIndex) : AnchorChain :=
  scanned_chain (synced_tip idx) (occurrences idx).
End sync.

(** ** Lemmas: what an index holds *)

(** Filters are committed per block: a client's answer is a function of the hash
    of its block at the height. *)
Class FilterLaws {S : Type} `{!ChainClient S} (marked : bytes → bytes → bool) : Prop := {
  filter_answer : ∀ h spk s b s', filter_matches h spk s = (Ok b, s') →
    ∃ hash, client_block_hash s h = Some hash ∧ b = marked hash spk;
}.
#[global] Arguments FilterLaws S {_} marked.

Section index_lemmas.
Context `{Poseidon, Sha256d, Sha256} (marked : bytes → bytes → bool).

(** What a block with that hash contributes at its height. *)
Definition contributes (h : Z) (hash : bytes) (found : list ScannedAnchor) : Prop :=
  if marked hash MARKER_SPK || marked hash LEGACY_MARKER_SPK then
    ∃ b, header_hash (header b) = hash ∧
      compute_merkle_root b = Some (h_merkle_root (header b)) ∧
      Z.of_nat (length (txs b)) ≤ 1000000 ∧ found = anchors_in_block b h
  else found = [].

(** The occurrences are, height by height, what the blocks with these hashes
    contribute. *)
Inductive indexed (from : Z) : list bytes → list ScannedAnchor → Prop :=
  | indexed_nil : indexed from [] []
  | indexed_snoc hs occ hash found : indexed from hs occ →
      contributes (from + Z.of_nat (length hs)) hash found →
      indexed from (hs ++ [hash]) (occ ++ found).

Definition index_wf (idx : ScanIndex) : Prop :=
  indexed (from_height idx) (chain_hashes idx) (occurrences idx) ∧ 0 ≤ from_height idx ≤ u64_max ∧
  (from_height idx = 0 → chain_hashes idx = [] ∧ synced_tip idx = 0) ∧
  (from_height idx ≠ 0 →
     synced_tip idx = from_height idx - 1 + Z.of_nat (length (chain_hashes idx))).

Lemma contributes_placed h hash found : contributes h hash found →
  strictly_placed found ∧ Forall (λ e, height (sa_location e) = h) found.
Proof.
  unfold contributes. case_if.
  - intros (b & _ & _ & HL & ->). by apply anchors_in_block_placed.
  - intros ->. split; [intros nf|]; constructor.
Qed.

Lemma indexed_placed from hs occ : indexed from hs occ →
  strictly_placed occ ∧
  Forall (λ e, from ≤ height (sa_location e) < from + Z.of_nat (length hs)) occ.
Proof.
  induction 1 as [|hs occ hash found _ [IHs IHf] [Hs Hf]%contributes_placed].
  { split; [intros nf|]; constructor. }
  rewrite length_app. cbn [length]. rewrite Forall_forall in IHf, Hf. split.
  - apply strictly_placed_app; [done|done|]. intros x y Hx Hy. left.
    rewrite (Hf y Hy). apply IHf in Hx. lia.
  - apply Forall_app. split; apply Forall_forall; intros e He.
    + apply IHf in He. lia.
    + rewrite (Hf e He). lia.
Qed.

Lemma filter_all {A} (P : A → Prop) `{∀ x, Decision (P x)} l : Forall P l → filter P l = l.
Proof.
  induction 1 as [|x l Hx _ IH]; [done|]. by rewrite filter_cons, decide_True, IH by done.
Qed.

Lemma indexed_take from hs occ k : indexed from hs occ → (k ≤ length hs)%nat →
  indexed from (take k hs)
    (filter (λ e, height (sa_location e) ≤ from + Z.of_nat k - 1) occ).
Proof.
  induction 1 as [|hs occ hash found Hi IH Hc]; intros Hk; [rewrite take_nil; constructor|].
  rewrite length_app in Hk. cbn [length] in Hk. rewrite filter_app.
  destruct (indexed_placed _ _ _ Hi) as [_ Hall].
  destruct (contributes_placed _ _ _ Hc) as [_ Hf]. destruct (decide (k = S (length hs))) as [->|Hne].
  - rewrite take_ge by (rewrite length_app; cbn; lia). rewrite !filter_all; [by constructor| |].
    + eapply Forall_impl; [exact Hf|]. cbn. intros e ->. lia.
    + eapply Forall_impl; [exact Hall|]. cbn. lia.
  - rewrite take_app_le by lia. rewrite (filter_none _ found).
    + rewrite app_nil_r. apply IH. lia.
    + rewrite Forall_forall in Hf. intros e He. rewrite (Hf e He). lia.
Qed.

(** ** Lemmas: reconciliation *)
Lemma find_ancestor_Ok n from hs canon a : find_ancestor n from hs canon = Ok (Some a) →
  ∃ k hash, (k < n)%nat ∧ a = from + Z.of_nat k ∧ hs !! k = Some hash ∧ canon a = Some hash.
Proof.
  induction n as [|k IH]; cbn [find_ancestor]; [done|].
  intros E. apply bind_Ok in E as (stored & Es%ok_or_Ok & E).
  apply bind_Ok in E as (c & Ec%ok_or_Ok & E). case_bool_decide as Hb.
  - injection E as <-. subst. exists k, c. split; [lia|done].
  - destruct (IH E) as (j & hash & Hj & Ha). exists j, hash. split; [lia|done].
Qed.

Lemma reconcile_spec tip canon idx idx' : index_wf idx → from_height idx ≠ 0 →
  reconcile_chain_view tip canon idx = Ok idx' →
  index_wf idx' ∧ from_height idx' = from_height idx ∧
  (chain_hashes idx' = [] ∨ ∃ hash, last (chain_hashes idx') = Some hash ∧
     canon (synced_tip idx') = Some hash) ∧
  chain_hashes idx' `prefix_of` chain_hashes idx ∧ synced_tip idx' ≤ Z.max tip (from_height idx - 1).
Proof.
  intros Hwf Hfrom. pose proof Hwf as (Hi & Hpos & _ & Htip). specialize (Htip Hfrom).
  unfold reconcile_chain_view. case_bool_decide as Hnil.
  { intros [= <-]. split; [done|]. split; [done|]. split; [by left|]. split; [done|].
    rewrite Hnil in Htip. cbn in Htip. lia. }
  assert (HL : (0 < length (chain_hashes idx))%nat) by (destruct (chain_hashes idx); [done|cbn; lia]).
  intros E. apply bind_Ok in E as (found & Ef & E).
  assert (Hf : ∀ a, found = Some a → ∃ k hash, (k < length (chain_hashes idx))%nat ∧
    a = from_height idx + Z.of_nat k ∧ chain_hashes idx !! k = Some hash ∧ canon a = Some hash ∧
    a ≤ tip).
  { intros a ->. destruct (Z.min (synced_tip idx) tip >=? from_height idx) eqn:Hc; [|done].
    rewrite Z.geb_leb in Hc. bool_props.
    apply find_ancestor_Ok in Ef as (k & hash & Hk & -> & Hh & Hcan). exists k, hash.
    split; [lia|]. split; [done|]. split; [done|]. split; [done|]. lia. }
  assert (Hbelow : saturating_sub64 (from_height idx) 1 = from_height idx - 1)
    by (unfold saturating_sub64; lia).
  rewrite Hbelow in E. destruct found as [a|]; cbn [default from_option id] in E.
  - destruct (Hf a eq_refl) as (k & hash & Hk & -> & Hh & Hcan & Hle).
    destruct (from_height idx + Z.of_nat k <? synced_tip idx) eqn:Hlt; bool_props.
    + rewrite (proj2 (Z.ltb_ge _ _)) in E by lia. injection E as <-.
      replace (Z.to_nat (from_height idx + Z.of_nat k - from_height idx + 1)) with (S k) by lia.
      split; [|split; [done|split; [|split]]].
      * split; [|split; [done|split; [done|]]]; cbn [with_view from_height chain_hashes occurrences
          synced_tip].
        { replace (from_height idx + Z.of_nat k) with (from_height idx + Z.of_nat (S k) - 1) by lia.
          apply indexed_take; [done|lia]. }
        intros _. rewrite length_take. lia.
      * right. exists hash. cbn [with_view chain_hashes synced_tip]. split; [|done].
        rewrite (take_S_r _ _ hash) by done. apply last_snoc.
      * cbn. exists (drop (S k) (chain_hashes idx)). by rewrite take_drop.
      * cbn. lia.
    + injection E as <-. split; [done|]. split; [done|]. split.
      * right. exists hash. assert (Hkl : k = pred (length (chain_hashes idx))) by lia.
        rewrite last_lookup, <- Hkl. split; [done|]. by replace (synced_tip idx)
          with (from_height idx + Z.of_nat k) by lia.
      * split; [done|]. lia.
  - rewrite (proj2 (Z.ltb_lt _ _)) in E by lia. rewrite (proj2 (Z.ltb_lt _ _)) in E by lia.
    injection E as <-. split; [|split; [done|split; [|split]]]; cbn [with_view chain_hashes synced_tip].
    + split; [|split; [done|split; [done|]]]; cbn [with_view from_height chain_hashes occurrences
        synced_tip]; [|intros _; rewrite length_take; lia].
      replace (from_height idx - 1) with (from_height idx + Z.of_nat 0 - 1) by lia.
      apply indexed_take; [done|lia].
    + by left.
    + cbn [firstn]. apply prefix_nil.
    + lia.
Qed.
End index_lemmas.

(** ** Lemmas: synchronisation *)
Section sync_lemmas.
Context `{Poseidon, Sha256d, Sha256} (marked : bytes → bytes → bool).
Context {S : Type} `{!ChainClient S, !ChainClientLaws S, !FilterLaws S marked}.

Lemma filter_preserves s0 h spk : preserves (same_view s0) (filter_matches h spk).
Proof.
  intros s Hs. destruct (filter_matches h spk s) as [r s'] eqn:E.
  eapply same_view_trans; [exact Hs|]. exact (filter_keeps_view _ _ _ _ _ E).
Qed.

Lemma fetch_preserves s0 hash : preserves (same_view s0) (fetch_block hash).
Proof.
  intros s Hs. destruct (fetch_block hash s) as [r s'] eqn:E.
  eapply same_view_trans; [exact Hs|]. exact (fetch_keeps_view _ _ _ _ E).
Qed.

Lemma scan_height_view h s : same_view s (scan_height h s).2.
Proof.
  enough (Hp : preserves (same_view s) (scan_height h)) by by apply Hp.
  unfold scan_height, check_merkle.
  repeat first [apply preserves_bind; [|intros ?] | apply preserves_get | apply preserves_lift
    | apply filter_preserves | apply fetch_preserves | apply preserves_ret | case_if].
Qed.

Lemma scan_height_Ok h s hash fetched found s' :
  scan_height h s = (Ok (hash, fetched, found), s') →
  client_block_hash s h = Some hash ∧ contributes marked h hash found.
Proof.
  unfold scan_height. intros E. apply io_bind_Ok in E as (c & s0 & Eg & E). injection Eg as <- <-.
  apply io_bind_Ok in E as (hash' & s1 & Eh & E). unfold lift in Eh. injection Eh as Eh <-.
  apply ok_or_Ok in Eh.
  apply io_bind_Ok in E as (m1 & s2 & E1 & E). pose proof (filter_keeps_view _ _ _ _ _ E1) as [_ Hv1].
  apply (filter_answer (marked := marked)) in E1 as (h1 & Hh1 & ->). rewrite Eh in Hh1.
  injection Hh1 as <-.
  apply io_bind_Ok in E as (m2 & s3 & E2 & E). pose proof (filter_keeps_view _ _ _ _ _ E2) as [_ Hv2].
  apply (filter_answer (marked := marked)) in E2 as (h2 & Hh2 & ->). rewrite Hv1, Eh in Hh2.
  injection Hh2 as <-. unfold contributes.
  destruct (marked hash' MARKER_SPK || marked hash' LEGACY_MARKER_SPK) eqn:Em.
  - apply io_bind_Ok in E as (b & s4 & Ef & E). apply fetch_authentic in Ef as [Hb HL].
    apply io_bind_Ok in E as (u & s5 & [Hm ->]%check_merkle_Ok & E). injection E as <- <- <- <-.
    rewrite Em. split; [done|]. by exists b.
  - injection E as <- <- <- <-. by rewrite Em.
Qed.

Lemma sync_height_spec h idx s r idx' s' : index_wf marked idx → from_height idx ≠ 0 →
  h = synced_tip idx + 1 → sync_height h (idx, s) = (r, (idx', s')) →
  same_view s s' ∧ index_wf marked idx' ∧ from_height idx' = from_height idx ∧
  match r with
  | Ok _ => ∃ hash, client_block_hash s h = Some hash ∧ synced_tip idx' = h ∧
              chain_hashes idx' = chain_hashes idx ++ [hash]
  | Err _ => idx' = idx
  end.
Proof.
  intros Hwf Hfrom -> E. pose proof (scan_height_view (synced_tip idx + 1) s) as Hv.
  unfold sync_height in E.
  destruct (scan_height (synced_tip idx + 1) s) as [[[[hash fetched] found]|e] s1] eqn:Eh;
    injection E as <- <- <-; (split; [exact Hv|]); [|done].
  apply scan_height_Ok in Eh as [Hh Hc]. destruct Hwf as (Hi & Hpos & _ & Htip). specialize (Htip Hfrom).
  split; [|split; [done|]].
  - split; [|split; [done|split; [done|]]]; cbn.
    + apply indexed_snoc; [done|]. rewrite Htip in Hc.
      by replace (from_height idx + Z.of_nat (length (chain_hashes idx))) with
        (from_height idx - 1 + Z.of_nat (length (chain_hashes idx)) + 1) by lia.
    + intros _. rewrite length_app. cbn. lia.
  - by exists hash.
Qed.

Lemma sync_heights_spec n : ∀ idx s r idx' s', index_wf marked idx → from_height idx ≠ 0 →
  sync_heights n (synced_tip idx + 1) (idx, s) = (r, (idx', s')) →
  same_view s s' ∧ index_wf marked idx' ∧ from_height idx' = from_height idx ∧
  (∃ news, chain_hashes idx' = chain_hashes idx ++ news ∧
     (∀ i hash, news !! i = Some hash →
        client_block_hash s (synced_tip idx + 1 + Z.of_nat i) = Some hash) ∧
     (is_ok r = true → length news = n)).
Proof.
  induction n as [|n IH]; intros idx s r idx' s' Hwf Hfrom; cbn [sync_heights].
  { intros [= <- <- <-]. split; [done|]. split; [done|]. split; [done|]. exists [].
    by rewrite app_nil_r. }
  unfold mbind at 1, io_bind at 1.
  destruct (sync_height (synced_tip idx + 1) (idx, s)) as [r1 [idx1 s1]] eqn:E1.
  destruct (sync_height_spec _ _ _ _ _ _ Hwf Hfrom eq_refl E1) as (Hv1 & Hwf1 & Hf1 & Hr1).
  destruct r1 as [[]|e].
  - destruct Hr1 as (hash & Hh & Ht & Hc). intros E.
    rewrite <- Ht in E at 1. destruct (IH idx1 s1 r idx' s') as (Hv & Hwf' & Hf' & news & Hn & Hi & HL);
      [done|congruence|done|].
    split; [by eapply same_view_trans|]. split; [done|]. split; [congruence|].
    exists (hash :: news). split; [by rewrite Hn, Hc, <- app_assoc|]. split.
    + intros [|i] x; cbn [lookup list_lookup].
      * intros [= <-]. by rewrite Z.add_0_r.
      * intros Hx%Hi. destruct Hv1 as [_ Hv1]. rewrite Hv1, Ht in Hx.
        rewrite <- Hx. f_equal. lia.
    + intros Hok. cbn. by rewrite HL.
  - intros [= <- <- <-]. subst idx1. split; [done|]. split; [done|]. split; [done|].
    exists []. rewrite app_nil_r. done.
Qed.

Lemma index_wf_start start idx : index_wf marked idx → from_height idx = 0 → 1 ≤ start ≤ u64_max →
  index_wf marked (with_view start (saturating_sub64 start 1) (chain_hashes idx) (occurrences idx) idx).
Proof.
  intros (Hi & _ & Hz & _) H0z Hs. destruct (Hz H0z) as [Hnil _].
  split; [|split; [cbn; lia|split; [cbn; lia|]]]; cbn [with_view from_height chain_hashes occurrences
    synced_tip]; rewrite Hnil in *.
  - inversion Hi as [E|hs occ hash found _ _ E]; [constructor|by destruct hs].
  - intros _. cbn [length]. unfold saturating_sub64. lia.
Qed.

Lemma add_counters_wf f b n idx : index_wf marked idx → index_wf marked (add_counters f b n idx).
Proof. done. Qed.

(** The index after [scan_sync] has chosen where to start. *)
Definition started (requested : Z) (idx : ScanIndex) : ScanIndex :=
  let start := Z.max requested 1 in
  if from_height idx =? 0
  then with_view start (saturating_sub64 start 1) (chain_hashes idx) (occurrences idx) idx else idx.

Lemma started_wf requested idx : index_wf marked idx → requested ≤ u64_max →
  index_wf marked (started requested idx) ∧ from_height (started requested idx) ≠ 0 ∧
  chain_hashes (started requested idx) = chain_hashes idx.
Proof.
  intros Hwf Hreq. unfold started. destruct (from_height idx =? 0) eqn:E; bool_props.
  - split; [apply index_wf_start; [done..|unfold u64_max in *; lia]|]. split; [cbn; lia|done].
  - done.
Qed.

(** What a successful synchronisation leaves: a kept prefix of the old lineage
    whose last hash is still canonical, then the client's hashes up to its tip. *)
Lemma scan_sync_spec persist requested idx s r idx' s' : index_wf marked idx →
  requested ≤ u64_max → client_tip s < u64_max →
  scan_sync persist requested (idx, s) = (r, (idx', s')) →
  index_wf marked idx' ∧ from_height idx' = from_height (started requested idx) ∧
  (is_ok r = true → from_height idx' ≤ client_tip s + 1 →
   ∃ kept news, chain_hashes idx' = kept ++ news ∧ kept `prefix_of` chain_hashes idx ∧
     synced_tip idx' = client_tip s ∧
     (kept = [] ∨ ∃ hash, last kept = Some hash ∧
        client_block_hash s (from_height idx' + Z.of_nat (length kept) - 1) = Some hash) ∧
     ∀ i hash, news !! i = Some hash →
       client_block_hash s (from_height idx' + Z.of_nat (length kept) + Z.of_nat i) = Some hash).
Proof.
  intros Hwf Hreq Hmax. destruct (started_wf requested idx Hwf Hreq) as (Hwf0 & Hne & Hch).
  unfold scan_sync. fold (started requested idx). set (idx0 := started requested idx) in *.
  destruct (reconcile_chain_view (client_tip s) (client_block_hash s) idx0) as [idx1|e] eqn:Er;
    [|intros [= <- <- <-]; split; [done|]; split; [done|]; done].
  destruct (reconcile_spec _ _ _ _ _ Hwf0 Hne Er) as (Hwf1 & Hf1 & Hlast & Hpre & Htip1).
  destruct (fetched_bytes s) as [fb bb].
  pose proof Hwf1 as (_ & Hpos1 & _ & Ht1). rewrite Hf1 in Ht1, Hpos1. specialize (Ht1 Hne).
  assert (Hnext : Z.max (saturating_add64 (synced_tip idx1) 1) (from_height idx1) = synced_tip idx1 + 1)
    by (unfold saturating_add64; rewrite Hf1 in *; lia).
  rewrite Hnext.
  destruct (sync_heights _ (synced_tip idx1 + 1) (idx1, s)) as [r2 [idx2 s2]] eqn:E2.
  destruct (sync_heights_spec _ _ _ _ _ _ Hwf1 ltac:(congruence) E2) as (Hv & Hwf2 & Hf2 & news & Hn & Hi & HL).
  destruct r2 as [[]|e]; [|intros [= <- <- <-]; split; [done|]; split; [congruence|done]].
  destruct (fetched_bytes s2) as [fa ba]. intros [= <- <- <-].
  split; [by apply add_counters_wf|]. split; [cbn; congruence|].
  intros _ Hle. specialize (HL eq_refl). cbn [add_counters from_height chain_hashes synced_tip] in *.
  exists (chain_hashes idx1), news. split; [done|]. split; [by rewrite <- Hch|].
  pose proof Hwf2 as (_ & _ & _ & Ht2). rewrite Hf2, Hf1 in *. specialize (Ht2 Hne).
  split; [rewrite Ht2, Hn, length_app; lia|]. split.
  - destruct Hlast as [->|(hash & Hl & Hcan)]; [by left|right]. exists hash. split; [done|].
    rewrite <- Hcan. f_equal. lia.
  - intros i hash Hh%Hi. rewrite <- Hh. f_equal. lia.
Qed.
End sync_lemmas.

(** ** Lemmas: reorganisations *)

(** Two validated chains of the same network that agree at a height agree below
    it. *)
Lemma lineage_rigid `{Sha256d} p old cur k hash : follows p old → follows p cur →
  NoDup (headers old) → NoDup (headers cur) → no_collision (headers cur) (headers old) →
  hashes old !! k = Some hash → hashes cur !! k = Some hash →
  take (S k) (hashes old) = take (S k) (hashes cur).
Proof.
  intros [Ho Hpo] [Hc Hpc] Hdo Hdc Hinj Hk Hk'.
  destruct Ho as (Hvo & Hho & _), Hc as (Hvc & Hhc & _). rewrite Hpo in Hvo. rewrite Hpc in Hvc.
  rewrite Hho, list_lookup_fmap, fmap_Some in Hk. destruct Hk as (x & Hx & ->).
  rewrite Hhc, list_lookup_fmap, fmap_Some in Hk'. destruct Hk' as (y & Hy & E).
  assert (x = y) as <-.
  { apply Hinj; [apply elem_of_app; left; by eapply list_elem_of_lookup_2|
      apply elem_of_app; right; by eapply list_elem_of_lookup_2|done]. }
  destruct (common_ancestor p (headers cur) Hvc Hdc (headers old) k k x Hvo Hdo Hinj Hx Hy) as [_ Ht].
  by rewrite Hho, Hhc, <- !fmap_take, Ht.
Qed.

(** The lineage of an index is part of a validated chain. *)
Definition lineage_of (from : Z) (hs : list bytes) (c : HeaderChain) : Prop :=
  ∀ i hash, hs !! i = Some hash → hashes c !! (Z.to_nat from + i)%nat = Some hash.

(** The client's view is a validated chain. *)
Definition client_shows {S : Type} `{!ChainClient S} (s : S) (c : HeaderChain) : Prop :=
  ∀ h, 0 ≤ h → client_block_hash s h = hashes c !! Z.to_nat h.

Lemma kept_lineage `{Sha256d} p old cur from (hs kept : list bytes) hash : 0 ≤ from →
  follows p old → follows p cur → NoDup (headers old) → NoDup (headers cur) →
  no_collision (headers cur) (headers old) → lineage_of from hs old →
  kept `prefix_of` hs → last kept = Some hash →
  hashes cur !! Z.to_nat (from + Z.of_nat (length kept) - 1) = Some hash →
  lineage_of from kept cur.
Proof.
  intros Hfrom Ho Hc Hdo Hdc Hinj Hl [rest ->] Hlast Hcan i x Hi.
  rewrite last_lookup in Hlast.
  assert (Hlt : (pred (length kept) < length kept)%nat) by (by apply lookup_lt_Some in Hlast).
  set (k := (Z.to_nat from + pred (length kept))%nat).
  assert (Hk : hashes old !! k = Some hash) by (apply Hl; by rewrite lookup_app_l).
  assert (Hk' : hashes cur !! k = Some hash) by (rewrite <- Hcan; f_equal; lia).
  pose proof (lineage_rigid p old cur k hash Ho Hc Hdo Hdc Hinj Hk Hk') as Ht.
  pose proof (lookup_lt_Some _ _ _ Hi) as HL.
  rewrite <- (lookup_take_lt (hashes cur) (S k)) by lia. rewrite <- Ht, lookup_take_lt by lia.
  apply Hl. by rewrite lookup_app_l.
Qed.

Lemma min_by_location_spec l : ∀ best,
  match min_by_location best l with
  | None => best = None ∧ l = []
  | Some m => (best = Some m ∨ m ∈ l) ∧ (∀ b, best = Some b → loc_le m.1 b.1) ∧
              Forall (λ x, loc_le m.1 x.1) l
  end.
Proof.
  induction l as [|x l IH]; intros best; cbn [min_by_location].
  { destruct best as [b|]; [|done]. split; [by left|]. split; [by intros ? [= <-]|constructor]. }
  set (best' := match best with Some b => _ | None => _ end). specialize (IH best').
  assert (Hb : ∃ b', best' = Some b' ∧ loc_le b'.1 x.1 ∧ (∀ b, best = Some b → loc_le b'.1 b.1) ∧
    (best = Some b' ∨ b' = x)).
  { subst best'. destruct best as [b|].
    - case_decide as Hd.
      + exists b. split; [done|]. split; [exact Hd|]. split; [by intros ? [= <-]|by left].
      + exists x. split; [done|]. split; [done|]. split; [|by right]. intros ? [= <-].
        by destruct (total loc_le b.1 x.1).
    - exists x. split; [done|]. split; [done|]. split; [done|by right]. }
  destruct Hb as (b' & E & Hx & Hle & Hor). rewrite E in *.
  destruct (min_by_location (Some b') l) as [m|]; [|by destruct IH].
  destruct IH as (Hin & Hmin & HF). specialize (Hmin b' eq_refl). split_and!.
  - destruct Hin as [[= <-]|Hin]; [|right; by right]. destruct Hor as [->| ->]; [by left|right; by left].
  - intros b Hb. trans (b'.1); [done|by apply Hle].
  - constructor; [by trans (b'.1)|done].
Qed.

(** ** Theorems *)

(** C21: Reorganisation safety of the scan index. Synchronising keeps the index
    well formed even when it fails half-way: its occurrences are, height by
    height, exactly the candidates of blocks with the recorded hashes whose
    filters match a marker. When it succeeds, the recorded hashes are the
    client's validated chain from the start height to its tip, whatever chain
    they were recorded on before, so no occurrence of an orphaned block survives
    and no block with a matching filter is missed. *)
Theorem scan_sync_follows_chain `{Poseidon, Sha256d, Sha256} {S} `{!ChainClient S, !ChainClientLaws S}
    marked `{!FilterLaws S marked} p old cur persist requested idx (s : S) r idx' s' :
  index_wf marked idx → requested ≤ u64_max → client_tip s < u64_max →
  follows p old → follows p cur → NoDup (headers old) → NoDup (headers cur) →
  no_collision (headers cur) (headers old) →
  lineage_of (from_height idx) (chain_hashes idx) old → client_shows s cur →
  scan_sync persist requested (idx, s) = (r, (idx', s')) →
  index_wf marked idx' ∧
  (is_ok r = true → from_height idx' ≤ client_tip s + 1 →
   synced_tip idx' = client_tip s ∧ lineage_of (from_height idx') (chain_hashes idx') cur).
Proof.
  intros Hwf Hreq Hmax Ho Hc Hdo Hdc Hinj Hl Hs E.
  destruct (scan_sync_spec marked persist requested idx s r idx' s' Hwf Hreq Hmax E)
    as (Hwf' & Hf' & Hok). split; [done|]. intros Hr Hle.
  destruct (Hok Hr Hle) as (kept & news & Hn & Hpre & Ht & Hlast & Hnews). split; [done|].
  assert (Hpos : 0 ≤ from_height idx') by apply Hwf'.
  assert (Hkept : lineage_of (from_height idx') kept cur).
  { destruct Hlast as [->|(hash & Hla & Hcan)]; [intros i x Hi; by rewrite lookup_nil in Hi|].
    assert (Hne : kept ≠ []) by (by intros ->). assert (Hkl : (0 < length kept)%nat)
      by (destruct kept; [done|cbn; lia]).
    assert (Hfrom : from_height idx' = from_height idx).
    { rewrite Hf'. unfold started. destruct (from_height idx =? 0) eqn:Ez; [|done]. bool_props.
      destruct Hwf as (_ & _ & Hz & _). destruct (Hz Ez) as [Hnil _]. rewrite Hnil in Hpre.
      by apply prefix_nil_inv in Hpre. }
    rewrite Hs in Hcan by lia. rewrite <- Hfrom in Hl. by eapply (kept_lineage p old). }
  rewrite Hn. intros i x Hi. destruct (decide (i < length kept)%nat).
  - rewrite lookup_app_l in Hi by done. by apply Hkept.
  - rewrite lookup_app_r in Hi by lia. apply Hnews in Hi. rewrite Hs in Hi by lia.
    rewrite <- Hi. f_equal. lia.
Qed.

(** Queries on a well-formed index are answered locally and exactly: as an
    anchor chain it keeps the promises acceptance relies on, and a bounded check
    reports no location only if no indexed candidate in range binds the
    nullifier, and otherwise the earliest one that does, with its context. *)
Theorem scan_check_exact `{Poseidon, Sha256d, Sha256} marked idx nf birth spend :
  index_wf marked idx →
  ChainLaws (scan_index_chain idx) ∧
  match scan_check idx nf birth spend with
  | None => ∀ e, e ∈ occurrences idx → birth ≤ height (sa_location e) ≤ spend → binds e nf = false
  | Some (l, ctx) =>
      birth ≤ height l ≤ spend ∧
      (∃ e, e ∈ occurrences idx ∧ binds e nf = true ∧ sa_location e = l ∧ sa_ctx e = ctx) ∧
      ∀ e, e ∈ occurrences idx → birth ≤ height (sa_location e) ≤ spend → binds e nf = true →
        loc_le l (sa_location e)
  end.
Proof.
  intros (Hi & _). destruct (indexed_placed _ _ _ _ Hi) as [Hp _].
  split; [by apply scanned_chain_laws|]. unfold scan_check.
  set (P := λ e, _ : Prop). pose proof (min_by_location_spec
    ((λ e, (sa_location e, sa_ctx e)) <$> filter P (occurrences idx)) None) as Hm.
  destruct (min_by_location None _) as [[l ctx]|].
  - destruct Hm as ([|Hin] & _ & HF); [done|]. apply list_elem_of_fmap in Hin as (e & [= -> ->] & He).
    apply list_elem_of_filter in He as [[[Hb Hs] Hbind] He]. split; [done|]. split; [by exists e|].
    intros e' He' Hr Hb'. rewrite Forall_fmap, Forall_forall in HF. apply (HF e').
    apply list_elem_of_filter. by split.
  - destruct Hm as [_ Hm]. intros e He Hr. apply not_true_is_false. intros Hb.
    assert (Hin : e ∈ filter P (occurrences idx)) by (apply list_elem_of_filter; by split).
    apply fmap_nil_inv in Hm. rewrite Hm in Hin. by apply elem_of_nil in Hin.
Qed.

(** ** Concrete indexes *)
Section demo.
#[local] Existing Instances demo_sponge demo_sha demo_sha256.

Lemma demo_synced_follows : follows HeaderChain.demo_params demo_synced.
Proof.
  split; [|reflexivity]. split; [exact demo_chain_valid|]. split; [reflexivity|].
  vm_compute. reflexivity.
Qed.

Lemma demo_synced_distinct : no_collision (headers demo_synced) (headers demo_synced).
Proof.
  intros x y Hx%elem_of_app Hy%elem_of_app. apply demo_no_collision; apply elem_of_app; right; tauto.
Qed.

(** A client that shows the two-block chain, none of whose filters match. *)
#[local] Instance quiet_client : ChainClient () := {|
  client_tip _ := 1;
  client_block_hash _ h := if h <? 0 then None else hashes demo_synced !! Z.to_nat h;
  fetch_block _ := λ u, (Err (EProtocol "peer does not have block"), u);
  filter_matches h _ := λ u,
    (if (0 <=? h) && (h <=? 1) then Ok false else Err (EConsensus "no header at height"), u);
  fetched_bytes _ := (0, 0);
|}.

#[local] Instance quiet_laws : ChainClientLaws ().
Proof.
  split.
  - intros hash u b u'. discriminate.
  - intros hash u r u' _. by destruct u, u'.
  - intros h spk u r u' _. by destruct u, u'.
Qed.

#[local] Instance quiet_filters : FilterLaws () (λ _ _, false).
Proof.
  split. intros h spk u b u'. cbn [filter_matches quiet_client].
  destruct (0 <=? h) eqn:E0; [|discriminate]. destruct (h <=? 1) eqn:E1; [|discriminate].
  intros E. injection E as <- _. bool_props. cbn [client_block_hash quiet_client].
  rewrite (proj2 (Z.ltb_ge _ _)) by lia.
  destruct (lookup_lt_is_Some_2 (hashes demo_synced) (Z.to_nat h)) as [x Hx].
  { change (length (hashes demo_synced)) with 2%nat. lia. }
  exists x. split; [exact Hx|reflexivity].
Qed.

Definition quiet_index : ScanIndex :=
  with_view 1 1 [header_hash (demo_child 2)] [] (fresh_index Regtest).

Lemma quiet_sync_runs :
  scan_sync (λ _, Ok tt) 1 (fresh_index Regtest, tt) = (Ok tt, (quiet_index, tt)).
Proof. vm_compute. reflexivity. Qed.

Lemma fresh_index_wf marked n : index_wf marked (fresh_index n).
Proof.
  split; [apply indexed_nil|]. split; [split; [reflexivity|discriminate]|].
  split; [split; reflexivity|]. intros Hz. exfalso. by apply Hz.
Qed.

Lemma scan_sync_follows_chain_witness :
  index_wf (λ _ _, false) quiet_index ∧ synced_tip quiet_index = 1 ∧
  lineage_of 1 (chain_hashes quiet_index) demo_synced.
Proof.
  destruct (scan_sync_follows_chain (λ _ _, false) HeaderChain.demo_params demo_synced demo_synced
    (λ _, Ok tt) 1 (fresh_index Regtest) tt (Ok tt) quiet_index tt) as [Hwf Hok].
  - apply fresh_index_wf.
  - discriminate.
  - reflexivity.
  - exact demo_synced_follows.
  - exact demo_synced_follows.
  - exact demo_chain_nodup.
  - exact demo_chain_nodup.
  - exact demo_synced_distinct.
  - intros i hash Hi. apply lookup_lt_Some in Hi. cbn in Hi. lia.
  - intros h Hh. cbn [client_block_hash quiet_client]. rewrite (proj2 (Z.ltb_ge _ _)); [reflexivity|exact Hh].
  - exact quiet_sync_runs.
  - split; [exact Hwf|]. apply Hok; [reflexivity|discriminate].
Defined.

(** An index that recorded the settled transfer of the self-scan's block. *)
Definition settled_index : ScanIndex :=
  with_view 100 100 [header_hash (header scan_demo_block)] (anchors_in_block scan_demo_block 100)
    (fresh_index Regtest).

Lemma settled_index_wf : index_wf (λ _ _, true) settled_index.
Proof.
  unfold index_wf, settled_index.
  cbn [with_view from_height synced_tip chain_hashes occurrences length].
  split; [|split; [split; discriminate|split; [discriminate|reflexivity]]].
  assert (Hc : contributes (λ _ _, true) 100 (header_hash (header scan_demo_block))
    (anchors_in_block scan_demo_block 100)).
  { exists scan_demo_block. split; [reflexivity|]. split; [vm_compute; reflexivity|].
    split; [discriminate|reflexivity]. }
  exact (indexed_snoc (λ _ _, true) 100 [] [] (header_hash (header scan_demo_block))
    (anchors_in_block scan_demo_block 100) (indexed_nil _ 100) Hc).
Qed.

Lemma scan_check_exact_witness :
  ChainLaws (scan_index_chain settled_index) ∧
  (λ l, fst <$> l) (scan_check settled_index demo_nf 100 100) = Some (MkLocation 100 0).
Proof.
  destruct (scan_check_exact (λ _ _, true) settled_index demo_nf 100 100 settled_index_wf) as [Hl _].
  split; [exact Hl|]. vm_compute. reflexivity.
Defined.
End demo.
