(* ===== verification/ScanFile.v ===== *)
(** * The file of the scan index

    Models the persistence half of [crates/opencsv-cbf/src/scan.rs]: the checksummed
    text an index is written as, and [open], which reads it back.  The file system
    is an argument: what reading the file gives. *)

From S2P Require Import Prelude Text Field Commitments Kernel Anchor Batch Chain Accept Wire Block.
From S2P Require Import Network Peer HeaderChain FullScan Scan.
#[local] Open Scope Z_scope.

(** [Network::name] and [Network::parse] *)
Definition network_name (n : Network) : rstring :=
  lit match n with Mainnet => "mainnet" | Signet => "signet" | Regtest => "regtest" end.

Definition network_parse (s : rstring) : option Network :=
  if bool_decide (s = lit "mainnet") || bool_decide (s = lit "main") then Some Mainnet
  else if bool_decide (s = lit "signet") then Some Signet
  else if bool_decide (s = lit "regtest") then Some Regtest
  else None.

Definition MAGIC : rstring := lit "opencsv-cbf-scan-index-v3".

(** The two ways decoding stops: [None], or a panic. *)
Inductive fault := Panicked | Malformed.
Abbreviation decoded := (result fault).

(** ** Writing *)
Definition batch_words (batch : BatchCandidate) : list rstring :=
  let kind := match bc_version batch with V1 => lit "batch1" | V2 => lit "batch2" end in
  [kind; decimal (bc_index batch); to_hex (concat (bc_envelope batch))].

Definition occurrence_words (e : ScannedAnchor) : list rstring :=
  [lit "occurrence"; decimal (height (sa_location e)); decimal (loc_position (sa_location e));
   hash_to_display (sa_txid e); to_hex (sa_ctx e); to_hex (record_to_bytes (sa_record e))] ++
  match sa_batch e with Some batch => batch_words batch | None => [] end.

(** The loop over the lineage; a height that overflows is an [expect]. *)
Fixpoint block_words (height : Z) (hashes : list bytes) : option (list (list rstring)) :=
  match hashes with
  | [] => Some []
  | hash :: hashes =>
    if height <=? u64_max
    then cons [lit "block"; decimal height; hash_to_display hash] <$> block_words (height + 1) hashes
    else None
  end.

Definition index_words (idx : ScanIndex) : option (list (list rstring)) :=
  blocks ← block_words (from_height idx) (chain_hashes idx);
  Some ([[MAGIC]; [lit "network"; network_name (si_network idx)];
         [lit "from"; decimal (from_height idx)]; [lit "tip"; decimal (synced_tip idx)]] ++
        blocks ++ (occurrence_words <$> occurrences idx)).

Definition text_of (ls : list (list rstring)) : rstring := concat ((λ ws, unwords ws ++ [10]) <$> ls).

Section file.
Context `{Poseidon, Sha256d, Sha256}.

Definition checksum_line (body : rstring) : rstring := lit "checksum " ++ to_hex (sha256 (utf8 body)).

(** [persist], up to the write; [None] is its panic. *)
Definition index_file (idx : ScanIndex) : option rstring :=
  body ← text_of <$> index_words idx;
  Some (body ++ checksum_line body ++ [10]).

(** ** Reading *)
Definition hex_field (s : rstring) : decoded bytes :=
  match from_hex s with
  | Ok b => Ok b
  | Err Sliced => Err Panicked
  | Err _ => Err Malformed
  end.

(** [from_hex(s).ok()?.try_into().ok()?] into an array of [n] bytes. *)
Definition array_field (n : nat) (s : rstring) : decoded bytes :=
  b ← hex_field s;
  ensure (bool_decide (length b = n)) Malformed;;
  Ok b.

Definition number (parse : rstring → option Z) (s : rstring) : decoded Z := ok_or (parse s) Malformed.

Definition verified_body (text : rstring) : decoded rstring :=
  text ← ok_or (strip_last 10 text) Malformed;
  '(body_without_newline, line) ← ok_or (rsplit_once 10 text) Malformed;
  checksum ← ok_or (strip_prefix line (lit "checksum ")) Malformed;
  expected ← hex_field checksum;
  '(body, _) ← ok_or (split_bytes (length (utf8 body_without_newline) + 1) text) Malformed;
  ensure (bool_decide (expected = sha256 (utf8 body))) Malformed;;
  Ok body.

(** The variables of the loop over the lines. *)
Record Decoding := {
  saw_network : bool;
  dec_from : option Z;
  dec_tip : option Z;
  dec_hashes : list (Z * bytes);
  dec_occurrences : list ScannedAnchor;
}.

Definition decode_network (network : Network) (name : rstring) (d : Decoding) : decoded Decoding :=
  ensure (negb (saw_network d || negb (bool_decide (network_parse name = Some network)))) Malformed;;
  Ok {| saw_network := true; dec_from := dec_from d; dec_tip := dec_tip d; dec_hashes := dec_hashes d;
        dec_occurrences := dec_occurrences d |}.

Definition decode_block (h hash : rstring) (d : Decoding) : decoded Decoding :=
  height ← number parse_u64 h;
  bytes ← array_field 32 hash;
  Ok {| saw_network := saw_network d; dec_from := dec_from d; dec_tip := dec_tip d;
        dec_hashes := dec_hashes d ++ [(height, reverse bytes)]; dec_occurrences := dec_occurrences d |}.

Definition decode_batch (rest : list rstring) : decoded (option BatchCandidate) :=
  match rest with
  | [] => Ok None
  | [kind; index; envelope] =>
    ensure (bool_decide (kind = lit "batch") || bool_decide (kind = lit "batch1") ||
            bool_decide (kind = lit "batch2")) Malformed;;
    bytes ← hex_field envelope;
    ensure (bool_decide (length bytes mod 24 = 0)%nat) Malformed;;
    index ← number parse_u32 index;
    Ok (Some {| bc_version := if bool_decide (kind = lit "batch2") then V2 else V1;
                bc_index := index; bc_envelope := chunks 24 bytes |})
  | _ => Err Malformed
  end.

Definition decode_occurrence (h p txid ctx record : rstring) (rest : list rstring) (d : Decoding)
  : decoded Decoding :=
  txid ← array_field 32 txid;
  batch ← decode_batch rest;
  height ← number parse_u64 h;
  position ← number parse_u32 p;
  record ← array_field ANCHOR_SIZE record;
  ctx ← array_field 32 ctx;
  Ok {| saw_network := saw_network d; dec_from := dec_from d; dec_tip := dec_tip d;
        dec_hashes := dec_hashes d;
        dec_occurrences := dec_occurrences d ++
          [{| sa_location := MkLocation height position; sa_txid := reverse txid;
              sa_record := record_from_bytes record; sa_ctx := ctx; sa_batch := batch |}] |}.

(** One line. A [from] or [tip] that does not parse leaves the variable unset. *)
Definition decode_line (network : Network) (d : Decoding) (line : rstring) : decoded Decoding :=
  match split_whitespace line with
  | [key; value] =>
    if bool_decide (key = lit "network") then decode_network network value d
    else if bool_decide (key = lit "from") && bool_decide (dec_from d = None) then
      Ok {| saw_network := saw_network d; dec_from := parse_u64 value; dec_tip := dec_tip d;
            dec_hashes := dec_hashes d; dec_occurrences := dec_occurrences d |}
    else if bool_decide (key = lit "tip") && bool_decide (dec_tip d = None) then
      Ok {| saw_network := saw_network d; dec_from := dec_from d; dec_tip := parse_u64 value;
            dec_hashes := dec_hashes d; dec_occurrences := dec_occurrences d |}
    else Err Malformed
  | [key; h; hash] => if bool_decide (key = lit "block") then decode_block h hash d else Err Malformed
  | key :: h :: p :: txid :: ctx :: record :: rest =>
    if bool_decide (key = lit "occurrence") then decode_occurrence h p txid ctx record rest d
    else Err Malformed
  | _ => Err Malformed
  end.

Fixpoint decode_lines (network : Network) (d : Decoding) (ls : list rstring) : decoded Decoding :=
  match ls with
  | [] => Ok d
  | l :: ls => d ← decode_line network d l; decode_lines network d ls
  end.

(** [windows(2).any(..)] *)
Fixpoint out_of_order (es : list ScannedAnchor) : bool :=
  match es with
  | a :: (b :: _) as rest => negb (bool_decide (loc_le (sa_location a) (sa_location b))) || out_of_order rest
  | _ => false
  end.

(** The heights of the lineage are [from], [from + 1], and so on. *)
Fixpoint heights_from (from : Z) (hashes : list (Z * bytes)) : bool :=
  match hashes with
  | [] => true
  | (h, _) :: hashes => (h =? from) && heights_from (from + 1) hashes
  end.

Definition decode_body (body : rstring) (network : Network)
  : decoded (Z * Z * list bytes * list ScannedAnchor) :=
  ls ← match lines body with
       | first :: ls => ensure (bool_decide (trim first = MAGIC)) Malformed;; Ok ls
       | [] => Err Malformed
       end;
  d ← decode_lines network {| saw_network := false; dec_from := None; dec_tip := None; dec_hashes := [];
                              dec_occurrences := [] |} ls;
  from ← ok_or (dec_from d) Malformed;
  tip ← ok_or (dec_tip d) Malformed;
  expected ← ok_or (checked_sub64 tip (saturating_sub64 from 1)) Malformed;
  ensure (negb (negb (saw_network d) || ((tip >? 0) && (from =? 0)) || (tip <? saturating_sub64 from 1) ||
    existsb (λ e, (height (sa_location e) <? from) || (height (sa_location e) >? tip)) (dec_occurrences d) ||
    out_of_order (dec_occurrences d) || negb (Z.of_nat (length (dec_hashes d)) =? expected) ||
    negb (heights_from from (dec_hashes d)))) Malformed;;
  Ok (from, tip, (dec_hashes d).*2, dec_occurrences d).

(** [ScanIndex::open]; [None] is a panic. *)
Definition open_index (network : Network) (file : FileRead Error) : option (result Error ScanIndex) :=
  let index := fresh_index network in
  let with_status view status :=
    {| si_network := si_network view; from_height := from_height view; synced_tip := synced_tip view;
       chain_hashes := chain_hashes view; occurrences := occurrences view; counters := counters view;
       load_status := status |} in
  match file with
  | NoFile => Some (Ok index)
  | Unreadable e => Some (Err e)
  | Contents text =>
    match body ← verified_body text; decode_body body network with
    | Ok (from, tip, hashes, occ) => Some (Ok (with_status (with_view from tip hashes occ index) Loaded))
    | Err Malformed => Some (Ok (with_status index RebuildRequired))
    | Err Panicked => None
    end
  end.
End file.

(** ** Lemmas: what was indexed can be written *)

(** What a scan records of a candidate: its fields fit their types. *)
Definition entry_wf (e : ScannedAnchor) : Prop :=
  is_u64 (height (sa_location e)) ∧ is_u32 (loc_position (sa_location e)) ∧
  length (sa_txid e) = 32%nat ∧ length (sa_ctx e) = 32%nat ∧
  (∃ payload, length payload = ANCHOR_SIZE ∧ sa_record e = record_from_bytes payload) ∧
  match sa_batch e with
  | None => True
  | Some batch => is_u32 (bc_index batch) ∧ bc_envelope batch ≠ [] ∧
                  Forall (λ p, length p = 24%nat) (bc_envelope batch)
  end.

Definition placed (es : list ScannedAnchor) : Prop :=
  StronglySorted (λ a b, loc_le (sa_location a) (sa_location b)) es.

Lemma entry_record_wf e : entry_wf e → record_wf (sa_record e).
Proof. intros (_ & _ & _ & _ & (payload & HL & ->) & _). by apply anchor_parse_total. Qed.

(** The record as a reader of the file sees it: 48 bytes of a transfer survive. *)
Definition reread (e : ScannedAnchor) : ScannedAnchor :=
  {| sa_location := sa_location e; sa_txid := sa_txid e;
     sa_record := record_from_bytes (record_to_bytes (sa_record e));
     sa_ctx := sa_ctx e; sa_batch := sa_batch e |}.

Lemma op_return_payload_length script payload : op_return_payload script = Some payload →
  length payload = ANCHOR_SIZE.
Proof.
  unfold op_return_payload. destruct script as [|x r]; [done|]. destruct x; try done.
  intros E. apply bind_Some in E as (data & _ & E). by case_bool_decide; simplify_eq.
Qed.

Lemma u32_mod n : is_u32 (n mod 2 ^ 32).
Proof. unfold is_u32, u32_max. pose proof (Z.mod_pos_bound n (2 ^ 32) ltac:(lia)). lia. Qed.

Section wf.
Context `{Poseidon, !Sha256d, !Sha256dLaws _, !Sha256, !Sha256Laws _}.

Lemma tx_candidates_wf h pos tx : is_u64 h → Forall entry_wf (tx_candidates h pos tx).
Proof.
  intros Hh. unfold tx_candidates. destruct (is_coinbase tx); [constructor|].
  destruct (head (inputs tx)) as [i|]; [|constructor].
  destruct (find_map _ (outputs tx)) as [payload|] eqn:Ep; [|constructor].
  apply find_map_Some in Ep as (out & _ & Ep). apply op_return_payload_length in Ep.
  unfold output_candidates.
  assert (∀ batch, match batch with None => True | Some b => is_u32 (bc_index b) ∧ bc_envelope b ≠ [] ∧
      Forall (λ p, length p = 24%nat) (bc_envelope b) end →
    entry_wf {| sa_location := MkLocation h (Z.of_nat pos mod 2 ^ 32); sa_txid := tx_id tx;
      sa_record := record_from_bytes payload; sa_ctx := funding_ctx (op_txid (prev i)) (vout (prev i));
      sa_batch := batch |}) as Hc.
  { intros batch Hb. split_and!; [done|apply u32_mod|apply length_sha256d|apply length_sha256|by exists payload|done]. }
  destruct (record_from_bytes payload); try (constructor; [by apply Hc|constructor]).
  destruct (head (witnesses tx) ≫= witness_envelope_decode) as [[v env]|] eqn:Ew;
    [|constructor; [by apply Hc|constructor]].
  apply bind_Some in Ew as (w & _ & Ew).
  assert (env ≠ [] ∧ Forall (λ p, length p = 24%nat) env) as [Hne He]
    by (destruct v; [apply witness_v1 in Ew|apply witness_v2 in Ew]; tauto).
  apply Forall_forall. intros e Hin. apply list_elem_of_lookup in Hin as [k Hk].
  rewrite list_lookup_imap in Hk. apply fmap_Some in Hk as (p & _ & ->). apply Hc. cbn.
  split_and!; [apply u32_mod|done|done].
Qed.

Lemma candidates_placed h txs : ∀ n, Z.of_nat (n + length txs) ≤ 2 ^ 32 →
  placed (concat (imap (λ i tx, tx_candidates h (n + i) tx) txs)).
Proof.
  induction txs as [|tx txs IH]; intros n Hn; cbn [imap concat length] in *; [constructor|].
  assert (Eq : imap ((λ i tx, tx_candidates h (n + i) tx) ∘ S) txs =
               imap (λ i tx, tx_candidates h (S n + i) tx) txs).
  { apply imap_ext. intros i x _. cbn. f_equal. lia. }
  rewrite Eq. destruct (candidates_from h txs (S n)) as [_ Hf]; [lia|]. rewrite Forall_forall in Hf.
  assert (Hloc : ∀ e, e ∈ tx_candidates h (n + 0) tx → sa_location e = MkLocation h (Z.of_nat n)).
  { intros e He. rewrite (tx_candidates_location _ _ _ _ He), Nat.add_0_r, Z.mod_small by lia. done. }
  apply StronglySorted_app_2; [| |apply IH; lia].
  - intros x y Hx Hy. rewrite (Hloc x Hx). destruct (Hf y Hy). apply loc_le_spec. right. cbn. lia.
  - generalize dependent (tx_candidates h (n + 0) tx). intros es Hes.
    induction es as [|e es IHe]; constructor.
    + apply IHe. intros x Hx. apply Hes. by right.
    + apply Forall_forall. intros x Hx. right. rewrite !Hes; [done|by right|left].
Qed.

Lemma indexed_entries marked from hs occ : indexed marked from hs occ → 0 ≤ from →
  from + Z.of_nat (length hs) ≤ 2 ^ 64 → Forall entry_wf occ ∧ placed occ.
Proof.
  induction 1 as [|hs occ hash found Hi IH Hc]; intros Hf HL; [split; constructor|].
  rewrite length_app in HL. cbn [length] in HL. destruct IH as [IHw IHp]; [done|lia|].
  destruct (indexed_placed _ _ _ _ Hi) as [_ Hr].
  destruct (contributes_placed _ _ _ _ Hc) as [_ Hh]. unfold contributes in Hc.
  destruct (marked hash MARKER_SPK || marked hash LEGACY_MARKER_SPK); [|subst found; by rewrite app_nil_r].
  destruct Hc as (b & _ & _ & Hb & ->). rewrite Forall_forall in Hr, Hh. split.
  - apply Forall_app. split; [done|]. apply Forall_forall. intros e He.
    apply elem_of_anchors_in_block in He as (pos & tx & _ & He). revert e He. apply Forall_forall, tx_candidates_wf.
    unfold is_u64, u64_max. lia.
  - apply StronglySorted_app_2; [|done|].
    + intros x y Hx Hy. apply loc_le_spec. left. rewrite (Hh y Hy). apply Hr in Hx. lia.
    + apply (candidates_placed _ _ 0). lia.
Qed.
End wf.

(** ** Lemmas: the words of the file *)

Lemma lit_word s : bool_decide (Forall visible (lit s)) = true → s ≠ ""%string → word (lit s).
Proof. intros Hv%bool_decide_eq_true Hne. split; [by destruct s|done]. Qed.

Ltac literal := apply lit_word; [vm_compute; reflexivity|discriminate].

Lemma hash_word h : length h = 32%nat → word (hash_to_display h).
Proof. intros Hh. apply to_hex_word. intros E. apply (f_equal length) in E. rewrite length_reverse, Hh in E. done. Qed.

Lemma bytes_word b n : length b = S n → word (to_hex b).
Proof. intros Hb. apply to_hex_word. by destruct b. Qed.

Lemma network_word n : word (network_name n).
Proof. destruct n; literal. Qed.

Lemma network_parse_name n : network_parse (network_name n) = Some n.
Proof. by destruct n. Qed.

Lemma occurrence_word e : entry_wf e → Forall word (occurrence_words e).
Proof.
  intros Hw. pose proof (entry_record_wf e Hw) as Hr. destruct Hw as (Hh & Hp & Ht & Hc & _ & Hb).
  unfold occurrence_words. apply Forall_app. split.
  - apply length_record_to_bytes in Hr. unfold is_u64, is_u32, ANCHOR_SIZE in *. rewrite !Forall_cons.
    split_and!; [literal|apply decimal_word; lia|apply decimal_word; lia|by apply hash_word|
      by eapply bytes_word|by eapply bytes_word|constructor].
  - destruct (sa_batch e) as [b|]; [|constructor]. destruct Hb as (Hi & Hne & He). unfold batch_words.
    constructor; [by destruct (bc_version b); literal|]. constructor; [apply decimal_word; unfold is_u32 in Hi; lia|].
    constructor; [|constructor]. apply to_hex_word. destruct (bc_envelope b) as [|p ps]; [done|].
    apply Forall_cons in He as [Hp' _]. by destruct p.
Qed.

Lemma block_words_Some hs : ∀ from ls, block_words from hs = Some ls → 0 ≤ from →
  Forall (λ h, length h = 32%nat) hs → Forall (Forall word) ls.
Proof.
  induction hs as [|h hs IH]; intros from ls E Hf Hh; cbn in E; [injection E as <-; constructor|].
  destruct (from <=? u64_max); [|done]. apply fmap_Some in E as (ls' & E & ->).
  apply Forall_cons in Hh as [Hh Hhs]. constructor.
  - constructor; [literal|]. constructor; [by apply decimal_word|]. constructor; [by apply hash_word|constructor].
  - apply (IH (from + 1)); [done|lia|done].
Qed.

Lemma block_words_total hs : ∀ from, from + Z.of_nat (length hs) ≤ 2 ^ 64 →
  is_Some (block_words from hs).
Proof.
  induction hs as [|h hs IH]; intros from HL; cbn; [done|]. cbn [length] in HL.
  rewrite (proj2 (Z.leb_le _ _)) by (unfold u64_max; lia).
  destruct (IH (from + 1)) as [ls ->]; [lia|]. done.
Qed.

(** ** Lemmas: reading the words back *)
Section decode.
Context `{Poseidon, Sha256d, Sha256} (network : Network).

Lemma array_field_hex n b : length b = n → array_field n (to_hex b) = Ok b.
Proof.
  intros Hb. unfold array_field, hex_field. rewrite from_to_hex. cbn [mbind result_bind].
  by rewrite bool_decide_eq_true_2.
Qed.

Lemma number_decimal max n : 0 ≤ n ≤ max → max ≤ u64_max →
  number (from_str_radix 10 max) (decimal n) = Ok n.
Proof. intros. unfold number. by rewrite parse_decimal. Qed.

Definition push_occurrence (e : ScannedAnchor) (d : Decoding) : Decoding :=
  {| saw_network := saw_network d; dec_from := dec_from d; dec_tip := dec_tip d;
     dec_hashes := dec_hashes d; dec_occurrences := dec_occurrences d ++ [e] |}.

Lemma decode_batch_words b : is_u32 (bc_index b) → Forall (λ p, length p = 24%nat) (bc_envelope b) →
  decode_batch (batch_words b) = Ok (Some b).
Proof.
  intros Hi He. unfold batch_words, decode_batch.
  assert (∀ kind v, ensure (E := fault) (bool_decide (kind = lit "batch") || bool_decide (kind = lit "batch1") ||
      bool_decide (kind = lit "batch2")) Malformed = Ok tt →
    (if bool_decide (kind = lit "batch2") then V2 else V1) = v → bc_version b = v →
    (ensure (bool_decide (kind = lit "batch") || bool_decide (kind = lit "batch1") ||
      bool_decide (kind = lit "batch2")) Malformed;;
     bytes ← hex_field (to_hex (concat (bc_envelope b)));
     ensure (bool_decide (length bytes mod 24 = 0)%nat) Malformed;;
     index ← number parse_u32 (decimal (bc_index b));
     Ok (Some {| bc_version := if bool_decide (kind = lit "batch2") then V2 else V1;
                 bc_index := index; bc_envelope := chunks 24 bytes |})) = Ok (Some b)) as Hk.
  { intros kind v -> -> Hv. cbn [mbind result_bind]. unfold hex_field. rewrite from_to_hex.
    cbn [mbind result_bind]. rewrite (length_concat_const 24) by done.
    rewrite Nat.Div0.mod_mul, bool_decide_eq_true_2 by done. cbn [mbind result_bind ensure].
    unfold parse_u32. rewrite number_decimal by (unfold is_u32, u32_max, u64_max in *; lia).
    cbn [mbind result_bind]. rewrite chunks_concat by (done || lia). rewrite <- Hv. by destruct b. }
  destruct (bc_version b) eqn:Ev.
  - apply (Hk (lit "batch1") V1); [vm_compute; reflexivity..|done].
  - apply (Hk (lit "batch2") V2); [vm_compute; reflexivity..|done].
Qed.

Lemma decode_occurrence_line e d : entry_wf e →
  decode_line network d (unwords (occurrence_words e)) = Ok (push_occurrence (reread e) d).
Proof.
  intros Hw. pose proof (occurrence_word e Hw) as Hwords. pose proof (entry_record_wf e Hw) as Hr.
  destruct Hw as (Hh & Hp & Ht & Hc & _ & Hb).
  unfold decode_line. rewrite split_unwords by done. unfold occurrence_words in *. cbn [app].
  rewrite (bool_decide_eq_true_2 (lit "occurrence" = lit "occurrence")) by done.
  unfold decode_occurrence, hash_to_display.
  rewrite (array_field_hex 32 (reverse (sa_txid e))) by (by rewrite length_reverse). cbn [mbind result_bind].
  assert (decode_batch match sa_batch e with Some b => batch_words b | None => [] end = Ok (sa_batch e)) as ->.
  { destruct (sa_batch e) as [b|]; [|done]. destruct Hb as (Hi & _ & He). by apply decode_batch_words. }
  cbn [mbind result_bind]. unfold parse_u64, parse_u32.
  rewrite !number_decimal by (unfold is_u64, is_u32, u32_max, u64_max in *; lia). cbn [mbind result_bind].
  rewrite !array_field_hex by (done || by apply length_record_to_bytes). cbn [mbind result_bind].
  rewrite reverse_involutive. unfold push_occurrence, reread. do 4 f_equal. by destruct e as [[] ? ? ? ?].
Qed.

Lemma decode_lines_app ls ls' d :
  decode_lines network d (ls ++ ls') = d' ← decode_lines network d ls; decode_lines network d' ls'.
Proof.
  revert d; induction ls as [|l ls IH]; intros d; [done|]. cbn [app decode_lines].
  destruct (decode_line network d l); [|done]. cbn [mbind result_bind]. apply IH.
Qed.

Lemma decode_occurrence_lines es : ∀ d, Forall entry_wf es →
  decode_lines network d (unwords <$> (occurrence_words <$> es)) =
    Ok {| saw_network := saw_network d; dec_from := dec_from d; dec_tip := dec_tip d;
          dec_hashes := dec_hashes d; dec_occurrences := dec_occurrences d ++ (reread <$> es) |}.
Proof.
  induction es as [|e es IH]; intros d Hw; cbn [fmap list_fmap decode_lines].
  { rewrite app_nil_r. by destruct d. }
  apply Forall_cons in Hw as [He Hes]. rewrite decode_occurrence_line by done. cbn [mbind result_bind].
  change (list_fmap ?A ?B ?f ?l) with (f <$> l). rewrite IH by done. cbn. by rewrite <- app_assoc.
Qed.

(** The lineage with its heights. *)
Fixpoint numbered (from : Z) (hs : list bytes) : list (Z * bytes) :=
  match hs with [] => [] | h :: hs => (from, h) :: numbered (from + 1) hs end.

Lemma numbered_hashes from hs : (numbered from hs).*2 = hs.
Proof. revert from; induction hs as [|h hs IH]; intros; [done|]. cbn. by rewrite IH. Qed.

Lemma numbered_heights from hs : heights_from from (numbered from hs) = true.
Proof. revert from; induction hs as [|h hs IH]; intros; [done|]. cbn. by rewrite Z.eqb_refl, IH. Qed.

Lemma decode_block_lines hs : ∀ from ls d, block_words from hs = Some ls → 0 ≤ from →
  Forall (λ h, length h = 32%nat) hs →
  decode_lines network d (unwords <$> ls) =
    Ok {| saw_network := saw_network d; dec_from := dec_from d; dec_tip := dec_tip d;
          dec_hashes := dec_hashes d ++ numbered from hs; dec_occurrences := dec_occurrences d |}.
Proof.
  induction hs as [|h hs IH]; intros from ls d E Hf Hh.
  { injection E as <-. cbn. rewrite app_nil_r. by destruct d. }
  pose proof (block_words_Some _ _ _ E Hf Hh) as Hw. cbn [block_words] in E.
  destruct (from <=? u64_max) eqn:Em; [|done]. bool_props.
  apply fmap_Some in E as (ls' & E & ->). apply Forall_cons in Hh as [Hl Hh].
  apply Forall_cons in Hw as [Hw _]. cbn [fmap list_fmap decode_lines]. unfold decode_line at 1.
  rewrite split_unwords by done. rewrite (bool_decide_eq_true_2 (lit "block" = lit "block")) by done.
  unfold decode_block, parse_u64. rewrite number_decimal by (unfold u64_max in *; lia). cbn [mbind result_bind].
  unfold hash_to_display. rewrite array_field_hex by (by rewrite length_reverse). cbn [mbind result_bind].
  change (list_fmap ?A ?B ?f ?l) with (f <$> l). rewrite (IH (from + 1) ls' _ E ltac:(lia) Hh).
  rewrite reverse_involutive. cbn. by rewrite <- app_assoc.
Qed.

Lemma heading_words idx : 0 ≤ from_height idx → 0 ≤ synced_tip idx →
  Forall (Forall word) [[MAGIC]; [lit "network"; network_name (si_network idx)];
         [lit "from"; decimal (from_height idx)]; [lit "tip"; decimal (synced_tip idx)]].
Proof.
  intros Hf Ht. unfold MAGIC. repeat (apply Forall_cons; split); try constructor; try literal;
    try (by apply decimal_word); apply network_word.
Qed.

(** The lines before the lineage. *)
Lemma decode_heading_lines idx : 0 ≤ from_height idx ≤ u64_max → 0 ≤ synced_tip idx ≤ u64_max →
  decode_lines network {| saw_network := false; dec_from := None; dec_tip := None; dec_hashes := [];
    dec_occurrences := [] |} (unwords <$> [[lit "network"; network_name (si_network idx)];
         [lit "from"; decimal (from_height idx)]; [lit "tip"; decimal (synced_tip idx)]]) =
  if bool_decide (si_network idx = network)
  then Ok {| saw_network := true; dec_from := Some (from_height idx); dec_tip := Some (synced_tip idx);
             dec_hashes := []; dec_occurrences := [] |}
  else Err Malformed.
Proof.
  intros Hf Ht. pose proof (heading_words idx ltac:(lia) ltac:(lia)) as Hw.
  apply Forall_cons in Hw as [_ Hw]. apply Forall_cons in Hw as [W1 Hw]. apply Forall_cons in Hw as [W2 Hw].
  apply Forall_cons in Hw as [W3 _].
  cbn [fmap list_fmap decode_lines]. unfold decode_line. rewrite !split_unwords by done.
  rewrite (bool_decide_eq_true_2 (lit "network" = lit "network")) by done.
  unfold decode_network. cbn [saw_network orb]. rewrite network_parse_name.
  destruct (decide (si_network idx = network)) as [->|Hn].
  2:{ rewrite (bool_decide_eq_false_2 (Some _ = Some _)) by congruence.
      by rewrite (bool_decide_eq_false_2 (si_network idx = network)). }
  rewrite (bool_decide_eq_true_2 (Some network = _)), (bool_decide_eq_true_2 (network = network)) by done.
  cbn [negb ensure mbind result_bind dec_from dec_tip dec_hashes dec_occurrences saw_network].
  replace (bool_decide (lit "from" = lit "network")) with false by (vm_compute; reflexivity).
  replace (bool_decide (lit "tip" = lit "network")) with false by (vm_compute; reflexivity).
  replace (bool_decide (lit "tip" = lit "from")) with false by (vm_compute; reflexivity).
  rewrite (bool_decide_eq_true_2 (lit "from" = lit "from")), (bool_decide_eq_true_2 (@None Z = None)) by done.
  cbn [andb mbind result_bind dec_from dec_tip dec_hashes dec_occurrences saw_network].
  rewrite (bool_decide_eq_true_2 (lit "tip" = lit "tip")), (bool_decide_eq_true_2 (@None Z = None)) by done.
  cbn [andb mbind result_bind dec_from dec_tip dec_hashes dec_occurrences saw_network].
  unfold parse_u64. by rewrite !parse_decimal by (unfold u64_max in *; lia).
Qed.
End decode.

(** ** Lemmas: the checksum *)
Section checksum.
Context `{Poseidon, Sha256d, !Sha256, !Sha256Laws _}.

Lemma checksum_line_one body : Forall (λ x, x ≠ 10) (checksum_line body).
Proof.
  unfold checksum_line. apply Forall_app. split; [apply (bool_decide_unpack _); vm_compute; exact I|].
  eapply Forall_impl; [apply to_hex_visible|]. unfold visible. cbn. lia.
Qed.

Lemma verified_body_written (body : rstring) :
  verified_body ((body ++ [10]) ++ checksum_line (body ++ [10]) ++ [10]) = Ok (body ++ [10]).
Proof.
  unfold verified_body. rewrite !app_assoc, strip_last_snoc. cbn [ok_or mbind result_bind].
  assert ((body ++ [10]) ++ checksum_line (body ++ [10]) = body ++ 10 :: checksum_line (body ++ [10])) as E
    by (by rewrite <- app_assoc). rewrite E, rsplit_once_app by apply checksum_line_one.
  cbn [ok_or mbind result_bind]. rewrite <- E.
  assert (∀ b, strip_prefix (checksum_line b) (lit "checksum ") = Some (to_hex (sha256 (utf8 b)))) as ->
    by (intros b; apply strip_prefix_app).
  cbn [ok_or mbind result_bind]. unfold hex_field. rewrite from_to_hex. cbn [mbind result_bind].
  assert (length (utf8 body) + 1 = length (utf8 (body ++ [10%Z])))%nat as ->.
  { unfold utf8. by rewrite fmap_app, concat_app, length_app. }
  rewrite split_bytes_app. cbn [ok_or mbind result_bind]. by rewrite bool_decide_eq_true_2.
Qed.
End checksum.

(** ** The file read back *)
Section reload.
Context `{Poseidon, !Sha256d, !Sha256dLaws _, !Sha256, !Sha256Laws _} (marked : bytes → bytes → bool).

(** An index that has been synchronised, with fields of their types. *)
Definition index_typed (idx : ScanIndex) : Prop :=
  1 ≤ from_height idx ∧ synced_tip idx ≤ u64_max ∧ Forall (λ h, length h = 32%nat) (chain_hashes idx).

Definition reloaded (idx : ScanIndex) : ScanIndex :=
  {| si_network := si_network idx; from_height := from_height idx; synced_tip := synced_tip idx;
     chain_hashes := chain_hashes idx; occurrences := reread <$> occurrences idx;
     counters := counters (fresh_index (si_network idx)); load_status := Loaded |}.

Definition rebuild (network : Network) : ScanIndex :=
  {| si_network := network; from_height := 0; synced_tip := 0; chain_hashes := []; occurrences := [];
     counters := counters (fresh_index network); load_status := RebuildRequired |}.

Lemma placed_in_order es : placed es → out_of_order es = false.
Proof.
  induction 1 as [|e es _ IH He]; [done|]. cbn [out_of_order]. destruct es as [|e' es]; [done|].
  apply Forall_cons in He as [He _]. rewrite bool_decide_eq_true_2 by done. exact IH.
Qed.

Lemma reread_placed es : placed es → placed (reread <$> es).
Proof.
  induction 1 as [|e es _ IH He]; cbn; constructor; [done|]. apply Forall_fmap.
  eapply Forall_impl; [exact He|]. done.
Qed.

Lemma text_of_lines ls : Forall (Forall word) ls → lines (text_of ls) = unwords <$> ls.
Proof.
  intros Hw. unfold text_of.
  assert ((λ ws, unwords ws ++ [10]) <$> ls = (λ l, l ++ [10]) <$> (unwords <$> ls)) as ->
    by (by rewrite <- list_fmap_compose).
  apply lines_concat, Forall_fmap. eapply Forall_impl; [exact Hw|]. intros. by apply one_line_words.
Qed.

Lemma decode_written idx ls network : index_wf marked idx → index_typed idx → index_words idx = Some ls →
  Forall (Forall word) ls ∧
  decode_body (text_of ls) network =
    if bool_decide (si_network idx = network)
    then Ok (from_height idx, synced_tip idx, chain_hashes idx, reread <$> occurrences idx)
    else Err Malformed.
Proof.
  intros (Hi & Hf & _ & Ht) (H1' & HT & Hh) E. specialize (Ht ltac:(lia)).
  destruct (indexed_entries _ _ _ _ Hi) as [He Hp]; [lia|unfold u64_max in *; lia|].
  destruct (indexed_placed _ _ _ _ Hi) as [_ Hr].
  unfold index_words in E. apply bind_Some in E as (blocks & Eb & [= <-]).
  pose proof (block_words_Some _ _ _ Eb ltac:(lia) Hh) as Hbw.
  assert (Forall (Forall word) (occurrence_words <$> occurrences idx)) as How.
  { apply Forall_fmap. eapply Forall_impl; [exact He|]. apply occurrence_word. }
  assert (Forall (Forall word) ([[MAGIC]; [lit "network"; network_name (si_network idx)];
         [lit "from"; decimal (from_height idx)]; [lit "tip"; decimal (synced_tip idx)]] ++
        blocks ++ (occurrence_words <$> occurrences idx))) as Hall.
  { apply Forall_app. split; [apply heading_words; lia|]. by apply Forall_app. }
  split; [exact Hall|]. unfold decode_body. rewrite text_of_lines by exact Hall.
  assert (∀ a l k, unwords <$> ([[MAGIC]] ++ a ++ l ++ k) =
    MAGIC :: (unwords <$> a) ++ (unwords <$> l) ++ (unwords <$> k)) as Ew
    by (intros; by rewrite !fmap_app).
  pose proof (Ew [[lit "network"; network_name (si_network idx)]; [lit "from"; decimal (from_height idx)];
    [lit "tip"; decimal (synced_tip idx)]] blocks (occurrence_words <$> occurrences idx)) as Ew'.
  cbn [app] in Ew' |- *. rewrite Ew'. clear Ew Ew'.
  rewrite (bool_decide_eq_true_2 (trim MAGIC = MAGIC)) by (vm_compute; reflexivity).
  cbn [ensure mbind result_bind]. rewrite decode_lines_app.
  pose proof (decode_heading_lines network idx ltac:(lia) ltac:(lia)) as Eh. rewrite Eh. clear Eh.
  case_bool_decide; [|done]. cbn [mbind result_bind].
  rewrite decode_lines_app, (decode_block_lines network _ _ _ _ Eb ltac:(lia) Hh). cbn [mbind result_bind].
  rewrite decode_occurrence_lines by done. cbn [mbind result_bind dec_from dec_tip dec_hashes dec_occurrences
    saw_network ok_or app]. unfold checked_sub64, saturating_sub64.
  rewrite decide_True by lia. cbn [ok_or mbind result_bind].
  rewrite numbered_heights, (placed_in_order _ (reread_placed _ Hp)), numbered_hashes.
  match goal with |- context [existsb ?f ?l] => assert (existsb f l = false) as -> end.
  { apply not_true_iff_false. intros Hx. apply existsb_exists in Hx as (x & Hin & Hx).
    apply list_elem_of_In, list_elem_of_fmap in Hin as (e & -> & Hin). cbn [reread sa_location] in Hx.
    rewrite Forall_forall in Hr. apply Hr in Hin. rewrite Z.gtb_ltb in Hx. bool_props. lia. }
  assert (length (numbered (from_height idx) (chain_hashes idx)) = length (chain_hashes idx)) as ->
    by (rewrite <- (numbered_hashes (from_height idx) (chain_hashes idx)) at 2; by rewrite length_fmap).
  assert ((from_height idx =? 0) = false) as -> by (apply Z.eqb_neq; lia).
  assert ((synced_tip idx <? Z.max (from_height idx - 1) 0) = false) as -> by (apply Z.ltb_ge; lia).
  assert ((Z.of_nat (length (chain_hashes idx)) =? synced_tip idx - Z.max (from_height idx - 1) 0) = true) as ->
    by (apply Z.eqb_eq; lia).
  by rewrite andb_false_r.
Qed.

Lemma text_of_break ls : ls ≠ [] → ∃ body, text_of ls = body ++ [10].
Proof.
  destruct ls as [|ws ls _] using rev_ind; [done|]. intros _. exists (text_of ls ++ unwords ws).
  unfold text_of. rewrite fmap_app, concat_app. cbn. by rewrite app_nil_r, <- app_assoc.
Qed.

(** What the file keeps of a record: everything, exactly when the record's own
    bytes parse back to its class. *)
Lemma reread_exact e : entry_wf e → reread e = e ↔ parses_cleanly (sa_record e) = true.
Proof.
  intros Hw. pose proof (entry_record_wf e Hw) as Hr. destruct Hw as (_ & _ & _ & _ & (payload & HL & E) & _).
  assert (canonical_class (sa_record e) = sa_record e) as Hc.
  { rewrite E. unfold record_from_bytes. by repeat case_match. }
  split.
  - intros Er. apply (f_equal sa_record) in Er. cbn [reread sa_record] in Er.
    revert Er. generalize (sa_record e). intros r Er. unfold parses_cleanly. destruct r; by rewrite Er.
  - intros Hp. unfold reread. rewrite from_to_clean, Hc by done. by destruct e.
Qed.

Lemma reloaded_exact idx : index_wf marked idx → index_typed idx →
  occurrences (reloaded idx) = occurrences idx ↔
  Forall (λ e, parses_cleanly (sa_record e) = true) (occurrences idx).
Proof.
  intros (Hi & Hf & _ & Ht) (H1' & HT & Hh). specialize (Ht ltac:(lia)).
  destruct (indexed_entries _ _ _ _ Hi) as [He _]; [lia|unfold u64_max in *; lia|].
  cbn [reloaded occurrences]. clear -He. induction He as [|e es He _ IH]; [split; constructor|].
  rewrite fmap_cons, Forall_cons, <- (reread_exact e He), <- IH. split; [by intros [= ? ?]|by intros [-> ->]].
Qed.

Lemma open_written idx : index_wf marked idx → index_typed idx → ∃ text, index_file idx = Some text ∧
  ∀ network, open_index network (Contents text) =
    Some (Ok (if bool_decide (si_network idx = network) then reloaded idx else rebuild network)).
Proof.
  intros Hi Ht. pose proof Hi as (_ & Hf & _ & Hs). pose proof Ht as (Hf1 & HT & _). specialize (Hs ltac:(lia)).
  destruct (block_words_total (chain_hashes idx) (from_height idx)) as [blocks Eb]; [unfold u64_max in *; lia|].
  assert (∃ ls, index_words idx = Some ls) as [ls El] by (unfold index_words; rewrite Eb; by eexists).
  unfold index_file. rewrite El. cbn [fmap option_fmap option_map mbind option_bind]. eexists. split; [reflexivity|].
  intros network. destruct (decode_written idx ls network Hi Ht El) as [Hw Hd].
  assert (∃ body, text_of ls = body ++ [10]) as [body Et].
  { apply text_of_break. intros ->. unfold index_words in El. by rewrite Eb in El. }
  unfold open_index. rewrite Et, verified_body_written, <- Et. cbn [mbind result_bind]. rewrite Hd.
  case_bool_decide as Hn; [subst network|]; reflexivity.
Qed.

(** C23: A synchronised index can always be written, and reading its file on the same
    network gives back its whole view - heights, lineage and every occurrence, the
    latter exactly if every record's own bytes parse back to its class - while the file of
    another network is discarded and reported for a rebuild. *)
Theorem index_file_reload idx : index_wf marked idx → index_typed idx →
  ∃ text, index_file idx = Some text ∧
  (∀ network, open_index network (Contents text) =
     Some (Ok (if bool_decide (si_network idx = network) then reloaded idx else rebuild network))) ∧
  (occurrences (reloaded idx) = occurrences idx ↔
   Forall (λ e, parses_cleanly (sa_record e) = true) (occurrences idx)).
Proof.
  intros Hi Ht. destruct (open_written idx Hi Ht) as (text & E & Ho). exists text.
  split_and!; [done|done|by apply reloaded_exact].
Qed.

Lemma mint_binds_nothing e a v c nf : sa_record e = Mint a v c → sa_batch e = None → binds e nf = false.
Proof. intros E Eb. unfold binds. by rewrite Eb, E. Qed.

(** A transfer whose first payload begins with the tag of a mint is read back as a mint. *)
Lemma reread_tagged_transfer e p q : entry_wf e → sa_record e = Xfer p q → head p = Some TAG_MINT →
  ∃ a v c, sa_record (reread e) = Mint a v c.
Proof.
  intros Hw E Hp. pose proof (entry_record_wf e Hw) as Hr. rewrite E in Hr. destruct Hr as [Lp Lq].
  cbn [reread sa_record]. rewrite E. cbn [record_to_bytes]. unfold record_from_bytes.
  rewrite padded_57_transfer by done. destruct p as [|x p]; [done|]. injection Hp as ->.
  by eexists _, _, _.
Qed.

(** C22: The file can forget a spend: an output whose 64 bytes begin with the tag of a
    mint but end in non-zero padding is scanned as a transfer and found by a query;
    the index writes its re-encoded 48 bytes with cleared padding, which read back as
    a mint, so the reopened index answers that the nullifier never occurred. *)
Theorem reload_forgets_spend `{!PoseidonLaws _} idx e p q nf birth spend : index_wf marked idx → index_typed idx →
  occurrences idx = [e] → sa_record e = Xfer p q → sa_batch e = None → head p = Some TAG_MINT →
  bound (sa_ctx e) nf = p → birth ≤ height (sa_location e) ≤ spend →
  scan_check idx nf birth spend = Some (sa_location e, sa_ctx e) ∧
  ∃ text idx', index_file idx = Some text ∧ open_index (si_network idx) (Contents text) = Some (Ok idx') ∧
    load_status idx' = Loaded ∧ scan_check idx' nf birth spend = None.
Proof.
  intros Hi Ht Eo Er Eb Hp Hb Hh. split.
  - unfold scan_check. rewrite Eo, filter_cons, decide_True; [done|]. split; [done|].
    unfold binds. rewrite Eb, Er. apply (proj2 (well_formed_slots _ _ _)). rewrite Hb. left.
  - destruct (open_written idx Hi Ht) as (text & E & Ho). exists text, (reloaded idx).
    split_and!; [done|by rewrite Ho, bool_decide_eq_true_2 by done|done|].
    assert (entry_wf e) as Hw.
    { destruct Hi as (Hi & Hf & _ & Hs). destruct Ht as (Hf1 & HT & _). specialize (Hs ltac:(lia)).
      destruct (indexed_entries _ _ _ _ Hi) as [He _]; [lia|unfold u64_max in *; lia|].
      rewrite Eo in He. by apply Forall_cons in He as [? _]. }
    destruct (reread_tagged_transfer e p q Hw Er Hp) as (a & v & c & Em).
    unfold scan_check. cbn [reloaded occurrences]. rewrite Eo. cbn [fmap list_fmap].
    rewrite filter_cons, decide_False; [done|]. intros [_ Hx].
    by rewrite (mint_binds_nothing _ _ _ _ nf Em Eb) in Hx.
Qed.
End reload.

(** ** Witnesses: two one-block indexes *)
Section demo.
#[local] Existing Instances demo_sponge demo_sponge_laws demo_sha demo_sha_laws FullScan.demo_sha256.

#[local] Instance demo_sha256_laws : Sha256Laws FullScan.demo_sha256.
Proof. constructor. apply demo_sha_laws. Qed.

(** A transfer of a coin whose bound payload begins with the tag of a mint, with a
    last byte that is not zero. *)
Definition tagged_nf : bytes := demo_digest 126.
Definition tagged_payload : bytes := bound scan_ctx tagged_nf ++ zeros 39 ++ [x01].
Definition tagged_tx : Transaction := {|
  tx_version := 2;
  inputs := [{| prev := scan_outpoint; script_sig := []; sequence := 0 |}];
  outputs := [{| tx_value := 0; script_pubkey := anchor_script tagged_payload |}];
  lock_time := 0; witnesses := [];
|}.
Definition tagged_block : Block := {|
  header := {| h_version := 2; prev_block := zeros 32; h_merkle_root := tx_id tagged_tx;
               h_time := 0; bits := 0x207fffff; h_nonce := 0 |};
  txs := [tagged_tx];
|}.
Definition tagged_index : ScanIndex :=
  with_view 100 100 [header_hash (header tagged_block)] (anchors_in_block tagged_block 100)
    (fresh_index Regtest).

Lemma one_block_wf b : compute_merkle_root b = Some (h_merkle_root (header b)) →
  Z.of_nat (length (txs b)) ≤ 1000000 →
  let idx := with_view 100 100 [header_hash (header b)] (anchors_in_block b 100) (fresh_index Regtest) in
  index_wf (λ _ _, true) idx ∧ index_typed idx.
Proof.
  intros Hm HL idx. unfold index_wf, index_typed, idx.
  cbn [with_view from_height synced_tip chain_hashes occurrences length].
  split; [|split; [lia|split; [unfold u64_max; lia|repeat constructor; apply length_sha256d]]].
  split; [|split; [unfold u64_max; lia|split; [lia|lia]]].
  apply (indexed_snoc (λ _ _, true) 100 [] [] (header_hash (header b)) (anchors_in_block b 100)); [constructor|].
  by exists b.
Qed.

Lemma settled_typed : index_wf (λ _ _, true) settled_index ∧ index_typed settled_index.
Proof. apply one_block_wf; [vm_compute; reflexivity|discriminate]. Qed.

Lemma tagged_typed : index_wf (λ _ _, true) tagged_index ∧ index_typed tagged_index.
Proof. apply one_block_wf; [vm_compute; reflexivity|discriminate]. Qed.

Lemma index_file_reload_witness : ∃ text, index_file settled_index = Some text ∧
  open_index Regtest (Contents text) = Some (Ok (reloaded settled_index)) ∧
  open_index Signet (Contents text) = Some (Ok (rebuild Signet)).
Proof.
  destruct (index_file_reload (λ _ _, true) settled_index (proj1 settled_typed) (proj2 settled_typed))
    as (text & E & Ho & _).
  exists text. split; [exact E|]. split; [exact (Ho Regtest)|exact (Ho Signet)].
Defined.

Definition tagged_entry : ScannedAnchor :=
  {| sa_location := MkLocation 100 0; sa_txid := tx_id tagged_tx;
     sa_record := Xfer (bound scan_ctx tagged_nf) (zeros 24); sa_ctx := scan_ctx; sa_batch := None |}.

Lemma tagged_occurrence : occurrences tagged_index = [tagged_entry].
Proof. vm_compute. reflexivity. Qed.

Lemma tagged_head : head (bound scan_ctx tagged_nf) = Some TAG_MINT.
Proof. vm_compute. reflexivity. Qed.

Lemma reload_forgets_spend_witness :
  scan_check tagged_index tagged_nf 100 100 = Some (MkLocation 100 0, scan_ctx) ∧
  ∃ text idx', index_file tagged_index = Some text ∧
    open_index Regtest (Contents text) = Some (Ok idx') ∧ load_status idx' = Loaded ∧
    scan_check idx' tagged_nf 100 100 = None.
Proof.
  exact (reload_forgets_spend (λ _ _, true) tagged_index tagged_entry
    (bound scan_ctx tagged_nf) (zeros 24) tagged_nf 100 100 (proj1 tagged_typed) (proj2 tagged_typed)
    tagged_occurrence eq_refl eq_refl tagged_head eq_refl (conj (Z.le_refl 100) (Z.le_refl 100))).
Defined.

(** A cache file whose last line holds a character of two bytes off an even offset
    is not discarded: opening it panics. *)
Example open_panics : open_index Regtest
  (Contents (lit "opencsv-cbf-scan-index-v3" ++ [10] ++ lit "checksum " ++ [97; 233; 98; 10])) = None.
Proof. vm_compute. reflexivity. Qed.
End demo.
