(* ===== verification/Client.v ===== *)
(** * The multi-peer light client

    Models [crates/opencsv-cbf/src/client.rs]: connecting to several peers,
    synchronising a clone of the header chain on each and requiring agreement,
    cross-checking filter headers, filters and blocks from whichever peer has
    them, and the point verdicts on anchors and outputs.  The cache directory is
    whatever implements [CacheDir], a connection whatever implements [PeerOps]. *)

From S2P Require Import Prelude Field Commitments Kernel Anchor Batch Chain Accept Wire Block Network.
From S2P Require Import Messages Peer Gcs HeaderChain FullScan.
From stdpp Require Import pretty.
From Stdlib Require Import Strings.Ascii.
From Stdlib Require Strings.String.
#[local] Open Scope Z_scope.

(** ** Connections and the cache directory *)

Class PeerOps (P : Type) := {
  peer_headers :: HeaderSource P;
  peer_cfilter : Z → bytes → io P CFilter;
  peer_block : bytes → io P Block;
  peer_filter_bytes : P → Z;
  peer_block_bytes : P → Z;
}.

#[export] Instance peer_ops `{Sha256d} : PeerOps Peer := {|
  peer_cfilter := peer_get_cfilter;
  peer_block := get_block;
  peer_filter_bytes := filter_bytes_fetched;
  peer_block_bytes := block_bytes_fetched;
|}.

(** Files of the cache directory: [None] is a file that does not exist. *)
Class CacheDir (D : Type) := {
  read_headers_file : D → result Error (option bytes);
  read_filter_hashes_file : D → result Error (option bytes);
  write_headers_file : bytes → io D ();
  write_filter_hashes_file : bytes → io D ();
  read_filter_file : Z → D → result Error (option bytes);
  remove_filter_file : Z → D → D;
  write_filter_file : Z → bytes → io D ();
}.

Record SocketAddr := { sock_ip : bytes; sock_port : Z }.

#[export] Instance socket_addr_eq_dec : EqDecision SocketAddr.
Proof. solve_decision. Defined.

Definition FILTER_CACHE_REATTEST_BLOCKS : nat := 144.

Inductive NotPresentReason :=
  | AboveTip (height tip : Z)
  | PositionOutOfRange (position tx_count : Z)
  | TxidMismatch (claimed actual : bytes)
  | RecordNotInTx.

Inductive AnchorVerdict :=
  | Confirmed (block_hash ctx : bytes) (confirmations : Z) (filter_matched : bool)
  | NotPresent (reason : NotPresentReason)
  | InsufficientConfirmations (have required : Z).

Inductive OutpointVerdict :=
  | Unspent (creation_height checked_through matched_blocks : Z)
  | Spent (creation_height spend_height : Z) (spending_txid : bytes)
  | NotFound (checked_from checked_through : Z)
  | OutputMismatch (creation_height : Z).

Inductive OutpointBlockObservation :=
  | ObsContinue
  | ObsSpent (creation_height : Z) (spending_txid : bytes)
  | ObsOutputMismatch
  | ObsSpendBeforeCreation.

Section inspect.
Context `{Sha256d}.

(** The [match output] of a transaction that has the outpoint's id. *)
Definition expected_output (outputs : list TxOut) (o : OutPoint) (value : Z) (script : bytes) : bool :=
  match outputs !! Z.to_nat (vout o) with
  | Some output => bool_decide (tx_value output = value) && bool_decide (script_pubkey output = script)
  | None => false
  end.

(** The loop over a block's transactions; [creation] is the mutable creation height. *)
Fixpoint inspect_txs (ts : list Transaction) (height : Z) (o : OutPoint) (value : Z) (script : bytes)
    (creation : option Z) : OutpointBlockObservation * option Z :=
  match ts with
  | [] => (ObsContinue, creation)
  | tx :: ts =>
    let creates := bool_decide (tx_id tx = op_txid o) in
    if creates && negb (expected_output (outputs tx) o value script)
    then (ObsOutputMismatch, creation)
    else
      let creation := if creates then Some height else creation in
      if existsb (λ input, bool_decide (prev input = o)) (inputs tx)
      then match creation with
           | Some created => (ObsSpent created (tx_id tx), creation)
           | None => (ObsSpendBeforeCreation, creation)
           end
      else inspect_txs ts height o value script creation
  end.

Definition inspect_outpoint_block (b : Block) := inspect_txs (txs b).
End inspect.

(** ** The client *)
Record CbfClient (P D : Type) := {
  cl_params : Network.Params;
  cl_peers : list (SocketAddr * P);
  cl_chain : HeaderChain;
  cl_filters : FilterHeaderChain;
  cl_disk : D;
}.
Arguments cl_params {P D} _.
Arguments cl_peers {P D} _.
Arguments cl_chain {P D} _.
Arguments cl_filters {P D} _.
Arguments cl_disk {P D} _.

Section client.
Context `{Sha256d, Sha256} {P D : Type} `{!PeerOps P, !CacheDir D}.

Abbreviation Client := (CbfClient P D).

Definition set_peers (ps : list (SocketAddr * P)) (c : Client) : Client :=
  {| cl_params := cl_params c; cl_peers := ps; cl_chain := cl_chain c; cl_filters := cl_filters c;
     cl_disk := cl_disk c |}.
Definition set_disk (d : D) (c : Client) : Client :=
  {| cl_params := cl_params c; cl_peers := cl_peers c; cl_chain := cl_chain c;
     cl_filters := cl_filters c; cl_disk := d |}.
Definition set_chains (ch : HeaderChain) (f : FilterHeaderChain) (c : Client) : Client :=
  {| cl_params := cl_params c; cl_peers := cl_peers c; cl_chain := ch; cl_filters := f;
     cl_disk := cl_disk c |}.

Definition on_disk {A} (m : io D A) : io Client A := λ c,
  let '(r, d) := m (cl_disk c) in (r, set_disk d c).

(** *** Synchronisation.  A worker thread owns its peer and its clone of the chain,
    so the tasks are independent; a task that fails or panics loses its peer.
    [None]: some worker is still in the unbounded loop of [HeaderChain::sync]. *)
Definition tip_view (c : HeaderChain) : option Z * option bytes * Z :=
  (HeaderChain.tip_height c, HeaderChain.tip_height c ≫= (λ h, hash_at c (Z.to_nat h)), tip_work c).

Fixpoint header_tasks (fuel : nat) (base : HeaderChain) (ps : list (SocketAddr * P))
  : option (list ((SocketAddr * P) * HeaderChain)) :=
  match ps with
  | [] => Some []
  | (address, p) :: ps =>
    '(r, (candidate, p)) ← sync fuel (base, p);
    candidates ← header_tasks fuel base ps;
    Some (match r with
          | Ok _ => ((address, p), candidate) :: candidates
          | Err _ => candidates
          end)
  end.

(** The peers were taken out of the client: an early return leaves none. *)
Definition agree_headers (candidates : list ((SocketAddr * P) * HeaderChain)) : io Client HeaderChain := λ c,
  match candidates with
  | [] => (Err (ENoPeers "no peer completed header synchronization"), set_peers [] c)
  | (_, agreed) :: rest =>
    if forallb (λ t, bool_decide (tip_view t.2 = tip_view agreed)) rest
    then (Ok agreed, set_peers candidates.*1 c)
    else (Err (EDivergentPeers "header tips"), set_peers [] c)
  end.

Definition filter_task (revalidate : bool) (f : FilterHeaderChain) (ch : HeaderChain) (stop : nat)
  : io P (list bytes) :=
  (if revalidate && negb (bool_decide (f = [])) then reattest_tail f ch FILTER_CACHE_REATTEST_BLOCKS
   else mret tt);;
  fetch_range f ch stop.

Definition filter_tasks (revalidate : bool) (f : FilterHeaderChain) (ch : HeaderChain) (stop : nat)
    (ps : list (SocketAddr * P)) : list ((SocketAddr * P) * result Error (list bytes)) :=
  (λ '(address, p), let '(r, p) := filter_task revalidate f ch stop p in ((address, p), r)) <$> ps.

Fixpoint collect_filters (tasks : list ((SocketAddr * P) * result Error (list bytes)))
    (reference : option (list bytes)) : result Error (option (list bytes) * list (SocketAddr * P)) :=
  match tasks with
  | [] => Ok (reference, [])
  | (_, Err _) :: tasks => collect_filters tasks reference
  | (peer, Ok fetched) :: tasks =>
    ensure (match reference with Some expected => bool_decide (expected = fetched) | None => true end)
      (EDivergentPeers "filter-header chains differ");;
    '(reference, kept) ← collect_filters tasks (Some (default fetched reference));
    Ok (reference, peer :: kept)
  end.

Definition agree_filters (revalidate : bool) (stop : nat) : io Client () := λ c,
  match collect_filters (filter_tasks revalidate (cl_filters c) (cl_chain c) stop (cl_peers c)) None with
  | Err e => (Err e, set_peers [] c)
  | Ok (_, []) => (Err (ENoPeers "no peer completed filter-header synchronization"), set_peers [] c)
  | Ok (reference, kept) =>
    (Ok tt, set_chains (cl_chain c) (extend (cl_filters c) (default [] reference)) (set_peers kept c))
  end.

Definition adopt_chain (agreed : HeaderChain) : io Client () := modify (λ c,
  set_chains agreed (truncate (cl_filters c) (common_prefix_len (cl_chain c) agreed)) c).

Definition client_tip_height : io Client Z :=
  c ← get_state; lift (ok_or (HeaderChain.tip_height (cl_chain c)) (EPanic "genesis synced")).

Definition persist_client : io Client () :=
  c ← get_state;
  on_disk (write_headers_file (persist_chain (cl_chain c)));;
  on_disk (write_filter_hashes_file (persist_filter_hashes (cl_filters c))).

Definition after_headers (revalidate : bool) (candidates : list ((SocketAddr * P) * HeaderChain))
  : io Client () :=
  agreed ← agree_headers candidates;
  adopt_chain agreed;;
  stop ← client_tip_height;
  agree_filters revalidate (Z.to_nat stop);;
  persist_client.

Definition sync_inner (fuel : nat) (revalidate : bool) (c : Client) : option (result Error () * Client) :=
  candidates ← header_tasks fuel (cl_chain c) (cl_peers c);
  Some (after_headers revalidate candidates c).

Definition sync_client (fuel : nat) : Client → option (result Error () * Client) := sync_inner fuel false.

(** *** Connecting.  Name resolution and opening a connection are the operating
    system's and [Peer::connect]: parameters. *)
Definition with_default_port (peer : string) (default_port : Z) : string :=
  if bool_decide (":"%char ∈ String.list_ascii_of_string peer) || bool_decide ("]"%char ∈ String.list_ascii_of_string peer)
  then peer else (peer +:+ ":" +:+ pretty default_port)%string.

Definition resolve (to_socket_addrs : string → result Error (list SocketAddr)) (peer : string)
    (default_port : Z) : result Error SocketAddr :=
  addrs ← to_socket_addrs (with_default_port peer default_port);
  ok_or (head addrs) (EProtocol "cannot resolve").

(** The configured peers in order: unresolvable and repeated addresses are skipped. *)
Fixpoint connect_tasks (to_socket_addrs : string → result Error (list SocketAddr)) (default_port : Z)
    (names : list string) (resolved : list SocketAddr) : list SocketAddr :=
  match names with
  | [] => []
  | name :: names =>
    match resolve to_socket_addrs name default_port with
    | Err _ => connect_tasks to_socket_addrs default_port names resolved
    | Ok addr =>
      if bool_decide (addr ∈ resolved) then connect_tasks to_socket_addrs default_port names resolved
      else addr :: connect_tasks to_socket_addrs default_port names (addr :: resolved)
    end
  end.

Definition connected (dial : SocketAddr → Z → result Error P) (tip : Z) (addrs : list SocketAddr)
  : list (SocketAddr * P) :=
  omap (λ addr, pair addr <$> to_option (dial addr tip)) addrs.

Definition connect_client (fuel : nat) (to_socket_addrs : string → result Error (list SocketAddr))
    (dial : SocketAddr → Z → result Error P) (params : Network.Params) (names : list string) (disk : D)
  : option (result Error Client) :=
  match load_chain params (read_headers_file disk), load_filter_hashes (read_filter_hashes_file disk) with
  | Err e, _ | _, Err e => Some (Err e)
  | Ok ch, Ok f =>
    match connected dial (default 0 (HeaderChain.tip_height ch))
            (connect_tasks to_socket_addrs (default_port params) names []) with
    | [] => Some (Err (ENoPeers "no peer connected"))
    | peers =>
      '(r, c) ← sync_inner fuel true
        {| cl_params := params; cl_peers := peers; cl_chain := ch; cl_filters := f; cl_disk := disk |};
      Some (match r with Ok _ => Ok c | Err e => Err e end)
    end
  end.

(** *** Queries *)
Definition client_hash_at (c : Client) (height : Z) : option bytes :=
  if height <? 0 then None else hash_at (cl_chain c) (Z.to_nat height).
Definition client_filter_header (c : Client) (height : Z) : option bytes :=
  filter_header_at (cl_filters c) (Z.to_nat height).
Definition client_fetched_bytes (c : Client) : Z * Z :=
  foldl (λ '(f, b) '(_, p), (f + peer_filter_bytes p, b + peer_block_bytes p)) (0, 0) (cl_peers c).

(** The loops over the connections: the first answer wins, the last error is kept. *)
Fixpoint first_answer {A} (ask : io P A) (ps : list (SocketAddr * P)) (last_err : option Error)
  : (A + option Error) * list (SocketAddr * P) :=
  match ps with
  | [] => (inr last_err, [])
  | (address, p) :: ps =>
    match ask p with
    | (Ok a, p) => (inl a, (address, p) :: ps)
    | (Err e, p) => let '(r, ps) := first_answer ask ps (Some e) in (r, (address, p) :: ps)
    end
  end.

Definition ask_filter (f : FilterHeaderChain) (height : Z) (block_hash : bytes) : io P bytes :=
  cfilter ← peer_cfilter (height mod 2 ^ 32) block_hash;
  lift (verify_filter f (Z.to_nat height) (filter_bytes cfilter));;
  mret (filter_bytes cfilter).

(** The cached filter if it verifies, and otherwise the error to remember; a bad
    cache file is removed. *)
Definition cached_filter (height : Z) : Client → (bytes + option Error) * Client := λ c,
  match read_filter_file height (cl_disk c) with
  | Ok (Some data) =>
    match verify_filter (cl_filters c) (Z.to_nat height) data with
    | Ok _ => (inl data, c)
    | Err e => (inr (Some e), set_disk (remove_filter_file height (cl_disk c)) c)
    end
  | Ok None => (inr None, c)
  | Err e => (inr (Some e), c)
  end.

Definition filter_at (height : Z) : io Client bytes := λ c,
  match cached_filter height c with
  | (inl data, c) => (Ok data, c)
  | (inr last_err, c) =>
    match client_hash_at c height with
    | None => (Err (EFilter "no block at height"), c)
    | Some block_hash =>
      match first_answer (ask_filter (cl_filters c) height block_hash) (cl_peers c) last_err with
      | (inl data, ps) => (on_disk (write_filter_file height data);; mret data) (set_peers ps c)
      | (inr last_err, ps) =>
        (Err (default (ENoPeers "no peer supplied filter at height") last_err), set_peers ps c)
      end
    end
  end.

Definition client_filter_matches (height : Z) (item : bytes) : io Client bool :=
  data ← filter_at height;
  c ← get_state;
  block_hash ← lift (ok_or (client_hash_at c height) (EPanic "checked in filter_at"));
  f ← lift (gcs_parse data);
  lift (matches f (filter_key block_hash) item BASIC_FILTER_P BASIC_FILTER_M).

Definition client_fetch_block (block_hash : bytes) : io Client Block := λ c,
  match first_answer (peer_block block_hash) (cl_peers c) None with
  | (inl block, ps) => (Ok block, set_peers ps c)
  | (inr last_err, ps) => (Err (default (EPanic "at least one peer") last_err), set_peers ps c)
  end.

(** The interface of the scans.  Every connected client holds the genesis header;
    [0] stands for the assertion failure of one that does not. *)
#[export] Instance client_chain : ChainClient Client := {|
  client_tip c := default 0 (HeaderChain.tip_height (cl_chain c));
  client_block_hash := client_hash_at;
  fetch_block := client_fetch_block;
  filter_matches := client_filter_matches;
  fetched_bytes := client_fetched_bytes;
|}.

(** *** Verdicts *)
Fixpoint unspent_loop (n : nat) (height : Z) (o : OutPoint) (value : Z) (script : bytes)
    (birth : Z) (creation : option Z) (matched : Z) : io Client OutpointVerdict :=
  match n with
  | O => mret (match creation with
               | Some created => Unspent created (height - 1) matched
               | None => NotFound birth (height - 1)
               end)
  | S n =>
    hit ← client_filter_matches height script;
    if hit : bool then
      c ← get_state;
      block_hash ← lift (ok_or (client_hash_at c height) (EPanic "height is within the verified tip"));
      block ← client_fetch_block block_hash;
      check_merkle block;;
      match inspect_outpoint_block block height o value script creation with
      | (ObsContinue, creation) => unspent_loop n (height + 1) o value script birth creation (matched + 1)
      | (ObsOutputMismatch, _) => mret (OutputMismatch height)
      | (ObsSpendBeforeCreation, _) => mret (NotFound birth height)
      | (ObsSpent created spending_txid, _) => mret (Spent created height spending_txid)
      end
    else unspent_loop n (height + 1) o value script birth creation matched
  end.

Definition verify_outpoint_unspent (o : OutPoint) (value : Z) (script : bytes) (birth max_blocks : Z)
  : io Client OutpointVerdict :=
  lift (ensure (negb (birth =? 0)) (EInvalidInput "outpoint birth height cannot be the mempool sentinel"));;
  tip ← client_tip_height;
  lift (ensure (negb (birth >? tip)) (EInvalidInput "outpoint birth height is above verified tip"));;
  let block_count := tip - birth + 1 in
  lift (ensure (negb ((max_blocks =? 0) || (block_count >? max_blocks)))
    (EInvalidInput "outpoint revalidation window exceeds limit"));;
  unspent_loop (Z.to_nat block_count) birth o value script birth None 0.

(** Step 4 and 5 of [verify_anchor], on the verified block. *)
Definition anchor_verdict (record : bytes) (loc : Location) (claimed : bytes) (required tip : Z)
    (block_hash : bytes) (filter_matched : bool) (block : Block) : result Error AnchorVerdict :=
  let confirmations := tip - height loc + 1 in
  match txs block !! Z.to_nat (loc_position loc) with
  | None => Ok (NotPresent (PositionOutOfRange (loc_position loc) (Z.of_nat (length (txs block)) mod 2 ^ 32)))
  | Some tx =>
    if negb (bool_decide (tx_id tx = claimed)) then Ok (NotPresent (TxidMismatch claimed (tx_id tx)))
    else if negb (existsb (λ o, bool_decide (op_return_payload (script_pubkey o) = Some record)) (outputs tx))
    then Ok (NotPresent RecordNotInTx)
    else
      funding ← ok_or (head (inputs tx)) (EProtocol "anchor transaction has no inputs");
      if is_coinbase tx then Ok (NotPresent RecordNotInTx)
      else
        let ctx := funding_ctx (op_txid (prev funding)) (vout (prev funding)) in
        if confirmations <? required then Ok (InsufficientConfirmations confirmations required)
        else Ok (Confirmed block_hash ctx confirmations filter_matched)
  end.

Definition verify_anchor (anchor : AnchorRecord) (loc : Location) (claimed : bytes) (required : Z)
  : io Client AnchorVerdict :=
  lift (ensure (negb (height loc =? 0)) (EInvalidInput "height 0 is the mempool sentinel / genesis"));;
  tip ← client_tip_height;
  if height loc >? tip then mret (NotPresent (AboveTip (height loc) tip)) else
  c ← get_state;
  block_hash ← lift (ok_or (client_hash_at c (height loc)) (EPanic "height <= tip"));
  let record := record_to_bytes anchor in
  filter_matched ← client_filter_matches (height loc) (anchor_script record);
  block ← client_fetch_block block_hash;
  check_merkle block;;
  lift (anchor_verdict record loc claimed required tip block_hash filter_matched block).
End client.

(** ** Lemmas: programs over the client *)

(** Take a successful program apart step by step. *)
Ltac io_inv :=
  repeat match goal with
  | H : (_ ≫= _) _ = (Ok _, _) |- _ => apply io_bind_Ok in H as (? & ? & ? & H)
  | H : lift (ensure _ _) _ = (Ok _, _) |- _ => apply ensure_lift_Ok in H as [? ->]
  | H : get_state _ = (Ok _, _) |- _ => injection H as <- <-
  | H : modify _ _ = (Ok _, _) |- _ => injection H as <- <-
  | H : lift _ _ = (Ok _, _) |- _ => injection H as H <-
  | H : mret _ _ = (Ok _, _) |- _ => injection H as <- <-
  | H : ok_or _ _ = Ok _ |- _ => apply ok_or_Ok in H
  end.

(** What a client expects of a connection's blocks. *)
Class PeerLaws `{Sha256d} (P : Type) `{!PeerOps P} : Prop := {
  peer_block_authentic : ∀ hash p b p', peer_block hash p = (Ok b, p') →
    header_hash (header b) = hash ∧ Z.of_nat (length (txs b)) ≤ 1000000;
}.

Lemma read_n_length {A} n (r : reader A) : ∀ bs l rest, read_n n r bs = Ok (l, rest) → length l = n.
Proof.
  induction n as [|n IH]; intros bs l rest; cbn [read_n].
  - by intros [<- _]%reader_ret_Ok.
  - intros (x & m & _ & (xs & m' & Hx & [<- _]%reader_ret_Ok)%reader_bind_Ok)%reader_bind_Ok.
    cbn. f_equal. by eapply IH.
Qed.

Lemma block_parse_count bs b : block_parse bs = Ok b → Z.of_nat (length (txs b)) ≤ 1000000.
Proof.
  unfold block_parse. intros E. apply bind_Ok in E as ([hb rest] & _ & E).
  apply bind_Ok in E as (h & _ & E). apply bind_Ok in E as ([ts rest'] & Et & E).
  case_bool_decide; [|done]. injection E as <-. cbn [txs].
  unfold read_vec in Et. apply reader_bind_Ok in Et as (n & m & _ & Et).
  apply reader_bind_Ok in Et as (u & m' & [Hn _]%guard_Ok & Et).
  apply read_n_length in Et. bool_props. lia.
Qed.

#[export] Instance peer_laws `{Sha256d} : PeerLaws Peer.
Proof.
  split. intros hash p b p'. unfold peer_block, peer_ops, get_block. generalize [MSG_WITNESS_BLOCK; MSG_BLOCK].
  intros types. revert p. induction types as [|ty types IH]; intros p; cbn [get_block_loop]; [done|].
  intros E. apply io_bind_Ok in E as (m & p1 & _ & E). case_bool_decide; [|by eapply IH].
  io_inv. case_bool_decide; [|done]. injection E as <- <-. split; [done|].
  by eapply block_parse_count.
Qed.

Section client_lemmas.
Context `{Sha256d, Sha256} {P D : Type} `{!PeerOps P, !CacheDir D}.
Abbreviation Client := (CbfClient P D).

Lemma first_answer_inl {A} (ask : io P A) ps last a ps' : first_answer ask ps last = (inl a, ps') →
  ∃ addr p p', (addr, p) ∈ ps ∧ ask p = (Ok a, p').
Proof.
  revert last ps'; induction ps as [|[addr p] ps IH]; intros last ps'; cbn [first_answer]; [done|].
  destruct (ask p) as [[x|e] p1] eqn:E.
  - intros [= <- _]. exists addr, p, p1. split; [left|done].
  - destruct (first_answer ask ps (Some e)) as [r qs] eqn:Er. intros [= -> _].
    destruct (IH _ _ Er) as (a' & q & q' & Hq & Hask). exists a', q, q'. split; [by right|done].
Qed.

Lemma first_answer_exists {A} (ask : io P A) ps last addr p a p' :
  (addr, p) ∈ ps → ask p = (Ok a, p') → ∃ x ps', first_answer ask ps last = (inl x, ps').
Proof.
  intros Hin Hask. revert last; induction ps as [|[addr' q] ps IH]; intros last; [by apply elem_of_nil in Hin|].
  cbn [first_answer]. destruct (ask q) as [[x|e] q1] eqn:E; [eauto|].
  apply elem_of_cons in Hin as [[= <- <-]|Hin]; [congruence|].
  destruct (IH Hin (Some e)) as (x & ps' & ->). eauto.
Qed.

(** The programs that only talk to peers and to the cache leave the chains alone. *)
Definition chains_are (ch : HeaderChain) (f : FilterHeaderChain) (c : Client) : Prop :=
  cl_chain c = ch ∧ cl_filters c = f.

Lemma on_disk_chains {A} ch f (m : io D A) : preserves (chains_are ch f) (on_disk m).
Proof. intros c Hc. unfold on_disk. by destruct (m (cl_disk c)). Qed.

Lemma filter_at_chains ch f h : preserves (chains_are ch f) (filter_at h).
Proof.
  intros c Hc. unfold filter_at.
  assert (Hcf : chains_are ch f (cached_filter h c).2).
  { unfold cached_filter. destruct (read_filter_file h (cl_disk c)) as [[data|]|]; try done.
    by destruct (verify_filter _ _ data). }
  destruct (cached_filter h c) as [[data|e] c1]; cbn [snd] in Hcf; [done|].
  destruct (client_hash_at c1 h) as [bh|]; [|done].
  destruct (first_answer _ (cl_peers c1) e) as [[data|e'] ps]; [|done].
  apply preserves_bind; [apply on_disk_chains|intros; apply preserves_ret|exact Hcf].
Qed.

Lemma client_fetch_chains ch f hash : preserves (chains_are ch f) (client_fetch_block hash).
Proof. intros c Hc. unfold client_fetch_block. by destruct (first_answer _ _ _) as [[]]. Qed.

Lemma client_matches_chains ch f h item : preserves (chains_are ch f) (client_filter_matches h item).
Proof.
  unfold client_filter_matches. apply preserves_bind; [apply filter_at_chains|intros].
  repeat (apply preserves_bind; [first [apply preserves_get|apply preserves_lift]|intros]).
  apply preserves_lift.
Qed.

Lemma chains_view {A} (m : io Client A) s r s' : (∀ ch f, preserves (chains_are ch f) m) →
  m s = (r, s') → client_tip s' = client_tip s ∧ ∀ h, client_block_hash s' h = client_block_hash s h.
Proof.
  intros Hm E. destruct (Hm (cl_chain s) (cl_filters s) s) as [Hc _]; [done|]. rewrite E in Hc.
  cbn [snd] in Hc. cbn [client_tip client_block_hash client_chain]. unfold client_hash_at. by rewrite Hc.
Qed.

#[export] Instance client_laws `{!PeerLaws P} : ChainClientLaws Client.
Proof.
  split.
  - intros hash s b s'. cbn [fetch_block client_chain]. unfold client_fetch_block.
    destruct (first_answer _ _ _) as [[x|e] ps] eqn:E; [|done]. intros [= <- _].
    apply first_answer_inl in E as (? & p & p' & _ & Hp). by apply peer_block_authentic in Hp.
  - intros hash s r s'. apply chains_view. intros. apply client_fetch_chains.
  - intros h spk s r s'. apply chains_view. intros. apply client_matches_chains.
Qed.
End client_lemmas.

Section verdict_lemmas.
Context `{Sha256d, Sha256} {P D : Type} `{!PeerOps P, !CacheDir D, !PeerLaws P}.
Abbreviation Client := (CbfClient P D).

Lemma client_tip_Ok (s : Client) tip s' : client_tip_height s = (Ok tip, s') →
  s' = s ∧ client_tip s = tip.
Proof.
  unfold client_tip_height. intros E. io_inv. split; [done|].
  cbn [client_tip client_chain]. by rewrite E.
Qed.

(** Fetching the block at a height and checking its merkle root. *)
Lemma fetch_checked (s s0 : Client) h hash b s1 u s2 : same_view s s0 →
  client_hash_at s h = Some hash → client_fetch_block hash s0 = (Ok b, s1) →
  check_merkle b s1 = (Ok u, s2) → authentic s h b ∧ same_view s s2 ∧ hash = header_hash (header b).
Proof.
  intros Hv Hh Ef [Hm ->]%check_merkle_Ok.
  pose proof (fetch_keeps_view (ChainClientLaws := client_laws) hash s0 _ s1 Ef) as Hv1.
  destruct (fetch_authentic (ChainClientLaws := client_laws) hash s0 b s1 Ef) as [<- HL].
  split; [done|]. split; [|done]. eapply same_view_trans; [exact Hv|exact Hv1].
Qed.

Lemma matches_view h item (s : Client) r s' : client_filter_matches h item s = (r, s') → same_view s s'.
Proof. exact (filter_keeps_view (ChainClientLaws := client_laws) h item s r s'). Qed.

(** The conditions under which a verified block carries the claimed anchor. *)
Definition carries_record (tx : Transaction) (record : bytes) : Prop :=
  ∃ o, o ∈ outputs tx ∧ op_return_payload (script_pubkey o) = Some record.

Definition anchored (b : Block) (loc : Location) (claimed record : bytes) (tx : Transaction) : Prop :=
  txs b !! Z.to_nat (loc_position loc) = Some tx ∧ tx_id tx = claimed ∧
  carries_record tx record ∧ is_coinbase tx = false.

Lemma existsb_carries tx record :
  existsb (λ o, bool_decide (op_return_payload (script_pubkey o) = Some record)) (outputs tx) = true ↔
  carries_record tx record.
Proof.
  rewrite existsb_exists. unfold carries_record. setoid_rewrite list_elem_of_In.
  setoid_rewrite bool_decide_eq_true. done.
Qed.

(** What each verdict says about a block of the validated chain. *)
Definition verdict_holds (s : Client) (loc : Location) (claimed record : bytes) (required : Z)
    (v : AnchorVerdict) : Prop :=
  let tip := client_tip s in
  let have := tip - height loc + 1 in
  match v with
  | NotPresent (AboveTip h t) => h = height loc ∧ t = tip ∧ tip < h
  | Confirmed hash ctx n _ => ∃ b tx funding, authentic s (height loc) b ∧
      hash = header_hash (header b) ∧ anchored b loc claimed record tx ∧
      head (inputs tx) = Some funding ∧
      ctx = funding_ctx (op_txid (prev funding)) (vout (prev funding)) ∧ n = have ∧ required ≤ have
  | InsufficientConfirmations n r => ∃ b tx, authentic s (height loc) b ∧
      anchored b loc claimed record tx ∧ n = have ∧ r = required ∧ have < required
  | NotPresent (PositionOutOfRange p n) => ∃ b, authentic s (height loc) b ∧ p = loc_position loc ∧
      n = Z.of_nat (length (txs b)) ∧ (length (txs b) ≤ Z.to_nat p)%nat
  | NotPresent (TxidMismatch c a) => ∃ b tx, authentic s (height loc) b ∧
      txs b !! Z.to_nat (loc_position loc) = Some tx ∧ c = claimed ∧ a = tx_id tx ∧ a ≠ claimed
  | NotPresent RecordNotInTx => ∃ b tx, authentic s (height loc) b ∧
      txs b !! Z.to_nat (loc_position loc) = Some tx ∧ tx_id tx = claimed ∧
      (¬ carries_record tx record ∨ is_coinbase tx = true)
  end.

Lemma anchor_verdict_holds s loc claimed record required hash fm b v :
  authentic s (height loc) b → hash = header_hash (header b) →
  anchor_verdict record loc claimed required (client_tip s) hash fm b = Ok v →
  verdict_holds s loc claimed record required v.
Proof.
  intros Hb Hh. unfold anchor_verdict.
  destruct (txs b !! Z.to_nat (loc_position loc)) as [tx|] eqn:Et.
  2:{ intros [= <-]. exists b. split; [done|]. split; [done|]. pose proof Hb as (_ & _ & HL).
      split; [apply Z.mod_small; lia|by apply lookup_ge_None]. }
  destruct (bool_decide (tx_id tx = claimed)) eqn:Ei; cbn [negb].
  2:{ intros [= <-]. apply bool_decide_eq_false in Ei. by exists b, tx. }
  apply bool_decide_eq_true in Ei.
  destruct (existsb _ (outputs tx)) eqn:Ec; cbn [negb].
  2:{ intros [= <-]. exists b, tx. split_and!; [done..|]. left. rewrite <- existsb_carries. by rewrite Ec. }
  apply existsb_carries in Ec. intros E. apply bind_Ok in E as (funding & Ef%ok_or_Ok & E).
  destruct (is_coinbase tx) eqn:Ecb.
  { injection E as <-. exists b, tx. by split_and!; [..|right]. }
  destruct (_ <? required) eqn:El; injection E as <-; bool_props.
  - by exists b, tx.
  - by exists b, tx, funding.
Qed.

Lemma verify_anchor_holds anchor loc claimed required (s : Client) v s' :
  verify_anchor anchor loc claimed required s = (Ok v, s') →
  same_view s s' ∧ height loc ≠ 0 ∧ verdict_holds s loc claimed (record_to_bytes anchor) required v.
Proof.
  unfold verify_anchor. intros E. apply io_bind_Ok in E as (u & s0 & [H0' ->]%ensure_lift_Ok & E).
  bool_props. apply io_bind_Ok in E as (tip & s1 & [-> <-]%client_tip_Ok & E).
  destruct (height loc >? client_tip s) eqn:Eh.
  { io_inv. split; [done|]. split; [done|]. cbv beta iota zeta delta [verdict_holds].
    split_and!; [done..|]. by apply Z.gtb_lt in Eh. }
  apply io_bind_Ok in E as (c & s2 & Eg & E). injection Eg as <- <-.
  apply io_bind_Ok in E as (hash & s2 & Eb & E). injection Eb as Eb <-. apply ok_or_Ok in Eb.
  apply io_bind_Ok in E as (fm & s3 & Em%matches_view & E).
  apply io_bind_Ok in E as (b & s4 & Ef & E). apply io_bind_Ok in E as (w & s5 & Ec & E).
  destruct (fetch_checked s s3 _ _ _ _ _ _ Em Eb Ef Ec) as (Hb & Hv & Hh).
  injection E as E <-. split; [exact Hv|]. split; [done|]. by eapply anchor_verdict_holds.
Qed.
End verdict_lemmas.

(** ** Lemmas: filters and outputs *)
Section outpoint_lemmas.
Context `{Sha256d, Sha256} {P D : Type} `{!PeerOps P, !CacheDir D, !PeerLaws P}.
Abbreviation Client := (CbfClient P D).

Lemma filter_at_verified h (s : Client) data s' : filter_at h s = (Ok data, s') →
  verify_filter (cl_filters s) (Z.to_nat h) data = Ok tt.
Proof.
  unfold filter_at. intros E.
  assert (Hc : cl_filters (cached_filter h s).2 = cl_filters s ∧ ∀ x, (cached_filter h s).1 = inl x →
    verify_filter (cl_filters s) (Z.to_nat h) x = Ok tt).
  { unfold cached_filter. destruct (read_filter_file h (cl_disk s)) as [[x|]|]; try done.
    destruct (verify_filter (cl_filters s) (Z.to_nat h) x) as [[]|] eqn:Ev; [|done].
    split; [done|]. by intros ? [= <-]. }
  destruct (cached_filter h s) as [[x|e] s1]; cbn [fst snd] in Hc; destruct Hc as [Hf Hx].
  { injection E as <- _. by apply Hx. }
  destruct (client_hash_at s1 h) as [bh|]; [|done].
  destruct (first_answer _ (cl_peers s1) e) as [[x|e'] ps] eqn:Ea; [|done].
  apply io_bind_Ok in E as (u & s2 & _ & E). injection E as <- _.
  apply first_answer_inl in Ea as (addr & p & p' & _ & Ep). rewrite Hf in Ep. unfold ask_filter in Ep.
  apply io_bind_Ok in Ep as (cf & p1 & _ & Ep). apply io_bind_Ok in Ep as ([] & p2 & Ev & Ep).
  injection Ev as Ev <-. by injection Ep as <- _.
Qed.

(** The committed filter at a height excludes a script. *)
Definition filter_excludes (s : Client) (h : Z) (script : bytes) : Prop :=
  ∃ data f hash, verify_filter (cl_filters s) (Z.to_nat h) data = Ok tt ∧
    client_hash_at s h = Some hash ∧ gcs_parse data = Ok f ∧
    matches f (filter_key hash) script BASIC_FILTER_P BASIC_FILTER_M = Ok false.

Definition spends (tx : Transaction) (o : OutPoint) : Prop := ∃ i, i ∈ inputs tx ∧ prev i = o.

Lemma existsb_spends tx o :
  existsb (λ input, bool_decide (prev input = o)) (inputs tx) = true ↔ spends tx o.
Proof.
  rewrite existsb_exists. unfold spends. setoid_rewrite list_elem_of_In.
  setoid_rewrite bool_decide_eq_true. done.
Qed.

Definition creates (tx : Transaction) (o : OutPoint) (value : Z) (script : bytes) : Prop :=
  tx_id tx = op_txid o ∧ expected_output (outputs tx) o value script = true.

Definition observed (ts : list Transaction) (h : Z) (o : OutPoint) (value : Z) (script : bytes)
    (creation : option Z) (r : OutpointBlockObservation * option Z) : Prop :=
  match r with
  | (ObsContinue, creation') => (∀ tx, tx ∈ ts → ¬ spends tx o) ∧
      (creation' = creation ∧ (∀ tx, tx ∈ ts → tx_id tx ≠ op_txid o) ∨
       creation' = Some h ∧ ∃ tx, tx ∈ ts ∧ creates tx o value script)
  | (ObsSpent created txid, _) => (∃ tx, tx ∈ ts ∧ spends tx o ∧ txid = tx_id tx) ∧
      (creation = Some created ∨ created = h ∧ ∃ tx, tx ∈ ts ∧ creates tx o value script)
  | (ObsOutputMismatch, _) => ∃ tx, tx ∈ ts ∧ tx_id tx = op_txid o ∧
      expected_output (outputs tx) o value script = false
  | (ObsSpendBeforeCreation, _) => creation = None ∧ ∃ tx, tx ∈ ts ∧ spends tx o
  end.

Lemma inspect_observed ts h o value script : ∀ creation,
  observed ts h o value script creation (inspect_txs ts h o value script creation).
Proof.
  induction ts as [|tx ts IH]; intros creation; cbn [inspect_txs].
  { split; [|left; split; [done|]]; intros tx Htx; by apply elem_of_nil in Htx. }
  assert (Hhere : tx ∈ tx :: ts) by left.
  assert (Hthere : ∀ y, y ∈ ts → y ∈ tx :: ts) by (intros; by right).
  destruct (bool_decide (tx_id tx = op_txid o)) eqn:Ei; cbn [andb].
  - apply bool_decide_eq_true in Ei. destruct (expected_output _ o value script) eqn:Ee; cbn [negb].
    2:{ by exists tx. }
    assert (Hcr : creates tx o value script) by done.
    destruct (existsb _ (inputs tx)) eqn:Es.
    + apply existsb_spends in Es. split; eauto 7.
    + specialize (IH (Some h)). destruct (inspect_txs ts h o value script (Some h)) as [[|c id| |] cr].
      * destruct IH as [Hs Hc]. split.
        { intros y [->|Hy]%elem_of_cons; [|by apply Hs]. rewrite <- existsb_spends. by rewrite Es. }
        destruct Hc as [[-> _]|[-> (y & Hy & Hyc)]]; right; eauto 7.
      * destruct IH as [(y & Hy & Hsp & ->) Hc]. split; [eauto 7|]. right.
        destruct Hc as [[= <-]|[-> _]]; eauto 7.
      * destruct IH as (y & Hy & ?). exists y. by auto.
      * by destruct IH.
  - apply bool_decide_eq_false in Ei. destruct (existsb _ (inputs tx)) eqn:Es.
    + apply existsb_spends in Es. destruct creation; [split; eauto 7|]. split; eauto.
    + specialize (IH creation). destruct (inspect_txs ts h o value script creation) as [[|c id| |] cr].
      * destruct IH as [Hs Hc]. split.
        { intros y [->|Hy]%elem_of_cons; [|by apply Hs]. rewrite <- existsb_spends. by rewrite Es. }
        destruct Hc as [[-> Hn]|[-> (y & Hy & Hyc)]]; [left|right; eauto 7].
        split; [done|]. intros y [->|Hy]%elem_of_cons; [done|by apply Hn].
      * destruct IH as [(y & Hy & Hsp & ->) Hc]. split; [eauto 7|].
        destruct Hc as [->|[-> (z & Hz & Hzc)]]; [by left|right; eauto 7].
      * destruct IH as (y & Hy & ?). exists y. by auto.
      * destruct IH as [-> (y & Hy & ?)]. split; eauto.
Qed.

(** No transaction at a height spends the output, as far as the committed
    filters and the blocks they point to show. *)
Definition clear_at (s : Client) (o : OutPoint) (script : bytes) (h : Z) : Prop :=
  filter_excludes s h script ∨ ∃ b, authentic s h b ∧ ∀ tx, tx ∈ txs b → ¬ spends tx o.

Definition absent_at (s : Client) (o : OutPoint) (script : bytes) (h : Z) : Prop :=
  filter_excludes s h script ∨ ∃ b, authentic s h b ∧ ∀ tx, tx ∈ txs b → tx_id tx ≠ op_txid o.

Definition created_at (s : Client) (o : OutPoint) (value : Z) (script : bytes) (h : Z) : Prop :=
  ∃ b tx, authentic s h b ∧ tx ∈ txs b ∧ creates tx o value script.

Definition progress (s : Client) o value script birth (creation : option Z) (h : Z) : Prop :=
  (∀ k, birth ≤ k < h → clear_at s o script k) ∧
  match creation with
  | None => ∀ k, birth ≤ k < h → absent_at s o script k
  | Some created => birth ≤ created < h ∧ created_at s o value script created
  end.

(** What each verdict says about the blocks of the validated chain. *)
Definition outpoint_verdict_holds (s : Client) o value script birth (v : OutpointVerdict) : Prop :=
  match v with
  | Unspent created through _ => through = client_tip s ∧ birth ≤ created ≤ through ∧
      created_at s o value script created ∧ ∀ h, birth ≤ h ≤ through → clear_at s o script h
  | Spent created spend txid => birth ≤ created ≤ spend ∧ spend ≤ client_tip s ∧
      created_at s o value script created ∧
      ∃ b tx, authentic s spend b ∧ tx ∈ txs b ∧ spends tx o ∧ txid = tx_id tx
  | NotFound from through => from = birth ∧ (∀ h, birth ≤ h < through → absent_at s o script h) ∧
      (through = client_tip s ∧ (∀ h, birth ≤ h ≤ through → absent_at s o script h) ∨
       ∃ b tx, authentic s through b ∧ tx ∈ txs b ∧ spends tx o)
  | OutputMismatch h => birth ≤ h ≤ client_tip s ∧ ∃ b tx, authentic s h b ∧ tx ∈ txs b ∧
      tx_id tx = op_txid o ∧ expected_output (outputs tx) o value script = false
  end.

Lemma chains_frame {A} (m : io Client A) (s s0 : Client) r s1 :
  (∀ ch f, preserves (chains_are ch f) m) → chains_are (cl_chain s) (cl_filters s) s0 →
  m s0 = (r, s1) → chains_are (cl_chain s) (cl_filters s) s1.
Proof. intros Hm Hs E. specialize (Hm _ _ _ Hs). by rewrite E in Hm. Qed.

Lemma frame_view (s s0 : Client) : chains_are (cl_chain s) (cl_filters s) s0 → same_view s s0.
Proof.
  intros [Hc _]. unfold same_view. cbn [client_tip client_block_hash client_chain].
  unfold client_hash_at. by rewrite Hc.
Qed.

Lemma frame_hash (s s0 : Client) h : chains_are (cl_chain s) (cl_filters s) s0 →
  client_hash_at s0 h = client_hash_at s h.
Proof. intros [Hc _]. unfold client_hash_at. by rewrite Hc. Qed.

Lemma matches_false (s s0 : Client) h script s1 : chains_are (cl_chain s) (cl_filters s) s0 →
  client_filter_matches h script s0 = (Ok false, s1) → filter_excludes s h script.
Proof.
  intros Hf E. unfold client_filter_matches in E.
  apply io_bind_Ok in E as (data & s2 & Ea & E).
  assert (Hf2 : chains_are (cl_chain s) (cl_filters s) s2)
    by (eapply chains_frame, Ea; [intros; apply filter_at_chains|done]).
  apply filter_at_verified in Ea. apply io_bind_Ok in E as (c & s3 & Eg & E). injection Eg as <- <-.
  apply io_bind_Ok in E as (hash & s4 & Eh & E). injection Eh as Eh <-. apply ok_or_Ok in Eh.
  apply io_bind_Ok in E as (f & s5 & Ep & E). injection Ep as Ep <-. injection E as E _.
  exists data, f, hash. rewrite (frame_hash s s2) in Eh by done.
  destruct Hf as [_ Hf]. by rewrite Hf in Ea.
Qed.

Lemma unspent_loop_holds n o value script birth : ∀ h creation matched (s s0 : Client) v s',
  chains_are (cl_chain s) (cl_filters s) s0 → birth ≤ h → h + Z.of_nat n = client_tip s + 1 →
  progress s o value script birth creation h →
  unspent_loop n h o value script birth creation matched s0 = (Ok v, s') →
  outpoint_verdict_holds s o value script birth v.
Proof.
  induction n as [|n IH]; intros h creation matched s s0 v s' Hf Hbh Hn Hp E.
  { assert (Hh : h - 1 = client_tip s) by lia. destruct Hp as [Hc Hp].
    destruct creation as [created|]; injection E as <- _; cbv beta iota delta [outpoint_verdict_holds].
    - destruct Hp. split_and!; [done|lia|lia|done|]. intros k Hk. apply Hc. lia.
    - split; [done|]. split; [intros k Hk; apply Hp; lia|]. left. split; [done|].
      intros k Hk. apply Hp. lia. }
  apply io_bind_Ok in E as (hit & s1 & Em & E).
  assert (Hf1 : chains_are (cl_chain s) (cl_filters s) s1)
    by (eapply chains_frame, Em; [intros; apply client_matches_chains|done]).
  destruct Hp as [Hc Hp]. destruct hit.
  2:{ apply (matches_false s) in Em; [|done]. apply (IH _ _ _ s) in E; [done|done|lia|lia|]. split.
      - intros k Hk. destruct (decide (k = h)) as [->|]; [by left|apply Hc; lia].
      - destruct creation; [destruct Hp; split; [lia|done]|].
        intros k Hk. destruct (decide (k = h)) as [->|]; [by left|apply Hp; lia]. }
  apply io_bind_Ok in E as (c & s2 & Eg & E). injection Eg as <- <-.
  apply io_bind_Ok in E as (hash & s2 & Eh & E). injection Eh as Eh <-. apply ok_or_Ok in Eh.
  rewrite (frame_hash s) in Eh by done.
  apply io_bind_Ok in E as (b & s3 & Ef & E). apply io_bind_Ok in E as (u & s4 & Ek & E).
  assert (Hf3 : chains_are (cl_chain s) (cl_filters s) s3)
    by (eapply chains_frame, Ef; [intros; apply client_fetch_chains|done]).
  destruct (fetch_checked s s1 h hash b s3 u s4) as (Hb & _ & _); [by apply frame_view|done..|].
  apply check_merkle_Ok in Ek as [_ ->].
  pose proof (inspect_observed (txs b) h o value script creation) as Ho.
  unfold inspect_outpoint_block in E.
  destruct (inspect_txs (txs b) h o value script creation) as [[|cr id| |] creation'];
    [|injection E as <- _..]; cbv beta iota delta [observed outpoint_verdict_holds] in *.
  - destruct Ho as [Hs Ho]. apply (IH _ _ _ s) in E; [done|done|lia|lia|]. split.
    + intros k Hk. destruct (decide (k = h)) as [->|]; [right; by exists b|apply Hc; lia].
    + destruct Ho as [[-> Hid]|[-> (tx & Htx & Hcr)]].
      * destruct creation; [destruct Hp; split; [lia|done]|].
        intros k Hk. destruct (decide (k = h)) as [->|]; [right; by exists b|apply Hp; lia].
      * split; [lia|]. by exists b, tx.
  - destruct Ho as [(tx & Htx & Hsp & ->) Ho].
    assert (Hcr : birth ≤ cr ≤ h ∧ created_at s o value script cr).
    { destruct Ho as [->|[-> (y & Hy & Hyc)]]; [destruct Hp; split; [lia|done]|].
      split; [lia|]. by exists b, y. }
    destruct Hcr. split_and!; [lia|lia|lia|done|]. by exists b, tx.
  - split; [lia|]. destruct Ho as (tx & ? & ? & ?). by exists b, tx.
  - destruct Ho as [-> (tx & Htx & Hsp)]. split; [done|]. split; [done|]. right. by exists b, tx.
Qed.

Lemma unspent_loop_chains ch f n o value script birth : ∀ h creation matched,
  preserves (chains_are ch f) (unspent_loop n h o value script birth creation matched).
Proof.
  induction n as [|n IH]; intros h creation matched; cbn [unspent_loop]; [apply preserves_ret|].
  apply preserves_bind; [apply client_matches_chains|intros [|]; [|apply IH]].
  apply preserves_bind; [apply preserves_get|intros c].
  apply preserves_bind; [apply preserves_lift|intros hash].
  apply preserves_bind; [apply client_fetch_chains|intros b].
  apply preserves_bind; [|intros u].
  { apply preserves_bind; [|intros]; apply preserves_lift. }
  destruct (inspect_outpoint_block b h o value script creation) as [[] ?]; [apply IH|apply preserves_ret..].
Qed.

Lemma verify_outpoint_chains ch f o value script birth max_blocks :
  preserves (chains_are ch f) (verify_outpoint_unspent o value script birth max_blocks).
Proof.
  unfold verify_outpoint_unspent. apply preserves_bind; [apply preserves_lift|intros _].
  apply preserves_bind; [|intros tip].
  { unfold client_tip_height. apply preserves_bind; [apply preserves_get|intros; apply preserves_lift]. }
  repeat (apply preserves_bind; [apply preserves_lift|intros _]). apply unspent_loop_chains.
Qed.

(** The verdict of a query in any state that has the chains of [s]. *)
Lemma verify_outpoint_at o value script birth max_blocks (s s0 : Client) v s' :
  chains_are (cl_chain s) (cl_filters s) s0 →
  verify_outpoint_unspent o value script birth max_blocks s0 = (Ok v, s') →
  (birth ≠ 0 ∧ birth ≤ client_tip s ∧ client_tip s - birth + 1 ≤ max_blocks) ∧
  outpoint_verdict_holds s o value script birth v.
Proof.
  intros Hs. pose proof (proj1 (frame_view s s0 Hs)) as Ht. unfold verify_outpoint_unspent. intros E.
  apply io_bind_Ok in E as (u & s1 & [H1 ->]%ensure_lift_Ok & E).
  apply io_bind_Ok in E as (tip & s2 & [-> <-]%client_tip_Ok & E).
  apply io_bind_Ok in E as (u2 & s2 & [H2 ->]%ensure_lift_Ok & E).
  apply io_bind_Ok in E as (u3 & s2 & [H3 ->]%ensure_lift_Ok & E). rewrite Ht in *.
  apply negb_true_iff, Z.eqb_neq in H1. rewrite negb_true_iff, Z.gtb_ltb, Z.ltb_ge in H2.
  rewrite negb_true_iff, orb_false_iff, Z.gtb_ltb, Z.ltb_ge in H3. destruct H3 as [_ H3].
  split; [split_and!; lia|]. refine (unspent_loop_holds _ _ _ _ _ _ _ _ s s0 _ _ _ _ _ _ E); [done|lia|lia|].
  split; intros k Hk; lia.
Qed.

Lemma verify_outpoint_holds o value script birth max_blocks (s : Client) v s' :
  verify_outpoint_unspent o value script birth max_blocks s = (Ok v, s') →
  (birth ≠ 0 ∧ birth ≤ client_tip s ∧ client_tip s - birth + 1 ≤ max_blocks) ∧
  outpoint_verdict_holds s o value script birth v.
Proof. by apply verify_outpoint_at. Qed.
End outpoint_lemmas.

(** ** Lemmas: one kind of peer among others

    [sim φ m m']: the program [m] on the image of a state does what [m'] does on
    the state itself. *)
Definition sim {S P A} (φ : S → P) (m : io P A) (m' : io S A) : Prop :=
  ∀ s, m (φ s) = ((m' s).1, φ (m' s).2).

Lemma sim_ret {S P A} (φ : S → P) (a : A) : sim φ (mret a) (mret a).
Proof. by intros s. Qed.
Lemma sim_lift {S P A} (φ : S → P) (r : result Error A) : sim φ (lift r) (lift r).
Proof. by intros s. Qed.
Lemma sim_bind_at {S P A B} (φ : S → P) (m : io P A) m' (f : A → io P B) f' s :
  m (φ s) = ((m' s).1, φ (m' s).2) → (∀ a, sim φ (f a) (f' a)) →
  (m ≫= f) (φ s) = (((m' ≫= f') s).1, φ ((m' ≫= f') s).2).
Proof.
  intros Hm Hf. unfold mbind, io_bind. rewrite Hm. destruct (m' s) as [[a|e] s']; [apply Hf|done].
Qed.
Lemma sim_bind {S P A B} (φ : S → P) (m : io P A) m' (f : A → io P B) f' :
  sim φ m m' → (∀ a, sim φ (f a) (f' a)) → sim φ (m ≫= f) (m' ≫= f').
Proof. intros Hm Hf s. by apply sim_bind_at. Qed.
#[export] Hint Resolve sim_ret sim_lift sim_bind : csv.

Lemma io_get_bind {S B} (f : S → io S B) s : (get_state ≫= f) s = f s s.
Proof. done. Qed.

(** A peer type that answers header and filter-header requests as another does. *)
Class Embeds {S P : Type} `{!HeaderSource S, !HeaderSource P} (φ : S → P) : Prop := {
  embed_headers : ∀ loc stop, sim φ (get_headers loc stop) (get_headers loc stop);
  embed_cfheaders : ∀ start stop, sim φ (get_cfheaders start stop) (get_cfheaders start stop);
}.

Section embed.
Context `{Sha256d} {S P : Type} `{!HeaderSource S, !HeaderSource P} (φ : S → P) `{!Embeds φ}.

Definition on_both (st : HeaderChain * S) : HeaderChain * P := (st.1, φ st.2).

Lemma on_chain_sim {A} (m : io HeaderChain A) : sim on_both (on_chain m) (on_chain m).
Proof. intros [c s]. unfold on_chain, on_both. cbn. by destruct (m c). Qed.
Lemma on_peer_sim {A} (m : io P A) m' : sim φ m m' → sim on_both (on_peer m) (on_peer m').
Proof. intros Hm [c s]. unfold on_peer, on_both. cbn. rewrite Hm. by destruct (m' s). Qed.

Lemma bootstrap_sim : sim on_both bootstrap bootstrap.
Proof.
  intros [c s]. unfold bootstrap. rewrite !io_get_bind. cbn [on_both fst snd].
  case_bool_decide; [|done].
  refine (sim_bind on_both _ _ _ _ _ _ (c, s)); [apply on_peer_sim, embed_headers|].
  intros [|h [|]]; auto with csv.
  apply sim_bind; [apply on_chain_sim|auto with csv].
Qed.

Lemma sync_round_sim : sim on_both sync_round sync_round.
Proof.
  intros [c s]. unfold sync_round. rewrite !io_get_bind. cbn [on_both fst snd].
  refine (sim_bind on_both _ _ _ _ _ _ (c, s)); [apply on_peer_sim, embed_headers|].
  intros [|h hs]; auto with csv.
  apply sim_bind; [apply on_chain_sim|auto with csv].
Qed.

Lemma sync_embed fuel c s :
  sync fuel (c, φ s) = (λ '(r, st), (r, on_both st)) <$> sync fuel (c, s).
Proof.
  unfold sync. rewrite (bootstrap_sim (c, s) : bootstrap (c, φ s) = _).
  destruct (bootstrap (c, s)) as [[n|e] st]; [cbn [fst snd]|done]. revert n st.
  induction fuel as [|fuel IH]; intros n st; cbn [sync_loop]; [done|].
  rewrite (sync_round_sim st). destruct (sync_round st) as [[[k|]|e] st']; [apply IH|done..].
Qed.

Lemma fetch_pages_sim fuel c stop : ∀ start prev out,
  sim φ (fetch_pages fuel c stop start prev out) (fetch_pages fuel c stop start prev out).
Proof.
  induction fuel as [|fuel IH]; intros start prev out; cbn [fetch_pages]; [apply sim_ret|].
  case_bool_decide; [|apply sim_ret]. apply sim_bind; [apply sim_lift|intros h].
  apply sim_bind; [apply embed_cfheaders|intros r].
  apply sim_bind; [apply sim_lift|intros _]. apply sim_bind; [apply sim_lift|intros _]. apply IH.
Qed.

Lemma fetch_range_sim f c stop : sim φ (fetch_range f c stop) (fetch_range f c stop).
Proof. apply sim_bind; [apply sim_lift|intros; apply fetch_pages_sim]. Qed.

Lemma reattest_sim f c n : sim φ (reattest_tail f c n) (reattest_tail f c n).
Proof.
  unfold reattest_tail. repeat case_bool_decide; auto with csv.
  apply sim_bind; [apply fetch_range_sim|intros; apply sim_lift].
Qed.
End embed.

(** ** Lemmas: synchronisation *)
Section sync_lemmas.
Context `{Sha256d, Sha256} {P D : Type} `{!PeerOps P, !CacheDir D}.
Abbreviation Client := (CbfClient P D).

Lemma header_tasks_spec fuel base ps : ∀ out, header_tasks fuel base ps = Some out →
  (∀ addr p, (addr, p) ∈ ps → ∃ r cand p', sync fuel (base, p) = Some (r, (cand, p')) ∧
     (is_ok r = true → ((addr, p'), cand) ∈ out)) ∧
  (∀ addr p' cand, ((addr, p'), cand) ∈ out → ∃ p n, (addr, p) ∈ ps ∧
     sync fuel (base, p) = Some (Ok n, (cand, p'))).
Proof.
  induction ps as [|[addr p] ps IH]; intros out; cbn [header_tasks].
  { intros [= <-]. split; intros *; by intros ?%elem_of_nil. }
  intros E. apply bind_Some in E as ([r [cand p']] & Es & E).
  apply bind_Some in E as (rest & Er & E). injection E as <-.
  destruct (IH rest Er) as [H1 H2]. split.
  - intros a q [[= -> ->]|Hq]%elem_of_cons.
    + exists r, cand, p'. split; [done|]. destruct r; [left|done].
    + destruct (H1 a q Hq) as (r' & cand' & q' & Es' & Hok). exists r', cand', q'. split; [done|].
      intros Hr. destruct r; [right|]; by apply Hok.
  - intros a q cand' Hq. destruct r as [n|e].
    + apply elem_of_cons in Hq as [[= -> -> ->]|Hq].
      * exists p, n. split; [left|done].
      * destruct (H2 _ _ _ Hq) as (q0 & k & ? & ?). exists q0, k. split; [by right|done].
    + destruct (H2 _ _ _ Hq) as (q0 & k & ? & ?). exists q0, k. split; [by right|done].
Qed.

Lemma collect_spec (tasks : list ((SocketAddr * P) * result Error (list bytes))) : ∀ reference out kept, collect_filters tasks reference = Ok (out, kept) →
  (∀ x, reference = Some x → out = Some x) ∧ (∀ peer x, (peer, Ok x) ∈ tasks → out = Some x) ∧
  (∀ x, out = Some x → reference = Some x ∨ ∃ peer, (peer, Ok x) ∈ tasks) ∧
  (∀ peer, peer ∈ kept → ∃ x, (peer, Ok x) ∈ tasks).
Proof.
  induction tasks as [|[peer [fetched|e]] tasks IH]; intros reference out kept; cbn [collect_filters].
  - intros [= <- <-]. split_and!; [done| |by left|]; intros *; by intros ?%elem_of_nil.
  - intros E. apply bind_Ok in E as (u & Eu%ensure_Ok & E).
    apply bind_Ok in E as ([o k] & Ec & E). injection E as <- <-.
    destruct (IH _ _ _ Ec) as (H1 & H2 & H3 & H4).
    assert (Ho : o = Some (default fetched reference)) by (by apply H1).
    assert (Hd : default fetched reference = fetched).
    { destruct reference; [by apply bool_decide_eq_true in Eu|done]. }
    rewrite Hd in Ho. split_and!.
    + intros x ->. cbn in Hd. by rewrite Hd.
    + intros q x [[= -> ->]|Hq]%elem_of_cons; [done|by eapply H2].
    + intros x Hx. rewrite Ho in Hx. injection Hx as ->. right. exists peer. left.
    + intros q [->|Hq]%elem_of_cons; [exists fetched; left|].
      destruct (H4 _ Hq) as [x Hx]. exists x. by right.
  - intros E. destruct (IH _ _ _ E) as (H1 & H2 & H3 & H4). split_and!; [done| | |].
    + intros q x [[=]|Hq]%elem_of_cons. by eapply H2.
    + intros x Hx. destruct (H3 x Hx) as [?|[q Hq]]; [by left|right; exists q; by right].
    + intros q Hq. destruct (H4 _ Hq) as [x Hx]. exists x. by right.
Qed.

(** The outcome of a successful synchronisation: the chain of every peer that
    completed it, and the filter hashes of every peer that answered. *)
Record synced (fuel : nat) (rv : bool) (c c' : Client) (candidates : list ((SocketAddr * P) * HeaderChain))
    (stop : nat) (fetched : list bytes) : Prop := {
  sy_candidates : header_tasks fuel (cl_chain c) (cl_peers c) = Some candidates;
  sy_agree : ∀ t, t ∈ candidates → tip_view t.2 = tip_view (cl_chain c');
  sy_agreed : cl_chain c' ∈ candidates.*2;
  sy_stop : HeaderChain.tip_height (cl_chain c') = Some (Z.of_nat stop);
  sy_params : cl_params c' = cl_params c;
  sy_filters : let f := truncate (cl_filters c) (common_prefix_len (cl_chain c) (cl_chain c')) in
    cl_filters c' = f ++ fetched ∧
    (∀ peer x, (peer, Ok x) ∈ filter_tasks rv f (cl_chain c') stop candidates.*1 → x = fetched) ∧
    ∀ peer, peer ∈ cl_peers c' →
      (peer, Ok fetched) ∈ filter_tasks rv f (cl_chain c') stop candidates.*1;
  sy_peers : cl_peers c' ≠ [];
}.

Lemma on_disk_state {A} (m : io D A) (s : Client) r s' : on_disk m s = (r, s') →
  ∃ d, s' = set_disk d s.
Proof. unfold on_disk. destruct (m (cl_disk s)) as [r' d]. intros [= _ <-]. eauto. Qed.

Lemma persist_client_state (s : Client) u s' : persist_client s = (Ok u, s') →
  ∃ d, s' = set_disk d s.
Proof.
  unfold persist_client. rewrite io_get_bind. intros E.
  apply io_bind_Ok in E as (u1 & s1 & (d1 & ->)%on_disk_state & E).
  apply on_disk_state in E as [d ->]. by exists d.
Qed.

Lemma agree_headers_Ok (candidates : list ((SocketAddr * P) * HeaderChain)) (c : Client) agreed s1 :
  agree_headers candidates c = (Ok agreed, s1) → s1 = set_peers candidates.*1 c ∧
  agreed ∈ candidates.*2 ∧ ∀ t, t ∈ candidates → tip_view t.2 = tip_view agreed.
Proof.
  unfold agree_headers. destruct candidates as [|[q first] rest]; [done|].
  destruct (forallb _ rest) eqn:Ef; [|done]. intros [= <- <-]. split; [done|]. split; [left|].
  intros t [->|Ht]%elem_of_cons; [done|]. rewrite forallb_forall in Ef.
  by apply list_elem_of_In, Ef, bool_decide_eq_true in Ht.
Qed.

Lemma agree_filters_Ok rv stop (c : Client) u s1 : agree_filters rv stop c = (Ok u, s1) →
  ∃ fetched kept, kept ≠ [] ∧
    s1 = set_chains (cl_chain c) (cl_filters c ++ fetched) (set_peers kept c) ∧
    collect_filters (filter_tasks rv (cl_filters c) (cl_chain c) stop (cl_peers c)) None =
      Ok (Some fetched, kept).
Proof.
  unfold agree_filters. destruct (collect_filters _ None) as [[o kept]|e] eqn:Ec; [|done].
  destruct kept as [|k kept]; [done|]. intros [= <-]. pose proof (collect_spec _ _ _ _ Ec) as (_ & Hc2 & _ & Hc4).
  destruct (Hc4 k) as [x Hx]; [left|]. specialize (Hc2 _ _ Hx). subst o.
  exists x, (k :: kept). split; [done|]. split; [done|done].
Qed.

Lemma tip_height_nat ch z : HeaderChain.tip_height ch = Some z →
  z = Z.of_nat (Z.to_nat z) ∧ Z.to_nat z = (length (headers ch) - 1)%nat ∧ headers ch ≠ [].
Proof.
  unfold HeaderChain.tip_height. destruct (headers ch) as [|h hs]; [done|].
  intros [= <-]. cbn [length]. split; [lia|]. split; [lia|done].
Qed.

Lemma sync_inner_synced fuel rv (c c' : Client) : sync_inner fuel rv c = Some (Ok tt, c') →
  ∃ candidates stop fetched, synced fuel rv c c' candidates stop fetched.
Proof.
  unfold sync_inner. intros E. apply bind_Some in E as (candidates & Et & E). injection E as E.
  unfold after_headers in E.
  apply io_bind_Ok in E as (agreed & s1 & (-> & Ha & Hv)%agree_headers_Ok & E).
  apply io_bind_Ok in E as (u & s2 & Em & E). injection Em as _ <-.
  apply io_bind_Ok in E as (stop & s3 & Es & E). unfold client_tip_height in Es.
  rewrite io_get_bind in Es. injection Es as Es <-. apply ok_or_Ok in Es.
  apply io_bind_Ok in E as (u2 & s4 & (fetched & kept & Hk & -> & Hc)%agree_filters_Ok & E).
  apply persist_client_state in E as [d ->].
  cbn [set_chains set_peers set_disk cl_chain cl_filters cl_peers cl_params] in *.
  apply tip_height_nat in Es as Hs. destruct Hs as (Hz & _).
  apply collect_spec in Hc as (_ & H2 & _ & H4).
  exists candidates, (Z.to_nat stop), fetched. split; cbn [set_chains set_peers set_disk cl_chain cl_filters cl_peers cl_params]; try done.
  - by rewrite <- Hz.
  - split; [done|]. split; [intros q x Hq; specialize (H2 _ _ Hq); by injection H2|].
    intros q Hq. destruct (H4 _ Hq) as [x Hx]. pose proof (H2 _ _ Hx) as [= ->]. done.
Qed.
End sync_lemmas.

(** ** Lemmas: an honest peer *)
Section honest_lemmas.
Context `{Sha256d}.

(** Chains with the same tip hash at the same height are the same chain. *)
Lemma same_tip_same_prefix p hs ks i : ∀ x y, valid_headers p hs → valid_headers p ks →
  no_collision ks hs → hs !! i = Some x → ks !! i = Some y → header_hash x = header_hash y →
  take (S i) hs = take (S i) ks.
Proof.
  induction i as [|i IH]; intros x y Hh Hk Hinj Hx Hy E.
  all: assert (x = y) as -> by (apply Hinj; [apply elem_of_app; left; by eapply list_elem_of_lookup_2|
    apply elem_of_app; right; by eapply list_elem_of_lookup_2|done]).
  - by rewrite (take_S_r hs 0 y), (take_S_r ks 0 y).
  - assert (∃ a, hs !! i = Some a) as [a Ha] by (apply lookup_lt_is_Some; apply lookup_lt_Some in Hx; lia).
    assert (∃ b, ks !! i = Some b) as [b Hb] by (apply lookup_lt_is_Some; apply lookup_lt_Some in Hy; lia).
    rewrite (take_S_r hs _ y), (take_S_r ks _ y) by done. f_equal. eapply IH; try done.
    by rewrite <- (valid_lookup_link _ _ _ _ _ Hh Ha Hx), <- (valid_lookup_link _ _ _ _ _ Hk Hb Hy).
Qed.

Lemma tip_view_headers p c1 c2 : follows p c1 → follows p c2 → headers c1 ≠ [] →
  no_collision (headers c2) (headers c1) → tip_view c1 = tip_view c2 → headers c1 = headers c2.
Proof.
  intros [(Hv1 & Hh1 & _) Hp1] [(Hv2 & Hh2 & _) Hp2] Hne Hinj E. subst p. rewrite Hp2 in Hv2.
  unfold tip_view in E. injection E as Et Eh _.
  assert (HL : length (headers c1) = length (headers c2)).
  { unfold HeaderChain.tip_height in Et. destruct (headers c1), (headers c2); try done.
    injection Et as Et. cbn [length] in *. lia. }
  destruct (exists_last Hne) as (i1 & x & E1).
  assert (Hne2 : headers c2 ≠ []) by (intros E0; rewrite E0, E1, length_app in HL; cbn in HL; lia).
  destruct (exists_last Hne2) as (i2 & y & E2).
  assert (Hlen : length i1 = length i2) by (rewrite E1, E2, !length_app in HL; cbn in HL; lia).
  assert (Hx : headers c1 !! length i1 = Some x) by (rewrite E1; by apply list_lookup_middle).
  assert (Hy : headers c2 !! length i1 = Some y) by (rewrite E2, Hlen; by apply list_lookup_middle).
  assert (Ht : ∀ c z, headers c !! length i1 = Some z → length (headers c) = length (headers c1) →
    HeaderChain.tip_height c = Some (Z.of_nat (length i1))).
  { intros c z Hz Hl. unfold HeaderChain.tip_height. destruct (headers c) eqn:E0; [done|].
    rewrite <- E0 in *. rewrite Hl, E1, length_app. cbn. f_equal. lia. }
  rewrite (Ht c1 x), (Ht c2 y) in Eh by done. cbn in Eh. rewrite Nat2Z.id in Eh. unfold hash_at in Eh.
  rewrite Hh1, Hh2, !list_lookup_fmap, Hx, Hy in Eh. cbn in Eh. injection Eh as Eh.
  rewrite <- (take_ge (headers c1) (S (length i1))) by (rewrite E1, length_app; cbn; lia).
  rewrite <- (take_ge (headers c2) (S (length i1))) by (rewrite E2, length_app, Hlen; cbn; lia).
  by eapply same_tip_same_prefix.
Qed.

(** A peer that answers from its own filter hashes. *)
Lemma fetch_range_honest {S} `{!HeaderSource S} c F f (s : S) : serves_filters c F →
  (length F ≤ length (hashes c))%nat → Z.of_nat (length F) < 2 ^ 32 → f `prefix_of` F → F ≠ [] →
  ∃ s', fetch_range f c (length F - 1) s = (Ok (drop (length f) F), s').
Proof.
  intros Hs Hh Hb [rest ->] Hne. rewrite drop_app_length.
  assert (Hpos : (0 < length (f ++ rest))%nat) by (destruct (f ++ rest); [done|cbn; lia]).
  unfold fetch_range. destruct (decide (f = [])) as [->|Hf].
  - cbn [length]. rewrite bool_decide_eq_true_2 by done.
    destruct (fetch_pages_ok c rest Hs Hh Hb (length rest - 1 + 1 - 0) (length rest - 1) 0 [] s)
      as (s' & E); cbn [app length] in *; [lia..|].
    exists s'. refine (io_step (lift (Ok (zeros 32))) _ _ _ _ _ eq_refl _). cbv beta.
    change (advance_filter_header (zeros 32) (take 0 rest)) with (zeros 32) in E. rewrite E, slice_0, take_ge by lia. done.
  - assert (Hlf : (0 < length f)%nat) by (destruct f; [done|cbn; lia]).
    assert (Hlr : length (f ++ rest) = (length f + length rest)%nat) by apply length_app.
    rewrite bool_decide_eq_false_2 by lia.
    destruct (fetch_pages_ok c (f ++ rest) Hs Hh Hb (length (f ++ rest) - 1 + 1 - length f)
      (length (f ++ rest) - 1) (length f) [] s) as (s' & E); [lia..|].
    exists s'. unfold filter_header_at. rewrite bool_decide_eq_false_2 by lia.
    replace (length f - 1 + 1)%nat with (length f) by lia. rewrite take_ge by lia.
    refine (io_step (lift (Ok _)) _ _ _ _ _ eq_refl _). cbv beta.
    rewrite take_app_length in E. rewrite E. cbn [app]. f_equal. f_equal.
    unfold slice. rewrite drop_app_length, take_ge by lia. done.
Qed.
End honest_lemmas.

Lemma reattest_prefix_passes `{Sha256dLaws} {S} `{!HeaderSource S} c F f max (s : S) :
  serves_filters c F → (length F ≤ length (hashes c))%nat → Z.of_nat (length F) < 2 ^ 32 →
  (0 < max)%nat → f `prefix_of` F → ∃ s', reattest_tail f c max s = (Ok tt, s').
Proof.
  intros Hs Hh Hb Hmax Hpre. destruct (decide (f = [])) as [->|Hne]; [by exists s|].
  destruct (reattest_honest c F Hs Hh Hb f max s Hne Hmax) as (s1 & E); [by apply prefix_length|].
  exists s1. rewrite E. destruct Hpre as [rest ->]. rewrite take_app_le by lia.
  rewrite bool_decide_eq_true_2 by done. unfold slice.
  rewrite drop_app_le, take_app_le by (rewrite ?length_drop; lia).
  by rewrite bool_decide_eq_true_2.
Qed.

Lemma filter_task_honest `{Sha256dLaws} {S P} `{!HeaderSource S, !PeerOps P} (φ : S → P)
    `{!Embeds φ} rv c F f s : serves_filters (S := S) c F →
  (length F ≤ length (hashes c))%nat → Z.of_nat (length F) < 2 ^ 32 → f `prefix_of` F → F ≠ [] →
  ∃ p', filter_task rv f c (length F - 1) (φ s) = (Ok (drop (length f) F), p').
Proof.
  intros Hs Hh Hb Hpre Hne. unfold filter_task.
  assert (∃ s1, (if rv && negb (bool_decide (f = [])) then reattest_tail f c FILTER_CACHE_REATTEST_BLOCKS
    else mret tt) (φ s) = (Ok tt, φ s1)) as (s1 & E1).
  { destruct (rv && negb (bool_decide (f = []))); [|by exists s].
    destruct (reattest_prefix_passes c F f FILTER_CACHE_REATTEST_BLOCKS s) as (s1 & E);
      [done|done|done|by apply Nat.lt_0_succ|done|].
    exists s1. rewrite reattest_sim by done. by rewrite E. }
  destruct (fetch_range_honest c F f s1) as (s2 & E2); [done..|].
  exists (φ s2). refine (io_step _ _ _ _ _ _ E1 _). cbv beta. rewrite fetch_range_sim by done. by rewrite E2.
Qed.

Section agreement.
Context `{Sha256dLaws, Sha256} {S P D : Type} `{!HeaderSource S, !PeerOps P, !CacheDir D}.
Context (φ : S → P) `{!Embeds φ} (p : Network.Params) (C : list BlockHeader) `{!ServesChain S C}.
Hypothesis C_valid : valid_headers p C.
Hypothesis C_nonempty : C ≠ [].
Hypothesis C_nodup : NoDup C.
Abbreviation Client := (CbfClient P D).

(** The honest peer completes the header pass from any well-formed chain. *)
Lemma honest_candidate fuel (c : Client) candidates addr s :
  follows p (cl_chain c) → NoDup (headers (cl_chain c)) → no_collision C (headers (cl_chain c)) →
  (length C < fuel)%nat → (addr, φ s) ∈ cl_peers c →
  header_tasks fuel (cl_chain c) (cl_peers c) = Some candidates →
  ∃ cand s', ((addr, φ s'), cand) ∈ candidates ∧ follows p cand ∧
    (headers cand = C ∨ cand = cl_chain c ∧ C `prefix_of` headers (cl_chain c)).
Proof.
  intros [Hwf Hp] Hd Hinj Hfuel Hin Et.
  destruct (sync_reaches p fuel (cl_chain c) s) as (n & cand & s' & E & Hh); [done..|].
  destruct (header_tasks_spec _ _ _ _ Et) as [Hin1 _].
  destruct (Hin1 _ _ Hin) as (r & cand' & p' & Es & Hok). rewrite (sync_embed φ), E in Es.
  cbn [fmap option_fmap option_map on_both fst snd] in Es. injection Es as <- <- <-.
  exists cand, s'. split; [by apply Hok|]. split; [|done].
  by apply (sync_follows p fuel (cl_chain c, s) (Ok n) (cand, s')).
Qed.
End agreement.

Lemma no_collision_sub `{Sha256d} (C hs ks : list BlockHeader) (all : list BlockHeader) :
  no_collision C all → (∀ x, x ∈ hs ++ ks → x ∈ all ++ C) → no_collision ks hs.
Proof. intros Hn Hsub x y Hx Hy. apply Hn; by apply Hsub. Qed.

Lemma candidates_follow `{Sha256d} {P} `{!PeerOps P} p fuel base (ps : list (SocketAddr * P)) candidates cand :
  follows p base → header_tasks fuel base ps = Some candidates → cand ∈ candidates.*2 → follows p cand.
Proof.
  intros Hf Et ([[addr q] cand'] & -> & Hin)%list_elem_of_fmap.
  destruct (header_tasks_spec _ _ _ _ Et) as [_ Hout]. destruct (Hout _ _ _ Hin) as (q0 & n & _ & Es).
  by apply (sync_follows p fuel (base, q0) (Ok n) (cand', q)).
Qed.

(** ** Lemmas: what every client satisfies *)
Section client_invariant.
Context `{Sha256d, Sha256} {P D : Type} `{!PeerOps P, !CacheDir D}.
Abbreviation Client := (CbfClient P D).

Lemma fetch_pages_length {S} `{!HeaderSource S} fuel c stop : ∀ start prev out (s : S) l s',
  (stop + 1 - start ≤ fuel)%nat →
  fetch_pages fuel c stop start prev out s = (Ok l, s') →
  length l = (length out + (stop + 1 - start))%nat.
Proof.
  induction fuel as [|fuel IH]; intros start prev out s l s' Hf; cbn [fetch_pages].
  { intros [= <- _]. lia. }
  case_bool_decide as Hs; [|intros [= <- _]; lia]. intros E.
  apply io_bind_Ok in E as (h & s1 & _ & E). apply io_bind_Ok in E as (r & s2 & _ & E).
  apply io_bind_Ok in E as (u & s3 & _ & E).
  apply io_bind_Ok in E as (u' & s4 & [Hl%bool_decide_eq_true ->]%ensure_lift_Ok & E).
  apply IH in E; [|lia]. rewrite E, length_app, Hl. lia.
Qed.

Lemma fetch_range_length {S} `{!HeaderSource S} f c stop (s : S) l s' :
  fetch_range f c stop s = (Ok l, s') → length l = (stop + 1 - length f)%nat.
Proof.
  unfold fetch_range. intros E. apply io_bind_Ok in E as (e & s1 & _ & E).
  apply fetch_pages_length in E; [done|lia].
Qed.

Lemma common_prefix_le l : ∀ r, (common_prefix l r ≤ length r)%nat.
Proof.
  induction l as [|x l IH]; intros [|y r]; cbn; try lia. case_bool_decide; [|lia].
  specialize (IH r). lia.
Qed.

Lemma header_tasks_addrs fuel base ps : ∀ out, header_tasks fuel base ps = Some out →
  out.*1.*1 `sublist_of` ps.*1.
Proof.
  induction ps as [|[addr p] ps IH]; intros out; cbn [header_tasks]; [by intros [= <-]|].
  intros E. apply bind_Some in E as ([r [cand p']] & _ & E).
  apply bind_Some in E as (rest & Er & E). injection E as <-. specialize (IH _ Er).
  destruct r; cbn; by constructor.
Qed.

Lemma collect_addrs (tasks : list ((SocketAddr * P) * result Error (list bytes))) :
  ∀ reference out kept, collect_filters tasks reference = Ok (out, kept) →
  kept `sublist_of` tasks.*1.
Proof.
  induction tasks as [|[peer [fetched|e]] tasks IH]; intros reference out kept; cbn [collect_filters].
  - by intros [= _ <-].
  - intros E. apply bind_Ok in E as (u & _ & E). apply bind_Ok in E as ([o k] & Ec & E).
    injection E as <- <-. cbn. constructor. by eapply IH.
  - intros E. cbn. constructor. by eapply IH.
Qed.

(** The chain is valid for the client's network and the connections go to
    configured addresses. *)
Record client_wf (p : Network.Params) (addrs : list SocketAddr) (c : Client) : Prop := {
  wf_params : cl_params c = p;
  wf_chain : follows p (cl_chain c);
  wf_addrs : (cl_peers c).*1 `sublist_of` addrs;
}.

(** No filter hash lies above the chain. *)
Definition bounded (c : Client) : Prop :=
  (length (cl_filters c) ≤ length (headers (cl_chain c)))%nat.

Definition in_step (c : Client) : Prop :=
  length (cl_filters c) = length (headers (cl_chain c)) ∧ headers (cl_chain c) ≠ [] ∧ cl_peers c ≠ [].

Lemma wf_no_peers p addrs c : client_wf p addrs c → client_wf p addrs (set_peers [] c).
Proof. intros []. split; try done. apply sublist_nil_l. Qed.

Lemma filter_tasks_addrs rv f ch stop (ps : list (SocketAddr * P)) :
  (filter_tasks rv f ch stop ps).*1.*1 = ps.*1.
Proof.
  unfold filter_tasks. rewrite <- !list_fmap_compose. apply list_fmap_ext. intros i [a q] _. cbn.
  by destruct (filter_task _ _ _ _ q).
Qed.

Lemma agree_filters_wf p addrs rv stop c : client_wf p addrs c → bounded c →
  stop = (length (headers (cl_chain c)) - 1)%nat → headers (cl_chain c) ≠ [] →
  let '(r, c') := agree_filters rv stop c in
  client_wf p addrs c' ∧ cl_chain c' = cl_chain c ∧ bounded c' ∧ (r = Ok tt → in_step c').
Proof.
  intros Hw Hf Hst Hne. pose proof Hw as [Hp Hc Ha]. unfold bounded in Hf.
  destruct (agree_filters rv stop c) as [[[]|e] c'] eqn:E.
  - apply agree_filters_Ok in E as (fetched & kept & Hk & -> & Ec).
    pose proof (collect_addrs _ _ _ _ Ec) as Hs.
    apply collect_spec in Ec as (_ & _ & H3 & _).
    destruct (H3 _ eq_refl) as [?|[q Hq]]; [done|].
    unfold filter_tasks in Hq. apply list_elem_of_fmap in Hq as ([a q0] & Eq & _).
    assert (Hl : length fetched = (stop + 1 - length (cl_filters c))%nat).
    { destruct (filter_task rv (cl_filters c) (cl_chain c) stop q0) as [r q1] eqn:Ef.
      injection Eq as _ <-. unfold filter_task in Ef.
      apply io_bind_Ok in Ef as (u & q2 & _ & Ef). by eapply fetch_range_length. }
    assert (Hpos : (0 < length (headers (cl_chain c)))%nat) by (destruct (headers (cl_chain c)); [done|cbn; lia]).
    assert (Hlen : length (cl_filters c ++ fetched) = length (headers (cl_chain c)))
      by (rewrite length_app; lia).
    split; [|split; [done|split; [|by intros _]]].
    2:{ unfold bounded. cbn [set_chains set_peers cl_chain cl_filters]. lia. }
    split; cbn [set_chains set_peers cl_params cl_chain cl_filters cl_peers]; [done|done|].
    apply (fmap_sublist fst) in Hs. rewrite filter_tasks_addrs in Hs. by etrans.
  - unfold agree_filters in E. destruct (collect_filters _ None) as [[o [|k kept]]|]; [..|]; try done.
    all: injection E as <- <-; split; [by apply wf_no_peers|done].
Qed.

Lemma persist_wf p addrs c : client_wf p addrs c →
  let '(r, c') := persist_client c in client_wf p addrs c' ∧ cl_chain c' = cl_chain c ∧
    cl_filters c' = cl_filters c ∧ cl_peers c' = cl_peers c.
Proof.
  intros []. unfold persist_client. rewrite io_get_bind. unfold on_disk, mbind, io_bind.
  destruct (write_headers_file _ _) as [[u|e] d]; [|done]. destruct (write_filter_hashes_file _ _). done.
Qed.

Lemma after_headers_wf p addrs rv candidates c : client_wf p addrs c →
  (∀ cand, cand ∈ candidates.*2 → follows p cand) → candidates.*1.*1 `sublist_of` (cl_peers c).*1 →
  let '(r, c') := after_headers rv candidates c in
  client_wf p addrs c' ∧ (bounded c → bounded c') ∧ (r = Ok tt → in_step c').
Proof.
  intros Hw Hcands Hsub. pose proof Hw as [Hp Hc Ha]. unfold after_headers. unfold mbind at 1, io_bind at 1.
  destruct (agree_headers candidates c) as [[agreed|e] c1] eqn:E1.
  2:{ unfold agree_headers in E1. destruct candidates as [|[q cand] rest]; [|destruct (forallb _ rest); [done|]].
      all: injection E1 as <- <-; split; [by apply wf_no_peers|done]. }
  apply agree_headers_Ok in E1 as (-> & Hin & _). specialize (Hcands _ Hin) as [Hcw Hcp].
  assert (Hw2 : client_wf p addrs (set_chains agreed
    (truncate (cl_filters c) (common_prefix_len (cl_chain c) agreed)) (set_peers candidates.*1 c))).
  { split; cbn [set_chains set_peers cl_params cl_chain cl_filters cl_peers]; [done|done|by etrans]. }
  assert (Hb2 : bounded (set_chains agreed
    (truncate (cl_filters c) (common_prefix_len (cl_chain c) agreed)) (set_peers candidates.*1 c))).
  { unfold bounded. cbn [set_chains set_peers cl_chain cl_filters]. unfold truncate. rewrite length_take. pose proof (common_prefix_le (hashes (cl_chain c)) (hashes agreed)).
    unfold common_prefix_len. destruct Hcw as (_ & Hh & _). rewrite Hh, length_fmap in *. lia. }
  unfold adopt_chain, modify, mbind at 1, io_bind at 1. cbn [set_peers cl_filters cl_chain].
  set (c2 := set_chains agreed _ _) in *.
  unfold client_tip_height. unfold mbind at 1, io_bind at 1. rewrite io_get_bind.
  change (cl_chain c2) with agreed. destruct (HeaderChain.tip_height agreed) as [z|] eqn:Ez; [|done].
  cbn [ok_or lift]. apply tip_height_nat in Ez as (_ & Hz & Hne).
  pose proof (agree_filters_wf p addrs rv (Z.to_nat z) c2 Hw2 Hb2 Hz Hne) as H3.
  unfold mbind, io_bind. destruct (agree_filters rv (Z.to_nat z) c2) as [[u|e] c3]; [|by destruct H3 as (? & _ & ? & _)].
  destruct H3 as (Hw3 & _ & Hb3 & Hin3). pose proof (persist_wf p addrs c3 Hw3) as H4.
  destruct (persist_client c3) as [r4 c4]. destruct H4 as (Hw4 & E1 & E2 & E3). split; [done|].
  split; [intros _; unfold bounded; by rewrite E1, E2|].
  intros _. destruct u. destruct (Hin3 eq_refl) as (? & ? & ?). unfold in_step. by rewrite E1, E2, E3.
Qed.

Lemma sync_inner_wf p addrs fuel rv c r c' : client_wf p addrs c → sync_inner fuel rv c = Some (r, c') →
  client_wf p addrs c' ∧ (bounded c → bounded c') ∧ (r = Ok tt → in_step c').
Proof.
  intros Hw E. unfold sync_inner in E. apply bind_Some in E as (candidates & Et & E). injection E as E.
  pose proof (after_headers_wf p addrs rv candidates c Hw) as Ha. rewrite E in Ha. apply Ha.
  - intros cand Hin. destruct Hw as [_ Hf _]. by exact (candidates_follow p fuel _ _ candidates _ Hf Et Hin).
  - by eapply header_tasks_addrs.
Qed.

Lemma connect_tasks_nodup tsa port names : ∀ seen,
  NoDup (connect_tasks tsa port names seen) ∧ ∀ a, a ∈ connect_tasks tsa port names seen → a ∉ seen.
Proof.
  induction names as [|name names IH]; intros seen; cbn [connect_tasks].
  { split; [constructor|]. by intros a ?%elem_of_nil. }
  destruct (resolve tsa name port) as [addr|e]; [|apply IH]. case_bool_decide; [apply IH|].
  destruct (IH (addr :: seen)) as [Hd Hs]. split.
  - constructor; [|done]. intros Hin. apply (Hs addr Hin). left.
  - intros a [->|Hin]%elem_of_cons; [done|]. intros Ha. apply (Hs a Hin). by right.
Qed.

Lemma connected_addrs dial tip addrs : (connected dial tip addrs : list (SocketAddr * P)).*1 `sublist_of` addrs.
Proof.
  induction addrs as [|a addrs IH]; cbn; [done|].
  destruct (to_option (dial a tip)); cbn; by constructor.
Qed.
End client_invariant.

(** ** Theorems *)

(** C16: One honest peer decides: if a synchronisation with any set of peers
    succeeds and one of them follows a valid chain, then whatever the others
    answer the client ends on that peer's chain, unless the client's own chain
    already extended it and stays; and when the peer answers filter-header requests
    from the filter hashes of that chain, and the hashes the client kept are a
    prefix of them, the client ends with exactly those, given that no two headers
    involved have the same hash. *)
Theorem one_honest_peer `{Sha256dLaws, Sha256} {S P D} `{!HeaderSource S, !PeerOps P, !CacheDir D}
    (φ : S → P) `{!Embeds φ} p C `{!ServesChain S C} F fuel rv (c c' : CbfClient P D) addr s :
  valid_headers p C → C ≠ [] → NoDup C →
  follows p (cl_chain c) → NoDup (headers (cl_chain c)) →
  no_collision C (headers (cl_chain c) ++ headers (cl_chain c')) → (length C < fuel)%nat →
  (addr, φ s) ∈ cl_peers c → sync_inner fuel rv c = Some (Ok tt, c') →
  (headers (cl_chain c') = C ∨
   headers (cl_chain c') = headers (cl_chain c) ∧ C `prefix_of` headers (cl_chain c)) ∧
  (headers (cl_chain c') = C → serves_filters (S := S) (cl_chain c') F → length F = length C →
   Z.of_nat (length F) < 2 ^ 32 →
   truncate (cl_filters c) (common_prefix_len (cl_chain c) (cl_chain c')) `prefix_of` F →
   cl_filters c' = F).
Proof.
  intros HC Hne Hd Hf Hdc Hinj Hfuel Hin E.
  apply sync_inner_synced in E as (candidates & stop & fetched & [Et Hag Hagd Hstop _ Hfil _]).
  destruct (honest_candidate φ p C HC Hne Hd fuel c candidates addr s) as (cand & s' & Hcand & Hfc & Hh);
    [done|done| |done..|].
  { eapply no_collision_sub; [exact Hinj|]. set_solver. }
  assert (Hfa : follows p (cl_chain c')) by exact (candidates_follow p fuel _ _ candidates _ Hf Et Hagd).
  assert (Heq : headers cand = headers (cl_chain c')).
  { apply (tip_view_headers p); [done|done| | |by apply (Hag _ Hcand)].
    - destruct Hh as [->|[-> [rest Hr]]]; [done|]. rewrite Hr. by destruct C.
    - eapply no_collision_sub; [exact Hinj|].
      destruct Hh as [->|[-> _]]; set_solver. }
  rewrite Heq in Hh. split.
  { destruct Hh as [?|[-> ?]]; [by left|right; by rewrite <- Heq]. }
  intros HeC Hs HF Hb Hpre. destruct Hfil as (-> & Hall & _). set (f := truncate _ _) in *.
  assert (Hst : stop = (length F - 1)%nat).
  { apply tip_height_nat in Hstop as (_ & Hz & _). rewrite Nat2Z.id, HeC in Hz. lia. }
  destruct Hfa as [(_ & Hhash & _) _].
  destruct (filter_task_honest φ rv (cl_chain c') F f s') as (p' & Ep);
    [done|rewrite Hhash, length_fmap; by rewrite HeC, HF|done|done|by intros ->; destruct C|].
  rewrite <- (Hall (addr, p') (drop (length f) F)).
  - destruct Hpre as [rest ->]. by rewrite drop_app_length.
  - unfold filter_tasks. apply list_elem_of_fmap. exists (addr, φ s'). rewrite Hst, Ep. split; [done|].
    apply list_elem_of_fmap. by exists ((addr, φ s'), cand).
Qed.

(** C18: A confirmed anchor is in the chain: whatever verdict [verify_anchor]
    returns is a true statement about a block of the validated chain whose
    transactions have the merkle root of its header; [Confirmed] in particular means
    that the claimed transaction is at the claimed position, carries the record in an
    OP_RETURN output, is no coinbase, has the returned context and is deep enough. *)
Theorem anchor_verdict_sound `{Sha256d, Sha256} {P D} `{!PeerOps P, !CacheDir D, !PeerLaws P}
    anchor loc claimed required (s : CbfClient P D) v s' :
  verify_anchor anchor loc claimed required s = (Ok v, s') →
  same_view s s' ∧ height loc ≠ 0 ∧ verdict_holds s loc claimed (record_to_bytes anchor) required v.
Proof. apply verify_anchor_holds. Qed.

(** Outputs are judged over the whole window: [Unspent] means that the creating
    transaction is in the validated chain with the expected value and script and that
    at every height up to the tip either the committed filter excludes the script or
    the block has been inspected and spends nothing of it; the other verdicts are
    backed by a block of the chain or by the absence of the output. *)
Theorem outpoint_verdict_sound `{Sha256d, Sha256} {P D} `{!PeerOps P, !CacheDir D, !PeerLaws P}
    o value script birth max_blocks (s : CbfClient P D) v s' :
  verify_outpoint_unspent o value script birth max_blocks s = (Ok v, s') →
  (birth ≠ 0 ∧ birth ≤ client_tip s ∧ client_tip s - birth + 1 ≤ max_blocks) ∧
  outpoint_verdict_holds s o value script birth v.
Proof. apply verify_outpoint_holds. Qed.

(** The state invariant of a client: connecting gives a client whose chain is
    valid for its network, with one filter hash per header and connections to
    different addresses; synchronisation keeps the invariant whether it succeeds or
    fails, and restores one filter hash per header when it succeeds. *)
Theorem client_invariant `{Sha256d, Sha256} {P D} `{!PeerOps P, !CacheDir D}
    fuel tsa dial params names (d : D) (r : result Error (CbfClient P D)) :
  connect_client fuel tsa dial params names d = Some r →
  (∀ c, r = Ok c → ∃ addrs, NoDup addrs ∧ client_wf params addrs c ∧ in_step c) ∧
  (∀ addrs fuel' rv c r' c', client_wf params addrs c → bounded c →
     sync_inner fuel' rv c = Some (r', c') →
     client_wf params addrs c' ∧ bounded c' ∧ (r' = Ok tt → in_step c')).
Proof.
  intros E. split.
  2:{ intros addrs fuel' rv c r' c' Hw Hb Es.
      destruct (sync_inner_wf _ _ _ _ _ _ _ Hw Es) as (? & ? & ?). auto. }
  intros c ->. unfold connect_client in E.
  destruct (load_chain params (read_headers_file d)) as [ch|e] eqn:Ec; [|done].
  destruct (load_filter_hashes (read_filter_hashes_file d)) as [f|e] eqn:Ef; [|done].
  set (addrs := connect_tasks tsa (default_port params) names []) in *.
  pose proof (connected_addrs (P := P) dial (default 0 (HeaderChain.tip_height ch)) addrs) as Hs.
  destruct (connected dial _ addrs) as [|q qs] eqn:Eq; [done|].
  apply bind_Some in E as ([[[]|e] c1] & E & Hc); [|done]. injection Hc as ->.
  exists addrs. split; [apply connect_tasks_nodup|].
  apply (sync_inner_wf params addrs) in E as (? & _ & ?); [by auto|].
  split; [done|by eapply load_chain_follows|exact Hs].
Qed.

(** A failed agreement strands the client: when the peers do not agree on a tip,
    or none completes the header pass, synchronisation fails and drops every
    connection; after that every later synchronisation fails too, and asking for a
    block is an assertion failure instead of an error. *)
Theorem failed_agreement_strands `{Sha256d, Sha256} {P D} `{!PeerOps P, !CacheDir D}
    fuel rv (c : CbfClient P D) candidates :
  header_tasks fuel (cl_chain c) (cl_peers c) = Some candidates →
  candidates = [] ∨ (∃ t u, t ∈ candidates ∧ u ∈ candidates ∧ tip_view t.2 ≠ tip_view u.2) →
  ∃ e c', sync_inner fuel rv c = Some (Err e, c') ∧ cl_chain c' = cl_chain c ∧
    (∀ hash, (client_fetch_block hash c').1 = Err (EPanic "at least one peer")) ∧
    (∀ fuel' rv', ∃ e' c'', sync_inner fuel' rv' c' = Some (Err e', c'')).
Proof.
  intros Et Hd.
  assert (∃ e, agree_headers candidates c = (Err e, set_peers [] c)) as [e Ea].
  { unfold agree_headers. destruct candidates as [|[q first] rest]; [by eexists|].
    destruct (forallb _ rest) eqn:Ef; [exfalso|by eexists]. rewrite forallb_forall in Ef.
    destruct Hd as [|(t & u & Ht & Hu & Hne)]; [done|]. apply Hne.
    assert (Hall : ∀ x, x ∈ (q, first) :: rest → tip_view x.2 = tip_view first).
    { intros x [->|Hx]%elem_of_cons; [done|]. by apply list_elem_of_In, Ef, bool_decide_eq_true in Hx. }
    by rewrite (Hall t), (Hall u). }
  exists e, (set_peers [] c). split_and!; [|done|done|].
  - unfold sync_inner. rewrite Et. cbn [mbind option_bind]. unfold after_headers.
    unfold mbind, io_bind. by rewrite Ea.
  - intros fuel' rv'. by exists (ENoPeers "no peer completed header synchronization"), (set_peers [] c).
Qed.

(** A filter that one peer can supply is obtained whatever the cache holds and
    whatever the peers asked before it answer: the result hashes to the committed
    filter hash. *)
Theorem filter_cache_heals `{Sha256d, Sha256} {P D} `{!PeerOps P, !CacheDir D}
    h (c : CbfClient P D) hash addr p data p' :
  client_hash_at c h = Some hash → (addr, p) ∈ cl_peers c →
  ask_filter (cl_filters c) h hash p = (Ok data, p') →
  (∀ x d, ∃ d', write_filter_file h x d = (Ok tt, d')) →
  ∃ data' c', filter_at h c = (Ok data', c') ∧
    filter_hash_at (cl_filters c) (Z.to_nat h) = Some (filter_hash data').
Proof.
  intros Hh Hin Hask Hw.
  assert (∃ data' c', filter_at h c = (Ok data', c')) as (x & c' & E).
  { unfold filter_at.
    assert (Hc : (cached_filter h c).2 = c ∨ ∃ d, (cached_filter h c).2 = set_disk d c).
    { unfold cached_filter. destruct (read_filter_file h (cl_disk c)) as [[y|]|]; [|by left|by left].
      destruct (verify_filter _ _ y); [by left|right; by eexists]. }
    destruct (cached_filter h c) as [[y|e] c1]; [eauto|]. cbn [snd] in Hc.
    assert (Hsame : client_hash_at c1 h = Some hash ∧ cl_filters c1 = cl_filters c ∧ cl_peers c1 = cl_peers c)
      by (by destruct Hc as [->|[d ->]]).
    destruct Hsame as (-> & -> & ->).
    destruct (first_answer_exists (ask_filter (cl_filters c) h hash) (cl_peers c) e addr p data p' Hin Hask)
      as (y & ps & ->).
    unfold on_disk, mbind, io_bind. destruct (Hw y (cl_disk (set_peers ps c1))) as [d' ->]. eauto. }
  exists x, c'. split; [done|]. apply filter_at_verified in E. unfold verify_filter in E.
  apply bind_Ok in E as (committed & Hc%ok_or_Ok & E). apply ensure_Ok, bool_decide_eq_true in E.
  by rewrite Hc, E.
Qed.

(** ** A client with an honest and a hostile peer *)
Section demo.
#[local] Existing Instances demo_sponge demo_sha demo_sha_laws demo_sha256.
#[local] Existing Instances demo_source demo_serves.

(** [Some] is the honest peer of [demo_chain]; [None] serves the genesis again and
    again and refuses everything else. *)
#[local] Instance demo_mixed_headers : HeaderSource (option ()) := {|
  get_headers loc stop := λ p, match p with
    | Some u => let '(r, u) := get_headers loc stop u in (r, Some u)
    | None => (Err (EProtocol "refused"), None)
    end;
  get_cfheaders start stop := λ p, match p with
    | Some u => let '(r, u) := get_cfheaders start stop u in (r, Some u)
    | None => (Err (EProtocol "refused"), None)
    end;
|}.

(** The block at height 1 of the query examples, and its filter. *)
Definition demo_script : bytes := anchor_script (record_to_bytes scan_record).
Definition demo_block_hash : bytes := header_hash (header scan_demo_block).
Definition demo_filter : bytes :=
  encode [demo_script] (filter_key demo_block_hash) BASIC_FILTER_P BASIC_FILTER_M.

#[local] Instance demo_peer_ops : PeerOps (option ()) := {|
  peer_headers := demo_mixed_headers;
  peer_cfilter _ hash := λ p, match p with
    | Some _ => (Ok {| cf_block_hash := hash; filter_bytes := demo_filter |}, p)
    | None => (Ok {| cf_block_hash := hash; filter_bytes := [x01] |}, p)
    end;
  peer_block hash := λ p,
    (if bool_decide (hash = demo_block_hash) then Ok scan_demo_block
     else Err (EProtocol "peer does not have block"), p);
  peer_filter_bytes _ := 0; peer_block_bytes _ := 0;
|}.

#[local] Instance demo_peer_laws : PeerLaws (option ()).
Proof.
  split. intros hash p b p'. cbn [peer_block demo_peer_ops]. case_bool_decide as Hh; [|discriminate].
  intros E. injection E as <- <-. split; [symmetry; exact Hh|]. cbn. lia.
Qed.

(** A cache directory whose filter files hold a fixed content. *)
#[local] Instance demo_cache : CacheDir (option bytes) := {|
  read_headers_file _ := Ok None; read_filter_hashes_file _ := Ok None;
  write_headers_file _ := λ d, (Ok tt, d); write_filter_hashes_file _ := λ d, (Ok tt, d);
  read_filter_file _ d := Ok d; remove_filter_file _ _ := None;
  write_filter_file _ x := λ _, (Ok tt, Some x);
|}.

#[local] Instance demo_embeds : Embeds (Some : () → option ()).
Proof. by split; intros ?? []. Qed.

Definition demo_addr (n : byte) : SocketAddr := {| sock_ip := [n]; sock_port := 18444 |}.

Definition demo_fresh : CbfClient (option ()) (option bytes) :=
  {| cl_params := demo_params; cl_peers := [(demo_addr x01, None); (demo_addr x02, Some tt)];
     cl_chain := new_chain demo_params; cl_filters := []; cl_disk := None |}.
Definition demo_done : CbfClient (option ()) (option bytes) :=
  {| cl_params := demo_params; cl_peers := [(demo_addr x02, Some tt)];
     cl_chain := demo_synced; cl_filters := demo_filters; cl_disk := None |}.

Lemma demo_client_syncs : sync_inner 3 true demo_fresh = Some (Ok tt, demo_done).
Proof. vm_compute. reflexivity. Qed.

Lemma one_honest_peer_witness : cl_filters demo_done = demo_filters.
Proof.
  destruct (one_honest_peer Some demo_params demo_chain demo_filters 3 true demo_fresh demo_done
    (demo_addr x02) tt demo_chain_valid) as [_ Hf].
  - discriminate.
  - exact demo_chain_nodup.
  - split; [apply new_chain_wf|reflexivity].
  - constructor.
  - assert (Hsub : ∀ x, x ∈ ([] ++ demo_chain) ++ demo_chain → x ∈ [] ++ demo_chain)
      by (intros x; rewrite !elem_of_app; tauto).
    intros x y Hx Hy. apply demo_no_collision; [exact (Hsub x Hx)|exact (Hsub y Hy)].
  - cbn. lia.
  - right. left.
  - exact demo_client_syncs.
  - apply Hf; [reflexivity|exact demo_serves_filters|reflexivity|cbn; lia|].
    exists demo_filters. reflexivity.
Defined.

(** Queries: the chain has the block of [scan_demo_block] at height 1; the cached
    filter is corrupt and the first peer serves another corrupt one. *)
Definition demo_queried (cached : option bytes) : CbfClient (option ()) (option bytes) :=
  {| cl_params := demo_params; cl_peers := [(demo_addr x01, None); (demo_addr x02, Some tt)];
     cl_chain := {| hc_params := demo_params; headers := [demo_genesis; header scan_demo_block];
                    hashes := [header_hash demo_genesis; demo_block_hash]; chainwork := [2; 4] |};
     cl_filters := [zeros 32; filter_hash demo_filter]; cl_disk := cached |}.

Definition demo_confirmed : AnchorVerdict := Confirmed demo_block_hash scan_ctx 1 true.

Lemma demo_anchor_run :
  verify_anchor scan_record (MkLocation 1 0) (tx_id scan_tx) 1 (demo_queried (Some [x05])) =
  (Ok demo_confirmed, demo_queried (Some demo_filter)).
Proof. vm_compute. reflexivity. Qed.

Lemma anchor_verdict_sound_witness :
  verdict_holds (demo_queried (Some [x05])) (MkLocation 1 0) (tx_id scan_tx)
    (record_to_bytes scan_record) 1 demo_confirmed.
Proof.
  exact (proj2 (proj2 (anchor_verdict_sound scan_record (MkLocation 1 0) (tx_id scan_tx) 1
    (demo_queried (Some [x05])) demo_confirmed (demo_queried (Some demo_filter)) demo_anchor_run))).
Defined.

Definition demo_output : OutPoint := {| op_txid := tx_id scan_tx; vout := 0 |}.

Lemma demo_output_run :
  verify_outpoint_unspent demo_output 0 demo_script 1 10 (demo_queried None) =
  (Ok (Unspent 1 1 1), demo_queried (Some demo_filter)).
Proof. vm_compute. reflexivity. Qed.

Lemma outpoint_verdict_sound_witness :
  outpoint_verdict_holds (demo_queried None) demo_output 0 demo_script 1 (Unspent 1 1 1).
Proof.
  exact (proj2 (outpoint_verdict_sound demo_output 0 demo_script 1 10 (demo_queried None)
    (Unspent 1 1 1) (demo_queried (Some demo_filter)) demo_output_run)).
Defined.

Definition demo_resolver (name : string) : result Error (list SocketAddr) :=
  if bool_decide (name = "a:1"%string) then Ok [demo_addr x01] else Ok [demo_addr x02].
Definition demo_dial (a : SocketAddr) (tip : Z) : result Error (option ()) :=
  Ok (if bool_decide (a = demo_addr x01) then None else Some tt).

(** The third name resolves to the same address as the second and is skipped. *)
Lemma demo_connects : connect_client 3 demo_resolver demo_dial demo_params ["a:1"; "b"; "b:18444"] None
  = Some (Ok demo_done).
Proof. vm_compute. reflexivity. Qed.

Lemma client_invariant_witness : ∃ addrs, NoDup addrs ∧ client_wf demo_params addrs demo_done ∧ in_step demo_done.
Proof.
  exact (proj1 (client_invariant 3 demo_resolver demo_dial demo_params ["a:1"; "b"; "b:18444"] None
    (Ok demo_done) demo_connects) demo_done eq_refl).
Defined.

Lemma failed_agreement_strands_witness :
  (client_fetch_block (zeros 32)
     (set_peers [] (set_peers [(demo_addr x01, None)] demo_fresh))).1 = Err (EPanic "at least one peer") ∧
  ∃ e c', sync_inner 3 true (set_peers [(demo_addr x01, None)] demo_fresh) = Some (Err e, c') ∧
    ∀ hash, (client_fetch_block hash c').1 = Err (EPanic "at least one peer").
Proof.
  split; [reflexivity|].
  destruct (failed_agreement_strands 3 true (set_peers [(demo_addr x01, None)] demo_fresh) [])
    as (e & c' & E & _ & Hf & _).
  - vm_compute. reflexivity.
  - left. reflexivity.
  - exists e, c'. split; [exact E|exact Hf].
Defined.

Lemma filter_cache_heals_witness : ∃ data c', filter_at 1 (demo_queried (Some [x05])) = (Ok data, c') ∧
  filter_hash_at (cl_filters (demo_queried (Some [x05]))) 1 = Some (filter_hash data).
Proof.
  refine (filter_cache_heals 1 (demo_queried (Some [x05])) demo_block_hash (demo_addr x02) (Some tt)
    demo_filter (Some tt) eq_refl _ _ _).
  - right. left.
  - vm_compute. reflexivity.
  - intros x d. exists (Some x). reflexivity.
Defined.

(** A confirmed anchor that no scan sees: the record is in the second OP_RETURN
    output, and scans read the first 64-byte payload only. *)
Definition second_output_tx : Transaction := {|
  tx_version := 2; inputs := inputs scan_tx;
  outputs := {| tx_value := 0; script_pubkey := anchor_script (zeros 64) |} :: outputs scan_tx;
  lock_time := 0; witnesses := [] |}.

Example confirmed_but_not_scanned :
  (anchor_verdict (record_to_bytes scan_record) (MkLocation 1 0) (tx_id second_output_tx) 1 1
     demo_block_hash true {| header := header scan_demo_block; txs := [second_output_tx] |} =
   Ok (Confirmed demo_block_hash scan_ctx 1 true)) ∧
  (λ e, (record_to_bytes (sa_record e), binds e demo_nf)) <$>
    anchors_in_block {| header := header scan_demo_block; txs := [second_output_tx] |} 1 =
  [(zeros 64, false)].
Proof. split; vm_compute; reflexivity. Qed.
End demo.
