(* ===== verification/Bitcoin.v ===== *)
(** * The Bitcoin library the node-side crates build on

    The [bitcoin] crate is third-party code: its data types are records with the
    crate's public fields, and what the sources call of it is the class
    [BitcoinLib] (encodings, scripts, weights, signature hashes) and the class
    [Ecdsa] (keys and signatures), with the documented behaviour the development
    relies on as [BitcoinLaws] and [EcdsaLaws]. *)

From S2P Require Import Prelude Wire Block.

Record BtcTxIn := {
  previous_output : OutPoint;
  bi_script_sig : bytes;
  bi_sequence : Z;
  bi_witness : list bytes;
}.

Record BtcTx := {
  btx_version : Z;
  btx_lock_time : Z;
  btx_input : list BtcTxIn;
  btx_output : list TxOut;
}.

#[export] Instance txout_eq_dec : EqDecision TxOut.
Proof. solve_decision. Defined.
#[export] Instance btxin_eq_dec : EqDecision BtcTxIn.
Proof. solve_decision. Defined.
#[export] Instance btx_eq_dec : EqDecision BtcTx.
Proof. solve_decision. Defined.

(** [OutPoint::null()], [Sequence::ENABLE_RBF_NO_LOCKTIME], [Version::TWO]. *)
Definition outpoint_null : OutPoint := {| op_txid := zeros 32; vout := 0xffffffff |}.
Definition ENABLE_RBF_NO_LOCKTIME : Z := 0xfffffffd.
Definition VERSION_TWO : Z := 2.

Class BitcoinLib := {
  outpoint_serialize : OutPoint → bytes;
  outpoint_deserialize : bytes → option OutPoint;
  btx_serialize : BtcTx → bytes;
  btx_deserialize : bytes → option BtcTx;
  btx_weight : BtcTx → Z;
  p2wpkh_spk : bytes → bytes;
  to_p2wsh : bytes → bytes;
  push_key : bytes → bytes;
  new_op_return : bytes → bytes;
  p2wsh_sighash : BtcTx → nat → bytes → Z → option bytes;
  p2wpkh_sighash : BtcTx → nat → bytes → Z → option bytes;
  minimal_non_dust : bytes → Z;
  is_op_return : bytes → bool;
}.

Class Ecdsa := {
  Sig : Type;
  sig_eq_dec :: EqDecision Sig;
  SecretKey : Type;
  sighash_all : Sig → bool;
  low_s : Sig → bool;
  sig_serialize : Sig → bytes;
  sig_from_slice : bytes → option Sig;
  pubkey_valid : bytes → bool;
  public_key_of : SecretKey → bytes;
  sign_all : SecretKey → bytes → Sig;
  verify_ecdsa : Sig → bytes → bytes → bool;
  p2wpkh_witness : Sig → bytes → list bytes;
}.

(** The transaction as the light client parses it: a transaction without any
    witness has the legacy encoding. *)
Definition chain_tx (t : BtcTx) : Transaction := {|
  tx_version := btx_version t;
  inputs := (λ i, {| prev := previous_output i; script_sig := bi_script_sig i;
                     sequence := bi_sequence i |}) <$> btx_input t;
  outputs := btx_output t;
  lock_time := btx_lock_time t;
  witnesses := if forallb (λ i, bool_decide (bi_witness i = [])) (btx_input t) then []
               else bi_witness <$> btx_input t;
|}.

(** An unsigned transaction within the ranges of its fields. *)
Definition unsigned_wf (t : BtcTx) : Prop :=
  tx_wf false (chain_tx t) ∧ (length (btx_input t) < 253)%nat ∧
  Forall (λ i, bi_witness i = []) (btx_input t).

Class BitcoinLaws `(BitcoinLib) : Prop := {
  outpoint_exact : ∀ b o,
    outpoint_deserialize b = Some o ↔ outpoint_wf o ∧ b = outpoint_serialize o;
  outpoint_length : ∀ o, outpoint_wf o → length (outpoint_serialize o) = 36%nat;
  btx_roundtrip : ∀ t, unsigned_wf t → btx_deserialize (btx_serialize t) = Some t;
  p2wsh_length : ∀ s, length (to_p2wsh s) = 34%nat;
  op_return_bytes : ∀ d, length d = 64%nat → new_op_return d = x6a :: x40 :: d;
}.

Class EcdsaLaws `(Ecdsa) : Prop := {
  sig_roundtrip : ∀ s, sig_from_slice (sig_serialize s) = Some s;
  sig_length : ∀ s, (1 ≤ length (sig_serialize s) ≤ 73)%nat;
}.

(** The bytes a witness adds to the encoding: marker, flag and the stacks. *)
Definition witness_size (t : BtcTx) : Z :=
  if forallb (λ i, bool_decide (bi_witness i = [])) (btx_input t) then 0
  else 2 + Z.of_nat (length (concat (stack_wire <$> (bi_witness <$> btx_input t)))).

(** What the weight limits rely on: the weight of a transaction, the bytes of a key
    push and of a P2WPKH script, and the witness of a P2WPKH input. *)
Class WeightLaws `(BitcoinLib, Ecdsa) : Prop := {
  weight_law : ∀ t, btx_weight t =
    4 * Z.of_nat (length (serialize_legacy (chain_tx t))) + witness_size t;
  push_key_length : ∀ k, length k = 33%nat → length (push_key k) = 34%nat;
  p2wpkh_witness_law : ∀ s k, p2wpkh_witness s k = [sig_serialize s; k];
}.

Lemma outpoint_serialize_inj `{BitcoinLaws} o o' : outpoint_wf o → outpoint_wf o' →
  outpoint_serialize o = outpoint_serialize o' → o = o'.
Proof.
  intros Ho Ho' E. apply (inj Some). trans (outpoint_deserialize (outpoint_serialize o)).
  - symmetry. by apply outpoint_exact.
  - by apply outpoint_exact.
Qed.
