(* ===== verification/Bech32.v ===== *)
(** * Segwit addresses

    Models [crates/opencsv-bitcoin/src/bech32.rs], the encoder of witness-v0
    addresses, and proves it against a reference decoder of BIP 173. *)

From S2P Require Import Prelude Text.
#[local] Open Scope Z_scope.

Definition CHARSET : rstring := lit "qpzry9x8gf2tvdw0s3jn54khce6mua7l".

Definition GEN : list Z := [0x3b6a57b2; 0x26508e6d; 0x1ea119fa; 0x3d4233dd; 0x2a1462b3].

(** The body of the loop over the values; the shifted state stays below 2^30. *)
Definition polymod_step (chk value : Z) : Z :=
  let top := Z.shiftr chk 25 in
  let chk := Z.lxor (Z.shiftl (Z.land chk 0x1ffffff) 5) value in
  foldl (λ chk '(i, g), if Z.testbit top (Z.of_nat i) then Z.lxor chk g else chk) chk (imap pair GEN).

Definition polymod (values : list Z) : Z := foldl polymod_step 1 values.

Definition hrp_expand (hrp : rstring) : list Z :=
  ((λ b, Z.shiftr (bval b) 5) <$> utf8 hrp) ++ [0] ++ ((λ b, Z.land (bval b) 31) <$> utf8 hrp).

(** [while bits >= 5]; [bits] itself is enough fuel. *)
Fixpoint drain (fuel : nat) (acc : Z) (bits : nat) : list Z * nat :=
  match fuel with
  | O => ([], bits)
  | S fuel =>
    if bool_decide (5 ≤ bits)%nat then
      let bits := (bits - 5)%nat in
      let '(out, rest) := drain fuel acc bits in
      (Z.land (Z.shiftr acc (Z.of_nat bits)) 31 :: out, rest)
    else ([], bits)
  end.

(** The loop over the bytes, with a 16-bit accumulator, and the final padding. *)
Fixpoint groups_from (acc : Z) (bits : nat) (bs : bytes) : list Z :=
  match bs with
  | [] => if bool_decide (0 < bits)%nat
          then [Z.land (Z.shiftl acc (5 - Z.of_nat bits) mod 2 ^ 16) 31] else []
  | byte :: bs =>
    let acc := Z.lor (Z.shiftl acc 8 mod 2 ^ 16) (bval byte) in
    let '(out, bits) := drain (bits + 8) acc (bits + 8) in
    out ++ groups_from acc bits bs
  end.
Definition to_5_bit_groups (bs : bytes) : list Z := groups_from 0 0 bs.

Definition charset_at (value : Z) : Z := nth (Z.to_nat value) CHARSET 0.

(** [None] is the assertion on the length of the program. *)
Definition encode_v0 (hrp : rstring) (program : bytes) : option rstring :=
  if bool_decide (2 ≤ length program ≤ 40)%nat then
    let data := 0 :: to_5_bit_groups program in
    let checksum := Z.lxor (polymod (hrp_expand hrp ++ data ++ replicate 6 0)) 1 in
    Some (hrp ++ [49] ++ (charset_at <$> data) ++
          ((λ i, charset_at (Z.land (Z.shiftr checksum (5 * (5 - i))) 31)) <$> seqZ 0 6))
  else None.

(** ** The reference: decoding as BIP 173 describes it *)
Definition charset_index (c : Z) : option Z :=
  Z.of_nat <$> position (λ x, x =? c) CHARSET.

(** The low [k] bits of a value, highest first. *)
Fixpoint low_bits (k : nat) (a : Z) : list bool :=
  match k with O => [] | S k => Z.testbit a (Z.of_nat k) :: low_bits k a end.

Definition of_bits (l : list bool) : Z := foldl (λ acc b, 2 * acc + Z.b2z b) 0 l.

(** Whole bytes, and a remainder of fewer than five zero bits. *)
Definition bytes_of_groups (groups : list Z) : option bytes :=
  let bits := concat (low_bits 5 <$> groups) in
  let n := (length bits / 8)%nat in
  if bool_decide (length bits - 8 * n < 5)%nat && forallb negb (drop (8 * n) bits)
  then Some ((λ l, bof (of_bits l)) <$> chunks 8 (take (8 * n) bits)) else None.

Definition decode_v0 (address : rstring) : option (rstring * bytes) :=
  '(hrp, part) ← rsplit_once 49 address;
  values ← mapM charset_index part;
  if bool_decide (7 ≤ length values)%nat && (polymod (hrp_expand hrp ++ values) =? 1) then
    match take (length values - 6) values with
    | 0 :: groups =>
      program ← bytes_of_groups groups;
      if bool_decide (2 ≤ length program ≤ 40)%nat then Some (hrp, program) else None
    | _ => None
    end
  else None.

(** The vectors of BIP 173. *)
Definition vector_program : bytes := be_bytes 20 0x751e76e8199196d454941c45d1b3a323f1433bd6.
Example mainnet_vector :
  encode_v0 (lit "bc") vector_program = Some (lit "bc1qw508d6qejxtdg4y5r3zarvary0c5xw7kv8f3t4").
Proof. vm_compute. reflexivity. Qed.
Example testnet_vector :
  encode_v0 (lit "tb") vector_program = Some (lit "tb1qw508d6qejxtdg4y5r3zarvary0c5xw7kxpjzsx").
Proof. vm_compute. reflexivity. Qed.
Example vector_decodes :
  decode_v0 (lit "bc1qw508d6qejxtdg4y5r3zarvary0c5xw7kv8f3t4") = Some (lit "bc", vector_program).
Proof. vm_compute. reflexivity. Qed.

(** ** Lemmas: the checksum is linear *)
Definition sel (b : bool) (g : Z) : Z := if b then g else 0.

#[local] Arguments polymod_step : simpl never.

(** The state after a zero value. *)
Definition feed (s : Z) : Z :=
  Z.lxor (Z.shiftl (Z.land s 0x1ffffff) 5)
    (foldr (λ '(i, g) acc, Z.lxor (sel (Z.testbit (Z.shiftr s 25) (Z.of_nat i)) g) acc) 0 (imap pair GEN)).

#[local] Arguments feed : simpl never.

Lemma lxor_swap a b c d : Z.lxor (Z.lxor a b) (Z.lxor c d) = Z.lxor (Z.lxor a c) (Z.lxor b d).
Proof. rewrite !Z.lxor_assoc. f_equal. rewrite <- !Z.lxor_assoc. f_equal. apply Z.lxor_comm. Qed.

Lemma fold_gens (test : nat → bool) (l : list (nat * Z)) x :
  foldl (λ chk '(i, g), if test i then Z.lxor chk g else chk) x l =
  Z.lxor x (foldr (λ '(i, g) acc, Z.lxor (sel (test i) g) acc) 0 l).
Proof.
  revert x; induction l as [|[i g] l IH]; intros x; cbn; [by rewrite Z.lxor_0_r|].
  rewrite IH. unfold sel. destruct (test i); rewrite ?Z.lxor_assoc, ?Z.lxor_0_l; done.
Qed.

Lemma step_feed s v : polymod_step s v = Z.lxor (feed s) v.
Proof.
  unfold polymod_step, feed. rewrite (fold_gens (λ i, Z.testbit (Z.shiftr s 25) (Z.of_nat i))).
  rewrite !Z.lxor_assoc. f_equal. apply Z.lxor_comm.
Qed.

Lemma feed_xor a b : feed (Z.lxor a b) = Z.lxor (feed a) (feed b).
Proof.
  unfold feed. rewrite lxor_swap. f_equal.
  - rewrite !(Z.land_comm _ 0x1ffffff). rewrite <- Z.shiftl_lxor. f_equal.
    apply Z.bits_inj'. intros n Hn. rewrite !Z.land_spec, !Z.lxor_spec, !Z.land_spec.
    by destruct (Z.testbit 33554431 n).
  - rewrite Z.shiftr_lxor. generalize (imap pair GEN). intros l.
    induction l as [|[i g] l IH]; [done|]. cbn. rewrite IH, lxor_swap. f_equal.
    rewrite Z.lxor_spec. unfold sel.
    destruct (Z.testbit _ _), (Z.testbit _ _); cbn; rewrite ?Z.lxor_nilpotent, ?Z.lxor_0_r, ?Z.lxor_0_l; done.
Qed.

Lemma land_mod x n : 0 ≤ n → Z.land x (2 ^ n - 1) = x mod 2 ^ n.
Proof. intros. rewrite <- Z.land_ones by done. f_equal. rewrite Z.ones_equiv. lia. Qed.

Lemma feed_small x : 0 ≤ x < 2 ^ 25 → feed x = Z.shiftl x 5.
Proof.
  intros Hx. unfold feed. change 0x1ffffff with (2 ^ 25 - 1). rewrite (land_mod x 25), Z.mod_small by lia.
  rewrite (Z.shiftr_div_pow2 x 25), Z.div_small by lia. cbn. by rewrite Z.lxor_0_r.
Qed.

(** Putting the low five bits back. *)
Lemma digit_back y : 0 ≤ y → Z.lxor (Z.shiftl (Z.shiftr y 5) 5) (Z.land y 31) = y.
Proof.
  intros Hy. apply Z.bits_inj'. intros n Hn. rewrite Z.lxor_spec, Z.land_spec.
  rewrite (Z.shiftl_spec _ 5 n Hn).
  destruct (decide (n < 5)).
  - rewrite (Z.testbit_neg_r _ (n - 5)) by lia.
    assert (Z.testbit 31 n = true) as ->; [|by rewrite andb_true_r].
    assert (n = 0 ∨ n = 1 ∨ n = 2 ∨ n = 3 ∨ n = 4) as Hc by lia. by destruct Hc as [->|[->|[->|[->| ->]]]].
  - rewrite Z.shiftr_spec by lia. replace (n - 5 + 5) with n by lia.
    rewrite (Z.bits_above_log2 31 n) by (cbn; lia). by rewrite andb_false_r, xorb_false_r.
Qed.

Fixpoint feeds (n : nat) (s : Z) : Z := match n with O => s | S n => feed (feeds n s) end.

Lemma feeds_zeros n s : foldl polymod_step s (replicate n 0) = feeds n s.
Proof.
  revert s; induction n as [|n IH]; intros s; [done|]. cbn [replicate foldl]. rewrite step_feed, Z.lxor_0_r, IH.
  clear. induction n as [|n IH]; [done|]. cbn. by rewrite IH.
Qed.

(** The digits of [c], highest first, six in all. *)
Definition digits (c : Z) (n : nat) : list Z :=
  (λ i, Z.land (Z.shiftr c (5 * (5 - i))) 31) <$> seqZ 0 (Z.of_nat n).

Lemma feed_digits c s n : 0 ≤ c < 2 ^ 30 → (n ≤ 6)%nat →
  foldl polymod_step s (digits c n) = Z.lxor (feeds n s) (Z.shiftr c (5 * (6 - Z.of_nat n))).
Proof.
  intros Hc. induction n as [|n IH]; intros Hn.
  - cbn. rewrite Z.shiftr_div_pow2, Z.div_small by lia. by rewrite Z.lxor_0_r.
  - unfold digits in *. rewrite Nat2Z.inj_succ, <- Z.add_1_r, seqZ_app, fmap_app, foldl_app, IH by lia.
    rewrite Z.add_0_l. change (seqZ (Z.of_nat n) 1) with [Z.of_nat n]. cbn [fmap list_fmap foldl feeds].
    rewrite step_feed, feed_xor, Z.lxor_assoc. f_equal.
    assert (0 ≤ Z.shiftr c (5 * (6 - Z.of_nat n)) < 2 ^ 25) as Hs.
    { rewrite Z.shiftr_div_pow2 by lia. split; [apply Z.div_pos; lia|].
      apply Z.div_lt_upper_bound; [lia|]. rewrite <- Z.pow_add_r by lia.
      assert (2 ^ 30 ≤ 2 ^ (5 * (6 - Z.of_nat n) + 25)) by (apply Z.pow_le_mono_r; lia). lia. }
    rewrite feed_small by done.
    replace (5 * (6 - Z.of_nat n)) with (5 * (5 - Z.of_nat n) + 5) by lia.
    rewrite <- (Z.shiftr_shiftr c) by lia.
    replace (5 * (6 - (Z.of_nat n + 1))) with (5 * (5 - Z.of_nat n)) by lia.
    apply digit_back. rewrite Z.shiftr_div_pow2 by lia. apply Z.div_pos; lia.
Qed.

(** Whatever precedes it, the checksum makes the whole a code word. *)
Lemma checksum_valid values :
  let c := Z.lxor (polymod (values ++ replicate 6 0)) 1 in
  0 ≤ c < 2 ^ 30 → polymod (values ++ digits c 6) = 1.
Proof.
  intros c Hc. unfold polymod in *. rewrite foldl_app, feed_digits by done.
  subst c. rewrite foldl_app, feeds_zeros in *. change (5 * (6 - Z.of_nat 6)) with 0.
  rewrite Z.shiftr_0_r, <- Z.lxor_assoc, Z.lxor_nilpotent. done.
Qed.

(** The state keeps to thirty bits. *)
Lemma lxor_bound n a b : 0 ≤ n → 0 ≤ a < 2 ^ n → 0 ≤ b < 2 ^ n → 0 ≤ Z.lxor a b < 2 ^ n.
Proof.
  intros Hn Ha Hb. split; [apply Z.lxor_nonneg; lia|].
  assert (Z.lxor a b = Z.lxor a b mod 2 ^ n) as ->; [|by apply Z.mod_pos_bound; lia].
  apply Z.bits_inj'. intros i Hi. destruct (decide (i < n)).
  - by rewrite Z.mod_pow2_bits_low.
  - rewrite Z.mod_pow2_bits_high, Z.lxor_spec by lia.
    rewrite <- (Z.mod_small a (2 ^ n)), <- (Z.mod_small b (2 ^ n)) by done.
    by rewrite !Z.mod_pow2_bits_high by lia.
Qed.

Lemma feed_bound s : 0 ≤ feed s < 2 ^ 30.
Proof.
  unfold feed. apply lxor_bound; [lia| |].
  - change 0x1ffffff with (2 ^ 25 - 1). rewrite (land_mod s 25) by lia. rewrite Z.shiftl_mul_pow2 by lia.
    pose proof (Z.mod_pos_bound s (2 ^ 25)). lia.
  - assert (∀ g b, 0 ≤ g < 2 ^ 30 → 0 ≤ sel b g < 2 ^ 30) as Hs by (intros g []; cbn; lia).
    unfold GEN. cbn [imap foldr]. repeat (apply lxor_bound; [lia|apply Hs; lia|]). lia.
Qed.

Lemma polymod_bound values : Forall (λ v, 0 ≤ v < 32) values → 0 ≤ polymod values < 2 ^ 30.
Proof.
  unfold polymod. assert (0 ≤ 1 < 2 ^ 30) as H1 by lia. revert H1. generalize 1.
  induction values as [|v values IH]; intros s Hs Hv; [done|]. apply Forall_cons in Hv as [Hv Hvs].
  cbn [foldl]. apply IH; [|done]. rewrite step_feed. apply lxor_bound; [lia|apply feed_bound|lia].
Qed.

(** ** Lemmas: regrouping bits *)

Lemma length_low_bits k a : length (low_bits k a) = k.
Proof. induction k as [|k IH]; [done|]. cbn. by rewrite IH. Qed.

Lemma low_bits_ext k a b : (∀ i, 0 ≤ i < Z.of_nat k → Z.testbit a i = Z.testbit b i) →
  low_bits k a = low_bits k b.
Proof.
  induction k as [|k IH]; intros Hi; [done|]. cbn. f_equal; [apply Hi; lia|apply IH; intros; apply Hi; lia].
Qed.

Lemma low_bits_split j k a : low_bits (j + k) a = low_bits j (Z.shiftr a (Z.of_nat k)) ++ low_bits k a.
Proof.
  induction j as [|j IH]; [done|]. cbn [Nat.add low_bits app]. f_equal; [|done].
  rewrite Z.shiftr_spec by lia. f_equal. lia.
Qed.

Lemma low_bits_land k a : low_bits k (Z.land a (2 ^ Z.of_nat k - 1)) = low_bits k a.
Proof.
  apply low_bits_ext. intros i Hi. rewrite land_mod by lia. apply Z.mod_pow2_bits_low. lia.
Qed.

(** The accumulator takes eight more bits. *)
Lemma low_bits_push k a b : (k + 8 ≤ 16)%nat →
  low_bits (k + 8) (Z.lor (Z.shiftl a 8 mod 2 ^ 16) (bval b)) = low_bits k a ++ low_bits 8 (bval b).
Proof.
  intros Hk. pose proof (bval_bound b) as Hb. rewrite low_bits_split. f_equal; apply low_bits_ext; intros i Hi.
  - rewrite Z.shiftr_spec by lia. rewrite Z.lor_spec, Z.mod_pow2_bits_low, Z.shiftl_spec by lia.
    replace (i + Z.of_nat 8 - 8) with i by lia.
    rewrite <- (Z.mod_small (bval b) (2 ^ 8)) by lia. rewrite Z.mod_pow2_bits_high by lia. by rewrite orb_false_r.
  - rewrite Z.lor_spec, Z.mod_pow2_bits_low, Z.shiftl_spec_low by lia. done.
Qed.

Lemma drain_bits fuel acc bits out rest : (bits ≤ fuel)%nat → drain fuel acc bits = (out, rest) →
  (rest < 5)%nat ∧ concat (low_bits 5 <$> out) ++ low_bits rest acc = low_bits bits acc ∧
  Forall (λ v, 0 ≤ v < 32) out.
Proof.
  revert bits out rest; induction fuel as [|fuel IH]; intros bits out rest Hf E; cbn in E.
  { injection E as <- <-. split_and!; [lia|by replace bits with 0%nat by lia|constructor]. }
  case_bool_decide as H5; [|injection E as <- <-; split_and!; [lia|done|constructor]].
  destruct (drain fuel acc (bits - 5)) as [out' rest'] eqn:Ed. injection E as <- <-.
  apply IH in Ed as (Hr & Eb & Hv); [|lia]. split; [done|]. split.
  - cbn [fmap list_fmap concat]. rewrite <- app_assoc. change (list_fmap ?A ?B ?f ?l) with (f <$> l). rewrite Eb.
    change 31 with (2 ^ Z.of_nat 5 - 1). rewrite low_bits_land, <- low_bits_split. f_equal. lia.
  - constructor; [|done]. change 31 with (2 ^ 5 - 1). rewrite land_mod by lia. apply Z.mod_pos_bound. lia.
Qed.

(** The groups spell the bits of the bytes, then fewer than five zeros. *)
Lemma groups_bits bs : ∀ acc bits, (bits < 5)%nat → ∃ pad, (pad < 5)%nat ∧
  concat (low_bits 5 <$> groups_from acc bits bs) =
    low_bits bits acc ++ concat ((λ b, low_bits 8 (bval b)) <$> bs) ++ replicate pad false ∧
  Forall (λ v, 0 ≤ v < 32) (groups_from acc bits bs).
Proof.
  induction bs as [|b bs IH]; intros acc bits Hb; cbn [groups_from].
  - case_bool_decide as H0.
    2:{ exists 0%nat. replace bits with 0%nat by lia. split; [lia|]. split; [done|constructor]. }
    exists (5 - bits)%nat. split; [lia|]. split.
    + cbn [fmap list_fmap concat]. rewrite app_nil_r, app_nil_l.
      change 31 with (2 ^ Z.of_nat 5 - 1). rewrite low_bits_land.
      replace 5%nat with (bits + (5 - bits))%nat at 1 by lia. rewrite low_bits_split. f_equal.
      * apply low_bits_ext. intros i Hi. rewrite Z.shiftr_spec, Z.mod_pow2_bits_low, Z.shiftl_spec by lia.
        f_equal. lia.
      * remember (5 - bits)%nat as k eqn:Ek. 
        assert (∀ j, (j ≤ k)%nat → low_bits j (Z.shiftl acc (5 - Z.of_nat bits) mod 2 ^ 16) = replicate j false) as Hj.
        { induction j as [|j IHj]; intros Hjk; [done|]. cbn [low_bits replicate]. f_equal; [|apply IHj; lia].
          rewrite Z.mod_pow2_bits_low, Z.shiftl_spec_low by lia. done. }
        by apply Hj.
    + constructor; [|constructor]. change 31 with (2 ^ 5 - 1). rewrite land_mod by lia.
      apply Z.mod_pos_bound. lia.
  - destruct (drain (bits + 8) _ (bits + 8)) as [out rest] eqn:Ed.
    apply drain_bits in Ed as (Hr & Eb & Hv); [|lia].
    destruct (IH (Z.lor (Z.shiftl acc 8 mod 2 ^ 16) (bval b)) rest Hr) as (pad & Hp & Eg & Hg).
    exists pad. split; [done|]. split; [|by apply Forall_app].
    rewrite fmap_app, concat_app, Eg, app_assoc, Eb, low_bits_push by lia. cbn. by rewrite <- !app_assoc.
Qed.

Lemma of_bits_snoc l b : of_bits (l ++ [b]) = 2 * of_bits l + Z.b2z b.
Proof. unfold of_bits. by rewrite foldl_app. Qed.

Lemma of_low_bits k a : of_bits (low_bits k a) = a mod 2 ^ Z.of_nat k.
Proof.
  revert a; induction k as [|k IH]; intros a; [cbn; by rewrite Z.mod_1_r|].
  replace (S k) with (k + 1)%nat by lia. rewrite low_bits_split. cbn [low_bits]. rewrite of_bits_snoc, IH.
  rewrite Z.shiftr_div_pow2 by lia. change (2 ^ Z.of_nat 1) with 2. change (Z.of_nat 0) with 0.
  rewrite Nat2Z.inj_add, Z.pow_add_r by lia. change (2 ^ Z.of_nat 1) with 2.
  rewrite (Z.mul_comm _ 2), Z.rem_mul_r by lia. rewrite <- (Z.bit0_mod a). lia.
Qed.

Lemma bytes_back bs pad : (pad < 5)%nat →
  let bits := concat ((λ b, low_bits 8 (bval b)) <$> bs) ++ replicate pad false in
  length bits = (8 * length bs + pad)%nat ∧
  chunks 8 (take (8 * length bs) bits) = (λ b, low_bits 8 (bval b)) <$> bs ∧
  drop (8 * length bs) bits = replicate pad false.
Proof.
  intros Hp bits.
  assert (Forall (λ l, length l = 8%nat) ((λ b, low_bits 8 (bval b)) <$> bs)) as Hl
    by (apply Forall_fmap, Forall_forall; intros b _; apply length_low_bits).
  assert (length (concat ((λ b, low_bits 8 (bval b)) <$> bs)) = 8 * length bs)%nat as Hn
    by (rewrite (length_concat_const 8) by done; rewrite length_fmap; lia).
  unfold bits. rewrite length_app, length_replicate, Hn. split; [done|].
  rewrite take_app_length', drop_app_length' by done. by rewrite chunks_concat by (done || lia).
Qed.

Lemma regroup bs : bytes_of_groups (to_5_bit_groups bs) = Some bs ∧
  Forall (λ v, 0 ≤ v < 32) (to_5_bit_groups bs).
Proof.
  unfold to_5_bit_groups. destruct (groups_bits bs 0 0 ltac:(lia)) as (pad & Hp & E & Hv). split; [|done].
  unfold bytes_of_groups. rewrite E. change (low_bits 0 0 ++ ?x) with x.
  destruct (bytes_back bs pad Hp) as (HL & Hc & Hd). rewrite HL.
  assert ((8 * length bs + pad) / 8 = length bs)%nat as ->
    by (symmetry; apply (Nat.div_unique _ 8 _ pad); lia).
  rewrite Hc, Hd, bool_decide_eq_true_2 by lia.
  assert (forallb negb (replicate pad false) = true) as -> by (clear; by induction pad). cbn [andb]. f_equal.
  rewrite <- list_fmap_compose. rewrite <- (list_fmap_id bs) at 2. apply list_fmap_ext. intros _ b _. cbn -[low_bits].
  rewrite of_low_bits, Z.mod_small by apply bval_bound. apply bof_bval.
Qed.

Lemma charset_back v : 0 ≤ v < 32 → charset_index (charset_at v) = Some v ∧ charset_at v ≠ 49.
Proof.
  intros Hv. assert (Forall (λ v, charset_index (charset_at v) = Some v ∧ charset_at v ≠ 49) (seqZ 0 32)) as Ha
    by (apply (bool_decide_unpack _); vm_compute; exact I).
  rewrite Forall_forall in Ha. apply Ha, elem_of_seqZ. lia.
Qed.

Lemma charset_mapM l : Forall (λ v, 0 ≤ v < 32) l →
  mapM charset_index (charset_at <$> l) = Some l ∧ Forall (λ c, c ≠ 49) (charset_at <$> l).
Proof.
  induction 1 as [|v l Hv _ [IH1 IH2]]; [done|]. destruct (charset_back v Hv) as [Ev Hn].
  cbn [fmap list_fmap mapM]. rewrite Ev. cbn [mbind option_bind].
  change (list_fmap ?A ?B ?f ?l) with (f <$> l). rewrite IH1. split; [done|]. by constructor.
Qed.

Lemma hrp_expand_small hrp : Forall (λ v, 0 ≤ v < 32) (hrp_expand hrp).
Proof.
  unfold hrp_expand. rewrite !Forall_app, !Forall_fmap. split_and!; [|constructor; [lia|constructor]|];
    apply Forall_forall; intros b _; cbn; pose proof (bval_bound b).
  - rewrite Z.shiftr_div_pow2 by lia. split; [apply Z.div_pos; lia|]. apply Z.div_lt_upper_bound; lia.
  - change 31 with (2 ^ 5 - 1). rewrite land_mod by lia. apply Z.mod_pos_bound. lia.
Qed.

(** An encoded address is the valid BIP-173 address of its witness program: for
    every prefix and every program of 2 to 40 bytes - and for no other - the encoder gives
    an address, whose checksum, version, regrouped bits and padding the reference decoder
    accepts, giving back the prefix and the program. *)
Theorem address_decodes hrp program :
  (is_Some (encode_v0 hrp program) ↔ (2 ≤ length program ≤ 40)%nat) ∧
  ∀ address, encode_v0 hrp program = Some address → decode_v0 address = Some (hrp, program).
Proof.
  unfold encode_v0. case_bool_decide as HL; cycle 1.
  { split; [|done]. split; [by intros [? ?]|done]. }
  split; [split; [done|by eexists]|]. intros address E%(inj Some). subst address.
  destruct (regroup program) as [Hb Hv]. set (groups := to_5_bit_groups program) in *.
  set (c := Z.lxor _ 1).
  assert (Forall (λ v, 0 ≤ v < 32) (0 :: groups)) as Hg by (constructor; [lia|done]).
  assert (0 ≤ c < 2 ^ 30) as Hc.
  { apply lxor_bound; [lia| |lia]. apply polymod_bound.
    apply Forall_app; split; [apply hrp_expand_small|]. apply (Forall_app _ (0 :: groups)).
    split; [exact Hg|by apply Forall_replicate]. }
  assert (Forall (λ v, 0 ≤ v < 32) (digits c 6)) as Hd.
  { apply Forall_fmap, Forall_forall. intros i _. cbn. change 31 with (2 ^ 5 - 1). rewrite land_mod by lia.
    apply Z.mod_pos_bound. lia. }
  assert ((λ i, charset_at (Z.land (Z.shiftr c (5 * (5 - i))) 31)) <$> seqZ 0 6 = charset_at <$> digits c 6) as ->
    by (unfold digits; rewrite <- list_fmap_compose; reflexivity).
  rewrite <- fmap_app. destruct (charset_mapM ((0 :: groups) ++ digits c 6)) as [Em Hn]; [by apply Forall_app|].
  unfold decode_v0. cbn [app]. rewrite rsplit_once_app by exact Hn. cbn [mbind option_bind].
  cbn [app] in Em. rewrite Em. cbn [mbind option_bind].
  assert (length (0%Z :: groups ++ digits c 6) = S (length groups) + 6)%nat as Hl.
  { cbn. rewrite length_app. unfold digits. by rewrite length_fmap, length_seqZ. }
  rewrite Hl, bool_decide_eq_true_2 by lia.
  assert (polymod (hrp_expand hrp ++ 0 :: groups ++ digits c 6) = 1) as ->.
  { pose proof (checksum_valid (hrp_expand hrp ++ 0 :: groups)) as Hcheck. rewrite <- !app_assoc in Hcheck.
    specialize (Hcheck Hc). fold c in Hcheck. rewrite <- app_assoc in Hcheck. exact Hcheck. }
  rewrite Nat.add_sub. cbn [andb Z.eqb Pos.eqb firstn]. rewrite take_app_length, Hb. cbn [mbind option_bind].
  by rewrite bool_decide_eq_true_2.
Qed.
