(* ===== verification/Rpc.v ===== *)
(** * JSON-RPC calls to a node

    Models [crates/opencsv-bitcoin/src/rpc.rs] and [error.rs]: JSON values with the
    accessors the sources use, the error type, and the client's request and
    reply.  The transport and the JSON reader and writer are third-party: the classes
    [Transport] and [Serde]. *)

From S2P Require Import Prelude Text Field Commitments Kernel Anchor Batch Chain Accept Wire Block Network.
#[local] Open Scope Z_scope.

(** ** JSON values; a number is its text *)
Inductive Value :=
  | Null
  | VBool (b : bool)
  | VNumber (text : rstring)
  | VString (s : rstring)
  | VArray (l : list Value)
  | VObject (fields : list (rstring * Value)).

(** A literal string and a natural number. *)
Definition jstr (s : string) : Value := VString (lit s).
Definition jnum (n : Z) : Value := VNumber (decimal n).

Definition json_get (v : Value) (key : string) : option Value :=
  match v with
  | VObject fields => snd <$> find_first (λ f, bool_decide (f.1 = lit key)) fields
  | _ => None
  end.
Definition as_str (v : Value) : option rstring := match v with VString s => Some s | _ => None end.
Definition as_array (v : Value) : option (list Value) := match v with VArray l => Some l | _ => None end.
Definition as_bool (v : Value) : option bool := match v with VBool b => Some b | _ => None end.
Definition as_u64 (v : Value) : option Z := match v with VNumber t => parse_u64 t | _ => None end.
Definition is_null (v : Value) : bool := match v with Null => true | _ => false end.

(** [.and_then(|v| v.get(key))] *)
Definition and_get (o : option Value) (key : string) : option Value := v ← o; json_get v key.

(** [i64::from_str]: a sign, then digits. *)
Definition as_i64 (v : Value) : option Z :=
  match v with
  | VNumber (c :: r) =>
    if c =? 45 then match r with [] => None | _ => Z.opp <$> parse_digits 10 (2 ^ 63) 0 r end
    else from_str_radix 10 (2 ^ 63 - 1) (c :: r)
  | _ => None
  end.

(** ** Errors *)
Inductive NodeError :=
  | NIo (message : string)
  | NHttp (message : string)
  | NRpc (code : Z) (message : rstring)
  | NDecode (message : string)
  | NMalformed (message : string)
  | NConfig (message : string)
  | NWrongNetwork (expected : Network) (actual : rstring)
  | NSigningFailed (message : rstring)
  | NNoFundingInputs
  | NTagCollision
  | NNotRegtest.

(** A call that stops returns an error or panics. *)
Inductive stop := Raise (e : NodeError) | Crash.

(** ** State, errors and panics *)
Definition act (S A : Type) : Type := S → result stop A * S.

#[export] Instance act_ret S : MRet (act S) := λ A a s, (Ok a, s).
#[export] Instance act_bind S : MBind (act S) := λ A B f m s,
  match m s with (Ok a, s) => f a s | (Err e, s) => (Err e, s) end.

(** [?] on a value that is already computed. *)
Definition pure {S A} (r : result stop A) : act S A := λ s, (r, s).
Definition raise {S A} (e : NodeError) : act S A := λ s, (Err (Raise e), s).
Definition required {S A} (o : option A) (e : NodeError) : act S A := pure (ok_or o (Raise e)).

(** A [match] on the result of a call. *)
Definition attempt {S A} (m : act S A) : act S (result stop A) := λ s, let '(r, s) := m s in (Ok r, s).

Lemma act_bind_eq {S A B} (m : act S A) (f : A → act S B) s :
  (m ≫= f) s = match m s with (Ok a, s) => f a s | (Err e, s) => (Err e, s) end.
Proof. reflexivity. Qed.

Lemma act_bind_Ok {S A B} (m : act S A) (f : A → act S B) s r s' :
  (m ≫= f) s = (Ok r, s') ↔ ∃ a s1, m s = (Ok a, s1) ∧ f a s1 = (Ok r, s').
Proof.
  unfold mbind, act_bind. destruct (m s) as [[a|e] s1]; [naive_solver|].
  split; [done|]. by intros (? & ? & ? & ?).
Qed.

(** ** The client *)
Class Transport (T : Type) := post : rstring → act T rstring.
Class Serde := { to_string : Value → rstring; from_str : rstring → option Value }.

Record RpcClient (T : Type) := { transport : T; next_id : Z }.
Arguments transport {T}.
Arguments next_id {T}.

Section client.
Context {T : Type} `{!Transport T} `{!Serde}.

(** [RpcClient::new] *)
Definition rpc_new (t : T) : RpcClient T := {| transport := t; next_id := 1 |}.

Definition reply_result (reply : Value) : result stop Value :=
  match json_get reply "error" with
  | Some error =>
    if is_null error then ok_or (json_get reply "result") (Raise (NMalformed "no `result` field"))
    else Err (Raise (NRpc (default 0 (json_get error "code" ≫= as_i64))
                          (default (lit "<no message>") (json_get error "message" ≫= as_str))))
  | None => ok_or (json_get reply "result") (Raise (NMalformed "no `result` field"))
  end.

(** [RpcClient::call] *)
Definition rpc_call (method : rstring) (params : Value) : act (RpcClient T) Value := λ c,
  let id := next_id c in
  let request := VObject [(lit "jsonrpc", jstr "1.0"); (lit "id", jnum id); (lit "method", VString method);
                          (lit "params", params)] in
  let '(body, t) := post (to_string request) (transport c) in
  (body ← body;
   reply ← ok_or (from_str body) (Raise (NMalformed "reply is not JSON"));
   reply_result reply,
   {| transport := t; next_id := id + 1 |}).
End client.

(** ** What the chain backend asks of its surroundings: calls to the node and
    the index file. *)
Class NodeEnv (S : Type) := {
  call : string → Value → act S Value;
  read_index : S → FileRead NodeError;
  write_index : rstring → act S ();
}.

(** A client over a transport, with a file. *)
#[export] Instance client_env {T} `{!Transport T, !Serde} (read : T → FileRead NodeError)
  (write : rstring → act T ()) : NodeEnv (RpcClient T) := {|
  call method params := rpc_call (lit method) params;
  read_index c := read (transport c);
  write_index text c := let '(r, t) := write text (transport c) in
    (r, {| transport := t; next_id := next_id c |});
|}.

Section calls.
Context {S : Type} `{!NodeEnv S}.

(** [call_str] *)
Definition call_str (method : string) (params : Value) : act S rstring :=
  v ← call method params;
  required (as_str v) (NMalformed "result is not a string").
End calls.
