(* ===== verification/NodeChain.v ===== *)
(** * The node-backed anchor chain

    Models [crates/opencsv-bitcoin/src/chain.rs]: the index of anchors kept by
    scanning a node's blocks over JSON-RPC, its persistence, the construction and
    broadcast of a solo anchor, and the anchor chain it gives.  The node and the
    index file are whatever implements [NodeEnv]. *)

From S2P Require Import Prelude Text Field Commitments Kernel Anchor Batch Chain Accept Wire Block.
From S2P Require Import Network Peer HeaderChain FullScan Scan ScanFile Bitcoin Bech32 Rpc.
#[local] Open Scope Z_scope.

Definition MEMPOOL_LOCATION : Location := MkLocation 0 0.

(** ** Networks *)
Definition default_rpc_port (n : Network) : Z :=
  match n with Mainnet => 8332 | Signet => 38332 | Regtest => 18443 end.
Definition datadir_subdir (n : Network) : string :=
  match n with Mainnet => "" | Signet => "signet" | Regtest => "regtest" end.
Definition rpc_chain_name (n : Network) : rstring :=
  lit match n with Mainnet => "main" | Signet => "signet" | Regtest => "regtest" end.
Definition network_parsed (s : rstring) : result NodeError Network :=
  ok_or (network_parse s) (NConfig "unknown network").

Record Config := { cfg_network : Network; scan_from : option Z }.

(** ** Markers and hashes *)
Definition is_marker_spk (spk : bytes) : bool :=
  bool_decide (spk = MARKER_SPK) || bool_decide (spk = LEGACY_MARKER_SPK).

Definition address_hrp (n : Network) : rstring :=
  lit match n with Mainnet => "bc" | Signet => "tb" | Regtest => "bcrt" end.
(** [None] is the encoder's assertion, which the 32-byte program satisfies. *)
Definition marker_address (n : Network) : option rstring := encode_v0 (address_hrp n) (drop 2 MARKER_SPK).

Definition node_hex (s : rstring) : result stop bytes :=
  match from_hex s with
  | Ok b => Ok b
  | Err Sliced => Err Crash
  | Err (OddLength _) => Err (Raise (NMalformed "odd-length hex"))
  | Err (NonHex _) => Err (Raise (NMalformed "non-hex byte"))
  end.

Definition hash_from_rpc (hex : rstring) : result stop bytes :=
  b ← node_hex hex;
  ensure (bool_decide (length b = 32%nat)) (Raise (NMalformed "hash length"));;
  Ok (reverse b).

Definition hash_to_rpc : bytes → rstring := hash_to_display.
Definition display_txid : bytes → rstring := hash_to_rpc.

(** [op_return_payload] on the hexadecimal script; an error of the decoder is [None],
    its panic is not. *)
Definition payload_of_hex (script_hex : rstring) : result stop (option bytes) :=
  match from_hex script_hex with
  | Ok script => Ok (op_return_payload script)
  | Err Sliced => Err Crash
  | Err _ => Ok None
  end.

(** ** The state *)
Record NodeChain := {
  nc_network : Network;
  nc_start : Z;
  nc_tip : Z;
  nc_scanned : option (Z * bytes);
  nc_entries : list Entry;
  nc_mempool : list Entry;
  nc_markers : gmap Z bool;
  nc_funding : gmap Z (bytes * Z);
}.

(** [BitcoinAnchorChain::find] *)
Definition node_find (c : NodeChain) (r : AnchorRef) : option Entry :=
  let matches e := bool_decide (e_txid e = txid r) &&
    (bool_decide (e_location e = ref_location r) || bool_decide (ref_location r = MEMPOOL_LOCATION)) in
  match find_first matches (nc_entries c) with
  | Some e => Some e
  | None => find_first matches (nc_mempool c)
  end.

Section chain.
Context `{Poseidon, Sha256d, Sha256}.

(** [impl AnchorChain for BitcoinAnchorChain] *)
Definition node_occurrences (c : NodeChain) (nf : bytes) : list Location :=
  merge_sort loc_le (e_location <$> filter (λ e, well_formed (e_record e) (e_ctx e) nf = true) (nc_entries c)).

Definition node_confirmations (c : NodeChain) (h : Z) : Z :=
  if (h =? 0) || (h >? nc_tip c) then 0 else nc_tip c - h + 1.

Definition node_chain (c : NodeChain) : AnchorChain := {|
  Chain.tip_height := nc_tip c;
  anchor_at r := e_record <$> node_find c r;
  proof_record_at := default_proof_record_at (λ r, e_record <$> node_find c r);
  ctx_at r := e_ctx <$> node_find c r;
  locate r := e_location <$> node_find c r;
  first_nullifier_occurrence nf := head (node_occurrences c nf);
  nullifier_occurrences := node_occurrences c;
  anchors_up_to h := merge_sort loc_key_le
    ((λ e, (e_location e, e_record e)) <$> filter (λ e, height (e_location e) ≤ h) (nc_entries c));
  confirmations_at := node_confirmations c;
|}.

(** ** Scanning a block *)

(** The loop over the outputs: the first data output of 64 bytes. *)
Fixpoint first_payload (vout : list Value) : result stop (option bytes) :=
  match vout with
  | [] => Ok None
  | output :: vout =>
    let script := json_get output "scriptPubKey" in
    if bool_decide (and_get script "type" ≫= as_str = Some (lit "nulldata")) then
      found ← match and_get script "hex" ≫= as_str with
              | Some hex => payload_of_hex hex
              | None => Ok None
              end;
      match found with Some payload => Ok (Some payload) | None => first_payload vout end
    else first_payload vout
  end.

Definition scan_tx (tx : Value) (height position : Z) : result stop (option Entry) :=
  txid_hex ← ok_or (json_get tx "txid" ≫= as_str) (Raise (NMalformed "scanned transaction has no `txid`"));
  match (json_get tx "vin" ≫= as_array) ≫= head with
  | None => Ok None
  | Some vin0 =>
    match json_get vin0 "txid" ≫= as_str, json_get vin0 "vout" ≫= as_u64 with
    | Some prev_txid, Some prev_vout =>
      ensure (prev_vout <=? u32_max) (Raise (NMalformed "scanned vin `vout` overflows u32"));;
      prev ← hash_from_rpc prev_txid;
      let ctx := funding_ctx prev prev_vout in
      match json_get tx "vout" ≫= as_array with
      | None => Ok None
      | Some vout =>
        found ← first_payload vout;
        match found with
        | None => Ok None
        | Some payload =>
          txid ← hash_from_rpc txid_hex;
          Ok (Some {| e_txid := txid; e_location := MkLocation height position;
                      e_record := record_from_bytes payload; e_ctx := ctx |})
        end
      end
    | _, _ => Ok None
    end
  end.

(** Whether an output of the transaction is a marker. *)
Definition tx_has_marker (tx : Value) : bool :=
  match json_get tx "vout" ≫= as_array with
  | Some vout => existsb (λ o,
      match and_get (json_get o "scriptPubKey") "hex" ≫= as_str with
      | Some script => bool_decide (script = to_hex MARKER_SPK) || bool_decide (script = to_hex LEGACY_MARKER_SPK)
      | None => false
      end) vout
  | None => false
  end.

Context {S : Type} `{!NodeEnv S}.
Abbreviation op := (act (NodeChain * S)).

Definition node {A} (m : act S A) : op A := λ '(c, s), let '(r, s) := m s in (r, (c, s)).
Definition chain_state : op NodeChain := λ '(c, s), (Ok c, (c, s)).
Definition update (f : NodeChain → NodeChain) : op () := λ '(c, s), (Ok tt, (f c, s)).

Definition with_scan (scanned : option (Z * bytes)) (es : list Entry) (marks : gmap Z bool) (c : NodeChain)
  : NodeChain := {| nc_network := nc_network c; nc_start := nc_start c; nc_tip := nc_tip c;
    nc_scanned := scanned; nc_entries := es; nc_mempool := nc_mempool c; nc_markers := marks;
    nc_funding := nc_funding c |}.
Definition with_tip (tip : Z) (c : NodeChain) : NodeChain := {| nc_network := nc_network c;
    nc_start := nc_start c; nc_tip := tip; nc_scanned := nc_scanned c; nc_entries := nc_entries c;
    nc_mempool := nc_mempool c; nc_markers := nc_markers c; nc_funding := nc_funding c |}.
Definition with_mempool (es : list Entry) (c : NodeChain) : NodeChain := {| nc_network := nc_network c;
    nc_start := nc_start c; nc_tip := nc_tip c; nc_scanned := nc_scanned c; nc_entries := nc_entries c;
    nc_mempool := es; nc_markers := nc_markers c; nc_funding := nc_funding c |}.
Definition push_entry (e : Entry) (c : NodeChain) : NodeChain :=
  with_scan (nc_scanned c) (nc_entries c ++ [e]) (nc_markers c) c.

(** The loop of [scan_block]: entries found before an error stay. *)
Fixpoint scan_txs (txs : list Value) (height position : Z) (has_marker : bool) : op bool :=
  match txs with
  | [] => mret has_marker
  | tx :: txs =>
    let has_marker := has_marker || tx_has_marker tx in
    found ← pure (scan_tx tx height (position mod 2 ^ 32));
    match found with Some e => update (push_entry e) | None => mret tt end;;
    scan_txs txs height (position + 1) has_marker
  end.

Definition scan_block (block : Value) (height : Z) : op () :=
  txs ← required (json_get block "tx" ≫= as_array) (NMalformed "getblock: no `tx` array");
  has_marker ← scan_txs txs height 0 false;
  update (λ c, with_scan (nc_scanned c) (nc_entries c) (<[height := has_marker]> (nc_markers c)) c).

(** [block_has_marker] *)
Definition block_has_marker (c : NodeChain) (height : Z) : option bool := nc_markers c !! height.

(** ** The index file *)
Definition NODE_MAGIC : rstring := lit "opencsv-bitcoin-index-v2".
Definition NODE_MAGIC_V1 : rstring := lit "opencsv-bitcoin-index-v1".

(** A [BTreeMap] is iterated in the order of its keys. *)
Definition key_le {A} (x y : Z * A) : Prop := x.1 ≤ y.1.
#[export] Instance key_le_dec {A} : RelDecision (@key_le A).
Proof. intros x y. unfold key_le. apply _. Defined.
Definition in_order {A} (m : gmap Z A) : list (Z * A) := merge_sort key_le (map_to_list m).

Definition entry_words (e : Entry) : list rstring :=
  [lit "entry"; decimal (height (e_location e)); decimal (loc_position (e_location e));
   hash_to_rpc (e_txid e); to_hex (e_ctx e); to_hex (record_to_bytes (e_record e))].

Definition node_words (c : NodeChain) : list (list rstring) :=
  [[NODE_MAGIC]; [lit "network"; network_name (nc_network c)]; [lit "start"; decimal (nc_start c)]] ++
  match nc_scanned c with
  | Some (height, hash) => [[lit "scanned"; decimal height; hash_to_rpc hash]]
  | None => []
  end ++
  ((λ '(h, m), [lit "marker"; decimal h; decimal (if m : bool then 1 else 0)]) <$> in_order (nc_markers c)) ++
  ((λ '(n, (txid, vout)), [lit "fundingutxo"; decimal n; hash_to_rpc txid; decimal vout])
     <$> in_order (nc_funding c)) ++
  (entry_words <$> nc_entries c).

(** [persist] *)
Definition node_persist : op () :=
  c ← chain_state;
  node (write_index (text_of (node_words c))).

(** The variables of the loop of [load_index]. *)
Record Loading := {
  ld_start : option Z;
  ld_scanned : option (Z * bytes);
  ld_entries : list Entry;
  ld_markers : gmap Z bool;
  ld_funding : gmap Z (bytes * Z);
}.

Definition bad : stop := Raise (NDecode "malformed line").
Definition file_hex (s : rstring) : result stop bytes :=
  match from_hex s with Ok b => Ok b | Err Sliced => Err Crash | Err _ => Err bad end.
Definition file_array (n : nat) (s : rstring) : result stop bytes :=
  b ← file_hex s; ensure (bool_decide (length b = n)) bad;; Ok b.
Definition file_hash (s : rstring) : result stop bytes := reverse <$> file_array 32 s.
Definition file_number (parse : rstring → option Z) (s : rstring) : result stop Z := ok_or (parse s) bad.

Definition load_fields (network : Network) (d : Loading) (fields : list rstring) : result stop Loading :=
  match fields with
  | [key; v] =>
    if bool_decide (key = lit "network") then
      ensure (bool_decide (network_parse v = Some network)) (Raise (NDecode "index is for another network"));;
      Ok d
    else if bool_decide (key = lit "start") then
      h ← file_number parse_u64 v;
      Ok {| ld_start := Some h; ld_scanned := ld_scanned d; ld_entries := ld_entries d;
            ld_markers := ld_markers d; ld_funding := ld_funding d |}
    else Err bad
  | [key; h; v] =>
    if bool_decide (key = lit "marker") then
      height ← file_number parse_u64 h;
      m ← (if bool_decide (v = lit "0") then Ok false else if bool_decide (v = lit "1") then Ok true
           else Err bad);
      Ok {| ld_start := ld_start d; ld_scanned := ld_scanned d; ld_entries := ld_entries d;
            ld_markers := <[height := m]> (ld_markers d); ld_funding := ld_funding d |}
    else if bool_decide (key = lit "scanned") then
      height ← file_number parse_u64 h;
      hash ← file_hash v;
      Ok {| ld_start := ld_start d; ld_scanned := Some (height, hash); ld_entries := ld_entries d;
            ld_markers := ld_markers d; ld_funding := ld_funding d |}
    else Err bad
  | [key; count; txid; vout] =>
    if bool_decide (key = lit "fundingutxo") then
      count ← file_number parse_u8 count;
      txid ← file_hash txid;
      vout ← file_number parse_u32 vout;
      Ok {| ld_start := ld_start d; ld_scanned := ld_scanned d; ld_entries := ld_entries d;
            ld_markers := ld_markers d; ld_funding := <[count := (txid, vout)]> (ld_funding d) |}
    else Err bad
  | [key; h; p; txid; ctx; record] =>
    if bool_decide (key = lit "entry") then
      record ← file_array ANCHOR_SIZE record;
      txid ← file_hash txid;
      height ← file_number parse_u64 h;
      position ← file_number parse_u32 p;
      ctx ← file_array 32 ctx;
      Ok {| ld_start := ld_start d; ld_scanned := ld_scanned d;
            ld_entries := ld_entries d ++ [{| e_txid := txid; e_location := MkLocation height position;
              e_record := record_from_bytes record; e_ctx := ctx |}];
            ld_markers := ld_markers d; ld_funding := ld_funding d |}
    else Err bad
  | _ => Err bad
  end.

Fixpoint load_lines (network : Network) (d : Loading) (ls : list rstring) : result stop Loading :=
  match ls with
  | [] => Ok d
  | l :: ls =>
    if bool_decide (trim l = []) then load_lines network d ls
    else d ← load_fields network d (split_whitespace (trim l)); load_lines network d ls
  end.

(** [load_index]: [None] when there is no file, or one of the first version. *)
Definition load_index (network : Network) (file : FileRead NodeError) : result stop (option (Z * Loading)) :=
  match file with
  | NoFile => Ok None
  | Unreadable e => Err (Raise e)
  | Contents text =>
    match lines text with
    | first :: ls =>
      if bool_decide (trim first = NODE_MAGIC_V1) then Ok None
      else if bool_decide (trim first = NODE_MAGIC) then
        d ← load_lines network {| ld_start := None; ld_scanned := None; ld_entries := []; ld_markers := ∅;
                                  ld_funding := ∅ |} ls;
        start ← ok_or (ld_start d) (Raise (NDecode "missing `start` line"));
        Ok (Some (start, d))
      else Err (Raise (NDecode "bad magic line"))
    | [] => Err (Raise (NDecode "bad magic line"))
    end
  end.

Definition load_or_init (requested : option Z) : op () := λ '(c, s),
  match load_index (nc_network c) (read_index s) with
  | Err e => (Err e, (c, s))
  | Ok (Some (start, d)) =>
    if bool_decide (requested = None) || bool_decide (requested = Some start) then
      (Ok tt, ({| nc_network := nc_network c; nc_start := start; nc_tip := nc_tip c;
                  nc_scanned := ld_scanned d; nc_entries := ld_entries d; nc_mempool := nc_mempool c;
                  nc_markers := ld_markers d; nc_funding := ld_funding d |}, s))
    else (Ok tt, ({| nc_network := nc_network c; nc_start := default (nc_tip c) requested; nc_tip := nc_tip c;
                     nc_scanned := None; nc_entries := []; nc_mempool := nc_mempool c; nc_markers := ∅;
                     nc_funding := nc_funding c |}, s))
  | Ok None =>
    (Ok tt, ({| nc_network := nc_network c; nc_start := default (nc_tip c) requested; nc_tip := nc_tip c;
                nc_scanned := None; nc_entries := []; nc_mempool := nc_mempool c; nc_markers := ∅;
                nc_funding := nc_funding c |}, s))
  end.

(** ** Following the chain *)

(** One turn of the loop over the heights. *)
Definition scan_node_height (height : Z) : op () :=
  hash ← node (call_str "getblockhash" (VArray [jnum height]));
  block ← node (call "getblock" (VArray [VString hash; jnum 2]));
  scan_block block height;;
  h ← pure (hash_from_rpc hash);
  update (λ c, with_scan (Some (height, h)) (nc_entries c) (nc_markers c) c).

Fixpoint scan_node_heights (n : nat) (height : Z) : op () :=
  match n with
  | O => mret tt
  | Datatypes.S n => scan_node_height height;; scan_node_heights n (height + 1)
  end.

(** The check of the last scanned hash; a stale one clears the index. *)
Definition check_scanned : op () :=
  c ← chain_state;
  match nc_scanned c with
  | None => mret tt
  | Some (h, hash) =>
    actual ← node (call_str "getblockhash" (VArray [jnum h]));
    actual ← pure (hash_from_rpc actual);
    if bool_decide (actual = hash) then mret tt
    else update (with_scan None [] ∅)
  end.

Definition next_height (c : NodeChain) : Z :=
  match nc_scanned c with Some (h, _) => h + 1 | None => nc_start c end.

Definition prune_mempool (c : NodeChain) : NodeChain :=
  with_mempool (filter (λ m, ¬ Exists (λ e, e_txid e = e_txid m) (nc_entries c)) (nc_mempool c)) c.

Definition refresh : op () :=
  v ← node (call "getblockcount" (VArray []));
  tip ← required (as_u64 v) (NMalformed "getblockcount: not a number");
  update (with_tip tip);;
  check_scanned;;
  c ← chain_state;
  let n := Z.to_nat (tip - next_height c + 1) in
  scan_node_heights n (next_height c);;
  update prune_mempool;;
  if bool_decide (n = O) then mret tt else node_persist.

(** [with_transport]: the chain an opened backend starts from, or why it does not. *)
Definition open_at (config : Config) (tip : Z) : act S NodeChain := λ s,
  let fresh := {| nc_network := cfg_network config; nc_start := 0; nc_tip := tip; nc_scanned := None;
                  nc_entries := []; nc_mempool := []; nc_markers := ∅; nc_funding := ∅ |} in
  match (load_or_init (scan_from config);; refresh) (fresh, s) with
  | (Ok _, (c, s)) => (Ok c, s)
  | (Err e, (_, s)) => (Err e, s)
  end.

Definition with_transport (config : Config) : act S NodeChain :=
  info ← call "getblockchaininfo" (VArray []);
  actual ← required (json_get info "chain" ≫= as_str) (NMalformed "getblockchaininfo: no `chain`");
  (if bool_decide (actual = rpc_chain_name (cfg_network config)) then mret tt
   else raise (NWrongNetwork (cfg_network config) actual));;
  tip ← required (json_get info "blocks" ≫= as_u64) (NMalformed "getblockchaininfo: no `blocks`");
  open_at config tip.

(** ** Writing an anchor *)
Definition note_mempool (txid : bytes) (record : AnchorRecord) (ctx : bytes) : op () :=
  update (λ c, with_mempool (nc_mempool c ++
    [{| e_txid := txid; e_location := MEMPOOL_LOCATION; e_record := record; e_ctx := ctx |}]) c).

Definition funding_utxo (c : NodeChain) (payload_count : Z) : option (bytes * Z) :=
  nc_funding c !! payload_count.

Definition set_funding_utxo (payload_count : Z) (outpoint : bytes * Z) : op () :=
  update (λ c, {| nc_network := nc_network c; nc_start := nc_start c; nc_tip := nc_tip c;
    nc_scanned := nc_scanned c; nc_entries := nc_entries c; nc_mempool := nc_mempool c;
    nc_markers := nc_markers c; nc_funding := <[payload_count := outpoint]> (nc_funding c) |});;
  node_persist.

(** The inputs of the funded transaction. *)
Fixpoint funding_candidates (vin : list Value) : result stop (list (rstring * Z)) :=
  match vin with
  | [] => Ok []
  | input :: vin =>
    txid ← ok_or (json_get input "txid" ≫= as_str) (Raise (NMalformed "vin entry without `txid`"));
    n ← ok_or (json_get input "vout" ≫= as_u64) (Raise (NMalformed "vin entry without `vout`"));
    ensure (n <=? u32_max) (Raise (NMalformed "`vout` overflows u32"));;
    rest ← funding_candidates vin;
    Ok ((txid, n) :: rest)
  end.

(** The first input whose context gives a record that parses cleanly; [build] is the
    caller's closure. *)
Fixpoint choose_input (build : bytes → AnchorRecord) (i : nat) (candidates : list (rstring * Z))
  : result stop (option (nat * bytes * AnchorRecord)) :=
  match candidates with
  | [] => Ok None
  | (txid, n) :: rest =>
    prev ← hash_from_rpc txid;
    let ctx := funding_ctx prev n in
    let record := build ctx in
    if parses_cleanly record then Ok (Some (i, ctx, record))
    else choose_input build (Datatypes.S i) rest
  end.

Definition input_json (c : rstring * Z) : Value := VObject [(lit "txid", VString c.1); (lit "vout", jnum c.2)].

(** Identical outputs, the record in place of the dummy. *)
Fixpoint final_outputs (record_hex : rstring) (vout : list Value) : result stop (list Value) :=
  match vout with
  | [] => Ok []
  | output :: vout =>
    script ← ok_or (json_get output "scriptPubKey") (Raise (NMalformed "vout entry without `scriptPubKey`"));
    out ← (if bool_decide (json_get script "type" ≫= as_str = Some (lit "nulldata"))
           then Ok (VObject [(lit "data", VString record_hex)])
           else address ← ok_or (json_get script "address" ≫= as_str)
                            (Raise (NMalformed "vout entry without `address`"));
                Ok (VObject [(address, default Null (json_get output "value"))]));
    rest ← final_outputs record_hex vout;
    Ok (out :: rest)
  end.

Definition MARKER_DUST_BTC : Value := VNumber (lit "5.46e-6").

(** The text of the signing error. *)
Definition signing_error `{!Serde} (signed : Value) : rstring :=
  match json_get signed "errors" with Some v => to_string v | None => lit "unknown signing error" end.

Definition anchor `{!Serde} (build : bytes → AnchorRecord) : op AnchorRef :=
  c ← chain_state;
  marker ← pure (ok_or (marker_address (nc_network c)) Crash);
  raw1 ← node (call_str "createrawtransaction" (VArray [VArray [];
    VArray [VObject [(lit "data", VString (to_hex (zeros 64)))]; VObject [(marker, MARKER_DUST_BTC)]]]));
  funded ← node (call "fundrawtransaction" (VArray [VString raw1;
    VObject [(lit "change_position", jnum 2)]]));
  funded_hex ← required (json_get funded "hex" ≫= as_str) (NMalformed "fundrawtransaction: no `hex`");
  tx ← node (call "decoderawtransaction" (VArray [VString funded_hex]));
  vin ← required (json_get tx "vin" ≫= as_array) (NMalformed "funded transaction: no `vin`");
  vout ← required (json_get tx "vout" ≫= as_array) (NMalformed "funded transaction: no `vout`");
  candidates ← pure (funding_candidates vin);
  (if bool_decide (candidates = []) then raise NNoFundingInputs else mret tt);;
  chosen ← pure (choose_input build 0 candidates);
  '(index, ctx, record) ← required chosen NTagCollision;
  first ← pure (ok_or (candidates !! index) Crash);
  let inputs := input_json <$> first :: delete index candidates in
  outputs ← pure (final_outputs (to_hex (record_to_bytes record)) vout);
  raw2 ← node (call_str "createrawtransaction" (VArray [VArray inputs; VArray outputs]));
  signed ← node (call "signrawtransactionwithwallet" (VArray [VString raw2]));
  (if bool_decide (json_get signed "complete" ≫= as_bool = Some true) then mret tt
   else raise (NSigningFailed (signing_error signed)));;
  signed_hex ← required (json_get signed "hex" ≫= as_str) (NMalformed "signrawtransactionwithwallet: no `hex`");
  txid_hex ← node (call_str "sendrawtransaction" (VArray [VString signed_hex]));
  txid ← pure (hash_from_rpc txid_hex);
  note_mempool txid record ctx;;
  mret (MkRef txid MEMPOOL_LOCATION).

(** [broadcast_transaction]: a transaction already in the mempool, or in the chain, is
    a success. *)
Definition broadcast_transaction `{!BitcoinLib} (t : BtcTx) : act S rstring :=
  let expected := display_txid (tx_id (chain_tx t)) in
  entry ← attempt (call "getmempoolentry" (VArray [VString expected]));
  match entry with
  | Ok _ => mret expected
  | Err (Raise (NRpc (-5) _)) =>
    sent ← attempt (call_str "sendrawtransaction" (VArray [VString (to_hex (btx_serialize t))]));
    match sent with
    | Ok txid => if bool_decide (txid = expected) then mret txid
                 else raise (NMalformed "sendrawtransaction returned another txid")
    | Err (Raise (NRpc (-27) _)) => mret expected
    | Err e => pure (Err e)
    end
  | Err e => pure (Err e)
  end.

(** [generate_blocks] *)
Definition generate_blocks (n : Z) : op () :=
  c ← chain_state;
  (if bool_decide (nc_network c = Regtest) then mret tt else raise NNotRegtest);;
  address ← node (call_str "getnewaddress" (VArray []));
  node (call "generatetoaddress" (VArray [jnum n; VString address]));;
  refresh.
End chain.
