(* ===== verification/NodeScan.v ===== *)
(** * What the node-backed chain knows

    Theorems about [NodeChain.v] against any node that answers for a list of blocks:
    the index follows that list through reorganisations, its occurrences are exactly the
    solo records of the scanned blocks, and spends inside batches are not among them. *)

From S2P Require Import Prelude Text Field Commitments Kernel Anchor Batch Chain Accept Wire Block.
From S2P Require Import Network Peer HeaderChain FullScan Scan ScanFile Bitcoin Bech32 Rpc NodeChain.
#[local] Open Scope Z_scope.

(** ** What the index should hold *)
Section reference.
Context `{Poseidon, Sha256d, Sha256}.

(** The record of one transaction, batches not opened. *)
Definition solo_entry (tx : Transaction) (h position : Z) : option Entry :=
  if is_coinbase tx then None else
  funding ← head (inputs tx);
  payload ← find_map (λ output, op_return_payload (script_pubkey output)) (outputs tx);
  Some {| e_txid := tx_id tx; e_location := MkLocation h position; e_record := record_from_bytes payload;
          e_ctx := funding_ctx (op_txid (prev funding)) (vout (prev funding)) |}.

Definition entries_from (h : Z) (n : nat) (l : list Transaction) : list Entry :=
  concat (imap (λ i tx, option_list (solo_entry tx h (Z.of_nat (n + i) mod 2 ^ 32))) l).
Definition block_entries (b : Block) (h : Z) : list Entry := entries_from h 0 (txs b).

Definition tx_marker (tx : Transaction) : bool := existsb (λ o, is_marker_spk (script_pubkey o)) (outputs tx).
Definition block_marker (b : Block) : bool := existsb tx_marker (txs b).

(** The blocks of a view from [start] to [last], both included. *)
Definition window (v : list Block) (start last : Z) : list Block :=
  take (Z.to_nat (last + 1 - start)) (drop (Z.to_nat start) v).
Definition entries_between (v : list Block) (start last : Z) : list Entry :=
  concat (imap (λ i b, block_entries b (start + Z.of_nat i)) (window v start last)).

Definition last_scanned (c : NodeChain) : Z :=
  match nc_scanned c with Some (h, _) => h | None => nc_start c - 1 end.

(** The index [c] is the one of the blocks [v] up to its last scanned height. *)
Record indexes (v : list Block) (c : NodeChain) : Prop := {
  ix_start : 0 ≤ nc_start c ≤ last_scanned c + 1;
  ix_hash : ∀ h hash, nc_scanned c = Some (h, hash) → nc_start c ≤ h ∧
    ∃ b, v !! Z.to_nat h = Some b ∧ header_hash (header b) = hash;
  ix_inside : last_scanned c = nc_start c - 1 ∨ last_scanned c < Z.of_nat (length v);
  ix_entries : nc_entries c = entries_between v (nc_start c) (last_scanned c);
  ix_markers : ∀ k, nc_markers c !! k =
    if decide (nc_start c ≤ k ≤ last_scanned c) then block_marker <$> v !! Z.to_nat k else None;
}.

(** ** What a node's JSON says of a block *)
Definition input_described (tx : Transaction) (j : Value) (i : TxIn) : Prop :=
  if is_coinbase tx then json_get j "txid" = None
  else json_get j "txid" ≫= as_str = Some (display_txid (op_txid (prev i))) ∧
       json_get j "vout" ≫= as_u64 = Some (vout (prev i)).

Definition output_described (j : Value) (o : TxOut) : Prop :=
  and_get (json_get j "scriptPubKey") "hex" ≫= as_str = Some (to_hex (script_pubkey o)) ∧
  (is_Some (op_return_payload (script_pubkey o)) →
     and_get (json_get j "scriptPubKey") "type" ≫= as_str = Some (lit "nulldata")).

Definition tx_described (j : Value) (tx : Transaction) : Prop :=
  json_get j "txid" ≫= as_str = Some (display_txid (tx_id tx)) ∧
  (∃ l, json_get j "vin" ≫= as_array = Some l ∧ Forall2 (input_described tx) l (inputs tx)) ∧
  (∃ l, json_get j "vout" ≫= as_array = Some l ∧ Forall2 output_described l (outputs tx)).

Definition block_described (j : Value) (b : Block) : Prop :=
  ∃ l, json_get j "tx" ≫= as_array = Some l ∧ Forall2 tx_described l (txs b).

Definition tx_typed (tx : Transaction) : Prop := Forall (λ i, outpoint_wf (prev i)) (inputs tx).
Definition block_typed (b : Block) : Prop :=
  Forall tx_typed (txs b) ∧ Z.of_nat (length (txs b)) ≤ 2 ^ 32.
End reference.

(** A node that answers, when it answers, for the blocks [view s]. *)
Class NodeLaws {S : Type} `{Sha256d, !NodeEnv S} (view : S → list Block) : Prop := {
  count_answer : ∀ s r s', call "getblockcount" (VArray []) s = (r, s') → view s' = view s ∧
    ∀ v, r = Ok v → as_u64 v = Some (Z.of_nat (length (view s)) - 1);
  hash_answer : ∀ s h r s', call "getblockhash" (VArray [jnum h]) s = (r, s') → view s' = view s ∧
    ∀ v, r = Ok v → ∃ b, view s !! Z.to_nat h = Some b ∧ v = VString (hash_to_rpc (header_hash (header b)));
  block_answer : ∀ s hash r s', call "getblock" (VArray [VString hash; jnum 2]) s = (r, s') →
    view s' = view s ∧
    ∀ v, r = Ok v → ∃ b, b ∈ view s ∧ hash = hash_to_rpc (header_hash (header b)) ∧ block_described v b;
  write_answer : ∀ s text r s', write_index text s = (r, s') → view s' = view s;
}.
#[global] Arguments NodeLaws S {_ _} view.

(** ** Lemmas: reading the JSON *)
Section reading.
Context `{Poseidon, !Sha256d, !Sha256dLaws _, !Sha256}.

Lemma hash_from_display h : length h = 32%nat → hash_from_rpc (hash_to_rpc h) = Ok h.
Proof.
  intros Hh. unfold hash_from_rpc, node_hex, hash_to_rpc, hash_to_display. rewrite from_to_hex.
  cbn [mbind result_bind]. rewrite length_reverse, bool_decide_eq_true_2 by done. cbn. by rewrite reverse_involutive.
Qed.

Lemma first_payload_described l os : Forall2 output_described l os →
  first_payload l = Ok (find_map (λ output, op_return_payload (script_pubkey output)) os).
Proof.
  induction 1 as [|j o l os [Hh Ht] _ IH]; [done|]. cbn [first_payload find_map].
  rewrite Hh. unfold payload_of_hex. rewrite from_to_hex. cbn [mbind result_bind].
  destruct (op_return_payload (script_pubkey o)) as [p|] eqn:Ep.
  - by rewrite bool_decide_eq_true_2 by (apply Ht; by eexists).
  - by case_bool_decide.
Qed.

Lemma scan_tx_described j tx h position : tx_typed tx → tx_described j tx →
  scan_tx j h position = Ok (solo_entry tx h position).
Proof.
  intros Hty (Hid & (vin & Hvin & Hins) & (vo & Hvo & Houts)). unfold scan_tx, solo_entry.
  rewrite Hid. cbn [ok_or mbind result_bind]. rewrite Hvin. cbn [mbind option_bind].
  unfold input_described in Hins. unfold tx_typed in Hty. destruct (is_coinbase tx).
  { destruct Hins as [|j0 i vin ins Hi _]; cbn [head]; [done|]. by rewrite Hi. }
  destruct Hins as [|j0 i vin ins [Ht Hv] _]; cbn [head]; [done|]. rewrite Ht, Hv.
  apply Forall_cons in Hty as [[H32 Hu] _]. rewrite (proj2 (Z.leb_le _ _)) by (unfold is_u32 in Hu; lia).
  cbn [ensure mbind result_bind]. unfold display_txid. rewrite (hash_from_display (op_txid (prev i))) by done.
  cbn [mbind result_bind option_bind]. rewrite Hvo, (first_payload_described _ _ Houts). cbn [mbind result_bind].
  destruct (find_map _ (outputs tx)) as [p|]; [|done].
  by rewrite hash_from_display by apply length_sha256d.
Qed.

Lemma tx_marker_described j tx : tx_described j tx → tx_has_marker j = tx_marker tx.
Proof.
  intros (_ & _ & (vo & Hvo & Houts)). unfold tx_has_marker, tx_marker. rewrite Hvo. clear Hvo.
  induction Houts as [|j0 o l os [Hh _] _ IH]; [done|]. cbn [existsb]. rewrite IH, Hh. f_equal.
  unfold is_marker_spk. f_equal; apply bool_decide_ext; (split; [apply to_hex_inj|by intros ->]).
Qed.

Context {S : Type} `{!NodeEnv S}.

(** What the loop of [scan_block] leaves behind. *)
Definition pushed (es : list Entry) (c : NodeChain) : NodeChain :=
  with_scan (nc_scanned c) (nc_entries c ++ es) (nc_markers c) c.

Lemma scan_txs_described h js l n m (c : NodeChain) (s : S) : Forall2 tx_described js l → Forall tx_typed l →
  scan_txs js h (Z.of_nat n) m (c, s) =
    (Ok (m || existsb tx_marker l), (pushed (entries_from h n l) c, s)).
Proof.
  intros Hd; revert n m c; induction Hd as [|j tx js l Hj _ IH]; intros n m c Ht.
  { cbn. rewrite orb_false_r. unfold pushed, entries_from. cbn. rewrite app_nil_r. by destruct c. }
  apply Forall_cons in Ht as [Htx Hl]. cbn [scan_txs]. unfold mbind, act_bind, pure.
  rewrite (scan_tx_described j tx) by done. rewrite (tx_marker_described j tx) by done.
  assert (Z.of_nat n + 1 = Z.of_nat (Datatypes.S n)) as -> by lia.
  assert (entries_from h n (tx :: l) =
    option_list (solo_entry tx h (Z.of_nat n mod 2 ^ 32)) ++ entries_from h (Datatypes.S n) l) as ->.
  { unfold entries_from. cbn [imap concat]. rewrite Nat.add_0_r. f_equal. f_equal. apply imap_ext.
    intros i x _. cbn. repeat f_equal. lia. }
  cbn [existsb]. rewrite orb_assoc.
  destruct (solo_entry tx h _) as [e|]; cbn [option_list]; unfold update, mret, act_ret.
  - rewrite IH by done. unfold pushed, push_entry. cbn. by rewrite <- app_assoc.
  - by rewrite IH.
Qed.

Lemma scan_block_described j b h (c : NodeChain) (s : S) : block_described j b → block_typed b →
  scan_block j h (c, s) = (Ok tt,
    (with_scan (nc_scanned c) (nc_entries c ++ block_entries b h)
       (<[h := block_marker b]> (nc_markers c)) c, s)).
Proof.
  intros (l & Hl & Hd) [Ht _]. unfold scan_block. rewrite act_bind_eq. unfold required, pure. rewrite Hl. cbn [ok_or].
  rewrite act_bind_eq. change 0 with (Z.of_nat 0). by rewrite (scan_txs_described h l (txs b)) by done.
Qed.
End reading.

(** ** Lemmas: windows of a view *)
Lemma window_snoc v start last b : 0 ≤ start ≤ last + 1 → v !! Z.to_nat (last + 1) = Some b →
  window v start (last + 1) = window v start last ++ [b].
Proof.
  intros Hs Hb. unfold window. replace (Z.to_nat (last + 1 + 1 - start)) with (S (Z.to_nat (last + 1 - start))) by lia.
  apply take_S_r. rewrite lookup_drop. replace (Z.to_nat start + Z.to_nat (last + 1 - start))%nat
    with (Z.to_nat (last + 1)) by lia. done.
Qed.

Lemma length_window v start last : 0 ≤ start ≤ last + 1 → last < Z.of_nat (length v) ∨ last = start - 1 →
  length (window v start last) = Z.to_nat (last + 1 - start).
Proof. intros Hs HL. unfold window. rewrite length_take, length_drop. lia. Qed.

Lemma window_share v v' start last : 0 ≤ start ≤ last + 1 →
  take (Z.to_nat (last + 1)) v = take (Z.to_nat (last + 1)) v' → window v start last = window v' start last.
Proof.
  intros Hs E. unfold window. rewrite !take_drop_commute.
  replace (Z.to_nat start + Z.to_nat (last + 1 - start))%nat with (Z.to_nat (last + 1)) by lia. by rewrite E.
Qed.

Lemma window_lookup v start last i b : 0 ≤ start ≤ last + 1 →
  window v start last !! i = Some b ↔ v !! Z.to_nat (start + Z.of_nat i) = Some b ∧ start + Z.of_nat i ≤ last.
Proof.
  intros Hs. unfold window. rewrite lookup_take_Some, lookup_drop.
  replace (Z.to_nat (start + Z.of_nat i)) with (Z.to_nat start + i)%nat by lia. split; intros []; (split; [done|lia]).
Qed.

Section follow.
Context `{Poseidon, !Sha256d, !Sha256dLaws _, !Sha256} {S : Type} `{!NodeEnv S} (view : S → list Block)
  `{!NodeLaws S view}.

Abbreviation hash_of b := (header_hash (header b)).

(** The chain fields an operation of the scan leaves alone. *)
Definition scan_frame (c c' : NodeChain) : Prop :=
  nc_network c' = nc_network c ∧ nc_start c' = nc_start c ∧ nc_tip c' = nc_tip c ∧
  nc_mempool c' = nc_mempool c ∧ nc_funding c' = nc_funding c.

Lemma scan_frame_with scanned es marks c : scan_frame c (with_scan scanned es marks c).
Proof. done. Qed.

Lemma node_getblockhash h c s x st :
  node (call_str "getblockhash" (VArray [jnum h])) (c, s) = (Ok x, st) →
  ∃ s', st = (c, s') ∧ view s' = view s ∧
    ∃ b, view s !! Z.to_nat h = Some b ∧ x = hash_to_rpc (hash_of b).
Proof.
  unfold node, call_str. rewrite act_bind_eq.
  destruct (call "getblockhash" _ s) as [r s'] eqn:E. apply (hash_answer (view := view)) in E as [Hv Ha].
  destruct r as [v|]; [|done]. destruct (Ha v eq_refl) as (b & Hb & ->). intros [= <- <-].
  exists s'. split_and!; [done|done|]. by exists b.
Qed.

Lemma node_getblock hash c s v st :
  node (call "getblock" (VArray [VString hash; jnum 2])) (c, s) = (Ok v, st) →
  ∃ s', st = (c, s') ∧ view s' = view s ∧
    ∃ b, b ∈ view s ∧ hash = hash_to_rpc (hash_of b) ∧ block_described v b.
Proof.
  unfold node. destruct (call "getblock" _ s) as [r s'] eqn:E.
  apply (block_answer (view := view)) in E as [Hv Ha]. intros [= -> <-].
  exists s'. split_and!; [done|done|]. by apply Ha.
Qed.

Lemma scan_node_height_spec (c : NodeChain) (s : S) st : indexes (view s) c →
  NoDup (header_hash ∘ header <$> view s) → Forall block_typed (view s) →
  scan_node_height (next_height c) (c, s) = (Ok tt, st) →
  indexes (view s) st.1 ∧ scan_frame c st.1 ∧ last_scanned st.1 = last_scanned c + 1 ∧ view st.2 = view s.
Proof.
  intros [Hs Hh Hi He Hm] Hd Ht E. unfold scan_node_height in E.
  assert (next_height c = last_scanned c + 1) as Hn
    by (unfold next_height, last_scanned; destruct (nc_scanned c) as [[]|]; lia).
  rewrite Hn in *. clear Hn. set (h := last_scanned c + 1) in *.
  apply act_bind_Ok in E as (x & st1 & E1 & E). apply node_getblockhash in E1 as (s1 & -> & V1 & b & Hb & ->).
  apply act_bind_Ok in E as (j & st2 & E2 & E).
  apply node_getblock in E2 as (s2 & -> & V2 & b' & Hb' & Eh & Hj). rewrite V1 in Hb'.
  apply to_hex_inj, (inj reverse) in Eh.
  apply list_elem_of_lookup in Hb' as [i Hi'].
  assert (i = Z.to_nat h) as ->.
  { eapply (NoDup_lookup _ _ _ (hash_of b) Hd); rewrite list_lookup_fmap; [rewrite Hi'|rewrite Hb]; cbn; by f_equal. }
  rewrite Hb in Hi'. injection Hi' as <-.
  assert (block_typed b) as Htb by (eapply Forall_lookup_1; [exact Ht|exact Hb]).
  apply act_bind_Ok in E as (u & st3 & E3 & E). rewrite (scan_block_described j b) in E3 by done.
  injection E3 as <- <-. apply act_bind_Ok in E as (y & st4 & E4 & E). unfold pure in E4.
  rewrite hash_from_display in E4 by apply length_sha256d. injection E4 as <- <-.
  unfold update in E. injection E as <-. cbn [fst snd]. split; [|split; [done|split; [done|congruence]]].
  constructor; cbn [with_scan last_scanned nc_scanned nc_start nc_entries nc_markers].
  - lia.
  - intros h' hash [= <- <-]. split; [lia|by exists b].
  - right. apply lookup_lt_Some in Hb. lia.
  - rewrite He. unfold entries_between, h. rewrite (window_snoc _ _ _ b) by (done || lia).
    rewrite imap_app, concat_app. cbn [imap concat]. rewrite app_nil_r. f_equal. f_equal.
    rewrite length_window by lia. rewrite Nat.add_0_r. lia.
  - intros k. destruct (decide (k = h)) as [->|Hk].
    + rewrite lookup_insert_eq, decide_True by lia. by rewrite Hb.
    + rewrite lookup_insert_ne by done. rewrite Hm. repeat case_decide; try done; lia.
Qed.

Lemma scan_node_heights_spec n : ∀ (c : NodeChain) (s : S) st, indexes (view s) c →
  NoDup (header_hash ∘ header <$> view s) → Forall block_typed (view s) →
  scan_node_heights n (next_height c) (c, s) = (Ok tt, st) →
  indexes (view s) st.1 ∧ scan_frame c st.1 ∧ last_scanned st.1 = last_scanned c + Z.of_nat n ∧
  view st.2 = view s.
Proof.
  induction n as [|n IH]; intros c s st Hi Hd Ht E; cbn [scan_node_heights] in E.
  { injection E as <-. cbn [fst snd]. split_and!; [done|done|lia|done]. }
  apply act_bind_Ok in E as ([] & [c1 s1] & E1 & E).
  destruct (scan_node_height_spec c s _ Hi Hd Ht E1) as (I1 & F1 & L1 & V1). cbn [fst snd] in *.
  assert (next_height c1 = next_height c + 1) as Hn.
  { revert L1. unfold next_height, last_scanned. destruct F1 as (_ & -> & _).
    destruct (nc_scanned c1) as [[]|], (nc_scanned c) as [[]|]; lia. }
  rewrite <- Hn in E. rewrite <- V1 in I1, Hd, Ht.
  destruct (IH c1 s1 st I1 Hd Ht E) as (I2 & F2 & L2 & V2). rewrite V1 in *.
  split_and!; [done| |lia|done]. unfold scan_frame in *. intuition congruence.
Qed.
End follow.

(** ** Refreshing *)

(** A hash fixes the block and everything below it: two views that show the same hash
    at a height agree up to that height. *)
Definition shares_history `{Sha256d} (v v' : list Block) : Prop := ∀ h b b',
  v !! h = Some b → v' !! h = Some b' → header_hash (header b) = header_hash (header b') →
  take (Datatypes.S h) v = take (Datatypes.S h) v'.

(** What a transaction's own record binds, batches not opened. *)
Definition solo_binds `{Poseidon, Sha256} (tx : Transaction) (nf : bytes) : Prop :=
  is_coinbase tx = false ∧ ∃ funding payload, head (inputs tx) = Some funding ∧
    find_map (λ output, op_return_payload (script_pubkey output)) (outputs tx) = Some payload ∧
    well_formed (record_from_bytes payload) (funding_ctx (op_txid (prev funding)) (vout (prev funding))) nf = true.

Section refreshing.
Context `{Poseidon, !Sha256d, !Sha256dLaws _, !Sha256} {S : Type} `{!NodeEnv S} (view : S → list Block)
  `{!NodeLaws S view}.

Lemma indexes_share v v' c : indexes v c → shares_history v v' →
  (∀ h hash, nc_scanned c = Some (h, hash) → ∃ b, v' !! Z.to_nat h = Some b ∧ header_hash (header b) = hash) →
  indexes v' c.
Proof.
  intros [Hs Hh Hi He Hm] Hsh Hv'. unfold last_scanned in *.
  destruct (nc_scanned c) as [[h hash]|] eqn:E.
  - destruct (Hh h hash eq_refl) as (Hsh' & b & Hb & Eb), (Hv' h hash eq_refl) as (b' & Hb' & Eb').
    assert (take (Z.to_nat (h + 1)) v = take (Z.to_nat (h + 1)) v') as Et.
    { replace (Z.to_nat (h + 1)) with (Datatypes.S (Z.to_nat h)) by lia. apply (Hsh _ b b'); congruence. }
    constructor; unfold last_scanned; rewrite E; [done|naive_solver| | |].
    + right. apply lookup_lt_Some in Hb'. lia.
    + rewrite He. unfold entries_between. by rewrite (window_share v v').
    + intros k. rewrite Hm. case_decide; [|done]. f_equal.
      rewrite <- (lookup_take_lt v (Z.to_nat (h + 1))), <- (lookup_take_lt v' (Z.to_nat (h + 1))) by lia. by rewrite Et.
  - constructor; unfold last_scanned; rewrite E; [done|done|by left| |].
    + rewrite He. unfold entries_between, window.
      by replace (Z.to_nat (nc_start c - 1 + 1 - nc_start c)) with 0%nat by lia.
    + intros k. rewrite Hm. case_decide; [lia|done].
Qed.

Lemma indexes_cleared v c : 0 ≤ nc_start c → indexes v (with_scan None [] ∅ c).
Proof.
  intros Hs. constructor; cbn [with_scan last_scanned nc_scanned nc_start nc_entries nc_markers]; [lia|done|by left| |].
  - unfold entries_between, window. by replace (Z.to_nat (nc_start c - 1 + 1 - nc_start c)) with 0%nat by lia.
  - intros k. rewrite lookup_empty. case_decide; [lia|done].
Qed.

Lemma check_scanned_spec v0 (c : NodeChain) (s : S) st : indexes v0 c → shares_history v0 (view s) →
  check_scanned (c, s) = (Ok tt, st) →
  indexes (view s) st.1 ∧ scan_frame c st.1 ∧ view st.2 = view s ∧
  (last_scanned st.1 = last_scanned c ∨ last_scanned st.1 = nc_start c - 1).
Proof.
  intros Hi Hsh E. unfold check_scanned in E. apply act_bind_Ok in E as (c0 & st0 & E0 & E).
  injection E0 as <- <-. destruct (nc_scanned c) as [[h hash]|] eqn:Ec.
  - apply act_bind_Ok in E as (x & st1 & E1 & E). apply (node_getblockhash view) in E1 as (s1 & -> & V1 & b & Hb & ->).
    apply act_bind_Ok in E as (y & st2 & E2 & E). unfold pure in E2.
    rewrite hash_from_display in E2 by apply length_sha256d. injection E2 as <- <-.
    case_bool_decide as Heq.
    + injection E as <-. cbn [fst snd]. split_and!; [|done|done|by left].
      apply (indexes_share v0); [done|done|]. intros h' hash' E'. rewrite Ec in E'. injection E' as <- <-.
      by exists b.
    + injection E as <-. cbn [fst snd]. split_and!; [|done|done|by right].
      apply indexes_cleared. apply Hi.
  - injection E as <-. cbn [fst snd]. split_and!; [|done|done|by left].
    apply (indexes_share v0); [done|done|]. intros h' hash' E'. by rewrite Ec in E'.
Qed.

Lemma indexes_ext v c c' : indexes v c → nc_start c' = nc_start c → nc_scanned c' = nc_scanned c →
  nc_entries c' = nc_entries c → nc_markers c' = nc_markers c → indexes v c'.
Proof.
  intros [Hs Hh Hi He Hm] E1 E2 E3 E4. assert (last_scanned c' = last_scanned c) as EL
    by (unfold last_scanned; by rewrite E1, E2).
  constructor; rewrite ?E1, ?E3, ?E4, ?EL; try done. by rewrite E2.
Qed.

Lemma refresh_indexes v0 (c : NodeChain) (s : S) c' s' : indexes v0 c → shares_history v0 (view s) →
  NoDup (header_hash ∘ header <$> view s) → Forall block_typed (view s) →
  refresh (c, s) = (Ok tt, (c', s')) →
  indexes (view s) c' ∧ nc_start c' = nc_start c ∧ nc_tip c' = Z.of_nat (length (view s)) - 1 ∧
  nc_tip c' ≤ last_scanned c' ∧ view s' = view s ∧
  nc_mempool c' = filter (λ m, ¬ Exists (λ e, e_txid e = e_txid m) (nc_entries c')) (nc_mempool c).
Proof.
  intros Hi Hsh Hd Ht E. unfold refresh in E. apply act_bind_Ok in E as (v & st1 & E1 & E).
  unfold node in E1. destruct (call "getblockcount" _ s) as [r s1] eqn:Ec.
  apply (count_answer (view := view)) in Ec as [V1 Ha]. injection E1 as -> <-. specialize (Ha v eq_refl).
  apply act_bind_Ok in E as (tip & st2 & E2 & E). unfold required, pure in E2. rewrite Ha in E2.
  injection E2 as <- <-. apply act_bind_Ok in E as (u & st3 & E3 & E). injection E3 as <- <-.
  set (tip := Z.of_nat (length (view s)) - 1) in *.
  apply act_bind_Ok in E as (u & [c2 s2] & E4 & E). destruct u.
  rewrite <- V1 in Hsh, Hd, Ht.
  apply (check_scanned_spec v0) in E4 as (I2 & F2 & V2 & _); [|by eapply indexes_ext|done]. cbn [fst snd] in *.
  apply act_bind_Ok in E as (c3 & st4 & E5 & E). injection E5 as <- <-.
  apply act_bind_Ok in E as (u & [c4 s4] & E6 & E). destruct u.
  rewrite <- V2 in I2, Hd, Ht. set (n := Z.to_nat (tip - next_height c2 + 1)) in *.
  destruct (scan_node_heights_spec view n c2 s2 _ I2 Hd Ht E6) as (I4 & F4 & L4 & V4). cbn [fst snd] in *.
  apply act_bind_Ok in E as (u & st5 & E7 & E). injection E7 as <- <-.
  assert (next_height c2 = last_scanned c2 + 1) as Hn
    by (unfold next_height, last_scanned; destruct (nc_scanned c2) as [[]|]; lia).
  destruct F2 as (_ & Fs2 & Ft2 & Fm2 & _), F4 as (_ & Fs4 & Ft4 & Fm4 & _). cbn [with_tip nc_tip nc_start nc_mempool] in *.
  assert (c' = prune_mempool c4 ∧ view s' = view s4) as [-> Vs].
  { case_bool_decide; [by injection E as <- <-|]. unfold node_persist in E.
    apply act_bind_Ok in E as (c5 & st5 & E8 & E). injection E8 as <- <-. unfold node in E.
    destruct (write_index _ s4) as [r5 s5] eqn:Ew. apply (write_answer (view := view)) in Ew.
    injection E as _ <- <-. done. }
  rewrite V2, V1 in *. split; [by eapply indexes_ext|]. cbn [prune_mempool with_mempool nc_start nc_tip nc_mempool nc_entries].
  split; [congruence|]. split; [congruence|]. split; [|split; [congruence|by rewrite Fm4, Fm2]].
  change (last_scanned (prune_mempool c4)) with (last_scanned c4). rewrite Ft4, Ft2. fold tip. lia.
Qed.

(** ** Occurrences *)
Lemma solo_entry_binds tx h p nf :
  (∃ e, solo_entry tx h p = Some e ∧ well_formed (e_record e) (e_ctx e) nf = true) ↔ solo_binds tx nf.
Proof.
  unfold solo_entry, solo_binds. destruct (is_coinbase tx); [split; [by intros (? & ? & _)|by intros [? _]]|].
  destruct (head (inputs tx)) as [f|]; cbn [mbind option_bind];
    [|split; [by intros (? & ? & _)|by intros (_ & ? & ? & ? & _)]].
  destruct (find_map _ (outputs tx)) as [p'|]; cbn [mbind option_bind];
    [|split; [by intros (? & ? & _)|by intros (_ & ? & ? & _ & ? & _)]].
  split; [intros (e & [= <-] & Hw); split; [done|by exists f, p']|].
  intros (_ & ? & ? & [= <-] & [= <-] & Hw). by eexists.
Qed.

Lemma solo_entry_location tx h p e : solo_entry tx h p = Some e → e_location e = MkLocation h p.
Proof.
  unfold solo_entry. destruct (is_coinbase tx); [done|].
  destruct (head (inputs tx)); cbn [mbind option_bind]; [|done].
  destruct (find_map _ (outputs tx)); cbn [mbind option_bind]; [|done]. by intros [= <-].
Qed.

Lemma elem_of_entries_from h l : ∀ n e, e ∈ entries_from h n l ↔
  ∃ i tx, l !! i = Some tx ∧ solo_entry tx h (Z.of_nat (n + i) mod 2 ^ 32) = Some e.
Proof.
  intros n e. unfold entries_from. rewrite list_elem_of_In, List.in_concat. split.
  - intros (es & Hes%list_elem_of_In & He%list_elem_of_In). apply list_elem_of_lookup in Hes as [i Hi].
    rewrite list_lookup_imap in Hi. apply fmap_Some in Hi as (tx & Htx & ->). exists i, tx. split; [done|].
    destruct (solo_entry tx h _) as [e'|]; cbn in He; [|by apply elem_of_nil in He].
    by apply list_elem_of_singleton in He as ->.
  - intros (i & tx & Htx & Es). exists [e]. split; [|by left]. apply list_elem_of_In, list_elem_of_lookup.
    exists i. rewrite list_lookup_imap, Htx. cbn. by rewrite Es.
Qed.

(** The entries of a block, and of a window, in strictly increasing places. *)
Lemma entries_from_sorted h l : ∀ n, Z.of_nat (n + length l) ≤ 2 ^ 32 →
  StronglySorted loc_lt (e_location <$> entries_from h n l) ∧
  Forall (λ e, height (e_location e) = h ∧ Z.of_nat n ≤ loc_position (e_location e)) (entries_from h n l).
Proof.
  induction l as [|tx l IH]; intros n Hn; [split; constructor|]. cbn [length] in Hn.
  assert (entries_from h n (tx :: l) =
    option_list (solo_entry tx h (Z.of_nat n mod 2 ^ 32)) ++ entries_from h (Datatypes.S n) l) as ->.
  { unfold entries_from. cbn [imap concat]. rewrite Nat.add_0_r. f_equal. f_equal. apply imap_ext.
    intros i x _. cbn. repeat f_equal. lia. }
  destruct (IH (Datatypes.S n) ltac:(lia)) as [Hs Hf].
  destruct (solo_entry tx h _) as [e|] eqn:Ee.
  - change (option_list (Some e) ++ ?r) with (e :: r).
    apply solo_entry_location in Ee. rewrite Z.mod_small in Ee by lia. rewrite fmap_cons. split.
    + apply StronglySorted_cons. split; [|done]. apply Forall_fmap. eapply Forall_impl; [exact Hf|].
      intros e' [Hh Hp]. cbn. rewrite Ee. right. cbn. lia.
    + constructor; [rewrite Ee; cbn; lia|]. eapply Forall_impl; [exact Hf|]. intros e' [Hh Hp]. split; [done|lia].
  - change (option_list None ++ ?r) with r. split; [done|].
    eapply Forall_impl; [exact Hf|]. intros e' [Hh Hp]. split; [done|lia].
Qed.

Lemma window_sorted bs start : Forall block_typed bs →
  let es := concat (imap (λ i b, block_entries b (start + Z.of_nat i)) bs) in
  StronglySorted loc_lt (e_location <$> es) ∧ Forall (λ e, start ≤ height (e_location e)) es.
Proof.
  revert start; induction bs as [|b bs IH]; intros start Ht; [split; constructor|].
  apply Forall_cons in Ht as [[_ HL] Ht]. cbn [imap concat]. rewrite Z.add_0_r.
  assert (imap ((λ i b, block_entries b (start + Z.of_nat i)) ∘ Datatypes.S) bs =
          imap (λ i b, block_entries b (start + 1 + Z.of_nat i)) bs) as ->
    by (apply imap_ext; intros; cbn; f_equal; lia).
  destruct (IH (start + 1) Ht) as [Hs Hf]. destruct (entries_from_sorted start (txs b) 0 HL) as [Hs0 Hf0].
  cbv zeta. rewrite fmap_app, Forall_app. split; [|split].
  - apply StronglySorted_app_2; [|done|done]. intros x y Hx Hy.
    apply list_elem_of_fmap in Hx as (ex & -> & Hx), Hy as (ey & -> & Hy). rewrite Forall_forall in Hf, Hf0.
    destruct (Hf0 ex Hx) as [Hh _]. specialize (Hf ey Hy). left. lia.
  - eapply Forall_impl; [exact Hf0|]. intros e [-> _]. lia.
  - eapply Forall_impl; [exact Hf|]. cbn. lia.
Qed.

Lemma node_occurrences_exact v c nf : indexes v c → Forall block_typed v →
  StronglySorted loc_lt (node_occurrences c nf) ∧
  ∀ l, l ∈ node_occurrences c nf ↔ ∃ i b pos tx, v !! Z.to_nat i = Some b ∧ nc_start c ≤ i ≤ last_scanned c ∧
    txs b !! pos = Some tx ∧ solo_binds tx nf ∧ l = MkLocation i (Z.of_nat pos).
Proof.
  intros [Hs Hh Hi He Hm] Ht. unfold node_occurrences. rewrite He. unfold entries_between.
  assert (Forall block_typed (window v (nc_start c) (last_scanned c))) as Hw
    by (unfold window; by apply Forall_take, Forall_drop).
  destruct (window_sorted _ (nc_start c) Hw) as [Hsort _]. cbv zeta in Hsort.
  pose proof (sorted_fmap_filter e_location (λ e, well_formed (e_record e) (e_ctx e) nf = true) _ Hsort) as Hsf.
  rewrite sort_sorted by exact Hsf. split; [exact Hsf|]. intros l. rewrite list_elem_of_fmap.
  setoid_rewrite list_elem_of_filter. rewrite Forall_forall in Hw. split.
  - intros (e & -> & Hbind & Hin). apply list_elem_of_In, List.in_concat in Hin as (es & Hes & Hin).
    apply list_elem_of_In, list_elem_of_lookup in Hes as [i Hes]. rewrite list_lookup_imap in Hes.
    apply fmap_Some in Hes as (b & Hb & ->).
    apply list_elem_of_In, elem_of_entries_from in Hin as (pos & tx & Htx & Ee).
    pose proof (list_elem_of_lookup_2 _ _ _ Hb) as Hbin. apply Hw in Hbin as [_ HL].
    apply window_lookup in Hb as [Hb Hle]; [|lia].
    exists (nc_start c + Z.of_nat i), b, pos, tx. split_and!; [done|lia|lia|done| |].
    + apply (solo_entry_binds tx (nc_start c + Z.of_nat i) (Z.of_nat (0 + pos) mod 2 ^ 32)). by exists e.
    + apply solo_entry_location in Ee. rewrite Ee. f_equal. apply lookup_lt_Some in Htx.
      apply Z.mod_small. lia.
  - intros (i & b & pos & tx & Hb & Hr & Htx & Hbind & ->).
    apply (solo_entry_binds tx i (Z.of_nat (0 + pos) mod 2 ^ 32)) in Hbind as (e & Ee & Hwf).
    assert (block_typed b) as [_ HL] by (eapply Forall_lookup_1; [exact Ht|exact Hb]).
    exists e. split; [|split; [done|]].
    + apply solo_entry_location in Ee. rewrite Ee. f_equal. apply lookup_lt_Some in Htx.
      rewrite Z.mod_small by lia. lia.
    + apply list_elem_of_In, List.in_concat. exists (block_entries b i). split.
      * apply list_elem_of_In, list_elem_of_lookup. exists (Z.to_nat (i - nc_start c)). rewrite list_lookup_imap.
        rewrite (proj2 (window_lookup v (nc_start c) (last_scanned c) (Z.to_nat (i - nc_start c)) b ltac:(lia)));
          [cbn; repeat f_equal; lia|]. split; [|lia].
        replace (nc_start c + Z.of_nat (Z.to_nat (i - nc_start c))) with i by lia. done.
      * apply list_elem_of_In, elem_of_entries_from. by exists pos, tx.
Qed.
End refreshing.

(** ** The theorems *)
Section theorems.
Context `{Poseidon, !Sha256d, !Sha256dLaws _, !Sha256} {S : Type} `{!NodeEnv S} (view : S → list Block)
  `{!NodeLaws S view}.

(** A successful refresh leaves the index of exactly the blocks the node shows,
    whatever branch it was built on before: from the start height up to the tip, every
    record-bearing transaction is an entry at its place and every block's marker flag is
    right; a nullifier's occurrences are, in chain order, precisely the transactions
    whose own record binds it, the chain view obeys the laws of a backend, and the
    mempool keeps what has not been mined. *)
Theorem refresh_follows_node v0 (c : NodeChain) (s : S) c' s' : indexes v0 c → shares_history v0 (view s) →
  NoDup (header_hash ∘ header <$> view s) → Forall block_typed (view s) →
  refresh (c, s) = (Ok tt, (c', s')) →
  indexes (view s) c' ∧ nc_start c' = nc_start c ∧ nc_tip c' = Z.of_nat (length (view s)) - 1 ∧
  nc_tip c' ≤ last_scanned c' ∧ view s' = view s ∧
  nc_mempool c' = filter (λ m, ¬ Exists (λ e, e_txid e = e_txid m) (nc_entries c')) (nc_mempool c) ∧
  ChainLaws (node_chain c') ∧
  ∀ nf l, l ∈ nullifier_occurrences (node_chain c') nf ↔ ∃ i b pos tx,
    view s !! Z.to_nat i = Some b ∧ nc_start c ≤ i ≤ last_scanned c' ∧
    txs b !! pos = Some tx ∧ solo_binds tx nf ∧ l = MkLocation i (Z.of_nat pos).
Proof.
  intros Hi Hsh Hd Ht E. destruct (refresh_indexes view v0 c s c' s' Hi Hsh Hd Ht E) as (I & Es & Et & HL & Hv & Hm).
  split_and!; [done..| |].
  - constructor.
    + intros nf. by apply (node_occurrences_exact (view s)).
    + done.
    + intros r. cbn. destruct (node_find c' r); cbn; split; intros []; try done; by eexists.
    + intros r. cbn. destruct (node_find c' r); cbn; intros []; [by eexists|done].
  - intros nf l. destruct (node_occurrences_exact (view s) c' nf I Ht) as [_ Ho]. rewrite <- Es. apply Ho.
Qed.
End theorems.

Section batches.
Context `{Poseidon, !Sha256d, !Sha256}.

End batches.

(** ** Witnesses: a node with a batch and a later solo spend *)
Section demo.
#[local] Existing Instances demo_sponge demo_sponge_laws demo_sha demo_sha_laws FullScan.demo_sha256.

(** One participant's nullifier, spent inside a batch funded by another outpoint. *)
Definition batch_outpoint : OutPoint := {| op_txid := replicate 32 x08; vout := 0 |}.
Definition batch_ctx : bytes := funding_ctx (replicate 32 x08) 0.
Definition batch_payload : bytes := bound batch_ctx demo_nf.
Definition batch_record : AnchorRecord :=
  BatchHeader 1 (to_anchor (batch_commit [batch_payload] batch_ctx)).
Definition batch_tx : Transaction := {|
  tx_version := 2;
  inputs := [{| prev := batch_outpoint; script_sig := []; sequence := 0 |}];
  outputs := [{| tx_value := 0; script_pubkey := anchor_script (record_to_bytes batch_record) |}];
  lock_time := 0; witnesses := [envelope_encode [batch_payload] ++ [[x51]]];
|}.
Definition node_block (time : Z) (l : list Transaction) : Block := {|
  header := {| h_version := 2; prev_block := zeros 32; h_merkle_root := zeros 32;
               h_time := time; bits := 0x207fffff; h_nonce := 0 |};
  txs := l;
|}.
Definition demo_view : list Block := [node_block 0 []; node_block 1 [batch_tx]; node_block 2 [FullScan.scan_tx]].

(** What the node prints. *)
Definition input_json_of (i : TxIn) : Value :=
  VObject [(lit "txid", VString (display_txid (op_txid (prev i)))); (lit "vout", jnum (vout (prev i)))].
Definition output_json_of (o : TxOut) : Value :=
  VObject [(lit "scriptPubKey", VObject [(lit "hex", VString (to_hex (script_pubkey o)));
                                         (lit "type", jstr "nulldata")])].
Definition tx_json_of (tx : Transaction) : Value :=
  VObject [(lit "txid", VString (display_txid (tx_id tx))); (lit "vin", VArray (input_json_of <$> inputs tx));
           (lit "vout", VArray (output_json_of <$> outputs tx))].
Definition block_json_of (b : Block) : Value := VObject [(lit "tx", VArray (tx_json_of <$> txs b))].

Lemma tx_json_described tx : is_coinbase tx = false → tx_typed tx → tx_described (tx_json_of tx) tx.
Proof.
  intros Hc Ht. split; [done|]. split.
  - eexists. split; [reflexivity|]. unfold tx_typed in Ht. unfold input_described. rewrite Hc.
    clear Hc. apply Forall2_fmap_l, Forall_Forall2_diag. eapply Forall_impl; [exact Ht|]. intros i [_ Hv].
    split; [done|]. cbn. unfold parse_u64. apply parse_decimal; [|done].
    unfold is_u32, u32_max, u64_max in *. lia.
  - eexists. split; [reflexivity|]. apply Forall2_fmap_l, Forall_Forall2_diag, Forall_forall. by intros o _.
Qed.

Lemma block_json_described b : Forall (λ tx, is_coinbase tx = false ∧ tx_typed tx) (txs b) →
  block_described (block_json_of b) b.
Proof.
  intros Ht. eexists. split; [reflexivity|]. apply Forall2_fmap_l, Forall_Forall2_diag.
  eapply Forall_impl; [exact Ht|]. intros tx []. by apply tx_json_described.
Qed.

(** A node that shows those blocks and has no index file yet. *)
#[local] Instance demo_node : NodeEnv () := {|
  call method params u :=
    ((if String.eqb method "getblockcount" then Ok (jnum 2)
      else if String.eqb method "getblockhash" then
        match params with
        | VArray [VNumber t] =>
          match find_first (λ i, bool_decide (decimal i = t)) [0; 1; 2] with
          | Some i => match demo_view !! Z.to_nat i with
                      | Some b => Ok (VString (hash_to_rpc (header_hash (header b))))
                      | None => Err (Raise (NRpc (-8) []))
                      end
          | None => Err (Raise (NRpc (-8) []))
          end
        | _ => Err (Raise (NRpc (-1) []))
        end
      else if String.eqb method "getblock" then
        match params with
        | VArray (VString hash :: _) =>
          match find_first (λ b, bool_decide (hash = hash_to_rpc (header_hash (header b)))) demo_view with
          | Some b => Ok (block_json_of b)
          | None => Err (Raise (NRpc (-5) []))
          end
        | _ => Err (Raise (NRpc (-1) []))
        end
      else Err (Raise (NRpc (-32601) []))), u);
  read_index _ := NoFile;
  write_index _ u := (Ok tt, u);
|}.

Lemma decimal_single h i : 0 ≤ i < 10 → decimal i = decimal h → i = h.
Proof.
  intros Hi. unfold decimal. change (decimal_digits 20) with (decimal_digits (Datatypes.S (Datatypes.S 18))).
  cbn [decimal_digits]. rewrite (proj2 (Z.ltb_lt i 10)) by lia.
  destruct (h <? 10) eqn:E; [intros [= ?]; lia|]. bool_props. intros Ed. apply (f_equal length) in Ed.
  rewrite length_app in Ed. cbn [length] in Ed.
  destruct (decimal_digits_head 18 (h / 10)) as (d & r & _ & Er); [apply Z.div_pos; lia|].
  cbn [decimal_digits] in Er. rewrite Er in Ed. cbn [length] in Ed. lia.
Qed.

Lemma demo_view_typed : Forall (λ b, Forall (λ tx, is_coinbase tx = false ∧ tx_typed tx) (txs b)) demo_view.
Proof.
  repeat constructor; try (vm_compute; reflexivity); try (vm_compute; discriminate).
Qed.

Lemma demo_blocks_typed : Forall block_typed demo_view.
Proof.
  eapply Forall_lookup. intros i b Hb. pose proof (Forall_lookup_1 _ _ _ _ demo_view_typed Hb) as Ht. split.
  - eapply Forall_impl; [exact Ht|]. by intros tx [].
  - destruct i as [|[|[|i]]]; [injection Hb as <-; vm_compute; discriminate..|done].
Qed.

Lemma demo_hashes : NoDup (header_hash ∘ header <$> demo_view).
Proof. apply (bool_decide_unpack _). vm_compute. exact I. Qed.

#[local] Instance demo_node_laws : NodeLaws () (λ _, demo_view).
Proof.
  constructor.
  - intros [] r []. cbn. intros [= <-]. split; [done|]. by intros v [= <-].
  - intros [] h r []. cbn [call demo_node String.eqb Ascii.eqb Bool.eqb]. intros E. apply pair_equal_spec in E as [<- _]. split; [done|].
    intros v. change (jnum h) with (VNumber (decimal h)). cbv beta iota.
    destruct (find_first (λ i, bool_decide (decimal i = decimal h)) [0; 1; 2]) as [i|] eqn:Ef; [|done].
    apply find_first_Some in Ef as [Hin Ei]. apply bool_decide_eq_true in Ei.
    assert (i = h) as ->.
    { apply (decimal_single h i); [|done]. rewrite !elem_of_cons, elem_of_nil in Hin. lia. }
    destruct (demo_view !! Z.to_nat h) as [b|]; [|done]. intros [= <-]. by exists b.
  - intros [] hash r []. cbn [call demo_node String.eqb Ascii.eqb Bool.eqb]. intros E. apply pair_equal_spec in E as [<- _]. split; [done|].
    intros v. cbv beta iota. destruct (find_first (λ b, bool_decide (hash = hash_to_rpc (header_hash (header b)))) demo_view) as [b|] eqn:Ef; [|done]. intros [= <-].
    apply find_first_Some in Ef as [Hin Eb]. apply bool_decide_eq_true in Eb. exists b. split; [exact Hin|]. split; [exact Eb|].
    apply block_json_described. pose proof demo_view_typed as Ht. rewrite Forall_forall in Ht. by apply Ht.
  - by intros [] text r [].
Qed.

Definition fresh_node : NodeChain := {| nc_network := Regtest; nc_start := 0; nc_tip := 0; nc_scanned := None;
  nc_entries := []; nc_mempool := []; nc_markers := ∅; nc_funding := ∅ |}.
Definition refreshed : NodeChain * () := (refresh (fresh_node, ())).2.

Lemma demo_refresh_runs : refresh (fresh_node, ()) = (Ok tt, refreshed).
Proof.
  assert ((refresh (fresh_node, ())).1 = Ok tt) as E by (vm_compute; reflexivity).
  unfold refreshed. rewrite <- E. by destruct (refresh (fresh_node, ())).
Qed.

Lemma fresh_node_indexes : indexes [] fresh_node.
Proof. apply (indexes_cleared [] fresh_node). done. Qed.

Lemma empty_history v : shares_history [] v.
Proof. by intros h b b' Hb. Qed.

Lemma refresh_follows_node_witness :
  indexes demo_view refreshed.1 ∧ nc_tip refreshed.1 = 2 ∧ ChainLaws (node_chain refreshed.1).
Proof.
  destruct (refresh_follows_node (λ _, demo_view) [] fresh_node () refreshed.1 refreshed.2
    fresh_node_indexes (empty_history demo_view) demo_hashes demo_blocks_typed) as (I & _ & Ht & _ & _ & _ & Hl & _).
  - rewrite demo_refresh_runs. by destruct refreshed.
  - split; [exact I|]. split; [exact Ht|exact Hl].
Defined.

End demo.
