(* ===== verification/NodeFile.v ===== *)
(** * The index file of the node-backed chain

    What [persist] of [NodeChain.v] writes, [load_index] reads back: every field of
    the index, with each record as its own bytes parse. *)

From S2P Require Import Prelude Text Field Commitments Kernel Anchor Batch Chain Accept Wire Block.
From S2P Require Import Network Peer HeaderChain FullScan Scan ScanFile Bitcoin Bech32 Rpc NodeChain.
#[local] Open Scope Z_scope.

(** ** Lemmas: lines and maps *)

Lemma unwords_ends ws : ws ≠ [] → Forall word ws →
  (∃ c r, unwords ws = c :: r ∧ visible c) ∧ (∃ c r, unwords ws = r ++ [c] ∧ visible c).
Proof.
  induction ws as [|w ws IH]; [done|]. intros _ [[Hne Hw] Hws]%Forall_cons.
  assert (∃ c r, w = c :: r ∧ visible c) as (c & r & -> & Hc).
  { destruct w as [|c r]; [done|]. apply Forall_cons in Hw as [? _]. by exists c, r. }
  destruct ws as [|v ws].
  - split; [by exists c, r|]. cbn [unwords]. destruct (c :: r) as [|x l _] using rev_ind; [done|].
    apply Forall_app in Hw as [_ Hx]. apply Forall_cons in Hx as [Hx _]. by exists x, l.
  - destruct IH as [_ (x & l & E & Hx)]; [done|done|]. cbn [unwords] in *. rewrite E. split; [by eexists _, _|].
    exists x, ((c :: r) ++ 32 :: l). split; [by rewrite <- app_assoc|done].
Qed.

Lemma trim_unwords ws : ws ≠ [] → Forall word ws → trim (unwords ws) = unwords ws ∧ unwords ws ≠ [].
Proof.
  intros Hne Hw. destruct (unwords_ends ws Hne Hw) as [(c & r & E & Hc) (x & l & E' & Hx)].
  split; [|by rewrite E]. unfold trim.
  assert (trim_start (unwords ws) = unwords ws) as ->
    by (rewrite E; cbn; by rewrite visible_not_space).
  rewrite E', reverse_snoc. cbn [trim_start]. rewrite visible_not_space by done.
  by rewrite reverse_cons, reverse_involutive.
Qed.

(** Inserting the pairs of a map one by one rebuilds it, in any order. *)
Definition inserts {A} (m : gmap Z A) (l : list (Z * A)) : gmap Z A :=
  foldl (λ m p, <[p.1 := p.2]> m) m l.

Lemma inserts_list {A} (l : list (Z * A)) : ∀ m, NoDup l.*1 → inserts m l = list_to_map l ∪ m.
Proof.
  induction l as [|[k x] l IH]; intros m Hd; cbn; [by rewrite map_empty_union|].
  apply NoDup_cons in Hd as [Hk Hd]. change (foldl _ ?a l) with (inserts a l). rewrite IH by done. cbn.
  rewrite <- insert_union_l, insert_union_r; [done|]. by apply not_elem_of_list_to_map_1.
Qed.

Lemma in_order_inserts {A} (m : gmap Z A) : inserts ∅ (in_order m) = m.
Proof.
  assert (in_order m ≡ₚ map_to_list m) as Hp by apply merge_sort_Permutation.
  rewrite inserts_list.
  - rewrite map_union_empty. rewrite (list_to_map_proper (in_order m) (map_to_list m)); [apply list_to_map_to_list| |done].
    rewrite Hp. apply NoDup_fst_map_to_list.
  - rewrite Hp. apply NoDup_fst_map_to_list.
Qed.

Lemma elem_of_in_order {A} (m : gmap Z A) k x : (k, x) ∈ in_order m ↔ m !! k = Some x.
Proof. unfold in_order. rewrite merge_sort_Permutation. apply elem_of_map_to_list. Qed.

(** ** The types of an index *)
Definition node_entry_wf (e : Entry) : Prop :=
  is_u64 (height (e_location e)) ∧ is_u32 (loc_position (e_location e)) ∧ length (e_txid e) = 32%nat ∧
  length (e_ctx e) = 32%nat ∧ record_wf (e_record e).

Record node_typed (c : NodeChain) : Prop := {
  nt_start : is_u64 (nc_start c);
  nt_scanned : ∀ h hash, nc_scanned c = Some (h, hash) → is_u64 h ∧ length hash = 32%nat;
  nt_entries : Forall node_entry_wf (nc_entries c);
  nt_markers : ∀ h m, nc_markers c !! h = Some m → is_u64 h;
  nt_funding : ∀ n txid vout, nc_funding c !! n = Some (txid, vout) →
    is_u8 n ∧ length txid = 32%nat ∧ is_u32 vout;
}.

Definition node_reread (e : Entry) : Entry :=
  {| e_txid := e_txid e; e_location := e_location e;
     e_record := record_from_bytes (record_to_bytes (e_record e)); e_ctx := e_ctx e |}.

(** The loop variables after the whole file. *)
Definition loaded_of (c : NodeChain) : Loading :=
  {| ld_start := Some (nc_start c); ld_scanned := nc_scanned c; ld_entries := node_reread <$> nc_entries c;
     ld_markers := nc_markers c; ld_funding := nc_funding c |}.

(** ** Lemmas: fields *)
Lemma file_array_hex n b : length b = n → file_array n (to_hex b) = Ok b.
Proof.
  intros Hb. unfold file_array, file_hex. rewrite from_to_hex. cbn [mbind result_bind].
  by rewrite bool_decide_eq_true_2.
Qed.

Lemma file_hash_display h : length h = 32%nat → file_hash (hash_to_rpc h) = Ok h.
Proof.
  intros Hh. unfold file_hash, hash_to_rpc, hash_to_display. rewrite file_array_hex by (by rewrite length_reverse).
  cbn. by rewrite reverse_involutive.
Qed.

Lemma file_number_decimal max n : 0 ≤ n ≤ max → max ≤ u64_max →
  file_number (from_str_radix 10 max) (decimal n) = Ok n.
Proof. intros. unfold file_number. by rewrite parse_decimal. Qed.

Section fields.
Variable network : Network.

Definition with_entry (e : Entry) (d : Loading) : Loading :=
  {| ld_start := ld_start d; ld_scanned := ld_scanned d; ld_entries := ld_entries d ++ [e];
     ld_markers := ld_markers d; ld_funding := ld_funding d |}.
Definition with_marker (p : Z * bool) (d : Loading) : Loading :=
  {| ld_start := ld_start d; ld_scanned := ld_scanned d; ld_entries := ld_entries d;
     ld_markers := <[p.1 := p.2]> (ld_markers d); ld_funding := ld_funding d |}.
Definition with_funding (p : Z * (bytes * Z)) (d : Loading) : Loading :=
  {| ld_start := ld_start d; ld_scanned := ld_scanned d; ld_entries := ld_entries d;
     ld_markers := ld_markers d; ld_funding := <[p.1 := p.2]> (ld_funding d) |}.

Ltac test_literals :=
  repeat match goal with |- context [bool_decide (lit ?a = lit ?b)] =>
    first [rewrite (bool_decide_eq_true_2 (lit a = lit b)) by reflexivity
          |replace (bool_decide (lit a = lit b)) with false by (vm_compute; reflexivity)] end.

Lemma load_entry e d : node_entry_wf e → load_fields network d (entry_words e) = Ok (with_entry (node_reread e) d).
Proof.
  intros (Hh & Hp & Ht & Hc & Hr). unfold entry_words, load_fields. test_literals.
  rewrite (file_array_hex ANCHOR_SIZE) by by apply length_record_to_bytes. cbn [mbind result_bind].
  rewrite file_hash_display by done. cbn [mbind result_bind]. unfold parse_u64, parse_u32.
  rewrite !file_number_decimal by (unfold is_u64, is_u32, u32_max, u64_max in *; lia). cbn [mbind result_bind].
  rewrite file_array_hex by done. cbn [mbind result_bind]. unfold with_entry, node_reread.
  do 4 f_equal. by destruct e as [? [] ? ?].
Qed.

Lemma load_marker h m d : is_u64 h →
  load_fields network d [lit "marker"; decimal h; decimal (if m : bool then 1 else 0)] = Ok (with_marker (h, m) d).
Proof.
  intros Hh. unfold load_fields. test_literals. unfold parse_u64.
  rewrite file_number_decimal by (unfold is_u64, u64_max in *; lia). cbn [mbind result_bind].
  destruct m; [change (decimal 1) with (lit "1")|change (decimal 0) with (lit "0")]; by test_literals.
Qed.

Lemma load_funding n txid vout d : is_u8 n → length txid = 32%nat → is_u32 vout →
  load_fields network d [lit "fundingutxo"; decimal n; hash_to_rpc txid; decimal vout] =
    Ok (with_funding (n, (txid, vout)) d).
Proof.
  intros Hn Ht Hv. unfold load_fields. test_literals. unfold parse_u8, parse_u32.
  rewrite (file_number_decimal u8_max) by (unfold is_u8, u8_max, u64_max in *; lia). cbn [mbind result_bind].
  rewrite file_hash_display by done. cbn [mbind result_bind].
  by rewrite file_number_decimal by (unfold is_u32, u32_max, u64_max in *; lia).
Qed.

(** The heading, for the chain's own network and for another. *)
Lemma load_heading c d : is_u64 (nc_start c) →
  (load_fields network d [lit "network"; network_name (nc_network c)] =
     if bool_decide (nc_network c = network) then Ok d else Err (Raise (NDecode "index is for another network"))) ∧
  load_fields network d [lit "start"; decimal (nc_start c)] =
    Ok {| ld_start := Some (nc_start c); ld_scanned := ld_scanned d; ld_entries := ld_entries d;
          ld_markers := ld_markers d; ld_funding := ld_funding d |}.
Proof.
  intros Hs. unfold load_fields. test_literals. split.
  - rewrite network_parse_name. destruct (decide (nc_network c = network)) as [->|Hn].
    + by rewrite !bool_decide_eq_true_2 by done.
    + rewrite (bool_decide_eq_false_2 (Some _ = Some _)) by congruence. by rewrite bool_decide_eq_false_2.
  - unfold parse_u64. by rewrite file_number_decimal by (unfold is_u64, u64_max in *; lia).
Qed.

Lemma load_scanned h hash d : is_u64 h → length hash = 32%nat →
  load_fields network d [lit "scanned"; decimal h; hash_to_rpc hash] =
    Ok {| ld_start := ld_start d; ld_scanned := Some (h, hash); ld_entries := ld_entries d;
          ld_markers := ld_markers d; ld_funding := ld_funding d |}.
Proof.
  intros Hh Hl. unfold load_fields. test_literals. unfold parse_u64.
  rewrite file_number_decimal by (unfold is_u64, u64_max in *; lia). cbn [mbind result_bind].
  by rewrite file_hash_display.
Qed.

(** ** Lemmas: lines *)
Lemma load_line ws ls d : ws ≠ [] → Forall word ws →
  load_lines network d (unwords ws :: ls) = d' ← load_fields network d ws; load_lines network d' ls.
Proof.
  intros Hne Hw. destruct (trim_unwords ws Hne Hw) as [Et En]. cbn [load_lines].
  by rewrite Et, bool_decide_eq_false_2, split_unwords.
Qed.

(** Lines that each apply a function to the variables. *)
Lemma load_each {A} (words_of : A → list rstring) (f : A → Loading → Loading) l k : ∀ d,
  Forall (λ x, words_of x ≠ [] ∧ Forall word (words_of x) ∧
               ∀ d, load_fields network d (words_of x) = Ok (f x d)) l →
  load_lines network d ((unwords <$> (words_of <$> l)) ++ k) = load_lines network (foldl (λ d x, f x d) d l) k.
Proof.
  induction l as [|x l IH]; intros d Hl; [done|]. apply Forall_cons in Hl as [(Hne & Hw & Hf) Hl].
  cbn [fmap list_fmap app foldl]. rewrite load_line by done. rewrite Hf. cbn [mbind result_bind].
  by apply IH.
Qed.

Lemma fold_entries l : ∀ d, foldl (λ d e, with_entry (node_reread e) d) d l =
  {| ld_start := ld_start d; ld_scanned := ld_scanned d; ld_entries := ld_entries d ++ (node_reread <$> l);
     ld_markers := ld_markers d; ld_funding := ld_funding d |}.
Proof.
  induction l as [|e l IH]; intros d; cbn; [rewrite app_nil_r; by destruct d|].
  rewrite IH. cbn. by rewrite <- app_assoc.
Qed.

Lemma fold_markers l : ∀ d, foldl (λ d p, with_marker p d) d l =
  {| ld_start := ld_start d; ld_scanned := ld_scanned d; ld_entries := ld_entries d;
     ld_markers := inserts (ld_markers d) l; ld_funding := ld_funding d |}.
Proof. induction l as [|p l IH]; intros d; cbn; [by destruct d|]. by rewrite IH. Qed.

Lemma fold_funding l : ∀ d, foldl (λ d p, with_funding p d) d l =
  {| ld_start := ld_start d; ld_scanned := ld_scanned d; ld_entries := ld_entries d;
     ld_markers := ld_markers d; ld_funding := inserts (ld_funding d) l |}.
Proof. induction l as [|p l IH]; intros d; cbn; [by destruct d|]. by rewrite IH. Qed.
End fields.

(** ** Lemmas: every line is words *)
Definition marker_words : Z * bool → list rstring :=
  λ '(h, m), [lit "marker"; decimal h; decimal (if m : bool then 1 else 0)].
Definition funding_words : Z * (bytes * Z) → list rstring :=
  λ '(n, (txid, vout)), [lit "fundingutxo"; decimal n; hash_to_rpc txid; decimal vout].
Definition scanned_words (s : option (Z * bytes)) : list (list rstring) :=
  match s with Some (height, hash) => [[lit "scanned"; decimal height; hash_to_rpc hash]] | None => [] end.

Lemma entry_words_words e : node_entry_wf e → Forall word (entry_words e).
Proof.
  intros (Hh & Hp & Ht & Hc & Hr). apply length_record_to_bytes in Hr. unfold is_u64, is_u32, ANCHOR_SIZE in *.
  unfold entry_words, hash_to_rpc. rewrite !Forall_cons.
  split_and!; [literal|apply decimal_word; lia|apply decimal_word; lia|by apply hash_word|
    by eapply bytes_word|by eapply bytes_word|constructor].
Qed.

Lemma marker_words_words p : 0 ≤ p.1 → Forall word (marker_words p).
Proof.
  destruct p as [h m]. cbn. intros Hh. rewrite !Forall_cons.
  split_and!; [literal|by apply decimal_word|apply decimal_word; by destruct m|constructor].
Qed.

Lemma funding_words_words p : 0 ≤ p.1 → length p.2.1 = 32%nat → 0 ≤ p.2.2 → Forall word (funding_words p).
Proof.
  destruct p as [n [txid vout]]. cbn. intros Hn Ht Hv. unfold hash_to_rpc. rewrite !Forall_cons.
  split_and!; [literal|by apply decimal_word|by apply hash_word|by apply decimal_word|constructor].
Qed.

Lemma node_words_parts c : node_words c =
  [NODE_MAGIC] :: [[lit "network"; network_name (nc_network c)]; [lit "start"; decimal (nc_start c)]] ++
  scanned_words (nc_scanned c) ++ (marker_words <$> in_order (nc_markers c)) ++
  (funding_words <$> in_order (nc_funding c)) ++ (entry_words <$> nc_entries c).
Proof. reflexivity. Qed.

Lemma node_words_words c : node_typed c → Forall (Forall word) (node_words c).
Proof.
  intros [Hs Hsc He Hm Hf]. rewrite node_words_parts. rewrite Forall_cons, !Forall_app. split_and!.
  - constructor; [unfold NODE_MAGIC; literal|constructor].
  - unfold is_u64 in Hs. rewrite !Forall_cons.
    split_and!; [literal|apply network_word|constructor|literal|apply decimal_word; lia|constructor..].
  - unfold scanned_words. destruct (nc_scanned c) as [[h hash]|]; [|constructor].
    destruct (Hsc h hash eq_refl) as [Hh Hl]. constructor; [|constructor]. unfold hash_to_rpc.
    rewrite !Forall_cons. unfold is_u64 in Hh.
    split_and!; [literal|apply decimal_word; lia|by apply hash_word|constructor].
  - apply Forall_fmap, Forall_forall. intros [h m] Hin%elem_of_in_order. apply marker_words_words. cbn.
    apply Hm in Hin. unfold is_u64 in Hin. lia.
  - apply Forall_fmap, Forall_forall. intros [n [txid vo]] Hin%elem_of_in_order.
    apply Hf in Hin as (Hn & Ht & Hv). unfold is_u8, is_u32 in *. apply funding_words_words; cbn; [lia|done|lia].
  - apply Forall_fmap. eapply Forall_impl; [exact He|]. apply entry_words_words.
Qed.

Lemma load_written c network : node_typed c →
  load_index network (Contents (text_of (node_words c))) =
    if bool_decide (nc_network c = network) then Ok (Some (nc_start c, loaded_of c))
    else Err (Raise (NDecode "index is for another network")).
Proof.
  intros Ht. pose proof (node_words_words c Ht) as Hw. unfold load_index. rewrite text_of_lines by done.
  rewrite node_words_parts in Hw |- *. rewrite Forall_cons, !Forall_app in Hw.
  destruct Hw as (_ & Hw1 & Hw2 & _). destruct Ht as [Hs Hsc He Hm Hf].
  rewrite fmap_cons. change (unwords [NODE_MAGIC]) with NODE_MAGIC.
  replace (bool_decide (trim NODE_MAGIC = NODE_MAGIC_V1)) with false by (vm_compute; reflexivity).
  rewrite (bool_decide_eq_true_2 (trim NODE_MAGIC = NODE_MAGIC)) by (vm_compute; reflexivity).
  rewrite !fmap_app, !fmap_cons. cbn [fmap list_fmap app].
  change (list_fmap ?A ?B ?f ?l) with (f <$> l).
  apply Forall_cons in Hw1 as [Hn1 Hw1]. apply Forall_cons in Hw1 as [Hn2 _].
  destruct (load_heading network c {| ld_start := None; ld_scanned := None; ld_entries := []; ld_markers := ∅;
    ld_funding := ∅ |} Hs) as [E1 E2].
  rewrite load_line, E1 by done. case_bool_decide; [|done]. cbn [mbind result_bind].
  rewrite load_line, E2 by done. cbn [mbind result_bind ld_scanned ld_entries ld_markers ld_funding].
  set (d0 := {| ld_start := Some (nc_start c); ld_scanned := None; ld_entries := []; ld_markers := ∅; ld_funding := ∅ |}).
  assert (∀ k, load_lines network d0 ((unwords <$> scanned_words (nc_scanned c)) ++ k) =
    load_lines network {| ld_start := Some (nc_start c); ld_scanned := nc_scanned c; ld_entries := [];
      ld_markers := ∅; ld_funding := ∅ |} k) as ->.
  { intros k. unfold scanned_words in *. destruct (nc_scanned c) as [[h hash]|]; [|done].
    destruct (Hsc h hash eq_refl) as [Hh Hl]. apply Forall_cons in Hw2 as [Hw2 _].
    cbn [fmap list_fmap app]. by rewrite load_line, load_scanned by done. }
  rewrite (load_each network marker_words with_marker).
  2:{ apply Forall_forall. intros [h m] Hin%elem_of_in_order. apply Hm in Hin. split; [done|].
      split; [apply marker_words_words; unfold is_u64 in Hin; cbn; lia|]. intros d. by apply load_marker. }
  rewrite (load_each network funding_words with_funding).
  2:{ apply Forall_forall. intros [n [txid vo]] Hin%elem_of_in_order. apply Hf in Hin as (Hn & Hl & Hv).
      split; [done|]. split; [apply funding_words_words; unfold is_u8, is_u32 in *; cbn; [lia|done|lia]|].
      intros d. by apply load_funding. }
  rewrite <- (app_nil_r (unwords <$> (entry_words <$> nc_entries c))).
  rewrite (load_each network entry_words (λ e, with_entry (node_reread e))).
  2:{ eapply Forall_impl; [exact He|]. intros e Hew. split; [done|]. split; [by apply entry_words_words|].
      intros d. by apply load_entry. }
  rewrite fold_markers, fold_funding, fold_entries. cbn [load_lines mbind result_bind ok_or ld_start ld_scanned ld_entries
    ld_markers ld_funding app]. by rewrite !in_order_inserts.
Qed.

(** ** The theorem *)
Lemma node_reread_exact e : node_entry_wf e → canonical_class (e_record e) = e_record e →
  node_reread e = e ↔ parses_cleanly (e_record e) = true.
Proof.
  intros (_ & _ & _ & _ & Hr) Hc. split.
  - intros Er. apply (f_equal e_record) in Er. cbn [node_reread e_record] in Er.
    revert Er. generalize (e_record e). intros r Er. unfold parses_cleanly. destruct r; by rewrite Er.
  - intros Hp. unfold node_reread. rewrite from_to_clean, Hc by done. by destruct e.
Qed.

Lemma node_rereads_exact es : Forall node_entry_wf es → Forall (λ e, canonical_class (e_record e) = e_record e) es →
  node_reread <$> es = es ↔ Forall (λ e, parses_cleanly (e_record e) = true) es.
Proof.
  induction 1 as [|e es He _ IH]; intros Hc; [split; constructor|].
  apply Forall_cons in Hc as [Hc Hcs]. rewrite fmap_cons, Forall_cons, <- (node_reread_exact e He Hc), <- (IH Hcs).
  split; [by intros [= ? ?]|by intros [-> ->]].
Qed.

Section reopen.
Context {S : Type} `{!NodeEnv S}.

(** The index file of the node-backed chain round trips: an instance on the same
    network that finds the file resumes at the written start height, scanned block,
    markers and funding outputs, with every entry's record as its own bytes parse - the
    very entries exactly if every record parses cleanly; asked for another scan start it begins
    afresh there, and on another network it refuses the file with an error. *)
Theorem node_file_reload c (d : NodeChain) (s : S) requested : node_typed c →
  Forall (λ e, canonical_class (e_record e) = e_record e) (nc_entries c) →
  read_index s = Contents (text_of (node_words c)) →
  (nc_network d ≠ nc_network c →
    load_or_init requested (d, s) = (Err (Raise (NDecode "index is for another network")), (d, s))) ∧
  (nc_network d = nc_network c →
    ∃ c', load_or_init requested (d, s) = (Ok tt, (c', s)) ∧ nc_tip c' = nc_tip d ∧ nc_mempool c' = nc_mempool d ∧
    if bool_decide (requested = None ∨ requested = Some (nc_start c)) then
      nc_start c' = nc_start c ∧ nc_scanned c' = nc_scanned c ∧ nc_markers c' = nc_markers c ∧
      nc_funding c' = nc_funding c ∧
      (nc_entries c' = nc_entries c ↔ Forall (λ e, parses_cleanly (e_record e) = true) (nc_entries c))
    else nc_start c' = default (nc_tip d) requested ∧ nc_scanned c' = None ∧ nc_entries c' = [] ∧ nc_markers c' = ∅).
Proof.
  intros Ht Hc Hr. unfold load_or_init. rewrite Hr, load_written by done. split; intros Hn.
  - by rewrite bool_decide_eq_false_2 by congruence.
  - rewrite bool_decide_eq_true_2 by congruence. rewrite <- bool_decide_or.
    case_bool_decide; eexists; (split; [reflexivity|]); cbn; [|done].
    split_and!; try done. apply node_rereads_exact; [by destruct Ht|done].
Qed.
End reopen.

(** ** Witness: an index with one entry *)
Section demo.
#[local] Instance file_node (text : rstring) : NodeEnv () := {|
  call _ _ := raise (NMalformed "offline");
  read_index _ := Contents text;
  write_index _ := mret tt;
|}.

Definition file_entry : Entry := {| e_txid := replicate 32 x11; e_location := MkLocation 7 2;
  e_record := Xfer (replicate 24 x22) (zeros 24); e_ctx := replicate 32 x33 |}.
Definition file_chain : NodeChain := {| nc_network := Signet; nc_start := 5; nc_tip := 9;
  nc_scanned := Some (8, replicate 32 x44); nc_entries := [file_entry]; nc_mempool := [];
  nc_markers := {[7 := true; 8 := false]}; nc_funding := {[1 := (replicate 32 x55, 3)]} |}.

Lemma file_chain_typed : node_typed file_chain.
Proof.
  constructor; cbn.
  - by unfold is_u64.
  - intros h hash [= <- <-]. by unfold is_u64.
  - constructor; [|constructor]. by unfold node_entry_wf, is_u64, is_u32.
  - intros h m. rewrite lookup_insert_Some, lookup_singleton_Some. intros [[<- _]|[_ [<- _]]]; by unfold is_u64.
  - intros n txid vo [<- [= <- <-]]%lookup_singleton_Some. by unfold is_u8, is_u32.
Qed.

Lemma node_file_reload_witness :
  (∃ c', load_or_init (NodeEnv0 := file_node (text_of (node_words file_chain))) None
     ({| nc_network := Signet; nc_start := 0; nc_tip := 12; nc_scanned := None; nc_entries := [];
         nc_mempool := []; nc_markers := ∅; nc_funding := ∅ |}, ()) = (Ok tt, (c', ())) ∧
   nc_start c' = 5 ∧ nc_entries c' = [file_entry] ∧ nc_tip c' = 12).
Proof.
  destruct (node_file_reload (NodeEnv0 := file_node (text_of (node_words file_chain))) file_chain
    {| nc_network := Signet; nc_start := 0; nc_tip := 12; nc_scanned := None; nc_entries := [];
       nc_mempool := []; nc_markers := ∅; nc_funding := ∅ |} () None file_chain_typed) as [_ H1'].
  - constructor; [done|constructor].
  - done.
  - destruct (H1' eq_refl) as (c' & E & Ht & _ & H2'). exists c'.
    rewrite bool_decide_eq_true_2 in H2' by (by left).
    destruct H2' as (Hs & _ & _ & _ & He). split; [exact E|]. split; [exact Hs|]. split; [|exact Ht].
    apply He. constructor; [reflexivity|constructor].
Defined.
End demo.
