(* ===== verification/BatchV2.v ===== *)
(** * Signed, co-funded batches

    Models [crates/opencsv-bitcoin/src/batch_v2.rs]: the reservation phases, the
    proposal, the participant commitments, the canonical manifest with its fee
    allocation and its unsigned transaction, replacements, detached signature
    shares and the finalized transaction, and the wire encodings of all of them. *)

From S2P Require Import Prelude Field Commitments Kernel Anchor Batch Chain Accept Wire Block Bitcoin.
From S2P Require Import Network Peer FullScan Scan.

Definition LEGACY_VERSION : Z := 2.
Definition VERSION : Z := 3.
Definition MESSAGE_MAGIC : bytes := [x4f; x43; x53; x56; x42; x32; x00; x00].
Definition TX_VERSION : Z := VERSION_TWO.
Definition INPUT_SEQUENCE : Z := ENABLE_RBF_NO_LOCKTIME.
Definition MIN_OUTPUT_SATS : Z := 546.
Definition MARKER_DUST_SATS : Z := 546.
Definition PROPOSAL_KIND : byte := x01.
Definition COMMITMENT_KIND : byte := x02.
Definition MANIFEST_KIND : byte := x03.
Definition SIGNATURE_KIND : byte := x04.

(** [ProtocolError] without its diagnostic text. *)
Inductive RejectionReason :=
  | InvalidVersion | WrongChain | InvalidSerialization | InvalidStock | StaleChainState
  | ExpiredProposal | InvalidCommitment | DuplicateCommitment | ConflictingOperation
  | UnavailableFeeInput | NoncanonicalOrder | PayloadContextMismatch | HeaderMismatch
  | ProtocolLayoutViolation | FeePolicyViolation | InsufficientChange | ArithmeticOverflow
  | SignaturePolicyViolation | InvalidSignature | ReplacementViolation | StorageFailure.

Abbreviation protocol := (result RejectionReason).

(** ** The reservation phases of a fee input *)
Inductive ReservationPhase :=
  | CommittedUnsigned | SignatureReleased | PhaseConfirmed | InvalidatedOnChain
  | ReleasedBeforeSignature.

#[export] Instance phase_eq_dec : EqDecision ReservationPhase.
Proof. solve_decision. Defined.

Definition phase_to_byte (p : ReservationPhase) : Z :=
  match p with
  | CommittedUnsigned => 0 | SignatureReleased => 1 | PhaseConfirmed => 2
  | InvalidatedOnChain => 3 | ReleasedBeforeSignature => 4
  end.

Definition phase_from_byte (byte : Z) : protocol ReservationPhase :=
  if byte =? 0 then Ok CommittedUnsigned
  else if byte =? 1 then Ok SignatureReleased
  else if byte =? 2 then Ok PhaseConfirmed
  else if byte =? 3 then Ok InvalidatedOnChain
  else if byte =? 4 then Ok ReleasedBeforeSignature
  else Err InvalidSerialization.

Definition signature_released (p : ReservationPhase) : protocol ReservationPhase :=
  match p with
  | CommittedUnsigned | SignatureReleased => Ok SignatureReleased
  | _ => Err ConflictingOperation
  end.

Definition timeout_abort (p : ReservationPhase) : protocol ReservationPhase :=
  match p with
  | CommittedUnsigned => Ok ReleasedBeforeSignature
  | SignatureReleased => Err ConflictingOperation
  | state => Ok state
  end.

Definition phase_confirmed (p : ReservationPhase) : ReservationPhase := PhaseConfirmed.
Definition invalidated_on_chain (p : ReservationPhase) : ReservationPhase := InvalidatedOnChain.

Definition is_releasable (p : ReservationPhase) : bool :=
  match p with
  | PhaseConfirmed | InvalidatedOnChain | ReleasedBeforeSignature => true
  | _ => false
  end.

(** ** Transcript data *)
Record Proposal := {
  pr_version : Z;
  chain_id : bytes;
  stock_outpoint : OutPoint;
  stock_value : Z;
  stock_owner_pubkey : bytes;
  participant_count : Z;
  proposal_nonce : bytes;
  observed_tip_height : Z;
  expiry_height : Z;
  target_feerate_sat_vb : Z;
  max_feerate_sat_vb : Z;
}.

Record ParticipantCommitment := {
  pc_batch_id : bytes;
  operation_id : bytes;
  commit_nonce : bytes;
  pc_payload : bytes;
  fee_outpoint : OutPoint;
  fee_prevout : TxOut;
  fee_pubkey : bytes;
  change_spk : bytes;
  max_charge : Z;
}.

Record Manifest := {
  mf_batch_id : bytes;
  replacement_epoch : Z;
  feerate_sat_vb : Z;
  max_weight : Z;
  miner_fee : Z;
  total_charge : Z;
  charges : list Z;
  commitments : list ParticipantCommitment;
  unsigned_tx : BtcTx;
}.

#[export] Instance commitment_eq_dec : EqDecision ParticipantCommitment.
Proof. solve_decision. Defined.
#[export] Instance manifest_eq_dec : EqDecision Manifest.
Proof. solve_decision. Defined.

(** ** The cursor: every failure of [Reader] is a serialization error *)
Definition run_reader {A} (r : reader A) (data : bytes) : protocol (A * bytes) :=
  match r data with Ok x => Ok x | Err _ => Err InvalidSerialization end.

Definition finish (rest : bytes) : protocol () := ensure (bool_decide (rest = [])) InvalidSerialization.

Definition wire_message (kind : byte) (body : bytes) : bytes :=
  MESSAGE_MAGIC ++ [kind] ++ le_bytes 4 (Z.of_nat (length body)) ++ body.

Definition wire_body (wire : bytes) (kind : byte) : protocol bytes :=
  ensure (negb (bool_decide (length wire < 13)%nat) && bool_decide (take 8 wire = MESSAGE_MAGIC))
    InvalidSerialization;;
  ensure (bool_decide (nth 8 wire x00 = kind)) InvalidSerialization;;
  ensure (le_val (slice 9 13 wire) =? Z.of_nat (length wire - 13)) InvalidSerialization;;
  Ok (drop 13 wire).

Definition require_canonical_wire (actual canonical : bytes) : protocol () :=
  ensure (bool_decide (actual = canonical)) InvalidSerialization.

Definition is_canonical_p2wpkh (script : bytes) : bool :=
  bool_decide (length script = 22%nat) && bool_decide (take 2 script = [x00; x14]).

(** A script of at most 65535 bytes; longer ones are an assertion failure. *)
Definition encode_script (script : bytes) : bytes := le_bytes 2 (Z.of_nat (length script)) ++ script.

Definition read_script : reader bytes := len ← read_u16; read_bytes (Z.to_nat len).

Definition max_signed_weight (participants : Z) : protocol Z :=
  ensure ((1 <=? participants) && (participants <=? Z.of_nat MAX_BATCH_V2_PARTICIPANTS)) InvalidCommitment;;
  ok_or (m ← checked_mul64 423 participants; checked_add64 m 968) ArithmeticOverflow.

Definition marker_spk_for_version (version : Z) : protocol bytes :=
  if version =? LEGACY_VERSION then Ok LEGACY_MARKER_SPK
  else if version =? VERSION then Ok MARKER_SPK
  else Err InvalidVersion.

Section batch.
Context `{Poseidon, Sha256, BitcoinLib, Ecdsa}.

Definition domain_hash (domain : string) (body : bytes) : bytes :=
  sha256 (String.list_byte_of_string domain ++ [x00] ++ body).

Definition read_outpoint36 : reader OutPoint :=
  b ← read_bytes 36;
  match outpoint_deserialize b with Some o => mret o | None => fail (EDecode "outpoint") end.

Definition read_public_key : reader bytes :=
  b ← read_bytes 33; if pubkey_valid b then mret b else fail (EDecode "compressed public key").

Definition stock_witness_script (public_key : bytes) (participants : nat) : bytes :=
  push_key public_key ++ [xad] ++ replicate (participants + 1) x75 ++ [x51].

(** ** Proposals *)
Definition proposal_body (p : Proposal) : bytes :=
  le_bytes 2 (pr_version p) ++ chain_id p ++ outpoint_serialize (stock_outpoint p) ++
  le_bytes 8 (stock_value p) ++ stock_owner_pubkey p ++ le_bytes 1 (participant_count p) ++
  proposal_nonce p ++ le_bytes 4 (observed_tip_height p) ++ le_bytes 4 (expiry_height p) ++
  le_bytes 4 (target_feerate_sat_vb p) ++ le_bytes 4 (max_feerate_sat_vb p).

Definition batch_id (p : Proposal) : bytes := domain_hash "OpenCSV/batch-v2/proposal" (proposal_body p).
Definition proposal_wire (p : Proposal) : bytes := wire_message PROPOSAL_KIND (proposal_body p).

Definition known_version (v : Z) : bool := (v =? LEGACY_VERSION) || (v =? VERSION).

Definition proposal_validate (p : Proposal) : protocol () :=
  ensure (known_version (pr_version p)) InvalidVersion;;
  ensure ((1 <=? participant_count p) && (participant_count p <=? Z.of_nat MAX_BATCH_V2_PARTICIPANTS))
    InvalidStock;;
  ensure (negb (bool_decide (chain_id p = zeros 32))) WrongChain;;
  ensure (negb (bool_decide (stock_outpoint p = outpoint_null) || (stock_value p <? MIN_OUTPUT_SATS)))
    InvalidStock;;
  ensure (negb (expiry_height p <=? observed_tip_height p)) ExpiredProposal;;
  ensure (negb ((target_feerate_sat_vb p =? 0) || (max_feerate_sat_vb p <? target_feerate_sat_vb p)))
    FeePolicyViolation.

Definition new_for_version (p : Proposal) : protocol Proposal := proposal_validate p;; Ok p.

Definition proposal_new (p : Proposal) : protocol Proposal :=
  new_for_version {| pr_version := VERSION; chain_id := chain_id p; stock_outpoint := stock_outpoint p;
    stock_value := stock_value p; stock_owner_pubkey := stock_owner_pubkey p;
    participant_count := participant_count p; proposal_nonce := proposal_nonce p;
    observed_tip_height := observed_tip_height p; expiry_height := expiry_height p;
    target_feerate_sat_vb := target_feerate_sat_vb p; max_feerate_sat_vb := max_feerate_sat_vb p |}.

(** The fields after the version. *)
Definition read_proposal (version : Z) : reader Proposal :=
  id ← read_bytes 32; o ← read_outpoint36; value ← read_u64; key ← read_public_key;
  count ← read_u8; nonce ← read_bytes 32; tip ← read_u32; expiry ← read_u32;
  target ← read_u32; limit ← read_u32;
  mret {| pr_version := version; chain_id := id; stock_outpoint := o; stock_value := value;
          stock_owner_pubkey := key; participant_count := count; proposal_nonce := nonce;
          observed_tip_height := tip; expiry_height := expiry; target_feerate_sat_vb := target;
          max_feerate_sat_vb := limit |}.

Definition proposal_from_wire (wire : bytes) : protocol Proposal :=
  body ← wire_body wire PROPOSAL_KIND;
  '(version, rest) ← run_reader read_u16 body;
  ensure (known_version version) InvalidVersion;;
  '(p, rest) ← run_reader (read_proposal version) rest;
  finish rest;;
  p ← new_for_version p;
  require_canonical_wire wire (proposal_wire p);;
  Ok p.

Definition context (p : Proposal) : bytes :=
  funding_ctx (op_txid (stock_outpoint p)) (vout (stock_outpoint p)).

Definition proposal_stock_script (p : Proposal) : bytes :=
  stock_witness_script (stock_owner_pubkey p) (Z.to_nat (participant_count p)).
Definition stock_script_pubkey (p : Proposal) : bytes := to_p2wsh (proposal_stock_script p).

Definition validate_at (p : Proposal) (expected_chain_id : bytes) (current_height : Z) : protocol () :=
  proposal_validate p;;
  ensure (bool_decide (chain_id p = expected_chain_id)) WrongChain;;
  ensure (negb (current_height >=? expiry_height p)) ExpiredProposal.

(** ** Participant commitments *)
Definition commitment_body (c : ParticipantCommitment) : bytes :=
  pc_batch_id c ++ operation_id c ++ commit_nonce c ++ pc_payload c ++
  outpoint_serialize (fee_outpoint c) ++ le_bytes 8 (tx_value (fee_prevout c)) ++ fee_pubkey c ++
  encode_script (script_pubkey (fee_prevout c)) ++ encode_script (change_spk c) ++
  le_bytes 8 (max_charge c).

Definition commitment_id (c : ParticipantCommitment) : bytes :=
  domain_hash "OpenCSV/batch-v2/commitment" (commitment_body c).
Definition commitment_wire (c : ParticipantCommitment) : bytes :=
  wire_message COMMITMENT_KIND (commitment_body c).

Definition commitment_validate (p : Proposal) (c : ParticipantCommitment) : protocol () :=
  ensure (bool_decide (pc_batch_id c = batch_id p) && negb (bool_decide (fee_outpoint c = outpoint_null))
          && negb (max_charge c =? 0)) InvalidCommitment;;
  ensure (negb (bool_decide (fee_outpoint c = stock_outpoint p))) ConflictingOperation;;
  ensure (bool_decide (script_pubkey (fee_prevout c) = p2wpkh_spk (fee_pubkey c))) InvalidCommitment;;
  ensure (is_canonical_p2wpkh (change_spk c)) InvalidCommitment.

Definition commitment_new (p : Proposal) (c : ParticipantCommitment) : protocol ParticipantCommitment :=
  let c := {| pc_batch_id := batch_id p; operation_id := operation_id c; commit_nonce := commit_nonce c;
    pc_payload := pc_payload c; fee_outpoint := fee_outpoint c; fee_prevout := fee_prevout c;
    fee_pubkey := fee_pubkey c; change_spk := change_spk c; max_charge := max_charge c |} in
  commitment_validate p c;; Ok c.

Definition read_commitment : reader ParticipantCommitment :=
  id ← read_bytes 32; op ← read_bytes 32; nonce ← read_bytes 32; load ← read_bytes 24;
  o ← read_outpoint36; value ← read_u64; key ← read_public_key;
  spk ← read_script; change ← read_script; limit ← read_u64;
  mret {| pc_batch_id := id; operation_id := op; commit_nonce := nonce; pc_payload := load;
          fee_outpoint := o; fee_prevout := {| tx_value := value; script_pubkey := spk |};
          fee_pubkey := key; change_spk := change; max_charge := limit |}.

Definition commitment_from_wire (p : Proposal) (wire : bytes) : protocol ParticipantCommitment :=
  body ← wire_body wire COMMITMENT_KIND;
  '(c, rest) ← run_reader read_commitment body;
  finish rest;;
  commitment_validate p c;;
  require_canonical_wire wire (commitment_wire c);;
  Ok c.

(** ** Manifests *)

(** The insertions into five hash sets: all five keys are distinct. *)
Definition reject_duplicates (cs : list ParticipantCommitment) : protocol () :=
  ensure (distinct (commitment_id <$> cs) && distinct (operation_id <$> cs) &&
          distinct (fee_outpoint <$> cs) && distinct (pc_payload <$> cs) && distinct (change_spk <$> cs))
    DuplicateCommitment.

(** The order of [sort_by_key]. *)
Definition outpoint_le (a b : ParticipantCommitment) : Prop :=
  bytes_le (outpoint_serialize (fee_outpoint a)) (outpoint_serialize (fee_outpoint b)).

#[export] Instance outpoint_le_dec : RelDecision outpoint_le.
Proof. intros a b. unfold outpoint_le. apply _. Defined.

Definition sort_commitments (cs : list ParticipantCommitment) : list ParticipantCommitment :=
  merge_sort outpoint_le cs.

(** The loop that charges the participants: charges and changes from [index] on. *)
Fixpoint allocate (index base remainder : Z) (cs : list ParticipantCommitment)
  : protocol (list Z * list Z) :=
  match cs with
  | [] => Ok ([], [])
  | c :: cs =>
    let charge := base + (if index <? remainder then 1 else 0) in
    ensure (negb (charge >? max_charge c)) FeePolicyViolation;;
    change ← ok_or (checked_sub64 (tx_value (fee_prevout c)) charge) InsufficientChange;
    ensure (negb (change <? MIN_OUTPUT_SATS)) InsufficientChange;;
    '(charges, changes) ← allocate (index + 1) base remainder cs;
    Ok (charge :: charges, change :: changes)
  end.

Definition unsigned_input (o : OutPoint) : BtcTxIn :=
  {| previous_output := o; bi_script_sig := []; bi_sequence := INPUT_SEQUENCE; bi_witness := [] |}.

(** [record] is the batch header's bytes. *)
Definition manifest_tx (p : Proposal) (marker_spk record : bytes) (cs : list ParticipantCommitment)
    (changes : list Z) : BtcTx := {|
  btx_version := TX_VERSION;
  btx_lock_time := 0;
  btx_input := unsigned_input (stock_outpoint p) :: ((λ c, unsigned_input (fee_outpoint c)) <$> cs);
  btx_output :=
    {| tx_value := 0; script_pubkey := new_op_return record |} ::
    {| tx_value := MARKER_DUST_SATS; script_pubkey := marker_spk |} ::
    {| tx_value := stock_value p; script_pubkey := stock_script_pubkey p |} ::
    zip_with (λ c value, {| tx_value := value; script_pubkey := change_spk c |}) cs changes;
|}.

Definition check_layout (m : Manifest) (p : Proposal) : protocol () :=
  let n := length (commitments m) in
  ensure (bool_decide (mf_batch_id m = batch_id p) && (btx_version (unsigned_tx m) =? TX_VERSION) &&
          (btx_lock_time (unsigned_tx m) =? 0) &&
          bool_decide (length (btx_input (unsigned_tx m)) = n + 1)%nat &&
          bool_decide (length (btx_output (unsigned_tx m)) = n + 3)%nat &&
          forallb (λ i, (bi_sequence i =? INPUT_SEQUENCE) && bool_decide (bi_script_sig i = []))
            (btx_input (unsigned_tx m))) ProtocolLayoutViolation.

(** [batch_header_v2] asserts a batch of one to 64 payloads. *)
Definition build_at_with_marker (p : Proposal) (cs : list ParticipantCommitment) (epoch feerate : Z)
    (marker_spk : bytes) : protocol Manifest :=
  proposal_validate p;;
  ensure (bool_decide (length cs = Z.to_nat (participant_count p))) InvalidCommitment;;
  ensure (negb ((feerate <? target_feerate_sat_vb p) || (feerate >? max_feerate_sat_vb p))) FeePolicyViolation;;
  mapM (commitment_validate p) cs;;
  let cs := sort_commitments cs in
  reject_duplicates cs;;
  let count := Z.of_nat (length cs) in
  max_weight ← max_signed_weight count;
  ensure (max_weight <=? u32_max) ArithmeticOverflow;;
  let max_vbytes := (max_weight + 3) / 4 in
  miner_fee ← ok_or (checked_mul64 feerate max_vbytes) ArithmeticOverflow;
  total ← ok_or (checked_add64 miner_fee MARKER_DUST_SATS) ArithmeticOverflow;
  '(charges, changes) ← allocate 0 (total / count) (total mod count) cs;
  record ← ok_or (batch_header_v2 (pc_payload <$> cs) (context p)) InvalidCommitment;
  let m := {| mf_batch_id := batch_id p; replacement_epoch := epoch; feerate_sat_vb := feerate;
    max_weight := max_weight; miner_fee := miner_fee; total_charge := total; charges := charges;
    commitments := cs;
    unsigned_tx := manifest_tx p marker_spk (record_to_bytes record) cs changes |} in
  check_layout m p;;
  Ok m.

Definition build_at (p : Proposal) (cs : list ParticipantCommitment) (epoch feerate : Z) : protocol Manifest :=
  marker_spk ← marker_spk_for_version (pr_version p);
  build_at_with_marker p cs epoch feerate marker_spk.

Definition build (p : Proposal) (cs : list ParticipantCommitment) : protocol Manifest :=
  build_at p cs 0 (target_feerate_sat_vb p).

Definition manifest_validate (m : Manifest) (p : Proposal) : protocol () :=
  expected ← build_at p (commitments m) (replacement_epoch m) (feerate_sat_vb m);
  ensure (bool_decide (m = expected)) ProtocolLayoutViolation.

Definition manifest_body (m : Manifest) : bytes :=
  let tx := btx_serialize (unsigned_tx m) in
  mf_batch_id m ++ le_bytes 4 (replacement_epoch m) ++ le_bytes 1 (Z.of_nat (length (commitments m))) ++
  concat (commitment_id <$> commitments m) ++ le_bytes 4 (max_weight m) ++ le_bytes 4 (feerate_sat_vb m) ++
  le_bytes 8 (miner_fee m) ++ le_bytes 8 (total_charge m) ++ concat (le_bytes 8 <$> charges m) ++
  le_bytes 4 (Z.of_nat (length tx)) ++ tx.

Definition manifest_id (m : Manifest) : bytes := domain_hash "OpenCSV/batch-v2/manifest" (manifest_body m).
Definition manifest_wire (m : Manifest) : bytes := wire_message MANIFEST_KIND (manifest_body m).

Definition read_manifest_head : reader (bytes * Z * Z) :=
  id ← read_bytes 32; epoch ← read_u32; count ← read_u8; mret (id, epoch, count).

Definition read_manifest_tail (n : nat) : reader (list bytes * (Z * Z * Z * Z) * list Z * bytes) :=
  ids ← read_n n (read_bytes 32);
  weight ← read_u32; feerate ← read_u32; fee ← read_u64; total ← read_u64;
  charges ← read_n n read_u64;
  len ← read_u32; tx ← read_bytes (Z.to_nat len);
  mret (ids, (weight, feerate, fee, total), charges, tx).

Definition manifest_from_wire (p : Proposal) (cs : list ParticipantCommitment) (wire : bytes)
  : protocol Manifest :=
  body ← wire_body wire MANIFEST_KIND;
  '((id, epoch, count), rest) ← run_reader read_manifest_head body;
  ensure ((count =? participant_count p) && (Z.of_nat (length cs) =? count)) InvalidCommitment;;
  '((ids, (weight, feerate, fee, total), charges, tx_bytes), rest) ←
    run_reader (read_manifest_tail (Z.to_nat count)) rest;
  tx ← ok_or (btx_deserialize tx_bytes) InvalidSerialization;
  ensure (bool_decide (btx_serialize tx = tx_bytes)) InvalidSerialization;;
  finish rest;;
  let cs := sort_commitments cs in
  reject_duplicates cs;;
  ensure (bool_decide (commitment_id <$> cs = ids)) NoncanonicalOrder;;
  let m := {| mf_batch_id := id; replacement_epoch := epoch; feerate_sat_vb := feerate;
    max_weight := weight; miner_fee := fee; total_charge := total; charges := charges;
    commitments := cs; unsigned_tx := tx |} in
  manifest_validate m p;;
  require_canonical_wire wire (manifest_wire m);;
  Ok m.

(** The loop over the declared ids of [from_wire_pool]. *)
Fixpoint select_pool (n : nat) (pool : list ParticipantCommitment) (seen : list bytes) (data : bytes)
  : protocol (list ParticipantCommitment) :=
  match n with
  | O => Ok []
  | S n =>
    '(id, data) ← run_reader (read_bytes 32) data;
    ensure (negb (bool_decide (id ∈ seen))) DuplicateCommitment;;
    c ← ok_or (find_first (λ c, bool_decide (commitment_id c = id)) pool) InvalidCommitment;
    cs ← select_pool n pool (id :: seen) data;
    Ok (c :: cs)
  end.

Definition from_wire_pool (p : Proposal) (pool : list ParticipantCommitment) (wire : bytes)
  : protocol Manifest :=
  body ← wire_body wire MANIFEST_KIND;
  '((id, _, count), rest) ← run_reader read_manifest_head body;
  ensure (bool_decide (id = batch_id p) && (count =? participant_count p)) InvalidCommitment;;
  selected ← select_pool (Z.to_nat count) pool [] rest;
  manifest_from_wire p selected wire.

(** Signer material: the previous output, the witness script and the [ALL] policy
    of every input, for an unsigned transaction. *)
Definition psbt (m : Manifest) (p : Proposal) : protocol (list (TxOut * option bytes)) :=
  manifest_validate m p;;
  ensure (forallb (λ i, bool_decide (bi_script_sig i = []) && bool_decide (bi_witness i = []))
    (btx_input (unsigned_tx m))) InvalidSerialization;;
  Ok (({| tx_value := stock_value p; script_pubkey := stock_script_pubkey p |},
       Some (proposal_stock_script p)) :: ((λ c, (fee_prevout c, None)) <$> commitments m)).

(** ** Signatures *)
Record SignatureShare := {
  sh_manifest_id : bytes;
  input_index : Z;
  signer_pubkey : bytes;
  sh_signature : Sig;
}.

Definition require_all (s : Sig) : protocol () :=
  ensure (sighash_all s) SignaturePolicyViolation;;
  ensure (low_s s) InvalidSignature.

Definition require_key (secret : SecretKey) (expected : bytes) : protocol () :=
  ensure (bool_decide (public_key_of secret = expected)) InvalidSignature.

Definition verify_digest (s : Sig) (key digest : bytes) : protocol () :=
  ensure (verify_ecdsa s key digest) InvalidSignature.

Definition stock_sighash (m : Manifest) (p : Proposal) : option bytes :=
  p2wsh_sighash (unsigned_tx m) 0 (proposal_stock_script p) (stock_value p).
Definition participant_sighash (m : Manifest) (index : nat) (c : ParticipantCommitment) : option bytes :=
  p2wpkh_sighash (unsigned_tx m) (index + 1) (script_pubkey (fee_prevout c)) (tx_value (fee_prevout c)).

Definition sign_stock (m : Manifest) (p : Proposal) (secret : SecretKey) : protocol Sig :=
  manifest_validate m p;;
  require_key secret (stock_owner_pubkey p);;
  digest ← ok_or (stock_sighash m p) SignaturePolicyViolation;
  Ok (sign_all secret digest).

Definition sign_participant (m : Manifest) (p : Proposal) (index : nat) (secret : SecretKey) : protocol Sig :=
  manifest_validate m p;;
  c ← ok_or (commitments m !! index) InvalidCommitment;
  require_key secret (fee_pubkey c);;
  digest ← ok_or (participant_sighash m index c) SignaturePolicyViolation;
  Ok (sign_all secret digest).

Definition verify_stock_signature (m : Manifest) (p : Proposal) (s : Sig) : protocol () :=
  require_all s;;
  digest ← ok_or (stock_sighash m p) InvalidSignature;
  verify_digest s (stock_owner_pubkey p) digest.

(** The caller guarantees that the index is in range. *)
Definition verify_participant_signature (m : Manifest) (index : nat) (c : ParticipantCommitment) (s : Sig)
  : protocol () :=
  require_all s;;
  digest ← ok_or (participant_sighash m index c) InvalidSignature;
  verify_digest s (fee_pubkey c) digest.

Fixpoint verify_participants (m : Manifest) (index : nat) (cs : list ParticipantCommitment) (ss : list Sig)
  : protocol () :=
  match cs, ss with
  | c :: cs, s :: ss => verify_participant_signature m index c s;; verify_participants m (S index) cs ss
  | _, _ => Ok tt
  end.

Definition set_witness (w : list bytes) (i : BtcTxIn) : BtcTxIn :=
  {| previous_output := previous_output i; bi_script_sig := bi_script_sig i;
     bi_sequence := bi_sequence i; bi_witness := w |}.

Definition signed_inputs (stack : list bytes) (ws : list (list bytes)) (ins : list BtcTxIn) : list BtcTxIn :=
  match ins with
  | [] => []
  | i :: ins => set_witness stack i :: zip_with set_witness ws ins
  end.

Definition finalize (m : Manifest) (p : Proposal) (stock : Sig) (participants : list Sig) : protocol BtcTx :=
  manifest_validate m p;;
  ensure (bool_decide (length participants = length (commitments m))) InvalidSignature;;
  verify_stock_signature m p stock;;
  verify_participants m 0 (commitments m) participants;;
  items ← ok_or (envelope_v2_encode (pc_payload <$> commitments m)) InvalidCommitment;
  let stack := items ++ [sig_serialize stock; proposal_stock_script p] in
  let tx := {| btx_version := btx_version (unsigned_tx m); btx_lock_time := btx_lock_time (unsigned_tx m);
    btx_input := signed_inputs stack
      (zip_with (λ s c, p2wpkh_witness s (fee_pubkey c)) participants (commitments m))
      (btx_input (unsigned_tx m));
    btx_output := btx_output (unsigned_tx m) |} in
  ensure (negb (btx_weight tx >? max_weight m)) ProtocolLayoutViolation;;
  Ok tx.

Definition verify_signature_share (m : Manifest) (p : Proposal) (share : SignatureShare) : protocol () :=
  manifest_validate m p;;
  ensure (bool_decide (sh_manifest_id share = manifest_id m)) InvalidSignature;;
  if input_index share =? 0 then
    ensure (bool_decide (signer_pubkey share = stock_owner_pubkey p)) InvalidSignature;;
    verify_stock_signature m p (sh_signature share)
  else
    let index := Z.to_nat (input_index share - 1) in
    c ← ok_or (commitments m !! index) InvalidSignature;
    ensure (bool_decide (signer_pubkey share = fee_pubkey c)) InvalidSignature;;
    verify_participant_signature m index c (sh_signature share).

(** The loop that puts every share into the slot of its input. *)
Fixpoint place_shares (m : Manifest) (p : Proposal) (shares : list SignatureShare) (slots : list (option Sig))
  : protocol (list (option Sig)) :=
  match shares with
  | [] => Ok slots
  | share :: shares =>
    verify_signature_share m p share;;
    let index := Z.to_nat (input_index share) in
    match slots !! index with
    | Some (Some existing) =>
      ensure (bool_decide (existing = sh_signature share)) ConflictingOperation;;
      place_shares m p shares slots
    | _ => place_shares m p shares (<[index := Some (sh_signature share)]> slots)
    end
  end.

Definition finalize_shares (m : Manifest) (p : Proposal) (shares : list SignatureShare) : protocol BtcTx :=
  slots ← place_shares m p shares (replicate (length (commitments m) + 1) None);
  stock ← ok_or (mjoin (head slots)) InvalidSignature;
  participants ← mapM (λ s, ok_or s InvalidSignature) (tail slots);
  finalize m p stock participants.

Definition new_share (s : SignatureShare) : protocol SignatureShare := require_all (sh_signature s);; Ok s.

Definition share_wire (s : SignatureShare) : bytes :=
  let signature := sig_serialize (sh_signature s) in
  wire_message SIGNATURE_KIND (sh_manifest_id s ++ le_bytes 2 (input_index s) ++ signer_pubkey s ++
    le_bytes 2 (Z.of_nat (length signature)) ++ signature).

Definition read_share_head : reader (bytes * Z * bytes * Z) :=
  id ← read_bytes 32; index ← read_u16; key ← read_public_key; len ← read_u16; mret (id, index, key, len).

Definition share_from_wire (wire : bytes) : protocol SignatureShare :=
  body ← wire_body wire SIGNATURE_KIND;
  '((id, index, key, len), rest) ← run_reader read_share_head body;
  ensure (negb (len >? 73)) InvalidSerialization;;
  '(sig_bytes, rest) ← run_reader (read_bytes (Z.to_nat len)) rest;
  signature ← ok_or (sig_from_slice sig_bytes) InvalidSerialization;
  finish rest;;
  share ← new_share {| sh_manifest_id := id; input_index := index; signer_pubkey := key;
                       sh_signature := signature |};
  require_canonical_wire wire (share_wire share);;
  Ok share.

(** ** Replacements *)
Definition replacement (m : Manifest) (p : Proposal) (new_feerate : Z) : protocol Manifest :=
  ensure (negb (new_feerate <=? feerate_sat_vb m)) ReplacementViolation;;
  ensure (pr_version p =? VERSION) ReplacementViolation;;
  ensure (replacement_epoch m + 1 <=? u32_max) ArithmeticOverflow;;
  r ← build_at p (commitments m) (replacement_epoch m + 1) new_feerate;
  let old := unsigned_tx m in
  let new := unsigned_tx r in
  ensure (bool_decide (btx_input old = btx_input new) &&
          bool_decide (take 3 (btx_output old) = take 3 (btx_output new)) &&
          bool_decide (script_pubkey <$> drop 3 (btx_output old) = script_pubkey <$> drop 3 (btx_output new)))
    ReplacementViolation;;
  Ok r.
End batch.

(** ** Lemmas: allocation *)
Lemma sumZ_app a b : sumZ (a ++ b) = sumZ a + sumZ b.
Proof. induction a as [|x a IH]; cbn; [done|]. unfold sumZ in *. lia. Qed.

(** What the loop charges the participant at [index]. *)
Definition share_of (base remainder index : Z) : Z := base + (if index <? remainder then 1 else 0).

(** One participant's entry: charge and change against the commitment. *)
Definition entry_ok (base remainder index : Z) (c : ParticipantCommitment) (charge change : Z) : Prop :=
  charge = share_of base remainder index ∧ charge ≤ max_charge c ∧
  change = tx_value (fee_prevout c) - charge ∧ MIN_OUTPUT_SATS ≤ change.

Lemma allocate_entries base remainder cs : ∀ index chs vals,
  allocate index base remainder cs = Ok (chs, vals) →
  length chs = length cs ∧ length vals = length cs ∧
  ∀ k c, cs !! k = Some c → ∃ ch v, chs !! k = Some ch ∧ vals !! k = Some v ∧
    entry_ok base remainder (index + Z.of_nat k) c ch v.
Proof.
  induction cs as [|c cs IH]; intros index chs vals; cbn [allocate].
  { intros [= <- <-]. by split_and!. }
  intros E. apply bind_Ok in E as (u & E1 & E). apply bind_Ok in E as (change & E2 & E).
  apply bind_Ok in E as (u2 & E3 & E). apply bind_Ok in E as ([chs' vals'] & Er & E).
  injection E as <- <-. apply ensure_Ok in E1, E3. apply ok_or_Ok in E2. unfold checked_sub64 in E2.
  case_decide; [|done]. injection E2 as <-. rewrite Z.gtb_ltb in E1. bool_props.
  destruct (IH _ _ _ Er) as (L1 & L2 & Hk). split; [by cbn; f_equal|]. split; [by cbn; f_equal|].
  intros [|k] c'; cbn [lookup list_lookup].
  - intros [= <-]. do 2 eexists. split; [reflexivity|]. split; [reflexivity|].
    rewrite Z.add_0_r. by split_and!.
  - intros Hc. destruct (Hk k c' Hc) as (ch & v & ? & ? & He). exists ch, v. split_and!; [done..|].
    by replace (index + Z.of_nat (S k)) with (index + 1 + Z.of_nat k) by lia.
Qed.

Lemma allocate_sum base remainder cs : ∀ index chs vals, 0 ≤ index →
  allocate index base remainder cs = Ok (chs, vals) →
  sumZ chs = base * Z.of_nat (length cs) + Z.min (Z.max (remainder - index) 0) (Z.of_nat (length cs)) ∧
  sumZ vals = sumZ ((λ c, tx_value (fee_prevout c)) <$> cs) - sumZ chs.
Proof.
  induction cs as [|c cs IH]; intros index chs vals Hi; cbn [allocate].
  { intros [= <- <-]. cbn. lia. }
  intros E. apply bind_Ok in E as (u & E1 & E). apply bind_Ok in E as (change & E2 & E).
  apply bind_Ok in E as (u2 & E3 & E). apply bind_Ok in E as ([chs' vals'] & Er & E).
  injection E as <- <-. apply ok_or_Ok in E2. unfold checked_sub64 in E2.
  case_decide; [|done]. injection E2 as <-. apply IH in Er as [H1 H2]; [|lia].
  unfold sumZ in *. cbn [foldr fmap list_fmap length]. fold (sumZ chs') in *. rewrite H1, H2, H1.
  rewrite Nat2Z.inj_succ. destruct (index <? remainder) eqn:El; bool_props; lia.
Qed.

Lemma total_share total n : 0 < n → 0 ≤ total →
  (total / n) * n + Z.min (Z.max (total mod n - 0) 0) n = total.
Proof.
  intros Hn Ht. pose proof (Z.div_mod total n ltac:(lia)). pose proof (Z.mod_pos_bound total n Hn). lia.
Qed.

(** ** Lemmas: canonical order and duplicates *)
Section order.
Context `{Sha256, BitcoinLaws}.

Lemma outpoint_le_total : Total outpoint_le.
Proof. intros a b. unfold outpoint_le. apply (total bytes_le). Qed.

Lemma outpoint_le_trans : Transitive outpoint_le.
Proof. intros a b c. unfold outpoint_le. apply (PreOrder_Transitive (R := bytes_le)). Qed.

Lemma sort_perm cs : sort_commitments cs ≡ₚ cs.
Proof. apply merge_sort_Permutation. Qed.

Lemma sort_sorted_commitments cs : StronglySorted outpoint_le (sort_commitments cs).
Proof. apply (@StronglySorted_merge_sort _ _ _ outpoint_le_trans outpoint_le_total). Qed.

Lemma fee_outpoint_unique cs x y : NoDup (fee_outpoint <$> cs) → x ∈ cs → y ∈ cs →
  fee_outpoint x = fee_outpoint y → x = y.
Proof.
  intros Hd Hx Hy E. apply list_elem_of_lookup in Hx as [i Hi], Hy as [j Hj].
  assert (i = j) as ->; [|by simplify_eq].
  eapply NoDup_lookup; [exact Hd|by rewrite list_lookup_fmap, Hi|]. by rewrite list_lookup_fmap, Hj, E.
Qed.

(** Canonical order: sorting forgets the order in which commitments arrived. *)
Lemma sort_canonical cs ks : cs ≡ₚ ks → NoDup (fee_outpoint <$> cs) →
  Forall (λ c, outpoint_wf (fee_outpoint c)) cs → sort_commitments cs = sort_commitments ks.
Proof.
  intros Hp Hd Hw. rewrite Forall_forall in Hw.
  apply (StronglySorted_unique_strong outpoint_le);
    [|apply sort_sorted_commitments..|by rewrite !sort_perm].
  intros x y Hx Hy H1' H2'. rewrite sort_perm in Hx. rewrite sort_perm, <- Hp in Hy.
  apply (fee_outpoint_unique cs); [done..|]. apply outpoint_serialize_inj; [by apply Hw..|].
  apply (anti_symm bytes_le); [exact H1'|exact H2'].
Qed.

Lemma sort_idemp cs : sort_commitments (sort_commitments cs) = sort_commitments cs ∨
  ¬ (NoDup (fee_outpoint <$> cs) ∧ Forall (λ c, outpoint_wf (fee_outpoint c)) cs).
Proof.
  destruct (decide (NoDup (fee_outpoint <$> cs))) as [Hd|]; [|right; by intros [? _]].
  destruct (decide (Forall (λ c, outpoint_wf (fee_outpoint c)) cs)) as [Hw|]; [|right; by intros [_ ?]].
  left. symmetry. apply sort_canonical; [by rewrite sort_perm|done|done].
Qed.
End order.
