(* ===== verification/BatchDemo.v ===== *)
(** * A concrete Bitcoin library and a concrete batch

    Instances of the classes of [Bitcoin.v] that satisfy their laws, and a
    proposal with two participants: the inputs the witnesses of the batch files
    evaluate. *)

From S2P Require Import Prelude Field Commitments Kernel Anchor Batch Chain Accept Wire Block Bitcoin.
From S2P Require Import Network Peer FullScan Scan BatchV2.

(** A hash small enough to evaluate. *)
Definition small_sha : bytes → bytes := λ x,
  le_bytes 32 (foldl (λ acc b, (acc * 257 + bval b + 1) mod 65521) 5 x).
Definition small_sha256d : Sha256d := small_sha.
Definition small_sha256 : Sha256 := small_sha.
#[local] Existing Instances demo_sponge small_sha256d small_sha256.

Definition btx_of (t : Transaction) : BtcTx := {|
  btx_version := tx_version t; btx_lock_time := lock_time t;
  btx_input := (λ i, {| previous_output := prev i; bi_script_sig := script_sig i;
                        bi_sequence := sequence i; bi_witness := [] |}) <$> inputs t;
  btx_output := outputs t |}.

Definition demo_bitcoin : BitcoinLib := {|
  outpoint_serialize := outpoint_wire;
  outpoint_deserialize b := match read_outpoint b with Ok (o, []) => Some o | _ => None end;
  btx_serialize t := serialize_legacy (chain_tx t);
  btx_deserialize b := match tx_parse b with Ok (t, []) => Some (btx_of t) | _ => None end;
  btx_weight t := 4 * Z.of_nat (length (serialize_legacy (chain_tx t))) + witness_size t;
  p2wpkh_spk k := [x00; x14] ++ take 20 k;
  to_p2wsh s := [x00; x20] ++ sha256d s;
  push_key k := x21 :: k;
  new_op_return d := [x6a; x40] ++ d;
  p2wsh_sighash t i script v := Some (sha256d (serialize_legacy (chain_tx t) ++ le_bytes 4 (Z.of_nat i)));
  p2wpkh_sighash t i script v := Some (sha256d (serialize_legacy (chain_tx t) ++ le_bytes 4 (Z.of_nat i)));
  minimal_non_dust _ := 294;
  is_op_return s := bool_decide (head s = Some x6a);
|}.

(** A signature is two bytes: of the key and of the digest. *)
Definition demo_ecdsa : Ecdsa := {|
  Sig := byte * byte;
  SecretKey := bytes;
  sighash_all _ := true;
  low_s _ := true;
  sig_serialize s := [s.1; s.2];
  sig_from_slice b := match b with [x; y] => Some (x, y) | _ => None end;
  pubkey_valid k := bool_decide (head k = Some x02);
  public_key_of k := x02 :: k;
  sign_all k d := (nth 0 k x00, nth 0 d x00);
  verify_ecdsa s key d := bool_decide (s = (nth 1 key x00, nth 0 d x00));
  p2wpkh_witness s key := [[s.1; s.2]; key];
|}.

#[local] Existing Instances demo_bitcoin demo_ecdsa.

Lemma small_sha256_laws : Sha256Laws small_sha256.
Proof. constructor. intros x. apply length_le_bytes. Qed.

Lemma demo_ecdsa_laws : EcdsaLaws demo_ecdsa.
Proof. constructor; [by intros [? ?]|]. intros [? ?]. cbn. lia. Qed.

Lemma demo_weight_laws : WeightLaws demo_bitcoin demo_ecdsa.
Proof. constructor; [done| |done]. intros k Hk. cbn. by rewrite Hk. Qed.

Lemma chain_of_unsigned t : unsigned_wf t → btx_of (chain_tx t) = t.
Proof.
  intros (_ & _ & Hw). destruct t as [v l ins outs]. unfold btx_of, chain_tx. cbn in *. f_equal.
  rewrite <- list_fmap_compose. rewrite <- (list_fmap_id ins) at 2. apply list_fmap_ext.
  intros k i Hk. pose proof (Forall_lookup_1 _ _ _ _ Hw Hk) as E. cbn in E |- *. destruct i. cbn in *. by subst.
Qed.

Lemma demo_bitcoin_laws : BitcoinLaws demo_bitcoin.
Proof.
  constructor.
  - intros b o. cbn. split.
    + destruct (read_outpoint b) as [[o' []]|] eqn:E; try done. intros [= ->].
      apply reads_outpoint in E as [? ->]. by rewrite app_nil_r.
    + intros [Hw ->]. rewrite (proj2 (reads_outpoint (outpoint_wire o) o [])); [done|].
      by rewrite app_nil_r.
  - intros o [? ?]. cbn. unfold outpoint_wire. rewrite length_app, length_le_bytes. lia.
  - intros t Ht. cbn. pose proof Ht as (Hw & HL & Hn).
    rewrite (proj2 (tx_parse_wire (serialize_legacy (chain_tx t)) (chain_tx t) [])).
    + by rewrite chain_of_unsigned.
    + exists false. split; [done|]. rewrite app_nil_r. symmetry. apply legacy_wire_small. cbn. by rewrite length_fmap.
  - done.
  - done.
Qed.

(** A proposal for two participants at 1 sat/vB, bounded by 3 sat/vB. *)
Definition demo_key (i : byte) : bytes := x02 :: replicate 32 i.

(** The transaction that funds the batch: the stock and the two fee inputs. *)
Definition demo_funding : Transaction := {|
  tx_version := 2; lock_time := 0; witnesses := [];
  inputs := [{| prev := {| op_txid := replicate 32 x33; vout := 4 |}; script_sig := []; sequence := 0 |}];
  outputs := [{| tx_value := 1000; script_pubkey := to_p2wsh (stock_witness_script (demo_key x01) 2) |};
              {| tx_value := 6000; script_pubkey := p2wpkh_spk (demo_key x03) |};
              {| tx_value := 5000; script_pubkey := p2wpkh_spk (demo_key x09) |}] |}.
Definition demo_out (n : Z) : OutPoint := {| op_txid := tx_id demo_funding; vout := n |}.

Definition demo_proposal : Proposal := {|
  pr_version := VERSION; chain_id := replicate 32 x07; stock_outpoint := demo_out 0; stock_value := 1000;
  stock_owner_pubkey := demo_key x01; participant_count := 2; proposal_nonce := zeros 32;
  observed_tip_height := 100; expiry_height := 200; target_feerate_sat_vb := 1; max_feerate_sat_vb := 3 |}.

Definition demo_commitment (i : byte) (n value : Z) : ParticipantCommitment := {|
  pc_batch_id := batch_id demo_proposal; operation_id := replicate 32 i; commit_nonce := zeros 32;
  pc_payload := bound (context demo_proposal) (replicate 32 i); fee_outpoint := demo_out n;
  fee_prevout := {| tx_value := value; script_pubkey := p2wpkh_spk (demo_key i) |};
  fee_pubkey := demo_key i; change_spk := p2wpkh_spk (demo_key i); max_charge := 2000 |}.

Definition demo_commitments : list ParticipantCommitment :=
  [demo_commitment x09 2 5000; demo_commitment x03 1 6000].


(** The manifest they build, at one satoshi per virtual byte. *)
Definition demo_manifest : Manifest :=
  match build_at demo_proposal demo_commitments 0 1 with
  | Ok m => m
  | Err _ => {| mf_batch_id := []; replacement_epoch := 0; feerate_sat_vb := 0; max_weight := 0;
                miner_fee := 0; total_charge := 0; charges := []; commitments := [];
                unsigned_tx := btx_of {| tx_version := 0; inputs := []; outputs := []; lock_time := 0;
                                         witnesses := [] |} |}
  end.

Lemma demo_built : build_at demo_proposal demo_commitments 0 1 = Ok demo_manifest.
Proof. vm_compute. reflexivity. Qed.

(** Two of 454 + 546 satoshis each pay half. *)
Example demo_charges : (miner_fee demo_manifest, charges demo_manifest) = (454, [500; 500]).
Proof. vm_compute. reflexivity. Qed.

Lemma demo_valid : manifest_validate demo_manifest demo_proposal = Ok tt.
Proof. vm_compute. reflexivity. Qed.
