(* ===== verification/BatchRules.v ===== *)
(** * The rules a batch manifest obeys

    Theorems about [BatchV2.v]: what a built manifest pays, that it depends on the
    set of commitments and not on their order, that replacements only raise the
    fee, and the life of a reservation.  [build_at_Ok] is the inversion of the
    builder every one of them starts from. *)

From S2P Require Import Prelude Field Commitments Kernel Anchor Batch Chain Accept Wire Block Bitcoin.
From S2P Require Import Network Peer FullScan Scan BatchV2 BatchDemo.

(** ** The fee of a manifest *)

(** The signed size the fee is charged for, in virtual bytes. *)
Definition max_vbytes (n : Z) : Z := (423 * n + 968 + 3) / 4.
Definition fee_of (n feerate : Z) : Z := feerate * max_vbytes n.
Definition total_of (n feerate : Z) : Z := fee_of n feerate + MARKER_DUST_SATS.

(** What the participant at [index] of [n] pays. *)
Definition charge_of (n feerate index : Z) : Z :=
  share_of (total_of n feerate / n) (total_of n feerate mod n) index.

Lemma max_signed_weight_Ok n w : max_signed_weight n = Ok w →
  1 ≤ n ≤ 64 ∧ w = 423 * n + 968 ∧ w ≤ u32_max.
Proof.
  unfold max_signed_weight, MAX_BATCH_V2_PARTICIPANTS. intros E. inv_bind. bool_props.
  unfold checked_mul64, checked_add64 in *. repeat case_decide; simplify_eq.
  unfold u32_max. lia.
Qed.

Lemma total_of_mono n f f' : 0 < n → f ≤ f' → total_of n f ≤ total_of n f'.
Proof.
  intros Hn Hf. unfold total_of, fee_of. apply Zplus_le_compat_r, Z.mul_le_mono_nonneg_r; [|done].
  unfold max_vbytes. apply Z.div_pos; lia.
Qed.

Lemma fee_of_lt n f f' : 0 < n → f < f' → fee_of n f < fee_of n f'.
Proof.
  intros Hn Hf. unfold fee_of. apply Z.mul_lt_mono_pos_r; [|done].
  unfold max_vbytes. pose proof (Z.div_le_mono 4 (423 * n + 968 + 3) 4 ltac:(lia) ltac:(lia)).
  change (4 / 4) with 1 in *. lia.
Qed.

Lemma fee_of_nonneg n f : 0 < n → 0 ≤ f → 0 ≤ fee_of n f.
Proof. intros. apply Z.mul_nonneg_nonneg; [done|]. apply Z.div_pos; lia. Qed.

(** A larger total never lowers anybody's share. *)
Lemma share_mono n t t' k : 0 < n → t ≤ t' →
  share_of (t / n) (t mod n) k ≤ share_of (t' / n) (t' mod n) k.
Proof.
  intros Hn Ht. unfold share_of.
  pose proof (Z.div_mod t n ltac:(lia)). pose proof (Z.div_mod t' n ltac:(lia)).
  pose proof (Z.mod_pos_bound t n Hn). pose proof (Z.mod_pos_bound t' n Hn).
  pose proof (Z.div_le_mono t t' n Hn Ht).
  destruct (decide (t / n = t' / n)) as [E|].
  - rewrite E in *. destruct (k <? t mod n) eqn:E1, (k <? t' mod n) eqn:E2; bool_props; lia.
  - destruct (k <? t mod n), (k <? t' mod n); lia.
Qed.

Section rules.
Context `{Poseidon, Sha256, BitcoinLib, Ecdsa}.

(** Everything a successful build establishes about its arguments; the built
    manifest is a function of them. *)
Record buildable (p : Proposal) (cs : list ParticipantCommitment) (feerate : Z) (spk record : bytes)
    (charges changes : list Z) : Prop := {
  bd_spk : marker_spk_for_version (pr_version p) = Ok spk;
  bd_proposal : proposal_validate p = Ok tt;
  bd_count : length cs = Z.to_nat (participant_count p);
  bd_range : 1 ≤ Z.of_nat (length cs) ≤ 64;
  bd_rate : target_feerate_sat_vb p ≤ feerate ≤ max_feerate_sat_vb p;
  bd_commitments : Forall (λ c, commitment_validate p c = Ok tt) cs;
  bd_duplicates : reject_duplicates (sort_commitments cs) = Ok tt;
  bd_total : total_of (Z.of_nat (length cs)) feerate ≤ u64_max;
  bd_allocate : allocate 0 (total_of (Z.of_nat (length cs)) feerate / Z.of_nat (length cs))
    (total_of (Z.of_nat (length cs)) feerate mod Z.of_nat (length cs)) (sort_commitments cs) =
    Ok (charges, changes);
  bd_record : record_to_bytes <$> batch_header_v2 (pc_payload <$> sort_commitments cs) (context p) =
    Some record;
}.

Definition built (p : Proposal) (cs : list ParticipantCommitment) (epoch feerate : Z) (spk record : bytes)
    (charges changes : list Z) : Manifest :=
  let n := Z.of_nat (length cs) in
  {| mf_batch_id := batch_id p; replacement_epoch := epoch; feerate_sat_vb := feerate;
     max_weight := 423 * n + 968; miner_fee := fee_of n feerate; total_charge := total_of n feerate;
     charges := charges; commitments := sort_commitments cs;
     unsigned_tx := manifest_tx p spk record (sort_commitments cs) changes |}.

Lemma mapM_ok {A E} (f : A → result E ()) l us :
  mapM f l = Ok us ↔ Forall (λ x, f x = Ok tt) l ∧ us = replicate (length l) tt.
Proof.
  revert us; induction l as [|x l IH]; intros us; cbn [mapM].
  - split; [intros [= <-]; by split|]. by intros [_ ->].
  - split.
    + intros E'. inv_bind. apply IH in E1 as [HF ->]. destruct a. subst us. by split; [constructor|].
    + intros [[Hx HF]%Forall_cons ->]. rewrite Hx. cbn [mbind result_bind].
      by rewrite (proj2 (IH _) (conj HF eq_refl)).
Qed.

Lemma length_sort cs : length (sort_commitments cs) = length cs.
Proof. apply Permutation_length, sort_perm. Qed.

Lemma allocate_lengths base remainder cs : ∀ index chs vals,
  allocate index base remainder cs = Ok (chs, vals) → length chs = length cs ∧ length vals = length cs.
Proof. intros index chs vals E. destruct (allocate_entries _ _ _ _ _ _ E) as (? & ? & _). done. Qed.

(** The framing [check_layout] tests holds of every transaction the builder makes. *)
Lemma layout_ok p cs epoch feerate w fee total chs vals spk record : length vals = length cs →
  check_layout {| mf_batch_id := batch_id p; replacement_epoch := epoch; feerate_sat_vb := feerate;
    max_weight := w; miner_fee := fee; total_charge := total; charges := chs; commitments := cs;
    unsigned_tx := manifest_tx p spk record cs vals |} p = Ok tt.
Proof.
  intros Hl. unfold check_layout, manifest_tx. apply ensure_Ok.
  rewrite !andb_true_iff, !bool_decide_eq_true, !Z.eqb_eq.
  cbn [mf_batch_id unsigned_tx btx_version btx_lock_time btx_input btx_output commitments].
  split_and!; try done; cbn [length].
  - rewrite length_fmap. lia.
  - rewrite length_zip_with, Hl. lia.
  - apply forallb_forall. intros i Hi. cbn in Hi. destruct Hi as [<-|Hi]; [by vm_compute|].
    apply in_map_iff in Hi as (c & <- & _). by vm_compute.
Qed.

Lemma build_at_Ok p cs epoch feerate m : 0 ≤ feerate →
  build_at p cs epoch feerate = Ok m ↔
  ∃ spk record chs vals, buildable p cs feerate spk record chs vals ∧
    m = built p cs epoch feerate spk record chs vals.
Proof.
  intros Hf. unfold build_at, build_at_with_marker. split.
  - intros E. apply bind_Ok in E as (spk & Espk & E). apply bind_Ok in E as ([] & Ep & E).
    apply bind_Ok in E as ([] & Elen & E). apply bind_Ok in E as ([] & Erate & E).
    apply bind_Ok in E as (us & Ecs & E). apply bind_Ok in E as ([] & Edup & E).
    apply bind_Ok in E as (w & Ew & E). apply bind_Ok in E as ([] & _ & E).
    apply bind_Ok in E as (fee & Efee & E). apply bind_Ok in E as (total & Etot & E).
    apply bind_Ok in E as ([chs vals] & Eal & E). apply bind_Ok in E as (record & Erec & E).
    apply bind_Ok in E as ([] & _ & [= <-]).
    rewrite length_sort in *. apply max_signed_weight_Ok in Ew as (Hn & -> & _).
    apply ensure_Ok in Elen, Erate. apply ok_or_Ok in Efee, Etot, Erec. rewrite Z.gtb_ltb in Erate.
    bool_props. unfold checked_mul64, checked_add64 in Efee, Etot. repeat case_decide; simplify_eq.
    apply mapM_ok in Ecs as [Ecs _]. exists spk, (record_to_bytes record), chs, vals.
    split; [|done]. constructor; try done. by rewrite Erec.
  - intros (spk & record & chs & vals & [Espk Ep Elen Hn Hr Hcs Hd Ht Hal Hrec] & ->).
    rewrite Espk, Ep. cbn [mbind result_bind]. rewrite bool_decide_eq_true_2 by done.
    rewrite Z.gtb_ltb, !(proj2 (Z.ltb_ge _ _)) by lia. cbn [negb orb ensure mbind result_bind].
    rewrite (proj2 (mapM_ok _ _ _) (conj Hcs eq_refl)). cbn [mbind result_bind]. rewrite Hd, length_sort.
    assert (max_signed_weight (Z.of_nat (length cs)) = Ok (423 * Z.of_nat (length cs) + 968)) as ->.
    { unfold max_signed_weight, MAX_BATCH_V2_PARTICIPANTS. rewrite !(proj2 (Z.leb_le _ _)) by lia.
      unfold checked_mul64, checked_add64, u64_max. rewrite decide_True by lia.
      cbn [mbind option_bind]. by rewrite decide_True by lia. }
    cbn [mbind result_bind]. unfold u32_max at 1. rewrite (proj2 (Z.leb_le _ _)) by lia.
    cbn [ensure mbind result_bind]. unfold total_of, fee_of, max_vbytes, MARKER_DUST_SATS in *.
    unfold checked_mul64, checked_add64. rewrite decide_True by lia.
    cbn [ok_or mbind result_bind]. rewrite decide_True by lia. cbn [ok_or mbind result_bind].
    rewrite Hal. cbn [mbind result_bind]. apply fmap_Some in Hrec as (r & -> & ->).
    cbn [ok_or mbind result_bind]. apply bind_Ok. exists tt. split; [|done].
    apply allocate_lengths in Hal as [_ Hl]. by apply layout_ok.
Qed.

(** ** The value a manifest moves *)

Lemma fmap_zip_values (cs : list ParticipantCommitment) vals : length vals = length cs →
  tx_value <$> zip_with (λ c v, {| tx_value := v; script_pubkey := change_spk c |}) cs vals = vals.
Proof.
  revert vals; induction cs as [|c cs IH]; intros [|v vals] L; cbn in *; try done. f_equal. apply IH. lia.
Qed.

(** [(_ :: l) !! S k] is [l !! k]. *)
Ltac lookup_tail :=
  lazymatch goal with |- (_ :: ?l) !! S ?k = ?y => change (l !! k = y) end.

Lemma zip_scripts (cs : list ParticipantCommitment) vals : length vals = length cs →
  script_pubkey <$> zip_with (λ c v, {| tx_value := v; script_pubkey := change_spk c |}) cs vals =
    change_spk <$> cs.
Proof.
  revert vals; induction cs as [|c cs IH]; intros [|v vals] L; cbn in *; try done. f_equal. apply IH. lia.
Qed.

(** One participant of a built manifest: what they are charged and what they get back. *)
Lemma built_participant p cs epoch feerate spk record chs vals k c :
  buildable p cs feerate spk record chs vals →
  let m := built p cs epoch feerate spk record chs vals in
  commitments m !! k = Some c →
  let charge := charge_of (Z.of_nat (length cs)) feerate (Z.of_nat k) in
  charges m !! k = Some charge ∧ charge ≤ max_charge c ∧
  MIN_OUTPUT_SATS ≤ tx_value (fee_prevout c) - charge ∧
  btx_input (unsigned_tx m) !! S k = Some (unsigned_input (fee_outpoint c)) ∧
  btx_output (unsigned_tx m) !! (3 + k)%nat =
    Some {| tx_value := tx_value (fee_prevout c) - charge; script_pubkey := change_spk c |}.
Proof.
  intros B m Hc. pose proof (bd_allocate _ _ _ _ _ _ _ B) as Hal.
  destruct (allocate_entries _ _ _ _ _ _ Hal) as (_ & _ & He).
  destruct (He k c Hc) as (ch & v & Hch & Hv & E1 & E2 & E3 & E4).
  rewrite Z.add_0_l in E1. unfold charge_of. rewrite <- E1. subst v m.
  cbn [built charges commitments unsigned_tx manifest_tx btx_input btx_output Nat.add] in *.
  split_and!; [done..| |]; repeat lookup_tail.
  - by rewrite list_lookup_fmap, Hc.
  - by rewrite lookup_zip_with, Hc, Hv.
Qed.

Lemma built_conserves_value p cs epoch feerate m : 0 ≤ feerate →
  build_at p cs epoch feerate = Ok m →
  let n := participant_count p in
  miner_fee m = feerate * ((423 * n + 968 + 3) / 4) ∧
  total_charge m = miner_fee m + 546 ∧ sumZ (charges m) = total_charge m ∧ total_charge m ≤ u64_max ∧
  stock_value p + sumZ ((λ c, tx_value (fee_prevout c)) <$> commitments m) =
    sumZ (tx_value <$> btx_output (unsigned_tx m)) + miner_fee m ∧
  ∀ k c, commitments m !! k = Some c → ∃ charge,
    charges m !! k = Some charge ∧ total_charge m / n ≤ charge ≤ total_charge m / n + 1 ∧
    charge ≤ max_charge c ∧ 546 ≤ tx_value (fee_prevout c) - charge ∧
    btx_input (unsigned_tx m) !! S k = Some (unsigned_input (fee_outpoint c)) ∧
    btx_output (unsigned_tx m) !! (3 + k)%nat =
      Some {| tx_value := tx_value (fee_prevout c) - charge; script_pubkey := change_spk c |}.
Proof.
  intros Hf (spk & record & chs & vals & B & ->)%build_at_Ok n; [|done].
  pose proof (bd_range _ _ _ _ _ _ _ B) as Hn. pose proof (bd_allocate _ _ _ _ _ _ _ B) as Hal.
  pose proof (bd_count _ _ _ _ _ _ _ B) as Hc.
  assert (n = Z.of_nat (length cs)) as En by (unfold n; lia). rewrite En. clear n En Hc.
  set (count := Z.of_nat (length cs)) in *.
  pose proof (fee_of_nonneg count feerate ltac:(lia) Hf) as Hfee.
  destruct (allocate_sum _ _ _ 0 _ _ ltac:(done) Hal) as [Hs Hv].
  rewrite length_sort, total_share in Hs by (unfold total_of, MARKER_DUST_SATS; lia).
  split_and!; [done|done|done|apply B| |].
  - cbn [built commitments unsigned_tx manifest_tx btx_output miner_fee]. rewrite !fmap_cons, fmap_zip_values.
    + subst count. unfold sumZ in *. cbn [foldr tx_value]. unfold total_of, MARKER_DUST_SATS in *. lia.
    + by apply allocate_lengths in Hal as [_ ->].
  - intros k c Hc. destruct (built_participant _ _ epoch _ _ _ _ _ k c B Hc) as (? & ? & ? & ? & ?).
    eexists. split_and!; [done| | |done..];
      subst count; unfold charge_of, share_of; cbn [built total_charge]; case_if; lia.
Qed.


(** ** The order in which commitments arrive *)

Lemma no_duplicate_fees cs : reject_duplicates (sort_commitments cs) = Ok tt → NoDup (fee_outpoint <$> cs).
Proof.
  unfold reject_duplicates. intros Hd. apply ensure_Ok in Hd. bool_props.
  rewrite <- (sort_perm cs). by apply distinct_NoDup.
Qed.

Lemma built_order `{!BitcoinLaws _} p cs ks epoch feerate m : 0 ≤ feerate → cs ≡ₚ ks →
  Forall (λ c, outpoint_wf (fee_outpoint c)) cs →
  build_at p cs epoch feerate = Ok m → build_at p ks epoch feerate = Ok m.
Proof.
  intros Hf Hp Hw (spk & record & chs & vals & B & ->)%build_at_Ok; [|done].
  apply build_at_Ok; [done|]. exists spk, record, chs, vals. pose proof (Permutation_length Hp) as HL.
  pose proof (sort_canonical cs ks Hp (no_duplicate_fees _ (bd_duplicates _ _ _ _ _ _ _ B)) Hw) as HS.
  split; [|by unfold built; rewrite HL, HS].
  destruct B. constructor; rewrite <- ?HL, <- ?HS; try done. by rewrite <- Hp.
Qed.

(** A manifest is a function of the set of commitments: peers that received the
    same commitments in any order build the same manifest or none. *)
Theorem manifest_order_irrelevant `{!BitcoinLaws _} p cs ks epoch feerate m : 0 ≤ feerate → cs ≡ₚ ks →
  Forall (λ c, outpoint_wf (fee_outpoint c)) cs →
  build_at p cs epoch feerate = Ok m ↔ build_at p ks epoch feerate = Ok m.
Proof. intros Hf Hp Hw. split; apply built_order; try done. by rewrite <- Hp. Qed.

(** ** Validation and replacement *)

Lemma manifest_validate_Ok m p :
  manifest_validate m p = Ok tt ↔ build_at p (commitments m) (replacement_epoch m) (feerate_sat_vb m) = Ok m.
Proof.
  unfold manifest_validate. split.
  - intros E. apply bind_Ok in E as (m' & E & Hm). apply ensure_Ok in Hm. bool_props. congruence.
  - intros ->. cbn [mbind result_bind]. by rewrite bool_decide_eq_true_2.
Qed.

(** A built manifest validates when its commitments are already in order. *)
Lemma built_sorted p cs epoch feerate m : 0 ≤ feerate →
  build_at p cs epoch feerate = Ok m → commitments m = sort_commitments cs.
Proof. intros Hf (? & ? & ? & ? & _ & ->)%build_at_Ok; done. Qed.

(** Two manifests over the same commitments differ in their change values only. *)
Lemma rebuilt_invariants p cs epoch feerate epoch' feerate' spk record chs vals spk' record' chs' vals' :
  buildable p cs feerate spk record chs vals → buildable p cs feerate' spk' record' chs' vals' →
  let old := unsigned_tx (built p cs epoch feerate spk record chs vals) in
  let new := unsigned_tx (built p cs epoch' feerate' spk' record' chs' vals') in
  btx_input old = btx_input new ∧ take 3 (btx_output old) = take 3 (btx_output new) ∧
  script_pubkey <$> drop 3 (btx_output old) = script_pubkey <$> drop 3 (btx_output new).
Proof.
  intros [Es _ _ _ _ _ _ _ Ha Er] [Es' _ _ _ _ _ _ _ Ha' Er'] old new. subst old new.
  cbn [built unsigned_tx manifest_tx btx_input btx_output]. split; [done|].
  assert (spk = spk') as <- by congruence. assert (record = record') as <- by congruence.
  split; [done|]. cbn [drop skipn].
  apply allocate_lengths in Ha as [_ Hv], Ha' as [_ Hv'].
  transitivity (change_spk <$> sort_commitments cs); [|symmetry];
    by apply zip_scripts.
Qed.

(** What [replacement_monotone] promises of a rebuilt manifest. *)
Lemma rebuilt_grows m p feerate r : 0 ≤ feerate_sat_vb m → feerate_sat_vb m < feerate →
  build_at p (commitments m) (replacement_epoch m) (feerate_sat_vb m) = Ok m →
  build_at p (commitments m) (replacement_epoch m + 1) feerate = Ok r →
  manifest_validate r p = Ok tt ∧ commitments r = commitments m ∧
  btx_input (unsigned_tx r) = btx_input (unsigned_tx m) ∧
  take 3 (btx_output (unsigned_tx r)) = take 3 (btx_output (unsigned_tx m)) ∧
  script_pubkey <$> drop 3 (btx_output (unsigned_tx r)) =
    script_pubkey <$> drop 3 (btx_output (unsigned_tx m)) ∧
  miner_fee m < miner_fee r ∧
  ∀ k old new, charges m !! k = Some old → charges r !! k = Some new → old ≤ new.
Proof.
  intros Hf Hlt Hm Hr. pose proof (built_sorted _ _ _ _ _ Hf Hm) as Es.
  pose proof Hr as Hv. apply build_at_Ok in Hm as (spk & record & chs & vals & B & Em); [|lia].
  apply build_at_Ok in Hr as (spk' & record' & chs' & vals' & B' & Er); [|lia].
  destruct (rebuilt_invariants p (commitments m) (replacement_epoch m) (feerate_sat_vb m)
    (replacement_epoch m + 1) feerate _ _ _ _ _ _ _ _ B B') as (H1' & H2' & H3').
  rewrite <- Er, <- Em in H1', H2', H3'. pose proof (bd_range _ _ _ _ _ _ _ B).
  assert (commitments r = commitments m) as Ec by (rewrite Er; cbn [built commitments]; congruence).
  split; [|split; [exact Ec|split_and!; [done..| |]]].
  - apply manifest_validate_Ok. rewrite Ec. rewrite Er at 1 2. exact Hv.
  - rewrite Em, Er. cbn [built miner_fee]. apply fee_of_lt; lia.
  - intros k old new Ho Hn. destruct (lookup_lt_is_Some_2 (commitments m) k) as [c Hc].
    { apply lookup_lt_Some in Ho. rewrite Em in Ho. cbn [built charges] in Ho.
      destruct (allocate_lengths _ _ _ _ _ _ (bd_allocate _ _ _ _ _ _ _ B)) as [Lc _].
      by rewrite Lc, length_sort in Ho. }
    destruct (built_participant _ _ (replacement_epoch m) _ _ _ _ _ k c B) as (Hc1 & _); [by rewrite <- Em|].
    destruct (built_participant _ _ (replacement_epoch m + 1) _ _ _ _ _ k c B') as (Hc2 & _);
      [by rewrite <- Er, Ec|].
    rewrite <- Em, Ho in Hc1. rewrite <- Er, Hn in Hc2. simplify_eq. unfold charge_of.
    apply share_mono, total_of_mono; lia.
Qed.

(** The replacement of a valid manifest is the build at the next epoch: the final
    comparison of protected fields never refuses it. *)
Lemma replacement_eq m p feerate : manifest_validate m p = Ok tt → 0 ≤ feerate_sat_vb m →
  replacement m p feerate =
  (ensure (negb (feerate <=? feerate_sat_vb m)) ReplacementViolation;;
   ensure (pr_version p =? VERSION) ReplacementViolation;;
   ensure (replacement_epoch m + 1 <=? u32_max) ArithmeticOverflow;;
   build_at p (commitments m) (replacement_epoch m + 1) feerate).
Proof.
  intros Hm%manifest_validate_Ok Hf. unfold replacement.
  destruct (feerate <=? feerate_sat_vb m) eqn:Er; cbn [negb ensure mbind result_bind]; [done|]. bool_props.
  destruct (pr_version p =? VERSION); cbn [ensure mbind result_bind]; [|done].
  destruct (replacement_epoch m + 1 <=? u32_max); cbn [ensure mbind result_bind]; [|done].
  destruct (build_at p (commitments m) (replacement_epoch m + 1) feerate) as [r|] eqn:Eb;
    cbn [mbind result_bind]; [|done].
  apply build_at_Ok in Hm as (spk & record & chs & vals & B & Em); [|lia].
  apply build_at_Ok in Eb as (spk' & record' & chs' & vals' & B' & Er'); [|lia].
  destruct (rebuilt_invariants p (commitments m) (replacement_epoch m) (feerate_sat_vb m)
    (replacement_epoch m + 1) feerate _ _ _ _ _ _ _ _ B B') as (H1' & H2' & H3').
  rewrite <- Er', <- Em in H1', H2', H3'. by rewrite !bool_decide_eq_true_2.
Qed.

(** A replacement of a valid manifest is refused only by its stated guards (a
    feerate that does not increase, a version that is not current, an exhausted
    epoch) and by the builder; when it is granted it is itself a valid manifest of
    the next epoch that spends the same inputs, keeps the record, the marker, the
    stock output and every change script, pays a strictly higher miner fee, and
    lowers no charge and raises no change. *)
Theorem replacement_monotone m p feerate r : manifest_validate m p = Ok tt → 0 ≤ feerate_sat_vb m →
  replacement m p feerate = Ok r ↔
  (feerate_sat_vb m < feerate ∧ pr_version p = VERSION ∧ replacement_epoch m + 1 ≤ u32_max ∧
   build_at p (commitments m) (replacement_epoch m + 1) feerate = Ok r) ∧
  (manifest_validate r p = Ok tt ∧ commitments r = commitments m ∧
   btx_input (unsigned_tx r) = btx_input (unsigned_tx m) ∧
   take 3 (btx_output (unsigned_tx r)) = take 3 (btx_output (unsigned_tx m)) ∧
   script_pubkey <$> drop 3 (btx_output (unsigned_tx r)) =
     script_pubkey <$> drop 3 (btx_output (unsigned_tx m)) ∧
   miner_fee m < miner_fee r ∧
   ∀ k old new, charges m !! k = Some old → charges r !! k = Some new → old ≤ new).
Proof.
  intros Hm Hf. rewrite (replacement_eq m p feerate Hm Hf). apply manifest_validate_Ok in Hm.
  split.
  - intros E. apply bind_Ok in E as ([] & E1 & E). apply bind_Ok in E as ([] & E2 & E).
    apply bind_Ok in E as ([] & E3 & E). apply ensure_Ok in E1, E2, E3. bool_props.
    split; [done|]. by apply (rebuilt_grows m p feerate).
  - intros [(H1' & H2' & H3' & ->) _].
    rewrite (proj2 (Z.leb_gt _ _) H1'), (proj2 (Z.eqb_eq _ _) H2'), (proj2 (Z.leb_le _ _) H3'). done.
Qed.
End rules.

(** ** The life of a reservation *)

(** The transitions a reservation is put through. *)
Inductive PhaseEvent := EvSignature | EvTimeout | EvConfirmed | EvInvalidated.

Inductive phase_step : ReservationPhase → PhaseEvent → ReservationPhase → Prop :=
  | step_signature p q : signature_released p = Ok q → phase_step p EvSignature q
  | step_timeout p q : timeout_abort p = Ok q → phase_step p EvTimeout q
  | step_confirmed p : phase_step p EvConfirmed (phase_confirmed p)
  | step_invalidated p : phase_step p EvInvalidated (invalidated_on_chain p).

(** [phase_trace evs p]: a new reservation is in phase [p] after [evs], the last
    event first. *)
Inductive phase_trace : list PhaseEvent → ReservationPhase → Prop :=
  | trace_new : phase_trace [] CommittedUnsigned
  | trace_step evs p ev q : phase_trace evs p → phase_step p ev q → phase_trace (ev :: evs) q.

(** A signature, once released, is in circulation: from then on only the chain
    frees the input. *)
Lemma trace_signed evs p : phase_trace evs p →
  (p = CommittedUnsigned ∧ evs = []) ∨
  (p = SignatureReleased ∧ EvSignature ∈ evs) ∨
  (p = ReleasedBeforeSignature ∧ EvSignature ∉ evs) ∨
  ((p = PhaseConfirmed ∨ p = InvalidatedOnChain) ∧ (EvConfirmed ∈ evs ∨ EvInvalidated ∈ evs)).
Proof.
  induction 1 as [|evs p ev q Ht IH Hs]; [by left|].
  inversion Hs; subst; unfold phase_confirmed, invalidated_on_chain; rewrite !elem_of_cons;
    destruct IH as [[-> ->]|[[-> ?]|[[-> ?]|[[-> | ->] ?]]]]; cbn in *; simplify_eq;
    set_solver.
Qed.

(** Over any sequence of signature releases, timeouts, confirmations and chain
    invalidations of a new reservation: once a signature was released, the input
    is never free before the chain confirmed or invalidated a spend of it, and no
    timeout succeeds while it is outstanding; without a signature a timeout frees
    it; and an input that is free stays free, and no signature is released for it
    again. *)
Theorem reservation_safe evs p : phase_trace evs p →
  (EvSignature ∈ evs → is_releasable p = true → EvConfirmed ∈ evs ∨ EvInvalidated ∈ evs) ∧
  (EvSignature ∈ evs → p ≠ ReleasedBeforeSignature) ∧
  (p = SignatureReleased → ∀ q, ¬ phase_step p EvTimeout q) ∧
  (p = CommittedUnsigned → phase_step p EvTimeout ReleasedBeforeSignature) ∧
  (is_releasable p = true → (∀ q, ¬ phase_step p EvSignature q) ∧
    ∀ ev q, phase_step p ev q → is_releasable q = true).
Proof.
  intros Ht%trace_signed. split_and!.
  - intros Hs Hr. destruct Ht as [[-> ->]|[[-> ?]|[[-> ?]|[? ?]]]]; done.
  - intros Hs ->. naive_solver.
  - intros -> q Hq. by inversion Hq.
  - intros ->. by constructor.
  - intros Hr. split; [intros q Hq|intros ev q Hq]; inversion Hq; subst; by destruct p; simplify_eq/=.
Qed.

Lemma reservation_safe_witness :
  phase_trace [EvConfirmed; EvSignature] PhaseConfirmed ∧
  (∀ q, ¬ phase_step PhaseConfirmed EvSignature q).
Proof.
  assert (phase_trace [EvConfirmed; EvSignature] PhaseConfirmed) as Ht.
  { eapply trace_step; [|apply (step_confirmed SignatureReleased)].
    eapply trace_step; [apply trace_new|by apply step_signature]. }
  split; [exact Ht|]. apply (reservation_safe _ _ Ht). reflexivity.
Defined.

(** A stored phase byte reads back as the phase that was stored, and no other
    byte reads. *)
Theorem phase_byte_roundtrip b p : phase_from_byte b = Ok p ↔ b = phase_to_byte p.
Proof.
  unfold phase_from_byte. split.
  - repeat case_if; intros; simplify_eq; bool_props; done.
  - intros ->. by destruct p.
Qed.

(** ** Witnesses *)
Section demo.
#[local] Existing Instances demo_sponge small_sha256d small_sha256 demo_bitcoin demo_ecdsa demo_bitcoin_laws.


Lemma manifest_order_irrelevant_witness :
  build_at demo_proposal (reverse demo_commitments) 0 1 = Ok demo_manifest.
Proof.
  refine (proj1 (manifest_order_irrelevant demo_proposal demo_commitments (reverse demo_commitments) 0 1
    demo_manifest _ _ _) demo_built).
  - lia.
  - by rewrite reverse_Permutation.
  - repeat constructor; vm_compute; done.
Defined.

Lemma replacement_monotone_witness :
  ∃ r, replacement demo_manifest demo_proposal 2 = Ok r ∧ miner_fee demo_manifest < miner_fee r.
Proof.
  destruct (replacement demo_manifest demo_proposal 2) as [r|] eqn:E; [|vm_compute in E; discriminate].
  exists r. split; [reflexivity|].
  pose proof (proj1 (replacement_monotone demo_manifest demo_proposal 2 r demo_valid
    ltac:(vm_compute; discriminate)) E) as (_ & _ & _ & _ & _ & _ & Hf & _). exact Hf.
Defined.
End demo.
