(* ===== verification/BatchWire.v ===== *)
(** * The wire messages of co-funded batches

    Every message of [BatchV2.v] - proposal, commitment, manifest, signature share
    - parses exactly from the bytes its value is written as. *)

From S2P Require Import Prelude Field Commitments Kernel Anchor Batch Chain Accept Wire Block Bitcoin.
From S2P Require Import Network Peer FullScan Scan BatchV2 BatchDemo BatchRules.

(** ** The frame *)

Lemma wire_message_length kind body : length (wire_message kind body) = (13 + length body)%nat.
Proof. unfold wire_message. rewrite !length_app, length_le_bytes. cbn. lia. Qed.

Lemma wire_body_exact wire kind body : Z.of_nat (length body) ≤ u32_max →
  wire_body wire kind = Ok body ↔ wire = wire_message kind body.
Proof.
  intros HL. unfold wire_body. split.
  - intros E. apply bind_Ok in E as ([] & E1 & E). apply bind_Ok in E as ([] & E2 & E).
    apply bind_Ok in E as ([] & E3 & E). apply ensure_Ok in E1, E2, E3. injection E as <-.
    apply andb_true_iff in E1 as [E0 E1]. apply negb_true_iff, bool_decide_eq_false in E0.
    apply bool_decide_eq_true in E1, E2. apply Z.eqb_eq in E3.
    do 13 (destruct wire as [|? wire]; [cbn in E0; lia|]). cbn in E1, E2.
    unfold wire_message. change (drop 13 _) with wire in *. rewrite <- E1, E2. cbn [app]. do 9 f_equal.
    change (slice 9 13 _) with [b8; b9; b10; b11] in E3. cbn [length Nat.sub] in E3. rewrite Nat.sub_0_r in E3.
    rewrite <- E3. symmetry. change (b8 :: b9 :: b10 :: b11 :: wire) with ([b8; b9; b10; b11] ++ wire).
    f_equal. by apply le_bytes_le_val.
  - intros ->. apply bind_Ok. exists tt. rewrite wire_message_length. split.
    { rewrite bool_decide_eq_false_2 by lia. done. }
    apply bind_Ok. exists tt. split; [by rewrite bool_decide_eq_true_2|].
    replace (13 + length body - 13)%nat with (length body) by lia.
    change (slice 9 13 _) with (take 4 (le_bytes 4 (Z.of_nat (length body)) ++ body)).
    change (drop 13 _) with (drop 4 (le_bytes 4 (Z.of_nat (length body)) ++ body)).
    rewrite take_app_length', drop_app_length' by done.
    rewrite le_val_le_bytes_small; [|change (256 ^ Z.of_nat 4) with (u32_max + 1); lia].
    by rewrite Z.eqb_refl.
Qed.

Lemma run_reader_Ok {A} (r : reader A) data a rest : run_reader r data = Ok (a, rest) ↔ r data = Ok (a, rest).
Proof. unfold run_reader. destruct (r data) as [x|]; [|done]. naive_solver. Qed.

Lemma finish_Ok rest u : finish rest = Ok u ↔ rest = [].
Proof. unfold finish. rewrite ensure_Ok. apply bool_decide_eq_true. Qed.

(** A body read exactly, to its end. *)
Lemma run_reads {A} (r : reader A) P enc data a : reads r P enc →
  run_reader r data = Ok (a, []) ↔ P a ∧ data = enc a.
Proof. intros Hr. by rewrite run_reader_Ok, (Hr data a []), app_nil_r. Qed.

(** ** The fields *)

Definition script_wf (s : bytes) : Prop := Z.of_nat (length s) ≤ u16_max.

Lemma reads_script : reads read_script script_wf encode_script.
Proof.
  intros bs s rest. unfold read_script, encode_script, script_wf. rewrite reader_bind_Ok. split.
  - intros (n & mid & [Hn ->]%reads_u16 & [HL ->]%reads_bytes). unfold is_u16 in Hn.
    replace (Z.of_nat (length s)) with n by lia. split; [lia|]. by rewrite <- app_assoc.
  - intros [HL ->]. exists (Z.of_nat (length s)), (s ++ rest). split.
    + apply reads_u16. rewrite <- app_assoc. split; [unfold is_u16; lia|done].
    + apply reads_bytes. split; [lia|done].
Qed.

Section wire.
Context `{Poseidon, Sha256, BitcoinLaws, Ecdsa}.

Definition key_wf (k : bytes) : Prop := length k = 33%nat ∧ pubkey_valid k = true.

Lemma reads_outpoint36 : reads read_outpoint36 outpoint_wf outpoint_serialize.
Proof.
  intros bs o rest. unfold read_outpoint36. rewrite reader_bind_Ok. split.
  - intros (b & mid & [HL ->]%reads_bytes & E). destruct (outpoint_deserialize b) as [o'|] eqn:Eo; [|done].
    apply reader_ret_Ok in E as [-> ->]. by apply outpoint_exact in Eo as [? ->].
  - intros [Hw ->]. exists (outpoint_serialize o), rest. split.
    + apply reads_bytes. split; [by apply outpoint_length|done].
    + rewrite (proj2 (outpoint_exact _ o)) by done. by apply reader_ret_Ok.
Qed.

Lemma reads_public_key : reads read_public_key key_wf (λ k, k).
Proof.
  intros bs k rest. unfold read_public_key, key_wf. rewrite reader_bind_Ok. split.
  - intros (b & mid & [HL ->]%reads_bytes & E). destruct (pubkey_valid b) eqn:Eb; [|done].
    by apply reader_ret_Ok in E as [-> ->].
  - intros [[HL Hk] ->]. exists k, rest. split; [by apply reads_bytes|]. rewrite Hk. by apply reader_ret_Ok.
Qed.

(** ** Proposals *)

Definition proposal_wf (p : Proposal) : Prop :=
  is_u16 (pr_version p) ∧ length (chain_id p) = 32%nat ∧ outpoint_wf (stock_outpoint p) ∧
  is_u64 (stock_value p) ∧ key_wf (stock_owner_pubkey p) ∧ is_u8 (participant_count p) ∧
  length (proposal_nonce p) = 32%nat ∧ is_u32 (observed_tip_height p) ∧ is_u32 (expiry_height p) ∧
  is_u32 (target_feerate_sat_vb p) ∧ is_u32 (max_feerate_sat_vb p).

Lemma reads_proposal : reads (v ← read_u16; read_proposal v) proposal_wf proposal_body.
Proof.
  eapply reads_enc.
  - unfold read_proposal.
    read_field proposal_wf pr_version reads_u16.
    read_field proposal_wf chain_id (reads_bytes 32).
    read_field proposal_wf stock_outpoint reads_outpoint36.
    read_field proposal_wf stock_value reads_u64.
    read_field proposal_wf stock_owner_pubkey reads_public_key.
    read_field proposal_wf participant_count reads_u8.
    read_field proposal_wf proposal_nonce (reads_bytes 32).
    read_field proposal_wf observed_tip_height reads_u32.
    read_field proposal_wf expiry_height reads_u32.
    read_field proposal_wf target_feerate_sat_vb reads_u32.
    read_field proposal_wf max_feerate_sat_vb reads_u32.
    read_done proposal_wf.
  - intros p. unfold proposal_body. by rewrite !app_nil_r.
Qed.

Lemma proposal_body_length p : proposal_wf p → length (proposal_body p) = 160%nat.
Proof.
  intros (? & ? & ? & ? & [? _] & ? & ? & ? & ? & ? & ?). unfold proposal_body.
  rewrite !length_app, !length_le_bytes, outpoint_length by done. lia.
Qed.

Lemma known_version_validate p : proposal_validate p = Ok tt → known_version (pr_version p) = true.
Proof. unfold proposal_validate. intros E. apply bind_Ok in E as ([] & E & _). by apply ensure_Ok in E. Qed.

(** Two readers in sequence, as two runs. *)
Lemma run_reader_bind {A B} (r : reader A) (f : A → reader B) data b rest :
  run_reader (r ≫= f) data = Ok (b, rest) ↔
  ∃ a mid, run_reader r data = Ok (a, mid) ∧ run_reader (f a) mid = Ok (b, rest).
Proof. rewrite run_reader_Ok, reader_bind_Ok. by setoid_rewrite run_reader_Ok. Qed.

(** A proposal message is read exactly when it is the canonical message of a
    valid proposal, and yields that proposal. *)
Theorem proposal_wire_exact wire p :
  proposal_from_wire wire = Ok p ↔ proposal_wf p ∧ proposal_validate p = Ok tt ∧ wire = proposal_wire p.
Proof.
  unfold proposal_from_wire. split.
  - intros E. apply bind_Ok in E as (body & _ & E). apply bind_Ok in E as ([v rest] & E1 & E).
    apply bind_Ok in E as ([] & _ & E). apply bind_Ok in E as ([p' rest'] & E2 & E).
    apply bind_Ok in E as (u & ->%finish_Ok & E). apply bind_Ok in E as (p'' & E3 & E).
    apply bind_Ok in E as ([] & E4 & [= ->]). unfold new_for_version in E3.
    apply bind_Ok in E3 as ([] & E3 & [= ->]).
    assert (run_reader (v ← read_u16; read_proposal v) body = Ok (p, [])) as Er
      by (apply run_reader_bind; eauto).
    apply (run_reads _ _ _ _ _ reads_proposal) in Er as [Hw _].
    split_and!; [done..|]. unfold require_canonical_wire in E4. apply ensure_Ok in E4.
    by apply bool_decide_eq_true in E4.
  - intros (Hw & Hv & ->). apply bind_Ok. exists (proposal_body p). split.
    { apply wire_body_exact; [|done]. by rewrite proposal_body_length. }
    pose proof (proj2 (run_reads _ _ _ _ p reads_proposal) (conj Hw eq_refl)) as Er.
    apply run_reader_bind in Er as (v & mid & E1 & E2). rewrite E1. cbn [mbind result_bind].
    assert (v = pr_version p) as ->.
    { apply run_reader_Ok in E1, E2. unfold read_proposal in E2.
      repeat (apply reader_bind_Ok in E2 as (? & ? & _ & E2)). by apply reader_ret_Ok in E2 as [<- _]. }
    rewrite (known_version_validate p Hv). cbn [ensure mbind result_bind]. rewrite E2. cbn [mbind result_bind].
    rewrite (proj2 (finish_Ok _ tt)) by done. cbn [mbind result_bind]. unfold new_for_version. rewrite Hv.
    cbn [mbind result_bind]. unfold require_canonical_wire. by rewrite bool_decide_eq_true_2.
Qed.

(** ** Commitments *)

Definition commitment_wf (c : ParticipantCommitment) : Prop :=
  length (pc_batch_id c) = 32%nat ∧ length (operation_id c) = 32%nat ∧ length (commit_nonce c) = 32%nat ∧
  length (pc_payload c) = 24%nat ∧ outpoint_wf (fee_outpoint c) ∧ is_u64 (tx_value (fee_prevout c)) ∧
  key_wf (fee_pubkey c) ∧ script_wf (script_pubkey (fee_prevout c)) ∧ script_wf (change_spk c) ∧
  is_u64 (max_charge c).

Lemma reads_commitment : reads read_commitment commitment_wf commitment_body.
Proof.
  eapply reads_enc.
  - unfold read_commitment.
    read_field commitment_wf pc_batch_id (reads_bytes 32).
    read_field commitment_wf operation_id (reads_bytes 32).
    read_field commitment_wf commit_nonce (reads_bytes 32).
    read_field commitment_wf pc_payload (reads_bytes 24).
    read_field commitment_wf fee_outpoint reads_outpoint36.
    read_field commitment_wf (λ c, tx_value (fee_prevout c)) reads_u64.
    read_field commitment_wf fee_pubkey reads_public_key.
    read_field commitment_wf (λ c, script_pubkey (fee_prevout c)) reads_script.
    read_field commitment_wf change_spk reads_script.
    read_field commitment_wf max_charge reads_u64.
    apply reads_mret. intros [? ? ? ? ? [] ? ? ?]. unfold commitment_wf. cbn.
    split; [intros; destruct_and?; by subst|intros [=]; subst; tauto].
  - intros c. unfold commitment_body. by rewrite app_nil_r.
Qed.

Lemma commitment_body_length c : commitment_wf c → Z.of_nat (length (commitment_body c)) ≤ u32_max.
Proof.
  intros (? & ? & ? & ? & ? & ? & [? _] & ? & ? & ?). unfold commitment_body, encode_script, script_wf in *.
  rewrite !length_app, !length_le_bytes, outpoint_length by done. unfold u16_max, u32_max in *. lia.
Qed.

(** A commitment message is read, against a proposal, exactly when it is the
    canonical message of a commitment valid for that proposal. *)
Theorem commitment_wire_exact p wire c :
  commitment_from_wire p wire = Ok c ↔
  commitment_wf c ∧ commitment_validate p c = Ok tt ∧ wire = commitment_wire c.
Proof.
  unfold commitment_from_wire. split.
  - intros E. apply bind_Ok in E as (body & _ & E). apply bind_Ok in E as ([c' rest] & E1 & E).
    apply bind_Ok in E as (u & ->%finish_Ok & E). apply bind_Ok in E as ([] & E3 & E).
    apply bind_Ok in E as ([] & E4 & [= ->]). apply (run_reads _ _ _ _ _ reads_commitment) in E1 as [Hw _].
    split_and!; [done..|]. unfold require_canonical_wire in E4. apply ensure_Ok in E4.
    by apply bool_decide_eq_true in E4.
  - intros (Hw & Hv & ->). apply bind_Ok. exists (commitment_body c). split.
    { apply wire_body_exact; [|done]. by apply commitment_body_length. }
    rewrite (proj2 (run_reads _ _ _ _ c reads_commitment) (conj Hw eq_refl)). cbn [mbind result_bind].
    rewrite (proj2 (finish_Ok _ tt)), Hv by done. cbn [mbind result_bind].
    unfold require_canonical_wire. by rewrite bool_decide_eq_true_2.
Qed.

End wire.

(** ** Manifests *)
Section manifest.
Context `{PoseidonLaws, Sha256Laws, BitcoinLaws, Ecdsa}.

Lemma marker_length v spk : marker_spk_for_version v = Ok spk → length spk = 34%nat.
Proof. unfold marker_spk_for_version. repeat case_if; intros [= <-]; reflexivity. Qed.

Lemma commitment_id_length c : length (commitment_id c) = 32%nat.
Proof. unfold commitment_id, domain_hash. apply length_sha256. Qed.

Lemma batch_record_wf ps ctx r : batch_header_v2 ps ctx = Some r →
  record_wf r ∧ is_batch_header r = true.
Proof.
  unfold batch_header_v2, MAX_BATCH_V2_PARTICIPANTS. case_if; [|done]. intros [= <-]. bool_props.
  split; [|done]. cbn. split; [unfold is_u8, u8_max; lia|].
  unfold to_anchor, TRUNCATED_DIGEST_BYTES, batch_commit_v2, hash_felts.
  rewrite length_take, length_from_elems, hash_iter_length. cbn. lia.
Qed.

Lemma batch_record_length ps ctx r : batch_header_v2 ps ctx = Some r → length (record_to_bytes r) = 64%nat.
Proof. intros [? _]%batch_record_wf. by apply length_record_to_bytes. Qed.

(** The scripts a validated commitment carries are short. *)
Lemma validated_change p c : commitment_validate p c = Ok tt → length (change_spk c) = 22%nat.
Proof.
  unfold commitment_validate. intros E. apply bind_Ok in E as ([] & _ & E).
  apply bind_Ok in E as ([] & _ & E). apply bind_Ok in E as ([] & _ & E).
  apply ensure_Ok in E. unfold is_canonical_p2wpkh in E. by bool_props.
Qed.

Lemma unsigned_witnesses ins : Forall (λ i, bi_witness i = []) ins →
  forallb (λ i, bool_decide (bi_witness i = [])) ins = true.
Proof. intros HF. apply forallb_forall. intros i Hi. rewrite Forall_forall in HF. apply bool_decide_eq_true, HF. by apply list_elem_of_In. Qed.

Lemma unsigned_input_wf o : outpoint_wf o →
  txin_wf {| prev := o; script_sig := []; sequence := INPUT_SEQUENCE |}.
Proof. intros [? ?]. by split_and!. Qed.

Lemma txout_short v s : is_u64 v → (length s ≤ 66)%nat → txout_wf {| tx_value := v; script_pubkey := s |}.
Proof. intros. split; [done|]. unfold is_varbytes, u64_max. cbn. lia. Qed.

(** Every output the builder makes is within range. *)
Lemma manifest_outputs_wf p cs feerate spk record chs vals :
  buildable p cs feerate spk record chs vals → 0 ≤ feerate → proposal_wf p → Forall commitment_wf cs →
  Forall txout_wf (btx_output (manifest_tx p spk record (sort_commitments cs) vals)).
Proof.
  intros B Hf Hp Hw. cbn [manifest_tx btx_output]. destruct B as [Es Ep _ Hn _ Hc _ _ Ha Er].
  assert (length record = 64%nat) as HL.
  { apply fmap_Some in Er as (r & Er & ->). by eapply batch_record_length. }
  repeat (apply List.Forall_cons); [apply txout_short..|].
  - by vm_compute.
  - rewrite op_return_bytes by done. cbn. lia.
  - by vm_compute.
  - rewrite (marker_length _ _ Es). lia.
  - apply Hp.
  - unfold stock_script_pubkey. rewrite p2wsh_length. lia.
  - rewrite <- (sort_perm cs) in Hc, Hw. apply Forall_lookup. intros k o Ho.
    apply lookup_zip_with_Some in Ho as (c & v & -> & Hk & Hv).
    destruct (allocate_entries _ _ _ _ _ _ Ha) as (_ & _ & He).
    destruct (He k c Hk) as (ch & v' & _ & Hv' & Ech & _ & -> & Hmin). simplify_eq.
    pose proof (validated_change _ _ (Forall_lookup_1 _ _ _ _ Hc Hk)) as Hs.
    pose proof (Forall_lookup_1 _ _ _ _ Hw Hk) as Hcw. apply txout_short; [|lia].
    destruct Hcw as (_ & _ & _ & _ & _ & Hval & _). unfold is_u64, MIN_OUTPUT_SATS in *.
    set (n := Z.of_nat (length cs)) in *. pose proof (fee_of_nonneg n feerate ltac:(lia) Hf).
    assert (0 ≤ total_of n feerate / n)
      by (apply Z.div_pos; [unfold total_of, MARKER_DUST_SATS; lia|lia]).
    unfold share_of in *. case_if; lia.
Qed.

(** The transaction the builder makes is an unsigned transaction within range. *)
Lemma manifest_tx_wf p cs feerate spk record chs vals :
  buildable p cs feerate spk record chs vals → 0 ≤ feerate → proposal_wf p → Forall commitment_wf cs →
  unsigned_wf (manifest_tx p spk record (sort_commitments cs) vals).
Proof.
  intros B Hf Hp Hw. pose proof (manifest_outputs_wf _ _ _ _ _ _ _ B Hf Hp Hw) as Ho.
  pose proof (bd_range _ _ _ _ _ _ _ B) as Hn. pose proof (length_sort cs) as HL.
  destruct (allocate_lengths _ _ _ _ _ _ (bd_allocate _ _ _ _ _ _ _ B)) as [_ Lv].
  assert (Forall (λ i, bi_witness i = []) (btx_input (manifest_tx p spk record (sort_commitments cs) vals))) as Hwit.
  { cbn. constructor; [done|]. by apply Forall_fmap, Forall_true. }
  split; [|split; [cbn; rewrite length_fmap; lia|done]].
  unfold tx_wf, chain_tx. cbn [tx_version inputs outputs lock_time witnesses].
  rewrite (unsigned_witnesses _ Hwit). split; [by vm_compute|]. split; [|split; [split; [|exact Ho]|]].
  - cbn. constructor; [apply unsigned_input_wf, Hp|].
    rewrite <- list_fmap_compose. apply Forall_fmap. rewrite <- (sort_perm cs) in Hw.
    eapply Forall_impl; [exact Hw|]. intros c Hc. apply unsigned_input_wf, Hc.
  - cbn. rewrite length_zip_with. lia.
  - split; [by vm_compute|]. split; [|done]. cbn. rewrite !length_fmap. lia.
Qed.

Lemma manifest_eta m : {| mf_batch_id := mf_batch_id m; replacement_epoch := replacement_epoch m;
  feerate_sat_vb := feerate_sat_vb m; max_weight := max_weight m; miner_fee := miner_fee m;
  total_charge := total_charge m; charges := charges m; commitments := commitments m;
  unsigned_tx := unsigned_tx m |} = m.
Proof. by destruct m. Qed.

(** Reading the two parts of a manifest body back. *)
Lemma manifest_head_step id e c rest : length id = 32%nat → is_u32 e → is_u8 c →
  read_manifest_head (id ++ le_bytes 4 e ++ le_bytes 1 c ++ rest) = Ok ((id, e, c), rest).
Proof.
  intros. unfold read_manifest_head. eapply (reads_step _ _ _ _ _ _ _ (reads_bytes 32)); [done|].
  eapply (reads_step _ _ _ _ _ _ _ reads_u32); [done|]. by eapply (reads_step _ _ _ _ _ _ _ reads_u8).
Qed.

Lemma manifest_head_typed data id e c rest : read_manifest_head data = Ok ((id, e, c), rest) →
  length id = 32%nat ∧ is_u32 e ∧ is_u8 c.
Proof.
  unfold read_manifest_head. intros E. apply reader_bind_Ok in E as (? & ? & [? ->]%reads_bytes & E).
  apply reader_bind_Ok in E as (? & ? & [? ->]%reads_u32 & E).
  apply reader_bind_Ok in E as (? & ? & [? ->]%reads_u8 & E). apply reader_ret_Ok in E as [[= -> -> ->] _].
  done.
Qed.

Lemma manifest_tail_step n ids w f fee tot chs tx rest : length ids = n →
  Forall (λ b, length b = 32%nat) ids → is_u32 w → is_u32 f → is_u64 fee → is_u64 tot →
  length chs = n → Forall is_u64 chs → Z.of_nat (length tx) ≤ u32_max →
  read_manifest_tail n (concat ids ++ le_bytes 4 w ++ le_bytes 4 f ++ le_bytes 8 fee ++ le_bytes 8 tot ++
    concat (le_bytes 8 <$> chs) ++ le_bytes 4 (Z.of_nat (length tx)) ++ tx ++ rest) =
  Ok ((ids, (w, f, fee, tot), chs, tx), rest).
Proof.
  intros Hn Hids Hw Hf Hfee Htot Hc Hchs Htx. unfold read_manifest_tail.
  rewrite <- (list_fmap_id ids) at 1.
  eapply (reads_step _ _ _ _ _ _ _ (reads_n n _ _ _ (reads_bytes 32))); [done|].
  do 2 (eapply (reads_step _ _ _ _ _ _ _ reads_u32); [done|]).
  do 2 (eapply (reads_step _ _ _ _ _ _ _ reads_u64); [done|]).
  eapply (reads_step _ _ _ _ _ _ _ (reads_n n _ _ _ reads_u64)); [done|].
  eapply (reads_step _ _ _ _ _ _ _ reads_u32); [unfold is_u32; lia|].
  eapply (reads_step _ _ _ _ _ _ _ (reads_bytes _)); [lia|]. done.
Qed.

(** What the sender's own validation gives about the numbers of a manifest. *)
Lemma valid_manifest m p : is_u32 (feerate_sat_vb m) → proposal_wf p → Forall commitment_wf (commitments m) →
  manifest_validate m p = Ok tt →
  Z.of_nat (length (commitments m)) = participant_count p ∧ mf_batch_id m = batch_id p ∧
  sort_commitments (commitments m) = commitments m ∧ reject_duplicates (commitments m) = Ok tt ∧
  is_u32 (max_weight m) ∧ is_u64 (miner_fee m) ∧ is_u64 (total_charge m) ∧
  length (charges m) = length (commitments m) ∧ Forall is_u64 (charges m) ∧ unsigned_wf (unsigned_tx m).
Proof.
  intros [Hf _] Hp Hw Hv%manifest_validate_Ok. pose proof (built_sorted _ _ _ _ _ Hf Hv) as Es.
  pose proof Hv as Hm. apply build_at_Ok in Hm as (spk & record & chs & vals & B & Em); [|done].
  pose proof (bd_range _ _ _ _ _ _ _ B) as Hn. pose proof (bd_count _ _ _ _ _ _ _ B) as Hc.
  pose proof (bd_total _ _ _ _ _ _ _ B) as Ht. pose proof (bd_duplicates _ _ _ _ _ _ _ B) as Hd.
  destruct (allocate_entries _ _ _ _ _ _ (bd_allocate _ _ _ _ _ _ _ B)) as (Lc & Lv & _).
  set (n := Z.of_nat (length (commitments m))) in *.
  pose proof (fee_of_nonneg n (feerate_sat_vb m) ltac:(lia) Hf) as Hfee.
  rewrite <- Es in Hd. split_and!; [lia|by rewrite Em|done|done| | | | | |].
  - rewrite Em. cbn. fold n. unfold is_u32, u32_max. lia.
  - rewrite Em. cbn. fold n. unfold is_u64, total_of, MARKER_DUST_SATS in *. lia.
  - rewrite Em. cbn. fold n. unfold is_u64, total_of, MARKER_DUST_SATS in *. lia.
  - rewrite Em at 1. cbn [built charges]. by rewrite Lc, length_sort.
  - apply Forall_lookup. intros k ch Hch. destruct (lookup_lt_is_Some_2 (commitments m) k) as [c Hk].
    { apply lookup_lt_Some in Hch. rewrite Em in Hch. cbn [built charges] in Hch.
      by rewrite Lc, length_sort in Hch. }
    destruct (built_participant _ _ (replacement_epoch m) _ _ _ _ _ k c B) as (Hch' & Hmax & _);
      [by rewrite <- Em|]. rewrite <- Em, Hch in Hch'. simplify_eq.
    pose proof (Forall_lookup_1 _ _ _ _ Hw Hk) as (_ & _ & _ & _ & _ & _ & _ & _ & _ & Hmx).
    fold n in Hmax |- *. unfold is_u64 in *. split; [|lia]. unfold charge_of, share_of.
    assert (0 ≤ total_of n (feerate_sat_vb m) / n)
      by (apply Z.div_pos; [unfold total_of, MARKER_DUST_SATS; lia|lia]). case_if; lia.
  - rewrite Em. cbn [built unsigned_tx]. by eapply manifest_tx_wf.
Qed.

Lemma build_at_rate p cs epoch feerate m : build_at p cs epoch feerate = Ok m →
  target_feerate_sat_vb p ≤ feerate ≤ max_feerate_sat_vb p.
Proof.
  unfold build_at, build_at_with_marker. intros E. apply bind_Ok in E as (? & _ & E).
  apply bind_Ok in E as (? & _ & E). apply bind_Ok in E as (? & _ & E).
  apply bind_Ok in E as (? & E1 & _). apply ensure_Ok in E1. rewrite Z.gtb_ltb in E1. bool_props. lia.
Qed.

Lemma valid_feerate m p : proposal_wf p → manifest_validate m p = Ok tt → is_u32 (feerate_sat_vb m).
Proof.
  intros Hp Hv%manifest_validate_Ok%build_at_rate.
  destruct Hp as (_ & _ & _ & _ & _ & _ & _ & _ & _ & ? & ?). unfold is_u32 in *. lia.
Qed.

Lemma canonical_wire_Ok a b u : require_canonical_wire a b = Ok u ↔ a = b.
Proof. unfold require_canonical_wire. rewrite ensure_Ok. apply bool_decide_eq_true. Qed.

(** A valid manifest's message reads back to it. *)
Lemma manifest_reads_back m p cs : proposal_wf p → Forall commitment_wf cs →
  Z.of_nat (length (manifest_body m)) ≤ u32_max →
  manifest_validate m p = Ok tt → commitments m = sort_commitments cs → is_u32 (replacement_epoch m) →
  manifest_from_wire p cs (manifest_wire m) = Ok m.
Proof.
  intros Hp Hw HL Hv Es He. unfold manifest_from_wire.
  assert (Forall commitment_wf (commitments m)) as Hw' by (rewrite Es; by rewrite sort_perm).
  pose proof (valid_feerate m p Hp Hv) as Hf.
  destruct (valid_manifest m p Hf Hp Hw' Hv) as (Hn & Eid & Hs & Hd & Hmw & Hfee & Htot & Lc & Hchs & Htx).
  rewrite (proj2 (wire_body_exact _ _ (manifest_body m) HL)) by done. cbn [mbind result_bind].
  assert (length (btx_serialize (unsigned_tx m)) ≤ length (manifest_body m))%nat as Hl
    by (unfold manifest_body; rewrite !length_app; lia).
  assert (is_u8 (Z.of_nat (length (commitments m)))) as H8 by (rewrite Hn; apply Hp).
  assert (length (mf_batch_id m) = 32%nat) as Hid by (rewrite Eid; apply length_sha256).
  unfold manifest_body. erewrite (proj2 (run_reader_Ok read_manifest_head _ _ _)) by
    (by apply manifest_head_step). cbn [mbind result_bind].
  assert (length cs = length (commitments m)) as Hcs by (by rewrite Es, length_sort).
  rewrite Hcs, Hn, Z.eqb_refl. cbn [andb ensure mbind result_bind].
  rewrite <- (app_nil_r (btx_serialize (unsigned_tx m))) at 2.
  erewrite (proj2 (run_reader_Ok (read_manifest_tail _) _ _ _)) by
    (apply manifest_tail_step; [rewrite length_fmap; lia| |done..|lia|done|lia];
     apply Forall_fmap, Forall_true; intros c; apply commitment_id_length).
  cbn [mbind result_bind]. rewrite btx_roundtrip by done. cbn [ok_or mbind result_bind]. rewrite <- Es.
  rewrite !bool_decide_eq_true_2 by done. cbn [ensure mbind result_bind].
  rewrite (proj2 (finish_Ok _ tt)) by done. cbn [mbind result_bind]. rewrite Hd.
  cbn [ensure mbind result_bind].
  rewrite (manifest_eta m), Hv. cbn [mbind result_bind].
  by rewrite (proj2 (canonical_wire_Ok _ _ tt)).
Qed.

(** C25: A manifest message is read against the commitments a peer holds exactly when
    it is the canonical message of a manifest over precisely those commitments
    that passes the full reconstruction: nothing of a manifest - not its order,
    its charges, its fee or any byte of its transaction - is taken on trust. *)
Theorem manifest_wire_exact p cs wire m : proposal_wf p → Forall commitment_wf cs →
  Z.of_nat (length (manifest_body m)) ≤ u32_max →
  manifest_from_wire p cs wire = Ok m ↔
  wire = manifest_wire m ∧ manifest_validate m p = Ok tt ∧ commitments m = sort_commitments cs ∧
  is_u32 (replacement_epoch m).
Proof.
  intros Hp Hw HL. split; [|intros (-> & ? & ? & ?); by apply manifest_reads_back].
  unfold manifest_from_wire. intros E. apply bind_Ok in E as (body & _ & E).
  apply bind_Ok in E as ([[[id epoch] count] rest] & Eh & E). apply bind_Ok in E as ([] & _ & E).
  apply bind_Ok in E as ([[[[ids nums] chs] txb] rest'] & _ & E). destruct nums as [[[w f] fee] tot].
  apply bind_Ok in E as (tx & _ & E). apply bind_Ok in E as ([] & _ & E). apply bind_Ok in E as ([] & _ & E).
  apply bind_Ok in E as ([] & _ & E). apply bind_Ok in E as ([] & _ & E). apply bind_Ok in E as ([] & Ev & E).
  apply bind_Ok in E as ([] & Ew%canonical_wire_Ok & [= <-]).
  apply run_reader_Ok, manifest_head_typed in Eh as (_ & He & _). done.
Qed.

(** ** Reconstruction from a pool of commitments *)

Lemma select_pool_ids pool cs : ∀ seen rest,
  (∀ c, c ∈ cs → c ∈ pool) →
  (∀ c d, c ∈ pool → d ∈ pool → commitment_id c = commitment_id d → c = d) →
  NoDup (commitment_id <$> cs) → (∀ c, c ∈ cs → commitment_id c ∉ seen) →
  select_pool (length cs) pool seen (concat (commitment_id <$> cs) ++ rest) = Ok cs.
Proof.
  induction cs as [|c cs IH]; intros seen rest Hin Hinj Hnd Hseen; [done|].
  cbn [length select_pool fmap list_fmap concat]. rewrite <- app_assoc.
  rewrite (proj2 (run_reader_Ok (read_bytes 32) _ (commitment_id c) (concat (commitment_id <$> cs) ++ rest))).
  2:{ apply reads_bytes. split; [apply commitment_id_length|done]. }
  apply NoDup_cons in Hnd as [Hc Hnd]. cbn [mbind result_bind].
  rewrite bool_decide_eq_false_2 by (apply Hseen; left). cbn [negb ensure mbind result_bind].
  destruct (find_first _ pool) as [d|] eqn:Ed.
  - apply find_first_Some in Ed as [Hd Eid]. apply bool_decide_eq_true in Eid.
    apply Hinj in Eid as ->; [|done|apply Hin; left]. cbn [ok_or mbind result_bind].
    rewrite IH; [done| |done..|].
    + intros d Hd'. apply Hin. by right.
    + intros d Hd'. apply not_elem_of_cons. split; [|apply Hseen; by right].
      intros E. apply Hc. rewrite <- E. by apply list_elem_of_fmap_2.
  - exfalso. apply find_first_None in Ed. rewrite Forall_forall in Ed.
    specialize (Ed c (Hin c ltac:(left))). by apply bool_decide_eq_false in Ed.
Qed.

(** A peer that holds the commitments of a valid manifest - in any order, among
    any others - reconstructs exactly that manifest from its message, provided no
    two different commitments it holds have the same identifier. *)
Theorem pool_reconstructs m p pool : proposal_wf p → Forall commitment_wf (commitments m) →
  Z.of_nat (length (manifest_body m)) ≤ u32_max → is_u32 (replacement_epoch m) →
  manifest_validate m p = Ok tt → (∀ c, c ∈ commitments m → c ∈ pool) →
  (∀ c d, c ∈ pool → d ∈ pool → commitment_id c = commitment_id d → c = d) →
  from_wire_pool p pool (manifest_wire m) = Ok m.
Proof.
  intros Hp Hw HL He Hv Hin Hinj. unfold from_wire_pool.
  pose proof (valid_feerate m p Hp Hv) as Hf.
  destruct (valid_manifest m p Hf Hp Hw Hv) as (Hn & Eid & Hs & Hd & _).
  rewrite (proj2 (wire_body_exact _ _ (manifest_body m) HL)) by done. cbn [mbind result_bind].
  assert (is_u8 (Z.of_nat (length (commitments m)))) as H8 by (rewrite Hn; apply Hp).
  assert (length (mf_batch_id m) = 32%nat) as Hid by (rewrite Eid; apply length_sha256).
  unfold manifest_body. erewrite (proj2 (run_reader_Ok read_manifest_head _ _ _)) by
    (by apply manifest_head_step). cbn [mbind result_bind].
  rewrite bool_decide_eq_true_2, Hn, Z.eqb_refl by done. cbn [andb ensure mbind result_bind].
  rewrite <- Hn, Nat2Z.id, select_pool_ids; [|done..| |].
  - cbn [mbind result_bind]. apply manifest_reads_back; try done.
  - unfold reject_duplicates in Hd. apply ensure_Ok in Hd. bool_props. by apply distinct_NoDup.
  - intros c _. apply not_elem_of_nil.
Qed.
End manifest.

(** ** Signature shares *)
Section share.
Context `{BitcoinLaws, EcdsaLaws}.

Definition share_wf (s : SignatureShare) : Prop :=
  length (sh_manifest_id s) = 32%nat ∧ is_u16 (input_index s) ∧ key_wf (signer_pubkey s).

Lemma share_head_step s n rest : share_wf s → is_u16 n →
  read_share_head (sh_manifest_id s ++ le_bytes 2 (input_index s) ++ signer_pubkey s ++ le_bytes 2 n ++ rest) =
  Ok ((sh_manifest_id s, input_index s, signer_pubkey s, n), rest).
Proof.
  intros (? & ? & ?) ?. unfold read_share_head.
  eapply (reads_step _ _ _ _ _ _ _ (reads_bytes 32)); [done|].
  eapply (reads_step _ _ _ _ _ _ _ reads_u16); [done|].
  eapply (reads_step _ _ _ _ _ _ _ reads_public_key); [done|].
  by eapply (reads_step _ _ _ _ _ _ _ reads_u16).
Qed.

Lemma share_head_typed data id i key n rest : read_share_head data = Ok ((id, i, key, n), rest) →
  length id = 32%nat ∧ is_u16 i ∧ key_wf key.
Proof.
  unfold read_share_head. intros E. apply reader_bind_Ok in E as (? & ? & [? ->]%reads_bytes & E).
  apply reader_bind_Ok in E as (? & ? & [? ->]%reads_u16 & E).
  apply reader_bind_Ok in E as (? & ? & [? ->]%reads_public_key & E).
  apply reader_bind_Ok in E as (? & ? & _ & E). by apply reader_ret_Ok in E as [[= -> -> -> ->] _].
Qed.

(** A signature share is read exactly when its message is the canonical one of a
    low-s, sign-everything signature. *)
Theorem share_wire_exact wire s :
  share_from_wire wire = Ok s ↔ share_wf s ∧ require_all (sh_signature s) = Ok tt ∧ wire = share_wire s.
Proof.
  unfold share_from_wire. split.
  - intros E. apply bind_Ok in E as (body & _ & E).
    apply bind_Ok in E as ([[[[id i] key] n] rest] & Eh%run_reader_Ok%share_head_typed & E).
    apply bind_Ok in E as ([] & _ & E). apply bind_Ok in E as ([sb rest'] & _ & E).
    apply bind_Ok in E as (sg & _ & E). apply bind_Ok in E as ([] & _ & E).
    apply bind_Ok in E as (s' & Es & E). apply bind_Ok in E as ([] & Ew & [= ->]).
    unfold new_share in Es. apply bind_Ok in Es as ([] & Es & [= <-]).
    apply ensure_Ok, bool_decide_eq_true in Ew. done.
  - intros (Hw & Hall & ->). pose proof (sig_length (sh_signature s)) as HL.
    unfold share_wire. set (sb := sig_serialize (sh_signature s)) in *. cbv zeta.
    set (body := sh_manifest_id s ++ _). pose proof Hw as (Hid & Hi & [Hk _]).
    assert (length body = 69 + length sb)%nat as Hb
      by (unfold body; rewrite !length_app, !length_le_bytes; lia).
    rewrite (proj2 (wire_body_exact _ _ body ltac:(unfold u32_max; lia))) by done. cbn [mbind result_bind].
    unfold body at 1. erewrite (proj2 (run_reader_Ok read_share_head _ _ _))
      by (apply share_head_step; [done|unfold is_u16, u16_max; lia]). cbn [mbind result_bind].
    rewrite Z.gtb_ltb, (proj2 (Z.ltb_ge _ _)) by lia. cbn [negb ensure mbind result_bind].
    rewrite (proj2 (run_reader_Ok (read_bytes _) sb sb []))
      by (apply reads_bytes; rewrite app_nil_r; split; [lia|done]).
    cbn [mbind result_bind]. rewrite (sig_roundtrip (sh_signature s) : sig_from_slice sb = _). cbn [ok_or mbind result_bind].
    rewrite (proj2 (finish_Ok _ tt)) by done. cbn [mbind result_bind]. unfold new_share.
    cbn [sh_signature]. rewrite Hall. cbn [mbind result_bind]. unfold require_canonical_wire.
    rewrite bool_decide_eq_true_2; [by destruct s|]. unfold body, sb. by destruct s.
Qed.
End share.

(** ** Witnesses *)
Section demo.
#[local] Existing Instances demo_sponge demo_sponge_laws small_sha256d small_sha256 small_sha256_laws.
#[local] Existing Instances demo_bitcoin demo_bitcoin_laws demo_ecdsa.

Lemma demo_proposal_wf : proposal_wf demo_proposal.
Proof. unfold proposal_wf, key_wf. split_and!; vm_compute; done. Qed.

Lemma demo_commitment_wf i n v : is_u32 n → is_u64 v → commitment_wf (demo_commitment i n v).
Proof. intros Hn Hv. unfold commitment_wf, key_wf. split_and!; try exact Hv; try (split; [|exact Hn]); by vm_compute. Qed.

Lemma demo_commitments_wf : Forall commitment_wf demo_commitments.
Proof. repeat constructor; apply demo_commitment_wf; by vm_compute. Qed.

Lemma proposal_wire_exact_witness :
  proposal_from_wire (proposal_wire demo_proposal) = Ok demo_proposal.
Proof.
  refine (proj2 (proposal_wire_exact (proposal_wire demo_proposal) demo_proposal) _).
  split; [exact demo_proposal_wf|]. split; [vm_compute|]; reflexivity.
Defined.

Lemma commitment_wire_exact_witness :
  commitment_from_wire demo_proposal (commitment_wire (demo_commitment x09 2 5000)) = Ok (demo_commitment x09 2 5000).
Proof.
  refine (proj2 (commitment_wire_exact demo_proposal _ (demo_commitment x09 2 5000)) _).
  split; [apply demo_commitment_wf; vm_compute; done|]. split; [vm_compute|]; reflexivity.
Defined.

Lemma manifest_wire_exact_witness :
  manifest_from_wire demo_proposal demo_commitments (manifest_wire demo_manifest) = Ok demo_manifest.
Proof.
  refine (proj2 (manifest_wire_exact demo_proposal demo_commitments _ demo_manifest demo_proposal_wf
    demo_commitments_wf _) _).
  - vm_compute. discriminate.
  - split; [reflexivity|]. split; [exact demo_valid|]. split; [vm_compute; reflexivity|]. vm_compute. split; discriminate.
Defined.

Lemma pool_reconstructs_witness :
  from_wire_pool demo_proposal (demo_commitment x05 3 9000 :: demo_commitments) (manifest_wire demo_manifest) =
    Ok demo_manifest.
Proof.
  apply (pool_reconstructs demo_manifest demo_proposal (demo_commitment x05 3 9000 :: demo_commitments) demo_proposal_wf).
  - apply (bool_decide_unpack _). vm_compute. exact I.
  - vm_compute. discriminate.
  - vm_compute. split; discriminate.
  - exact demo_valid.
  - apply Forall_forall. apply (bool_decide_unpack _). vm_compute. exact I.
  - set (pool := demo_commitment x05 3 9000 :: demo_commitments).
    assert (Forall (λ c, Forall (λ d, commitment_id c = commitment_id d → c = d) pool) pool) as Hids
      by (apply (bool_decide_unpack _); vm_compute; exact I).
    intros c d Hc Hd. rewrite Forall_forall in Hids. specialize (Hids c Hc). rewrite Forall_forall in Hids.
    exact (Hids d Hd).
Defined.
End demo.
