(* ===== verification/BatchFinal.v ===== *)
(** * Signing and finalizing a batch

    Theorems about the signing half of [BatchV2.v]: collecting detached shares,
    the finalized transaction, and - composing it with the self-scan - that the
    chain shows every participant's transfer. *)

From S2P Require Import Prelude Field Commitments Kernel Anchor Batch Chain Accept Wire Block Bitcoin.
From S2P Require Import Network Peer FullScan Scan BatchV2 BatchDemo BatchRules BatchWire.

Section shares.
Context `{Poseidon, Sha256, BitcoinLib, Ecdsa}.

(** ** Collecting the shares *)

Lemma verified_index m p share : 0 ≤ input_index share → verify_signature_share m p share = Ok tt →
  (Z.to_nat (input_index share) < length (commitments m) + 1)%nat.
Proof.
  intros Hi. unfold verify_signature_share. intros E. apply bind_Ok in E as ([] & _ & E).
  apply bind_Ok in E as ([] & _ & E). destruct (input_index share =? 0) eqn:E0; bool_props; [lia|].
  apply bind_Ok in E as (c & Ec%ok_or_Ok & _). apply lookup_lt_Some in Ec. lia.
Qed.

(** What the slots hold after placing: what they held, and the placed shares. *)
Definition slots_hold (shares : list SignatureShare) (slots slots' : list (option Sig)) : Prop :=
  length slots' = length slots ∧ ∀ i s, slots' !! i = Some (Some s) ↔
    slots !! i = Some (Some s) ∨
    ∃ share, share ∈ shares ∧ Z.to_nat (input_index share) = i ∧ sh_signature share = s.

Lemma slots_hold_skip share shares slots slots' :
  slots !! Z.to_nat (input_index share) = Some (Some (sh_signature share)) →
  slots_hold (share :: shares) slots slots' ↔ slots_hold shares slots slots'.
Proof.
  intros Hs. unfold slots_hold. apply and_iff_compat_l. split; intros Hh i s; rewrite (Hh i s).
  - setoid_rewrite elem_of_cons. naive_solver.
  - setoid_rewrite elem_of_cons. naive_solver.
Qed.

Lemma slots_hold_place share shares slots slots' :
  (Z.to_nat (input_index share) < length slots)%nat →
  (∀ s, slots !! Z.to_nat (input_index share) ≠ Some (Some s)) →
  slots_hold (share :: shares) slots slots' ↔
  slots_hold shares (<[Z.to_nat (input_index share) := Some (sh_signature share)]> slots) slots'.
Proof.
  intros Hlt Hs. unfold slots_hold. rewrite length_insert. apply and_iff_compat_l.
  apply forall_proper; intros i. apply forall_proper; intros s. setoid_rewrite elem_of_cons. destruct (decide (i = Z.to_nat (input_index share))) as [->|Hne].
  - rewrite list_lookup_insert_eq by done. naive_solver.
  - rewrite list_lookup_insert_ne by done. naive_solver.
Qed.

Lemma slots_hold_nil slots slots' : slots_hold [] slots slots' ↔ slots' = slots.
Proof.
  unfold slots_hold. split; [|intros ->; set_solver]. intros [HL Hh]. apply list_eq_same_length with (length slots); [done..|].
  intros i x y Hi Hx Hy. pose proof (Hh i) as Hs. rewrite Hx, Hy in Hs. destruct x as [x|], y as [y|]; [..|done].
  - destruct (proj1 (Hs x) eq_refl) as [E|(? & ?%elem_of_nil & _)]; [by simplify_eq|done].
  - destruct (proj1 (Hs x) eq_refl) as [E|(? & ?%elem_of_nil & _)]; done.
  - by pose proof (proj2 (Hs y) (or_introl eq_refl)).
Qed.

Lemma place_shares_Ok m p shares : ∀ slots slots', Forall (λ s, 0 ≤ input_index s) shares →
  length slots = (length (commitments m) + 1)%nat →
  place_shares m p shares slots = Ok slots' ↔
  Forall (λ s, verify_signature_share m p s = Ok tt) shares ∧ slots_hold shares slots slots'.
Proof.
  induction shares as [|sh shares IH]; intros slots slots' Hi HL; cbn [place_shares].
  { rewrite slots_hold_nil. naive_solver. }
  apply Forall_cons in Hi as [Hi0 Hi]. rewrite Forall_cons.
  destruct (verify_signature_share m p sh) as [[]|] eqn:Ev; cbn [mbind result_bind]; [|naive_solver].
  pose proof (verified_index m p sh Hi0 Ev) as Hlt. rewrite <- HL in Hlt.
  destruct (slots !! Z.to_nat (input_index sh)) as [[e|]|] eqn:Es.
  - case_bool_decide as He; cbn [ensure mbind result_bind].
    + subst e. rewrite (slots_hold_skip sh shares slots slots' Es), (IH slots slots' Hi HL). naive_solver.
    + split; [done|]. intros [_ [_ Hh]]. exfalso. apply He.
      pose proof (proj2 (Hh _ e) (or_introl Es)) as E1.
      pose proof (proj2 (Hh (Z.to_nat (input_index sh)) (sh_signature sh))
        (or_intror (ex_intro _ sh (conj (list_elem_of_here _ _) (conj eq_refl eq_refl))))) as E2.
      congruence.
  - rewrite (slots_hold_place sh shares slots slots' Hlt), IH; [naive_solver|done| |naive_solver].
    by rewrite length_insert.
  - apply lookup_ge_None in Es. lia.
Qed.

Lemma fmap_Some_lookup {A} (l : list A) i x : (Some <$> l) !! i = Some (Some x) ↔ l !! i = Some x.
Proof. rewrite list_lookup_fmap. destruct (l !! i); naive_solver. Qed.

Lemma mapM_present (l : list (option Sig)) ss :
  mapM (λ s, ok_or s InvalidSignature) l = Ok ss ↔ l = Some <$> ss.
Proof.
  revert ss; induction l as [|[x|] l IH]; intros ss; cbn [mapM ok_or].
  - split; [by intros [= <-]|]. by destruct ss.
  - cbn [mbind result_bind]. split.
    + intros E. apply bind_Ok in E as (ss' & E & [= <-]). apply IH in E as ->. done.
    + destruct ss as [|s ss]; intros [=]; subst. by rewrite (proj2 (IH ss)).
  - split; [done|]. by destruct ss.
Qed.

(** The signatures that reach the finalizer: one for each input, each of them a
    verified share for that input, and no share disagreeing with them. *)
Lemma finalize_shares_Ok m p shares tx : Forall (λ s, 0 ≤ input_index s) shares →
  finalize_shares m p shares = Ok tx ↔
  Forall (λ s, verify_signature_share m p s = Ok tt) shares ∧
  ∃ stock participants, length participants = length (commitments m) ∧
    (∀ i s, (stock :: participants) !! i = Some s ↔
      ∃ share, share ∈ shares ∧ Z.to_nat (input_index share) = i ∧ sh_signature share = s) ∧
    finalize m p stock participants = Ok tx.
Proof.
  intros Hi. unfold finalize_shares. set (slots := replicate _ _).
  assert (length slots = length (commitments m) + 1)%nat as HL by apply length_replicate.
  assert (∀ i (s : Sig), slots !! i ≠ Some (Some s)) as Hnone.
  { intros i s Hs. apply lookup_replicate in Hs as [? _]. done. }
  split.
  - intros E. apply bind_Ok in E as (slots' & E1 & E). apply bind_Ok in E as (stock & E2%ok_or_Ok & E).
    apply bind_Ok in E as (parts & E3%mapM_present & E).
    apply (place_shares_Ok m p shares slots slots' Hi HL) in E1 as [Hv [HL' Hh]].
    destruct slots' as [|[x|] rest]; cbn in E2, E3; try done. simplify_eq.
    split; [done|]. exists stock, parts. split; [|split; [|done]].
    + rewrite HL in HL'. cbn in HL'. rewrite length_fmap in HL'. lia.
    + intros i s. rewrite <- (fmap_Some_lookup (stock :: parts)), fmap_cons, Hh. naive_solver.
  - intros (Hv & stock & parts & Hlen & Hh & Hf). apply bind_Ok. exists (Some <$> (stock :: parts)). split.
    + apply (place_shares_Ok m p shares slots _ Hi HL). split; [done|]. split.
      * rewrite length_fmap, HL. cbn. lia.
      * intros i s. rewrite fmap_Some_lookup, Hh. naive_solver.
    + cbn [fmap list_fmap head tail mjoin option_join ok_or mbind result_bind].
      rewrite (proj2 (mapM_present _ parts)) by done. exact Hf.
Qed.

(** Collecting shares succeeds exactly when every share verifies for its input
    and the shares name exactly one signature for every input; the transaction is
    then the finalizer's on those signatures.  Shares of one signer that differ, a
    missing signer or a single invalid share refuse the whole set. *)
Theorem finalize_shares_exact m p shares tx : Forall (λ s, 0 ≤ input_index s) shares →
  finalize_shares m p shares = Ok tx ↔
  Forall (λ s, verify_signature_share m p s = Ok tt) shares ∧
  ∃ stock participants, length participants = length (commitments m) ∧
    (∀ i s, (stock :: participants) !! i = Some s ↔
      ∃ share, share ∈ shares ∧ Z.to_nat (input_index share) = i ∧ sh_signature share = s) ∧
    finalize m p stock participants = Ok tx.
Proof. apply finalize_shares_Ok. Qed.

(** The order in which shares arrive, and how often each does, is irrelevant. *)
Theorem shares_order_irrelevant m p shares shares' tx : Forall (λ s, 0 ≤ input_index s) shares →
  (∀ s, s ∈ shares ↔ s ∈ shares') →
  finalize_shares m p shares = Ok tx ↔ finalize_shares m p shares' = Ok tx.
Proof.
  intros Hi Hs. assert (Forall (λ s, 0 ≤ input_index s) shares') as Hi'.
  { rewrite Forall_forall in *. intros s Hin. by apply Hi, Hs. }
  rewrite !finalize_shares_Ok, !Forall_forall by done. by setoid_rewrite Hs.
Qed.
End shares.

(** ** The finalized transaction on the chain *)
Section discovery.
Context `{PoseidonLaws, Sha256Laws, BitcoinLaws, EcdsaLaws}.

Lemma zip_set_outpoints ws (cs : list ParticipantCommitment) : length ws = length cs →
  previous_output <$> zip_with set_witness ws ((λ c, unsigned_input (fee_outpoint c)) <$> cs) =
  fee_outpoint <$> cs.
Proof.
  revert cs; induction ws as [|w ws IH]; intros [|c cs] L; cbn in *; try done. f_equal. apply IH. lia.
Qed.

Lemma stock_script_nonempty p : proposal_stock_script p ≠ [].
Proof. unfold proposal_stock_script, stock_witness_script. intros E. apply (f_equal length) in E. rewrite !length_app in E. cbn in E. lia. Qed.

(** The steps of a successful finalization. *)
Lemma finalize_Ok m p stock parts tx : finalize m p stock parts = Ok tx →
  manifest_validate m p = Ok tt ∧ length parts = length (commitments m) ∧
  verify_stock_signature m p stock = Ok tt ∧ verify_participants m 0 (commitments m) parts = Ok tt ∧
  ∃ items, envelope_v2_encode (pc_payload <$> commitments m) = Some items ∧
    btx_weight tx ≤ max_weight m ∧
    tx = {| btx_version := btx_version (unsigned_tx m); btx_lock_time := btx_lock_time (unsigned_tx m);
      btx_input := signed_inputs (items ++ [sig_serialize stock; proposal_stock_script p])
        (zip_with (λ s c, p2wpkh_witness s (fee_pubkey c)) parts (commitments m))
        (btx_input (unsigned_tx m));
      btx_output := btx_output (unsigned_tx m) |}.
Proof.
  unfold finalize. intros E. apply bind_Ok in E as ([] & E1 & E). apply bind_Ok in E as ([] & E2 & E).
  apply bind_Ok in E as ([] & E3 & E). apply bind_Ok in E as ([] & E4 & E).
  apply bind_Ok in E as (items & E5%ok_or_Ok & E). apply bind_Ok in E as ([] & E6 & [= <-]).
  apply ensure_Ok in E2, E6. rewrite Z.gtb_ltb in E6. bool_props. split_and!; try done. by exists items.
Qed.

(** The witness the finalizer gives the stock input is the batch's envelope. *)
Lemma stock_witness_decodes p cs items g : Forall commitment_wf cs →
  envelope_v2_encode (pc_payload <$> cs) = Some items →
  witness_envelope_decode (items ++ [sig_serialize g; proposal_stock_script p]) =
    Some (V2, pc_payload <$> cs).
Proof.
  intros Hw He. pose proof (sig_length g) as HL. apply witness_v2. split_and!.
  - intros E. rewrite E in He. done.
  - apply Forall_fmap. eapply Forall_impl; [exact Hw|]. intros c Hc. apply Hc.
  - exists items, (sig_serialize g), (proposal_stock_script p). split_and!; try done.
    + intros E. rewrite E in HL. cbn in HL. lia.
    + unfold MAX_WITNESS_ITEM. lia.
    + apply stock_script_nonempty.
Qed.

(** A batch header is read back as it was written. *)
Lemma batch_record_reads ps ctx r : batch_header_v2 ps ctx = Some r →
  record_from_bytes (record_to_bytes r) = r.
Proof. intros [Hw Hb]%batch_record_wf. pose proof (from_to_tagged r Hw) as E. by destruct r. Qed.

(** The header of a batch accepts the envelope of its own payloads. *)
Lemma own_header_occurrence ps ctx nf r : batch_header_v2 ps ctx = Some r → bound ctx nf ∈ ps →
  is_Some (versioned_envelope_occurrence V2 r ps ctx nf).
Proof.
  unfold batch_header_v2. case_if; [|done]. intros [= <-] Hin. cbn [versioned_envelope_occurrence].
  rewrite !bool_decide_eq_true_2 by done. cbn [negb orb versioned_batch_commit].
  destruct (position _ ps) as [k|] eqn:E; [by eexists|].
  apply position_None in E. rewrite Forall_forall in E. specialize (E _ Hin).
  by apply bool_decide_eq_false in E.
Qed.

(** How the light client reads the finalized transaction. *)
Lemma finalized_chain_tx m p stock parts tx : proposal_wf p → finalize m p stock parts = Ok tx →
  ∃ items record, envelope_v2_encode (pc_payload <$> commitments m) = Some items ∧
    batch_header_v2 (pc_payload <$> commitments m) (context p) = Some record ∧
    btx_output tx = btx_output (unsigned_tx m) ∧
    previous_output <$> btx_input tx = stock_outpoint p :: (fee_outpoint <$> commitments m) ∧
    head (witnesses (chain_tx tx)) = Some (items ++ [sig_serialize stock; proposal_stock_script p]) ∧
    head (btx_output tx) = Some {| tx_value := 0; script_pubkey := new_op_return (record_to_bytes record) |}.
Proof.
  intros Hp Hfin. apply finalize_Ok in Hfin as (Hv & HL & _ & _ & items & He & _ & ->).
  destruct (valid_feerate m p Hp Hv) as [Hf _]. apply manifest_validate_Ok in Hv.
  pose proof (built_sorted _ _ _ _ _ Hf Hv) as Es.
  apply build_at_Ok in Hv as (spk & rb & chs & vals & B & Em); [|done].
  pose proof (bd_record _ _ _ _ _ _ _ B) as Hr. rewrite <- Es in Hr.
  apply fmap_Some in Hr as (record & Hr & ->). exists items, record. split; [done|]. split; [done|].
  split; [done|].
  assert (btx_input (unsigned_tx m) = unsigned_input (stock_outpoint p) ::
    ((λ c, unsigned_input (fee_outpoint c)) <$> commitments m)) as Ei
    by (rewrite Em at 1; cbn [built unsigned_tx manifest_tx btx_input]; by rewrite <- Es).
  assert (head (btx_output (unsigned_tx m)) =
    Some {| tx_value := 0; script_pubkey := new_op_return (record_to_bytes record) |}) as Eo
    by (rewrite Em at 1; done).
  unfold chain_tx. cbn [btx_input btx_output witnesses]. rewrite Ei. cbn [signed_inputs fmap list_fmap].
  split; [|split; [|exact Eo]].
  - cbn [set_witness previous_output unsigned_input]. f_equal. apply zip_set_outpoints.
    by rewrite length_zip_with, HL, Nat.min_id.
  - cbn [forallb set_witness bi_witness]. rewrite bool_decide_eq_false_2; [done|].
    intros E. apply (f_equal length) in E. rewrite length_app in E. cbn in E. lia.
Qed.

(** C19: A finalized batch is seen: however the shares were collected, the transaction
    spends the stock and every participant's fee input, creates the manifest's
    outputs, and the transaction the chain then carries binds the nullifier of
    every participant under the stock's context - the self-scan's rule finds it in
    the batch's own witness envelope. *)
Theorem finalized_batch_discovered m p stock parts tx c nf : proposal_wf p →
  Forall commitment_wf (commitments m) → finalize m p stock parts = Ok tx →
  c ∈ commitments m → pc_payload c = bound (context p) nf →
  previous_output <$> btx_input tx = stock_outpoint p :: (fee_outpoint <$> commitments m) ∧
  btx_output tx = btx_output (unsigned_tx m) ∧ tx_binds (chain_tx tx) nf.
Proof.
  intros Hp Hw Hfin Hc Hpay.
  destruct (finalized_chain_tx _ _ _ _ _ Hp Hfin) as (items & record & He & Hr & Ho & Hi & Hwit & Hout).
  split; [done|]. split; [done|]. split.
  - unfold is_coinbase, chain_tx. cbn [inputs]. destruct (btx_input tx) as [|i [|i' rest]]; [done| |done].
    cbn in Hi. destruct (commitments m); [by apply elem_of_nil in Hc|done].
  - destruct (btx_input tx) as [|i rest] eqn:Ein; [done|]. cbn in Hi. injection Hi as Hi0 Hirest.
    eexists _, (record_to_bytes record).
    unfold chain_tx at 1. cbn [inputs]. rewrite Ein. split; [reflexivity|]. split.
    + unfold chain_tx. cbn [outputs]. destruct (btx_output tx) as [|o outs]; [done|]. injection Hout as ->.
      cbn [find_map script_pubkey]. rewrite op_return_bytes by by eapply batch_record_length.
      cbn [op_return_payload]. cbn [mbind option_bind]. rewrite bool_decide_eq_true_2; [done|].
      by eapply batch_record_length.
    + cbn [prev]. rewrite Hi0. right.
      exists (items ++ [sig_serialize stock; proposal_stock_script p]), V2, (pc_payload <$> commitments m).
      split; [done|]. split; [by apply stock_witness_decodes|].
      rewrite (batch_record_reads _ _ _ Hr). apply own_header_occurrence; [done|].
      unfold context in Hpay. rewrite <- Hpay. by apply list_elem_of_fmap_2.
Qed.
End discovery.

(** ** Witnesses *)
Section demo.
#[local] Existing Instances demo_sponge demo_sponge_laws small_sha256d small_sha256 small_sha256_laws.
#[local] Existing Instances demo_bitcoin demo_bitcoin_laws demo_ecdsa demo_ecdsa_laws.

(** The three signers' shares; commitments are in outpoint order. *)
Definition demo_sig (s : protocol Sig) : Sig := match s with Ok s => s | Err _ => (x00, x00) end.
Definition demo_stock_sig : Sig := demo_sig (sign_stock demo_manifest demo_proposal (replicate 32 x01)).
Definition demo_sig_of (i : nat) (key : byte) : Sig :=
  demo_sig (sign_participant demo_manifest demo_proposal i (replicate 32 key)).

Definition demo_share (i : Z) (key : byte) (s : Sig) : SignatureShare :=
  {| sh_manifest_id := manifest_id demo_manifest; input_index := i; signer_pubkey := demo_key key;
     sh_signature := s |}.

(** Out of order, and one of them twice. *)
Definition demo_shares : list SignatureShare :=
  [demo_share 2 x09 (demo_sig_of 1 x09); demo_share 0 x01 demo_stock_sig;
   demo_share 1 x03 (demo_sig_of 0 x03); demo_share 0 x01 demo_stock_sig].

Lemma demo_shares_finalize : is_ok (finalize_shares demo_manifest demo_proposal demo_shares) = true.
Proof. vm_compute. reflexivity. Qed.

Lemma demo_finalizes :
  is_ok (finalize demo_manifest demo_proposal demo_stock_sig [demo_sig_of 0 x03; demo_sig_of 1 x09]) = true.
Proof. vm_compute. reflexivity. Qed.

Lemma finalize_shares_exact_witness :
  ∃ stock participants, length participants = length (commitments demo_manifest) ∧
    is_ok (finalize demo_manifest demo_proposal stock participants) = true.
Proof.
  destruct (is_ok_Ok _ demo_shares_finalize) as [tx E].
  assert (Forall (λ s, 0 ≤ input_index s) demo_shares) as Hi by (repeat constructor; cbn; lia).
  destruct (proj1 (finalize_shares_exact demo_manifest demo_proposal demo_shares tx Hi) E)
    as (_ & stock & parts & HL & _ & Hf).
  exists stock, parts. split; [exact HL|]. rewrite Hf. reflexivity.
Defined.

Lemma finalized_batch_discovered_witness : ∃ tx,
  finalize demo_manifest demo_proposal demo_stock_sig [demo_sig_of 0 x03; demo_sig_of 1 x09] = Ok tx ∧
  tx_binds (chain_tx tx) (replicate 32 x09).
Proof.
  destruct (is_ok_Ok _ demo_finalizes) as [tx E]. exists tx. split; [exact E|].
  refine (proj2 (proj2 (finalized_batch_discovered demo_manifest demo_proposal demo_stock_sig
    [demo_sig_of 0 x03; demo_sig_of 1 x09] tx (demo_commitment x09 2 5000) (replicate 32 x09)
    demo_proposal_wf _ E _ _))).
  - apply (bool_decide_unpack _). vm_compute. exact I.
  - apply (bool_decide_unpack _). vm_compute. exact I.
  - reflexivity.
Defined.
End demo.
