(* ===== verification/BatchWeight.v ===== *)
(** * The weight of a finalized batch

    The pessimistic weight a manifest's fee is charged for is never exceeded: the
    signed transaction of any valid manifest weighs at most 423 per participant
    plus 968 units, so verified signatures always finalize. *)

From S2P Require Import Prelude Field Commitments Kernel Anchor Batch Chain Accept Wire Block Bitcoin.
From S2P Require Import Network Peer FullScan Scan BatchV2 BatchDemo BatchRules BatchWire BatchFinal.

(** ** Lengths of encodings *)

Lemma varbytes_short b : (length b < 253)%nat → length (write_varbytes b) = S (length b).
Proof. intros. unfold write_varbytes. rewrite length_app, varint_1 by lia. lia. Qed.

(** An input without a signature script takes 41 bytes. *)
Lemma txin_length o q : length (op_txid o) = 32%nat →
  length (txin_wire {| prev := o; script_sig := []; sequence := q |}) = 41%nat.
Proof.
  intros. unfold txin_wire, outpoint_wire. cbn [prev script_sig sequence].
  rewrite !length_app, !length_le_bytes, varbytes_short by (cbn; lia). cbn. lia.
Qed.

Lemma txout_length v s : (length s < 253)%nat →
  length (txout_wire {| tx_value := v; script_pubkey := s |}) = (9 + length s)%nat.
Proof.
  intros. unfold txout_wire. cbn [tx_value script_pubkey]. rewrite length_app, length_le_bytes, varbytes_short by done. lia.
Qed.

Section weight.
Context `{PoseidonLaws, Sha256Laws, BitcoinLaws, EcdsaLaws, !WeightLaws _ _}.

Lemma unsigned_inputs_length os : Forall (λ o, length (op_txid o) = 32%nat) os →
  length (concat (txin_wire <$> ((λ i, {| prev := previous_output i; script_sig := bi_script_sig i;
    sequence := bi_sequence i |}) <$> (unsigned_input <$> os)))) = (41 * length os)%nat.
Proof.
  intros Ho. rewrite (length_concat_const 41); [rewrite !length_fmap; lia|].
  rewrite <- !list_fmap_compose. apply Forall_fmap. eapply Forall_impl; [exact Ho|].
  intros o HL. cbn. by apply txin_length.
Qed.

Lemma change_outputs_length (cs : list ParticipantCommitment) vals : length vals = length cs →
  Forall (λ c, length (change_spk c) = 22%nat) cs →
  length (concat (txout_wire <$>
    zip_with (λ c v, {| tx_value := v; script_pubkey := change_spk c |}) cs vals)) = (31 * length cs)%nat.
Proof.
  intros HL Hc. rewrite (length_concat_const 31).
  - rewrite length_fmap, length_zip_with, HL. lia.
  - apply Forall_fmap, Forall_lookup. intros k o Ho. apply lookup_zip_with_Some in Ho as (c & v & -> & Hk & _).
    pose proof (Forall_lookup_1 _ _ _ _ Hc Hk) as H22. cbn in H22 |- *. rewrite txout_length; lia.
Qed.

(** The unsigned transaction of a manifest for [n] participants. *)
Lemma manifest_tx_length p cs feerate spk record chs vals :
  buildable p cs feerate spk record chs vals → proposal_wf p → Forall commitment_wf cs →
  length (serialize_legacy (chain_tx (manifest_tx p spk record (sort_commitments cs) vals))) =
    (212 + 72 * length cs)%nat.
Proof.
  intros B Hp Hw. destruct B as [Es Ep _ Hn _ Hc _ _ Ha Er].
  assert (length record = 64%nat) as HL.
  { apply fmap_Some in Er as (r & Er & ->). by eapply batch_record_length. }
  apply allocate_lengths in Ha as [_ Hv]. rewrite length_sort in Hv.
  rewrite <- (sort_perm cs) in Hc, Hw. pose proof (length_sort cs) as Hs.
  set (ks := sort_commitments cs) in *. unfold serialize_legacy, chain_tx, manifest_tx, write_i32.
  cbn [tx_version inputs outputs lock_time btx_version btx_input btx_output btx_lock_time].
  assert (unsigned_input (stock_outpoint p) :: ((λ c, unsigned_input (fee_outpoint c)) <$> ks) =
    unsigned_input <$> stock_outpoint p :: (fee_outpoint <$> ks)) as ->
    by (cbn; f_equal; by rewrite <- list_fmap_compose).
  rewrite !length_app, !length_le_bytes, unsigned_inputs_length.
  2:{ constructor; [apply Hp|]. apply Forall_fmap. eapply Forall_impl; [exact Hw|].
      intros c Hcw. apply Hcw. }
  rewrite !fmap_cons. cbn [concat]. rewrite !length_app, change_outputs_length; [|lia|].
  2:{ eapply Forall_impl; [exact Hc|]. intros c. apply validated_change. }
  rewrite op_return_bytes by done. rewrite !txout_length;
    [|unfold stock_script_pubkey; rewrite p2wsh_length; lia|rewrite (marker_length _ _ Es); lia|cbn; lia].
  rewrite (marker_length _ _ Es). unfold stock_script_pubkey. rewrite p2wsh_length.
  cbn [length]. rewrite !length_fmap, length_zip_with, !varint_1 by (cbn [length]; rewrite ?length_fmap, ?length_zip_with; lia).
  rewrite HL. cbn [length]. lia.
Qed.

Lemma stock_script_length p : length (stock_owner_pubkey p) = 33%nat →
  length (proposal_stock_script p) = (37 + Z.to_nat (participant_count p))%nat.
Proof.
  intros. unfold proposal_stock_script, stock_witness_script.
  rewrite !length_app, length_replicate, push_key_length by done. cbn. lia.
Qed.

(** The stock witness: magic, payloads, signature and script. *)
Lemma stock_stack_length p cs items g : proposal_wf p → Forall commitment_wf cs →
  (length cs ≤ 64)%nat → Z.to_nat (participant_count p) = length cs →
  envelope_v2_encode (pc_payload <$> cs) = Some items →
  (length (stack_wire (items ++ [sig_serialize g; proposal_stock_script p])) ≤ 118 + 26 * length cs)%nat.
Proof.
  intros Hp Hw Hn Hc He. pose proof (sig_length g) as Hg. unfold envelope_v2_encode in He.
  case_match; [done|]. injection He as <-.
  pose proof (stock_script_length p (proj1 (proj1 (proj2 (proj2 (proj2 (proj2 Hp))))))) as Hs.
  unfold stack_wire. cbn [app]. rewrite !fmap_cons, !fmap_app, length_app. cbn [concat].
  rewrite concat_app, !length_app, varint_1 by (cbn [length]; rewrite length_app, length_fmap; cbn; lia).
  rewrite (length_concat_const 25).
  - cbn [fmap list_fmap concat length]. rewrite !length_fmap, !length_app, !varbytes_short by (cbn; lia).
    cbn [length WITNESS_MAGIC_V2]. lia.
  - rewrite <- list_fmap_compose. apply Forall_fmap. eapply Forall_impl; [exact Hw|].
    intros c (_ & _ & _ & Hp24 & _). cbn. rewrite varbytes_short; lia.
Qed.

(** A participant's witness: signature and key. *)
Lemma fee_stack_length g c : commitment_wf c →
  (length (stack_wire (p2wpkh_witness g (fee_pubkey c))) ≤ 109)%nat.
Proof.
  intros (_ & _ & _ & _ & _ & _ & [Hk _] & _). pose proof (sig_length g).
  rewrite p2wpkh_witness_law. unfold stack_wire. cbn [fmap list_fmap concat length].
  rewrite !length_app, varint_1, !varbytes_short by (cbn; lia). cbn [length]. lia.
Qed.

Lemma fee_stacks_length parts cs : Forall commitment_wf cs → length parts = length cs →
  (length (concat (stack_wire <$> zip_with (λ s c, p2wpkh_witness s (fee_pubkey c)) parts cs))
    ≤ 109 * length cs)%nat.
Proof.
  revert parts; induction cs as [|c cs IH]; intros [|g parts] Hw HL; cbn in *; try done.
  apply Forall_cons in Hw as [Hc Hw]. rewrite length_app. pose proof (fee_stack_length g c Hc).
  specialize (IH parts Hw ltac:(lia)). lia.
Qed.

Lemma zip_set_witnesses ws ins : length ws = length ins → bi_witness <$> zip_with set_witness ws ins = ws.
Proof.
  revert ins; induction ws as [|w ws IH]; intros [|i ins] L; cbn in *; try done. f_equal. apply IH. lia.
Qed.

Lemma zip_set_same ws ins : length ws = length ins →
  (λ i, {| prev := previous_output i; script_sig := bi_script_sig i; sequence := bi_sequence i |}) <$>
    zip_with set_witness ws ins =
  (λ i, {| prev := previous_output i; script_sig := bi_script_sig i; sequence := bi_sequence i |}) <$> ins.
Proof.
  revert ins; induction ws as [|w ws IH]; intros [|i ins] L; cbn in *; try done. f_equal. apply IH. lia.
Qed.

(** Witnesses are not part of the legacy encoding. *)
Lemma serialize_signed t stack ws i rest : btx_input t = i :: rest → length ws = length rest →
  serialize_legacy (chain_tx {| btx_version := btx_version t; btx_lock_time := btx_lock_time t;
    btx_input := set_witness stack i :: zip_with set_witness ws rest; btx_output := btx_output t |}) =
  serialize_legacy (chain_tx t).
Proof.
  intros Ei HL. unfold serialize_legacy, chain_tx.
  cbn [tx_version inputs outputs lock_time btx_version btx_input btx_output btx_lock_time].
  by rewrite Ei, !fmap_cons, (zip_set_same ws rest HL).
Qed.

(** The signed transaction a finalization builds weighs what the manifest allows. *)
Lemma signed_weight m p stock parts items : proposal_wf p → Forall commitment_wf (commitments m) →
  manifest_validate m p = Ok tt → length parts = length (commitments m) →
  envelope_v2_encode (pc_payload <$> commitments m) = Some items →
  btx_weight {| btx_version := btx_version (unsigned_tx m); btx_lock_time := btx_lock_time (unsigned_tx m);
      btx_input := signed_inputs (items ++ [sig_serialize stock; proposal_stock_script p])
        (zip_with (λ s c, p2wpkh_witness s (fee_pubkey c)) parts (commitments m))
        (btx_input (unsigned_tx m));
      btx_output := btx_output (unsigned_tx m) |} ≤ max_weight m.
Proof.
  intros Hp Hw Hv HL He. destruct (valid_feerate m p Hp Hv) as [Hf _].
  pose proof Hv as Hb. apply manifest_validate_Ok in Hb. pose proof (built_sorted _ _ _ _ _ Hf Hb) as Es.
  apply build_at_Ok in Hb as (spk & rb & chs & vals & B & Em); [|done].
  pose proof (bd_range _ _ _ _ _ _ _ B) as Hn. pose proof (bd_count _ _ _ _ _ _ _ B) as Hc.
  pose proof (manifest_tx_length p _ _ _ _ _ _ B Hp Hw) as Hlen. rewrite <- Es in Hlen.
  assert (unsigned_tx m = manifest_tx p spk rb (commitments m) vals) as Et
    by (rewrite Em at 1; cbn [built unsigned_tx]; by rewrite <- Es).
  assert (max_weight m = 423 * Z.of_nat (length (commitments m)) + 968) as -> by (by rewrite Em at 1).
  set (stack := items ++ _). set (ws := zip_with _ parts _).
  assert (length ws = length ((λ c, unsigned_input (fee_outpoint c)) <$> commitments m)) as Hws
    by (unfold ws; rewrite length_zip_with, length_fmap, HL; lia).
  assert (stack ≠ []) as Hst
    by (intros E; apply (f_equal length) in E; unfold stack in E; rewrite length_app in E; cbn in E; lia).
  assert (btx_input (unsigned_tx m) = unsigned_input (stock_outpoint p) ::
    ((λ c, unsigned_input (fee_outpoint c)) <$> commitments m)) as Ei by (by rewrite Et).
  rewrite <- Et in Hlen. rewrite weight_law. unfold witness_size. rewrite Ei. cbn [signed_inputs btx_input forallb].
  rewrite (serialize_signed (unsigned_tx m) stack ws _ _ Ei Hws), Hlen.
  cbn [set_witness bi_witness]. rewrite bool_decide_eq_false_2 by done. cbn [andb].
  rewrite fmap_cons, (zip_set_witnesses ws _ Hws), fmap_cons. cbn [bi_witness concat]. rewrite length_app.
  pose proof (stock_stack_length p _ items stock Hp Hw ltac:(lia) ltac:(lia) He) as Hs.
  pose proof (fee_stacks_length parts _ Hw HL) as Hfs. fold stack in Hs. fold ws in Hfs.
  change (bi_witness (set_witness stack _)) with stack. lia.
Qed.

(** Verified signatures finalize: for a valid manifest, a stock signature and one
    signature per participant that verify are all a finalization needs - the weight
    limit the fee was computed from is the exact worst case (reached with 73-byte
    signatures) and never refuses the transaction, and nothing after the signature
    checks fails. *)
Theorem finalize_complete m p stock parts : proposal_wf p → Forall commitment_wf (commitments m) →
  (∃ tx, finalize m p stock parts = Ok tx) ↔
  manifest_validate m p = Ok tt ∧ length parts = length (commitments m) ∧
  verify_stock_signature m p stock = Ok tt ∧ verify_participants m 0 (commitments m) parts = Ok tt.
Proof.
  intros Hp Hw. split.
  - intros [tx E%finalize_Ok]. naive_solver.
  - intros (Hv & HL & H1' & H2'). unfold finalize. rewrite Hv. cbn [mbind result_bind].
    rewrite bool_decide_eq_true_2 by done. cbn [ensure mbind result_bind]. rewrite H1'. cbn [mbind result_bind].
    rewrite H2'. cbn [mbind result_bind].
    destruct (envelope_v2_encode (pc_payload <$> commitments m)) as [items|] eqn:He.
    + cbn [ok_or mbind result_bind]. rewrite Z.gtb_ltb, (proj2 (Z.ltb_ge _ _)); [by eexists|].
      by apply signed_weight.
    + exfalso. destruct (valid_feerate m p Hp Hv) as [Hf _]. apply manifest_validate_Ok in Hv.
      apply build_at_Ok in Hv as (? & ? & ? & ? & B & _); [|done].
      pose proof (bd_range _ _ _ _ _ _ _ B) as Hn. unfold envelope_v2_encode, MAX_BATCH_V2_PARTICIPANTS in He.
      rewrite length_fmap in He. destruct (commitments m); [cbn in Hn; lia|].
      rewrite bool_decide_eq_false_2, bool_decide_eq_true_2 in He by (done || (cbn in *; lia)). done.
Qed.
End weight.

(** ** Witness *)
Section demo.
#[local] Existing Instances demo_sponge demo_sponge_laws small_sha256d small_sha256 small_sha256_laws.
#[local] Existing Instances demo_bitcoin demo_bitcoin_laws demo_ecdsa demo_ecdsa_laws demo_weight_laws.

Lemma finalize_complete_witness : ∃ tx,
  finalize demo_manifest demo_proposal demo_stock_sig [demo_sig_of 0 x03; demo_sig_of 1 x09] = Ok tx.
Proof.
  refine (proj2 (finalize_complete demo_manifest demo_proposal demo_stock_sig
    [demo_sig_of 0 x03; demo_sig_of 1 x09] demo_proposal_wf _) _).
  - apply (bool_decide_unpack _). vm_compute. exact I.
  - split; [exact demo_valid|]. split; [vm_compute; reflexivity|]. split; vm_compute; reflexivity.
Defined.
End demo.
