(* ===== verification/BatchInputs.v ===== *)
(** * Capabilities for verified batch inputs

    Models [crates/opencsv-cbf/src/batch.rs]: the receipts a light client issues for
    the stock and fee inputs of a batch, and their age limits.  Composes the
    outpoint verdicts of [Client.v] with the manifests of [BatchV2.v]; the wall
    clock is an argument of whatever reads it. *)

From S2P Require Import Prelude Field Commitments Kernel Anchor Batch Chain Accept Wire Block Network.
From S2P Require Import Messages Peer Gcs HeaderChain FullScan Scan Client Bitcoin BatchV2 BatchDemo BatchRules.

(** [std::time::Duration] *)
Record Duration := { secs : Z; nanos : Z }.

Definition is_zero (d : Duration) : bool := (secs d =? 0) && (nanos d =? 0).

Record BatchInputBirthHeights := { stock_birth : Z; participant_births : list Z }.
Record CommitmentInputBirthHeights := { ci_stock_birth : Z; ci_fee_birth : Z }.

Record VerifiedChainTip := {
  vt_chain_id : bytes;
  vt_height : Z;
  vt_hash : bytes;
  vt_verified_at : Z;
}.

Record VerifiedBatchOutpoint := {
  vo_outpoint : OutPoint;
  creation_height : Z;
  checked_through : Z;
  matched_blocks : Z;
}.

Record VerifiedBatchInputs := {
  vi_batch_id : bytes;
  vi_manifest_id : bytes;
  verified_tip_height : Z;
  verified_tip_hash : bytes;
  vi_verified_at : Z;
  vi_stock : VerifiedBatchOutpoint;
  vi_participants : list VerifiedBatchOutpoint;
}.

Record VerifiedCommitmentInputs := {
  vc_batch_id : bytes;
  vc_commitment_id : bytes;
  vc_verified_at : Z;
  vc_stock : VerifiedBatchOutpoint;
  vc_fee : VerifiedBatchOutpoint;
}.

(** ** Age limits: [now] is what [unix_time] returns *)
Definition require_fresh_timestamp (now : result Error Z) (timestamp : Z) (max_age : Duration)
  : result Error () :=
  ensure (negb (is_zero max_age)) (EInvalidInput "verified-tip maximum age must be positive");;
  now ← now;
  age ← ok_or (checked_sub64 now timestamp) (EInvalidInput "verified-tip receipt time is in the future");
  ensure (negb (age >? secs max_age)) (EInvalidInput "verified-tip receipt age exceeds signing limit").

Definition tip_require_fresh (now : result Error Z) (t : VerifiedChainTip) (max_age : Duration) : result Error () :=
  require_fresh_timestamp now (vt_verified_at t) max_age.

Section inputs.
Context `{Poseidon, Sha256d, Sha256, BitcoinLib, Ecdsa} {P D : Type} `{!PeerOps P, !CacheDir D}.
Abbreviation Client := (CbfClient P D).

Definition commitment_require_fresh_for (now : result Error Z) (v : VerifiedCommitmentInputs) (p : Proposal)
    (c : ParticipantCommitment) (max_age : Duration) : result Error () :=
  ensure (bool_decide (vc_batch_id v = batch_id p) && bool_decide (vc_commitment_id v = commitment_id c))
    (EInvalidInput "verified commitment inputs belong to another operation");;
  require_fresh_timestamp now (vc_verified_at v) max_age.

Definition inputs_require_fresh_for (now : result Error Z) (v : VerifiedBatchInputs) (p : Proposal)
    (m : Manifest) (max_age : Duration) : result Error () :=
  ensure (bool_decide (vi_batch_id v = batch_id p) && bool_decide (vi_manifest_id v = manifest_id m))
    (EInvalidInput "verified batch inputs belong to another proposal or manifest");;
  require_fresh_timestamp now (vi_verified_at v) max_age.

(** ** Issuing the receipts *)
Definition verified_tip_receipt (now : result Error Z) : io Client VerifiedChainTip :=
  height ← client_tip_height;
  c ← get_state;
  hash ← lift (ok_or (client_hash_at c height) (EConsensus "verified tip hash is unavailable"));
  time ← lift now;
  mret {| vt_chain_id := genesis_hash (cl_params c); vt_height := height; vt_hash := hash;
          vt_verified_at := time |}.

Definition verify_expected (o : OutPoint) (value : Z) (script : bytes) (birth max_blocks : Z)
  : io Client VerifiedBatchOutpoint :=
  verdict ← verify_outpoint_unspent o value script birth max_blocks;
  match verdict with
  | Unspent created through matched => mret {| vo_outpoint := o; creation_height := created;
      checked_through := through; matched_blocks := matched |}
  | Spent _ _ _ => lift (Err (EInvalidInput "outpoint was spent"))
  | NotFound _ _ => lift (Err (EInvalidInput "outpoint was not found in independently verified blocks"))
  | OutputMismatch _ => lift (Err (EInvalidInput "outpoint value/script differs"))
  end.

Definition verify_fee (c : ParticipantCommitment) (birth max_blocks : Z) : io Client VerifiedBatchOutpoint :=
  verify_expected (fee_outpoint c) (tx_value (fee_prevout c)) (script_pubkey (fee_prevout c)) birth max_blocks.

Definition verify_stock (p : Proposal) (birth max_blocks : Z) : io Client VerifiedBatchOutpoint :=
  verify_expected (stock_outpoint p) (stock_value p) (stock_script_pubkey p) birth max_blocks.

Definition verify_commitment_inputs (now : result Error Z) (p : Proposal) (c : ParticipantCommitment)
    (births : CommitmentInputBirthHeights) (max_blocks : Z) : io Client VerifiedCommitmentInputs :=
  stock ← verify_stock p (ci_stock_birth births) max_blocks;
  fee ← verify_fee c (ci_fee_birth births) max_blocks;
  lift (ensure (checked_through stock =? checked_through fee)
    (EDivergentPeers "commitment inputs were not checked through one common tip"));;
  time ← lift now;
  mret {| vc_batch_id := batch_id p; vc_commitment_id := commitment_id c; vc_verified_at := time;
          vc_stock := stock; vc_fee := fee |}.

(** The loop over the commitments and their claimed heights. *)
Fixpoint verify_fees (cs : list (ParticipantCommitment * Z)) (max_blocks : Z)
  : io Client (list VerifiedBatchOutpoint) :=
  match cs with
  | [] => mret []
  | (c, birth) :: cs =>
    receipt ← verify_fee c birth max_blocks;
    receipts ← verify_fees cs max_blocks;
    mret (receipt :: receipts)
  end.

Definition verify_batch_inputs (now : result Error Z) (p : Proposal) (m : Manifest)
    (births : BatchInputBirthHeights) (max_blocks : Z) : io Client VerifiedBatchInputs :=
  lift (match psbt m p with Ok _ => Ok tt | Err _ => Err (EInvalidInput "batch manifest") end);;
  lift (ensure (bool_decide (length (participant_births births) = length (commitments m)))
    (EInvalidInput "participant birth-height count differs from canonical manifest"));;
  stock ← verify_stock p (stock_birth births) max_blocks;
  participants ← verify_fees (zip (commitments m) (participant_births births)) max_blocks;
  tip ← client_tip_height;
  lift (ensure ((checked_through stock =? tip) && forallb (λ r, checked_through r =? tip) participants)
    (EDivergentPeers "batch inputs were not checked through one common tip"));;
  c ← get_state;
  hash ← lift (ok_or (client_hash_at c tip) (EConsensus "verified tip hash is unavailable"));
  time ← lift now;
  mret {| vi_batch_id := batch_id p; vi_manifest_id := manifest_id m; verified_tip_height := tip;
          verified_tip_hash := hash; vi_verified_at := time; vi_stock := stock;
          vi_participants := participants |}.
End inputs.

(** ** Lemmas *)
Section lemmas.
Context `{Poseidon, Sha256d, Sha256, BitcoinLib, Ecdsa} {P D : Type} `{!PeerOps P, !CacheDir D, !PeerLaws P}.
Abbreviation Client := (CbfClient P D).

(** A receipt says that its output exists with the expected value and script and is
    unspent, on the chain of [s] up to its tip. *)
Definition receipt_holds (s : Client) (o : OutPoint) (value : Z) (script : bytes)
    (r : VerifiedBatchOutpoint) : Prop :=
  vo_outpoint r = o ∧ checked_through r = client_tip s ∧ creation_height r ≤ client_tip s ∧
  created_at s o value script (creation_height r) ∧
  ∀ h, creation_height r ≤ h ≤ client_tip s → clear_at s o script h.

Lemma verify_expected_at o value script birth max_blocks (s s0 s' : Client) r :
  chains_are (cl_chain s) (cl_filters s) s0 →
  verify_expected o value script birth max_blocks s0 = (Ok r, s') →
  receipt_holds s o value script r ∧ chains_are (cl_chain s) (cl_filters s) s'.
Proof.
  intros Hs E. unfold verify_expected in E. apply io_bind_Ok in E as (v & s1 & Ev & E).
  pose proof (verify_outpoint_chains (cl_chain s) (cl_filters s) o value script birth max_blocks s0 Hs) as Hc.
  rewrite Ev in Hc. apply (verify_outpoint_at _ _ _ _ _ s) in Ev as [_ Hv]; [|done].
  destruct v as [created through matched| | |]; [|by cbn in E..]. injection E as <- <-. split; [|exact Hc].
  destruct Hv as (Ht & Hb & Hcr & Hcl). unfold receipt_holds.
  cbn [vo_outpoint checked_through creation_height].
  split_and!; [done|done|lia|done|]. intros h Hh. apply Hcl. lia.
Qed.

Lemma verify_fees_at max_blocks (s : Client) cs : ∀ (s0 s' : Client) rs,
  chains_are (cl_chain s) (cl_filters s) s0 →
  verify_fees cs max_blocks s0 = (Ok rs, s') →
  Forall2 (λ c r, receipt_holds s (fee_outpoint c) (tx_value (fee_prevout c)) (script_pubkey (fee_prevout c)) r)
    cs.*1 rs ∧ chains_are (cl_chain s) (cl_filters s) s'.
Proof.
  induction cs as [|[c birth] cs IH]; intros s0 s' rs Hs E; cbn [verify_fees] in E.
  - injection E as <- <-. split; [constructor|done].
  - apply io_bind_Ok in E as (r & s1 & Er & E). apply io_bind_Ok in E as (rs' & s2 & Ers & E).
    injection E as <- <-. apply (verify_expected_at _ _ _ _ _ s) in Er as [Hr Hs1]; [|done].
    apply IH in Ers as [Hrs Hs2]; [|done]. split; [by constructor|done].
Qed.

(** What the inputs of a manifest are worth on the chain of [s]. *)
Definition inputs_funded (s : Client) (p : Proposal) (m : Manifest) (v : VerifiedBatchInputs) : Prop :=
  receipt_holds s (stock_outpoint p) (stock_value p) (stock_script_pubkey p) (vi_stock v) ∧
  Forall2 (λ c r, receipt_holds s (fee_outpoint c) (tx_value (fee_prevout c)) (script_pubkey (fee_prevout c)) r)
    (commitments m) (vi_participants v).

Lemma psbt_Ok m p x : psbt m p = Ok x → manifest_validate m p = Ok tt.
Proof. unfold psbt. intros E. by apply bind_Ok in E as ([] & E & _). Qed.

Lemma manifest_inputs m p : 0 ≤ feerate_sat_vb m → manifest_validate m p = Ok tt →
  previous_output <$> btx_input (unsigned_tx m) = stock_outpoint p :: (fee_outpoint <$> commitments m).
Proof.
  intros Hf Hv%manifest_validate_Ok. pose proof (built_sorted _ _ _ _ _ Hf Hv) as Es.
  apply build_at_Ok in Hv as (spk & rb & chs & vals & _ & Em); [|done].
  rewrite Em at 1. cbn [built unsigned_tx manifest_tx btx_input]. rewrite <- Es. cbn.
  f_equal. rewrite <- list_fmap_compose. done.
Qed.


(** A receipt is honoured exactly while its proposal and manifest are the ones
    presented, a maximum age is set, the clock reads, and the receipt is neither from
    the future nor older than the maximum age in whole seconds. *)
Theorem fresh_inputs_exact now v p m max_age :
  inputs_require_fresh_for now v p m max_age = Ok tt ↔
  vi_batch_id v = batch_id p ∧ vi_manifest_id v = manifest_id m ∧ (secs max_age ≠ 0 ∨ nanos max_age ≠ 0) ∧
  ∃ time, now = Ok time ∧ vi_verified_at v ≤ time ≤ vi_verified_at v + secs max_age.
Proof.
  unfold inputs_require_fresh_for, require_fresh_timestamp, is_zero, checked_sub64. split.
  - intros E. apply bind_Ok in E as ([] & E1 & E). apply bind_Ok in E as ([] & E2 & E).
    apply bind_Ok in E as (t & -> & E). apply bind_Ok in E as (age & E3 & E).
    apply ensure_Ok in E1, E2, E. apply ok_or_Ok in E3. case_decide; [|done]. injection E3 as <-.
    rewrite Z.gtb_ltb in E. bool_props. split; [done|]. split; [done|]. split.
    + apply andb_false_iff in E2 as [E2|E2]; bool_props; auto.
    + exists t. split; [done|]. lia.
  - intros (-> & -> & Hz & t & -> & Ht). rewrite !bool_decide_eq_true_2 by done. cbn [andb ensure mbind result_bind].
    replace ((secs max_age =? 0) && (nanos max_age =? 0)) with false
      by (symmetry; apply andb_false_iff; rewrite !Z.eqb_neq; tauto).
    cbn [negb ensure mbind result_bind]. rewrite decide_True by lia. cbn [ok_or mbind result_bind].
    rewrite Z.gtb_ltb, (proj2 (Z.ltb_ge _ _)) by lia. done.
Qed.
End lemmas.

(** ** A client on a chain that holds the demo batch's inputs *)
Section demo.
#[local] Existing Instances demo_sponge small_sha256d small_sha256 demo_bitcoin demo_ecdsa.

Definition demo_input_block : Block := {|
  header := {| h_version := 1; prev_block := zeros 32; h_merkle_root := tx_id demo_funding; h_time := 7;
               bits := 0; h_nonce := 1 |};
  txs := [demo_funding] |}.
Definition demo_input_hash : bytes := header_hash (header demo_input_block).
Definition demo_input_filter : bytes :=
  encode (script_pubkey <$> outputs demo_funding) (filter_key demo_input_hash) BASIC_FILTER_P BASIC_FILTER_M.

#[local] Instance demo_input_peer : PeerOps () := {|
  peer_headers := {| get_headers _ _ := λ p, (Ok [], p);
                     get_cfheaders _ _ := λ p, (Err (EProtocol "refused"), p) |};
  peer_cfilter _ hash := λ p, (Ok {| cf_block_hash := hash; filter_bytes := demo_input_filter |}, p);
  peer_block hash := λ p,
    (if bool_decide (hash = demo_input_hash) then Ok demo_input_block
     else Err (EProtocol "peer does not have block"), p);
  peer_filter_bytes _ := 0; peer_block_bytes _ := 0;
|}.

#[local] Instance demo_input_peer_laws : PeerLaws ().
Proof.
  split. intros hash p b p'. cbn [peer_block demo_input_peer]. case_bool_decide as Hh; [|discriminate].
  intros E. injection E as <- <-. split; [symmetry; exact Hh|]. cbn. lia.
Qed.

#[local] Instance demo_input_cache : CacheDir () := {|
  read_headers_file _ := Ok None; read_filter_hashes_file _ := Ok None;
  write_headers_file _ := λ d, (Ok tt, d); write_filter_hashes_file _ := λ d, (Ok tt, d);
  read_filter_file _ d := Ok None; remove_filter_file _ d := d;
  write_filter_file _ x := λ d, (Ok tt, d);
|}.

Definition demo_input_client : CbfClient () () := {|
  cl_params := params Regtest; cl_peers := [({| sock_ip := [x01]; sock_port := 1 |}, tt)];
  cl_chain := {| hc_params := params Regtest; headers := [demo_genesis; header demo_input_block];
                 hashes := [header_hash demo_genesis; demo_input_hash]; chainwork := [2; 4] |};
  cl_filters := [zeros 32; filter_hash demo_input_filter]; cl_disk := tt |}.

Definition demo_births : BatchInputBirthHeights := {| stock_birth := 1; participant_births := [1; 1] |}.

Definition demo_receipt (n : Z) : VerifiedBatchOutpoint :=
  {| vo_outpoint := demo_out n; creation_height := 1; checked_through := 1; matched_blocks := 1 |}.

Lemma demo_inputs_verified :
  verify_batch_inputs (Ok 1000) demo_proposal demo_manifest demo_births 10 demo_input_client =
  (Ok {| vi_batch_id := batch_id demo_proposal; vi_manifest_id := manifest_id demo_manifest;
         verified_tip_height := 1; verified_tip_hash := demo_input_hash; vi_verified_at := 1000;
         vi_stock := demo_receipt 0; vi_participants := [demo_receipt 1; demo_receipt 2] |}, demo_input_client).
Proof. vm_compute. reflexivity. Qed.

End demo.
