(* ===== verification/Replacement.v ===== *)
(** * Fee replacement of solo anchors

    Models [crates/opencsv-bitcoin/src/replacement.rs]: the pure validation of a
    replacement before it is signed, and what it preserves of the anchor. *)

From S2P Require Import Prelude Field Commitments Kernel Anchor Batch Chain Accept Wire Block Bitcoin.
From S2P Require Import Network Peer FullScan Scan BatchV2 BatchDemo.

Inductive SoloReplacementRejection :=
  | OriginalLayout | ReplacementLayout | FundingInputsChanged | NotReplaceable | RecordChanged
  | MarkerChanged | ChangeScriptChanged | ChangeRemovedOrDust | FeeNotIncreased.

Definition code (r : SoloReplacementRejection) : string :=
  match r with
  | OriginalLayout => "original_layout"
  | ReplacementLayout => "replacement_layout"
  | FundingInputsChanged => "funding_inputs_changed"
  | NotReplaceable => "not_replaceable"
  | RecordChanged => "record_changed"
  | MarkerChanged => "marker_changed"
  | ChangeScriptChanged => "change_script_changed"
  | ChangeRemovedOrDust => "change_removed_or_dust"
  | FeeNotIncreased => "fee_not_increased"
  end.

Record SoloReplacementReceipt := { fee_increment_sats : Z; replacement_change_sats : Z }.

Section replacement.
Context `{BitcoinLib}.

Definition output_at (t : BtcTx) (i : nat) : TxOut :=
  nth i (btx_output t) {| tx_value := 0; script_pubkey := [] |}.

(** The indexing is in range: there are three outputs. *)
Definition validate_layout (t : BtcTx) : result () () :=
  ensure (negb (bool_decide (btx_input t = [])) && bool_decide (length (btx_output t) = 3%nat)) tt;;
  let record := output_at t 0 in
  ensure ((tx_value record =? 0) && bool_decide (length (script_pubkey record) = 66%nat) &&
          bool_decide (nth 0 (script_pubkey record) x00 = x6a) &&
          bool_decide (nth 1 (script_pubkey record) x00 = x40)) tt;;
  let marker := output_at t 1 in
  ensure ((tx_value marker =? MARKER_DUST_SATS) && bool_decide (script_pubkey marker = MARKER_SPK)) tt;;
  ensure (negb (is_op_return (script_pubkey (output_at t 2)))) tt.

Definition map_err {E F A} (r : result E A) (e : F) : result F A :=
  match r with Ok a => Ok a | Err _ => Err e end.

Definition same_input (io : BtcTxIn * BtcTxIn) : bool :=
  bool_decide (previous_output io.1 = previous_output io.2) && (bi_sequence io.1 =? bi_sequence io.2) &&
  bool_decide (bi_script_sig io.1 = bi_script_sig io.2).

Definition validate_solo_anchor_replacement (original replaced : BtcTx)
  : result SoloReplacementRejection SoloReplacementReceipt :=
  map_err (validate_layout original) OriginalLayout;;
  map_err (validate_layout replaced) ReplacementLayout;;
  ensure ((btx_version original =? btx_version replaced) && (btx_lock_time original =? btx_lock_time replaced) &&
          negb (bool_decide (length (btx_input replaced) < length (btx_input original))%nat) &&
          forallb same_input (zip (btx_input original) (btx_input replaced))) FundingInputsChanged;;
  ensure (distinct (previous_output <$> btx_input replaced)) FundingInputsChanged;;
  ensure (forallb (λ i, bi_sequence i =? ENABLE_RBF_NO_LOCKTIME) (btx_input original ++ btx_input replaced))
    NotReplaceable;;
  ensure (bool_decide (output_at original 0 = output_at replaced 0)) RecordChanged;;
  ensure (bool_decide (output_at original 1 = output_at replaced 1)) MarkerChanged;;
  ensure (bool_decide (script_pubkey (output_at original 2) = script_pubkey (output_at replaced 2)))
    ChangeScriptChanged;;
  let old_change := tx_value (output_at original 2) in
  let new_change := tx_value (output_at replaced 2) in
  ensure (negb (new_change <? minimal_non_dust (script_pubkey (output_at replaced 2)))) ChangeRemovedOrDust;;
  increment ← ok_or (increment ← checked_sub64 old_change new_change;
                     if increment >? 0 then Some increment else None) FeeNotIncreased;
  Ok {| fee_increment_sats := increment; replacement_change_sats := new_change |}.
End replacement.

(** ** Lemmas *)
Section lemmas.
Context `{Poseidon, Sha256, BitcoinLib}.

(** What a transaction pays its miner, given the values of what it spends. *)
Definition fee_paid (value_of : OutPoint → Z) (t : BtcTx) : Z :=
  sumZ (value_of <$> (previous_output <$> btx_input t)) - sumZ (tx_value <$> btx_output t).

Lemma layout_shape t : validate_layout t = Ok tt → ∃ data change,
  btx_input t ≠ [] ∧ length data = 64%nat ∧ is_op_return (script_pubkey change) = false ∧
  btx_output t = [{| tx_value := 0; script_pubkey := anchor_script data |};
    {| tx_value := MARKER_DUST_SATS; script_pubkey := MARKER_SPK |}; change].
Proof.
  unfold validate_layout, output_at. intros E. apply bind_Ok in E as ([] & E1 & E).
  apply bind_Ok in E as ([] & E2 & E). apply bind_Ok in E as ([] & E3 & E).
  apply ensure_Ok in E1, E2, E3, E. bool_props.
  destruct (btx_output t) as [|[v r] [|[w k] [|c [|]]]]; cbn in *; try done; try lia. subst.
  destruct r as [|b0 [|b1 data]]; cbn in *; try done; try lia. subst.
  exists data, c. split_and!; [done|lia|done|]. done.
Qed.

Lemma same_prefix (ins outs : list BtcTxIn) : (length ins ≤ length outs)%nat →
  forallb same_input (zip ins outs) = true →
  ∃ more, previous_output <$> outs = (previous_output <$> ins) ++ (previous_output <$> more).
Proof.
  revert outs; induction ins as [|i ins IH]; intros outs HL Hf; [by exists outs|].
  destruct outs as [|o outs]; cbn in HL; [lia|]. cbn in Hf. apply andb_true_iff in Hf as [Hs Hf].
  destruct (IH outs ltac:(lia) Hf) as [more Em]. exists more. unfold same_input in Hs. cbn in Hs. bool_props.
  rewrite !fmap_cons, Em. cbn. by f_equal.
Qed.

Lemma chain_prevs t : prev <$> inputs (chain_tx t) = previous_output <$> btx_input t.
Proof. unfold chain_tx. cbn [inputs]. by rewrite <- list_fmap_compose. Qed.

(** The inversion of an accepted replacement. *)
Lemma accepted_replacement t t' r : validate_solo_anchor_replacement t t' = Ok r →
  ∃ data old new more, length data = 64%nat ∧
  previous_output <$> btx_input t' = (previous_output <$> btx_input t) ++ (previous_output <$> more) ∧
  NoDup (previous_output <$> btx_input t') ∧ btx_input t ≠ [] ∧
  btx_output t = [{| tx_value := 0; script_pubkey := anchor_script data |};
    {| tx_value := MARKER_DUST_SATS; script_pubkey := MARKER_SPK |}; old] ∧
  btx_output t' = [{| tx_value := 0; script_pubkey := anchor_script data |};
    {| tx_value := MARKER_DUST_SATS; script_pubkey := MARKER_SPK |}; new] ∧
  script_pubkey new = script_pubkey old ∧ minimal_non_dust (script_pubkey new) ≤ tx_value new ∧
  0 < fee_increment_sats r ∧ tx_value old = tx_value new + fee_increment_sats r ∧
  replacement_change_sats r = tx_value new.
Proof.
  unfold validate_solo_anchor_replacement, map_err. intros E.
  destruct (validate_layout t) as [[]|] eqn:L1; [|done].
  destruct (validate_layout t') as [[]|] eqn:L2; [|done]. cbn [mbind result_bind] in E.
  apply layout_shape in L1 as (data & old & Hne & HL & _ & Eo).
  apply layout_shape in L2 as (data' & new & _ & _ & _ & En).
  apply bind_Ok in E as ([] & Ein%ensure_Ok & E). apply bind_Ok in E as ([] & Edup%ensure_Ok & E).
  apply bind_Ok in E as ([] & _ & E). apply bind_Ok in E as ([] & Erec%ensure_Ok & E).
  apply bind_Ok in E as ([] & _ & E). apply bind_Ok in E as ([] & Espk%ensure_Ok & E).
  apply bind_Ok in E as ([] & Edust%ensure_Ok & E). apply bind_Ok in E as (inc & Ei%ok_or_Ok & [= <-]).
  unfold output_at in *. rewrite Eo, En in *. cbn [nth] in *.
  apply bool_decide_eq_true in Erec, Espk. injection Erec as Erec. subst data'.
  apply andb_true_iff in Ein as [Ein Ezip]. apply andb_true_iff in Ein as [_ Elen]. bool_props.
  apply bind_Some in Ei as (d & Hd & Ei). unfold checked_sub64 in Hd. case_decide; [|done].
  injection Hd as <-. rewrite Z.gtb_ltb in Ei. destruct (0 <? _) eqn:Epos in Ei; [|done].
  injection Ei as <-. bool_props.
  destruct (same_prefix (btx_input t) (btx_input t')) as [more Em]; [lia|done|].
  exists data, old, new, more. cbn [fee_increment_sats replacement_change_sats].
  split_and!; try done; try lia. by apply distinct_NoDup.
Qed.

Lemma coinbase_prevs tx : is_coinbase tx =
  match prev <$> inputs tx with
  | [o] => bool_decide (op_txid o = zeros 32) && (vout o =? 0xffffffff)
  | _ => false
  end.
Proof. unfold is_coinbase. by destruct (inputs tx) as [|i [|]]. Qed.

(** Binding of a transaction whose first output is an unbatched record. *)
Lemma solo_binds tx data outs nf : length data = 64%nat →
  outputs tx = {| tx_value := 0; script_pubkey := anchor_script data |} :: outs →
  is_batch_header (record_from_bytes data) = false →
  tx_binds tx nf ↔ is_coinbase tx = false ∧ ∃ o, head (prev <$> inputs tx) = Some o ∧
    well_formed (record_from_bytes data) (funding_ctx (op_txid o) (vout o)) nf = true.
Proof.
  intros HL Eo Hb. unfold tx_binds. rewrite Eo. cbn [find_map script_pubkey op_return_payload anchor_script].
  cbn [mbind option_bind]. rewrite bool_decide_eq_true_2 by done. apply and_iff_compat_l. split.
  - intros (i & payload & Hi & [= <-] & [Hw|(w & v & env & _ & _ & [k Hk])]).
    + exists (prev i). split; [|done]. by destruct (inputs tx); [|injection Hi as ->].
    + apply versioned_index in Hk as [Hk _]. congruence.
  - intros (o & Ho & Hw). destruct (inputs tx) as [|i ins]; [done|]. injection Ho as <-. eauto 7.
Qed.

(** An accepted replacement is the same anchor at a higher fee: it carries the same
    record under the same context, so an unbatched record binds exactly the
    nullifiers it bound before; it keeps the marker and the change script with
    non-dust change; it spends the original outputs and possibly more, none twice;
    and whatever the spent outputs are worth it pays strictly more - by the
    reported increment plus the value of every appended input. *)
Theorem replacement_keeps_anchor t t' r : validate_solo_anchor_replacement t t' = Ok r →
  (∃ more, previous_output <$> btx_input t' = (previous_output <$> btx_input t) ++ more ∧
    (∀ value_of, (∀ o, 0 ≤ value_of o) →
      fee_paid value_of t' = fee_paid value_of t + fee_increment_sats r + sumZ (value_of <$> more) ∧
      fee_paid value_of t < fee_paid value_of t')) ∧
  NoDup (previous_output <$> btx_input t') ∧
  take 2 (btx_output t') = take 2 (btx_output t) ∧ length (btx_output t') = 3%nat ∧
  minimal_non_dust (script_pubkey (output_at t' 2)) ≤ tx_value (output_at t' 2) ∧
  script_pubkey (output_at t' 2) = script_pubkey (output_at t 2) ∧
  (is_coinbase (chain_tx t) = false →
   (∀ data, op_return_payload (script_pubkey (output_at t 0)) = Some data →
      is_batch_header (record_from_bytes data) = false) →
   ∀ nf, tx_binds (chain_tx t') nf ↔ tx_binds (chain_tx t) nf).
Proof.
  intros (data & old & new & more & HL & Hp & Hnd & Hne & Eo & En & Hspk & Hdust & Hinc & Hval & _)%accepted_replacement.
  split.
  { exists (previous_output <$> more). split; [done|]. intros value_of Hpos.
    assert (0 ≤ sumZ (value_of <$> (previous_output <$> more))) as Hmore.
    { clear -Hpos. induction more as [|i more IH]; [done|]. unfold sumZ in *. cbn [fmap list_fmap foldr].
      specialize (Hpos (previous_output i)). lia. }
    unfold fee_paid. rewrite Hp, Eo, En, fmap_app, sumZ_app. unfold sumZ in *.
    cbn [fmap list_fmap foldr tx_value]. lia. }
  split; [done|]. unfold output_at. rewrite Eo, En. cbn [nth]. split; [done|]. split; [done|]. split; [done|].
  split; [done|]. intros Hcb Hsolo nf.
  assert (is_batch_header (record_from_bytes data) = false) as Hb.
  { apply Hsolo. cbn. by rewrite bool_decide_eq_true_2. }
  rewrite (solo_binds (chain_tx t') data _ nf HL En Hb), (solo_binds (chain_tx t) data _ nf HL Eo Hb).
  rewrite !coinbase_prevs, !chain_prevs in *. rewrite Hp.
  destruct (btx_input t) as [|i ins]; [done|]. cbn [fmap list_fmap app head] in *.
  destruct ins as [|i2 ins]; cbn [fmap list_fmap app] in *; [|done].
  destruct (previous_output <$> more) as [|o os]; [done|]. by rewrite Hcb.
Qed.
End lemmas.

(** ** Witness: a replacement that appends a fee input *)
Section demo.
#[local] Existing Instances demo_sponge small_sha256 demo_bitcoin.

Definition demo_anchor (more : list BtcTxIn) (change : Z) : BtcTx := {|
  btx_version := 2; btx_lock_time := 0; btx_input := unsigned_input (demo_out 0) :: more;
  btx_output := [{| tx_value := 0; script_pubkey := anchor_script (replicate 64 x07) |};
    {| tx_value := MARKER_DUST_SATS; script_pubkey := MARKER_SPK |};
    {| tx_value := change; script_pubkey := [x00; x14] ++ replicate 20 x03 |}] |}.

Lemma replacement_keeps_anchor_witness :
  fee_paid (λ _, 5000) (demo_anchor [unsigned_input (demo_out 1)] 1500) =
  fee_paid (λ _, 5000) (demo_anchor [] 2298) + 798 + 5000.
Proof.
  assert (validate_solo_anchor_replacement (demo_anchor [] 2298) (demo_anchor [unsigned_input (demo_out 1)] 1500) =
    Ok {| fee_increment_sats := 798; replacement_change_sats := 1500 |}) as E by (vm_compute; reflexivity).
  destruct (proj1 (replacement_keeps_anchor _ _ _ E)) as (more & Em & Hf).
  pose proof (app_inv_head [demo_out 0] [demo_out 1] more Em) as E1. subst more. destruct (Hf (λ _, 5000)) as [-> _]; [intros; lia|reflexivity].
Defined.
End demo.
