(* ===== verification/FeeModel.v ===== *)
(** * The fee comparison of solo anchors and batches (opencsv-bitcoin)

    fee_model.rs: the largest signed size of a solo anchor, built as a transaction
    and weighed, and the estimate that compares separate anchors with one batch.
    The theorems give the estimate in closed form, so that its checked arithmetic
    never overflows, and tie it to what the batch builder charges. *)

From S2P Require Import Prelude Field Commitments Kernel Anchor Batch Chain Accept Wire Block Bitcoin.
From S2P Require Import Network Peer FullScan Scan BatchV2 BatchDemo BatchRules BatchWeight.
#[local] Open Scope Z_scope.

Inductive FeeModelError := InvalidParticipantCount | ZeroFeerate | ArithmeticOverflow.

Record FeeEstimate := {
  fe_participants : Z;
  fe_feerate_sat_vb : Z;
  solo_max_vbytes : Z;
  batch_max_vbytes : Z;
  marker_sats_per_transaction : Z;
  solo_miner_fee_total : Z;
  batch_miner_fee : Z;
  solo_total_charge : Z;
  batch_total_charge : Z;
  solo_minus_batch_sats : Z;
  batch_charge_floor : Z;
  batch_charge_ceiling : Z;
}.

Section model.
Context `{BitcoinLib, Ecdsa}.

(** One P2WPKH input with the longest witness, and the record, marker and change
    outputs. *)
Definition solo_anchor_tx : BtcTx := {|
  btx_version := VERSION_TWO; btx_lock_time := 0;
  btx_input := [{| previous_output := outpoint_null; bi_script_sig := [];
                   bi_sequence := ENABLE_RBF_NO_LOCKTIME; bi_witness := [zeros 73; zeros 33] |}];
  btx_output := [{| tx_value := 0; script_pubkey := new_op_return (zeros 64) |};
                 {| tx_value := MARKER_DUST_SATS; script_pubkey := MARKER_SPK |};
                 {| tx_value := 0; script_pubkey := [x00; x14] ++ zeros 20 |}];
|}.
Definition solo_max_signed_weight : Z := btx_weight solo_anchor_tx.

Definition fee_mul (a b : Z) : result FeeModelError Z := ok_or (checked_mul64 a b) ArithmeticOverflow.
Definition fee_add (a b : Z) : result FeeModelError Z := ok_or (checked_add64 a b) ArithmeticOverflow.

Definition estimate (participants feerate_sat_vb : Z) : result FeeModelError FeeEstimate :=
  ensure (negb (feerate_sat_vb =? 0)) ZeroFeerate;;
  batch_weight ← match max_signed_weight participants with
                 | Ok w => Ok w | Err _ => Err InvalidParticipantCount end;
  let solo_max := div_ceil solo_max_signed_weight 4 in
  let batch_max := div_ceil batch_weight 4 in
  let rate := feerate_sat_vb in
  solo_each ← fee_mul solo_max rate;
  solo_total ← fee_mul solo_each participants;
  batch_fee ← fee_mul batch_max rate;
  solo_charge_each ← fee_add solo_each MARKER_DUST_SATS;
  solo_charge ← fee_mul solo_charge_each participants;
  batch_charge ← fee_add batch_fee MARKER_DUST_SATS;
  Ok {| fe_participants := participants; fe_feerate_sat_vb := feerate_sat_vb;
        solo_max_vbytes := solo_max; batch_max_vbytes := batch_max;
        marker_sats_per_transaction := MARKER_DUST_SATS; solo_miner_fee_total := solo_total;
        batch_miner_fee := batch_fee; solo_total_charge := solo_charge; batch_total_charge := batch_charge;
        solo_minus_batch_sats := solo_charge - batch_charge;
        batch_charge_floor := batch_charge / participants;
        batch_charge_ceiling := div_ceil batch_charge participants |}.
End model.

(** ** Lemmas *)
Lemma div_ceil_bounds a b : 0 < b → 0 ≤ a → a ≤ b * div_ceil a b < a + b.
Proof.
  intros Hb Ha. unfold div_ceil. pose proof (Z.div_mod a b ltac:(lia)). pose proof (Z.mod_pos_bound a b Hb).
  destruct (Z.eqb_spec (a mod b) 0); lia.
Qed.

Lemma div_ceil_unique a b q : 0 < b → 0 ≤ a → a ≤ b * q < a + b → div_ceil a b = q.
Proof. intros Hb Ha Hq. pose proof (div_ceil_bounds a b Hb Ha). nia. Qed.

Lemma div_ceil_vbytes n : 0 ≤ n → div_ceil (423 * n + 968) 4 = max_vbytes n.
Proof.
  intros Hn. unfold max_vbytes. pose proof (Z.div_mod (423 * n + 968 + 3) 4 ltac:(lia)).
  pose proof (Z.mod_pos_bound (423 * n + 968 + 3) 4 ltac:(lia)). apply div_ceil_unique; lia.
Qed.

Lemma max_vbytes_bounds n : 423 * n + 968 ≤ 4 * max_vbytes n < 423 * n + 972.
Proof.
  unfold max_vbytes. pose proof (Z.div_mod (423 * n + 968 + 3) 4 ltac:(lia)).
  pose proof (Z.mod_pos_bound (423 * n + 968 + 3) 4 ltac:(lia)). lia.
Qed.

Section theorems.
Context `{BitcoinLaws, Ecdsa, !WeightLaws _ _}.

Lemma solo_weight : solo_max_signed_weight = 911.
Proof.
  unfold solo_max_signed_weight. rewrite weight_law.
  assert (length (serialize_legacy (chain_tx solo_anchor_tx)) = 200%nat) as ->; [|reflexivity].
  unfold solo_anchor_tx. rewrite op_return_bytes by done. vm_compute. reflexivity.
Qed.

Lemma max_signed_weight_eq n : max_signed_weight n =
  if bool_decide (1 ≤ n ≤ 64) then Ok (423 * n + 968) else max_signed_weight n.
Proof.
  case_bool_decide as Hn; [|done]. unfold max_signed_weight, MAX_BATCH_V2_PARTICIPANTS.
  rewrite !(proj2 (Z.leb_le _ _)) by lia. unfold checked_mul64, checked_add64, u64_max.
  rewrite decide_True by lia. cbn [mbind option_bind]. by rewrite decide_True by lia.
Qed.

(** The estimate in closed form. *)
Definition estimate_of (n f : Z) : FeeEstimate :=
  {| fe_participants := n; fe_feerate_sat_vb := f; solo_max_vbytes := 228; batch_max_vbytes := max_vbytes n;
     marker_sats_per_transaction := 546; solo_miner_fee_total := 228 * f * n; batch_miner_fee := fee_of n f;
     solo_total_charge := (228 * f + 546) * n; batch_total_charge := total_of n f;
     solo_minus_batch_sats := (228 * f + 546) * n - total_of n f;
     batch_charge_floor := total_of n f / n; batch_charge_ceiling := div_ceil (total_of n f) n |}.

Lemma estimate_closed n f : is_u32 f → estimate n f =
  if f =? 0 then Err ZeroFeerate else if bool_decide (1 ≤ n ≤ 64) then Ok (estimate_of n f)
  else Err InvalidParticipantCount.
Proof.
  unfold is_u32, u32_max. intros Hf. unfold estimate. destruct (Z.eqb_spec f 0) as [|Hne]; [done|].
  cbn [negb ensure mbind result_bind]. rewrite max_signed_weight_eq. case_bool_decide as Hn.
  - cbn [mbind result_bind]. rewrite solo_weight, div_ceil_vbytes by lia. change (div_ceil 911 4) with 228.
    pose proof (max_vbytes_bounds n) as Hv. pose proof (fee_of_nonneg n f ltac:(lia) ltac:(lia)) as Hfee.
    assert (fee_of n f ≤ 7011 * f) as Hmax by (unfold fee_of; nia).
    assert (0 ≤ f * n ≤ 64 * 4294967295) as Hfn by nia.
    unfold fee_mul, fee_add, checked_mul64, checked_add64, u64_max, MARKER_DUST_SATS.
    rewrite decide_True by nia. cbn [ok_or mbind result_bind].
    rewrite decide_True by nia. cbn [ok_or mbind result_bind].
    assert (max_vbytes n * f = fee_of n f) as -> by (unfold fee_of; lia).
    rewrite decide_True by lia. cbn [ok_or mbind result_bind].
    rewrite decide_True by nia. cbn [ok_or mbind result_bind].
    rewrite decide_True by nia. cbn [ok_or mbind result_bind].
    rewrite decide_True by lia. reflexivity.
  - destruct (max_signed_weight n) as [w|e] eqn:E; [|done]. apply max_signed_weight_Ok in E. lia.
Qed.

Lemma vbytes_grow n : max_vbytes n < max_vbytes (n + 1) ≤ max_vbytes n + 106.
Proof. pose proof (max_vbytes_bounds n). pose proof (max_vbytes_bounds (n + 1)). lia. Qed.

(** The fee estimate is total on every input of its types: a zero feerate and a
    participant count outside 1 to 64 are the only errors, no 32-bit feerate overflows
    the checked arithmetic, a solo anchor costs 228 vbytes and a marker, batching is
    dearer for one participant and cheaper for any larger number, and both the
    batch's charge and the saving grow strictly with every further participant. *)
Theorem estimate_exact n f : is_u32 f →
  match estimate n f with
  | Err e => (f = 0 ∧ e = ZeroFeerate) ∨ (f ≠ 0 ∧ ¬ 1 ≤ n ≤ 64 ∧ e = InvalidParticipantCount)
  | Ok r => f ≠ 0 ∧ 1 ≤ n ≤ 64 ∧
    solo_total_charge r = n * (228 * f + 546) ∧ batch_total_charge r = total_of n f ∧
    solo_minus_batch_sats r = solo_total_charge r - batch_total_charge r ∧
    (0 < solo_minus_batch_sats r ↔ 2 ≤ n) ∧
    (n < 64 → ∃ r', estimate (n + 1) f = Ok r' ∧ batch_total_charge r < batch_total_charge r' ∧
                    solo_minus_batch_sats r < solo_minus_batch_sats r')
  end.
Proof.
  intros Hf. rewrite !estimate_closed by done. pose proof Hf as Hr. unfold is_u32, u32_max in Hr.
  destruct (Z.eqb_spec f 0) as [|Hne]; [by left|]. case_bool_decide as Hn; [|by right].
  pose proof (max_vbytes_bounds n). pose proof (vbytes_grow n).
  cbn [estimate_of solo_total_charge batch_total_charge solo_minus_batch_sats].
  split_and!; [done|lia|lia|lia|done|done| |].
  - unfold total_of, fee_of, MARKER_DUST_SATS. split; [|nia]. intros Hs. destruct (decide (n = 1)) as [->|]; [|lia].
    change (max_vbytes 1) with 348 in Hs. lia.
  - intros Hlt. rewrite bool_decide_eq_true_2 by lia. eexists. split; [reflexivity|].
    cbn [estimate_of solo_total_charge batch_total_charge solo_minus_batch_sats].
    unfold total_of, fee_of, MARKER_DUST_SATS. nia.
Qed.
End theorems.

Section manifests.
Context `{PoseidonLaws, Sha256Laws, BitcoinLaws, EcdsaLaws, !WeightLaws _ _}.

(** The estimate is what a batch really charges: a manifest built at a feerate
    for its participants pays the estimated miner fee and total charge, and every
    participant's share lies between the estimated floor and ceiling. *)
Theorem estimate_predicts_manifest p cs epoch f m : is_u32 f → build_at p cs epoch f = Ok m → f ≠ 0 →
  ∃ r, estimate (Z.of_nat (length (commitments m))) f = Ok r ∧
    miner_fee m = batch_miner_fee r ∧ total_charge m = batch_total_charge r ∧
    max_weight m ≤ 4 * batch_max_vbytes r ∧
    ∀ k charge, charges m !! k = Some charge → batch_charge_floor r ≤ charge ≤ batch_charge_ceiling r.
Proof.
  intros Hf E Hne. pose proof Hf as [Hf0 _]. apply build_at_Ok in E as (spk & record & chs & vals & B & ->); [|done].
  pose proof (bd_range _ _ _ _ _ _ _ B) as Hn. pose proof (bd_allocate _ _ _ _ _ _ _ B) as Hal.
  cbn [built commitments]. rewrite length_sort. set (n := Z.of_nat (length cs)) in *.
  exists (estimate_of n f). rewrite estimate_closed by done.
  rewrite (proj2 (Z.eqb_neq _ _) Hne), bool_decide_eq_true_2 by lia. split_and!; [done..| |].
  - cbn [built max_weight estimate_of batch_max_vbytes]. pose proof (max_vbytes_bounds n). lia.
  - intros k charge Hk. cbn [built charges] in Hk. cbn [estimate_of batch_charge_floor batch_charge_ceiling].
    pose proof (allocate_lengths _ _ _ _ _ _ Hal) as [HL _].
    destruct (lookup_lt_is_Some_2 (sort_commitments cs) k) as [c Hc].
    { rewrite <- HL. by eapply lookup_lt_Some. }
    destruct (allocate_entries _ _ _ _ _ _ Hal) as (_ & _ & He).
    destruct (He k c Hc) as (ch & v & Hch & _ & Es & _). rewrite Hch in Hk. injection Hk as ->.
    rewrite Es. unfold share_of, div_ceil. fold n. pose proof (Z.mod_pos_bound (total_of n f) n ltac:(lia)).
    destruct (Z.eqb_spec (total_of n f mod n) 0), (Z.ltb_spec (0 + Z.of_nat k) (total_of n f mod n)); lia.
Qed.
End manifests.

(** ** Witnesses: the vectors of the sources and a built manifest *)
Section demo.
#[local] Existing Instances demo_sponge demo_sponge_laws small_sha256d small_sha256 small_sha256_laws.
#[local] Existing Instances demo_bitcoin demo_bitcoin_laws demo_ecdsa demo_ecdsa_laws demo_weight_laws.

Lemma estimate_exact_witness : ∃ r, estimate 4 3 = Ok r ∧
  solo_total_charge r = 4920 ∧ batch_total_charge r = 2541 ∧ 0 < solo_minus_batch_sats r.
Proof.
  pose proof (estimate_exact 4 3 ltac:(by unfold is_u32)) as H1'.
  destruct (estimate 4 3) as [r|e].
  - destruct H1' as (_ & _ & E1 & E2 & _ & Hs & _). exists r. split_and!; [done|by rewrite E1|by rewrite E2|by apply Hs].
  - exfalso. destruct H1' as [[? _]|(_ & Hn & _)]; [done|by apply Hn].
Defined.

Lemma estimate_predicts_manifest_witness : ∃ r,
  estimate (Z.of_nat (length (commitments demo_manifest))) (feerate_sat_vb demo_manifest) = Ok r ∧
  total_charge demo_manifest = batch_total_charge r.
Proof.
  destruct (estimate_predicts_manifest demo_proposal (commitments demo_manifest) (replacement_epoch demo_manifest)
    (feerate_sat_vb demo_manifest) demo_manifest) as (r & E & _ & Ht & _).
  - apply (bool_decide_unpack _). vm_compute. exact I.
  - apply manifest_validate_Ok. exact demo_valid.
  - apply (bool_decide_unpack _). vm_compute. exact I.
  - exists r. split; [exact E|exact Ht].
Defined.
End demo.
