(* ===== verification/BatchV1.v ===== *)
(** * Batches of the first version on a node (opencsv-bitcoin)

    batch.rs: the anyone-can-spend funding output of a batch size, its creation
    and tracking, and the transaction a coordinator assembles, funds, checks and
    broadcasts.  The theorems say what the broadcast bytes are as a transaction,
    what id the backend records for it, and that the scans find every payload. *)

From S2P Require Import Prelude Text Field Commitments Kernel Anchor Batch Chain Accept Wire Block.
From S2P Require Import Network Peer HeaderChain FullScan Scan ScanFile Bitcoin Bech32 Rpc NodeChain.
#[local] Open Scope Z_scope.

Definition BATCH_FUNDING_SATS : Z := 100000.
Definition FALLBACK_FEE_RATE : Z := 1.
Definition MARKER_DUST : Z := 546.

(** A number as a double, printed with eight decimals: JSON numbers keep their text
    and the conversion is the parser's. *)
Class FloatText := f64_text : Value → option rstring.

(** The arithmetic of a release build. *)
Definition wrap64 (z : Z) : Z := z mod 2 ^ 64.

Definition drop_script (payload_count : nat) : bytes := replicate (Datatypes.S payload_count) x75 ++ [x51].

(** [format!("{frac:0<8}")]: padded on the right. *)
Definition pad_right (n : nat) (c : Z) (s : rstring) : rstring := s ++ replicate (n - length s) c.

Definition btc_to_sats `{FloatText} (value : Value) : result stop Z :=
  text ← ok_or (match as_str value with Some s => Some s | None => f64_text value end)
               (Raise (NMalformed "amount is not a number"));
  let '(whole, frac) := default (text, []) (split_once 46 text) in
  ensure (bool_decide (length (utf8 frac) ≤ 8)%nat) (Raise (NMalformed "amount exceeds 8 decimals"));;
  whole ← ok_or (parse_u64 whole) (Raise (NMalformed "amount"));
  frac ← ok_or (parse_u64 (pad_right 8 48 frac)) (Raise (NMalformed "amount"));
  Ok (wrap64 (whole * 100000000 + frac)).

(** ** The transaction *)
Definition serialize_batch_tx (outpoint : OutPoint) (record : bytes) (change_sats : Z) (change_spk : bytes)
  (witness_items : list bytes) : bytes :=
  write_i32 2 ++ [x00; x01] ++
  write_varint 1 ++ op_txid outpoint ++ le_bytes 4 (vout outpoint) ++ write_varint 0 ++ le_bytes 4 0xffffffff ++
  write_varint 3 ++
  le_bytes 8 0 ++ write_varbytes ([x6a; x40] ++ record) ++
  le_bytes 8 MARKER_DUST ++ write_varbytes MARKER_SPK ++
  le_bytes 8 change_sats ++ write_varbytes change_spk ++
  write_varint (Z.of_nat (length witness_items)) ++ concat (write_varbytes <$> witness_items) ++
  le_bytes 4 0.

(** The size of the witness as the code counts it: one byte for every length. *)
Definition witness_region (witness_items : list bytes) : nat :=
  (1 + list_sum ((λ i, 1 + length i) <$> witness_items))%nat.

Definition batch_tx_parts (outpoint : OutPoint) (record : bytes) (change_sats : Z) (change_spk : bytes)
  (witness_items : list bytes) : bytes * nat * nat :=
  let tx := serialize_batch_tx outpoint record change_sats change_spk witness_items in
  let region := witness_region witness_items in
  (tx, length tx - 2 - region, region)%nat.

Definition strip_witness (tx : bytes) (base : nat) : bytes :=
  take 4 tx ++ take (base - 4 - 4) (drop 6 tx) ++ drop (length tx - 4) tx.

Record MarkerUtxo := { mu_outpoint : OutPoint; mu_sats : Z }.

(** ** Lemmas: the layout *)

(** The transaction the bytes encode. *)
Definition batch_transaction (outpoint : OutPoint) (record : bytes) (change_sats : Z) (change_spk : bytes)
  (witness_items : list bytes) : Transaction := {|
  tx_version := 2;
  inputs := [{| prev := outpoint; script_sig := []; sequence := 0xffffffff |}];
  outputs := [{| tx_value := 0; script_pubkey := anchor_script record |};
              {| tx_value := MARKER_DUST; script_pubkey := MARKER_SPK |};
              {| tx_value := change_sats; script_pubkey := change_spk |}];
  lock_time := 0;
  witnesses := [witness_items];
|}.

Section batch.
Context `{Poseidon, Sha256d, Sha256}.

Definition batch_funding_spk (payload_count : nat) : bytes := [x00; x20] ++ sha256 (drop_script payload_count).
Definition batch_funding_address (network : Network) (payload_count : nat) : option rstring :=
  encode_v0 (address_hrp network) (drop 2 (batch_funding_spk payload_count)).
Definition batch_sha256d (data : bytes) : bytes := sha256 (sha256 data).

Definition batch_items (payloads : list bytes) : list bytes :=
  WITNESS_MAGIC :: payloads ++ [drop_script (length payloads)].

Context {S : Type} `{!NodeEnv S, !FloatText}.
Abbreviation op := (act (NodeChain * S)).

(** ** The funding output *)
Definition find_marker_utxo (payload_count : Z) : op (option MarkerUtxo) :=
  c ← chain_state;
  match funding_utxo c payload_count with
  | None => mret None
  | Some (txid, vout) =>
    out ← node (call "gettxout" (VArray [VString (display_txid txid); jnum vout; VBool true]));
    if is_null out then mret None
    else
      value ← required (json_get out "value") (NMalformed "gettxout: no `value`");
      sats ← pure (btc_to_sats value);
      mret (Some {| mu_outpoint := {| op_txid := txid; Block.vout := vout |}; mu_sats := sats |})
  end.

(** The output of the funding transaction that pays the script of the batch size. *)
Fixpoint marker_output (spk_hex : rstring) (vout : list Value) : result stop Z :=
  match vout with
  | [] => Err (Raise (NMalformed "funding transaction is missing its marker output"))
  | output :: vout =>
    if bool_decide (and_get (json_get output "scriptPubKey") "hex" ≫= as_str = Some spk_hex) then
      ok_or (json_get output "n" ≫= as_u64) (Raise (NMalformed "vout without `n`"))
    else marker_output spk_hex vout
  end.

Definition create_marker_utxo `{!Serde} (payload_count : Z) : op MarkerUtxo :=
  c ← chain_state;
  marker ← pure (ok_or (batch_funding_address (nc_network c) (Z.to_nat payload_count)) Crash);
  let spk_hex := to_hex (batch_funding_spk (Z.to_nat payload_count)) in
  raw ← node (call_str "createrawtransaction" (VArray [VArray [];
    VArray [VObject [(marker, VNumber (lit "0.001"))]]]));
  funded ← node (call "fundrawtransaction" (VArray [VString raw; VObject []]));
  funded_hex ← required (json_get funded "hex" ≫= as_str) (NMalformed "fundrawtransaction: no `hex`");
  signed ← node (call "signrawtransactionwithwallet" (VArray [VString funded_hex]));
  (if bool_decide (json_get signed "complete" ≫= as_bool = Some true) then mret tt
   else raise (NSigningFailed (signing_error signed)));;
  signed_hex ← required (json_get signed "hex" ≫= as_str) (NMalformed "signrawtransactionwithwallet: no `hex`");
  txid_hex ← node (call_str "sendrawtransaction" (VArray [VString signed_hex]));
  tx ← node (call "decoderawtransaction" (VArray [VString signed_hex]));
  vout ← required (json_get tx "vout" ≫= as_array) (NMalformed "decoderawtransaction: no `vout`");
  n ← pure (marker_output spk_hex vout);
  txid ← pure (hash_from_rpc txid_hex);
  (if n <=? u32_max then mret tt else raise (NMalformed "vout overflow"));;
  set_funding_utxo payload_count (txid, n);;
  mret {| mu_outpoint := {| op_txid := txid; Block.vout := n |}; mu_sats := BATCH_FUNDING_SATS |}.

Definition marker_utxo_ctx `{!Serde} (payload_count : Z) : op bytes :=
  (if payload_count =? 0 then raise (NConfig "a batch carries 1–255 payloads") else mret tt);;
  found ← find_marker_utxo payload_count;
  utxo ← match found with Some utxo => mret utxo | None => create_marker_utxo payload_count end;
  mret (funding_ctx (op_txid (mu_outpoint utxo)) (vout (mu_outpoint utxo))).

(** ** Anchoring a batch *)

(** The estimate of the node, in satoshis per virtual byte; any failure is the
    fallback. *)
Definition batch_fee_rate (reply : result stop Value) : result stop Z :=
  match reply with
  | Ok r =>
    match json_get r "feerate" with
    | Some f => match btc_to_sats f with
                | Ok sats => Ok (Z.max (div_ceil sats 1000) 1) | Err _ => Ok FALLBACK_FEE_RATE end
    | None => Ok FALLBACK_FEE_RATE
    end
  | Err (Raise _) => Ok FALLBACK_FEE_RATE
  | Err Crash => Err Crash
  end.

Definition batch_fee (rate : Z) (base witness : nat) : Z :=
  let weight := Z.of_nat base * 3 + Z.of_nat (base + 2 + witness) in
  wrap64 (rate * div_ceil weight 4).

Definition batch_change (sats fee : Z) : result stop Z :=
  let spent := wrap64 (MARKER_DUST + fee) in
  ensure (spent <=? sats) (Raise (NConfig "OP_TRUE funding UTXO cannot cover marker + fee; top it up"));;
  let change := sats - spent in
  ensure (negb (change <? MARKER_DUST)) (Raise (NConfig "OP_TRUE change would be dust; top up the funding UTXO"));;
  Ok change.

Definition mempool_allows (accepted : Value) : bool :=
  match as_array accepted ≫= head with
  | Some r => default false (json_get r "allowed" ≫= as_bool)
  | None => false
  end.

Definition anchor_batch (payloads : list bytes) : op AnchorRef :=
  (if bool_decide (1 ≤ length payloads ≤ 255)%nat then mret tt
   else raise (NConfig "a batch carries 1–255 payloads"));;
  let count := Z.of_nat (length payloads) in
  found ← find_marker_utxo count;
  utxo ← required found (NConfig "no funding UTXO for this batch size; call marker_utxo_ctx first");
  let outpoint := mu_outpoint utxo in
  let ctx := funding_ctx (op_txid outpoint) (vout outpoint) in
  record ← pure (ok_or (batch_header payloads ctx) Crash);
  let record_bytes := record_to_bytes record in
  estimate ← attempt (node (call "estimatesmartfee" (VArray [jnum 6])));
  rate ← pure (batch_fee_rate estimate);
  let items := batch_items payloads in
  let change_spk := batch_funding_spk (length payloads) in
  let '(_, base, witness) := batch_tx_parts outpoint record_bytes 0 change_spk items in
  change ← pure (batch_change (mu_sats utxo) (batch_fee rate base witness));
  let '(tx, _, _) := batch_tx_parts outpoint record_bytes change change_spk items in
  let txid := batch_sha256d (strip_witness tx base) in
  accepted ← node (call "testmempoolaccept" (VArray [VArray [VString (to_hex tx)]]));
  (if mempool_allows accepted then mret tt else raise (NMalformed "batch transaction rejected by mempool"));;
  node (call_str "sendrawtransaction" (VArray [VString (to_hex tx)]));;
  set_funding_utxo count (txid, 2);;
  note_mempool txid record ctx;;
  mret (MkRef txid MEMPOOL_LOCATION).
End batch.

Section layout.
Context (outpoint : OutPoint) (record : bytes) (change : Z) (spk : bytes) (items : list bytes).
Abbreviation T := (batch_transaction outpoint record change spk items).
Abbreviation tx := (serialize_batch_tx outpoint record change spk items).

(** Inputs and outputs, which both encodings share. *)
Definition batch_body : bytes :=
  write_varint 1 ++ concat (txin_wire <$> inputs T) ++ write_varint 3 ++ concat (txout_wire <$> outputs T).

Lemma serialize_wire : tx = tx_wire true T.
Proof.
  unfold serialize_batch_tx, tx_wire, batch_transaction, txin_wire, outpoint_wire, txout_wire, stack_wire.
  cbn [tx_version inputs outputs lock_time witnesses fmap list_fmap concat prev script_sig sequence tx_value
    script_pubkey length]. change (le_bytes 1 0 ++ le_bytes 1 1 ++ ?x) with ([x00; x01] ++ x).
  change (Z.of_nat 1) with 1. change (Z.of_nat 3) with 3. change (anchor_script record) with ([x6a; x40] ++ record).
  change (write_varbytes []) with (write_varint 0). rewrite !app_nil_r, <- !app_assoc. reflexivity.
Qed.

Lemma serialize_body : tx = write_i32 2 ++ [x00; x01] ++ batch_body ++ stack_wire items ++ le_bytes 4 0.
Proof.
  rewrite serialize_wire. unfold tx_wire, batch_body. cbn [tx_version inputs outputs lock_time witnesses].
  change (le_bytes 1 0 ++ le_bytes 1 1 ++ ?x) with ([x00; x01] ++ x). cbn [length].
  cbn [batch_transaction witnesses fmap list_fmap concat]. rewrite app_nil_r, <- !app_assoc. reflexivity.
Qed.

Lemma legacy_body : serialize_legacy T = write_i32 2 ++ batch_body ++ le_bytes 4 0.
Proof. unfold serialize_legacy, batch_body. by rewrite <- !app_assoc. Qed.

(** How much the code's count falls short of the real size of the witness. *)
Lemma stripped (region extra : nat) : length (stack_wire items) = (region + extra)%nat →
  strip_witness tx (length tx - 2 - region) = write_i32 2 ++ batch_body ++ take extra (stack_wire items) ++ le_bytes 4 0.
Proof.
  intros HL. rewrite serialize_body. unfold strip_witness.
  assert (length (write_i32 2) = 4%nat) as H4 by reflexivity.
  rewrite !length_app, HL, H4, length_le_bytes. cbn [length].
  rewrite (take_app_le (write_i32 2)), <- H4, take_ge by lia. f_equal.
  rewrite drop_app_ge by (cbn; lia). cbn [Nat.sub]. change (drop _ ([x00; x01] ++ ?x)) with x at 1.
  rewrite take_app_ge by lia. rewrite <- app_assoc. f_equal.
  f_equal.
  - rewrite take_app_le by lia. f_equal. lia.
  - rewrite (app_assoc [x00; x01]), (app_assoc (_ ++ _) (stack_wire items)), (app_assoc (write_i32 2)).
    rewrite drop_app_ge by (rewrite !length_app, HL; cbn [length]; lia).
    match goal with |- drop ?n _ = _ => replace n with 0%nat by (rewrite !length_app, HL; cbn [length]; lia) end.
    done.
Qed.
End layout.

(** ** Lemmas: how large the witness is *)
Lemma witness_size_counted items : Forall (λ i, length i < 253)%nat items →
  length (concat (write_varbytes <$> items)) = list_sum ((λ i, 1 + length i)%nat <$> items).
Proof.
  induction 1 as [|i items Hi _ IH]; [done|]. rewrite !fmap_cons. cbn [concat list_sum foldr].
  change (foldr Nat.add 0%nat) with list_sum. unfold write_varbytes at 1.
  rewrite !length_app, IH, (varint_1 (Z.of_nat (length i))) by lia. lia.
Qed.

Lemma batch_witness_size payloads : Forall (λ p, length p = 24%nat) payloads → (length payloads ≤ 255)%nat →
  length (stack_wire (batch_items payloads)) =
    (witness_region (batch_items payloads) + (if bool_decide (length payloads ≤ 250)%nat then 0 else 4))%nat.
Proof.
  intros Hp Hn. unfold stack_wire, witness_region, batch_items.
  rewrite !fmap_cons, !fmap_app. cbn [concat]. change (list_sum (?a :: ?l)) with (a + list_sum l)%nat.
  rewrite list_sum_app, !length_app, concat_app, !length_app.
  rewrite (witness_size_counted payloads) by (eapply Forall_impl; [exact Hp|]; cbn; lia).
  cbn [fmap list_fmap concat list_sum fold_right length]. rewrite app_nil_r.
  assert (length (drop_script (length payloads)) = (length payloads + 2)%nat) as HL
    by (unfold drop_script; rewrite length_app, length_replicate; cbn; lia).
  unfold write_varbytes. rewrite !length_app, HL. cbn [length WITNESS_MAGIC].
  change (length (write_varint (Z.of_nat 4))) with 1%nat. case_bool_decide.
  - rewrite !varint_1 by (rewrite ?length_app; cbn [length]; lia). lia.
  - rewrite !varint_3 by (rewrite ?length_app; cbn [length]; lia). lia.
Qed.

(** The two passes have the same size, so the first pass sizes the second. *)
Lemma recorded_id o r change spk ps : Forall (λ p, length p = 24%nat) ps → (length ps ≤ 250)%nat →
  strip_witness (serialize_batch_tx o r change spk (batch_items ps))
    (length (serialize_batch_tx o r 0 spk (batch_items ps)) - 2 - witness_region (batch_items ps)) =
  serialize_legacy (batch_transaction o r change spk (batch_items ps)).
Proof.
  intros Hp Hn.
  assert (length (serialize_batch_tx o r 0 spk (batch_items ps)) =
          length (serialize_batch_tx o r change spk (batch_items ps))) as ->.
  { unfold serialize_batch_tx. generalize (batch_items ps). intros items. rewrite !length_app, !length_le_bytes. done. }
  rewrite (stripped _ _ _ _ _ _ _ (batch_witness_size ps Hp ltac:(lia))), bool_decide_eq_true_2, take_0 by done.
  by rewrite legacy_body.
Qed.

(** The id of a batch transaction: the serializer writes the BIP144 encoding of one
    input and the record, marker and change outputs, and the stripped bytes the id is
    computed from are the legacy encoding of that transaction exactly for up to 250
    payloads - beyond, a length takes three bytes where the code counts one, so the id
    the backend records belongs to no transaction. *)
Theorem batch_id_exact outpoint record change spk payloads : Forall (λ p, length p = 24%nat) payloads →
  (length payloads ≤ 255)%nat →
  let items := batch_items payloads in
  let t := batch_transaction outpoint record change spk items in
  let '(tx, base, _) := batch_tx_parts outpoint record change spk items in
  tx = tx_wire true t ∧ (strip_witness tx base = serialize_legacy t ↔ (length payloads ≤ 250)%nat).
Proof.
  intros Hp Hn items t. unfold batch_tx_parts. split; [apply serialize_wire|].
  rewrite (stripped _ _ _ _ _ _ _ (batch_witness_size payloads Hp Hn)).
  unfold t. rewrite legacy_body. case_bool_decide as Hb.
  - rewrite take_0. split; [done|done].
  - split; [|done]. intros E%(f_equal length). rewrite !length_app, length_take in E.
    rewrite (batch_witness_size payloads Hp Hn), bool_decide_eq_false_2 in E by done. subst items. lia.
Qed.

(** ** Lemmas: what the scans read of the transaction *)
Section discovery.
Context `{PoseidonLaws, Sha256d, Sha256Laws}.

Lemma v1_record ps ctx r : batch_header ps ctx = Some r → (length ps ≤ 255)%nat →
  record_wf r ∧ record_from_bytes (record_to_bytes r) = r ∧
  ∀ nf, bound ctx nf ∈ ps → is_Some (versioned_envelope_occurrence V1 r ps ctx nf).
Proof.
  unfold batch_header. case_if; [|done]. intros [= <-] Hn. clear Heqb.
  assert (record_wf (BatchHeader (Z.of_nat (length ps)) (to_anchor (batch_commit ps ctx)))) as Hw.
  { cbn. split; [unfold is_u8, u8_max; lia|]. unfold to_anchor, TRUNCATED_DIGEST_BYTES, batch_commit.
    unfold KernelHash.hash_batch, KernelHash.hash_felts.
    rewrite length_take, (length_concat_const 4), length_fmap, hash_iter_length; [cbn; lia|].
    apply Forall_fmap, Forall_forall. intros x _. apply length_le_bytes. }
  split; [done|]. split; [exact (from_to_tagged _ Hw)|]. intros nf Hin. cbn [versioned_envelope_occurrence].
  rewrite !bool_decide_eq_true_2 by done. cbn [negb orb versioned_batch_commit].
  destruct (position _ ps) as [k|] eqn:E; [by eexists|].
  apply position_None in E. rewrite Forall_forall in E. specialize (E _ Hin). by apply bool_decide_eq_false in E.
Qed.

(** An outpoint that is not the null outpoint of a coinbase. *)
Definition real_outpoint (o : OutPoint) : Prop :=
  outpoint_wf o ∧ ¬ (op_txid o = zeros 32 ∧ vout o = 0xffffffff).

Lemma v1_transaction_binds o r change spk ps nf : real_outpoint o → Forall (λ p, length p = 24%nat) ps →
  (1 ≤ length ps ≤ 255)%nat → batch_header ps (funding_ctx (op_txid o) (vout o)) = Some r →
  bound (funding_ctx (op_txid o) (vout o)) nf ∈ ps →
  tx_binds (batch_transaction o (record_to_bytes r) change spk (batch_items ps)) nf.
Proof.
  intros [Ho Hnull] Hp Hn Er Hin. destruct (v1_record _ _ _ Er ltac:(lia)) as (Hw & Hrt & Hocc).
  split.
  - unfold is_coinbase, batch_transaction. cbn [inputs prev]. apply not_true_iff_false. intros Hc. bool_props.
    by apply Hnull.
  - eexists _, (record_to_bytes r). split; [reflexivity|]. split.
    + unfold batch_transaction. cbn [outputs find_map script_pubkey]. unfold anchor_script.
      assert (op_return_payload (x6a :: x40 :: record_to_bytes r) = Some (record_to_bytes r)) as ->; [|done].
      apply op_return_payload_exact. split; [by apply length_record_to_bytes|by left].
    + cbn [prev]. right. exists (batch_items ps), V1, ps. split; [done|]. split.
      * apply witness_v1. split; [by destruct ps; [cbn in Hn; lia|]|]. split; [done|].
        by exists (drop_script (length ps)).
      * rewrite Hrt. by apply Hocc.
Qed.

(** The bytes parse as the transaction. *)
Lemma v1_transaction_wf o r change ps : outpoint_wf o → record_wf r → is_u64 change →
  (length ps ≤ 255)%nat → Forall (λ p, length p = 24%nat) ps →
  tx_wf true (batch_transaction o (record_to_bytes r) change (batch_funding_spk (length ps)) (batch_items ps)).
Proof.
  intros Ho Hr Hc Hn Hp. apply length_record_to_bytes in Hr. unfold tx_wf, batch_transaction.
  cbn [tx_version inputs outputs lock_time witnesses length].
  assert (length (batch_funding_spk (length ps)) = 34%nat) as Hs
    by (unfold batch_funding_spk; rewrite length_app, length_sha256; done).
  unfold is_i32, txin_wf, txout_wf, is_varbytes, is_u32, u32_max, is_u64, u64_max, stack_wf in *.
  rewrite !Forall_cons, Forall_nil. destruct Ho as [Ho1 Ho2]. unfold is_u32, u32_max in Ho2.
  cbn [prev script_sig sequence tx_value script_pubkey length]. change (length MARKER_SPK) with 34%nat.
  unfold anchor_script. cbn [length]. rewrite Hr, Hs. unfold MARKER_DUST, ANCHOR_SIZE.
  split; [lia|]. split; [split_and!; done || lia|]. split; [split_and!; done || lia|].
  split; [lia|]. split; [lia|]. split; [done|]. constructor; [|constructor]. unfold batch_items. split.
  - cbn [length]. rewrite length_app. cbn [length]. lia.
  - constructor; [by vm_compute|]. apply Forall_app. split.
    + eapply Forall_impl; [exact Hp|]. intros p E. unfold is_varbytes, u64_max. cbn beta in *. lia.
    + constructor; [|constructor]. unfold is_varbytes, u64_max. unfold drop_script. rewrite length_app, length_replicate. cbn [length]. lia.
Qed.
End discovery.

(** ** Anchoring *)
Section anchoring.
Context `{PoseidonLaws, Sha256d, Sha256Laws} {S : Type} `{!NodeEnv S, !FloatText}.

(** The id of the light client hashes twice. *)
Hypothesis twice : ∀ x, sha256d x = sha256 (sha256 x).

Lemma node_Ok {A} (m : act S A) (c c' : NodeChain) (s s' : S) a :
  node m (c, s) = (Ok a, (c', s')) ↔ c' = c ∧ m s = (Ok a, s').
Proof. unfold node. destruct (m s) as [r s1]. naive_solver. Qed.

Lemma btc_to_sats_u64 v z : btc_to_sats v = Ok z → is_u64 z.
Proof.
  unfold btc_to_sats. intros E. apply bind_Ok in E as (text & _ & E).
  destruct (default (text, []) (split_once 46 text)) as [w f].
  apply bind_Ok in E as ([] & _ & E). apply bind_Ok in E as (x & _ & E). apply bind_Ok in E as (y & _ & E).
  injection E as <-. unfold wrap64, is_u64, u64_max.
  pose proof (Z.mod_pos_bound (x * 100000000 + y) (2 ^ 64) ltac:(lia)). lia.
Qed.

Lemma find_marker_Ok n (c c' : NodeChain) (s s' : S) u : find_marker_utxo n (c, s) = (Ok (Some u), (c', s')) →
  c' = c ∧ nc_funding c !! n = Some (op_txid (mu_outpoint u), vout (mu_outpoint u)) ∧ is_u64 (mu_sats u).
Proof.
  unfold find_marker_utxo. intros E. apply act_bind_Ok in E as (c1 & st1 & E1 & E). injection E1 as <- <-.
  unfold funding_utxo in E. destruct (nc_funding c !! n) as [[txid vo]|] eqn:Ef; [|done].
  apply act_bind_Ok in E as (out & [c2 s2] & [-> _]%node_Ok & E). destruct (is_null out); [done|].
  apply act_bind_Ok in E as (v & [c3 s3] & Ev & E). injection Ev as _ -> ->.
  apply act_bind_Ok in E as (z & [c4 s4] & Ez & E). injection Ez as Ez -> ->.
  injection E as <- <- <-. cbn. split; [done|]. split; [done|]. by eapply btc_to_sats_u64.
Qed.

Lemma batch_change_Ok sats fee change : is_u64 sats → batch_change sats fee = Ok change →
  546 ≤ change ∧ sats = wrap64 (546 + fee) + change ∧ is_u64 change.
Proof.
  unfold batch_change, is_u64, u64_max. intros Hs E. apply bind_Ok in E as ([] & E1 & E). apply bind_Ok in E as ([] & E2 & E).
  apply ensure_Ok in E1, E2. bool_props. injection E as <-. unfold MARKER_DUST in *.
  pose proof (Z.mod_pos_bound (546 + fee) (2 ^ 64) ltac:(lia)). fold (wrap64 (546 + fee)) in *. lia.
Qed.

(** A batch the backend anchors is one transaction: it spends the tracked funding
    output of the batch size, pays the record, the marker and the change back to the same
    script, with the input less the marker and the fee, at least the dust limit, as change;
    the broadcast bytes parse as exactly that transaction; the returned reference and
    the new funding output carry its id for up to 250 payloads; and a scan of its block finds
    every nullifier bound to one of the payloads. *)
Theorem anchor_batch_sound ps (c : NodeChain) (s : S) ref c' s' : Forall (λ p, length p = 24%nat) ps →
  (∀ n txid vo, nc_funding c !! n = Some (txid, vo) → real_outpoint {| op_txid := txid; vout := vo |}) →
  anchor_batch ps (c, s) = (Ok ref, (c', s')) →
  ∃ o sats fee change record,
    let n := length ps in
    let t := batch_transaction o (record_to_bytes record) change (batch_funding_spk n) (batch_items ps) in
    nc_funding c !! Z.of_nat n = Some (op_txid o, vout o) ∧ 546 ≤ change ∧ sats = wrap64 (546 + fee) + change ∧
    tx_parse (tx_wire true t) = Ok (t, []) ∧
    (∃ s1 s2 reply, call_str "sendrawtransaction" (VArray [VString (to_hex (tx_wire true t))]) s1 = (Ok reply, s2)) ∧
    ref_location ref = MEMPOOL_LOCATION ∧
    nc_funding c' !! Z.of_nat n = Some (Chain.txid ref, 2) ∧
    ((n ≤ 250)%nat → Chain.txid ref = tx_id t) ∧
    ∀ nf, bound (funding_ctx (op_txid o) (vout o)) nf ∈ ps → tx_binds t nf.
Proof.
  intros Hp Hf E. unfold anchor_batch in E. apply act_bind_Ok in E as (u & st1 & E1 & E).
  case_bool_decide as Hn; [|done]. injection E1 as <- <-.
  apply act_bind_Ok in E as (found & [c2 s2] & E2 & E). apply act_bind_Ok in E as (utxo & st3 & E3 & E).
  destruct found as [utxo'|]; [|done]. injection E3 as -> <-. apply find_marker_Ok in E2 as (-> & Ef & Hsats).
  set (o := mu_outpoint utxo) in *. pose proof (Hf _ _ _ Ef) as Ho.
  assert ({| op_txid := op_txid o; vout := vout o |} = o) as Eo by (by destruct o). rewrite Eo in Ho.
  apply act_bind_Ok in E as (r & st4 & E4 & E). injection E4 as E4 <-.
  destruct (batch_header ps (funding_ctx (op_txid o) (vout o))) as [r'|] eqn:Er; [|done]. injection E4 as ->.
  apply act_bind_Ok in E as (est & [c5 s5] & E5 & E).
  assert (c5 = c) as -> by (unfold attempt, node in E5; destruct (call _ _ s2); by injection E5).
  apply act_bind_Ok in E as (rate & st6 & E6 & E). injection E6 as _ <-.
  set (spk := batch_funding_spk (length ps)) in *. cbn [batch_tx_parts] in E.
  apply act_bind_Ok in E as (change & st7 & E7 & E). injection E7 as E7 <-.
  set (fee := batch_fee _ _ _) in *. apply batch_change_Ok in E7 as (Hc & Hs & Hcu); [|done].
  apply act_bind_Ok in E as (acc & [c8 s8] & [-> _]%node_Ok & E).
  apply act_bind_Ok in E as (u & st9 & E9 & E). destruct (mempool_allows acc); [|done]. injection E9 as <- <-.
  apply act_bind_Ok in E as (reply & [c10 s10] & [-> E10]%node_Ok & E).
  apply act_bind_Ok in E as (u2 & [c11 s11] & E11 & E). destruct u2.
  apply act_bind_Ok in E as (u3 & [c12 s12] & E12 & E). injection E12 as _ <- <-. injection E as <- <- <-.
  exists o, (mu_sats utxo), fee, change, r. cbn zeta. fold spk.
  destruct (v1_record _ _ _ Er ltac:(lia)) as (Hw & _ & _).
  pose proof (serialize_wire o (record_to_bytes r) change spk (batch_items ps)) as Ewire.
  split; [done|]. split; [done|]. split; [done|]. split.
  { apply tx_parse_wire. exists true. rewrite app_nil_r. split; [|done]. apply v1_transaction_wf; [apply Ho|done..|lia|done]. }
  split; [rewrite <- Ewire; eauto|]. split; [done|]. split; [|split].
  - unfold set_funding_utxo in E11. apply act_bind_Ok in E11 as (u4 & [c13 s13] & E13 & E11).
    injection E13 as _ <- <-. unfold node_persist in E11. apply act_bind_Ok in E11 as (c14 & st14 & E14 & E11).
    injection E14 as <- <-. apply node_Ok in E11 as [-> _]. cbn. by rewrite lookup_insert_eq.
  - intros Hmax. cbn [Chain.txid]. unfold tx_id. rewrite twice. unfold batch_sha256d. by rewrite recorded_id.
  - intros nf Hin. eapply v1_transaction_binds; [done|done|lia|done|done].
Qed.
End anchoring.

(** ** Witnesses: a node that accepts everything *)
Section demo.
#[local] Existing Instances demo_sponge demo_sponge_laws FullScan.demo_sha256.

#[local] Instance v1_sha256d : Sha256d := λ x, sha256 (sha256 x).
#[local] Instance v1_sha256_laws : Sha256Laws FullScan.demo_sha256.
Proof. constructor. apply demo_sha_laws. Qed.
#[local] Instance v1_floats : FloatText := λ _, None.
#[local] Instance v1_node : NodeEnv () := {|
  call method _ :=
    if bool_decide (method = "gettxout") then mret (VObject [(lit "value", VString (lit "0.001"))])
    else if bool_decide (method = "testmempoolaccept") then mret (VArray [VObject [(lit "allowed", VBool true)]])
    else if bool_decide (method = "sendrawtransaction") then mret (VString [])
    else raise (NMalformed "no estimate");
  read_index _ := NoFile;
  write_index _ := mret tt;
|}.

Definition v1_outpoint : OutPoint := {| op_txid := replicate 32 x06; vout := 1 |}.
Definition v1_chain : NodeChain := {| nc_network := Regtest; nc_start := 0; nc_tip := 0; nc_scanned := None;
  nc_entries := []; nc_mempool := []; nc_markers := ∅; nc_funding := {[2 := (replicate 32 x06, 1)]} |}.
Definition v1_payloads : list bytes := [bound (funding_ctx (replicate 32 x06) 1) demo_nf; replicate 24 x01].

Lemma v1_twice (x : bytes) : sha256d x = sha256 (sha256 x).
Proof. reflexivity. Qed.

Lemma v1_anchors : is_ok (anchor_batch v1_payloads (v1_chain, ())).1 = true.
Proof. vm_compute. reflexivity. Qed.

Lemma anchor_batch_sound_witness : ∃ ref c' t,
  anchor_batch v1_payloads (v1_chain, ()) = (Ok ref, (c', ())) ∧
  Chain.txid ref = tx_id t ∧ tx_binds t demo_nf.
Proof.
  destruct (anchor_batch v1_payloads (v1_chain, ())) as [r [c' []]] eqn:E.
  assert (∃ ref, r = Ok ref) as [ref ->].
  { apply is_ok_Ok. pose proof v1_anchors as H1'. rewrite E in H1'. exact H1'. }
  destruct (anchor_batch_sound v1_twice v1_payloads v1_chain () ref c' ()) as
    (o & sats & fee & change & record & Ef & _ & _ & _ & _ & _ & _ & Hid & Hb).
  - apply (bool_decide_unpack _). vm_compute. exact I.
  - intros n txid vo Hin. change (({[2 := (replicate 32 x06, 1)]} : gmap Z (bytes * Z)) !! n = Some (txid, vo)) in Hin.
    apply lookup_singleton_Some in Hin as [<- [= <- <-]]. split; [split; [reflexivity|]|].
    + cbn. unfold is_u32, u32_max. split; discriminate.
    + intros [_ [=]].
  - exact E.
  - exists ref, c', (batch_transaction o (record_to_bytes record) change
      (batch_funding_spk (length v1_payloads)) (batch_items v1_payloads)).
    split; [reflexivity|]. split; [apply Hid; cbn; lia|]. apply Hb.
    injection Ef as <- <-. left.
Defined.

Lemma batch_id_exact_witness :
  strip_witness (batch_tx_parts v1_outpoint (zeros 64) 600 (zeros 34) (batch_items v1_payloads)).1.1
    (batch_tx_parts v1_outpoint (zeros 64) 600 (zeros 34) (batch_items v1_payloads)).1.2 =
  serialize_legacy (batch_transaction v1_outpoint (zeros 64) 600 (zeros 34) (batch_items v1_payloads)).
Proof.
  apply (batch_id_exact v1_outpoint (zeros 64) 600 (zeros 34) v1_payloads); [|cbn; lia|cbn; lia].
  apply (bool_decide_unpack _). vm_compute. exact I.
Defined.
End demo.
