(* ===== verification/Relay.v ===== *)
(** * Handing a transaction to peers (opencsv-bitcoin)

    relay.rs: the handshake after which a signed transaction is written to a peer,
    and the report over all peers.  A connection is what its peer and the network do: the
    sequence of decoded replies (or read errors) and of write outcomes, consumed in
    order, with the messages written so far. *)

From S2P Require Import Prelude Wire Block Bitcoin.
#[local] Open Scope Z_scope.

Inductive NetMessage :=
  | MVersion
  | MVerack
  | MPing (nonce : Z)
  | MPong (nonce : Z)
  | MReject
  | MTx (t : BtcTx)
  | MOther.

Inductive RelayError :=
  | RResolve | RNoAddresses | RTimeout | RWrite | RDecode | RWrongMagic | RRejected | RFlush | RNoHandshake
  | RConnect.

(** [Err] in [incoming] is a read that fails, [false] in [outcomes] a write that fails;
    a stream without further replies or outcomes is closed. *)
Record Stream := {
  incoming : list (result () (Z * NetMessage));
  outcomes : list bool;
  sent : list NetMessage;
}.

(** [write_message] *)
Definition write_message (m : NetMessage) (st : Stream) : result RelayError () * Stream :=
  match outcomes st with
  | true :: os => (Ok tt, {| incoming := incoming st; outcomes := os; sent := sent st ++ [m] |})
  | false :: os => (Err RWrite, {| incoming := incoming st; outcomes := os; sent := sent st |})
  | [] => (Err RWrite, st)
  end.

Definition read_message (st : Stream) : result RelayError (Z * NetMessage) * Stream :=
  match incoming st with
  | Ok m :: r => (Ok m, {| incoming := r; outcomes := outcomes st; sent := sent st |})
  | Err _ :: r => (Err RDecode, {| incoming := r; outcomes := outcomes st; sent := sent st |})
  | [] => (Err RDecode, st)
  end.

(** Flushing the stream takes an outcome of its own. *)
Definition flush (st : Stream) : result RelayError () * Stream :=
  match outcomes st with
  | true :: os => (Ok tt, {| incoming := incoming st; outcomes := os; sent := sent st |})
  | _ => (Err RFlush, st)
  end.

(** What a reply is answered with before the test for completion. *)
Definition answer (m : NetMessage) (st : Stream) : result RelayError () * Stream :=
  match m with
  | MVersion => write_message MVerack st
  | MPing nonce => write_message (MPong nonce) st
  | MReject => (Err RRejected, st)
  | _ => (Ok tt, st)
  end.

(** The loop over at most [n] replies. *)
Fixpoint handshake_loop (magic : Z) (t : BtcTx) (n : nat) (version verack : bool) (st : Stream)
  : result RelayError () * Stream :=
  match n with
  | O => (Err RNoHandshake, st)
  | S n =>
    match read_message st with
    | (Err e, st) => (Err e, st)
    | (Ok (m, reply), st) =>
      if bool_decide (m = magic) then
        match answer reply st with
        | (Err e, st) => (Err e, st)
        | (Ok _, st) =>
          let version := version || match reply with MVersion => true | _ => false end in
          let verack := verack || match reply with MVerack => true | _ => false end in
          if version && verack then
            match write_message (MTx t) st with
            | (Err e, st) => (Err e, st)
            | (Ok _, st) => flush st
            end
          else handshake_loop magic t n version verack st
        end
      else (Err RWrongMagic, st)
    end
  end.

Definition handshake_and_submit (magic : Z) (t : BtcTx) (st : Stream) : result RelayError () * Stream :=
  match write_message MVersion st with
  | (Err e, st) => (Err e, st)
  | (Ok _, st) => handshake_loop magic t 16 false false st
  end.

(** What connecting to one address gives: no connection, a socket that refuses its
    timeouts, or a stream. *)
Inductive Connection := Refused | NoTimeouts | Connected (st : Stream).

Fixpoint relay_addresses (magic : Z) (t : BtcTx) (sockets : list Connection) : result RelayError () :=
  match sockets with
  | [] => Err RConnect
  | Refused :: sockets => relay_addresses magic t sockets
  | NoTimeouts :: _ => Err RTimeout
  | Connected st :: _ => (handshake_and_submit magic t st).1
  end.

(** [relay_one]: [None] when the name does not resolve. *)
Definition relay_one (magic : Z) (t : BtcTx) (peer : option (list Connection)) : result RelayError () :=
  match peer with
  | None => Err RResolve
  | Some [] => Err RNoAddresses
  | Some sockets => relay_addresses magic t sockets
  end.

Record PeerRelayResult := { pr_peer : option (list Connection); submitted : bool; pr_error : option RelayError }.

Definition relay_transaction (magic : Z) (t : BtcTx) (peers : list (option (list Connection)))
  : list PeerRelayResult :=
  (λ peer, match relay_one magic t peer with
           | Ok _ => {| pr_peer := peer; submitted := true; pr_error := None |}
           | Err e => {| pr_peer := peer; submitted := false; pr_error := Some e |}
           end) <$> peers.

Definition submitted_count (report : list PeerRelayResult) : nat := length (filter (λ p, submitted p = true) report).

(** ** What a submission means *)

(** The reply with which the handshake is complete: the earliest prefix of the replies
    that holds both messages. *)
Definition shook_hands (ms : list NetMessage) : Prop := MVersion ∈ ms ∧ MVerack ∈ ms.

Definition replies (ms : list NetMessage) : list NetMessage :=
  ms ≫= λ m, match m with MVersion => [MVerack] | MPing nonce => [MPong nonce] | _ => [] end.

Lemma answer_Ok m st st' : answer m st = (Ok tt, st') →
  m ≠ MReject ∧ incoming st' = incoming st ∧ sent st' = sent st ++ replies [m].
Proof.
  unfold answer, write_message. destruct m; cbn; try (destruct (outcomes st) as [|[]]); intros E; simplify_eq; cbn;
    by rewrite ?app_nil_r.
Qed.

Lemma loop_Ok magic t n : ∀ version verack st st', version && verack = false →
  handshake_loop magic t n version verack st = (Ok tt, st') →
  ∃ ms rest, (length ms ≤ n)%nat ∧ incoming st = ((λ m, Ok (magic, m)) <$> ms) ++ rest ∧ incoming st' = rest ∧
    MReject ∉ ms ∧ (version = true ∨ MVersion ∈ ms) ∧ (verack = true ∨ MVerack ∈ ms) ∧
    sent st' = sent st ++ replies ms ++ [MTx t].
Proof.
  induction n as [|n IH]; intros version verack st st' Hb; cbn [handshake_loop]; [done|].
  unfold read_message. destruct (incoming st) as [|[[m reply]|] r] eqn:Ei; [done| |done].
  case_bool_decide as Em; [|done]. subst m.
  set (st1 := {| incoming := r; outcomes := outcomes st; sent := sent st |}).
  destruct (answer reply st1) as [[[]|] st2] eqn:Ea; [|done]. apply answer_Ok in Ea as (Hr & Hi & Hs). cbn in Hi, Hs.
  destruct ((version || _) && (verack || _)) eqn:Ed.
  - destruct (write_message (MTx t) st2) as [[[]|] st3] eqn:Ew; [|done]. unfold flush. intros Ef.
    destruct (outcomes st3) as [|[] os]; [done| |done]. injection Ef as <-.
    unfold write_message in Ew. destruct (outcomes st2) as [|[] os']; [done| |done]. injection Ew as <-. cbn.
    apply andb_true_iff in Ed as [E1%orb_true_iff E2%orb_true_iff].
    exists [reply], r. rewrite Hs, Hi. split_and!; [cbn; lia|done|done|set_solver| | |by rewrite <- app_assoc].
    + destruct E1 as [->|E1]; [by left|right]. destruct reply; try done. set_solver.
    + destruct E2 as [->|E2]; [by left|right]. destruct reply; try done. set_solver.
  - intros El. apply IH in El as (ms & rest & HL & E1 & E2 & E3 & E4 & E5 & E6); [|done].
    exists (reply :: ms), rest. rewrite E6, Hs. split_and!; [cbn; lia|by rewrite fmap_cons, <- app_comm_cons, <- E1, Hi|done|set_solver| | |].
    + destruct E4 as [E4|?]; [|right; set_solver]. apply orb_true_iff in E4 as [->|E4]; [by left|].
      right. destruct reply; try done. set_solver.
    + destruct E5 as [E5|?]; [|right; set_solver]. apply orb_true_iff in E5 as [->|E5]; [by left|].
      right. destruct reply; try done. set_solver.
    + unfold replies. cbn [mbind list_bind]. rewrite app_nil_r, <- !app_assoc. done.
Qed.

(** A peer that behaves is served. *)
Lemma loop_serves magic t ms : ∀ n version verack st rest k, (length ms ≤ n)%nat → version && verack = false →
  incoming st = ((λ m, Ok (magic, m)) <$> ms) ++ rest → outcomes st = replicate k true → (length ms + 2 ≤ k)%nat →
  MReject ∉ ms → (version = true ∨ MVersion ∈ ms) → (verack = true ∨ MVerack ∈ ms) →
  ∃ st', handshake_loop magic t n version verack st = (Ok tt, st').
Proof.
  induction ms as [|m ms IH]; intros n version verack st rest k Hn Hb Hi Ho Hk Hr H1 H2.
  { destruct H1 as [->|H1]; [|by apply elem_of_nil in H1]. destruct H2 as [->|H2]; [done|by apply elem_of_nil in H2]. }
  destruct n as [|n]; [cbn in Hn; lia|]. cbn [handshake_loop]. unfold read_message. rewrite Hi. cbn [fmap list_fmap app].
  rewrite bool_decide_eq_true_2 by done. apply not_elem_of_cons in Hr as [Hr1 Hr].
  cbn [length] in *. destruct k as [|[|[|k]]]; [lia..|]. rewrite Ho.
  assert (∃ j st2, (S (S k) ≤ j)%nat ∧
    answer m {| incoming := ((λ m, Ok (magic, m)) <$> ms) ++ rest; outcomes := replicate (S (S (S k))) true;
                sent := sent st |} = (Ok tt, st2) ∧
    incoming st2 = ((λ m, Ok (magic, m)) <$> ms) ++ rest ∧ outcomes st2 = replicate j true)
    as (j & st2 & Hj & -> & Hi2 & Ho2).
  { destruct m; cbn; try done; first [exists (S (S k)); eexists; split_and!; [lia|reflexivity|done|done]
                                     |exists (S (S (S k))); eexists; split_and!; [lia|reflexivity|done|done]]. }
  destruct ((version || _) && (verack || _)) eqn:Ed.
  - destruct j as [|[|j]]; [lia..|]. unfold write_message, flush. rewrite Ho2. cbn. by eexists.
  - destruct (IH n (version || match m with MVersion => true | _ => false end)
      (verack || match m with MVerack => true | _ => false end) st2 rest j) as [st' E]; try done; try lia.
    + destruct H1 as [->|[<-|H1]%elem_of_cons]; [by left| |by right]. left. by destruct version.
    + destruct H2 as [->|[<-|H2]%elem_of_cons]; [by left| |by right]. left. by destruct verack.
    + by exists st'.
Qed.

(** Submission is exactly a completed handshake: a transaction is reported as submitted
    only after the peer sent both a version and a verack within its first 16 replies, all with
    the magic of the network and none a rejection, and it is then the last message written,
    once; and every peer that sends both in that way, over a connection whose writes
    succeed, is handed the transaction. *)
Theorem submission_exact magic t ins outs :
  let st := {| incoming := ins; outcomes := outs; sent := [] |} in
  (∀ st', handshake_and_submit magic t st = (Ok tt, st') →
    ∃ ms, (length ms ≤ 16)%nat ∧ ((λ m, Ok (magic, m)) <$> ms) `prefix_of` ins ∧ MReject ∉ ms ∧
      shook_hands ms ∧ sent st' = MVersion :: replies ms ++ [MTx t]) ∧
  (∀ ms k, (length ms ≤ 16)%nat → ((λ m, Ok (magic, m)) <$> ms) `prefix_of` ins → MReject ∉ ms →
    shook_hands ms → outs = replicate k true → (length ms + 3 ≤ k)%nat →
    ∃ st', handshake_and_submit magic t st = (Ok tt, st')).
Proof.
  cbn zeta. unfold handshake_and_submit, write_message. cbn [outcomes incoming sent]. split.
  - intros st' E. destruct outs as [|[] os]; [done| |done].
    apply loop_Ok in E as (ms & rest & HL & Ei & _ & Hr & Hv & Ha & Es); [|done]. cbn in Ei, Es.
    exists ms. split; [done|]. split; [by exists rest|]. split; [done|]. split; [|done].
    split; [by destruct Hv|by destruct Ha].
  - intros ms k HL [rest Ei] Hr [Hv Ha] -> Hk. destruct k as [|k]; [lia|]. cbn [replicate].
    eapply (loop_serves magic t ms 16 false false _ rest k); cbn; try done; [lia|by right|by right].
Qed.

(** The report counts the peers that were served, each on its own. *)
Lemma submitted_count_spec magic t peers :
  submitted_count (relay_transaction magic t peers) =
  length (filter (λ p, is_ok (relay_one magic t p) = true) peers).
Proof.
  unfold submitted_count, relay_transaction. induction peers as [|p peers IH]; [done|].
  rewrite fmap_cons, !filter_cons. destruct (relay_one magic t p) as [[]|e]; cbn [submitted].
  - rewrite !decide_True by done. cbn [length]. by rewrite IH.
  - rewrite !decide_False by done. done.
Qed.
