(* ===== verification/GossipFrame.v ===== *)
(** * Signed gossip frames (opencsv-cli)

    The first part of batch_gossip.rs: message kinds, the authenticated frame and its
    encoding, the digests a relay identity and a Bitcoin key sign, the local policies and
    reservations with their encodings.  The secp256k1 library is the class [Secp]. *)

From S2P Require Import Prelude Text Field Commitments Kernel Anchor Batch Chain Accept Wire Block Bitcoin.
From S2P Require Import Network Peer FullScan Scan BatchV2 BatchDemo.
#[local] Open Scope Z_scope.

(** Plain ECDSA signatures, in DER. *)
Class Secp `{Ecdsa} := {
  RawSig : Type;
  raw_sig_eq_dec :: EqDecision RawSig;
  serialize_der : RawSig → bytes;
  from_der : bytes → option RawSig;
  normalize_s : RawSig → RawSig;
  sign_raw : SecretKey → bytes → RawSig;
  verify_raw : RawSig → bytes → bytes → bool;
  secret_from_slice : bytes → option SecretKey;
  secret_bytes : SecretKey → bytes;
}.
#[global] Arguments Secp : clear implicits.
#[global] Arguments Secp {_}.

Class SecpLaws `(X : Secp) : Prop := {
  der_roundtrip : ∀ s, from_der (serialize_der s) = Some s;
  der_length : ∀ s, normalize_s s = s → (8 ≤ length (serialize_der s) ≤ 72)%nat;
  sign_low_s : ∀ k d, normalize_s (sign_raw k d) = sign_raw k d;
  sign_verifies : ∀ k d, verify_raw (sign_raw k d) (public_key_of k) d = true;
  public_key_law : ∀ k, pubkey_valid (public_key_of k) = true ∧ length (public_key_of k) = 33%nat;
  secret_roundtrip : ∀ k, secret_from_slice (secret_bytes k) = Some k ∧ length (secret_bytes k) = 32%nat;
}.

(** [Error] of the command line crate: the texts are those of the sources without their
    interpolated details. *)
Inductive GossipError :=
  | GIo
  | GDecode
  | GProtocol (message : string)
  | GBatch (reason : RejectionReason).

Abbreviation gossip := (result GossipError).

(** [batch_error] *)
Definition batch_error {A} (r : protocol A) : gossip A :=
  match r with Ok a => Ok a | Err e => Err (GBatch e) end.
Definition refuse (b : bool) (message : string) : gossip () := ensure (negb b) (GProtocol message).

(** ** Constants *)
Definition FRAME_MAGIC : bytes := [x4f; x43; x53; x56; x47; x32; x00; x00].
Definition POLICY_MAGIC : bytes := [x4f; x43; x53; x56; x50; x32; x00; x00].
Definition RELAY_POLICY_MAGIC : bytes := [x4f; x43; x53; x56; x52; x50; x33; x00].
Definition RESERVATION_MAGIC : bytes := [x4f; x43; x53; x56; x52; x53; x56; x32].
Definition FRAME_VERSION : Z := 3.
Definition MAX_PAYLOAD_BYTES : Z := 4 * 1024 * 1024.
Definition MAX_FRAME_BYTES : Z := MAX_PAYLOAD_BYTES + 256.

(** ** Local policies *)
Record RelayPolicy := {
  max_commitments : Z;
  max_replacement_epochs : Z;
  max_session_bytes : Z;
  max_event_bytes : Z;
}.
#[export] Instance relay_policy_eq_dec : EqDecision RelayPolicy.
Proof. solve_decision. Defined.

Definition relay_policy_default : RelayPolicy := {| max_commitments := 64; max_replacement_epochs := 16;
  max_session_bytes := 32 * 1024 * 1024; max_event_bytes := 1024 * 1024 |}.

Definition relay_policy_validate (p : RelayPolicy) : gossip RelayPolicy :=
  refuse (negb ((1 <=? max_commitments p) && (max_commitments p <=? 64)) || (max_replacement_epochs p =? 0) ||
          (max_session_bytes p <? 4096) || (max_event_bytes p <? 4096)) "invalid local relay policy";;
  Ok p.

Definition encode_relay_policy (p : RelayPolicy) : bytes :=
  RELAY_POLICY_MAGIC ++ le_bytes 4 (max_commitments p) ++ le_bytes 4 (max_replacement_epochs p) ++
  le_bytes 8 (max_session_bytes p) ++ le_bytes 8 (max_event_bytes p).

Definition decode_relay_policy (b : bytes) : gossip RelayPolicy :=
  refuse (negb (bool_decide (length b = 32%nat)) || negb (bool_decide (take 8 b = RELAY_POLICY_MAGIC)))
    "invalid local relay policy encoding";;
  relay_policy_validate {| max_commitments := le_val (slice 8 12 b);
    max_replacement_epochs := le_val (slice 12 16 b);
    max_session_bytes := le_val (slice 16 24 b); max_event_bytes := le_val (slice 24 32 b) |}.

Record SessionPolicy := { sp_chain_id : bytes; current_height : Z }.
#[export] Instance session_policy_eq_dec : EqDecision SessionPolicy.
Proof. solve_decision. Defined.

Definition encode_policy (p : SessionPolicy) : bytes :=
  POLICY_MAGIC ++ sp_chain_id p ++ le_bytes 4 (current_height p).

Definition decode_policy (b : bytes) : gossip SessionPolicy :=
  refuse (negb (bool_decide (length b = 44%nat)) || negb (bool_decide (take 8 b = POLICY_MAGIC)))
    "invalid session policy";;
  Ok {| sp_chain_id := slice 8 40 b; current_height := le_val (slice 40 44 b) |}.

(** ** Message kinds *)
Inductive MessageKind := KProposal | KCommitment | KManifest | KSignature.
#[export] Instance kind_eq_dec : EqDecision MessageKind.
Proof. solve_decision. Defined.

Definition kind_to_byte (k : MessageKind) : Z :=
  match k with KProposal => 1 | KCommitment => 2 | KManifest => 3 | KSignature => 4 end.

Definition kind_from_byte (b : Z) : gossip MessageKind :=
  if b =? 1 then Ok KProposal else if b =? 2 then Ok KCommitment else if b =? 3 then Ok KManifest
  else if b =? 4 then Ok KSignature else Err (GProtocol "unknown gossip kind").

Definition kind_name (k : MessageKind) : rstring :=
  match k with KProposal => lit "proposal" | KCommitment => lit "commitment"
             | KManifest => lit "manifest" | KSignature => lit "signature" end.

(** ** Reservations *)
Section reservations.
Context `{BitcoinLib}.

Record LocalReservation := { lr_operation_id : bytes; lr_outpoint : OutPoint; lr_phase : ReservationPhase }.

#[export] Instance reservation_eq_dec : EqDecision LocalReservation.
Proof. solve_decision. Defined.

Definition encode_reservation (r : LocalReservation) : bytes :=
  RESERVATION_MAGIC ++ lr_operation_id r ++ outpoint_serialize (lr_outpoint r) ++ le_bytes 1 (phase_to_byte (lr_phase r)).

Definition decode_reservation (b : bytes) : gossip LocalReservation :=
  refuse (negb (bool_decide (length b = 77%nat)) || negb (bool_decide (take 8 b = RESERVATION_MAGIC)))
    "invalid local reservation encoding";;
  outpoint ← ok_or (outpoint_deserialize (slice 40 76 b)) (GProtocol "local reservation outpoint");
  phase ← batch_error (phase_from_byte (bval (nth 76 b x00)));
  let r := {| lr_operation_id := slice 8 40 b; lr_outpoint := outpoint; lr_phase := phase |} in
  refuse (negb (bool_decide (encode_reservation r = b))) "non-canonical local reservation encoding";;
  Ok r.
End reservations.

(** ** Frames *)
Section frames.
Context `{Poseidon, Sha256, BitcoinLib, Ecdsa, !Secp}.

Record SignedFrame := {
  f_kind : MessageKind;
  f_sender : bytes;
  f_payload : bytes;
  f_origin : option RawSig;
  f_signature : RawSig;
}.

Definition gossip_domain (name : string) : bytes := String.list_byte_of_string name ++ [x00].

Definition origin_wire (origin : option RawSig) : bytes :=
  match origin with
  | Some s => le_bytes 2 (Z.of_nat (length (serialize_der s))) ++ serialize_der s
  | None => le_bytes 2 0
  end.

Definition frame_digest (kind : MessageKind) (sender payload : bytes) (origin : option RawSig) : bytes :=
  sha256 (gossip_domain "OpenCSV/batch-v2/gossip-v3" ++ FRAME_MAGIC ++ le_bytes 2 FRAME_VERSION ++
    le_bytes 1 (kind_to_byte kind) ++ sender ++ le_bytes 4 (Z.of_nat (length payload)) ++ payload ++
    origin_wire origin).

Definition origin_digest (kind : MessageKind) (sender payload : bytes) : bytes :=
  sha256 (gossip_domain "OpenCSV/batch-v2/origin-authorization-v1" ++ le_bytes 1 (kind_to_byte kind) ++
    sender ++ sha256 payload).

Definition parse_low_s_signature (b : bytes) : gossip RawSig :=
  s ← ok_or (from_der b) (GProtocol "signature");
  refuse (negb (bool_decide (normalize_s s = s))) "signature is not low-S";;
  Ok s.

Definition require_origin_key (secret : SecretKey) (expected : bytes) : gossip () :=
  refuse (negb (bool_decide (public_key_of secret = expected))) "origin key does not match the C1 body".

Definition require_live_proposal (p : Proposal) : gossip () :=
  refuse (negb (pr_version p =? VERSION))
    "historical C1 version-2 proposal is read-only and cannot enter a live C2 session".

Definition verify_origin_signature (f : SignedFrame) (expected : bytes) : gossip () :=
  s ← ok_or (f_origin f) (GProtocol "proposal/commitment frame lacks Bitcoin-key origin authorization");
  refuse (negb (verify_raw s expected (origin_digest (f_kind f) (f_sender f) (f_payload f)))) "origin authorization".

Definition to_wire (f : SignedFrame) : bytes :=
  FRAME_MAGIC ++ le_bytes 2 FRAME_VERSION ++ le_bytes 1 (kind_to_byte (f_kind f)) ++ f_sender f ++
  le_bytes 4 (Z.of_nat (length (f_payload f))) ++ f_payload f ++ origin_wire (f_origin f) ++
  le_bytes 2 (Z.of_nat (length (serialize_der (f_signature f)))) ++ serialize_der (f_signature f).

(** The additions of lengths to offsets below 2^32 cannot overflow a 64-bit size. *)
Definition from_wire (wire : bytes) : gossip SignedFrame :=
  let n := length wire in
  refuse ((Z.of_nat n >? MAX_FRAME_BYTES) || bool_decide (n < 60)%nat) "gossip frame length is outside policy";;
  refuse (negb (bool_decide (take 8 wire = FRAME_MAGIC))) "gossip frame magic mismatch";;
  refuse (negb (le_val (slice 8 10 wire) =? FRAME_VERSION)) "unsupported gossip frame version";;
  kind ← kind_from_byte (bval (nth 10 wire x00));
  let sender := slice 11 44 wire in
  refuse (negb (pubkey_valid sender)) "relay public key";;
  let payload_len := le_val (slice 44 48 wire) in
  refuse (payload_len >? MAX_PAYLOAD_BYTES) "gossip payload exceeds 4 MiB";;
  let payload_end := (48 + Z.to_nat payload_len)%nat in
  let origin_len_end := (payload_end + 2)%nat in
  refuse (bool_decide (n < origin_len_end)%nat) "truncated gossip payload";;
  let origin_len := Z.to_nat (le_val (slice payload_end origin_len_end wire)) in
  refuse (negb (bool_decide (origin_len = 0%nat)) && negb (bool_decide (8 ≤ origin_len ≤ 72)%nat))
    "invalid origin signature length";;
  let origin_end := (origin_len_end + origin_len)%nat in
  let signature_len_end := (origin_end + 2)%nat in
  refuse (bool_decide (n < signature_len_end)%nat) "truncated origin authorization";;
  origin ← (if bool_decide (origin_len = 0%nat) then Ok None
            else Some <$> parse_low_s_signature (slice origin_len_end origin_end wire));
  let signature_len := Z.to_nat (le_val (slice origin_end signature_len_end wire)) in
  refuse (negb (bool_decide (8 ≤ signature_len ≤ 72)%nat) ||
          negb (bool_decide (signature_len_end + signature_len = n)%nat))
    "invalid gossip signature length/trailing bytes";;
  signature ← parse_low_s_signature (drop signature_len_end wire);
  let payload := slice 48 payload_end wire in
  refuse (negb (verify_raw signature sender (frame_digest kind sender payload origin))) "relay authentication";;
  let f := {| f_kind := kind; f_sender := sender; f_payload := payload; f_origin := origin;
              f_signature := signature |} in
  refuse (negb (bool_decide (to_wire f = wire))) "non-canonical gossip frame";;
  Ok f.

(** ** Signing *)
Definition sign_parts (kind : MessageKind) (payload : bytes) (identity : SecretKey) (origin_key : option SecretKey)
  : gossip SignedFrame :=
  refuse (Z.of_nat (length payload) >? MAX_PAYLOAD_BYTES) "gossip payload exceeds 4 MiB";;
  let sender := public_key_of identity in
  let origin := (λ key, sign_raw key (origin_digest kind sender payload)) <$> origin_key in
  let signature := sign_raw identity (frame_digest kind sender payload origin) in
  Ok {| f_kind := kind; f_sender := sender; f_payload := payload; f_origin := origin; f_signature := signature |}.

Definition frame_sign (kind : MessageKind) (payload : bytes) (identity : SecretKey) : gossip SignedFrame :=
  match kind with
  | KProposal | KCommitment =>
    Err (GProtocol "proposal/commitment frames require Bitcoin-key origin authorization")
  | _ => sign_parts kind payload identity None
  end.

Definition sign_proposal (payload : bytes) (identity stock_key : SecretKey) : gossip SignedFrame :=
  p ← batch_error (proposal_from_wire payload);
  require_live_proposal p;;
  require_origin_key stock_key (stock_owner_pubkey p);;
  sign_parts KProposal payload identity (Some stock_key).

Definition sign_commitment (p : Proposal) (payload : bytes) (identity fee_key : SecretKey) : gossip SignedFrame :=
  c ← batch_error (commitment_from_wire p payload);
  require_origin_key fee_key (fee_pubkey c);;
  sign_parts KCommitment payload identity (Some fee_key).

(** [id]: the address of the whole frame; [semantic_frame_id]: of kind and body only. *)
Definition frame_id (f : SignedFrame) : bytes := sha256 (to_wire f).
Definition semantic_frame_id (f : SignedFrame) : bytes :=
  sha256 (gossip_domain "OpenCSV/batch-v2/gossip-body" ++ le_bytes 1 (kind_to_byte (f_kind f)) ++
    le_bytes 4 (Z.of_nat (length (f_payload f))) ++ f_payload f).
End frames.

(** ** Lemmas *)
Lemma refuse_Ok b m : refuse b m = Ok tt ↔ b = false.
Proof. unfold refuse. rewrite ensure_Ok. by destruct b. Qed.

(** Steps as rewriting rules, where reducing the whole program is expensive. *)
Lemma bind_of_Ok {A B} (a : A) (k : A → gossip B) : Ok a ≫= k = k a.
Proof. reflexivity. Qed.
Lemma bind_of_refuse {A} b m (k : () → gossip A) : b = false → refuse b m ≫= k = k tt.
Proof. by intros ->. Qed.
Lemma bind_of_Some {A B} (a : A) e (k : A → gossip B) : ok_or (Some a) e ≫= k = k a.
Proof. reflexivity. Qed.

Lemma policy_exact b p : decode_policy b = Ok p ↔
  (length (sp_chain_id p) = 32%nat ∧ is_u32 (current_height p)) ∧ b = encode_policy p.
Proof.
  unfold decode_policy, encode_policy. split.
  - intros E. apply bind_Ok in E as ([] & E1%refuse_Ok & [= <-]). bool_props. cbn [sp_chain_id current_height].
    assert (length (slice 40 44 b) = 4%nat) as H4 by (rewrite length_slice; lia). split; [split|].
    + rewrite length_slice; lia.
    + pose proof (le_val_bound (slice 40 44 b)) as Hb. rewrite H4 in Hb. unfold is_u32, u32_max. change (256 ^ 4) with (2 ^ 32) in Hb. lia.
    + rewrite le_bytes_le_val by done. rewrite (slice_app 8 40 44) by lia.
      replace POLICY_MAGIC with (slice 0 8 b) by (by rewrite slice_0). rewrite slice_app by lia.
      rewrite slice_0, take_ge by lia. done.
  - intros [[Hc Hh] ->]. rewrite !length_app, length_le_bytes, Hc. cbn [length POLICY_MAGIC].
    rewrite (bool_decide_eq_true_2 (_ = 44%nat)) by (cbn; lia).
    set (w := POLICY_MAGIC ++ _). assert (w = concat [POLICY_MAGIC; sp_chain_id p; le_bytes 4 (current_height p)]) as Ew
      by (unfold w; cbn [concat]; by rewrite app_nil_r).
    rewrite <- slice_0, (slice_field [] POLICY_MAGIC _ w 0 8 Ew) by done. rewrite bool_decide_eq_true_2 by done.
    cbn [negb orb refuse ensure mbind result_bind].
    rewrite (slice_field [POLICY_MAGIC] _ _ w 8 40 Ew), (slice_field [POLICY_MAGIC; sp_chain_id p] _ [] w 40 44 Ew)
      by (rewrite ?length_le_bytes; cbn; lia).
    rewrite le_val_le_bytes_small by (unfold is_u32, u32_max in Hh; change (256 ^ Z.of_nat 4) with (2 ^ 32); lia).
    by destruct p.
Qed.

(** Cutting a byte string of known length at its fields. *)
Lemma u32_slice b i : (i + 4 ≤ length b)%nat → is_u32 (le_val (slice i (i + 4) b)) ∧
  le_bytes 4 (le_val (slice i (i + 4) b)) = slice i (i + 4) b.
Proof.
  intros Hi. assert (length (slice i (i + 4) b) = 4%nat) as HL by (rewrite length_slice; lia).
  pose proof (le_val_bound (slice i (i + 4) b)) as Hb. rewrite HL in Hb. change (256 ^ Z.of_nat 4) with (2 ^ 32) in Hb.
  unfold is_u32, u32_max. split; [lia|]. by apply le_bytes_le_val.
Qed.

Lemma u64_slice b i : (i + 8 ≤ length b)%nat → is_u64 (le_val (slice i (i + 8) b)) ∧
  le_bytes 8 (le_val (slice i (i + 8) b)) = slice i (i + 8) b.
Proof.
  intros Hi. assert (length (slice i (i + 8) b) = 8%nat) as HL by (rewrite length_slice; lia).
  pose proof (le_val_bound (slice i (i + 8) b)) as Hb. rewrite HL in Hb. change (256 ^ Z.of_nat 8) with (2 ^ 64) in Hb.
  unfold is_u64, u64_max. split; [lia|]. by apply le_bytes_le_val.
Qed.

Lemma le_u32 z : is_u32 z → le_val (le_bytes 4 z) = z.
Proof. unfold is_u32, u32_max. intros. apply le_val_le_bytes_small. change (256 ^ Z.of_nat 4) with (2 ^ 32). lia. Qed.
Lemma le_u64 z : is_u64 z → le_val (le_bytes 8 z) = z.
Proof. unfold is_u64, u64_max. intros. apply le_val_le_bytes_small. change (256 ^ Z.of_nat 8) with (2 ^ 64). lia. Qed.
Lemma le_u16 z : 0 ≤ z < 65536 → le_val (le_bytes 2 z) = z.
Proof. intros. apply le_val_le_bytes_small. change (256 ^ Z.of_nat 2) with 65536. lia. Qed.

Definition relay_policy_wf (p : RelayPolicy) : Prop :=
  (1 ≤ max_commitments p ≤ 64) ∧ (1 ≤ max_replacement_epochs p ≤ u32_max) ∧
  (4096 ≤ max_session_bytes p ≤ u64_max) ∧ (4096 ≤ max_event_bytes p ≤ u64_max).

Lemma relay_policy_exact b p : decode_relay_policy b = Ok p ↔ relay_policy_wf p ∧ b = encode_relay_policy p.
Proof.
  unfold decode_relay_policy, relay_policy_validate, relay_policy_wf. split.
  - intros E. apply bind_Ok in E as ([] & E1%refuse_Ok & E). apply bind_Ok in E as ([] & E2%refuse_Ok & E).
    injection E as <-. bool_props. cbn [max_commitments max_replacement_epochs max_session_bytes max_event_bytes] in *.
    destruct (u32_slice b 8) as [U1 V1]; [lia|]. destruct (u32_slice b 12) as [U2 V2]; [lia|].
    destruct (u64_slice b 16) as [U3 V3]; [lia|]. destruct (u64_slice b 24) as [U4 V4]; [lia|].
    cbn [Nat.add] in *. unfold is_u32, is_u64 in *. split; [lia|]. unfold encode_relay_policy.
    cbn [max_commitments max_replacement_epochs max_session_bytes max_event_bytes].
    rewrite V1, V2, V3, V4. rewrite !slice_app by lia.
    replace RELAY_POLICY_MAGIC with (slice 0 8 b) by (by rewrite slice_0). rewrite slice_app by lia.
    rewrite slice_0, take_ge by lia. done.
  - intros [(H1 & H2 & H3 & H4) ->]. set (w := encode_relay_policy p).
    assert (w = concat [RELAY_POLICY_MAGIC; le_bytes 4 (max_commitments p); le_bytes 4 (max_replacement_epochs p);
      le_bytes 8 (max_session_bytes p); le_bytes 8 (max_event_bytes p)]) as Ew
      by (unfold w, encode_relay_policy; cbn [concat]; by rewrite app_nil_r).
    assert (length w = 32%nat) as Hw by (unfold w, encode_relay_policy; by rewrite !length_app, !length_le_bytes).
    rewrite Hw, bool_decide_eq_true_2 by done.
    rewrite <- slice_0, (slice_field [] RELAY_POLICY_MAGIC _ w 0 8 Ew), bool_decide_eq_true_2 by done.
    cbn [negb orb refuse ensure mbind result_bind].
    rewrite (slice_field [_] _ _ w 8 12 Ew), (slice_field [_; _] _ _ w 12 16 Ew),
      (slice_field [_; _; _] _ _ w 16 24 Ew), (slice_field [_; _; _; _] _ [] w 24 32 Ew)
      by (cbn [fmap list_fmap]; rewrite ?length_le_bytes; done).
    unfold u32_max, u64_max in *. rewrite !le_u32, !le_u64 by (unfold is_u32, is_u64, u32_max, u64_max; lia).
    cbn [max_commitments max_replacement_epochs max_session_bytes max_event_bytes].
    assert (negb ((1 <=? max_commitments p) && (max_commitments p <=? 64)) || (max_replacement_epochs p =? 0) ||
      (max_session_bytes p <? 4096) || (max_event_bytes p <? 4096) = false) as ->.
    { rewrite !(proj2 (Z.leb_le _ _)), (proj2 (Z.eqb_neq _ _)), !(proj2 (Z.ltb_ge _ _)) by lia. done. }
    by destruct p.
Qed.

Section reservation_encoding.
Context `{BitcoinLaws}.

Lemma phase_byte_Ok z p : phase_from_byte z = Ok p ↔ z = phase_to_byte p.
Proof.
  unfold phase_from_byte. split.
  - repeat (case_match; bool_props; [by intros [= <-]|]). done.
  - intros ->. by destruct p.
Qed.

Lemma reservation_exact b r : decode_reservation b = Ok r ↔
  (length (lr_operation_id r) = 32%nat ∧ outpoint_wf (lr_outpoint r)) ∧ b = encode_reservation r.
Proof.
  unfold decode_reservation. split.
  - intros E. apply bind_Ok in E as ([] & E1%refuse_Ok & E). apply bind_Ok in E as (o & Eo%ok_or_Ok & E).
    apply bind_Ok in E as (ph & _ & E). apply bind_Ok in E as ([] & E2%refuse_Ok & E). injection E as <-.
    bool_props. apply outpoint_exact in Eo as [Ho _]. cbn [lr_operation_id lr_outpoint]. split; [|done].
    split; [rewrite length_slice; lia|done].
  - intros [[Hi Ho] ->]. pose proof (outpoint_length _ Ho) as HL. set (w := encode_reservation r).
    assert (w = concat [RESERVATION_MAGIC; lr_operation_id r; outpoint_serialize (lr_outpoint r);
      le_bytes 1 (phase_to_byte (lr_phase r))]) as Ew
      by (unfold w, encode_reservation; cbn [concat]; by rewrite app_nil_r).
    assert (length w = 77%nat) as Hw by (unfold w, encode_reservation; by rewrite !length_app, Hi, HL, length_le_bytes).
    rewrite Hw, bool_decide_eq_true_2 by done.
    rewrite <- slice_0, (slice_field [] RESERVATION_MAGIC _ w 0 8 Ew), bool_decide_eq_true_2 by done.
    cbn [negb orb refuse ensure mbind result_bind].
    rewrite (slice_field [_; _] _ _ w 40 76 Ew) by (cbn [fmap list_fmap sum_list length app Nat.add]; rewrite ?Hi, ?HL; done).
    rewrite (proj2 (outpoint_exact _ _) (conj Ho eq_refl)). cbn [ok_or mbind result_bind].
    rewrite le_bytes_1 in Ew.
    rewrite (nth_field [_; _; _] _ [] [] w 76 x00 Ew) by (cbn; rewrite Hi, HL; done).
    rewrite bval_bof. replace (phase_to_byte (lr_phase r) mod 256) with (phase_to_byte (lr_phase r)) by (by destruct (lr_phase r)).
    rewrite (proj2 (phase_byte_Ok _ (lr_phase r))) by done. cbn [batch_error mbind result_bind].
    rewrite (slice_field [_] _ _ w 8 40 Ew) by (cbn; rewrite ?Hi; done).
    replace {| lr_operation_id := lr_operation_id r; lr_outpoint := lr_outpoint r; lr_phase := lr_phase r |} with r
      by (by destruct r).
    by rewrite bool_decide_eq_true_2.
Qed.
End reservation_encoding.

(** ** Frames are exact *)
Section frame_encoding.
Context `{Poseidon, Sha256, BitcoinLib, E : Ecdsa, X : !Secp, !SecpLaws X}.

Definition origin_der (origin : option RawSig) : bytes :=
  match origin with Some s => serialize_der s | None => [] end.
Definition origin_low (origin : option RawSig) : Prop :=
  match origin with Some s => normalize_s s = s | None => True end.

(** What an authenticated frame satisfies. *)
Record authentic (f : SignedFrame) : Prop := {
  au_payload : Z.of_nat (length (f_payload f)) ≤ MAX_PAYLOAD_BYTES;
  au_sender : length (f_sender f) = 33%nat ∧ pubkey_valid (f_sender f) = true;
  au_origin : origin_low (f_origin f);
  au_low : normalize_s (f_signature f) = f_signature f;
  au_signed : verify_raw (f_signature f) (f_sender f)
    (frame_digest (f_kind f) (f_sender f) (f_payload f) (f_origin f)) = true;
}.

Lemma kind_byte_Ok z k : kind_from_byte z = Ok k ↔ z = kind_to_byte k.
Proof.
  unfold kind_from_byte. split.
  - repeat (case_match; bool_props; [by intros [= <-]|]). done.
  - intros ->. by destruct k.
Qed.

Lemma parse_low_Ok b s : parse_low_s_signature b = Ok s ↔ from_der b = Some s ∧ normalize_s s = s.
Proof.
  unfold parse_low_s_signature. split.
  - intros Es. apply bind_Ok in Es as (t & Et%ok_or_Ok & Es). apply bind_Ok in Es as ([] & El%refuse_Ok & [= ->]).
    by bool_props.
  - intros [-> Hs]. cbn [ok_or mbind result_bind]. by rewrite bool_decide_eq_true_2.
Qed.

(** The fields of a frame. *)
Definition frame_fields (f : SignedFrame) : list bytes :=
  [FRAME_MAGIC; le_bytes 2 FRAME_VERSION; le_bytes 1 (kind_to_byte (f_kind f)); f_sender f;
   le_bytes 4 (Z.of_nat (length (f_payload f))); f_payload f;
   le_bytes 2 (Z.of_nat (length (origin_der (f_origin f)))); origin_der (f_origin f);
   le_bytes 2 (Z.of_nat (length (serialize_der (f_signature f)))); serialize_der (f_signature f)].

Lemma to_wire_fields f : to_wire f = concat (frame_fields f).
Proof.
  unfold to_wire, frame_fields. cbn [concat]. rewrite app_nil_r.
  destruct (f_origin f); cbn [origin_wire origin_der]; by rewrite <- ?app_assoc.
Qed.

Lemma from_wire_authentic wire f : from_wire wire = Ok f → authentic f ∧ wire = to_wire f.
Proof.
  unfold from_wire. intros Ef.
  apply bind_Ok in Ef as ([] & E1%refuse_Ok & Ef). apply bind_Ok in Ef as ([] & E2%refuse_Ok & Ef).
  apply bind_Ok in Ef as ([] & E3%refuse_Ok & Ef). apply bind_Ok in Ef as (kind & E4 & Ef).
  apply bind_Ok in Ef as ([] & E5%refuse_Ok & Ef). apply bind_Ok in Ef as ([] & E6%refuse_Ok & Ef).
  apply bind_Ok in Ef as ([] & E7%refuse_Ok & Ef). apply bind_Ok in Ef as ([] & _ & Ef).
  apply bind_Ok in Ef as ([] & _ & Ef). apply bind_Ok in Ef as (origin & E8 & Ef).
  apply bind_Ok in Ef as ([] & _ & Ef). apply bind_Ok in Ef as (s & [_ Es]%parse_low_Ok & Ef).
  apply bind_Ok in Ef as ([] & E9%refuse_Ok & Ef). apply bind_Ok in Ef as ([] & E10%refuse_Ok & Ef).
  injection Ef as <-. rewrite Z.gtb_ltb in E1, E6. bool_props. split; [|done].
  pose proof (le_val_bound (slice 44 48 wire)) as Hlen. set (n := le_val (slice 44 48 wire)) in *.
  constructor; [|split; [change (length (slice 11 44 wire) = 33%nat); rewrite length_slice by lia; done|exact E5]| |exact Es|exact E9].
  - change (Z.of_nat (length (slice 48 (48 + Z.to_nat n) wire)) ≤ MAX_PAYLOAD_BYTES). rewrite length_slice by lia. lia.
  - unfold f_origin, origin_low. case_bool_decide; [by injection E8 as <-|]. destruct (parse_low_s_signature _) as [t|] eqn:Et; [|done].
    injection E8 as <-. by apply parse_low_Ok in Et as [_ ?].
Qed.

Lemma origin_der_length origin : origin_low origin →
  (origin = None ∧ length (origin_der origin) = 0%nat) ∨
  (∃ s, origin = Some s ∧ (8 ≤ length (origin_der origin) ≤ 72)%nat).
Proof. destruct origin as [s|]; [right|by left]. exists s. split; [done|]. by apply der_length. Qed.

Lemma authentic_from_wire f : authentic f → from_wire (to_wire f) = Ok f.
Proof.
  intros [Hp [Hs Hv] Ho Hl Hsig]. pose proof (der_length _ Hl) as Hd.
  assert (length (origin_der (f_origin f)) ≤ 72)%nat as Hod
    by (destruct (origin_der_length _ Ho) as [[_ ->]|(? & _ & ?)]; lia).
  set (w := to_wire f). assert (w = concat (frame_fields f)) as Ew by apply to_wire_fields.
  assert (length w = 48 + length (f_payload f) + 2 + length (origin_der (f_origin f)) + 2 +
    length (serialize_der (f_signature f)))%nat as Hw.
  { rewrite Ew. unfold frame_fields. cbn [concat]. rewrite !length_app, !length_le_bytes, Hs. cbn [length]. cbn. lia. }
  unfold MAX_PAYLOAD_BYTES in Hp. unfold from_wire.
  assert ((Z.of_nat (length w) >? MAX_FRAME_BYTES) || bool_decide (length w < 60)%nat = false) as ->.
  { rewrite Z.gtb_ltb, (proj2 (Z.ltb_ge _ _)), bool_decide_eq_false_2;
      unfold MAX_FRAME_BYTES, MAX_PAYLOAD_BYTES; [done|lia|lia]. }
  unfold frame_fields in Ew. cbn [refuse negb ensure mbind result_bind].
  rewrite <- slice_0, (slice_field [] _ _ w 0 8 Ew), (bool_decide_eq_true_2 (FRAME_MAGIC = FRAME_MAGIC)) by done. cbn [refuse negb ensure mbind result_bind].
  rewrite (slice_field [_] _ _ w 8 10 Ew) by done. change (le_val (le_bytes 2 FRAME_VERSION) =? FRAME_VERSION) with true.
  cbn [refuse negb ensure mbind result_bind].
  rewrite (slice_field [_; _; _] _ _ w 11 44 Ew) by (cbn [fmap list_fmap sum_list length app]; rewrite ?length_le_bytes, ?Hs; done).
  rewrite (slice_field [_; _; _; _] _ _ w 44 48 Ew)
    by (cbn [fmap list_fmap sum_list length app]; rewrite ?length_le_bytes, ?Hs; done).
  rewrite Hv. rewrite le_u32 by (unfold is_u32, u32_max; lia). rewrite !Nat2Z.id.
  set (n := length (f_payload f)) in *. set (k := length (origin_der (f_origin f))) in *.
  set (j := length (serialize_der (f_signature f))) in *.
  rewrite (slice_field [_; _; _; _; _; _] _ _ w (48 + n) (48 + n + 2) Ew)
    by (cbn [fmap list_fmap sum_list length app]; rewrite ?length_le_bytes, ?Hs; cbn; lia).
  rewrite (slice_field [_; _; _; _; _] _ _ w 48 (48 + n) Ew)
    by (cbn [fmap list_fmap sum_list length app]; rewrite ?length_le_bytes, ?Hs; cbn; lia).
  rewrite (le_u16 (Z.of_nat k)) by lia. rewrite !Nat2Z.id.
  rewrite (slice_field [_; _; _; _; _; _; _] _ _ w (48 + n + 2) (48 + n + 2 + k) Ew)
    by (cbn [fmap list_fmap sum_list length app]; rewrite ?length_le_bytes, ?Hs; cbn; lia).
  rewrite (slice_field [_; _; _; _; _; _; _; _] _ _ w (48 + n + 2 + k) (48 + n + 2 + k + 2) Ew)
    by (cbn [fmap list_fmap sum_list length app]; rewrite ?length_le_bytes, ?Hs; cbn; lia).
  rewrite (le_u16 (Z.of_nat j)) by lia. rewrite !Nat2Z.id.
  assert (drop (48 + n + 2 + k + 2) w = serialize_der (f_signature f)) as ->.
  { rewrite Ew. etrans; [|apply app_nil_r]. refine (drop_fields [_; _; _; _; _; _; _; _; _] [_] _ _).
    cbn [fmap list_fmap sum_list length app]. rewrite ?length_le_bytes, ?Hs. cbn. lia. }
  rewrite le_bytes_1 in Ew. rewrite (nth_field [_; _] _ [] _ w 10 x00 Ew) by done. rewrite bval_bof.
  replace (kind_to_byte (f_kind f) mod 256) with (kind_to_byte (f_kind f)) by (by destruct (f_kind f)).
  rewrite (proj2 (kind_byte_Ok _ (f_kind f))) by done. cbn [refuse negb ensure mbind result_bind].
  rewrite Z.gtb_ltb, (proj2 (Z.ltb_ge _ _)) by (unfold MAX_PAYLOAD_BYTES; lia). cbn [refuse negb ensure mbind result_bind].
  rewrite (bool_decide_eq_false_2 (length w < 48 + n + 2)%nat) by lia. cbn [refuse negb ensure mbind result_bind].
  rewrite (bool_decide_eq_false_2 (length w < 48 + n + 2 + k + 2)%nat) by lia.
  rewrite (bool_decide_eq_true_2 (8 ≤ j ≤ 72)%nat) by lia.
  rewrite (bool_decide_eq_true_2 (48 + n + 2 + k + 2 + j = length w)%nat) by lia.
  rewrite (proj2 (parse_low_Ok _ (f_signature f))) by (by rewrite der_roundtrip).
  assert ((if bool_decide (k = 0%nat) then Ok None else Some <$> parse_low_s_signature (origin_der (f_origin f))) =
          Ok (f_origin f) ∧ negb (bool_decide (k = 0%nat)) && negb (bool_decide (8 ≤ k ≤ 72)%nat) = false) as [-> ->].
  { unfold k. destruct (origin_der_length _ Ho) as [[E1 E2]|(s & E1 & E2)]; rewrite E1 in *.
    - by rewrite (bool_decide_eq_true_2 (_ = 0%nat)).
    - rewrite (bool_decide_eq_false_2 (_ = 0%nat)), (bool_decide_eq_true_2 (8 ≤ _ ≤ 72)%nat) by lia.
      cbn [origin_der]. split; [|done]. rewrite (proj2 (parse_low_Ok _ s)); [done|]. by rewrite der_roundtrip. }
  cbn [refuse negb orb ensure mbind result_bind]. rewrite Hsig. cbn [refuse negb ensure mbind result_bind].
  replace {| f_kind := f_kind f; f_sender := f_sender f; f_payload := f_payload f; f_origin := f_origin f;
             f_signature := f_signature f |} with f by (by destruct f).
  by rewrite bool_decide_eq_true_2.
Qed.

(** A frame is accepted exactly if its bytes are the encoding of an authentic one. *)
Lemma gossip_frame_exact wire f : from_wire wire = Ok f ↔ authentic f ∧ wire = to_wire f.
Proof.
  split; [apply from_wire_authentic|]. intros [Hf ->]. by apply authentic_from_wire.
Qed.

Lemma sign_parts_authentic kind payload identity key f : sign_parts kind payload identity key = Ok f →
  authentic f ∧ f_kind f = kind ∧ f_payload f = payload ∧ f_sender f = public_key_of identity ∧
  f_origin f = (λ k, sign_raw k (origin_digest kind (public_key_of identity) payload)) <$> key.
Proof.
  unfold sign_parts. intros Es. apply bind_Ok in Es as ([] & E1%refuse_Ok & [= <-]). rewrite Z.gtb_ltb in E1. bool_props.
  split; [|done]. constructor; cbn [f_payload f_sender f_origin f_signature f_kind].
  - lia.
  - destruct (public_key_law identity). done.
  - destruct key; [apply sign_low_s|done].
  - apply sign_low_s.
  - apply sign_verifies.
Qed.
End frame_encoding.
