(* ===== verification/GossipDemo.v ===== *)
(** * A concrete signature library for the gossip witnesses

    Instances of [Ecdsa] and [Secp] that satisfy their laws, with 256 keys. *)

From S2P Require Import Prelude Text Field Commitments Kernel Anchor Batch Chain Accept Wire Block Bitcoin.
From S2P Require Import Network Peer FullScan Scan BatchV2 BatchDemo GossipFrame.

(** The key [i] is the byte [i], 32 times; a signature is a byte of the key and one of the digest. *)
Definition byte_ecdsa : Ecdsa := {|
  Sig := byte * byte;
  SecretKey := byte;
  sighash_all _ := true;
  low_s _ := true;
  sig_serialize s := [s.1; s.2];
  sig_from_slice b := match b with [x; y] => Some (x, y) | _ => None end;
  pubkey_valid k := bool_decide (head k = Some x02);
  public_key_of k := demo_key k;
  sign_all k d := (k, nth 0 d x00);
  verify_ecdsa s key d := bool_decide (s = (nth 1 key x00, nth 0 d x00));
  p2wpkh_witness s key := [[s.1; s.2]; key];
|}.
#[local] Existing Instance byte_ecdsa.

Definition byte_secp : Secp := {|
  RawSig := byte * byte;
  serialize_der s := s.1 :: s.2 :: zeros 6;
  from_der b := match b with
                | x :: y :: r => if bool_decide (r = zeros 6) then Some (x, y) else None
                | _ => None end;
  normalize_s s := s;
  sign_raw k d := (k, nth 0 d x00);
  verify_raw s key d := bool_decide (s = (nth 1 key x00, nth 0 d x00));
  secret_from_slice b := match b with
                         | x :: _ => if bool_decide (b = replicate 32 x) then Some x else None
                         | [] => None end;
  secret_bytes k := replicate 32 k;
|}.
#[local] Existing Instance byte_secp.

Lemma byte_ecdsa_laws : EcdsaLaws byte_ecdsa.
Proof. constructor; [by intros [? ?]|]. intros [? ?]. cbn. lia. Qed.

Lemma byte_secp_laws : SecpLaws byte_secp.
Proof.
  constructor; [by intros [? ?]|intros [? ?] _; cbn; lia|done| |done| ].
  - intros k d. cbn. by rewrite bool_decide_eq_true_2.
  - intros k. split; [|done].
    change ((if bool_decide (replicate 32 k = replicate 32 k) then Some k else None) = Some k).
    by rewrite bool_decide_eq_true_2.
Qed.
