(* ===== verification/GossipStore.v ===== *)
(** * The durable store of a gossip session (opencsv-cli)

    The storage and parsing helpers at the end of batch_gossip.rs.  A session directory is a
    map from paths to file contents.  Every call that changes it consumes one outcome of a
    fault schedule: it succeeds, or fails with the change undone, or fails after some or all
    of it has reached the disk.  A crash is a failure after which nothing else runs. *)

From S2P Require Import Prelude Text Field Commitments Kernel Anchor Batch Chain Accept Wire Block Bitcoin.
From S2P Require Import Network Peer FullScan Scan BatchV2 BatchDemo GossipFrame.
#[local] Open Scope Z_scope.

(** A directory below the session root, or the root itself (the empty name), and a file name. *)
Definition path : Type := rstring * rstring.
Definition at_root (name : string) : path := ([], lit name).
Definition in_dir (dir : string) (name : rstring) : path := (lit dir, name).

Inductive Outcome := Done | Failed (reached : nat).

(** [loose]: the paths a group or the world can access. *)
Record Disk := MkDisk {
  files : gmap path bytes;
  loose : gset path;
  root_loose : bool;
  outcomes : list Outcome;
}.

Abbreviation disk_op := (prog GossipError Disk).

(** One change of the store: [part n] is what a failure leaves of [whole]. *)
Definition storage (whole : Disk → Disk) (part : nat → Disk → Disk) : disk_op () := λ d,
  match outcomes d with
  | [] => (Ok tt, whole d)
  | o :: os =>
    let d := MkDisk (files d) (loose d) (root_loose d) os in
    match o with
    | Done => (Ok tt, whole d)
    | Failed n => (Err GIo, part n d)
    end
  end.
Definition all_or_nothing (whole : Disk → Disk) : disk_op () :=
  storage whole (λ n, match n with O => id | S _ => whole end).

(** The files are created with mode 0600. *)
Definition put_file (p : path) (b : bytes) (d : Disk) : Disk :=
  MkDisk (<[p := b]> (files d)) (loose d ∖ {[p]}) (root_loose d) (outcomes d).
Definition drop_file (p : path) (d : Disk) : Disk :=
  MkDisk (delete p (files d)) (loose d) (root_loose d) (outcomes d).
Definition set_root_private (d : Disk) : Disk := MkDisk (files d) (loose d) false (outcomes d).

Definition exists_file (p : path) (d : Disk) : bool := bool_decide (is_Some (files d !! p)).

(** A temporary file, renamed over the target. *)
Definition atomic_write (p : path) (b : bytes) : disk_op () := all_or_nothing (put_file p b).
Definition remove_file (p : path) : disk_op () := all_or_nothing (drop_file p).
Definition rename_file (p q : path) : disk_op () := all_or_nothing (λ d,
  match files d !! p with Some b => put_file q b (drop_file p d) | None => d end).
Definition append_file (p : path) (b : bytes) : disk_op () :=
  let extend c d := put_file p (default [] (files d !! p) ++ c) d in
  storage (extend b) (λ n, match n with O => id | S n => extend (take n b) end).

Definition read_limited (p : path) (limit : Z) (d : Disk) : gossip bytes :=
  b ← ok_or (files d !! p) GIo;
  refuse (Z.of_nat (length b) >? limit) "file exceeds size policy";;
  Ok b.

Definition require_private_directory (d : Disk) : gossip () :=
  refuse (root_loose d) "session directory must not be group/world accessible".
Definition require_private_file (p : path) (d : Disk) : gossip () :=
  ok_or (files d !! p) GIo;;
  refuse (bool_decide (p ∈ loose d)) "relay identity must be mode 0600 or stricter".

Definition semantic_write (p : path) (b : bytes) : disk_op () :=
  present ← reading (λ d, Ok (exists_file p d));
  if (present : bool) then
    existing ← reading (read_limited p MAX_PAYLOAD_BYTES);
    checked (refuse (negb (bool_decide (existing = b))) "semantic equivocation")
  else atomic_write p b.

(** ** Listing a directory *)

(** [Path::extension] and [Path::file_stem] of a name. *)
Definition extension (name : rstring) : option rstring :=
  match rsplit_once 46 name with
  | Some (stem, ext) => if bool_decide (stem = []) then None else Some ext
  | None => None
  end.
Definition file_stem (name : rstring) : rstring :=
  match rsplit_once 46 name with
  | Some (stem, _) => if bool_decide (stem = []) then name else stem
  | None => name
  end.

Definition name_le (p q : path) : Prop := bytes_le (utf8 p.2) (utf8 q.2).
#[export] Instance name_le_dec : RelDecision name_le.
Proof. intros p q. unfold name_le. apply _. Defined.

Definition listed (dir ext : string) (p : path) : Prop := p.1 = lit dir ∧ extension p.2 = Some (lit ext).
#[export] Instance listed_dec dir ext p : Decision (listed dir ext p).
Proof. unfold listed. apply _. Defined.

Definition read_paths_with_extension (dir ext : string) (d : Disk) : list path :=
  merge_sort name_le (filter (listed dir ext) (map_to_list (files d)).*1).
Definition read_sorted (dir : string) (d : Disk) : list path := read_paths_with_extension dir "bin" d.

(** ** Text *)
Definition has_newline (s : rstring) : bool := existsb (λ c, (c =? 10) || (c =? 13)) s.

Fixpoint parse_hex_bytes (fuel : nat) (b : bytes) : gossip bytes :=
  match fuel, b with
  | S fuel, x :: y :: b =>
    text ← ok_or (from_utf8 [x; y]) (GProtocol "hex utf8");
    v ← ok_or (from_str_radix 16 u8_max text) (GProtocol "invalid hex value");
    rest ← parse_hex_bytes fuel b;
    Ok (bof v :: rest)
  | _, _ => Ok []
  end.
Definition parse_hex_32 (value : rstring) : gossip bytes :=
  refuse (negb (bool_decide (length (utf8 value) = 64%nat))) "32-byte hex value has wrong length";;
  parse_hex_bytes 32 (utf8 value).

(** At most [limit] bytes, up to the last character. *)
Fixpoint bounded_from (limit written : nat) (message : rstring) : rstring :=
  match message with
  | [] => []
  | c :: rest =>
    if bool_decide (limit ≤ written)%nat then []
    else let c := if (c =? 10) || (c =? 13) then 32 else c in
         c :: bounded_from limit (written + length (utf8_char c)) rest
  end.
Definition bounded_one_line (message : rstring) (limit : nat) : rstring := bounded_from limit 0 message.

(** [{:0n}] *)
Definition zero_padded (n : nat) (z : Z) : rstring := let s := decimal z in replicate (n - length s) 48 ++ s.

(** ** The event log *)
Definition EVENTS : path := at_root "events.log".
Definition EVENTS_ROTATED : path := at_root "events.log.1".

Definition append_event_to (max_event_bytes : Z) (event : rstring) : disk_op () :=
  checked (refuse ((Z.of_nat (length (utf8 event)) >? 1024) || has_newline event)
    "event receipt exceeds one-line bound");;
  full ← reading (λ d, Ok (match files d !! EVENTS with
                           | Some b => Z.of_nat (length b) >=? max_event_bytes | None => false end));
  (if (full : bool) then
     rotated ← reading (λ d, Ok (exists_file EVENTS_ROTATED d));
     (if (rotated : bool) then remove_file EVENTS_ROTATED else mret tt);;
     rename_file EVENTS EVENTS_ROTATED
   else mret tt);;
  append_file EVENTS (utf8 event ++ [x0a]).

Definition log_file (q : path) : Prop := q = EVENTS ∨ q = EVENTS_ROTATED.

(** ** The relay identity *)
Section identity.
Context `{Ecdsa, !Secp}.

Definition IDENTITY : path := at_root "identity.key".

Definition load_identity (d : Disk) : gossip SecretKey :=
  require_private_file IDENTITY d;;
  b ← read_limited IDENTITY 32 d;
  refuse (negb (bool_decide (length b = 32%nat))) "relay identity is not 32 bytes";;
  ok_or (secret_from_slice b) (GProtocol "relay identity").

(** [fresh]: the first random candidate that is a key. *)
Definition load_or_create_identity (fresh : SecretKey) : disk_op SecretKey :=
  present ← reading (λ d, Ok (exists_file IDENTITY d));
  if (present : bool) then reading load_identity
  else atomic_write IDENTITY (secret_bytes fresh);; mret fresh.
End identity.

(** ** What programs leave alone *)

(** The files outside [P] are as before. *)
Definition untouched (P : path → Prop) (f f' : gmap path bytes) : Prop := ∀ q, ¬ P q → f' !! q = f !! q.
#[export] Instance untouched_preorder P : PreOrder (untouched P).
Proof. split; [by intros f q|]. intros f g h Hf Hg q Hq. by rewrite Hg, Hf. Qed.

Lemma untouched_weaken (P Q : path → Prop) f f' : (∀ q, P q → Q q) → untouched P f f' → untouched Q f f'.
Proof. intros HPQ Hf q Hq. apply Hf. auto. Qed.

(** Nothing fails that was not scheduled to, and nothing becomes more accessible. *)
Record disk_untouched (P : path → Prop) (d d' : Disk) : Prop := {
  du_files : untouched P (files d) (files d');
  du_outcomes : outcomes d = [] → outcomes d' = [];
  du_loose : loose d' ⊆ loose d;
  du_root : root_loose d' = root_loose d;
}.
#[export] Instance disk_untouched_preorder P : PreOrder (disk_untouched P).
Proof.
  split; [by intros d|]. intros d e f [F1 O1 L1 R1] [F2 O2 L2 R2]. split; [by etrans|auto|set_solver|congruence].
Qed.

Lemma disk_untouched_weaken (P Q : path → Prop) d d' : (∀ q, P q → Q q) → disk_untouched P d d' → disk_untouched Q d d'.
Proof. intros HPQ [F O L R]. split; [by eapply untouched_weaken|done..]. Qed.

Section changes.
Context (P : path → Prop).

Lemma put_file_untouched p b d : P p → disk_untouched P d (put_file p b d).
Proof. intros Hp. split; [|done|set_solver|done]. intros q Hq. apply lookup_insert_ne. by intros ->. Qed.
Lemma drop_file_untouched p d : P p → disk_untouched P d (drop_file p d).
Proof. intros Hp. split; [|done|done|done]. intros q Hq. apply lookup_delete_ne. by intros ->. Qed.

Lemma storage_untouched whole part : (∀ d, disk_untouched P d (whole d)) → (∀ n d, disk_untouched P d (part n d)) →
  always (disk_untouched P) (storage whole part).
Proof.
  intros Hw Hp d r d'. unfold storage. destruct (outcomes d) as [|o os] eqn:Eo; [intros [= <- <-]; apply Hw|].
  assert (∀ e, disk_untouched P (MkDisk (files d) (loose d) (root_loose d) os) e → disk_untouched P d e) as Hd.
  { intros e [F O L R]. split; [done| |done|done]. by rewrite Eo. }
  destruct o as [|n]; intros [= <- <-]; apply Hd; [apply Hw|apply Hp].
Qed.

Lemma all_or_nothing_untouched whole : (∀ d, disk_untouched P d (whole d)) →
  always (disk_untouched P) (all_or_nothing whole).
Proof. intros Hw. apply storage_untouched; [done|]. intros [|n] d; [reflexivity|apply Hw]. Qed.

Lemma atomic_write_untouched p b : P p → always (disk_untouched P) (atomic_write p b).
Proof. intros Hp. apply all_or_nothing_untouched. intros d. by apply put_file_untouched. Qed.

Lemma append_file_untouched p b : P p → always (disk_untouched P) (append_file p b).
Proof.
  intros Hp. apply storage_untouched; [intros d; by apply put_file_untouched|].
  intros [|n] d; [reflexivity|]. by apply put_file_untouched.
Qed.

Lemma semantic_write_untouched p b : P p → always (disk_untouched P) (semantic_write p b).
Proof.
  intros Hp. unfold semantic_write. always_steps. case_match; [always_steps|by apply atomic_write_untouched].
Qed.

Lemma append_event_untouched n e : P EVENTS → P EVENTS_ROTATED → always (disk_untouched P) (append_event_to n e).
Proof.
  intros H1 H2. unfold append_event_to. always_steps; [|by apply append_file_untouched].
  case_match; always_steps.
  - case_match; always_steps. apply all_or_nothing_untouched. intros d. by apply drop_file_untouched.
  - apply all_or_nothing_untouched. intros d. destruct (files d !! EVENTS); [|reflexivity].
    etrans; [by apply (drop_file_untouched EVENTS)|by apply put_file_untouched].
Qed.
End changes.

(** An atomic write, whatever happens: it has failed, or its contents are in place. *)
Lemma atomic_write_cases p b d r d' : atomic_write p b d = (r, d') →
  (r = Err GIo ∧ files d' = files d) ∨ files d' = <[p := b]> (files d).
Proof.
  unfold atomic_write, all_or_nothing, storage.
  destruct (outcomes d) as [|[|[|n]] os]; intros [= <- <-]; [by right|by right|by left|by right].
Qed.

(** ** Listings *)
Lemma read_paths_elem dir ext d p :
  p ∈ read_paths_with_extension dir ext d ↔ listed dir ext p ∧ is_Some (files d !! p).
Proof.
  unfold read_paths_with_extension. rewrite merge_sort_Permutation, list_elem_of_filter.
  rewrite list_elem_of_fmap. split.
  - intros [Hl ([q b] & -> & Hq%elem_of_map_to_list)]. split; [done|]. by exists b.
  - intros [Hl [b Hb]]. split; [done|]. exists (p, b). split; [done|]. by apply elem_of_map_to_list.
Qed.

Lemma read_paths_NoDup dir ext d : NoDup (read_paths_with_extension dir ext d).
Proof.
  unfold read_paths_with_extension. rewrite merge_sort_Permutation. apply NoDup_filter, NoDup_fst_map_to_list.
Qed.

(** A new file of the directory is one more path of it. *)
Lemma read_paths_new dir ext d d' p : listed dir ext p → files d !! p = None →
  (∀ q, listed dir ext q → is_Some (files d' !! q) ↔ q = p ∨ is_Some (files d !! q)) →
  read_paths_with_extension dir ext d' ≡ₚ p :: read_paths_with_extension dir ext d.
Proof.
  intros Hp Hn Hd. apply NoDup_Permutation; [apply read_paths_NoDup| |].
  - apply NoDup_cons. split; [|apply read_paths_NoDup]. rewrite read_paths_elem, Hn. by intros [_ [? ?]].
  - intros q. rewrite elem_of_cons, !read_paths_elem. split.
    + intros [Hl Hq]. apply Hd in Hq as [->|Hq]; auto.
    + intros [->|[Hl Hq]]; (split; [done|]); apply Hd; auto.
Qed.

Lemma read_paths_same dir ext d d' : (∀ q, listed dir ext q → is_Some (files d' !! q) ↔ is_Some (files d !! q)) →
  read_paths_with_extension dir ext d' ≡ₚ read_paths_with_extension dir ext d.
Proof.
  intros Hd. apply NoDup_Permutation; [apply read_paths_NoDup..|]. intros q. rewrite !read_paths_elem. naive_solver.
Qed.

(** ** Without faults *)

(** The program succeeds wherever nothing is scheduled to fail. *)
Definition steady {A} (m : disk_op A) : Prop :=
  ∀ d, outcomes d = [] → ∃ a d', m d = (Ok a, d') ∧ outcomes d' = [].

Lemma steady_bind {A B} (m : disk_op A) (f : A → disk_op B) : steady m → (∀ a, steady (f a)) → steady (m ≫= f).
Proof.
  intros Hm Hf d Hd. destruct (Hm d Hd) as (a & e & Em & He). destruct (Hf a e He) as (b & d' & Ef & Hd').
  exists b, d'. by rewrite prog_bind_eq, Em.
Qed.
Lemma steady_ret {A} (a : A) : steady (mret a).
Proof. intros d Hd. by exists a, d. Qed.
Lemma steady_test (f : Disk → bool) : steady (reading (λ d, Ok (f d))).
Proof. intros d Hd. by exists (f d), d. Qed.
Lemma steady_storage whole part : (∀ d, outcomes (whole d) = outcomes d) → steady (storage whole part).
Proof. intros Hw d Hd. exists tt, (whole d). unfold storage. rewrite Hd. split; [done|]. by rewrite Hw. Qed.

Lemma append_event_steady n e d : outcomes d = [] →
  let '(r, d') := append_event_to n e d in
  outcomes d' = [] ∧ untouched log_file (files d) (files d') ∧
  (is_ok r = true ↔ Z.of_nat (length (utf8 e)) ≤ 1024 ∧ has_newline e = false).
Proof.
  intros Ho. destruct (append_event_to n e d) as [r d'] eqn:E.
  assert (untouched log_file (files d) (files d')) as Hu
    by (eapply du_files, append_event_untouched; [by left|by right|exact E]).
  unfold append_event_to in E. rewrite prog_bind_eq in E. unfold checked, refuse in E.
  destruct ((Z.of_nat (length (utf8 e)) >? 1024) || has_newline e) eqn:Eb; cbn [negb ensure] in E.
  - injection E as <- <-. split_and!; [done|done|]. split; [done|]. intros [HL Hn].
    rewrite Hn, orb_false_r, Z.gtb_ltb in Eb. apply Z.ltb_lt in Eb. lia.
  - apply orb_false_iff in Eb as [HL Hn]. rewrite Z.gtb_ltb in HL. apply Z.ltb_ge in HL.
    match type of E with (?m d = _) => assert (steady m) as Hm end.
    { apply steady_bind; [apply steady_test|]. intros full. apply steady_bind; [|intros _; by apply steady_storage].
      destruct full; [|apply steady_ret]. apply steady_bind; [apply steady_test|]. intros rotated.
      apply steady_bind; [destruct rotated; [by apply steady_storage|apply steady_ret]|]. intros _.
      apply steady_storage. intros c. by destruct (files c !! EVENTS). }
    destruct (Hm d Ho) as (a & e' & Em & He). rewrite Em in E. injection E as <- <-. done.
Qed.
