(* ===== verification/GossipSession.v ===== *)
(** * Durable gossip sessions (opencsv-cli)

    Models [Session] of batch_gossip.rs: creating and opening a session directory, reserving
    local inputs, publishing and ingesting frames, manifests and their replacements, signature
    shares, the finalized transactions, the phase machine, and the relay loop.  The wall clock,
    the peers and the random identity are arguments. *)

From S2P Require Import Prelude Text Field Commitments Kernel Anchor Batch Chain Accept Wire Block Bitcoin.
From S2P Require Import Network Peer FullScan Scan Client BatchV2 BatchDemo BatchInputs GossipFrame GossipStore.
#[local] Open Scope Z_scope.

(** ** Phases *)
Inductive ProtocolPhase :=
  | Ready | Proposed | Committed | ManifestReady | SignedPersisted | Broadcast | Mempool
  | Confirmed | PayloadDelivered | AbortedBeforeSignature | SessionInvalidated | ExpiredUnsigned.
#[export] Instance protocol_phase_eq_dec : EqDecision ProtocolPhase.
Proof. solve_decision. Defined.

Definition phase_name (p : ProtocolPhase) : rstring :=
  match p with
  | Ready => lit "ready"
  | Proposed => lit "proposed"
  | Committed => lit "committed"
  | ManifestReady => lit "manifest_ready"
  | SignedPersisted => lit "signed_persisted"
  | Broadcast => lit "broadcast"
  | Mempool => lit "mempool"
  | Confirmed => lit "confirmed"
  | PayloadDelivered => lit "payload_delivered"
  | AbortedBeforeSignature => lit "aborted_before_signature"
  | SessionInvalidated => lit "invalidated_on_chain"
  | ExpiredUnsigned => lit "expired_unsigned"
  end.

Definition all_phases : list ProtocolPhase :=
  [Ready; Proposed; Committed; ManifestReady; SignedPersisted; Broadcast; Mempool; Confirmed;
   PayloadDelivered; AbortedBeforeSignature; SessionInvalidated; ExpiredUnsigned].

Definition phase_parse (value : rstring) : gossip ProtocolPhase :=
  ok_or (find_first (λ p, bool_decide (phase_name p = value)) all_phases) (GProtocol "unknown batch phase").

Definition rejects_new_protocol_messages (p : ProtocolPhase) : bool :=
  match p with
  | Confirmed | PayloadDelivered | AbortedBeforeSignature | SessionInvalidated | ExpiredUnsigned => true
  | _ => false
  end.

(** The table of [mark_phase]; [shares]: some signature share is stored. *)
Definition phase_allowed (current next : ProtocolPhase) (shares : bool) (manifests : nat) : bool :=
  match next with
  | Broadcast => bool_decide (current = SignedPersisted)
  | Mempool => bool_decide (current ∈ [Broadcast; Mempool])
  | Confirmed => bool_decide (current ∈ [Broadcast; Mempool; Confirmed])
  | PayloadDelivered => bool_decide (current ∈ [Confirmed; PayloadDelivered])
  | AbortedBeforeSignature | ExpiredUnsigned =>
    negb shares && bool_decide (current ∈ [Proposed; Committed; ManifestReady])
  | SessionInvalidated => bool_decide (0 < manifests)%nat
  | Ready | Proposed | Committed | ManifestReady | SignedPersisted => false
  end.

Inductive IngestOutcome := Accepted | Duplicate.
#[export] Instance ingest_outcome_eq_dec : EqDecision IngestOutcome.
Proof. solve_decision. Defined.

Record SessionStatus := {
  st_phase : ProtocolPhase;
  st_batch_id : option bytes;
  st_commitments : nat;
  st_manifests : nat;
  latest_manifest_id : option bytes;
  signature_shares : nat;
  required_signatures : nat;
}.

Definition POLICY : path := at_root "policy.bin".
Definition RELAY_POLICY : path := at_root "relay-policy.bin".
Definition PROPOSAL : path := at_root "proposal.bin".
Definition PHASE : path := at_root "phase".

Section session.
Context `{Poseidon, Sha256, BitcoinLib, Ecdsa, !Secp}.

Record Session := MkSession {
  disk : Disk;
  s_policy : SessionPolicy;
  relay_policy : RelayPolicy;
  identity : SecretKey;
  pool : list ParticipantCommitment;
  commitment_senders : gset bytes;
  stored_frame_bytes : Z;
}.

Definition set_disk (d : Disk) (s : Session) : Session :=
  MkSession d (s_policy s) (relay_policy s) (identity s) (pool s) (commitment_senders s) (stored_frame_bytes s).
Definition set_policy (p : SessionPolicy) (s : Session) : Session :=
  MkSession (disk s) p (relay_policy s) (identity s) (pool s) (commitment_senders s) (stored_frame_bytes s).
Definition set_frame_bytes (n : Z) (s : Session) : Session :=
  MkSession (disk s) (s_policy s) (relay_policy s) (identity s) (pool s) (commitment_senders s) n.
Definition admit_commitment (c : ParticipantCommitment) (sender : bytes) (s : Session) : Session :=
  MkSession (disk s) (s_policy s) (relay_policy s) (identity s) (pool s ++ [c])
    ({[sender]} ∪ commitment_senders s) (stored_frame_bytes s).

Abbreviation session_op := (prog GossipError Session).
Definition on_disk {A} (m : disk_op A) : session_op A := zoom disk set_disk m.

(** ** File names *)
Definition frame_path (f : SignedFrame) : path := in_dir "frames" (to_hex (semantic_frame_id f) ++ lit ".frame").
Definition commitment_path (c : ParticipantCommitment) : path :=
  in_dir "commitments" (to_hex (commitment_id c) ++ lit ".bin").
Definition manifest_path (m : Manifest) : path :=
  in_dir "manifests" (zero_padded 10 (replacement_epoch m) ++ 45 :: to_hex (manifest_id m) ++ lit ".bin").
Definition signature_path (id : bytes) (index : Z) : path :=
  in_dir "signatures" (to_hex id ++ 45 :: zero_padded 5 index ++ lit ".bin").
Definition signed_path (id : bytes) : path := in_dir "signed" (to_hex id ++ lit ".tx").
Definition reservation_path (operation : bytes) : path := in_dir "reservations" (to_hex operation ++ lit ".bin").

(** ** Rebuilding the in-memory index *)
Definition collides (a b : ParticipantCommitment) : bool :=
  bool_decide (fee_pubkey a = fee_pubkey b) || bool_decide (fee_outpoint a = fee_outpoint b) ||
  bool_decide (operation_id a = operation_id b) || bool_decide (pc_payload a = pc_payload b).

Definition stored_proposal (d : Disk) : gossip (option Proposal) :=
  if exists_file PROPOSAL d then
    wire ← read_limited PROPOSAL MAX_PAYLOAD_BYTES d;
    p ← batch_error (proposal_from_wire wire);
    require_live_proposal p;;
    Ok (Some p)
  else Ok None.

Fixpoint rebuild_pool (d : Disk) (proposal : option Proposal) (paths : list path)
    (acc : list ParticipantCommitment) : gossip (list ParticipantCommitment) :=
  match paths with
  | [] => Ok acc
  | p :: paths =>
    proposal' ← ok_or proposal (GProtocol "stored commitment has no proposal");
    wire ← read_limited p MAX_PAYLOAD_BYTES d;
    c ← batch_error (commitment_from_wire proposal' wire);
    refuse (existsb (λ e, collides e c) acc) "stored commitment pool violates authorized identity quotas";;
    rebuild_pool d proposal paths (acc ++ [c])
  end.

(** The running byte count, the senders and the authorized commitments. *)
Definition frame_index : Type := Z * gset bytes * gset bytes.

Definition rebuild_frame (proposal : option Proposal) (f : SignedFrame) (senders authorized : gset bytes)
  : gossip (gset bytes * gset bytes) :=
  match f_kind f with
  | KProposal =>
    p ← batch_error (proposal_from_wire (f_payload f));
    verify_origin_signature f (stock_owner_pubkey p);;
    Ok (senders, authorized)
  | KCommitment =>
    p ← ok_or proposal (GProtocol "commitment frame has no proposal");
    c ← batch_error (commitment_from_wire p (f_payload f));
    verify_origin_signature f (fee_pubkey c);;
    refuse (bool_decide (f_sender f ∈ senders)) "stored relay identity authorized multiple commitments";;
    Ok ({[f_sender f]} ∪ senders, {[commitment_id c]} ∪ authorized)
  | KManifest | KSignature =>
    refuse (bool_decide (is_Some (f_origin f))) "stored manifest/signature has unexpected origin authorization";;
    Ok (senders, authorized)
  end.

Fixpoint rebuild_frames (d : Disk) (max_bytes : Z) (proposal : option Proposal) (paths : list path)
    (acc : frame_index) : gossip frame_index :=
  match paths with
  | [] => Ok acc
  | p :: paths =>
    let '(total, senders, authorized) := acc in
    b ← ok_or (files d !! p) GIo;
    total ← ok_or (checked_add64 total (Z.of_nat (length b))) (GProtocol "stored frame-byte counter overflow");
    refuse (total >? max_bytes) "stored frames exceed local byte quota";;
    wire ← read_limited p MAX_FRAME_BYTES d;
    f ← from_wire wire;
    '(senders, authorized) ← rebuild_frame proposal f senders authorized;
    rebuild_frames d max_bytes proposal paths (total, senders, authorized)
  end.

Definition rebuild_session_index (policy : RelayPolicy) (d : Disk)
  : gossip (list ParticipantCommitment * gset bytes * Z) :=
  proposal ← stored_proposal d;
  commitments ← rebuild_pool d proposal (read_paths_with_extension "commitments" "bin" d) [];
  let cap := match proposal with Some p => participant_count p | None => 0 end in
  refuse (Z.of_nat (length commitments) >? Z.min cap (max_commitments policy))
    "stored commitment pool exceeds local quota";;
  '(total, senders, authorized) ←
    rebuild_frames d (max_session_bytes policy) proposal (read_paths_with_extension "frames" "frame" d) (0, ∅, ∅);
  refuse (existsb (λ c, bool_decide (commitment_id c ∉ authorized)) commitments)
    "stored commitment lacks its authorized relay frame";;
  Ok (commitments, senders, total).

(** ** Creating and opening *)
Definition bind_file (p : path) (contents : bytes) (mismatch : string) : disk_op () :=
  present ← reading (λ d, Ok (exists_file p d));
  if (present : bool) then
    existing ← reading (read_limited p 64);
    checked (refuse (negb (bool_decide (existing = contents))) mismatch)
  else atomic_write p contents.

Definition indexed_session (policy : SessionPolicy) (relay : RelayPolicy) (secret : SecretKey) : disk_op Session :=
  '(commitments, senders, total) ← reading (rebuild_session_index relay);
  reading (λ d, Ok (MkSession d policy relay secret commitments senders total)).

Definition init_with_relay_policy (policy : SessionPolicy) (relay : RelayPolicy) (fresh : SecretKey)
  : disk_op Session :=
  relay ← checked (relay_policy_validate relay);
  updating set_root_private;;
  bind_file POLICY (encode_policy policy) "session chain policy mismatch";;
  bind_file RELAY_POLICY (encode_relay_policy relay) "session relay policy mismatch";;
  secret ← load_or_create_identity fresh;
  indexed_session policy relay secret.

Definition init (policy : SessionPolicy) (fresh : SecretKey) : disk_op Session :=
  init_with_relay_policy policy relay_policy_default fresh.

Definition open : disk_op Session :=
  reading require_private_directory;;
  b ← reading (read_limited POLICY 64);
  policy ← checked (decode_policy b);
  present ← reading (λ d, Ok (exists_file RELAY_POLICY d));
  relay ← (if (present : bool) then b ← reading (read_limited RELAY_POLICY 64); checked (decode_relay_policy b)
           else atomic_write RELAY_POLICY (encode_relay_policy relay_policy_default);; mret relay_policy_default);
  secret ← reading load_identity;
  indexed_session policy relay secret.

(** ** Loading the transcript *)
Definition load_proposal (s : Session) : gossip (option Proposal) :=
  if exists_file PROPOSAL (disk s) then
    wire ← read_limited PROPOSAL MAX_PAYLOAD_BYTES (disk s);
    p ← batch_error (proposal_from_wire wire);
    require_live_proposal p;;
    batch_error (validate_at p (sp_chain_id (s_policy s)) (current_height (s_policy s)));;
    Ok (Some p)
  else Ok None.

Definition proposal_or (message : string) (s : Session) : gossip Proposal :=
  p ← load_proposal s; ok_or p (GProtocol message).
Definition proposal (s : Session) : gossip Proposal := proposal_or "session has no proposal" s.

Definition load_commitments (p : option Proposal) (s : Session) : list ParticipantCommitment :=
  match p with None => [] | Some _ => pool s end.

(** The replacement check on consecutive epochs. *)
Fixpoint chained (p : Proposal) (ms : list Manifest) : gossip () :=
  match ms with
  | a :: (b :: _) as rest =>
    refuse (negb (replacement_epoch a + 1 =? replacement_epoch b)) "persisted manifests skip/repeat an epoch";;
    expected ← batch_error (replacement a p (feerate_sat_vb b));
    refuse (negb (bool_decide (expected = b))) "persisted replacement violates C1 invariants";;
    chained p rest
  | _ => Ok tt
  end.

Definition epoch_le (a b : Manifest) : Prop := replacement_epoch a ≤ replacement_epoch b.
#[local] Instance epoch_le_dec : RelDecision epoch_le.
Proof. intros a b. unfold epoch_le. apply _. Defined.

Definition load_manifests (proposal : option Proposal) (commitments : list ParticipantCommitment) (s : Session)
  : gossip (list Manifest) :=
  match proposal with
  | None => Ok []
  | Some p =>
    ms ← mapM (λ q, wire ← read_limited q MAX_PAYLOAD_BYTES (disk s);
                    batch_error (from_wire_pool p commitments wire)) (read_sorted "manifests" (disk s));
    let ms := merge_sort epoch_le ms in
    chained p ms;;
    Ok ms
  end.

Definition index_le (a b : SignatureShare) : Prop := input_index a ≤ input_index b.
#[local] Instance index_le_dec : RelDecision index_le.
Proof. intros a b. unfold index_le. apply _. Defined.

Definition load_signatures (m : Manifest) (p : Proposal) (s : Session) : gossip (list SignatureShare) :=
  let prefix := to_hex (manifest_id m) ++ [45] in
  shares ← mapM (λ q, wire ← read_limited q MAX_PAYLOAD_BYTES (disk s);
                      share ← batch_error (share_from_wire wire);
                      batch_error (verify_signature_share m p share);;
                      Ok share)
                (filter (λ q : path, starts_with q.2 prefix = true) (read_sorted "signatures" (disk s)));
  Ok (merge_sort index_le shares).

(** Proposal, pool and manifests, with the message of a missing proposal. *)
Definition transcript (missing : string) (s : Session)
  : gossip (Proposal * list ParticipantCommitment * list Manifest) :=
  p ← proposal_or missing s;
  let cs := load_commitments (Some p) s in
  ms ← load_manifests (Some p) cs s;
  Ok (p, cs, ms).

Definition named (id : bytes) (ms : list Manifest) : option Manifest :=
  find_first (λ m, bool_decide (manifest_id m = id)) ms.

Definition latest_manifest (s : Session) : gossip Manifest :=
  '(_, _, ms) ← transcript "session has no proposal" s;
  ok_or (last ms) (GProtocol "session has no manifest").

Definition manifest (id : bytes) (s : Session) : gossip Manifest :=
  '(_, _, ms) ← transcript "session has no proposal" s;
  ok_or (named id ms) (GProtocol "session has no named manifest").

Definition load_phase (s : Session) : gossip (option ProtocolPhase) :=
  if exists_file PHASE (disk s) then
    b ← read_limited PHASE 4096 (disk s);
    text ← ok_or (from_utf8 b) (GProtocol "phase utf8");
    name ← ok_or (head (lines text)) (GProtocol "empty phase file");
    Some <$> phase_parse name
  else Ok None.

Definition has_any_signature_share (s : Session) : gossip bool :=
  p ← load_proposal s;
  match p with
  | None => Ok false
  | Some p =>
    ms ← load_manifests (Some p) (load_commitments (Some p) s) s;
    foldr (λ m rest, shares ← load_signatures m p s;
                     match shares with [] => rest | _ => Ok true end) (Ok false) ms
  end.

Definition status (s : Session) : gossip SessionStatus :=
  p ← load_proposal s;
  let cs := load_commitments p s in
  ms ← load_manifests p cs s;
  let latest := last ms in
  shares ← (match latest, p with
            | Some m, Some p => length <$> load_signatures m p s
            | _, _ => Ok 0%nat
            end);
  let derived := match p, latest with
    | None, _ => Ready
    | _, Some m => if exists_file (signed_path (manifest_id m)) (disk s) then SignedPersisted else ManifestReady
    | _, None => match cs with [] => Proposed | _ => Committed end
    end in
  phase ← load_phase s;
  Ok {| st_phase := default derived phase; st_batch_id := batch_id <$> p; st_commitments := length cs;
        st_manifests := length ms; latest_manifest_id := manifest_id <$> latest; signature_shares := shares;
        required_signatures := match latest with Some m => length (commitments m) + 1 | None => 0 end |}.

(** ** Events and phases *)
Definition append_event (event : rstring) : session_op () :=
  limit ← reading (λ s, Ok (max_event_bytes (relay_policy s)));
  on_disk (append_event_to limit event).

Definition persist_phase (phase : ProtocolPhase) (evidence : rstring) : session_op () :=
  on_disk (atomic_write PHASE (utf8 (phase_name phase ++ [10] ++ evidence ++ [10])));;
  append_event (lit "phase " ++ phase_name phase ++ [32] ++ evidence).

Definition mark_phase (next : ProtocolPhase) (evidence : rstring) : session_op () :=
  checked (refuse (has_newline evidence) "phase evidence must be one line");;
  st ← reading status;
  shares ← (if bool_decide (next ∈ [AbortedBeforeSignature; ExpiredUnsigned])
            then reading has_any_signature_share else mret false);
  checked (refuse (negb (phase_allowed (st_phase st) next shares (st_manifests st)))
    "illegal batch phase transition");;
  persist_phase next evidence.

(** ** Signer-local reservations *)
Definition persist_reservation (r : LocalReservation) : session_op () :=
  on_disk (atomic_write (reservation_path (lr_operation_id r)) (encode_reservation r)).

Definition local_reservation (operation : bytes) (s : Session) : gossip LocalReservation :=
  b ← read_limited (reservation_path operation) 128 (disk s);
  decode_reservation b.

(** The loop over the stored reservations: the one to return, if the operation has it already. *)
Fixpoint find_reservation (operation : bytes) (o : OutPoint) (paths : list path) (s : Session)
  : gossip (option LocalReservation) :=
  match paths with
  | [] => Ok None
  | p :: paths =>
    b ← read_limited p 128 (disk s);
    existing ← decode_reservation b;
    if bool_decide (lr_operation_id existing = operation) then
      if bool_decide (lr_outpoint existing = o) then Ok (Some existing)
      else Err (GProtocol "operation already reserves another Bitcoin input")
    else
      refuse (bool_decide (lr_outpoint existing = o) && negb (is_releasable (lr_phase existing)))
        "Bitcoin input is reserved by another local operation";;
      find_reservation operation o paths s
  end.

Definition reserve_local_input (operation : bytes) (o : OutPoint) : session_op LocalReservation :=
  existing ← reading (λ s, find_reservation operation o (read_paths_with_extension "reservations" "bin" (disk s)) s);
  match existing with
  | Some r => mret r
  | None =>
    let r := {| lr_operation_id := operation; lr_outpoint := o; lr_phase := CommittedUnsigned |} in
    persist_reservation r;;
    mret r
  end.

Definition require_reservation (supplied : LocalReservation) (operation : bytes) (o : OutPoint) (s : Session)
  : gossip () :=
  refuse (negb (bool_decide (lr_operation_id supplied = operation)) || negb (bool_decide (lr_outpoint supplied = o)))
    "local reservation does not match this operation and input";;
  persisted ← local_reservation operation s;
  refuse (negb (bool_decide (persisted = supplied))) "local reservation capability is stale";;
  refuse (is_releasable (lr_phase persisted)) "local reservation is no longer signable".

(** ** Ingesting a frame *)
Definition arrived_before (what : MessageKind) : string :=
  match what with
  | KProposal => ""
  | KCommitment => "commitment arrived before proposal"
  | KManifest => "manifest arrived before proposal"
  | KSignature => "signature arrived before proposal"
  end.

Definition verify_origin_authorization (f : SignedFrame) (s : Session) : gossip () :=
  match f_kind f with
  | KProposal =>
    p ← batch_error (proposal_from_wire (f_payload f));
    require_live_proposal p;;
    verify_origin_signature f (stock_owner_pubkey p)
  | KCommitment =>
    p ← proposal_or (arrived_before KCommitment) s;
    c ← batch_error (commitment_from_wire p (f_payload f));
    verify_origin_signature f (fee_pubkey c)
  | KManifest | KSignature =>
    refuse (bool_decide (is_Some (f_origin f))) "manifest/signature frames must not carry origin authorization"
  end.

Definition in_pool (c : ParticipantCommitment) (cs : list ParticipantCommitment) : bool :=
  existsb (λ e, bool_decide (commitment_id e = commitment_id c)) cs.

Definition enforce_frame_policy (f : SignedFrame) (wire_len : Z) (s : Session) : gossip () :=
  projected ← ok_or (checked_add64 (stored_frame_bytes s) wire_len) (GProtocol "stored frame-byte counter overflow");
  refuse (projected >? max_session_bytes (relay_policy s)) "session frame-byte quota exceeded";;
  match f_kind f with
  | KProposal =>
    existing ← load_proposal s;
    match existing with
    | Some p => refuse (negb (bool_decide (proposal_wire p = f_payload f)))
                  "different proposal body in an initialized session"
    | None => Ok tt
    end
  | KCommitment =>
    p ← proposal_or (arrived_before KCommitment) s;
    c ← batch_error (commitment_from_wire p (f_payload f));
    if in_pool c (pool s) then Ok tt
    else
      refuse (Z.min (max_commitments (relay_policy s)) (participant_count p) <=? Z.of_nat (length (pool s)))
        "authorized commitment quota exceeded";;
      refuse (bool_decide (f_sender f ∈ commitment_senders s)) "relay identity already authorized another commitment";;
      refuse (existsb (λ e, collides e c) (pool s))
        "authorized commitment identity/outpoint/operation/payload quota exceeded"
  | KManifest =>
    p ← proposal_or (arrived_before KManifest) s;
    m ← batch_error (from_wire_pool p (pool s) (f_payload f));
    refuse (max_replacement_epochs (relay_policy s) <=? replacement_epoch m) "local replacement-epoch quota exceeded"
  | KSignature => Ok tt
  end.

(** Whether a manifest extends the stored epochs. *)
Definition admissible_manifest (p : Proposal) (existing : list Manifest) (m : Manifest) : gossip () :=
  match find_first (λ e, replacement_epoch e =? replacement_epoch m) existing with
  | Some same_epoch => refuse (negb (bool_decide (same_epoch = m))) "manifest equivocation at one epoch"
  | None =>
    if replacement_epoch m =? 0 then
      refuse (negb (bool_decide (existing = []))) "late epoch-zero manifest"
    else
      previous ← ok_or (find_first (λ e, replacement_epoch e + 1 =? replacement_epoch m) existing)
        (GProtocol "replacement manifest skipped an epoch");
      expected ← batch_error (replacement previous p (feerate_sat_vb m));
      refuse (negb (bool_decide (expected = m))) "replacement manifest violates C1 invariants"
  end.

Definition persist_semantic (f : SignedFrame) : session_op () :=
  match f_kind f with
  | KProposal =>
    p ← checked (batch_error (proposal_from_wire (f_payload f)));
    reading (λ s, batch_error (validate_at p (sp_chain_id (s_policy s)) (current_height (s_policy s))));;
    on_disk (semantic_write PROPOSAL (f_payload f))
  | KCommitment =>
    p ← reading (proposal_or (arrived_before KCommitment));
    c ← checked (batch_error (commitment_from_wire p (f_payload f)));
    on_disk (semantic_write (commitment_path c) (f_payload f));;
    updating (λ s, if in_pool c (pool s) then s else admit_commitment c (f_sender f) s)
  | KManifest =>
    m ← reading (λ s,
      p ← proposal_or (arrived_before KManifest) s;
      let cs := load_commitments (Some p) s in
      m ← batch_error (from_wire_pool p cs (f_payload f));
      existing ← load_manifests (Some p) cs s;
      admissible_manifest p existing m;;
      Ok m);
    on_disk (semantic_write (manifest_path m) (f_payload f))
  | KSignature =>
    share ← reading (λ s,
      '(p, _, ms) ← transcript (arrived_before KSignature) s;
      share ← batch_error (share_from_wire (f_payload f));
      m ← ok_or (named (sh_manifest_id share) ms) (GProtocol "signature names an unavailable manifest");
      batch_error (verify_signature_share m p share);;
      Ok share);
    on_disk (semantic_write (signature_path (sh_manifest_id share) (input_index share)) (f_payload f))
  end.

Definition accepted_event (f : SignedFrame) : rstring :=
  lit "accepted " ++ kind_name (f_kind f) ++ [32] ++ to_hex (frame_id f) ++ [32] ++ to_hex (f_sender f).

Definition ingest (wire : bytes) : session_op IngestOutcome :=
  f ← checked (from_wire wire);
  reading (verify_origin_authorization f);;
  present ← reading (λ s, Ok (exists_file (frame_path f) (disk s)));
  if (present : bool) then
    existing ← reading (λ s, read_limited (frame_path f) MAX_FRAME_BYTES (disk s));
    existing ← checked (from_wire existing);
    checked (refuse (negb (bool_decide (f_kind existing = f_kind f)) ||
                     negb (bool_decide (f_payload existing = f_payload f))) "semantic frame-id collision");;
    mret Duplicate
  else
    phase ← reading load_phase;
    checked (refuse (match phase with Some p => rejects_new_protocol_messages p | None => false end)
      "terminal/confirmed session rejects new protocol messages");;
    reading (enforce_frame_policy f (Z.of_nat (length wire)));;
    persist_semantic f;;
    on_disk (atomic_write (frame_path f) wire);;
    total ← reading (λ s, ok_or (checked_add64 (stored_frame_bytes s) (Z.of_nat (length wire)))
                            (GProtocol "stored frame-byte counter overflow"));
    updating (set_frame_bytes total);;
    append_event (accepted_event f);;
    mret Accepted.

(** ** Publishing *)
Definition publish_frame (sign : Session → gossip SignedFrame) : session_op bytes :=
  f ← reading sign;
  ingest (to_wire f);;
  mret (to_wire f).

Definition publish (kind : MessageKind) (payload : bytes) : session_op bytes :=
  publish_frame (λ s, frame_sign kind payload (identity s)).

Definition publish_proposal (payload : bytes) (stock_key : SecretKey) : session_op bytes :=
  publish_frame (λ s, sign_proposal payload (identity s) stock_key).

Definition publish_commitment (payload : bytes) (fee_key : SecretKey) : session_op bytes :=
  publish_frame (λ s, p ← proposal_or (arrived_before KCommitment) s;
                      sign_commitment p payload (identity s) fee_key).

(** An error of the light client, as text. *)
Definition receipt_error {A} (r : result Error A) : gossip A :=
  match r with Ok a => Ok a | Err _ => Err (GProtocol "verified receipt") end.

Definition publish_verified_commitment (now : result Error Z) (payload : bytes) (fee_key : SecretKey)
    (verified : VerifiedCommitmentInputs) (reservation : LocalReservation) (max_age : Duration)
  : session_op bytes :=
  p ← reading proposal;
  c ← checked (batch_error (commitment_from_wire p payload));
  checked (receipt_error (commitment_require_fresh_for now verified p c max_age));;
  reading (require_reservation reservation (operation_id c) (fee_outpoint c));;
  publish_commitment payload fee_key.

Definition author_manifest : session_op bytes :=
  p ← reading proposal;
  m ← reading (λ s, batch_error (build p (pool s)));
  publish KManifest (manifest_wire m).

Definition author_replacement (feerate : Z) : session_op bytes :=
  p ← reading proposal;
  previous ← reading latest_manifest;
  m ← checked (batch_error (replacement previous p feerate));
  publish KManifest (manifest_wire m).

(** What a signer signs for an input: operation, outpoint, key and signature. *)
Definition sign_input (p : Proposal) (m : Manifest) (index : Z) (key : SecretKey)
  : gossip (bytes * OutPoint * bytes * Sig) :=
  if index =? 0 then
    s ← batch_error (sign_stock m p key);
    Ok (batch_id p, stock_outpoint p, stock_owner_pubkey p, s)
  else
    let i := Z.to_nat (index - 1) in
    c ← ok_or (commitments m !! i) (GProtocol "signature input index is outside the manifest");
    s ← batch_error (sign_participant m p i key);
    Ok (operation_id c, fee_outpoint c, fee_pubkey c, s).

Definition sign_and_publish (now : result Error Z) (id : bytes) (index : Z) (key : SecretKey)
    (verified : VerifiedBatchInputs) (reservation : LocalReservation) (max_age : Duration) : session_op bytes :=
  '(p, _, ms) ← reading (transcript "session has no proposal");
  m ← checked (ok_or (named id ms) (GProtocol "cannot sign an unavailable manifest"));
  checked (receipt_error (inputs_require_fresh_for now verified p m max_age));;
  '(operation, o, signer, signature) ← checked (sign_input p m index key);
  reading (require_reservation reservation operation o);;
  phase ← checked (batch_error (signature_released (lr_phase reservation)));
  persist_reservation {| lr_operation_id := operation; lr_outpoint := o; lr_phase := phase |};;
  share ← checked (batch_error (new_share {| sh_manifest_id := id; input_index := index;
                                             signer_pubkey := signer; sh_signature := signature |}));
  publish KSignature (share_wire share).

(** A fresh tip receipt moves the session's height. *)
Definition refresh_verified_tip (now : result Error Z) (tip : VerifiedChainTip) (max_age : Duration) : session_op () :=
  checked (receipt_error (tip_require_fresh now tip max_age));;
  reading (λ s, refuse (negb (bool_decide (vt_chain_id tip = sp_chain_id (s_policy s))))
    "verified tip belongs to another chain");;
  checked (refuse (vt_height tip >? u32_max) "verified tip height exceeds u32");;
  updating (λ s, set_policy {| sp_chain_id := sp_chain_id (s_policy s); current_height := vt_height tip |} s);;
  policy ← reading (λ s, Ok (s_policy s));
  on_disk (atomic_write POLICY (encode_policy policy));;
  append_event (lit "verified_tip " ++ decimal (vt_height tip) ++ [32] ++ to_hex (vt_hash tip)).

(** ** Signed transactions *)
Definition signed_transaction (id : bytes) (s : Session) : gossip BtcTx :=
  '(p, _, ms) ← transcript "session has no proposal" s;
  m ← ok_or (named id ms) (GProtocol "session has no named manifest");
  b ← read_limited (signed_path id) MAX_PAYLOAD_BYTES (disk s);
  tx ← ok_or (btx_deserialize b) (GProtocol "signed transaction");
  refuse (negb (bool_decide (btx_serialize tx = b))) "non-canonical signed transaction encoding";;
  shares ← load_signatures m p s;
  expected ← batch_error (finalize_shares m p shares);
  refuse (negb (bool_decide (expected = tx))) "persisted transaction differs from verified shares";;
  Ok tx.

Definition latest_signed_transaction (s : Session) : gossip BtcTx :=
  '(_, _, ms) ← transcript "session has no proposal" s;
  m ← ok_or (last ms) (GProtocol "session has no manifest");
  signed_transaction (manifest_id m) s.

Definition signed_manifest_ids (s : Session) : gossip (list bytes) :=
  mapM (λ q : path, parse_hex_32 (file_stem q.2)) (read_paths_with_extension "signed" "tx" (disk s)).

Definition finalize_manifest (id : bytes) : session_op BtcTx :=
  '(p, _, ms) ← reading (transcript "cannot finalize without a proposal");
  m ← checked (ok_or (named id ms) (GProtocol "cannot finalize an unavailable manifest"));
  present ← reading (λ s, Ok (exists_file (signed_path id) (disk s)));
  if (present : bool) then reading (signed_transaction id)
  else
    st ← reading status;
    checked (refuse (rejects_new_protocol_messages (st_phase st))
      "terminal/confirmed session cannot finalize a new manifest");;
    shares ← reading (load_signatures m p);
    tx ← checked (batch_error (finalize_shares m p shares));
    on_disk (atomic_write (signed_path id) (btx_serialize tx));;
    st ← reading status;
    (if bool_decide (st_phase st ∈ [Ready; Proposed; Committed; ManifestReady; SignedPersisted])
     then persist_phase SignedPersisted (to_hex id)
     else append_event (lit "signed_persisted " ++ to_hex id));;
    mret tx.

Definition finalize_latest : session_op BtcTx :=
  '(_, _, ms) ← reading (transcript "cannot finalize without a proposal");
  m ← checked (ok_or (last ms) (GProtocol "cannot finalize without a manifest"));
  finalize_manifest (manifest_id m).

(** ** The relay loop *)

(** What a connection yields before its deadline. *)
Inductive Incoming := Got (chunk : bytes) | Interrupted | TimedOut | Ended | ReadFailed.

(** A read returns at most what is asked for. *)
Fixpoint read_exact_before (need : nat) (events : list Incoming) : gossip (bytes * list Incoming) :=
  match need with
  | O => Ok ([], events)
  | S _ =>
    match events with
    | [] | TimedOut :: _ => Err (GProtocol "incoming frame exceeded deadline")
    | Interrupted :: events => read_exact_before need events
    | Ended :: _ | Got [] :: _ => Err (GProtocol "incoming frame ended early")
    | ReadFailed :: _ => Err (GProtocol "read incoming frame")
    | Got chunk :: events =>
      if bool_decide (length chunk ≤ need)%nat then
        '(b, events) ← read_exact_before (need - length chunk) events;
        Ok (chunk ++ b, events)
      else Ok (take need chunk, Got (drop need chunk) :: events)
    end
  end.

Record RelayReport := {
  rr_outcome : IngestOutcome;
  forwarded : nat;
  failed_peers : list (rstring * GossipError);
}.

(** [network]: connecting and writing to a peer. *)
Definition send_frame (network : rstring → bytes → gossip ()) (wire : bytes) (peer : rstring) : gossip () :=
  refuse (Z.of_nat (length wire) >? MAX_FRAME_BYTES) "frame exceeds relay bound";;
  network peer (le_bytes 4 (Z.of_nat (length wire)) ++ wire).

Fixpoint forward (network : rstring → bytes → gossip ()) (wire : bytes) (peers : list rstring)
  : nat * list (rstring * GossipError) :=
  match peers with
  | [] => (0%nat, [])
  | peer :: peers =>
    let '(n, failures) := forward network wire peers in
    match send_frame network wire peer with
    | Ok _ => (S n, failures)
    | Err e => (n, (peer, e) :: failures)
    end
  end.

Definition process_stream (network : rstring → bytes → gossip ()) (events : list Incoming) (peers : list rstring)
  : session_op RelayReport :=
  '(length_bytes, events) ← checked (read_exact_before 4 events);
  let n := le_val length_bytes in
  checked (refuse (n >? MAX_FRAME_BYTES) "incoming frame exceeds relay bound");;
  '(wire, _) ← checked (read_exact_before (Z.to_nat n) events);
  outcome ← ingest wire;
  let '(n, failures) := match outcome with
    | Accepted => forward network wire peers
    | Duplicate => (0%nat, [])
    end in
  mret {| rr_outcome := outcome; forwarded := n; failed_peers := failures |}.

Inductive RelayAttempt := Processed (r : RelayReport) | Rejected (remote reason : rstring).

(** [describe]: the text of an error. *)
Definition relay_next_with_refresh (describe : GossipError → rstring) (network : rstring → bytes → gossip ())
    (refresh : session_op ()) (remote : rstring) (events : list Incoming) (peers : list rstring)
  : session_op RelayAttempt := λ s,
  match refresh s with
  | (Err e, s) => (Err e, s)
  | (Ok _, s) =>
    match process_stream network events peers s with
    | (Ok r, s) => (Ok (Processed r), s)
    | (Err (GIo as e), s) | (Err (GDecode as e), s) => (Err e, s)
    | (Err e, s) =>
      let reason := bounded_one_line (describe e) 512 in
      (append_event (lit "rejected " ++ remote ++ [32] ++ reason);; mret (Rejected remote reason)) s
    end
  end.

Definition relay_next (describe : GossipError → rstring) (network : rstring → bytes → gossip ())
    (remote : rstring) (events : list Incoming) (peers : list rstring) : session_op RelayAttempt :=
  relay_next_with_refresh describe network (mret tt) remote events peers.
End session.

(** ** Calls in sequence *)
Section calls.
Context `{Poseidon, Sha256, BitcoinLib, Ecdsa, !Secp}.

(** The calls that change a session; a reopening drops the memory and opens the directory. *)
Inductive Call :=
  | CallReserve (operation : bytes) (o : OutPoint)
  | CallIngest (wire : bytes)
  | CallPublish (kind : MessageKind) (payload : bytes)
  | CallProposal (payload : bytes) (stock_key : SecretKey)
  | CallCommitment (now : result Error Z) (payload : bytes) (fee_key : SecretKey)
      (verified : VerifiedCommitmentInputs) (reservation : LocalReservation) (max_age : Duration)
  | CallManifest
  | CallReplacement (feerate : Z)
  | CallSign (now : result Error Z) (id : bytes) (index : Z) (key : SecretKey) (verified : VerifiedBatchInputs)
      (reservation : LocalReservation) (max_age : Duration)
  | CallRefresh (now : result Error Z) (tip : VerifiedChainTip) (max_age : Duration)
  | CallFinalize (id : bytes)
  | CallMark (next : ProtocolPhase) (evidence : rstring)
  | CallReopen.

Definition reopen : prog GossipError Session () := λ s,
  match open (disk s) with
  | (Ok s', _) => (Ok tt, s')
  | (Err e, d) => (Err e, set_disk d s)
  end.

Definition forget {A} (m : prog GossipError Session A) : prog GossipError Session () := m;; mret tt.

Definition run_call (c : Call) : prog GossipError Session () :=
  match c with
  | CallReserve operation o => forget (reserve_local_input operation o)
  | CallIngest wire => forget (ingest wire)
  | CallPublish kind payload => forget (publish kind payload)
  | CallProposal payload key => forget (publish_proposal payload key)
  | CallCommitment now payload key verified reservation age =>
    forget (publish_verified_commitment now payload key verified reservation age)
  | CallManifest => forget author_manifest
  | CallReplacement rate => forget (author_replacement rate)
  | CallSign now id index key verified reservation age =>
    forget (sign_and_publish now id index key verified reservation age)
  | CallRefresh now tip age => refresh_verified_tip now tip age
  | CallFinalize id => forget (finalize_manifest id)
  | CallMark next evidence => mark_phase next evidence
  | CallReopen => reopen
  end.

(** A caller that goes on after errors. *)
Definition run_calls (calls : list Call) (s : Session) : Session := foldl (λ s c, (run_call c s).2) s calls.
End calls.
