(* ===== verification/GossipSafety.v ===== *)
(** * Safety of gossip sessions, whatever the storage does (opencsv-cli)

    Theorems on [GossipSession.v] that hold for every fault schedule: a signature share is
    published only after its reservation is durably released, reservations stay exclusive over
    every sequence of calls, and what a stopped or expired session still does. *)

From S2P Require Import Prelude Text Field Commitments Kernel Anchor Batch Chain Accept Wire Block Bitcoin.
From S2P Require Import Network Peer FullScan Scan Client BatchV2 BatchDemo BatchInputs GossipFrame GossipDemo GossipStore.
From S2P Require Import GossipSession.
#[local] Open Scope Z_scope.

(** ** Which files the calls write *)
Definition transcript_file (q : path) : Prop :=
  log_file q ∨ q = PROPOSAL ∨ q.1 = lit "frames" ∨ q.1 = lit "commitments" ∨ q.1 = lit "manifests" ∨
  q.1 = lit "signatures".
(** Everything but the reservations. *)
Definition not_reservation (q : path) : Prop := q.1 ≠ lit "reservations".

Lemma transcript_not_reservation q : transcript_file q → not_reservation q.
Proof. unfold not_reservation. intros [[->| ->]|[->|[->|[->|[->| ->]]]]]; done. Qed.

Lemma log_transcript q : log_file q → transcript_file q.
Proof. by left. Qed.

Section untouched.
Context `{Poseidon, Sha256, BitcoinLib, Ecdsa, !Secp}.

Abbreviation session_op := (prog GossipError Session).

Definition session_untouched (P : path → Prop) (s s' : Session) : Prop := disk_untouched P (disk s) (disk s').
#[export] Instance session_untouched_preorder P : PreOrder (session_untouched P).
Proof. unfold session_untouched. split; [by intros s|]. intros s t u Hst Htu. by transitivity (disk t). Qed.

Lemma on_disk_untouched P {A} (m : disk_op A) :
  always (disk_untouched P) m → always (session_untouched P) (on_disk m).
Proof.
  intros Hm s r s'. unfold on_disk, zoom. destruct (m (disk s)) as [x d] eqn:E. intros [= <- <-].
  exact (Hm _ _ _ E).
Qed.

Lemma weaken_untouched (P Q : path → Prop) {A} (m : session_op A) : (∀ q, P q → Q q) →
  always (session_untouched P) m → always (session_untouched Q) m.
Proof. intros HPQ Hm s r s' E. eapply disk_untouched_weaken; [exact HPQ|by eapply Hm]. Qed.

Lemma append_event_log e : always (session_untouched log_file) (append_event e).
Proof.
  unfold append_event. always_steps. apply on_disk_untouched, append_event_untouched; [by left|by right].
Qed.

Lemma persist_phase_files p e : always (session_untouched (λ q, log_file q ∨ q = PHASE)) (persist_phase p e).
Proof.
  unfold persist_phase. always_steps.
  - apply on_disk_untouched, atomic_write_untouched. by right.
  - eapply weaken_untouched; [|apply append_event_log]. by left.
Qed.

Lemma semantic_transcript f : always (session_untouched transcript_file) (persist_semantic f).
Proof.
  unfold persist_semantic. destruct (f_kind f); always_steps.
  - apply on_disk_untouched, semantic_write_untouched. by right; left.
  - apply on_disk_untouched, semantic_write_untouched. by right; right; right; left.
  - apply (always_updating _). intros s. unfold session_untouched. case_if; done.
  - apply on_disk_untouched, semantic_write_untouched. by right; right; right; right; left.
  - apply on_disk_untouched, semantic_write_untouched. by right; right; right; right; right.
Qed.

Lemma ingest_transcript wire : always (session_untouched transcript_file) (ingest wire).
Proof.
  unfold ingest. always_steps. case_match; always_steps.
  - apply semantic_transcript.
  - apply on_disk_untouched, atomic_write_untouched. by right; right; left.
  - apply (always_updating _). intros s. unfold session_untouched. done.
  - eapply weaken_untouched; [apply log_transcript|apply append_event_log].
Qed.

Lemma publish_transcript sign : always (session_untouched transcript_file) (publish_frame sign).
Proof. unfold publish_frame. always_steps. apply ingest_transcript. Qed.

Lemma finalize_files id : always (session_untouched (λ q, log_file q ∨ q = PHASE ∨ q = signed_path id))
  (finalize_manifest id).
Proof.
  unfold finalize_manifest. always_steps. repeat (case_match; always_steps).
  - apply on_disk_untouched, atomic_write_untouched. by right; right.
  - eapply weaken_untouched; [|apply persist_phase_files]. naive_solver.
  - eapply weaken_untouched; [|apply append_event_log]. by left.
Qed.

Lemma mark_phase_files p e : always (session_untouched (λ q, log_file q ∨ q = PHASE)) (mark_phase p e).
Proof. unfold mark_phase. always_steps; [case_if; always_steps|apply persist_phase_files]. Qed.

Lemma refresh_files now tip age : always (session_untouched (λ q, log_file q ∨ q = POLICY))
  (refresh_verified_tip now tip age).
Proof.
  unfold refresh_verified_tip. always_steps.
  - apply (always_updating _). intros s. unfold session_untouched. done.
  - apply on_disk_untouched, atomic_write_untouched. by right.
  - eapply weaken_untouched; [|apply append_event_log]. by left.
Qed.

(** A read that fails ends the program where it is; one that succeeds changes nothing. *)
Lemma reading_bind {A B} (f : Session → gossip A) (k : A → session_op B) s :
  (reading f ≫= k) s = match f s with Ok a => k a s | Err e => (Err e, s) end.
Proof. rewrite prog_bind_eq. unfold reading. by destruct (f s). Qed.
Lemma checked_bind {A B} (x : gossip A) (k : A → session_op B) s :
  (checked x ≫= k) s = match x with Ok a => k a s | Err e => (Err e, s) end.
Proof. rewrite prog_bind_eq. unfold checked. by destruct x. Qed.

Lemma on_disk_eq {A} (m : disk_op A) s : on_disk m s = let '(r, d) := m (disk s) in (r, set_disk d s).
Proof. reflexivity. Qed.

Lemma require_reservation_Ok r op o s u : require_reservation r op o s = Ok u →
  lr_operation_id r = op ∧ lr_outpoint r = o ∧ local_reservation op s = Ok r ∧ is_releasable (lr_phase r) = false.
Proof.
  unfold require_reservation. intros E. apply bind_Ok in E as ([] & E1%refuse_Ok & E).
  apply bind_Ok in E as (p & E2 & E). apply bind_Ok in E as ([] & E3%refuse_Ok & E). destruct u. apply refuse_Ok in E.
  bool_props. by subst.
Qed.

Lemma sign_input_fields p m index key op o signer sg : sign_input p m index key = Ok (op, o, signer, sg) →
  (op = batch_id p ∧ o = stock_outpoint p) ∨
  ∃ c, commitments m !! Z.to_nat (index - 1) = Some c ∧ op = operation_id c ∧ o = fee_outpoint c.
Proof.
  unfold sign_input. case_if; intros E.
  - apply bind_Ok in E as (? & _ & [= <- <- <- <-]). by left.
  - apply bind_Ok in E as (c & Ec%ok_or_Ok & E). apply bind_Ok in E as (? & _ & [= <- <- <- <-]). right. eauto.
Qed.

(** What [sign_and_publish] leaves, for every outcome of the storage: all files as they were,
    after a failure, or the reservation released. *)
Lemma sign_outcome now id index key verified r age s x s' :
  sign_and_publish now id index key verified r age s = (x, s') →
  (files (disk s') = files (disk s) ∧ is_ok x = false) ∨
  (local_reservation (lr_operation_id r) s = Ok r ∧ is_releasable (lr_phase r) = false ∧
   files (disk s') !! reservation_path (lr_operation_id r) = Some (encode_reservation
     {| lr_operation_id := lr_operation_id r; lr_outpoint := lr_outpoint r; lr_phase := SignatureReleased |}) ∧
   untouched (λ q, transcript_file q ∨ q = reservation_path (lr_operation_id r)) (files (disk s)) (files (disk s'))).
Proof.
  unfold sign_and_publish. rewrite reading_bind. destruct (transcript _ s) as [[[p cs] ms]|e]; [|intros [= <- <-]; by left].
  rewrite checked_bind. destruct (ok_or (named id ms) _) as [m|e]; [|intros [= <- <-]; by left].
  rewrite checked_bind. destruct (receipt_error _) as [u|e]; [|intros [= <- <-]; by left].
  rewrite checked_bind. destruct (sign_input p m index key) as [[[[op o] signer] sg]|e]; [|intros [= <- <-]; by left].
  rewrite reading_bind. destruct (require_reservation r op o s) as [u'|e] eqn:Er; [|intros [= <- <-]; by left].
  apply require_reservation_Ok in Er as (<- & <- & Hl & Hr).
  rewrite checked_bind. destruct (batch_error (signature_released (lr_phase r))) as [ph|e] eqn:Ep;
    [|intros [= <- <-]; by left].
  assert (ph = SignatureReleased) as -> by (destruct (lr_phase r); by (discriminate Ep || injection Ep as <-)).
  set (r' := {| lr_operation_id := lr_operation_id r; lr_outpoint := lr_outpoint r; lr_phase := SignatureReleased |}).
  rewrite prog_bind_eq. unfold persist_reservation. rewrite on_disk_eq.
  destruct (atomic_write _ _ (disk s)) as [y d] eqn:Ew. apply atomic_write_cases in Ew as [[-> Ed]|Ed].
  { intros [= <- <-]. by left. }
  intros E. right. assert (session_untouched transcript_file (set_disk d s) s') as Hu.
  { destruct y as [[]|e]; [|by injection E as <- <-]. revert E. generalize x s'.
    apply (always_bind _); [apply (always_checked _)|]. intros share. apply publish_transcript. }
  apply du_files in Hu. cbn [disk set_disk] in Hu. split_and!; [done|done| |].
  - rewrite (Hu (reservation_path (lr_operation_id r))), Ed; [apply lookup_insert_eq|].
    intros Hq%transcript_not_reservation. by apply Hq.
  - intros q Hq. rewrite Hu by tauto. rewrite Ed. apply lookup_insert_ne. intros <-. apply Hq. by right.
Qed.
End untouched.

(** ** Publishing a signature *)
Section release.
Context `{Poseidon, Sha256, BitcoinLib, Ecdsa, !Secp}.

(** C31: whatever the storage does, [sign_and_publish] either fails without changing a file, or has
    replaced the signer's reservation on disk by the one whose signature is released; a share is
    stored or returned only in the second case. *)
Theorem release_precedes_share now id index key verified r age s :
  let '(x, s') := sign_and_publish now id index key verified r age s in
  (files (disk s') = files (disk s) ∧ is_ok x = false) ∨
  files (disk s') !! reservation_path (lr_operation_id r) = Some (encode_reservation
    {| lr_operation_id := lr_operation_id r; lr_outpoint := lr_outpoint r; lr_phase := SignatureReleased |}).
Proof.
  destruct (sign_and_publish _ _ _ _ _ _ _ s) as [x s'] eqn:E. apply sign_outcome in E as [?|(_ & _ & ? & _)]; auto.
Qed.
End release.

(** ** Reservations over any history *)
Section reservations.
Context `{Poseidon, Sha256, BitcoinLaws, Ecdsa, !Secp}.

Definition reserved (d : Disk) (r : LocalReservation) : Prop :=
  ∃ b, files d !! reservation_path (lr_operation_id r) = Some b ∧ decode_reservation b = Ok r.

Lemma reserved_unique d r1 r2 : reserved d r1 → reserved d r2 → lr_operation_id r1 = lr_operation_id r2 → r1 = r2.
Proof. intros (b & Eb & E1) (c & Ec & E2) Eo. rewrite Eo, Ec in Eb. injection Eb as ->. congruence. Qed.

Lemma reservation_path_inj a b : reservation_path a = reservation_path b → a = b.
Proof.
  unfold reservation_path, in_dir. intros [= E]. apply app_inv_tail in E.
  apply (f_equal from_hex) in E. rewrite !from_to_hex in E. by injection E.
Qed.

Lemma listed_ext dir ext stem : stem ≠ [] → Forall (λ x, x ≠ 46) (lit ext) →
  listed dir ext (in_dir dir (stem ++ 46 :: lit ext)).
Proof.
  intros Hs He. split; [done|]. cbn [snd in_dir]. unfold extension. rewrite rsplit_once_app by done.
  by rewrite bool_decide_eq_false_2.
Qed.

Lemma to_hex_nonempty b : b ≠ [] → to_hex b ≠ [].
Proof. intros Hb E. apply (f_equal length) in E. rewrite length_to_hex in E. destruct b; [done|]. cbn in E. lia. Qed.

Lemma listed_reservation op : length op = 32%nat → listed "reservations" "bin" (reservation_path op).
Proof.
  intros Hl. apply (listed_ext "reservations" "bin"); [|by repeat constructor].
  apply to_hex_nonempty. by intros ->.
Qed.

(** Every reservation file is the encoding of the reservation it is named after, and no two of
    them hold one Bitcoin input, unless one is over. *)
Record reservations_ok (d : Disk) : Prop := {
  ro_named : ∀ p b, files d !! p = Some b → listed "reservations" "bin" p →
    ∃ r, decode_reservation b = Ok r ∧ p = reservation_path (lr_operation_id r);
  ro_exclusive : ∀ r1 r2, reserved d r1 → reserved d r2 → is_releasable (lr_phase r1) = false →
    is_releasable (lr_phase r2) = false → lr_outpoint r1 = lr_outpoint r2 → r1 = r2;
}.

(** A reservation is kept, and a released one stays released. *)
Definition reservations_kept (d d' : Disk) : Prop := ∀ r, reserved d r →
  reserved d' r ∨ (is_releasable (lr_phase r) = false ∧ reserved d' {| lr_operation_id := lr_operation_id r;
    lr_outpoint := lr_outpoint r; lr_phase := SignatureReleased |}).

(** Calls that leave the reservation files alone. *)
Lemma reservations_same d d' : reservations_ok d → (∀ q, q.1 = lit "reservations" → files d' !! q = files d !! q) →
  reservations_ok d' ∧ reservations_kept d d'.
Proof.
  intros [Hn He] Hs. assert (∀ r, reserved d' r ↔ reserved d r) as Hr by (intros r; unfold reserved; by rewrite Hs).
  split; [|intros r Hd; left; by apply Hr]. split.
  - intros p b Hp [Hl Hx]. rewrite Hs in Hp by done. by apply Hn.
  - intros r1 r2 Ha%Hr Hb%Hr. by apply He.
Qed.

Lemma read_limited_Ok p n d b : read_limited p n d = Ok b ↔ files d !! p = Some b ∧ Z.of_nat (length b) ≤ n.
Proof.
  unfold read_limited. split.
  - intros E. apply bind_Ok in E as (c & Ec%ok_or_Ok & E). apply bind_Ok in E as ([] & El%refuse_Ok & [= ->]).
    rewrite Z.gtb_ltb in El. by bool_props.
  - intros [-> Hn]. cbn [ok_or mbind result_bind]. by rewrite Z.gtb_ltb, (proj2 (Z.ltb_ge _ _)).
Qed.

Lemma find_reservation_Ok op o s r : ∀ paths, find_reservation op o paths s = Ok r →
  match r with
  | Some r => ∃ p b, p ∈ paths ∧ files (disk s) !! p = Some b ∧ decode_reservation b = Ok r ∧
                lr_operation_id r = op ∧ lr_outpoint r = o
  | None => Forall (λ p, ∃ b e, files (disk s) !! p = Some b ∧ decode_reservation b = Ok e ∧
                lr_operation_id e ≠ op ∧ (lr_outpoint e = o → is_releasable (lr_phase e) = true)) paths
  end.
Proof.
  induction paths as [|p paths IH]; cbn [find_reservation]; [intros [= <-]; by constructor|]. intros E.
  apply bind_Ok in E as (b & [Eb _]%read_limited_Ok & E). apply bind_Ok in E as (e & Ee & E).
  case_bool_decide as Hop.
  - case_bool_decide as Ho; [|done]. injection E as <-. exists p, b. split_and!; [set_solver|done..].
  - apply bind_Ok in E as ([] & Ex%refuse_Ok & E). apply IH in E. destruct r as [r|].
    + destruct E as (q & c & Hq & E). exists q, c. split; [set_solver|done].
    + constructor; [|done]. exists b, e. split_and!; [done..|]. intros Ho.
      rewrite bool_decide_eq_true_2 in Ex by done. cbn [andb] in Ex. by bool_props.
Qed.

(** Replacing or adding the reservation of one operation. *)
Lemma reservations_write d d' r : length (lr_operation_id r) = 32%nat → outpoint_wf (lr_outpoint r) →
  (∀ q, q.1 = lit "reservations" → q ≠ reservation_path (lr_operation_id r) → files d' !! q = files d !! q) →
  reserved d' r → reservations_ok d →
  (∀ e, reserved d e → lr_outpoint e = lr_outpoint r → is_releasable (lr_phase e) = false →
    lr_operation_id e = lr_operation_id r) →
  (∀ e, reserved d e → lr_operation_id e = lr_operation_id r → is_releasable (lr_phase e) = false ∧
    r = {| lr_operation_id := lr_operation_id e; lr_outpoint := lr_outpoint e; lr_phase := SignatureReleased |}) →
  reservations_ok d' ∧ reservations_kept d d'.
Proof.
  intros HL HW Hq Hr [Hn He] Hfree Hown.
  assert (∀ e, reserved d' e → e = r ∨ reserved d e) as Hback.
  { intros e Hd. destruct (decide (lr_operation_id e = lr_operation_id r)) as [Ho|Ho].
    - left. by apply (reserved_unique d').
    - right. destruct Hd as (b & Eb & Db). exists b. split; [|done]. rewrite <- Hq; [done|done|].
      by intros ?%reservation_path_inj. }
  split; [split|].
  - intros p b Hp Hl. destruct (decide (p = reservation_path (lr_operation_id r))) as [->|Hne].
    + destruct Hr as (c & Ec & Dc). rewrite Ec in Hp. injection Hp as <-. exists r. by split.
    + rewrite Hq in Hp; [by apply Hn|by apply Hl|done].
  - intros r1 r2 Ha Hb Hx Hy Ho. destruct (Hback _ Ha) as [->|Ha']; destruct (Hback _ Hb) as [->|Hb']; [done| | |by apply He].
    + apply (reserved_unique d'); [done..|]. symmetry. by apply Hfree.
    + apply (reserved_unique d'); [done..|]. by apply Hfree.
  - intros e Hd. destruct (decide (lr_operation_id e = lr_operation_id r)) as [Ho|Ho].
    + right. destruct (Hown e Hd Ho) as [Hx Er]. split; [done|]. by rewrite <- Er.
    + left. destruct Hd as (b & Eb & Db). exists b. split; [|done]. rewrite Hq; [done|done|].
      by intros ?%reservation_path_inj.
Qed.

Lemma reserved_listed d r : reserved d r →
  reservation_path (lr_operation_id r) ∈ read_paths_with_extension "reservations" "bin" d.
Proof.
  intros (b & Eb & [[HL _] _]%reservation_exact). apply read_paths_elem. split; [by apply listed_reservation|by eexists].
Qed.

Lemma reserve_keeps op o s x s' : length op = 32%nat → outpoint_wf o → reservations_ok (disk s) →
  reserve_local_input op o s = (x, s') →
  (reservations_ok (disk s') ∧ reservations_kept (disk s) (disk s')) ∧
  (∀ r, x = Ok r → reserved (disk s') r ∧ lr_operation_id r = op ∧ lr_outpoint r = o).
Proof.
  intros HL HW Hok E. unfold reserve_local_input in E. rewrite reading_bind in E.
  destruct (find_reservation _ _ _ s) as [[r|]|e] eqn:Ef; [| |injection E as <- <-; split; [by apply reservations_same|done]].
  - apply find_reservation_Ok in Ef as (p & b & Hp & Eb & Db & Ho & Hx). injection E as <- <-.
    split; [by apply reservations_same|]. intros r' [= <-]. split_and!; [|done..]. exists b. split; [|done].
    apply read_paths_elem in Hp as [Hl _]. destruct (ro_named _ Hok p b Eb Hl) as (r' & Dr & ->). congruence.
  - apply find_reservation_Ok in Ef. rewrite Forall_forall in Ef. set (r := {| lr_operation_id := op |}) in *.
    assert (∀ e, reserved (disk s) e → lr_operation_id e ≠ op ∧ (lr_outpoint e = o → is_releasable (lr_phase e) = true)) as Hfree.
    { intros e He. destruct (Ef _ (reserved_listed _ _ He)) as (b & e' & Eb & Db & Hx).
      destruct He as (b' & Eb' & Db'). rewrite Eb in Eb'. injection Eb' as <-. rewrite Db in Db'. by injection Db' as <-. }
    assert (decode_reservation (encode_reservation r) = Ok r) as Dr by (by apply reservation_exact).
    rewrite prog_bind_eq in E. unfold persist_reservation in E. rewrite on_disk_eq in E.
    destruct (atomic_write _ _ (disk s)) as [y d] eqn:Ew.
    assert (s' = set_disk d s ∧ (∀ r', x = Ok r' → r' = r ∧ y = Ok tt)) as [-> Hx].
    { destruct y as [[]|]; injection E as <- <-; (split; [done|]); [|done]. by intros r' [= <-]. }
    cbn [disk set_disk]. pose proof Ew as Ew'. apply atomic_write_cases in Ew as [[-> Ed]|Ed].
    + split; [apply reservations_same; [done|intros q _; by rewrite Ed]|]. intros r' Hr'. by apply Hx in Hr' as [_ ?].
    + assert (reserved d r) as Hr by (exists (encode_reservation r); rewrite Ed; split; [apply lookup_insert_eq|done]).
      split; [|intros r' Hr'; by apply Hx in Hr' as [-> _]].
      apply (reservations_write _ _ r); [done..| |done|done| |].
      * intros q _ Hq. rewrite Ed. apply lookup_insert_ne. done.
      * intros e He Hoe Hp. apply Hfree in He as [_ He]. rewrite He in Hp; done.
      * intros e He Hoe. by apply Hfree in He as [He _].
Qed.

Lemma sign_keeps now id index key verified r age s x s' : reservations_ok (disk s) →
  sign_and_publish now id index key verified r age s = (x, s') →
  reservations_ok (disk s') ∧ reservations_kept (disk s) (disk s').
Proof.
  intros Hok [[Ed _]|(Hl & Hr & Ew & Hu)]%sign_outcome.
  { apply reservations_same; [done|intros q _; by rewrite Ed]. }
  unfold local_reservation in Hl. apply bind_Ok in Hl as (b & [Eb _]%read_limited_Ok & Db).
  assert (reserved (disk s) r) as Hres by (by exists b). pose proof Db as [[HL HW] _]%reservation_exact.
  set (r' := {| lr_operation_id := lr_operation_id r; lr_outpoint := lr_outpoint r; lr_phase := SignatureReleased |}) in *.
  apply (reservations_write _ _ r'); [done|done| | |done| |].
  - intros q Hq Hne. apply Hu. intros [Ht%transcript_not_reservation|?]; done.
  - exists (encode_reservation r'). split; [done|]. by apply reservation_exact.
  - intros e He Ho Hp. cbn [lr_operation_id r']. by rewrite (ro_exclusive _ Hok e r He Hres).
  - intros e He Ho. by rewrite (reserved_unique _ e r He Hres Ho).
Qed.

Lemma forget_untouched P {A} (m : prog GossipError Session A) :
  always (session_untouched P) m → always (session_untouched P) (forget m).
Proof. intros Hm. unfold forget. by always_steps. Qed.

Lemma forget_outcome {A} (m : prog GossipError Session A) s : (forget m s).2 = (m s).2.
Proof. unfold forget. rewrite prog_bind_eq. by destruct (m s) as [[|] ?]. Qed.

Lemma indexed_disk policy relay secret d r d' : indexed_session policy relay secret d = (r, d') →
  d' = d ∧ (∀ s, r = Ok s → disk s = d).
Proof.
  unfold indexed_session. rewrite prog_bind_eq. unfold reading.
  destruct (rebuild_session_index relay d) as [[[cs senders] total]|e]; intros [= <- <-]; (split; [done|]); [|done].
  by intros s [= <-].
Qed.

(** Opening writes at most the relay policy, and the session holds the directory it opened. *)
Lemma open_outcome d r d' : open d = (r, d') →
  disk_untouched (λ q, q = RELAY_POLICY) d d' ∧ (∀ s, r = Ok s → disk s = d').
Proof.
  intros E. split.
  - revert E. generalize d r d'. change (always (disk_untouched (λ q, q = RELAY_POLICY)) open).
    unfold open. always_steps.
    + case_match; always_steps. by apply atomic_write_untouched.
    + intros d0 r0 d1 E%indexed_disk. by destruct E as [-> _].
  - intros s ->. unfold open in E. do 6 apply prog_bind_Ok in E as (? & ? & _ & E).
    apply indexed_disk in E as [-> E]. by apply E.
Qed.

Lemma reopen_untouched : always (session_untouched (λ q, q = RELAY_POLICY)) reopen.
Proof.
  intros s r s'. unfold reopen. destruct (open (disk s)) as [[t|e] d] eqn:E; intros [= <- <-];
    apply open_outcome in E as [Hu Hd]; [|exact Hu]. unfold session_untouched. by rewrite (Hd t eq_refl).
Qed.

(** The types of a call's arguments. *)
Definition typed_call (c : Call) : Prop :=
  match c with
  | CallReserve op o => length op = 32%nat ∧ outpoint_wf o
  | CallRefresh _ tip _ => 0 ≤ vt_height tip
  | _ => True
  end.

Lemma publish_verified_untouched now payload key verified r age :
  always (session_untouched transcript_file) (publish_verified_commitment now payload key verified r age).
Proof. unfold publish_verified_commitment. always_steps. apply publish_transcript. Qed.

Lemma call_keeps c s : typed_call c → reservations_ok (disk s) →
  let s' := (run_call c s).2 in reservations_ok (disk s') ∧ reservations_kept (disk s) (disk s').
Proof.
  intros Hc Hok. cbn zeta.
  assert (∀ P : path → Prop, (∀ q, P q → not_reservation q) → always (session_untouched P) (run_call c) →
    reservations_ok (disk (run_call c s).2) ∧ reservations_kept (disk s) (disk (run_call c s).2)) as Hfar.
  { intros P HP Hm. apply reservations_same; [done|]. intros q Hq.
    destruct (run_call c s) as [x s'] eqn:E. apply (du_files _ _ _ (Hm _ _ _ E)). intros Hp%HP. by apply Hp. }
  assert (∀ q, log_file q ∨ q = PHASE → not_reservation q) as Hphase by (by intros q [[->| ->]| ->]).
  destruct c; cbn [run_call] in *;
    try (apply (Hfar transcript_file); [apply transcript_not_reservation|apply forget_untouched]; fail).
  - destruct Hc as [HL HW]. rewrite forget_outcome. destruct (reserve_local_input operation o s) as [x s'] eqn:E.
    by apply reserve_keeps in E as [? _].
  - apply (Hfar _ transcript_not_reservation), forget_untouched, ingest_transcript.
  - apply (Hfar _ transcript_not_reservation), forget_untouched, publish_transcript.
  - apply (Hfar _ transcript_not_reservation), forget_untouched, publish_transcript.
  - apply (Hfar _ transcript_not_reservation), forget_untouched, publish_verified_untouched.
  - apply (Hfar _ transcript_not_reservation), forget_untouched. unfold author_manifest. always_steps. apply publish_transcript.
  - apply (Hfar _ transcript_not_reservation), forget_untouched. unfold author_replacement. always_steps. apply publish_transcript.
  - rewrite forget_outcome. destruct (sign_and_publish _ _ _ _ _ _ _ s) as [x s'] eqn:E. by apply sign_keeps in E.
  - apply (Hfar (λ q, log_file q ∨ q = POLICY)); [by intros q [[->| ->]| ->]|apply refresh_files].
  - apply (Hfar (λ q, log_file q ∨ q = PHASE ∨ q = signed_path id)); [|apply forget_untouched, finalize_files].
    by intros q [[->| ->]|[->| ->]].
  - apply (Hfar _ Hphase), mark_phase_files.
  - apply (Hfar (λ q, q = RELAY_POLICY)); [by intros q ->|apply reopen_untouched].
Qed.

Lemma kept_trans d e f : reservations_kept d e → reservations_kept e f → reservations_kept d f.
Proof.
  intros Hde Hef r [Hr|[Hp Hr]]%Hde; [by apply Hef|]. right. split; [done|]. by apply Hef in Hr as [?|[_ ?]].
Qed.

(** C32: over every sequence of calls, with reopenings, and for every fault schedule, the reservations
    on disk stay well-formed and exclusive, none is lost, and one whose signature was released is never
    again abortable. *)
Theorem reservation_history calls s : Forall typed_call calls → reservations_ok (disk s) →
  reservations_ok (disk (run_calls calls s)) ∧ reservations_kept (disk s) (disk (run_calls calls s)).
Proof.
  revert s. induction calls as [|c calls IH]; intros s Hc Hok.
  - split; [done|]. intros r Hr. by left.
  - apply Forall_cons in Hc as [Hc Hcs]. destruct (call_keeps c s Hc Hok) as [H1' H2'].
    destruct (IH (run_call c s).2 Hcs H1') as [H3' H4']. split; [done|by eapply kept_trans].
Qed.
End reservations.

Section demo.
#[local] Existing Instances demo_sponge small_sha256d small_sha256 demo_bitcoin demo_bitcoin_laws byte_ecdsa byte_secp.

Definition empty_session : Session := MkSession (MkDisk ∅ ∅ false [Done; Failed 1])
  {| sp_chain_id := replicate 32 x07; current_height := 100 |} relay_policy_default x05 [] ∅ 0.
Definition demo_reservation : LocalReservation :=
  {| lr_operation_id := replicate 32 x31; lr_outpoint := demo_out 1; lr_phase := CommittedUnsigned |}.

(** The first reservation succeeds; the storage fails during the second. *)
Lemma reservation_history_witness :
  let s := run_calls [CallReserve (replicate 32 x31) (demo_out 1); CallReserve (replicate 32 x32) (demo_out 2)]
             empty_session in
  reserved (disk s) demo_reservation ∧ reservations_ok (disk s).
Proof.
  split; [exists (encode_reservation demo_reservation); split; vm_compute; reflexivity|].
  apply reservation_history; [|split].
  - repeat constructor; vm_compute; done.
  - intros p b Hp. discriminate Hp.
  - intros r1 r2 (b & Hb & _). discriminate Hb.
Defined.
End demo.
