(* ===== verification/GossipPhases.v ===== *)
(** * Phases, expiry and stopped gossip sessions (opencsv-cli)

    Theorems on the phase file of [GossipSession.v]: exactly what [mark_phase] records, that a
    stopped session accepts nothing, and what a session does once its proposal has expired. *)

From S2P Require Import Prelude Text Field Commitments Kernel Anchor Batch Chain Accept Wire Block Bitcoin.
From S2P Require Import Network Peer FullScan Scan Client BatchV2 BatchDemo BatchInputs GossipFrame GossipDemo.
From S2P Require Import GossipStore GossipSession GossipSafety.
#[local] Open Scope Z_scope.

Lemma phase_parse_name p : phase_parse (phase_name p) = Ok p.
Proof. destruct p; vm_compute; reflexivity. Qed.

Lemma phase_name_line p : one_line (phase_name p) ∧ Forall is_scalar (phase_name p).
Proof.
  split; [|destruct p; apply lit_scalar].
  assert (forallb (λ c, negb (c =? 10) && negb (c =? 13)) (phase_name p) = true) as E by (by destruct p; vm_compute).
  unfold one_line. apply Forall_forall. intros c Hc%list_elem_of_In. rewrite forallb_forall in E.
  apply E in Hc. apply andb_true_iff in Hc as [Ha Hb]. bool_props. done.
Qed.

Lemma has_newline_line s : has_newline s = false ↔ one_line s.
Proof.
  unfold has_newline, one_line. induction s as [|c s IH]; [by split|]. cbn [existsb]. rewrite orb_false_iff, IH, Forall_cons.
  rewrite orb_false_iff, !Z.eqb_neq. done.
Qed.

Lemma utf8_app a b : utf8 (a ++ b) = utf8 a ++ utf8 b.
Proof. unfold utf8. by rewrite fmap_app, concat_app. Qed.

Section phases.
Context `{Poseidon, Sha256, BitcoinLib, Ecdsa, !Secp}.

(** The phase file's contents, and the event that follows it. *)
Definition phase_body (p : ProtocolPhase) (evidence : rstring) : bytes :=
  utf8 (phase_name p ++ [10] ++ evidence ++ [10]).
Definition phase_event (p : ProtocolPhase) (evidence : rstring) : rstring :=
  lit "phase " ++ phase_name p ++ [32] ++ evidence.

Lemma load_phase_body s p evidence : one_line evidence → Forall is_scalar evidence →
  files (disk s) !! PHASE = Some (phase_body p evidence) →
  load_phase s = if Z.of_nat (length (phase_body p evidence)) <=? 4096 then Ok (Some p)
                 else Err (GProtocol "file exceeds size policy").
Proof.
  intros Hl Hs Hf. destruct (phase_name_line p) as [Hn Hns]. unfold load_phase, exists_file. rewrite Hf.
  rewrite bool_decide_eq_true_2 by by eexists. unfold read_limited. rewrite Hf. cbn [ok_or mbind result_bind].
  rewrite Z.gtb_ltb. destruct (Z.leb_spec (Z.of_nat (length (phase_body p evidence))) 4096) as [HL|HL].
  - rewrite (proj2 (Z.ltb_ge _ _)) by done. cbn [refuse negb ensure mbind result_bind].
    rewrite (proj2 (from_utf8_exact _ (phase_name p ++ [10] ++ evidence ++ [10]))); [|split; [|done]].
    + cbn [ok_or mbind result_bind]. replace (phase_name p ++ [10] ++ evidence ++ [10])
        with (concat ((λ l, l ++ [10]) <$> [phase_name p; evidence])) by (cbn; by rewrite app_nil_r, <- app_assoc).
      rewrite lines_concat by (by repeat constructor). cbn [head ok_or mbind result_bind]. by rewrite phase_parse_name.
    + rewrite !Forall_app. split_and!; [done| |done|]; (constructor; [by left|constructor]).
  - by rewrite (proj2 (Z.ltb_lt _ _)).
Qed.


(** without storage faults, [mark_phase] writes the phase file exactly if its table allows the
    move; it then reports success only if the event fits 1024 bytes, and the phase can be loaded
    again only if the file fits 4096.  A move that is refused changes nothing. *)
Theorem mark_phase_exact next evidence s st shares : outcomes (disk s) = [] → Forall is_scalar evidence →
  one_line evidence → status s = Ok st → has_any_signature_share s = Ok shares →
  let '(r, s') := mark_phase next evidence s in
  if phase_allowed (st_phase st) next shares (st_manifests st) then
    files (disk s') !! PHASE = Some (phase_body next evidence) ∧
    untouched (λ q, log_file q ∨ q = PHASE) (files (disk s)) (files (disk s')) ∧
    (is_ok r = true ↔ Z.of_nat (length (utf8 (phase_event next evidence))) ≤ 1024) ∧
    load_phase s' = if Z.of_nat (length (phase_body next evidence)) <=? 4096 then Ok (Some next)
                    else Err (GProtocol "file exceeds size policy")
  else is_ok r = false ∧ s' = s.
Proof.
  intros Ho Hs Hl Est Esh. destruct (mark_phase next evidence s) as [r s'] eqn:E.
  pose proof (du_files _ _ _ (mark_phase_files next evidence _ _ _ E)) as Hu. unfold mark_phase in E.
  rewrite checked_bind, (proj2 (has_newline_line _)) in E by done. cbn [refuse negb ensure] in E.
  rewrite reading_bind, Est, prog_bind_eq in E.
  assert ((if bool_decide (next ∈ [AbortedBeforeSignature; ExpiredUnsigned])
           then reading has_any_signature_share else mret false) s =
          (Ok (bool_decide (next ∈ [AbortedBeforeSignature; ExpiredUnsigned]) && shares), s)) as Et.
  { case_bool_decide; [|done]. unfold reading. by rewrite Esh. }
  rewrite Et, checked_bind in E. clear Et.
  replace (phase_allowed (st_phase st) next (bool_decide (next ∈ [AbortedBeforeSignature; ExpiredUnsigned]) && shares)
    (st_manifests st)) with (phase_allowed (st_phase st) next shares (st_manifests st)) in E by (by destruct next).
  destruct (phase_allowed _ _ _ _); cbn [refuse negb ensure] in E; [|by injection E as <- <-].
  unfold persist_phase in E. rewrite prog_bind_eq, on_disk_eq in E. unfold atomic_write, all_or_nothing, storage in E.
  rewrite Ho in E. unfold append_event in E. rewrite reading_bind, on_disk_eq in E. cbn [disk set_disk] in E.
  pose proof (append_event_steady (max_event_bytes (relay_policy s)) (phase_event next evidence)
    (put_file PHASE (phase_body next evidence) (disk s)) Ho) as Ha. unfold phase_event, phase_body in Ha.
  cbn [relay_policy set_disk] in E. destruct (append_event_to _ _ _) as [x d]. injection E as <- <-.
  destruct Ha as (_ & Hlog & Hok). cbn [disk set_disk] in Hu |- *.
  assert (files d !! PHASE = Some (phase_body next evidence)) as Hp.
  { rewrite Hlog; [apply lookup_insert_eq|]. by intros [?|?]. }
  split_and!; [done|done| |by apply load_phase_body].
  rewrite Hok. unfold phase_event. split; [by intros [? _]|]. intros HL. split; [done|].
  apply has_newline_line. unfold one_line. rewrite !Forall_app. destruct (phase_name_line next) as [? _].
  split_and!; [|done| |done]; [|by repeat constructor]. by apply has_newline_line; vm_compute.
Qed.

(** in a phase that rejects messages, a frame is at most a duplicate, and changes nothing. *)
Theorem stopped_session_accepts_nothing s phase wire : load_phase s = Ok (Some phase) →
  rejects_new_protocol_messages phase = true →
  let '(r, s') := ingest wire s in s' = s ∧ r ≠ Ok Accepted.
Proof.
  intros Hl Hr. destruct (ingest wire s) as [r s'] eqn:E. unfold ingest in E.
  rewrite checked_bind in E. destruct (from_wire wire) as [f|]; [|by injection E as <- <-].
  rewrite reading_bind in E. destruct (verify_origin_authorization f s); [|by injection E as <- <-].
  rewrite reading_bind in E. destruct (exists_file (frame_path f) (disk s)).
  - rewrite reading_bind in E. destruct (read_limited _ _ _); [|by injection E as <- <-].
    rewrite checked_bind in E. destruct (from_wire a0); [|by injection E as <- <-].
    rewrite checked_bind in E. destruct (refuse _ _); by injection E as <- <-.
  - rewrite reading_bind, Hl, checked_bind, Hr in E. by injection E as <- <-.
Qed.

(** ** Expiry *)
Lemma load_proposal_parts s p : load_proposal s = Ok (Some p) →
  exists_file PROPOSAL (disk s) = true ∧ (∃ wire, read_limited PROPOSAL MAX_PAYLOAD_BYTES (disk s) = Ok wire ∧
    proposal_from_wire wire = Ok p) ∧ require_live_proposal p = Ok tt ∧
  validate_at p (sp_chain_id (s_policy s)) (current_height (s_policy s)) = Ok tt.
Proof.
  unfold load_proposal. destruct (exists_file _ _); [|done]. intros E. apply bind_Ok in E as (w & Ew & E).
  apply bind_Ok in E as (q & Eq & E). apply bind_Ok in E as ([] & El & E). apply bind_Ok in E as ([] & Ev & [= ->]).
  unfold batch_error in *. split_and!; [done| |done|].
  - exists w. split; [done|]. destruct (proposal_from_wire w); [by injection Eq as ->|done].
  - destruct (validate_at _ _ _) as [[]|]; [done|discriminate].
Qed.

Lemma load_proposal_expired s s' p : load_proposal s = Ok (Some p) →
  files (disk s') !! PROPOSAL = files (disk s) !! PROPOSAL → sp_chain_id (s_policy s') = sp_chain_id (s_policy s) →
  expiry_height p ≤ current_height (s_policy s') → load_proposal s' = Err (GBatch ExpiredProposal).
Proof.
  intros (Hx & (w & Hr & Hw) & Hlive & Hv)%load_proposal_parts Hf Hc Hh. unfold load_proposal, exists_file, read_limited in *.
  rewrite Hf, Hx, Hr. cbn [mbind result_bind]. rewrite Hw. cbn [batch_error mbind result_bind]. rewrite Hlive.
  cbn [mbind result_bind]. unfold validate_at in *. rewrite Hc. apply bind_Ok in Hv as ([] & -> & Hv). cbn [mbind result_bind].
  apply bind_Ok in Hv as ([] & -> & _). cbn [mbind result_bind]. rewrite Z.geb_leb, (proj2 (Z.leb_le _ _)) by done. done.
Qed.

(** once a verified tip reaches the proposal's expiry, the session can no longer tell its status,
    return a transaction it has signed, finalize a manifest, or record any phase, even that of a
    confirmed or expired batch. *)
Theorem expired_session_is_mute now tip age s s' p : load_proposal s = Ok (Some p) →
  refresh_verified_tip now tip age s = (Ok (), s') → expiry_height p ≤ vt_height tip →
  status s' = Err (GBatch ExpiredProposal) ∧
  (∀ id, signed_transaction id s' = Err (GBatch ExpiredProposal)) ∧
  latest_signed_transaction s' = Err (GBatch ExpiredProposal) ∧
  (∀ id, finalize_manifest id s' = (Err (GBatch ExpiredProposal), s')) ∧
  (∀ next evidence, has_newline evidence = false → mark_phase next evidence s' = (Err (GBatch ExpiredProposal), s')).
Proof.
  intros Hp Er Hh. pose proof (du_files _ _ _ (refresh_files _ _ _ _ _ _ Er)) as Hu.
  assert (s_policy s' = {| sp_chain_id := sp_chain_id (s_policy s); current_height := vt_height tip |}) as Hpol.
  { unfold refresh_verified_tip in Er. rewrite checked_bind in Er. destruct (receipt_error _); [|done].
    rewrite reading_bind in Er. destruct (refuse _ _); [|done]. rewrite checked_bind in Er. destruct (refuse _ _); [|done].
    rewrite prog_bind_eq in Er. unfold updating in Er. rewrite reading_bind, prog_bind_eq, on_disk_eq in Er.
    destruct (atomic_write _ _ _) as [[[]|] d]; [|done]. unfold append_event in Er. rewrite reading_bind, on_disk_eq in Er.
    destruct (append_event_to _ _ _) as [x d']. by injection Er as _ <-. }
  assert (load_proposal s' = Err (GBatch ExpiredProposal)) as El.
  { apply (load_proposal_expired s _ p); [done| |by rewrite Hpol|by rewrite Hpol].
    apply Hu. by intros [[?|?]|?]. }
  assert (status s' = Err (GBatch ExpiredProposal)) as Es by (unfold status; by rewrite El).
  assert (∀ m, transcript m s' = Err (GBatch ExpiredProposal)) as Et
    by (intros m; unfold transcript, proposal_or; by rewrite El).
  split_and!; [done| | | |].
  - intros id. unfold signed_transaction. by rewrite Et.
  - unfold latest_signed_transaction. by rewrite Et.
  - intros id. unfold finalize_manifest. by rewrite reading_bind, Et.
  - intros next evidence He. unfold mark_phase. rewrite checked_bind, He. cbn [refuse negb ensure].
    by rewrite reading_bind, Es.
Qed.
End phases.

(** ** A session with a proposal *)
Section demo.
#[local] Existing Instances demo_sponge small_sha256d small_sha256 demo_bitcoin byte_ecdsa byte_secp.

Definition demo_disk : Disk :=
  MkDisk {[ PROPOSAL := proposal_wire demo_proposal ]} ∅ false [].
Definition demo_session : Session := MkSession demo_disk
  {| sp_chain_id := replicate 32 x07; current_height := 100 |} relay_policy_default x05 [] ∅ 0.

Lemma mark_phase_exact_witness : ∃ s',
  mark_phase AbortedBeforeSignature (lit "operator") demo_session = (Ok tt, s') ∧
  load_phase s' = Ok (Some AbortedBeforeSignature).
Proof.
  pose proof (mark_phase_exact AbortedBeforeSignature (lit "operator") demo_session
    {| st_phase := Proposed; st_batch_id := Some (batch_id demo_proposal); st_commitments := 0; st_manifests := 0;
       latest_manifest_id := None; signature_shares := 0; required_signatures := 0 |} false eq_refl
    ltac:(apply lit_scalar) ltac:(by apply has_newline_line) ltac:(by vm_compute) ltac:(by vm_compute)) as Hm.
  destruct (mark_phase _ _ _) as [r s']. destruct Hm as (_ & _ & Hr & Hl). exists s'. split.
  - assert (is_ok r = true) as Hok by (apply Hr; by vm_compute). by destruct r as [[]|].
  - by rewrite Hl.
Defined.

Definition stopped_session : Session :=
  set_disk (put_file PHASE (phase_body Confirmed (lit "height=103")) demo_disk) demo_session.

Lemma stopped_session_accepts_nothing_witness : ∃ r, ingest (replicate 80 x00) stopped_session = (r, stopped_session).
Proof.
  pose proof (stopped_session_accepts_nothing stopped_session Confirmed (replicate 80 x00) ltac:(by vm_compute) eq_refl) as Hs.
  destruct (ingest _ _) as [r s']. destruct Hs as [-> _]. by exists r.
Defined.

Definition demo_tip : VerifiedChainTip :=
  {| vt_chain_id := replicate 32 x07; vt_height := 200; vt_hash := zeros 32; vt_verified_at := 1000 |}.

Lemma expired_session_is_mute_witness : ∃ s',
  refresh_verified_tip (Ok 1010) demo_tip {| secs := 60; nanos := 0 |} demo_session = (Ok tt, s') ∧
  status s' = Err (GBatch ExpiredProposal).
Proof.
  destruct (refresh_verified_tip (Ok 1010) demo_tip {| secs := 60; nanos := 0 |} demo_session) as [r s'] eqn:E.
  assert (r = Ok tt) as -> by (apply (f_equal fst) in E; cbn [fst] in E; rewrite <- E; by vm_compute).
  assert (load_proposal demo_session = Ok (Some demo_proposal)) as Hp by (vm_compute; reflexivity).
  exists s'. split; [reflexivity|].
  destruct (expired_session_is_mute (Ok 1010) demo_tip {| secs := 60; nanos := 0 |} demo_session s' demo_proposal
    Hp E ltac:(apply Z.le_refl)) as [Hs _]. exact Hs.
Defined.
End demo.
