(* ===== verification/GossipRestart.v ===== *)
(** * Restarting a gossip session (opencsv-cli)

    What [open] rebuilds from the directory is what the session held in memory: the invariant
    that ties the in-memory index of [GossipSession.v] to the files, preserved by every call
    when the storage does not fail; and the directory that one failed write makes unopenable. *)

From S2P Require Import Prelude Text Field Commitments Kernel Anchor Batch Chain Accept Wire Block Bitcoin.
From S2P Require Import Network Peer FullScan Scan Client BatchV2 BatchDemo BatchWire BatchInputs GossipFrame GossipDemo.
From S2P Require Import GossipStore GossipSession GossipSafety.
#[local] Open Scope Z_scope.

(** ** The pool is free of collisions *)
Definition distinct_pool (cs : list ParticipantCommitment) : Prop :=
  NoDup (fee_pubkey <$> cs) ∧ NoDup (fee_outpoint <$> cs) ∧ NoDup (operation_id <$> cs) ∧ NoDup (pc_payload <$> cs).

Lemma NoDup_snoc_fmap {A B} `{EqDecision B} (g : A → B) l x : NoDup (g <$> l) →
  NoDup (g <$> l ++ [x]) ↔ existsb (λ e, bool_decide (g e = g x)) l = false.
Proof.
  intros Hl. rewrite fmap_app, NoDup_app. cbn [fmap list_fmap]. rewrite <- not_true_iff_false, existsb_exists. split.
  - intros (_ & Hx & _) (e & He & Eg). apply bool_decide_eq_true in Eg. apply (Hx (g e)); [|rewrite Eg; set_solver].
    apply list_elem_of_fmap. exists e. split; [done|]. by apply list_elem_of_In.
  - intros Hn. split_and!; [done| |apply NoDup_singleton]. intros y Hy%list_elem_of_fmap ->%list_elem_of_singleton.
    destruct Hy as (e & Eg & He). apply Hn. exists e. split; [by apply list_elem_of_In|]. by rewrite bool_decide_eq_true_2.
Qed.

Lemma existsb_orb {A} (f g : A → bool) l : existsb (λ x, f x || g x) l = existsb f l || existsb g l.
Proof. induction l as [|x l IH]; [done|]. cbn. rewrite IH. by destruct (f x), (g x), (existsb f l). Qed.

Lemma distinct_pool_snoc cs c : distinct_pool cs →
  distinct_pool (cs ++ [c]) ↔ existsb (λ e, collides e c) cs = false.
Proof.
  intros (H1 & H2 & H3 & H4). unfold distinct_pool, collides.
  rewrite !NoDup_snoc_fmap by done. rewrite !existsb_orb, !orb_false_iff. tauto.
Qed.

Lemma distinct_pool_app cs ds : distinct_pool (cs ++ ds) → distinct_pool cs.
Proof. unfold distinct_pool. rewrite !fmap_app, !NoDup_app. tauto. Qed.

Lemma distinct_pool_perm cs ds : cs ≡ₚ ds → distinct_pool cs → distinct_pool ds.
Proof. intros Hp. unfold distinct_pool. by rewrite Hp. Qed.

(** A list of images is a permutation of another exactly if their sources can be matched. *)
Lemma fmap_permutation {A B} (g : A → B) l k : k ≡ₚ g <$> l → ∃ l', k = g <$> l' ∧ l' ≡ₚ l.
Proof. intros (l' & -> & Hl)%Permutation_map_inv. by exists l'. Qed.

Section restart.
Context `{Poseidon, Sha256Laws, BitcoinLib, E : Ecdsa, X : !Secp, !SecpLaws X}.
Abbreviation session_op := (prog GossipError Session).

Definition is_commitment (f : SignedFrame) : Prop := f_kind f = KCommitment.
#[local] Instance is_commitment_dec f : Decision (is_commitment f).
Proof. unfold is_commitment. apply _. Defined.

(** ** The invariant *)

(** The frame is authorized by the Bitcoin key its body names. *)
Definition authorized (op : option Proposal) (f : SignedFrame) : Prop :=
  match f_kind f with
  | KProposal => ∃ p, proposal_from_wire (f_payload f) = Ok p ∧ verify_origin_signature f (stock_owner_pubkey p) = Ok tt
  | KCommitment => ∃ p c, op = Some p ∧ commitment_from_wire p (f_payload f) = Ok c ∧
                     verify_origin_signature f (fee_pubkey c) = Ok tt
  | KManifest | KSignature => f_origin f = None
  end.

(** A commitment of the pool, and the frame that brought it. *)
Definition committed (op : option Proposal) (d : Disk) (x : ParticipantCommitment * SignedFrame) : Prop :=
  ∃ p, op = Some p ∧ commitment_from_wire p (f_payload x.2) = Ok x.1 ∧
       files d !! commitment_path x.1 = Some (f_payload x.2).

Definition frame_size (f : SignedFrame) : Z := Z.of_nat (length (to_wire f)).
Definition total_size (fs : list SignedFrame) : Z := foldr (λ f n, frame_size f + n) 0 fs.

Definition participant_cap (op : option Proposal) : Z := match op with Some p => participant_count p | None => 0 end.

Record config_ok (s : Session) : Prop := {
  cf_policy : length (sp_chain_id (s_policy s)) = 32%nat ∧ is_u32 (current_height (s_policy s));
  cf_relay : relay_policy_wf (relay_policy s);
  cf_policy_file : files (disk s) !! POLICY = Some (encode_policy (s_policy s));
  cf_relay_file : files (disk s) !! RELAY_POLICY = Some (encode_relay_policy (relay_policy s));
  cf_identity_file : files (disk s) !! IDENTITY = Some (secret_bytes (identity s));
  cf_private : IDENTITY ∉ loose (disk s) ∧ root_loose (disk s) = false;
}.

Record pool_ok (s : Session) (op : option Proposal) (cs : list (ParticipantCommitment * SignedFrame)) : Prop := {
  po_pool : pool s = cs.*1;
  po_files : read_paths_with_extension "commitments" "bin" (disk s) ≡ₚ commitment_path <$> cs.*1;
  po_committed : Forall (committed op (disk s)) cs;
  po_distinct : distinct_pool cs.*1;
  po_cap : Z.of_nat (length cs) ≤ Z.min (participant_cap op) (max_commitments (relay_policy s));
  po_senders : commitment_senders s = list_to_set (f_sender <$> cs.*2);
  po_nodup : NoDup (f_sender <$> cs.*2);
}.

Record frames_ok (s : Session) (op : option Proposal) (fs : list SignedFrame) : Prop := {
  fo_files : read_paths_with_extension "frames" "frame" (disk s) ≡ₚ frame_path <$> fs;
  fo_stored : Forall (λ f, files (disk s) !! frame_path f = Some (to_wire f)) fs;
  fo_authentic : Forall authentic fs;
  fo_authorized : Forall (authorized op) fs;
  fo_bytes : stored_frame_bytes s = total_size fs;
  fo_quota : total_size fs ≤ max_session_bytes (relay_policy s);
}.

Definition coherent (s : Session) : Prop := ∃ op cs fs,
  stored_proposal (disk s) = Ok op ∧ config_ok s ∧ pool_ok s op cs ∧ frames_ok s op fs ∧
  cs.*2 ≡ₚ filter is_commitment fs.

(** ** Rebuilding *)
Lemma frame_size_eq f : Z.of_nat (length (to_wire f)) = frame_size f.
Proof. reflexivity. Qed.

Lemma authentic_size f : authentic f → Z.of_nat (length (to_wire f)) ≤ MAX_FRAME_BYTES.
Proof.
  intros [Hp [Hs _] Ho Hl _]. rewrite to_wire_fields. unfold frame_fields. cbn [concat].
  rewrite !length_app, !length_le_bytes, Hs. pose proof (der_length _ Hl).
  assert (length (origin_der (f_origin f)) ≤ 72)%nat
    by (destruct (origin_der_length _ Ho) as [[_ ->]|(? & _ & ?)]; lia).
  unfold MAX_FRAME_BYTES. cbn [length]. unfold FRAME_MAGIC. cbn [length]. lia.
Qed.

Lemma authentic_payload f : authentic f → Z.of_nat (length (f_payload f)) ≤ MAX_PAYLOAD_BYTES.
Proof. by intros []. Qed.

Lemma rebuild_pool_ok d op : ∀ l acc, Forall (committed op d) l → Forall authentic l.*2 → distinct_pool (acc ++ l.*1) →
  rebuild_pool d op (commitment_path <$> l.*1) acc = Ok (acc ++ l.*1).
Proof.
  induction l as [|[c f] l IH]; intros acc Hc Ha Hd; cbn [fmap list_fmap rebuild_pool]; [by rewrite app_nil_r|].
  apply Forall_cons in Hc as [(p & -> & Ep & Ef) Hc]. cbn [fmap list_fmap fst snd] in *. apply Forall_cons in Ha as [Ha Has].
  cbn [ok_or mbind result_bind]. rewrite (proj2 (read_limited_Ok _ _ _ _) (conj Ef (authentic_payload _ Ha))).
  cbn [mbind result_bind]. rewrite Ep. cbn [batch_error mbind result_bind].
  assert (distinct_pool ((acc ++ [c]) ++ l.*1)) as Hd' by (by rewrite <- app_assoc).
  rewrite (proj1 (distinct_pool_snoc acc c (distinct_pool_app _ _ Hd))) by (by apply (distinct_pool_app _ l.*1)).
  cbn [refuse negb ensure mbind result_bind]. rewrite IH by done. by rewrite <- app_assoc.
Qed.

(** The commitment that a frame authorizes. *)
Definition vouches (op : option Proposal) (f : SignedFrame) (id : bytes) : Prop :=
  is_commitment f ∧ ∃ p c, op = Some p ∧ commitment_from_wire p (f_payload f) = Ok c ∧ id = commitment_id c.

Lemma rebuild_frame_ok op f senders ids : authorized op f → (is_commitment f → f_sender f ∉ senders) →
  ∃ ids', (∀ id, id ∈ ids' ↔ id ∈ ids ∨ vouches op f id) ∧
    rebuild_frame op f senders ids = Ok (list_to_set (f_sender <$> filter is_commitment [f]) ∪ senders, ids').
Proof.
  intros Ha Hs. rewrite filter_cons. destruct (decide (is_commitment f)) as [Hc|Hc].
  - unfold authorized, rebuild_frame in *. unfold is_commitment in Hc. rewrite Hc in *.
    destruct Ha as (p & c & -> & Ec & Hv). exists ({[commitment_id c]} ∪ ids). split.
    + intros id. rewrite elem_of_union, elem_of_singleton. split.
      * intros [->|?]; [|by left]. right. split; [done|]. by exists p, c.
      * intros [?|[_ (p' & c' & [= <-] & Ec' & ->)]]; [by right|]. left. rewrite Ec in Ec'. by injection Ec' as ->.
    + cbn [ok_or mbind result_bind]. rewrite Ec. cbn [batch_error mbind result_bind].
      rewrite Hv. cbn [mbind result_bind]. rewrite bool_decide_eq_false_2 by auto. cbn. by rewrite (right_id_L ∅ (∪)).
  - exists ids. split; [intros id; split; [by left|intros [?|[? _]]; done]|].
    cbn [filter list_filter fmap list_fmap list_to_set foldr].
    rewrite (left_id_L ∅ (∪)). unfold authorized, rebuild_frame in *. unfold is_commitment in Hc.
    destruct (f_kind f); [|done|by rewrite Ha|by rewrite Ha].
    destruct Ha as (p & -> & Hv). cbn [batch_error mbind result_bind]. by rewrite Hv.
Qed.

Lemma total_size_cons f fs : total_size (f :: fs) = frame_size f + total_size fs.
Proof. reflexivity. Qed.

Lemma total_size_perm fs gs : fs ≡ₚ gs → total_size fs = total_size gs.
Proof. induction 1; rewrite ?total_size_cons in *; lia. Qed.

Lemma total_size_nonneg fs : 0 ≤ total_size fs.
Proof.
  induction fs as [|f fs IH]; [done|]. rewrite total_size_cons.
  unfold frame_size. lia.
Qed.

Lemma rebuild_frames_ok d max op : max ≤ u64_max → ∀ l total senders ids,
  Forall (λ f, files d !! frame_path f = Some (to_wire f)) l → Forall authentic l → Forall (authorized op) l →
  0 ≤ total → total + total_size l ≤ max → NoDup (f_sender <$> filter is_commitment l) →
  (∀ f, f ∈ filter is_commitment l → f_sender f ∉ senders) →
  ∃ ids', (∀ id, id ∈ ids' ↔ id ∈ ids ∨ ∃ f, f ∈ l ∧ vouches op f id) ∧
    rebuild_frames d max op (frame_path <$> l) (total, senders, ids) =
    Ok (total + total_size l, list_to_set (f_sender <$> filter is_commitment l) ∪ senders, ids').
Proof.
  intros Hmax. induction l as [|f l IH]; intros total senders ids Hf Ha Hz Ht Hq Hn Hs.
  - exists ids. split; [intros id; set_solver|]. cbn. by rewrite Z.add_0_r, (left_id_L ∅ (∪)).
  - apply Forall_cons in Hf as [Hf Hfs]. pose proof Ha as Ha'. apply Forall_cons in Ha as [Hx Has].
    apply Forall_cons in Hz as [Hz Hzs].
    rewrite total_size_cons in *. pose proof (total_size_nonneg l).
    assert (filter is_commitment (f :: l) = filter is_commitment [f] ++ filter is_commitment l) as Efl
      by (by rewrite <- filter_app).
    rewrite Efl, fmap_app in *. apply NoDup_app in Hn as (Hn1 & Hdis & Hn).
    cbn [fmap list_fmap rebuild_frames]. rewrite Hf, bind_of_Some, frame_size_eq.
    assert (0 ≤ frame_size f) by (unfold frame_size; lia).
    unfold checked_add64. rewrite decide_True by lia. rewrite bind_of_Some.
    rewrite bind_of_refuse by (rewrite Z.gtb_ltb; apply Z.ltb_ge; lia).
    rewrite (proj2 (read_limited_Ok _ _ _ _) (conj Hf (authentic_size _ Hx))), bind_of_Ok.
    rewrite (authentic_from_wire _ Hx), bind_of_Ok.
    destruct (rebuild_frame_ok op f senders ids Hz) as (ids1 & Hv1 & ->).
    { intros Hc. apply Hs. rewrite filter_cons, decide_True by done. set_solver. }
    rewrite bind_of_Ok.
    destruct (IH (total + frame_size f) (list_to_set (f_sender <$> filter is_commitment [f]) ∪ senders) ids1)
      as (ids2 & Hv2 & ->); [done..|lia|lia|done| |].
    { intros g Hg. rewrite not_elem_of_union. split; [|apply Hs; set_solver]. rewrite elem_of_list_to_set.
      intros Hin. apply (Hdis _ Hin). apply list_elem_of_fmap. by exists g. }
    exists ids2. split.
    + intros id. rewrite Hv2, Hv1. setoid_rewrite elem_of_cons. naive_solver.
    + do 2 f_equal. f_equal; [lia|]. rewrite list_to_set_app_L. set_solver.
Qed.

(** What a directory with a good pool and good frames rebuilds to, up to the order of the pool. *)
Lemma rebuild_parts s op cs fs : stored_proposal (disk s) = Ok op → relay_policy_wf (relay_policy s) →
  pool_ok s op cs → frames_ok s op fs → Forall authentic cs.*2 → NoDup (f_sender <$> filter is_commitment fs) →
  ∃ cs' (ids : gset bytes), cs' ≡ₚ cs ∧ (∀ id, id ∈ ids ↔ ∃ f, f ∈ fs ∧ vouches op f id) ∧
    rebuild_session_index (relay_policy s) (disk s) =
    (refuse (existsb (λ c, bool_decide (commitment_id c ∉ ids)) cs'.*1)
       "stored commitment lacks its authorized relay frame";;
     Ok (cs'.*1, list_to_set (f_sender <$> filter is_commitment fs), stored_frame_bytes s)).
Proof.
  intros Ep (_ & _ & [_ Hmax] & _) [Hpool Hpf Hc Hd Hcap Hs Hn] [Hff Hst Ha Hz Hb Hq] Hca Hnf.
  rewrite <- list_fmap_compose in Hpf. apply fmap_permutation in Hpf as (cs' & Epf & Hcs). exists cs'.
  apply fmap_permutation in Hff as (fs' & Eff & Hfs).
  assert (filter is_commitment fs' ≡ₚ filter is_commitment fs) as Hfc by (by rewrite Hfs).
  unfold rebuild_session_index. rewrite Ep, bind_of_Ok, Epf, list_fmap_compose.
  rewrite (rebuild_pool_ok _ _ cs' []).
  2: by rewrite Hcs.
  2: by rewrite Hcs.
  2: { cbn [app]. eapply distinct_pool_perm; [|exact Hd]. by rewrite Hcs. }
  rewrite bind_of_Ok. cbn [app]. rewrite bind_of_refuse.
  2: { rewrite Z.gtb_ltb. apply Z.ltb_ge. rewrite length_fmap, Hcs. exact Hcap. }
  rewrite Eff. destruct (rebuild_frames_ok (disk s) (max_session_bytes (relay_policy s)) op) with
    (l := fs') (total := 0) (senders := ∅ : gset bytes) (ids := ∅ : gset bytes) as (ids & Hv & ->).
  - exact Hmax.
  - by rewrite Hfs.
  - by rewrite Hfs.
  - by rewrite Hfs.
  - done.
  - by rewrite Z.add_0_l, (total_size_perm _ _ Hfs).
  - by rewrite Hfc.
  - set_solver.
  - exists ids. split_and!; [done|intros id; rewrite Hv; setoid_rewrite Hfs; set_solver|].
    rewrite bind_of_Ok. cbn iota beta. rewrite Z.add_0_l, Hb, (total_size_perm _ _ Hfs), (right_id_L ∅ (∪)).
    assert ((list_to_set (f_sender <$> filter is_commitment fs') : gset bytes) =
            list_to_set (f_sender <$> filter is_commitment fs)) as ->; [|done].
    apply set_eq. intros x. rewrite !elem_of_list_to_set. by rewrite Hfc.
Qed.

Lemma commits_authentic (cs : list (ParticipantCommitment * SignedFrame)) fs :
  cs.*2 ≡ₚ filter is_commitment fs → Forall authentic fs → Forall authentic cs.*2.
Proof.
  intros Hc Ha. apply Forall_forall. intros f Hf. rewrite Forall_forall in Ha. apply Ha. rewrite Hc in Hf.
  by apply list_elem_of_filter in Hf as [_ ?].
Qed.

(** The directory of a coherent session rebuilds to its index. *)
Lemma rebuild_coherent s op cs fs : stored_proposal (disk s) = Ok op → relay_policy_wf (relay_policy s) →
  pool_ok s op cs → frames_ok s op fs → cs.*2 ≡ₚ filter is_commitment fs →
  ∃ cs', cs' ≡ₚ cs ∧ rebuild_session_index (relay_policy s) (disk s) =
    Ok (cs'.*1, commitment_senders s, stored_frame_bytes s).
Proof.
  intros Ep Hr Hpo Hfo Hc. destruct (rebuild_parts s op cs fs Ep Hr Hpo Hfo) as (cs' & ids & Hcs & Hv & ->).
  - eapply commits_authentic; [exact Hc|apply Hfo].
  - rewrite <- Hc. apply Hpo.
  - exists cs'. split; [done|]. rewrite bind_of_refuse.
    + rewrite (po_senders _ _ _ Hpo). do 2 f_equal. f_equal. apply set_eq. intros x. rewrite !elem_of_list_to_set. by rewrite <- Hc.
    + apply not_true_iff_false. intros (c & Hin & Hx)%existsb_exists. apply bool_decide_eq_true in Hx. apply Hx.
      apply list_elem_of_In, list_elem_of_fmap in Hin as ([c' f] & -> & Hin). apply Hv.
      rewrite Hcs in Hin. exists f. assert (f ∈ filter is_commitment fs) as Hf.
      { rewrite <- Hc. apply list_elem_of_fmap. by exists (c', f). }
      apply list_elem_of_filter in Hf as [Hk Hf]. split; [done|]. split; [done|].
      pose proof (po_committed _ _ _ Hpo) as Hcm. rewrite Forall_forall in Hcm.
      destruct (Hcm _ Hin) as (p & Eop & Ec & _). by exists p, c'.
Qed.

Definition set_pool (cs : list ParticipantCommitment) (s : Session) : Session :=
  MkSession (disk s) (s_policy s) (relay_policy s) (identity s) cs (commitment_senders s) (stored_frame_bytes s).

(** With its configuration in place, a directory opens exactly if it rebuilds. *)
Lemma open_rebuilds s : config_ok s → open (disk s) =
  (match rebuild_session_index (relay_policy s) (disk s) with
   | Ok (cs, senders, total) => Ok (MkSession (disk s) (s_policy s) (relay_policy s) (identity s) cs senders total)
   | Err e => Err e
   end, disk s).
Proof.
  intros [Hp Hr Fp Fr Fi [Hi Hroot]].
  assert (∀ A B (f : Disk → gossip A) (k : A → disk_op B) a, f (disk s) = Ok a →
    (reading f ≫= k) (disk s) = k a (disk s)) as Hrd by (intros A B f k a Ef; rewrite prog_bind_eq; unfold reading; by rewrite Ef).
  unfold open. rewrite (Hrd _ _ _ _ tt) by (unfold require_private_directory; by rewrite Hroot).
  rewrite (Hrd _ _ _ _ (encode_policy (s_policy s))).
  2: { apply read_limited_Ok. split; [done|]. unfold encode_policy. rewrite !length_app, length_le_bytes. destruct Hp as [-> _]. done. }
  rewrite prog_bind_eq. unfold checked at 1. rewrite (proj2 (policy_exact _ (s_policy s))) by done.
  rewrite (Hrd _ _ _ _ true) by (unfold exists_file; by rewrite Fr). cbn iota.
  rewrite prog_bind_eq. rewrite (Hrd _ _ _ _ (encode_relay_policy (relay_policy s))).
  2: { apply read_limited_Ok. split; [done|]. unfold encode_relay_policy. by rewrite !length_app, !length_le_bytes. }
  unfold checked at 1. rewrite (proj2 (relay_policy_exact _ (relay_policy s))) by done.
  destruct (secret_roundtrip (identity s)) as [Hsec Hlen].
  rewrite (Hrd _ _ _ _ (identity s)).
  2: { unfold load_identity, require_private_file. rewrite Fi. cbn [ok_or mbind result_bind].
       rewrite bind_of_refuse by (by apply bool_decide_eq_false_2). rewrite (proj2 (read_limited_Ok _ _ _ (secret_bytes (identity s)))).
       - rewrite bind_of_Ok, bind_of_refuse by (by rewrite bool_decide_eq_true_2). by rewrite Hsec.
       - split; [done|]. by rewrite Hlen. }
  unfold indexed_session. rewrite prog_bind_eq. unfold reading.
  by destruct (rebuild_session_index (relay_policy s) (disk s)) as [[[cs senders] total]|e].
Qed.

Lemma open_coherent s : coherent s → ∃ cs, cs ≡ₚ pool s ∧ open (disk s) = (Ok (set_pool cs s), disk s).
Proof.
  intros (op & cs & fs & Ep & Hcf & Hpo & Hfo & Hperm).
  destruct (rebuild_coherent s op cs fs Ep (cf_relay _ Hcf) Hpo Hfo Hperm) as (cs' & Hcs & Er).
  exists cs'.*1. split; [by rewrite Hcs, (po_pool _ _ _ Hpo)|]. by rewrite open_rebuilds, Er.
Qed.

(** ** Files the index does not depend on *)
Definition relevant (q : path) : Prop :=
  q = POLICY ∨ q = RELAY_POLICY ∨ q = IDENTITY ∨ q = PROPOSAL ∨ q.1 = lit "commitments" ∨ q.1 = lit "frames".
Definition irrelevant (q : path) : Prop := ¬ relevant q.

Lemma stored_proposal_same d d' : files d' !! PROPOSAL = files d !! PROPOSAL → stored_proposal d' = stored_proposal d.
Proof. intros Hf. unfold stored_proposal, exists_file, read_limited. by rewrite Hf. Qed.

Lemma listed_dir dir ext q : listed dir ext q → q.1 = lit dir.
Proof. by intros [? _]. Qed.

(** A store that agrees on the directory lists the same paths. *)
Lemma read_paths_agree dir ext d d' : (∀ q, q.1 = lit dir → files d' !! q = files d !! q) →
  read_paths_with_extension dir ext d' ≡ₚ read_paths_with_extension dir ext d.
Proof. intros Hq. apply read_paths_same. intros q Hl%listed_dir. by rewrite Hq. Qed.

Lemma pool_ok_same s s' op cs : pool s' = pool s → relay_policy s' = relay_policy s →
  commitment_senders s' = commitment_senders s →
  (∀ q, q.1 = lit "commitments" → files (disk s') !! q = files (disk s) !! q) → pool_ok s op cs → pool_ok s' op cs.
Proof.
  intros E1 E2 E3 Hq [P1 P2 P3 P4 P5 P6 P7]. constructor; [congruence| | |done|congruence|congruence|done].
  - by rewrite read_paths_agree.
  - eapply Forall_impl; [exact P3|]. intros x (p & ? & ? & Ef). exists p. split_and!; [done|done|]. by rewrite Hq.
Qed.

Lemma frames_ok_same s s' op fs : stored_frame_bytes s' = stored_frame_bytes s → relay_policy s' = relay_policy s →
  (∀ q, q.1 = lit "frames" → files (disk s') !! q = files (disk s) !! q) → frames_ok s op fs → frames_ok s' op fs.
Proof.
  intros E1 E2 Hq [P1 P2 P3 P4 P5 P6]. constructor; [| |done|done|congruence|congruence].
  - by rewrite read_paths_agree.
  - eapply Forall_impl; [exact P2|]. intros f Ef. by rewrite Hq.
Qed.

Lemma config_ok_same s s' : s_policy s' = s_policy s → relay_policy s' = relay_policy s → identity s' = identity s →
  (∀ q, q = POLICY ∨ q = RELAY_POLICY ∨ q = IDENTITY → files (disk s') !! q = files (disk s) !! q) →
  loose (disk s') ⊆ loose (disk s) → root_loose (disk s') = root_loose (disk s) → config_ok s → config_ok s'.
Proof.
  intros E1 E2 E3 Hq HL HR [P1 P2 P3 P4 P5 [P6 P7]]. constructor; rewrite ?E1, ?E2, ?E3, ?Hq, ?HR by tauto; try done.
  split; [set_solver|done].
Qed.

(** A coherent session whose storage does not fail. *)
Definition sound (s : Session) : Prop := coherent s ∧ outcomes (disk s) = [].
Definition keeps_sound (s s' : Session) : Prop := sound s → sound s'.
#[local] Instance keeps_sound_preorder : PreOrder keeps_sound.
Proof. split; [by intros s Hs|]. intros s t u Hst Htu Hs. auto. Qed.

Lemma quiet_coherent s d : disk_untouched irrelevant (disk s) d → coherent s → coherent (set_disk d s).
Proof.
  intros [F O L R] (op & cs & fs & Ep & Hcf & Hpo & Hfo & Hperm).
  assert (∀ q, relevant q → files d !! q = files (disk s) !! q) as Hq by (intros q Hr; apply F; unfold irrelevant; tauto).
  exists op, cs, fs. cbn [disk set_disk]. split_and!; [|eapply config_ok_same; [..|exact Hcf]|eapply pool_ok_same; [..|exact Hpo]
    |eapply frames_ok_same; [..|exact Hfo]|done]; try done.
  - rewrite <- Ep. apply stored_proposal_same, Hq. by do 3 right; left.
  - intros q Hr. apply Hq. unfold relevant. tauto.
  - intros q Hr. apply Hq. unfold relevant. tauto.
  - intros q Hr. apply Hq. unfold relevant. tauto.
Qed.

Lemma on_disk_sound {A} (m : disk_op A) : always (disk_untouched irrelevant) m → always keeps_sound (on_disk m).
Proof.
  intros Hm s r s' Er [Hc Ho]. rewrite on_disk_eq in Er. destruct (m (disk s)) as [x d] eqn:Em. injection Er as <- <-.
  apply Hm in Em. split; [by apply quiet_coherent|]. by apply Em.
Qed.

Lemma irrelevant_dir q : q.1 ≠ [] → q.1 ≠ lit "commitments" → q.1 ≠ lit "frames" → irrelevant q.
Proof. by intros H1' H2' H3' [->|[->|[->|[->|[?|?]]]]]. Qed.

Lemma irrelevant_root name : bool_decide (lit name ∉ [lit "policy.bin"; lit "relay-policy.bin"; lit "identity.key";
  lit "proposal.bin"]) = true → irrelevant (at_root name).
Proof.
  intros Hn%bool_decide_eq_true. unfold irrelevant, relevant, POLICY, RELAY_POLICY, IDENTITY, PROPOSAL, at_root.
  intros [Er|[Er|[Er|[Er|[Er|Er]]]]]; try discriminate Er; injection Er as Er; apply Hn; rewrite Er; set_solver.
Qed.

Lemma irrelevant_phase : irrelevant PHASE.
Proof. apply irrelevant_root. by vm_compute. Qed.

Lemma irrelevant_log q : log_file q → irrelevant q.
Proof. intros [-> | ->]; apply irrelevant_root; by vm_compute. Qed.

Lemma append_event_sound e : always keeps_sound (append_event e).
Proof.
  unfold append_event. always_steps. apply on_disk_sound, append_event_untouched; apply irrelevant_log; [by left|by right].
Qed.

Lemma persist_phase_sound p e : always keeps_sound (persist_phase p e).
Proof.
  unfold persist_phase. always_steps; [|apply append_event_sound]. apply on_disk_sound, atomic_write_untouched, irrelevant_phase.
Qed.

Lemma mark_phase_sound p e : always keeps_sound (mark_phase p e).
Proof. unfold mark_phase. always_steps; [case_if; always_steps|apply persist_phase_sound]. Qed.

Lemma finalize_sound id : always keeps_sound (finalize_manifest id).
Proof.
  unfold finalize_manifest. always_steps. repeat (case_match; always_steps).
  - by apply on_disk_sound, atomic_write_untouched, irrelevant_dir.
  - apply persist_phase_sound.
  - apply append_event_sound.
Qed.

Lemma persist_reservation_sound r : always keeps_sound (persist_reservation r).
Proof. by apply on_disk_sound, atomic_write_untouched, irrelevant_dir. Qed.

(** ** Ingesting a frame *)
Lemma atomic_write_steady p b d : outcomes d = [] → atomic_write p b d = (Ok tt, put_file p b d).
Proof. intros Ho. unfold atomic_write, all_or_nothing, storage. by rewrite Ho. Qed.

Lemma semantic_write_steady p b d r d' : outcomes d = [] → semantic_write p b d = (r, d') →
  (files d !! p = None ∧ r = Ok tt ∧ d' = put_file p b d) ∨
  (d' = d ∧ is_Some (files d !! p) ∧ (r = Ok tt → files d !! p = Some b)).
Proof.
  intros Ho. unfold semantic_write. rewrite prog_bind_eq. unfold reading at 1, exists_file.
  destruct (files d !! p) as [c|] eqn:Ef.
  - rewrite bool_decide_eq_true_2 by by eexists. rewrite prog_bind_eq. unfold reading, checked.
    destruct (read_limited p MAX_PAYLOAD_BYTES d) as [c'|e] eqn:Er; intros [= <- <-]; right; (split_and!; [done|by eexists|]); [|done].
    apply read_limited_Ok in Er as [Er _]. rewrite Er in Ef. injection Ef as <-. intros Hc%refuse_Ok%negb_false_iff%bool_decide_eq_true.
    congruence.
  - rewrite bool_decide_eq_false_2 by (by intros [? ?]). rewrite atomic_write_steady by done. intros [= <- <-]. by left.
Qed.

Lemma listed_commitment c : listed "commitments" "bin" (commitment_path c).
Proof.
  apply (listed_ext "commitments" "bin"); [|by repeat constructor]. apply to_hex_nonempty. intros En.
  pose proof (commitment_id_length c) as HL. by rewrite En in HL.
Qed.

Lemma listed_frame f : listed "frames" "frame" (frame_path f).
Proof.
  apply (listed_ext "frames" "frame"); [|by repeat constructor]. apply to_hex_nonempty. intros En.
  pose proof (f_equal length En) as HL. unfold semantic_frame_id in HL. by rewrite length_sha256 in HL.
Qed.

Lemma commitment_path_inj c c' : commitment_path c = commitment_path c' → commitment_id c = commitment_id c'.
Proof.
  unfold commitment_path, in_dir. intros [= Eh]. apply app_inv_tail in Eh.
  apply (f_equal from_hex) in Eh. rewrite !from_to_hex in Eh. by injection Eh.
Qed.

Lemma frame_path_same f g : f_kind f = f_kind g → f_payload f = f_payload g → frame_path f = frame_path g.
Proof. intros Ek Ep. unfold frame_path, semantic_frame_id. by rewrite Ek, Ep. Qed.

Lemma read_paths_put dir ext p b d : listed dir ext p → files d !! p = None →
  read_paths_with_extension dir ext (put_file p b d) ≡ₚ p :: read_paths_with_extension dir ext d.
Proof.
  intros Hl Hn. apply read_paths_new; [done|done|]. intros q _. cbn [files put_file].
  destruct (decide (q = p)) as [->|Hq]; [rewrite lookup_insert_eq; naive_solver|].
  rewrite lookup_insert_ne by done. naive_solver.
Qed.

Lemma load_stored s op : load_proposal s = Ok op → stored_proposal (disk s) = Ok op.
Proof.
  unfold load_proposal, stored_proposal. case_if; [|done]. intros El.
  apply bind_Ok in El as (w & -> & El). cbn [mbind result_bind]. apply bind_Ok in El as (p & -> & El). cbn [mbind result_bind].
  apply bind_Ok in El as ([] & -> & El). cbn [mbind result_bind]. by apply bind_Ok in El as ([] & _ & El).
Qed.

Lemma proposal_or_Ok m s p : proposal_or m s = Ok p ↔ load_proposal s = Ok (Some p).
Proof. unfold proposal_or. rewrite bind_Ok. setoid_rewrite ok_or_Ok. naive_solver. Qed.

Lemma batch_error_Ok {A} (r : protocol A) a : batch_error r = Ok a ↔ r = Ok a.
Proof. destruct r; naive_solver. Qed.

Lemma origin_authorized f s op : stored_proposal (disk s) = Ok op → verify_origin_authorization f s = Ok tt →
  authorized op f.
Proof.
  intros Ep. unfold verify_origin_authorization, authorized. destruct (f_kind f).
  - intros Ev. apply bind_Ok in Ev as (p & Eq%batch_error_Ok & Ev). apply bind_Ok in Ev as ([] & _ & Ev). by exists p.
  - intros Ev. apply bind_Ok in Ev as (p & Eq%proposal_or_Ok%load_stored & Ev).
    apply bind_Ok in Ev as (c & Ec%batch_error_Ok & Ev). exists p, c. split_and!; congruence.
  - intros Hn%refuse_Ok%bool_decide_eq_false. by apply eq_None_not_Some.
  - intros Hn%refuse_Ok%bool_decide_eq_false. by apply eq_None_not_Some.
Qed.

(** A session that has stored the body of a frame, but not yet the frame. *)
Record staged (f : SignedFrame) (fs : list SignedFrame) (op : option Proposal)
    (cs : list (ParticipantCommitment * SignedFrame)) (s : Session) : Prop := {
  sg_proposal : stored_proposal (disk s) = Ok op;
  sg_config : config_ok s;
  sg_pool : pool_ok s op cs;
  sg_frames : frames_ok s op fs;
  sg_commits : cs.*2 ≡ₚ filter is_commitment (f :: fs);
  sg_authorized : authorized op f;
  sg_fresh : files (disk s) !! frame_path f = None;
  sg_steady : outcomes (disk s) = [];
}.

Lemma frame_files q f : q.1 ≠ lit "frames" → q ≠ frame_path f.
Proof. by intros Hq ->. Qed.

(** Storing the frame completes a staged session. *)
Lemma store_frame f fs op cs s : staged f fs op cs s → authentic f →
  stored_frame_bytes s + frame_size f ≤ max_session_bytes (relay_policy s) →
  sound (set_frame_bytes (stored_frame_bytes s + frame_size f)
    (set_disk (put_file (frame_path f) (to_wire f) (disk s)) s)).
Proof.
  intros [Ep Hcf Hpo Hfo Hc Hz Hn Ho] Ha Hq. split; [|done].
  assert (∀ q, q.1 ≠ lit "frames" → <[frame_path f := to_wire f]> (files (disk s)) !! q = files (disk s) !! q) as Hd
    by (intros q Hq'; apply lookup_insert_ne; by apply not_eq_sym, frame_files).
  exists op, cs, (f :: fs). cbn [disk set_frame_bytes set_disk files put_file].
  split_and!; [|eapply config_ok_same; [..|exact Hcf]|eapply pool_ok_same; [..|exact Hpo]| |done]; try done.
  - rewrite <- Ep. apply stored_proposal_same. cbn [files put_file]. by apply Hd.
  - intros q Hr. cbn [disk set_disk files put_file]. apply Hd. destruct Hr as [->|[->| ->]]; done.
  - cbn [disk set_disk files put_file]. set_solver.
  - intros q Hr. cbn [disk set_disk files put_file]. apply Hd. rewrite Hr. done.
  - destruct Hfo as [P1 P2 P3 P4 P5 P6]. constructor; cbn [disk set_frame_bytes set_disk files put_file stored_frame_bytes relay_policy].
    + rewrite fmap_cons, <- P1. apply read_paths_put; [apply listed_frame|done].
    + constructor; [apply lookup_insert_eq|]. apply Forall_forall. intros g Hg. rewrite Forall_forall in P2.
      rewrite lookup_insert_ne; [by apply P2|]. intros Eq. specialize (P2 g Hg). cbn beta in P2. rewrite <- Eq in P2. congruence.
    + by constructor.
    + by constructor.
    + rewrite total_size_cons. lia.
    + rewrite total_size_cons. lia.
Qed.

(** A body that lands among files the index does not depend on, or was there already. *)
Lemma stage_quiet f fs op cs s d : sound s → stored_proposal (disk s) = Ok op → config_ok s → pool_ok s op cs →
  frames_ok s op fs → cs.*2 ≡ₚ filter is_commitment fs → authorized op f → ¬ is_commitment f →
  files (disk s) !! frame_path f = None → disk_untouched irrelevant (disk s) d → staged f fs op cs (set_disk d s).
Proof.
  intros [_ Ho] Ep Hcf Hpo Hfo Hc Hz Hk Hn [F O L R].
  assert (∀ q, relevant q → files d !! q = files (disk s) !! q) as Hq by (intros q Hr; apply F; unfold irrelevant; tauto).
  constructor; cbn [disk set_disk]; [|eapply config_ok_same; [..|exact Hcf]|eapply pool_ok_same; [..|exact Hpo]
    |eapply frames_ok_same; [..|exact Hfo]| |done| |auto]; try done.
  - rewrite <- Ep. apply stored_proposal_same, Hq. by do 3 right; left.
  - intros q Hr. apply Hq. unfold relevant. tauto.
  - intros q Hr. apply Hq. unfold relevant. tauto.
  - intros q Hr. apply Hq. unfold relevant. tauto.
  - by rewrite filter_cons, decide_False.
  - rewrite Hq; [done|]. unfold relevant. by do 5 right.
Qed.

Lemma set_disk_same s : set_disk (disk s) s = s.
Proof. by destruct s. Qed.

Lemma stage_proposal f fs cs s p : sound s → stored_proposal (disk s) = Ok None → config_ok s → pool_ok s None cs →
  frames_ok s None fs → cs.*2 ≡ₚ filter is_commitment fs → authentic f → f_kind f = KProposal → authorized None f →
  files (disk s) !! frame_path f = None → proposal_from_wire (f_payload f) = Ok p → require_live_proposal p = Ok tt →
  proposal_validate p = Ok tt → staged f fs (Some p) cs (set_disk (put_file PROPOSAL (f_payload f) (disk s)) s).
Proof.
  intros [_ Ho] Ep Hcf Hpo Hfo Hc Ha Hk Hz Hn Ew El Ev.
  assert (cs = []) as ->.
  { destruct cs as [|x cs]; [done|]. pose proof (po_committed _ _ _ Hpo) as Hcm.
    apply Forall_cons in Hcm as [(q & Eq & _) _]. discriminate. }
  assert (∀ q, q ≠ PROPOSAL → <[PROPOSAL := f_payload f]> (files (disk s)) !! q = files (disk s) !! q) as Hd
    by (intros q Hq; by apply lookup_insert_ne).
  assert (1 ≤ participant_count p) as Hcount.
  { unfold proposal_validate in Ev. apply bind_Ok in Ev as ([] & _ & Ev). apply bind_Ok in Ev as ([] & Ev%ensure_Ok & _).
    by bool_props. }
  constructor; cbn [disk set_disk files put_file outcomes]; [|eapply config_ok_same; [..|exact Hcf]| |
    | | | |done]; try done.
  - unfold stored_proposal, exists_file. cbn [files put_file]. rewrite lookup_insert_eq, bool_decide_eq_true_2 by by eexists.
    rewrite (proj2 (read_limited_Ok _ _ _ (f_payload f))) by (split; [apply lookup_insert_eq|by apply authentic_payload]).
    rewrite bind_of_Ok, Ew. cbn [batch_error]. rewrite bind_of_Ok, El. by rewrite bind_of_Ok.
  - intros q Hr. cbn [disk set_disk files put_file]. apply Hd. intros ->. destruct Hr as [Hr|[Hr|Hr]]; by vm_compute in Hr.
  - cbn [disk set_disk files put_file]. set_solver.
  - assert (pool_ok (set_disk (put_file PROPOSAL (f_payload f) (disk s)) s) None []) as Hpo'.
    { eapply pool_ok_same; [..|exact Hpo]; try done. intros q Hq. apply Hd. by intros ->. }
    destruct Hpo' as [P1 P2 P3 P4 P5 P6 P7]. constructor; try done. cbn [length participant_cap] in *. lia.
  - assert (frames_ok (set_disk (put_file PROPOSAL (f_payload f) (disk s)) s) None fs) as Hfo'.
    { eapply frames_ok_same; [..|exact Hfo]; try done. intros q Hq. apply Hd. by intros ->. }
    destruct Hfo' as [P1 P2 P3 P4 P5 P6]. constructor; try done. eapply Forall_impl; [exact P4|].
    intros g Hg. unfold authorized in *. destruct (f_kind g); try done. by destruct Hg as (? & ? & ? & _).
  - rewrite filter_cons, decide_False; [done|]. unfold is_commitment. by rewrite Hk.
  - unfold authorized in *. by rewrite Hk in *.
  - by rewrite Hd.
Qed.

Lemma stage_commitment f fs cs s p c : sound s → stored_proposal (disk s) = Ok (Some p) → config_ok s →
  pool_ok s (Some p) cs → frames_ok s (Some p) fs → cs.*2 ≡ₚ filter is_commitment fs → authentic f →
  is_commitment f → authorized (Some p) f → files (disk s) !! frame_path f = None →
  commitment_from_wire p (f_payload f) = Ok c → files (disk s) !! commitment_path c = None →
  Z.of_nat (length (pool s)) < Z.min (max_commitments (relay_policy s)) (participant_count p) →
  f_sender f ∉ commitment_senders s → existsb (λ e, collides e c) (pool s) = false →
  staged f fs (Some p) (cs ++ [(c, f)])
    (admit_commitment c (f_sender f) (set_disk (put_file (commitment_path c) (f_payload f) (disk s)) s)).
Proof.
  intros [_ Ho] Ep Hcf Hpo Hfo Hc Ha Hk Hz Hn Ew Hpath Hcap Hs Hcol.
  assert (∀ q, q.1 ≠ lit "commitments" → <[commitment_path c := f_payload f]> (files (disk s)) !! q = files (disk s) !! q) as Hd
    by (intros q Hq; apply lookup_insert_ne; by intros <-).
  constructor; cbn [disk set_disk admit_commitment files put_file outcomes]; [|eapply config_ok_same; [..|exact Hcf]| |
    eapply frames_ok_same; [..|exact Hfo]| |done| |done]; try done.
  - rewrite <- Ep. apply stored_proposal_same. by apply Hd.
  - intros q Hr. apply Hd. destruct Hr as [->|[->| ->]]; done.
  - cbn [disk set_disk admit_commitment files put_file loose]. set_solver.
  - destruct Hpo as [P1 P2 P3 P4 P5 P6 P7]. constructor;
      cbn [disk set_disk admit_commitment files put_file pool relay_policy commitment_senders].
    + by rewrite fmap_app, P1.
    + rewrite read_paths_put by (apply listed_commitment || done). rewrite P2, !fmap_app. cbn. by rewrite Permutation_cons_append.
    + apply Forall_app. split; [|constructor; [|constructor]].
      * apply Forall_forall. intros x Hx. rewrite Forall_forall in P3. destruct (P3 x Hx) as (q & Eq & Ex & Ef).
        exists q. split_and!; [done|done|]. cbn [disk set_disk admit_commitment files put_file].
        rewrite lookup_insert_ne; [done|]. intros E'. rewrite <- E' in Ef. congruence.
      * exists p. split_and!; [done|done|apply lookup_insert_eq].
    + rewrite fmap_app. apply distinct_pool_snoc; [done|]. by rewrite <- P1.
    + rewrite length_app. cbn [length participant_cap] in *. rewrite P1, length_fmap in Hcap. lia.
    + rewrite P6, !fmap_app, list_to_set_app_L. cbn. set_solver.
    + rewrite !fmap_app. apply NoDup_app. split_and!; [done| |apply NoDup_singleton].
      intros x Hx ->%list_elem_of_singleton. apply Hs. rewrite P6. by apply elem_of_list_to_set.
  - intros q Hr. apply Hd. by rewrite Hr.
  - rewrite fmap_app, filter_cons, decide_True by done. cbn. rewrite Hc. symmetry. apply Permutation_cons_append.
  - by rewrite Hd.
Qed.

(** The parts of a coherent session, for the lemmas below. *)
Record parts (s : Session) (op : option Proposal) (cs : list (ParticipantCommitment * SignedFrame))
    (fs : list SignedFrame) : Prop := {
  pt_sound : sound s;
  pt_proposal : stored_proposal (disk s) = Ok op;
  pt_config : config_ok s;
  pt_pool : pool_ok s op cs;
  pt_frames : frames_ok s op fs;
  pt_commits : cs.*2 ≡ₚ filter is_commitment fs;
}.

(** What [ingest] has checked before it stores anything. *)
Record admitted (f : SignedFrame) (s : Session) : Prop := {
  ad_authentic : authentic f;
  ad_origin : verify_origin_authorization f s = Ok tt;
  ad_policy : enforce_frame_policy f (frame_size f) s = Ok tt;
  ad_fresh : files (disk s) !! frame_path f = None;
}.

Definition stages (f : SignedFrame) (fs : list SignedFrame) (s : Session) (x : gossip ()) (s1 : Session) : Prop :=
  (x ≠ Ok tt ∧ s1 = s) ∨
  (x = Ok tt ∧ stored_frame_bytes s1 = stored_frame_bytes s ∧ relay_policy s1 = relay_policy s ∧
   ∃ op cs, staged f fs op cs s1).

Lemma semantic_stage f fs op cs s p x s1 : parts s op cs fs → admitted f s → ¬ is_commitment f → irrelevant p →
  on_disk (semantic_write p (f_payload f)) s = (x, s1) → stages f fs s x s1.
Proof.
  intros [Hs Ep Hcf Hpo Hfo Hc] [Ha Hor _ Hn] Hk Hp E1. pose proof Hs as [_ Ho]. rewrite on_disk_eq in E1.
  destruct (semantic_write _ _ _) as [y d] eqn:Ew. injection E1 as <- <-.
  assert (stored_frame_bytes (set_disk d s) = stored_frame_bytes s ∧ relay_policy (set_disk d s) = relay_policy s) as [Eb Er] by done.
  assert (staged f fs op cs (set_disk d s)) as Hst.
  { eapply stage_quiet; try done; [by eapply origin_authorized|]. eapply semantic_write_untouched; [exact Hp|exact Ew]. }
  apply semantic_write_steady in Ew as [(_ & -> & _)|(-> & _ & Hx)]; [|  |done].
  - right. split_and!; [done..|]. by exists op, cs.
  - rewrite set_disk_same in *. destruct y as [[]|]; [|by left]. right. split_and!; [done..|]. by exists op, cs.
Qed.

Lemma proposal_stage f fs op cs s x s1 : parts s op cs fs → admitted f s → f_kind f = KProposal →
  persist_semantic f s = (x, s1) → stages f fs s x s1.
Proof.
  intros [Hs Ep Hcf Hpo Hfo Hc] [Ha Hor Hpol Hn] Hk E1. pose proof Hs as [_ Ho].
  assert (¬ is_commitment f) as Hnc by (unfold is_commitment; by rewrite Hk).
  pose proof (origin_authorized _ _ _ Ep Hor) as Hz.
  unfold persist_semantic in E1. rewrite Hk, checked_bind in E1.
  destruct (batch_error (proposal_from_wire (f_payload f))) as [p|] eqn:Ew; [|injection E1 as <- <-; by left].
  rewrite reading_bind in E1. destruct (batch_error (validate_at _ _ _)) as [[]|] eqn:Ev; [|injection E1 as <- <-; by left].
  apply batch_error_Ok in Ew, Ev. rewrite on_disk_eq in E1. destruct (semantic_write _ _ _) as [y d] eqn:Es.
  injection E1 as <- <-. unfold verify_origin_authorization in Hor. rewrite Hk, Ew in Hor. cbn [batch_error] in Hor.
  rewrite bind_of_Ok in Hor. apply bind_Ok in Hor as ([] & El & _).
  unfold validate_at in Ev. apply bind_Ok in Ev as ([] & Ev & _).
  apply semantic_write_steady in Es as [(Hnone & -> & ->)|(-> & _ & Hx)]; [| |done].
  - assert (op = None) as ->.
    { unfold stored_proposal, exists_file in Ep. rewrite Hnone, bool_decide_eq_false_2 in Ep by (by intros [? ?]).
      by injection Ep. }
    right. split_and!; [done..|]. exists (Some p), cs. by apply stage_proposal.
  - rewrite set_disk_same. destruct y as [[]|]; [|by left]. right. split_and!; [done..|]. exists op, cs.
    rewrite <- (set_disk_same s). by eapply stage_quiet.
Qed.

Lemma in_pool_path c cs : in_pool c cs = true ↔ ∃ e, e ∈ cs ∧ commitment_id e = commitment_id c.
Proof.
  unfold in_pool. rewrite existsb_exists. split; intros (e & He & Ec); exists e.
  - apply bool_decide_eq_true in Ec. split; [by apply list_elem_of_In|done].
  - split; [by apply list_elem_of_In|]. by apply bool_decide_eq_true.
Qed.

(** A stored commitment's body is that of a stored frame. *)
Lemma pool_frame s op cs fs e b : parts s op cs fs → e ∈ pool s → files (disk s) !! commitment_path e = Some b →
  ∃ g, g ∈ fs ∧ is_commitment g ∧ f_payload g = b.
Proof.
  intros [_ _ _ [P1 _ P3 _ _ _ _] _ Hc] He Hb. rewrite P1 in He. apply list_elem_of_fmap in He as ([e' g] & -> & Hin).
  rewrite Forall_forall in P3. destruct (P3 _ Hin) as (p & _ & _ & Ef). cbn [fst snd] in *. rewrite Ef in Hb. injection Hb as <-.
  assert (g ∈ filter is_commitment fs) as Hg by (rewrite <- Hc; apply list_elem_of_fmap; by exists (e', g)).
  apply list_elem_of_filter in Hg as [? ?]. by exists g.
Qed.

Lemma commitment_stage f fs op cs s x s1 : parts s op cs fs → admitted f s → is_commitment f →
  persist_semantic f s = (x, s1) → stages f fs s x s1.
Proof.
  intros Hparts [Ha Hor Hpol Hn] Hk E1. pose proof Hparts as [Hs Ep Hcf Hpo Hfo Hc]. pose proof Hs as [_ Ho].
  pose proof (origin_authorized _ _ _ Ep Hor) as Hz. pose proof Hk as Ek. unfold is_commitment in Ek.
  unfold persist_semantic in E1. rewrite Ek, reading_bind in E1.
  destruct (proposal_or _ s) as [p|] eqn:Epr; [|injection E1 as <- <-; by left].
  rewrite checked_bind in E1. destruct (batch_error (commitment_from_wire p (f_payload f))) as [c|] eqn:Ew;
    [|injection E1 as <- <-; by left].
  apply batch_error_Ok in Ew. rewrite prog_bind_eq, on_disk_eq in E1.
  destruct (semantic_write _ _ _) as [y d] eqn:Es.
  unfold enforce_frame_policy in Hpol. apply bind_Ok in Hpol as (n & _ & Hpol). apply bind_Ok in Hpol as ([] & _ & Hpol).
  rewrite Ek, Epr, bind_of_Ok, Ew in Hpol. cbn [batch_error] in Hpol. rewrite bind_of_Ok in Hpol.
  apply proposal_or_Ok, load_stored in Epr. rewrite Ep in Epr. injection Epr as ->.
  apply semantic_write_steady in Es as [(Hnone & -> & ->)|(-> & [b Hb] & Hx)]; [| |done].
  - assert (in_pool c (pool s) = false) as Hin.
    { apply not_true_iff_false. intros (e & He & Eid)%in_pool_path. destruct Hpo as [P1 _ P3 _ _ _ _].
      rewrite P1 in He. apply list_elem_of_fmap in He as (z & -> & Hz'). rewrite Forall_forall in P3.
      destruct (P3 _ Hz') as (q & _ & _ & Ef). unfold commitment_path in Hnone, Ef. rewrite Eid in Ef. congruence. }
    rewrite Hin in Hpol. apply bind_Ok in Hpol as ([] & H1'%refuse_Ok & Hpol).
    apply bind_Ok in Hpol as ([] & H2'%refuse_Ok & H3'%refuse_Ok). bool_props.
    unfold updating in E1. cbn [pool set_disk] in E1. rewrite Hin in E1. injection E1 as <- <-.
    right. split_and!; [done..|]. exists (Some p), (cs ++ [(c, f)]). by apply stage_commitment.
  - rewrite set_disk_same in E1. assert (∃ e, e ∈ pool s ∧ commitment_path e = commitment_path c) as (e & He & Ee).
    { assert (commitment_path c ∈ read_paths_with_extension "commitments" "bin" (disk s)) as Hin
        by (apply read_paths_elem; split; [apply listed_commitment|by eexists]).
      rewrite (po_files _ _ _ Hpo), <- (po_pool _ _ _ Hpo) in Hin. apply list_elem_of_fmap in Hin as (e & -> & He). by exists e. }
    destruct y as [[]|]; [|injection E1 as <- <-; by left]. specialize (Hx eq_refl). exfalso.
    destruct (pool_frame s (Some p) cs fs e _ Hparts He ltac:(by rewrite Ee)) as (g & Hg & Hgk & Eg).
    pose proof (fo_stored _ _ _ Hfo) as Hst. rewrite Forall_forall in Hst. specialize (Hst g Hg). cbn beta in Hst.
    rewrite (frame_path_same g f) in Hst; [congruence|by rewrite Ek|done].
Qed.

Lemma persist_stages f fs op cs s x s1 : parts s op cs fs → admitted f s → persist_semantic f s = (x, s1) →
  stages f fs s x s1.
Proof.
  intros Hp Ha E1. destruct (f_kind f) eqn:Ek.
  - by eapply proposal_stage.
  - by eapply commitment_stage.
  - unfold persist_semantic in E1. rewrite Ek, reading_bind in E1. case_match; [|injection E1 as <- <-; by left].
    eapply semantic_stage; [done|done| | |exact E1]; [unfold is_commitment; by rewrite Ek|by apply irrelevant_dir].
  - unfold persist_semantic in E1. rewrite Ek, reading_bind in E1. case_match; [|injection E1 as <- <-; by left].
    eapply semantic_stage; [done|done| | |exact E1]; [unfold is_commitment; by rewrite Ek|by apply irrelevant_dir].
Qed.

Lemma sound_parts s : sound s → ∃ op cs fs, parts s op cs fs.
Proof. intros Hs. pose proof Hs as [(op & cs & fs & Ep & Hcf & Hpo & Hfo & Hc) _]. by exists op, cs, fs. Qed.

(** The end of [ingest], for a frame that has passed its checks. *)
Definition accept_frame (f : SignedFrame) : session_op IngestOutcome :=
  persist_semantic f;;
  on_disk (atomic_write (frame_path f) (to_wire f));;
  total ← reading (λ s, ok_or (checked_add64 (stored_frame_bytes s) (frame_size f))
                          (GProtocol "stored frame-byte counter overflow"));
  updating (set_frame_bytes total);;
  append_event (accepted_event f);;
  mret Accepted.

Definition running (s : Session) : Prop :=
  ∃ ph, load_phase s = Ok ph ∧ match ph with Some p => rejects_new_protocol_messages p = false | None => True end.

Lemma ingest_admitted f s : admitted f s → running s → ingest (to_wire f) s = accept_frame f s.
Proof.
  intros [Ha Ho Hp Hn] (ph & Hl & Hph). unfold ingest. rewrite checked_bind, (authentic_from_wire _ Ha).
  rewrite reading_bind, Ho, reading_bind. unfold exists_file. rewrite Hn, bool_decide_eq_false_2 by (by intros [? ?]).
  rewrite reading_bind, Hl, checked_bind.
  assert (match ph with Some p => rejects_new_protocol_messages p | None => false end = false) as -> by (by destruct ph).
  cbn [refuse negb ensure]. by rewrite reading_bind, frame_size_eq, Hp.
Qed.

Lemma ingest_cases wire s r s' : ingest wire s = (r, s') →
  (s' = s ∧ r ≠ Ok Accepted) ∨
  ∃ f, wire = to_wire f ∧ admitted f s ∧ running s ∧ accept_frame f s = (r, s').
Proof.
  intros Ei. pose proof Ei as Ei'. unfold ingest in Ei.
  rewrite checked_bind in Ei. destruct (from_wire wire) as [f|] eqn:Ef; [|injection Ei as <- <-; by left].
  rewrite reading_bind in Ei. destruct (verify_origin_authorization f s) as [[]|] eqn:Eo; [|injection Ei as <- <-; by left].
  rewrite reading_bind in Ei. destruct (exists_file (frame_path f) (disk s)) eqn:Ex.
  { rewrite reading_bind in Ei. destruct (read_limited _ _ _); [|injection Ei as <- <-; by left].
    rewrite checked_bind in Ei. destruct (from_wire a); [|injection Ei as <- <-; by left].
    rewrite checked_bind in Ei. destruct (refuse _ _); injection Ei as <- <-; by left. }
  rewrite reading_bind in Ei. destruct (load_phase s) as [ph|] eqn:El; [|injection Ei as <- <-; by left].
  rewrite checked_bind in Ei. destruct (refuse _ _) as [[]|] eqn:Er; [|injection Ei as <- <-; by left].
  rewrite reading_bind in Ei. apply gossip_frame_exact in Ef as [Ha ->]. rewrite frame_size_eq in Ei.
  destruct (enforce_frame_policy f (frame_size f) s) as [[]|] eqn:Epol; [|injection Ei as <- <-; by left].
  right. exists f. split_and!; [done| | |exact Ei].
  - constructor; [done..|]. unfold exists_file in Ex. apply bool_decide_eq_false in Ex. by apply eq_None_not_Some.
  - exists ph. split; [done|]. apply refuse_Ok in Er. by destruct ph.
Qed.

Lemma accept_quota f s : enforce_frame_policy f (frame_size f) s = Ok tt →
  stored_frame_bytes s + frame_size f ≤ max_session_bytes (relay_policy s).
Proof.
  unfold enforce_frame_policy. intros Epol. apply bind_Ok in Epol as (n & En%ok_or_Ok & Epol).
  apply bind_Ok in Epol as ([] & Hq%refuse_Ok & _). unfold checked_add64 in En. case_decide; [|done].
  injection En as <-. rewrite Z.gtb_ltb in Hq. by bool_props.
Qed.

Lemma ingest_sound wire : always keeps_sound (ingest wire).
Proof.
  intros s r s' Ei Hs. apply ingest_cases in Ei as [[-> _]|(f & _ & Had & _ & Ei)]; [done|].
  destruct (sound_parts s Hs) as (op & cs & fs & Hp). pose proof (accept_quota f s (ad_policy _ _ Had)) as Hq.
  unfold accept_frame in Ei. rewrite prog_bind_eq in Ei. destruct (persist_semantic f s) as [x s1] eqn:Es.
  destruct (persist_stages f fs op cs s x s1 Hp Had Es) as [[Hx ->]|(-> & Eb & Er & op' & cs' & Hst)].
  { destruct x as [[]|]; [done|by injection Ei as _ <-]. }
  rewrite <- Eb, <- Er in Hq. pose proof (sg_config _ _ _ _ _ Hst) as Hcf. destruct (cf_relay _ Hcf) as (_ & _ & [_ Hmax] & _).
  rewrite prog_bind_eq, on_disk_eq, atomic_write_steady in Ei by apply Hst. rewrite reading_bind in Ei.
  unfold checked_add64 in Ei. cbn [stored_frame_bytes set_disk] in Ei. rewrite decide_True in Ei by lia.
  cbn [ok_or] in Ei. rewrite prog_bind_eq in Ei. unfold updating in Ei.
  pose proof (store_frame f fs op' cs' s1 Hst (ad_authentic _ _ Had) Hq) as Hfin.
  refine (always_bind keeps_sound _ _ (append_event_sound _) _ _ _ _ Ei Hfin). intros _. apply (always_ret _).
Qed.

Lemma publish_sound sign : always keeps_sound (publish_frame sign).
Proof. unfold publish_frame. always_steps. apply ingest_sound. Qed.

Lemma sign_sound now id index key verified r age : always keeps_sound (sign_and_publish now id index key verified r age).
Proof. unfold sign_and_publish. always_steps. repeat (case_match; always_steps); [apply persist_reservation_sound|apply publish_sound]. Qed.

Lemma reserve_sound op o : always keeps_sound (reserve_local_input op o).
Proof. unfold reserve_local_input. always_steps. case_match; always_steps. apply persist_reservation_sound. Qed.

Lemma refresh_sound now tip age : 0 ≤ vt_height tip → always keeps_sound (refresh_verified_tip now tip age).
Proof.
  intros Hh s r s' Ei Hs. unfold refresh_verified_tip in Ei.
  rewrite checked_bind in Ei. destruct (receipt_error _); [|by injection Ei as _ <-].
  rewrite reading_bind in Ei. destruct (refuse _ _); [|by injection Ei as _ <-].
  rewrite checked_bind in Ei. destruct (refuse (vt_height tip >? u32_max) _) as [[]|] eqn:Eh; [|by injection Ei as _ <-].
  apply refuse_Ok in Eh. rewrite Z.gtb_ltb in Eh. apply Z.ltb_ge in Eh.
  destruct (sound_parts s Hs) as (op & cs & fs & [[_ Ho] Ep Hcf Hpo Hfo Hc]).
  rewrite prog_bind_eq in Ei. unfold updating in Ei. rewrite reading_bind, prog_bind_eq, on_disk_eq in Ei.
  rewrite atomic_write_steady in Ei by done. refine (append_event_sound _ _ _ _ Ei _). clear Ei.
  cbn [s_policy set_policy disk].
  set (pol := {| sp_chain_id := sp_chain_id (s_policy s); current_height := vt_height tip |}).
  assert (∀ q, q ≠ POLICY → <[POLICY := encode_policy pol]> (files (disk s)) !! q = files (disk s) !! q) as Hd
    by (intros q Hq; by apply lookup_insert_ne).
  split; [|done]. exists op, cs, fs. cbn [disk set_disk].
  split_and!; [| |eapply pool_ok_same; [..|exact Hpo]|eapply frames_ok_same; [..|exact Hfo]|done]; try done.
  - rewrite <- Ep. apply stored_proposal_same. by apply Hd.
  - destruct Hcf as [[HL _] P2 P3 P4 P5 [P6 P7]]. constructor; cbn [s_policy set_policy set_disk disk relay_policy identity files put_file loose root_loose].
    + split; [done|]. unfold is_u32. cbn. lia.
    + done.
    + apply lookup_insert_eq.
    + rewrite Hd by done. done.
    + rewrite Hd by done. done.
    + split; [set_solver|done].
  - intros q Hq. apply Hd. by intros ->.
  - intros q Hq. apply Hd. by intros ->.
Qed.

Lemma set_pool_sound cs s : cs ≡ₚ pool s → sound s → sound (set_pool cs s).
Proof.
  intros Hcs Hs. destruct (sound_parts s Hs) as (op & ps & fs & [[_ Ho] Ep Hcf [P1 P2 P3 P4 P5 P6 P7] Hfo Hc]).
  rewrite P1 in Hcs. apply fmap_permutation in Hcs as (ps' & -> & Hps). split; [|done].
  exists op, ps', fs. cbn [disk set_pool].
  split_and!; [done|eapply config_ok_same; [..|exact Hcf]; done| |eapply frames_ok_same; [..|exact Hfo]; done|by rewrite Hps].
  constructor; cbn [disk set_pool pool relay_policy commitment_senders].
  - done.
  - by rewrite P2, Hps.
  - by rewrite Hps.
  - eapply distinct_pool_perm; [|exact P4]. by rewrite Hps.
  - by rewrite Hps.
  - rewrite P6. apply set_eq. intros x. rewrite !elem_of_list_to_set. by rewrite Hps.
  - by rewrite Hps.
Qed.

Lemma reopen_sound : always keeps_sound reopen.
Proof.
  intros s r s' Ei Hs. destruct (open_coherent s (proj1 Hs)) as (cs & Hcs & Eo). unfold reopen in Ei. rewrite Eo in Ei.
  injection Ei as _ <-. by apply set_pool_sound.
Qed.

Lemma forget_sound {A} (m : session_op A) : always keeps_sound m → always keeps_sound (forget m).
Proof. intros Hm. unfold forget. by always_steps. Qed.

Lemma call_sound c : typed_call c → always keeps_sound (run_call c).
Proof.
  intros Hc. destruct c; cbn [run_call]; try apply forget_sound.
  - apply reserve_sound.
  - apply ingest_sound.
  - apply publish_sound.
  - apply publish_sound.
  - unfold publish_verified_commitment. always_steps. apply publish_sound.
  - unfold author_manifest. always_steps. apply publish_sound.
  - unfold author_replacement. always_steps. apply publish_sound.
  - apply sign_sound.
  - by apply refresh_sound.
  - apply finalize_sound.
  - apply mark_phase_sound.
  - apply reopen_sound.
Qed.

Lemma calls_sound calls s : Forall typed_call calls → sound s → sound (run_calls calls s).
Proof.
  revert s. induction calls as [|c calls IH]; intros s Hc Hs; [done|]. apply Forall_cons in Hc as [Hc Hcs].
  apply IH; [done|]. destruct (run_call c s) as [r s'] eqn:E1. cbn [snd]. by eapply (call_sound c Hc _ _ _ E1).
Qed.

(** ** A new session *)
Lemma relay_validate_Ok p : relay_policy_wf p → relay_policy_validate p = Ok p.
Proof.
  unfold relay_policy_wf, relay_policy_validate. intros (H1' & H2' & H3' & H4').
  rewrite !(proj2 (Z.leb_le _ _)), (proj2 (Z.eqb_neq _ _)), !(proj2 (Z.ltb_ge _ _)) by lia. done.
Qed.

Lemma empty_listing dir ext d : (∀ q, q.1 = lit dir → files d !! q = None) → read_paths_with_extension dir ext d = [].
Proof.
  intros Hn. destruct (read_paths_with_extension dir ext d) as [|q l] eqn:Er; [done|].
  assert (q ∈ read_paths_with_extension dir ext d) as Hq by (rewrite Er; set_solver).
  apply read_paths_elem in Hq as [Hl%listed_dir [b Hb]]. rewrite Hn in Hb; done.
Qed.

Definition fresh_files (policy : SessionPolicy) (relay : RelayPolicy) (fresh : SecretKey) : gmap path bytes :=
  <[IDENTITY := secret_bytes fresh]> (<[RELAY_POLICY := encode_relay_policy relay]>
    (<[POLICY := encode_policy policy]> ∅)).

(** The session made in an empty directory. *)
Definition fresh_session (policy : SessionPolicy) (relay : RelayPolicy) (fresh : SecretKey) (d : Disk) : Session :=
  MkSession (MkDisk (fresh_files policy relay fresh) (((loose d ∖ {[POLICY]}) ∖ {[RELAY_POLICY]}) ∖ {[IDENTITY]}) false [])
    policy relay fresh [] ∅ 0.

Lemma fresh_sound policy relay fresh d : length (sp_chain_id policy) = 32%nat → is_u32 (current_height policy) →
  relay_policy_wf relay → sound (fresh_session policy relay fresh d).
Proof.
  intros HL HH Hr. split; [|done]. exists None, [], [].
  split_and!; [|constructor|constructor|constructor|done]; cbn [disk fresh_session files]; try done.
  - set_solver.
  - by split_and!; apply NoDup_nil_2.
  - cbn. destruct Hr as ([? ?] & _). lia.
  - apply NoDup_nil_2.
  - cbn. destruct Hr as (_ & _ & [? ?] & _). lia.
Qed.

Lemma init_fresh policy relay fresh d : files d = ∅ → outcomes d = [] → relay_policy_wf relay →
  init_with_relay_policy policy relay fresh d =
  (Ok (fresh_session policy relay fresh d), disk (fresh_session policy relay fresh d)).
Proof.
  intros Hf Ho Hr. unfold init_with_relay_policy. rewrite prog_bind_eq. unfold checked at 1.
  rewrite relay_validate_Ok by done. rewrite prog_bind_eq. unfold updating at 1.
  destruct d as [f l b o]. cbn [files outcomes] in Hf, Ho. subst f o. unfold set_root_private. cbn [files loose outcomes].
  unfold bind_file. rewrite !prog_bind_eq. unfold reading at 1, exists_file. cbn [files]. rewrite lookup_empty.
  rewrite bool_decide_eq_false_2 by (by intros [? ?]). rewrite atomic_write_steady by done.
  unfold put_file. cbn [files loose root_loose outcomes]. rewrite !prog_bind_eq. unfold reading at 1. cbn [files].
  rewrite lookup_insert_ne, lookup_empty by done.
  rewrite bool_decide_eq_false_2 by (by intros [? ?]). rewrite atomic_write_steady by done.
  unfold put_file. cbn [files loose root_loose outcomes]. rewrite prog_bind_eq. unfold load_or_create_identity.
  rewrite !prog_bind_eq. unfold reading at 1, exists_file. cbn [files].
  rewrite lookup_insert_ne, lookup_insert_ne, lookup_empty by done.
  rewrite bool_decide_eq_false_2 by (by intros [? ?]). rewrite prog_bind_eq, atomic_write_steady by done.
  unfold put_file, mret, prog_ret. cbn [files loose root_loose outcomes].
  fold (fresh_files policy relay fresh). unfold indexed_session. rewrite prog_bind_eq. unfold reading at 1.
  set (dd := MkDisk _ _ _ _). assert (rebuild_session_index relay dd = Ok ([], ∅, 0)) as ->; [|done].
  assert (∀ q, q.1 ≠ [] → files dd !! q = None) as Hn.
  { intros q Hq. cbn [dd files]. unfold fresh_files. rewrite !lookup_insert_ne; [done|..]; by intros <-. }
  unfold rebuild_session_index. assert (stored_proposal dd = Ok None) as -> by done. rewrite bind_of_Ok.
  assert (∀ dir ext, lit dir ≠ [] → read_paths_with_extension dir ext dd = []) as Hno
    by (intros dir ext Hdir; apply empty_listing; intros q Hq; apply Hn; intros Hq'; apply Hdir; exact (eq_trans (eq_sym Hq) Hq')).
  rewrite !Hno by done. cbn [rebuild_pool rebuild_frames]. rewrite bind_of_Ok.
  rewrite bind_of_refuse; [done|]. rewrite Z.gtb_ltb. apply Z.ltb_ge. cbn. destruct Hr as ([? ?] & _). lia.
Qed.

(** C29: a session created in an empty directory can be dropped after any sequence of calls and opened
    again: as long as the storage does not fail, opening succeeds, changes nothing, and gives the
    session back, with the commitments of its pool perhaps in another order. *)
Theorem session_survives_restart policy relay fresh d calls : files d = ∅ → outcomes d = [] →
  length (sp_chain_id policy) = 32%nat → is_u32 (current_height policy) → relay_policy_wf relay →
  Forall typed_call calls →
  ∃ s, init_with_relay_policy policy relay fresh d = (Ok s, disk s) ∧
    let s' := run_calls calls s in
    ∃ cs, cs ≡ₚ pool s' ∧ open (disk s') = (Ok (set_pool cs s'), disk s').
Proof.
  intros Hf Ho HL HH Hr Hc. exists (fresh_session policy relay fresh d). split; [by apply init_fresh|].
  apply open_coherent. apply (calls_sound calls); [done|]. by apply fresh_sound.
Qed.

(** ** One failed write *)
Definition with_outcomes (os : list Outcome) (s : Session) : Session :=
  set_disk (MkDisk (files (disk s)) (loose (disk s)) (root_loose (disk s)) os) s.

(** A stored commitment without its frame cannot be opened. *)
Lemma staged_unopenable f fs op cs s : staged f fs op cs s → authentic f → is_commitment f →
  open (disk s) = (Err (GProtocol "stored commitment lacks its authorized relay frame"), disk s).
Proof.
  intros [Ep Hcf Hpo Hfo Hc Hz Hn _] Ha Hk. rewrite open_rebuilds by done.
  destruct (rebuild_parts s op cs fs Ep (cf_relay _ Hcf) Hpo Hfo) as (cs' & ids & Hcs & Hv & ->).
  - eapply commits_authentic; [exact Hc|]. constructor; [done|apply Hfo].
  - pose proof (po_nodup _ _ _ Hpo) as Hnd. rewrite Hc, filter_cons, decide_True, fmap_cons in Hnd by done.
    by apply NoDup_cons in Hnd as [_ ?].
  - assert (f ∈ cs.*2) as ([c f'] & -> & Hin)%list_elem_of_fmap by (rewrite Hc, filter_cons, decide_True by done; set_solver).
    cbn [snd] in *. pose proof (po_committed _ _ _ Hpo) as Hcm. rewrite Forall_forall in Hcm.
    pose proof (Hcm _ Hin) as (p & Eop & Ec & Ef). cbn [fst snd] in *.
    assert (existsb (λ c, bool_decide (commitment_id c ∉ ids)) cs'.*1 = true) as ->; [|done].
    apply existsb_exists. exists c. split.
    { apply list_elem_of_In. rewrite Hcs. apply list_elem_of_fmap. by exists (c, f'). }
    apply bool_decide_eq_true. intros (g & Hg & Hgk & p' & c' & Eop' & Ec' & Eid)%Hv.
    assert (g ∈ cs.*2) as ([c2 g'] & -> & Hin')%list_elem_of_fmap.
    { rewrite Hc, filter_cons, decide_True by done. apply elem_of_cons. right. by apply list_elem_of_filter. }
    pose proof (Hcm _ Hin') as (p2 & Eop2 & Ec2 & Ef2). cbn [fst snd] in *.
    assert (p2 = p' ∧ c2 = c') as [-> ->] by (split; congruence).
    unfold commitment_path in Ef, Ef2. rewrite Eid, Ef2 in Ef. injection Ef as Epay.
    pose proof (fo_stored _ _ _ Hfo) as Hst. rewrite Forall_forall in Hst. specialize (Hst g' Hg). cbn beta in Hst.
    rewrite (frame_path_same g' f') in Hst; [congruence|by rewrite Hgk, Hk|done].
Qed.

Lemma with_outcomes_steady s : outcomes (disk s) = [] → with_outcomes [] s = s.
Proof. destruct s as [[f l r o] ? ? ? ? ? ?]. cbn. by intros ->. Qed.

Lemma load_proposal_outcomes os s : load_proposal (with_outcomes os s) = load_proposal s.
Proof. reflexivity. Qed.

Lemma admitted_outcomes os f s : is_commitment f → admitted f s → admitted f (with_outcomes os s).
Proof.
  intros Hk [Ha Ho Hp Hn]. constructor; [done| | |done].
  - unfold verify_origin_authorization, proposal_or in *. by rewrite load_proposal_outcomes.
  - unfold is_commitment in Hk. unfold enforce_frame_policy, proposal_or in *. rewrite Hk, load_proposal_outcomes in *. exact Hp.
Qed.

(** A commitment's body is written by the first storage operation. *)
Lemma commitment_persisted f s s1 os : outcomes (disk s) = [] → is_commitment f →
  disk s1 ≠ disk s → persist_semantic f s = (Ok tt, s1) →
  persist_semantic f (with_outcomes (Done :: os) s) = (Ok tt, with_outcomes os s1).
Proof.
  intros Ho Hk Hne Es. unfold is_commitment in Hk. unfold persist_semantic in *. rewrite Hk in *.
  rewrite reading_bind in *. unfold proposal_or in *. rewrite load_proposal_outcomes.
  destruct (load_proposal s ≫= _) as [p|]; [|done]. rewrite checked_bind in *.
  destruct (batch_error (commitment_from_wire p (f_payload f))) as [c|]; [|done].
  rewrite prog_bind_eq, on_disk_eq in *. destruct (semantic_write _ _ (disk s)) as [y d] eqn:Ew.
  apply semantic_write_steady in Ew as [(Hnone & -> & ->)|(-> & _ & _)]; [| |done].
  - unfold semantic_write. rewrite prog_bind_eq. unfold reading, exists_file. cbn [disk with_outcomes set_disk files].
    rewrite Hnone, bool_decide_eq_false_2 by (by intros [? ?]).
    unfold atomic_write, all_or_nothing, storage. cbn [outcomes]. unfold updating in *. cbn [pool set_disk with_outcomes] in *.
    injection Es as <-. f_equal. by destruct (in_pool c (pool s)).
  - rewrite set_disk_same in Es. destruct y as [[]|]; [|done]. unfold updating in Es. injection Es as <-.
    by destruct (in_pool c (pool s)).
Qed.

(** C30: a commitment frame that a session would accept, when the write of its body succeeds and that
    of the frame fails (or the process stops between them), leaves a directory that can never be
    opened again. *)
Theorem torn_commitment_never_opens wire f s s' : sound s → from_wire wire = Ok f → f_kind f = KCommitment →
  ingest wire s = (Ok Accepted, s') →
  ∃ t, ingest wire (with_outcomes [Done; Failed 0] s) = (Err GIo, t) ∧
    open (disk t) = (Err (GProtocol "stored commitment lacks its authorized relay frame"), disk t).
Proof.
  intros Hs Ef Hk Ei. pose proof Hs as [Hcoh Ho]. apply ingest_cases in Ei as [[_ ?]|(f' & -> & Had & Hrun & Ei)]; [done|].
  rewrite (authentic_from_wire _ (ad_authentic _ _ Had)) in Ef. injection Ef as ->.
  destruct (sound_parts s Hs) as (op & cs & fs & Hp). unfold accept_frame in Ei. rewrite prog_bind_eq in Ei.
  destruct (persist_semantic f s) as [x s1] eqn:Es.
  destruct (persist_stages f fs op cs s x s1 Hp Had Es) as [[Hx ->]|(-> & _ & _ & op' & cs' & Hst)].
  { destruct x as [[]|]; done. }
  pose proof (staged_unopenable _ _ _ _ _ Hst (ad_authentic _ _ Had) Hk) as Hopen. exists s1. split; [|done].
  rewrite ingest_admitted; [|by apply admitted_outcomes|exact Hrun]. unfold accept_frame. rewrite prog_bind_eq.
  rewrite (commitment_persisted f s s1 [Failed 0]); [|done|done| |done].
  - rewrite prog_bind_eq, on_disk_eq. unfold atomic_write, all_or_nothing, storage, with_outcomes at 1.
    cbn [disk set_disk outcomes]. pose proof (with_outcomes_steady s1 (sg_steady _ _ _ _ _ Hst)) as Hw.
    f_equal. exact Hw.
  - intros Ed. rewrite Ed in Hopen. destruct (open_coherent s Hcoh) as (? & _ & Eo). by rewrite Eo in Hopen.
Qed.
End restart.

(** ** A session that receives a commitment *)
Section demo.
#[local] Existing Instances demo_sponge small_sha256d small_sha256 small_sha256_laws demo_bitcoin byte_ecdsa byte_secp byte_secp_laws.

Definition demo_policy : SessionPolicy := {| sp_chain_id := replicate 32 x07; current_height := 100 |}.
Definition demo_secret (b : byte) : @SecretKey byte_ecdsa := b.
Definition demo_empty : Disk := MkDisk ∅ ∅ true [].

Definition frame_or (r : gossip SignedFrame) : SignedFrame :=
  match r with
  | Ok f => f
  | Err _ => {| f_kind := KProposal; f_sender := []; f_payload := []; f_origin := None; f_signature := sign_raw (demo_secret x00) [] |}
  end.
Definition demo_proposal_frame : SignedFrame := frame_or (sign_proposal (proposal_wire demo_proposal) (demo_secret x21) (demo_secret x01)).
Definition demo_commitment_frame : SignedFrame :=
  frame_or (sign_commitment demo_proposal (commitment_wire (demo_commitment x09 2 5000)) (demo_secret x22) (demo_secret x09)).

Lemma demo_relay_wf : relay_policy_wf relay_policy_default.
Proof. unfold relay_policy_wf, u32_max, u64_max. cbn. lia. Qed.

Definition demo_calls : list Call := [CallIngest (to_wire demo_proposal_frame); CallIngest (to_wire demo_commitment_frame)].

Lemma session_survives_restart_witness : ∃ s cs,
  init_with_relay_policy demo_policy relay_policy_default (demo_secret x05) demo_empty = (Ok s, disk s) ∧
  open (disk (run_calls demo_calls s)) = (Ok (set_pool cs (run_calls demo_calls s)), disk (run_calls demo_calls s)).
Proof.
  destruct (session_survives_restart demo_policy relay_policy_default (demo_secret x05) demo_empty demo_calls eq_refl eq_refl eq_refl
    ltac:(unfold is_u32, u32_max; cbn; lia) demo_relay_wf ltac:(by repeat constructor)) as (s & Hi & cs & _ & Ho).
  exists s, cs. split; [exact Hi|exact Ho].
Defined.

Definition demo_start : Session :=
  run_calls [CallIngest (to_wire demo_proposal_frame)] (fresh_session demo_policy relay_policy_default (demo_secret x05) demo_empty).

Lemma torn_commitment_never_opens_witness : ∃ t,
  ingest (to_wire demo_commitment_frame) (with_outcomes [Done; Failed 0] demo_start) = (Err GIo, t) ∧
  (open (disk t)).1 = Err (GProtocol "stored commitment lacks its authorized relay frame").
Proof.
  assert (sound demo_start) as Hs.
  { apply calls_sound; [by repeat constructor|]. apply fresh_sound; [done|unfold is_u32, u32_max; cbn; lia|apply demo_relay_wf]. }
  destruct (ingest (to_wire demo_commitment_frame) demo_start) as [r s'] eqn:E.
  assert (r = Ok Accepted) as ->.
  { apply (f_equal fst) in E. cbn [fst] in E. rewrite <- E. vm_compute. reflexivity. }
  destruct (from_wire (to_wire demo_commitment_frame)) as [f|e] eqn:Hf.
  - assert (f_kind f = KCommitment) as Hk.
    { transitivity (match from_wire (to_wire demo_commitment_frame) with Ok f => f_kind f | Err _ => KProposal end);
        [by rewrite Hf|vm_compute; reflexivity]. }
    destruct (torn_commitment_never_opens _ f demo_start s' Hs Hf Hk E) as (t & Ei & Eo).
    exists t. split; [exact Ei|]. rewrite Eo. reflexivity.
  - exfalso. assert (is_ok (from_wire (to_wire demo_commitment_frame)) = true) as Hok by (vm_compute; reflexivity).
    rewrite Hf in Hok. discriminate Hok.
Defined.
End demo.
