(* ===== verification/AccountText.v ===== *)
(** * Errors, texts and identities of the account wallet (ffi)

    The value-level helpers of [ffi/src/account.rs] and [ffi/src/hex.rs]: errors with
    their stable codes, hexadecimal and padded-decimal texts, deployment names, networks
    and service addresses.  URL parsing is the class [UrlParser]. *)

From S2P Require Import Prelude Text Field Commitments Kernel Anchor Batch Chain Accept.
From stdpp Require Import strings.
#[local] Open Scope Z_scope.

(** ** Errors *)
Record AccountError := { ae_code : string; ae_message : string; ae_retryable : bool }.

#[export] Instance account_error_eq_dec : EqDecision AccountError.
Proof. solve_decision. Defined.

Definition account_error (code message : string) : AccountError :=
  {| ae_code := code; ae_message := message; ae_retryable := false |}.
Definition retryable_error (code message : string) : AccountError :=
  {| ae_code := code; ae_message := message; ae_retryable := true |}.

(** A call returns an error or panics. *)
Inductive halt (E : Type) := Refused (e : E) | Panicked.
Arguments Refused {E} e.
Arguments Panicked {E}.

Abbreviation account := (result (halt AccountError)).

(** [if cond { return Err(AccountError::new(code, message)) }] *)
Definition reject (cond : bool) (code message : string) : account () :=
  ensure (negb cond) (Refused (account_error code message)).

(** [map_err]; a panic is not caught. *)
Definition map_refused {E F A} (f : E → F) (r : result (halt E) A) : result (halt F) A :=
  match r with
  | Ok a => Ok a
  | Err (Refused e) => Err (Refused (f e))
  | Err Panicked => Err Panicked
  end.

Lemma reject_Ok cond code message u : reject cond code message = Ok u ↔ cond = false.
Proof. unfold reject. rewrite ensure_Ok. apply negb_true_iff. Qed.

Lemma reject_false cond code message : cond = false → reject cond code message = Ok tt.
Proof. by intros ->. Qed.

Lemma map_refused_Ok {E F A} (f : E → F) (r : result (halt E) A) a : map_refused f r = Ok a ↔ r = Ok a.
Proof. destruct r as [|[|]]; cbn; naive_solver. Qed.

(** ** Hexadecimal *)
Definition is_ascii_digit (b : byte) : bool := (0x30 <=? bval b) && (bval b <=? 0x39).
Definition is_ascii_lowercase (b : byte) : bool := (0x61 <=? bval b) && (bval b <=? 0x7A).
Definition is_ascii_hexdigit (b : byte) : bool :=
  is_ascii_digit b || ((0x41 <=? bval b) && (bval b <=? 0x46)) || ((0x61 <=? bval b) && (bval b <=? 0x66)).
Definition is_upper (b : byte) : bool := (0x41 <=? bval b) && (bval b <=? 0x5A).

(** [hex_encode] of account.rs, by table. *)
Definition HEX : rstring := lit "0123456789abcdef".
Definition hex_encode (bs : bytes) : rstring :=
  concat ((λ b, [nth (Z.to_nat (Z.shiftr (bval b) 4)) HEX 0; nth (Z.to_nat (Z.land (bval b) 0x0f)) HEX 0]) <$> bs).

Definition hex_loop_error {E A} (e : E) (r : result HexError A) : result (halt E) A :=
  match r with
  | Ok a => Ok a
  | Err Sliced => Err Panicked
  | Err _ => Err (Refused e)
  end.

(** [hex_decode] of account.rs: no trimming, and a slice inside a character panics. *)
Definition hex_decode (value : rstring) : account bytes :=
  let len := length (utf8 value) in
  reject (negb (Nat.even len)) "database_corrupt" "odd-length hexadecimal";;
  hex_loop_error (account_error "database_corrupt" "invalid hex") (hex_loop (len / 2) 0 value).

Definition validate_hex_32_config (value : rstring) : account () :=
  reject (negb (bool_decide (length (utf8 value) = 64%nat)) || negb (forallb is_ascii_hexdigit (utf8 value)))
    "invalid_config" "must be 64 hexadecimal characters".

Definition decode_hex_32 (value : rstring) : account bytes :=
  reject (negb (bool_decide (length (utf8 value) = 64%nat))) "database_corrupt" "must be 64 hexadecimal characters";;
  hex_loop_error (account_error "database_corrupt" "invalid hex") (hex_loop 32 0 value).

(** [from_hex] and [from_hex_array] of hex.rs *)
Definition ffi_from_hex (s : rstring) : result (halt string) bytes :=
  let len := length (utf8 s) in
  ensure (Nat.even len) (Refused "odd-length hex string"%string);;
  hex_loop_error "invalid hex"%string (hex_loop (len / 2) 0 s).

Definition from_hex_array (n : nat) (s : rstring) : result (halt string) bytes :=
  bytes ← ffi_from_hex s;
  ensure (bool_decide (length bytes = n)) (Refused "unexpected length"%string);;
  Ok bytes.

(** ** Padded decimals, which the database orders as texts *)
Fixpoint padded (n : nat) (v : Z) : rstring :=
  match n with O => [] | S n => padded n (v / 10) ++ [48 + v mod 10] end.

(** [format!("{value:020}")] of a [u64], which has at most twenty digits. *)
Definition encode_u64_decimal (value : Z) : rstring := padded 20 value.

Definition decode_u64_decimal (value : rstring) : account Z :=
  reject (negb (bool_decide (length (utf8 value) = 20%nat)) || negb (forallb is_ascii_digit (utf8 value)))
    "database_corrupt" "not a canonical padded u64";;
  ok_or (parse_u64 value) (Refused (account_error "database_corrupt" "outside u64")).

(** [a < b] of strings and of [TEXT] columns: the order of their bytes. *)
Definition str_ltb (a b : rstring) : bool := negb (bytes_leb (utf8 b) (utf8 a)).

(** ** Identities and addresses *)
Definition TEST_USD_V2_DEPLOYMENT_ID : rstring := lit "opencsv-test-usd-v2".

Definition deployment_byte (b : byte) : bool :=
  is_ascii_lowercase b || is_ascii_digit b || (bval b =? 0x2D).

Definition validate_deployment_identity (network deployment_id : rstring) : account () :=
  reject (bool_decide (deployment_id = []) || (64 <? Z.of_nat (length (utf8 deployment_id))) ||
          negb (forallb deployment_byte (utf8 deployment_id)))
    "invalid_config" "deployment_id must be 1..=64 lowercase ASCII letters, digits, or hyphens";;
  if (bool_decide (network = lit "signet") || bool_decide (network = lit "regtest")) &&
     negb (bool_decide (deployment_id = TEST_USD_V2_DEPLOYMENT_ID))
  then Err (Refused (account_error "invalid_config" "signet/regtest deployment_id is fixed"))
  else if bool_decide (network = lit "mainnet") && bool_decide (deployment_id = TEST_USD_V2_DEPLOYMENT_ID)
  then Err (Refused (account_error "invalid_config" "the Test USD v2 deployment cannot run on mainnet"))
  else Ok tt.

Inductive BtcNetwork := Bitcoin | Signet | Regtest.

Definition parse_network (name : rstring) : account BtcNetwork :=
  if bool_decide (name = lit "mainnet") then Ok Bitcoin
  else if bool_decide (name = lit "signet") then Ok Signet
  else if bool_decide (name = lit "regtest") then Ok Regtest
  else Err (Refused (account_error "invalid_config" "unsupported account-wallet network")).

Definition validate_esplora_url (url : rstring) : account () :=
  if starts_with url (lit "https://") || starts_with url (lit "http://127.0.0.1:") ||
     starts_with url (lit "http://localhost:")
  then Ok tt
  else Err (Refused (account_error "invalid_config" "Esplora URL must use HTTPS (HTTP is allowed only for localhost)")).

(** [Url::parse] of the [url] crate, with the scheme and the host of the parsed address. *)
Class UrlParser := { url_parse : rstring → option (rstring * option rstring) }.

(** ** Lemmas: hexadecimal *)

Lemma hex_encode_to_hex bs : hex_encode bs = to_hex bs.
Proof.
  unfold hex_encode, to_hex. f_equal. apply list_fmap_ext. intros _ b _. by destruct b.
Qed.

Lemma even_hex_length bs : length (utf8 (to_hex bs)) = (2 * length bs)%nat.
Proof. by rewrite length_utf8_ascii, length_to_hex by apply visible_ascii, to_hex_visible. Qed.

Lemma hex_decode_encode bs : hex_decode (hex_encode bs) = Ok bs.
Proof.
  unfold hex_decode. rewrite hex_encode_to_hex, even_hex_length, Nat.even_mul.
  rewrite reject_false by done. cbn [mbind result_bind].
  rewrite Nat.mul_comm, Nat.div_mul by done. by rewrite hex_loop_to_hex.
Qed.

Lemma ffi_from_to_hex bs : ffi_from_hex (to_hex bs) = Ok bs.
Proof.
  unfold ffi_from_hex. rewrite even_hex_length, Nat.even_mul. cbn [orb ensure mbind result_bind Nat.even].
  rewrite Nat.mul_comm, Nat.div_mul by done. by rewrite hex_loop_to_hex.
Qed.

(** Every byte of the text is ASCII: one byte per character. *)
Lemma utf8_ascii_inv s : Forall is_scalar s → Forall (λ b, bval b < 128) (utf8 s) →
  Forall (λ c, 0 ≤ c < 128) s ∧ utf8 s = bof <$> s.
Proof.
  intros Hs. induction Hs as [|c s Hc _ IH]; [done|].
  change (utf8 (c :: s)) with (utf8_char c ++ utf8 s). rewrite Forall_app. intros [Hb Hr].
  destruct (IH Hr) as [IH1 IH2]. assert (0 ≤ c < 128) as Hr'.
  { assert (0 ≤ c ≤ 0x10FFFF) as Hc' by (unfold is_scalar in Hc; lia). destruct (decide (c < 128)); [lia|]. exfalso.
    unfold utf8_char in Hb. pose proof (digits64 c ltac:(lia)) as (_ & _ & P1 & D2 & _).
    rewrite (proj2 (Z.ltb_ge c 0x80)) in Hb by lia.
    pose proof (Z.div_lt_upper_bound c 64 0x8000 ltac:(lia) ltac:(lia)).
    pose proof (Z.div_pos c 4096 ltac:(lia) ltac:(lia)).
    pose proof (Z.div_pos c 262144 ltac:(lia) ltac:(lia)).
    destruct (c <? 0x800) eqn:T1; [|destruct (c <? 0x10000) eqn:T2]; bool_props;
      apply Forall_cons in Hb as [Hb _]; rewrite bval_small in Hb.
    all: try lia.
    - pose proof (Z.div_lt_upper_bound c 64 32 ltac:(lia) ltac:(lia)). lia.
    - pose proof (Z.div_lt_upper_bound c 4096 16 ltac:(lia) ltac:(lia)). lia.
    - pose proof (Z.div_lt_upper_bound c 262144 8 ltac:(lia) ltac:(lia)). lia. }
  split; [by constructor|]. by rewrite visible_utf8, IH2 by done.
Qed.

Lemma hexdigit_ascii b : is_ascii_hexdigit b = true → bval b < 128.
Proof. unfold is_ascii_hexdigit, is_ascii_digit. rewrite !orb_true_iff, !andb_true_iff, !Z.leb_le. lia. Qed.

(** A slice panics only inside a character; an ASCII text has none. *)
Lemma hex_loop_ascii n : ∀ i s, Forall (λ c, 0 ≤ c < 128) s → length s = (2 * n)%nat → hex_loop n i s ≠ Err Sliced.
Proof.
  induction n as [|n IH]; intros i s Hs Hl; [done|]. destruct s as [|x [|y s]]; [done|cbn in Hl; lia|].
  apply Forall_cons in Hs as [Hx Hs]. apply Forall_cons in Hs as [Hy Hs].
  cbn [hex_loop]. change (x :: y :: s) with ([x; y] ++ s).
  rewrite (split_bytes_ascii [x; y]) by (repeat apply List.Forall_cons; done). cbn [ok_or mbind result_bind].
  destruct (from_str_radix 16 u8_max [x; y]) as [b|]; cbn [ok_or mbind result_bind]; [|done].
  specialize (IH (i + 2) s Hs ltac:(cbn in Hl; lia)). by destruct (hex_loop n (i + 2) s).
Qed.

(** ** Lemmas: padded decimals *)

Lemma length_padded n v : length (padded n v) = n.
Proof. revert v; induction n as [|n IH]; intros v; cbn; [done|]. rewrite length_app, IH. cbn. lia. Qed.

Lemma padded_digits n v : Forall (λ c, 48 ≤ c < 58) (padded n v).
Proof.
  revert v; induction n as [|n IH]; intros v; cbn [padded]; [constructor|]. apply Forall_app. split; [done|].
  pose proof (Z.mod_pos_bound v 10 ltac:(lia)). constructor; [lia|constructor].
Qed.

Lemma padded_ascii n v : Forall (λ c, 0 ≤ c < 128) (padded n v).
Proof. eapply Forall_impl; [apply padded_digits|]. cbn. lia. Qed.

Lemma ascii_utf8 s : Forall (λ c, 0 ≤ c < 128) s → utf8 s = bof <$> s.
Proof. induction 1 as [|c s Hc _ IH]; [done|]. unfold utf8 in *. cbn. by rewrite visible_utf8, IH. Qed.

Lemma parse_padded max n v : 0 ≤ v < 10 ^ Z.of_nat n → v ≤ max → parse_digits 10 max 0 (padded n v) = Some v.
Proof.
  revert v; induction n as [|n IH]; intros v Hv Hm; [cbn in *; f_equal; lia|].
  pose proof (Z.div_mod v 10 ltac:(lia)). pose proof (Z.mod_pos_bound v 10 ltac:(lia)).
  pose proof (Z.div_pos v 10 ltac:(lia) ltac:(lia)). rewrite Nat2Z.inj_succ, Z.pow_succ_r in Hv by lia.
  cbn [padded]. rewrite parse_digits_app, IH by (try split; try lia; apply Z.div_lt_upper_bound; lia).
  cbn [mbind option_bind parse_digits]. rewrite to_digit_decimal by lia. cbn [mbind option_bind].
  rewrite (proj2 (Z.leb_le _ _)) by lia. f_equal. lia.
Qed.

Lemma padded_unique max v s : Forall (λ c, 48 ≤ c < 58) s → parse_digits 10 max 0 s = Some v →
  s = padded (length s) v ∧ 0 ≤ v < 10 ^ Z.of_nat (length s).
Proof.
  intros Hs; revert v; induction s as [|c s IH] using rev_ind; intros v E.
  - cbn in E. injection E as <-. split; [done|cbn; lia].
  - apply Forall_app in Hs as [Hs Hc]. apply Forall_cons in Hc as [Hc _].
    rewrite parse_digits_app in E. apply bind_Some in E as (w & Ew & E).
    replace c with (48 + (c - 48)) in E by lia. cbn [parse_digits] in E. rewrite to_digit_decimal in E by lia.
    cbn [mbind option_bind] in E. destruct (_ <=? max); [|done]. injection E as <-.
    destruct (IH Hs w Ew) as [IH1 IH2]. rewrite length_app, Nat.add_comm. cbn [length Nat.add padded].
    rewrite Nat2Z.inj_succ, Z.pow_succ_r by lia. split; [|lia].
    rewrite Z.div_add_l, (Z.div_small (c - 48)), Z.add_0_r by lia.
    rewrite (Z.add_comm (w * 10)), Z.mod_add, Z.mod_small by lia. rewrite <- IH1. repeat f_equal. lia.
Qed.

Lemma digit_byte c : 48 ≤ c < 58 → is_ascii_digit (bof c) = true.
Proof. intros. unfold is_ascii_digit. rewrite bval_small, andb_true_iff, !Z.leb_le by lia. lia. Qed.

Lemma is_ascii_digit_true b : is_ascii_digit b = true ↔ 48 ≤ bval b < 58.
Proof. unfold is_ascii_digit. rewrite andb_true_iff, !Z.leb_le. lia. Qed.

Lemma parse_digits_max max acc s v : parse_digits 10 max acc s = Some v → acc ≤ max → v ≤ max.
Proof.
  revert acc; induction s as [|c s IH]; intros acc; cbn; [naive_solver|]. destruct (to_digit 10 c); [|done]. cbn.
  destruct (_ <=? max) eqn:E; [|done]. bool_props. eauto.
Qed.

(** The database reads back exactly what it writes. *)
Lemma decode_u64_exact s v : Forall is_scalar s →
  decode_u64_decimal s = Ok v ↔ is_u64 v ∧ s = encode_u64_decimal v.
Proof.
  intros Hs. unfold decode_u64_decimal, encode_u64_decimal. split.
  - intros E. apply bind_Ok in E as (? & E1 & E). apply reject_Ok in E1. apply ok_or_Ok in E.
    apply orb_false_iff in E1 as [El Ed]. apply negb_false_iff in El, Ed. bool_props.
    rewrite forallb_forall in Ed. assert (Forall (λ b, 48 ≤ bval b < 58) (utf8 s)) as Hd.
    { apply Forall_forall. intros b Hb. apply is_ascii_digit_true, Ed. by apply list_elem_of_In. }
    destruct (utf8_ascii_inv s Hs) as [Ha Eu]; [eapply Forall_impl; [exact Hd|cbn; lia]|].
    rewrite Eu, Forall_fmap in Hd. rewrite Eu, length_fmap in El.
    assert (Forall (λ c, 48 ≤ c < 58) s) as Hd'.
    { apply Forall_forall. intros c Hc. rewrite Forall_forall in Ha, Hd. specialize (Ha c Hc). specialize (Hd c Hc).
      cbn in Hd. rewrite bval_small in Hd; lia. }
    destruct s as [|c s]; [done|]. unfold parse_u64, from_str_radix in E.
    rewrite (proj2 (Z.eqb_neq c 43)) in E by (apply Forall_cons in Hd' as [Hc _]; lia).
    destruct (padded_unique _ _ _ Hd' E) as [E2 Hv]. rewrite El in *. split; [|done].
    apply parse_digits_max in E; [|by unfold u64_max]. unfold is_u64. lia.
  - intros [Hv ->]. pose proof (padded_ascii 20 v) as Ha.
    rewrite length_utf8_ascii, length_padded by done. cbn [bool_decide decide]. rewrite reject_false.
    + cbn [mbind result_bind]. unfold parse_u64, from_str_radix. pose proof (padded_digits 20 v) as Hd.
      assert (parse_digits 10 u64_max 0 (padded 20 v) = Some v) as E
        by (apply parse_padded; unfold is_u64, u64_max in *; cbn; lia).
      destruct (padded 20 v) as [|c r] eqn:Ep; [by apply (f_equal length) in Ep; rewrite length_padded in Ep|].
      apply Forall_cons in Hd as [Hc _]. rewrite (proj2 (Z.eqb_neq c 43)) by lia. by rewrite E.
    + rewrite bool_decide_eq_true_2 by done. cbn [negb orb]. apply negb_false_iff, forallb_forall.
      rewrite ascii_utf8 by done. intros b Hb%list_elem_of_In. apply list_elem_of_fmap in Hb as (c & -> & Hc).
      apply digit_byte. pose proof (padded_digits 20 v) as Hd. rewrite Forall_forall in Hd. by apply Hd.
Qed.

(** The order of the texts is the order of the numbers. *)
Lemma bytes_leb_snoc a b x y : length a = length b →
  bytes_leb (a ++ [x]) (b ++ [y]) = if bool_decide (a = b) then bval x <=? bval y else bytes_leb a b.
Proof.
  revert b; induction a as [|c a IH]; intros [|d b] Hl; try discriminate Hl; cbn [app bytes_leb].
  - rewrite (bool_decide_eq_true_2 ([] = [])) by done. rewrite andb_true_r. case_bool_decide as E.
    + subst. by rewrite orb_true_r, Z.leb_refl.
    + rewrite orb_false_r. pose proof (bval_inj x y). apply eq_true_iff_eq. rewrite Z.ltb_lt, Z.leb_le.
      split; [lia|]. intros. destruct (decide (bval x = bval y)); [naive_solver|lia].
  - rewrite IH by (injection Hl; done). destruct (decide (c = d)) as [->|Hn].
    + rewrite Z.ltb_irrefl. rewrite (bool_decide_eq_true_2 (d = d)) by done. cbn [orb andb].
      destruct (decide (a = b)) as [->|Ha]; [by rewrite !bool_decide_eq_true_2|].
      rewrite !bool_decide_eq_false_2 by congruence. done.
    + rewrite (bool_decide_eq_false_2 (c = d)), (bool_decide_eq_false_2 (c :: a = d :: b)) by congruence. done.
Qed.

Lemma padded_inj n v w : 0 ≤ v < 10 ^ Z.of_nat n → 0 ≤ w < 10 ^ Z.of_nat n → padded n v = padded n w → v = w.
Proof.
  intros Hv Hw E. pose proof (parse_padded (Z.max v w) n v Hv ltac:(lia)) as P.
  rewrite E, (parse_padded (Z.max v w) n w Hw) in P by lia. by injection P.
Qed.

Lemma ascii_inj a b : Forall (λ c, 0 ≤ c < 128) a → Forall (λ c, 0 ≤ c < 128) b → bof <$> a = bof <$> b → a = b.
Proof.
  intros Ha; revert b; induction Ha as [|x a Hx _ IH]; intros [|y b] Hb E; try done; cbn in E.
  apply Forall_cons in Hb as [Hy Hb]. injection E as E1 E2. f_equal; [|by apply IH].
  by apply bof_small_inj in E1; [|lia|lia].
Qed.

Lemma padded_order n v w : 0 ≤ v < 10 ^ Z.of_nat n → 0 ≤ w < 10 ^ Z.of_nat n →
  bytes_leb (bof <$> padded n v) (bof <$> padded n w) = (v <=? w).
Proof.
  revert v w; induction n as [|n IH]; intros v w Hv Hw; [cbn in *; symmetry; apply Z.leb_le; lia|].
  rewrite Nat2Z.inj_succ, Z.pow_succ_r in Hv, Hw by lia. cbn [padded]. rewrite !fmap_app. cbn [fmap list_fmap].
  pose proof (Z.div_mod v 10 ltac:(lia)). pose proof (Z.mod_pos_bound v 10 ltac:(lia)).
  pose proof (Z.div_mod w 10 ltac:(lia)). pose proof (Z.mod_pos_bound w 10 ltac:(lia)).
  assert (0 ≤ v / 10 < 10 ^ Z.of_nat n) as Hv' by (split; [apply Z.div_pos; lia|apply Z.div_lt_upper_bound; lia]).
  assert (0 ≤ w / 10 < 10 ^ Z.of_nat n) as Hw' by (split; [apply Z.div_pos; lia|apply Z.div_lt_upper_bound; lia]).
  rewrite bytes_leb_snoc by by rewrite !length_fmap, !length_padded. rewrite !bval_small by lia.
  apply eq_true_iff_eq. case_bool_decide as E.
  - apply ascii_inj in E; [|apply padded_ascii..]. apply padded_inj in E; [|done..]. rewrite !Z.leb_le. lia.
  - rewrite IH by done. assert (v / 10 ≠ w / 10) by (intros E'; by rewrite E' in E). rewrite !Z.leb_le. lia.
Qed.

Lemma u64_digits v : is_u64 v → 0 ≤ v < 10 ^ Z.of_nat 20.
Proof. unfold is_u64, u64_max. change (Z.of_nat 20) with 20. lia. Qed.

Lemma encode_u64_order v w : is_u64 v → is_u64 w →
  bytes_leb (utf8 (encode_u64_decimal v)) (utf8 (encode_u64_decimal w)) = (v <=? w).
Proof.
  intros Hv Hw. unfold encode_u64_decimal. rewrite !ascii_utf8 by apply padded_ascii.
  by apply padded_order; apply u64_digits.
Qed.

(** ** Lemmas: the order of strings *)
Lemma str_ltb_trans a b c : str_ltb a b = true → str_ltb b c = true → str_ltb a c = true.
Proof.
  unfold str_ltb. rewrite !negb_true_iff. intros E1 E2. destruct (bytes_leb (utf8 c) (utf8 a)) eqn:E; [|done].
  pose proof (bytes_le_total (utf8 a) (utf8 b)) as [T|T]; unfold bytes_le in T; [|congruence].
  assert (bytes_le (utf8 c) (utf8 b)) as C by (etrans; [exact E|exact T]). unfold bytes_le in C. congruence.
Qed.

Lemma str_ltb_irrefl a : str_ltb a a = false.
Proof. unfold str_ltb. apply negb_false_iff. apply (reflexivity (R := bytes_le)). Qed.

#[global] Arguments encode_u64_decimal : simpl never.
#[global] Arguments hex_encode : simpl never.
