(* ===== verification/AccountTypes.v ===== *)
(** * The configuration of the account wallet (ffi)

    The data types of [ffi/src/account.rs] and [ffi/src/production_issuance.rs]: observation
    checks, the production registry release with its rollout caps, issuance policies and
    the account configuration, with the default values of their fields. *)

From S2P Require Import Prelude Text Field Commitments Kernel Anchor Batch Chain Accept Instrument AccountText.
#[local] Open Scope Z_scope.

(** ** Observations *)
Inductive ObservationMode := MOff | MObserve | MRequire.
Inductive ObservationKind := RawTransactionApi | DirectP2pRelay | ExperimentalP2pPossession | ConfirmedSpv.
Inductive ObservationResult := Observed | Submitted | Unavailable | ObsError | NotChecked.

#[export] Instance observation_mode_eq_dec : EqDecision ObservationMode.
Proof. solve_decision. Defined.
#[export] Instance observation_kind_eq_dec : EqDecision ObservationKind.
Proof. solve_decision. Defined.
#[export] Instance observation_result_eq_dec : EqDecision ObservationResult.
Proof. solve_decision. Defined.

Record ObservationCheck := {
  oc_id : rstring;
  oc_kind : ObservationKind;
  oc_endpoint : option rstring;
  oc_mode : ObservationMode;
  oc_pin_profile : option rstring;
  oc_fingerprints : list rstring;
  oc_max_age_seconds : Z;
}.
#[export] Instance observation_check_eq_dec : EqDecision ObservationCheck.
Proof. solve_decision. Defined.

Record ObservationEvidence := {
  ev_check_id : rstring;
  ev_endpoint : option rstring;
  ev_result : ObservationResult;
  ev_started_at_ms : Z;
  ev_completed_at_ms : Z;
  ev_cached_at_ms : Z;
  ev_profile : option rstring;
  ev_fingerprints : list rstring;
  ev_raw_transaction_hex : option rstring;
  ev_detail : option rstring;
}.
#[export] Instance observation_evidence_eq_dec : EqDecision ObservationEvidence.
Proof. solve_decision. Defined.

(** ** The production registry *)
Record UsdIssuerPolicy := { ui_manifest : InstrumentManifestV1; ui_priority : Z }.

Inductive ProductionActivationPhase := Candidate | Limited | General.
#[export] Instance activation_phase_eq_dec : EqDecision ProductionActivationPhase.
Proof. solve_decision. Defined.

Record ProductionRolloutPolicy := {
  phase : ProductionActivationPhase;
  max_transfer_base_units : Z;
  max_batch_total_base_units : Z;
  max_rolling_24h_outgoing_base_units : Z;
  max_rolling_24h_operations : Z;
  max_batch_recipients : Z;
  max_reserve_allocation_sats : Z;
  max_miner_fee_sats : Z;
}.

Record ProductionIssuancePolicyRef := { ir_asset_id : rstring; ir_policy_commitment : rstring }.

Record ProductionUsdRegistryRelease := {
  rr_format_version : Z;
  rr_registry_version : Z;
  rr_deployment_id : rstring;
  rr_issuers : list UsdIssuerPolicy;
  rr_rollout : ProductionRolloutPolicy;
  rr_source_revision : rstring;
  rr_approval_receipts : list rstring;
  rr_issuance_policy_commitments : list ProductionIssuancePolicyRef;
  rr_commitment : rstring;
}.

Record ProductionUsdRegistryFloor := { fl_registry_version : Z; fl_commitment : rstring }.
#[export] Instance registry_floor_eq_dec : EqDecision ProductionUsdRegistryFloor.
Proof. solve_decision. Defined.

Inductive ProductionUsdRegistryState := NotApplicable | Unconfigured | Current | Rollback | Conflict.
#[export] Instance registry_state_eq_dec : EqDecision ProductionUsdRegistryState.
Proof. solve_decision. Defined.

Definition registry_state_as_str (s : ProductionUsdRegistryState) : string :=
  match s with NotApplicable => "not_applicable" | Unconfigured => "unconfigured" | Current => "current"
             | Rollback => "rollback" | Conflict => "conflict" end.

Definition registry_write_block_reason (s : ProductionUsdRegistryState) : option string :=
  match s with
  | Rollback => Some "production_registry_rollback"%string
  | Conflict => Some "production_registry_conflict"%string
  | NotApplicable | Unconfigured | Current => None
  end.

(** ** Issuance policies and authorizations *)
Record ProductionIssuancePolicy := {
  ip_format_version : Z;
  ip_policy_version : Z;
  ip_deployment_id : rstring;
  ip_registry_version : Z;
  ip_asset_id : rstring;
  ip_authority_public_keys : list rstring;
  ip_signature_threshold : Z;
  ip_max_authorization_base_units : Z;
  ip_max_cumulative_supply_base_units : Z;
  ip_max_authorization_lifetime_seconds : Z;
  ip_valid_from : Z;
  ip_expires_at : Z;
  ip_source_revision : rstring;
  ip_approval_receipts : list rstring;
  ip_commitment : rstring;
}.

Record ProductionAuthoritySignature := { as_authority_public_key : rstring; as_signature_compact : rstring }.
#[export] Instance authority_signature_eq_dec : EqDecision ProductionAuthoritySignature.
Proof. solve_decision. Defined.

Record ProductionMintAuthorization := {
  ma_format_version : Z;
  ma_authorization_id : rstring;
  ma_deployment_id : rstring;
  ma_registry_commitment : rstring;
  ma_issuance_policy_commitment : rstring;
  ma_asset_id : rstring;
  ma_to_owner : rstring;
  ma_amounts : list Z;
  ma_funding_outpoint : rstring;
  ma_sequence : Z;
  ma_supply_before : Z;
  ma_supply_after : Z;
  ma_not_before : Z;
  ma_expires_at : Z;
  ma_approval_receipts : list rstring;
  ma_signatures : list ProductionAuthoritySignature;
}.
#[export] Instance mint_authorization_eq_dec : EqDecision ProductionMintAuthorization.
Proof. solve_decision. Defined.

(** ** The account configuration *)
Inductive AccountRole := Primary | Linked.
#[export] Instance account_role_eq_dec : EqDecision AccountRole.
Proof. solve_decision. Defined.

Record AccountConfig := {
  cf_version : Z;
  cf_deployment_id : rstring;
  cf_network : rstring;
  cf_esplora_url : rstring;
  cf_peers : list rstring;
  cf_verification_peers : list rstring;
  cf_verification_timeout_secs : Z;
  cf_max_verification_blocks : Z;
  cf_role : AccountRole;
  cf_backup_verified : bool;
  cf_expected_device_binding_commitment : option rstring;
  cf_required_confirmations : Z;
  cf_stop_gap : Z;
  cf_parallel_requests : Z;
  cf_esplora_request_timeout_secs : Z;
  cf_esplora_max_retries : Z;
  cf_observation_checks : list ObservationCheck;
  cf_required_raw_observer_quorum : Z;
  cf_watch_external_descriptor : option rstring;
  cf_watch_internal_descriptor : option rstring;
  cf_watch_owner : option rstring;
  cf_usd_issuers : list UsdIssuerPolicy;
  cf_production_usd_registry : option ProductionUsdRegistryRelease;
  cf_production_issuance_policies : list ProductionIssuancePolicy;
  cf_max_fee_sats : option Z;
}.

(** The assignments to fields of a mutable configuration. *)
Definition with_observation (checks : list ObservationCheck) (quorum : Z) (c : AccountConfig) : AccountConfig := {|
  cf_version := cf_version c; cf_deployment_id := cf_deployment_id c; cf_network := cf_network c;
  cf_esplora_url := cf_esplora_url c; cf_peers := cf_peers c; cf_verification_peers := cf_verification_peers c;
  cf_verification_timeout_secs := cf_verification_timeout_secs c;
  cf_max_verification_blocks := cf_max_verification_blocks c; cf_role := cf_role c;
  cf_backup_verified := cf_backup_verified c;
  cf_expected_device_binding_commitment := cf_expected_device_binding_commitment c;
  cf_required_confirmations := cf_required_confirmations c; cf_stop_gap := cf_stop_gap c;
  cf_parallel_requests := cf_parallel_requests c;
  cf_esplora_request_timeout_secs := cf_esplora_request_timeout_secs c;
  cf_esplora_max_retries := cf_esplora_max_retries c; cf_observation_checks := checks;
  cf_required_raw_observer_quorum := quorum; cf_watch_external_descriptor := cf_watch_external_descriptor c;
  cf_watch_internal_descriptor := cf_watch_internal_descriptor c; cf_watch_owner := cf_watch_owner c;
  cf_usd_issuers := cf_usd_issuers c; cf_production_usd_registry := cf_production_usd_registry c;
  cf_production_issuance_policies := cf_production_issuance_policies c; cf_max_fee_sats := cf_max_fee_sats c |}.

Definition with_issuers (issuers : list UsdIssuerPolicy) (max_fee : option Z) (c : AccountConfig) : AccountConfig := {|
  cf_version := cf_version c; cf_deployment_id := cf_deployment_id c; cf_network := cf_network c;
  cf_esplora_url := cf_esplora_url c; cf_peers := cf_peers c; cf_verification_peers := cf_verification_peers c;
  cf_verification_timeout_secs := cf_verification_timeout_secs c;
  cf_max_verification_blocks := cf_max_verification_blocks c; cf_role := cf_role c;
  cf_backup_verified := cf_backup_verified c;
  cf_expected_device_binding_commitment := cf_expected_device_binding_commitment c;
  cf_required_confirmations := cf_required_confirmations c; cf_stop_gap := cf_stop_gap c;
  cf_parallel_requests := cf_parallel_requests c;
  cf_esplora_request_timeout_secs := cf_esplora_request_timeout_secs c;
  cf_esplora_max_retries := cf_esplora_max_retries c; cf_observation_checks := cf_observation_checks c;
  cf_required_raw_observer_quorum := cf_required_raw_observer_quorum c;
  cf_watch_external_descriptor := cf_watch_external_descriptor c;
  cf_watch_internal_descriptor := cf_watch_internal_descriptor c; cf_watch_owner := cf_watch_owner c;
  cf_usd_issuers := issuers; cf_production_usd_registry := cf_production_usd_registry c;
  cf_production_issuance_policies := cf_production_issuance_policies c; cf_max_fee_sats := max_fee |}.

Definition validate_esplora_client_policy (c : AccountConfig) : account () :=
  reject (negb ((1 <=? cf_esplora_request_timeout_secs c) && (cf_esplora_request_timeout_secs c <=? 60)))
    "invalid_config" "Esplora request timeout must be between 1 and 60 seconds";;
  reject (3 <? cf_esplora_max_retries c) "invalid_config" "Esplora request retries must not exceed 3".

(** ** Operation states *)
Inductive OperationState :=
  | Planned | FeeReserved | ProofReady | SignedPersisted | BroadcastUnobserved | Broadcast | InMempool
  | Confirmed | ConsignmentDelivered | ProtocolRejected | Cancelled.
#[export] Instance operation_state_eq_dec : EqDecision OperationState.
Proof. solve_decision. Defined.

Definition operation_state_as_str (s : OperationState) : string :=
  match s with
  | Planned => "planned" | FeeReserved => "fee_reserved" | ProofReady => "proof_ready"
  | SignedPersisted => "signed_persisted" | BroadcastUnobserved => "broadcast_unobserved"
  | Broadcast => "broadcast" | InMempool => "mempool" | Confirmed => "confirmed"
  | ConsignmentDelivered => "consignment_delivered" | ProtocolRejected => "protocol_rejected"
  | Cancelled => "cancelled"
  end.

Record TransferRequest := { tq_asset_id : rstring; tq_to_owner : rstring; tq_amount : Z }.

Record IssuanceRequest := {
  iq_asset_id : rstring;
  iq_to_owner : option rstring;
  iq_amounts : list Z;
  iq_production_authorization : option ProductionMintAuthorization;
}.
