(* ===== verification/Observation.v ===== *)
(** * Network observations of an unconfirmed transaction (ffi)

    The observation policy of [ffi/src/account.rs]: the built-in checks, the validation of
    configured checks, and the evaluation of the evidence a host supplies for them.
    Decoding the evidence JSON and the transaction are third-party calls. *)

From S2P Require Import Prelude Text Field Commitments Kernel Anchor Batch Chain Accept Wire Block Bitcoin Instrument.
From S2P Require Import Network Peer FullScan Scan BatchV2 BatchDemo AccountText AccountTypes.
#[local] Open Scope Z_scope.

(** ** The built-in checks *)
Definition MEMPOOL_SPACE_CHAIN_PINS : list rstring := lit <$>
  ["6542d176bed50f193c0ce297ae44ecd8a0a86bec2ede682769344059b4e78530"%string;
   "92f351bf3d54164dfa8dd8f9e1139d3150349786485d2b9eecd00e2971c1e6c5"%string].

Definition BLOCKSTREAM_CHAIN_PINS : list rstring := lit <$>
  ["13949634d99cd6fd6aa80bc034fefacceb1969feef986586713ecdbb05758d3f"%string;
   "238b85a0099c65b970477d5724f1a1d475ce5058cffe4efa8733899bdb863c47"%string;
   "e57b7e6f150c419102e8d5c055729ff967b9d1a829bf00cec89ca604ebf4a86f"%string;
   "072639d0b140d5bffae16ad9c3f6cc6086040621f51ee61a6d46a8915c07cf76"%string].

Definition default_observation_max_age_seconds : Z := 120.
Definition default_required_raw_observer_quorum : Z := 0.

Definition raw_check (id endpoint profile : string) (pins : list rstring) : ObservationCheck := {|
  oc_id := lit id; oc_kind := RawTransactionApi; oc_endpoint := Some (lit endpoint); oc_mode := MRequire;
  oc_pin_profile := Some (lit profile); oc_fingerprints := pins;
  oc_max_age_seconds := default_observation_max_age_seconds |}.

Definition plain_check (id : string) (kind : ObservationKind) (mode : ObservationMode) : ObservationCheck := {|
  oc_id := lit id; oc_kind := kind; oc_endpoint := None; oc_mode := mode; oc_pin_profile := None;
  oc_fingerprints := []; oc_max_age_seconds := default_observation_max_age_seconds |}.

Definition default_observation_checks (network : rstring) : list ObservationCheck :=
  (if bool_decide (network = lit "mainnet") then
     [raw_check "mempool_space_mainnet" "https://mempool.space/api" "sectigo_r46" MEMPOOL_SPACE_CHAIN_PINS;
      raw_check "blockstream_mainnet" "https://blockstream.info/api" "lets_encrypt_yr" BLOCKSTREAM_CHAIN_PINS]
   else if bool_decide (network = lit "signet") then
     [raw_check "mempool_space_signet" "https://mempool.space/signet/api" "sectigo_r46" MEMPOOL_SPACE_CHAIN_PINS;
      raw_check "blockstream_signet" "https://blockstream.info/signet/api" "lets_encrypt_yr" BLOCKSTREAM_CHAIN_PINS]
   else []) ++
  [plain_check "direct_p2p_relay" DirectP2pRelay MObserve;
   plain_check "experimental_p2p_mempool_possession" ExperimentalP2pPossession MOff;
   plain_check "multi_peer_spv_confirmation" ConfirmedSpv MObserve].

(** ** Validation of the configured checks *)
Definition required_raw (check : ObservationCheck) : bool :=
  bool_decide (oc_kind check = RawTransactionApi) && bool_decide (oc_mode check = MRequire).

(** A row of the table of immutable built-in observers. *)
Definition builtin_mismatch (network : rstring) (check : ObservationCheck) (on endpoint profile : string)
    (pins : list rstring) : bool :=
  negb (bool_decide (network = lit on)) || negb (bool_decide (oc_kind check = RawTransactionApi)) ||
  negb (bool_decide (oc_endpoint check = Some (lit endpoint))) ||
  negb (bool_decide (oc_pin_profile check = Some (lit profile))) ||
  negb (bool_decide (oc_fingerprints check = pins)).

Fixpoint validate_fingerprints (l : list rstring) : account () :=
  match l with [] => Ok tt | f :: l => validate_hex_32_config f;; validate_fingerprints l end.

Definition validate_pins (network : rstring) (check : ObservationCheck) : account () :=
  let id := oc_id check in
  if bool_decide (id = lit "mempool_space_signet") then
    reject (builtin_mismatch network check "signet" "https://mempool.space/signet/api" "sectigo_r46"
              MEMPOOL_SPACE_CHAIN_PINS)
      "invalid_config" "the built-in mempool.space signet endpoint and pin profile are immutable"
  else if bool_decide (id = lit "blockstream_signet") then
    reject (builtin_mismatch network check "signet" "https://blockstream.info/signet/api" "lets_encrypt_yr"
              BLOCKSTREAM_CHAIN_PINS)
      "invalid_config" "the built-in Blockstream signet endpoint and pin profile are immutable"
  else if bool_decide (id = lit "mempool_space_mainnet") then
    reject (builtin_mismatch network check "mainnet" "https://mempool.space/api" "sectigo_r46"
              MEMPOOL_SPACE_CHAIN_PINS)
      "invalid_config" "the built-in mempool.space mainnet endpoint and pin profile are immutable"
  else if bool_decide (id = lit "blockstream_mainnet") then
    reject (builtin_mismatch network check "mainnet" "https://blockstream.info/api" "lets_encrypt_yr"
              BLOCKSTREAM_CHAIN_PINS)
      "invalid_config" "the built-in Blockstream mainnet endpoint and pin profile are immutable"
  else if bool_decide (oc_mode check = MRequire) && bool_decide (oc_kind check = RawTransactionApi) then
    reject (bool_decide (oc_fingerprints check = []))
      "invalid_config" "custom required observer needs a certificate-chain fingerprint";;
    validate_fingerprints (oc_fingerprints check)
  else validate_fingerprints (oc_fingerprints check).

Fixpoint validate_check_list (network : rstring) (ids : list rstring) (checks : list ObservationCheck) : account () :=
  match checks with
  | [] => Ok tt
  | check :: checks =>
    reject (bool_decide (trim (oc_id check) = []) || bool_decide (oc_id check ∈ ids))
      "invalid_config" "observation check identifiers must be non-empty and unique";;
    (if bool_decide (oc_kind check = RawTransactionApi) then
       endpoint ← ok_or (oc_endpoint check)
         (Refused (account_error "invalid_config" "raw-transaction observer needs an endpoint"));
       validate_esplora_url endpoint
     else reject (negb (bool_decide (oc_endpoint check = None)))
            "invalid_config" "non-API observation cannot configure an endpoint");;
    reject (bool_decide (oc_mode check = MRequire) && (oc_max_age_seconds check =? 0))
      "invalid_config" "required observer must have a positive max age";;
    validate_pins network check;;
    validate_check_list network (oc_id check :: ids) checks
  end.

Definition required_raw_count (checks : list ObservationCheck) : Z :=
  Z.of_nat (length (List.filter required_raw checks)).

Definition validate_observation_checks (c : AccountConfig) : account () :=
  validate_check_list (cf_network c) [] (cf_observation_checks c);;
  reject (negb (cf_required_raw_observer_quorum c =? required_raw_count (cf_observation_checks c)))
    "invalid_config" "required raw observer quorum must equal all raw observers marked require".

(** The observation part of [open_device_bound]: an omitted list gets the built-in checks, an
    omitted quorum is every raw observer marked require. *)
Definition prepare_observation (quorum_was_explicit : bool) (c : AccountConfig) : account AccountConfig :=
  let checks := if bool_decide (cf_observation_checks c = []) then default_observation_checks (cf_network c)
                else cf_observation_checks c in
  quorum ← (if quorum_was_explicit then Ok (cf_required_raw_observer_quorum c)
            else ok_or (guard (required_raw_count checks ≤ u32_max);; Some (required_raw_count checks))
                   (Refused (account_error "invalid_config" "required raw observer count does not fit in u32")));
  let c := with_observation checks quorum c in
  validate_observation_checks c;;
  Ok c.

(** ** Evaluation of the evidence *)

(** [i64] arithmetic: the sum wraps in the shipped profile, the differences saturate. *)
Definition wrapping_add_i64 (a b : Z) : Z := to_signed 64 (of_signed 64 (a + b)).
Definition saturating_sub_i64 (a b : Z) : Z := Z.max (- 2 ^ 63) (Z.min (2 ^ 63 - 1) (a - b)).
Definition u64_of_i64 (z : Z) : Z := if z <? 0 then u64_max else z.
Definition saturating_mul64 (a b : Z) : Z := Z.min (a * b) u64_max.

Record ObservationReceipt := {
  or_check_id : rstring;
  or_kind : ObservationKind;
  or_mode : ObservationMode;
  or_endpoint : option rstring;
  or_result : ObservationResult;
  or_started_at_ms : Z;
  or_completed_at_ms : Z;
  or_latency_ms : Z;
  or_cached_at_ms : Z;
  or_cache_age_ms : Z;
  or_profile : option rstring;
  or_fingerprints : list rstring;
  or_raw_byte_match : bool;
  or_detail : option rstring;
  or_failures : list string;
}.

(** [serde_json::from_str::<ObservationEvidenceEnvelope>] *)
Class ObservationCodec := envelope_from_str : rstring → option (list ObservationEvidence).

(** [HashMap::insert] of every observation; a second one with the same identifier is refused. *)
Fixpoint index_evidence (m : gmap (list Z) ObservationEvidence) (l : list ObservationEvidence)
  : account (gmap (list Z) ObservationEvidence) :=
  match l with
  | [] => Ok m
  | ev :: l =>
    reject (bool_decide (is_Some (m !! (ev_check_id ev))))
      "invalid_observation_evidence" "duplicate observation evidence identifier";;
    index_evidence (<[ev_check_id ev := ev]> m) l
  end.

Section evaluate.
Context `{BitcoinLib}.

(** [failures.push(..)] under its conditions, in the order of the code. *)
Definition when (b : bool) (message : string) : list string := if b then [message] else [].

Definition observed_raw (ev : ObservationEvidence) : account (option bytes) :=
  match ev_raw_transaction_hex ev with
  | None => Ok None
  | Some encoded =>
    match hex_decode encoded with
    | Ok raw => Ok (Some raw)
    | Err Panicked => Err Panicked
    | Err (Refused _) => Ok None
    end
  end.

Definition conflicting_raw (exact : bytes) (raw : option bytes) : bool :=
  match raw with
  | Some raw => negb (bool_decide (raw = exact)) && bool_decide (is_Some (btx_deserialize raw))
  | None => false
  end.

Definition evidence_failures (now : Z) (check : ObservationCheck) (ev : ObservationEvidence)
    (raw_match conflict : bool) : list string :=
  when (negb (bool_decide (ev_endpoint ev = oc_endpoint check))) "endpoint mismatch" ++
  when (ev_completed_at_ms ev <? ev_started_at_ms ev) "negative request duration" ++
  when (wrapping_add_i64 now 30000 <? ev_cached_at_ms ev) "cache timestamp is in the future" ++
  when (saturating_mul64 (oc_max_age_seconds check) 1000 <? u64_of_i64 (saturating_sub_i64 now (ev_cached_at_ms ev)))
    "observation cache is stale" ++
  when (negb (bool_decide (ev_profile ev = oc_pin_profile check))) "certificate profile mismatch" ++
  concat ((λ f, when (negb (is_ok (validate_hex_32_config f))) "invalid certificate fingerprint") <$> ev_fingerprints ev) ++
  when (bool_decide (is_Some (oc_pin_profile check)) && bool_decide (ev_fingerprints ev = []))
    "pinned certificate chain is missing" ++
  when (negb (bool_decide (oc_fingerprints check = [])) &&
        negb (existsb (λ f, bool_decide (f ∈ oc_fingerprints check)) (ev_fingerprints ev)))
    "certificate chain does not match configured pins" ++
  when conflict "observer returned a different valid transaction" ++
  when (bool_decide (oc_kind check = RawTransactionApi) && negb raw_match) "raw transaction bytes do not match" ++
  when (bool_decide (oc_kind check = RawTransactionApi) && negb (bool_decide (ev_result ev = Observed)))
    "transaction was not observed".

(** One check with the evidence for it: its receipt, and whether it reports a conflict. *)
Definition evaluate_check (now : Z) (exact : bytes) (check : ObservationCheck) (evidence : option ObservationEvidence)
  : account (ObservationReceipt * bool) :=
  match evidence with
  | Some ev =>
    raw ← (if bool_decide (oc_kind check = RawTransactionApi) then observed_raw ev else Ok None);
    let raw_match := match raw with Some raw => bool_decide (raw = exact) | None => false end in
    let conflict := bool_decide (oc_mode check = MRequire) && bool_decide (ev_result ev = Observed) &&
                    conflicting_raw exact raw in
    Ok ({| or_check_id := oc_id check; or_kind := oc_kind check; or_mode := oc_mode check;
           or_endpoint := ev_endpoint ev; or_result := ev_result ev; or_started_at_ms := ev_started_at_ms ev;
           or_completed_at_ms := ev_completed_at_ms ev;
           or_latency_ms := saturating_sub_i64 (ev_completed_at_ms ev) (ev_started_at_ms ev);
           or_cached_at_ms := ev_cached_at_ms ev; or_cache_age_ms := saturating_sub_i64 now (ev_cached_at_ms ev);
           or_profile := ev_profile ev; or_fingerprints := ev_fingerprints ev; or_raw_byte_match := raw_match;
           or_detail := ev_detail ev; or_failures := evidence_failures now check ev raw_match conflict |}, conflict)
  | None =>
    Ok ({| or_check_id := oc_id check; or_kind := oc_kind check; or_mode := oc_mode check;
           or_endpoint := oc_endpoint check; or_result := NotChecked; or_started_at_ms := now;
           or_completed_at_ms := now; or_latency_ms := saturating_sub_i64 now now; or_cached_at_ms := now;
           or_cache_age_ms := saturating_sub_i64 now now; or_profile := oc_pin_profile check; or_fingerprints := [];
           or_raw_byte_match := false; or_detail := None; or_failures := ["evidence is missing"%string] |}, false)
  end.

(** The state of the loop over the policy. *)
Record Evaluation := {
  en_pending : gmap (list Z) ObservationEvidence;
  en_receipts : list ObservationReceipt;
  en_successes : Z;
  en_conflicts : list rstring;
}.

Fixpoint evaluate_checks (now : Z) (exact : bytes) (policy : list ObservationCheck) (s : Evaluation) : account Evaluation :=
  match policy with
  | [] => Ok s
  | check :: policy =>
    if negb (bool_decide (oc_kind check = RawTransactionApi)) || bool_decide (oc_mode check = MOff)
    then evaluate_checks now exact policy s
    else
      r ← evaluate_check now exact check (en_pending s !! oc_id check);
      let '(receipt, conflict) := r : ObservationReceipt * bool in
      evaluate_checks now exact policy {|
        en_pending := delete (oc_id check) (en_pending s);
        en_receipts := en_receipts s ++ [receipt];
        en_successes := if bool_decide (oc_mode check = MRequire) && bool_decide (or_failures receipt = [])
                        then en_successes s + 1 else en_successes s;
        en_conflicts := if conflict then en_conflicts s ++ [oc_id check] else en_conflicts s |}
  end.

Context `{!ObservationCodec}.

(** [clock] is the answer of [unix_time_millis]. *)
Definition evaluate_observation_evidence (policy : list ObservationCheck) (quorum : Z) (exact : bytes)
    (observations_json : rstring) (clock : account Z) : account (list ObservationReceipt * option AccountError) :=
  envelope ← ok_or (envelope_from_str observations_json)
    (Refused (account_error "invalid_observation_evidence" "observation evidence JSON"));
  evidence_by_id ← index_evidence ∅ envelope;
  now ← clock;
  s ← evaluate_checks now exact policy
        {| en_pending := evidence_by_id; en_receipts := []; en_successes := 0; en_conflicts := [] |};
  reject (negb (bool_decide (en_pending s = ∅)))
    "invalid_observation_evidence" "evidence contains unconfigured checks";;
  if negb (bool_decide (en_conflicts s = [])) then
    Ok (en_receipts s, Some (account_error "observer_transaction_conflict"
          "required observers returned different valid transaction bytes"))
  else
    Ok (en_receipts s,
        if (0 <? required_raw_count policy) && (en_successes s <? quorum)
        then Some (account_error "required_observation_failed" "required raw observer quorum failed") else None).
End evaluate.

(** ** Lemmas: the validated policy *)

Lemma validate_check_list_Ok network checks : ∀ ids, validate_check_list network ids checks = Ok tt →
  NoDup (oc_id <$> checks) ∧ Forall (λ i, i ∉ ids) (oc_id <$> checks) ∧
  Forall (λ c, required_raw c = true → oc_fingerprints c ≠ [] ∧ 0 ≠ oc_max_age_seconds c) checks.
Proof.
  induction checks as [|c checks IH]; intros ids E; cbn in E; [by repeat constructor|].
  apply bind_Ok in E as ([] & E1 & E). apply bind_Ok in E as ([] & _ & E). apply bind_Ok in E as ([] & E3 & E).
  apply bind_Ok in E as ([] & E4 & E). apply reject_Ok, orb_false_iff in E1 as [_ E1]. apply reject_Ok in E3.
  bool_props. destruct (IH _ E) as (IH1 & IH2 & IH3). clear IH E. cbn. split_and!.
  - constructor; [|done]. rewrite Forall_forall in IH2. intros Hin. apply (IH2 _ Hin), elem_of_cons. by left.
  - constructor; [done|]. eapply Forall_impl; [exact IH2|]. intros i Hi. by apply not_elem_of_cons in Hi as [_ Hi].
  - constructor; [|done]. unfold required_raw. rewrite andb_true_iff, !bool_decide_eq_true. intros [Hk Hm].
    rewrite (bool_decide_eq_true_2 _ Hm) in E3. cbn [andb] in E3. bool_props. split; [|done]. intros Hf.
    revert E4. unfold validate_pins, builtin_mismatch. rewrite Hf, (bool_decide_eq_true_2 _ Hk), (bool_decide_eq_true_2 _ Hm).
    cbn [negb orb andb]. rewrite (bool_decide_eq_true_2 ([] = [])) by done.
    rewrite !(bool_decide_eq_false_2 ([] = _ :> list rstring)) by done. cbn [negb]. rewrite !orb_true_r.
    repeat case_match; done.
Qed.

Lemma validated_quorum c : validate_observation_checks c = Ok tt →
  NoDup (oc_id <$> cf_observation_checks c) ∧
  Forall (λ k, required_raw k = true → oc_fingerprints k ≠ [] ∧ 0 ≠ oc_max_age_seconds k) (cf_observation_checks c) ∧
  cf_required_raw_observer_quorum c = required_raw_count (cf_observation_checks c).
Proof.
  intros E. apply bind_Ok in E as ([] & E1 & E2). apply reject_Ok in E2. bool_props.
  by destruct (validate_check_list_Ok _ _ _ E1) as (? & _ & ?).
Qed.

(** ** Lemmas: the evidence index *)

Lemma index_evidence_Ok l : ∀ m m', index_evidence m l = Ok m' →
  NoDup (ev_check_id <$> l) ∧ Forall (λ ev, m !! ev_check_id ev = None) l ∧
  ∀ k ev, m' !! k = Some ev ↔ m !! k = Some ev ∨ (ev ∈ l ∧ ev_check_id ev = k).
Proof.
  induction l as [|e l IH]; intros m m' E; cbn in E.
  - injection E as <-. split_and!; [constructor|constructor|]. intros k ev. rewrite elem_of_nil. naive_solver.
  - apply bind_Ok in E as ([] & E1 & E). apply reject_Ok in E1. bool_props. apply eq_None_not_Some in E1.
    destruct (IH _ _ E) as (IH1 & IH2 & IH3). rewrite Forall_forall in IH2. cbn. split_and!.
    + constructor; [|done]. intros (y & Hy & Hl)%list_elem_of_fmap. specialize (IH2 y Hl). cbn in IH2.
      rewrite <- Hy, lookup_insert_eq in IH2. done.
    + constructor; [done|]. apply Forall_forall. intros x Hx. specialize (IH2 x Hx). cbn in IH2.
      by apply lookup_insert_None in IH2 as [IH2 _].
    + intros k ev. rewrite IH3, lookup_insert_Some, elem_of_cons. destruct (decide (ev_check_id e = k)) as [<-|Hk].
      * split; [|naive_solver]. intros [[[_ <-]|[? _]]|[Hin Hid]]; [right; auto|done|].
        specialize (IH2 ev Hin). cbn in IH2. rewrite Hid, lookup_insert_eq in IH2. done.
      * naive_solver.
Qed.

Lemma index_evidence_total l : ∀ m, NoDup (ev_check_id <$> l) → Forall (λ ev, m !! ev_check_id ev = None) l →
  ∃ m', index_evidence m l = Ok m'.
Proof.
  induction l as [|e l IH]; intros m Hd Hm; [by exists m|]. cbn in Hd. apply NoDup_cons in Hd as [Hn Hd].
  apply Forall_cons in Hm as [He Hm]. cbn. rewrite He. rewrite reject_false by by rewrite bool_decide_eq_false_2; [|apply is_Some_None].
  cbn [mbind result_bind]. apply IH; [done|]. apply Forall_forall. intros x Hx. rewrite Forall_forall in Hm.
  rewrite lookup_insert_ne by (intros E; apply Hn; rewrite E; by apply list_elem_of_fmap_2). by apply Hm.
Qed.

(** ** Lemmas: one check *)
Section observation_facts.
Context `{BitcoinLib, !ObservationCodec}.

(** Evidence that shows the exact transaction under the check's policy. *)
Record exact_observation (now : Z) (exact : bytes) (check : ObservationCheck) (ev : ObservationEvidence) : Prop := {
  eo_endpoint : ev_endpoint ev = oc_endpoint check;
  eo_duration : ev_started_at_ms ev ≤ ev_completed_at_ms ev;
  eo_fresh : oc_max_age_seconds check * 1000 < 2 ^ 63 - 1 →
    ev_cached_at_ms ev ≤ now ≤ ev_cached_at_ms ev + oc_max_age_seconds check * 1000;
  eo_profile : ev_profile ev = oc_pin_profile check;
  eo_hex : Forall (λ f, validate_hex_32_config f = Ok tt) (ev_fingerprints ev);
  eo_pinned : oc_fingerprints check ≠ [] → ∃ f, f ∈ ev_fingerprints ev ∧ f ∈ oc_fingerprints check;
  eo_raw : ∃ encoded, ev_raw_transaction_hex ev = Some encoded ∧ hex_decode encoded = Ok exact;
  eo_observed : ev_result ev = Observed;
}.

Lemma when_nil b m : when b m = [] ↔ b = false.
Proof. destruct b; cbn; naive_solver. Qed.

Lemma observed_raw_Some ev raw : observed_raw ev = Ok (Some raw) →
  ∃ encoded, ev_raw_transaction_hex ev = Some encoded ∧ hex_decode encoded = Ok raw.
Proof.
  unfold observed_raw. destruct (ev_raw_transaction_hex ev) as [encoded|]; [|done].
  destruct (hex_decode encoded) as [b|[|]] eqn:E; try done. intros [= ->]. eauto.
Qed.

Lemma not_stale now age cached : age * 1000 < 2 ^ 63 - 1 →
  u64_of_i64 (saturating_sub_i64 now cached) ≤ saturating_mul64 age 1000 → cached ≤ now ≤ cached + age * 1000.
Proof.
  intros Ha E. unfold saturating_mul64, u64_of_i64, saturating_sub_i64, u64_max in E.
  destruct (_ <? 0) eqn:Es; bool_props; lia.
Qed.

(** A receipt without failures. *)
Lemma evaluate_check_clean now exact check o r conflict : oc_kind check = RawTransactionApi →
  evaluate_check now exact check o = Ok (r, conflict) → or_failures r = [] →
  ∃ ev, o = Some ev ∧ exact_observation now exact check ev.
Proof.
  intros Hk E Hf. destruct o as [ev|]; [|cbn in E; by injection E as <- _]. exists ev. split; [done|].
  unfold evaluate_check in E. rewrite (bool_decide_eq_true_2 _ Hk) in E. apply bind_Ok in E as (raw & Er & E).
  injection E as <- _. cbn [or_failures] in Hf. unfold evidence_failures in Hf.
  repeat (apply app_nil in Hf as [? Hf]). rewrite (bool_decide_eq_true_2 _ Hk) in *. cbn [andb] in *.
  repeat match goal with F : when _ _ = [] |- _ => apply when_nil in F end.
  destruct raw as [raw|]; bool_props; [|done].
  subst raw. apply observed_raw_Some in Er.
  constructor; try done.
  - intros Ha. by apply not_stale.
  - apply Forall_forall. intros f Hin. match goal with F : concat _ = [] |- _ => rename F into Hc end.
    apply List.concat_nil_Forall in Hc. rewrite Forall_fmap, Forall_forall in Hc. specialize (Hc f Hin). cbn in Hc.
    apply when_nil in Hc. bool_props. apply is_ok_Ok in Hc as ([] & Hc). done.
  - intros Hp. match goal with F : negb _ && negb _ = false |- _ => rename F into Hx end.
    rewrite bool_decide_eq_false_2 in Hx by done. cbn in Hx. bool_props. apply existsb_exists in Hx as (f & Hin & Hx).
    bool_props. exists f. by rewrite list_elem_of_In.
Qed.

(** ** Lemmas: the loop over the policy *)
Section loop.
Context (now : Z) (exact : bytes).

Definition active (c : ObservationCheck) : bool :=
  bool_decide (oc_kind c = RawTransactionApi) && negb (bool_decide (oc_mode c = MOff)).

Definition outcome (m : gmap (list Z) ObservationEvidence) (c : ObservationCheck) : account (ObservationReceipt * bool) :=
  evaluate_check now exact c (m !! oc_id c).

Definition passes (m : gmap (list Z) ObservationEvidence) (c : ObservationCheck) : bool :=
  required_raw c && match outcome m c with Ok (r, _) => bool_decide (or_failures r = []) | Err _ => false end.

Definition disputes (m : gmap (list Z) ObservationEvidence) (c : ObservationCheck) : bool :=
  active c && match outcome m c with Ok (_, b) => b | Err _ => false end.

Lemma outcome_delete m k c : oc_id c ≠ k → outcome (delete k m) c = outcome m c.
Proof. intros Hk. unfold outcome. by rewrite lookup_delete_ne. Qed.

Lemma required_active c : required_raw c = true → active c = true.
Proof. unfold required_raw, active. rewrite !andb_true_iff, !bool_decide_eq_true. by intros [-> ->]. Qed.

(** What the loop computes, check by check. *)
Lemma evaluate_checks_Ok policy : ∀ s s', NoDup (oc_id <$> policy) → evaluate_checks now exact policy s = Ok s' →
  en_successes s' = en_successes s + Z.of_nat (length (List.filter (passes (en_pending s)) policy)) ∧
  en_conflicts s' = en_conflicts s ++ (oc_id <$> List.filter (disputes (en_pending s)) policy) ∧
  Forall (λ c, active c = true → is_ok (outcome (en_pending s) c) = true) policy ∧
  ∀ k ev, en_pending s' !! k = Some ev ↔
    en_pending s !! k = Some ev ∧ k ∉ oc_id <$> List.filter active policy.
Proof.
  induction policy as [|c policy IH]; intros s s' Hd E; cbn [evaluate_checks] in E.
  { injection E as <-. cbn. rewrite app_nil_r. split_and!; [lia|done|constructor|]. intros k ev. rewrite elem_of_nil. naive_solver. }
  cbn [fmap list_fmap] in Hd. apply NoDup_cons in Hd as [Hn Hd].
  assert (active c = negb (negb (bool_decide (oc_kind c = RawTransactionApi)) || bool_decide (oc_mode c = MOff))) as Ha
    by (unfold active; by rewrite negb_orb, negb_involutive).
  destruct (negb (bool_decide (oc_kind c = _)) || _); cbn [negb] in Ha.
  - assert (required_raw c = false) as Hr by (destruct (required_raw c) eqn:Er; [|done]; by rewrite required_active in Ha).
    destruct (IH _ _ Hd E) as (IH1 & IH2 & IH3 & IH4).
    cbn [List.filter]. rewrite Ha. unfold passes at 1, disputes at 1. rewrite Ha, Hr. cbn [andb].
    split_and!; [done|done|by constructor; [rewrite Ha|]|done].
  - apply bind_Ok in E as ([r b] & Eo & E). destruct (IH _ _ Hd E) as (IH1 & IH2 & IH3 & IH4).
    cbn [en_pending en_successes en_conflicts] in *. clear IH E.
    assert (∀ x, x ∈ policy → outcome (delete (oc_id c) (en_pending s)) x = outcome (en_pending s) x) as Hsame.
    { intros x Hx. apply outcome_delete. intros Ex. apply Hn. rewrite <- Ex. by apply list_elem_of_fmap_2. }
    rewrite (filter_same _ (passes (en_pending s))) in IH1 by (intros x Hx; unfold passes; by rewrite Hsame).
    rewrite (filter_same _ (disputes (en_pending s))) in IH2 by (intros x Hx; unfold disputes; by rewrite Hsame).
    cbn [List.filter]. rewrite Ha. unfold passes at 1, disputes at 1. unfold outcome at 1 2. rewrite Eo, Ha. cbn [andb].
    split_and!.
    + rewrite IH1. unfold active in Ha. apply andb_true_iff in Ha as [Hk _]. unfold required_raw. rewrite Hk. cbn [andb].
      destruct (bool_decide (oc_mode c = MRequire) && _); cbn [length]; lia.
    + rewrite IH2. destruct b; cbn [fmap list_fmap]; [by rewrite <- app_assoc|done].
    + constructor; [intros _; unfold outcome; by rewrite Eo|]. rewrite Forall_forall in IH3 |- *.
      intros x Hx Hax. rewrite <- Hsame by done. by apply IH3.
    + intros k ev. cbn [fmap list_fmap]. rewrite IH4, lookup_delete_Some, elem_of_cons. naive_solver.
Qed.

Lemma evaluate_checks_total policy : ∀ s, NoDup (oc_id <$> policy) →
  Forall (λ c, active c = true → is_ok (outcome (en_pending s) c) = true) policy →
  ∃ s', evaluate_checks now exact policy s = Ok s'.
Proof.
  induction policy as [|c policy IH]; intros s Hd Hf; cbn [evaluate_checks]; [by exists s|].
  cbn [fmap list_fmap] in Hd. apply NoDup_cons in Hd as [Hn Hd]. apply Forall_cons in Hf as [Hc Hf].
  destruct (negb (bool_decide (oc_kind c = _)) || _) eqn:Es; [by apply IH|].
  destruct (is_ok_Ok _ (Hc ltac:(unfold active; by rewrite <- (negb_involutive (bool_decide (oc_kind c = _))), <- negb_orb, Es)))
    as ([r b] & Eo).
  unfold outcome in Eo. rewrite Eo. cbn [mbind result_bind]. apply IH; [done|]. cbn [en_pending].
  rewrite Forall_forall in Hf |- *. intros x Hx Hax. rewrite outcome_delete; [by apply Hf|].
  intros Ex. apply Hn. rewrite <- Ex. by apply list_elem_of_fmap_2.
Qed.

End loop.

(** The evaluation that reports no failure. *)
Lemma evaluate_None policy quorum exact json clock receipts :
  evaluate_observation_evidence policy quorum exact json clock = Ok (receipts, None) → NoDup (oc_id <$> policy) →
  ∃ envelope m now, envelope_from_str json = Some envelope ∧ index_evidence ∅ envelope = Ok m ∧ clock = Ok now ∧
    Forall (λ c, disputes now exact m c = false) policy ∧
    (required_raw_count policy = 0 ∨ quorum ≤ Z.of_nat (length (List.filter (passes now exact m) policy))).
Proof.
  intros E Hd. unfold evaluate_observation_evidence in E.
  apply bind_Ok in E as (envelope & E1 & E). apply ok_or_Ok in E1. apply bind_Ok in E as (m & E2 & E).
  apply bind_Ok in E as (now & E3 & E). apply bind_Ok in E as (s & E4 & E). apply bind_Ok in E as ([] & _ & E).
  destruct (evaluate_checks_Ok _ _ _ _ _ Hd E4) as (S1 & S2 & _ & _). cbn [en_pending en_successes en_conflicts app] in *.
  exists envelope, m, now. split_and!; [done..| |].
  - destruct (bool_decide (en_conflicts s = [])) eqn:Ec; [|done]. bool_props. rewrite Ec in S2.
    apply Forall_forall. intros c Hc. destruct (disputes now exact m c) eqn:Ed; [|done].
    assert (c ∈ List.filter (disputes now exact m) policy) as Hin
      by (apply list_elem_of_In, List.filter_In; by rewrite <- list_elem_of_In).
    symmetry in S2. apply fmap_nil_inv in S2. rewrite S2 in Hin. by apply elem_of_nil in Hin.
  - destruct (negb _); [done|]. injection E as _ E. unfold required_raw_count in *.
    destruct (_ && _) eqn:Eb; [done|]. apply andb_false_iff in Eb as [Eb|Eb]; bool_props; [left|right]; lia.
Qed.
End observation_facts.

(** ** Theorems *)
Section observation_theorems.
Context `{BitcoinLib, !ObservationCodec}.

Lemma passes_exact now exact m c : passes now exact m c = true →
  ∃ ev, m !! oc_id c = Some ev ∧ exact_observation now exact c ev.
Proof.
  unfold passes, outcome. rewrite andb_true_iff. intros [Hr Ho].
  destruct (evaluate_check _ _ _ _) as [[r b]|] eqn:E; [|done]. bool_props.
  apply (evaluate_check_clean _ _ _ _ _ _) in E; [done| |done].
  unfold required_raw in Hr. by apply andb_true_iff in Hr as [Hk%bool_decide_eq_true _].
Qed.

(** C33: under a validated configuration, evidence is accepted only if every raw-transaction observer
    marked require returned exactly the transaction's bytes, from its configured endpoint, over a
    certificate chain that contains one of its configured pins, and not longer ago than it allows. *)
Theorem accepted_evidence_is_exact c exact json now receipts :
  validate_observation_checks c = Ok tt →
  evaluate_observation_evidence (cf_observation_checks c) (cf_required_raw_observer_quorum c) exact json (Ok now)
    = Ok (receipts, None) →
  ∃ envelope, envelope_from_str json = Some envelope ∧
    ∀ check, check ∈ cf_observation_checks c → required_raw check = true →
      ∃ ev, ev ∈ envelope ∧ ev_check_id ev = oc_id check ∧ exact_observation now exact check ev ∧
        ∃ f, f ∈ ev_fingerprints ev ∧ f ∈ oc_fingerprints check.
Proof.
  intros V E. apply validated_quorum in V as (Hd & Hp & Hq).
  destruct (evaluate_None _ _ _ _ _ _ E Hd) as (envelope & m & now' & E1 & E2 & [= <-] & _ & Hc).
  exists envelope. split; [done|]. intros check Hin Hr.
  assert (Forall (λ x, required_raw x = true → passes now exact m x = true) (cf_observation_checks c)) as Hall.
  { apply keep_all; [unfold passes; intros x; by intros [? _]%andb_true_iff|].
    unfold required_raw_count in *. destruct Hc as [Hc|Hc]; lia. }
  rewrite Forall_forall in Hall, Hp. destruct (passes_exact _ _ _ _ (Hall _ Hin Hr)) as (ev & Hm & Hex).
  destruct (index_evidence_Ok _ _ _ E2) as (_ & _ & Hx). apply Hx in Hm as [Hm|[Hm Hid]]; [by rewrite lookup_empty in Hm|].
  exists ev. split_and!; [done..|]. apply (eo_pinned _ _ _ _ Hex), (Hp _ Hin Hr).
Qed.

(** an observer marked require that reports a different valid transaction is never outvoted: whatever
    the quorum and the other evidence, the evaluation does not succeed. *)
Theorem conflicting_observer_blocks policy quorum exact json clock receipts envelope check ev raw :
  NoDup (oc_id <$> policy) → check ∈ policy → required_raw check = true →
  envelope_from_str json = Some envelope → ev ∈ envelope → ev_check_id ev = oc_id check → ev_result ev = Observed →
  observed_raw ev = Ok (Some raw) → raw ≠ exact → is_Some (btx_deserialize raw) →
  evaluate_observation_evidence policy quorum exact json clock ≠ Ok (receipts, None).
Proof.
  intros Hd Hin Hr Ej Hev Hid Ho Hraw Hne Htx E.
  destruct (evaluate_None _ _ _ _ _ _ E Hd) as (envelope' & m & now & E1 & E2 & _ & Hn & _). simplify_eq.
  destruct (index_evidence_Ok _ _ _ E2) as (_ & _ & Hx). rewrite Forall_forall in Hn. specialize (Hn _ Hin).
  assert (m !! oc_id check = Some ev) as Hm by (apply Hx; by right).
  revert Hn. unfold disputes, outcome, evaluate_check. rewrite required_active, Hm, Hraw by done.
  apply andb_true_iff in Hr as [Hk Hmode]. rewrite Hk, Hmode, (bool_decide_eq_true_2 _ Ho).
  cbn [andb mbind result_bind conflicting_raw]. rewrite bool_decide_eq_false_2, bool_decide_eq_true_2 by done. done.
Qed.

Lemma exact_failures now exact check ev : exact_observation now exact check ev → oc_fingerprints check ≠ [] →
  0 ≤ oc_max_age_seconds check → oc_max_age_seconds check * 1000 < 2 ^ 63 - 1 → 0 ≤ now → now + 30000 < 2 ^ 63 →
  evidence_failures now check ev true false = [].
Proof.
  intros [X1 X2 X3 X4 X5 X6 X7 X8] Hp Hage Ha Hn Hn'. destruct (X3 Ha) as [F1 F2]. destruct (X6 Hp) as (f & Hf & Hfp).
  assert (wrapping_add_i64 now 30000 = now + 30000) as Hw by (unfold wrapping_add_i64; apply to_of_signed; lia).
  unfold evidence_failures. rewrite X1, X4, X8, Hw.
  rewrite (bool_decide_eq_true_2 (oc_endpoint check = _)), (bool_decide_eq_true_2 (oc_pin_profile check = _)),
    (bool_decide_eq_true_2 (Observed = _)), (bool_decide_eq_false_2 (oc_fingerprints check = [])) by done.
  rewrite (bool_decide_eq_false_2 (ev_fingerprints ev = [])) by (intros E; rewrite E in Hf; by apply elem_of_nil in Hf).
  rewrite (proj2 (Z.ltb_ge (ev_completed_at_ms ev) _)), (proj2 (Z.ltb_ge (now + 30000) _)) by lia.
  rewrite (proj2 (Z.ltb_ge (saturating_mul64 _ _) _)).
  2:{ unfold saturating_mul64, u64_of_i64, saturating_sub_i64, u64_max. destruct (_ <? 0) eqn:E; bool_props; lia. }
  replace (existsb _ (ev_fingerprints ev)) with true.
  2:{ symmetry. apply existsb_exists. exists f. by rewrite <- list_elem_of_In, bool_decide_eq_true. }
  rewrite !andb_false_r. cbn [negb when app andb]. rewrite !app_nil_r.
  apply List.concat_nil_Forall, Forall_fmap. eapply Forall_impl; [exact X5|]. intros x Hx. cbn. by rewrite Hx.
Qed.

(** conversely, when each required observer's evidence is exact and current, and the host sends one
    observation per enabled observer and no other, the evaluation succeeds: no other check gates it. *)
Theorem exact_evidence_is_accepted c exact json now envelope :
  validate_observation_checks c = Ok tt → envelope_from_str json = Some envelope → NoDup (ev_check_id <$> envelope) →
  (∀ ev, ev ∈ envelope → ∃ check, check ∈ cf_observation_checks c ∧ active check = true ∧ oc_id check = ev_check_id ev) →
  (∀ ev, ev ∈ envelope → observed_raw ev ≠ Err Panicked) → 0 ≤ now → now + 30000 < 2 ^ 63 →
  (∀ check, check ∈ cf_observation_checks c → required_raw check = true →
     0 ≤ oc_max_age_seconds check ∧ oc_max_age_seconds check * 1000 < 2 ^ 63 - 1 ∧
     ∃ ev, ev ∈ envelope ∧ ev_check_id ev = oc_id check ∧ exact_observation now exact check ev) →
  ∃ receipts, evaluate_observation_evidence (cf_observation_checks c) (cf_required_raw_observer_quorum c) exact json (Ok now)
    = Ok (receipts, None).
Proof.
  intros V Ej Hd Hknown Hascii Hn Hn' Hreq. apply validated_quorum in V as (Hdc & Hp & Hq).
  destruct (index_evidence_total envelope ∅ Hd) as (m & Em); [by apply Forall_forall; intros; apply lookup_empty|].
  destruct (index_evidence_Ok _ _ _ Em) as (_ & _ & Hx).
  assert (∀ k ev, m !! k = Some ev → ev ∈ envelope ∧ ev_check_id ev = k) as Hm
    by (intros k ev Hk; apply Hx in Hk as [Hk|Hk]; [by rewrite lookup_empty in Hk|done]).
  assert (∀ check, check ∈ cf_observation_checks c → active check = true → is_ok (outcome now exact m check) = true) as Hok.
  { intros check _ _. unfold outcome, evaluate_check. destruct (m !! oc_id check) as [ev|] eqn:Ek; [|done].
    destruct (Hm _ _ Ek) as [Hin _]. destruct (bool_decide (oc_kind check = _)); [|done]. specialize (Hascii _ Hin).
    unfold observed_raw in *. destruct (ev_raw_transaction_hex ev); [|done]. by destruct (hex_decode r) as [|[|]]. }
  assert (∀ check, check ∈ cf_observation_checks c → required_raw check = true →
    passes now exact m check = true ∧ disputes now exact m check = false) as Hgood.
  { intros check Hin Hr. destruct (Hreq _ Hin Hr) as (Hg1 & Hg2 & ev & Hev & Hid & Hex). rewrite Forall_forall in Hp.
    assert (m !! oc_id check = Some ev) as Hk by (apply Hx; by right). pose proof (eo_raw _ _ _ _ Hex) as (encoded & Hr1 & Hr2).
    pose proof (exact_failures _ _ _ _ Hex (proj1 (Hp _ Hin Hr)) Hg1 Hg2 Hn Hn') as Hf.
    unfold passes, disputes, outcome, evaluate_check. rewrite Hk, Hr, required_active by done.
    apply andb_true_iff in Hr as [Hkind Hmode]. unfold observed_raw. rewrite Hkind, Hmode, Hr1, Hr2.
    cbn [mbind result_bind conflicting_raw]. rewrite (bool_decide_eq_true_2 (exact = exact)) by done.
    cbn [negb andb]. rewrite !andb_false_r. cbn [or_failures]. rewrite Hf. done. }
  destruct (evaluate_checks_total now exact (cf_observation_checks c)
    {| en_pending := m; en_receipts := []; en_successes := 0; en_conflicts := [] |} Hdc) as (s & Es).
  { apply Forall_forall. intros check Hin Ha. by apply Hok. }
  destruct (evaluate_checks_Ok _ _ _ _ _ Hdc Es) as (S1 & S2 & _ & S4). cbn [en_pending en_successes en_conflicts app] in *.
  exists (en_receipts s). unfold evaluate_observation_evidence. rewrite Ej. cbn [ok_or mbind result_bind]. rewrite Em.
  cbn [mbind result_bind]. rewrite Es. cbn [mbind result_bind].
  assert (en_pending s = ∅) as ->.
  { apply map_empty. intros k. apply eq_None_not_Some. intros (ev & Hk). apply S4 in Hk as [Hk Hna].
    destruct (Hm _ _ Hk) as [Hin Hid]. destruct (Hknown _ Hin) as (check & Hc & Ha & Hid'). apply Hna.
    rewrite <- Hid, <- Hid'. apply list_elem_of_fmap_2, list_elem_of_In, List.filter_In. by rewrite <- list_elem_of_In. }
  rewrite reject_false by by rewrite bool_decide_eq_true_2. cbn [mbind result_bind].
  assert (en_conflicts s = []) as ->.
  { rewrite S2. rewrite (filter_same _ (λ _, false)); [clear; by induction (cf_observation_checks c)|]. intros check Hin.
    destruct (required_raw check) eqn:Er; [by apply Hgood|]. unfold disputes, outcome, evaluate_check.
    unfold required_raw in Er. destruct (m !! oc_id check); [|by destruct (active check)].
    unfold active. destruct (bool_decide (oc_kind check = _)); [|done]. cbn [andb] in Er. rewrite Er.
    destruct (observed_raw _); by destruct (negb _). }
  rewrite bool_decide_eq_true_2 by done. cbn [negb]. rewrite S1, Hq. unfold required_raw_count.
  rewrite (filter_same (passes now exact m) required_raw).
  - rewrite Z.ltb_irrefl, andb_false_r. done.
  - intros check Hin. destruct (required_raw check) eqn:Er; [by apply Hgood|]. unfold passes. by rewrite Er.
Qed.

(** the built-in checks always pass their own validation, on every network, with the quorum the
    account derives for them. *)
Theorem default_policy_validates c : cf_observation_checks c = [] →
  ∃ c', prepare_observation false c = Ok c' ∧ validate_observation_checks c' = Ok tt ∧
    cf_required_raw_observer_quorum c' =
      if bool_decide (cf_network c = lit "mainnet") || bool_decide (cf_network c = lit "signet") then 2 else 0.
Proof.
  intros Hc. unfold prepare_observation. rewrite Hc. rewrite (bool_decide_eq_true_2 ([] = [])) by done.
  set (checks := default_observation_checks _).
  assert (required_raw_count checks =
    if bool_decide (cf_network c = lit "mainnet") || bool_decide (cf_network c = lit "signet") then 2 else 0) as Hq.
  { unfold checks, default_observation_checks. destruct (bool_decide (cf_network c = lit "mainnet")); [done|].
    by destruct (bool_decide (cf_network c = lit "signet")). }
  assert (validate_check_list (cf_network c) [] checks = Ok tt) as Hv.
  { unfold checks, default_observation_checks. destruct (bool_decide_reflect (cf_network c = lit "mainnet")) as [->|_];
      [vm_compute; reflexivity|]. destruct (bool_decide_reflect (cf_network c = lit "signet")) as [->|_];
      vm_compute; reflexivity. }
  assert (required_raw_count checks ≤ u32_max) as Hm
    by (rewrite Hq; destruct (_ || _); unfold u32_max; lia).
  rewrite option_guard_True by done. cbn [mbind option_bind ok_or result_bind].
  assert (validate_observation_checks (with_observation checks (required_raw_count checks) c) = Ok tt) as Hall.
  { unfold validate_observation_checks. cbn [with_observation cf_network cf_observation_checks cf_required_raw_observer_quorum].
    rewrite Hv. cbn [mbind result_bind]. apply reject_false. by rewrite Z.eqb_refl. }
  rewrite Hall. eexists. split_and!; [reflexivity|done|exact Hq].
Qed.
End observation_theorems.

(** ** A concrete evaluation *)
#[local] Existing Instances demo_sponge small_sha256d small_sha256 demo_bitcoin.

Definition observed_tx (locktime : Z) : bytes := btx_serialize {| btx_version := 2;
  btx_input := [{| previous_output := outpoint_null; bi_script_sig := []; bi_sequence := 0; bi_witness := [] |}];
  btx_output := [{| tx_value := 5; script_pubkey := [x6a] |}]; btx_lock_time := locktime |}.

Definition signet_account : AccountConfig := {|
  cf_version := 2; cf_deployment_id := TEST_USD_V2_DEPLOYMENT_ID; cf_network := lit "signet";
  cf_esplora_url := lit "https://mempool.space/signet/api"; cf_peers := []; cf_verification_peers := [];
  cf_verification_timeout_secs := 8; cf_max_verification_blocks := 10000; cf_role := Primary;
  cf_backup_verified := true; cf_expected_device_binding_commitment := None; cf_required_confirmations := 1;
  cf_stop_gap := 20; cf_parallel_requests := 4; cf_esplora_request_timeout_secs := 5; cf_esplora_max_retries := 0;
  cf_observation_checks := []; cf_required_raw_observer_quorum := default_required_raw_observer_quorum;
  cf_watch_external_descriptor := None; cf_watch_internal_descriptor := None; cf_watch_owner := None;
  cf_usd_issuers := []; cf_production_usd_registry := None; cf_production_issuance_policies := [];
  cf_max_fee_sats := None |}.

Definition observed_account : AccountConfig :=
  with_observation (default_observation_checks (lit "signet")) 2 signet_account.

(** The evidence of one observer: what it returned, and when it was cached. *)
Definition evidence_of (check : ObservationCheck) (raw : bytes) (cached : Z) : ObservationEvidence := {|
  ev_check_id := oc_id check; ev_endpoint := oc_endpoint check; ev_result := Observed;
  ev_started_at_ms := 1000; ev_completed_at_ms := 1200; ev_cached_at_ms := cached; ev_profile := oc_pin_profile check;
  ev_fingerprints := take 1 (oc_fingerprints check); ev_raw_transaction_hex := Some (hex_encode raw); ev_detail := None |}.

Definition signet_observers : list ObservationCheck :=
  List.filter required_raw (default_observation_checks (lit "signet")).

Definition codec_of (l : list ObservationEvidence) : ObservationCodec := λ _, Some l.
Definition agreeing : list ObservationEvidence := (λ c, evidence_of c (observed_tx 0) 1300) <$> signet_observers.

Definition evaluate_with (l : list ObservationEvidence) (now : Z) : account (list ObservationReceipt * option AccountError) :=
  evaluate_observation_evidence (H0 := codec_of l) (cf_observation_checks observed_account)
    (cf_required_raw_observer_quorum observed_account) (observed_tx 0) [] (Ok now).

Lemma observed_account_valid : validate_observation_checks observed_account = Ok tt.
Proof. vm_compute. reflexivity. Qed.

Lemma agreeing_accepted : ∃ receipts, evaluate_with agreeing 2000 = Ok (receipts, None).
Proof. eexists. vm_compute. reflexivity. Qed.

(** Evidence cached one second ahead of the clock is inside the tolerance of thirty seconds, and still stale. *)
Lemma ahead_of_the_clock_refused :
  match evaluate_with ((λ c, evidence_of c (observed_tx 0) 3000) <$> signet_observers) 2000 with
  | Ok (receipts, Some e) => or_failures <$> receipts = [["observation cache is stale"%string]; ["observation cache is stale"%string]]
  | _ => False
  end.
Proof. vm_compute. reflexivity. Qed.

(** A text that cuts a character in two: the call panics instead of recording the failure. *)
Lemma foreign_text_panics :
  evaluate_with ((λ c, {| ev_check_id := oc_id c; ev_endpoint := oc_endpoint c; ev_result := Observed;
    ev_started_at_ms := 0; ev_completed_at_ms := 0; ev_cached_at_ms := 0; ev_profile := None; ev_fingerprints := [];
    ev_raw_transaction_hex := Some (lit "0" ++ [0xE9] ++ lit "0"); ev_detail := None |}) <$> signet_observers) 2000
  = Err Panicked.
Proof. vm_compute. reflexivity. Qed.

Lemma accepted_evidence_is_exact_witness :
  ∃ receipts, evaluate_with agreeing 2000 = Ok (receipts, None) ∧
    ∃ envelope, @envelope_from_str (codec_of agreeing) [] = Some envelope ∧
    ∀ check, check ∈ cf_observation_checks observed_account → required_raw check = true →
      ∃ ev, ev ∈ envelope ∧ ev_check_id ev = oc_id check ∧ exact_observation 2000 (observed_tx 0) check ev ∧
        ∃ f, f ∈ ev_fingerprints ev ∧ f ∈ oc_fingerprints check.
Proof.
  destruct agreeing_accepted as (receipts & E). exists receipts. split; [exact E|].
  unfold evaluate_with in E.
  exact (accepted_evidence_is_exact (H0 := codec_of agreeing) observed_account (observed_tx 0) [] 2000 receipts
    observed_account_valid E).
Defined.

Lemma conflicting_observer_blocks_witness :
  let other := evidence_of (raw_check "mempool_space_signet" "https://mempool.space/signet/api" "sectigo_r46"
                              MEMPOOL_SPACE_CHAIN_PINS) (observed_tx 7) 1300 in
  ∀ receipts, evaluate_observation_evidence (H0 := codec_of [other]) (cf_observation_checks observed_account) 0
    (observed_tx 0) [] (Ok 2000) ≠ Ok (receipts, None).
Proof.
  intros other receipts.
  refine (conflicting_observer_blocks (H0 := codec_of [other]) (cf_observation_checks observed_account) 0 (observed_tx 0) [] (Ok 2000)
    receipts [other] (raw_check "mempool_space_signet" "https://mempool.space/signet/api" "sectigo_r46"
                              MEMPOOL_SPACE_CHAIN_PINS) other (observed_tx 7) _ _ _ _ _ _ _ _ _ _).
  - apply (bool_decide_unpack _). vm_compute. exact I.
  - apply list_elem_of_here.
  - reflexivity.
  - reflexivity.
  - apply list_elem_of_here.
  - reflexivity.
  - reflexivity.
  - vm_compute. reflexivity.
  - vm_compute. discriminate.
  - vm_compute. eauto.
Defined.

Lemma default_policy_validates_witness :
  ∃ c, prepare_observation false signet_account = Ok c ∧ validate_observation_checks c = Ok tt ∧
    cf_required_raw_observer_quorum c = 2.
Proof. exact (default_policy_validates signet_account eq_refl). Defined.

Lemma evidence_of_exact c raw : required_raw c = true → oc_max_age_seconds c = 120 →
  Forall (λ f, validate_hex_32_config f = Ok tt) (take 1 (oc_fingerprints c)) → oc_fingerprints c ≠ [] →
  exact_observation 2000 raw c (evidence_of c raw 1300).
Proof.
  intros Hr Ha Hf Hp. constructor; cbn; try done; try lia.
  - intros _. destruct (oc_fingerprints c) as [|f l]; [done|]. exists f. split; apply list_elem_of_here.
  - exists (hex_encode raw). split; [done|apply hex_decode_encode].
Qed.

Lemma exact_evidence_is_accepted_witness :
  ∃ receipts, evaluate_observation_evidence (H0 := codec_of agreeing) (cf_observation_checks observed_account)
    (cf_required_raw_observer_quorum observed_account) (observed_tx 0) [] (Ok 2000) = Ok (receipts, None).
Proof.
  assert (∀ check, check ∈ cf_observation_checks observed_account → required_raw check = true → check ∈ signet_observers) as Hs.
  { intros check Hin Hr. apply list_elem_of_In, List.filter_In. by rewrite <- list_elem_of_In. }
  assert (Forall (λ c, required_raw c = true ∧ oc_max_age_seconds c = 120 ∧
    Forall (λ f, validate_hex_32_config f = Ok tt) (take 1 (oc_fingerprints c)) ∧ oc_fingerprints c ≠ []) signet_observers) as Hall
    by (repeat apply List.Forall_cons; try apply List.Forall_nil; split_and!; try done; repeat constructor).
  rewrite Forall_forall in Hall.
  apply (exact_evidence_is_accepted (H0 := codec_of agreeing) observed_account (observed_tx 0) [] 2000 agreeing
    observed_account_valid eq_refl); [apply (bool_decide_unpack _); vm_compute; exact I| | |lia|lia|].
  - intros ev Hev. apply list_elem_of_fmap in Hev as (c & -> & Hc). exists c. split_and!; [|apply required_active|done].
    + apply list_elem_of_In in Hc. unfold signet_observers in Hc. apply List.filter_In in Hc as [Hc _].
      by apply list_elem_of_In.
    + by apply Hall.
  - intros ev Hev. apply list_elem_of_fmap in Hev as (c & -> & Hc). unfold observed_raw. cbn [ev_raw_transaction_hex evidence_of].
    by rewrite hex_decode_encode.
  - intros check Hin Hr. destruct (Hall check (Hs check Hin Hr)) as (_ & Ha & Hf & Hp). rewrite Ha. split_and!; [lia|lia|].
    exists (evidence_of check (observed_tx 0) 1300). split_and!; [|done|by apply evidence_of_exact].
    apply (list_elem_of_fmap_2 (λ c, evidence_of c (observed_tx 0) 1300)). by apply Hs.
Defined.
