(* ===== verification/Issuance.v ===== *)
(** * Production issuance authorization (ffi)

    Models [ffi/src/production_issuance.rs]: the commitment of an issuance policy, the
    validation of a policy, and the verification of a threshold-signed mint
    authorization.  The JSON encoding of the signed payloads, secp256k1, the text form of an
    outpoint and the parser of addresses are parameters; SHA-256 is [Sha256]. *)

From S2P Require Import Prelude Text Field Commitments Kernel Anchor Batch Chain Accept Wire Block Bitcoin Instrument.
From S2P Require Import Network Peer FullScan Scan Rpc AccountText AccountTypes.
#[local] Open Scope Z_scope.

Record ValidationError := { ve_code : string; ve_message : string }.
#[export] Instance validation_error_eq_dec : EqDecision ValidationError.
Proof. solve_decision. Defined.

Abbreviation validation := (result (halt ValidationError)).

Definition validation_error (code message : string) : halt ValidationError :=
  Refused {| ve_code := code; ve_message := message |}.
Definition invalid (cond : bool) (code message : string) : validation () :=
  ensure (negb cond) (validation_error code message).

(** [AccountError::new(error.code, error.message)] *)
Definition of_validation {A} (r : validation A) : account A :=
  map_refused (λ e, account_error (ve_code e) (ve_message e)) r.

Abbreviation bad_policy := "invalid_production_issuance_policy"%string.
Abbreviation not_authorized := "production_issuance_not_authorized"%string.
Abbreviation limit_exceeded := "production_issuance_limit_exceeded"%string.

Definition PRODUCTION_ISSUANCE_POLICY_FORMAT_VERSION : Z := 1.
Definition PRODUCTION_MINT_AUTHORIZATION_FORMAT_VERSION : Z := 1.

(** ** The payloads that are committed and signed *)
Record PolicyCommitmentPayload := {
  pp_domain : string;
  pp_format_version : Z;
  pp_policy_version : Z;
  pp_deployment_id : rstring;
  pp_registry_version : Z;
  pp_asset_id : rstring;
  pp_authority_public_keys : list rstring;
  pp_signature_threshold : Z;
  pp_max_authorization_base_units : Z;
  pp_max_cumulative_supply_base_units : Z;
  pp_max_authorization_lifetime_seconds : Z;
  pp_valid_from : Z;
  pp_expires_at : Z;
  pp_source_revision : rstring;
  pp_approval_receipts : list rstring;
}.

Record AuthorizationPayload := {
  ap_domain : string;
  ap_format_version : Z;
  ap_deployment_id : rstring;
  ap_registry_commitment : rstring;
  ap_issuance_policy_commitment : rstring;
  ap_asset_id : rstring;
  ap_to_owner : rstring;
  ap_amounts : list Z;
  ap_funding_outpoint : rstring;
  ap_sequence : Z;
  ap_supply_before : Z;
  ap_supply_after : Z;
  ap_not_before : Z;
  ap_expires_at : Z;
  ap_approval_receipts : list rstring;
}.

(** [serde_json::to_vec] of the two payloads. *)
Class IssuanceCodec := {
  policy_payload_json : PolicyCommitmentPayload → bytes;
  authorization_payload_json : AuthorizationPayload → bytes;
}.

(** Keys are their compressed serialization. *)
Class MintKeys := {
  CompactSig : Type;
  compact_sig_eq_dec :: EqDecision CompactSig;
  key_from_slice : bytes → option bytes;
  from_compact : bytes → option CompactSig;
  compact_normalize_s : CompactSig → CompactSig;
  verify_compact : CompactSig → bytes → bytes → bool;
}.

(** [serde_json::from_value] and [to_value] at the two types. *)
Class IssuanceJson := {
  policy_from_value : Value → option ProductionIssuancePolicy;
  policy_to_value : ProductionIssuancePolicy → Value;
  authorization_from_value : Value → option ProductionMintAuthorization;
}.
Class IssuanceJsonLaws (J : IssuanceJson) : Prop := {
  policy_value_roundtrip : ∀ p, policy_from_value (policy_to_value p) = Some p;
}.

(** [OutPoint::from_str] and its [Display]. *)
Class OutPointText := {
  outpoint_from_str : rstring → option OutPoint;
  outpoint_to_string : OutPoint → rstring;
}.

(** ** Texts *)
Fixpoint str_contains (s p : rstring) : bool :=
  starts_with s p || match s with [] => false | _ :: s => str_contains s p end.

Definition lower_hex (b : byte) : bool := is_ascii_hexdigit b && negb (is_upper b).

Definition validate_mainnet_deployment (deployment_id : rstring) : validation () :=
  invalid ((Z.of_nat (length (utf8 deployment_id)) <? 8) || (96 <? Z.of_nat (length (utf8 deployment_id))) ||
           negb (forallb deployment_byte (utf8 deployment_id)) || str_contains deployment_id (lit "test") ||
           str_contains deployment_id (lit "signet") || str_contains deployment_id (lit "regtest"))
    bad_policy "production issuance deployment is not a valid non-test mainnet namespace".

Definition validate_hex_32 (value : rstring) : validation () :=
  invalid (negb (bool_decide (length (utf8 value) = 64%nat)) || negb (forallb lower_hex (utf8 value)))
    bad_policy "must be 32-byte lowercase hex".

Definition validate_source_revision (source_revision : rstring) : validation () :=
  invalid (negb (bool_decide (length (utf8 source_revision) = 40%nat) || bool_decide (length (utf8 source_revision) = 64%nat)) ||
           negb (forallb lower_hex (utf8 source_revision)))
    bad_policy "production issuance source revision must be a lowercase Git SHA".

Section texts.
Context `{UrlParser}.

Fixpoint receipt_loop (code : string) (unique : list rstring) (receipts : list rstring) : validation () :=
  match receipts with
  | [] => Ok tt
  | receipt :: receipts =>
    parsed ← ok_or (url_parse receipt) (validation_error code "receipt is not a valid URL");
    invalid (negb (bool_decide (parsed.1 = lit "https")) || bool_decide (parsed.2 = None) || bool_decide (receipt ∈ unique))
      code "receipts must be unique HTTPS URLs";;
    receipt_loop code (receipt :: unique) receipts
  end.

Definition validate_receipts (receipts : list rstring) (code : string) : validation () :=
  invalid (bool_decide (receipts = [])) code "requires at least one public approval receipt";;
  receipt_loop code [] receipts.
End texts.

Section issuance.
Context `{Sha256, IssuanceCodec, MintKeys, OutPointText, UrlParser}.

Definition policy_payload (p : ProductionIssuancePolicy) : PolicyCommitmentPayload := {|
  pp_domain := "OpenCSV-production-issuance-policy-v1"; pp_format_version := ip_format_version p;
  pp_policy_version := ip_policy_version p; pp_deployment_id := ip_deployment_id p;
  pp_registry_version := ip_registry_version p; pp_asset_id := ip_asset_id p;
  pp_authority_public_keys := ip_authority_public_keys p; pp_signature_threshold := ip_signature_threshold p;
  pp_max_authorization_base_units := ip_max_authorization_base_units p;
  pp_max_cumulative_supply_base_units := ip_max_cumulative_supply_base_units p;
  pp_max_authorization_lifetime_seconds := ip_max_authorization_lifetime_seconds p;
  pp_valid_from := ip_valid_from p; pp_expires_at := ip_expires_at p; pp_source_revision := ip_source_revision p;
  pp_approval_receipts := ip_approval_receipts p |}.

Definition production_issuance_policy_commitment (p : ProductionIssuancePolicy) : rstring :=
  to_hex (sha256 (policy_payload_json (policy_payload p))).

Definition authorization_payload (a : ProductionMintAuthorization) : AuthorizationPayload := {|
  ap_domain := "OpenCSV-production-mint-authorization-v1"; ap_format_version := ma_format_version a;
  ap_deployment_id := ma_deployment_id a; ap_registry_commitment := ma_registry_commitment a;
  ap_issuance_policy_commitment := ma_issuance_policy_commitment a; ap_asset_id := ma_asset_id a;
  ap_to_owner := ma_to_owner a; ap_amounts := ma_amounts a; ap_funding_outpoint := ma_funding_outpoint a;
  ap_sequence := ma_sequence a; ap_supply_before := ma_supply_before a; ap_supply_after := ma_supply_after a;
  ap_not_before := ma_not_before a; ap_expires_at := ma_expires_at a;
  ap_approval_receipts := ma_approval_receipts a |}.

Definition production_mint_authorization_digest (a : ProductionMintAuthorization) : bytes :=
  sha256 (authorization_payload_json (authorization_payload a)).

(** ** Policies *)
Definition text_error {A} (code : string) (r : result (halt string) A) : validation A :=
  map_refused (λ m, {| ve_code := code; ve_message := m |}) r.

Fixpoint authority_keys (previous : option rstring) (keys : gset bytes) (l : list rstring) : validation (gset bytes) :=
  match l with
  | [] => Ok keys
  | encoded :: l =>
    bytes ← text_error bad_policy (ffi_from_hex encoded);
    canonical ← ok_or (key_from_slice bytes)
      (validation_error bad_policy "production issuance authority key is not a secp256k1 public key");
    invalid (negb (bool_decide (canonical = bytes)) || negb (bool_decide (encoded = to_hex canonical)))
      bad_policy "production issuance authority keys must use lowercase compressed canonical encoding";;
    invalid (match previous with Some p => negb (str_ltb p encoded) | None => false end)
      bad_policy "production issuance authority keys must be unique and sorted";;
    authority_keys (Some encoded) ({[canonical]} ∪ keys) l
  end.

Definition validate_production_issuance_policy (p : ProductionIssuancePolicy) (expected_deployment_id : rstring)
    (expected_registry_version : Z) (expected_asset_id expected_policy_commitment : rstring) : validation () :=
  invalid (negb (ip_format_version p =? PRODUCTION_ISSUANCE_POLICY_FORMAT_VERSION))
    bad_policy "unsupported production issuance policy format version";;
  invalid (ip_policy_version p =? 0) bad_policy "production issuance policy version must be nonzero";;
  validate_mainnet_deployment (ip_deployment_id p);;
  invalid (negb (bool_decide (ip_deployment_id p = expected_deployment_id)))
    bad_policy "production issuance policy belongs to another deployment";;
  invalid ((ip_registry_version p =? 0) || negb (ip_registry_version p =? expected_registry_version))
    bad_policy "production issuance policy belongs to another registry version";;
  validate_hex_32 (ip_asset_id p);;
  invalid (negb (bool_decide (ip_asset_id p = expected_asset_id)))
    bad_policy "production issuance policy belongs to another asset";;
  invalid (bool_decide (length (ip_authority_public_keys p) < 2)%nat)
    bad_policy "production issuance requires at least two distinct authority keys";;
  keys ← authority_keys None ∅ (ip_authority_public_keys p);
  invalid ((ip_signature_threshold p <? 2) || (Z.of_nat (size keys) <? ip_signature_threshold p))
    bad_policy "production issuance signature threshold must be between two and the authority-key count";;
  invalid ((ip_max_authorization_base_units p =? 0) || (ip_max_cumulative_supply_base_units p =? 0) ||
           (ip_max_cumulative_supply_base_units p <? ip_max_authorization_base_units p))
    bad_policy "production issuance amount limits are inconsistent";;
  invalid (ip_max_authorization_lifetime_seconds p =? 0)
    bad_policy "production issuance authorization lifetime must be nonzero";;
  invalid (ip_expires_at p <=? ip_valid_from p) bad_policy "production issuance policy validity window is empty";;
  validate_source_revision (ip_source_revision p);;
  validate_receipts (ip_approval_receipts p) bad_policy;;
  validate_hex_32 (ip_commitment p);;
  validate_hex_32 expected_policy_commitment;;
  invalid (negb (bool_decide (ip_commitment p = expected_policy_commitment)))
    bad_policy "production issuance policy does not match the commitment authorized by the containing release";;
  invalid (negb (bool_decide (production_issuance_policy_commitment p = ip_commitment p)))
    bad_policy "production issuance policy commitment does not match its exact payload".

(** ** Authorizations *)
Definition production_mint_funding_outpoint (a : ProductionMintAuthorization) : validation OutPoint :=
  outpoint ← ok_or (outpoint_from_str (ma_funding_outpoint a))
    (validation_error not_authorized "production mint funding outpoint is malformed");
  invalid (negb (bool_decide (outpoint_to_string outpoint = ma_funding_outpoint a)))
    not_authorized "production mint funding outpoint is not canonical";;
  Ok outpoint.

(** [try_fold(0, checked_add)] *)
Fixpoint checked_sum (sum : Z) (amounts : list Z) : option Z :=
  match amounts with [] => Some sum | a :: l => s ← checked_add64 sum a; checked_sum s l end.

Fixpoint verify_signatures (digest : bytes) (permitted : list rstring) (previous : option rstring)
    (l : list ProductionAuthoritySignature) : validation () :=
  match l with
  | [] => Ok tt
  | signed :: l =>
    let key := as_authority_public_key signed in
    invalid (match previous with Some p => negb (str_ltb p key) | None => false end)
      not_authorized "production mint signatures must be unique and sorted by authority key";;
    invalid (negb (bool_decide (key ∈ permitted))) not_authorized "production mint signature uses an unauthorized key";;
    key_bytes ← map_refused (λ _, {| ve_code := not_authorized; ve_message := "production mint authority key is malformed" |})
      (ffi_from_hex key);
    public_key ← ok_or (key_from_slice key_bytes)
      (validation_error not_authorized "production mint authority key is malformed");
    signature_bytes ← text_error not_authorized (from_hex_array 64 (as_signature_compact signed));
    signature ← ok_or (from_compact signature_bytes)
      (validation_error not_authorized "production mint authority signature is malformed");
    invalid (negb (bool_decide (compact_normalize_s signature = signature)))
      not_authorized "production mint authority signature is not low-S";;
    invalid (negb (verify_compact signature digest public_key))
      not_authorized "production mint authority signature does not verify";;
    verify_signatures digest permitted (Some key) l
  end.

Definition verify_production_mint_authorization (p : ProductionIssuancePolicy) (a : ProductionMintAuthorization)
    (expected_registry_version : Z) (expected_policy_commitment expected_to_owner : rstring) (expected_amounts : list Z)
    (now : Z) : validation bytes :=
  validate_production_issuance_policy p (ma_deployment_id a) expected_registry_version (ma_asset_id a)
    expected_policy_commitment;;
  invalid (negb (ma_format_version a =? PRODUCTION_MINT_AUTHORIZATION_FORMAT_VERSION))
    not_authorized "unsupported production mint authorization format version";;
  invalid (negb (bool_decide (ma_issuance_policy_commitment a = ip_commitment p)))
    not_authorized "mint authorization belongs to another issuance policy";;
  validate_hex_32 (ma_to_owner a);;
  invalid (negb (bool_decide (ma_to_owner a = expected_to_owner)) || negb (bool_decide (ma_amounts a = expected_amounts)))
    not_authorized "mint authorization does not match the exact recipient and amounts";;
  invalid (bool_decide (ma_amounts a = []) || bool_decide (2 < length (ma_amounts a))%nat || bool_decide (0 ∈ ma_amounts a))
    not_authorized "production mint authorization requires one or two positive outputs";;
  production_mint_funding_outpoint a;;
  total ← ok_or (checked_sum 0 (ma_amounts a)) (validation_error limit_exceeded "production mint amount overflow");
  invalid (ip_max_authorization_base_units p <? total)
    limit_exceeded "production mint exceeds the per-authorization supply limit";;
  invalid (ma_sequence a =? 0) not_authorized "production mint authorization sequence must be nonzero";;
  expected_supply_after ← ok_or (checked_add64 (ma_supply_before a) total)
    (validation_error limit_exceeded "production cumulative supply overflow");
  invalid (negb (expected_supply_after =? ma_supply_after a))
    not_authorized "production mint authorization supply transition is inconsistent";;
  invalid (ip_max_cumulative_supply_base_units p <? ma_supply_after a)
    limit_exceeded "production mint exceeds the cumulative supply limit";;
  invalid ((ma_not_before a <? ip_valid_from p) || (ip_expires_at p <? ma_expires_at a) || (ma_expires_at a <=? ma_not_before a))
    not_authorized "production mint authorization is outside the policy validity window";;
  invalid (ip_max_authorization_lifetime_seconds p <? saturating_sub64 (ma_expires_at a) (ma_not_before a))
    not_authorized "production mint authorization lifetime exceeds policy";;
  invalid ((now <? ma_not_before a) || (ma_expires_at a <? now))
    "production_issuance_authorization_expired" "production mint authorization is not currently valid";;
  validate_receipts (ma_approval_receipts a) not_authorized;;
  let digest := production_mint_authorization_digest a in
  invalid (negb (bool_decide (ma_authorization_id a = to_hex digest)))
    not_authorized "production mint authorization id does not match its exact payload";;
  invalid (Z.of_nat (length (ma_signatures a)) <? ip_signature_threshold p)
    not_authorized "production mint authorization lacks the required signature threshold";;
  verify_signatures digest (ip_authority_public_keys p) None (ma_signatures a);;
  Ok digest.

(** ** The JSON entry points *)
Context `{!Serde, !IssuanceJson}.

Definition contains_key (fields : list (rstring * Value)) (key : string) : bool :=
  existsb (λ f, bool_decide (f.1 = lit key)) fields.

Definition with_commitment (p : ProductionIssuancePolicy) (commitment : rstring) : ProductionIssuancePolicy := {|
  ip_format_version := ip_format_version p; ip_policy_version := ip_policy_version p;
  ip_deployment_id := ip_deployment_id p; ip_registry_version := ip_registry_version p; ip_asset_id := ip_asset_id p;
  ip_authority_public_keys := ip_authority_public_keys p; ip_signature_threshold := ip_signature_threshold p;
  ip_max_authorization_base_units := ip_max_authorization_base_units p;
  ip_max_cumulative_supply_base_units := ip_max_cumulative_supply_base_units p;
  ip_max_authorization_lifetime_seconds := ip_max_authorization_lifetime_seconds p;
  ip_valid_from := ip_valid_from p; ip_expires_at := ip_expires_at p; ip_source_revision := ip_source_revision p;
  ip_approval_receipts := ip_approval_receipts p; ip_commitment := commitment |}.

Definition build_production_issuance_policy_json (draft_json : rstring) : validation Value :=
  value ← ok_or (from_str draft_json) (validation_error bad_policy "production issuance policy draft JSON");
  fields ← ok_or (match value with VObject fields => Some fields | _ => None end)
    (validation_error bad_policy "production issuance policy draft must be an object");
  invalid (contains_key fields "commitment_sha256")
    bad_policy "production issuance policy build input must omit commitment_sha256";;
  policy ← ok_or (policy_from_value (VObject (fields ++ [(lit "commitment_sha256", VString (to_hex (zeros 32)))])))
    (validation_error bad_policy "production issuance policy draft");
  let policy := with_commitment policy (production_issuance_policy_commitment policy) in
  validate_production_issuance_policy policy (ip_deployment_id policy) (ip_registry_version policy) (ip_asset_id policy)
    (ip_commitment policy);;
  Ok (policy_to_value policy).

(** The summary the two verifiers return. *)
Definition verify_production_issuance_policy_json (policy_json expected_deployment_id : rstring)
    (expected_registry_version : Z) (expected_asset_id expected_policy_commitment : rstring)
  : validation ProductionIssuancePolicy :=
  policy ← ok_or (from_str policy_json ≫= policy_from_value) (validation_error bad_policy "production issuance policy JSON");
  validate_production_issuance_policy policy expected_deployment_id expected_registry_version expected_asset_id
    expected_policy_commitment;;
  Ok policy.

Definition verify_production_mint_authorization_json (policy_json authorization_json expected_deployment_id : rstring)
    (expected_registry_version : Z)
    (expected_registry_commitment expected_asset_id expected_policy_commitment expected_to_owner : rstring)
    (expected_amounts : list Z) (now : Z) : validation (bytes * ProductionIssuancePolicy * ProductionMintAuthorization) :=
  policy ← ok_or (from_str policy_json ≫= policy_from_value) (validation_error bad_policy "production issuance policy JSON");
  authorization ← ok_or (from_str authorization_json ≫= authorization_from_value)
    (validation_error not_authorized "production mint authorization JSON");
  validate_production_issuance_policy policy expected_deployment_id expected_registry_version expected_asset_id
    expected_policy_commitment;;
  invalid (negb (bool_decide (ma_registry_commitment authorization = expected_registry_commitment)))
    not_authorized "production mint authorization belongs to another registry release";;
  digest ← verify_production_mint_authorization policy authorization expected_registry_version expected_policy_commitment
    expected_to_owner expected_amounts now;
  Ok (digest, policy, authorization).
End issuance.

(** ** Lemmas *)

Lemma invalid_Ok cond code message u : invalid cond code message = Ok u ↔ cond = false.
Proof. unfold invalid. rewrite ensure_Ok. apply negb_true_iff. Qed.

Lemma invalid_false cond code message : cond = false → invalid cond code message = Ok tt.
Proof. by intros ->. Qed.

Lemma text_error_Ok {A} code (r : result (halt string) A) a : text_error code r = Ok a ↔ r = Ok a.
Proof. apply map_refused_Ok. Qed.

(** The successful run of a chain of checks. *)
Ltac inv_checks :=
  repeat match goal with
  | E : _ ≫= _ = Ok _ |- _ => apply bind_Ok in E as (? & ? & E)
  | E : invalid _ _ _ = Ok _ |- _ => apply invalid_Ok in E
  | E : ok_or _ _ = Ok _ |- _ => apply ok_or_Ok in E
  | E : text_error _ _ = Ok _ |- _ => apply text_error_Ok in E
  | E : map_refused _ _ = Ok _ |- _ => apply map_refused_Ok in E
  end; bool_props.

(** Strictly increasing texts are distinct: the loop test [previous.is_some_and(|p| p >= x)] never holds. *)
Fixpoint increasing (previous : option rstring) (l : list rstring) : Prop :=
  match l with
  | [] => True
  | x :: l => match previous with Some p => str_ltb p x = true | None => True end ∧ increasing (Some x) l
  end.

Lemma increasing_above l : ∀ p, increasing (Some p) l → Forall (λ x, str_ltb p x = true) l.
Proof.
  induction l as [|x l IH]; intros p; [constructor|]. intros [Hp Hl]. constructor; [done|].
  eapply Forall_impl; [by apply IH|]. intros y Hy. by eapply str_ltb_trans.
Qed.

Lemma increasing_NoDup previous l : increasing previous l → NoDup l.
Proof.
  revert previous; induction l as [|x l IH]; intros previous; [constructor|]. intros [_ Hl]. constructor; [|by eapply IH].
  intros Hin. apply increasing_above in Hl. rewrite Forall_forall in Hl. specialize (Hl x Hin). by rewrite str_ltb_irrefl in Hl.
Qed.

Lemma previous_test previous x :
  match previous with Some p => negb (str_ltb p x) | None => false end = false →
  match previous with Some p => str_ltb p x = true | None => True end.
Proof. destruct previous; [apply negb_false_iff|done]. Qed.

Section issuance_facts.
Context `{Sha256, IssuanceCodec, MintKeys, OutPointText, UrlParser}.

(** A member key: a canonical secp256k1 key in lowercase hexadecimal. *)
Definition canonical_key (encoded : rstring) (key : bytes) : Prop :=
  encoded = to_hex key ∧ key_from_slice key = Some key.

Lemma authority_keys_Ok l : ∀ previous keys out, authority_keys previous keys l = Ok out →
  increasing previous l ∧ Forall (λ x, ∃ key, canonical_key x key) l ∧ (size out ≤ size keys + length l)%nat.
Proof.
  induction l as [|x l IH]; intros previous keys out E; cbn [authority_keys] in E.
  - injection E as <-. split_and!; [done|constructor|cbn; lia].
  - apply bind_Ok in E as (b & E1 & E). apply bind_Ok in E as (key & E2 & E). apply ok_or_Ok in E2.
    apply bind_Ok in E as ([] & E3 & E). apply invalid_Ok, orb_false_iff in E3 as [E3 E4].
    apply bind_Ok in E as ([] & E5 & E). apply invalid_Ok in E5. bool_props. subst b x.
    apply previous_test in E5. destruct (IH _ _ _ E) as (IH1 & IH2 & IH3). split_and!; [done| |].
    + constructor; [by exists key|done].
    + assert (size ({[key]} ∪ keys) ≤ 1 + size keys)%nat as Hs.
      { rewrite size_union_alt, size_singleton. apply le_n_S, subseteq_size. set_solver. }
      cbn [length]. lia.
Qed.

Lemma policy_Ok p deployment version asset commitment :
  validate_production_issuance_policy p deployment version asset commitment = Ok tt →
  ip_deployment_id p = deployment ∧ ip_registry_version p = version ∧ ip_asset_id p = asset ∧
  ip_commitment p = commitment ∧ production_issuance_policy_commitment p = commitment ∧
  increasing None (ip_authority_public_keys p) ∧
  Forall (λ x, ∃ key, canonical_key x key) (ip_authority_public_keys p) ∧
  2 ≤ ip_signature_threshold p ≤ Z.of_nat (length (ip_authority_public_keys p)) ∧
  ip_max_authorization_base_units p ≤ ip_max_cumulative_supply_base_units p.
Proof.
  intros E. unfold validate_production_issuance_policy in E. inv_checks.
  repeat match goal with F : _ || _ = false |- _ => apply orb_false_iff in F as [? ?] end. bool_props.
  match goal with F : authority_keys _ _ _ = Ok _ |- _ => apply authority_keys_Ok in F as (K1 & K2 & K3) end.
  rewrite size_empty in K3. split_and!; try done; try congruence; lia.
Qed.

(** A signature of the list, by one of the permitted keys. *)
Definition signed_by (digest : bytes) (permitted : list rstring) (s : ProductionAuthoritySignature) : Prop :=
  as_authority_public_key s ∈ permitted ∧
  ∃ key bytes sig, ffi_from_hex (as_authority_public_key s) = Ok bytes ∧ key_from_slice bytes = Some key ∧
    (∃ compact, from_hex_array 64 (as_signature_compact s) = Ok compact ∧ from_compact compact = Some sig) ∧
    compact_normalize_s sig = sig ∧ verify_compact sig digest key = true.

Lemma verify_signatures_Ok digest permitted l : ∀ previous, verify_signatures digest permitted previous l = Ok tt →
  increasing previous (as_authority_public_key <$> l) ∧ Forall (signed_by digest permitted) l.
Proof.
  induction l as [|x l IH]; intros previous E; cbn [verify_signatures] in E; [by split|].
  apply bind_Ok in E as ([] & E1 & E). apply invalid_Ok, previous_test in E1.
  inv_checks. destruct (IH _ E) as [IH1 IH2]. split; [by split|]. constructor; [|done]. split; [done|]. eauto 10.
Qed.

Lemma checked_sum_Some l : ∀ sum total, checked_sum sum l = Some total → total = sum + foldr Z.add 0 l ∧ (l ≠ [] → total ≤ u64_max).
Proof.
  induction l as [|x l IH]; intros sum total E; cbn in E; [injection E as <-; cbn; split; [lia|done]|].
  unfold checked_add64 in E. destruct (decide _) as [Hs|]; [|done]. cbn in E. destruct (IH _ _ E) as [IH1 IH2].
  cbn. split; [lia|]. intros _. destruct l; [cbn in IH1; lia|by apply IH2].
Qed.

(** What a verified authorization promises about the supply. *)
Lemma verified_supply p a version commitment to amounts now digest :
  verify_production_mint_authorization p a version commitment to amounts now = Ok digest →
  (1 ≤ length (ma_amounts a) ≤ 2)%nat ∧ 0 ∉ ma_amounts a ∧ ma_sequence a ≠ 0 ∧
  ma_supply_after a = ma_supply_before a + foldr Z.add 0 (ma_amounts a) ∧
  foldr Z.add 0 (ma_amounts a) ≤ ip_max_authorization_base_units p ∧
  ma_supply_after a ≤ ip_max_cumulative_supply_base_units p ∧ ma_supply_after a ≤ u64_max ∧
  ip_valid_from p ≤ ma_not_before a ≤ now ∧ now ≤ ma_expires_at a ≤ ip_expires_at p ∧
  ma_to_owner a = to ∧ ma_amounts a = amounts ∧ ma_authorization_id a = to_hex digest ∧
  digest = production_mint_authorization_digest a ∧ ip_asset_id p = ma_asset_id a ∧ ip_commitment p = commitment ∧
  ip_registry_version p = version ∧ ma_issuance_policy_commitment a = commitment.
Proof.
  intros E. unfold verify_production_mint_authorization in E. inv_checks.
  repeat match goal with F : _ || _ = false |- _ => apply orb_false_iff in F as [? ?] end. bool_props.
  injection E as <-.
  match goal with F : validate_production_issuance_policy _ _ _ _ _ = Ok ?u |- _ => destruct u; apply policy_Ok in F;
    destruct F as (P1 & P2 & P3 & P4 & _) end.
  match goal with F : checked_sum _ _ = Some _ |- _ => apply checked_sum_Some in F as [T _] end.
  match goal with F : checked_add64 _ _ = Some _ |- _ => unfold checked_add64 in F; destruct (decide _); [|done];
    injection F as F end.
  assert (length (ma_amounts a) ≠ 0%nat) by (destruct (ma_amounts a); done).
  split_and!; try done; try congruence; try lia.
Qed.


End issuance_facts.

Section policy_json.
Context `{Sha256, IssuanceCodec, MintKeys, OutPointText, UrlParser, !Serde, !IssuanceJson, !IssuanceJsonLaws _}.

(** a policy the builder returns carries the commitment of its exact payload and verifies under its own
    deployment, registry version, asset and commitment. *)
Theorem built_policy_verifies draft v json : build_production_issuance_policy_json draft = Ok v → from_str json = Some v →
  ∃ p, v = policy_to_value p ∧ ip_commitment p = production_issuance_policy_commitment p ∧
    verify_production_issuance_policy_json json (ip_deployment_id p) (ip_registry_version p) (ip_asset_id p) (ip_commitment p)
      = Ok p.
Proof.
  unfold build_production_issuance_policy_json. intros E Ej. inv_checks. injection E as <-.
  match goal with F : validate_production_issuance_policy ?p _ _ _ _ = Ok ?u |- _ => destruct u; exists p; rename F into V end.
  split_and!; [done|done|]. unfold verify_production_issuance_policy_json. rewrite Ej. cbn [mbind option_bind].
  rewrite policy_value_roundtrip. cbn [ok_or mbind result_bind]. rewrite V. done.
Qed.
End policy_json.
