(* ===== verification/Registry.v ===== *)
(** * The production registry of the account wallet (ffi)

    The release validation and the registry floor of [ffi/src/account.rs]: the committed
    payload of a release, its rollout caps and issuer list, the references to issuance
    policies, and the durable floor that refuses a rollback or a reused version.  JSON
    encodings are parameters; database calls are taken to succeed. *)

From S2P Require Import Prelude Text Field Commitments Kernel Anchor Batch Chain Accept Wire Block Bitcoin Instrument.
From S2P Require Import Network Peer FullScan Scan Rpc BatchV2 AccountText AccountTypes Issuance.
#[local] Open Scope Z_scope.

Definition FORMAT_V1 : Z := 1.
Definition FORMAT_V2 : Z := 2.
Definition MIN_FEE_RESERVE_SATS : Z := 2500.
Definition MAX_LOCAL_BATCH_RECIPIENTS : nat := MAX_BATCH_V2_PARTICIPANTS.

Definition config_error (message : string) : halt AccountError := Refused (account_error "invalid_config" message).
Definition bad_config (cond : bool) (message : string) : account () := reject cond "invalid_config" message.

(** ** The committed payloads *)
Record RegistryPayload := {
  rp_domain : string;
  rp_format_version : Z;
  rp_registry_version : Z;
  rp_deployment_id : rstring;
  rp_issuers : list UsdIssuerPolicy;
  rp_rollout : ProductionRolloutPolicy;
  rp_source_revision : rstring;
  rp_approval_receipts : list rstring;
}.
Record RegistryPayloadV2 := { rp_base : RegistryPayload; rp_issuance_policy_commitments : list ProductionIssuancePolicyRef }.

Record RolloutAuthorizationPayload := {
  ra_domain : string;
  ra_deployment_id : rstring;
  ra_operation_identity : rstring;
  ra_release_commitment : rstring;
}.

(** [serde_json] at the types of this file. *)
Class RegistryCodec := {
  registry_payload_json : RegistryPayload → bytes;
  registry_payload_v2_json : RegistryPayloadV2 → bytes;
  rollout_authorization_json : RolloutAuthorizationPayload → bytes;
  floor_to_string : ProductionUsdRegistryFloor → rstring;
  floor_from_string : rstring → option ProductionUsdRegistryFloor;
  release_from_value : Value → option ProductionUsdRegistryRelease;
  release_to_value : ProductionUsdRegistryRelease → Value;
}.
Class RegistryCodecLaws (C : RegistryCodec) : Prop := {
  floor_roundtrip : ∀ f, floor_from_string (floor_to_string f) = Some f;
}.

(** ** Rollout caps *)
Definition validate_production_rollout_policy (p : ProductionRolloutPolicy) : account () :=
  bad_config ((max_transfer_base_units p =? 0) || (max_batch_total_base_units p =? 0) ||
              (max_rolling_24h_outgoing_base_units p =? 0) || (max_rolling_24h_operations p =? 0) ||
              (max_reserve_allocation_sats p =? 0) || (max_miner_fee_sats p =? 0))
    "production rollout limits must all be positive";;
  bad_config ((max_batch_total_base_units p <? max_transfer_base_units p) ||
              (max_rolling_24h_outgoing_base_units p <? max_batch_total_base_units p))
    "production transfer limit must not exceed batch or rolling-day limits";;
  let protocol_max := if Z.of_nat MAX_LOCAL_BATCH_RECIPIENTS <=? u8_max then Z.of_nat MAX_LOCAL_BATCH_RECIPIENTS else u8_max in
  bad_config ((max_batch_recipients p =? 0) || (protocol_max <? max_batch_recipients p))
    "production batch recipient limit is outside the protocol's range";;
  if 2 <=? max_batch_recipients p then
    fee_cells ← ok_or (n ← checked_mul64 (max_batch_recipients p) 3; checked_mul64 n MIN_FEE_RESERVE_SATS)
      (config_error "production reserve allocation overflows");
    stocks ← ok_or (checked_mul64 3 MIN_OUTPUT_SATS) (config_error "production reserve allocation overflows");
    minimum ← ok_or (checked_add64 stocks fee_cells) (config_error "production reserve allocation overflows");
    bad_config (max_reserve_allocation_sats p <? minimum)
      "production reserve allocation must cover the configured batch limit"
  else Ok tt.

Section registry.
Context `{Poseidon, Sha256, UrlParser, RegistryCodec}.

(** ** Issuers *)
Definition issuer_asset_id (i : UsdIssuerPolicy) : rstring := hex_encode (genesis_asset_id (im_genesis (ui_manifest i))).

Fixpoint issuer_loop (network : rstring) (asset_ids : list rstring) (issuers : list UsdIssuerPolicy) : account () :=
  match issuers with
  | [] => Ok tt
  | issuer :: issuers =>
    match instrument_validate (ui_manifest issuer) with
    | Ok _ => Ok tt
    | Err _ => Err (config_error "USD issuer manifest")
    end;;
    bad_config (negb (bool_decide (it_network (im_terms (ui_manifest issuer)) = network)))
      "USD issuer manifest belongs to another network";;
    bad_config (negb (bool_decide (unit_code (im_terms (ui_manifest issuer)) = lit "USD")))
      "USD issuer policy accepts only manifests with unit code USD";;
    bad_config (bool_decide (issuer_asset_id issuer ∈ asset_ids)) "USD issuer policy contains a duplicate asset id";;
    issuer_loop network (issuer_asset_id issuer :: asset_ids) issuers
  end.

Definition validate_usd_issuer_policies (issuers : list UsdIssuerPolicy) (network : rstring) : account () :=
  issuer_loop network [] issuers.

(** ** Releases *)
Definition registry_payload (domain : string) (r : ProductionUsdRegistryRelease) : RegistryPayload := {|
  rp_domain := domain; rp_format_version := rr_format_version r; rp_registry_version := rr_registry_version r;
  rp_deployment_id := rr_deployment_id r; rp_issuers := rr_issuers r; rp_rollout := rr_rollout r;
  rp_source_revision := rr_source_revision r; rp_approval_receipts := rr_approval_receipts r |}.

Definition canonical_release (r : ProductionUsdRegistryRelease) : account bytes :=
  if rr_format_version r =? FORMAT_V1 then Ok (registry_payload_json (registry_payload "OpenCSV-production-USD-registry-v1" r))
  else if rr_format_version r =? FORMAT_V2 then
    Ok (registry_payload_v2_json {| rp_base := registry_payload "OpenCSV-production-USD-registry-v2" r;
          rp_issuance_policy_commitments := rr_issuance_policy_commitments r |})
  else Err (config_error "unsupported production USD registry format version").

Definition production_usd_registry_commitment (r : ProductionUsdRegistryRelease) : account rstring :=
  canonical ← canonical_release r;
  Ok (to_hex (sha256 canonical)).

Definition production_rollout_authorization_digest (deployment_id operation_identity release_commitment : rstring) : bytes :=
  sha256 (rollout_authorization_json {| ra_domain := "OpenCSV-production-rollout-authorization-v1";
    ra_deployment_id := deployment_id; ra_operation_identity := operation_identity;
    ra_release_commitment := release_commitment |}).

Fixpoint policy_ref_loop (admitted : list rstring) (previous : option rstring) (l : list ProductionIssuancePolicyRef) : account () :=
  match l with
  | [] => Ok tt
  | policy :: l =>
    validate_hex_32_config (ir_asset_id policy);;
    validate_hex_32_config (ir_policy_commitment policy);;
    bad_config (match previous with Some p => negb (str_ltb p (ir_asset_id policy)) | None => false end)
      "production issuance policy references must be unique and sorted by asset id";;
    bad_config (negb (bool_decide (ir_asset_id policy ∈ admitted)))
      "production issuance policy references an asset absent from the exact consumer registry";;
    policy_ref_loop admitted (Some (ir_asset_id policy)) l
  end.

Definition validate_production_issuance_policy_refs (r : ProductionUsdRegistryRelease) : account () :=
  if rr_format_version r =? FORMAT_V1 then
    bad_config (negb (bool_decide (length (rr_issuance_policy_commitments r) = 0%nat)))
      "production registry format version one cannot authorize issuance policies"
  else policy_ref_loop (issuer_asset_id <$> rr_issuers r) None (rr_issuance_policy_commitments r).

Fixpoint approval_loop (urls receipts : list rstring) : account () :=
  match receipts with
  | [] => Ok tt
  | receipt :: receipts =>
    parsed ← ok_or (url_parse receipt)
      (config_error "production USD registry approval receipts must be valid HTTPS URLs");
    bad_config (negb (bool_decide (parsed.1 = lit "https")) || bool_decide (parsed.2 = None))
      "production USD registry approval receipts must be valid HTTPS URLs";;
    bad_config (bool_decide (receipt ∈ urls)) "production USD registry contains a duplicate approval receipt";;
    approval_loop (receipt :: urls) receipts
  end.

Definition validate_production_usd_registry_release (r : ProductionUsdRegistryRelease) (expected_deployment_id : rstring)
  : account () :=
  validate_deployment_identity (lit "mainnet") (rr_deployment_id r);;
  bad_config (negb ((rr_format_version r =? FORMAT_V1) || (rr_format_version r =? FORMAT_V2)))
    "unsupported production USD registry format version";;
  bad_config (rr_registry_version r =? 0) "production USD registry version must be nonzero";;
  validate_production_issuance_policy_refs r;;
  bad_config (negb (bool_decide (rr_deployment_id r = expected_deployment_id)))
    "production USD registry belongs to another deployment";;
  bad_config (negb ((bool_decide (length (utf8 (rr_source_revision r)) = 40%nat) ||
                     bool_decide (length (utf8 (rr_source_revision r)) = 64%nat)) &&
                    forallb lower_hex (utf8 (rr_source_revision r))))
    "production USD registry source revision must be a 40- or 64-character lowercase hex digest";;
  bad_config (bool_decide (rr_approval_receipts r = []))
    "production USD registry needs at least one public approval receipt";;
  approval_loop [] (rr_approval_receipts r);;
  validate_production_rollout_policy (rr_rollout r);;
  (if negb (bool_decide (phase (rr_rollout r) = Candidate)) then
     bad_config (bool_decide (length (rr_issuers r) = 0%nat))
       "an activated production USD registry must contain at least one exact issuer";;
     bad_config (forallb (λ b, bval b =? 0x30) (utf8 (rr_source_revision r)))
       "an activated production USD registry cannot use the placeholder source revision"
   else Ok tt);;
  validate_usd_issuer_policies (rr_issuers r) (lit "mainnet");;
  validate_hex_32_config (rr_commitment r);;
  expected ← production_usd_registry_commitment r;
  bad_config (negb (bool_decide (rr_commitment r = expected)))
    "production USD registry commitment does not match its exact release payload".

(** [&mut AccountConfig]: the updated configuration is returned. *)
Definition prepare_production_usd_registry (c : AccountConfig) : account AccountConfig :=
  if negb (bool_decide (cf_network c = lit "mainnet")) then
    match cf_production_usd_registry c with
    | Some _ => Err (config_error "production USD registry releases are mainnet-only")
    | None => Ok c
    end
  else
    bad_config (negb (bool_decide (length (cf_usd_issuers c) = 0%nat)))
      "mainnet USD issuers must come from a versioned production registry release";;
    match cf_production_usd_registry c with
    | None => Ok c
    | Some release =>
      validate_production_usd_registry_release release (cf_deployment_id c);;
      let limit := max_miner_fee_sats (rr_rollout release) in
      Ok (with_issuers (rr_issuers release)
            (Some (match cf_max_fee_sats c with Some host => Z.min host limit | None => limit end)) c)
    end.

(** ** Building and verifying a release *)
Context `{!Serde}.

Definition with_release_commitment (r : ProductionUsdRegistryRelease) (commitment : rstring) : ProductionUsdRegistryRelease := {|
  rr_format_version := rr_format_version r; rr_registry_version := rr_registry_version r;
  rr_deployment_id := rr_deployment_id r; rr_issuers := rr_issuers r; rr_rollout := rr_rollout r;
  rr_source_revision := rr_source_revision r; rr_approval_receipts := rr_approval_receipts r;
  rr_issuance_policy_commitments := rr_issuance_policy_commitments r; rr_commitment := commitment |}.

Definition build_production_usd_registry_release (draft_json : rstring) : account Value :=
  value ← ok_or (from_str draft_json) (config_error "production registry draft JSON");
  fields ← ok_or (match value with VObject fields => Some fields | _ => None end)
    (config_error "production registry draft must be an object");
  bad_config (contains_key fields "commitment_sha256") "production registry build input must omit commitment_sha256";;
  release ← ok_or (release_from_value (VObject (fields ++ [(lit "commitment_sha256", VString (to_hex (zeros 32)))])))
    (config_error "production registry draft");
  commitment ← production_usd_registry_commitment release;
  let release := with_release_commitment release commitment in
  validate_production_usd_registry_release release (rr_deployment_id release);;
  Ok (release_to_value release).

(** The summary is that of the release. *)
Definition verify_production_usd_registry_release (release_json expected_deployment_id : rstring)
  : account ProductionUsdRegistryRelease :=
  release ← ok_or (from_str release_json ≫= release_from_value) (config_error "production registry release JSON");
  validate_deployment_identity (lit "mainnet") expected_deployment_id;;
  validate_production_usd_registry_release release expected_deployment_id;;
  Ok release.
End registry.

(** ** The configured issuance policies (issuer tools) *)
Section issuance_policies.
Context `{Sha256, IssuanceCodec, MintKeys, OutPointText, UrlParser}.

Definition find_reference (asset : rstring) (l : list ProductionIssuancePolicyRef) : option ProductionIssuancePolicyRef :=
  find_first (λ r, bool_decide (ir_asset_id r = asset)) l.
Definition find_policy (asset : rstring) (l : list ProductionIssuancePolicy) : option ProductionIssuancePolicy :=
  find_first (λ p, bool_decide (ip_asset_id p = asset)) l.

Fixpoint configured_policy_loop (deployment_id : rstring) (release : ProductionUsdRegistryRelease)
    (previous : option rstring) (l : list ProductionIssuancePolicy) : account () :=
  match l with
  | [] => Ok tt
  | policy :: l =>
    bad_config (match previous with Some p => negb (str_ltb p (ip_asset_id policy)) | None => false end)
      "configured production issuance policies must be unique and sorted by asset id";;
    reference ← ok_or (find_reference (ip_asset_id policy) (rr_issuance_policy_commitments release))
      (config_error "configured production issuance policy is absent from the exact registry release");
    of_validation (validate_production_issuance_policy policy deployment_id (rr_registry_version release)
      (ir_asset_id reference) (ir_policy_commitment reference));;
    configured_policy_loop deployment_id release (Some (ip_asset_id policy)) l
  end.

Definition validate_configured_production_issuance_policies (c : AccountConfig) : account () :=
  if bool_decide (length (cf_production_issuance_policies c) = 0%nat) then Ok tt else
  bad_config (negb (bool_decide (cf_network c = lit "mainnet"))) "production issuance policies are mainnet-only";;
  release ← ok_or (cf_production_usd_registry c)
    (config_error "production issuance policies require an exact consumer registry release");
  bad_config (negb (rr_format_version release =? FORMAT_V2))
    "production issuance policies require registry format version two";;
  configured_policy_loop (cf_deployment_id c) release None (cf_production_issuance_policies c).
End issuance_policies.

(** ** The floor *)

(** The table [opencsv_account_meta]. *)
Abbreviation Meta := (gmap (list Z) rstring).
Definition meta (db : Meta) (key : string) : option rstring := db !! lit key.
Definition set_meta (key : string) (value : rstring) (db : Meta) : Meta := <[lit key := value]> db.

Section floor.
Context `{RegistryCodec}.

Definition floor_key : string := "production_usd_registry_floor".

Definition read_production_usd_registry_floor (db : Meta) : account (option ProductionUsdRegistryFloor) :=
  match meta db floor_key with
  | None => Ok None
  | Some encoded =>
    floor ← ok_or (floor_from_string encoded) (Refused (account_error "database_corrupt" "production USD registry floor"));
    reject ((fl_registry_version floor =? 0) || negb (is_ok (validate_hex_32_config (fl_commitment floor))))
      "database_corrupt" "production USD registry floor is malformed";;
    Ok (Some floor)
  end.

Definition write_production_usd_registry_floor (floor : ProductionUsdRegistryFloor) (db : Meta) : Meta :=
  set_meta floor_key (floor_to_string floor) db.

Definition supplied_floor (r : ProductionUsdRegistryRelease) : ProductionUsdRegistryFloor :=
  {| fl_registry_version := rr_registry_version r; fl_commitment := rr_commitment r |}.

(** [config.usd_issuers.clear()] *)
Definition clear_issuers (c : AccountConfig) : AccountConfig := with_issuers [] (cf_max_fee_sats c) c.

(** The state of the program is the database and the configuration. *)
Definition reconcile_production_usd_registry_floor :
  prog (halt AccountError) (Meta * AccountConfig) ProductionUsdRegistryState := λ '(db, c),
  if negb (bool_decide (cf_network c = lit "mainnet")) then (Ok NotApplicable, (db, c)) else
  match read_production_usd_registry_floor db with
  | Err e => (Err e, (db, c))
  | Ok stored =>
    match cf_production_usd_registry c with
    | None => (Ok Unconfigured, (db, clear_issuers c))
    | Some release =>
      let supplied := supplied_floor release in
      match stored with
      | None => (Ok Current, (write_production_usd_registry_floor supplied db, c))
      | Some stored =>
        if fl_registry_version supplied <? fl_registry_version stored then (Ok Rollback, (db, clear_issuers c))
        else if (fl_registry_version supplied =? fl_registry_version stored) &&
                negb (bool_decide (fl_commitment supplied = fl_commitment stored))
        then (Ok Conflict, (db, clear_issuers c))
        else if fl_registry_version stored <? fl_registry_version supplied
        then (Ok Current, (write_production_usd_registry_floor supplied db, c))
        else (Ok Current, (db, c))
      end
    end
  end.

Definition production_usd_registry_floor_from_checkpoint (network : rstring) (db : Meta)
    (checkpoint_floor : option ProductionUsdRegistryFloor) : account (option ProductionUsdRegistryFloor) :=
  if negb (bool_decide (network = lit "mainnet")) then
    reject (bool_decide (is_Some checkpoint_floor)) "invalid_backup_checkpoint"
      "a testnet checkpoint cannot contain a production USD registry floor";;
    Ok None
  else
    checkpoint_floor ← ok_or checkpoint_floor
      (Refused (account_error "deployment_mismatch" "production Secure Backup checkpoint has no registry-version floor"));
    reject (fl_registry_version checkpoint_floor =? 0) "invalid_backup_checkpoint"
      "production registry checkpoint version must be nonzero";;
    reject (negb (is_ok (validate_hex_32_config (fl_commitment checkpoint_floor)))) "invalid_backup_checkpoint"
      "production registry checkpoint commitment is malformed";;
    stored ← read_production_usd_registry_floor db;
    reject (match stored with
            | Some stored => (fl_registry_version stored =? fl_registry_version checkpoint_floor) &&
                             negb (bool_decide (fl_commitment stored = fl_commitment checkpoint_floor))
            | None => false end)
      "production_registry_conflict" "Secure Backup reuses a production registry version with different committed bytes";;
    Ok (if match stored with Some stored => fl_registry_version stored <? fl_registry_version checkpoint_floor | None => true end
        then Some checkpoint_floor else None).
End floor.

(** ** Lemmas: the floor *)
Section floor_facts.
Context `{Poseidon, Sha256, UrlParser, RegistryCodec, !RegistryCodecLaws _}.

(** A configuration that [open_device_bound] has prepared. *)
Definition prepared (c : AccountConfig) : Prop := ∃ c0, prepare_production_usd_registry c0 = Ok c.

Definition committed (r : ProductionUsdRegistryRelease) : Prop :=
  production_usd_registry_commitment r = Ok (rr_commitment r) ∧ rr_registry_version r ≠ 0 ∧
  validate_hex_32_config (rr_commitment r) = Ok tt.

Lemma release_committed r d : validate_production_usd_registry_release r d = Ok tt → committed r.
Proof.
  unfold validate_production_usd_registry_release, bad_config. intros E.
  repeat match goal with F : _ ≫= _ = Ok _ |- _ => apply bind_Ok in F as (? & ? & F) end.
  repeat match goal with F : reject _ _ _ = Ok _ |- _ => apply reject_Ok in F end. bool_props. unfold committed.
  match goal with F : validate_hex_32_config _ = Ok ?u |- _ => destruct u end. split_and!; [by subst|done|done].
Qed.

Lemma prepared_release c r : prepared c → cf_production_usd_registry c = Some r → committed r.
Proof.
  intros (c0 & E) Hr. unfold prepare_production_usd_registry in E. destruct (negb _).
  - destruct (cf_production_usd_registry c0) eqn:Er; [done|]. injection E as <-. congruence.
  - apply bind_Ok in E as ([] & _ & E). destruct (cf_production_usd_registry c0) as [r0|] eqn:Er; [|injection E as <-; congruence].
    apply bind_Ok in E as ([] & V & E). injection E as <-. cbn [with_issuers cf_production_usd_registry] in Hr.
    rewrite Er in Hr. injection Hr as <-. by eapply release_committed.
Qed.

Definition good_floor (f : ProductionUsdRegistryFloor) : Prop :=
  fl_registry_version f ≠ 0 ∧ validate_hex_32_config (fl_commitment f) = Ok tt.

Lemma committed_floor r : committed r → good_floor (supplied_floor r).
Proof. by intros (_ & ? & ?). Qed.

Lemma read_write f db : good_floor f →
  read_production_usd_registry_floor (write_production_usd_registry_floor f db) = Ok (Some f).
Proof.
  intros [Hv Hc]. unfold read_production_usd_registry_floor, write_production_usd_registry_floor, meta, set_meta.
  rewrite lookup_insert_eq, floor_roundtrip. cbn [ok_or mbind result_bind]. rewrite Hc.
  rewrite reject_false; [done|]. cbn. rewrite orb_false_r. by apply Z.eqb_neq.
Qed.

(** The order of floors: a later floor has a larger version, or is the same floor. *)
Definition floor_le (a b : option ProductionUsdRegistryFloor) : Prop :=
  match a, b with
  | None, _ => True
  | Some _, None => False
  | Some f, Some g => fl_registry_version f < fl_registry_version g ∨ f = g
  end.

#[export] Instance floor_le_preorder : PreOrder floor_le.
Proof.
  split.
  - intros [f|]; cbn; [by right|done].
  - intros [f|] [g|] [h|]; cbn; try done. intros [Ha| ->] [Hb| ->]; [left; lia|by left|by left|by right].
Qed.

(** Everything that touches the floor: opening the account with a prepared configuration, and restoring a
    checkpoint into it. *)
Inductive FloorEvent := Opened (c : AccountConfig) | RestoredFloor (network : rstring) (f : option ProductionUsdRegistryFloor).

Definition open_floor (c : AccountConfig) (db : Meta) : account ProductionUsdRegistryState * Meta :=
  let '(r, (db, _)) := reconcile_production_usd_registry_floor (db, c) in (r, db).

Definition floor_event (e : FloorEvent) (db : Meta) : Meta :=
  match e with
  | Opened c => (open_floor c db).2
  | RestoredFloor network f =>
    match production_usd_registry_floor_from_checkpoint network db f with
    | Ok (Some floor) => write_production_usd_registry_floor floor db
    | _ => db
    end
  end.

Definition event_prepared (e : FloorEvent) : Prop := match e with Opened c => prepared c | RestoredFloor _ _ => True end.

(** Opening: the floor that is read afterwards. *)
Lemma open_floor_spec c db floor : prepared c → read_production_usd_registry_floor db = Ok floor →
  ∃ floor', read_production_usd_registry_floor (open_floor c db).2 = Ok floor' ∧ floor_le floor floor' ∧
    ((open_floor c db).1 = Ok Current → ∃ r, cf_production_usd_registry c = Some r ∧ floor' = Some (supplied_floor r)).
Proof.
  intros Hp Hr. unfold open_floor, reconcile_production_usd_registry_floor. destruct (negb _).
  { exists floor. split_and!; [done|done|by intros [=]]. }
  rewrite Hr. destruct (cf_production_usd_registry c) as [r|] eqn:Ec.
  2:{ exists floor. split_and!; [done|done|by intros [=]]. }
  pose proof (committed_floor r (prepared_release _ _ Hp Ec)) as Hg.
  destruct floor as [f|].
  2:{ exists (Some (supplied_floor r)). cbn [fst snd]. rewrite read_write by done. split_and!; [done|done|eauto]. }
  destruct (_ <? _) eqn:E1; bool_props; [exists (Some f); split_and!; [done|done|by intros [=]]|].
  destruct (_ && _) eqn:E2; [exists (Some f); split_and!; [done|done|by intros [=]]|].
  destruct (fl_registry_version f <? _) eqn:E3; bool_props; cbn [fst snd].
  - exists (Some (supplied_floor r)). rewrite read_write by done. split_and!; [done|cbn [floor_le]; by left|eauto].
  - assert (f = supplied_floor r) as ->.
    { rewrite (proj2 (Z.eqb_eq _ _)) in E2 by lia. cbn [andb] in E2. bool_props.
      destruct f as [v k]. cbn in *. unfold supplied_floor. f_equal; [lia|done]. }
    exists (Some (supplied_floor r)). split_and!; [done|done|eauto].
Qed.

Lemma floor_event_spec e db floor : event_prepared e → read_production_usd_registry_floor db = Ok floor →
  ∃ floor', read_production_usd_registry_floor (floor_event e db) = Ok floor' ∧ floor_le floor floor'.
Proof.
  intros Hp Hr. destruct e as [c|network f]; cbn [floor_event].
  { destruct (open_floor_spec c db floor Hp Hr) as (f & ? & ? & _). eauto. }
  destruct (production_usd_registry_floor_from_checkpoint network db f) as [[g|]|] eqn:E; [|by exists floor..].
  unfold production_usd_registry_floor_from_checkpoint in E. destruct (negb _).
  { by apply bind_Ok in E as (? & _ & [=]). }
  apply bind_Ok in E as (k & _ & E). apply bind_Ok in E as ([] & E1 & E). apply bind_Ok in E as ([] & E2 & E).
  apply bind_Ok in E as (stored & E3 & E). apply bind_Ok in E as ([] & E4 & E). rewrite Hr in E3. injection E3 as <-.
  apply reject_Ok in E1, E2. bool_props. apply is_ok_Ok in E2 as ([] & E2).
  exists (Some g). destruct floor as [s|].
  - destruct (_ <? _) eqn:El; [|done]. injection E as ->. bool_props. rewrite read_write by done.
    split; [done|by left].
  - injection E as ->. by rewrite read_write.
Qed.

Lemma floor_events_spec events : ∀ db floor, Forall event_prepared events → read_production_usd_registry_floor db = Ok floor →
  ∃ floor', read_production_usd_registry_floor (foldl (λ db e, floor_event e db) db events) = Ok floor' ∧ floor_le floor floor'.
Proof.
  induction events as [|e events IH]; intros db floor Hf Hr; [by exists floor|]. apply Forall_cons in Hf as [He Hf].
  destruct (floor_event_spec e db floor He Hr) as (f & Hr1 & Hl1). cbn [foldl].
  destruct (IH _ f Hf Hr1) as (g & Hr2 & Hl2). exists g. split; [done|by etrans].
Qed.

(** C36: whatever opens and restores happen in between, two releases an account has taken as current carry
    increasing versions, or the same version and the same commitment - hence the same committed bytes, up
    to a collision of SHA-256. *)
Theorem registry_never_rolls_back db floor c1 c2 events db1 db2 : read_production_usd_registry_floor db = Ok floor →
  prepared c1 → prepared c2 → Forall event_prepared events →
  open_floor c1 db = (Ok Current, db1) → open_floor c2 (foldl (λ db e, floor_event e db) db1 events) = (Ok Current, db2) →
  ∃ r1 r2, cf_production_usd_registry c1 = Some r1 ∧ cf_production_usd_registry c2 = Some r2 ∧
    (rr_registry_version r1 < rr_registry_version r2 ∨
     rr_registry_version r1 = rr_registry_version r2 ∧ rr_commitment r1 = rr_commitment r2 ∧
     (canonical_release r1 = canonical_release r2 ∨ ∃ x y, x ≠ y ∧ sha256 x = sha256 y)).
Proof.
  intros Hr H1' H2' Hev E1 E2. destruct (open_floor_spec c1 db floor H1' Hr) as (f1 & R1 & _ & C1).
  rewrite E1 in R1, C1. cbn [fst snd] in *. destruct (C1 eq_refl) as (r1 & Er1 & ->).
  destruct (floor_events_spec events db1 _ Hev R1) as (f & R & L).
  destruct (open_floor_spec c2 _ f H2' R) as (f2 & _ & L2 & C2). rewrite E2 in C2. cbn [fst] in C2.
  destruct (C2 eq_refl) as (r2 & Er2 & ->). exists r1, r2. split_and!; [done..|].
  pose proof (transitivity (R := floor_le) L L2) as [Hlt|Heq]; [by left|right].
  injection Heq as Hv Hc. split_and!; [done..|].
  destruct (prepared_release _ _ H1' Er1) as (K1 & _), (prepared_release _ _ H2' Er2) as (K2 & _).
  apply bind_Ok in K1 as (x & X1 & X2), K2 as (y & Y1 & Y2). injection X2 as X2. injection Y2 as Y2.
  destruct (decide (x = y)) as [->|Hne]; [left; congruence|right]. exists x, y. split; [done|].
  assert (to_hex (sha256 x) = to_hex (sha256 y)) as Eh by congruence.
  apply (f_equal ffi_from_hex) in Eh. rewrite !ffi_from_to_hex in Eh. by injection Eh.
Qed.
End floor_facts.
