(* ===== verification/AccountGate.v ===== *)
(** * Write gates and production limits of the account wallet (ffi)

    The part of [impl AccountWallet] in [ffi/src/account.rs] that decides whether a call
    may write: the base and product gates, the observation policy mainnet needs, the
    reviewed assets, the fee limits and the transfer, batch and rolling-day caps, over the
    tables they read.  What the build flags change is the class [Build]. *)

From S2P Require Import Prelude Text Field Commitments Kernel Anchor Batch Chain Accept Wire Block Bitcoin Instrument.
From S2P Require Import Network Peer FullScan Scan Rpc BatchV2 AccountText AccountTypes Observation Issuance Registry.
#[local] Open Scope Z_scope.

(** ** The database *)
Record OperationRow := {
  op_operation_id : rstring;
  op_kind : string;
  op_state : string;
  op_request_json : rstring;
  op_funding_txid : option rstring;
  op_funding_vout : option Z;
  op_signed_tx_hex : option rstring;
  op_delivery_nonce : rstring;
  op_created_at : Z;
}.

Record SendBatchRow := {
  sb_batch_local_id : rstring;
  sb_state : string;
  sb_deadline_ms : Z;
  sb_participant_count : option Z;
}.

Record SendBatchMember := {
  sm_batch_local_id : rstring;
  sm_operation_id : rstring;
  sm_ordinal : Z;
  sm_added_at_ms : Z;
}.

(** A row of [opencsv_production_issuance_authorizations]; numbers are padded texts. *)
Record LedgerRow := {
  lg_asset_id : rstring;
  lg_sequence_decimal : rstring;
  lg_authorization_id : rstring;
  lg_policy_commitment : rstring;
  lg_supply_before_decimal : rstring;
  lg_supply_after_decimal : rstring;
  lg_authorization_json : rstring;
  lg_operation_id : rstring;
  lg_created_at : Z;
}.

(** A row of [opencsv_utxo_reservations]. *)
Record UtxoReservation := { ur_txid : rstring; ur_vout : Z; ur_operation_id : rstring; ur_state : string }.

(** A row of [opencsv_batch_stocks]. *)
Record BatchStock := {
  bs_txid : rstring;
  bs_vout : Z;
  bs_value_sats : Z;
  bs_state : string;
  bs_reserved_by_batch : option rstring;
}.

Record AccountDb := {
  db_meta : Meta;
  db_operations : list OperationRow;
  db_batches : list SendBatchRow;
  db_members : list SendBatchMember;
  db_ledger : list LedgerRow;
  db_reservations : list UtxoReservation;
  db_stocks : list BatchStock;
}.

(** The fields of [AccountWallet] that the modelled methods use. *)
Record AccountWallet := {
  aw_config : AccountConfig;
  aw_device_binding_valid : bool;
  aw_registry_state : ProductionUsdRegistryState;
  aw_db : AccountDb;
  aw_pending_by_operation : gmap (list Z) Z;
  aw_locked_outpoints : list OutPoint;
}.

Definition with_db (db : AccountDb) (w : AccountWallet) : AccountWallet := {|
  aw_config := aw_config w; aw_device_binding_valid := aw_device_binding_valid w;
  aw_registry_state := aw_registry_state w; aw_db := db; aw_pending_by_operation := aw_pending_by_operation w;
  aw_locked_outpoints := aw_locked_outpoints w |}.

(** [cfg(test)] and the feature [issuer-tools]. *)
Class Build := { test_assume_authenticated_proof_root : bool; issuer_tools : bool }.

Definition write_block_message (reason : string) : string :=
  if String.eqb reason "primary_required" then "linked devices are watch-only"
  else if String.eqb reason "device_binding_mismatch" then
    "this restored device is read/export-only until explicit wallet recovery"
  else if String.eqb reason "backup_required" then
    "verified Signal Secure Backup is required for Bitcoin-writing operations"
  else if String.eqb reason "production_usd_not_configured" then
    "mainnet Bitcoin-writing operations require at least one reviewed non-test USD issuer manifest"
  else if String.eqb reason "production_registry_rollback" then
    "this wallet has seen a newer production USD registry release and remains read-only"
  else if String.eqb reason "production_registry_conflict" then
    "the production USD registry reuses a version with different committed bytes"
  else if String.eqb reason "production_activation_not_authorized" then
    "this production registry is a candidate and does not authorize consumer Bitcoin writes"
  else if String.eqb reason "production_root_vk_authentication_required" then
    "mainnet Bitcoin-writing operations require an independently authenticated recursive root verification key"
  else if String.eqb reason "production_observation_policy_required" then
    "mainnet Bitcoin-writing operations require two independent pinned raw-transaction observers"
  else if String.eqb reason "production_issuance_not_authorized" then
    "mainnet issuance remains disabled"
  else "wallet writes are disabled".

Definition write_block_reasons : list string :=
  ["primary_required"; "device_binding_mismatch"; "backup_required"; "production_usd_not_configured";
   "production_registry_rollback"; "production_registry_conflict"; "production_activation_not_authorized";
   "production_root_vk_authentication_required"; "production_observation_policy_required";
   "production_issuance_not_authorized"]%string.

Definition write_block_error (reason : string) : AccountError :=
  account_error (if bool_decide (reason ∈ write_block_reasons) then reason else "write_disabled") (write_block_message reason).

Definition blocked {A} (reason : string) : account A := Err (Refused (write_block_error reason)).

(** ** Gates *)
Section gates.
Context `{Build, UrlParser}.

Definition mainnet (w : AccountWallet) : bool := bool_decide (cf_network (aw_config w) = lit "mainnet").

Definition backup_verified (w : AccountWallet) : bool :=
  bool_decide (meta (db_meta (aw_db w)) "backup_verified" = Some (lit "1")).

Definition base_write_block_reason (w : AccountWallet) : option string :=
  if negb (bool_decide (cf_role (aw_config w) = Primary)) then Some "primary_required"%string
  else if negb (aw_device_binding_valid w) then Some "device_binding_mismatch"%string
  else if negb (backup_verified w) then Some "backup_required"%string
  else None.

Definition production_usd_configured (w : AccountWallet) : bool :=
  negb (mainnet w) ||
  (bool_decide (aw_registry_state w = Current) &&
   match cf_production_usd_registry (aw_config w) with Some _ => true | None => false end &&
   negb (bool_decide (length (cf_usd_issuers (aw_config w)) = 0%nat))).

Definition production_activation_write_ready (w : AccountWallet) : bool :=
  negb (mainnet w) ||
  match cf_production_usd_registry (aw_config w) with
  | Some registry => match phase (rr_rollout registry) with Limited | General => true | Candidate => false end
  | None => false
  end.

Definition production_root_vk_authentication_ready (w : AccountWallet) : bool :=
  if negb (mainnet w) then true
  else if test_assume_authenticated_proof_root then true
  else false.

(** [str::to_ascii_lowercase] *)
Definition ascii_lower (s : rstring) : rstring := (λ c, if (0x41 <=? c) && (c <=? 0x5A) then c + 32 else c) <$> s.

Definition required_raw_host (check : ObservationCheck) : option rstring :=
  endpoint ← oc_endpoint check;
  parsed ← url_parse endpoint;
  ascii_lower <$> parsed.2.

Definition production_observation_policy_ready (w : AccountWallet) : bool :=
  if negb (mainnet w) then true else
  let checks := cf_observation_checks (aw_config w) in
  let hosts : gset (list Z) := list_to_set (omap required_raw_host
    (List.filter (λ c, required_raw c && negb (bool_decide (oc_fingerprints c = []))) checks)) in
  let direct_relay_enabled := existsb (λ c, bool_decide (oc_kind c = DirectP2pRelay) &&
                                            negb (bool_decide (oc_mode c = MOff))) checks in
  let confirmed_spv_enabled := existsb (λ c, bool_decide (oc_kind c = ConfirmedSpv) &&
                                             negb (bool_decide (oc_mode c = MOff))) checks in
  let verification_peers := if bool_decide (cf_verification_peers (aw_config w) = [])
                            then cf_peers (aw_config w) else cf_verification_peers (aw_config w) in
  let independent : gset (list Z) := list_to_set verification_peers in
  bool_decide (2 ≤ size hosts)%nat && direct_relay_enabled && confirmed_spv_enabled && bool_decide (2 ≤ size independent)%nat.

Definition require_write_enabled (w : AccountWallet) : account () :=
  match base_write_block_reason w with Some reason => blocked reason | None => Ok tt end.

Definition require_product_write_enabled (w : AccountWallet) : account () :=
  require_write_enabled w;;
  match registry_write_block_reason (aw_registry_state w) with Some reason => blocked reason | None => Ok tt end;;
  (if negb (production_usd_configured w) then blocked "production_usd_not_configured" else Ok tt);;
  (if negb (production_activation_write_ready w) then blocked "production_activation_not_authorized" else Ok tt);;
  (if negb (production_root_vk_authentication_ready w) then blocked "production_root_vk_authentication_required" else Ok tt);;
  (if negb (production_observation_policy_ready w) then blocked "production_observation_policy_required" else Ok tt).

Definition require_issuance_write_enabled (w : AccountWallet) : account () :=
  require_write_enabled w;;
  if mainnet w then
    release ← ok_or (cf_production_usd_registry (aw_config w)) (Refused (write_block_error "production_issuance_not_authorized"));
    (if negb (rr_format_version release =? FORMAT_V2) || bool_decide (length (rr_issuance_policy_commitments release) = 0%nat)
     then blocked "production_issuance_not_authorized" else Ok tt);;
    if issuer_tools then
      (if bool_decide (length (cf_production_issuance_policies (aw_config w)) = 0%nat)
       then blocked "production_issuance_not_authorized" else Ok tt);;
      require_product_write_enabled w
    else blocked "production_issuance_not_authorized"
  else Ok tt.

Definition write_block_reason (w : AccountWallet) : option string :=
  match base_write_block_reason w with
  | Some reason => Some reason
  | None =>
    match registry_write_block_reason (aw_registry_state w) with
    | Some reason => Some reason
    | None =>
      if negb (production_usd_configured w) then Some "production_usd_not_configured"%string
      else if negb (production_activation_write_ready w) then Some "production_activation_not_authorized"%string
      else if negb (production_root_vk_authentication_ready w) then Some "production_root_vk_authentication_required"%string
      else if negb (production_observation_policy_ready w) then Some "production_observation_policy_required"%string
      else None
    end
  end.

Definition write_enabled (w : AccountWallet) : bool := bool_decide (write_block_reason w = None).
End gates.

(** [set_backup_state] *)
Definition CHECKPOINT_VERSION : Z := 4.

Definition with_meta (m : Meta) (db : AccountDb) : AccountDb := {|
  db_meta := m; db_operations := db_operations db; db_batches := db_batches db; db_members := db_members db;
  db_ledger := db_ledger db; db_reservations := db_reservations db; db_stocks := db_stocks db |}.

Definition set_backup_state (verified : bool) (checkpoint_version : Z) : prog (halt AccountError) AccountWallet () :=
  Prelude.checked (reject (verified && negb (checkpoint_version =? CHECKPOINT_VERSION)) "backup_version_mismatch"
             "unexpected checkpoint version");;
  updating (λ w, with_db (with_meta (set_meta "backup_checkpoint_version" (decimal checkpoint_version)
    (set_meta "backup_verified" (lit (if verified then "1" else "0")) (db_meta (aw_db w)))) (aw_db w)) w).

(** ** Reviewed assets and fee limits *)
Section limits.
Context `{Poseidon}.

(** [decode_hex_32] may panic; its error is a plain [false]. *)
Definition is_reviewed_usd_asset (w : AccountWallet) (asset_id : rstring) : account bool :=
  match decode_hex_32 asset_id with
  | Ok requested =>
    Ok (existsb (λ i, bool_decide (genesis_asset_id (im_genesis (ui_manifest i)) = requested)) (cf_usd_issuers (aw_config w)))
  | Err (Refused _) => Ok false
  | Err Panicked => Err Panicked
  end.

Definition require_reviewed_usd_asset (w : AccountWallet) (asset_id : rstring) : account () :=
  reviewed ← is_reviewed_usd_asset w asset_id;
  reject (negb reviewed) "asset_not_reviewed" "the exact asset is not in Signal's reviewed USD issuer registry".

Definition production_rollout_policy (w : AccountWallet) : option ProductionRolloutPolicy :=
  if mainnet w then rr_rollout <$> cf_production_usd_registry (aw_config w) else None.

Definition effective_fee_limit (w : AccountWallet) (per_call : option Z) : option Z :=
  match per_call, cf_max_fee_sats (aw_config w) with
  | Some per_call, Some account => Some (Z.min per_call account)
  | Some per_call, None => Some per_call
  | None, Some account => Some account
  | None, None => None
  end.

(** ** Transfer limits *)

(** [serde_json] at [TransferRequest]. *)
Class TransferCodec := {
  transfer_to_string : TransferRequest → rstring;
  transfer_from_string : rstring → option TransferRequest;
}.
Class TransferCodecLaws (C : TransferCodec) : Prop := {
  transfer_roundtrip : ∀ r, is_u64 (tq_amount r) → transfer_from_string (transfer_to_string r) = Some r;
  transfer_typed : ∀ s r, transfer_from_string s = Some r → is_u64 (tq_amount r);
}.
Context `{!TransferCodec}.

Definition corrupt (message : string) : halt AccountError := Refused (account_error "database_corrupt" message).

Definition require_production_transfer_amount (w : AccountWallet) (request : TransferRequest) : account () :=
  match production_rollout_policy w with
  | None => Ok tt
  | Some policy =>
    reject (max_transfer_base_units policy <? tq_amount request) "production_value_limit_exceeded"
      "exceeds the per-transfer production limit"
  end.

(** The rows of the rolling-day query. *)
Definition rolling_row (cutoff : Z) (o : OperationRow) : bool :=
  String.eqb (op_kind o) "transfer" && (cutoff <=? op_created_at o) &&
  negb (String.eqb (op_state o) "cancelled" || String.eqb (op_state o) "protocol_rejected").

Fixpoint rolling_usage (count amount : Z) (rows : list OperationRow) : account (Z * Z) :=
  match rows with
  | [] => Ok (count, amount)
  | row :: rows =>
    request ← ok_or (transfer_from_string (op_request_json row)) (corrupt "rolling transfer request");
    count ← ok_or (checked_add64 count 1) (corrupt "rolling operation count overflow");
    amount ← ok_or (checked_add64 amount (tq_amount request)) (corrupt "rolling transfer amount overflow");
    rolling_usage count amount rows
  end.

(** [clock] is the answer of [unix_time]. *)
Definition production_rolling_transfer_usage (w : AccountWallet) (clock : account Z) : account (Z * Z) :=
  now ← clock;
  let cutoff := saturating_sub_i64 now (24 * 60 * 60) in
  rolling_usage 0 0 (List.filter (rolling_row cutoff) (db_operations (aw_db w))).

Definition require_production_existing_transfer_policy (w : AccountWallet) (request : TransferRequest) (clock : account Z)
  : account () :=
  require_production_transfer_amount w request;;
  match production_rollout_policy w with
  | None => Ok tt
  | Some policy =>
    usage ← production_rolling_transfer_usage w clock;
    reject (max_rolling_24h_operations policy <? usage.1) "production_operation_limit_exceeded"
      "active/completed rolling-day operation count exceeds current production policy";;
    reject (max_rolling_24h_outgoing_base_units policy <? usage.2) "production_value_limit_exceeded"
      "active/completed rolling-day outgoing amount exceeds current production policy"
  end.

(** [sum.is_none_or(|next| next > limit)] *)
Definition exceeds (sum : option Z) (limit : Z) : bool := match sum with None => true | Some next => limit <? next end.

Definition require_production_new_transfer_policy (w : AccountWallet) (request : TransferRequest) (clock : account Z)
  : account () :=
  require_production_transfer_amount w request;;
  match production_rollout_policy w with
  | None => Ok tt
  | Some policy =>
    usage ← production_rolling_transfer_usage w clock;
    reject (exceeds (checked_add64 usage.1 1) (max_rolling_24h_operations policy)) "production_operation_limit_exceeded"
      "new transfer would exceed the rolling-day production operation limit";;
    reject (exceeds (checked_add64 usage.2 (tq_amount request)) (max_rolling_24h_outgoing_base_units policy))
      "production_value_limit_exceeded" "new transfer would exceed the rolling-day production value limit"
  end.

Definition require_production_batch_policy (w : AccountWallet) (requests : list TransferRequest) : account () :=
  match production_rollout_policy w with
  | None => Ok tt
  | Some policy =>
    reject (max_batch_recipients policy <? Z.of_nat (length requests)) "production_batch_limit_exceeded"
      "exceeds the production batch limit";;
    total ← ok_or (checked_sum 0 (tq_amount <$> requests))
      (Refused (account_error "production_value_limit_exceeded" "batch amount overflow"));
    reject (max_batch_total_base_units policy <? total) "production_value_limit_exceeded"
      "exceeds the production batch limit"
  end.

Definition require_reviewed_transfer (w : AccountWallet) (request : TransferRequest) (clock : account Z) : account () :=
  require_reviewed_usd_asset w (tq_asset_id request);;
  require_production_existing_transfer_policy w request clock.
End limits.

(** ** Theorems: the gates *)
Section gate_theorems.
Context `{Build, UrlParser}.

Lemma write_block_reason_known w reason : write_block_reason w = Some reason → reason ∈ write_block_reasons.
Proof.
  unfold write_block_reason, base_write_block_reason. intros E.
  assert (∀ s r, registry_write_block_reason s = Some r → r ∈ write_block_reasons) as Hr
    by (intros [] r; cbn; intros [= <-]; apply (bool_decide_unpack _); vm_compute; exact I).
  repeat match type of E with
  | context [if ?b then _ else _] => destruct b
  | context [registry_write_block_reason ?s] => destruct (registry_write_block_reason s) eqn:?; [injection E as <-; by eapply Hr|]
  end; injection E as <- || done; apply (bool_decide_unpack _); vm_compute; exact I.
Qed.

Lemma product_gate_eq w :
  require_product_write_enabled w = match write_block_reason w with Some r => blocked r | None => Ok tt end.
Proof.
  unfold require_product_write_enabled, require_write_enabled, write_block_reason.
  destruct (base_write_block_reason w); [done|]. destruct (registry_write_block_reason _); [done|].
  cbn [mbind result_bind]. by repeat (case_match; cbn [mbind result_bind]).
Qed.

(** the reason the status reports is the one the gate enforces: a product write is refused exactly with
    the code of the reported reason, and allowed exactly when none is reported. *)
Theorem reported_reason_is_enforced w :
  match write_block_reason w with
  | Some reason => ∃ e, require_product_write_enabled w = Err (Refused e) ∧ ae_code e = reason ∧ ae_retryable e = false
  | None => require_product_write_enabled w = Ok tt
  end ∧ (write_enabled w = true ↔ require_product_write_enabled w = Ok tt).
Proof.
  unfold write_enabled. rewrite product_gate_eq. destruct (write_block_reason w) as [r|] eqn:Er.
  - split; [|by rewrite bool_decide_eq_false_2]. exists (write_block_error r). split_and!; [done| |done].
    cbn. by rewrite bool_decide_eq_true_2 by by eapply write_block_reason_known.
  - split; [done|]. by rewrite bool_decide_eq_true_2.
Qed.

(** a shipped build never opens a fresh write on mainnet: no configuration, registry or stored state
    passes the product gate or the issuance gate. *)
Theorem shipped_mainnet_is_read_only w : test_assume_authenticated_proof_root = false → mainnet w = true →
  require_product_write_enabled w ≠ Ok tt ∧ require_issuance_write_enabled w ≠ Ok tt ∧ write_enabled w = false.
Proof.
  intros Ht Hm. assert (require_product_write_enabled w ≠ Ok tt) as Hp.
  { intros E. unfold require_product_write_enabled in E. repeat (apply bind_Ok in E as ([] & ? & E)).
    match goal with F : context [production_root_vk_authentication_ready] |- _ => revert F end.
    unfold production_root_vk_authentication_ready. by rewrite Hm, Ht. }
  split_and!; [done| |].
  - intros E. unfold require_issuance_write_enabled in E. apply bind_Ok in E as ([] & _ & E). rewrite Hm in E.
    apply bind_Ok in E as (r & _ & E). apply bind_Ok in E as ([] & _ & E). destruct issuer_tools; [|done].
    by apply bind_Ok in E as ([] & _ & E).
  - unfold write_enabled. apply bool_decide_eq_false. intros Hn. apply Hp. by rewrite product_gate_eq, Hn.
Qed.
End gate_theorems.
