(* ===== verification/AccountJournal.v ===== *)
(** * Planning transfers in the durable journal (ffi)

    The operations of [impl AccountWallet] in [ffi/src/account.rs] that write transfer
    intents: planning a transfer, collecting recipients into a local batch, freezing and
    cancelling.  Clock readings and random identifiers are arguments; a database call
    fails only on a uniqueness constraint. *)

From S2P Require Import Prelude Text Field Commitments Kernel Anchor Batch Chain Accept Wire Block Bitcoin Instrument.
From S2P Require Import Network Peer FullScan Scan Rpc BatchV2 AccountText AccountTypes Observation Issuance Registry AccountGate.
#[local] Open Scope Z_scope.

Definition SEND_BATCH_WINDOW_MILLIS : Z := 2000.

Abbreviation wallet := (prog (halt AccountError) AccountWallet).

(** ** Tables *)
Definition database_error {A} (message : string) : account A := Err (Refused (account_error "database_error" message)).

Definition with_operations (l : list OperationRow) (db : AccountDb) : AccountDb := {|
  db_meta := db_meta db; db_operations := l; db_batches := db_batches db; db_members := db_members db;
  db_ledger := db_ledger db; db_reservations := db_reservations db; db_stocks := db_stocks db |}.
Definition with_batches (l : list SendBatchRow) (db : AccountDb) : AccountDb := {|
  db_meta := db_meta db; db_operations := db_operations db; db_batches := l; db_members := db_members db;
  db_ledger := db_ledger db; db_reservations := db_reservations db; db_stocks := db_stocks db |}.
Definition with_members (l : list SendBatchMember) (db : AccountDb) : AccountDb := {|
  db_meta := db_meta db; db_operations := db_operations db; db_batches := db_batches db; db_members := l;
  db_ledger := db_ledger db; db_reservations := db_reservations db; db_stocks := db_stocks db |}.

Definition with_reservations (l : list UtxoReservation) (db : AccountDb) : AccountDb := {|
  db_meta := db_meta db; db_operations := db_operations db; db_batches := db_batches db; db_members := db_members db;
  db_ledger := db_ledger db; db_reservations := l; db_stocks := db_stocks db |}.
Definition with_stocks (l : list BatchStock) (db : AccountDb) : AccountDb := {|
  db_meta := db_meta db; db_operations := db_operations db; db_batches := db_batches db; db_members := db_members db;
  db_ledger := db_ledger db; db_reservations := db_reservations db; db_stocks := l |}.

(** Inserts, with the primary keys and unique columns of the schema. *)
Definition insert_operation (row : OperationRow) (db : AccountDb) : account AccountDb :=
  if bool_decide (op_operation_id row ∈ op_operation_id <$> db_operations db) then database_error "UNIQUE constraint failed"
  else Ok (with_operations (db_operations db ++ [row]) db).

Definition insert_batch (row : SendBatchRow) (db : AccountDb) : account AccountDb :=
  if bool_decide (sb_batch_local_id row ∈ sb_batch_local_id <$> db_batches db) then database_error "UNIQUE constraint failed"
  else Ok (with_batches (db_batches db ++ [row]) db).

Definition insert_member (row : SendBatchMember) (db : AccountDb) : account AccountDb :=
  if bool_decide (sm_operation_id row ∈ sm_operation_id <$> db_members db) ||
     bool_decide ((sm_batch_local_id row, sm_ordinal row) ∈
                  (λ m, (sm_batch_local_id m, sm_ordinal m)) <$> db_members db)
  then database_error "UNIQUE constraint failed"
  else Ok (with_members (db_members db ++ [row]) db).

(** A transaction: every statement or none. *)
Definition transaction (f : AccountDb → account AccountDb) : wallet () := λ w,
  match f (aw_db w) with Ok db => (Ok tt, with_db db w) | Err e => (Err e, w) end.

Definition operation (w : AccountWallet) (operation_id : rstring) : account OperationRow :=
  ok_or (find_first (λ o, bool_decide (op_operation_id o = operation_id)) (db_operations (aw_db w)))
    (Refused (account_error "unknown_operation" "unknown operation")).

Definition send_batch (w : AccountWallet) (batch_local_id : rstring) : account SendBatchRow :=
  ok_or (find_first (λ b, bool_decide (sb_batch_local_id b = batch_local_id)) (db_batches (aw_db w)))
    (Refused (account_error "unknown_batch" "unknown batch")).

Definition by_ordinal (a b : SendBatchMember) : Prop := sm_ordinal a ≤ sm_ordinal b.
#[local] Instance by_ordinal_dec : RelDecision by_ordinal.
Proof. intros a b. unfold by_ordinal. apply _. Defined.

Definition send_batch_members (w : AccountWallet) (batch_local_id : rstring) : account (list SendBatchMember) :=
  let rows := merge_sort by_ordinal
    (List.filter (λ m, bool_decide (sm_batch_local_id m = batch_local_id)) (db_members (aw_db w))) in
  if forallb (λ m, (0 <=? sm_ordinal m) && (sm_ordinal m <=? u8_max)) rows then Ok rows
  else Err (corrupt "batch ordinal is outside u8").

Section journal.
Context `{Build, UrlParser, Poseidon, !TransferCodec}.

Fixpoint requests_of (w : AccountWallet) (members : list SendBatchMember) : account (list TransferRequest) :=
  match members with
  | [] => Ok []
  | member :: members =>
    o ← operation w (sm_operation_id member);
    request ← ok_or (transfer_from_string (op_request_json o)) (corrupt "transfer request");
    requests ← requests_of w members;
    Ok (request :: requests)
  end.
Definition transfer_requests_for_batch_members := requests_of.

Definition normalize_transfer_request (request_json : rstring) : account (TransferRequest * rstring) :=
  request ← ok_or (transfer_from_string request_json) (Refused (account_error "invalid_request" "transfer request"));
  decode_hex_32 (tq_asset_id request);;
  decode_hex_32 (tq_to_owner request);;
  reject (tq_amount request =? 0) "invalid_request" "transfer amount must be positive";;
  Ok (request, transfer_to_string request).

Definition planned_row (operation_id : rstring) (kind : string) (request_json delivery_nonce : rstring) (now : Z) : OperationRow := {|
  op_operation_id := operation_id; op_kind := kind; op_state := operation_state_as_str Planned;
  op_request_json := request_json; op_funding_txid := None; op_funding_vout := None; op_signed_tx_hex := None;
  op_delivery_nonce := delivery_nonce; op_created_at := now |}.

(** The request is valid JSON: it was produced by [normalize_transfer_request]. *)
Definition insert_planned_operation (operation_id : rstring) (kind : string) (request_json delivery_nonce : rstring)
    (clock : account Z) : wallet () :=
  now ← Prelude.checked clock;
  transaction (insert_operation (planned_row operation_id kind request_json delivery_nonce now)).

(** [ids] are the two answers of [random_id], [policy_clock] and [insert_clock] those of [unix_time]. *)
Definition transfer_plan (request_json : rstring) (ids : rstring * rstring) (policy_clock insert_clock : account Z)
  : wallet OperationRow :=
  reading require_product_write_enabled;;
  rq ← Prelude.checked (normalize_transfer_request request_json);
  reading (λ w, require_reviewed_usd_asset w (tq_asset_id rq.1));;
  reading (λ w, require_production_new_transfer_policy w rq.1 policy_clock);;
  insert_planned_operation ids.1 "transfer" rq.2 ids.2 insert_clock;;
  reading (λ w, operation w ids.1).

(** The readings of one call: the rolling-day policy, [now_ms], [operation_created_at]; and its random identifiers. *)
Record BatchClock := { bc_policy : account Z; bc_now_ms : account Z; bc_created_at : account Z }.
Record BatchIds := { bi_batch : rstring; bi_operation : rstring; bi_nonce : rstring }.

Definition is_ok_and {A} (p : A → bool) (r : account A) : bool := match r with Ok a => p a | Err _ => false end.

(** The open collection window a new recipient joins by default. *)
Definition open_window (w : AccountWallet) (now_ms : Z) : option SendBatchRow :=
  id ← meta (db_meta (aw_db w)) "active_send_batch";
  batch ← to_option (send_batch w id);
  if String.eqb (sb_state batch) "collecting" && (now_ms <=? sb_deadline_ms batch) &&
     is_ok_and (λ members, bool_decide (length members < MAX_LOCAL_BATCH_RECIPIENTS)%nat)
       (send_batch_members w (sb_batch_local_id batch))
  then Some batch else None.

Definition batch_closed {A} (message : string) : account A := Err (Refused (account_error "batch_window_closed" message)).

Definition plan_batched_transfer (request_json : rstring) (requested_batch : option rstring) (ids : BatchIds)
    (clock : BatchClock) : wallet (rstring * rstring) :=
  reading require_product_write_enabled;;
  rq ← Prelude.checked (normalize_transfer_request request_json);
  reading (λ w, require_reviewed_usd_asset w (tq_asset_id rq.1));;
  reading (λ w, require_production_new_transfer_policy w rq.1 (bc_policy clock));;
  now_ms ← Prelude.checked (bc_now_ms clock);
  created_at ← Prelude.checked (bc_created_at clock);
  existing ← reading (λ w, match requested_batch with
                           | Some id => b ← send_batch w id; Ok (Some b)
                           | None => Ok (open_window w now_ms) end);
  match existing with
  | Some batch =>
    Prelude.checked (if negb (String.eqb (sb_state batch) "collecting") then batch_closed "batch is not collecting" else Ok tt);;
    Prelude.checked (if sb_deadline_ms batch <? now_ms then batch_closed "the Add Recipient guarantee has expired" else Ok tt);;
    members ← reading (λ w, send_batch_members w (sb_batch_local_id batch));
    Prelude.checked (reject (bool_decide (MAX_LOCAL_BATCH_RECIPIENTS ≤ length members)%nat) "batch_full"
      "the local batch reached the reviewed C1 participant limit");;
    requests ← reading (λ w, transfer_requests_for_batch_members w members);
    reading (λ w, require_production_batch_policy w (requests ++ [rq.1]));;
    Prelude.checked (reject (u8_max <? Z.of_nat (length members)) "batch_full" "batch participant ordinal exceeds u8");;
    transaction (λ db,
      db ← insert_operation (planned_row (bi_operation ids) "transfer" rq.2 (bi_nonce ids) created_at) db;
      insert_member {| sm_batch_local_id := sb_batch_local_id batch; sm_operation_id := bi_operation ids;
                       sm_ordinal := Z.of_nat (length members); sm_added_at_ms := now_ms |} db);;
    mret (sb_batch_local_id batch, bi_operation ids)
  | None =>
    Prelude.checked (reject (bool_decide (is_Some requested_batch)) "unknown_batch"
      "the requested Add Recipient batch does not exist");;
    reading (λ w, require_production_batch_policy w [rq.1]);;
    deadline ← Prelude.checked (ok_or (if now_ms + SEND_BATCH_WINDOW_MILLIS <=? 2 ^ 63 - 1
                               then Some (now_ms + SEND_BATCH_WINDOW_MILLIS) else None)
      (Refused (account_error "clock_error" "batch collection deadline overflow")));
    transaction (λ db,
      db ← insert_batch {| sb_batch_local_id := bi_batch ids; sb_state := "collecting"; sb_deadline_ms := deadline;
                           sb_participant_count := None |} db;
      db ← insert_operation (planned_row (bi_operation ids) "transfer" rq.2 (bi_nonce ids) created_at) db;
      db ← insert_member {| sm_batch_local_id := bi_batch ids; sm_operation_id := bi_operation ids;
                            sm_ordinal := 0; sm_added_at_ms := now_ms |} db;
      Ok (with_meta (set_meta "active_send_batch" (bi_batch ids) (db_meta db)) db));;
    mret (bi_batch ids, bi_operation ids)
  end.

Definition transfer_batch_plan (request_json : rstring) := plan_batched_transfer request_json None.
Definition transfer_batch_add_recipient (batch_local_id request_json : rstring) :=
  plan_batched_transfer request_json (Some batch_local_id).

(** [DELETE FROM opencsv_account_meta WHERE key = ?1 AND value = ?2] *)
Definition delete_meta_value (key : string) (value : rstring) (db : AccountDb) : AccountDb :=
  if bool_decide (meta (db_meta db) key = Some value) then with_meta (delete (lit key) (db_meta db)) db else db.

Definition set_batch_state (id : rstring) (state : string) (count : option Z) (b : SendBatchRow) : SendBatchRow :=
  if bool_decide (sb_batch_local_id b = id)
  then {| sb_batch_local_id := id; sb_state := state; sb_deadline_ms := sb_deadline_ms b;
          sb_participant_count := match count with Some _ => count | None => sb_participant_count b end |}
  else b.

Fixpoint require_reviewed_all (w : AccountWallet) (requests : list TransferRequest) (clock : account Z) : account () :=
  match requests with [] => Ok tt | r :: l => require_reviewed_transfer w r clock;; require_reviewed_all w l clock end.

(** One reading [clock] stands for those of the loop over the requests. *)
Definition freeze_send_batch (batch_local_id : rstring) (clock now_ms : account Z) : wallet SendBatchRow :=
  reading require_product_write_enabled;;
  batch ← reading (λ w, send_batch w batch_local_id);
  members ← reading (λ w, send_batch_members w batch_local_id);
  Prelude.checked (reject (bool_decide (length members = 0%nat)) "database_corrupt" "send batch contains no operations");;
  requests ← reading (λ w, transfer_requests_for_batch_members w members);
  reading (λ w, require_reviewed_all w requests clock);;
  reading (λ w, require_production_batch_policy w requests);;
  (if String.eqb (sb_state batch) "collecting" then
     let next_state := (if bool_decide (length members = 1%nat) then "solo" else "frozen")%string in
     Prelude.checked (reject (u8_max <? Z.of_nat (length members)) "batch_full" "batch participant count exceeds u8");;
     Prelude.checked now_ms;;
     transaction (λ db,
       Ok (delete_meta_value "active_send_batch" batch_local_id
             (with_batches (set_batch_state batch_local_id next_state (Some (Z.of_nat (length members))) <$> db_batches db) db)))
   else
     Prelude.checked (reject (negb (bool_decide (sb_state batch ∈
       ["solo"; "frozen"; "proof_ready"; "signed_persisted"; "broadcast_unobserved"; "mempool"; "confirmed"]%string)))
       "invalid_batch_state" "batch is not open"));;
  reading (λ w, send_batch w batch_local_id).

(** ** Cancelling *)
Definition set_operation_state (id : rstring) (state : string) (o : OperationRow) : OperationRow :=
  if bool_decide (op_operation_id o = id) then {|
    op_operation_id := op_operation_id o; op_kind := op_kind o; op_state := state; op_request_json := op_request_json o;
    op_funding_txid := op_funding_txid o; op_funding_vout := op_funding_vout o; op_signed_tx_hex := op_signed_tx_hex o;
    op_delivery_nonce := op_delivery_nonce o; op_created_at := op_created_at o |} else o.

(** [Txid::from_str] *)
Class TxidText := txid_from_str : rstring → option bytes.
Context `{!TxidText}.

Definition update_db (f : AccountDb → AccountDb) : wallet () := updating (λ w, with_db (f (aw_db w)) w).

Definition with_pending (m : gmap (list Z) Z) (w : AccountWallet) : AccountWallet := {|
  aw_config := aw_config w; aw_device_binding_valid := aw_device_binding_valid w; aw_registry_state := aw_registry_state w;
  aw_db := aw_db w; aw_pending_by_operation := m; aw_locked_outpoints := aw_locked_outpoints w |}.

(** [self.bitcoin.unlock_outpoint(..)] *)
Definition unlock_outpoint (o : OutPoint) (w : AccountWallet) : AccountWallet := {|
  aw_config := aw_config w; aw_device_binding_valid := aw_device_binding_valid w; aw_registry_state := aw_registry_state w;
  aw_db := aw_db w; aw_pending_by_operation := aw_pending_by_operation w;
  aw_locked_outpoints := List.filter (λ x, negb (bool_decide (x = o))) (aw_locked_outpoints w) |}.

Definition cancellation_forbidden (message : string) : halt AccountError :=
  Refused (account_error "cancellation_forbidden" message).

Definition release_fee_reservation (operation_id : rstring) : wallet () :=
  reading (λ w,
    match find_first (λ r, bool_decide (ur_operation_id r = operation_id)) (db_reservations (aw_db w)) with
    | Some r => if String.eqb (ur_state r) "signature_released"
                then Err (cancellation_forbidden "a fee input cannot be unlocked after its signature was released") else Ok tt
    | None => Ok tt
    end);;
  o ← reading (λ w, operation w operation_id);
  match op_funding_txid o, op_funding_vout o with
  | Some text, Some vout =>
    txid ← Prelude.checked (ok_or (txid_from_str text) (corrupt "funding txid"));
    updating (unlock_outpoint {| op_txid := txid; vout := vout |})
  | _, _ => mret tt
  end;;
  update_db (λ db, with_reservations (List.filter (λ r, negb (bool_decide (ur_operation_id r = operation_id))) (db_reservations db)) db).

(** The prover's copy of the pending proof is dropped with its identifier. *)
Definition cancel_operation (operation_id : rstring) (clock : account Z) : wallet OperationRow :=
  o ← reading (λ w, operation w operation_id);
  Prelude.checked (reject (bool_decide (op_state o ∈
    ["signed_persisted"; "broadcast_unobserved"; "broadcast"; "mempool"; "confirmed"; "consignment_delivered";
     "protocol_rejected"]%string)) "cancellation_forbidden" "an operation cannot be cancelled after a broadcast attempt");;
  if String.eqb (op_state o) (operation_state_as_str Cancelled) then mret o else
  update_db (delete_meta_value "active_proof_operation" operation_id);;
  updating (λ w, with_pending (delete operation_id (aw_pending_by_operation w)) w);;
  release_fee_reservation operation_id;;
  Prelude.checked clock;;
  update_db (λ db, with_operations
    (set_operation_state operation_id (operation_state_as_str Cancelled) <$> db_operations db) db);;
  reading (λ w, operation w operation_id).

Definition release_stock (batch_local_id : rstring) (s : BatchStock) : BatchStock :=
  if bool_decide (bs_reserved_by_batch s = Some batch_local_id) && String.eqb (bs_state s) "reserved"
  then {| bs_txid := bs_txid s; bs_vout := bs_vout s; bs_value_sats := bs_value_sats s; bs_state := "available";
          bs_reserved_by_batch := None |} else s.

Fixpoint cancel_members (members : list SendBatchMember) (clock : account Z) : wallet () :=
  match members with
  | [] => mret tt
  | m :: members => cancel_operation (sm_operation_id m) clock;; cancel_members members clock
  end.

Definition cancel_send_batch (batch_local_id : rstring) (clock : account Z) : wallet SendBatchRow :=
  batch ← reading (λ w, send_batch w batch_local_id);
  if String.eqb (sb_state batch) "cancelled" then mret batch else
  Prelude.checked (reject (bool_decide (sb_state batch ∈ ["signed_persisted"; "broadcast_unobserved"; "mempool"; "confirmed"]%string))
    "cancellation_forbidden" "a send batch cannot be cancelled after a signature was released");;
  update_db (delete_meta_value "active_batch_proof" batch_local_id);;
  members ← reading (λ w, send_batch_members w batch_local_id);
  cancel_members members clock;;
  update_db (λ db, with_stocks (release_stock batch_local_id <$> db_stocks db) db);;
  update_db (delete_meta_value "active_send_batch" batch_local_id);;
  Prelude.checked clock;;
  update_db (λ db, with_batches (set_batch_state batch_local_id "cancelled" None <$> db_batches db) db);;
  reading (λ w, send_batch w batch_local_id).
End journal.

(** ** Lemmas: what a call does to the journal *)

(** The state of an operation may only leave the set the caps count. *)
Definition counted (o : OperationRow) : bool :=
  String.eqb (op_kind o) "transfer" && negb (String.eqb (op_state o) "cancelled" || String.eqb (op_state o) "protocol_rejected").

Record weaker (o o' : OperationRow) : Prop := {
  wk_kind : op_kind o' = op_kind o;
  wk_request : op_request_json o' = op_request_json o;
  wk_created : op_created_at o' = op_created_at o;
  wk_counted : counted o' = true → counted o = true;
}.
#[export] Instance weaker_preorder : PreOrder weaker.
Proof. split; [by intros o|]. intros a b c [? ? ? ?] [? ? ? ?]. split; try congruence. auto. Qed.

Record milder (w w' : AccountWallet) : Prop := {
  ml_config : aw_config w' = aw_config w;
  ml_rows : Forall2 weaker (db_operations (aw_db w)) (db_operations (aw_db w'));
}.
#[export] Instance milder_preorder : PreOrder milder.
Proof.
  split.
  - intros w. split; [done|]. apply Forall2_same_length_refl || (induction (db_operations (aw_db w)); constructor; done).
  - intros a b c [C1 R1] [C2 R2]. split; [congruence|]. by etrans.
Qed.

Lemma milder_same w w' : aw_config w' = aw_config w → db_operations (aw_db w') = db_operations (aw_db w) → milder w w'.
Proof. intros Hc Ho. split; [done|]. rewrite Ho. apply (reflexivity (R := Forall2 weaker)). Qed.

Section journal_facts.
Context `{Build, UrlParser, Poseidon, !TransferCodec, !TransferCodecLaws _, !TxidText}.

Lemma cancelled_weaker id o : weaker o (set_operation_state id "cancelled" o).
Proof.
  unfold set_operation_state. destruct (bool_decide _); [|reflexivity]. split; try done. unfold counted. cbn [op_kind op_state].
  by rewrite andb_false_r.
Qed.

Lemma update_db_milder f : (∀ db, db_operations (f db) = db_operations db) → always milder (update_db f).
Proof. intros Hf. apply (always_updating _). intros w. apply milder_same; [done|]. apply Hf. Qed.

Lemma delete_meta_value_operations key value db : db_operations (delete_meta_value key value db) = db_operations db.
Proof. unfold delete_meta_value. by destruct (bool_decide _). Qed.

Lemma release_fee_reservation_milder id : always milder (release_fee_reservation id).
Proof.
  unfold release_fee_reservation. always_steps; [|by apply update_db_milder].
  case_match; [case_match|]; always_steps. apply (always_updating _). intros w. by apply milder_same.
Qed.

Lemma cancel_operation_milder id clock : always milder (cancel_operation id clock).
Proof.
  unfold cancel_operation. always_steps. case_match; always_steps.
  - apply update_db_milder. apply delete_meta_value_operations.
  - apply (always_updating _). intros w. by apply milder_same.
  - apply release_fee_reservation_milder.
  - apply (always_updating _). intros w. split; [done|]. cbn. apply Forall2_fmap_r.
    induction (db_operations (aw_db w)); constructor; [apply cancelled_weaker|done].
Qed.

Lemma cancel_members_milder members clock : always milder (cancel_members members clock).
Proof.
  induction members as [|m members IH]; cbn [cancel_members]; [apply (always_ret _)|].
  apply (always_bind _); [apply cancel_operation_milder|done].
Qed.

Lemma cancel_send_batch_milder id clock : always milder (cancel_send_batch id clock).
Proof.
  unfold cancel_send_batch. always_steps. case_match; always_steps; try (apply update_db_milder; done).
  - apply update_db_milder, delete_meta_value_operations.
  - apply cancel_members_milder.
  - apply update_db_milder, delete_meta_value_operations.
Qed.

Lemma transaction_milder f : (∀ db db', f db = Ok db' → db_operations db' = db_operations db) → always milder (transaction f).
Proof.
  intros Hf w r w'. unfold transaction. destruct (f (aw_db w)) as [db|] eqn:E; intros [= <- <-]; [|reflexivity].
  apply milder_same; [done|]. by apply Hf.
Qed.

Lemma freeze_send_batch_milder id clock now_ms : always milder (freeze_send_batch id clock now_ms).
Proof.
  unfold freeze_send_batch. always_steps. case_match; always_steps.
  apply transaction_milder. intros db db' [= <-]. by rewrite delete_meta_value_operations.
Qed.

(** A call that appends one transfer, after the policy has been checked. *)
Definition appended (policy_clock insert_clock : account Z) (w w' : AccountWallet) : Prop :=
  ∃ rq id nonce t', insert_clock = Ok t' ∧ aw_config w' = aw_config w ∧
    db_operations (aw_db w') = db_operations (aw_db w) ++ [planned_row id "transfer" (transfer_to_string rq) nonce t'] ∧
    require_production_new_transfer_policy w rq policy_clock = Ok tt ∧ is_u64 (tq_amount rq).

Definition journal_effect (policy_clock insert_clock : account Z) (w w' : AccountWallet) : Prop :=
  milder w w' ∨ appended policy_clock insert_clock w w'.

Lemma milder_effect pc ic w : journal_effect pc ic w w.
Proof. left. reflexivity. Qed.

Lemma normalize_Ok json rq : normalize_transfer_request json = Ok rq → rq.2 = transfer_to_string rq.1 ∧ is_u64 (tq_amount rq.1).
Proof.
  intros E. apply bind_Ok in E as (r & E1 & E). apply ok_or_Ok in E1.
  repeat (apply bind_Ok in E as (? & ? & E)). injection E as <-. split; [done|]. cbn. by eapply transfer_typed.
Qed.

Lemma insert_operation_Ok row db db' : insert_operation row db = Ok db' → db_operations db' = db_operations db ++ [row].
Proof. unfold insert_operation. case_bool_decide; [done|]. by intros [= <-]. Qed.
Lemma insert_member_Ok row db db' : insert_member row db = Ok db' → db_operations db' = db_operations db.
Proof. unfold insert_member. destruct (_ || _); [done|]. by intros [= <-]. Qed.
Lemma insert_batch_Ok row db db' : insert_batch row db = Ok db' → db_operations db' = db_operations db.
Proof. unfold insert_batch. case_bool_decide; [done|]. by intros [= <-]. Qed.

Lemma transfer_plan_effect json ids pc ic w r w' : transfer_plan json ids pc ic w = (r, w') → journal_effect pc ic w w'.
Proof.
  intros E. unfold transfer_plan in E.
  apply reading_bind_inv in E as [(e & -> & _)|([] & _ & E)]; [apply milder_effect|].
  apply checked_bind_inv in E as [(e & -> & _)|(rq & En & E)]; [apply milder_effect|].
  apply reading_bind_inv in E as [(e & -> & _)|([] & _ & E)]; [apply milder_effect|].
  apply reading_bind_inv in E as [(e & -> & _)|([] & Ep & E)]; [apply milder_effect|].
  destruct (normalize_Ok _ _ En) as [Er Hu]. rewrite Er in E.
  assert (∀ r w', insert_planned_operation ids.1 "transfer" (transfer_to_string rq.1) ids.2 ic w = (r, w') →
    journal_effect pc ic w w') as Hi.
  { intros r1 w1 E1. apply checked_bind_inv in E1 as [(e & -> & _)|(t' & Ec & E1)]; [apply milder_effect|].
    unfold transaction in E1. destruct (insert_operation _ _) as [db|] eqn:Ei; injection E1 as _ <-; [|apply milder_effect].
    right. exists rq.1, ids.1, ids.2, t'. split_and!; [done|done|by apply insert_operation_Ok in Ei|done|apply Hu..]. }
  apply prog_bind_inv in E as [(e & E & _)|(a & w1 & E & E2)]; [by eapply Hi|].
  injection E2 as _ <-. by eapply Hi.
Qed.

Lemma plan_batched_transfer_effect json requested ids clock w r w' :
  plan_batched_transfer json requested ids clock w = (r, w') → journal_effect (bc_policy clock) (bc_created_at clock) w w'.
Proof.
  intros E. unfold plan_batched_transfer in E.
  apply reading_bind_inv in E as [(e & -> & _)|([] & _ & E)]; [apply milder_effect|].
  apply checked_bind_inv in E as [(e & -> & _)|(rq & En & E)]; [apply milder_effect|].
  apply reading_bind_inv in E as [(e & -> & _)|([] & _ & E)]; [apply milder_effect|].
  apply reading_bind_inv in E as [(e & -> & _)|([] & Ep & E)]; [apply milder_effect|].
  apply checked_bind_inv in E as [(e & -> & _)|(now_ms & _ & E)]; [apply milder_effect|].
  apply checked_bind_inv in E as [(e & -> & _)|(t' & Ec & E)]; [apply milder_effect|].
  apply reading_bind_inv in E as [(e & -> & _)|(existing & _ & E)]; [apply milder_effect|].
  destruct (normalize_Ok _ _ En) as [Er Hu]. rewrite Er in E.
  assert (∀ f r w', (∀ db db', f db = Ok db' → db_operations db' = db_operations db ++
      [planned_row (bi_operation ids) "transfer" (transfer_to_string rq.1) (bi_nonce ids) t']) →
    transaction f w = (r, w') → journal_effect (bc_policy clock) (bc_created_at clock) w w') as Hi.
  { intros f r1 w1 Hf E1. unfold transaction in E1. destruct (f (aw_db w)) as [db|] eqn:Ei; injection E1 as _ <-; [|apply milder_effect].
    right. exists rq.1, (bi_operation ids), (bi_nonce ids), t'. split_and!; [done|done|by apply Hf|done|apply Hu..]. }
  destruct existing as [batch|].
  - do 2 (apply checked_bind_inv in E as [(e & -> & _)|([] & _ & E)]; [apply milder_effect|]).
    apply reading_bind_inv in E as [(e & -> & _)|(members & _ & E)]; [apply milder_effect|].
    apply checked_bind_inv in E as [(e & -> & _)|([] & _ & E)]; [apply milder_effect|].
    apply reading_bind_inv in E as [(e & -> & _)|(requests & _ & E)]; [apply milder_effect|].
    apply reading_bind_inv in E as [(e & -> & _)|([] & _ & E)]; [apply milder_effect|].
    apply checked_bind_inv in E as [(e & -> & _)|([] & _ & E)]; [apply milder_effect|].
    match type of E with (transaction ?f ≫= _) _ = _ =>
      assert (∃ r1, transaction f w = (r1, w')) as (r1 & Et)
        by (apply prog_bind_inv in E as [(e & E & _)|(a & w1 & E & E2)]; [eauto|injection E2 as _ <-; eauto]) end.
    eapply Hi; [|exact Et]. intros db db' Ef. apply bind_Ok in Ef as (d1 & F1 & F2).
    apply insert_member_Ok in F2. apply insert_operation_Ok in F1. congruence.
  - apply checked_bind_inv in E as [(e & -> & _)|([] & _ & E)]; [apply milder_effect|].
    apply reading_bind_inv in E as [(e & -> & _)|([] & _ & E)]; [apply milder_effect|].
    apply checked_bind_inv in E as [(e & -> & _)|(deadline & _ & E)]; [apply milder_effect|].
    match type of E with (transaction ?f ≫= _) _ = _ =>
      assert (∃ r1, transaction f w = (r1, w')) as (r1 & Et)
        by (apply prog_bind_inv in E as [(e & E & _)|(a & w1 & E & E2)]; [eauto|injection E2 as _ <-; eauto]) end.
    eapply Hi; [|exact Et]. intros db db' Ef. apply bind_Ok in Ef as (d1 & F1 & Ef). apply bind_Ok in Ef as (d2 & F2 & Ef).
    apply bind_Ok in Ef as (d3 & F3 & [= <-]). cbn.
    apply insert_member_Ok in F3. apply insert_operation_Ok in F2. apply insert_batch_Ok in F1. congruence.
Qed.
End journal_facts.

(** ** The rolling-day caps *)
Section caps.
Context `{Build, UrlParser, Poseidon, !TransferCodec, !TransferCodecLaws _, !TxidText}.

Definition amount_of (o : OperationRow) : Z :=
  match transfer_from_string (op_request_json o) with Some r => tq_amount r | None => 0 end.
Definition total (l : list OperationRow) : Z := foldr (λ o acc, amount_of o + acc) 0 l.

(** The counted transfers created within a day of [from]. *)
Definition in_day (from : Z) (o : OperationRow) : bool :=
  counted o && (from <=? op_created_at o) && (op_created_at o <=? from + 24 * 60 * 60).
Definition day_rows (from : Z) (w : AccountWallet) : list OperationRow := List.filter (in_day from) (db_operations (aw_db w)).

(** Every window of a day is within the caps. *)
Definition caps_hold (p : ProductionRolloutPolicy) (w : AccountWallet) : Prop := ∀ from,
  Z.of_nat (length (day_rows from w)) ≤ max_rolling_24h_operations p ∧
  total (day_rows from w) ≤ max_rolling_24h_outgoing_base_units p.

Inductive JournalCall :=
  | CallPlan (request_json : rstring) (ids : rstring * rstring) (policy_clock insert_clock : account Z)
  | CallBatch (request_json : rstring) (requested : option rstring) (ids : BatchIds) (clock : BatchClock)
  | CallFreeze (batch : rstring) (clock now_ms : account Z)
  | CallCancel (operation : rstring) (clock : account Z)
  | CallCancelBatch (batch : rstring) (clock : account Z).

Definition run_journal_call (w : AccountWallet) (c : JournalCall) : AccountWallet :=
  match c with
  | CallPlan json ids pc ic => (transfer_plan json ids pc ic w).2
  | CallBatch json requested ids clock => (plan_batched_transfer json requested ids clock w).2
  | CallFreeze batch clock now_ms => (freeze_send_batch batch clock now_ms w).2
  | CallCancel operation clock => (cancel_operation operation clock w).2
  | CallCancelBatch batch clock => (cancel_send_batch batch clock w).2
  end.

(** Within one call the clock does not run backwards. *)
Definition clocks_ordered (policy_clock insert_clock : account Z) : Prop :=
  ∀ t t', policy_clock = Ok t → insert_clock = Ok t' → 0 ≤ t ≤ t' ∧ t' < 2 ^ 63.
Definition call_timed (c : JournalCall) : Prop :=
  match c with
  | CallPlan _ _ pc ic => clocks_ordered pc ic
  | CallBatch _ _ _ clock => clocks_ordered (bc_policy clock) (bc_created_at clock)
  | _ => True
  end.

Lemma amount_of_nonneg o : 0 ≤ amount_of o.
Proof. unfold amount_of. destruct (transfer_from_string _) eqn:E; [|lia]. by apply transfer_typed in E as [? _]. Qed.

Lemma total_app a b : total (a ++ b) = total a + total b.
Proof. unfold total. induction a as [|o a IH]; cbn [app foldr]; lia. Qed.

Lemma total_cons o l : total (o :: l) = amount_of o + total l.
Proof. done. Qed.

(** A stronger test selects fewer rows. *)
Lemma fewer_rows (p q : OperationRow → bool) l : (∀ o, p o = true → q o = true) →
  (length (List.filter p l) ≤ length (List.filter q l))%nat ∧ total (List.filter p l) ≤ total (List.filter q l).
Proof.
  intros Hpq. induction l as [|o l [IH1 IH2]]; [done|]. cbn [List.filter]. pose proof (amount_of_nonneg o).
  destruct (p o) eqn:Ep; [rewrite (Hpq o Ep)|destruct (q o)]; cbn [length]; rewrite ?total_cons; lia.
Qed.

Lemma rolling_usage_Ok rows : ∀ count amount out, rolling_usage count amount rows = Ok out →
  out.1 = count + Z.of_nat (length rows) ∧ out.2 = amount + total rows.
Proof.
  induction rows as [|row rows IH]; intros count amount out E; cbn [rolling_usage] in E; [injection E as <-; cbn; lia|].
  apply bind_Ok in E as (r & E1 & E). apply bind_Ok in E as (c & E2 & E). apply bind_Ok in E as (a & E3 & E).
  apply ok_or_Ok in E1, E2, E3. unfold checked_add64 in *. destruct (decide _); [|done]. destruct (decide _); [|done].
  destruct (IH _ _ _ E) as [IH1 IH2]. cbn [length]. rewrite total_cons. unfold amount_of. rewrite E1.
  injection E2 as E2. injection E3 as E3. lia.
Qed.

Lemma milder_caps p w w' : milder w w' → caps_hold p w → caps_hold p w'.
Proof.
  intros [_ Hr] Hc from. specialize (Hc from). unfold day_rows in *.
  assert ((length (List.filter (in_day from) (db_operations (aw_db w'))) ≤
           length (List.filter (in_day from) (db_operations (aw_db w))))%nat ∧
          total (List.filter (in_day from) (db_operations (aw_db w'))) ≤
          total (List.filter (in_day from) (db_operations (aw_db w)))) as [Hl Ht]; [|lia].
  clear Hc. induction Hr as [|o o' l l' [_ Wr Wc Wn] _ [IH1 IH2]]; [done|]. cbn [List.filter].
  assert (in_day from o' = true → in_day from o = true) as Hi.
  { unfold in_day. rewrite !andb_true_iff, Wc. intros [[? ?] ?]. auto. }
  assert (amount_of o' = amount_of o) as Ha by (unfold amount_of; by rewrite Wr). pose proof (amount_of_nonneg o).
  destruct (in_day from o') eqn:Ei; [rewrite Hi by done|destruct (in_day from o)]; cbn [length];
    rewrite ?total_cons, ?Ha; lia.
Qed.

Lemma appended_caps p pc ic w w' : production_rollout_policy w = Some p → clocks_ordered pc ic →
  appended pc ic w w' → caps_hold p w → caps_hold p w'.
Proof.
  intros Hp Ht (rq & id & nonce & t' & Ec & _ & Eo & Epol & Hu) Hc from. specialize (Hc from). unfold day_rows in *.
  rewrite Eo, List.filter_app. cbn [List.filter].
  set (row := planned_row id "transfer" (transfer_to_string rq) nonce t').
  destruct (in_day from row) eqn:Ei; [|rewrite app_nil_r; done].
  unfold require_production_new_transfer_policy in Epol. rewrite Hp in Epol.
  apply bind_Ok in Epol as ([] & _ & Epol). apply bind_Ok in Epol as (u & Eu & Epol).
  apply bind_Ok in Epol as ([] & E1 & E2). apply reject_Ok in E1, E2. unfold exceeds, checked_add64 in E1, E2.
  apply bind_Ok in Eu as (t & Et & Eu). destruct (Ht _ _ Et Ec) as [[T1 T2] T3].
  apply rolling_usage_Ok in Eu as [U1 U2].
  destruct (fewer_rows (in_day from) (rolling_row (saturating_sub_i64 t (24 * 60 * 60))) (db_operations (aw_db w))) as [F1 F2].
  { intros o. unfold in_day, rolling_row, counted. rewrite !andb_true_iff, !Z.leb_le. intros [[[K1 K2] K3] _].
    unfold in_day in Ei. rewrite !andb_true_iff, !Z.leb_le in Ei. destruct Ei as [_ Ei]. cbn in Ei.
    split_and!; [done| |done]. unfold saturating_sub_i64. lia. }
  destruct (decide _) in E1; [|done]. destruct (decide _) in E2; [|done]. bool_props.
  rewrite length_app, total_app. cbn [length]. rewrite total_cons. change (total []) with 0. unfold amount_of. cbn [planned_row op_request_json row].
  rewrite transfer_roundtrip by done. lia.
Qed.

Lemma effect_config pc ic w w' : journal_effect pc ic w w' → aw_config w' = aw_config w.
Proof. intros [[? _]|(? & ? & ? & ? & _ & ? & _)]; done. Qed.

Lemma policy_config w w' : aw_config w' = aw_config w → production_rollout_policy w' = production_rollout_policy w.
Proof. intros E. unfold production_rollout_policy, mainnet. by rewrite E. Qed.

Lemma run_journal_call_effect c w : call_timed c →
  ∃ pc ic, journal_effect pc ic w (run_journal_call w c) ∧ clocks_ordered pc ic.
Proof.
  assert (∀ (w' : AccountWallet), milder w w' → ∃ pc ic, journal_effect pc ic w w' ∧ clocks_ordered pc ic) as Hm.
  { intros w' Hw. exists (Err Panicked), (Err Panicked). split; [by left|]. by intros t t'. }
  intros Ht. destruct c as [json ids pc ic|json requested ids clock|batch clock now_ms|id clock|batch clock];
    cbn [run_journal_call call_timed] in *.
  - exists pc, ic. split; [|done]. destruct (transfer_plan json ids pc ic w) as [r w'] eqn:E. by eapply transfer_plan_effect.
  - exists (bc_policy clock), (bc_created_at clock). split; [|done].
    destruct (plan_batched_transfer json requested ids clock w) as [r w'] eqn:E. by eapply plan_batched_transfer_effect.
  - apply Hm. eapply freeze_send_batch_milder. apply surjective_pairing.
  - apply Hm. eapply cancel_operation_milder. apply surjective_pairing.
  - apply Hm. eapply cancel_send_batch_milder. apply surjective_pairing.
Qed.

(** C37: whatever transfers are planned, batched, frozen and cancelled, in any order, no window of a day
    ever holds more counted transfers, or a larger total, than the rollout caps of the release. *)
Theorem rolling_day_caps_hold p w calls : production_rollout_policy w = Some p → caps_hold p w → Forall call_timed calls →
  caps_hold p (foldl run_journal_call w calls).
Proof.
  intros Hp Hc Hf; revert w Hp Hc. induction Hf as [|c calls Ht _ IH]; intros w Hp Hc; [done|]. cbn [foldl].
  destruct (run_journal_call_effect c w Ht) as (pc & ic & He & Hclock).
  apply IH; [by rewrite (policy_config w) by by eapply effect_config|].
  destruct He as [Hm|Ha]; [by eapply milder_caps|by eapply appended_caps].
Qed.
End caps.
