(* ===== verification/IssuanceLedger.v ===== *)
(** * The production issuance ledger (ffi)

    Admission of mint authorizations in [ffi/src/account.rs]: the check of a request
    against the release and the policy, the transaction that consumes the authorization in
    the durable supply ledger, the comparison of a ledger row before signing, and the
    export and restoration of the ledger with a backup checkpoint. *)

From S2P Require Import Prelude Text Field Commitments Kernel Anchor Batch Chain Accept Wire Block Bitcoin Instrument.
From S2P Require Import Network Peer FullScan Scan Rpc BatchV2 AccountText AccountTypes Observation Issuance Registry AccountGate AccountJournal.
#[local] Open Scope Z_scope.

(** The integer fields of an authorization are [u64]. *)
Record authorization_typed (a : ProductionMintAuthorization) : Prop := {
  at_sequence : is_u64 (ma_sequence a);
  at_before : is_u64 (ma_supply_before a);
  at_after : is_u64 (ma_supply_after a);
}.

(** [serde_json] at the authorization and the issuance request. *)
Class LedgerCodec := {
  authorization_to_string : ProductionMintAuthorization → rstring;
  authorization_from_string : rstring → option ProductionMintAuthorization;
  issuance_to_string : IssuanceRequest → rstring;
  issuance_from_string : rstring → option IssuanceRequest;
}.
Class LedgerCodecLaws (C : LedgerCodec) : Prop := {
  authorization_roundtrip : ∀ a, authorization_typed a → authorization_from_string (authorization_to_string a) = Some a;
  issuance_typed : ∀ s r a, issuance_from_string s = Some r → iq_production_authorization r = Some a → authorization_typed a;
}.

Definition not_authorized_error {A} : account A := blocked "production_issuance_not_authorized".
Definition bad_checkpoint (cond : bool) (message : string) : account () := reject cond "invalid_backup_checkpoint" message.
Definition checkpoint_error (message : string) : halt AccountError :=
  Refused (account_error "invalid_backup_checkpoint" message).

Definition with_ledger (l : list LedgerRow) (db : AccountDb) : AccountDb := {|
  db_meta := db_meta db; db_operations := db_operations db; db_batches := db_batches db; db_members := db_members db;
  db_ledger := l; db_reservations := db_reservations db; db_stocks := db_stocks db |}.

(** The constraints of the table: its primary key, its two unique indexes, its foreign key. *)
Definition insert_ledger (row : LedgerRow) (db : AccountDb) : account AccountDb :=
  if bool_decide (lg_authorization_id row ∈ lg_authorization_id <$> db_ledger db) ||
     bool_decide (lg_operation_id row ∈ lg_operation_id <$> db_ledger db) ||
     bool_decide ((lg_asset_id row, lg_sequence_decimal row) ∈
                  (λ r, (lg_asset_id r, lg_sequence_decimal r)) <$> db_ledger db) ||
     negb (bool_decide (lg_operation_id row ∈ op_operation_id <$> db_operations db))
  then database_error "constraint failed"
  else Ok (with_ledger (db_ledger db ++ [row]) db).

(** [ORDER BY sequence_decimal DESC LIMIT 1] of the rows of one asset. *)
Fixpoint greatest_row (best : option LedgerRow) (rows : list LedgerRow) : option LedgerRow :=
  match rows with
  | [] => best
  | r :: rows =>
    greatest_row (match best with
                  | Some b => if str_ltb (lg_sequence_decimal b) (lg_sequence_decimal r) then Some r else best
                  | None => Some r end) rows
  end.
Definition asset_rows (asset : rstring) (l : list LedgerRow) : list LedgerRow :=
  List.filter (λ r, bool_decide (lg_asset_id r = asset)) l.
Definition latest_row (asset : rstring) (l : list LedgerRow) : option LedgerRow := greatest_row None (asset_rows asset l).

Section ledger.
Context `{Build, Poseidon, Sha256, UrlParser, IssuanceCodec, MintKeys, OutPointText, LedgerCodec, !TxidText}.

(** ** Admission *)
Definition ledger_row (policy : ProductionIssuancePolicy) (a : ProductionMintAuthorization) (operation_id : rstring) (now : Z)
  : LedgerRow := {|
  lg_asset_id := ma_asset_id a; lg_sequence_decimal := encode_u64_decimal (ma_sequence a);
  lg_authorization_id := ma_authorization_id a; lg_policy_commitment := ip_commitment policy;
  lg_supply_before_decimal := encode_u64_decimal (ma_supply_before a);
  lg_supply_after_decimal := encode_u64_decimal (ma_supply_after a);
  lg_authorization_json := authorization_to_string a; lg_operation_id := operation_id; lg_created_at := now |}.

(** The sequence and the supply the next authorization of an asset must name. *)
Definition expected_next (asset : rstring) (db : AccountDb) : account (Z * Z) :=
  match latest_row asset (db_ledger db) with
  | Some row =>
    sequence ← decode_u64_decimal (lg_sequence_decimal row);
    next ← ok_or (checked_add64 sequence 1)
      (Refused (account_error "production_issuance_limit_exceeded" "production issuance sequence overflow"));
    supply ← decode_u64_decimal (lg_supply_after_decimal row);
    Ok (next, supply)
  | None => Ok (1, 0)
  end.

(** The request is valid JSON: the caller has serialized it. *)
Definition insert_production_mint_operation (operation_id request_json delivery_nonce : rstring)
    (policy : ProductionIssuancePolicy) (a : ProductionMintAuthorization) (clock : account Z) : wallet () :=
  Prelude.checked (reject (negb (bool_decide (operation_id = ma_authorization_id a)))
    "production_issuance_not_authorized" "production mint operation id must equal its authorization id");;
  now ← Prelude.checked clock;
  transaction (λ db,
    reject (existsb (λ r, bool_decide (lg_authorization_id r = ma_authorization_id a) ||
                          bool_decide (lg_operation_id r = operation_id)) (db_ledger db))
      "production_issuance_replay" "production mint authorization was already admitted";;
    expected ← expected_next (ma_asset_id a) db;
    reject (negb (ma_sequence a =? expected.1)) "production_issuance_sequence_mismatch" "unexpected production issuance sequence";;
    reject (negb (ma_supply_before a =? expected.2)) "production_issuance_supply_mismatch" "unexpected production supply floor";;
    db ← insert_operation (planned_row operation_id "mint" request_json delivery_nonce now) db;
    insert_ledger (ledger_row policy a operation_id now) db).

Definition validate_current_production_mint (w : AccountWallet) (request : IssuanceRequest) (to_owner : rstring)
    (clock : account Z) : account (ProductionIssuancePolicy * ProductionMintAuthorization) :=
  release ← ok_or (cf_production_usd_registry (aw_config w)) (Refused (write_block_error "production_issuance_not_authorized"));
  reference ← ok_or (find_reference (iq_asset_id request) (rr_issuance_policy_commitments release))
    (Refused (write_block_error "production_issuance_not_authorized"));
  policy ← ok_or (find_policy (iq_asset_id request) (cf_production_issuance_policies (aw_config w)))
    (Refused (write_block_error "production_issuance_not_authorized"));
  authorization ← ok_or (iq_production_authorization request)
    (Refused (write_block_error "production_issuance_not_authorized"));
  (if negb (bool_decide (ma_deployment_id authorization = cf_deployment_id (aw_config w))) ||
      negb (bool_decide (ma_registry_commitment authorization = rr_commitment release)) ||
      negb (bool_decide (ma_asset_id authorization = iq_asset_id request))
   then not_authorized_error else Ok tt);;
  seconds ← clock;
  now ← ok_or (if 0 <=? seconds then Some seconds else None) (Refused (account_error "clock_error" "negative timestamp"));
  of_validation (verify_production_mint_authorization policy authorization (rr_registry_version release)
    (ir_policy_commitment reference) to_owner (iq_amounts request) now);;
  Ok (policy, authorization).

(** [mint_prepare] on mainnet, up to the durable admission: the asset is manifested, the owner is the
    request's or the wallet's own. *)
Definition mint_admit (request_json : rstring) (manifested : rstring → bool) (default_owner delivery_nonce : rstring)
    (validate_clock insert_clock : account Z) : wallet rstring :=
  reading require_issuance_write_enabled;;
  request ← Prelude.checked (ok_or (issuance_from_string request_json) (Refused (account_error "invalid_request" "issuance request")));
  Prelude.checked (reject (bool_decide (iq_amounts request = []) || bool_decide (2 < length (iq_amounts request))%nat)
    "invalid_request" "mint requires one or two positive outputs");;
  Prelude.checked (reject (bool_decide (0 ∈ iq_amounts request)) "invalid_request" "mint outputs must be positive");;
  Prelude.checked (reject (negb (manifested (iq_asset_id request))) "instrument_definition_required"
    "issuance requires an existing v1 instrument manifest");;
  let to_owner := default default_owner (iq_to_owner request) in
  let request := {| iq_asset_id := iq_asset_id request; iq_to_owner := Some to_owner; iq_amounts := iq_amounts request;
                    iq_production_authorization := iq_production_authorization request |} in
  pa ← reading (λ w, validate_current_production_mint w request to_owner validate_clock);
  let operation_id := ma_authorization_id pa.2 in
  Prelude.checked (of_validation (production_mint_funding_outpoint pa.2));;
  insert_production_mint_operation operation_id (issuance_to_string request) delivery_nonce pa.1 pa.2 insert_clock;;
  mret operation_id.

(** ** Before signing *)
Definition verify_production_issuance_ledger_entry (w : AccountWallet) (o : OperationRow) (policy : ProductionIssuancePolicy)
    (a : ProductionMintAuthorization) : account () :=
  stored ← ok_or (find_first (λ r, bool_decide (lg_authorization_id r = ma_authorization_id a)) (db_ledger (aw_db w)))
    (Refused (account_error "production_issuance_replay"
       "production mint authorization is absent from the durable supply ledger"));
  stored_authorization ← ok_or (authorization_from_string (lg_authorization_json stored))
    (corrupt "production issuance authorization");
  (if negb (bool_decide (lg_asset_id stored = ma_asset_id a)) then Err (corrupt "ledger entry disagrees") else Ok tt);;
  sequence ← decode_u64_decimal (lg_sequence_decimal stored);
  (if negb (sequence =? ma_sequence a) || negb (bool_decide (lg_policy_commitment stored = ip_commitment policy))
   then Err (corrupt "ledger entry disagrees") else Ok tt);;
  supply_before ← decode_u64_decimal (lg_supply_before_decimal stored);
  (if negb (supply_before =? ma_supply_before a) then Err (corrupt "ledger entry disagrees") else Ok tt);;
  supply_after ← decode_u64_decimal (lg_supply_after_decimal stored);
  (if negb (supply_after =? ma_supply_after a) || negb (bool_decide (stored_authorization = a)) ||
      negb (bool_decide (lg_operation_id stored = op_operation_id o)) ||
      negb (bool_decide (op_operation_id o = ma_authorization_id a))
   then Err (corrupt "ledger entry disagrees") else Ok tt).

Definition validate_current_production_mint_admission (w : AccountWallet) (o : OperationRow) (clock : account Z)
  : account (ProductionIssuancePolicy * ProductionMintAuthorization) :=
  request ← ok_or (issuance_from_string (op_request_json o)) (corrupt "mint request");
  to_owner ← ok_or (iq_to_owner request) (corrupt "production mint request has no exact recipient");
  pa ← validate_current_production_mint w request to_owner clock;
  verify_production_issuance_ledger_entry w o pa.1 pa.2;;
  Ok pa.

(** [operation_outpoint] and the comparison of the funding input. *)
Definition operation_outpoint (o : OperationRow) : account OutPoint :=
  text ← ok_or (op_funding_txid o) (corrupt "operation has no funding txid");
  vout ← ok_or (op_funding_vout o) (corrupt "operation has no funding vout");
  txid ← ok_or (txid_from_str text) (corrupt "operation funding txid");
  Ok {| op_txid := txid; vout := vout |}.

(** ** Backups *)
Record BackupOperation := { bo_operation_id : rstring; bo_kind : string; bo_request : rstring }.

Record BackupProductionIssuanceAuthorization := {
  ba_asset_id : rstring;
  ba_sequence : Z;
  ba_authorization_id : rstring;
  ba_policy_commitment : rstring;
  ba_supply_before : Z;
  ba_supply_after : Z;
  ba_authorization : ProductionMintAuthorization;
  ba_operation_id : rstring;
  ba_created_at : Z;
}.

(** [ORDER BY asset_id, sequence_decimal] *)
Definition row_le (a b : LedgerRow) : Prop :=
  str_ltb (lg_asset_id a) (lg_asset_id b) = true ∨
  lg_asset_id a = lg_asset_id b ∧ str_ltb (lg_sequence_decimal b) (lg_sequence_decimal a) = false.
#[local] Instance row_le_dec : RelDecision row_le.
Proof. intros a b. unfold row_le. apply _. Defined.

Definition export_row (r : LedgerRow) : account BackupProductionIssuanceAuthorization :=
  sequence ← decode_u64_decimal (lg_sequence_decimal r);
  before ← decode_u64_decimal (lg_supply_before_decimal r);
  after ← decode_u64_decimal (lg_supply_after_decimal r);
  a ← ok_or (authorization_from_string (lg_authorization_json r)) (corrupt "production issuance authorization");
  Ok {| ba_asset_id := lg_asset_id r; ba_sequence := sequence; ba_authorization_id := lg_authorization_id r;
        ba_policy_commitment := lg_policy_commitment r; ba_supply_before := before; ba_supply_after := after;
        ba_authorization := a; ba_operation_id := lg_operation_id r; ba_created_at := lg_created_at r |}.

Fixpoint export_rows (l : list LedgerRow) : account (list BackupProductionIssuanceAuthorization) :=
  match l with [] => Ok [] | r :: l => b ← export_row r; bs ← export_rows l; Ok (b :: bs) end.
Definition export_ledger (db : AccountDb) : account (list BackupProductionIssuanceAuthorization) :=
  export_rows (merge_sort row_le (db_ledger db)).

(** The loop of [restore_checkpoint]: the identifiers seen and the last sequence and supply of each asset. *)
Definition check_backup_row (c : AccountConfig) (operations : list BackupOperation) (ids : list rstring)
    (floors : gmap (list Z) (Z * Z)) (b : BackupProductionIssuanceAuthorization) : account (gmap (list Z) (Z * Z)) :=
  let a := ba_authorization b in
  decode_hex_32 (ba_authorization_id b);;
  decode_hex_32 (ba_policy_commitment b);;
  bad_checkpoint ((ba_created_at b <? 0) || negb (bool_decide (ba_operation_id b = ba_authorization_id b)) ||
                  bool_decide (ba_authorization_id b ∈ ids))
    "invalid or duplicate production issuance authorization";;
  o ← ok_or (find_first (λ o, bool_decide (bo_operation_id o = ba_operation_id b)) operations)
    (checkpoint_error "production issuance authorization has no matching operation");
  request ← ok_or (issuance_from_string (bo_request o)) (checkpoint_error "production mint request");
  bad_checkpoint (negb (String.eqb (bo_kind o) "mint") || negb (bool_decide (iq_asset_id request = ba_asset_id b)) ||
      negb (bool_decide (iq_to_owner request = Some (ma_to_owner a))) || negb (bool_decide (iq_amounts request = ma_amounts a)) ||
      negb (bool_decide (iq_production_authorization request = Some a)) || negb (bool_decide (ba_asset_id b = ma_asset_id a)) ||
      negb (ba_sequence b =? ma_sequence a) || negb (bool_decide (ba_authorization_id b = ma_authorization_id a)) ||
      negb (bool_decide (ba_policy_commitment b = ma_issuance_policy_commitment a)) ||
      negb (ba_supply_before b =? ma_supply_before a) || negb (ba_supply_after b =? ma_supply_after a))
    "production issuance ledger disagrees with its operation or authorization";;
  let prior := default (0, 0) (floors !! ba_asset_id b) in
  expected ← ok_or (checked_add64 prior.1 1) (checkpoint_error "production issuance sequence overflow");
  bad_checkpoint (negb (ba_sequence b =? expected) || negb (ba_supply_before b =? prior.2))
    "production issuance ledger has a gap, replay, or stale supply floor";;
  let floors := <[ba_asset_id b := (ba_sequence b, ba_supply_after b)]> floors in
  release ← ok_or (cf_production_usd_registry c)
    (checkpoint_error "production issuance backup requires its exact registry release");
  reference ← ok_or (find_reference (ba_asset_id b) (rr_issuance_policy_commitments release))
    (checkpoint_error "production issuance backup asset is absent from the registry");
  policy ← ok_or (find_policy (ba_asset_id b) (cf_production_issuance_policies c))
    (checkpoint_error "production issuance backup policy is unavailable");
  bad_checkpoint (negb (bool_decide (ma_registry_commitment a = rr_commitment release)) ||
                  negb (bool_decide (ba_policy_commitment b = ir_policy_commitment reference)))
    "production issuance backup names another registry or policy";;
  map_refused (λ e, account_error "invalid_backup_checkpoint" (ve_message e))
    (verify_production_mint_authorization policy a (rr_registry_version release) (ir_policy_commitment reference)
       (ma_to_owner a) (ma_amounts a) (ma_not_before a));;
  Ok floors.

Fixpoint check_backup (c : AccountConfig) (operations : list BackupOperation) (ids : list rstring)
    (floors : gmap (list Z) (Z * Z)) (l : list BackupProductionIssuanceAuthorization) : account () :=
  match l with
  | [] => Ok tt
  | b :: l =>
    floors ← check_backup_row c operations ids floors b;
    check_backup c operations (ba_authorization_id b :: ids) floors l
  end.

Definition imported_row (b : BackupProductionIssuanceAuthorization) : LedgerRow := {|
  lg_asset_id := ba_asset_id b; lg_sequence_decimal := encode_u64_decimal (ba_sequence b);
  lg_authorization_id := ba_authorization_id b; lg_policy_commitment := ba_policy_commitment b;
  lg_supply_before_decimal := encode_u64_decimal (ba_supply_before b);
  lg_supply_after_decimal := encode_u64_decimal (ba_supply_after b);
  lg_authorization_json := authorization_to_string (ba_authorization b); lg_operation_id := ba_operation_id b;
  lg_created_at := ba_created_at b |}.

Fixpoint import_rows (rows : list LedgerRow) (db : AccountDb) : account AccountDb :=
  match rows with [] => Ok db | r :: rows => db ← insert_ledger r db; import_rows rows db end.

(** The ledger part of [restore_checkpoint]: the database is clean, the entries are checked, then imported after
    the operations of the checkpoint. *)
Definition restore_ledger (operations : list BackupOperation) (rows : list OperationRow)
    (l : list BackupProductionIssuanceAuthorization) : wallet () :=
  reading (λ w, reject (negb (bool_decide (length (db_ledger (aw_db w)) = 0%nat)))
    "restore_requires_clean_database" "refusing to merge a checkpoint into existing wallet state");;
  reading (λ w, check_backup (aw_config w) operations [] ∅ l);;
  transaction (λ db, import_rows (imported_row <$> l) (with_operations rows db)).

Context `{BitcoinLib}.

Definition verify_production_mint_funding_binding (o : OperationRow) (a : ProductionMintAuthorization)
    (signed_transaction_required : bool) : account () :=
  expected ← map_refused (λ e, account_error "database_corrupt" (ve_message e)) (production_mint_funding_outpoint a);
  actual ← operation_outpoint o;
  (if negb (bool_decide (actual = expected)) then Err (corrupt "operation funding disagrees with its authorization") else Ok tt);;
  match op_signed_tx_hex o with
  | None => if signed_transaction_required then Err (corrupt "signed production mint has no persisted transaction") else Ok tt
  | Some signed =>
    raw ← hex_decode signed;
    tx ← ok_or (btx_deserialize raw) (corrupt "signed production mint transaction");
    if negb (bool_decide (previous_output <$> head (btx_input tx) = Some expected))
    then Err (corrupt "signed production mint first input disagrees with its authorization") else Ok tt
  end.

Definition validate_current_production_mint_operation (w : AccountWallet) (o : OperationRow) (clock : account Z)
  : account (ProductionIssuancePolicy * ProductionMintAuthorization) :=
  pa ← validate_current_production_mint_admission w o clock;
  verify_production_mint_funding_binding o pa.2 false;;
  Ok pa.
End ledger.

(** ** Lemmas: the table *)

Lemma scalar_padded n v : Forall is_scalar (padded n v).
Proof. eapply Forall_impl; [apply padded_digits|]. unfold is_scalar. cbn. lia. Qed.

Lemma decode_encode v : is_u64 v → decode_u64_decimal (encode_u64_decimal v) = Ok v.
Proof. intros Hv. apply decode_u64_exact; [apply scalar_padded|done]. Qed.

Lemma encode_ltb v w : is_u64 v → is_u64 w → str_ltb (encode_u64_decimal v) (encode_u64_decimal w) = (v <? w).
Proof. intros Hv Hw. unfold str_ltb. rewrite encode_u64_order by done. by rewrite Z.ltb_antisym. Qed.

Definition pick_greater (best : option LedgerRow) (r : LedgerRow) : option LedgerRow :=
  match best with
  | Some b => if str_ltb (lg_sequence_decimal b) (lg_sequence_decimal r) then Some r else best
  | None => Some r end.

Lemma greatest_row_snoc l r : ∀ best, greatest_row best (l ++ [r]) = pick_greater (greatest_row best l) r.
Proof. induction l as [|x l IH]; intros best; [done|]. apply IH. Qed.

Lemma asset_rows_snoc asset l r :
  asset_rows asset (l ++ [r]) = if bool_decide (lg_asset_id r = asset) then asset_rows asset l ++ [r] else asset_rows asset l.
Proof. unfold asset_rows. rewrite List.filter_app. cbn. case_bool_decide; [done|apply app_nil_r]. Qed.

Section ledger_facts.
Context `{Build, Poseidon, Sha256, UrlParser, IssuanceCodec, MintKeys, OutPointText, LedgerCodec, !TxidText}.

(** The authorization has been verified under the policy at some time. *)
Definition verified (p : ProductionIssuancePolicy) (a : ProductionMintAuthorization) : Prop :=
  ∃ version commitment now digest,
    verify_production_mint_authorization p a version commitment (ma_to_owner a) (ma_amounts a) now = Ok digest.

Definition minted (a : ProductionMintAuthorization) : Z := foldr Z.add 0 (ma_amounts a).

(** The rows of one asset: consecutive sequences from one, each starting from the supply the one before
    it left; the numbers are those the next authorization must name. *)
Inductive supply_chain : list LedgerRow → Z → Z → Prop :=
  | chain_nil : supply_chain [] 1 0
  | chain_snoc rows supply p a now sequence : supply_chain rows sequence supply → verified p a → authorization_typed a →
      ma_sequence a = sequence → ma_supply_before a = supply →
      supply_chain (rows ++ [ledger_row p a (ma_authorization_id a) now]) (sequence + 1) (ma_supply_after a).

Lemma chain_greatest rows sequence supply : supply_chain rows sequence supply →
  greatest_row None rows = last rows ∧ 1 ≤ sequence ∧
  (rows = [] ∧ sequence = 1 ∧ supply = 0 ∨
   ∃ r, last rows = Some r ∧ lg_sequence_decimal r = encode_u64_decimal (sequence - 1) ∧ is_u64 (sequence - 1) ∧
        lg_supply_after_decimal r = encode_u64_decimal supply ∧ is_u64 supply).
Proof.
  induction 1 as [|rows supply p a now sequence Hc [IH1 [IH2 IH3]] Hv [T1 T2 T3] Hs Hb].
  - split_and!; [done|lia|by left].
  - rewrite greatest_row_snoc, last_snoc, IH1. split_and!; [|lia|right].
    + destruct IH3 as [(-> & _ & _)|(r & -> & Er & Hr & _)]; [done|]. cbn. rewrite Er, encode_ltb by (done || lia).
      rewrite (proj2 (Z.ltb_lt _ _)) by lia. done.
    + eexists. split_and!; [done| | |done|done]; rewrite Z.add_simpl_r; [by rewrite <- Hs|by rewrite <- Hs].
Qed.

Lemma expected_next_chain asset db sequence supply : supply_chain (asset_rows asset (db_ledger db)) sequence supply →
  ∀ out, expected_next asset db = Ok out → out = (sequence, supply).
Proof.
  intros Hc out. destruct (chain_greatest _ _ _ Hc) as (Hg & _ & Hend). unfold expected_next, latest_row. rewrite Hg.
  destruct Hend as [(-> & -> & ->)|(r & -> & Er & Hr & Es & Hs)]; [by intros [= <-]|].
  rewrite Er, Es, !decode_encode by done. cbn [mbind result_bind]. unfold checked_add64. destruct (decide _); [|done].
  cbn [ok_or mbind result_bind]. intros [= <-]. by rewrite Z.sub_add.
Qed.

(** The ledger as a whole: each asset has its chain, and no authorization occurs twice. *)
Definition ledger_ok (l : list LedgerRow) : Prop :=
  (∀ asset, ∃ sequence supply, supply_chain (asset_rows asset l) sequence supply) ∧ NoDup (lg_authorization_id <$> l).

Lemma insert_ledger_Ok r db db' : insert_ledger r db = Ok db' →
  db_ledger db' = db_ledger db ++ [r] ∧ lg_authorization_id r ∉ lg_authorization_id <$> db_ledger db.
Proof.
  unfold insert_ledger. destruct (_ || _) eqn:E; [done|]. intros [= <-]. split; [done|].
  repeat (apply orb_false_iff in E as [E ?]). by bool_props.
Qed.

(** Extending the ledger with the authorization its asset expects. *)
Lemma ledger_ok_snoc l p a now : ledger_ok l → verified p a → authorization_typed a →
  ma_authorization_id a ∉ lg_authorization_id <$> l →
  (∀ sequence supply, supply_chain (asset_rows (ma_asset_id a) l) sequence supply →
     ma_sequence a = sequence ∧ ma_supply_before a = supply) →
  ledger_ok (l ++ [ledger_row p a (ma_authorization_id a) now]).
Proof.
  intros [Hc Hd] Hv Ht Hn Hnext. split.
  - intros asset. rewrite asset_rows_snoc. case_bool_decide as Ea; [|done]. cbn in Ea. subst asset.
    destruct (Hc (ma_asset_id a)) as (sequence & supply & Hc'). destruct (Hnext _ _ Hc') as [Hs Hb].
    exists (sequence + 1), (ma_supply_after a). by eapply chain_snoc.
  - rewrite fmap_app. apply NoDup_app. split_and!; [done| |apply NoDup_singleton].
    intros x Hx ->%list_elem_of_singleton. done.
Qed.

Lemma encode_inj v w : is_u64 v → is_u64 w → encode_u64_decimal v = encode_u64_decimal w → v = w.
Proof. intros Hv Hw E. pose proof (decode_encode v Hv) as D. rewrite E, decode_encode in D by done. by injection D. Qed.

Lemma supply_chain_unique rows s v s' v' : supply_chain rows s v → supply_chain rows s' v' → s = s' ∧ v = v'.
Proof.
  intros H1' H2'. destruct (chain_greatest _ _ _ H1') as (_ & _ & E1), (chain_greatest _ _ _ H2') as (_ & _ & E2).
  destruct E1 as [(-> & -> & ->)|(r & L1 & A1 & B1 & C1 & D1)], E2 as [(E2 & -> & ->)|(r' & L2 & A2 & B2 & C2 & D2)]; try done.
  - by subst.
  - rewrite L1 in L2. injection L2 as <-. rewrite A1 in A2. rewrite C1 in C2. apply encode_inj in A2, C2; [|done..]. lia.
Qed.

(** ** Lemmas: admission *)
Context `{!LedgerCodecLaws _}.

Lemma validate_mint_Ok w request to clock p a : validate_current_production_mint w request to clock = Ok (p, a) →
  iq_production_authorization request = Some a ∧ verified p a.
Proof.
  intros E. unfold validate_current_production_mint in E. apply bind_Ok in E as (release & _ & E).
  apply bind_Ok in E as (reference & _ & E). apply bind_Ok in E as (policy & _ & E). apply bind_Ok in E as (b & E1 & E).
  apply bind_Ok in E as ([] & _ & E). apply bind_Ok in E as (seconds & _ & E). apply bind_Ok in E as (now & _ & E).
  apply bind_Ok in E as (digest & V & E). injection E as -> ->. apply ok_or_Ok in E1. apply map_refused_Ok in V.
  split; [done|]. destruct (verified_supply _ _ _ _ _ _ _ _ V) as (_ & _ & _ & _ & _ & _ & _ & _ & _ & <- & Ha & _).
  rewrite <- Ha in V. by eexists _, _, _, _.
Qed.

Definition ledger_of (w : AccountWallet) : list LedgerRow := db_ledger (aw_db w).

Lemma insert_mint_ledger id request nonce p a clock w r w' : ledger_ok (ledger_of w) → verified p a → authorization_typed a →
  insert_production_mint_operation id request nonce p a clock w = (r, w') → ledger_ok (ledger_of w').
Proof.
  intros Hok Hv Ht E. unfold insert_production_mint_operation in E.
  apply checked_bind_inv in E as [(e & -> & _)|([] & E1 & E)]; [done|]. apply reject_Ok in E1. bool_props. subst id.
  apply checked_bind_inv in E as [(e & -> & _)|(now & _ & E)]; [done|].
  unfold transaction in E. destruct (_ ≫= _) as [db|] eqn:Et; injection E as _ <-; [|done].
  apply bind_Ok in Et as ([] & _ & Et). apply bind_Ok in Et as (expected & En & Et).
  apply bind_Ok in Et as ([] & S1 & Et). apply bind_Ok in Et as ([] & S2 & Et). apply reject_Ok in S1, S2. bool_props.
  apply bind_Ok in Et as (db1 & I1 & I2). apply insert_ledger_Ok in I2 as [I2 I3].
  assert (db_ledger db1 = ledger_of w) as Hl by (unfold insert_operation in I1; case_bool_decide; [done|]; by injection I1 as <-).
  rewrite Hl in I2, I3. unfold ledger_of at 1. cbn [with_db aw_db]. rewrite I2. apply ledger_ok_snoc; [done..|].
  intros sequence supply Hc. pose proof (expected_next_chain _ _ _ _ Hc _ En) as ->. done.
Qed.

Lemma mint_admit_ledger json manifested owner nonce vc ic w r w' : ledger_ok (ledger_of w) →
  mint_admit json manifested owner nonce vc ic w = (r, w') → ledger_ok (ledger_of w').
Proof.
  intros Hok E. unfold mint_admit in E.
  apply reading_bind_inv in E as [(e & -> & _)|([] & _ & E)]; [done|].
  apply checked_bind_inv in E as [(e & -> & _)|(request & Er & E)]; [done|]. apply ok_or_Ok in Er.
  do 3 (apply checked_bind_inv in E as [(e & -> & _)|([] & _ & E)]; [done|]).
  apply reading_bind_inv in E as [(e & -> & _)|([p a] & Ev & E)]; [done|].
  apply validate_mint_Ok in Ev as [Ea Hv]. cbn [iq_production_authorization] in Ea.
  pose proof (issuance_typed _ _ _ Er Ea) as Ht.
  apply checked_bind_inv in E as [(e & -> & _)|(o & _ & E)]; [done|]. cbn [fst snd] in E.
  apply prog_bind_inv in E as [(e & E & _)|(u & w1 & E & E2)]; [by eapply insert_mint_ledger|].
  injection E2 as _ <-. by eapply insert_mint_ledger.
Qed.

(** ** Lemmas: restoration *)
Lemma check_backup_row_Ok c operations ids floors b floors' : check_backup_row c operations ids floors b = Ok floors' →
  ∃ p a, imported_row b = ledger_row p a (ma_authorization_id a) (ba_created_at b) ∧ verified p a ∧ authorization_typed a ∧
    ma_authorization_id a ∉ ids ∧ ba_authorization_id b = ma_authorization_id a ∧
    ma_sequence a = (default (0, 0) (floors !! ma_asset_id a)).1 + 1 ∧
    ma_supply_before a = (default (0, 0) (floors !! ma_asset_id a)).2 ∧
    floors' = <[ma_asset_id a := (ma_sequence a, ma_supply_after a)]> floors.
Proof.
  unfold check_backup_row, bad_checkpoint. intros E.
  apply bind_Ok in E as (? & _ & E). apply bind_Ok in E as (? & _ & E). apply bind_Ok in E as ([] & E1 & E).
  apply bind_Ok in E as (o & _ & E). apply bind_Ok in E as (request & Er & E). apply ok_or_Ok in Er.
  apply bind_Ok in E as ([] & E2 & E). apply bind_Ok in E as (expected & E3 & E). apply ok_or_Ok in E3.
  apply bind_Ok in E as ([] & E4 & E). apply bind_Ok in E as (release & _ & E). apply bind_Ok in E as (reference & _ & E).
  apply bind_Ok in E as (policy & _ & E). apply bind_Ok in E as ([] & E5 & E). apply bind_Ok in E as (digest & V & E).
  injection E as <-. apply map_refused_Ok in V. apply reject_Ok in E1, E2, E4, E5.
  repeat match goal with F : _ || _ = false |- _ => apply orb_false_iff in F as [? ?] end. bool_props.
  destruct (verified_supply _ _ _ _ _ _ _ _ V) as (_ & _ & _ & _ & _ & _ & _ & _ & _ & _ & _ & _ & _ & _ & Hcommit & _ & Hissue).
  set (a := ba_authorization b) in *. exists policy, a. unfold checked_add64 in E3. destruct (decide _); [|done]. injection E3 as E3.
  assert (ba_asset_id b = ma_asset_id a) as Hasset by done. rewrite <- Hasset.
  split_and!; try congruence; try lia.
  - unfold imported_row, ledger_row. fold a. congruence.
  - by eexists _, _, _, _.
  - by eapply issuance_typed.
Qed.

Lemma check_backup_ledger c operations l : ∀ ids floors imported, check_backup c operations ids floors l = Ok tt →
  ledger_ok imported → ids ≡ₚ lg_authorization_id <$> imported →
  (∀ asset, supply_chain (asset_rows asset imported) ((default (0, 0) (floors !! asset)).1 + 1) (default (0, 0) (floors !! asset)).2) →
  ledger_ok (imported ++ (imported_row <$> l)).
Proof.
  induction l as [|b l IH]; intros ids floors imported E Hok Hids Hf; cbn [check_backup fmap list_fmap] in *; [by rewrite app_nil_r|].
  apply bind_Ok in E as (floors' & E1 & E). apply check_backup_row_Ok in E1 as (p & a & Ei & Hv & Ht & Hn & Hid & Hs & Hb & ->).
  change (imported_row b :: (imported_row <$> l)) with ([imported_row b] ++ (imported_row <$> l)). rewrite app_assoc.
  assert (ma_authorization_id a ∉ lg_authorization_id <$> imported) as Hn' by by rewrite <- Hids.
  eapply IH; [exact E| | |].
  - rewrite Ei. apply ledger_ok_snoc; [done..|]. intros s v Hc. destruct (supply_chain_unique _ _ _ _ _ Hc (Hf _)) as [-> ->]. done.
  - rewrite fmap_app, Hids, Ei. cbn [fmap list_fmap ledger_row lg_authorization_id]. rewrite Hid. by rewrite Permutation_app_comm.
  - intros asset. rewrite asset_rows_snoc, Ei. cbn [ledger_row lg_asset_id]. case_bool_decide as Ea.
    + subst asset. rewrite lookup_insert_eq. cbn [default fst snd]. rewrite Hs at 1.
      rewrite Hs. apply (chain_snoc _ _ p a (ba_created_at b) _ (Hf _) Hv Ht); [lia|done].
    + rewrite lookup_insert_ne by done. apply Hf.
Qed.

Lemma import_rows_ledger rows : ∀ db db', import_rows rows db = Ok db' → db_ledger db' = db_ledger db ++ rows.
Proof.
  induction rows as [|r rows IH]; intros db db' E; cbn in E; [injection E as <-; by rewrite app_nil_r|].
  apply bind_Ok in E as (db1 & E1 & E). apply insert_ledger_Ok in E1 as [E1 _]. rewrite (IH _ _ E), E1, <- app_assoc. done.
Qed.

Lemma restore_ledger_ok operations rows l w r w' : ledger_ok (ledger_of w) →
  restore_ledger operations rows l w = (r, w') → ledger_ok (ledger_of w').
Proof.
  intros Hok E. unfold restore_ledger in E.
  apply reading_bind_inv in E as [(e & -> & _)|([] & E1 & E)]; [done|]. apply reject_Ok in E1. bool_props.
  apply reading_bind_inv in E as [(e & -> & _)|([] & E2 & E)]; [done|].
  unfold transaction in E. destruct (import_rows _ _) as [db|] eqn:Ei; injection E as _ <-; [|done].
  apply import_rows_ledger in Ei. cbn [with_operations db_ledger] in Ei. apply nil_length_inv in E1.
  unfold ledger_of. cbn [with_db aw_db]. rewrite Ei, E1. eapply check_backup_ledger; [exact E2| |done|].
  - split; [|constructor]. intros asset. exists 1, 0. constructor.
  - intros asset. rewrite lookup_empty. constructor.
Qed.

(** The steps of a wallet's life, as the ledger sees them; reopening, with any configuration, is one that
    leaves it alone. *)
Inductive ledger_step (w w' : AccountWallet) : Prop :=
  | step_admit json manifested owner nonce vc ic : w' = (mint_admit json manifested owner nonce vc ic w).2 → ledger_step w w'
  | step_restore operations rows l : w' = (restore_ledger operations rows l w).2 → ledger_step w w'
  | step_other : ledger_of w' = ledger_of w → ledger_step w w'.

Lemma ledger_step_ok w w' : ledger_step w w' → ledger_ok (ledger_of w) → ledger_ok (ledger_of w').
Proof.
  intros [json manifested owner nonce vc ic ->|operations rows l ->|E] Hok.
  - eapply mint_admit_ledger; [done|apply surjective_pairing].
  - eapply restore_ledger_ok; [done|apply surjective_pairing].
  - by rewrite E.
Qed.

(** Reading a chain as the list of its authorizations. *)
Abbreviation admission := (ProductionIssuancePolicy * ProductionMintAuthorization * Z)%type.
Definition admission_row (x : admission) : LedgerRow := ledger_row x.1.1 x.1.2 (ma_authorization_id x.1.2) x.2.
Definition issued (l : list admission) : Z := foldr Z.add 0 ((λ x, minted x.1.2) <$> l).

Lemma issued_snoc l x : issued (l ++ [x]) = issued l + minted x.1.2.
Proof. unfold issued. rewrite fmap_app, foldr_app. cbn. induction (_ <$> l); cbn; lia. Qed.

Lemma chain_admissions rows sequence supply : supply_chain rows sequence supply →
  ∃ l, rows = admission_row <$> l ∧ sequence = Z.of_nat (length l) + 1 ∧ supply = issued l ∧
    ∀ i p a now, l !! i = Some (p, a, now) → verified p a ∧ ma_sequence a = Z.of_nat i + 1 ∧
      ma_supply_before a = issued (take i l) ∧ ma_supply_after a = issued (take (S i) l) ∧
      ma_supply_after a ≤ ip_max_cumulative_supply_base_units p.
Proof.
  induction 1 as [|rows supply p a now sequence Hc (l & -> & -> & -> & IH) Hv Ht Hs Hb].
  { exists []. split_and!; done. }
  pose proof Hv as (version & commitment & t & digest & V).
  destruct (verified_supply _ _ _ _ _ _ _ _ V) as (_ & _ & _ & Ha & _ & Hcap & _).
  exists (l ++ [(p, a, now)]). rewrite fmap_app, length_app, issued_snoc. cbn [length fst snd]. split_and!; [done|lia|unfold minted; lia|].
  intros i p' a' now' Hi. apply lookup_app_Some in Hi as [Hi|[Hle Hi]].
  - pose proof (lookup_lt_Some _ _ _ Hi). rewrite !take_app_le by lia. by eapply IH.
  - apply list_lookup_singleton_Some in Hi as [Hz [= <- <- <-]]. assert (i = length l) as -> by lia.
    rewrite take_app_length, take_ge by (rewrite length_app; cbn; lia). rewrite issued_snoc. cbn [fst snd].
    split_and!; [done|lia|lia|unfold minted; lia|done].
Qed.

Lemma reachable_ok w0 w : ledger_of w0 = [] → rtc ledger_step w0 w → ledger_ok (ledger_of w).
Proof.
  intros H0' Hs. assert (ledger_ok (ledger_of w0)) as Hok
    by (rewrite H0'; split; [intros x; exists 1, 0; constructor|constructor]).
  clear H0'. induction Hs as [|x y z Hxy _ IH]; [done|]. apply IH. by eapply ledger_step_ok.
Qed.

Lemma chain_rows rows sequence supply r : supply_chain rows sequence supply → r ∈ rows →
  ∃ p a now, r = ledger_row p a (ma_authorization_id a) now ∧ verified p a ∧ authorization_typed a.
Proof.
  induction 1 as [|rows supply p a now sequence _ IH Hv Ht _ _]; [by intros ?%elem_of_nil|].
  intros [Hr| ->%list_elem_of_singleton]%elem_of_app; [by apply IH|]. by exists p, a, now.
Qed.

Lemma ledger_row_inv l r : ledger_ok l → r ∈ l →
  ∃ p a now, r = ledger_row p a (ma_authorization_id a) now ∧ verified p a ∧ authorization_typed a.
Proof.
  intros [Hc _] Hr. destruct (Hc (lg_asset_id r)) as (s & v & Hch). eapply chain_rows; [exact Hch|].
  apply list_elem_of_In, List.filter_In. by rewrite <- list_elem_of_In, bool_decide_eq_true.
Qed.

(** The row with a key, where keys are unique. *)
Lemma find_first_key l r key : NoDup (lg_authorization_id <$> l) → r ∈ l → lg_authorization_id r = key →
  find_first (λ x, bool_decide (lg_authorization_id x = key)) l = Some r.
Proof.
  intros Hd Hr Hk. induction l as [|x l IH]; [by apply elem_of_nil in Hr|]. cbn in Hd. apply NoDup_cons in Hd as [Hn Hd].
  cbn [find_first]. case_bool_decide as Ex.
  - apply elem_of_cons in Hr as [->|Hr]; [done|]. destruct Hn. rewrite Ex, <- Hk. by apply list_elem_of_fmap_2.
  - apply elem_of_cons in Hr as [->|Hr]; [done|]. by apply IH.
Qed.
End ledger_facts.

Section ledger_theorems.
Context `{Build, Poseidon, Sha256, UrlParser, IssuanceCodec, MintKeys, OutPointText, LedgerCodec, !TxidText, !LedgerCodecLaws _}.

(** C35: in every ledger reachable by admissions and restorations under any configurations, the rows of an
    asset are authorizations verified under their policies with sequences 1, 2, 3 and so on, each starting
    at the total minted before it and ending within its policy's cumulative cap; and no authorization is
    consumed twice. *)
Theorem issuance_history w0 w asset : ledger_of w0 = [] → rtc ledger_step w0 w →
  NoDup (lg_authorization_id <$> ledger_of w) ∧
  ∃ l, asset_rows asset (ledger_of w) = admission_row <$> l ∧
    ∀ i p a now, l !! i = Some (p, a, now) → verified p a ∧ ma_sequence a = Z.of_nat i + 1 ∧
      ma_supply_before a = issued (take i l) ∧ ma_supply_after a = issued (take (S i) l) ∧
      ma_supply_after a ≤ ip_max_cumulative_supply_base_units p.
Proof.
  intros H0' Hs. destruct (reachable_ok w0 w H0' Hs) as [Hc Hd]. split; [done|]. destruct (Hc asset) as (sequence & supply & Hch).
  destruct (chain_admissions _ _ _ Hch) as (l & Hl & _ & _ & Hall). by exists l.
Qed.

(** in a reachable ledger the check before signing passes exactly for an authorization that was admitted,
    under a policy with the same commitment, for the operation it was admitted with. *)
Theorem signing_check_is_exact w0 w o p a : ledger_of w0 = [] → rtc ledger_step w0 w →
  verify_production_issuance_ledger_entry w o p a = Ok tt ↔
  op_operation_id o = ma_authorization_id a ∧
  ∃ p' now, ledger_row p' a (ma_authorization_id a) now ∈ ledger_of w ∧ ip_commitment p' = ip_commitment p ∧
    verified p' a ∧ authorization_typed a.
Proof.
  intros H0' Hs. pose proof (reachable_ok w0 w H0' Hs) as Hok. split.
  - intros E. unfold verify_production_issuance_ledger_entry in E. apply bind_Ok in E as (row & E1 & E).
    apply ok_or_Ok, find_first_Some in E1 as [Hin E1]. apply bind_Ok in E as (stored & E2 & E). apply ok_or_Ok in E2.
    destruct (ledger_row_inv _ _ Hok Hin) as (p' & a' & now & -> & Hv & Ht). cbn [ledger_row lg_authorization_json] in E2.
    rewrite authorization_roundtrip in E2 by done. injection E2 as <-.
    apply bind_Ok in E as ([] & _ & E).
    apply bind_Ok in E as (sq & _ & E). apply bind_Ok in E as ([] & A2 & E).
    apply bind_Ok in E as (sb & _ & E). apply bind_Ok in E as ([] & _ & E).
    apply bind_Ok in E as (sa & _ & E). destruct (_ || _ || _ || _) eqn:A4; [done|].
    destruct (_ || _) eqn:A2' in A2; [done|].
    repeat match goal with F : _ || _ = false |- _ => apply orb_false_iff in F as [? ?] end. bool_props.
    match goal with F : a' = a |- _ => subst a' end. split; [done|]. by exists p', now.
  - intros (Ho & p' & now & Hin & Hp & Hv & [T1 T2 T3]). destruct Hok as [_ Hd].
    unfold verify_production_issuance_ledger_entry.
    assert (find_first (λ r, bool_decide (lg_authorization_id r = ma_authorization_id a)) (ledger_of w) =
      Some (ledger_row p' a (ma_authorization_id a) now)) as Ef by (by apply find_first_key).
    unfold ledger_of in Ef. rewrite Ef. cbn [ok_or mbind result_bind ledger_row lg_authorization_json].
    rewrite authorization_roundtrip by done. cbn [ok_or mbind result_bind].
    cbn [ledger_row lg_asset_id lg_sequence_decimal lg_policy_commitment lg_supply_before_decimal lg_supply_after_decimal
      lg_operation_id]. rewrite !decode_encode by done. cbn [mbind result_bind]. rewrite Hp, Ho, !Z.eqb_refl.
    by rewrite !bool_decide_eq_true_2 by done.
Qed.
End ledger_theorems.
