(* ===== verification/AccountDemo.v ===== *)
(** * A concrete account (ffi)

    Instances of the classes of the account wallet that satisfy their laws, and a mainnet
    account with a released registry, an issuance policy of two authorities and a signed
    authorization: the inputs of the witnesses of its theorems. *)

From S2P Require Import Prelude Text Field Commitments Kernel Anchor Batch Chain Accept Wire Block Bitcoin Instrument.
From S2P Require Import Network Peer FullScan Scan Rpc BatchV2 BatchDemo AccountText AccountTypes Observation Issuance.
From S2P Require Import Registry AccountGate AccountJournal IssuanceLedger.
#[local] Open Scope Z_scope.
#[local] Existing Instances demo_sponge small_sha256.

(** ** Instances *)

(** The scheme is https; the host is what precedes the path. *)
Definition demo_url : UrlParser := {|
  url_parse s := rest ← strip_prefix s (lit "https://");
                 let host := match split_once 47 rest with Some (host, _) => host | None => rest end in
                 Some (lit "https", if bool_decide (host = []) then None else Some host) |}.

(** A text of its own for every list of texts. *)
Definition pack (l : list (list (list Z))) : rstring := [Zpos (encode l)].
Definition unpack (s : rstring) : option (list (list (list Z))) := match s with [Zpos p] => decode p | _ => None end.
Lemma unpack_pack l : unpack (pack l) = Some l.
Proof. apply countable.decode_encode. Qed.

(** The payloads carry what the demonstrations vary. *)
Definition demo_issuance_codec : IssuanceCodec := {|
  policy_payload_json p := utf8 (pp_asset_id p) ++ le_bytes 8 (pp_registry_version p) ++ le_bytes 8 (pp_signature_threshold p);
  authorization_payload_json a := utf8 (ap_asset_id a) ++ le_bytes 8 (ap_sequence a) ++ le_bytes 8 (ap_supply_after a) |}.

(** A key is 33 bytes; a signature is the digest followed by the start of its key. *)
Definition demo_keys : MintKeys := {|
  CompactSig := bytes;
  key_from_slice b := if bool_decide (length b = 33%nat) then Some b else None;
  from_compact b := if bool_decide (length b = 64%nat) then Some b else None;
  compact_normalize_s s := s;
  verify_compact s digest key := bool_decide (s = digest ++ take 32 key) |}.

Definition demo_outpoint_text : OutPointText := {|
  outpoint_to_string o := to_hex (op_txid o) ++ 58 :: decimal (vout o);
  outpoint_from_str s :=
    parts ← split_once 58 s; txid ← to_option (from_hex_array 32 parts.1); index ← parse_u32 parts.2;
    Some {| op_txid := txid; vout := index |} |}.

Definition demo_txid : TxidText := λ s, to_option (from_hex_array 32 s).

Definition floor_text (f : ProductionUsdRegistryFloor) : rstring := fl_registry_version f :: fl_commitment f.
Definition demo_registry_codec : RegistryCodec := {|
  registry_payload_json p := le_bytes 8 (rp_registry_version p);
  registry_payload_v2_json p := le_bytes 8 (rp_registry_version (rp_base p)) ++
    concat ((λ r, utf8 (ir_policy_commitment r)) <$> rp_issuance_policy_commitments p);
  rollout_authorization_json p := utf8 (ra_operation_identity p);
  floor_to_string := floor_text;
  floor_from_string s := match s with v :: c => Some {| fl_registry_version := v; fl_commitment := c |} | [] => None end;
  release_from_value _ := None;
  release_to_value _ := Null |}.
Lemma demo_registry_laws : RegistryCodecLaws demo_registry_codec.
Proof. constructor. by intros []. Qed.

Definition transfer_parts (r : TransferRequest) : list (list (list Z)) := [[tq_asset_id r; tq_to_owner r; [tq_amount r]]].
Definition demo_transfer_codec : TransferCodec := {|
  transfer_to_string r := pack (transfer_parts r);
  transfer_from_string s :=
    match unpack s with
    | Some [[asset; owner; [amount]]] =>
      if (0 <=? amount) && (amount <=? u64_max) then Some {| tq_asset_id := asset; tq_to_owner := owner; tq_amount := amount |}
      else None
    | _ => None
    end |}.
Lemma demo_transfer_laws : TransferCodecLaws demo_transfer_codec.
Proof.
  constructor.
  - intros [asset owner amount] [? ?]. unfold transfer_from_string, demo_transfer_codec, transfer_to_string. rewrite unpack_pack.
    cbn [tq_amount tq_asset_id tq_to_owner transfer_parts] in *. rewrite !(proj2 (Z.leb_le _ _)) by (unfold u64_max in *; lia).
    done.
  - intros s r. unfold transfer_from_string, demo_transfer_codec. intros E. repeat (case_match; [|done] || case_match; try done).
    all: try (injection E as <-; bool_props; unfold is_u64, u64_max in *; cbn; lia).
Qed.

Definition authorization_parts (a : ProductionMintAuthorization) : list (list (list Z)) :=
  [[[ma_format_version a; ma_sequence a; ma_supply_before a; ma_supply_after a; ma_not_before a; ma_expires_at a]];
   [ma_authorization_id a; ma_deployment_id a; ma_registry_commitment a; ma_issuance_policy_commitment a; ma_asset_id a;
    ma_to_owner a; ma_funding_outpoint a; ma_amounts a];
   ma_approval_receipts a; as_authority_public_key <$> ma_signatures a; as_signature_compact <$> ma_signatures a].
Definition authorization_of (l : list (list (list Z))) : option ProductionMintAuthorization :=
  match l with
  | [[[format; sequence; before; after; start; expiry]];
     [id; deployment; registry; policy; asset; owner; funding; amounts]; receipts; keys; signatures] => Some {|
    ma_format_version := format; ma_authorization_id := id; ma_deployment_id := deployment; ma_registry_commitment := registry;
    ma_issuance_policy_commitment := policy; ma_asset_id := asset; ma_to_owner := owner; ma_amounts := amounts;
    ma_funding_outpoint := funding; ma_sequence := sequence; ma_supply_before := before; ma_supply_after := after;
    ma_not_before := start; ma_expires_at := expiry; ma_approval_receipts := receipts;
    ma_signatures := zip_with Build_ProductionAuthoritySignature keys signatures |}
  | _ => None
  end.
Lemma authorization_of_parts a : authorization_of (authorization_parts a) = Some a.
Proof.
  destruct a as [? ? ? ? ? ? ? ? ? ? ? ? ? ? ? signatures]. unfold authorization_parts, authorization_of. cbn. do 2 f_equal.
  induction signatures as [|[k s] l IH]; [done|]. cbn. by rewrite IH.
Qed.

Definition typed (a : ProductionMintAuthorization) : bool :=
  forallb (λ v, (0 <=? v) && (v <=? u64_max)) [ma_sequence a; ma_supply_before a; ma_supply_after a].
Lemma typed_typed a : typed a = true ↔ authorization_typed a.
Proof.
  unfold typed. cbn [forallb]. rewrite !andb_true_iff, !Z.leb_le.
  split; [intros (? & ? & ? & _); by constructor|by intros [? ? ?]].
Qed.

Definition demo_ledger_codec : LedgerCodec := {|
  authorization_to_string a := pack (authorization_parts a);
  authorization_from_string s := unpack s ≫= authorization_of;
  issuance_to_string r := pack ([iq_asset_id r; iq_amounts r] ::
    match iq_to_owner r with Some o => [o] | None => [] end ::
    match iq_production_authorization r with Some a => authorization_parts a | None => [] end);
  issuance_from_string s :=
    match unpack s with
    | Some ([asset; amounts] :: owner :: parts) =>
      if match authorization_of parts with Some a => typed a | None => true end
      then Some {| iq_asset_id := asset; iq_to_owner := head owner; iq_amounts := amounts;
                   iq_production_authorization := authorization_of parts |} else None
    | _ => None
    end |}.
Lemma demo_ledger_laws : LedgerCodecLaws demo_ledger_codec.
Proof.
  constructor.
  - intros a _. unfold authorization_from_string, demo_ledger_codec, authorization_to_string. rewrite unpack_pack.
    apply authorization_of_parts.
  - intros s r a. unfold issuance_from_string, demo_ledger_codec. intros E Ea. repeat (case_match; try done).
    all: injection E as <-; cbn in Ea; simplify_eq; by apply typed_typed.
Qed.

#[local] Existing Instances demo_url demo_issuance_codec demo_keys demo_outpoint_text demo_txid demo_registry_codec
  demo_registry_laws demo_transfer_codec demo_transfer_laws demo_ledger_codec demo_ledger_laws.

(** ** A mainnet account *)
Definition deployment : rstring := lit "opencsv-mainnet-1".
Definition receipt : rstring := lit "https://example.org/release".

Definition mainnet_terms : InstrumentTermsV1 := {|
  it_version := it_version demo_terms; it_network := lit "mainnet"; display_name := display_name demo_terms;
  unit_code := unit_code demo_terms; decimals := decimals demo_terms; issuer_name := issuer_name demo_terms;
  terms_uri := terms_uri demo_terms; redemption_summary := redemption_summary demo_terms; test_only := false |}.
Definition mainnet_issuer : UsdIssuerPolicy := {| ui_priority := 0; ui_manifest := {|
  im_terms := mainnet_terms;
  im_genesis := {| issuer_pk := replicate 32 x05; currency_code := utf8 (lit "USD");
    terms_hash := hash_felts "OpenCSV-instrument-terms-v1" [bytes_to_felts (canonical_bytes mainnet_terms)]; nonce := 1 |} |} |}.
Definition asset : rstring := issuer_asset_id mainnet_issuer.

Definition authority (b : byte) : rstring := to_hex (x02 :: replicate 32 b).

Definition policy_draft : ProductionIssuancePolicy := {|
  ip_format_version := 1; ip_policy_version := 1; ip_deployment_id := deployment; ip_registry_version := 1;
  ip_asset_id := asset; ip_authority_public_keys := [authority x01; authority x02]; ip_signature_threshold := 2;
  ip_max_authorization_base_units := 1000; ip_max_cumulative_supply_base_units := 5000;
  ip_max_authorization_lifetime_seconds := 3600; ip_valid_from := 100; ip_expires_at := 100000;
  ip_source_revision := concat (replicate 20 (lit "ab")); ip_approval_receipts := [receipt]; ip_commitment := [] |}.
Definition policy : ProductionIssuancePolicy :=
  with_commitment policy_draft (production_issuance_policy_commitment policy_draft).

Definition demo_rollout : ProductionRolloutPolicy := {|
  phase := Limited; max_transfer_base_units := 60; max_batch_total_base_units := 80;
  max_rolling_24h_outgoing_base_units := 100; max_rolling_24h_operations := 3; max_batch_recipients := 1;
  max_reserve_allocation_sats := 10000; max_miner_fee_sats := 2000 |}.

Definition release_draft (version : Z) : ProductionUsdRegistryRelease := {|
  rr_format_version := 2; rr_registry_version := version; rr_deployment_id := deployment; rr_issuers := [mainnet_issuer];
  rr_rollout := demo_rollout; rr_source_revision := concat (replicate 20 (lit "cd"));
  rr_approval_receipts := [receipt];
  rr_issuance_policy_commitments := [{| ir_asset_id := asset; ir_policy_commitment := ip_commitment policy |}];
  rr_commitment := [] |}.
Definition release (version : Z) : ProductionUsdRegistryRelease :=
  with_release_commitment (release_draft version)
    match production_usd_registry_commitment (release_draft version) with Ok c => c | Err _ => [] end.

Definition host_config (version : Z) : AccountConfig := {|
  cf_version := 2; cf_deployment_id := deployment; cf_network := lit "mainnet";
  cf_esplora_url := lit "https://mempool.space/api"; cf_peers := [lit "a"; lit "b"]; cf_verification_peers := [];
  cf_verification_timeout_secs := 8; cf_max_verification_blocks := 10000; cf_role := Primary;
  cf_backup_verified := true; cf_expected_device_binding_commitment := None; cf_required_confirmations := 1;
  cf_stop_gap := 20; cf_parallel_requests := 4; cf_esplora_request_timeout_secs := 5; cf_esplora_max_retries := 0;
  cf_observation_checks := default_observation_checks (lit "mainnet"); cf_required_raw_observer_quorum := 2;
  cf_watch_external_descriptor := None; cf_watch_internal_descriptor := None; cf_watch_owner := None;
  cf_usd_issuers := []; cf_production_usd_registry := Some (release version);
  cf_production_issuance_policies := [policy]; cf_max_fee_sats := None |}.

(** The configuration as [open_device_bound] leaves it. *)
Definition config (version : Z) : AccountConfig :=
  match prepare_production_usd_registry (host_config version) with Ok c => c | Err _ => host_config version end.

Lemma config_prepared version : 1 ≤ version ≤ 2 → prepared (config version).
Proof. intros Hv. exists (host_config version). assert (version = 1 ∨ version = 2) as [-> | ->] by lia; vm_compute; reflexivity. Qed.

Lemma policies_validate : validate_configured_production_issuance_policies (config 1) = Ok tt.
Proof. vm_compute. reflexivity. Qed.

Definition wallet_of (meta : Meta) : AccountWallet := {|
  aw_config := config 1; aw_device_binding_valid := true; aw_registry_state := Current;
  aw_db := {| db_meta := meta; db_operations := []; db_batches := []; db_members := []; db_ledger := [];
              db_reservations := []; db_stocks := [] |};
  aw_pending_by_operation := ∅; aw_locked_outpoints := [] |}.
Definition fresh_wallet : AccountWallet := wallet_of (set_meta "backup_verified" (lit "1") ∅).

(** ** The registry *)
Lemma registry_never_rolls_back_witness :
  ∃ db1 db2, open_floor (config 1) ∅ = (Ok Current, db1) ∧
    open_floor (config 2) (floor_event (RestoredFloor (lit "mainnet") None) db1) = (Ok Current, db2) ∧
    ∃ r1 r2, cf_production_usd_registry (config 1) = Some r1 ∧ cf_production_usd_registry (config 2) = Some r2 ∧
      (rr_registry_version r1 < rr_registry_version r2 ∨
       rr_registry_version r1 = rr_registry_version r2 ∧ rr_commitment r1 = rr_commitment r2 ∧
       (canonical_release r1 = canonical_release r2 ∨ ∃ x y, x ≠ y ∧ sha256 x = sha256 y)).
Proof.
  eexists _, _.
  assert (E1 : open_floor (config 1) ∅ = (Ok Current, (open_floor (config 1) ∅).2)) by (vm_compute; reflexivity).
  assert (E2 : open_floor (config 2) (floor_event (RestoredFloor (lit "mainnet") None) (open_floor (config 1) ∅).2) = (Ok Current,
    (open_floor (config 2) (floor_event (RestoredFloor (lit "mainnet") None) (open_floor (config 1) ∅).2)).2)) by (vm_compute; reflexivity).
  split_and!; [exact E1|exact E2|].
  refine (registry_never_rolls_back ∅ None (config 1) (config 2) [RestoredFloor (lit "mainnet") None] _ _ _ _ _ _ E1 E2).
  - reflexivity.
  - exact (config_prepared 1 ltac:(lia)).
  - exact (config_prepared 2 ltac:(lia)).
  - apply Forall_singleton. exact I.
Defined.

(** ** Authorizations *)
Definition sign (digest : bytes) (b : byte) : ProductionAuthoritySignature := {|
  as_authority_public_key := authority b; as_signature_compact := to_hex (digest ++ take 32 (x02 :: replicate 32 b)) |}.

(** The [sequence]-th authorization, of 40 base units each. *)
Definition authorization (sequence : Z) : ProductionMintAuthorization :=
  let a id signatures := {|
    ma_format_version := 1; ma_authorization_id := id; ma_deployment_id := deployment;
    ma_registry_commitment := rr_commitment (release 1); ma_issuance_policy_commitment := ip_commitment policy;
    ma_asset_id := asset; ma_to_owner := to_hex (replicate 32 x07); ma_amounts := [15; 25];
    ma_funding_outpoint := outpoint_to_string {| op_txid := replicate 32 x09; vout := 1 |}; ma_sequence := sequence;
    ma_supply_before := 40 * (sequence - 1); ma_supply_after := 40 * sequence; ma_not_before := 500;
    ma_expires_at := 900; ma_approval_receipts := [receipt]; ma_signatures := signatures |} in
  let digest := production_mint_authorization_digest (a [] []) in
  a (to_hex digest) [sign digest x01; sign digest x02].


(** ** The gates: a wallet that only the missing verification key keeps read-only *)
Definition shipped : Build := {| test_assume_authenticated_proof_root := false; issuer_tools := true |}.
Definition test_build : Build := {| test_assume_authenticated_proof_root := true; issuer_tools := true |}.

Lemma only_the_root_key_is_missing : write_block_reason (H := shipped) fresh_wallet =
    Some "production_root_vk_authentication_required"%string ∧ write_block_reason (H := test_build) fresh_wallet = None.
Proof. vm_compute. by split. Qed.

Lemma shipped_mainnet_is_read_only_witness :
  require_product_write_enabled (H := shipped) fresh_wallet ≠ Ok tt ∧
  require_issuance_write_enabled (H := shipped) fresh_wallet ≠ Ok tt ∧ write_enabled (H := shipped) fresh_wallet = false.
Proof. refine (shipped_mainnet_is_read_only (H := shipped) fresh_wallet _ _); vm_compute; reflexivity. Defined.

(** ** Issuance: two admissions *)
#[local] Existing Instance test_build.

Definition mint_request (sequence : Z) : rstring := issuance_to_string {|
  iq_asset_id := asset; iq_to_owner := None; iq_amounts := [15; 25];
  iq_production_authorization := Some (authorization sequence) |}.

Definition admit_mint (w : AccountWallet) (sequence : Z) : result (halt AccountError) rstring * AccountWallet :=
  mint_admit (mint_request sequence) (λ _, true) (to_hex (replicate 32 x07)) (lit "nonce") (Ok 600) (Ok 600) w.

Definition minted_once : AccountWallet := (admit_mint fresh_wallet 1).2.
Definition minted_twice : AccountWallet := (admit_mint minted_once 2).2.

Lemma admissions : is_ok (admit_mint fresh_wallet 1).1 = true ∧ is_ok (admit_mint minted_once 2).1 = true ∧
  length (ledger_of minted_twice) = 2%nat.
Proof. vm_compute. by split_and!. Qed.

(** The same authorization, or one that skips a sequence, is refused. *)
Lemma replays_and_gaps_refused :
  (admit_mint minted_once 1).1 = Err (Refused (account_error "production_issuance_replay"
    "production mint authorization was already admitted")) ∧
  (admit_mint minted_once 3).1 = Err (Refused (account_error "production_issuance_sequence_mismatch"
    "unexpected production issuance sequence")).
Proof. vm_compute. by split. Qed.

Lemma minted_reachable : rtc ledger_step fresh_wallet minted_twice.
Proof.
  eapply rtc_l; [|eapply rtc_once].
  - by apply (step_admit _ minted_once (mint_request 1) (λ _, true) (to_hex (replicate 32 x07)) (lit "nonce") (Ok 600) (Ok 600)).
  - by apply (step_admit _ minted_twice (mint_request 2) (λ _, true) (to_hex (replicate 32 x07)) (lit "nonce") (Ok 600) (Ok 600)).
Qed.

Lemma issuance_history_witness :
  ledger_of fresh_wallet = [] ∧ length (ledger_of minted_twice) = 2%nat ∧
  NoDup (lg_authorization_id <$> ledger_of minted_twice) ∧
  ∃ l, asset_rows asset (ledger_of minted_twice) = admission_row <$> l ∧
    ∀ i p a now, l !! i = Some (p, a, now) → verified p a ∧ ma_sequence a = Z.of_nat i + 1 ∧
      ma_supply_before a = issued (take i l) ∧ ma_supply_after a = issued (take (S i) l) ∧
      ma_supply_after a ≤ ip_max_cumulative_supply_base_units p.
Proof.
  split_and!; [reflexivity|exact (proj2 (proj2 admissions))|..];
    apply (issuance_history fresh_wallet minted_twice asset eq_refl minted_reachable).
Defined.

Definition mint_operation (sequence : Z) : OperationRow :=
  planned_row (ma_authorization_id (authorization sequence)) "mint" (mint_request sequence) (lit "nonce") 600.

#[local] Instance ledger_row_eq_dec : EqDecision LedgerRow.
Proof. solve_decision. Defined.

Lemma second_mint_in_ledger :
  ledger_row policy (authorization 2) (ma_authorization_id (authorization 2)) 600 ∈ ledger_of minted_twice.
Proof. apply (bool_decide_unpack _). vm_compute. exact I. Qed.

Lemma second_mint_verified : verified policy (authorization 2).
Proof. eexists 1, (ip_commitment policy), 600, _. vm_compute. reflexivity. Qed.

Lemma signing_check_is_exact_witness :
  verify_production_issuance_ledger_entry minted_twice (mint_operation 2) policy (authorization 2) = Ok tt.
Proof.
  apply (signing_check_is_exact fresh_wallet minted_twice (mint_operation 2) policy (authorization 2) eq_refl minted_reachable).
  split; [vm_compute; reflexivity|]. exists policy, 600. split_and!; [exact second_mint_in_ledger|reflexivity|exact second_mint_verified|].
  by apply typed_typed.
Defined.

(** ** Transfers: the caps of the rollout *)
Definition transfer_json (amount : Z) : rstring :=
  transfer_to_string {| tq_asset_id := asset; tq_to_owner := to_hex (replicate 32 x07); tq_amount := amount |}.
Definition plan (id : string) (amount : Z) : JournalCall :=
  CallPlan (transfer_json amount) (lit id, lit "nonce") (Ok 600) (Ok 600).
Definition calls : list JournalCall :=
  [plan "a" 50; plan "b" 45; plan "c" 10; CallCancel (lit "b") (Ok 601); plan "d" 20].

(** The third transfer is over the daily total; cancelling makes room again. *)
Lemma planned_transfers :
  op_operation_id <$> db_operations (aw_db (foldl run_journal_call fresh_wallet calls)) = [lit "a"; lit "b"; lit "d"].
Proof. vm_compute. reflexivity. Qed.

Lemma rolling_day_caps_hold_witness :
  production_rollout_policy fresh_wallet = Some demo_rollout ∧
  caps_hold demo_rollout (foldl run_journal_call fresh_wallet calls).
Proof.
  assert (production_rollout_policy fresh_wallet = Some demo_rollout) as E by (vm_compute; reflexivity).
  split; [exact E|]. apply (rolling_day_caps_hold demo_rollout fresh_wallet calls E).
  - intros from. split; cbn; lia.
  - repeat apply List.Forall_cons; try apply List.Forall_nil; try exact I; intros t t' [= <-] [= <-]; lia.
Defined.
