(* ===== verification/Circuit.v ===== *)
(** * Circuit gadgets over the BabyBear field (opencsv-pcd)

    Models [crates/opencsv-pcd/src/value.rs], [hash.rs] and [issuer.rs]: range checks, the
    carry chain of the value balance, the in-circuit sponge, and the issuer
    authorization.  The circuit builder is third-party code; a circuit is modelled as the
    function from the values of its wires to its outputs that is [None] when a constraint
    fails, with the builder's documented operations.  Wires carry base-field elements, as
    canonical integers.  The Poseidon2 permutation is the class [Permutation]. *)

From S2P Require Import Prelude Field Commitments.
From Stdlib Require Import Znumtheory.
#[local] Open Scope Z_scope.

Abbreviation circuit := option.
Abbreviation P := BABY_BEAR_P.

Definition is_felt (x : Z) : Prop := 0 ≤ x < P.
#[export] Instance is_felt_dec x : Decision (is_felt x).
Proof. unfold is_felt. apply _. Defined.

(** A constraint. *)
Definition require (Q : Prop) `{Decision Q} : circuit () := if decide Q then Some tt else None.

(** ** Field operations of the builder *)
Definition fadd (a b : Z) : Z := (a + b) mod P.
Definition fsub (a b : Z) : Z := (a - b) mod P.
Definition fmul (a b : Z) : Z := (a * b) mod P.

(** The inverse by the extended Euclidean algorithm: [s] times the number is [r] modulo [P]. *)
Fixpoint euclid (fuel : nat) (r0 s0 r1 s1 : Z) : Z :=
  match fuel with
  | O => s0
  | S fuel => if r1 =? 0 then s0 else euclid fuel r1 s1 (r0 mod r1) (s0 - r0 / r1 * s1)
  end.
Definition finv (b : Z) : Z := euclid 63 P 0 b 1 mod P.

(** [builder.div]: the quotient is a wire with the constraint that it times the divisor is the dividend. *)
Definition fdiv (a b : Z) : circuit Z :=
  let q := fmul a (finv b) in require (fmul q b = a);; Some q.
Definition assert_zero (x : Z) : circuit () := require (x = 0).
Definition connect (x y : Z) : circuit () := require (x = y).
Definition assert_bool (x : Z) : circuit () := require (x = 0 ∨ x = 1).
Definition fselect (s t f : Z) : Z := fadd f (fmul s (fsub t f)).

(** [decompose_to_bits]: the value has that many bits. *)
Fixpoint bits_of (n : nat) (x : Z) : list Z := match n with O => [] | S n => x mod 2 :: bits_of n (x / 2) end.
Definition decompose_to_bits (x : Z) (n : nat) : circuit (list Z) := require (x < 2 ^ Z.of_nat n);; Some (bits_of n x).
Fixpoint reconstruct_index_from_bits (bits : list Z) : Z :=
  match bits with [] => 0 | b :: bits => fadd b (fmul 2 (reconstruct_index_from_bits bits)) end.

(** ** Values: three limbs of 24, 24 and 16 bits *)
Definition VALUE_LIMBS : nat := 3.
Definition LIMB_BITS : list nat := [24; 24; 16]%nat.

Fixpoint range_check (limbs : list Z) (widths : list nat) : circuit () :=
  match limbs, widths with
  | l :: limbs, n :: widths => decompose_to_bits l n;; range_check limbs widths
  | _, _ => Some tt
  end.
Definition range_check_value (limbs : list Z) : circuit () := range_check limbs LIMB_BITS.

(** One limb of [enforce_sum_eq]: the next carry is in minus one, zero and one. *)
Definition sum_limb (l0 l1 r0 r1 carry : Z) : circuit Z :=
  let t := fsub (fsub (fadd (fadd l0 l1) carry) r0) r1 in
  next ← fdiv t (2 ^ 24);
  assert_zero (fmul (fmul next (fsub next 1)) (fadd next 1));;
  Some next.

Fixpoint sum_limbs (l0 l1 r0 r1 : list Z) (carry : Z) : circuit Z :=
  match l0, l1, r0, r1 with
  | a :: l0, b :: l1, c :: r0, d :: r1 => carry ← sum_limb a b c d carry; sum_limbs l0 l1 r0 r1 carry
  | _, _, _, _ => Some carry
  end.
Definition enforce_sum_eq (l0 l1 r0 r1 : list Z) : circuit () :=
  carry ← sum_limbs l0 l1 r0 r1 0; assert_zero carry.

(** The [u64] of three limbs. *)
Definition limbs_value (l : list Z) : Z :=
  match l with [a; b; c] => a + b * 2 ^ 24 + c * 2 ^ 48 | _ => 0 end.

(** ** The sponge *)
Class Permutation := permute : list Z → list Z.

Definition RATE : nat := 8.
Definition WIDTH : nat := 16.

(** [PaddingFreeSponge]: chunks of the input overwrite the front of the state. *)
Fixpoint absorb `{Permutation} (state : list Z) (cs : list (list Z)) : list Z :=
  match cs with [] => state | c :: cs => absorb (permute (c ++ drop (length c) state)) cs end.
Definition sponge_of `{Permutation} : Poseidon := λ x, take RATE (absorb (replicate WIDTH 0) (chunks RATE x)).

Class SpongeLaws (S : Poseidon) (Q : Permutation) : Prop := {
  permute_length : ∀ s, length s = WIDTH → length (permute s) = WIDTH;
  permute_felts : ∀ s, Forall is_felt (permute s);
  hash_iter_sponge : ∀ x, x ≠ [] → hash_iter x = sponge_of x;
}.

Section hash.
Context `{Permutation}.

(** One permutation row: a limb without an input keeps the previous state, or is zero on a new start. *)
Definition limb (i : nat) (state : list Z) : list Z := take 4 (drop (4 * i) state).
Definition permutation_row (new_start : bool) (in0 in1 : option (list Z)) (state : list Z) : list Z :=
  let previous := if new_start then replicate WIDTH 0 else state in
  permute (default (limb 0 previous) in0 ++ default (limb 1 previous) in1 ++ drop RATE previous).

(** The input of one limb: a partial one is completed from the previous output. *)
Definition limb_input (row i : nat) (chunk state : list Z) : option (circuit (list Z)) :=
  let n := Nat.min (length chunk - 4 * i) 4 in
  if bool_decide (n = 0%nat) then None else
  let coeffs := take n (drop (4 * i) chunk) in
  Some (if bool_decide (n < 4)%nat then require (0 < row)%nat;; Some (coeffs ++ drop n (limb i state)) else Some coeffs).

Definition optional (input : option (circuit (list Z))) : circuit (option (list Z)) :=
  match input with None => Some None | Some c => x ← c; Some (Some x) end.

Fixpoint sponge_rows (row : nat) (cs : list (list Z)) (state : list Z) : circuit (list Z) :=
  match cs with
  | [] => Some state
  | chunk :: cs =>
    in0 ← optional (limb_input row 0 chunk state); in1 ← optional (limb_input row 1 chunk state);
    sponge_rows (S row) cs (permutation_row (bool_decide (row = 0%nat)) in0 in1 state)
  end.

(** The rate part of the last row: the eight elements of the digest. *)
Definition sponge_absorb (absorbed : list Z) : circuit (list Z) :=
  require (RATE ≤ length absorbed)%nat;;
  state ← sponge_rows 0 (chunks RATE absorbed) (replicate WIDTH 0);
  Some (take RATE state).

Definition domain_felts (tag : string) : list Z := bytes_to_felts (domain_bytes tag).
Definition absorption (domain : string) (parts : list (list Z)) : list Z :=
  let d := domain_felts domain in
  let n := (length d + sum_list (length <$> parts))%nat in
  felt (Z.of_nat n mod 2 ^ 32) :: d ++ concat parts.

Definition hash_felts_base (domain : string) (parts : list (list Z)) : circuit (list Z) :=
  sponge_absorb (absorption domain parts).
Definition connect_digest (digest elems : list Z) : circuit () := require (digest = elems).

Definition coin_commitment_base (asset_id value owner randomness : list Z) : circuit (list Z) :=
  hash_felts_base "coin" [asset_id; value; owner; randomness].

(** ** Issuer authorization *)
Definition ISSUER_SECRET_ELEMS : nat := 11.
Definition ISSUER_GENESIS_ELEMS : nat := 1 + DIGEST_ELEMS + VALUE_LIMBS.
Definition ISSUER_AUTH_ELEMS : nat := ISSUER_SECRET_ELEMS + ISSUER_GENESIS_ELEMS.

Record IssuerWitness := { iw_secret : list Z; iw_currency : list Z; iw_terms_hash : list Z; iw_nonce : list Z }.
Definition issuer_witness_layout (private : list Z) : IssuerWitness := {|
  iw_secret := slice 0 11 private; iw_currency := slice 11 12 private;
  iw_terms_hash := slice 12 20 private; iw_nonce := slice 20 23 private |}.

Definition witness_values (secret : bytes) (g : AssetGenesis) : list Z :=
  bytes_to_felts secret ++ bytes_to_felts (currency_code g) ++ to_elems (terms_hash g) ++ u64_to_felts (nonce g).

(** The four bytes of a digest element, as bits. *)
Fixpoint element_bytes (digest : list Z) : circuit (list (list Z)) :=
  match digest with
  | [] => Some []
  | e :: digest =>
    bits ← decompose_to_bits e 31;
    rest ← element_bytes digest;
    Some (slice 0 8 bits :: slice 8 16 bits :: slice 16 24 bits :: (slice 24 31 bits ++ [0]) :: rest)
  end.
Definition digest_to_byte_felts (digest : list Z) : circuit (list Z) :=
  bytes_bits ← element_bytes digest;
  Some ((λ chunk, reconstruct_index_from_bits (concat chunk)) <$> chunks 3 bytes_bits).

Definition enforce_authorization (claimed_asset_id : list Z) (w : IssuerWitness) : circuit () :=
  range_check (iw_secret w) (replicate 10 24%nat ++ [16%nat]);;
  range_check (iw_currency w) [24%nat];;
  range_check (iw_terms_hash w) (replicate 8 31%nat);;
  range_check_value (iw_nonce w);;
  issuer_pk ← hash_felts_base "issuer-key-v1" [iw_secret w];
  issuer_pk_bytes ← digest_to_byte_felts issuer_pk;
  asset_id ← hash_felts_base "OpenCSV-asset" [issuer_pk_bytes; iw_currency w; iw_terms_hash w; iw_nonce w];
  connect_digest asset_id claimed_asset_id.
End hash.

(** ** Lemmas: the field *)

Lemma require_Some Q `{Decision Q} u : require Q = Some u ↔ Q.
Proof. unfold require. destruct u. case_decide; naive_solver. Qed.

Lemma require_true Q `{Decision Q} : Q → require Q = Some tt.
Proof. intros. by apply require_Some. Qed.

Fixpoint no_divisor (n : nat) (d p : Z) : bool :=
  match n with O => true | S n => negb (p mod d =? 0) && no_divisor n (d + 2) p end.

Lemma no_divisor_sound n : ∀ d p k, no_divisor n d p = true → 0 ≤ k < Z.of_nat n → p mod (d + 2 * k) ≠ 0.
Proof.
  induction n as [|n IH]; intros d p k E Hk; [lia|]. cbn [no_divisor] in E. bool_props.
  destruct (decide (k = 0)) as [->|]; [by rewrite Z.add_0_r|].
  replace (d + 2 * k) with (d + 2 + 2 * (k - 1)) by lia. apply IH; [done|lia].
Qed.

Lemma no_small_divisor : no_divisor (Z.to_nat 22434) 3 P = true.
Proof. vm_compute. reflexivity. Qed.

Lemma prime_P : prime P.
Proof.
  apply prime_alt. split; [unfold BABY_BEAR_P; lia|]. intros n Hn [m Hm]. pose proof no_small_divisor as Hc.
  assert (∀ d, 1 < d → d * d ≤ P → (d | P) → False) as Hd.
  { intros d H1 H2 Hd. destruct (Z.Even_or_Odd d) as [[k Hk]|[k Hk]].
    - destruct Hd as [q Hq]. apply (f_equal (λ z, z mod 2)) in Hq.
      replace (q * d) with (q * k * 2) in Hq by (subst d; ring). rewrite Z_mod_mult in Hq. by vm_compute in Hq.
    - assert (d ≤ 44869) by (unfold BABY_BEAR_P in *; nia). apply (no_divisor_sound _ _ _ (k - 1) Hc); [lia|].
      replace (3 + 2 * (k - 1)) with d by lia. apply Z.mod_divide; [lia|done]. }
  destruct (decide (n ≤ m)).
  - apply (Hd n); [lia|nia|by exists m].
  - apply (Hd m); [unfold BABY_BEAR_P in *; nia|nia|exists n; lia].
Qed.

Lemma is_felt_mod x : is_felt (x mod P).
Proof. apply Z.mod_pos_bound. done. Qed.

Lemma fmul_zero a b : is_felt a → is_felt b → fmul a b = 0 → a = 0 ∨ b = 0.
Proof.
  unfold is_felt, fmul. intros Ha Hb E. apply Z.mod_divide in E; [|done].
  apply (prime_mult _ prime_P) in E as [E|E]; apply Z.mod_divide in E; try done; rewrite Z.mod_small in E by done; auto.
Qed.

(** Each pair of rounds halves the remainder, so sixty-three rounds are enough. *)
Lemma euclid_inverse b n : ∀ r0 s0 r1 s1 : Z,
  0 ≤ r1 < r0 → r1 < 2 ^ Z.of_nat n → Z.gcd r0 r1 = 1 → (s0 * b) mod P = r0 mod P → (s1 * b) mod P = r1 mod P →
  (euclid (S (2 * n)) r0 s0 r1 s1 * b) mod P = 1 mod P.
Proof.
  assert (∀ r0 s0 r1 s1, r1 ≠ 0 → (s0 * b) mod P = r0 mod P → (s1 * b) mod P = r1 mod P →
    ((s0 - r0 / r1 * s1) * b) mod P = (r0 mod r1) mod P) as Hstep.
  { intros r0 s0 r1 s1 Hr E0 E1. rewrite (Z.mod_eq r0 r1) by done. rewrite Z.mul_sub_distr_r, Zminus_mod, E0.
    replace (r0 / r1 * s1 * b) with (r0 / r1 * (s1 * b)) by ring. rewrite Zmult_mod, E1, <- Zmult_mod, <- Zminus_mod.
    f_equal. ring. }
  assert (∀ f r0 s0 s1, Z.gcd r0 0 = 1 → 0 < r0 → (s0 * b) mod P = r0 mod P →
    (euclid (S f) r0 s0 0 s1 * b) mod P = 1 mod P) as Hend.
  { intros f r0 s0 s1 Hg Hp E. cbn. rewrite Z.gcd_0_r, Z.abs_eq in Hg by lia. by rewrite E, Hg. }
  induction n as [|n IH]; intros r0 s0 r1 s1 Hr Hn Hg E0 E1.
  - assert (r1 = 0) as -> by (cbn in Hn; lia). apply Hend; [done|lia|done].
  - replace (S (2 * S n)) with (S (S (S (2 * n)))) by lia. destruct (decide (r1 = 0)) as [->|Hz]; [apply Hend; [done|lia|done]|].
    cbn [euclid]. rewrite (proj2 (Z.eqb_neq _ _) Hz).
    pose proof (Z.mod_pos_bound r0 r1 ltac:(lia)) as Hb.
    assert (Z.gcd r1 (r0 mod r1) = 1) as Hg2 by (rewrite Z.gcd_comm, Z.gcd_mod by lia; by rewrite Z.gcd_comm).
    pose proof (Hstep _ _ _ _ Hz E0 E1) as E2. destruct (decide (r0 mod r1 = 0)) as [Hz2|Hz2].
    + rewrite Hz2 in *. rewrite Z.gcd_0_r, Z.abs_eq in Hg2 by lia. cbn. by rewrite E1, Hg2.
    + rewrite (proj2 (Z.eqb_neq _ _) Hz2). set (r2 := r0 mod r1) in *.
      pose proof (Z.mod_pos_bound r1 r2 ltac:(lia)) as Hb2.
      apply IH; [lia| |by rewrite Z.gcd_comm, Z.gcd_mod, Z.gcd_comm by lia|done|by apply Hstep].
      rewrite Nat2Z.inj_succ, Z.pow_succ_r in Hn by lia.
      pose proof (Z.div_mod r1 r2 ltac:(lia)). pose proof (Z.div_str_pos r1 r2 ltac:(lia)). nia.
Qed.

Lemma finv_spec b : is_felt b → b ≠ 0 → fmul b (finv b) = 1.
Proof.
  intros Hb Hn. unfold fmul, finv. rewrite Z.mul_mod_idemp_r by done. rewrite Z.mul_comm.
  change 63%nat with (S (2 * 31)). rewrite euclid_inverse; [done| | |..].
  - unfold is_felt in Hb. lia.
  - unfold is_felt, BABY_BEAR_P in Hb. lia.
  - apply Zgcd_1_rel_prime. apply rel_prime_sym, rel_prime_le_prime; [apply prime_P|unfold is_felt in Hb; lia].
  - rewrite Z.mul_0_l, Z.mod_same by done. done.
  - by rewrite Z.mul_1_l.
Qed.

Lemma fdiv_Some a b q : is_felt a → is_felt b → b ≠ 0 → fdiv a b = Some q ↔ is_felt q ∧ fmul q b = a.
Proof.
  intros Ha Hb Hn. unfold fdiv. set (q0 := fmul a (finv b)).
  assert (fmul q0 b = a) as E0.
  { pose proof (finv_spec b Hb Hn) as E. unfold q0, fmul in *. rewrite Z.mul_mod_idemp_l by done.
    rewrite <- Z.mul_assoc, (Z.mul_comm (finv b) b). rewrite <- Z.mul_mod_idemp_r by done. rewrite E, Z.mul_1_r.
    by apply Z.mod_small. }
  rewrite require_true by done. cbn [mbind option_bind]. split; [intros [= <-]; split; [apply is_felt_mod|done]|].
  intros [Hq E]. f_equal.
  assert (fmul (fsub q0 q) b = 0) as Ez.
  { unfold fmul, fsub in *. rewrite Z.mul_mod_idemp_l, Z.mul_sub_distr_r, Zminus_mod by done. rewrite E0, E.
    by rewrite Z.sub_diag. }
  apply fmul_zero in Ez as [Ez|Ez]; [|done|apply is_felt_mod|done].
  unfold fsub in Ez. apply Z.mod_divide in Ez as [k Ek]; [|done].
  pose proof (is_felt_mod (a * finv b)) as Hq0. fold (fmul a (finv b)) in Hq0. fold q0 in Hq0. clearbody q0. unfold is_felt, BABY_BEAR_P in *. lia.
Qed.

(** ** Lemmas: the value balance *)

Definition limbs_ok (l : list Z) : Prop :=
  match l with [a; b; c] => 0 ≤ a < 2 ^ 24 ∧ 0 ≤ b < 2 ^ 24 ∧ 0 ≤ c < 2 ^ 16 | _ => False end.

Lemma decompose_Some x n bits : decompose_to_bits x n = Some bits ↔ x < 2 ^ Z.of_nat n ∧ bits = bits_of n x.
Proof. unfold decompose_to_bits, require. case_decide; cbn; naive_solver. Qed.

Lemma range_check_cons l limbs n widths u :
  range_check (l :: limbs) (n :: widths) = Some u ↔ l < 2 ^ Z.of_nat n ∧ range_check limbs widths = Some u.
Proof.
  cbn [range_check]. rewrite bind_Some. setoid_rewrite decompose_Some. naive_solver.
Qed.

Lemma range_check_value_ok l u : length l = VALUE_LIMBS → Forall is_felt l → range_check_value l = Some u ↔ limbs_ok l.
Proof.
  intros Hl Hf. destruct l as [|a [|b [|c [|]]]]; try done. rewrite !Forall_cons in Hf. unfold range_check_value, LIMB_BITS.
  rewrite !range_check_cons. cbn [range_check limbs_ok]. unfold is_felt in Hf. destruct u. naive_solver lia.
Qed.

(** A carry of minus one, zero or one, as a field element. *)
Lemma carry_roots c : is_felt c →
  fmul (fmul c (fsub c 1)) (fadd c 1) = 0 ↔ ∃ k, -1 ≤ k ≤ 1 ∧ c = k mod P.
Proof.
  intros Hc. split.
  - intros E. apply fmul_zero in E as [E|E]; [| |apply is_felt_mod..].
    + apply fmul_zero in E as [->|E]; [by exists 0|exists 1; split; [lia|]|done|apply is_felt_mod].
      unfold fsub in E. apply Z.mod_divide in E as [k Ek]; [|done]. unfold is_felt in Hc.
      rewrite Z.mod_small by (unfold BABY_BEAR_P; lia). unfold BABY_BEAR_P in *. lia.
    + exists (-1). split; [lia|]. unfold fadd in E. apply Z.mod_divide in E as [k Ek]; [|done]. unfold is_felt in Hc.
      change (-1 mod P) with (P - 1). unfold BABY_BEAR_P in *. lia.
  - intros (k & Hk & ->). assert (k = -1 ∨ k = 0 ∨ k = 1) as [->|[->| ->]] by lia; reflexivity.
Qed.

(** One limb computes over the integers: no difference is large enough to wrap. *)
Lemma sum_limb_exact a b c d k out : 0 ≤ a < 2 ^ 24 → 0 ≤ b < 2 ^ 24 → 0 ≤ c < 2 ^ 24 → 0 ≤ d < 2 ^ 24 → -1 ≤ k ≤ 1 →
  sum_limb a b c d (k mod P) = Some out ↔ ∃ k', -1 ≤ k' ≤ 1 ∧ out = k' mod P ∧ a + b + k - c - d = 2 ^ 24 * k'.
Proof.
  intros Ha Hb Hc Hd Hk. unfold sum_limb.
  assert (fsub (fsub (fadd (fadd a b) (k mod P)) c) d = (a + b + k - c - d) mod P) as ->.
  { unfold fsub, fadd. rewrite Zplus_mod_idemp_l, Zplus_mod_idemp_r, (Zminus_mod_idemp_l (a + b + k) c P), Zminus_mod_idemp_l. done. }
  set (t := a + b + k - c - d). assert (- 2 ^ 26 < t < 2 ^ 26) as Ht by lia. rewrite bind_Some. split.
  - intros (q & Eq & E). apply bind_Some in E as ([] & E & [= <-]). unfold assert_zero in E. apply require_Some in E.
    apply fdiv_Some in Eq as [Hq Eq]; [|apply is_felt_mod|unfold is_felt, BABY_BEAR_P; lia|lia].
    apply carry_roots in E; [|done]. destruct E as (k' & Hk' & ->). exists k'. split; [done|]. split; [done|].
    unfold fmul in Eq. rewrite Z.mul_mod_idemp_l in Eq by done.
    assert ((t - 2 ^ 24 * k') mod P = 0) as Ez.
    { rewrite Zminus_mod, <- Eq, (Z.mul_comm (2 ^ 24)), Z.sub_diag. done. }
    apply Z.mod_divide in Ez as [j Ej]; [|done]. unfold BABY_BEAR_P in Ej. lia.
  - intros (k' & Hk' & -> & Et). exists (k' mod P). split.
    + apply fdiv_Some; [apply is_felt_mod|unfold is_felt, BABY_BEAR_P; lia|lia|]. split; [apply is_felt_mod|].
      unfold fmul. rewrite Z.mul_mod_idemp_l by done. by rewrite Et, (Z.mul_comm k').
    + rewrite bind_Some. exists tt. split; [|done]. apply require_Some, carry_roots; [apply is_felt_mod|eauto].
Qed.

(** Over range-checked limbs the carry chain is satisfied exactly when the two sums are equal as integers. *)
Lemma sum_eq_iff l0 l1 r0 r1 : limbs_ok l0 → limbs_ok l1 → limbs_ok r0 → limbs_ok r1 →
  enforce_sum_eq l0 l1 r0 r1 = Some tt ↔ limbs_value l0 + limbs_value l1 = limbs_value r0 + limbs_value r1.
Proof.
  intros H0 H1 H2 H3. destruct l0 as [|a0 [|a1 [|a2 [|]]]], l1 as [|b0 [|b1 [|b2 [|]]]], r0 as [|c0 [|c1 [|c2 [|]]]],
    r1 as [|d0 [|d1 [|d2 [|]]]]; try done. cbn [limbs_ok limbs_value] in *. unfold enforce_sum_eq. cbn [sum_limbs].
  change 0 with (0 mod P) at 1. split.
  - intros E. apply bind_Some in E as (k & E & Z0). apply bind_Some in E as (k1 & E1 & E).
    apply sum_limb_exact in E1 as (j1 & J1 & -> & E1); [|lia..]. apply bind_Some in E as (k2 & E2 & E).
    apply sum_limb_exact in E2 as (j2 & J2 & -> & E2); [|lia..]. apply bind_Some in E as (k3 & E3 & [= <-]).
    apply sum_limb_exact in E3 as (j3 & J3 & -> & E3); [|lia..]. unfold assert_zero in Z0. apply require_Some in Z0.
    assert (j3 = 0) as -> by (assert (j3 = -1 ∨ j3 = 0 ∨ j3 = 1) as [->|[->| ->]] by lia; by vm_compute in Z0). lia.
  - intros E. assert (∃ j1, -1 ≤ j1 ≤ 1 ∧ a0 + b0 + 0 - c0 - d0 = 2 ^ 24 * j1) as (j1 & J1 & E1).
    { exists ((c2 + d2 - a2 - b2) * 2 ^ 24 + (c1 + d1 - a1 - b1)). lia. }
    assert (∃ j2, -1 ≤ j2 ≤ 1 ∧ a1 + b1 + j1 - c1 - d1 = 2 ^ 24 * j2) as (j2 & J2 & E2).
    { exists (c2 + d2 - a2 - b2). lia. }
    assert (sum_limb a0 b0 c0 d0 (0 mod P) = Some (j1 mod P)) as -> by (apply sum_limb_exact; eauto; lia).
    cbn [mbind option_bind].
    assert (sum_limb a1 b1 c1 d1 (j1 mod P) = Some (j2 mod P)) as -> by (apply sum_limb_exact; eauto; lia).
    cbn [mbind option_bind].
    assert (sum_limb a2 b2 c2 d2 (j2 mod P) = Some (0 mod P)) as -> by (apply sum_limb_exact; [lia..|exists 0; lia]).
    reflexivity.
Qed.

Definition range_checked_sum (l0 l1 r0 r1 : list Z) : circuit () :=
  range_check_value l0;; range_check_value l1;; range_check_value r0;; range_check_value r1;; enforce_sum_eq l0 l1 r0 r1.

(** C6: of any field elements, the range checks and the carry chain accept exactly four [u64] values whose two
    sums are equal as integers: the field cannot fake a balance, and every balance has its carries. *)
Theorem value_balance_exact l0 l1 r0 r1 : Forall (λ l, length l = VALUE_LIMBS ∧ Forall is_felt l) [l0; l1; r0; r1] →
  range_checked_sum l0 l1 r0 r1 = Some tt ↔
  Forall limbs_ok [l0; l1; r0; r1] ∧ limbs_value l0 + limbs_value l1 = limbs_value r0 + limbs_value r1.
Proof.
  rewrite !Forall_cons. intros ([N0 F0] & [N1 F1] & [N2 F2] & [N3 F3] & _). unfold range_checked_sum. split.
  - intros E. apply bind_Some in E as (u0 & ?%range_check_value_ok & E); [|done..].
    apply bind_Some in E as (u1 & ?%range_check_value_ok & E); [|done..].
    apply bind_Some in E as (u2 & ?%range_check_value_ok & E); [|done..].
    apply bind_Some in E as (u3 & ?%range_check_value_ok & E); [|done..]. split; [by repeat constructor|by apply sum_eq_iff].
  - intros [(K0 & K1 & K2 & K3 & _) E].
    rewrite (proj2 (range_check_value_ok l0 tt N0 F0) K0), (proj2 (range_check_value_ok l1 tt N1 F1) K1),
      (proj2 (range_check_value_ok r0 tt N2 F2) K2), (proj2 (range_check_value_ok r1 tt N3 F3) K3).
    cbn [mbind option_bind]. by apply sum_eq_iff.
Qed.

(** Two amounts of the largest value balance two others, although each sum is above [u64]. *)
Lemma value_balance_exact_witness :
  let top := [2 ^ 24 - 1; 2 ^ 24 - 1; 2 ^ 16 - 1] in
  limbs_value top = u64_max ∧ range_checked_sum top top top top = Some tt.
Proof.
  intros top. split; [reflexivity|]. apply (value_balance_exact top top top top).
  - repeat constructor; unfold BABY_BEAR_P; lia.
  - split; [|reflexivity]. repeat constructor; cbn; lia.
Defined.

(** ** Lemmas: the sponge *)
Section sponge.
Context `{Permutation, !Poseidon, !SpongeLaws _ _}.

(** A full row after the first, or any row that does not need the first one's output. *)
Lemma sponge_row row chunk state : length state = WIDTH → (0 < length chunk ≤ 8)%nat →
  (row = 0%nat → length chunk = 8%nat ∧ state = replicate WIDTH 0) →
  ∃ in0 in1, optional (limb_input row 0 chunk state) = Some in0 ∧ optional (limb_input row 1 chunk state) = Some in1 ∧
    permutation_row (bool_decide (row = 0%nat)) in0 in1 state = permute (chunk ++ drop (length chunk) state).
Proof.
  intros Hs Hc Hr. unfold WIDTH in Hs.
  do 16 (destruct state as [|? state]; [discriminate|]). destruct state; [|discriminate].
  destruct chunk as [|? [|? [|? [|? [|? [|? [|? [|? [|? ?]]]]]]]]]; cbn [length] in Hc, Hr; try lia.
  all: destruct row as [|row]; [destruct (Hr eq_refl) as [? Hz]; try lia; cbv in Hz; simplify_eq|].
  all: do 2 eexists; split_and!; [reflexivity|reflexivity|reflexivity].
Qed.

Lemma permute_absorbed chunk state : length state = WIDTH → (length chunk ≤ 8)%nat →
  length (permute (chunk ++ drop (length chunk) state)) = WIDTH.
Proof. intros Hs Hc. apply permute_length. rewrite length_app, length_drop. unfold WIDTH in *. lia. Qed.

Lemma sponge_rows_absorb cs : ∀ row state, length state = WIDTH → Forall (λ c, 0 < length c ≤ 8)%nat cs →
  (row = 0%nat → state = replicate WIDTH 0 ∧ ∀ c, head cs = Some c → length c = 8%nat) →
  sponge_rows row cs state = Some (absorb state cs).
Proof.
  induction cs as [|c cs IH]; intros row state Hs Hf Hr; [done|]. apply Forall_cons in Hf as [Hc Hf].
  destruct (sponge_row row c state Hs Hc) as (in0 & in1 & E0 & E1 & E).
  { intros ->. destruct Hr as [? Hh]; [done|]. by split; [apply Hh|]. }
  cbn [sponge_rows absorb]. rewrite E0. cbn [mbind option_bind]. rewrite E1. cbn [mbind option_bind]. rewrite E.
  apply IH; [apply permute_absorbed; [done|lia]|done|done].
Qed.

(** The rows of the circuit's sponge compute the digest of the library's hash. *)
Lemma hash_base_rows domain parts : (RATE ≤ length (hash_input domain parts))%nat →
  hash_felts_base domain parts = Some (hash_iter (hash_input domain parts)).
Proof.
  intros Hl. unfold hash_felts_base, sponge_absorb. change (absorption domain parts) with (hash_input domain parts).
  rewrite require_true by done. cbn [mbind option_bind]. rewrite hash_iter_sponge by done.
  rewrite sponge_rows_absorb; [done|done| |].
  - pose proof (chunks_bound RATE (hash_input domain parts) ltac:(unfold RATE; lia)) as Hb.
    eapply Forall_impl; [exact Hb|]. cbn. unfold RATE. lia.
  - intros _. split; [done|]. intros c. rewrite chunks_cons; [|unfold RATE; lia|by intros E; rewrite E in Hl; cbn in Hl; unfold RATE in Hl; lia].
    change (head (?x :: _)) with (Some x). intros E. apply (inj Some) in E as <-. rewrite length_take. unfold RATE in *. lia.
Qed.

(** C7: the rows of the circuit's sponge - limbs that keep the previous output, a partial last limb - compute
    exactly the digest of the library's hash, for every domain and every input of at least one full row; a
    shorter input is refused. *)
Theorem circuit_hash_exact domain parts h :
  hash_felts_base domain parts = Some h ↔
  (RATE ≤ length (hash_input domain parts))%nat ∧ h = hash_iter (hash_input domain parts).
Proof.
  split; [|by intros [? ->]; apply hash_base_rows]. intros E. assert (RATE ≤ length (hash_input domain parts))%nat as Hl.
  { unfold hash_felts_base, sponge_absorb in E. apply bind_Some in E as ([] & Hl & _). by apply require_Some in Hl. }
  rewrite hash_base_rows in E by done. by injection E.
Qed.
End sponge.

(** ** A concrete permutation *)

(** Every element is shifted by one weighted checksum of the state. *)
Definition normal (x : Z) : Z := if (0 <=? x) && (x <? P) then x else if (P <=? x) && (x <? 2 * P) then x - P else x mod P.
Definition demo_permutation : Permutation := λ s,
  let checksum := foldl (λ acc e, acc * 32 + acc + e) 7 s mod P in
  (λ i : nat, normal (checksum + (nth i s 0 + 97 * Z.of_nat i))) <$> seq 0 WIDTH.
Definition permutation_sponge : Poseidon := sponge_of (H := demo_permutation).

Lemma demo_permutation_length s : length (demo_permutation s) = WIDTH.
Proof. unfold demo_permutation. by rewrite length_fmap, length_seq. Qed.

Lemma demo_permutation_felts s : Forall is_felt (demo_permutation s).
Proof.
  apply Forall_fmap, Forall_forall. intros i _. unfold compose, normal.
  destruct ((0 <=? _) && _) eqn:E1; [|destruct ((P <=? _) && _) eqn:E2; [|apply is_felt_mod]];
    [rewrite andb_true_iff, Z.leb_le, Z.ltb_lt in E1|rewrite andb_true_iff, Z.leb_le, Z.ltb_lt in E2]; unfold is_felt; lia.
Qed.

Lemma absorb_state cs : ∀ state, length state = WIDTH → Forall is_felt state →
  length (absorb (H := demo_permutation) state cs) = WIDTH ∧ Forall is_felt (absorb (H := demo_permutation) state cs).
Proof.
  induction cs as [|c cs IH]; intros state Hl Hf; [done|]. apply IH; [apply demo_permutation_length|apply demo_permutation_felts].
Qed.

Lemma permutation_sponge_laws : PoseidonLaws permutation_sponge.
Proof.
  split; intros x; unfold hash_iter, permutation_sponge, sponge_of;
    destruct (absorb_state (chunks RATE x) (replicate WIDTH 0)) as [Hl Hf]; try done;
    try (by apply Forall_replicate).
  - by rewrite length_take, Hl.
  - by apply Forall_take.
Qed.

Lemma demo_sponge_of : SpongeLaws permutation_sponge demo_permutation.
Proof. split; [intros; apply demo_permutation_length|apply demo_permutation_felts|done]. Qed.

(** Field elements to try the circuits on. *)
Definition seq_elems (n : nat) : list Z := Z.of_nat <$> seq 1 n.

Lemma circuit_hash_exact_witness :
  hash_felts_base (H := demo_permutation) "null" [seq_elems 11; seq_elems 8]
  = Some (permutation_sponge (hash_input "null" [seq_elems 11; seq_elems 8])).
Proof.
  refine (proj2 (circuit_hash_exact (SpongeLaws0 := demo_sponge_of) "null" [seq_elems 11; seq_elems 8] _) _).
  split; [vm_compute; lia|reflexivity].
Defined.
