(* ===== verification/Pcd.v ===== *)
(** * Coin proofs: the four circuits, the provers and the verifier (opencsv-pcd)

    Models [crates/opencsv-pcd/src/node.rs] and [security.rs]: the statement table's layout,
    the witness layouts, the mint, transfer, one-input transfer and redeem circuits with
    the constraints that chain a predecessor, the host checks of the provers and
    [verify_coin_proof].  The STARK itself is third-party code: a class [StarkSystem] of
    what the source reads of a proof and calls on it, with the laws [StarkLaws] a proof
    system promises.  A verification key is the construction of the circuit it was set up
    for ([Shape]), [Foreign] for every circuit this crate does not build.  Errors the
    circuit builder could return on a well-shaped circuit are not modelled. *)

From S2P Require Import Prelude Field Commitments Circuit.
#[local] Open Scope Z_scope.

(** ** Statements *)
Definition NODE_INPUTS : nat := 2.
Definition NODE_OUTPUTS : nat := 2.
Definition LEGACY_COIN_PROOF_VERSION : Z := 3.
Definition COIN_PROOF_VERSION : Z := 4.

Definition STATEMENT_ELEMS : nat := 2 + 4 * DIGEST_ELEMS + VALUE_LIMBS + 2 * DIGEST_ELEMS.
Definition OFF_ASSET : nat := 2.
Definition OFF_VALUE : nat := OFF_ASSET + DIGEST_ELEMS.
Definition OFF_MINT_COMMIT : nat := OFF_VALUE + VALUE_LIMBS.
Definition OFF_NULLIFIERS : nat := OFF_MINT_COMMIT + DIGEST_ELEMS.
Definition OFF_OUTPUTS : nat := OFF_NULLIFIERS + NODE_INPUTS * DIGEST_ELEMS.
Definition STATEMENT_PUBLIC_VALUES : nat := 4 * STATEMENT_ELEMS.

Inductive NodeMode := MintMode | TransferMode | RedeemMode.
#[export] Instance node_mode_eq_dec : EqDecision NodeMode.
Proof. solve_decision. Defined.

Record NodeStatement := {
  st_asset_id : bytes;
  st_value : Z;
  st_mint_commit : bytes;
  st_nullifiers : bytes * bytes;
  st_output_commitments : bytes * bytes;
}.
#[export] Instance node_statement_eq_dec : EqDecision NodeStatement.
Proof. solve_decision. Defined.

Definition mode_elem (mode : NodeMode) : Z :=
  match mode with MintMode => 1 | TransferMode => 0 | RedeemMode => 2 end.

Definition statement_elems (version : Z) (mode : NodeMode) (st : NodeStatement) : list Z :=
  version :: mode_elem mode :: to_elems (st_asset_id st) ++ u64_to_felts (st_value st)
  ++ to_elems (st_mint_commit st)
  ++ to_elems (st_nullifiers st).1 ++ to_elems (st_nullifiers st).2
  ++ to_elems (st_output_commitments st).1 ++ to_elems (st_output_commitments st).2.

(** Four base coefficients per element, the higher ones zero. *)
Definition embed (elems : list Z) : list Z := concat ((λ e, [e; 0; 0; 0]) <$> elems).
Definition to_public_values_for_version (st : NodeStatement) (version : Z) (mode : NodeMode) : list Z :=
  embed (statement_elems version mode st).
Definition to_public_values (st : NodeStatement) (mode : NodeMode) : list Z :=
  to_public_values_for_version st COIN_PROOF_VERSION mode.

Definition proof_version_is_supported (version : Z) : bool :=
  bool_decide (version = LEGACY_COIN_PROOF_VERSION) || bool_decide (version = COIN_PROOF_VERSION).

Definition predecessor_lineage_is_safe (version : Z) (mode : NodeMode) : bool :=
  bool_decide (version = COIN_PROOF_VERSION) ||
  (bool_decide (version = LEGACY_COIN_PROOF_VERSION) && bool_decide (mode = MintMode)).

(** ** Witness layouts *)
Definition OSK_ELEMS : nat := 11.
Definition IN_ELEMS : nat := VALUE_LIMBS + 2 * DIGEST_ELEMS + OSK_ELEMS.
Definition OUT_ELEMS : nat := VALUE_LIMBS + 2 * DIGEST_ELEMS.
Definition MINT_PRIVATE_ELEMS : nat :=
  2 * DIGEST_ELEMS + VALUE_LIMBS + ISSUER_AUTH_ELEMS + NODE_OUTPUTS * OUT_ELEMS.
Definition NODE_PRIVATE_ELEMS : nat :=
  DIGEST_ELEMS + NODE_INPUTS * IN_ELEMS + NODE_OUTPUTS * OUT_ELEMS + NODE_INPUTS + 3.
Definition ONE_INPUT_PRIVATE_ELEMS : nat := DIGEST_ELEMS + IN_ELEMS + NODE_OUTPUTS * OUT_ELEMS + 1.
Definition REDEEM_PRIVATE_ELEMS : nat := DIGEST_ELEMS + IN_ELEMS + 1.

Record InputWitness := { in_value : list Z; in_owner : list Z; in_randomness : list Z; in_osk : list Z }.
Record OutputWitness := { out_value : list Z; out_owner : list Z; out_randomness : list Z }.

Definition input_witness (s : nat) (private : list Z) : InputWitness := {|
  in_value := slice s (s + 3) private; in_owner := slice (s + 3) (s + 11) private;
  in_randomness := slice (s + 11) (s + 19) private; in_osk := slice (s + 19) (s + 30) private |}.
Definition output_witness (s : nat) (private : list Z) : OutputWitness := {|
  out_value := slice s (s + 3) private; out_owner := slice (s + 3) (s + 11) private;
  out_randomness := slice (s + 11) (s + 19) private |}.

Record MintWitness := {
  mw_asset_id : list Z; mw_value_total : list Z; mw_mint_nonce : list Z; mw_issuer : IssuerWitness;
  mw_outputs : OutputWitness * OutputWitness }.
Definition mint_witness_layout (private : list Z) : MintWitness := {|
  mw_asset_id := slice 0 8 private; mw_value_total := slice 8 11 private; mw_mint_nonce := slice 11 19 private;
  mw_issuer := issuer_witness_layout (slice 19 42 private);
  mw_outputs := (output_witness 42 private, output_witness 61 private) |}.

Record NodeWitness := {
  nw_asset_id : list Z; nw_inputs : InputWitness * InputWitness; nw_outputs : OutputWitness * OutputWitness;
  nw_selectors : Z * Z; nw_distinct_limb_bits : list Z }.
Definition node_witness_layout (private : list Z) : NodeWitness := {|
  nw_asset_id := slice 0 8 private;
  nw_inputs := (input_witness 8 private, input_witness 38 private);
  nw_outputs := (output_witness 68 private, output_witness 87 private);
  nw_selectors := (nth 106 private 0, nth 107 private 0);
  nw_distinct_limb_bits := drop 108 private |}.

(** ** Circuits *)

(** The circuit a verification key was set up for. *)
Inductive Shape :=
  | MintShape (version : Z)
  | NodeShape (key0 key1 : Shape)
  | OneInputShape (key : Shape)
  | RedeemShape (key : Shape)
  | Foreign (id : Z).
#[export] Instance shape_eq_dec : EqDecision Shape.
Proof. solve_decision. Defined.

(** What a circuit sees of a predecessor proof. *)
Record PredecessorView := { pv_verified : bool; pv_key : option Shape; pv_statement : option (list Z) }.

Definition assert_zeros (xs : list Z) : circuit () := foldr (λ x rest, assert_zero x;; rest) (Some tt) xs.

Section circuits.
Context `{Permutation}.

(** A consumed coin: its value, commitment, owner and nullifier. *)
Definition input_predicate (asset_id : list Z) (w : InputWitness) : circuit (list Z * list Z) :=
  range_check_value (in_value w);;
  commitment ← coin_commitment_base asset_id (in_value w) (in_owner w) (in_randomness w);
  own ← hash_felts_base "" [in_osk w];
  connect_digest own (in_owner w);;
  nf ← hash_felts_base "null" [in_osk w; commitment];
  Some (commitment, nf).

Definition output_predicate (asset_id : list Z) (w : OutputWitness) : circuit (list Z) :=
  range_check_value (out_value w);;
  coin_commitment_base asset_id (out_value w) (out_owner w) (out_randomness w).

Definition zero_value : list Z := replicate VALUE_LIMBS 0.
Definition zero_digest : list Z := replicate DIGEST_ELEMS 0.

Definition build_mint_circuit (version : Z) (private : list Z) : circuit (list Z) :=
  let w := mint_witness_layout private in
  let asset_id := mw_asset_id w in
  let '(o0, o1) := mw_outputs w in
  enforce_authorization asset_id (mw_issuer w);;
  range_check_value (mw_value_total w);;
  range_check_value (out_value o0);;
  range_check_value (out_value o1);;
  enforce_sum_eq (out_value o0) (out_value o1) (mw_value_total w) zero_value;;
  out0 ← coin_commitment_base asset_id (out_value o0) (out_owner o0) (out_randomness o0);
  out1 ← coin_commitment_base asset_id (out_value o1) (out_owner o1) (out_randomness o1);
  mc ← hash_felts_base "mint" [asset_id; mw_value_total w; mw_mint_nonce w];
  Some (version :: 1 :: asset_id ++ mw_value_total w ++ mc ++ zero_digest ++ zero_digest ++ out0 ++ out1).

(** Three bits select a limb whose difference has an inverse. *)
Definition enforce_distinct_digest (left right selector_bits : list Z) : circuit () :=
  match selector_bits, zip_with fsub left right with
  | [b0; b1; b2], [d0; d1; d2; d3; d4; d5; d6; d7] =>
    assert_bool b0;; assert_bool b1;; assert_bool b2;;
    let p0 := fselect b0 d1 d0 in let p1 := fselect b0 d3 d2 in
    let p2 := fselect b0 d5 d4 in let p3 := fselect b0 d7 d6 in
    let q0 := fselect b1 p1 p0 in let q1 := fselect b1 p3 p2 in
    let selected := fselect b2 q1 q0 in
    inverse ← fdiv 1 selected;
    connect (fmul selected inverse) 1
  | _, _ => None
  end.

(** The constraints of [chain_predecessor] on the proof given as a witness: it verifies under the
    chosen key, its asset is this one, and its selected output is the consumed commitment. *)
Definition chain_constraints (key : Shape) (view : PredecessorView) (asset_id : list Z) (selector : Z)
    (commitment : list Z) : circuit () :=
  require (pv_verified view = true);;
  require (pv_key view = Some key);;
  stmt_targets ← pv_statement view;
  require (length stmt_targets = STATEMENT_PUBLIC_VALUES);;
  let elem e := nth (4 * e) stmt_targets 0 in
  assert_zeros ((λ e, fsub (elem (OFF_ASSET + e)%nat) (nth e asset_id 0)) <$> seq 0 DIGEST_ELEMS);;
  assert_bool selector;;
  assert_zeros ((λ e, fsub (fselect selector (elem (OFF_OUTPUTS + DIGEST_ELEMS + e)%nat) (elem (OFF_OUTPUTS + e)%nat))
                        (nth e commitment 0)) <$> seq 0 DIGEST_ELEMS).

Definition build_node_circuit (key0 key1 : Shape) (private : list Z) (view0 view1 : PredecessorView) : circuit (list Z) :=
  let w := node_witness_layout private in
  let asset_id := nw_asset_id w in
  let '(i0, i1) := nw_inputs w in
  let '(o0, o1) := nw_outputs w in
  '(c0, nf0) ← input_predicate asset_id i0;
  '(c1, nf1) ← input_predicate asset_id i1;
  enforce_distinct_digest c0 c1 (nw_distinct_limb_bits w);;
  out0 ← output_predicate asset_id o0;
  out1 ← output_predicate asset_id o1;
  enforce_sum_eq (in_value i0) (in_value i1) (out_value o0) (out_value o1);;
  chain_constraints key0 view0 asset_id (nw_selectors w).1 c0;;
  chain_constraints key1 view1 asset_id (nw_selectors w).2 c1;;
  Some (COIN_PROOF_VERSION :: 0 :: asset_id ++ zero_value ++ zero_digest ++ nf0 ++ nf1 ++ out0 ++ out1).

Definition build_one_input_transfer_circuit (key : Shape) (private : list Z) (view : PredecessorView) : circuit (list Z) :=
  let asset_id := slice 0 8 private in
  let i := input_witness 8 private in
  let o0 := output_witness 38 private in
  let o1 := output_witness 57 private in
  let selector := nth 76 private 0 in
  '(c, nf) ← input_predicate asset_id i;
  out0 ← output_predicate asset_id o0;
  out1 ← output_predicate asset_id o1;
  enforce_sum_eq (in_value i) zero_value (out_value o0) (out_value o1);;
  chain_constraints key view asset_id selector c;;
  Some (COIN_PROOF_VERSION :: 0 :: asset_id ++ zero_value ++ zero_digest ++ nf ++ zero_digest ++ out0 ++ out1).

Definition build_redeem_circuit (key : Shape) (private : list Z) (view : PredecessorView) : circuit (list Z) :=
  let asset_id := slice 0 8 private in
  let i := input_witness 8 private in
  let selector := nth 38 private 0 in
  '(c, nf) ← input_predicate asset_id i;
  chain_constraints key view asset_id selector c;;
  Some (COIN_PROOF_VERSION :: 2 :: asset_id ++ in_value i ++ zero_digest ++ nf ++ zero_digest ++ zero_digest ++ zero_digest).

(** A run of the circuit of a key: the private inputs are field elements, as many as the circuit
    allocated. A circuit this crate does not build has no equation here. *)
Definition private_elems (shape : Shape) : nat :=
  match shape with
  | MintShape _ => MINT_PRIVATE_ELEMS
  | NodeShape _ _ => NODE_PRIVATE_ELEMS
  | OneInputShape _ => ONE_INPUT_PRIVATE_ELEMS
  | RedeemShape _ => REDEEM_PRIVATE_ELEMS
  | Foreign _ => 0
  end.

Definition run (shape : Shape) (private : list Z) (views : list PredecessorView) : circuit (list Z) :=
  require (length private = private_elems shape);;
  require (Forall is_felt private);;
  match shape, views with
  | MintShape version, [] => build_mint_circuit version private
  | NodeShape key0 key1, [view0; view1] => build_node_circuit key0 key1 private view0 view1
  | OneInputShape key, [view] => build_one_input_transfer_circuit key private view
  | RedeemShape key, [view] => build_redeem_circuit key private view
  | _, _ => None
  end.
End circuits.

(** ** The proof system *)
Record SecurityParams := {
  fri_log_blowup : Z; fri_log_final_poly_len : Z; fri_max_log_arity : Z; fri_num_queries : Z;
  fri_commit_proof_of_work_bits : Z; fri_query_proof_of_work_bits : Z; num_modulus_bits : Z;
  collision_resistance : Z; num_constraints : Z; air_max_constraint_degree : Z; max_combo : Z }.

(** What the source reads of a batch-STARK proof and calls on it. *)
Class StarkSystem (Stark : Type) := {
  statement_table : Stark → option (list Z);          (* the statement table's public values *)
  preprocessed : Stark → option Shape;                (* the verification key it carries *)
  degree_bits : Stark → list nat;                     (* the degrees of its traces *)
  compute_from_proof : nat → SecurityParams → Z;      (* the calculator of the proof library *)
  circuit_profile : Shape → Z * Z;                    (* constraints and largest degree of a circuit *)
  verify_all_tables : Stark → bool;                   (* the native verifier *)
  verify_p3_batch_proof : Stark → bool;               (* the in-circuit verifier *)
  prove_all_tables : Shape → list Z → list Stark → Stark;
}.

Record CoinProof (Stark : Type) := { version : Z; mode : NodeMode; statement : NodeStatement; proof : Stark }.
Arguments version {_}. Arguments mode {_}. Arguments statement {_}. Arguments proof {_}.

Inductive NodeError :=
  | IssuerKeyMismatch
  | AssetMismatch
  | DuplicateInput
  | ValueOverflow
  | UnsupportedProofVersion (actual : Z)
  | UnsafeLegacyPredecessor
  | InsufficientProofSecurity (actual required : Z)
  | SecurityProfileDrift (constraints max_degree : Z)
  | PredecessorAssetMismatch
  | PredecessorOutputMismatch
  | MissingStatement
  | PredecessorStatementShapeMismatch (actual expected : nat)
  | MissingPredecessorVerificationKey
  | CircuitError
  | ProverError
  | StatementMismatch.

(** ** Security accounting *)
Definition CHALLENGE_FIELD_BITS : Z := 123.
Definition COMMITMENT_COLLISION_BITS : Z := 128.
Definition MAX_BATCH_CONSTRAINTS : Z := 1024.
Definition MAX_AIR_CONSTRAINT_DEGREE : Z := 3.
Definition COMPONENT_UNION_BITS : Z := 2.
Definition PRODUCTION_SECURITY_TARGET_BITS : Z := 94.

Definition security_params : SecurityParams := {|
  fri_log_blowup := 3; fri_log_final_poly_len := 2; fri_max_log_arity := 2; fri_num_queries := 64;
  fri_commit_proof_of_work_bits := 16; fri_query_proof_of_work_bits := 16; num_modulus_bits := CHALLENGE_FIELD_BITS;
  collision_resistance := COMMITMENT_COLLISION_BITS; num_constraints := MAX_BATCH_CONSTRAINTS;
  air_max_constraint_degree := MAX_AIR_CONSTRAINT_DEGREE; max_combo := 2 |}.

Definition ceil_log2 (value : Z) : Z := if value <=? 1 then 0 else Z.log2 (value - 1) + 1.
Definition minimum (xs : list Z) : option Z :=
  match xs with [] => None | x :: xs => Some (foldl Z.min x xs) end.

Section provers.
Context `{Poseidon, Permutation} {Stark : Type} `{StarkSystem Stark}.

(** [union_adjusted_bits] of the security report. *)
Definition proof_security_report (p : CoinProof Stark) : Z :=
  let degrees := degree_bits (proof p) in
  let proven_bits := default 0 (minimum ((λ d, compute_from_proof d security_params) <$> degrees)) in
  let union_bound_bits := COMPONENT_UNION_BITS + ceil_log2 (Z.of_nat (length degrees)) in
  Z.max 0 (proven_bits - union_bound_bits).

Definition validate_proof_security (p : CoinProof Stark) : result NodeError () :=
  let actual := proof_security_report p in
  if actual <? PRODUCTION_SECURITY_TARGET_BITS
  then Err (InsufficientProofSecurity actual PRODUCTION_SECURITY_TARGET_BITS) else Ok tt.

(** ** Verification *)
Definition verify_coin_proof (expected : NodeStatement) (coin : CoinProof Stark) : result NodeError () :=
  ensure (proof_version_is_supported (version coin)) (UnsupportedProofVersion (version coin));;
  validate_proof_security coin;;
  pvs ← ok_or (statement_table (proof coin)) MissingStatement;
  ensure (bool_decide (pvs = to_public_values_for_version expected (version coin) (mode coin))) StatementMismatch;;
  ensure (verify_all_tables (proof coin)) ProverError.

Definition verify_redeem (expected : NodeStatement) (p : CoinProof Stark) : result NodeError () :=
  ensure (bool_decide (mode p = RedeemMode)) StatementMismatch;;
  verify_coin_proof expected p.

(** ** Proving *)

(** The part of [chain_predecessor] that runs while the circuit is built; the key it selects. *)
Definition chain_predecessor (pred : CoinProof Stark) : result NodeError Shape :=
  ensure (proof_version_is_supported (version pred)) (UnsupportedProofVersion (version pred));;
  ensure (predecessor_lineage_is_safe (version pred) (mode pred)) UnsafeLegacyPredecessor;;
  carried ← ok_or (statement_table (proof pred)) MissingStatement;
  ensure (bool_decide (carried = to_public_values_for_version (statement pred) (version pred) (mode pred)))
    StatementMismatch;;
  key ← ok_or (preprocessed (proof pred)) MissingPredecessorVerificationKey;
  ensure (bool_decide (length carried = STATEMENT_PUBLIC_VALUES))
    (PredecessorStatementShapeMismatch (length carried) STATEMENT_PUBLIC_VALUES);;
  Ok key.

Definition predecessor_view (p : Stark) : PredecessorView :=
  {| pv_verified := verify_p3_batch_proof p; pv_key := preprocessed p; pv_statement := statement_table p |}.

(** [setup_circuit_with_verification_keys]: the shape's budget. *)
Definition setup_circuit (shape : Shape) : result NodeError () :=
  let '(constraints, max_degree) := circuit_profile shape in
  if (MAX_BATCH_CONSTRAINTS <? constraints) || (MAX_AIR_CONSTRAINT_DEGREE <? max_degree)
  then Err (SecurityProfileDrift constraints max_degree) else Ok tt.

(** Set up the circuit, run it on the witness, prove its traces, check the proof's security. *)
Definition prove_circuit (shape : Shape) (private : list Z) (preds : list Stark) (v : Z) (m : NodeMode)
    (st : NodeStatement) : result NodeError (CoinProof Stark) :=
  setup_circuit shape;;
  _ ← ok_or (run shape private (predecessor_view <$> preds)) CircuitError;
  let coin := {| version := v; mode := m; statement := st; proof := prove_all_tables shape private preds |} in
  validate_proof_security coin;;
  Ok coin.

Definition zero : bytes := zeros 32.
Definition osk_felts (osk : bytes) : list Z := bytes_to_felts osk.
Definition output_values (c : Coin) : list Z :=
  u64_to_felts (coin_value c) ++ to_elems (coin_owner c) ++ to_elems (coin_randomness c).
Definition input_values (i : Coin * bytes) : list Z := output_values i.1 ++ osk_felts i.2.

Definition checked_add (a b : Z) : option Z := if a + b <=? u64_max then Some (a + b) else None.

Definition prove_genesis_mint_raw_for_version (v : Z) (asset_id : bytes) (genesis : AssetGenesis)
    (issuer_secret mint_nonce : bytes) (outputs : Coin * Coin) : result NodeError (CoinProof Stark) :=
  ensure (proof_version_is_supported v) (UnsupportedProofVersion v);;
  ensure (forallb (λ c, bool_decide (coin_asset_id c = asset_id)) [outputs.1; outputs.2]) AssetMismatch;;
  value ← ok_or (checked_add 0 (coin_value outputs.1)) ValueOverflow;
  value ← ok_or (checked_add value (coin_value outputs.2)) ValueOverflow;
  let mc := mint_commit asset_id value mint_nonce in
  let private := to_elems asset_id ++ u64_to_felts value ++ to_elems mint_nonce
    ++ witness_values issuer_secret genesis ++ output_values outputs.1 ++ output_values outputs.2 in
  prove_circuit (MintShape v) private [] v MintMode {|
    st_asset_id := asset_id; st_value := value; st_mint_commit := mc; st_nullifiers := (zero, zero);
    st_output_commitments := (commitment outputs.1, commitment outputs.2) |}.

Definition prove_genesis_mint_raw := prove_genesis_mint_raw_for_version COIN_PROOF_VERSION.

Definition prove_genesis_mint (genesis : AssetGenesis) (issuer_secret mint_nonce : bytes) (outputs : Coin * Coin)
    : result NodeError (CoinProof Stark) :=
  ensure (issuer_controls issuer_secret (Commitments.issuer_pk genesis)) IssuerKeyMismatch;;
  prove_genesis_mint_raw (genesis_asset_id genesis) genesis issuer_secret mint_nonce outputs.

(** The host's check of one predecessor: its asset, and the output that is spent. *)
Definition select_output (st : NodeStatement) (k : nat) : option bytes :=
  match k with O => Some (st_output_commitments st).1 | 1%nat => Some (st_output_commitments st).2 | _ => None end.
Definition check_spent (asset_id : bytes) (pred : CoinProof Stark) (k : nat) (coin : Coin) : result NodeError () :=
  ensure (bool_decide (st_asset_id (statement pred) = asset_id)) PredecessorAssetMismatch;;
  ensure (bool_decide (select_output (statement pred) k = Some (commitment coin))) PredecessorOutputMismatch.

Definition first_differing_digest_limb (left right : bytes) : option nat :=
  fst <$> list_find (λ p : Z * Z, p.1 ≠ p.2) (zip (to_elems left) (to_elems right)).

Definition limb_bits (limb : nat) : list Z :=
  (λ bit : nat, Z.land (Z.shiftr (Z.of_nat limb) (Z.of_nat bit)) 1) <$> seq 0 3.

Definition prove_transfer (asset_id : bytes) (inputs : (Coin * bytes) * (Coin * bytes)) (outputs : Coin * Coin)
    (predecessors : CoinProof Stark * CoinProof Stark) (selectors : nat * nat) : result NodeError (CoinProof Stark) :=
  let '(i0, i1) := inputs in
  ensure (forallb (λ c, bool_decide (coin_asset_id c = asset_id)) [i0.1; i1.1; outputs.1; outputs.2]) AssetMismatch;;
  ensure (bool_decide (commitment i0.1 ≠ commitment i1.1)) DuplicateInput;;
  distinct_limb ← ok_or (first_differing_digest_limb (commitment i0.1) (commitment i1.1)) DuplicateInput;
  check_spent asset_id predecessors.1 selectors.1 i0.1;;
  check_spent asset_id predecessors.2 selectors.2 i1.1;;
  let nf0 := nullifier i0.2 (commitment i0.1) in
  let nf1 := nullifier i1.2 (commitment i1.1) in
  ensure (bool_decide (nf0 ≠ nf1)) DuplicateInput;;
  key0 ← chain_predecessor predecessors.1;
  key1 ← chain_predecessor predecessors.2;
  let private := to_elems asset_id ++ input_values i0 ++ input_values i1
    ++ output_values outputs.1 ++ output_values outputs.2
    ++ [Z.of_nat selectors.1; Z.of_nat selectors.2] ++ limb_bits distinct_limb in
  prove_circuit (NodeShape key0 key1) private [proof predecessors.1; proof predecessors.2]
    COIN_PROOF_VERSION TransferMode {|
    st_asset_id := asset_id; st_value := 0; st_mint_commit := zero; st_nullifiers := (nf0, nf1);
    st_output_commitments := (commitment outputs.1, commitment outputs.2) |}.

Definition prove_one_input_transfer (asset_id : bytes) (input : Coin * bytes) (outputs : Coin * Coin)
    (predecessor : CoinProof Stark) (selector : nat) : result NodeError (CoinProof Stark) :=
  ensure (forallb (λ c, bool_decide (coin_asset_id c = asset_id)) [input.1; outputs.1; outputs.2]) AssetMismatch;;
  check_spent asset_id predecessor selector input.1;;
  let nf := coin_nullifier input.1 input.2 in
  key ← chain_predecessor predecessor;
  let private := to_elems asset_id ++ input_values input ++ output_values outputs.1 ++ output_values outputs.2
    ++ [Z.of_nat selector] in
  prove_circuit (OneInputShape key) private [proof predecessor] COIN_PROOF_VERSION TransferMode {|
    st_asset_id := asset_id; st_value := 0; st_mint_commit := zero; st_nullifiers := (nf, zero);
    st_output_commitments := (commitment outputs.1, commitment outputs.2) |}.

Definition prove_redeem (asset_id : bytes) (input : Coin * bytes) (predecessor : CoinProof Stark) (selector : nat)
    : result NodeError (CoinProof Stark) :=
  ensure (bool_decide (coin_asset_id input.1 = asset_id)) AssetMismatch;;
  check_spent asset_id predecessor selector input.1;;
  let nf := coin_nullifier input.1 input.2 in
  key ← chain_predecessor predecessor;
  let private := to_elems asset_id ++ input_values input ++ [Z.of_nat selector] in
  prove_circuit (RedeemShape key) private [proof predecessor] COIN_PROOF_VERSION RedeemMode {|
    st_asset_id := asset_id; st_value := coin_value input.1; st_mint_commit := zero; st_nullifiers := (nf, zero);
    st_output_commitments := (zero, zero) |}.
End provers.

(** ** What the proof system promises *)

(** A proof that verifies under the key of a circuit of this crate comes from a run of that circuit, and its
    statement table holds the elements the run computed; a run can be proved. *)
Class StarkLaws `{Permutation} (Stark : Type) (S : StarkSystem Stark) : Prop := {
  stark_sound : ∀ p shape, verify_all_tables p = true ∨ verify_p3_batch_proof p = true →
    preprocessed p = Some shape → (∀ id, shape ≠ Foreign id) →
    ∃ private preds elems, run shape private (predecessor_view <$> preds) = Some elems ∧
      statement_table p = Some (embed elems);
  stark_complete : ∀ shape private preds elems,
    run shape private (predecessor_view <$> preds) = Some elems →
    let p := prove_all_tables shape private preds in
    verify_all_tables p = true ∧ verify_p3_batch_proof p = true ∧ preprocessed p = Some shape ∧
    statement_table p = Some (embed elems);
}.

(** ** Lemmas: one coin *)
Section coins.
Context `{Permutation, !Poseidon, !PoseidonLaws _, !SpongeLaws _ _}.

(** The digest of an input as field elements. *)
Definition sponge_digest (domain : string) (parts : list (list Z)) : list Z := hash_iter (hash_input domain parts).
Definition coin_digest (asset_id value owner randomness : list Z) : list Z :=
  sponge_digest "coin" [asset_id; value; owner; randomness].

Lemma length_hash_input domain parts :
  length (hash_input domain parts) = S (length (bytes_to_felts (domain_bytes domain)) + sum_list (length <$> parts)).
Proof.
  unfold hash_input. cbn [length]. rewrite length_app. f_equal. f_equal.
  induction parts as [|p parts IH]; [done|]. cbn. rewrite length_app. by rewrite IH.
Qed.

Lemma hash_base_iff domain parts h : (RATE ≤ S (sum_list (length <$> parts)))%nat →
  hash_felts_base domain parts = Some h ↔ h = sponge_digest domain parts.
Proof.
  intros Hl. rewrite hash_base_rows by (etrans; [exact Hl|]; rewrite length_hash_input; lia). split; [by intros [= <-]|by intros ->].
Qed.

Record input_shape (w : InputWitness) : Prop := {
  is_value : length (in_value w) = VALUE_LIMBS ∧ Forall is_felt (in_value w);
  is_owner : length (in_owner w) = DIGEST_ELEMS; is_randomness : length (in_randomness w) = DIGEST_ELEMS;
  is_osk : length (in_osk w) = OSK_ELEMS }.
Record output_shape (w : OutputWitness) : Prop := {
  os_value : length (out_value w) = VALUE_LIMBS ∧ Forall is_felt (out_value w);
  os_owner : length (out_owner w) = DIGEST_ELEMS; os_randomness : length (out_randomness w) = DIGEST_ELEMS }.

Definition input_commitment (asset_id : list Z) (w : InputWitness) : list Z :=
  coin_digest asset_id (in_value w) (in_owner w) (in_randomness w).
Definition output_commitment (asset_id : list Z) (w : OutputWitness) : list Z :=
  coin_digest asset_id (out_value w) (out_owner w) (out_randomness w).
Definition input_nullifier (asset_id : list Z) (w : InputWitness) : list Z :=
  sponge_digest "null" [in_osk w; input_commitment asset_id w].

Lemma coin_commitment_iff a v o r h : length v = VALUE_LIMBS → length o = DIGEST_ELEMS →
  coin_commitment_base a v o r = Some h ↔ h = coin_digest a v o r.
Proof.
  intros Hv Ho. apply hash_base_iff. cbn. rewrite Hv, Ho. unfold RATE, VALUE_LIMBS, DIGEST_ELEMS. lia.
Qed.

Lemma length_sponge_digest d parts : length (sponge_digest d parts) = DIGEST_ELEMS.
Proof. apply hash_iter_length. Qed.

Lemma sponge_digest_felts d parts : Forall is_felt (sponge_digest d parts).
Proof. apply hash_iter_canonical. Qed.

(** A consumed coin satisfies its constraints exactly when its value is in range and its owner is the hash
    of the secret; its commitment and nullifier are then the hashes of the scheme. *)
Lemma input_predicate_iff a w c nf : input_shape w →
  input_predicate a w = Some (c, nf) ↔
  limbs_ok (in_value w) ∧ in_owner w = sponge_digest "" [in_osk w] ∧
  c = input_commitment a w ∧ nf = input_nullifier a w.
Proof.
  intros [[Hv Hf] Ho Hr Hk]. unfold input_predicate, input_nullifier. rewrite bind_Some.
  setoid_rewrite (range_check_value_ok _ _ Hv Hf).
  setoid_rewrite bind_Some. setoid_rewrite (coin_commitment_iff _ _ _ _ _ Hv Ho).
  setoid_rewrite bind_Some. setoid_rewrite (hash_base_iff "" [in_osk w]).
  2:{ cbn. rewrite Hk. unfold RATE, OSK_ELEMS. lia. }
  setoid_rewrite bind_Some. unfold connect_digest. setoid_rewrite require_Some.
  setoid_rewrite bind_Some. fold (input_commitment a w).
  assert (∀ d x, hash_felts_base "null" [in_osk w; d] = Some x ↔ x = sponge_digest "null" [in_osk w; d]) as Hn.
  { intros d x. apply hash_base_iff. cbn. rewrite Hk. unfold RATE, OSK_ELEMS. lia. }
  setoid_rewrite Hn. split.
  - intros (? & ? & ? & -> & ? & -> & ? & E & ? & -> & E2). by simplify_eq.
  - intros (? & ? & -> & ->). exists tt. split; [done|]. eexists. split; [done|]. eexists. split; [done|].
    exists tt. split; [done|]. eexists. split; done.
Qed.

Lemma output_predicate_iff a w c : output_shape w →
  output_predicate a w = Some c ↔ limbs_ok (out_value w) ∧ c = output_commitment a w.
Proof.
  intros [[Hv Hf] Ho Hr]. unfold output_predicate. rewrite bind_Some.
  setoid_rewrite (range_check_value_ok _ _ Hv Hf). setoid_rewrite (coin_commitment_iff _ _ _ _ _ Hv Ho).
  split; [by intros (? & ? & ->)|intros (? & ->); by exists tt].
Qed.
End coins.

(** ** Lemmas: distinct digests and predecessors *)

Lemma fsub_zero a b : is_felt a → is_felt b → fsub a b = 0 ↔ a = b.
Proof.
  unfold is_felt, fsub. intros Ha Hb. split; [|intros ->; by rewrite Z.sub_diag].
  intros E. apply Z.mod_divide in E as [k Ek]; [|done]. unfold BABY_BEAR_P in *. lia.
Qed.

Lemma fselect_0 t f : is_felt f → fselect 0 t f = f.
Proof. intros. unfold fselect, fmul, fadd. rewrite Z.mul_0_l, Z.mod_0_l, Z.add_0_r by done. by apply Z.mod_small. Qed.

Lemma fselect_1 t f : is_felt t → fselect 1 t f = t.
Proof.
  intros. unfold fselect, fmul, fadd, fsub. rewrite Z.mul_1_l, Z.mod_mod, Zplus_mod_idemp_r by done.
  replace (f + (t - f)) with t by lia. by apply Z.mod_small.
Qed.

Lemma fdiv_inverse d : is_felt d → d ≠ 0 → ∃ q, fdiv 1 d = Some q ∧ fmul d q = 1.
Proof.
  intros Hd Hn. exists (fmul 1 (finv d)).
  assert (fmul 1 (finv d) = finv d) as E.
  { unfold fmul. rewrite Z.mul_1_l. apply Z.mod_small, is_felt_mod. }
  rewrite E. split; [|by apply finv_spec]. apply fdiv_Some; [done..|]. split; [apply is_felt_mod|].
  unfold fmul. rewrite Z.mul_comm. by apply finv_spec.
Qed.

(** The first place where two lists differ, as the prover finds it. *)
Lemma first_difference (l r : list Z) : length l = length r → l ≠ r →
  ∃ i a b, l !! i = Some a ∧ r !! i = Some b ∧ a ≠ b ∧
    fst <$> list_find (λ p : Z * Z, p.1 ≠ p.2) (zip l r) = Some i.
Proof.
  revert r. induction l as [|x l IH]; intros [|y r] Hl Hn; try done. cbn in Hl.
  destruct (decide (x = y)) as [->|Hxy].
  - destruct (IH r) as (i & a & b & Ea & Eb & Hab & Ef); [lia|congruence|]. exists (S i), a, b. split_and!; [done..|].
    cbn. rewrite decide_False by (intros E; by apply E). destruct (list_find _ (zip l r)) as [[]|]; [|done]. cbn in *. by simplify_eq.
  - exists 0%nat, x, y. split_and!; [done..|]. cbn. by rewrite decide_True.
Qed.

(** The index of a limb as three bits selects that limb's difference. *)
Lemma distinct_selects l r i a b : length l = DIGEST_ELEMS → length r = DIGEST_ELEMS →
  l !! i = Some a → r !! i = Some b → is_felt a → is_felt b → a ≠ b →
  enforce_distinct_digest l r (limb_bits i) = Some tt.
Proof.
  intros Hl Hr Ea Eb Ha Hb Hn. pose proof (lookup_lt_Some _ _ _ Ea) as Hi.
  do 8 (destruct l as [|? l]; [discriminate|]). destruct l; [|discriminate].
  do 8 (destruct r as [|? r]; [discriminate|]). destruct r; [|discriminate].
  destruct (fdiv_inverse (fsub a b)) as (q & Eq & Em); [apply is_felt_mod|by rewrite fsub_zero|].
  unfold DIGEST_ELEMS in Hl. cbn [length] in Hi. unfold enforce_distinct_digest. cbn [zip_with].
  destruct i as [|[|[|[|[|[|[|[|i]]]]]]]]; [..|lia]; cbn in Ea, Eb; simplify_eq.
  all: match goal with |- context [limb_bits ?k] => let b := eval vm_compute in (limb_bits k) in change (limb_bits k) with b end.
  all: cbn; repeat first [rewrite fselect_0 by apply is_felt_mod | rewrite fselect_1 by apply is_felt_mod].
  all: rewrite Eq; cbn; rewrite Em; done.
Qed.

(** No bits select an inverse of equal digests. *)
Lemma distinct_digest l r bits : length l = DIGEST_ELEMS → enforce_distinct_digest l r bits = Some tt → l ≠ r.
Proof.
  intros Hl E <-.
  do 8 (destruct l as [|? l]; [discriminate|]). destruct l; [|discriminate].
  destruct bits as [|b0 [|b1 [|b2 [|]]]]; try discriminate.
  unfold enforce_distinct_digest in E. cbn [zip_with] in E.
  assert (∀ x, fsub x x = 0) as Ez by (intros x; unfold fsub; by rewrite Z.sub_diag). rewrite !Ez in E.
  assert (∀ b, fselect b 0 0 = 0) as Es by (intros b; unfold fselect, fmul, fsub; cbn; by rewrite Z.mul_0_r).
  rewrite !Es in E. do 3 (apply bind_Some in E as (? & _ & E)). discriminate.
Qed.

(** the three selector bits can be chosen exactly when the two digests differ, and the limb the prover
    looks up is such a choice: no witness passes off one coin as two. *)
Theorem distinct_digest_exact l r : length l = DIGEST_ELEMS → length r = DIGEST_ELEMS →
  Forall is_felt l → Forall is_felt r →
  (l ≠ r ↔ ∃ bits, enforce_distinct_digest l r bits = Some tt) ∧
  (l ≠ r → ∃ limb, fst <$> list_find (λ p : Z * Z, p.1 ≠ p.2) (zip l r) = Some limb ∧
    enforce_distinct_digest l r (limb_bits limb) = Some tt).
Proof.
  intros Hl Hr Fl Fr. assert (l ≠ r → ∃ limb, fst <$> list_find (λ p : Z * Z, p.1 ≠ p.2) (zip l r) = Some limb ∧
    enforce_distinct_digest l r (limb_bits limb) = Some tt) as Hex.
  { intros Hn. destruct (first_difference l r) as (i & a & b & Ea & Eb & Hab & Ef); [congruence|done|].
    exists i. split; [done|]. apply (distinct_selects l r i a b); try done;
      [exact (Forall_lookup_1 _ _ _ _ Fl Ea)|exact (Forall_lookup_1 _ _ _ _ Fr Eb)]. }
  split; [|done]. split; [intros Hn; destruct (Hex Hn) as (limb & _ & ?); by exists (limb_bits limb)|].
  intros (bits & E). by eapply distinct_digest.
Qed.

Lemma assert_zeros_iff xs u : assert_zeros xs = Some u ↔ Forall (λ x, x = 0) xs.
Proof.
  destruct u. induction xs as [|x xs IH]; [done|]. cbn. rewrite bind_Some, Forall_cons. unfold assert_zero.
  setoid_rewrite require_Some. split; [intros (? & ? & ?); by rewrite <- IH|intros [? ?]; exists tt; by rewrite IH].
Qed.

Ltac pcd_consts := unfold STATEMENT_PUBLIC_VALUES, STATEMENT_ELEMS, OFF_OUTPUTS, OFF_NULLIFIERS, OFF_MINT_COMMIT, OFF_VALUE,
  OFF_ASSET, NODE_INPUTS, DIGEST_ELEMS, VALUE_LIMBS in *.

Lemma nth_embed elems k : nth (4 * k) (embed elems) 0 = nth k elems 0.
Proof.
  revert k. induction elems as [|e elems IH]; intros k; [by destruct (4 * k)%nat, k|].
  destruct k as [|k]; [done|]. replace (4 * S k)%nat with (4 + 4 * k)%nat by lia. apply IH.
Qed.

Lemma length_embed elems : length (embed elems) = (4 * length elems)%nat.
Proof.
  induction elems as [|e elems IH]; [done|]. unfold embed in *. rewrite fmap_cons. cbn [concat]. rewrite length_app, IH. cbn. lia.
Qed.

Lemma nth_slice_from off c e (l : list Z) : (e < c - off)%nat → nth e (slice off c l) 0 = nth (off + e) l 0.
Proof. intros He. unfold slice. rewrite !nth_lookup, lookup_take_lt by done. by rewrite lookup_drop. Qed.

Lemma nth_felt (l : list Z) i : Forall is_felt l → (i < length l)%nat → is_felt (nth i l 0).
Proof.
  intros Fl [y Ey]%lookup_lt_is_Some_2. rewrite nth_lookup, Ey. exact (Forall_lookup_1 _ _ _ _ Fl Ey).
Qed.

Lemma slice_felts a b (l : list Z) : Forall is_felt l → Forall is_felt (slice a b l).
Proof. intros. by apply Forall_take, Forall_drop. Qed.

(** A vanishing difference at every position is an equality. *)
Lemma differences_zero n (f : nat → Z) (l r : list Z) : length l = n → length r = n → Forall is_felt l → Forall is_felt r →
  (∀ e, (e < n)%nat → f e = nth e l 0) →
  Forall (λ x, x = 0) ((λ e, fsub (f e) (nth e r 0)) <$> seq 0 n) ↔ l = r.
Proof.
  intros Hl Hr Fl Fr Hf. rewrite Forall_fmap, Forall_forall. unfold compose. split.
  - intros Hz. apply list_eq_same_length with (n := n); [done..|]. intros i a b Hi Ea Eb.
    specialize (Hz i). rewrite elem_of_seq in Hz. specialize (Hz ltac:(lia)). rewrite Hf in Hz by done.
    rewrite fsub_zero in Hz by (apply nth_felt; [done|lia]). by rewrite !nth_lookup, Ea, Eb in Hz.
  - intros -> e He%elem_of_seq. rewrite Hf by lia. apply fsub_zero; [apply nth_felt; [done|lia]..|done].
Qed.

Definition asset_of (elems : list Z) : list Z := slice 2 10 elems.
Definition output_of (k : Z) (elems : list Z) : list Z := if bool_decide (k = 0) then slice 37 45 elems else slice 45 53 elems.

Section chaining.
Context (elems a c : list Z) (Hl : length elems = STATEMENT_ELEMS) (Fe : Forall is_felt elems).
Context (La : length a = DIGEST_ELEMS) (Fa : Forall is_felt a) (Lc : length c = DIGEST_ELEMS) (Fc : Forall is_felt c).

Lemma chain_asset_iff :
  Forall (λ x, x = 0) ((λ e, fsub (nth (4 * (OFF_ASSET + e)) (embed elems) 0) (nth e a 0)) <$> seq 0 DIGEST_ELEMS)
  ↔ asset_of elems = a.
Proof.
  apply differences_zero; [|done|by apply slice_felts|done|].
  - unfold asset_of. rewrite length_slice; [done|]. rewrite Hl. pcd_consts. lia.
  - intros e He. unfold asset_of. rewrite nth_embed, nth_slice_from by (pcd_consts; lia). done.
Qed.

Lemma chain_output_iff k : k = 0 ∨ k = 1 →
  Forall (λ x, x = 0) ((λ e, fsub (fselect k (nth (4 * (OFF_OUTPUTS + DIGEST_ELEMS + e)) (embed elems) 0)
      (nth (4 * (OFF_OUTPUTS + e)) (embed elems) 0)) (nth e c 0)) <$> seq 0 DIGEST_ELEMS)
  ↔ output_of k elems = c.
Proof.
  intros Hk. apply differences_zero; [|done| |done|].
  - unfold output_of. case_bool_decide; rewrite length_slice; [done| |done|]; rewrite Hl; pcd_consts; lia.
  - unfold output_of. case_bool_decide; by apply slice_felts.
  - intros e He. rewrite !nth_embed. assert (∀ i, (i < 53)%nat → is_felt (nth i elems 0)) as Hf.
    { intros i Hi. apply nth_felt; [done|]. rewrite Hl. pcd_consts. lia. }
    destruct Hk as [->| ->]; unfold output_of.
    + rewrite bool_decide_eq_true_2, fselect_0, nth_slice_from by (done || apply Hf || pcd_consts; pcd_consts; lia). done.
    + rewrite bool_decide_eq_false_2, fselect_1, nth_slice_from by (done || apply Hf || pcd_consts; pcd_consts; lia). done.
Qed.

(** The chaining constraints hold exactly when the witness proof verifies under the chosen key, is of the same
    asset, and its output selected by a bit is the consumed commitment. *)
Lemma chain_constraints_iff key view k u : pv_statement view = Some (embed elems) →
  chain_constraints key view a k c = Some u ↔
  pv_verified view = true ∧ pv_key view = Some key ∧ asset_of elems = a ∧ (k = 0 ∨ k = 1) ∧ output_of k elems = c.
Proof.
  intros Hs. unfold chain_constraints. rewrite Hs. cbn [mbind option_bind].
  assert (length (embed elems) = STATEMENT_PUBLIC_VALUES) as Le by (by rewrite length_embed, Hl).
  repeat (rewrite bind_Some; setoid_rewrite require_Some). unfold assert_bool.
  split.
  - intros (_ & Hv & E). apply bind_Some in E as (_ & Hk%require_Some & E). apply bind_Some in E as (_ & _ & E).
    apply bind_Some in E as (_ & Ea%assert_zeros_iff & E). apply bind_Some in E as (_ & Hb%require_Some & Eo%assert_zeros_iff).
    split_and!; [done|done|by apply chain_asset_iff|done|by apply chain_output_iff].
  - intros (Hv & Hk & Ea & Hb & Eo). exists tt. split; [done|]. rewrite require_true by done. cbn [mbind option_bind].
    rewrite require_true by done. cbn [mbind option_bind].
    rewrite (proj2 (assert_zeros_iff _ tt) (proj2 chain_asset_iff Ea)). cbn [mbind option_bind].
    rewrite require_true by done. cbn [mbind option_bind]. destruct u. by apply assert_zeros_iff, chain_output_iff.
Qed.
End chaining.

(** ** Typed statements *)

(** The Rust types of a statement: 32-byte digests and a [u64]. *)
Definition statement_typed (st : NodeStatement) : Prop :=
  is_u64 (st_value st) ∧ Forall (λ d, length d = 32%nat) [st_asset_id st; st_mint_commit st;
    (st_nullifiers st).1; (st_nullifiers st).2; (st_output_commitments st).1; (st_output_commitments st).2].

Lemma limbs_value_felts v : is_u64 v → limbs_value (u64_to_felts v) = v ∧ length (u64_to_felts v) = VALUE_LIMBS.
Proof.
  intros Hv. rewrite u64_to_felts_val by done. split; [|done]. cbn. unfold is_u64, u64_max in Hv.
  pose proof (Z.div_mod v (2 ^ 24) ltac:(lia)). pose proof (Z.div_mod (v / 2 ^ 24) (2 ^ 24) ltac:(lia)).
  replace (v / 2 ^ 48) with (v / 2 ^ 24 / 2 ^ 24) by (by rewrite Z.div_div by lia). lia.
Qed.

Lemma statement_elems_facts v m st : statement_typed st →
  asset_of (statement_elems v m st) = to_elems (st_asset_id st) ∧ nth 1 (statement_elems v m st) 0 = mode_elem m ∧
  output_of 0 (statement_elems v m st) = to_elems (st_output_commitments st).1 ∧
  output_of 1 (statement_elems v m st) = to_elems (st_output_commitments st).2.
Proof.
  intros [Hv Hd]. rewrite !Forall_cons in Hd. destruct Hd as (La & Lm & L1 & L2 & L3 & L4 & _).
  apply (length_to_elems _ 8) in La, Lm, L1, L2, L3, L4. destruct (limbs_value_felts _ Hv) as [_ Lv].
  set (fs := [[v; mode_elem m]; to_elems (st_asset_id st); u64_to_felts (st_value st); to_elems (st_mint_commit st);
    to_elems (st_nullifiers st).1; to_elems (st_nullifiers st).2; to_elems (st_output_commitments st).1]).
  assert (statement_elems v m st = concat (fs ++ [to_elems (st_output_commitments st).2])) as E
    by (unfold statement_elems, fs; cbn [concat app]; by rewrite app_nil_r).
  unfold asset_of, output_of. rewrite bool_decide_eq_true_2, bool_decide_eq_false_2 by done. split_and!; [| done | |].
  - eapply (slice_field [[v; mode_elem m]]); [exact E|done|by rewrite La].
  - eapply (slice_field (take 6 fs) _ [to_elems (st_output_commitments st).2]); [exact E| |by rewrite L3].
    cbn -[to_elems u64_to_felts]. rewrite La, Lv, Lm, L1, L2. done.
  - eapply (slice_field fs _ []); [exact E| |by rewrite L4]. cbn -[to_elems u64_to_felts]. rewrite La, Lv, Lm, L1, L2, L3. done.
Qed.

Lemma statement_elems_shape v m st : statement_typed st → proof_version_is_supported v = true →
  length (statement_elems v m st) = STATEMENT_ELEMS ∧ Forall is_felt (statement_elems v m st).
Proof.
  intros [Hv Hd] Hs. rewrite !Forall_cons in Hd. destruct Hd as (La & Lm & L1 & L2 & L3 & L4 & _).
  apply (length_to_elems _ 8) in La, Lm, L1, L2, L3, L4. destruct (limbs_value_felts _ Hv) as [_ Lv].
  assert (∀ d, Forall is_felt (to_elems d)) as Hf by (intros d; apply Forall_fmap, Forall_forall; intros c _; apply felt_range).
  assert (Forall is_felt (u64_to_felts (st_value st))) as Hu.
  { unfold u64_to_felts. repeat (apply Forall_cons_2; [apply felt_range|]). constructor. }
  unfold statement_elems. split.
  - cbn [length]. rewrite !length_app, La, Lm, L1, L2, L3, L4, Lv. done.
  - repeat apply Forall_cons_2; [|destruct m; unfold is_felt, BABY_BEAR_P; cbn; lia|by repeat apply Forall_app_2].
    unfold proof_version_is_supported, LEGACY_COIN_PROOF_VERSION, COIN_PROOF_VERSION in Hs.
    rewrite orb_true_iff, !bool_decide_eq_true in Hs. unfold is_felt, BABY_BEAR_P. lia.
Qed.

(** A proof that verifies: a supported version, the security floor, the statement in the table, the STARK. *)
Lemma verify_coin_proof_Ok {Stark : Type} `{!StarkSystem Stark} st (coin : CoinProof Stark) : verify_coin_proof st coin = Ok tt ↔
  proof_version_is_supported (version coin) = true ∧ validate_proof_security coin = Ok tt ∧
  statement_table (proof coin) = Some (to_public_values_for_version st (version coin) (mode coin)) ∧
  verify_all_tables (proof coin) = true.
Proof.
  unfold verify_coin_proof. split.
  - intros (? & ?%ensure_Ok & E)%bind_Ok. apply bind_Ok in E as ([] & ? & E).
    apply bind_Ok in E as (pvs & ?%ok_or_Ok & E). apply bind_Ok in E as (? & Ex%ensure_Ok%bool_decide_eq_true & ?%ensure_Ok). by subst pvs.
  - intros (-> & -> & -> & ->). cbn [ensure ok_or mbind result_bind]. by rewrite bool_decide_eq_true_2.
Qed.
