(* ===== verification/PcdLedger.v ===== *)
(** * What a coin proof proves: histories and conservation (opencsv-pcd)

    The specification of the proof system of [Pcd.v]: a coin proof whose key is built from
    the circuits of the crate stands for a history - an issuer-authorized mint, or a
    transfer or a redeem of outputs of earlier entries, each conserving value - and its
    statement is the statement of the last entry.  A ledger of such entries whose
    nullifiers are all different never redeems or leaves unspent more than was minted. *)

From S2P Require Import Prelude Field Commitments Circuit Pcd.
#[local] Open Scope Z_scope.

(** ** Entries *)

(** The openings behind one statement. *)
Inductive Entry :=
  | MintEntry (version : Z) (asset_id total nonce : list Z) (issuer : IssuerWitness) (o0 o1 : OutputWitness)
  | TransferEntry (asset_id : list Z) (inputs : list InputWitness) (o0 o1 : OutputWitness)
  | RedeemEntry (asset_id : list Z) (input : InputWitness).

Definition entry_asset (e : Entry) : list Z :=
  match e with MintEntry _ a _ _ _ _ _ | TransferEntry a _ _ _ | RedeemEntry a _ => a end.
Definition entry_inputs (e : Entry) : list InputWitness :=
  match e with MintEntry _ _ _ _ _ _ _ => [] | TransferEntry _ ins _ _ => ins | RedeemEntry _ i => [i] end.
Definition entry_outputs (e : Entry) : list OutputWitness :=
  match e with MintEntry _ _ _ _ _ o0 o1 | TransferEntry _ _ o0 o1 => [o0; o1] | RedeemEntry _ _ => [] end.
Definition minted (e : Entry) : Z := match e with MintEntry _ _ total _ _ _ _ => limbs_value total | _ => 0 end.
Definition redeemed (e : Entry) : Z := match e with RedeemEntry _ i => limbs_value (in_value i) | _ => 0 end.

Definition zsum (xs : list Z) : Z := foldr Z.add 0 xs.
Definition total_in (ins : list InputWitness) : Z := zsum ((λ i, limbs_value (in_value i)) <$> ins).
Definition total_out (os : list OutputWitness) : Z := zsum ((λ o, limbs_value (out_value o)) <$> os).

Section entries.
Context `{Permutation, !Poseidon}.

Definition entry_commitments (e : Entry) : list (list Z) := output_commitment (entry_asset e) <$> entry_outputs e.
Definition entry_nullifiers (e : Entry) : list (list Z) := input_nullifier (entry_asset e) <$> entry_inputs e.

(** The two output slots of the statement; a redeem's are zero. *)
Definition slot (k : nat) (digests : list (list Z)) : list Z := nth k digests zero_digest.

Definition entry_fields (e : Entry) : list (list Z) :=
  match e with
  | MintEntry version a total nonce _ _ _ => [[version; 1]; a; total; sponge_digest "mint" [a; total; nonce]]
  | TransferEntry a _ _ _ => [[COIN_PROOF_VERSION; 0]; a; zero_value; zero_digest]
  | RedeemEntry a i => [[COIN_PROOF_VERSION; 2]; a; in_value i; zero_digest]
  end ++ [slot 0 (entry_nullifiers e); slot 1 (entry_nullifiers e); slot 0 (entry_commitments e); slot 1 (entry_commitments e)].
Definition entry_elems (e : Entry) : list Z := concat (entry_fields e).

(** What the circuits enforce on an entry whose inputs come from [parents]. *)
Record entry_ok (parents : list Entry) (e : Entry) : Prop := {
  ok_asset : length (entry_asset e) = DIGEST_ELEMS ∧ Forall is_felt (entry_asset e);
  ok_inputs : Forall (λ i, input_shape i ∧ limbs_ok (in_value i) ∧ in_owner i = sponge_digest "" [in_osk i]) (entry_inputs e);
  ok_outputs : Forall (λ o, output_shape o ∧ limbs_ok (out_value o)) (entry_outputs e);
  ok_conserved : minted e + total_in (entry_inputs e) = redeemed e + total_out (entry_outputs e);
  ok_distinct : NoDup (input_commitment (entry_asset e) <$> entry_inputs e);
  ok_arity : (length (entry_inputs e) ≤ NODE_INPUTS)%nat;
  ok_spends : Forall (λ i, ∃ p k, p ∈ parents ∧ entry_asset p = entry_asset e ∧ (k < 2)%nat ∧
    slot k (entry_commitments p) = input_commitment (entry_asset e) i) (entry_inputs e);
  ok_mint : match e with
            | MintEntry version a total nonce issuer _ _ =>
              proof_version_is_supported version = true ∧ enforce_authorization a issuer = Some tt ∧
              limbs_ok total ∧ length nonce = DIGEST_ELEMS
            | _ => True
            end }.

(** The openings laid out in the private inputs of a run. *)
Definition opened (shape : Shape) (private : list Z) : Entry :=
  match shape with
  | MintShape version =>
    let w := mint_witness_layout private in
    MintEntry version (mw_asset_id w) (mw_value_total w) (mw_mint_nonce w) (mw_issuer w) (mw_outputs w).1 (mw_outputs w).2
  | NodeShape _ _ =>
    let w := node_witness_layout private in
    TransferEntry (nw_asset_id w) [(nw_inputs w).1; (nw_inputs w).2] (nw_outputs w).1 (nw_outputs w).2
  | OneInputShape _ =>
    TransferEntry (slice 0 8 private) [input_witness 8 private] (output_witness 38 private) (output_witness 57 private)
  | RedeemShape _ | Foreign _ => RedeemEntry (slice 0 8 private) (input_witness 8 private)
  end.

Definition mint_version_ok (shape : Shape) : bool :=
  match shape with MintShape version => proof_version_is_supported version | _ => true end.

(** Runs the circuits accept, in an order in which every predecessor statement is that of an earlier run. *)
Inductive proven : list Entry → Prop :=
  | proven_nil : proven []
  | proven_snoc h shape private views elems :
      proven h → mint_version_ok shape = true → run shape private views = Some elems →
      Forall (λ v, ∃ p, p ∈ h ∧ pv_statement v = Some (embed (entry_elems p))) views →
      proven (h ++ [opened shape private]).

(** Entries in an order in which every one spends outputs of earlier ones. *)
Inductive history : list Entry → Prop :=
  | history_nil : history []
  | history_snoc h e : history h → entry_ok h e → history (h ++ [e]).
End entries.

(** ** Lemmas: entries and their statements *)
Section statements.
Context `{Permutation, !Poseidon, !PoseidonLaws _, !SpongeLaws _ _}.

Lemma entry_ok_mono h h' e : h ⊆ h' → entry_ok h e → entry_ok h' e.
Proof.
  intros Hs [Ha Hi Ho Hc Hd Hn Hp Hm]. split; try done. eapply Forall_impl; [exact Hp|].
  intros i (p & k & Hp' & ?). exists p, k. split; [by apply Hs|done].
Qed.

Lemma history_app h1 h2 : history h1 → history h2 → history (h1 ++ h2).
Proof.
  intros H1. induction 1 as [|h e Hh IH He]; [by rewrite app_nil_r|]. rewrite app_assoc. constructor; [done|].
  eapply entry_ok_mono; [|exact He]. set_solver.
Qed.

Lemma zero_digest_ok : length zero_digest = DIGEST_ELEMS ∧ Forall is_felt zero_digest.
Proof. split; [done|]. by apply Forall_replicate. Qed.

Lemma slot_ok k ds : Forall (λ d, length d = DIGEST_ELEMS ∧ Forall is_felt d) ds →
  length (slot k ds) = DIGEST_ELEMS ∧ Forall is_felt (slot k ds).
Proof.
  intros Hf. unfold slot. rewrite nth_lookup. destruct (ds !! k) as [d|] eqn:E; [|apply zero_digest_ok].
  exact (Forall_lookup_1 _ _ _ _ Hf E).
Qed.

Lemma digests_ok {A} (f : A → string * list (list Z)) (xs : list A) :
  Forall (λ d, length d = DIGEST_ELEMS ∧ Forall is_felt d) ((λ x, sponge_digest (f x).1 (f x).2) <$> xs).
Proof. apply Forall_fmap, Forall_forall. intros x _. split; [apply length_sponge_digest|apply sponge_digest_felts]. Qed.

Lemma slot_commitments k e : length (slot k (entry_commitments e)) = DIGEST_ELEMS ∧ Forall is_felt (slot k (entry_commitments e)).
Proof.
  apply slot_ok. unfold entry_commitments.
  exact (digests_ok (λ o, ("coin"%string, [entry_asset e; out_value o; out_owner o; out_randomness o])) (entry_outputs e)).
Qed.

Lemma slot_nullifiers k e : length (slot k (entry_nullifiers e)) = DIGEST_ELEMS ∧ Forall is_felt (slot k (entry_nullifiers e)).
Proof.
  apply slot_ok. unfold entry_nullifiers.
  exact (digests_ok (λ i, ("null"%string, [in_osk i; input_commitment (entry_asset e) i])) (entry_inputs e)).
Qed.

Lemma limbs_ok_felts l : limbs_ok l → length l = VALUE_LIMBS ∧ Forall is_felt l.
Proof.
  destruct l as [|a [|b [|c [|]]]]; try done. cbn. intros (? & ? & ?). split; [done|].
  repeat constructor; unfold is_felt, BABY_BEAR_P; lia.
Qed.

Lemma version_felt v : proof_version_is_supported v = true → is_felt v.
Proof.
  unfold proof_version_is_supported, LEGACY_COIN_PROOF_VERSION, COIN_PROOF_VERSION, is_felt, BABY_BEAR_P.
  rewrite orb_true_iff, !bool_decide_eq_true. lia.
Qed.

(** The fields of a well-formed entry have the widths of the statement layout. *)
Lemma entry_fields_widths h e : entry_ok h e →
  length <$> entry_fields e = [2; 8; 3; 8; 8; 8; 8; 8]%nat ∧ Forall (Forall is_felt) (entry_fields e).
Proof.
  intros [[La Fa] Hi Ho _ _ _ _ Hm]. unfold entry_fields. rewrite fmap_app, Forall_app. destruct zero_digest_ok as [Lz Fz].
  assert (is_felt COIN_PROOF_VERSION) as F4 by (apply version_felt; reflexivity).
  assert (∀ z, 0 ≤ z ≤ 2 → is_felt z) as Fs by (unfold is_felt, BABY_BEAR_P; lia).
  assert (Forall is_felt zero_value) as Fv by (by apply Forall_replicate).
  cbn [fmap list_fmap]. rewrite !(proj1 (slot_nullifiers _ e)), !(proj1 (slot_commitments _ e)).
  cut (length <$> match e with
    | MintEntry version a total nonce _ _ _ => [[version; 1]; a; total; sponge_digest "mint" [a; total; nonce]]
    | TransferEntry a _ _ _ => [[COIN_PROOF_VERSION; 0]; a; zero_value; zero_digest]
    | RedeemEntry a i => [[COIN_PROOF_VERSION; 2]; a; in_value i; zero_digest]
    end = [2; 8; 3; 8]%nat ∧ Forall (Forall is_felt) (match e with
    | MintEntry version a total nonce _ _ _ => [[version; 1]; a; total; sponge_digest "mint" [a; total; nonce]]
    | TransferEntry a _ _ _ => [[COIN_PROOF_VERSION; 0]; a; zero_value; zero_digest]
    | RedeemEntry a i => [[COIN_PROOF_VERSION; 2]; a; in_value i; zero_digest]
    end)).
  { intros [-> HF]. split; [done|]. split; [done|]. rewrite !Forall_cons.
    split_and!; try apply slot_nullifiers; try apply slot_commitments. constructor. }
  destruct e as [v a total nonce issuer o0 o1|a ins o0 o1|a i]; cbn [entry_asset entry_inputs entry_outputs fmap list_fmap] in *.
  - destruct Hm as (Hv & _ & Ht & _). apply limbs_ok_felts in Ht as [Lt Ft]. rewrite La, Lt, length_sponge_digest.
    split; [done|]. apply version_felt in Hv. repeat apply Forall_cons_2; try done; try (apply Fs; lia); apply sponge_digest_felts.
  - rewrite La, Lz. split; [done|]. repeat apply Forall_cons_2; try done; apply Fs; lia.
  - apply Forall_singleton in Hi as ([[Lv Fv'] _ _ _] & _). rewrite La, Lv, Lz. split; [done|].
    repeat apply Forall_cons_2; try done; apply Fs; lia.
Qed.

Lemma entry_elems_facts h e : entry_ok h e →
  length (entry_elems e) = STATEMENT_ELEMS ∧ Forall is_felt (entry_elems e) ∧ asset_of (entry_elems e) = entry_asset e ∧
  ∀ k : Z, k = 0 ∨ k = 1 → output_of k (entry_elems e) = slot (Z.to_nat k) (entry_commitments e).
Proof.
  intros He. destruct (entry_fields_widths _ _ He) as [W F].
  assert (length (entry_elems e) = sum_list (length <$> entry_fields e)) as Hlen.
  { unfold entry_elems. clear. induction (entry_fields e) as [|x xs IH]; [done|]. cbn. by rewrite length_app, IH. }
  split; [by rewrite Hlen, W|]. split; [by apply Forall_concat|].
  pose proof (proj1 (slot_commitments 0 e)) as L0. pose proof (proj1 (slot_commitments 1 e)) as L1.
  destruct He as [[La _] _ _ _ _ _ _ _]. unfold asset_of, output_of.
  remember (entry_fields e) as fs eqn:E.
  do 8 (destruct fs as [|? fs]; [discriminate W|]). destruct fs; [|discriminate W]. cbn in W. injection W as W0 W1 W2 W3 W4 W5 W6 W7.
  assert (l0 = entry_asset e ∧ l5 = slot 0 (entry_commitments e) ∧ l6 = slot 1 (entry_commitments e)) as (-> & -> & ->).
  { unfold entry_fields in E. destruct e; injection E; intros; by subst. }
  unfold entry_elems. rewrite <- E. split.
  - eapply (slice_field [l]); [reflexivity|cbn; lia|lia].
  - intros k [->| ->].
    + change (Z.to_nat 0) with 0%nat. rewrite bool_decide_eq_true_2 by done.
      eapply (slice_field [l; entry_asset e; l1; l2; l3; l4]); [reflexivity|cbn; lia|lia].
    + rewrite bool_decide_eq_false_2 by done. change (Z.to_nat 1) with 1%nat.
      eapply (slice_field [l; entry_asset e; l1; l2; l3; l4; slot 0 (entry_commitments e)]); [reflexivity|cbn; lia|lia].
Qed.
End statements.

(** ** Lemmas: from a run to an entry *)
Section soundness.
Context `{Permutation, !Poseidon, !PoseidonLaws _, !SpongeLaws _ _}.

Lemma input_witness_shape s private : (s + 30 ≤ length private)%nat → Forall is_felt private → input_shape (input_witness s private).
Proof.
  intros Hl Hf. split; unfold input_witness; cbn; [split; [|by apply slice_felts]|..]; rewrite length_slice by lia;
    unfold VALUE_LIMBS, DIGEST_ELEMS, OSK_ELEMS; lia.
Qed.

Lemma output_witness_shape s private : (s + 19 ≤ length private)%nat → Forall is_felt private → output_shape (output_witness s private).
Proof.
  intros Hl Hf. split; unfold output_witness; cbn; [split; [|by apply slice_felts]|..]; rewrite length_slice by lia;
    unfold VALUE_LIMBS, DIGEST_ELEMS; lia.
Qed.

Lemma asset_shape private : (8 ≤ length private)%nat → Forall is_felt private →
  length (slice 0 8 private) = DIGEST_ELEMS ∧ Forall is_felt (slice 0 8 private).
Proof. intros Hl Hf. split; [by rewrite length_slice by lia|by apply slice_felts]. Qed.

Lemma run_inv shape private views elems : run shape private views = Some elems →
  length private = private_elems shape ∧ Forall is_felt private.
Proof.
  intros E. unfold run in E. apply bind_Some in E as (u1 & Hl%require_Some & E).
  by apply bind_Some in E as (u2 & Hf%require_Some & _).
Qed.

Ltac forall_done := repeat (apply Forall_cons_2; [done|]); apply Forall_nil_2.

(** The statement of an entry, field by field. *)
Ltac entry_statement := unfold entry_elems, entry_fields, slot, entry_nullifiers, entry_commitments; cbn; by rewrite ?app_nil_r.

Lemma run_mint_sound v private elems : proof_version_is_supported v = true → run (MintShape v) private [] = Some elems →
  entry_ok [] (opened (MintShape v) private) ∧ elems = entry_elems (opened (MintShape v) private).
Proof.
  intros Hv E. pose proof (run_inv _ _ _ _ E) as [Hl Hf]. cbn [private_elems] in Hl.
  unfold run in E. rewrite !require_true in E by done. cbn [mbind option_bind] in E. unfold build_mint_circuit in E.
  unfold MINT_PRIVATE_ELEMS, ISSUER_AUTH_ELEMS, ISSUER_SECRET_ELEMS, ISSUER_GENESIS_ELEMS, OUT_ELEMS, NODE_OUTPUTS, DIGEST_ELEMS, VALUE_LIMBS in Hl.
  pose proof (asset_shape private ltac:(lia) Hf) as Ha.
  pose proof (output_witness_shape 42 private ltac:(lia) Hf) as [[N0 F0] O0 R0].
  pose proof (output_witness_shape 61 private ltac:(lia) Hf) as [[N1 F1] O1 R1].
  assert (length (slice 8 11 private) = VALUE_LIMBS) as Nt by (by rewrite length_slice by lia).
  assert (length (slice 11 19 private) = DIGEST_ELEMS) as Nn by (by rewrite length_slice by lia).
  cbn [opened mint_witness_layout mw_outputs mw_asset_id mw_value_total mw_mint_nonce mw_issuer fst snd] in E |- *.
  set (a := slice 0 8 private) in *. set (total := slice 8 11 private) in *. set (nonce := slice 11 19 private) in *.
  set (o0 := output_witness 42 private) in *. set (o1 := output_witness 61 private) in *.
  set (issuer := issuer_witness_layout (slice 19 42 private)) in *. clearbody a nonce o0 o1 issuer.
  apply bind_Some in E as ([] & Hauth & E).
  apply bind_Some in E as (u1 & Ht%range_check_value_ok & E); [|done|by apply slice_felts]. clearbody total.
  apply bind_Some in E as (u2 & H0'%range_check_value_ok & E); [|done..].
  apply bind_Some in E as (u3 & H1'%range_check_value_ok & E); [|done..].
  apply bind_Some in E as ([] & Hsum & E). apply sum_eq_iff in Hsum; [|done..|by cbn].
  apply bind_Some in E as (c0 & ->%coin_commitment_iff & E); [|done..].
  apply bind_Some in E as (c1 & ->%coin_commitment_iff & E); [|done..].
  apply bind_Some in E as (mc & Hmc & [= <-]).
  apply hash_base_iff in Hmc as ->; [|cbn; rewrite (proj1 Ha), Nt, Nn; unfold RATE, VALUE_LIMBS, DIGEST_ELEMS; lia].
  split; [|entry_statement].
  split; cbn; [done|constructor|by repeat constructor| |constructor|lia|constructor|done].
  cbn in Hsum. lia.
Qed.

Lemma input_commitment_shape a i : length (input_commitment a i) = DIGEST_ELEMS ∧ Forall is_felt (input_commitment a i).
Proof. split; [apply length_sponge_digest|apply sponge_digest_felts]. Qed.

(** The chaining constraints find the consumed coin among the predecessor's outputs. *)
Lemma chain_spends h p key view a k i u : entry_ok h p → pv_statement view = Some (embed (entry_elems p)) →
  length a = DIGEST_ELEMS → Forall is_felt a → chain_constraints key view a k (input_commitment a i) = Some u →
  ∃ p' j, p' ∈ [p] ∧ entry_asset p' = a ∧ (j < 2)%nat ∧ slot j (entry_commitments p') = input_commitment a i.
Proof.
  intros Hp Hs La Fa E. destruct (entry_elems_facts _ _ Hp) as (Le & Fe & Ea & Eo).
  destruct (input_commitment_shape a i) as [Lc Fc].
  apply (chain_constraints_iff (entry_elems p)) in E as (_ & _ & Ha & Hk & Ho); [|done..].
  exists p, (Z.to_nat k). split_and!; [by apply list_elem_of_singleton|congruence|lia|]. rewrite <- Ho. symmetry. by apply Eo.
Qed.

Lemma run_node_sound key0 key1 private v0 v1 h0 h1 p0 p1 elems :
  run (NodeShape key0 key1) private [v0; v1] = Some elems → entry_ok h0 p0 → entry_ok h1 p1 →
  pv_statement v0 = Some (embed (entry_elems p0)) → pv_statement v1 = Some (embed (entry_elems p1)) →
  entry_ok [p0; p1] (opened (NodeShape key0 key1) private) ∧ elems = entry_elems (opened (NodeShape key0 key1) private).
Proof.
  intros E Hp0 Hp1 S0 S1. pose proof (run_inv _ _ _ _ E) as [Hl Hf]. cbn [private_elems] in Hl.
  unfold run in E. rewrite !require_true in E by done. cbn [mbind option_bind] in E. unfold build_node_circuit in E.
  unfold NODE_PRIVATE_ELEMS, IN_ELEMS, OUT_ELEMS, OSK_ELEMS, NODE_INPUTS, NODE_OUTPUTS, DIGEST_ELEMS, VALUE_LIMBS in Hl.
  pose proof (asset_shape private ltac:(lia) Hf) as Ha.
  pose proof (input_witness_shape 8 private ltac:(lia) Hf) as I0. pose proof (input_witness_shape 38 private ltac:(lia) Hf) as I1.
  pose proof (output_witness_shape 68 private ltac:(lia) Hf) as O0. pose proof (output_witness_shape 87 private ltac:(lia) Hf) as O1.
  cbn [opened node_witness_layout nw_asset_id nw_inputs nw_outputs nw_selectors nw_distinct_limb_bits fst snd] in E |- *.
  set (a := slice 0 8 private) in *. set (i0 := input_witness 8 private) in *. set (i1 := input_witness 38 private) in *.
  set (o0 := output_witness 68 private) in *. set (o1 := output_witness 87 private) in *. clearbody a i0 i1 o0 o1.
  apply bind_Some in E as ([c0 n0] & (V0 & K0 & -> & ->)%input_predicate_iff & E); [|done].
  apply bind_Some in E as ([c1 n1] & (V1 & K1 & -> & ->)%input_predicate_iff & E); [|done].
  apply bind_Some in E as ([] & Hd & E).
  apply bind_Some in E as (d0 & (W0 & ->)%output_predicate_iff & E); [|done].
  apply bind_Some in E as (d1 & (W1 & ->)%output_predicate_iff & E); [|done].
  apply bind_Some in E as ([] & Hsum & E). apply sum_eq_iff in Hsum; [|done..].
  apply bind_Some in E as (u0 & X0 & E). apply bind_Some in E as (u1 & X1 & [= <-]).
  apply (chain_spends h0 p0) in X0; [|done|done|apply Ha|apply Ha]. apply (chain_spends h1 p1) in X1; [|done|done|apply Ha|apply Ha].
  split; [|entry_statement].
  split; cbn; [done|forall_done|forall_done|lia| |unfold NODE_INPUTS; lia| |done].
  - apply NoDup_cons. split; [|apply NoDup_singleton]. rewrite list_elem_of_singleton.
    eapply distinct_digest; [|exact Hd]. apply length_sponge_digest.
  - repeat constructor; [destruct X0 as (p & j & Hin & ?)|destruct X1 as (p & j & Hin & ?)]; exists p, j; set_solver.
Qed.

Lemma run_one_input_sound key private v h p elems : run (OneInputShape key) private [v] = Some elems → entry_ok h p →
  pv_statement v = Some (embed (entry_elems p)) →
  entry_ok [p] (opened (OneInputShape key) private) ∧ elems = entry_elems (opened (OneInputShape key) private).
Proof.
  intros E Hp S. pose proof (run_inv _ _ _ _ E) as [Hl Hf]. cbn [private_elems] in Hl. cbn [opened].
  unfold run in E. rewrite !require_true in E by done. cbn [mbind option_bind] in E. unfold build_one_input_transfer_circuit in E.
  unfold ONE_INPUT_PRIVATE_ELEMS, IN_ELEMS, OUT_ELEMS, OSK_ELEMS, NODE_OUTPUTS, DIGEST_ELEMS, VALUE_LIMBS in Hl.
  pose proof (asset_shape private ltac:(lia) Hf) as Ha.
  pose proof (input_witness_shape 8 private ltac:(lia) Hf) as I0.
  pose proof (output_witness_shape 38 private ltac:(lia) Hf) as O0. pose proof (output_witness_shape 57 private ltac:(lia) Hf) as O1.
  set (a := slice 0 8 private) in *. set (i0 := input_witness 8 private) in *.
  set (o0 := output_witness 38 private) in *. set (o1 := output_witness 57 private) in *. clearbody a i0 o0 o1.
  apply bind_Some in E as ([c0 n0] & (V0 & K0 & -> & ->)%input_predicate_iff & E); [|done].
  apply bind_Some in E as (d0 & (W0 & ->)%output_predicate_iff & E); [|done].
  apply bind_Some in E as (d1 & (W1 & ->)%output_predicate_iff & E); [|done].
  apply bind_Some in E as ([] & Hsum & E). apply sum_eq_iff in Hsum; [|done|by cbn|done..].
  apply bind_Some in E as (u0 & X0 & [= <-]). apply (chain_spends h p) in X0; [|done|done|apply Ha|apply Ha].
  split; [|entry_statement].
  split; cbn; [done|forall_done|forall_done| |apply NoDup_singleton|unfold NODE_INPUTS; lia|forall_done|done].
  cbn in Hsum. lia.
Qed.

Lemma run_redeem_sound key private v h p elems : run (RedeemShape key) private [v] = Some elems → entry_ok h p →
  pv_statement v = Some (embed (entry_elems p)) →
  entry_ok [p] (opened (RedeemShape key) private) ∧ elems = entry_elems (opened (RedeemShape key) private).
Proof.
  intros E Hp S. pose proof (run_inv _ _ _ _ E) as [Hl Hf]. cbn [private_elems] in Hl. cbn [opened].
  unfold run in E. rewrite !require_true in E by done. cbn [mbind option_bind] in E. unfold build_redeem_circuit in E.
  unfold REDEEM_PRIVATE_ELEMS, IN_ELEMS, OSK_ELEMS, DIGEST_ELEMS, VALUE_LIMBS in Hl.
  pose proof (asset_shape private ltac:(lia) Hf) as Ha.
  pose proof (input_witness_shape 8 private ltac:(lia) Hf) as I0.
  set (a := slice 0 8 private) in *. set (i0 := input_witness 8 private) in *. clearbody a i0.
  apply bind_Some in E as ([c0 n0] & (V0 & K0 & -> & ->)%input_predicate_iff & E); [|done].
  apply bind_Some in E as (u0 & X0 & [= <-]). apply (chain_spends h p) in X0; [|done|done|apply Ha|apply Ha].
  split; [|entry_statement].
  split; cbn; [done|forall_done|constructor|lia|apply NoDup_singleton|unfold NODE_INPUTS; lia|forall_done|done].
Qed.

(** A run over statements of well-formed entries opens a well-formed entry and exposes its statement. *)
Lemma run_sound h shape private views elems : mint_version_ok shape = true → run shape private views = Some elems →
  Forall (λ v, ∃ p, p ∈ h ∧ pv_statement v = Some (embed (entry_elems p))) views → (∀ p, p ∈ h → ∃ ps, entry_ok ps p) →
  entry_ok h (opened shape private) ∧ elems = entry_elems (opened shape private).
Proof.
  intros Hm E Hv Hh. pose proof E as E'. unfold run in E'. apply bind_Some in E' as (? & _ & E'). apply bind_Some in E' as (? & _ & E').
  destruct shape as [version|k0 k1|k|k|id].
  - destruct views; [|done]. apply run_mint_sound in E as [He ->]; [|done]. split; [|done]. eapply entry_ok_mono; [|exact He]. set_solver.
  - destruct views as [|v0 [|v1 [|]]]; try done. rewrite !Forall_cons in Hv. destruct Hv as ((p0 & I0 & S0) & (p1 & I1 & S1) & _).
    destruct (Hh p0 I0) as [? O0], (Hh p1 I1) as [? O1].
    destruct (run_node_sound _ _ _ _ _ _ _ _ _ _ E O0 O1 S0 S1) as [He ->]. split; [|done]. eapply entry_ok_mono; [|exact He]. set_solver.
  - destruct views as [|v [|]]; try done. apply Forall_singleton in Hv as (p & I0 & S0). destruct (Hh p I0) as [? O0].
    destruct (run_one_input_sound _ _ _ _ _ _ E O0 S0) as [He ->]. split; [|done]. eapply entry_ok_mono; [|exact He]. set_solver.
  - destruct views as [|v [|]]; try done. apply Forall_singleton in Hv as (p & I0 & S0). destruct (Hh p I0) as [? O0].
    destruct (run_redeem_sound _ _ _ _ _ _ E O0 S0) as [He ->]. split; [|done]. eapply entry_ok_mono; [|exact He]. set_solver.
  - by destruct views.
Qed.

Lemma history_entries h : history h → ∀ e, e ∈ h → ∃ parents, parents ⊆ h ∧ entry_ok parents e.
Proof.
  induction 1 as [|h e Hh IH He]; [set_solver|]. intros e' [Hin| ->%list_elem_of_singleton]%elem_of_app.
  - destruct (IH e' Hin) as (ps & ? & ?). exists ps. set_solver.
  - exists h. set_solver.
Qed.

(** What the circuits accept is a history. *)
Lemma proven_history h : proven h → history h.
Proof.
  induction 1 as [|h shape private views elems Hp IH Hm E Hv]; [constructor|]. constructor; [done|].
  refine (proj1 (run_sound h shape private views elems Hm E Hv _)).
  intros p Hin. destruct (history_entries h IH p Hin) as (ps & _ & ?). by exists ps.
Qed.

Lemma proven_app h1 h2 : proven h1 → proven h2 → proven (h1 ++ h2).
Proof.
  intros H1. induction 1 as [|h shape private views elems Hp IH Hm E Hv]; [by rewrite app_nil_r|]. rewrite app_assoc.
  econstructor; [done|done|exact E|]. eapply Forall_impl; [exact Hv|]. intros v (p & ? & ?). exists p. set_solver.
Qed.
End soundness.

(** ** Every authenticated proof stands for a history *)

(** A key built from the circuits of this crate, all the way down. *)
Fixpoint authentic (key : Shape) : bool :=
  match key with
  | MintShape version => proof_version_is_supported version
  | NodeShape key0 key1 => authentic key0 && authentic key1
  | OneInputShape key | RedeemShape key => authentic key
  | Foreign _ => false
  end.

Lemma authentic_not_foreign key : authentic key = true → ∀ id, key ≠ Foreign id.
Proof. by intros Ha id ->. Qed.

Lemma embed_inj l1 l2 : embed l1 = embed l2 → l1 = l2.
Proof.
  intros E. apply list_eq_same_length with (n := length l1); [|done|].
  { apply (f_equal length) in E. rewrite !length_embed in E. lia. }
  intros i a b _ Ea Eb. pose proof (nth_embed l1 i) as E1. rewrite E, nth_embed in E1.
  by rewrite !nth_lookup, Ea, Eb in E1.
Qed.

Section proofs.
Context `{Permutation, !Poseidon, !PoseidonLaws _, !SpongeLaws _ _} {Stark : Type} `{!StarkSystem Stark, !StarkLaws Stark _}.

(** A run that verified its predecessors. *)
Lemma run_chained shape private views elems : run shape private views = Some elems →
  match shape with
  | MintShape _ => views = []
  | NodeShape k0 k1 => ∃ v0 v1, views = [v0; v1] ∧ pv_verified v0 = true ∧ pv_key v0 = Some k0 ∧
      pv_verified v1 = true ∧ pv_key v1 = Some k1
  | OneInputShape k | RedeemShape k => ∃ v, views = [v] ∧ pv_verified v = true ∧ pv_key v = Some k
  | Foreign _ => False
  end.
Proof.
  assert (∀ k v a s c u, chain_constraints k v a s c = Some u → pv_verified v = true ∧ pv_key v = Some k) as Hc.
  { intros k v a s c u E. unfold chain_constraints in E. apply bind_Some in E as (? & ?%require_Some & E).
    by apply bind_Some in E as (? & ?%require_Some & _). }
  intros E. pose proof (run_inv _ _ _ _ E) as [Hl Hf]. unfold run in E. rewrite !require_true in E by done.
  cbn [mbind option_bind] in E. destruct shape as [v|k0 k1|k|k|id]; [by destruct views| | | |by destruct views].
  - destruct views as [|v0 [|v1 [|]]]; try done. unfold build_node_circuit in E. cbn [node_witness_layout nw_inputs nw_outputs] in E.
    apply bind_Some in E as ([] & _ & E). apply bind_Some in E as ([] & _ & E). apply bind_Some in E as (? & _ & E).
    apply bind_Some in E as (? & _ & E). apply bind_Some in E as (? & _ & E). apply bind_Some in E as (? & _ & E).
    apply bind_Some in E as (? & [? ?]%Hc & E). apply bind_Some in E as (? & [? ?]%Hc & _). by exists v0, v1.
  - destruct views as [|v [|]]; try done. unfold build_one_input_transfer_circuit in E.
    apply bind_Some in E as ([] & _ & E). apply bind_Some in E as (? & _ & E). apply bind_Some in E as (? & _ & E).
    apply bind_Some in E as (? & _ & E). apply bind_Some in E as (? & [? ?]%Hc & _). by exists v.
  - destruct views as [|v [|]]; try done. unfold build_redeem_circuit in E.
    apply bind_Some in E as ([] & _ & E). apply bind_Some in E as (? & [? ?]%Hc & _). by exists v.
Qed.

(** One more run, and the statement table of its proof. *)
Lemma proven_last h shape private views elems p : proven h → mint_version_ok shape = true →
  run shape private views = Some elems → Forall (λ v, ∃ q, q ∈ h ∧ pv_statement v = Some (embed (entry_elems q))) views →
  statement_table p = Some (embed elems) →
  ∃ h e, proven (h ++ [e]) ∧ statement_table p = Some (embed (entry_elems e)).
Proof.
  intros Hp Hm E Hv Es. exists h, (opened shape private). split; [by econstructor|]. rewrite Es. do 2 f_equal.
  refine (proj2 (run_sound h shape private views elems Hm E Hv _)).
  intros q Hq. destruct (history_entries h (proven_history h Hp) q Hq) as (ps & _ & ?). by exists ps.
Qed.

(** The proof of every key of the crate is the last run of a ledger. *)
Lemma verified_proven key : ∀ p, authentic key = true → verify_all_tables p = true ∨ verify_p3_batch_proof p = true →
  preprocessed p = Some key → ∃ h e, proven (h ++ [e]) ∧ statement_table p = Some (embed (entry_elems e)).
Proof.
  induction key as [v|k0 IH0 k1 IH1|k IH|k IH|id]; intros p Ha Hv Hk; cbn in Ha; [| | | |done].
  all: destruct (stark_sound p _ Hv Hk ltac:(done)) as (private & preds & elems & Er & Es); pose proof (run_chained _ _ _ _ Er) as Hc.
  - destruct preds; [|done]. exists [], (opened (MintShape v) private).
    assert (proven ([] ++ [opened (MintShape v) private])) as Hp by (econstructor; [constructor|done|exact Er|constructor]).
    split; [done|]. by destruct (run_mint_sound v private elems Ha Er) as [_ <-].
  - apply andb_true_iff in Ha as [A0 A1]. destruct Hc as (v0 & v1 & Ev & V0 & K0 & V1 & K1).
    destruct preds as [|p0 [|p1 [|]]]; try discriminate Ev. injection Ev as <- <-.
    destruct (IH0 p0 A0 (or_intror V0) K0) as (h0 & e0 & P0 & S0). destruct (IH1 p1 A1 (or_intror V1) K1) as (h1 & e1 & P1 & S1).
    eapply (proven_last ((h0 ++ [e0]) ++ (h1 ++ [e1])) (NodeShape k0 k1) private _ elems p); [by apply proven_app|done|exact Er| |done].
    repeat constructor; [exists e0|exists e1]; (split; [set_solver|done]).
  - destruct Hc as (v0 & Ev & V0 & K0). destruct preds as [|p0 [|]]; try discriminate Ev. injection Ev as <-.
    destruct (IH p0 Ha (or_intror V0) K0) as (h0 & e0 & P0 & S0).
    eapply (proven_last (h0 ++ [e0]) (OneInputShape k) private _ elems p); [done|done|exact Er| |done].
    repeat constructor; exists e0; (split; [set_solver|done]).
  - destruct Hc as (v0 & Ev & V0 & K0). destruct preds as [|p0 [|]]; try discriminate Ev. injection Ev as <-.
    destruct (IH p0 Ha (or_intror V0) K0) as (h0 & e0 & P0 & S0).
    eapply (proven_last (h0 ++ [e0]) (RedeemShape k) private _ elems p); [done|done|exact Er| |done].
    repeat constructor; exists e0; (split; [set_solver|done]).
Qed.

Lemma verified_coin_history st (coin : CoinProof Stark) key :
  verify_coin_proof st coin = Ok tt → preprocessed (proof coin) = Some key → authentic key = true →
  ∃ h e, proven (h ++ [e]) ∧ statement_elems (version coin) (mode coin) st = entry_elems e.
Proof.
  intros (_ & _ & Es & Hv)%verify_coin_proof_Ok Hk Ha.
  destruct (verified_proven key (proof coin) Ha (or_introl Hv) Hk) as (h & e & Hh & Es').
  exists h, e. split; [done|]. rewrite Es in Es'. apply (inj Some) in Es'. by apply embed_inj in Es'.
Qed.

End proofs.

(** ** Conservation over a ledger *)

Lemma zsum_cons x xs : zsum (x :: xs) = x + zsum xs.
Proof. reflexivity. Qed.

Lemma zsum_app xs ys : zsum (xs ++ ys) = zsum xs + zsum ys.
Proof. induction xs as [|x xs IH]; [done|]. rewrite <- app_comm_cons, !zsum_cons, IH. lia. Qed.

#[export] Instance zsum_perm : Proper ((≡ₚ) ==> eq) zsum.
Proof. induction 1; rewrite ?zsum_cons; [done|lia|lia|congruence]. Qed.

Lemma zsum_nonneg xs : Forall (λ x, 0 ≤ x) xs → 0 ≤ zsum xs.
Proof. induction 1 as [|x xs Hx _ IH]; [done|]. rewrite zsum_cons. lia. Qed.

Lemma zsum_submseteq xs ys : xs ⊆+ ys → Forall (λ x, 0 ≤ x) ys → zsum xs ≤ zsum ys.
Proof.
  intros [zs Hz]%submseteq_Permutation. rewrite Hz. intros [_ Hy%zsum_nonneg]%Forall_app. rewrite zsum_app. lia.
Qed.

Lemma total_in_app xs ys : total_in (xs ++ ys) = total_in xs + total_in ys.
Proof. unfold total_in. by rewrite fmap_app, zsum_app. Qed.
Lemma total_out_app xs ys : total_out (xs ++ ys) = total_out xs + total_out ys.
Proof. unfold total_out. by rewrite fmap_app, zsum_app. Qed.

(** A list without repetition of one key has none of a finer one. *)
Lemma NoDup_coarser {A B C} (f : A → B) (g : A → C) l :
  NoDup (f <$> l) → (∀ x y, x ∈ l → y ∈ l → g x = g y → f x = f y) → NoDup (g <$> l).
Proof.
  induction l as [|x l IH]; intros Hn Hg; [constructor|]. rewrite fmap_cons in *. apply NoDup_cons in Hn as [Hx Hn].
  apply NoDup_cons. split; [|apply IH; [done|]; set_solver].
  intros (y & E & Hy)%list_elem_of_fmap. destruct Hx. rewrite (Hg x y); [by apply list_elem_of_fmap_2|set_solver..].
Qed.

Section ledger.
Context `{Permutation, !Poseidon}.

Definition of_asset (a : list Z) (h : list Entry) : list Entry := filter (λ e, entry_asset e = a) h.
Definition ledger_minted (a : list Z) (h : list Entry) : Z := zsum (minted <$> of_asset a h).
Definition ledger_redeemed (a : list Z) (h : list Entry) : Z := zsum (redeemed <$> of_asset a h).
Definition ledger_inputs (a : list Z) (h : list Entry) : list InputWitness := concat (entry_inputs <$> of_asset a h).
Definition ledger_outputs (a : list Z) (h : list Entry) : list OutputWitness := concat (entry_outputs <$> of_asset a h).
Definition spent (a : list Z) (h : list Entry) : list (list Z) := input_commitment a <$> ledger_inputs a h.
Definition unspent (a : list Z) (h : list Entry) : list OutputWitness :=
  filter (λ o, output_commitment a o ∉ spent a h) (ledger_outputs a h).
Definition ledger_nullifiers (h : list Entry) : list (list Z) := concat (entry_nullifiers <$> h).

(** The sponge inputs behind the digests of an entry's coins. *)
Definition entry_preimages (e : Entry) : list (list Z) :=
  ((λ i, hash_input "coin" [entry_asset e; in_value i; in_owner i; in_randomness i]) <$> entry_inputs e) ++
  ((λ i, hash_input "" [in_osk i]) <$> entry_inputs e) ++
  ((λ o, hash_input "coin" [entry_asset e; out_value o; out_owner o; out_randomness o]) <$> entry_outputs e).
Definition ledger_preimages (h : list Entry) : list (list Z) := concat (entry_preimages <$> h).

(** No two of these inputs collide, and none hashes to the zero digest. *)
Definition collision_free (xs : list (list Z)) : Prop :=
  Forall (λ x, hash_iter x ≠ zero_digest ∧ Forall (λ y, hash_iter x = hash_iter y → x = y) xs) xs.
End ledger.

Section conservation.
Context `{Permutation, !Poseidon, !PoseidonLaws _, !SpongeLaws _ _}.

Lemma of_asset_elem a h e : e ∈ of_asset a h ↔ entry_asset e = a ∧ e ∈ h.
Proof. unfold of_asset. by rewrite list_elem_of_filter. Qed.

Lemma ledger_inputs_elem a h i : i ∈ ledger_inputs a h ↔ ∃ e, e ∈ h ∧ entry_asset e = a ∧ i ∈ entry_inputs e.
Proof.
  unfold ledger_inputs. rewrite list_elem_of_In, in_concat. setoid_rewrite <- list_elem_of_In. setoid_rewrite list_elem_of_fmap.
  setoid_rewrite of_asset_elem. naive_solver.
Qed.

Lemma ledger_outputs_elem a h o : o ∈ ledger_outputs a h ↔ ∃ e, e ∈ h ∧ entry_asset e = a ∧ o ∈ entry_outputs e.
Proof.
  unfold ledger_outputs. rewrite list_elem_of_In, in_concat. setoid_rewrite <- list_elem_of_In. setoid_rewrite list_elem_of_fmap.
  setoid_rewrite of_asset_elem. naive_solver.
Qed.

(** Value is conserved by every entry, so by the ledger. *)
Lemma ledger_conserved a h : (∀ e, e ∈ h → ∃ parents, entry_ok parents e) →
  ledger_minted a h + total_in (ledger_inputs a h) = ledger_redeemed a h + total_out (ledger_outputs a h).
Proof.
  unfold ledger_minted, ledger_redeemed, ledger_inputs, ledger_outputs.
  induction h as [|e h IH]; intros Hh; [done|]. specialize (IH ltac:(set_solver)).
  destruct (Hh e ltac:(set_solver)) as (ps & [_ _ _ Hc _ _ _ _]). unfold of_asset in *. rewrite filter_cons. case_decide; [|done].
  rewrite !fmap_cons. cbn [concat]. rewrite !zsum_cons, total_in_app, total_out_app. lia.
Qed.

(** *** The sponge inputs of the ledger *)
Lemma preimage_elem h e x : e ∈ h → x ∈ entry_preimages e → x ∈ ledger_preimages h.
Proof.
  intros He Hx. apply list_elem_of_In, in_concat. exists (entry_preimages e). rewrite <- !list_elem_of_In.
  split; [apply list_elem_of_fmap; by exists e|done].
Qed.

Lemma input_preimages e i : i ∈ entry_inputs e →
  hash_input "coin" [entry_asset e; in_value i; in_owner i; in_randomness i] ∈ entry_preimages e ∧
  hash_input "" [in_osk i] ∈ entry_preimages e.
Proof.
  intros Hi. unfold entry_preimages. rewrite !elem_of_app, !list_elem_of_fmap. split; [left|right; left]; by exists i.
Qed.

Lemma output_preimages e o : o ∈ entry_outputs e →
  hash_input "coin" [entry_asset e; out_value o; out_owner o; out_randomness o] ∈ entry_preimages e.
Proof. intros Ho. unfold entry_preimages. rewrite !elem_of_app, !list_elem_of_fmap. right; right; by exists o. Qed.

Lemma collision_free_inj xs x y : collision_free xs → x ∈ xs → y ∈ xs → hash_iter x = hash_iter y → x = y.
Proof. unfold collision_free. rewrite Forall_forall. intros Hf Hx Hy. destruct (Hf x Hx) as [_ H2]. rewrite Forall_forall in H2. by apply H2. Qed.

Lemma collision_free_zero xs x : collision_free xs → x ∈ xs → hash_iter x ≠ zero_digest.
Proof. unfold collision_free. rewrite Forall_forall. intros Hf Hx. by destruct (Hf x Hx). Qed.

Lemma hash_input_parts d p1 p2 : hash_input d p1 = hash_input d p2 → concat p1 = concat p2.
Proof. unfold hash_input. intros [= _ E]. by apply app_inv_head in E. Qed.

Lemma coin_parts_inj a v1 o1 r1 v2 o2 r2 : length v1 = length v2 → length o1 = length o2 →
  hash_input "coin" [a; v1; o1; r1] = hash_input "coin" [a; v2; o2; r2] → v1 = v2 ∧ o1 = o2 ∧ r1 = r2.
Proof.
  intros Lv Lo E%hash_input_parts. cbn [concat] in E. rewrite !app_nil_r in E. apply app_inv_head in E.
  apply app_inj_1 in E as [-> E]; [|done]. by apply app_inj_1 in E as [-> ->].
Qed.

Section facts.
Context (a : list Z) (h : list Entry) (Hh : history h) (Hf : collision_free (ledger_preimages h)).

Lemma ledger_input_ok i : i ∈ ledger_inputs a h →
  (input_shape i ∧ limbs_ok (in_value i) ∧ in_owner i = sponge_digest "" [in_osk i]) ∧
  hash_input "coin" [a; in_value i; in_owner i; in_randomness i] ∈ ledger_preimages h ∧
  hash_input "" [in_osk i] ∈ ledger_preimages h.
Proof.
  intros (e & He & Ea & Hi)%ledger_inputs_elem. destruct (history_entries h Hh e He) as (ps & _ & [_ Hin _ _ _ _ _ _]).
  rewrite Forall_forall in Hin. split; [by apply Hin|]. destruct (input_preimages e i Hi) as [H1 H2]. rewrite Ea in H1.
  split; by eapply preimage_elem.
Qed.

Lemma ledger_output_ok o : o ∈ ledger_outputs a h →
  (output_shape o ∧ limbs_ok (out_value o)) ∧
  hash_input "coin" [a; out_value o; out_owner o; out_randomness o] ∈ ledger_preimages h.
Proof.
  intros (e & He & Ea & Ho)%ledger_outputs_elem. destruct (history_entries h Hh e He) as (ps & _ & [_ _ Hout _ _ _ _ _]).
  rewrite Forall_forall in Hout. split; [by apply Hout|]. pose proof (output_preimages e o Ho) as H1. rewrite Ea in H1.
  by eapply preimage_elem.
Qed.

(** Every consumed coin is an output of the ledger, with the value it was created with. *)
Lemma spent_output i : i ∈ ledger_inputs a h →
  ∃ o, o ∈ ledger_outputs a h ∧ output_commitment a o = input_commitment a i ∧ out_value o = in_value i.
Proof.
  intros Hi. pose proof (ledger_input_ok i Hi) as (([[Lv _] Lo _ _] & _ & _) & Hc & _).
  apply ledger_inputs_elem in Hi as (e & He & Ea & Hi). destruct (history_entries h Hh e He) as (ps & Hsub & [_ _ _ _ _ _ Hsp _]).
  rewrite Forall_forall in Hsp. destruct (Hsp i Hi) as (p & k & Hp & Ep & _ & Es). rewrite Ea in *.
  unfold slot, entry_commitments in Es. rewrite Ep in Es.
  rewrite nth_lookup, list_lookup_fmap in Es. destruct (entry_outputs p !! k) as [o|] eqn:Eo; cbn in Es.
  - assert (o ∈ ledger_outputs a h) as Ho.
    { apply ledger_outputs_elem. exists p. split_and!; [by apply Hsub|done|by eapply list_elem_of_lookup_2]. }
    exists o. split_and!; [done..|]. destruct (ledger_output_ok o Ho) as (([[Lv' _] Lo' _] & _) & Hc').
    apply (collision_free_inj _ _ _ Hf Hc' Hc) in Es. apply coin_parts_inj in Es as (? & _); [done|congruence..].
  - by destruct (collision_free_zero _ _ Hf Hc).
Qed.

(** Coins with the same commitment have the same nullifier. *)
Lemma same_nullifier i j : i ∈ ledger_inputs a h → j ∈ ledger_inputs a h →
  input_commitment a i = input_commitment a j → input_nullifier a i = input_nullifier a j.
Proof.
  intros Hi Hj E. destruct (ledger_input_ok i Hi) as (([[Lv _] Lo _ _] & _ & Oi) & Ci & Ki).
  destruct (ledger_input_ok j Hj) as (([[Lv' _] Lo' _ _] & _ & Oj) & Cj & Kj).
  unfold input_nullifier. rewrite E. apply (collision_free_inj _ _ _ Hf Ci Cj) in E.
  apply coin_parts_inj in E as (_ & Eo & _); [|congruence..]. rewrite Oi, Oj in Eo.
  apply (collision_free_inj _ _ _ Hf Ki Kj), hash_input_parts in Eo. cbn in Eo. rewrite !app_nil_r in Eo. by rewrite Eo.
Qed.
End facts.

Lemma asset_nullifiers a h : sublist (input_nullifier a <$> ledger_inputs a h) (ledger_nullifiers h).
Proof.
  unfold ledger_inputs, ledger_nullifiers, of_asset. induction h as [|e h IH]; [constructor|].
  rewrite filter_cons. rewrite (fmap_cons entry_nullifiers). cbn [concat]. case_decide as Ha.
  - rewrite fmap_cons. cbn [concat]. rewrite fmap_app. apply sublist_app; [|done]. unfold entry_nullifiers. by rewrite Ha.
  - etrans; [exact IH|]. apply sublist_inserts_l. reflexivity.
Qed.

(** Inputs and outputs as pairs of a commitment and a value. *)
Lemma spent_value a h : history h → NoDup (ledger_nullifiers h) → collision_free (ledger_preimages h) →
  total_in (ledger_inputs a h) ≤ total_out (filter (λ o, output_commitment a o ∈ spent a h) (ledger_outputs a h)).
Proof.
  intros Hh Hn Hf. set (outs := filter _ _).
  set (pin := λ i, (input_commitment a i, limbs_value (in_value i))).
  set (pout := λ o, (output_commitment a o, limbs_value (out_value o))).
  assert (total_in (ledger_inputs a h) = zsum (snd <$> (pin <$> ledger_inputs a h))) as -> by (by rewrite <- list_fmap_compose).
  assert (total_out outs = zsum (snd <$> (pout <$> outs))) as -> by (by rewrite <- list_fmap_compose).
  apply zsum_submseteq.
  - apply fmap_submseteq, NoDup_submseteq.
    + apply (NoDup_fmap_1 fst). rewrite <- list_fmap_compose. change (fst ∘ pin) with (input_commitment a).
      apply (NoDup_coarser (input_nullifier a)); [eapply sublist_NoDup; [exact Hn|apply asset_nullifiers]|].
      intros i j. by apply same_nullifier.
    + intros p (i & -> & Hi)%list_elem_of_fmap. destruct (spent_output a h Hh Hf i Hi) as (o & Ho & Ec & Ev).
      apply list_elem_of_fmap. exists o. split; [unfold pin, pout; by rewrite Ec, Ev|]. apply list_elem_of_filter. split; [|done].
      rewrite Ec. apply list_elem_of_fmap. by exists i.
  - apply Forall_fmap, Forall_forall. intros p (o & -> & Ho)%list_elem_of_fmap. unfold compose. cbn.
    apply list_elem_of_filter in Ho as [_ Ho]. destruct (ledger_output_ok a h Hh o Ho) as ((_ & Hl) & _).
    destruct (out_value o) as [|x [|y [|z [|]]]]; try done. cbn in *. lia.
Qed.

Lemma total_out_split (Q : OutputWitness → Prop) `{∀ o, Decision (Q o)} os :
  total_out (filter Q os) + total_out (filter (λ o, ¬ Q o) os) = total_out os.
Proof.
  induction os as [|o os IH]; [done|]. rewrite !filter_cons.
  assert (∀ l, total_out (o :: l) = limbs_value (out_value o) + total_out l) as Ec by done.
  destruct (decide (Q o)); [rewrite decide_False by tauto|rewrite decide_True by done]; rewrite !Ec; lia.
Qed.

End conservation.
