(* ===== verification/PcdAccept.v ===== *)
(** * The coin proof behind the receiver's driver (opencsv-pcd)

    Models [crates/opencsv-pcd/src/accept.rs]: the versioned proof envelope, the projection
    of a statement onto the driver's public input, and [CoinProofVerifier], the
    implementation of the proof seam of [Accept.v].  The postcard encodings are the class
    [ProofCodec].  Composed with the driver: what an accepted coin has behind it, and what
    it does not - the anchors of its ancestors. *)

From S2P Require Import Prelude Field Commitments Circuit Pcd PcdLedger Kernel Anchor Chain Accept.
#[local] Open Scope Z_scope.

Abbreviation pcd_proof := Pcd.proof.

(** ** The envelope *)
Definition OPENING_BYTES : nat := 104.
Definition PROOF_ENVELOPE_MAGIC : bytes := [x4f; x43; x53; x56; x50; x43; x44].
Definition COIN_VK_TAG : bytes := domain_bytes "opencsv-pcd-coin-v4-with-v3-fri94".

(** [ProofEnvelope] and [LegacyProofEnvelope]: the same fields. *)
Record ProofEnvelope := { env_mode : NodeMode; env_statement : NodeStatement; env_proof : bytes }.

Class ProofCodec (Stark : Type) := {
  stark_to_postcard : Stark → bytes;
  stark_from_postcard : bytes → option Stark;
  envelope_to_postcard : ProofEnvelope → bytes;
  envelope_from_postcard : bytes → option ProofEnvelope;
}.
(** Encoded values read back, and what is read back is typed. *)
Class ProofCodecLaws (Stark : Type) (C : ProofCodec Stark) : Prop := {
  stark_postcard : ∀ p, stark_from_postcard (stark_to_postcard p) = Some p;
  envelope_postcard : ∀ e, statement_typed (env_statement e) → envelope_from_postcard (envelope_to_postcard e) = Some e;
  envelope_typed : ∀ bs e, envelope_from_postcard bs = Some e → statement_typed (env_statement e);
}.

Section envelope.
Context {Stark : Type} `{ProofCodec Stark}.

(** [None] is the failed assertion. *)
Definition encode_coin_proof (p : CoinProof Stark) : option bytes :=
  if negb (bool_decide (version p = COIN_PROOF_VERSION)) then None else
  let inner := stark_to_postcard (pcd_proof p) in
  let payload := envelope_to_postcard {| env_mode := mode p; env_statement := statement p; env_proof := inner |} in
  Some (PROOF_ENVELOPE_MAGIC ++ bof (version p) :: payload).

Definition strip_prefix (prefix bs : bytes) : option bytes :=
  if bool_decide (take (length prefix) bs = prefix) then Some (drop (length prefix) bs) else None.

Definition decode_envelope (v : Z) (payload : bytes) : option (CoinProof Stark) :=
  envelope ← envelope_from_postcard payload;
  p ← stark_from_postcard (env_proof envelope);
  Some {| version := v; mode := env_mode envelope; statement := env_statement envelope; Pcd.proof := p |}.

Definition decode_coin_proof (bs : bytes) : option (CoinProof Stark) :=
  match strip_prefix PROOF_ENVELOPE_MAGIC bs with
  | Some [] => None
  | Some (v :: payload) => decode_envelope (bval v) payload
  | None => decode_envelope 1 bs
  end.
End envelope.

(** ** The public input *)
Definition parse_opening (o : bytes) : CoinOpening := {|
  asset_id := slice 0 32 o; value := le_val (slice 32 40 o); owner := slice 40 72 o; randomness := slice 72 104 o |}.

Definition parse_openings (x : bytes) : option (list CoinOpening) :=
  if bool_decide (length x < 96)%nat || negb (bool_decide ((length x - 96) mod OPENING_BYTES = 0)%nat) then None
  else Some (parse_opening <$> chunks OPENING_BYTES (drop 96 x)).

Section projection.
Context `{Poseidon}.

Definition outputs_match (st : NodeStatement) (openings : list CoinOpening) : bool :=
  bool_decide (length openings = NODE_OUTPUTS) &&
  forallb (λ '(o, c), bool_decide (asset_id o = st_asset_id st) && bool_decide (opening_commitment o = c))
    (zip openings [(st_output_commitments st).1; (st_output_commitments st).2]).

Definition binds_slot (ctx nf slot : bytes) : bool :=
  if bool_decide (nf = zero) then bool_decide (slot = zeros 24) else bool_decide (bound ctx nf = slot).

Definition statement_matches_public_input (m : NodeMode) (st : NodeStatement) (x : bytes) : bool :=
  match parse_openings x with
  | None => false
  | Some openings =>
    let ctx := slice 0 32 x in
    let anchor_bytes := slice 32 96 x in
    let '(nf1, nf2) := st_nullifiers st in
    match m, record_from_bytes anchor_bytes with
    | MintMode, Mint asset_id value mint_commit =>
      bool_decide (to_anchor (st_asset_id st) = asset_id) && bool_decide (st_value st = value) &&
      bool_decide (to_anchor (st_mint_commit st) = mint_commit) && bool_decide (st_nullifiers st = (zero, zero)) &&
      outputs_match st openings
    | RedeemMode, Redeem asset_id value payload =>
      bool_decide (to_anchor (st_asset_id st) = asset_id) && bool_decide (st_value st = value) &&
      bool_decide (st_mint_commit st = zero) && bool_decide (bound ctx nf1 = payload) && bool_decide (nf2 = zero) &&
      bool_decide (st_output_commitments st = (zero, zero)) && bool_decide (openings = [])
    | TransferMode, _ =>
      let slot0 := slice 0 24 anchor_bytes in
      let slot1 := slice 24 48 anchor_bytes in
      let distinct_nullifiers := bool_decide (nf1 = zero) || bool_decide (nf2 = zero) || bool_decide (nf1 ≠ nf2) in
      let direct := binds_slot ctx nf1 slot0 && binds_slot ctx nf2 slot1 in
      let compressed := bool_decide (slot1 = zeros 24) && bool_decide (bound ctx (nullifier_commit [nf1; nf2]) = slot0) in
      bool_decide (st_value st = 0) && bool_decide (st_mint_commit st = zero) && outputs_match st openings &&
      distinct_nullifiers && (direct || compressed)
    | _, _ => false
    end
  end.
End projection.

(** ** The verifier of the proof seam *)
Definition root_lineage_is_current (v : Z) : bool := bool_decide (v = COIN_PROOF_VERSION).

Definition CoinProofVerifier `{Poseidon} {Stark} `{StarkSystem Stark, ProofCodec Stark} : ProofVerifier :=
  λ vk public_input proof,
    if negb (bool_decide (vk = COIN_VK_TAG)) then false else
    match decode_coin_proof proof with
    | None => false
    | Some coin =>
      if negb (root_lineage_is_current (version coin)) then false
      else if negb (statement_matches_public_input (mode coin) (statement coin) public_input) then false
      else is_ok (verify_coin_proof (statement coin) coin)
    end.

(** ** Lemmas *)
Section roundtrips.
Context {Stark : Type} `{!ProofCodec Stark, !ProofCodecLaws Stark _}.

Lemma strip_magic_app p bs : strip_prefix p (p ++ bs) = Some bs.
Proof. unfold strip_prefix. by rewrite take_app_length, drop_app_length, bool_decide_eq_true_2. Qed.

Lemma envelope_reads_back (p : CoinProof Stark) : statement_typed (statement p) → version p = COIN_PROOF_VERSION →
  ∃ bs, encode_coin_proof p = Some bs ∧ decode_coin_proof bs = Some p.
Proof.
  intros Ht Hv. unfold encode_coin_proof. rewrite bool_decide_eq_true_2 by done. eexists. split; [reflexivity|].
  unfold decode_coin_proof. rewrite strip_magic_app. unfold decode_envelope. rewrite envelope_postcard by done.
  cbn [mbind option_bind env_proof]. rewrite stark_postcard. cbn [mbind option_bind env_mode env_statement].
  rewrite bval_bof, Hv. change (COIN_PROOF_VERSION mod 256) with COIN_PROOF_VERSION. rewrite <- Hv. by destruct p.
Qed.

(** A proof of the current lineage reads back from its envelope, whatever it proves; a proof of any other
    lineage is never encoded; and what is decoded from an envelope carries the version byte written into it. *)
Theorem proof_envelope_roundtrip (p : CoinProof Stark) : statement_typed (statement p) →
  (version p = COIN_PROOF_VERSION → ∃ bs, encode_coin_proof p = Some bs ∧ decode_coin_proof bs = Some p) ∧
  (version p ≠ COIN_PROOF_VERSION → encode_coin_proof p = None) ∧
  ∀ v payload q, decode_coin_proof (PROOF_ENVELOPE_MAGIC ++ v :: payload) = Some q → version q = bval v.
Proof.
  intros Ht. split_and!; [by apply envelope_reads_back| |].
  - intros Hv. unfold encode_coin_proof. by rewrite bool_decide_eq_false_2.
  - intros v payload q. unfold decode_coin_proof. rewrite strip_magic_app. unfold decode_envelope.
    intros (e & _ & E)%bind_Some. by apply bind_Some in E as (x & _ & [= <-]).
Qed.

(** What the verifier of the seam accepts from an encoder. *)
Lemma verifier_accepts `{!Poseidon, !StarkSystem Stark} (p : CoinProof Stark) x :
  statement_typed (statement p) → version p = COIN_PROOF_VERSION →
  statement_matches_public_input (mode p) (statement p) x = true → verify_coin_proof (statement p) p = Ok tt →
  CoinProofVerifier COIN_VK_TAG x (default [] (encode_coin_proof p)) = true.
Proof.
  intros Ht Hv Hm Hok. destruct (envelope_reads_back p Ht Hv) as (bs & -> & Ed). unfold CoinProofVerifier.
  rewrite bool_decide_eq_true_2 by done. change (default [] (Some bs)) with bs. cbn [negb]. rewrite Ed. unfold root_lineage_is_current.
  rewrite bool_decide_eq_true_2 by done. cbn [negb]. by rewrite Hm, Hok.
Qed.
End roundtrips.

Definition opening_wf (o : CoinOpening) : Prop :=
  length (asset_id o) = 32%nat ∧ is_u64 (value o) ∧ length (owner o) = 32%nat ∧ length (randomness o) = 32%nat.

Lemma length_public_opening o : opening_wf o → length (to_public_input_bytes o) = OPENING_BYTES.
Proof.
  intros (Ha & _ & Ho & Hr). unfold to_public_input_bytes. rewrite !length_app, length_le_bytes, Ha, Ho, Hr. done.
Qed.

Lemma parse_opening_to o : opening_wf o → parse_opening (to_public_input_bytes o) = o.
Proof.
  intros (Ha & Hv & Ho & Hr). unfold parse_opening.
  set (fields := [asset_id o; le_bytes 8 (value o); owner o; randomness o]).
  assert (to_public_input_bytes o = concat fields) as E by (unfold fields, to_public_input_bytes; cbn; by rewrite app_nil_r).
  rewrite (slice_field [] (asset_id o) [le_bytes 8 (value o); owner o; randomness o] _ 0 32 E) by (cbn; lia).
  rewrite (slice_field [asset_id o] (le_bytes 8 (value o)) [owner o; randomness o] _ 32 40 E)
    by (cbn -[le_bytes]; rewrite ?length_le_bytes; lia).
  rewrite (slice_field [asset_id o; le_bytes 8 (value o)] (owner o) [randomness o] _ 40 72 E)
    by (cbn -[le_bytes]; rewrite ?length_le_bytes; lia).
  rewrite (slice_field [asset_id o; le_bytes 8 (value o); owner o] (randomness o) [] _ 72 104 E)
    by (cbn -[le_bytes]; rewrite ?length_le_bytes; lia).
  rewrite le_val_le_bytes, Z.mod_small by (unfold is_u64, u64_max in Hv; cbn; lia). by destruct o.
Qed.

(** The verifier reads back the very openings the driver put into its public input. *)
Lemma parse_public_input pr ctx openings : record_wf pr → length ctx = 32%nat → Forall opening_wf openings →
  parse_openings (public_input pr ctx openings) = Some openings.
Proof.
  intros Hp Hc Ho. unfold parse_openings, public_input.
  assert (length (concat (to_public_input_bytes <$> openings)) = (OPENING_BYTES * length openings)%nat) as Hl.
  { induction Ho as [|o os Ho _ IH]; [done|]. rewrite fmap_cons. cbn [concat length]. rewrite length_app, IH, length_public_opening by done. lia. }
  rewrite !length_app, Hc, (length_record_to_bytes _ Hp), Hl. unfold ANCHOR_SIZE.
  rewrite bool_decide_eq_false_2 by lia. cbn [orb].
  rewrite bool_decide_eq_true_2.
  2:{ replace (32 + (64 + OPENING_BYTES * length openings) - 96)%nat with (length openings * OPENING_BYTES)%nat by lia. by apply Nat.mod_mul. }
  cbn [negb]. f_equal. rewrite app_assoc, drop_app_length' by (rewrite length_app, Hc, (length_record_to_bytes _ Hp); done).
  rewrite chunks_concat; [|unfold OPENING_BYTES; lia|].
  - rewrite <- list_fmap_compose. rewrite <- (list_fmap_id openings) at 2. apply list_fmap_ext. intros i o Eo. unfold compose.
    apply parse_opening_to. exact (Forall_lookup_1 _ _ _ _ Ho Eo).
  - apply Forall_fmap. eapply Forall_impl; [exact Ho|]. intros o. apply length_public_opening.
Qed.

(** ** What an accepted coin has behind it *)

(** The mode and the outputs a statement gives to its entry. *)
Lemma nth_entry_mode h e `{Permutation, !Poseidon, !PoseidonLaws _, !SpongeLaws _ _} : entry_ok h e →
  nth 1 (entry_elems e) 0 = match e with MintEntry _ _ _ _ _ _ _ => 1 | TransferEntry _ _ _ _ => 0 | RedeemEntry _ _ => 2 end.
Proof. intros _. by destruct e. Qed.

Lemma outputs_match_spec `{Poseidon} st openings : outputs_match st openings = true →
  ∃ o0 o1, openings = [o0; o1] ∧ asset_id o0 = st_asset_id st ∧ asset_id o1 = st_asset_id st ∧
    opening_commitment o0 = (st_output_commitments st).1 ∧ opening_commitment o1 = (st_output_commitments st).2.
Proof.
  unfold outputs_match. rewrite andb_true_iff, bool_decide_eq_true. intros [Hl Hf].
  destruct openings as [|o0 [|o1 [|]]]; try discriminate. cbn in Hf.
  rewrite !andb_true_iff, !bool_decide_eq_true in Hf. exists o0, o1. naive_solver.
Qed.

Lemma matches_outputs `{Poseidon} m st x openings : statement_matches_public_input m st x = true →
  parse_openings x = Some openings → openings ≠ [] → m ≠ RedeemMode ∧ outputs_match st openings = true.
Proof.
  unfold statement_matches_public_input. intros E Ep Hne. rewrite Ep in E. destruct (st_nullifiers st) as [n1 n2].
  destruct m; [|split; [done|]|].
  - split; [done|]. destruct (record_from_bytes _); try done. rewrite !andb_true_iff in E. tauto.
  - rewrite !andb_true_iff in E. tauto.
  - destruct (record_from_bytes _); try done. rewrite !andb_true_iff, !bool_decide_eq_true in E. tauto.
Qed.

Section accepted.
Context `{Permutation, !Poseidon, !PoseidonLaws _, !SpongeLaws _ _} {Stark : Type} `{!StarkSystem Stark, !StarkLaws Stark _,
  !ProofCodec Stark, !ProofCodecLaws Stark _}.

Lemma coin_verifier_true vk x bs : CoinProofVerifier vk x bs = true → ∃ coin : CoinProof Stark,
  vk = COIN_VK_TAG ∧ decode_coin_proof bs = Some coin ∧ version coin = COIN_PROOF_VERSION ∧
  statement_matches_public_input (mode coin) (statement coin) x = true ∧
  verify_coin_proof (statement coin) coin = Ok tt ∧ statement_typed (statement coin).
Proof.
  unfold CoinProofVerifier. case_bool_decide as Hvk; [|done]. cbn [negb]. destruct (decode_coin_proof bs) as [coin|] eqn:Ed; [|done].
  unfold root_lineage_is_current. case_bool_decide; [|done]. cbn [negb].
  destruct (statement_matches_public_input _ _ _) eqn:Em; [|done]. intros [[] Hok]%is_ok_Ok. exists coin. split_and!; try done.
  unfold decode_coin_proof, decode_envelope in Ed.
  destruct (strip_prefix _ _) as [[|b payload]|]; [done| |];
    apply bind_Some in Ed as (e & He%envelope_typed & Ed); by apply bind_Some in Ed as (p & _ & [= <-]).
Qed.

Definition outputs_at (k : Z) (st : NodeStatement) : bytes :=
  if bool_decide (k = 0) then (st_output_commitments st).1 else (st_output_commitments st).2.

Lemma commitment_elems c : to_elems (commitment c) = hash_iter (hash_call_input (HCoin c)).
Proof. unfold commitment, hash_felts. apply to_from_elems, hash_iter_canonical. Qed.

(** An opening that matches an output of the statement opens an output of the entry. *)
Lemma credited_output h e st v m o k : entry_ok h e → statement_typed st → statement_elems v m st = entry_elems e →
  m ≠ RedeemMode → k = 0 ∨ k = 1 → opening_wf o → asset_id o = st_asset_id st → opening_commitment o = outputs_at k st →
  to_elems (asset_id o) = entry_asset e ∧
  ∃ w, w ∈ entry_outputs e ∧ to_elems (opening_commitment o) = output_commitment (entry_asset e) w ∧
    (limbs_value (out_value w) = value o ∨
     collides (hash_call_input (HCoin (to_coin o))) (hash_input "coin" [entry_asset e; out_value w; out_owner w; out_randomness w])).
Proof.
  intros He Ht Es Hm Hk (La & Hv & Lo & Lr) Ea Ec. destruct (statement_elems_facts v m st Ht) as (Fa & Fm & F0 & F1).
  destruct (entry_elems_facts _ _ He) as (_ & _ & Ga & Go). rewrite Es in *.
  assert (to_elems (asset_id o) = entry_asset e) as Hasset by (rewrite Ea, <- Fa; done). split; [done|].
  assert (to_elems (opening_commitment o) = slot (Z.to_nat k) (entry_commitments e)) as Hslot.
  { rewrite <- (Go k Hk), Ec. unfold outputs_at. destruct Hk as [->| ->].
    - by rewrite bool_decide_eq_true_2, F0. - by rewrite bool_decide_eq_false_2, F1. }
  assert (∃ w, w ∈ entry_outputs e ∧ slot (Z.to_nat k) (entry_commitments e) = output_commitment (entry_asset e) w) as (w & Hw & Ew).
  { destruct e as [v' a t n i w0 w1|a ins w0 w1|a i]; cbn in Fm; [| |by destruct m].
    all: destruct Hk as [->| ->]; [exists w0|exists w1]; (split; [set_solver|done]). }
  exists w. split_and!; [done|congruence|].
  pose proof (ok_outputs _ _ He) as Hout. rewrite Forall_forall in Hout. destruct (Hout w Hw) as [[[Lw _] Low _] _].
  assert (hash_iter (hash_call_input (HCoin (to_coin o))) =
    hash_iter (hash_input "coin" [entry_asset e; out_value w; out_owner w; out_randomness w])) as Eh.
  { rewrite <- commitment_elems. change (commitment (to_coin o)) with (opening_commitment o). by rewrite Hslot, Ew. }
  destruct (decide (hash_call_input (HCoin (to_coin o)) = hash_input "coin" [entry_asset e; out_value w; out_owner w; out_randomness w]))
    as [Ei|Hn]; [left|by right].
  cbn [hash_call_input to_coin coin_asset_id coin_value coin_owner coin_randomness] in Ei. rewrite Hasset in Ei.
  destruct (limbs_value_felts _ Hv) as [Ev Lv]. apply coin_parts_inj in Ei as (<- & _); [done|congruence|].
  by rewrite Low, (length_to_elems _ 8).
Qed.

End accepted.
