(* ===== verification/PcdProve.v ===== *)
(** * The provers prove what an honest owner asks for (opencsv-pcd)

    The completeness of the transfer prover of [Pcd.v]: for typed coins that balance, owned
    by their secrets and created by verifying predecessors, the host checks pass, the
    private inputs the prover lays out satisfy the circuit, the statement the circuit
    computes is the one the host puts into the proof, and the proof verifies. *)

From S2P Require Import Prelude Field Commitments Circuit Pcd.
#[local] Open Scope Z_scope.

(** A field of a list of known widths. *)
Lemma slice_at {A} (fs : list (list A)) ws k b i j : length <$> fs = ws → fs !! k = Some b →
  i = sum_list (take k ws) → j = sum_list (take (S k) ws) → slice i j (concat fs) = b.
Proof.
  intros <- Hk -> ->. rewrite <- (take_drop_middle fs k b Hk) at 3.
  rewrite <- !fmap_take. eapply slice_field; [reflexivity|done|].
  rewrite (take_S_r fs k b Hk), fmap_app, sum_list_with_app. cbn. lia.
Qed.

Section honest.
Context `{Permutation, !Poseidon, !PoseidonLaws _, !SpongeLaws _ _}.

Definition coin_wf (c : Coin) : Prop := hash_call_wf (HCoin c) = true.

Definition coin_input (i : Coin * bytes) : InputWitness := {|
  in_value := u64_to_felts (coin_value i.1); in_owner := to_elems (coin_owner i.1);
  in_randomness := to_elems (coin_randomness i.1); in_osk := osk_felts i.2 |}.
Definition coin_output (c : Coin) : OutputWitness := {|
  out_value := u64_to_felts (coin_value c); out_owner := to_elems (coin_owner c);
  out_randomness := to_elems (coin_randomness c) |}.

(** An input as its owner holds it. *)
Definition owned (i : Coin * bytes) : Prop :=
  coin_wf i.1 ∧ length i.2 = 32%nat ∧ coin_owner i.1 = secret_owner i.2.

Lemma coin_wf_lengths c : coin_wf c → length (to_elems (coin_asset_id c)) = DIGEST_ELEMS ∧
  length (u64_to_felts (coin_value c)) = VALUE_LIMBS ∧ length (to_elems (coin_owner c)) = DIGEST_ELEMS ∧
  length (to_elems (coin_randomness c)) = DIGEST_ELEMS ∧ is_u64 (coin_value c).
Proof.
  unfold coin_wf. cbn [hash_call_wf]. rewrite !andb_true_iff, u64b_spec. intros (((Ha & Hv) & Ho) & Hr).
  rewrite !digest_elems_length by done. by split_and!; try apply limbs_value_felts.
Qed.

Lemma elems_felts d : Forall is_felt (to_elems d).
Proof. apply Forall_fmap, Forall_forall. intros c _. apply felt_range. Qed.
Lemma value_felts v : Forall is_felt (u64_to_felts v).
Proof. unfold u64_to_felts. repeat (apply Forall_cons_2; [apply felt_range|]). constructor. Qed.
Lemma osk_felts_felts osk : Forall is_felt (osk_felts osk).
Proof. apply Forall_fmap, Forall_forall. intros c _. apply felt_range. Qed.

Lemma value_limbs_ok v : is_u64 v → limbs_ok (u64_to_felts v).
Proof.
  intros Hv. rewrite u64_to_felts_val by done. cbn. unfold is_u64, u64_max in Hv.
  pose proof (Z.mod_pos_bound v (2 ^ 24)). pose proof (Z.mod_pos_bound (v / 2 ^ 24) (2 ^ 24)).
  pose proof (Z.div_pos v (2 ^ 48)). assert (v / 2 ^ 48 < 2 ^ 16) by (apply Z.div_lt_upper_bound; lia). lia.
Qed.

Lemma hash_felts_elems d parts : to_elems (hash_felts d parts) = sponge_digest d parts.
Proof. apply to_from_elems, hash_iter_canonical. Qed.

Lemma coin_input_shape i : owned i → input_shape (coin_input i).
Proof.
  intros (Hc & Hk & _). destruct (coin_wf_lengths _ Hc) as (_ & Lv & Lo & Lr & _).
  split; cbn; [split; [done|apply value_felts]|done|done|]. apply felts32_length. by apply is_bytes_length.
Qed.

Lemma coin_output_shape c : coin_wf c → output_shape (coin_output c).
Proof.
  intros Hc. destruct (coin_wf_lengths _ Hc) as (_ & Lv & Lo & Lr & _). split; cbn; [split; [done|apply value_felts]|done|done].
Qed.

(** The circuit's predicate on an owned coin computes the digests the host computes. *)
Lemma owned_predicate i asset : owned i → coin_asset_id i.1 = asset →
  input_predicate (to_elems asset) (coin_input i) =
  Some (to_elems (commitment i.1), to_elems (nullifier i.2 (commitment i.1))).
Proof.
  intros Hi <-. apply input_predicate_iff; [by apply coin_input_shape|]. destruct Hi as (Hc & Hk & Ho). split_and!.
  - apply value_limbs_ok. by apply (coin_wf_lengths _ Hc).
  - cbn. rewrite Ho. apply hash_felts_elems.
  - apply hash_felts_elems.
  - unfold nullifier. rewrite hash_felts_elems. unfold input_nullifier. cbn. f_equal. unfold commitment at 1. by rewrite hash_felts_elems.
Qed.

Lemma output_computed c asset : coin_wf c → coin_asset_id c = asset →
  output_predicate (to_elems asset) (coin_output c) = Some (to_elems (commitment c)).
Proof.
  intros Hc <-. apply output_predicate_iff; [by apply coin_output_shape|]. split.
  - apply value_limbs_ok. by apply (coin_wf_lengths _ Hc).
  - apply hash_felts_elems.
Qed.

(** The private inputs the transfer prover lays out, field by field. *)
Definition transfer_fields (asset : bytes) (i0 i1 : Coin * bytes) (o0 o1 : Coin) (k0 k1 : nat) (limb : nat) : list (list Z) :=
  [to_elems asset;
   u64_to_felts (coin_value i0.1); to_elems (coin_owner i0.1); to_elems (coin_randomness i0.1); osk_felts i0.2;
   u64_to_felts (coin_value i1.1); to_elems (coin_owner i1.1); to_elems (coin_randomness i1.1); osk_felts i1.2;
   u64_to_felts (coin_value o0); to_elems (coin_owner o0); to_elems (coin_randomness o0);
   u64_to_felts (coin_value o1); to_elems (coin_owner o1); to_elems (coin_randomness o1);
   [Z.of_nat k0; Z.of_nat k1]; limb_bits limb].

Lemma transfer_widths asset i0 i1 o0 o1 k0 k1 limb : owned i0 → owned i1 → coin_wf o0 → coin_wf o1 → coin_asset_id i0.1 = asset →
  length <$> transfer_fields asset i0 i1 o0 o1 k0 k1 limb = [8; 3; 8; 8; 11; 3; 8; 8; 11; 3; 8; 8; 3; 8; 8; 2; 3]%nat.
Proof.
  intros (C0 & K0 & _) (C1 & K1 & _) D0 D1 <-.
  destruct (coin_wf_lengths _ C0) as (La & L1 & L2 & L3 & _), (coin_wf_lengths _ C1) as (_ & M1 & M2 & M3 & _),
    (coin_wf_lengths _ D0) as (_ & N1 & N2 & N3 & _), (coin_wf_lengths _ D1) as (_ & O1 & O2 & O3 & _).
  assert (∀ osk, length osk = 32%nat → length (osk_felts osk) = 11%nat) as Hk by (intros; by apply felts32_length, is_bytes_length).
  unfold transfer_fields. cbn [fmap list_fmap]. rewrite La, L1, L2, L3, M1, M2, M3, N1, N2, N3, O1, O2, O3, !Hk by done. done.
Qed.

Lemma transfer_layout asset i0 i1 o0 o1 k0 k1 limb : owned i0 → owned i1 → coin_wf o0 → coin_wf o1 → coin_asset_id i0.1 = asset →
  node_witness_layout (concat (transfer_fields asset i0 i1 o0 o1 k0 k1 limb)) = {|
    nw_asset_id := to_elems asset; nw_inputs := (coin_input i0, coin_input i1); nw_outputs := (coin_output o0, coin_output o1);
    nw_selectors := (Z.of_nat k0, Z.of_nat k1); nw_distinct_limb_bits := limb_bits limb |}.
Proof.
  intros I0 I1 O0 O1 Ha. pose proof (transfer_widths asset i0 i1 o0 o1 k0 k1 limb I0 I1 O0 O1 Ha) as W.
  set (fs := transfer_fields asset i0 i1 o0 o1 k0 k1 limb) in *.
  assert (∀ k b i j, fs !! k = Some b → i = sum_list (take k (length <$> fs)) → j = sum_list (take (S k) (length <$> fs)) →
    slice i j (concat fs) = b) as Hs by (intros k b i j ???; eapply (slice_at fs _ k); [reflexivity|eassumption..]).
  rewrite W in Hs. unfold node_witness_layout, input_witness, output_witness, coin_input, coin_output.
  assert (length (concat fs) = 111%nat) as Hl.
  { rewrite length_concat. change (map length fs) with (length <$> fs). by rewrite W. }
  assert (drop 108 (concat fs) = slice 108 111 (concat fs)) as ->.
  { unfold slice. rewrite take_ge; [done|]. rewrite length_drop, Hl. done. }
  assert (slice 106 108 (concat fs) = [Z.of_nat k0; Z.of_nat k1]) as Hk by (apply (Hs 15%nat); reflexivity).
  assert (nth 106 (concat fs) 0 = Z.of_nat k0) as ->.
  { change 106%nat with (106 + 0)%nat. rewrite <- (nth_slice_from 106 108 0) by lia. by rewrite Hk. }
  assert (nth 107 (concat fs) 0 = Z.of_nat k1) as ->.
  { change 107%nat with (106 + 1)%nat. rewrite <- (nth_slice_from 106 108 1) by lia. by rewrite Hk. }
  repeat f_equal; [apply (Hs 0%nat)|apply (Hs 1%nat)|apply (Hs 2%nat)|apply (Hs 3%nat)|apply (Hs 4%nat)|apply (Hs 5%nat)
    |apply (Hs 6%nat)|apply (Hs 7%nat)|apply (Hs 8%nat)|apply (Hs 9%nat)|apply (Hs 10%nat)|apply (Hs 11%nat)|apply (Hs 12%nat)
    |apply (Hs 13%nat)|apply (Hs 14%nat)|apply (Hs 16%nat)]; reflexivity.
Qed.

Lemma transfer_felts asset i0 i1 o0 o1 k0 k1 limb : (k0 < 2)%nat → (k1 < 2)%nat →
  Forall is_felt (concat (transfer_fields asset i0 i1 o0 o1 k0 k1 limb)).
Proof.
  intros Q0 Q1. apply Forall_concat. assert (∀ k, (k < 2)%nat → is_felt (Z.of_nat k)) as Hk by (unfold is_felt, BABY_BEAR_P; lia).
  assert (Forall is_felt (limb_bits limb)) as Hb.
  { unfold limb_bits. apply Forall_fmap, Forall_forall. intros b _. unfold compose. change 1 with (Z.ones 1).
    rewrite Z.land_ones by lia. pose proof (Z.mod_pos_bound (Z.shiftr (Z.of_nat limb) (Z.of_nat b)) (2 ^ 1) ltac:(lia)).
    unfold is_felt, BABY_BEAR_P. lia. }
  assert (Forall is_felt [Z.of_nat k0; Z.of_nat k1]) as Hs by (repeat (apply Forall_cons_2; [by apply Hk|]); constructor).
  unfold transfer_fields.
  repeat (apply Forall_cons_2; [solve [apply elems_felts|apply value_felts|apply osk_felts_felts|exact Hb|exact Hs]|]). constructor.
Qed.

Context {Stark : Type} `{!StarkSystem Stark, !StarkLaws Stark _}.

(** A predecessor a wallet may spend: its proof verifies, natively and in a circuit, and is of a safe lineage. *)
Record good_predecessor (key : Shape) (pred : CoinProof Stark) : Prop := {
  gp_typed : statement_typed (statement pred);
  gp_verified : verify_coin_proof (statement pred) pred = Ok tt;
  gp_recursive : verify_p3_batch_proof (proof pred) = true;
  gp_safe : predecessor_lineage_is_safe (version pred) (mode pred) = true;
  gp_key : preprocessed (proof pred) = Some key }.

Lemma good_chain key pred : good_predecessor key pred → chain_predecessor pred = Ok key ∧
  proof_version_is_supported (version pred) = true ∧
  statement_table (proof pred) = Some (embed (statement_elems (version pred) (mode pred) (statement pred))).
Proof.
  intros [Ht Hv _ Hs Hk]. apply verify_coin_proof_Ok in Hv as (Hsup & _ & Et & _). split_and!; [|done|exact Et].
  unfold chain_predecessor. rewrite Hsup, Hs, Et, Hk. cbn [ensure ok_or mbind result_bind].
  rewrite (bool_decide_eq_true_2 (_ = to_public_values_for_version _ _ _)) by reflexivity. cbn [ensure mbind result_bind].
  destruct (statement_elems_shape (version pred) (mode pred) (statement pred) Ht Hsup) as [Hl _].
  rewrite bool_decide_eq_true_2; [done|]. unfold to_public_values_for_version. by rewrite length_embed, Hl.
Qed.

(** The chaining constraints of a predecessor whose output the host checked. *)
Lemma good_constraints key pred asset k c : good_predecessor key pred → check_spent asset pred k c = Ok tt →
  coin_wf c → coin_asset_id c = asset → (k < 2)%nat ∧
  chain_constraints key (predecessor_view (proof pred)) (to_elems asset) (Z.of_nat k) (to_elems (commitment c)) = Some tt.
Proof.
  intros Hg Hs Hc Ha. destruct (good_chain _ _ Hg) as (_ & Hsup & Et). destruct Hg as [Ht _ Hr _ Hk].
  unfold check_spent in Hs. apply bind_Ok in Hs as ([] & E1%ensure_Ok%bool_decide_eq_true & E2%ensure_Ok%bool_decide_eq_true).
  destruct (coin_wf_lengths _ Hc) as (La & _). rewrite Ha in La.
  destruct (statement_elems_facts (version pred) (mode pred) (statement pred) Ht) as (Fa & _ & F0 & F1).
  assert ((k < 2)%nat ∧ output_of (Z.of_nat k) (statement_elems (version pred) (mode pred) (statement pred)) = to_elems (commitment c)) as [Hk2 Ho].
  { destruct k as [|[|k]]; [| |done]; cbn [select_output] in E2; injection E2 as E2; (split; [lia|]).
    - change (Z.of_nat 0) with 0. by rewrite F0, E2.
    - change (Z.of_nat 1) with 1. by rewrite F1, E2. }
  split; [done|].
  destruct (statement_elems_shape (version pred) (mode pred) (statement pred) Ht Hsup) as [Hl Hf].
  apply (chain_constraints_iff (statement_elems (version pred) (mode pred) (statement pred)));
    [done|done|done|apply elems_felts|unfold commitment; rewrite hash_felts_elems; apply length_sponge_digest|apply elems_felts|exact Et|].
  split_and!; [exact Hr|exact Hk|by rewrite Fa, E1|lia|exact Ho].
Qed.

Definition transfer_statement (asset : bytes) (i0 i1 : Coin * bytes) (o0 o1 : Coin) : NodeStatement := {|
  st_asset_id := asset; st_value := 0; st_mint_commit := zero;
  st_nullifiers := (nullifier i0.2 (commitment i0.1), nullifier i1.2 (commitment i1.1));
  st_output_commitments := (commitment o0, commitment o1) |}.

Lemma coin_values c : coin_wf c → limbs_value (u64_to_felts (coin_value c)) = coin_value c ∧ limbs_ok (u64_to_felts (coin_value c)).
Proof.
  intros Hc. destruct (coin_wf_lengths _ Hc) as (_ & _ & _ & _ & Hu). split; [by apply limbs_value_felts|by apply value_limbs_ok].
Qed.

Lemma run_transfer asset i0 i1 o0 o1 p0 p1 k0 k1 key0 key1 limb :
  owned i0 → owned i1 → coin_wf o0 → coin_wf o1 →
  Forall (λ c, coin_asset_id c = asset) [i0.1; i1.1; o0; o1] →
  coin_value i0.1 + coin_value i1.1 = coin_value o0 + coin_value o1 →
  good_predecessor key0 p0 → good_predecessor key1 p1 →
  check_spent asset p0 k0 i0.1 = Ok tt → check_spent asset p1 k1 i1.1 = Ok tt →
  enforce_distinct_digest (to_elems (commitment i0.1)) (to_elems (commitment i1.1)) (limb_bits limb) = Some tt →
  run (NodeShape key0 key1) (concat (transfer_fields asset i0 i1 o0 o1 k0 k1 limb))
    (predecessor_view <$> [proof p0; proof p1])
  = Some (statement_elems COIN_PROOF_VERSION TransferMode (transfer_statement asset i0 i1 o0 o1)).
Proof.
  intros I0 I1 O0 O1 Has Hsum G0 G1 S0 S1 Hd. rewrite !Forall_cons in Has. destruct Has as (A0 & A1 & B0 & B1 & _).
  destruct (good_constraints _ _ _ _ _ G0 S0 (proj1 I0) A0) as [K0 X0].
  destruct (good_constraints _ _ _ _ _ G1 S1 (proj1 I1) A1) as [K1 X1].
  assert (length (concat (transfer_fields asset i0 i1 o0 o1 k0 k1 limb)) = private_elems (NodeShape key0 key1)) as Hl.
  { rewrite length_concat. change (map length ?l) with (length <$> l). by rewrite (transfer_widths asset i0 i1 o0 o1 k0 k1 limb). }
  unfold run. rewrite (require_true _ Hl), (require_true _ (transfer_felts asset i0 i1 o0 o1 k0 k1 limb K0 K1)).
  cbn [mbind option_bind fmap list_fmap].
  unfold build_node_circuit. rewrite transfer_layout by done. cbn [nw_asset_id nw_inputs nw_outputs nw_selectors nw_distinct_limb_bits fst snd].
  rewrite (owned_predicate i0 asset), (owned_predicate i1 asset) by done. cbn [mbind option_bind]. rewrite Hd. cbn [mbind option_bind].
  rewrite (output_computed o0 asset), (output_computed o1 asset) by done. cbn [mbind option_bind].
  assert (enforce_sum_eq (in_value (coin_input i0)) (in_value (coin_input i1)) (out_value (coin_output o0)) (out_value (coin_output o1)) = Some tt) as ->.
  { destruct I0 as (C0 & _), I1 as (C1 & _). apply sum_eq_iff; cbn [in_value out_value coin_input coin_output]; try by apply coin_values.
    rewrite (proj1 (coin_values _ C0)), (proj1 (coin_values _ C1)), (proj1 (coin_values _ O0)), (proj1 (coin_values _ O1)). done. }
  cbn [mbind option_bind]. rewrite X0. cbn [mbind option_bind]. rewrite X1. reflexivity.
Qed.

Lemma owned_input i : owned i →
  input_shape (coin_input i) ∧ limbs_ok (in_value (coin_input i)) ∧ in_owner (coin_input i) = sponge_digest "" [in_osk (coin_input i)].
Proof.
  intros Hi. split; [by apply coin_input_shape|]. destruct Hi as (Hc & _ & Ho). split; [by apply coin_values|].
  cbn. rewrite Ho. apply hash_felts_elems.
Qed.

Lemma typed_output c : coin_wf c → output_shape (coin_output c) ∧ limbs_ok (out_value (coin_output c)).
Proof. intros Hc. split; [by apply coin_output_shape|by apply coin_values]. Qed.

(** The statement of a payment of one coin; a prover that succeeded made it. *)
Definition one_input_statement (asset nf : bytes) (o0 o1 : Coin) : NodeStatement := {|
  st_asset_id := asset; st_value := 0; st_mint_commit := zero; st_nullifiers := (nf, zero);
  st_output_commitments := (commitment o0, commitment o1) |}.

Lemma one_input_proved asset c osk o0 o1 pred k p : prove_one_input_transfer asset (c, osk) (o0, o1) pred k = Ok p →
  version p = COIN_PROOF_VERSION ∧ mode p = TransferMode ∧ statement p = one_input_statement asset (coin_nullifier c osk) o0 o1.
Proof.
  intros E. unfold prove_one_input_transfer in E.
  apply bind_Ok in E as (? & _ & E). apply bind_Ok in E as (? & _ & E). apply bind_Ok in E as (? & _ & E).
  unfold prove_circuit in E. apply bind_Ok in E as (? & _ & E). apply bind_Ok in E as (? & _ & E).
  by apply bind_Ok in E as (? & _ & [= <-]).
Qed.

(** What the prover lays out is those fields. *)
Lemma transfer_private asset i0 i1 o0 o1 k0 k1 limb :
  to_elems asset ++ input_values i0 ++ input_values i1 ++ output_values o0 ++ output_values o1
    ++ [Z.of_nat k0; Z.of_nat k1] ++ limb_bits limb = concat (transfer_fields asset i0 i1 o0 o1 k0 k1 limb).
Proof.
  unfold transfer_fields, input_values, output_values. cbn [concat]. rewrite <- !app_assoc, app_nil_r. reflexivity.
Qed.

(** C5: Liveness of the transfer prover: an owner of two different coins, created by verifying predecessors of a safe
    lineage, who sends their whole value to two typed outputs of the same asset gets a proof - within the
    circuit budget and security floor of the proof system - whose statement names exactly the two nullifiers and
    the two output commitments, and that proof verifies and can itself be spent. *)
Theorem honest_transfer_proves asset i0 i1 o0 o1 p0 p1 k0 k1 key0 key1 :
  owned i0 → owned i1 → coin_wf o0 → coin_wf o1 →
  Forall (λ c, coin_asset_id c = asset) [i0.1; i1.1; o0; o1] →
  coin_value i0.1 + coin_value i1.1 = coin_value o0 + coin_value o1 →
  commitment i0.1 ≠ commitment i1.1 →
  nullifier i0.2 (commitment i0.1) ≠ nullifier i1.2 (commitment i1.1) →
  good_predecessor key0 p0 → good_predecessor key1 p1 →
  check_spent asset p0 k0 i0.1 = Ok tt → check_spent asset p1 k1 i1.1 = Ok tt →
  setup_circuit (NodeShape key0 key1) = Ok tt →
  (∀ private preds v m st, validate_proof_security
     {| version := v; mode := m; statement := st; proof := prove_all_tables (NodeShape key0 key1) private preds |} = Ok tt) →
  ∃ coin, prove_transfer asset (i0, i1) (o0, o1) (p0, p1) (k0, k1) = Ok coin ∧
    statement coin = transfer_statement asset i0 i1 o0 o1 ∧ good_predecessor (NodeShape key0 key1) coin.
Proof.
  intros I0 I1 O0 O1 Has Hsum Hc Hn G0 G1 S0 S1 Hset Hsec.
  assert (∀ c, is_digest (commitment c) = true) as Hdig.
  { intros c. apply is_digest_spec. unfold commitment. apply hash_felts_digest. }
  destruct (first_difference (to_elems (commitment i0.1)) (to_elems (commitment i1.1))) as (limb & x & y & Ex & Ey & Hxy & Ef).
  { by rewrite !digest_elems_length. }
  { intros E. by apply Hc, digest_elems_inj. }
  assert (enforce_distinct_digest (to_elems (commitment i0.1)) (to_elems (commitment i1.1)) (limb_bits limb) = Some tt) as Hd.
  { apply (distinct_selects _ _ limb x y); try done; try by apply digest_elems_length.
    - exact (Forall_lookup_1 _ _ _ _ (elems_felts _) Ex).
    - exact (Forall_lookup_1 _ _ _ _ (elems_felts _) Ey). }
  pose proof (run_transfer asset i0 i1 o0 o1 p0 p1 k0 k1 key0 key1 limb I0 I1 O0 O1 Has Hsum G0 G1 S0 S1 Hd) as Hrun.
  unfold prove_transfer. cbn [fst snd].
  rewrite (proj2 (forallb_forall _ _)).
  2:{ intros c Hin. apply bool_decide_eq_true. rewrite Forall_forall in Has. apply Has. by apply list_elem_of_In. }
  cbn [ensure mbind result_bind]. rewrite bool_decide_eq_true_2 by done. cbn [ensure mbind result_bind].
  unfold first_differing_digest_limb. rewrite Ef. cbn [ok_or mbind result_bind]. rewrite S0, S1. cbn [mbind result_bind].
  rewrite bool_decide_eq_true_2 by done. cbn [ensure mbind result_bind].
  destruct (good_chain _ _ G0) as (-> & _ & _), (good_chain _ _ G1) as (-> & _ & _). cbn [mbind result_bind].
  rewrite (transfer_private asset i0 i1 o0 o1 k0 k1 limb). unfold prove_circuit. rewrite Hset. cbn [mbind result_bind].
  rewrite Hrun. cbn [ok_or mbind result_bind]. rewrite Hsec. cbn [mbind result_bind]. eexists. split; [reflexivity|].
  split; [reflexivity|]. destruct (stark_complete _ _ _ _ Hrun) as (Hv & Hr & Hk & Ht).
  split; cbn [statement version mode proof]; [|apply verify_coin_proof_Ok; by split_and!|done|done|done].
  split; [done|]. unfold transfer_statement. cbn [st_asset_id st_mint_commit st_nullifiers st_output_commitments fst snd].
  rewrite Forall_cons in Has. destruct Has as [<- _]. destruct I0 as (C0 & _).
  assert (∀ d p, length (hash_felts d p) = 32%nat) as Hl by (intros d p; by destruct (hash_felts_digest d p)).
  assert (length (coin_asset_id i0.1) = 32%nat) as La.
  { unfold coin_wf in C0. cbn [hash_call_wf] in C0. rewrite !andb_true_iff in C0. destruct C0 as (((Ha & _) & _) & _).
    by apply is_digest_spec in Ha as [? _]. }
  repeat (apply Forall_cons_2; [solve [exact La|apply Hl|reflexivity]|]). constructor.
Qed.
End honest.
