(* ===== verification/PcdDemo.v ===== *)
(** * A transparent proof system and a double spend (opencsv-pcd)

    A proof system that satisfies the laws of [Pcd.v]: a proof is its circuit, its private
    inputs and its predecessors.  With it the provers of [Pcd.v] run: the witnesses of the
    theorems, and two coins accepted for one minted amount because the transfers that
    split it were never anchored. *)

From S2P Require Import Prelude Field Commitments Circuit Pcd PcdLedger Kernel Anchor Chain Accept PcdAccept PcdProve.
#[local] Open Scope Z_scope.
#[local] Existing Instances demo_permutation permutation_sponge permutation_sponge_laws demo_sponge_of.

(** ** Transparent proofs *)
Inductive Transparent :=
  | TProof (shape : Shape) (private : list Z) (preds : list Transparent)
  | TForeign (id : Z) (elems : list Z).

Definition transparent_key (p : Transparent) : Shape :=
  match p with TProof shape _ _ => shape | TForeign id _ => Foreign id end.

(** The statement of a proof that verifies. *)
Fixpoint transparent_check (p : Transparent) : option (list Z) :=
  match p with
  | TProof shape private preds =>
    run shape private ((λ q, let c := transparent_check q in
      {| pv_verified := bool_decide (is_Some c); pv_key := Some (transparent_key q); pv_statement := embed <$> c |}) <$> preds)
  | TForeign _ elems => Some elems
  end.

#[export] Instance transparent_system : StarkSystem Transparent := {|
  statement_table p := embed <$> transparent_check p;
  preprocessed p := Some (transparent_key p);
  degree_bits _ := [16%nat];
  compute_from_proof _ _ := 120;
  circuit_profile _ := (707, 3);
  verify_all_tables p := bool_decide (is_Some (transparent_check p));
  verify_p3_batch_proof p := bool_decide (is_Some (transparent_check p));
  prove_all_tables := TProof |}.

#[export] Instance transparent_laws : StarkLaws Transparent transparent_system.
Proof.
  split.
  - intros p shape Hv Hk Hs. destruct p as [shape' private preds|id elems].
    + cbn in Hk. injection Hk as ->.
      assert (is_Some (transparent_check (TProof shape private preds))) as [elems E].
      { by destruct Hv as [Hv|Hv]; apply bool_decide_eq_true in Hv. }
      exists private, preds, elems. split; [exact E|]. cbn [statement_table transparent_system]. by rewrite E.
    + cbn in Hk. injection Hk as <-. by destruct (Hs id).
  - intros shape private preds elems E p. change (transparent_check p = Some elems) in E.
    cbn [verify_all_tables verify_p3_batch_proof preprocessed statement_table transparent_system]. rewrite E.
    rewrite bool_decide_eq_true_2 by (by eexists). done.
Qed.

(** ** Its encoding *)
#[local] Instance shape_countable : Countable Shape.
Proof.
  refine (inj_countable'
    (fix enc s := match s with
      | MintShape v => GenLeaf (false, v) | NodeShape a b => GenNode 0 [enc a; enc b] | OneInputShape a => GenNode 1 [enc a]
      | RedeemShape a => GenNode 2 [enc a] | Foreign i => GenLeaf (true, i) end)
    (fix dec t := match t with
      | GenLeaf (false, v) => MintShape v | GenNode 0 [a; b] => NodeShape (dec a) (dec b) | GenNode 1 [a] => OneInputShape (dec a)
      | GenNode 2 [a] => RedeemShape (dec a) | GenLeaf (true, i) => Foreign i | _ => Foreign 0 end) _).
  intros s. induction s; cbn; congruence.
Defined.

Fixpoint transparent_tree (p : Transparent) : gen_tree (Shape * list Z + Z * list Z) :=
  match p with
  | TProof shape private preds => GenNode 0 (GenLeaf (inl (shape, private)) :: (transparent_tree <$> preds))
  | TForeign id elems => GenLeaf (inr (id, elems))
  end.
Fixpoint tree_transparent (t : gen_tree (Shape * list Z + Z * list Z)) : Transparent :=
  match t with
  | GenNode 0 (GenLeaf (inl (shape, private)) :: preds) => TProof shape private (tree_transparent <$> preds)
  | GenLeaf (inr (id, elems)) => TForeign id elems
  | _ => TForeign 0 []
  end.

Lemma tree_transparent_tree : ∀ p, tree_transparent (transparent_tree p) = p.
Proof.
  fix IH 1. intros [shape private preds|id elems]; [|done]. cbn. f_equal.
  induction preds as [|q preds IHp]; [done|]. cbn. f_equal; [apply IH|exact IHp].
Qed.

#[local] Instance transparent_dec : EqDecision Transparent.
Proof.
  intros p q. destruct (decide (transparent_tree p = transparent_tree q)) as [E|Hn]; [left|right; congruence].
  by rewrite <- (tree_transparent_tree p), E, tree_transparent_tree.
Defined.
#[local] Instance transparent_countable : Countable Transparent.
Proof. exact (inj_countable' _ _ tree_transparent_tree). Defined.

#[local] Instance mode_countable : Countable NodeMode.
Proof.
  refine (inj_countable' mode_elem (λ z, if z =? 1 then MintMode else if z =? 0 then TransferMode else RedeemMode) _). by intros [].
Defined.
#[local] Instance statement_countable : Countable NodeStatement.
Proof.
  refine (inj_countable' (λ st, (st_asset_id st, st_value st, st_mint_commit st, st_nullifiers st, st_output_commitments st))
    (λ '(a, v, m, n, o), {| st_asset_id := a; st_value := v; st_mint_commit := m; st_nullifiers := n; st_output_commitments := o |}) _).
  by intros [].
Defined.
#[local] Instance envelope_dec : EqDecision ProofEnvelope.
Proof. solve_decision. Defined.
#[local] Instance envelope_countable : Countable ProofEnvelope.
Proof.
  refine (inj_countable' (λ e, (env_mode e, env_statement e, env_proof e))
    (λ '(m, s, p), {| env_mode := m; env_statement := s; env_proof := p |}) _). by intros [].
Defined.

(** The code of a value as little-endian bytes. *)
Definition pack_bytes {A} `{Countable A} (x : A) : bytes := le_bytes (Pos.to_nat (Pos.size (encode x))) (Zpos (encode x)).
Definition unpack_bytes {A} `{Countable A} (bs : bytes) : option A := match le_val bs with Zpos p => decode p | _ => None end.

Lemma unpack_pack_bytes {A} `{Countable A} (x : A) : unpack_bytes (pack_bytes x) = Some x.
Proof.
  unfold unpack_bytes, pack_bytes. rewrite le_val_le_bytes, Z.mod_small; [apply decode_encode|].
  split; [lia|]. pose proof (Pos.size_gt (encode x)) as Hs. rewrite positive_nat_Z.
  apply (Z.lt_le_trans _ (2 ^ Z.pos (Pos.size (encode x)))); [|apply Z.pow_le_mono_l; lia].
  rewrite <- Pos2Z.inj_pow. lia.
Qed.

#[local] Instance statement_typed_dec st : Decision (statement_typed st).
Proof. unfold statement_typed, is_u64. apply _. Defined.

#[export] Instance transparent_codec : ProofCodec Transparent := {|
  stark_to_postcard := pack_bytes; stark_from_postcard := unpack_bytes;
  envelope_to_postcard := pack_bytes;
  envelope_from_postcard bs := e ← unpack_bytes bs; if decide (statement_typed (env_statement e)) then Some e else None |}.

#[export] Instance transparent_codec_laws : ProofCodecLaws Transparent transparent_codec.
Proof.
  split; cbn.
  - apply unpack_pack_bytes.
  - intros e He. rewrite unpack_pack_bytes. cbn. by rewrite decide_True.
  - intros bs e (x & _ & E)%bind_Some. case_decide; [|done]. by injection E as <-.
Qed.

(** ** Coins of one asset *)
Definition foreign_coin : CoinProof Transparent := {|
  version := COIN_PROOF_VERSION; mode := MintMode;
  statement := {| st_asset_id := zero; st_value := 0; st_mint_commit := zero; st_nullifiers := (zero, zero);
                  st_output_commitments := (zero, zero) |}; Pcd.proof := TForeign 0 [] |}.
Definition proved (r : result NodeError (CoinProof Transparent)) : CoinProof Transparent :=
  match r with Ok c => c | Err _ => foreign_coin end.

Definition seed : bytes := replicate 32 x21.
Definition usd : AssetGenesis := {|
  issuer_pk := issuer_public_key seed; currency_code := [x55; x53; x44]; terms_hash := demo_digest 5; nonce := 1 |}.
Definition usd_id : bytes := genesis_asset_id usd.
Definition secret (n : Z) : bytes := le_bytes 32 n.
Definition coin (v n r : Z) : Coin := {|
  coin_asset_id := usd_id; coin_value := v; coin_owner := secret_owner (secret n); coin_randomness := demo_digest r |}.

Definition minted0 : Coin := coin 60 1 1.
Definition minted1 : Coin := coin 40 1 2.
Definition usd_mint : CoinProof Transparent := proved (prove_genesis_mint usd seed (demo_digest 9) (minted0, minted1)).

Definition paid : Coin := coin 70 2 3.
Definition change : Coin := coin 30 1 4.
Definition usd_transfer : CoinProof Transparent :=
  proved (prove_transfer usd_id ((minted0, secret 1), (minted1, secret 1)) (paid, change) (usd_mint, usd_mint) (0, 1)%nat).
Definition usd_redeem : CoinProof Transparent := proved (prove_redeem usd_id (change, secret 1) usd_transfer 1).

(** ** One minted coin accepted twice *)

(** The coin of 60 moves twice inside the wallet, to itself, and each of the two coins it becomes is paid out. *)
Abbreviation hidden_result n r :=
  (prove_one_input_transfer usd_id (minted0, secret 1) (coin 60 n r, coin 0 n r) usd_mint 0).
Abbreviation payout_result n r m s :=
  (prove_one_input_transfer usd_id (coin 60 n r, secret n) (coin 60 m s, coin 0 m s) (proved (hidden_result n r)) 0).
Abbreviation hidden n r := (proved (hidden_result n r)).
Abbreviation to_bob := (proved (payout_result 11 21 2 31)).
Abbreviation to_carol := (proved (payout_result 12 22 3 32)).

(** Only the mint and the two payments are anchored. *)
Definition ctx_of (n : Z) : bytes := le_bytes 32 n.
Abbreviation coin_spent n r := (coin_nullifier (coin 60 n r) (secret n)).
Definition payment_record (nf ctx : bytes) : AnchorRecord := Xfer (bound ctx nf) (zeros 24).
Definition with_mint : MockAnchorChain :=
  (append_with_ctx (advance_blocks mock_new 100)
    (Mint (to_anchor usd_id) 100 (to_anchor (mint_commit usd_id 100 (demo_digest 9)))) (ctx_of 1)).1.
Definition with_bob : MockAnchorChain * AnchorRef :=
  append_with_ctx with_mint (payment_record (coin_spent 11 21) (ctx_of 2)) (ctx_of 2).
Definition with_carol : MockAnchorChain * AnchorRef :=
  append_with_ctx with_bob.1 (payment_record (coin_spent 12 22) (ctx_of 3)) (ctx_of 3).
Definition final_chain : AnchorChain := mock_chain (advance_blocks with_carol.1 5).

Definition open_coin (c : Coin) : CoinOpening :=
  {| asset_id := coin_asset_id c; value := coin_value c; owner := coin_owner c; randomness := coin_randomness c |}.
Definition openings_to (m s : Z) : list CoinOpening := [open_coin (coin 60 m s); open_coin (coin 0 m s)].
Definition payment (p : CoinProof Transparent) (nf : bytes) (m s : Z) (r : AnchorRef) : Consignment := {|
  coin_openings := openings_to m s;
  nullifiers := [nf];
  Accept.proof := default [] (encode_coin_proof p);
  anchor_ref := r;
  aux := Some usd |}.
Definition receiver (m : Z) : PublicOwnerAcceptParams := {|
  vk := COIN_VK_TAG; required_depth := 6; recipient_owners := [secret_owner (secret m)]; known_assets := [] |}.
Definition bob_payment : Consignment := payment to_bob (coin_spent 11 21) 2 31 with_bob.2.
Definition carol_payment : Consignment := payment to_carol (coin_spent 12 22) 3 32 with_carol.2.
Definition credited (m s : Z) : list Coin := owned_coins (recipient_owners (receiver m)) (openings_to m s).

#[local] Instance transparent_verifier : ProofVerifier := CoinProofVerifier (Stark := Transparent).

(** A payment is accepted when its proof projects onto the anchored record. *)
Lemma payment_accepted p nf m s r chain record ctx loc :
  anchor_at chain r = Some record → ctx_at chain r = Some ctx → locate chain r = Some loc →
  proof_record_at chain r [nf] = Some record → observe_asset (payment p nf m s r) [] = Valid →
  nullifiers_are_distinct [nf] = true → 6 ≤ confirmations_at chain (height loc) →
  record_binds_nullifiers record ctx [nf] = true → occurrence_keys record [nf] = [nf] →
  first_nullifier_occurrence chain nf = Some loc → credited m s ≠ [] →
  version p = COIN_PROOF_VERSION → mode p = TransferMode → statement p = one_input_statement usd_id nf (coin 60 m s) (coin 0 m s) →
  statement_typed (one_input_statement usd_id nf (coin 60 m s) (coin 0 m s)) →
  statement_matches_public_input TransferMode (one_input_statement usd_id nf (coin 60 m s) (coin 0 m s))
    (public_input record ctx (openings_to m s)) = true →
  verify_coin_proof (statement p) p = Ok tt →
  accept_for_public_owners (payment p nf m s r) chain (receiver m) = Ok {| coins := credited m s; accepted_anchor := loc |}.
Proof.
  intros Ha Hx Hl Hp Ho Hdist Hd Hb Hk Hf Hc Hv Hmode Hst Ht Hm Hok. apply accept_spec. exists record, ctx, record.
  cbn [payment receiver anchor_ref nullifiers known_assets vk coin_openings Accept.proof required_depth recipient_owners accepted_anchor coins].
  split; [exact Ha|]. split; [exact Hx|]. split; [exact Hl|]. split; [exact Hp|]. split; [exact Ho|]. split; [exact Hdist|].
  split; [apply verifier_accepts; [by rewrite Hst|exact Hv|by rewrite Hst, Hmode|exact Hok]|].
  split; [exact Hd|]. split; [exact Hb|]. split; [|split; [reflexivity|exact Hc]].
  intros key. rewrite Hk, list_elem_of_singleton. intros ->. exact Hf.
Qed.

(** A proof that was made, verifies, and is built from the circuits of the crate. *)
Definition proof_checks (res : result NodeError (CoinProof Transparent)) : bool :=
  is_ok res && (is_ok (verify_coin_proof (statement (proved res)) (proved res)) && authentic (transparent_key (Pcd.proof (proved res)))).

Lemma proved_Ok res : is_ok res = true → res = Ok (proved res).
Proof. by destruct res. Qed.

Lemma proof_checked res : proof_checks res = true →
  res = Ok (proved res) ∧ verify_coin_proof (statement (proved res)) (proved res) = Ok tt ∧
  authentic (transparent_key (Pcd.proof (proved res))) = true.
Proof.
  unfold proof_checks. rewrite !andb_true_iff. intros ([p ->]%is_ok_Ok & [[] Hv]%is_ok_Ok & Ha). split_and!; [reflexivity|exact Hv|exact Ha].
Qed.

Lemma bob_checks : proof_checks (payout_result 11 21 2 31) = true.
Proof. vm_compute. reflexivity. Qed.
Lemma carol_checks : proof_checks (payout_result 12 22 3 32) = true.
Proof. vm_compute. reflexivity. Qed.

Lemma bob_accepted : accept_for_public_owners bob_payment final_chain (receiver 2) =
  Ok {| coins := credited 2 31; accepted_anchor := ref_location with_bob.2 |}.
Proof.
  destruct (proof_checked _ bob_checks) as (Ep & E4 & _). destruct (one_input_proved _ _ _ _ _ _ _ _ Ep) as (E1 & E2 & E3).
  unfold bob_payment. apply (payment_accepted to_bob (coin_spent 11 21) 2 31 with_bob.2 final_chain (payment_record (coin_spent 11 21) (ctx_of 2)) (ctx_of 2)
    (ref_location with_bob.2)); [..|exact E1|exact E2|exact E3| | |exact E4].
  5: { unfold observe_asset, payment. cbn [aux coin_openings]. vm_compute. reflexivity. }
  6: { vm_compute. discriminate. }
  9: { vm_compute. discriminate. }
  9: { apply (bool_decide_unpack _). vm_compute. exact I. }
  all: vm_compute; reflexivity.
Qed.

Lemma carol_accepted : accept_for_public_owners carol_payment final_chain (receiver 3) =
  Ok {| coins := credited 3 32; accepted_anchor := ref_location with_carol.2 |}.
Proof.
  destruct (proof_checked _ carol_checks) as (Ep & E4 & _). destruct (one_input_proved _ _ _ _ _ _ _ _ Ep) as (E1 & E2 & E3).
  unfold carol_payment. apply (payment_accepted to_carol (coin_spent 12 22) 3 32 with_carol.2 final_chain (payment_record (coin_spent 12 22) (ctx_of 3)) (ctx_of 3)
    (ref_location with_carol.2)); [..|exact E1|exact E2|exact E3| | |exact E4].
  5: { unfold observe_asset, payment. cbn [aux coin_openings]. vm_compute. reflexivity. }
  6: { vm_compute. discriminate. }
  9: { vm_compute. discriminate. }
  9: { apply (bool_decide_unpack _). vm_compute. exact I. }
  all: vm_compute; reflexivity.
Qed.

(** The hidden transfers spend the same minted coin. *)
Lemma hidden_spends n r : is_ok (hidden_result n r) = true →
  (st_nullifiers (statement (hidden n r))).1 = coin_nullifier minted0 (secret 1).
Proof.
  intros Hp%proved_Ok. destruct (one_input_proved _ _ _ _ _ _ _ _ Hp) as (_ & _ & E). rewrite E. reflexivity.
Qed.

(** C3: Acceptance does not cover unanchored ancestors: there is a mint of 100 and two payments of 60, accepted by two
    receivers on one chain at two different anchors, whose proofs are built from this crate's circuits and both
    descend from the same minted coin. Its nullifier is revealed by the first, unanchored transfer of each
    descent and never reaches the chain, so no receiver compares it: 120 are credited out of a coin of 60. *)
Theorem unanchored_ancestor_double_spends :
  accept_for_public_owners bob_payment final_chain (receiver 2) =
    Ok {| coins := credited 2 31; accepted_anchor := ref_location with_bob.2 |} ∧
  accept_for_public_owners carol_payment final_chain (receiver 3) =
    Ok {| coins := credited 3 32; accepted_anchor := ref_location with_carol.2 |} ∧
  authentic (transparent_key (Pcd.proof to_bob)) = true ∧ authentic (transparent_key (Pcd.proof to_carol)) = true ∧
  (st_nullifiers (statement (hidden 11 21))).1 = coin_nullifier minted0 (secret 1) ∧
  (st_nullifiers (statement (hidden 12 22))).1 = coin_nullifier minted0 (secret 1) ∧
  first_nullifier_occurrence final_chain (coin_nullifier minted0 (secret 1)) = None ∧
  coin_value minted0 = 60 ∧ zsum (coin_value <$> credited 2 31 ++ credited 3 32) = 120.
Proof.
  destruct (proof_checked _ bob_checks) as (_ & _ & A1).
  destruct (proof_checked _ carol_checks) as (_ & _ & A2).
  split; [exact bob_accepted|]. split; [exact carol_accepted|]. split; [exact A1|]. split; [exact A2|].
  split; [apply hidden_spends; vm_compute; reflexivity|]. split; [apply hidden_spends; vm_compute; reflexivity|].
  split; [vm_compute; reflexivity|]. split; [reflexivity|]. vm_compute. reflexivity.
Qed.

(** ** Witnesses *)

Lemma proof_envelope_roundtrip_witness :
  ∃ bs, encode_coin_proof usd_mint = Some bs ∧ decode_coin_proof bs = Some usd_mint.
Proof.
  refine (proj1 (proof_envelope_roundtrip usd_mint _) _); [apply (bool_decide_unpack _); vm_compute; exact I|vm_compute; reflexivity].
Defined.

Lemma distinct_digest_exact_witness :
  ∃ bits, enforce_distinct_digest (seq_elems 8) (reverse (seq_elems 8)) bits = Some tt.
Proof.
  refine (proj1 (proj1 (distinct_digest_exact (seq_elems 8) (reverse (seq_elems 8)) eq_refl eq_refl _ _)) _);
    [repeat constructor; unfold BABY_BEAR_P; lia|repeat constructor; unfold BABY_BEAR_P; lia|discriminate].
Defined.

Lemma usd_redeem_verifies : verify_coin_proof (statement usd_redeem) usd_redeem = Ok tt.
Proof. vm_compute. reflexivity. Qed.
Lemma usd_redeem_key : preprocessed (Pcd.proof usd_redeem) = Some (RedeemShape (NodeShape (MintShape 4) (MintShape 4))).
Proof. vm_compute. reflexivity. Qed.


Lemma honest_transfer_proves_witness :
  ∃ p, prove_transfer usd_id ((minted0, secret 1), (minted1, secret 1)) (paid, change) (usd_mint, usd_mint) (0, 1)%nat = Ok p ∧
    statement p = transfer_statement usd_id (minted0, secret 1) (minted1, secret 1) paid change ∧
    good_predecessor (NodeShape (MintShape 4) (MintShape 4)) p.
Proof.
  assert (good_predecessor (MintShape 4) usd_mint) as Hg.
  { split; [apply (bool_decide_unpack _); vm_compute; exact I|vm_compute; reflexivity..]. }
  assert (∀ c n, coin_wf c → coin_owner c = secret_owner (secret n) → owned (c, secret n)) as Ho.
  { intros c n Hc E. split; [exact Hc|]. split; [|exact E]. apply length_le_bytes. }
  refine (honest_transfer_proves usd_id (minted0, secret 1) (minted1, secret 1) paid change usd_mint usd_mint 0 1
    (MintShape 4) (MintShape 4) _ _ _ _ _ _ _ _ Hg Hg _ _ _ _).
  - apply Ho; [vm_compute; reflexivity|reflexivity].
  - apply Ho; [vm_compute; reflexivity|reflexivity].
  - vm_compute. reflexivity.
  - vm_compute. reflexivity.
  - repeat (apply Forall_cons_2; [reflexivity|]). constructor.
  - reflexivity.
  - vm_compute. discriminate.
  - vm_compute. discriminate.
  - vm_compute. reflexivity.
  - vm_compute. reflexivity.
  - reflexivity.
  - intros. vm_compute. reflexivity.
Defined.

(** The records and contexts of a mock chain are those of its entries. *)
Lemma mock_entries_typed (m : MockAnchorChain) :
  Forall (λ e, record_wf (e_record e) ∧ length (e_ctx e) = 32%nat) (entries m) →
  (∀ r nfs record, proof_record_at (mock_chain m) r nfs = Some record → record_wf record) ∧
  (∀ r ctx, ctx_at (mock_chain m) r = Some ctx → length ctx = 32%nat).
Proof.
  rewrite Forall_forall. intros Hf.
  assert (∀ r e, find_first (matches_ref r) (entries m) = Some e → e ∈ entries m) as Hin.
  { by intros r e [? _]%find_first_Some. }
  split.
  - intros r nfs record E. cbn in E. unfold default_proof_record_at, mock_anchor_at in E.
    destruct (find_first (matches_ref r) (entries m)) as [e|] eqn:He; [|done]. cbn in E.
    destruct (Hf e (Hin r e He)) as [Hw _]. destruct (e_record e) eqn:Er; try done; injection E as <-; exact Hw.
  - intros r ctx E. cbn in E. unfold mock_ctx_at in E. destruct (find_first (matches_ref r) (entries m)) as [e|] eqn:He; [|done].
    injection E as <-. by destruct (Hf e (Hin r e He)).
Qed.


(** ** A ledger *)
Definition usd_elems : list Z := to_elems usd_id.
Definition predecessors (p : Transparent) : list Transparent := match p with TProof _ _ preds => preds | _ => [] end.
Definition entry_of (p : Transparent) : PcdLedger.Entry :=
  match p with TProof shape private _ => opened shape private | TForeign _ _ => opened (Foreign 0) [] end.
Definition usd_ledger : list PcdLedger.Entry := [entry_of (Pcd.proof usd_mint); entry_of (Pcd.proof usd_transfer); entry_of (Pcd.proof usd_redeem)].

(** A verifying proof over proofs of the ledger extends it. *)
Lemma ledger_extends h p : proven h → authentic (transparent_key p) = true → bool_decide (is_Some (transparent_check p)) = true →
  Forall (λ q, ∃ e, e ∈ h ∧ transparent_check q = Some (entry_elems e)) (predecessors p) → proven (h ++ [entry_of p]).
Proof.
  intros Hh Ha [elems E]%bool_decide_eq_true Hq. destruct p as [shape private preds|id elems']; [|done].
  eapply proven_snoc; [exact Hh| |exact E|]; [by destruct shape|]. apply Forall_fmap. eapply Forall_impl; [exact Hq|].
  intros q (e & He & Eq). exists e. split; [exact He|]. exact (f_equal (fmap embed) Eq).
Qed.

Ltac predecessor_in k := eexists; split; [exact k|vm_compute; reflexivity].

Lemma usd_proven : proven usd_ledger.
Proof.
  assert (proven [entry_of (Pcd.proof usd_mint)]) as H1.
  { apply (ledger_extends [] (Pcd.proof usd_mint)); [constructor|vm_compute; reflexivity..|].
    assert (predecessors (Pcd.proof usd_mint) = []) as -> by (vm_compute; reflexivity). constructor. }
  assert (proven [entry_of (Pcd.proof usd_mint); entry_of (Pcd.proof usd_transfer)]) as H2.
  { apply (ledger_extends _ (Pcd.proof usd_transfer) H1); [vm_compute; reflexivity..|].
    assert (predecessors (Pcd.proof usd_transfer) = [Pcd.proof usd_mint; Pcd.proof usd_mint]) as -> by (vm_compute; reflexivity).
    repeat apply Forall_cons_2; try apply Forall_nil_2; predecessor_in (list_elem_of_here (entry_of (Pcd.proof usd_mint)) []). }
  apply (ledger_extends _ (Pcd.proof usd_redeem) H2); [vm_compute; reflexivity..|].
  assert (predecessors (Pcd.proof usd_redeem) = [Pcd.proof usd_transfer]) as -> by (vm_compute; reflexivity).
  apply Forall_cons_2; [|apply Forall_nil_2].
  predecessor_in (list_elem_of_further (entry_of (Pcd.proof usd_transfer)) (entry_of (Pcd.proof usd_mint)) _
    (list_elem_of_here (entry_of (Pcd.proof usd_transfer)) [])).
Qed.

Ltac decided := apply (bool_decide_unpack _); vm_compute; exact I.

#[local] Instance collision_free_dec xs : Decision (collision_free xs).
Proof. unfold collision_free. apply _. Defined.


(** What was redeemed, what is unspent, what was minted. *)
Example usd_totals :
  (ledger_redeemed usd_elems usd_ledger, total_out (unspent usd_elems usd_ledger), ledger_minted usd_elems usd_ledger) = (30, 70, 100).
Proof. vm_compute. reflexivity. Qed.
