(* ===== verification/Snapshot.v ===== *)
(** * Anchor snapshots (ffi)

    Models [ffi/src/snapshot.rs]: the JSON form of an anchor log, its validation on
    parsing, and the read-only anchor chain over it with provisional entries - exact
    transactions that are not mined yet, at the placeholder location (0, 0).  The JSON
    text is third-party: a snapshot is the value the parser returns. *)

From S2P Require Import Prelude Text Field Commitments Kernel Anchor Batch Chain Accept NodeChain AccountText.
#[local] Open Scope Z_scope.

(** ** The JSON form *)
Record SnapshotBatchEnvelope := { sb_version : Z; sb_payloads : list rstring }.
Record SnapshotEntry := {
  se_height : Z; se_position : Z; se_txid : rstring; se_ctx : rstring; se_record : rstring;
  se_batch : option SnapshotBatchEnvelope }.
Record Snapshot := { sn_tip_height : Z; sn_entries : list SnapshotEntry }.

(** ** The chain view *)
Record SEntry := {
  sx_txid : bytes; sx_location : Location; sx_record : AnchorRecord; sx_ctx : bytes;
  sx_batch : option (BatchVersion * list bytes) }.
Record SnapshotChain := { sc_tip_height : Z; sc_entries : list SEntry }.

(** [sort_by_key(|e| e.location)], which is stable. *)
Definition entry_le (a b : SEntry) : Prop := loc_le (sx_location a) (sx_location b).
#[export] Instance entry_le_dec : RelDecision entry_le.
Proof. intros a b. unfold entry_le. apply _. Defined.

Fixpoint collect {E A B} (f : A → result E B) (l : list A) : result E (list B) :=
  match l with
  | [] => Ok []
  | x :: l => y ← f x; ys ← collect f l; Ok (y :: ys)
  end.

Definition batch_version (v : Z) : result (halt string) BatchVersion :=
  if v =? 1 then Ok V1 else if v =? 2 then Ok V2 else Err (Refused "snapshot batch version"%string).

Section snapshot.
Context `{Poseidon}.

Definition decode_batch (record : AnchorRecord) (ctx : bytes) (batch : SnapshotBatchEnvelope)
  : result (halt string) (BatchVersion * list bytes) :=
  version ← batch_version (sb_version batch);
  payloads ← collect (from_hex_array 24) (sb_payloads batch);
  match record with
  | BatchHeader count batch_commit =>
    ensure (bool_decide (Z.of_nat (length payloads) = count) &&
            bool_decide (to_anchor (versioned_batch_commit version payloads ctx) = batch_commit))
      (Refused "snapshot batch envelope does not match its record"%string);;
    Ok (version, payloads)
  | _ => Err (Refused "snapshot envelope accompanies a non-batch record"%string)
  end.

Definition decode_entry (e : SnapshotEntry) : result (halt string) SEntry :=
  txid ← from_hex_array 32 (se_txid e);
  ctx ← from_hex_array 32 (se_ctx e);
  record_bytes ← from_hex_array ANCHOR_SIZE (se_record e);
  let record := record_from_bytes record_bytes in
  batch ← match se_batch e with
          | None => Ok None
          | Some batch => b ← decode_batch record ctx batch; Ok (Some b)
          end;
  Ok {| sx_txid := txid; sx_location := MkLocation (se_height e) (se_position e); sx_record := record;
        sx_ctx := ctx; sx_batch := batch |}.

Definition from_snapshot (s : Snapshot) : result (halt string) SnapshotChain :=
  entries ← collect decode_entry (sn_entries s);
  Ok {| sc_tip_height := sn_tip_height s; sc_entries := merge_sort entry_le entries |}.

(** ** Queries *)
Definition snapshot_find (c : SnapshotChain) (r : AnchorRef) : option SEntry :=
  find_first (λ e, bool_decide (sx_txid e = txid r) &&
    (bool_decide (sx_location e = ref_location r) || bool_decide (ref_location r = MEMPOOL_LOCATION))) (sc_entries c).

Definition entry_matches_nullifier (e : SEntry) (raw_nf : bytes) : bool :=
  match sx_batch e with
  | Some (version, payloads) =>
    bool_decide (is_Some (versioned_envelope_occurrence version (sx_record e) payloads (sx_ctx e) raw_nf))
  | None => well_formed (sx_record e) (sx_ctx e) raw_nf
  end.

(** [None] is "no record" here and also the panic of [xfer], which one nullifier excludes. *)
Definition snapshot_proof_record (c : SnapshotChain) (r : AnchorRef) (raw_nullifiers : list bytes) : option AnchorRecord :=
  entry ← snapshot_find c r;
  match sx_record entry with
  | BatchHeader _ _ =>
    match raw_nullifiers with
    | [raw_nf] =>
      '(version, payloads) ← sx_batch entry;
      _ ← versioned_envelope_occurrence version (sx_record entry) payloads (sx_ctx entry) raw_nf;
      xfer raw_nullifiers (sx_ctx entry)
    | _ => None
    end
  | record => Some record
  end.

Definition is_mined (e : SEntry) : bool := negb (bool_decide (sx_location e = MEMPOOL_LOCATION)).

Definition snapshot_occurrences (c : SnapshotChain) (raw_nf : bytes) : list Location :=
  sx_location <$> List.filter (λ e, entry_matches_nullifier e raw_nf) (List.filter is_mined (sc_entries c)).

Definition snapshot_first (c : SnapshotChain) (raw_nf : bytes) : option Location :=
  match snapshot_occurrences c raw_nf with
  | location :: _ => Some location
  | [] => sx_location <$> find_first (λ e, bool_decide (sx_location e = MEMPOOL_LOCATION) && entry_matches_nullifier e raw_nf)
            (sc_entries c)
  end.

Definition snapshot_confirmations (c : SnapshotChain) (h : Z) : Z :=
  if (h =? height MEMPOOL_LOCATION) || (h >? sc_tip_height c) then 0 else sc_tip_height c - h + 1.

(** [impl AnchorChain for SnapshotChain] *)
Definition snapshot_chain (c : SnapshotChain) : AnchorChain := {|
  Chain.tip_height := sc_tip_height c;
  anchor_at r := sx_record <$> snapshot_find c r;
  proof_record_at := snapshot_proof_record c;
  ctx_at r := sx_ctx <$> snapshot_find c r;
  locate r := sx_location <$> snapshot_find c r;
  first_nullifier_occurrence := snapshot_first c;
  nullifier_occurrences := snapshot_occurrences c;
  anchors_up_to h := (λ e, (sx_location e, sx_record e)) <$>
    List.filter (λ e, is_mined e && (height (sx_location e) <=? h)) (sc_entries c);
  confirmations_at := snapshot_confirmations c;
|}.

(** [entry_json] *)
Definition entry_json (location : Location) (txid : bytes) (record : AnchorRecord) (ctx : bytes) : SnapshotEntry := {|
  se_height := height location; se_position := loc_position location; se_txid := to_hex txid; se_ctx := to_hex ctx;
  se_record := to_hex (record_to_bytes record); se_batch := None |}.
End snapshot.

(** ** Lemmas *)
#[export] Instance entry_le_trans : Transitive entry_le.
Proof. intros a b c. unfold entry_le. apply transitivity. Qed.
#[export] Instance entry_le_total : Total entry_le.
Proof. intros a b. unfold entry_le. apply total. apply _. Qed.

Lemma collect_Forall2 {E A B} (f : A → result E B) l ys : collect f l = Ok ys ↔ Forall2 (λ x y, f x = Ok y) l ys.
Proof.
  revert ys. induction l as [|x l IH]; intros ys; cbn.
  - split; [intros [= <-]; constructor|by inversion 1].
  - rewrite bind_Ok. setoid_rewrite bind_Ok. setoid_rewrite IH. split.
    + intros (y & Hy & ys' & Hl & [= <-]). by constructor.
    + inversion 1 as [|? y ? ys' Hy Hl]; subst. eauto.
Qed.

Section facts.
Context `{Poseidon}.

(** An envelope that was kept matches the batch header it accompanies. *)
Definition envelope_matches (e : SEntry) : Prop :=
  match sx_batch e with
  | None => True
  | Some (version, payloads) =>
    sx_record e = BatchHeader (Z.of_nat (length payloads)) (to_anchor (versioned_batch_commit version payloads (sx_ctx e)))
  end.

Lemma decode_batch_Ok record ctx batch version payloads : decode_batch record ctx batch = Ok (version, payloads) →
  record = BatchHeader (Z.of_nat (length payloads)) (to_anchor (versioned_batch_commit version payloads ctx)).
Proof.
  unfold decode_batch. intros (v & _ & (ps & _ & E)%bind_Ok)%bind_Ok. destruct record; try done.
  apply bind_Ok in E as (? & Hm & [= -> ->]). apply ensure_Ok, andb_true_iff in Hm as [Hl%bool_decide_eq_true Hc%bool_decide_eq_true].
  by rewrite Hl, Hc.
Qed.

Lemma decode_entry_matches e x : decode_entry e = Ok x → envelope_matches x.
Proof.
  unfold decode_entry. intros (t & _ & (c & _ & (r & _ & (b & Hb & [= <-])%bind_Ok)%bind_Ok)%bind_Ok)%bind_Ok.
  unfold envelope_matches. cbn. destruct (se_batch e) as [batch|]; [|by injection Hb as <-].
  apply bind_Ok in Hb as ([v ps] & Hb & [= <-]). by apply decode_batch_Ok in Hb.
Qed.

Lemma from_snapshot_sorted s c : from_snapshot s = Ok c → StronglySorted entry_le (sc_entries c).
Proof. unfold from_snapshot. intros (es & _ & [= <-])%bind_Ok. cbn. apply StronglySorted_merge_sort; apply _. Qed.

Lemma from_snapshot_matches s c : from_snapshot s = Ok c → Forall envelope_matches (sc_entries c).
Proof.
  unfold from_snapshot. intros (es & He%collect_Forall2 & [= <-])%bind_Ok. cbn. rewrite (merge_sort_Permutation entry_le es).
  clear -He. induction He as [|e x es xs Hx _ IH]; constructor; [by apply decode_entry_matches in Hx|done].
Qed.

Lemma occurrence_elem c nf l : l ∈ snapshot_occurrences c nf ↔
  ∃ e, e ∈ sc_entries c ∧ is_mined e = true ∧ entry_matches_nullifier e nf = true ∧ sx_location e = l.
Proof.
  unfold snapshot_occurrences. rewrite list_elem_of_fmap. setoid_rewrite list_elem_of_In. setoid_rewrite filter_In.
  setoid_rewrite filter_In. naive_solver.
Qed.

Lemma sorted_filter {A} (R : A → A → Prop) (p : A → bool) l : StronglySorted R l → StronglySorted R (List.filter p l).
Proof.
  induction 1 as [|x l Hs IH Hx]; cbn; [constructor|]. destruct (p x); [|done]. constructor; [done|].
  rewrite Forall_forall in *. intros y [Hy _]%list_elem_of_In%filter_In. by apply Hx, list_elem_of_In.
Qed.

(** The first settled occurrence comes before all the others. *)
Lemma snapshot_first_least c nf l l' : StronglySorted entry_le (sc_entries c) →
  head (snapshot_occurrences c nf) = Some l → l' ∈ snapshot_occurrences c nf → loc_le l l'.
Proof.
  intros Hs. unfold snapshot_occurrences.
  pose proof (sorted_filter _ (λ e, entry_matches_nullifier e nf) _ (sorted_filter _ is_mined _ Hs)) as Hf.
  destruct (List.filter _ _) as [|e es]; [done|]. cbn. intros [= <-]. apply StronglySorted_inv in Hf as [_ Hf].
  intros [->|(x & -> & Hx)%list_elem_of_fmap]%elem_of_cons; [reflexivity|]. rewrite Forall_forall in Hf. by apply Hf.
Qed.
End facts.

(** ** Properties *)
Section properties.
Context `{Poseidon, ProofVerifier}.

(** C13: Provisional acceptance yields to settled history: over any snapshot that parses, whatever is accepted - also
    with no confirmation required, for a transaction that is not mined - spends only nullifiers whose every mined
    occurrence, inside verified batch envelopes too, is at the accepted anchor or later; so a provisional anchor is
    accepted only if no mined entry spends the coin, and with one required confirmation the anchor is mined. *)
Theorem provisional_yields_to_settled s c cons params res : from_snapshot s = Ok c →
  accept_for_public_owners cons (snapshot_chain c) params = Ok res →
  (∃ e, e ∈ sc_entries c ∧ sx_txid e = txid (anchor_ref cons) ∧ sx_location e = accepted_anchor res ∧
    ∀ key, key ∈ occurrence_keys (sx_record e) (nullifiers cons) →
      Forall (λ l, accepted_anchor res ≠ MEMPOOL_LOCATION ∧ loc_le (accepted_anchor res) l) (snapshot_occurrences c key)) ∧
  (1 ≤ required_depth params → accepted_anchor res ≠ MEMPOOL_LOCATION).
Proof.
  intros Hs%from_snapshot_sorted (record & ctx & pr & Ha & _ & Hl & _ & _ & _ & _ & Hd & _ & Hk & _)%accept_spec.
  cbn in Ha, Hl. destruct (snapshot_find c (anchor_ref cons)) as [e|] eqn:Ef; [|done]. injection Ha as <-. injection Hl as Hl.
  unfold snapshot_find in Ef. apply find_first_Some in Ef as [Hin Hm].
  apply andb_true_iff in Hm as [Ht%bool_decide_eq_true _]. split.
  - exists e. split_and!; [done..|]. intros key Hkey. apply Forall_forall. intros l Ho.
    pose proof (Hk key Hkey) as Hfirst. cbn in Hfirst. unfold snapshot_first in Hfirst.
    destruct (snapshot_occurrences c key) as [|l0 ls] eqn:El; [by apply elem_of_nil in Ho|]. injection Hfirst as <-. split.
    + assert (l0 ∈ snapshot_occurrences c key) as (e0 & _ & Hmine & _ & <-)%occurrence_elem by (rewrite El; apply list_elem_of_here).
      unfold is_mined in Hmine. by apply negb_true_iff, bool_decide_eq_false in Hmine.
    + apply (snapshot_first_least c key); [done|by rewrite El|by rewrite El].
  - intros Hreq E. rewrite E in Hd. cbn in Hd. unfold snapshot_confirmations in Hd. cbn in Hd. lia.
Qed.
End properties.

(** ** A transaction that is not mined yet *)
Section demo.
#[local] Existing Instances demo_sponge demo_sponge_laws mock_verifier.

Definition provisional_txid : bytes := demo_digest 17.
Definition provisional_snapshot : Snapshot := {|
  sn_tip_height := 105;
  sn_entries := [entry_json (MkLocation 7 1) (demo_digest 18) (Xfer (bound demo_ctx (demo_digest 8)) (zeros 24)) demo_ctx;
                 entry_json MEMPOOL_LOCATION provisional_txid demo_record demo_ctx] |}.
Definition conflict_snapshot : Snapshot := {|
  sn_tip_height := 105;
  sn_entries := sn_entries provisional_snapshot ++ [entry_json (MkLocation 9 0) (demo_digest 19) demo_record demo_ctx] |}.
Definition snapshot_of (s : Snapshot) : SnapshotChain :=
  match from_snapshot s with Ok c => c | Err _ => {| sc_tip_height := 0; sc_entries := [] |} end.
Definition provisional_consignment : Consignment := {|
  coin_openings := demo_openings; nullifiers := [demo_nf];
  proof := mock_prove [x01] (public_input demo_record demo_ctx demo_openings);
  anchor_ref := MkRef provisional_txid MEMPOOL_LOCATION; aux := None |}.
Definition provisional_params (depth : Z) : PublicOwnerAcceptParams := {|
  vk := [x01]; required_depth := depth; recipient_owners := [secret_owner demo_secret]; known_assets := [demo_digest 9] |}.
Definition provisional_result : AcceptedCoins := {|
  coins := owned_coins [secret_owner demo_secret] demo_openings; accepted_anchor := MEMPOOL_LOCATION |}.

Lemma provisional_yields_to_settled_witness :
  from_snapshot provisional_snapshot = Ok (snapshot_of provisional_snapshot) ∧
  accept_for_public_owners provisional_consignment (snapshot_chain (snapshot_of provisional_snapshot)) (provisional_params 0)
    = Ok provisional_result ∧
  (1 ≤ 0 → MEMPOOL_LOCATION ≠ MEMPOOL_LOCATION).
Proof.
  assert (from_snapshot provisional_snapshot = Ok (snapshot_of provisional_snapshot)) as Hs by (vm_compute; reflexivity).
  assert (accept_for_public_owners provisional_consignment (snapshot_chain (snapshot_of provisional_snapshot)) (provisional_params 0)
    = Ok provisional_result) as Ha by (vm_compute; reflexivity).
  split; [exact Hs|]. split; [exact Ha|].
  exact (proj2 (provisional_yields_to_settled provisional_snapshot (snapshot_of provisional_snapshot) provisional_consignment
    (provisional_params 0) provisional_result Hs Ha)).
Defined.

(** A required confirmation, or a mined spend of the coin, refuses it. *)
Example provisional_needs_depth :
  accept_for_public_owners provisional_consignment (snapshot_chain (snapshot_of provisional_snapshot)) (provisional_params 1)
    = Err (CInsufficientConfirmations 0 1).
Proof. vm_compute. reflexivity. Qed.
Example provisional_conflict :
  accept_for_public_owners provisional_consignment (snapshot_chain (snapshot_of conflict_snapshot)) (provisional_params 0)
    = Err (CNullifierConflict (to_anchor demo_nf) (MkLocation 9 0)).
Proof. vm_compute. reflexivity. Qed.
End demo.
