(* ===== verification/Wallet.v ===== *)
(** * The in-memory wallet (ffi)

    Models [ffi/src/wallet.rs]: keys, issuers, pinned assets, coins and pending
    transactions; planning and proving, rebinding, finalizing, exporting and importing
    a pending transaction, receiving, reconciliation and the secret state.  Random
    digests and contexts are arguments; JSON and base64 are the class [WalletJson], the
    serialization of a consignment the class [ConsignmentCodec], both third-party. *)

From S2P Require Import Prelude Text Field Commitments Kernel Anchor Batch Chain Accept NodeChain AccountText Circuit Pcd PcdAccept Snapshot.
#[local] Open Scope Z_scope.

(** ** Outcomes *)

(** An error message, a panic, and a loop that still draws random contexts. *)
Inductive OpStop := Failed (message : string) | Crashed | Drawing.
Abbreviation op := (result OpStop).

Definition fail_if (cond : bool) (message : string) : op () := ensure (negb cond) (Failed message).
Definition of_hex {A} (r : result (halt string) A) : op A :=
  match r with Ok a => Ok a | Err (Refused m) => Err (Failed m) | Err Panicked => Err Crashed end.
Definition of_node {A} (r : result NodeError A) : op A := match r with Ok a => Ok a | Err _ => Err (Failed "proof") end.

(** ** Data *)
Record IssuerRecord := { isk : bytes; ir_genesis : AssetGenesis }.

Inductive CoinStatus := Unspent | Frozen | Spent.
#[export] Instance coin_status_eq_dec : EqDecision CoinStatus.
Proof. solve_decision. Defined.

Record StoredCoin := {
  sc_coin : Coin; sc_status : CoinStatus; sc_proof : bytes; sc_selector : nat; sc_unconfirmed_anchor : option rstring }.

Inductive RecordShape :=
  | SFixed (record : AnchorRecord)
  | SXfer (nullifiers : list bytes)
  | SRedeem (asset_id : bytes) (value : Z) (raw_nf : bytes).

Record Pending := {
  pe_shape : RecordShape; pe_openings : list CoinOpening; pe_nullifiers : list bytes; pe_proof : bytes;
  pe_aux : option AssetGenesis; pe_spent_ids : list rstring; pe_unconfirmed_dependencies : list rstring }.

Record MemWallet := {
  keys : list bytes; issuers : list IssuerRecord; assets : list AssetGenesis; w_coins : list StoredCoin;
  pending : gmap Z Pending; next_pending : Z }.

Definition with_keys k w := {| keys := k; issuers := issuers w; assets := assets w; w_coins := w_coins w;
  pending := pending w; next_pending := next_pending w |}.
Definition with_issuers i w := {| keys := keys w; issuers := i; assets := assets w; w_coins := w_coins w;
  pending := pending w; next_pending := next_pending w |}.
Definition with_assets a w := {| keys := keys w; issuers := issuers w; assets := a; w_coins := w_coins w;
  pending := pending w; next_pending := next_pending w |}.
Definition with_coins c w := {| keys := keys w; issuers := issuers w; assets := assets w; w_coins := c;
  pending := pending w; next_pending := next_pending w |}.
Definition with_pending p w := {| keys := keys w; issuers := issuers w; assets := assets w; w_coins := w_coins w;
  pending := p; next_pending := next_pending w |}.
Definition with_next n w := {| keys := keys w; issuers := issuers w; assets := assets w; w_coins := w_coins w;
  pending := pending w; next_pending := n |}.

Record Proved := {
  pv_pending_id : Z; pv_anchor_record : bytes; pv_ctx : bytes; pv_spends : list rstring; pv_dependencies : list rstring }.
Record CreditJson := { cr_asset_id : rstring; cr_currency : option rstring; cr_amount : Z }.
Record CoinJson := {
  cj_id : rstring; cj_asset_id : rstring; cj_currency : option rstring; cj_value : Z; cj_unspent : bool;
  cj_finality : rstring; cj_anchor_txid : option rstring }.
Record Verified := { vf_credits : list CreditJson; vf_coins : list CoinJson; vf_height : Z; vf_position : Z }.

Record GenesisJson := { gj_issuer_pk : rstring; gj_currency_code : rstring; gj_terms_hash : rstring; gj_nonce : Z }.
Inductive ShapeJson :=
  | JFixed (record_hex : rstring)
  | JXfer (nullifiers : list rstring)
  | JRedeem (asset_id : rstring) (value : Z) (raw_nf : rstring).
Record OpeningJson := { oj_asset_id : rstring; oj_value : Z; oj_owner : rstring; oj_randomness : rstring }.
Record PendingExport := {
  px_version : Z; px_shape : ShapeJson; px_openings : list OpeningJson; px_nullifiers : list rstring;
  px_proof_base64 : rstring; px_aux : option GenesisJson; px_spent_ids : list rstring;
  px_unconfirmed_dependencies : list rstring }.
Record IssuerJson := { ij_isk : rstring; ij_genesis : GenesisJson }.
Record SecretsJson := {
  sj_version : Z; sj_owner_secrets : list rstring; sj_issuers : list IssuerJson; sj_assets : list GenesisJson }.

(** ** Third-party encodings *)
Class WalletJson := {
  pending_to_string : PendingExport → rstring;
  pending_from_str : rstring → option PendingExport;
  secrets_to_string : SecretsJson → rstring;
  secrets_from_str : rstring → option SecretsJson;
  base64_encode : bytes → rstring;
  base64_decode : rstring → option bytes }.
Class WalletJsonLaws (J : WalletJson) : Prop := {
  pending_reads_back : ∀ p, pending_from_str (pending_to_string p) = Some p;
  secrets_reads_back : ∀ s, secrets_from_str (secrets_to_string s) = Some s;
  base64_reads_back : ∀ b, base64_decode (base64_encode b) = Some b }.
Class ConsignmentCodec := {
  consignment_to_bytes : Consignment → bytes;
  consignment_from_bytes : bytes → option Consignment }.

(** ** [String::from_utf8_lossy]: each maximal invalid prefix becomes U+FFFD *)
Definition REPLACEMENT : Z := 0xFFFD.
Definition is_cont (b : byte) : bool := (0x80 <=? bval b) && (bval b <=? 0xBF).
Definition second_of_three (b0 b1 : byte) : bool :=
  if bval b0 =? 0xE0 then (0xA0 <=? bval b1) && (bval b1 <=? 0xBF)
  else if bval b0 =? 0xED then (0x80 <=? bval b1) && (bval b1 <=? 0x9F) else is_cont b1.
Definition second_of_four (b0 b1 : byte) : bool :=
  if bval b0 =? 0xF0 then (0x90 <=? bval b1) && (bval b1 <=? 0xBF)
  else if bval b0 =? 0xF4 then (0x80 <=? bval b1) && (bval b1 <=? 0x8F) else is_cont b1.

Fixpoint from_utf8_lossy (bs : bytes) : rstring :=
  match bs with
  | [] => []
  | b0 :: r0 =>
    let z := bval b0 in
    if z <? 0x80 then z :: from_utf8_lossy r0
    else if (0xC2 <=? z) && (z <=? 0xDF) then
      match r0 with
      | b1 :: r1 => if is_cont b1 then ((z - 0xC0) * 64 + (bval b1 - 0x80)) :: from_utf8_lossy r1
                    else REPLACEMENT :: from_utf8_lossy r0
      | [] => [REPLACEMENT]
      end
    else if (0xE0 <=? z) && (z <=? 0xEF) then
      match r0 with
      | b1 :: r1 =>
        if second_of_three b0 b1 then
          match r1 with
          | b2 :: r2 =>
            if is_cont b2
            then ((z - 0xE0) * 4096 + (bval b1 - 0x80) * 64 + (bval b2 - 0x80)) :: from_utf8_lossy r2
            else REPLACEMENT :: from_utf8_lossy r1
          | [] => [REPLACEMENT]
          end
        else REPLACEMENT :: from_utf8_lossy r0
      | [] => [REPLACEMENT]
      end
    else if (0xF0 <=? z) && (z <=? 0xF4) then
      match r0 with
      | b1 :: r1 =>
        if second_of_four b0 b1 then
          match r1 with
          | b2 :: r2 =>
            if is_cont b2 then
              match r2 with
              | b3 :: r3 =>
                if is_cont b3
                then ((z - 0xF0) * 262144 + (bval b1 - 0x80) * 4096 + (bval b2 - 0x80) * 64 + (bval b3 - 0x80))
                  :: from_utf8_lossy r3
                else REPLACEMENT :: from_utf8_lossy r2
              | [] => [REPLACEMENT]
              end
            else REPLACEMENT :: from_utf8_lossy r1
          | [] => [REPLACEMENT]
          end
        else REPLACEMENT :: from_utf8_lossy r0
      | [] => [REPLACEMENT]
      end
    else REPLACEMENT :: from_utf8_lossy r0
  end.

(** ** Strings and selections *)
Definition str_le (a b : rstring) : Prop := bytes_le (utf8 a) (utf8 b).
#[export] Instance str_le_dec : RelDecision str_le.
Proof. intros a b. unfold str_le. apply _. Defined.

(** [Vec::dedup] *)
Fixpoint dedup_strings (l : list rstring) : list rstring :=
  match l with
  | [] => []
  | x :: l => match dedup_strings l with
              | y :: r => if bool_decide (x = y) then y :: r else x :: y :: r
              | [] => [x]
              end
  end.
Definition sort_dedup (l : list rstring) : list rstring := dedup_strings (merge_sort str_le l).

(** The order of [Vec<String>]. *)
Fixpoint ids_ltb (a b : list rstring) : bool :=
  match a, b with
  | [], [] => false
  | [], _ :: _ => true
  | _ :: _, [] => false
  | x :: a, y :: b => str_ltb x y || (bool_decide (x = y) && ids_ltb a b)
  end.

Record Candidate := { cd_change : Z; cd_count : nat; cd_ids : list rstring; cd_total : Z }.
Definition candidate_ltb (a b : Candidate) : bool :=
  (cd_change a <? cd_change b) ||
  ((cd_change a =? cd_change b) &&
   ((cd_count a <? cd_count b)%nat || (bool_decide (cd_count a = cd_count b) && ids_ltb (cd_ids a) (cd_ids b)))).

Definition consider (amount : Z) (selected : option Candidate) (spend : list rstring * Z) : option Candidate :=
  if spend.2 <? amount then selected else
  let candidate := {| cd_change := spend.2 - amount; cd_count := length spend.1; cd_ids := spend.1; cd_total := spend.2 |} in
  match selected with
  | Some current => if candidate_ltb candidate current then Some candidate else selected
  | None => Some candidate
  end.

Definition single_spends (eligible : list (rstring * Z)) : list (list rstring * Z) := (λ e, ([e.1], e.2)) <$> eligible.
(** [for first in .., for second in first + 1 ..], skipping sums above [u64]. *)
Fixpoint pair_spends (eligible : list (rstring * Z)) : list (list rstring * Z) :=
  match eligible with
  | [] => []
  | first :: rest =>
    omap (λ second, (λ total, ([first.1; second.1], total)) <$> checked_add64 first.2 second.2) rest ++ pair_spends rest
  end.

Definition id_le (a b : rstring * Z) : Prop := str_le a.1 b.1.
#[export] Instance id_le_dec : RelDecision id_le.
Proof. intros a b. unfold id_le. apply _. Defined.

Definition record_parses_cleanly (record : AnchorRecord) : bool :=
  match record with
  | Xfer _ _ | XferCompressed _ =>
    match record_from_bytes (record_to_bytes record) with Xfer _ _ | XferCompressed _ => true | _ => false end
  | _ => true
  end.

Definition checked_total (amounts : list Z) : op Z :=
  foldl (λ acc v, a ← acc; ok_or (checked_add64 a v) (Failed "amounts overflow u64")) (Ok 0) amounts.

Section wallet.
Context `{Poseidon, Permutation} {Stark : Type} `{StarkSystem Stark, ProofCodec Stark, ConsignmentCodec, WalletJson}.

Definition coin_id (s : StoredCoin) : rstring := to_hex (commitment (sc_coin s)).

(** [xfer] panics unless there are one or two nullifiers. *)
Definition build_shape (shape : RecordShape) (ctx : bytes) : op AnchorRecord :=
  match shape with
  | SFixed record => Ok record
  | SXfer nullifiers => ok_or (xfer nullifiers ctx) Crashed
  | SRedeem asset_id value raw_nf => Ok (redeem asset_id value raw_nf ctx)
  end.

(** Contexts are drawn until the record parses as a transfer. *)
Fixpoint fresh_xfer_record (nullifiers : list bytes) (draws : list bytes) : op (AnchorRecord * bytes) :=
  match draws with
  | [] => Err Drawing
  | ctx :: draws =>
    record ← ok_or (xfer nullifiers ctx) Crashed;
    if record_parses_cleanly record then Ok (record, ctx) else fresh_xfer_record nullifiers draws
  end.

(** ** JSON forms *)
Definition parse_digest (hex : rstring) : op bytes := of_hex (from_hex_array 32 hex).

Definition shape_to_json (shape : RecordShape) : ShapeJson :=
  match shape with
  | SFixed record => JFixed (to_hex (record_to_bytes record))
  | SXfer nullifiers => JXfer (to_hex <$> nullifiers)
  | SRedeem asset_id value raw_nf => JRedeem (to_hex asset_id) value (to_hex raw_nf)
  end.

Definition canonical_nullifier (digest : bytes) : op bytes :=
  if is_canonical digest then Ok digest else Err (Failed "not a canonical digest encoding").
Definition nullifier_from_hex (hex : rstring) : op bytes := parse_digest hex ≫= canonical_nullifier.

Definition shape_from_json (shape : ShapeJson) : op RecordShape :=
  match shape with
  | JFixed record_hex => b ← of_hex (from_hex_array 64 record_hex); Ok (SFixed (record_from_bytes b))
  | JXfer nullifiers => nfs ← collect nullifier_from_hex nullifiers; Ok (SXfer nfs)
  | JRedeem asset_id value raw_nf =>
    a ← parse_digest asset_id; nf ← nullifier_from_hex raw_nf; Ok (SRedeem (to_anchor a) value nf)
  end.

Definition opening_to_json (o : CoinOpening) : OpeningJson := {|
  oj_asset_id := to_hex (asset_id o); oj_value := value o; oj_owner := to_hex (owner o);
  oj_randomness := to_hex (randomness o) |}.
Definition opening_from_json (o : OpeningJson) : op CoinOpening :=
  a ← parse_digest (oj_asset_id o); w ← parse_digest (oj_owner o); r ← parse_digest (oj_randomness o);
  Ok {| asset_id := a; value := oj_value o; owner := w; randomness := r |}.

Definition genesis_to_json (g : AssetGenesis) : GenesisJson := {|
  gj_issuer_pk := to_hex (issuer_pk g); gj_currency_code := from_utf8_lossy (currency_code g);
  gj_terms_hash := to_hex (terms_hash g); gj_nonce := nonce g |}.
Definition currency_bytes (currency : rstring) : op bytes :=
  fail_if (negb (bool_decide (length (utf8 currency) = 3%nat))) "currency code is not 3 bytes";; Ok (utf8 currency).
Definition genesis_from_json (g : GenesisJson) : op AssetGenesis :=
  code ← currency_bytes (gj_currency_code g);
  pk ← parse_digest (gj_issuer_pk g);
  terms ← parse_digest (gj_terms_hash g);
  Ok {| issuer_pk := pk; currency_code := code; terms_hash := terms; nonce := gj_nonce g |}.

(** ** Lookups *)
Definition secret_for (w : MemWallet) (owner : bytes) : option bytes :=
  find_first (λ k, bool_decide (secret_owner k = owner)) (keys w).
Definition find_genesis (w : MemWallet) (asset : bytes) : option AssetGenesis :=
  find_first (λ g, bool_decide (genesis_asset_id g = asset)) (assets w).
Definition currency_of (w : MemWallet) (asset : bytes) : option rstring :=
  from_utf8_lossy ∘ currency_code <$> find_genesis w asset.

Definition find_coin (w : MemWallet) (prefix : rstring) : op StoredCoin :=
  match List.filter (λ c, starts_with (coin_id c) prefix) (w_coins w) with
  | [coin] => Ok coin
  | [] => Err (Failed "no coin with id prefix")
  | _ => Err (Failed "coin id prefix is ambiguous")
  end.
(** [find_coin_mut]: the index of the coin. *)
Definition find_coin_mut (w : MemWallet) (prefix : rstring) : op nat :=
  match List.filter (λ p, starts_with (coin_id p.2) prefix) (imap pair (w_coins w)) with
  | [(i, _)] => Ok i
  | [] => Err (Failed "no coin with id prefix")
  | _ => Err (Failed "coin id prefix is ambiguous")
  end.

Definition set_status (st : CoinStatus) (s : StoredCoin) : StoredCoin := {|
  sc_coin := sc_coin s; sc_status := st; sc_proof := sc_proof s; sc_selector := sc_selector s;
  sc_unconfirmed_anchor := sc_unconfirmed_anchor s |}.

(** Replace the first coin with the same id, or push. *)
Fixpoint put_coin (s : StoredCoin) (l : list StoredCoin) : list StoredCoin :=
  match l with
  | [] => [s]
  | c :: l => if bool_decide (coin_id c = coin_id s) then s :: l else c :: put_coin s l
  end.
Definition find_same (s : StoredCoin) (l : list StoredCoin) : option StoredCoin :=
  find_first (λ c, bool_decide (coin_id c = coin_id s)) l.

Definition pin_asset (genesis : AssetGenesis) (w : MemWallet) : MemWallet :=
  if existsb (λ g, bool_decide (genesis_asset_id g = genesis_asset_id genesis)) (assets w) then w
  else with_assets (assets w ++ [genesis]) w.

(** ** Creating, opening and saving *)
Definition wallet_empty : MemWallet :=
  {| keys := []; issuers := []; assets := []; w_coins := []; pending := ∅; next_pending := 1 |}.
Definition from_owner_seed (seed : bytes) : MemWallet := with_keys [seed] wallet_empty.
(** [create], with the drawn secret. *)
Definition wallet_create (drawn : bytes) : MemWallet := with_keys [drawn] wallet_empty.

Definition open (secrets_json : rstring) : op MemWallet :=
  secrets ← ok_or (secrets_from_str secrets_json) (Failed "secrets JSON");
  fail_if (negb (sj_version secrets =? 1)) "unsupported secrets version";;
  ks ← collect parse_digest (sj_owner_secrets secrets);
  iss ← collect (λ i, k ← parse_digest (ij_isk i); g ← genesis_from_json (ij_genesis i);
                     Ok {| isk := k; ir_genesis := g |}) (sj_issuers secrets);
  gs ← collect genesis_from_json (sj_assets secrets);
  Ok (foldl (λ w g, pin_asset g w) (with_issuers iss (with_keys ks wallet_empty)) (gs ++ (ir_genesis <$> iss))).

Definition secrets_json (w : MemWallet) : SecretsJson := {|
  sj_version := 1; sj_owner_secrets := to_hex <$> keys w;
  sj_issuers := (λ i, {| ij_isk := to_hex (isk i); ij_genesis := genesis_to_json (ir_genesis i) |}) <$> issuers w;
  sj_assets := genesis_to_json <$> assets w |}.

Definition owners (w : MemWallet) : list rstring := to_hex ∘ secret_owner <$> keys w.
Definition keygen (drawn : bytes) : prog OpStop MemWallet rstring :=
  updating (λ w, with_keys (keys w ++ [drawn]) w);; mret (to_hex (secret_owner drawn)).

Definition issuer_record (seed code terms : bytes) (n : Z) : IssuerRecord := {|
  isk := seed;
  ir_genesis := {| issuer_pk := issuer_public_key seed; currency_code := code; terms_hash := terms; nonce := n |} |}.
Definition add_issuer (r : IssuerRecord) : prog OpStop MemWallet () :=
  updating (λ w, let w := pin_asset (ir_genesis r) w in with_issuers (issuers w ++ [r]) w).

Definition init_issuer (currency : rstring) (seed : bytes) : prog OpStop MemWallet rstring :=
  code ← checked (currency_bytes currency);
  r ← reading (λ w, Ok (issuer_record seed code (zeros 32) (Z.of_nat (length (issuers w)) + 1)));
  add_issuer r;;
  mret (to_hex (genesis_asset_id (ir_genesis r))).

Definition init_issuer_from_seed (currency : rstring) (seed : bytes) (n : Z) (terms : bytes) : prog OpStop MemWallet rstring :=
  code ← checked (currency_bytes currency);
  let r := issuer_record seed code terms n in
  let id := genesis_asset_id (ir_genesis r) in
  known ← reading (λ w, Ok (existsb (λ i, bool_decide (genesis_asset_id (ir_genesis i) = id)) (issuers w)));
  (if known : bool then mret tt else add_issuer r);;
  mret (to_hex id).

(** ** Views *)
Definition coin_json (w : MemWallet) (s : StoredCoin) : CoinJson := {|
  cj_id := coin_id s; cj_asset_id := to_hex (coin_asset_id (sc_coin s));
  cj_currency := currency_of w (coin_asset_id (sc_coin s)); cj_value := coin_value (sc_coin s);
  cj_unspent := bool_decide (sc_status s = Unspent);
  cj_finality := match sc_unconfirmed_anchor s with Some _ => lit "unconfirmed" | None => lit "settled" end;
  cj_anchor_txid := sc_unconfirmed_anchor s |}.
Definition list_coins (w : MemWallet) : list CoinJson := coin_json w <$> w_coins w.

(** The amounts are added with wrap-around: release builds do not check the sum. *)
Fixpoint add_credit (id : rstring) (currency : option rstring) (v : Z) (l : list CreditJson) : list CreditJson :=
  match l with
  | [] => [{| cr_asset_id := id; cr_currency := currency; cr_amount := v |}]
  | c :: l =>
    if bool_decide (cr_asset_id c = id)
    then {| cr_asset_id := id; cr_currency := cr_currency c; cr_amount := (cr_amount c + v) mod 2 ^ 64 |} :: l
    else c :: add_credit id currency v l
  end.
Definition credit (w : MemWallet) (coin : Coin) (l : list CreditJson) : list CreditJson :=
  add_credit (to_hex (coin_asset_id coin)) (currency_of w (coin_asset_id coin)) (coin_value coin) l.
Definition balance (w : MemWallet) : list CreditJson :=
  foldl (λ out s, if bool_decide (sc_status s = Unspent) then credit w (sc_coin s) out else out) [] (w_coins w).

(** ** Selecting inputs *)
Definition reserved_ids (w : MemWallet) : list rstring := concat ((λ p, pe_spent_ids p.2) <$> map_to_list (pending w)).

Definition is_eligible (w : MemWallet) (asset : bytes) (s : StoredCoin) : bool :=
  bool_decide (sc_status s = Unspent) && bool_decide (coin_asset_id (sc_coin s) = asset) &&
  bool_decide (is_Some (secret_for w (coin_owner (sc_coin s)))) && bool_decide (coin_id s ∉ reserved_ids w).
Definition eligible_coins (w : MemWallet) (asset : bytes) : list (rstring * Z) :=
  merge_sort id_le ((λ s, (coin_id s, coin_value (sc_coin s))) <$> List.filter (is_eligible w asset) (w_coins w)).

Definition select_transfer_inputs (w : MemWallet) (asset_id_hex : rstring) (amount : Z) : op (list rstring * Z) :=
  fail_if (amount =? 0) "transfer amount must be positive";;
  asset ← parse_digest asset_id_hex;
  let eligible := eligible_coins w asset in
  let selected := foldl (consider amount) None (single_spends eligible) in
  let selected := foldl (consider amount) selected (pair_spends eligible) in
  c ← ok_or selected (Failed "no unreserved one- or two-coin spend covers the amount");
  Ok (cd_ids c, cd_total c).

Definition selected_transfer_nullifiers (w : MemWallet) (asset_id_hex : rstring) (amount : Z) : op (list bytes) :=
  '(coin_ids, _) ← select_transfer_inputs w asset_id_hex amount;
  collect (λ id, stored ← find_coin w id;
                 osk ← ok_or (secret_for w (coin_owner (sc_coin stored))) (Failed "no secret for owner of coin");
                 Ok (coin_nullifier (sc_coin stored) osk)) coin_ids.

(** ** Planning and proving *)
Definition wallet_coin (asset : bytes) (v : Z) (owner drawn : bytes) : Coin :=
  {| coin_asset_id := asset; coin_value := v; coin_owner := owner; coin_randomness := drawn |}.
Definition outputs_with_change (asset to change_owner : bytes) (amounts : list Z) (drawn : bytes * bytes) : op (Coin * Coin) :=
  match amounts with
  | [v] => Ok (wallet_coin asset v to drawn.1, wallet_coin asset 0 change_owner drawn.2)
  | [v1; v2] => Ok (wallet_coin asset v1 to drawn.1, wallet_coin asset v2 change_owner drawn.2)
  | _ => Err (Failed "expected 1-2 amounts")
  end.
Definition outputs_to_one_owner (asset owner : bytes) (amounts : list Z) (drawn : bytes * bytes) : op (Coin * Coin) :=
  outputs_with_change asset owner owner amounts drawn.
Definition opening_of (c : Coin) : CoinOpening := {|
  asset_id := coin_asset_id c; value := coin_value c; owner := coin_owner c; randomness := coin_randomness c |}.
Definition openings_of (coins : Coin * Coin) : list CoinOpening := [opening_of coins.1; opening_of coins.2].

Definition push_pending (p : Pending) (record : AnchorRecord) (ctx : bytes) : prog OpStop MemWallet Proved :=
  pending_id ← reading (λ w, Ok (next_pending w));
  updating (λ w, with_pending (<[pending_id := p]> (pending w)) (with_next ((pending_id + 1) mod 2 ^ 64) w));;
  mret {| pv_pending_id := pending_id; pv_anchor_record := record_to_bytes record; pv_ctx := ctx;
          pv_spends := pe_spent_ids p; pv_dependencies := pe_unconfirmed_dependencies p |}.

(** What a call has planned when it pushes: the pending transaction, its record and context. *)
Definition plan_mint (w : MemWallet) (asset_id_hex to_owner_hex : rstring) (amounts : list Z)
    (drawn : bytes * bytes) (mint_nonce ctx : bytes) : op (Pending * AnchorRecord * bytes) :=
  asset ← parse_digest asset_id_hex;
  to ← parse_digest to_owner_hex;
  issuer ← ok_or (find_first (λ i, bool_decide (genesis_asset_id (ir_genesis i) = asset)) (issuers w))
             (Failed "this wallet does not issue the asset");
  outputs ← outputs_to_one_owner asset to amounts drawn;
  total ← checked_total amounts;
  proof ← of_node (prove_genesis_mint (ir_genesis issuer) (isk issuer) mint_nonce outputs);
  encoded ← ok_or (encode_coin_proof proof) Crashed;
  let record := Mint (to_anchor asset) total (to_anchor (mint_commit asset total mint_nonce)) in
  Ok ({| pe_shape := SFixed record; pe_openings := openings_of outputs; pe_nullifiers := []; pe_proof := encoded;
         pe_aux := Some (ir_genesis issuer); pe_spent_ids := []; pe_unconfirmed_dependencies := [] |}, record, ctx).
Definition prove_mint asset_id_hex to_owner_hex amounts drawn mint_nonce ctx : prog OpStop MemWallet Proved :=
  '(p, record, ctx) ← reading (λ w, plan_mint w asset_id_hex to_owner_hex amounts drawn mint_nonce ctx);
  push_pending p record ctx.

Definition owned_input (w : MemWallet) (s : StoredCoin) : op (Coin * bytes) :=
  fail_if (bool_decide (sc_status s = Spent)) "coin is already spent";;
  osk ← ok_or (secret_for w (coin_owner (sc_coin s))) (Failed "no secret for owner of coin");
  Ok (sc_coin s, osk).
Definition stored_proof (s : StoredCoin) : op (CoinProof Stark) :=
  ok_or (decode_coin_proof (sc_proof s)) (Failed "stored proof for coin does not decode").

(** The dispatch on the number of inputs; other numbers were refused before. *)
Definition prove_inputs (asset : bytes) (inputs : list (Coin * bytes)) (outputs : Coin * Coin)
    (predecessors : list (CoinProof Stark)) (selectors : list nat) : op (CoinProof Stark) :=
  match inputs, predecessors, selectors with
  | [i], [p], [k] => of_node (prove_one_input_transfer asset i outputs p k)
  | [i0; i1], [p0; p1], [k0; k1] => of_node (Pcd.prove_transfer asset (i0, i1) outputs (p0, p1) (k0, k1))
  | _, _, _ => Err Crashed
  end.

Definition plan_transfer (w : MemWallet) (coin_ids : list rstring) (to_owner_hex : rstring) (amounts : list Z)
    (drawn : bytes * bytes) (draws : list bytes) : op (Pending * AnchorRecord * bytes) :=
  fail_if (negb ((1 <=? length coin_ids)%nat && (length coin_ids <=? NODE_INPUTS)%nat)) "expected 1-2 input coin ids";;
  fail_if (negb (distinct coin_ids)) "duplicate transfer input coin id";;
  to ← parse_digest to_owner_hex;
  stored ← collect (find_coin w) coin_ids;
  inputs ← collect (owned_input w) stored;
  asset ← ok_or (coin_asset_id ∘ fst <$> head inputs) Crashed;
  fail_if (existsb (λ i, negb (bool_decide (coin_asset_id i.1 = asset))) inputs) "input coins are not all of the same asset";;
  input_total ← checked_total ((λ i, coin_value i.1) <$> inputs);
  output_total ← checked_total amounts;
  fail_if (negb (output_total =? input_total)) "conservation";;
  change_key ← ok_or (head (keys w)) (Failed "wallet has no owner key for change");
  outputs ← outputs_with_change asset to (secret_owner change_key) amounts drawn;
  predecessors ← collect stored_proof stored;
  proof ← prove_inputs asset inputs outputs predecessors (sc_selector <$> stored);
  let nullifiers := List.filter (λ nf, negb (bool_decide (nf = zero)))
                      [(st_nullifiers (statement proof)).1; (st_nullifiers (statement proof)).2] in
  fail_if (bool_decide (nullifiers = [])) "transfer statement has no nullifiers";;
  '(record, ctx) ← fresh_xfer_record nullifiers draws;
  encoded ← ok_or (encode_coin_proof proof) Crashed;
  Ok ({| pe_shape := SXfer nullifiers; pe_openings := openings_of outputs; pe_nullifiers := nullifiers; pe_proof := encoded;
         pe_aux := find_genesis w asset; pe_spent_ids := coin_id <$> stored;
         pe_unconfirmed_dependencies := sort_dedup (omap sc_unconfirmed_anchor stored) |}, record, ctx).
Definition prove_transfer coin_ids to_owner_hex amounts drawn draws : prog OpStop MemWallet Proved :=
  '(p, record, ctx) ← reading (λ w, plan_transfer w coin_ids to_owner_hex amounts drawn draws);
  push_pending p record ctx.

Definition prove_transfer_amount asset_id_hex to_owner_hex amount drawn draws : prog OpStop MemWallet Proved :=
  '(coin_ids, input_total) ← reading (λ w, select_transfer_inputs w asset_id_hex amount);
  let amounts := if input_total =? amount then [amount] else [amount; input_total - amount] in
  prove_transfer coin_ids to_owner_hex amounts drawn draws.

Definition plan_redeem (w : MemWallet) (coin_prefix : rstring) (ctx : bytes) : op (Pending * AnchorRecord * bytes) :=
  stored ← find_coin w coin_prefix;
  input ← owned_input w stored;
  let coin := sc_coin stored in
  predecessor ← stored_proof stored;
  proof ← of_node (Pcd.prove_redeem (coin_asset_id coin) input predecessor (sc_selector stored));
  encoded ← ok_or (encode_coin_proof proof) Crashed;
  let raw_nf := (st_nullifiers (statement proof)).1 in
  Ok ({| pe_shape := SRedeem (to_anchor (coin_asset_id coin)) (coin_value coin) raw_nf; pe_openings := [];
         pe_nullifiers := [raw_nf]; pe_proof := encoded; pe_aux := None; pe_spent_ids := [coin_id stored];
         pe_unconfirmed_dependencies := option_list (sc_unconfirmed_anchor stored) |},
      redeem (to_anchor (coin_asset_id coin)) (coin_value coin) raw_nf ctx, ctx).
Definition prove_redeem coin_prefix ctx : prog OpStop MemWallet Proved :=
  '(p, record, ctx) ← reading (λ w, plan_redeem w coin_prefix ctx);
  push_pending p record ctx.

(** ** Pending transactions *)
Definition get_pending (w : MemWallet) (pending_id : Z) : op Pending :=
  ok_or (pending w !! pending_id) (Failed "unknown pending transaction").

Definition rebind_pending (w : MemWallet) (pending_id : Z) (ctx : bytes) : op bytes :=
  p ← get_pending w pending_id;
  record ← build_shape (pe_shape p) ctx;
  fail_if (negb (record_parses_cleanly record)) "this context would make the record misparse; reserve another and retry";;
  Ok (record_to_bytes record).

Definition rebind_pending_batch_payload (w : MemWallet) (pending_id : Z) (ctx : bytes) : op bytes :=
  p ← get_pending w pending_id;
  match pe_shape p with
  | SXfer nullifiers =>
    fail_if (negb (bool_decide (length nullifiers = 1%nat))) "batching-v2 requires exactly one payload per participant";;
    record ← build_shape (pe_shape p) ctx;
    fail_if (negb (record_parses_cleanly record)) "this batch context would make the payload misparse; reserve another stock";;
    match record with
    | Xfer payload second =>
      fail_if (negb (bool_decide (second = zeros 24))) "batching-v2 transfer did not produce one canonical payload";; Ok payload
    | _ => Err (Failed "batching-v2 transfer did not produce one canonical payload")
    end
  | _ => Err (Failed "batching-v2 currently accepts transfer operations only")
  end.

(** [iter_mut().find(|c| c.id() == *id)] *)
Fixpoint mark_id (id : rstring) (l : list StoredCoin) : list StoredCoin :=
  match l with
  | [] => []
  | c :: l => if bool_decide (coin_id c = id) then set_status Spent c :: l else c :: mark_id id l
  end.

Definition local_outputs (w : MemWallet) (c : Consignment) : list StoredCoin :=
  let unconfirmed := if bool_decide (ref_location (anchor_ref c) = MEMPOOL_LOCATION)
                     then Some (to_hex (txid (anchor_ref c))) else None in
  omap (λ p, let coin := to_coin p.2 in
             match secret_for w (coin_owner coin) with
             | None => None
             | Some _ => Some {| sc_coin := coin; sc_status := Unspent; sc_proof := Accept.proof c; sc_selector := p.1;
                                 sc_unconfirmed_anchor := unconfirmed |}
             end) (imap pair (coin_openings c)).

(** A replay keeps the status, and a settled coin stays settled. *)
Definition merge_replayed (existing stored : StoredCoin) : StoredCoin := {|
  sc_coin := sc_coin stored; sc_status := sc_status existing; sc_proof := sc_proof stored; sc_selector := sc_selector stored;
  sc_unconfirmed_anchor := match sc_unconfirmed_anchor existing with None => None | Some _ => sc_unconfirmed_anchor stored end |}.
Definition store_replayed (stored : StoredCoin) (l : list StoredCoin) : list StoredCoin :=
  match find_same stored l with
  | Some existing => put_coin (merge_replayed existing stored) l
  | None => put_coin stored l
  end.
Definition credit_local_outputs (c : Consignment) (w : MemWallet) : MemWallet :=
  with_coins (foldl (λ l s, store_replayed s l) (w_coins w) (local_outputs w c)) w.

Definition consignment_of (p : Pending) (r : AnchorRef) : Consignment := {|
  coin_openings := pe_openings p; nullifiers := pe_nullifiers p; Accept.proof := pe_proof p; anchor_ref := r; aux := pe_aux p |}.

Definition finalize (pending_id : Z) (r : AnchorRef) : prog OpStop MemWallet (bytes * list rstring) :=
  p ← reading (λ w, get_pending w pending_id);
  updating (λ w, with_pending (delete pending_id (pending w)) w);;
  let c := consignment_of p r in
  updating (λ w, with_coins (foldl (λ l id, mark_id id l) (w_coins w) (pe_spent_ids p)) w);;
  updating (credit_local_outputs c);;
  mret (consignment_to_bytes c, pe_spent_ids p).

Definition export_value (p : Pending) : PendingExport := {|
  px_version := 1; px_shape := shape_to_json (pe_shape p); px_openings := opening_to_json <$> pe_openings p;
  px_nullifiers := to_hex <$> pe_nullifiers p; px_proof_base64 := base64_encode (pe_proof p);
  px_aux := genesis_to_json <$> pe_aux p; px_spent_ids := pe_spent_ids p;
  px_unconfirmed_dependencies := pe_unconfirmed_dependencies p |}.
Definition export_pending (w : MemWallet) (pending_id : Z) : op rstring :=
  p ← get_pending w pending_id; Ok (pending_to_string (export_value p)).

Definition import_value (e : PendingExport) : op Pending :=
  shape ← shape_from_json (px_shape e);
  openings ← collect opening_from_json (px_openings e);
  nfs ← collect nullifier_from_hex (px_nullifiers e);
  proof ← ok_or (base64_decode (px_proof_base64 e)) (Failed "proof base64");
  genesis ← match px_aux e with None => Ok None | Some g => x ← genesis_from_json g; Ok (Some x) end;
  Ok {| pe_shape := shape; pe_openings := openings; pe_nullifiers := nfs; pe_proof := proof; pe_aux := genesis;
        pe_spent_ids := px_spent_ids e; pe_unconfirmed_dependencies := px_unconfirmed_dependencies e |}.
Definition import_pending (pending_json : rstring) : prog OpStop MemWallet Z :=
  e ← checked (ok_or (pending_from_str pending_json) (Failed "pending export JSON"));
  checked (fail_if (negb (px_version e =? 1)) "unsupported pending export version");;
  p ← checked (import_value e);
  pending_id ← reading (λ w, Ok (next_pending w));
  updating (λ w, with_pending (<[pending_id := p]> (pending w)) (with_next ((pending_id + 1) mod 2 ^ 64) w));;
  mret pending_id.

Definition cancel_pending (pending_id : Z) : prog OpStop MemWallet bool :=
  known ← reading (λ w, Ok (bool_decide (is_Some (pending w !! pending_id))));
  updating (λ w, with_pending (delete pending_id (pending w)) w);;
  mret (known : bool).

Definition known_asset_ids (w : MemWallet) : list bytes := genesis_asset_id <$> assets w.

Definition pending_unconfirmed_dependencies (w : MemWallet) (pending_id : Z) : op (list rstring) :=
  pe_unconfirmed_dependencies <$> get_pending w pending_id.
Definition pending_spends (w : MemWallet) (pending_id : Z) : op (list rstring) := pe_spent_ids <$> get_pending w pending_id.
Definition pending_nullifiers (w : MemWallet) (pending_id : Z) : op (list bytes) := pe_nullifiers <$> get_pending w pending_id.
Definition pending_spend_conflicts (w : MemWallet) (pending_id : Z) : op bool :=
  p ← get_pending w pending_id;
  Ok (existsb (λ q, negb (bool_decide (q.1 = pending_id)) && existsb (λ id, bool_decide (id ∈ pe_spent_ids p)) (pe_spent_ids q.2))
        (map_to_list (pending w))).
Definition pending_spends_available (w : MemWallet) (pending_id : Z) : op bool :=
  p ← get_pending w pending_id;
  Ok (forallb (λ id, match find_first (λ c, bool_decide (coin_id c = id)) (w_coins w) with
                     | Some c => bool_decide (sc_status c = Unspent)
                     | None => false
                     end) (pe_spent_ids p)).

(** ** Receiving *)
#[local] Instance coin_proof_verifier : ProofVerifier := CoinProofVerifier.

Definition merge_received (unconfirmed : option rstring) (existing stored : StoredCoin) : StoredCoin := {|
  sc_coin := sc_coin stored;
  sc_status := match unconfirmed, sc_status existing with None, Frozen => Unspent | _, st => st end;
  sc_proof := sc_proof stored; sc_selector := sc_selector stored;
  sc_unconfirmed_anchor := match sc_unconfirmed_anchor existing with None => None | Some _ => sc_unconfirmed_anchor stored end |}.
Definition received_coin (unconfirmed : option rstring) (stored : StoredCoin) (l : list StoredCoin) : StoredCoin :=
  match find_same stored l with Some existing => merge_received unconfirmed existing stored | None => stored end.

Fixpoint receive_coins (c : Consignment) (unconfirmed : option rstring) (received : list Coin) (credits : list CreditJson)
    (views : list CoinJson) : prog OpStop MemWallet (list CreditJson * list CoinJson) :=
  match received with
  | [] => mret (credits, views)
  | coin :: received =>
    selector ← checked (ok_or (position (λ o, bool_decide (to_coin o = coin)) (coin_openings c))
                          (Failed "accepted coin not among the openings"));
    let stored := {| sc_coin := coin; sc_status := Unspent; sc_proof := Accept.proof c; sc_selector := selector;
                     sc_unconfirmed_anchor := unconfirmed |} in
    stored ← reading (λ w, Ok (received_coin unconfirmed stored (w_coins w)));
    view ← reading (λ w, Ok (coin_json w stored));
    updating (λ w, with_coins (put_coin stored (w_coins w)) w);;
    credits ← reading (λ w, Ok (credit w coin credits));
    receive_coins c unconfirmed received credits (views ++ [view])
  end.

(** The inner result is the rejection of the driver. *)
Definition verify_with_provenance (blob : bytes) (chain : SnapshotChain) (required : Z) (unconfirmed : option rstring)
    : prog OpStop MemWallet (result CoreReject Verified) :=
  c ← checked (ok_or (consignment_from_bytes blob) (Failed "consignment"));
  verdict ← reading (λ w, Ok (accept c (snapshot_chain chain) {|
    ap_vk := COIN_VK_TAG; ap_required_confirmations := required; recipient_secrets := keys w;
    ap_known_assets := known_asset_ids w |}));
  match verdict with
  | Err reason => mret (Err reason)
  | Ok accepted =>
    updating (match aux c with Some genesis => pin_asset genesis | None => λ w, w end);;
    '(credits, views) ← receive_coins c unconfirmed (coins accepted) [] [];
    mret (Ok {| vf_credits := credits; vf_coins := views; vf_height := height (accepted_anchor accepted);
                vf_position := loc_position (accepted_anchor accepted) |})
  end.
Definition verify blob chain required := verify_with_provenance blob chain required None.
Definition verify_unconfirmed blob chain anchor_txid := verify_with_provenance blob chain 0 (Some anchor_txid).

(** ** Reconciliation *)
Definition set_spent_at (i : nat) (w : MemWallet) : MemWallet := with_coins (alter (set_status Spent) i (w_coins w)) w.
Fixpoint mark_spent (coin_ids : list rstring) : prog OpStop MemWallet () :=
  match coin_ids with
  | [] => mret tt
  | id :: coin_ids => i ← reading (λ w, find_coin_mut w id); updating (set_spent_at i);; mark_spent coin_ids
  end.
Definition confirmed_ids (w : MemWallet) (confirmed : list bytes) : list rstring :=
  omap (λ s, if bool_decide (sc_status s = Unspent) then
               osk ← secret_for w (coin_owner (sc_coin s));
               if bool_decide (coin_nullifier (sc_coin s) osk ∈ confirmed) then Some (coin_id s) else None
             else None) (w_coins w).
Definition mark_confirmed_spent_nullifiers (confirmed : list bytes) : prog OpStop MemWallet (list rstring) :=
  spent_ids ← reading (λ w, Ok (confirmed_ids w confirmed));
  mark_spent spent_ids;;
  mret spent_ids.
Definition freeze_unconfirmed_anchor (anchor_txid : rstring) (w : MemWallet) : MemWallet :=
  with_coins ((λ s, if bool_decide (sc_status s = Unspent) && bool_decide (sc_unconfirmed_anchor s = Some anchor_txid)
                    then set_status Frozen s else s) <$> w_coins w) w.

(** [audit] *)
Definition wallet_audit (asset_id_hex : rstring) (chain : SnapshotChain) : op (result SupplyError Z) :=
  asset ← parse_digest asset_id_hex; Ok (chain_supply (snapshot_chain chain) asset (sc_tip_height chain)).
End wallet.
