(* ===== verification/WalletFacts.v ===== *)
(** * Coins of the wallet over time (ffi)

    What every operation of [Wallet.v] does to the stored coins: ids stay unique, a coin
    is never dropped, a spent coin stays spent and is never planned again, a settled coin
    stays settled - over every sequence of calls. *)

From S2P Require Import Prelude Text Field Commitments Kernel Anchor Batch Chain Accept NodeChain AccountText Circuit Pcd PcdAccept Snapshot Wallet.
#[local] Open Scope Z_scope.

Section coins.
Context `{Poseidon}.

Definition ids (l : list StoredCoin) : list rstring := coin_id <$> l.
Definition coin_at (l : list StoredCoin) (id : rstring) : option StoredCoin := find_first (λ c, bool_decide (coin_id c = id)) l.

Lemma coin_at_id l id c : coin_at l id = Some c → c ∈ l ∧ coin_id c = id.
Proof. intros [? ?%bool_decide_eq_true]%find_first_Some. done. Qed.

Lemma coin_at_None l id : coin_at l id = None ↔ id ∉ ids l.
Proof.
  unfold coin_at, ids. rewrite find_first_None, Forall_forall, list_elem_of_fmap. setoid_rewrite bool_decide_eq_false. naive_solver.
Qed.

Lemma find_same_at s l : find_same s l = coin_at l (coin_id s).
Proof. reflexivity. Qed.

Lemma coin_at_unique l c : NoDup (ids l) → c ∈ l → coin_at l (coin_id c) = Some c.
Proof.
  unfold ids, coin_at. induction l as [|x l IH]; [by intros _ ?%elem_of_nil|]. rewrite fmap_cons, NoDup_cons. intros [Hx Hn] Hin.
  cbn [find_first]. case_bool_decide as E.
  - apply elem_of_cons in Hin as [->|Hin]; [done|]. destruct Hx. rewrite E. by apply list_elem_of_fmap_2.
  - apply elem_of_cons in Hin as [->|Hin]; [done|]. by apply IH.
Qed.

(** ** The updates *)
Lemma coin_at_put s l id : coin_at (put_coin s l) id = if bool_decide (coin_id s = id) then Some s else coin_at l id.
Proof.
  unfold coin_at. induction l as [|c l IH]; cbn [put_coin find_first]; [done|].
  destruct (decide (coin_id c = coin_id s)) as [E|E].
  - rewrite (bool_decide_eq_true_2 _ E). cbn [find_first]. rewrite E. by destruct (bool_decide _).
  - rewrite (bool_decide_eq_false_2 _ E). cbn [find_first]. rewrite IH. repeat case_bool_decide; congruence.
Qed.

Lemma ids_put s l : ids (put_coin s l) = if bool_decide (coin_id s ∈ ids l) then ids l else ids l ++ [coin_id s].
Proof.
  unfold ids. induction l as [|c l IH]; [done|]. cbn [put_coin]. destruct (decide (coin_id c = coin_id s)) as [E|E].
  - rewrite (bool_decide_eq_true_2 _ E), !fmap_cons, E. by rewrite bool_decide_eq_true_2 by apply list_elem_of_here.
  - rewrite (bool_decide_eq_false_2 _ E), !fmap_cons, IH. repeat case_bool_decide; [done|set_solver..|done].
Qed.

Lemma NoDup_put s l : NoDup (ids l) → NoDup (ids (put_coin s l)).
Proof. intros Hn. rewrite ids_put. case_bool_decide; [done|]. apply NoDup_app. split_and!; [done|set_solver|apply NoDup_singleton]. Qed.

Lemma set_status_id st s : coin_id (set_status st s) = coin_id s.
Proof. reflexivity. Qed.

(** An update of single coins that keeps their ids. *)
Lemma coin_at_map (f : StoredCoin → StoredCoin) l id : (∀ c, coin_id (f c) = coin_id c) → coin_at (f <$> l) id = f <$> coin_at l id.
Proof.
  intros Hf. unfold coin_at. induction l as [|c l IH]; [done|]. rewrite fmap_cons. cbn [find_first]. rewrite Hf. by case_bool_decide.
Qed.

Lemma mark_id_ids id l : ids (mark_id id l) = ids l.
Proof. unfold ids. induction l as [|c l IH]; [done|]. cbn [mark_id]. case_bool_decide; rewrite !fmap_cons; [done|by rewrite IH]. Qed.

Lemma coin_at_mark id l id' : coin_at (mark_id id l) id' = if bool_decide (id = id') then set_status Spent <$> coin_at l id' else coin_at l id'.
Proof.
  unfold coin_at. induction l as [|c l IH]; cbn [mark_id find_first]; [by case_bool_decide|].
  destruct (decide (coin_id c = id)) as [E|E].
  - rewrite (bool_decide_eq_true_2 _ E). cbn [find_first]. rewrite set_status_id, E. by case_bool_decide.
  - rewrite (bool_decide_eq_false_2 _ E). cbn [find_first]. rewrite IH. repeat case_bool_decide; congruence.
Qed.

Lemma alter_ids i l : ids (alter (set_status Spent) i l) = ids l.
Proof. unfold ids. revert i. induction l as [|c l IH]; intros [|i]; try done. cbn. f_equal. apply IH. Qed.

Lemma coin_at_alter i l id c : coin_at l id = Some c →
  coin_at (alter (set_status Spent) i l) id = Some c ∨ coin_at (alter (set_status Spent) i l) id = Some (set_status Spent c).
Proof.
  unfold coin_at. revert i. induction l as [|x l IH]; intros i E; [done|]. cbn [find_first] in E.
  destruct i as [|i]; cbn [alter list_alter find_first]; rewrite ?set_status_id.
  - case_bool_decide; [injection E as ->; by right|by left].
  - case_bool_decide; [injection E as ->; by left|by apply IH].
Qed.

(** ** How coins evolve *)
Definition evolves (l l' : list StoredCoin) : Prop :=
  (NoDup (ids l) → NoDup (ids l')) ∧
  ∀ id c, coin_at l id = Some c → ∃ c', coin_at l' id = Some c' ∧
    (sc_status c = Spent → sc_status c' = Spent) ∧ (sc_unconfirmed_anchor c = None → sc_unconfirmed_anchor c' = None).

#[export] Instance evolves_preorder : PreOrder evolves.
Proof.
  split; [intros l; split; [done|]; intros id c E; by exists c|].
  intros l1 l2 l3 [N1 E1] [N2 E2]. split; [auto|]. intros id c E.
  destruct (E1 id c E) as (c' & E' & S1 & U1). destruct (E2 id c' E') as (c'' & E'' & S2 & U2). exists c''. split_and!; auto.
Qed.

Lemma evolves_mark id l : evolves l (mark_id id l).
Proof.
  split; [by rewrite mark_id_ids|]. intros id' c E. rewrite coin_at_mark. case_bool_decide; [|by exists c].
  rewrite E. by exists (set_status Spent c).
Qed.

Lemma evolves_marks xs : ∀ l, evolves l (foldl (λ l id, mark_id id l) l xs).
Proof. induction xs as [|x xs IH]; intros l; cbn; [reflexivity|]. etrans; [apply evolves_mark|apply IH]. Qed.

Lemma evolves_alter i l : evolves l (alter (set_status Spent) i l).
Proof.
  split; [by rewrite alter_ids|]. intros id c E. destruct (coin_at_alter i l id c E) as [-> | ->]; [by exists c|].
  by exists (set_status Spent c).
Qed.

(** Storing a coin merged with the one it replaces. *)
Lemma evolves_put s l : (∀ c, coin_at l (coin_id s) = Some c →
    (sc_status c = Spent → sc_status s = Spent) ∧ (sc_unconfirmed_anchor c = None → sc_unconfirmed_anchor s = None)) →
  evolves l (put_coin s l).
Proof.
  intros Hs. split; [apply NoDup_put|]. intros id c E. rewrite coin_at_put. case_bool_decide as Ei; [|by exists c].
  subst id. exists s. split; [done|]. by apply Hs.
Qed.

Lemma merge_replayed_id c s : coin_id (merge_replayed c s) = coin_id s.
Proof. reflexivity. Qed.
Lemma received_coin_id u s l : coin_id (received_coin u s l) = coin_id s.
Proof. unfold received_coin. by destruct (find_same s l). Qed.

Lemma evolves_store s l : evolves l (store_replayed s l).
Proof.
  unfold store_replayed. rewrite find_same_at. destruct (coin_at l (coin_id s)) as [c|] eqn:E.
  - apply evolves_put. rewrite merge_replayed_id. intros c' E'. rewrite E in E'. injection E' as <-. cbn.
    split; [done|]. by intros ->.
  - apply evolves_put. intros c' E'. congruence.
Qed.

Lemma evolves_stores xs : ∀ l, evolves l (foldl (λ l s, store_replayed s l) l xs).
Proof. induction xs as [|x xs IH]; intros l; cbn; [reflexivity|]. etrans; [apply evolves_store|apply IH]. Qed.

Lemma evolves_received u s l : evolves l (put_coin (received_coin u s l) l).
Proof.
  apply evolves_put. rewrite received_coin_id. intros c E. unfold received_coin. rewrite find_same_at, E. cbn. split.
  - intros ->. by destruct u.
  - by intros ->.
Qed.

Lemma evolves_freeze a l : evolves l ((λ s, if bool_decide (sc_status s = Unspent) && bool_decide (sc_unconfirmed_anchor s = Some a)
                                            then set_status Frozen s else s) <$> l).
Proof.
  set (f := λ s, _). assert (∀ c, coin_id (f c) = coin_id c) as Hf by (intros c; unfold f; by destruct (_ && _)). split.
  - unfold ids. rewrite <- list_fmap_compose. intros Hn. erewrite list_fmap_ext; [exact Hn|]. intros i c _. apply Hf.
  - intros id c E. exists (f c). rewrite coin_at_map, E by done. split; [done|]. unfold f.
    destruct (bool_decide (sc_status c = Unspent)) eqn:Eu; cbn; [|done]. apply bool_decide_eq_true in Eu.
    split; [congruence|]. by destruct (bool_decide (sc_unconfirmed_anchor c = Some a)).
Qed.
End coins.

(** ** Every call *)
Section calls.
Context `{Poseidon, Permutation} {Stark : Type} `{StarkSystem Stark, ProofCodec Stark, ConsignmentCodec, WalletJson}.

(** The calls that change the wallet, whatever they return. *)
Inductive wallet_step : MemWallet → MemWallet → Prop :=
  | step_keygen w drawn : wallet_step w (keygen drawn w).2
  | step_init_issuer w currency seed : wallet_step w (init_issuer currency seed w).2
  | step_init_from_seed w currency seed n terms : wallet_step w (init_issuer_from_seed currency seed n terms w).2
  | step_mint w a to amounts drawn nonce ctx : wallet_step w (prove_mint a to amounts drawn nonce ctx w).2
  | step_transfer w coin_ids to amounts drawn draws : wallet_step w (prove_transfer coin_ids to amounts drawn draws w).2
  | step_transfer_amount w a to amount drawn draws : wallet_step w (prove_transfer_amount a to amount drawn draws w).2
  | step_redeem w prefix ctx : wallet_step w (prove_redeem prefix ctx w).2
  | step_finalize w pending_id r : wallet_step w (finalize pending_id r w).2
  | step_import w json : wallet_step w (import_pending json w).2
  | step_cancel w pending_id : wallet_step w (cancel_pending pending_id w).2
  | step_verify w blob chain required unconfirmed : wallet_step w (verify_with_provenance blob chain required unconfirmed w).2
  | step_mark_spent w coin_ids : wallet_step w (mark_spent coin_ids w).2
  | step_mark_confirmed w confirmed : wallet_step w (mark_confirmed_spent_nullifiers confirmed w).2
  | step_freeze w anchor_txid : wallet_step w (freeze_unconfirmed_anchor anchor_txid w).

Definition coins_evolve (w w' : MemWallet) : Prop := evolves (w_coins w) (w_coins w').
#[export] Instance coins_evolve_preorder : PreOrder coins_evolve.
Proof.
  split; [intros w; unfold coins_evolve; reflexivity|]. intros w1 w2 w3. unfold coins_evolve. apply transitivity.
Qed.

Lemma evolve_same w w' : w_coins w' = w_coins w → coins_evolve w w'.
Proof. unfold coins_evolve. by intros ->. Qed.

Lemma pin_asset_coins g w : w_coins (pin_asset g w) = w_coins w.
Proof. unfold pin_asset. by destruct (existsb _ _). Qed.

Lemma always_same (f : MemWallet → MemWallet) : (∀ w, w_coins (f w) = w_coins w) →
  always coins_evolve (updating f : prog OpStop MemWallet ()).
Proof. intros Hf. apply (always_updating _). intros w. by apply evolve_same. Qed.

Lemma push_evolves p record ctx : always coins_evolve (push_pending p record ctx).
Proof. unfold push_pending. always_steps. by apply always_same. Qed.

Lemma add_issuer_evolves r : always coins_evolve (add_issuer r).
Proof. apply always_same. intros w. apply pin_asset_coins. Qed.

Lemma receive_evolves c u received : ∀ credits views, always coins_evolve (receive_coins c u received credits views).
Proof.
  induction received as [|coin received IH]; intros credits views; [apply (always_ret _)|]. cbn [receive_coins].
  apply (always_bind _); [apply (always_checked _)|]. intros selector w r w'.
  set (s0 := {| sc_coin := coin; sc_status := Unspent; sc_proof := Accept.proof c; sc_selector := selector; sc_unconfirmed_anchor := u |}).
  intros [(e & -> & _)|(s & [= <-] & E)]%reading_bind_inv; [reflexivity|].
  apply reading_bind_inv in E as [(e & -> & _)|(view & _ & E)]; [reflexivity|].
  apply prog_bind_inv in E as [(e & [=] & _)|(? & w1 & [= _ <-] & E)].
  apply reading_bind_inv in E as [(e & -> & _)|(credits' & _ & E)]; [exact (evolves_received u s0 (w_coins w))|].
  etrans; [|exact (IH _ _ _ _ _ E)]. exact (evolves_received u s0 (w_coins w)).
Qed.

Lemma mark_spent_evolves coin_ids : always coins_evolve (mark_spent coin_ids).
Proof.
  induction coin_ids as [|id coin_ids IH]; [apply (always_ret _)|]. cbn [mark_spent]. always_steps; [|done].
  apply (always_updating _). intros w. apply evolves_alter.
Qed.

Lemma always_snd {A} (m : prog OpStop MemWallet A) w : always coins_evolve m → coins_evolve w (m w).2.
Proof. intros Hm. destruct (m w) as [r w'] eqn:E. exact (Hm _ _ _ E). Qed.

(** No call drops a coin, revives a spent one, unsettles one or stores one twice. *)
Lemma step_evolves w w' : wallet_step w w' → coins_evolve w w'.
Proof.
  destruct 1; try apply always_snd.
  - unfold keygen. always_steps. by apply always_same.
  - unfold init_issuer. always_steps. apply add_issuer_evolves.
  - unfold init_issuer_from_seed. always_steps. case_match; always_steps. apply add_issuer_evolves.
  - unfold prove_mint. always_steps. destruct a0 as [[p record] ctx']. apply push_evolves.
  - unfold prove_transfer. always_steps. destruct a as [[p record] ctx']. apply push_evolves.
  - unfold prove_transfer_amount, prove_transfer. always_steps. destruct a0 as [coin_ids total]. always_steps.
    destruct a0 as [[p record] ctx']. apply push_evolves.
  - unfold prove_redeem. always_steps. destruct a as [[p record] ctx']. apply push_evolves.
  - unfold finalize. always_steps; [by apply always_same|apply (always_updating _); intros w0|apply (always_updating _); intros w0].
    + apply evolves_marks.
    + apply evolves_stores.
  - unfold import_pending. always_steps. by apply always_same.
  - unfold cancel_pending. always_steps. by apply always_same.
  - unfold verify_with_provenance. always_steps. case_match; always_steps.
    + apply always_same. intros w0. destruct (aux a); [apply pin_asset_coins|done].
    + apply receive_evolves.
    + destruct a3. always_steps.
  - apply mark_spent_evolves.
  - unfold mark_confirmed_spent_nullifiers. always_steps. apply mark_spent_evolves.
  - apply evolves_freeze.
Qed.

Lemma steps_evolve w w' : rtc wallet_step w w' → coins_evolve w w'.
Proof. induction 1 as [|w1 w2 w3 H12 _ IH]; [reflexivity|]. etrans; [by apply step_evolves|done]. Qed.

(** ** What a planned transfer is *)
Lemma fail_if_Ok b m u : fail_if b m = Ok u ↔ b = false.
Proof. unfold fail_if. rewrite ensure_Ok. apply negb_true_iff. Qed.

Lemma of_node_Ok {A} (r : result NodeError A) a : of_node r = Ok a ↔ r = Ok a.
Proof. destruct r; cbn; naive_solver. Qed.

Lemma find_coin_Ok w prefix s : find_coin w prefix = Ok s →
  s ∈ w_coins w ∧ ∀ c, c ∈ w_coins w → starts_with (coin_id c) prefix = true → c = s.
Proof.
  unfold find_coin. intros E. destruct (List.filter _ _) as [|x [|]] eqn:Ef; try discriminate E. injection E as ->.
  assert (∀ c, c ∈ w_coins w ∧ starts_with (coin_id c) prefix = true ↔ c = s) as Hf.
  { intros c. pose proof (filter_In (λ c, starts_with (coin_id c) prefix) c (w_coins w)) as Hi. rewrite Ef in Hi. cbn in Hi.
    rewrite list_elem_of_In. naive_solver. }
  split; [by apply Hf|]. intros c Hc Hp. apply Hf. done.
Qed.

(** The found coin is the only one with its id. *)
Lemma find_coin_at w prefix s : find_coin w prefix = Ok s → coin_at (w_coins w) (coin_id s) = Some s.
Proof.
  intros E. pose proof (find_coin_Ok _ _ _ E) as [Hin Hu].
  assert (starts_with (coin_id s) prefix = true) as Hp.
  { unfold find_coin in E. destruct (List.filter _ _) as [|x [|]] eqn:Ef; try discriminate E. injection E as ->.
    assert (In s (List.filter (λ c, starts_with (coin_id c) prefix) (w_coins w))) as Hs by (rewrite Ef; by left).
    by apply filter_In in Hs as [_ ?]. }
  destruct (coin_at (w_coins w) (coin_id s)) as [c|] eqn:Ec.
  - apply coin_at_id in Ec as [Hc Ei]. f_equal. apply Hu; [done|by rewrite Ei].
  - apply coin_at_None in Ec. destruct Ec. by apply list_elem_of_fmap_2.
Qed.

Lemma owned_input_Ok w s i : owned_input w s = Ok i →
  i.1 = sc_coin s ∧ sc_status s ≠ Spent ∧ secret_for w (coin_owner (sc_coin s)) = Some i.2.
Proof.
  unfold owned_input. intros (? & Hs%fail_if_Ok & (osk & Ho%ok_or_Ok & [= <-])%bind_Ok)%bind_Ok.
  apply bool_decide_eq_false in Hs. done.
Qed.

Definition live_nullifiers (p : CoinProof Stark) : list bytes :=
  List.filter (λ nf, negb (bool_decide (nf = zero))) [(st_nullifiers (statement p)).1; (st_nullifiers (statement p)).2].

Record transfer_plan (w : MemWallet) (coin_ids : list rstring) (to : bytes) (amounts : list Z) (drawn : bytes * bytes)
    (stored : list StoredCoin) (inputs : list (Coin * bytes)) (asset : bytes) (total : Z) (outputs : Coin * Coin)
    (predecessors : list (CoinProof Stark)) (proof : CoinProof Stark) : Prop := {
  tp_arity : (1 ≤ length coin_ids ≤ 2)%nat;
  tp_distinct : NoDup coin_ids;
  tp_stored : Forall2 (λ id s, find_coin w id = Ok s) coin_ids stored;
  tp_inputs : Forall2 (λ s i, owned_input w s = Ok i) stored inputs;
  tp_asset : Forall (λ i, coin_asset_id i.1 = asset) inputs;
  tp_in : checked_total ((λ i, coin_value i.1) <$> inputs) = Ok total;
  tp_out : checked_total amounts = Ok total;
  tp_outputs : ∃ key, head (keys w) = Some key ∧ outputs_with_change asset to (secret_owner key) amounts drawn = Ok outputs;
  tp_predecessors : Forall2 (λ s p, stored_proof s = Ok p) stored predecessors;
  tp_proof : prove_inputs asset inputs outputs predecessors (sc_selector <$> stored) = Ok proof }.

Lemma plan_transfer_Ok w coin_ids to_hex amounts drawn draws p record ctx :
  plan_transfer w coin_ids to_hex amounts drawn draws = Ok (p, record, ctx) →
  ∃ to stored inputs asset total outputs predecessors proof encoded,
    parse_digest to_hex = Ok to ∧
    transfer_plan w coin_ids to amounts drawn stored inputs asset total outputs predecessors proof ∧
    live_nullifiers proof ≠ [] ∧ fresh_xfer_record (live_nullifiers proof) draws = Ok (record, ctx) ∧
    encode_coin_proof proof = Some encoded ∧
    p = {| pe_shape := SXfer (live_nullifiers proof); pe_openings := openings_of outputs; pe_nullifiers := live_nullifiers proof;
           pe_proof := encoded; pe_aux := find_genesis w asset; pe_spent_ids := coin_id <$> stored;
           pe_unconfirmed_dependencies := sort_dedup (omap sc_unconfirmed_anchor stored) |}.
Proof.
  unfold plan_transfer. intros (? & Ha%fail_if_Ok & E)%bind_Ok. apply bind_Ok in E as (? & Hd%fail_if_Ok & E).
  apply bind_Ok in E as (to & Hto & E). apply bind_Ok in E as (stored & Hst%collect_Forall2 & E).
  apply bind_Ok in E as (inputs & Hin%collect_Forall2 & E). apply bind_Ok in E as (asset & _ & E).
  apply bind_Ok in E as (? & Has%fail_if_Ok & E). apply bind_Ok in E as (total & Hti & E).
  apply bind_Ok in E as (total' & Hto' & E). apply bind_Ok in E as (? & Htt%fail_if_Ok & E).
  apply bind_Ok in E as (key & Hk%ok_or_Ok & E). apply bind_Ok in E as (outputs & Ho & E).
  apply bind_Ok in E as (predecessors & Hp%collect_Forall2 & E). apply bind_Ok in E as (proof & Hpr & E).
  apply bind_Ok in E as (? & Hne%fail_if_Ok & E). apply bind_Ok in E as ([record' ctx'] & Hf & E).
  apply bind_Ok in E as (encoded & He%ok_or_Ok & [= <- <- <-]).
  apply negb_false_iff, andb_true_iff in Ha as [A1%Nat.leb_le A2%Nat.leb_le]. apply negb_false_iff, distinct_NoDup in Hd.
  apply negb_false_iff, Z.eqb_eq in Htt as ->. apply bool_decide_eq_false in Hne.
  exists to, stored, inputs, asset, total, outputs, predecessors, proof, encoded.
  split; [done|]. split; [|done]. split; try done; [|by exists key].
  apply Forall_forall. intros i Hi. destruct (decide (coin_asset_id i.1 = asset)) as [|Hn]; [done|].
  assert (existsb (λ i, negb (bool_decide (coin_asset_id i.1 = asset))) inputs = true) as Ht; [|congruence].
  apply existsb_exists. exists i. split; [by apply list_elem_of_In|]. by rewrite bool_decide_eq_false_2.
Qed.

(** A plan that meets all of this is made. *)
Lemma plan_transfer_runs w coin_ids to_hex amounts drawn draws to stored inputs asset total outputs predecessors proof record ctx encoded :
  parse_digest to_hex = Ok to → transfer_plan w coin_ids to amounts drawn stored inputs asset total outputs predecessors proof →
  live_nullifiers proof ≠ [] → fresh_xfer_record (live_nullifiers proof) draws = Ok (record, ctx) →
  encode_coin_proof proof = Some encoded →
  plan_transfer w coin_ids to_hex amounts drawn draws =
    Ok ({| pe_shape := SXfer (live_nullifiers proof); pe_openings := openings_of outputs; pe_nullifiers := live_nullifiers proof;
           pe_proof := encoded; pe_aux := find_genesis w asset; pe_spent_ids := coin_id <$> stored;
           pe_unconfirmed_dependencies := sort_dedup (omap sc_unconfirmed_anchor stored) |}, record, ctx).
Proof.
  intros Ht [Har Hd Hst Hin Has Hti Hto (key & Hk & Hou) Hpr Hp] Hne Hf He.
  assert (∀ b m (A : Type) (k : () → op A), b = false → fail_if b m ≫= k = k tt) as Hfail by (intros b m A k ->; done).
  unfold plan_transfer. rewrite Hfail by (apply negb_false_iff, andb_true_iff; split; apply Nat.leb_le; unfold NODE_INPUTS; lia).
  rewrite Hfail by (by apply negb_false_iff, distinct_NoDup).
  rewrite Ht. cbn [mbind result_bind]. rewrite (proj2 (collect_Forall2 _ _ _) Hst). cbn [mbind result_bind].
  rewrite (proj2 (collect_Forall2 _ _ _) Hin). cbn [mbind result_bind].
  assert (coin_asset_id ∘ fst <$> head inputs = Some asset) as ->.
  { destruct Hst as [|? ? ? ? _ _]; cbn in Har; [lia|]. apply Forall2_cons_inv_l in Hin as (i & is' & _ & _ & ->).
    apply Forall_cons in Has as [<- _]. done. }
  cbn [ok_or mbind result_bind]. rewrite Hfail.
  2: { apply not_true_iff_false. intros (i & Hi & E)%existsb_exists. rewrite <- list_elem_of_In in Hi.
       rewrite (bool_decide_eq_true_2 _ (proj1 (Forall_forall _ _) Has i Hi)) in E. done. }
  rewrite Hti. cbn [mbind result_bind]. rewrite Hto. cbn [mbind result_bind]. rewrite Hfail by (by rewrite Z.eqb_refl).
  rewrite Hk. cbn [ok_or mbind result_bind]. rewrite Hou. cbn [mbind result_bind].
  rewrite (proj2 (collect_Forall2 _ _ _) Hpr). cbn [mbind result_bind]. rewrite Hp. cbn [mbind result_bind].
  fold (live_nullifiers proof). rewrite Hfail by (by apply bool_decide_eq_false_2). rewrite Hf. cbn [mbind result_bind]. by rewrite He.
Qed.

(** The coins a call plans to spend. *)
Definition plans_to_spend (w : MemWallet) (id : rstring) : Prop :=
  (∃ coin_ids to amounts drawn draws p record ctx,
     plan_transfer w coin_ids to amounts drawn draws = Ok (p, record, ctx) ∧ id ∈ pe_spent_ids p) ∨
  (∃ prefix ctx p record ctx', plan_redeem w prefix ctx = Ok (p, record, ctx') ∧ id ∈ pe_spent_ids p).

Lemma planned_not_spent w id c : plans_to_spend w id → coin_at (w_coins w) id = Some c → sc_status c ≠ Spent.
Proof.
  intros [(cs & t & am & d & ds & p & r & x & E & Hid)|(prefix & ctx & p & r & x & E & Hid)] Hc.
  - apply plan_transfer_Ok in E as (to & stored & inputs & asset & total & outs & preds & pr & enc & _ & [] & _ & _ & _ & ->).
    cbn in Hid. apply list_elem_of_fmap in Hid as (s & -> & Hs). apply list_elem_of_lookup in Hs as [i Hi].
    destruct (Forall2_lookup_r _ _ _ _ _ tp_stored0 Hi) as (id & _ & Ef). apply find_coin_at in Ef.
    destruct (Forall2_lookup_l _ _ _ _ _ tp_inputs0 Hi) as (j & _ & (_ & Hns & _)%owned_input_Ok). congruence.
  - unfold plan_redeem in E. apply bind_Ok in E as (s & Ef%find_coin_at & E).
    apply bind_Ok in E as (j & (_ & Hns & _)%owned_input_Ok & E). apply bind_Ok in E as (pp & _ & E).
    apply bind_Ok in E as (q & _ & E). apply bind_Ok in E as (enc & _ & [= <- _ _]).
    cbn in Hid. apply list_elem_of_singleton in Hid as ->. congruence.
Qed.

(** C9: Over every sequence of calls, whatever they return: ids stay unique, no stored coin is dropped, a coin that is
    spent stays spent - redelivered consignments, replayed and imported pending transactions included - and no
    later transfer or redeem plans to spend it; a coin that is settled stays settled. *)
Theorem spent_coin_is_never_respent w w' id c : rtc wallet_step w w' → coin_at (w_coins w) id = Some c →
  (NoDup (ids (w_coins w)) → NoDup (ids (w_coins w'))) ∧
  ∃ c', coin_at (w_coins w') id = Some c' ∧ (sc_unconfirmed_anchor c = None → sc_unconfirmed_anchor c' = None) ∧
    (sc_status c = Spent → sc_status c' = Spent ∧ ¬ plans_to_spend w' id).
Proof.
  intros Hs%steps_evolve Hc. destruct Hs as [Hn He]. split; [done|]. destruct (He id c Hc) as (c' & Hc' & Hsp & Hu).
  exists c'. split; [done|]. split; [done|]. intros Hs. split; [by apply Hsp|]. intros Hp.
  by apply (planned_not_spent w' id c' Hp Hc'), Hsp.
Qed.
End calls.
