(* ===== verification/WalletSelect.v ===== *)
(** * Coin selection (ffi)

    [select_transfer_inputs] of [Wallet.v] against its specification: of all spends by one
    or two eligible coins that cover an amount, the one with the least change, then the
    fewest coins, then the smallest ids. *)

From S2P Require Import Prelude Text Field Commitments Kernel Anchor Batch Chain Accept NodeChain AccountText Circuit Pcd PcdAccept Snapshot Wallet WalletFacts.
#[local] Open Scope Z_scope.

(** ** The order of strings *)
Abbreviation scalars := (Forall is_scalar).

Lemma bytes_leb_le a b : bytes_leb a b = true ↔ bytes_le a b.
Proof. done. Qed.

Lemma str_ltb_le a b : str_ltb a b = true → str_le a b.
Proof.
  unfold str_ltb, str_le. rewrite negb_true_iff. intros E.
  destruct (total bytes_le (utf8 a) (utf8 b)) as [|Hb]; [done|]. apply bytes_leb_le in Hb. congruence.
Qed.

Lemma str_ltb_total a b : scalars a → scalars b → str_ltb a b = false → str_ltb b a = false → a = b.
Proof.
  intros Ha Hb. unfold str_ltb. rewrite !negb_false_iff, !bytes_leb_le. intros L1 L2. apply utf8_inj; [done..|]. by apply (anti_symm bytes_le).
Qed.

Lemma str_le_ltb a b : scalars a → scalars b → str_le a b → a ≠ b → str_ltb a b = true.
Proof.
  intros Ha Hb Hl Hn. destruct (str_ltb a b) eqn:E; [done|]. destruct Hn. apply str_ltb_total; [done..|].
  unfold str_ltb. by rewrite negb_false_iff, bytes_leb_le.
Qed.

Lemma ids_ltb_irrefl a : ids_ltb a a = false.
Proof. induction a as [|x a IH]; [done|]. cbn. by rewrite str_ltb_irrefl, IH, andb_false_r. Qed.

Lemma ids_ltb_trans a b c : ids_ltb a b = true → ids_ltb b c = true → ids_ltb a c = true.
Proof.
  revert b c. induction a as [|x a IH]; intros [|y b] [|z c]; try done. cbn [ids_ltb].
  rewrite !orb_true_iff, !andb_true_iff, !bool_decide_eq_true.
  intros [H1|[-> H1]] [H2|[-> H2]]; [left; by eapply str_ltb_trans|by left|by left|right; split; [done|by eapply IH]].
Qed.

Lemma ids_ltb_total a b : Forall scalars a → Forall scalars b → ids_ltb a b = false → ids_ltb b a = false → a = b.
Proof.
  intros Ha. revert b. induction Ha as [|x a Hx Ha IH]; intros b Hb; destruct Hb as [|y b Hy Hb]; try done. cbn [ids_ltb].
  rewrite !orb_false_iff, !andb_false_iff. intros [H1 E1] [H2 E2]. pose proof (str_ltb_total _ _ Hx Hy H1 H2) as ->.
  f_equal. apply IH; [done|..].
  - destruct E1 as [E1|E1]; [by apply bool_decide_eq_false in E1|done].
  - destruct E2 as [E2|E2]; [by apply bool_decide_eq_false in E2|done].
Qed.

(** ** The order of candidates *)
Definition candidate_of (amount : Z) (spend : list rstring * Z) : Candidate :=
  {| cd_change := spend.2 - amount; cd_count := length spend.1; cd_ids := spend.1; cd_total := spend.2 |}.

Lemma candidate_ltb_iff a b : candidate_ltb a b = true ↔
  cd_change a < cd_change b ∨ cd_change a = cd_change b ∧
    ((cd_count a < cd_count b)%nat ∨ cd_count a = cd_count b ∧ ids_ltb (cd_ids a) (cd_ids b) = true).
Proof.
  unfold candidate_ltb. rewrite orb_true_iff, andb_true_iff, orb_true_iff, andb_true_iff, Z.ltb_lt, Z.eqb_eq, Nat.ltb_lt, bool_decide_eq_true. done.
Qed.

Lemma candidate_ltb_irrefl a : candidate_ltb a a = false.
Proof. apply not_true_is_false. rewrite candidate_ltb_iff, ids_ltb_irrefl. intros [?|[_ [?|[_ ?]]]]; [lia|lia|done]. Qed.

Lemma candidate_ltb_trans a b c : candidate_ltb a b = true → candidate_ltb b c = true → candidate_ltb a c = true.
Proof.
  rewrite !candidate_ltb_iff. intros [?|[E1 [?|[F1 I1]]]] [?|[E2 [?|[F2 I2]]]]; try (left; lia); try (right; split; [lia|]; left; lia).
  right. split; [lia|]. right. split; [lia|by eapply ids_ltb_trans].
Qed.

Lemma candidate_ltb_total amount a b : Forall scalars a.1 → Forall scalars b.1 →
  candidate_ltb (candidate_of amount a) (candidate_of amount b) = false →
  candidate_ltb (candidate_of amount b) (candidate_of amount a) = false → a = b.
Proof.
  destruct a as [x v], b as [y u]. unfold candidate_of. cbn [fst snd].
  intros Hx Hy H1%not_true_iff_false H2%not_true_iff_false. rewrite candidate_ltb_iff in H1, H2.
  cbn [cd_change cd_count cd_ids] in H1, H2.
  assert (v = u) as ->.
  { destruct (Z.lt_trichotomy v u) as [?|[?|?]]; [destruct H1; left; lia|done|destruct H2; left; lia]. }
  assert (length x = length y) as L.
  { destruct (Nat.lt_trichotomy (length x) (length y)) as [?|[?|?]]; [|done|].
    - destruct H1. right. split; [lia|by left].
    - destruct H2. right. split; [lia|by left]. }
  f_equal. apply ids_ltb_total; [done..| |].
  - apply not_true_iff_false. intros Hi. apply H1. right. split; [lia|]. right. by split.
  - apply not_true_iff_false. intros Hi. apply H2. right. split; [lia|]. right. by split.
Qed.

(** ** The loops keep the least candidate *)
Definition enough (amount : Z) (l : list (list rstring * Z)) (spend : list rstring * Z) : Prop := spend ∈ l ∧ amount ≤ spend.2.
Definition least (amount : Z) (l : list (list rstring * Z)) (spend : list rstring * Z) : Prop :=
  enough amount l spend ∧ ∀ other, enough amount l other → candidate_ltb (candidate_of amount other) (candidate_of amount spend) = false.

Lemma enough_cons amount x l o : enough amount (x :: l) o ↔ o = x ∧ amount ≤ x.2 ∨ enough amount l o.
Proof. unfold enough. rewrite elem_of_cons. naive_solver. Qed.

Lemma least_cons amount x l s : least amount (x :: l) s ↔
  (s = x ∧ amount ≤ x.2 ∨ enough amount l s) ∧
  (amount ≤ x.2 → candidate_ltb (candidate_of amount x) (candidate_of amount s) = false) ∧
  ∀ o, enough amount l o → candidate_ltb (candidate_of amount o) (candidate_of amount s) = false.
Proof. unfold least. rewrite enough_cons. setoid_rewrite enough_cons. naive_solver. Qed.

(** What the loops have selected after a list of spends. *)
Definition chosen (amount : Z) (l : list (list rstring * Z)) (selected : option Candidate) : Prop :=
  match selected with
  | None => ∀ other, ¬ enough amount l other
  | Some c => ∃ s, c = candidate_of amount s ∧ least amount l s
  end.

Lemma consider_least amount seen spend selected :
  chosen amount seen selected → chosen amount (spend :: seen) (consider amount selected spend).
Proof.
  unfold consider. fold (candidate_of amount spend). destruct (spend.2 <? amount) eqn:Ea; [apply Z.ltb_lt in Ea|apply Z.ltb_ge in Ea];
    destruct selected as [c|]; cbn [chosen].
  - intros (s & -> & He & Hl). exists s. split; [done|]. apply least_cons. split; [by right|]. split; [lia|done].
  - intros Hn o [[-> ?]|Ho]%enough_cons; [lia|by apply (Hn o)].
  - intros (s & -> & He & Hl). destruct (candidate_ltb (candidate_of amount spend) (candidate_of amount s)) eqn:El; cbn [chosen].
    + exists spend. split; [done|]. apply least_cons. split; [by left|]. split; [intros _; apply candidate_ltb_irrefl|].
      intros o Ho. apply not_true_is_false. intros E. pose proof (candidate_ltb_trans _ _ _ E El) as E'. by rewrite (Hl o Ho) in E'.
    + exists s. split; [done|]. apply least_cons. split; [by right|]. by split.
  - intros Hn. exists spend. split; [done|]. apply least_cons. split; [by left|].
    split; [intros _; apply candidate_ltb_irrefl|]. intros o Ho. by destruct (Hn o).
Qed.

Lemma chosen_perm amount l l' selected : l ≡ₚ l' → chosen amount l selected → chosen amount l' selected.
Proof.
  intros Hp. assert (∀ o, enough amount l o ↔ enough amount l' o) as He by (intros o; unfold enough; by rewrite Hp).
  destruct selected as [c|]; cbn [chosen]; unfold least.
  - intros (s & -> & Hs & Hl). exists s. split; [done|]. split; [by apply He|]. intros o Ho. by apply Hl, He.
  - intros Hn o Ho. by apply (Hn o), He.
Qed.

Lemma consider_all amount l : ∀ seen selected, chosen amount seen selected →
  chosen amount (l ++ seen) (foldl (consider amount) selected l).
Proof.
  induction l as [|x l IH]; intros seen selected Hsel; [done|]. cbn [foldl].
  eapply (chosen_perm amount (l ++ x :: seen)); [symmetry; apply Permutation_middle|]. by apply IH, consider_least.
Qed.

(** ** The spends that are considered *)
Lemma pair_spends_elem l spend : spend ∈ pair_spends l ↔
  ∃ l1 a l2 b, l = l1 ++ a :: l2 ∧ b ∈ l2 ∧ a.2 + b.2 ≤ u64_max ∧ spend = ([a.1; b.1], a.2 + b.2).
Proof.
  induction l as [|x l IH]; cbn [pair_spends].
  { split; [by intros ?%elem_of_nil|]. by intros ([|] & ? & ? & ? & [=] & _). }
  rewrite elem_of_app, list_elem_of_omap, IH. split.
  - intros [(b & Hb & E)|(l1 & a & l2 & b & -> & ?)].
    + unfold checked_add64 in E. destruct (decide _) as [Hle|]; [|done]. cbn in E. injection E as <-. by exists [], x, l, b.
    + by exists (x :: l1), a, l2, b.
  - intros ([|y l1] & a & l2 & b & [= -> ->] & Hb & Hle & ->).
    + left. exists b. split; [done|]. unfold checked_add64. by rewrite decide_True.
    + right. by exists l1, a, l2, b.
Qed.

Lemma single_spends_elem l spend : spend ∈ single_spends l ↔ ∃ a, a ∈ l ∧ spend = ([a.1], a.2).
Proof. unfold single_spends. rewrite list_elem_of_fmap. naive_solver. Qed.

(** ** Against the specification *)
#[export] Instance id_le_trans : Transitive id_le.
Proof. intros a b c. unfold id_le, str_le. apply transitivity. Qed.
#[export] Instance id_le_total : Total id_le.
Proof. intros a b. unfold id_le, str_le. apply (total bytes_le). Qed.

Section selection.
Context `{Poseidon}.

Lemma coin_id_scalars s : scalars (coin_id s).
Proof. unfold coin_id. eapply Forall_impl; [apply to_hex_visible|]. unfold visible, is_scalar. lia. Qed.

(** A spend of one or two different eligible coins, in the order of their ids, that covers the amount. *)
Definition covers (w : MemWallet) (asset : bytes) (amount : Z) (spend : list rstring * Z) : Prop :=
  ∃ cs, Forall (λ s, s ∈ w_coins w ∧ is_eligible w asset s = true) cs ∧ (1 ≤ length cs ≤ 2)%nat ∧
    Sorted (λ a b, str_ltb a b = true) (coin_id <$> cs) ∧ spend.1 = coin_id <$> cs ∧
    spend.2 = foldr Z.add 0 ((λ s, coin_value (sc_coin s)) <$> cs) ∧ amount ≤ spend.2 ≤ u64_max.

Lemma eligible_elem w asset e : e ∈ eligible_coins w asset ↔
  ∃ s, s ∈ w_coins w ∧ is_eligible w asset s = true ∧ e = (coin_id s, coin_value (sc_coin s)).
Proof.
  unfold eligible_coins. rewrite merge_sort_Permutation, list_elem_of_fmap. setoid_rewrite list_elem_of_In. setoid_rewrite filter_In.
  naive_solver.
Qed.

Lemma NoDup_filter_ids (p : StoredCoin → bool) l : NoDup (ids l) → NoDup (ids (List.filter p l)).
Proof.
  unfold ids. induction l as [|x l IH]; [done|]. rewrite fmap_cons, NoDup_cons. intros [Hx Hn]. cbn [List.filter].
  destruct (p x); [|by apply IH]. rewrite fmap_cons. apply NoDup_cons. split; [|by apply IH].
  intros (y & E & Hy)%list_elem_of_fmap. destruct Hx. rewrite E. apply list_elem_of_fmap_2.
  rewrite list_elem_of_In in *. by apply filter_In in Hy as [? _].
Qed.

Lemma eligible_sorted w asset : NoDup (ids (w_coins w)) →
  StronglySorted id_le (eligible_coins w asset) ∧ NoDup (eligible_coins w asset).*1.
Proof.
  intros Hn. unfold eligible_coins. split; [apply StronglySorted_merge_sort; apply _|].
  rewrite (merge_sort_Permutation id_le). rewrite <- list_fmap_compose. by apply NoDup_filter_ids.
Qed.

Lemma eligible_scalars w asset e : e ∈ eligible_coins w asset → scalars e.1.
Proof. intros (s & _ & _ & ->)%eligible_elem. apply coin_id_scalars. Qed.

(** What the two loops enumerate. *)
Lemma spends_cover w asset amount spend : NoDup (ids (w_coins w)) →
  Forall (λ s, is_u64 (coin_value (sc_coin s))) (w_coins w) →
  enough amount (pair_spends (eligible_coins w asset) ++ single_spends (eligible_coins w asset)) spend ↔ covers w asset amount spend.
Proof.
  intros Hn Hty. destruct (eligible_sorted w asset Hn) as [Hs Hd]. unfold enough. rewrite elem_of_app, pair_spends_elem, single_spends_elem.
  rewrite Forall_forall in Hty. split.
  - intros [[(l1 & a & l2 & b & E & Hb & Hle & ->)|(a & Ha & ->)] Ham]; cbn [fst snd] in *.
    + assert (a ∈ eligible_coins w asset) as Ha by (rewrite E; set_solver).
      assert (b ∈ eligible_coins w asset) as Hb' by (rewrite E; set_solver).
      assert (str_ltb a.1 b.1 = true) as Hlt.
      { apply str_le_ltb; [by eapply eligible_scalars|by eapply eligible_scalars|..].
        - rewrite E in Hs. apply StronglySorted_app_1_r in Hs.
          apply StronglySorted_inv in Hs as [_ Hs]. rewrite Forall_forall in Hs. by apply Hs.
        - intros Eq. rewrite E, fmap_app, fmap_cons in Hd. apply NoDup_app in Hd as (_ & _ & Hd). apply NoDup_cons in Hd as [Hd _].
          apply Hd. rewrite Eq. by apply list_elem_of_fmap_2. }
      apply eligible_elem in Ha as (s & Is & Es & ->), Hb' as (t & It & Et & ->). exists [s; t]. cbn in *.
      split_and!; [by repeat constructor|lia|lia|by repeat constructor|done|lia|lia|lia].
    + apply eligible_elem in Ha as (s & Is & Es & ->). exists [s]. cbn in *. pose proof (Hty s Is) as [_ ?].
      split_and!; [by repeat constructor|lia|lia|by repeat constructor|done|lia|lia|lia].
  - intros (cs & Hf & Hl & Hso & E1 & E2 & Ham & Hmax). split; [|done]. destruct spend as [xs t]. cbn [fst snd] in *. subst xs t.
    destruct cs as [|s [|t [|]]]; cbn in Hl; try lia.
    + right. apply Forall_singleton in Hf as [Is Es]. exists (coin_id s, coin_value (sc_coin s)).
      split; [apply eligible_elem; by exists s|]. cbn. f_equal. lia.
    + left. rewrite !Forall_cons in Hf. destruct Hf as ([Is Es] & [It Et] & _).
      apply Sorted_inv in Hso as [_ Hh]. apply HdRel_inv in Hh. cbn in Hmax.
      set (a := (coin_id s, coin_value (sc_coin s))). set (b := (coin_id t, coin_value (sc_coin t))).
      assert (a ∈ eligible_coins w asset) as Ha by (apply eligible_elem; by exists s).
      assert (b ∈ eligible_coins w asset) as Hb by (apply eligible_elem; by exists t).
      apply list_elem_of_split in Ha as (l1 & l2 & E). exists l1, a, l2, b. split; [done|].
      split; [|split; [unfold a, b; cbn; lia|unfold a, b; cbn; f_equal; lia]].
      rewrite E in Hb. apply elem_of_app in Hb as [Hb|[Hb|Hb]%elem_of_cons]; [| |done].
      * rewrite E in Hs. apply StronglySorted_app in Hs as [Hs _].
        assert (str_le b.1 a.1) as Hle by (apply (Hs b a); [done|by apply list_elem_of_here]).
        exfalso. unfold str_ltb in Hh. apply negb_true_iff in Hh. unfold str_le in Hle. apply bytes_leb_le in Hle. unfold a, b in Hle. cbn [fst] in Hle. congruence.
      * exfalso. injection Hb as Hb _. rewrite Hb, str_ltb_irrefl in Hh. done.
Qed.

(** A selected spend is one of those the loops enumerate. *)
Lemma selected_enough w hex asset amount spend : parse_digest hex = Ok asset → select_transfer_inputs w hex amount = Ok spend →
  enough amount (pair_spends (eligible_coins w asset) ++ single_spends (eligible_coins w asset)) spend.
Proof.
  intros Hp. unfold select_transfer_inputs. intros (? & _ & E)%bind_Ok. rewrite Hp in E. cbn [mbind result_bind] in E.
  apply bind_Ok in E as (c & Ec%ok_or_Ok & [= <-]).
  pose proof (consider_all amount (single_spends (eligible_coins w asset)) [] None (λ o Ho, not_elem_of_nil o (proj1 Ho))) as H1.
  rewrite app_nil_r in H1. pose proof (consider_all amount (pair_spends (eligible_coins w asset)) _ _ H1) as H2.
  rewrite Ec in H2. destruct H2 as (s & -> & He & _). cbn. by rewrite <- surjective_pairing.
Qed.

(** Its ids are of eligible coins. *)
Lemma selected_eligible w hex asset amount spend id : parse_digest hex = Ok asset → select_transfer_inputs w hex amount = Ok spend →
  id ∈ spend.1 → ∃ s, s ∈ w_coins w ∧ is_eligible w asset s = true ∧ id = coin_id s.
Proof.
  intros Hp Hs Hid. destruct (selected_enough _ _ _ _ _ Hp Hs) as [[Hin|Hin]%elem_of_app _].
  - apply pair_spends_elem in Hin as (l1 & a & l2 & b & E & Hb & _ & ->). cbn in Hid.
    assert (∃ e, e ∈ eligible_coins w asset ∧ id = e.1) as (e & He & ->); [|by apply eligible_elem in He as (s & ? & ? & ->); exists s].
    rewrite E. apply elem_of_cons in Hid as [->|Hid]; [exists a; set_solver|]. apply list_elem_of_singleton in Hid as ->. exists b; set_solver.
  - apply single_spends_elem in Hin as (a & Ha & ->). apply list_elem_of_singleton in Hid as ->.
    apply eligible_elem in Ha as (s & ? & ? & ->). by exists s.
Qed.

(** C10: The payment selection is optimal: for a positive amount it returns exactly the spend of one or two eligible coins
    - unspent, owned, of the asset, not reserved by a pending transaction - that covers the amount within [u64] and
    that no other such spend beats by change, then by number of coins, then by ids; and it fails with an error
    message exactly when no such spend exists. *)
Theorem selection_is_optimal w hex asset amount : NoDup (ids (w_coins w)) →
  Forall (λ s, is_u64 (coin_value (sc_coin s))) (w_coins w) → parse_digest hex = Ok asset → 0 < amount →
  (∀ spend, select_transfer_inputs w hex amount = Ok spend ↔
     covers w asset amount spend ∧
     ∀ other, covers w asset amount other → candidate_ltb (candidate_of amount other) (candidate_of amount spend) = false) ∧
  ((∃ m, select_transfer_inputs w hex amount = Err (Failed m)) ↔ ∀ spend, ¬ covers w asset amount spend).
Proof.
  intros Hn Hty Hp Ha. unfold select_transfer_inputs, fail_if. rewrite (proj2 (Z.eqb_neq amount 0)) by lia.
  cbn [negb ensure mbind result_bind]. rewrite Hp. cbn [mbind result_bind].
  assert (chosen amount (single_spends (eligible_coins w asset)) (foldl (consider amount) None (single_spends (eligible_coins w asset)))) as H1.
  { eapply chosen_perm; [|apply (consider_all amount _ []); intros o [Ho _]; by apply elem_of_nil in Ho]. by rewrite app_nil_r. }
  pose proof (consider_all amount (pair_spends (eligible_coins w asset)) _ _ H1) as H2.
  pose proof (λ o, spends_cover w asset amount o Hn Hty) as Hc.
  destruct (foldl _ _ (pair_spends _)) as [c|]; cbn [chosen] in H2; cbn [ok_or mbind result_bind].
  - destruct H2 as (s & -> & He & Hl). apply Hc in He as Hs. split.
    + intros spend. cbn [candidate_of cd_ids cd_total]. split.
      * intros [= <-]. rewrite <- surjective_pairing. split; [done|]. intros o Ho. by apply Hl, Hc.
      * intros [Hcov Hbest]. f_equal. rewrite <- surjective_pairing.
        assert (∀ o, covers w asset amount o → Forall scalars o.1) as Hsc.
        { intros o (cs & _ & _ & _ & -> & _). apply Forall_fmap, Forall_forall. intros x _. apply coin_id_scalars. }
        apply (candidate_ltb_total amount); [by apply Hsc|by apply Hsc|by apply Hbest|by apply Hl, Hc].
    + split; [by intros [m [=]]|]. intros Hno. by destruct (Hno s).
  - assert (∀ o, ¬ covers w asset amount o) as Hno by (intros o Ho; by apply (H2 o), Hc). split.
    + intros spend. split; [done|]. intros [Ho _]. by destruct (Hno spend).
    + split; [done|]. by eexists.
Qed.
End selection.
