(* ===== verification/WalletPay.v ===== *)
(** * A payment of the wallet, from selection to balance (ffi)

    [prove_transfer_amount] followed by [finalize] on the wallet of [Wallet.v]: what is
    planned, which coins it consumes, what the consignment opens, and the balance after. *)

From S2P Require Import Prelude Text Field Commitments Kernel Anchor Batch Chain Accept NodeChain AccountText Circuit Pcd PcdLedger PcdAccept PcdProve Snapshot Wallet WalletFacts WalletSelect.
#[local] Open Scope Z_scope.

(** ** Lemmas: totals and proofs *)
Lemma checked_total_from vs : ∀ a t, foldl (λ acc v, a ← acc; ok_or (checked_add64 a v) (Failed "amounts overflow u64")) (Ok a) vs = Ok t →
  t = a + zsum vs.
Proof.
  induction vs as [|v vs IH]; intros a t; cbn [foldl]; [intros [= ->]; cbn; lia|].
  unfold checked_add64 at 2. cbn [mbind result_bind]. destruct (decide (a + v ≤ u64_max)) as [Hle|]; cbn [ok_or].
  - intros ->%IH. rewrite zsum_cons. lia.
  - intros E. exfalso. revert E. clear. induction vs; done.
Qed.

Lemma checked_total_sum vs t : checked_total vs = Ok t → t = zsum vs.
Proof. by intros ->%checked_total_from. Qed.

Lemma starts_with_self s : starts_with s s = true.
Proof. unfold starts_with. rewrite firstn_all. by apply bool_decide_eq_true_2. Qed.

Section proofs.
Context `{Poseidon, Permutation} {Stark : Type} `{StarkSystem Stark}.

(** The nullifier slots of a transfer statement. *)
Definition slots_of (inputs : list (Coin * bytes)) : bytes * bytes :=
  let nf i := nullifier i.2 (commitment i.1) in
  (default zero (nf <$> inputs !! 0%nat), default zero (nf <$> inputs !! 1%nat)).

Lemma prove_inputs_statement asset inputs outputs predecessors selectors p :
  prove_inputs asset inputs outputs predecessors selectors = Ok p →
  version p = COIN_PROOF_VERSION ∧ mode p = TransferMode ∧ statement p = {|
    st_asset_id := asset; st_value := 0; st_mint_commit := zero; st_nullifiers := slots_of inputs;
    st_output_commitments := (commitment outputs.1, commitment outputs.2) |}.
Proof.
  destruct inputs as [|i0 [|i1 [|]]], predecessors as [|q0 [|q1 [|]]], selectors as [|k0 [|k1 [|]]]; cbn [prove_inputs]; try done.
  - intros E%of_node_Ok. destruct i0 as [c osk], outputs as [o0 o1]. apply one_input_proved in E as (? & ? & ?). done.
  - intros E%of_node_Ok. unfold Pcd.prove_transfer in E.
    apply bind_Ok in E as (? & _ & E). apply bind_Ok in E as (? & _ & E). apply bind_Ok in E as (limb & _ & E).
    apply bind_Ok in E as (? & _ & E). apply bind_Ok in E as (? & _ & E). apply bind_Ok in E as (? & _ & E).
    apply bind_Ok in E as (? & _ & E). apply bind_Ok in E as (? & _ & E).
    unfold prove_circuit in E. apply bind_Ok in E as (? & _ & E). apply bind_Ok in E as (? & _ & E).
    by apply bind_Ok in E as (? & _ & [= <-]).
Qed.
End proofs.

Section totals.
Context `{Poseidon}.

(** What the wallet can spend of an asset. *)
Definition counted (asset : bytes) (s : StoredCoin) : bool :=
  bool_decide (sc_status s = Unspent) && bool_decide (coin_asset_id (sc_coin s) = asset).
Definition coins_total (asset : bytes) (l : list StoredCoin) : Z :=
  zsum ((λ s, coin_value (sc_coin s)) <$> List.filter (counted asset) l).
Definition unspent_total (w : MemWallet) (asset : bytes) : Z := coins_total asset (w_coins w).

Lemma coins_total_cons asset c l :
  coins_total asset (c :: l) = (if counted asset c then coin_value (sc_coin c) else 0) + coins_total asset l.
Proof. unfold coins_total. cbn [List.filter]. destruct (counted asset c); [by rewrite fmap_cons, zsum_cons|lia]. Qed.

Lemma total_put_new asset s l : coin_id s ∉ ids l →
  coins_total asset (put_coin s l) = coins_total asset l + (if counted asset s then coin_value (sc_coin s) else 0).
Proof.
  induction l as [|c l IH]; intros Hn; cbn [put_coin]; rewrite ?coins_total_cons; [destruct (counted asset s); lia|].
  unfold ids in *. rewrite fmap_cons, not_elem_of_cons in Hn. destruct Hn as [Hc Hn].
  rewrite bool_decide_eq_false_2 by congruence. rewrite coins_total_cons, IH by done. lia.
Qed.

Lemma counted_spent asset c : counted asset (set_status Spent c) = false.
Proof. unfold counted. cbn. by rewrite bool_decide_eq_false_2. Qed.

Lemma total_mark asset id l c : coin_at l id = Some c →
  coins_total asset (mark_id id l) = coins_total asset l - (if counted asset c then coin_value (sc_coin c) else 0).
Proof.
  unfold coin_at. induction l as [|x l IH]; cbn [find_first mark_id]; [done|]. case_bool_decide as E.
  - intros [= ->]. rewrite !coins_total_cons, counted_spent. lia.
  - intros Hc. rewrite !coins_total_cons, (IH Hc). lia.
Qed.

(** Marking stored coins takes exactly what they count for. *)
Lemma total_marks asset cs : ∀ l, NoDup (ids cs) → Forall (λ c, coin_at l (coin_id c) = Some c) cs →
  coins_total asset (foldl (λ l id, mark_id id l) l (ids cs)) = coins_total asset l - coins_total asset cs.
Proof.
  unfold ids. induction cs as [|c cs IH]; intros l Hn Hf; [change (coins_total asset l = coins_total asset l - 0); lia|].
  rewrite coins_total_cons, fmap_cons in *. cbn [foldl].
  apply NoDup_cons in Hn as [Hc Hn]. apply Forall_cons in Hf as [Hat Hf].
  rewrite IH; [|done|].
  - rewrite (total_mark asset _ l c Hat). lia.
  - rewrite Forall_forall in *. intros x Hx.
    rewrite coin_at_mark, bool_decide_eq_false_2; [by apply Hf|]. intros E. apply Hc. rewrite E. by apply list_elem_of_fmap_2.
Qed.

Lemma ids_marks xs : ∀ l, ids (foldl (λ l id, mark_id id l) l xs) = ids l.
Proof. induction xs as [|x xs IH]; intros l; cbn [foldl]; [done|]. by rewrite IH, mark_id_ids. Qed.

Lemma coin_at_marks xs id : ∀ l, coin_at (foldl (λ l id, mark_id id l) l xs) id =
  if bool_decide (id ∈ xs) then set_status Spent <$> coin_at l id else coin_at l id.
Proof.
  induction xs as [|x xs IH]; intros l; cbn [foldl]; [by rewrite bool_decide_eq_false_2 by apply not_elem_of_nil|].
  rewrite IH, coin_at_mark. destruct (coin_at l id); repeat case_bool_decide; set_solver.
Qed.

(** Coins of one asset, all unspent. *)
Lemma total_of_unspent asset other cs : Forall (λ c, sc_status c = Unspent ∧ coin_asset_id (sc_coin c) = asset) cs →
  coins_total other cs = if bool_decide (other = asset) then zsum ((λ s, coin_value (sc_coin s)) <$> cs) else 0.
Proof.
  induction 1 as [|c cs [Hs Ha] _ IH]; [by case_bool_decide|]. rewrite coins_total_cons, IH, fmap_cons, zsum_cons.
  unfold counted. rewrite (bool_decide_eq_true_2 _ Hs), Ha. cbn [andb]. repeat case_bool_decide; try congruence; lia.
Qed.

(** ** The reported balance *)
Definition amount_of (l : list CreditJson) (id : rstring) : Z :=
  default 0 (cr_amount <$> find_first (λ c, bool_decide (cr_asset_id c = id)) l).

Lemma amount_add id currency v l id' : 0 ≤ v < 2 ^ 64 →
  amount_of (add_credit id currency v l) id' = if bool_decide (id = id') then (amount_of l id' + v) mod 2 ^ 64 else amount_of l id'.
Proof.
  intros Hv. unfold amount_of. induction l as [|c l IH]; cbn [add_credit find_first].
  - cbn [cr_asset_id]. case_bool_decide; cbn; [|done]. by rewrite Z.mod_small.
  - destruct (decide (cr_asset_id c = id)) as [E|E].
    + rewrite (bool_decide_eq_true_2 _ E). cbn [find_first cr_asset_id]. rewrite E. by case_bool_decide.
    + rewrite (bool_decide_eq_false_2 _ E). cbn [find_first]. destruct (decide (cr_asset_id c = id')) as [E'|E'].
      * rewrite (bool_decide_eq_true_2 _ E'). by rewrite bool_decide_eq_false_2 by congruence.
      * by rewrite (bool_decide_eq_false_2 _ E').
Qed.

(** The reported amount is the total, with wrap-around. *)
Lemma balance_total w asset : Forall (λ s, is_u64 (coin_value (sc_coin s))) (w_coins w) →
  amount_of (balance w) (to_hex asset) = unspent_total w asset mod 2 ^ 64.
Proof.
  unfold balance, unspent_total. generalize (w_coins w). intros l Hl.
  assert (∀ out, 0 ≤ amount_of out (to_hex asset) < 2 ^ 64 →
    amount_of (foldl (λ out s, if bool_decide (sc_status s = Unspent) then credit w (sc_coin s) out else out) out l) (to_hex asset)
    = (amount_of out (to_hex asset) + coins_total asset l) mod 2 ^ 64) as Hgen.
  { induction Hl as [|s l Hs Hl IH]; intros out Ho; cbn [foldl]; [cbn; rewrite Z.add_0_r; by rewrite Z.mod_small|].
    rewrite coins_total_cons. unfold counted. destruct (bool_decide (sc_status s = Unspent)); cbn [andb]; [|by rewrite IH].
    unfold credit. assert (0 ≤ coin_value (sc_coin s) < 2 ^ 64) as Hv by (destruct Hs; unfold u64_max in *; lia).
    pose proof (amount_add (to_hex (coin_asset_id (sc_coin s))) (currency_of w (coin_asset_id (sc_coin s)))
      (coin_value (sc_coin s)) out (to_hex asset) Hv) as Ha.
    destruct (decide (coin_asset_id (sc_coin s) = asset)) as [E|E].
    - rewrite (bool_decide_eq_true_2 (to_hex _ = _)) in Ha by (by rewrite E). rewrite (bool_decide_eq_true_2 _ E).
      rewrite IH, Ha by (rewrite Ha; apply Z.mod_pos_bound; lia). rewrite Zplus_mod_idemp_l. f_equal. lia.
    - rewrite (bool_decide_eq_false_2 (to_hex _ = _)) in Ha by (by intros ?%to_hex_inj). rewrite (bool_decide_eq_false_2 _ E).
      rewrite IH, Ha by (by rewrite Ha). f_equal. }
  rewrite Hgen by (cbn; lia). done.
Qed.
End totals.

(** ** The calls of a payment *)
Section payment.
Context `{Poseidon, Permutation} {Stark : Type} `{StarkSystem Stark, ProofCodec Stark, ConsignmentCodec, WalletJson}.

Lemma push_pending_Ok p record ctx w pr w1 : push_pending p record ctx w = (Ok pr, w1) →
  pv_pending_id pr = next_pending w ∧ pv_anchor_record pr = record_to_bytes record ∧ pv_ctx pr = ctx ∧
  w1 = with_pending (<[next_pending w := p]> (pending w)) (with_next ((next_pending w + 1) mod 2 ^ 64) w).
Proof. by intros [= <- <-]. Qed.

Lemma prove_transfer_amount_Ok w asset_hex to_hex amount drawn draws pr w1 :
  prove_transfer_amount asset_hex to_hex amount drawn draws w = (Ok pr, w1) →
  ∃ coin_ids total p record ctx, select_transfer_inputs w asset_hex amount = Ok (coin_ids, total) ∧
    plan_transfer w coin_ids to_hex (if total =? amount then [amount] else [amount; total - amount]) drawn draws = Ok (p, record, ctx) ∧
    push_pending p record ctx w = (Ok pr, w1).
Proof.
  unfold prove_transfer_amount. rewrite prog_bind_Ok. intros ([coin_ids total] & s & [Es ->]%reading_Ok & E).
  unfold prove_transfer in E. rewrite prog_bind_Ok in E. destruct E as ([[p record] ctx] & s & [Ep ->]%reading_Ok & E).
  by exists coin_ids, total, p, record, ctx.
Qed.

Lemma wallet_finalize_Ok pending_id r w blob spent w' : finalize pending_id r w = (Ok (blob, spent), w') →
  ∃ p, pending w !! pending_id = Some p ∧ spent = pe_spent_ids p ∧ blob = consignment_to_bytes (consignment_of p r) ∧
    w' = credit_local_outputs (consignment_of p r)
           (with_coins (foldl (λ l id, mark_id id l) (w_coins w) (pe_spent_ids p)) (with_pending (delete pending_id (pending w)) w)).
Proof.
  unfold finalize. rewrite prog_bind_Ok. intros (p & s & [Hp%ok_or_Ok ->]%reading_Ok & E). cbn in E. injection E as <- <- <-.
  by exists p.
Qed.

(** The coins planned from a selection are exactly the selected, eligible ones. *)
Lemma selected_stored w asset_hex asset amount coin_ids total stored : parse_digest asset_hex = Ok asset →
  select_transfer_inputs w asset_hex amount = Ok (coin_ids, total) → Forall2 (λ id s, find_coin w id = Ok s) coin_ids stored →
  ids stored = coin_ids ∧ Forall (λ s, s ∈ w_coins w ∧ is_eligible w asset s = true ∧ coin_at (w_coins w) (coin_id s) = Some s) stored.
Proof.
  intros Hp Hs Hf. assert (∀ id s, id ∈ coin_ids → find_coin w id = Ok s →
    coin_id s = id ∧ s ∈ w_coins w ∧ is_eligible w asset s = true ∧ coin_at (w_coins w) (coin_id s) = Some s) as Hone.
  { intros id s Hid E. destruct (selected_eligible _ _ _ _ _ _ Hp Hs Hid) as (c & Hc & He & ->).
    pose proof (find_coin_Ok _ _ _ E) as [_ Hu]. pose proof (Hu c Hc (starts_with_self _)) as ->.
    split_and!; [done..|]. by eapply find_coin_at. }
  clear Hs. induction Hf as [|id s coin_ids stored E Hf IH]; [done|].
  destruct (Hone id s) as (Ei & Hrest); [apply list_elem_of_here|done|].
  destruct IH as [IH1 IH2]; [intros id' s' Hin; by apply Hone, list_elem_of_further|].
  split; [unfold ids in *; by rewrite fmap_cons, Ei, IH1|]. by constructor.
Qed.

Lemma is_eligible_iff w asset s : is_eligible w asset s = true ↔
  sc_status s = Unspent ∧ coin_asset_id (sc_coin s) = asset ∧ is_Some (secret_for w (coin_owner (sc_coin s))) ∧ coin_id s ∉ reserved_ids w.
Proof. unfold is_eligible. rewrite !andb_true_iff, !bool_decide_eq_true. naive_solver. Qed.

Lemma to_coin_opening c : to_coin (opening_of c) = c.
Proof. by destruct c. Qed.

Lemma inputs_of_stored w stored inputs : Forall2 (λ s i, owned_input w s = Ok i) stored inputs →
  (λ i, coin_value i.1) <$> inputs = (λ s, coin_value (sc_coin s)) <$> stored.
Proof.
  induction 1 as [|s i stored inputs E _ IH]; [done|]. rewrite !fmap_cons, IH. apply owned_input_Ok in E as (-> & _). done.
Qed.
Lemma payment_outputs asset to own amount selected total outputs drawn :
  checked_total (if selected =? amount then [amount] else [amount; selected - amount]) = Ok total →
  outputs_with_change asset to own (if selected =? amount then [amount] else [amount; selected - amount]) drawn = Ok outputs →
  outputs = (wallet_coin asset amount to drawn.1, wallet_coin asset (total - amount) own drawn.2).
Proof.
  intros ->%checked_total_sum. destruct (selected =? amount); cbn; intros [= <-]; repeat f_equal; lia.
Qed.

Lemma secret_for_head w key : head (keys w) = Some key → is_Some (secret_for w (secret_owner key)).
Proof.
  unfold secret_for. destruct (keys w) as [|k ks]; [done|]. intros [= ->]. cbn [find_first]. rewrite bool_decide_eq_true_2 by done. by eexists.
Qed.

Lemma local_change w p r payment change : pe_openings p = [opening_of payment; opening_of change] →
  secret_for w (coin_owner payment) = None → is_Some (secret_for w (coin_owner change)) →
  ∃ s, local_outputs w (consignment_of p r) = [s] ∧ sc_coin s = change ∧ sc_status s = Unspent.
Proof.
  intros Ho Hp [k Hc]. unfold local_outputs, consignment_of. cbn [coin_openings Accept.proof anchor_ref]. rewrite Ho.
  cbn [imap omap list_omap fst snd compose]. rewrite !to_coin_opening, Hp, Hc. by eexists.
Qed.

(** The revealed nullifiers are those of the inputs. *)
Lemma planned_nullifiers w asset stored inputs outputs predecessors selectors (proof : CoinProof Stark) nf :
  Forall2 (λ s i, owned_input w s = Ok i) stored inputs → prove_inputs asset inputs outputs predecessors selectors = Ok proof →
  nf ∈ live_nullifiers proof ↔ nf ≠ zero ∧
    ∃ s osk, s ∈ stored ∧ secret_for w (coin_owner (sc_coin s)) = Some osk ∧ nf = coin_nullifier (sc_coin s) osk.
Proof.
  intros Hi Hp. assert ((length inputs ≤ 2)%nat) as Hl.
  { destruct inputs as [|? [|? [|]]]; cbn; [lia..|]. by destruct predecessors as [|? [|? [|]]]. }
  apply prove_inputs_statement in Hp as (_ & _ & E). unfold live_nullifiers. rewrite E.
  rewrite list_elem_of_In, filter_In, <- list_elem_of_In, negb_true_iff, bool_decide_eq_false.
  transitivity (nf ≠ zero ∧ ∃ i, i ∈ inputs ∧ nf = coin_nullifier i.1 i.2).
  - rewrite (and_comm _ (nf ≠ zero)). apply and_iff_compat. intros Hz. unfold slots_of, coin_nullifier.
    destruct inputs as [|i0 [|i1 [|]]]; cbn in Hl; try lia; cbn; set_solver.
  - apply and_iff_compat. intros _. split.
    + intros (i & Hin & ->). apply list_elem_of_lookup in Hin as [n Hn].
      destruct (Forall2_lookup_r _ _ _ _ _ Hi Hn) as (s & Hs & (-> & _ & Ho)%owned_input_Ok).
      exists s, i.2. split; [by eapply list_elem_of_lookup_2|done].
    + intros (s & osk & Hin & Ho & ->). apply list_elem_of_lookup in Hin as [n Hn].
      destruct (Forall2_lookup_l _ _ _ _ _ Hi Hn) as (i & Hs & (E1 & _ & E2)%owned_input_Ok).
      exists i. split; [by eapply list_elem_of_lookup_2|]. rewrite E1. congruence.
Qed.
(** What a planned payment is. *)
Record payment_plan (w : MemWallet) (asset to : bytes) (amount : Z) (rd : bytes) (p : Pending) (spent : list StoredCoin) (change : Coin) : Prop := {
  pp_openings : pe_openings p = [opening_of (wallet_coin asset amount to rd); opening_of change];
  pp_change : coin_asset_id change = asset ∧ coin_value change = zsum ((λ s, coin_value (sc_coin s)) <$> spent) - amount ∧
    is_Some (secret_for w (coin_owner change));
  pp_ids : pe_spent_ids p = ids spent ∧ NoDup (ids spent);
  pp_spent : Forall (λ s, is_eligible w asset s = true ∧ coin_at (w_coins w) (coin_id s) = Some s) spent;
  pp_nullifiers : ∀ nf, nf ∈ pe_nullifiers p ↔ nf ≠ zero ∧
    ∃ s osk, s ∈ spent ∧ secret_for w (coin_owner (sc_coin s)) = Some osk ∧ nf = coin_nullifier (sc_coin s) osk }.

Lemma payment_planned w asset_hex asset to_hex to amount drawn draws pr w1 :
  parse_digest asset_hex = Ok asset → parse_digest to_hex = Ok to →
  prove_transfer_amount asset_hex to_hex amount drawn draws w = (Ok pr, w1) →
  ∃ p spent change, payment_plan w asset to amount drawn.1 p spent change ∧ pv_pending_id pr = next_pending w ∧
    w1 = with_pending (<[next_pending w := p]> (pending w)) (with_next ((next_pending w + 1) mod 2 ^ 64) w).
Proof.
  intros Ha Ht (coin_ids & selected & p & record & ctx & Es & Ep & Epu)%prove_transfer_amount_Ok.
  apply plan_transfer_Ok in Ep as (to' & stored & inputs & asset' & total & outputs & preds & proof & enc & Ht' & Hp & _ & _ & _ & ->).
  rewrite Ht in Ht'. injection Ht' as <-.
  destruct Hp as [Harity Hnd Hst Hin Has Hti Hto Hou _ Hpr].
  destruct (selected_stored _ _ _ _ _ _ _ Ha Es Hst) as [Hids Hel].
  apply push_pending_Ok in Epu as (E1 & _ & _ & E2).
  assert (asset' = asset) as ->.
  { destruct Hst as [|id s coin_ids stored _ _]; cbn in Harity; [lia|].
    apply Forall2_cons_inv_l in Hin as (i & inputs' & Ei & _ & ->).
    apply Forall_cons in Has as [Eas _]. apply owned_input_Ok in Ei as (Ei & _).
    apply Forall_cons in Hel as [(_ & (_ & Eel & _)%is_eligible_iff & _) _]. congruence. }
  destruct Hou as (key & Hk & Ho). pose proof (payment_outputs _ _ _ _ _ _ _ _ Hto Ho) as ->.
  apply checked_total_sum in Hti. rewrite (inputs_of_stored _ _ _ Hin) in Hti.
  eexists _, stored, _. split; [|by split; [exact E1|exact E2]]. split; cbn [pe_openings pe_spent_ids pe_nullifiers].
  - done.
  - cbn [wallet_coin coin_asset_id coin_value coin_owner]. rewrite Hti. split_and!; [done|done|by apply secret_for_head].
  - split; [done|by rewrite Hids].
  - eapply Forall_impl; [exact Hel|]. naive_solver.
  - intros nf. by eapply planned_nullifiers.
Qed.
(** Finalizing it: the spent coins are marked, the change is stored. *)
Lemma payment_finalized w asset to amount rd p spent change r : payment_plan w asset to amount rd p spent change →
  secret_for w to = None → to_hex (commitment change) ∉ ids (w_coins w) → ∀ l w',
  l = foldl (λ l id, mark_id id l) (w_coins w) (pe_spent_ids p) → keys w' = keys w → w_coins w' = l →
  ∃ s, sc_coin s = change ∧ sc_status s = Unspent ∧ w_coins (credit_local_outputs (consignment_of p r) w') = put_coin s l.
Proof.
  intros [Ho (Hca & Hcv & Hco) [Hids _] _ _] Hto Hnew l w' El Ek Ew.
  assert (∀ x, secret_for w' x = secret_for w x) as Hsec by (intros x; unfold secret_for; by rewrite Ek).
  destruct (local_change w' p r _ _ Ho) as (s & Es & Ec & Est); [by rewrite Hsec|by rewrite Hsec|].
  exists s. split; [done|]. split; [done|]. unfold credit_local_outputs. rewrite Es. cbn [with_coins w_coins foldl].
  unfold store_replayed. rewrite find_same_at, Ew. rewrite (proj2 (coin_at_None l (coin_id s))); [done|].
  rewrite El, ids_marks. unfold coin_id. by rewrite Ec.
Qed.

(** The totals after it. *)
Lemma payment_totals w asset to amount rd p spent change s other : payment_plan w asset to amount rd p spent change →
  coin_id s ∉ ids (w_coins w) → sc_coin s = change → sc_status s = Unspent →
  coins_total other (put_coin s (foldl (λ l id, mark_id id l) (w_coins w) (pe_spent_ids p))) =
    unspent_total w other - (if bool_decide (other = asset) then amount else 0).
Proof.
  intros [_ (Hca & Hcv & _) [-> Hnd] Hsp _] Hn Ec Est. rewrite total_put_new by (by rewrite ids_marks).
  rewrite total_marks; [|done|eapply Forall_impl; [exact Hsp|]; naive_solver].
  rewrite (total_of_unspent asset other spent).
  - unfold counted. rewrite Ec, Hca, Hcv, (bool_decide_eq_true_2 _ Est). cbn [andb]. unfold unspent_total.
    repeat case_bool_decide; try congruence; lia.
  - eapply Forall_impl; [exact Hsp|]. intros x [(? & ? & _)%is_eligible_iff _]. done.
Qed.

(** C8: A payment moves exactly its amount: when a payment of [amount] to an owner outside the wallet is proved and
    then finalized, and no stored coin is the change, its first output is the amount for that owner and the second the
    change for the wallet; the coins it spends were unspent, of the asset, reserved by no pending transaction, are
    pairwise different and are spent afterwards; the nullifiers it reveals are theirs; the unspent total of the asset
    falls by the amount and of no other asset changes, and the reported balance follows it modulo 2^64. *)
Theorem payment_accounting w w1 w2 asset_hex asset owner_hex to amount drawn draws pr p r blob spent :
  Forall (λ s, is_u64 (coin_value (sc_coin s))) (w_coins w2) →
  parse_digest asset_hex = Ok asset → parse_digest owner_hex = Ok to → secret_for w to = None →
  prove_transfer_amount asset_hex owner_hex amount drawn draws w = (Ok pr, w1) →
  pending w1 !! pv_pending_id pr = Some p → Forall (λ o, to_hex (opening_commitment o) ∉ ids (w_coins w)) (pe_openings p) →
  finalize (pv_pending_id pr) r w1 = (Ok (blob, spent), w2) →
  (∃ change, pe_openings p = [opening_of (wallet_coin asset amount to drawn.1); opening_of change] ∧
     coin_asset_id change = asset ∧ is_Some (secret_for w (coin_owner change))) ∧
  NoDup spent ∧ Forall (λ id, ∃ s, coin_at (w_coins w) id = Some s ∧ is_eligible w asset s = true ∧
    coin_at (w_coins w2) id = Some (set_status Spent s)) spent ∧
  (∀ nf, nf ∈ pe_nullifiers p ↔ nf ≠ zero ∧ ∃ s osk, coin_id s ∈ spent ∧ coin_at (w_coins w) (coin_id s) = Some s ∧
     secret_for w (coin_owner (sc_coin s)) = Some osk ∧ nf = coin_nullifier (sc_coin s) osk) ∧
  (∀ other, unspent_total w2 other = unspent_total w other - (if bool_decide (other = asset) then amount else 0)) ∧
  amount_of (balance w2) (to_hex asset) = (unspent_total w asset - amount) mod 2 ^ 64 ∧
  pending w2 = delete (pv_pending_id pr) (pending w).
Proof.
  intros Hty Ha Ht Hto Epr Hpe Hnew Efin.
  destruct (payment_planned _ _ _ _ _ _ _ _ _ _ Ha Ht Epr) as (p' & cs & change & Hplan & Eid & ->).
  rewrite Eid in *. cbn [pending with_pending with_next] in Hpe. rewrite lookup_insert_eq in Hpe. injection Hpe as ->.
  apply wallet_finalize_Ok in Efin as (p' & Ep & -> & _ & Ew2). cbn [pending with_pending with_next] in Ep.
  rewrite lookup_insert_eq in Ep. injection Ep as <-.
  pose proof Hplan as [Ho (Hca & Hcv & Hco) [Hids Hnd] Hsp Hnf].
  rewrite Ho, !Forall_cons in Hnew. destruct Hnew as (_ & Hnew & _). unfold opening_commitment in Hnew. rewrite to_coin_opening in Hnew.
  destruct (payment_finalized _ _ _ _ _ _ _ _ r Hplan Hto Hnew _ (with_coins (foldl (λ l id, mark_id id l) (w_coins w) (pe_spent_ids p))
    (with_pending (pending w) w)) eq_refl eq_refl eq_refl) as (s & Ec & Est & Ecoins).
  assert (w_coins w2 = put_coin s (foldl (λ l id, mark_id id l) (w_coins w) (pe_spent_ids p))) as Ew by (rewrite Ew2; exact Ecoins).
  assert (coin_id s ∉ ids (w_coins w)) as Hs by (unfold coin_id; by rewrite Ec).
  pose proof (λ other, payment_totals w asset to amount drawn.1 p cs change s other Hplan Hs Ec Est) as Htot.
  split; [exists change; by rewrite Ho|]. split; [by rewrite Hids|]. split; [|split; [|split; [|split]]].
  - rewrite Hids. unfold ids. rewrite Forall_fmap. rewrite Forall_forall in Hsp |- *. intros c Hc. destruct (Hsp c Hc) as [He Hat].
    exists c. split; [done|]. split; [done|]. rewrite Ew, coin_at_put, bool_decide_eq_false_2.
    + rewrite coin_at_marks, Hids, bool_decide_eq_true_2 by (by apply list_elem_of_fmap_2). by rewrite Hat.
    + intros E. destruct Hs. rewrite E. apply coin_at_id in Hat as [Hin _]. by apply list_elem_of_fmap_2.
  - intros nf. rewrite Hnf, Hids. apply and_iff_compat. intros _. unfold ids. rewrite Forall_forall in Hsp. split.
    + intros (c & osk & Hc & Hrest). exists c, osk. split; [by apply list_elem_of_fmap_2|]. split; [by apply Hsp|done].
    + intros (c & osk & (c' & E & Hc)%list_elem_of_fmap & Hat & Hrest). exists c, osk. split; [|done].
      destruct (Hsp c' Hc) as [_ Hat']. rewrite E in Hat. congruence.
  - intros other. rewrite <- Htot. unfold unspent_total. by rewrite Ew.
  - rewrite balance_total by done. unfold unspent_total at 1. by rewrite Ew, Htot, bool_decide_eq_true_2.
  - rewrite Ew2. cbn. by rewrite delete_insert_eq.
Qed.
End payment.
