(* ===== verification/WalletExport.v ===== *)
(** * Saved and moved wallet state (ffi)

    The secret state and the pending transactions of [Wallet.v] as the texts another
    process reads: what is read back as it was, and what is not - an asset whose currency
    code is not UTF-8, and every pending redeem. *)

From S2P Require Import Prelude Text Field Commitments Kernel Anchor Batch Chain Accept NodeChain AccountText Circuit Pcd PcdLedger PcdAccept PcdProve Snapshot Wallet WalletFacts WalletSelect WalletPay.
#[local] Open Scope Z_scope.

(** ** [from_utf8_lossy] *)
Ltac decide_leb :=
  repeat match goal with |- context [?a <=? ?b] =>
    first [rewrite (proj2 (Z.leb_le a b)) by lia | rewrite (proj2 (Z.leb_gt a b)) by lia] end.
Ltac decide_eqb :=
  repeat match goal with |- context [?a =? ?b] =>
    first [rewrite (proj2 (Z.eqb_eq a b)) by lia | rewrite (proj2 (Z.eqb_neq a b)) by lia] end.

(** One character, by the number of its bytes. *)
Lemma lossy_two a b rest : 2 ≤ a < 32 → 0 ≤ b < 64 →
  from_utf8_lossy (bof (0xC0 + a) :: bof (0x80 + b) :: rest) = a * 64 + b :: from_utf8_lossy rest.
Proof.
  intros Ha Hb. cbn [from_utf8_lossy]. unfold is_cont. rewrite !bval_small by lia. decide_tests. decide_leb. cbn [andb].
  f_equal. lia.
Qed.

Lemma lossy_three a b c rest : 0 ≤ a < 16 → 0 ≤ b < 64 → 0 ≤ c < 64 → (a = 0 → 32 ≤ b) → (a = 13 → b < 32) →
  from_utf8_lossy (bof (0xE0 + a) :: bof (0x80 + b) :: bof (0x80 + c) :: rest) = a * 4096 + b * 64 + c :: from_utf8_lossy rest.
Proof.
  intros Ha Hb Hc H0 H13. assert (second_of_three (bof (0xE0 + a)) (bof (0x80 + b)) = true) as Hs.
  { unfold second_of_three, is_cont. rewrite !bval_small by lia. destruct (decide (a = 0)); [|destruct (decide (a = 13))];
      decide_eqb; decide_leb; done. }
  cbn [from_utf8_lossy]. rewrite Hs. unfold is_cont. rewrite !bval_small by lia. decide_tests. decide_leb. cbn [andb].
  f_equal. lia.
Qed.

Lemma lossy_four a b c d rest : 0 ≤ a < 5 → 0 ≤ b < 64 → 0 ≤ c < 64 → 0 ≤ d < 64 → (a = 0 → 16 ≤ b) → (a = 4 → b < 16) →
  from_utf8_lossy (bof (0xF0 + a) :: bof (0x80 + b) :: bof (0x80 + c) :: bof (0x80 + d) :: rest) =
    a * 262144 + b * 4096 + c * 64 + d :: from_utf8_lossy rest.
Proof.
  intros Ha Hb Hc Hd H0 H4. assert (second_of_four (bof (0xF0 + a)) (bof (0x80 + b)) = true) as Hs.
  { unfold second_of_four, is_cont. rewrite !bval_small by lia. destruct (decide (a = 0)); [|destruct (decide (a = 4))];
      decide_eqb; decide_leb; done. }
  cbn [from_utf8_lossy]. rewrite Hs. unfold is_cont. rewrite !bval_small by lia. decide_tests. decide_leb. cbn [andb].
  f_equal. lia.
Qed.

Lemma lossy_char c rest : is_scalar c → from_utf8_lossy (utf8_char c ++ rest) = c :: from_utf8_lossy rest.
Proof.
  unfold is_scalar. intros Hc. unfold utf8_char.
  destruct (digits64 c ltac:(lia)) as (E1 & R1 & P1 & D2 & D3).
  destruct (digits64 (c / 64) P1) as (E2 & R2 & P2 & _ & _).
  destruct (digits64 (c / 64 / 64) P2) as (E3 & R3 & P3 & _ & _). rewrite <- D2, <- D3. clear D2 D3.
  destruct (c <? 0x80) eqn:T1; [|destruct (c <? 0x800) eqn:T2; [|destruct (c <? 0x10000) eqn:T3]]; bool_props; cbn [app].
  - cbn [from_utf8_lossy]. rewrite bval_small by lia. by decide_tests.
  - rewrite lossy_two by lia. f_equal. lia.
  - rewrite lossy_three by lia. f_equal. lia.
  - rewrite lossy_four by lia. f_equal. lia.
Qed.

Lemma lossy_utf8 s : scalars s → from_utf8_lossy (utf8 s) = s.
Proof.
  induction 1 as [|c s Hc _ IH]; [done|]. change (utf8 (c :: s)) with (utf8_char c ++ utf8 s). by rewrite lossy_char, IH.
Qed.

(** The result is always a string. *)
Lemma lossy_scalars : ∀ n bs, (length bs ≤ n)%nat → scalars (from_utf8_lossy bs).
Proof.
  assert (is_scalar REPLACEMENT) as HR by (unfold is_scalar, REPLACEMENT; lia).
  induction n as [|n IH]; intros [|b0 r0] Hl; cbn in Hl; try lia; [constructor..|].
  pose proof (bval_bound b0). cbn [from_utf8_lossy]. unfold second_of_three, second_of_four, is_cont.
  repeat first [apply Forall_nil_2 | apply IH; cbn in *; lia
    | apply Forall_cons_2; [first [exact HR|unfold is_scalar; bool_props; lia]|]
    | case_match; subst; cbn [length] in * ].
Qed.

Lemma lossy_is_utf8 bs : is_Some (from_utf8 (utf8 (from_utf8_lossy bs))).
Proof. eexists. apply from_utf8_exact. split; [by eapply lossy_scalars|done]. Qed.

Lemma lossy_exact bs : utf8 (from_utf8_lossy bs) = bs ↔ is_Some (from_utf8 bs).
Proof.
  split; [intros <-; apply lossy_is_utf8|]. intros [s [Hs ->]%from_utf8_exact]. by rewrite lossy_utf8.
Qed.

(** ** Lemmas: single values *)
Lemma hex_array_back n bs : length bs = n → of_hex (from_hex_array n (to_hex bs)) = Ok bs.
Proof. intros Hn. unfold from_hex_array. rewrite ffi_from_to_hex. cbn. by rewrite bool_decide_eq_true_2. Qed.

Lemma hex_array_length n bs m : of_hex (from_hex_array n (to_hex bs)) = Ok m → length bs = n ∧ m = bs.
Proof.
  unfold from_hex_array. rewrite ffi_from_to_hex. cbn. case_bool_decide; cbn; [by intros [= <-]|done].
Qed.

Lemma digest_back d : length d = 32%nat → parse_digest (to_hex d) = Ok d.
Proof. apply hex_array_back. Qed.

Definition digest_ok (d : bytes) : Prop := length d = 32%nat ∧ is_canonical d = true.
Lemma nullifier_back d : digest_ok d → nullifier_from_hex (to_hex d) = Ok d.
Proof. intros [Hl Hc]. unfold nullifier_from_hex. rewrite digest_back by done. cbn. unfold canonical_nullifier. by rewrite Hc. Qed.

Lemma collect_back {E A B} (f : A → B) (g : B → result E A) l : Forall (λ a, g (f a) = Ok a) l → collect g (f <$> l) = Ok l.
Proof. intros Hl. apply collect_Forall2. induction Hl; [constructor|]. rewrite fmap_cons. by constructor. Qed.

Lemma collect_reads {E A B C} (f : A → B) (g : B → result E C) (P : C → Prop) l : ∀ cs,
  (∀ a c, g (f a) = Ok c → P c) → collect g (f <$> l) = Ok cs → Forall P cs.
Proof.
  intros cs HP Hc%collect_Forall2. revert cs Hc. induction l as [|a l IH]; intros cs Hc.
  - apply Forall2_nil_inv_l in Hc as ->. constructor.
  - rewrite fmap_cons in Hc. apply Forall2_cons_inv_l in Hc as (c & cs' & Hc & Hcs & ->). constructor; [by eapply HP|by apply IH].
Qed.

(** The field types of the sources. *)
Definition genesis_typed (g : AssetGenesis) : Prop :=
  length (issuer_pk g) = 32%nat ∧ length (currency_code g) = 3%nat ∧ length (terms_hash g) = 32%nat.
Definition currency_is_text (g : AssetGenesis) : Prop := is_Some (from_utf8 (currency_code g)).

Lemma genesis_read g g' : genesis_from_json (genesis_to_json g) = Ok g' →
  currency_code g' = utf8 (from_utf8_lossy (currency_code g)).
Proof.
  unfold genesis_from_json, currency_bytes. cbn [genesis_to_json gj_currency_code].
  intros (code & (? & _ & [= <-])%bind_Ok & E)%bind_Ok. apply bind_Ok in E as (? & _ & E). by apply bind_Ok in E as (? & _ & [= <-]).
Qed.

(** A genesis is read back as itself exactly when its currency code is UTF-8. *)
Lemma genesis_back g : genesis_typed g → genesis_from_json (genesis_to_json g) = Ok g ↔ currency_is_text g.
Proof.
  intros (Hp & Hc & Ht). unfold currency_is_text. rewrite <- lossy_exact. split; [by intros ?%genesis_read|].
  intros E. unfold genesis_from_json, currency_bytes, genesis_to_json. cbn [gj_issuer_pk gj_currency_code gj_terms_hash gj_nonce].
  rewrite E, Hc, !digest_back by done. cbn. by destruct g.
Qed.

Lemma genesis_read_text g g' : genesis_from_json (genesis_to_json g) = Ok g' → currency_is_text g'.
Proof. intros E%genesis_read. unfold currency_is_text. rewrite E. apply lossy_is_utf8. Qed.

(** ** The secret state *)
Section secrets.
Context `{Poseidon, WalletJson}.

(** The field types, and that pinned assets are distinct and include those issued. *)
Definition wallet_typed (w : MemWallet) : Prop :=
  Forall (λ k, length k = 32%nat) (keys w) ∧ Forall (λ i, length (isk i) = 32%nat ∧ genesis_typed (ir_genesis i)) (issuers w) ∧
  Forall genesis_typed (assets w) ∧ NoDup (known_asset_ids w) ∧
  Forall (λ i, genesis_asset_id (ir_genesis i) ∈ known_asset_ids w) (issuers w).

Definition reopened (w : MemWallet) : MemWallet := with_assets (assets w) (with_issuers (issuers w) (with_keys (keys w) wallet_empty)).

Lemma pin_known g w : genesis_asset_id g ∈ known_asset_ids w → pin_asset g w = w.
Proof.
  intros (x & E & Hx)%list_elem_of_fmap. unfold pin_asset. rewrite (proj2 (existsb_exists _ _)); [done|].
  exists x. split; [by apply list_elem_of_In|]. by apply bool_decide_eq_true.
Qed.

Lemma pin_new g w : genesis_asset_id g ∉ known_asset_ids w → pin_asset g w = with_assets (assets w ++ [g]) w.
Proof.
  intros Hn. unfold pin_asset. destruct (existsb _ _) eqn:E; [|done].
  apply existsb_exists in E as (x & Hx%list_elem_of_In & Ex%bool_decide_eq_true). destruct Hn. rewrite <- Ex. by apply list_elem_of_fmap_2.
Qed.

Lemma pin_all gs : ∀ w, NoDup (known_asset_ids w ++ (genesis_asset_id <$> gs)) →
  foldl (λ w g, pin_asset g w) w gs = with_assets (assets w ++ gs) w.
Proof.
  induction gs as [|g gs IH]; intros w Hn; cbn [foldl]; [rewrite app_nil_r; by destruct w|].
  rewrite fmap_cons in Hn. rewrite pin_new.
  - rewrite IH; [cbn; by rewrite <- app_assoc|]. unfold known_asset_ids in *. cbn [with_assets assets]. by rewrite fmap_app, <- app_assoc.
  - apply NoDup_app in Hn as (_ & Hn & _). intros Hin. apply (Hn _ Hin), list_elem_of_here.
Qed.

Lemma pin_none gs w : Forall (λ g, genesis_asset_id g ∈ known_asset_ids w) gs → foldl (λ w g, pin_asset g w) w gs = w.
Proof. induction 1 as [|g gs Hg _ IH]; [done|]. cbn [foldl]. by rewrite pin_known. Qed.

(** Whatever is pinned comes from the lists. *)
Lemma pin_sub gs : ∀ w g, g ∈ assets (foldl (λ w g, pin_asset g w) w gs) → g ∈ assets w ∨ g ∈ gs.
Proof.
  induction gs as [|x gs IH]; intros w g Hg; cbn [foldl] in Hg; [by left|].
  apply IH in Hg as [Hg|Hg]; [|right; by apply list_elem_of_further].
  unfold pin_asset in Hg. destruct (existsb _ _); [by left|]. cbn in Hg.
  apply elem_of_app in Hg as [Hg|Hg%list_elem_of_singleton]; [by left|right]. subst. apply list_elem_of_here.
Qed.

Definition issuer_from_json (i : IssuerJson) : op IssuerRecord :=
  k ← parse_digest (ij_isk i); g ← genesis_from_json (ij_genesis i); Ok {| isk := k; ir_genesis := g |}.
Definition issuer_to_json (i : IssuerRecord) : IssuerJson := {| ij_isk := to_hex (isk i); ij_genesis := genesis_to_json (ir_genesis i) |}.

Lemma open_saved w : WalletJsonLaws H0 → wallet_typed w → open (secrets_to_string (secrets_json w)) =
  (iss ← collect issuer_from_json (issuer_to_json <$> issuers w);
   gs ← collect genesis_from_json (genesis_to_json <$> assets w);
   Ok (foldl (λ w g, pin_asset g w) (with_issuers iss (with_keys (keys w) wallet_empty)) (gs ++ (ir_genesis <$> iss)))).
Proof.
  intros HJ (Hk & _). unfold open. rewrite secrets_reads_back. cbn [ok_or mbind result_bind secrets_json sj_version sj_owner_secrets sj_issuers sj_assets].
  rewrite (collect_back to_hex parse_digest); [done|]. eapply Forall_impl; [exact Hk|]. apply digest_back.
Qed.

(** C12: The saved secret state opens as the same keys, issuers and pinned assets, with no coins and no pending
    transactions, exactly when every pinned and issued currency code is UTF-8; with another code - which an accepted
    consignment can pin - opening fails or pins another asset in its place. *)
Theorem secrets_reopen w : WalletJsonLaws H0 → wallet_typed w →
  open (secrets_to_string (secrets_json w)) = Ok (reopened w) ↔
  Forall currency_is_text (assets w) ∧ Forall (λ i, currency_is_text (ir_genesis i)) (issuers w).
Proof.
  intros HJ Hw. rewrite open_saved by done. destruct Hw as (Hk & Hi & Hg & Hn & Hin). split.
  - intros (iss & Eiss & E)%bind_Ok. apply bind_Ok in E as (gs & Egs & [= E]).
    apply (collect_reads _ _ (λ i, currency_is_text (ir_genesis i))) in Eiss as Hiss.
    2: { unfold issuer_from_json. intros i i' (? & _ & (? & Eg & [= <-])%bind_Ok)%bind_Ok. exact (genesis_read_text _ _ Eg). }
    apply (collect_reads _ _ currency_is_text) in Egs as Hgs; [|intros ??; apply genesis_read_text].
    assert (issuers w = iss) as ->.
    { apply (f_equal issuers) in E. cbn in E. rewrite <- E. clear. generalize (gs ++ (ir_genesis <$> iss)). intros l.
      assert (∀ w, issuers (foldl (λ w g, pin_asset g w) w l) = issuers w) as ->; [|done].
      induction l as [|x l IH]; intros w0; [done|]. cbn [foldl]. rewrite IH. unfold pin_asset. by destruct (existsb _ _). }
    split; [|done]. apply (f_equal assets) in E. cbn [reopened assets with_assets] in E. rewrite <- E. apply Forall_forall. intros g Hg'.
    apply pin_sub in Hg' as [Hg'|Hg']; [by apply elem_of_nil in Hg'|].
    apply elem_of_app in Hg' as [Hg'|(i & -> & Hii)%list_elem_of_fmap]; [by apply (proj1 (Forall_forall _ gs) Hgs)|by apply (proj1 (Forall_forall _ iss) Hiss)].
  - intros [Htg Hti]. rewrite (collect_back issuer_to_json issuer_from_json).
    2: { rewrite Forall_forall in *. intros i Hii. destruct (Hi i Hii) as [Hl Ht]. unfold issuer_from_json, issuer_to_json. cbn [ij_isk ij_genesis].
         rewrite digest_back by done. cbn. rewrite (proj2 (genesis_back _ Ht)) by auto. cbn. by destruct i. }
    cbn [mbind result_bind]. rewrite (collect_back genesis_to_json genesis_from_json).
    2: { rewrite Forall_forall in *. intros g Hgg. apply genesis_back; auto. }
    cbn [mbind result_bind]. f_equal. rewrite foldl_app, (pin_all (assets w)) by exact Hn. rewrite pin_none; [done|by apply Forall_fmap].
Qed.
End secrets.

(** ** Pending transactions *)
Section pendings.
Context `{Poseidon, Permutation} {Stark : Type} `{StarkSystem Stark, ProofCodec Stark, ConsignmentCodec, WalletJson}.

Definition digest_pair (drawn : bytes * bytes) : Prop := length drawn.1 = 32%nat ∧ length drawn.2 = 32%nat.

(** A transaction the wallet has planned, from arguments of the field types. *)
Inductive planned (w : MemWallet) (p : Pending) : Prop :=
  | planned_mint a to amounts drawn nonce ctx record ctx' : digest_pair drawn → Forall is_u64 amounts →
      plan_mint w a to amounts drawn nonce ctx = Ok (p, record, ctx') → planned w p
  | planned_transfer coin_ids to amounts drawn draws record ctx : digest_pair drawn →
      plan_transfer w coin_ids to amounts drawn draws = Ok (p, record, ctx) → planned w p
  | planned_redeem prefix ctx record ctx' : plan_redeem w prefix ctx = Ok (p, record, ctx') → planned w p.

Definition is_redeem (p : Pending) : bool := match pe_shape p with SRedeem _ _ _ => true | _ => false end.
Definition opening_typed (o : CoinOpening) : Prop :=
  length (asset_id o) = 32%nat ∧ length (owner o) = 32%nat ∧ length (randomness o) = 32%nat.
Definition shape_typed (s : RecordShape) : Prop :=
  match s with
  | SFixed r => record_wf r ∧ record_from_bytes (record_to_bytes r) = r
  | SXfer nfs => Forall digest_ok nfs
  | SRedeem a _ _ => length a = 24%nat
  end.
Definition pending_typed (p : Pending) : Prop :=
  shape_typed (pe_shape p) ∧ Forall opening_typed (pe_openings p) ∧ Forall digest_ok (pe_nullifiers p) ∧
  (∀ g, pe_aux p = Some g → genesis_typed g).

Lemma parse_digest_length hex d : parse_digest hex = Ok d → length d = 32%nat.
Proof.
  unfold parse_digest, from_hex_array. destruct (ffi_from_hex hex) as [b|[]]; cbn; try done. case_bool_decide; [|done]. by intros [= <-].
Qed.

Lemma checked_total_u64 vs t : Forall is_u64 vs → checked_total vs = Ok t → is_u64 t.
Proof.
  unfold checked_total. assert (is_u64 0) as H0' by (unfold is_u64, u64_max; lia). revert H0'. generalize 0.
  induction vs as [|v vs IH]; intros a Ha Hv; cbn [foldl]; [by intros [= <-]|]. apply Forall_cons in Hv as [Hv Hvs].
  cbn [mbind result_bind]. unfold checked_add64 at 2. destruct (decide (a + v ≤ u64_max)); cbn [ok_or].
  - apply IH; [|done]. unfold is_u64 in *. lia.
  - intros E. exfalso. revert E. clear. induction vs; done.
Qed.

Lemma shape_back s : shape_typed s → ∀ s', shape_from_json (shape_to_json s) = Ok s' ↔
  match s with SRedeem _ _ _ => False | _ => s' = s end.
Proof.
  destruct s as [r|nfs|a v nf]; cbn [shape_typed shape_to_json shape_from_json]; intros Hs s'.
  - destruct Hs as [Hr Hb]. rewrite hex_array_back by (by apply length_record_to_bytes). cbn. rewrite Hb. naive_solver.
  - rewrite (collect_back to_hex nullifier_from_hex); [cbn; naive_solver|]. eapply Forall_impl; [exact Hs|]. apply nullifier_back.
  - split; [|done]. intros (d & Hd & _)%bind_Ok. apply hex_array_length in Hd as [Hd _]. lia.
Qed.

(** A redeem is refused: the asset id is written truncated and read in full. *)
Lemma redeem_refused p : shape_typed (pe_shape p) → is_redeem p = true → import_value (export_value p) = Err (Failed "unexpected length").
Proof.
  unfold is_redeem, import_value, export_value. cbn [px_shape]. destruct (pe_shape p) as [| |a v nf]; try done. intros Hs _.
  cbn [shape_to_json shape_from_json]. unfold parse_digest, from_hex_array. rewrite ffi_from_to_hex. cbn in *.
  by rewrite bool_decide_eq_false_2 by lia.
Qed.

Lemma opening_back o : opening_typed o → opening_from_json (opening_to_json o) = Ok o.
Proof.
  intros (Ha & Ho & Hr). unfold opening_from_json, opening_to_json. cbn [oj_asset_id oj_value oj_owner oj_randomness].
  rewrite !digest_back by done. by destruct o.
Qed.

(** Everything else is read back, when the currency code is UTF-8. *)
Lemma import_back p : WalletJsonLaws H4 → pending_typed p → is_redeem p = false →
  import_value (export_value p) = Ok p ↔ ∀ g, pe_aux p = Some g → currency_is_text g.
Proof.
  intros HJ (Hs & Ho & Hn & Hg) Hr. unfold import_value, export_value.
  cbn [px_shape px_openings px_nullifiers px_proof_base64 px_aux px_spent_ids px_unconfirmed_dependencies].
  rewrite (proj2 (shape_back _ Hs (pe_shape p))) by (unfold is_redeem in Hr; by destruct (pe_shape p)).
  cbn [mbind result_bind]. rewrite (collect_back opening_to_json opening_from_json) by (eapply Forall_impl; [exact Ho|apply opening_back]).
  cbn [mbind result_bind]. rewrite (collect_back to_hex nullifier_from_hex) by (eapply Forall_impl; [exact Hn|apply nullifier_back]).
  cbn [mbind result_bind]. rewrite base64_reads_back. cbn [ok_or mbind result_bind].
  destruct (pe_aux p) as [g|] eqn:Eg; cbn [fmap option_fmap option_map].
  - transitivity (currency_is_text g); [|naive_solver].
    rewrite <- (genesis_back g) by (by apply Hg). destruct (genesis_from_json (genesis_to_json g)) as [x|]; cbn; [|done].
    split; [|intros [= ->]; destruct p; cbn in *; congruence]. intros [= E]. destruct p; cbn in *. congruence.
  - split; [done|]. intros _. cbn. destruct p; cbn in *; congruence.
Qed.

Context `{HP : !PoseidonLaws H}.

Definition coins_typed (w : MemWallet) : Prop := Forall (λ s, length (coin_asset_id (sc_coin s)) = 32%nat) (w_coins w).

Lemma opening_of_typed asset v owner drawn : length asset = 32%nat → length owner = 32%nat → length drawn = 32%nat →
  opening_typed (opening_of (wallet_coin asset v owner drawn)).
Proof. done. Qed.

Lemma outputs_typed asset to own amounts drawn outputs : length asset = 32%nat → length to = 32%nat → length own = 32%nat →
  digest_pair drawn → outputs_with_change asset to own amounts drawn = Ok outputs → Forall opening_typed (openings_of outputs).
Proof.
  intros Ha Ht Ho [H1' H2']. unfold outputs_with_change. destruct amounts as [|v1 [|v2 [|]]]; try done; intros [= <-];
    repeat constructor; by apply opening_of_typed.
Qed.

Lemma hash_ok d parts : digest_ok (hash_felts d parts).
Proof. apply hash_felts_digest. Qed.

Lemma find_genesis_typed w asset g : wallet_typed w → find_genesis w asset = Some g → genesis_typed g.
Proof. intros (_ & _ & Hg & _) [Hin _]%find_first_Some. by apply (proj1 (Forall_forall _ _) Hg). Qed.

Lemma anchor_length d : length d = 32%nat → length (to_anchor d) = 24%nat.
Proof. intros Hd. unfold to_anchor, TRUNCATED_DIGEST_BYTES. rewrite length_take. lia. Qed.

Lemma mint_planned w a to amounts drawn nonce ctx p record ctx' : wallet_typed w → digest_pair drawn → Forall is_u64 amounts →
  plan_mint w a to amounts drawn nonce ctx = Ok (p, record, ctx') → pending_typed p ∧ is_redeem p = false.
Proof.
  intros (_ & Hi & _) Hd Hv E. unfold plan_mint in E. apply bind_Ok in E as (asset & Ha%parse_digest_length & E).
  apply bind_Ok in E as (owner & Ho%parse_digest_length & E). apply bind_Ok in E as (issuer & [Hii _]%ok_or_Ok%find_first_Some & E).
  apply bind_Ok in E as (outputs & Hou & E). apply bind_Ok in E as (total & Ht & E).
  apply bind_Ok in E as (proof & _ & E). apply bind_Ok in E as (enc & _ & [= <- _ _]).
  assert (record_wf (Mint (to_anchor asset) total (to_anchor (mint_commit asset total nonce)))) as Hwf.
  { cbn. rewrite !anchor_length by (done || apply hash_ok). split_and!; [done| |done]. by eapply checked_total_u64. }
  split; [|done]. split; [split; [exact Hwf|exact (from_to_tagged _ Hwf)]|]. split; [exact (outputs_typed _ _ _ _ _ _ Ha Ho Ho Hd Hou)|]. split; [constructor|].
  cbn. intros g [= <-]. by apply (proj1 (Forall_forall _ _) Hi).
Qed.

Lemma plan_mint_runs w a to_hex asset to issuer amounts drawn nonce ctx outputs total proof enc :
  parse_digest a = Ok asset → parse_digest to_hex = Ok to →
  find_first (λ i, bool_decide (genesis_asset_id (ir_genesis i) = asset)) (issuers w) = Some issuer →
  outputs_to_one_owner asset to amounts drawn = Ok outputs → checked_total amounts = Ok total →
  prove_genesis_mint (ir_genesis issuer) (isk issuer) nonce outputs = Ok proof → encode_coin_proof proof = Some enc →
  let record := Mint (to_anchor asset) total (to_anchor (mint_commit asset total nonce)) in
  plan_mint w a to_hex amounts drawn nonce ctx =
    Ok ({| pe_shape := SFixed record; pe_openings := openings_of outputs; pe_nullifiers := []; pe_proof := enc;
           pe_aux := Some (ir_genesis issuer); pe_spent_ids := []; pe_unconfirmed_dependencies := [] |}, record, ctx).
Proof.
  intros Ea Et Ei Eo Ec Ep Ee record. unfold plan_mint. rewrite Ea. cbn [mbind result_bind]. rewrite Et. cbn [mbind result_bind].
  rewrite Ei. cbn [ok_or mbind result_bind]. rewrite Eo. cbn [mbind result_bind]. rewrite Ec. cbn [mbind result_bind].
  rewrite Ep. cbn [of_node mbind result_bind]. rewrite Ee. done.
Qed.

Lemma transfer_planned w coin_ids to amounts drawn draws p record ctx : wallet_typed w → coins_typed w → digest_pair drawn →
  plan_transfer w coin_ids to amounts drawn draws = Ok (p, record, ctx) → pending_typed p ∧ is_redeem p = false.
Proof.
  intros Hw Hc Hd (owner & stored & inputs & asset & total & outputs & preds & proof & enc & Ho%parse_digest_length & Hp & _ & _ & _ & ->)%plan_transfer_Ok.
  destruct Hp as [Harity _ Hst Hin Has _ _ (key & _ & Hou) _ Hpr].
  assert (length asset = 32%nat) as Hl.
  { destruct Hst as [|id s coin_ids stored Es _]; cbn in Harity; [lia|]. apply Forall2_cons_inv_l in Hin as (i & inputs' & Ei & _ & ->).
    apply Forall_cons in Has as [<- _]. apply owned_input_Ok in Ei as (-> & _). apply find_coin_Ok in Es as [Hin _].
    by apply (proj1 (Forall_forall _ _) Hc). }
  assert (Forall digest_ok (live_nullifiers proof)) as Hn.
  { apply Forall_forall. intros nf Hnf. eapply planned_nullifiers in Hnf as (_ & s & osk & _ & _ & ->); [apply hash_ok|done|done]. }
  split; [|done]. split; [exact Hn|]. split; [|split; [exact Hn|intros g; by apply find_genesis_typed]]. cbn.
  apply (outputs_typed asset owner (secret_owner key) amounts drawn); [exact Hl|exact Ho|apply hash_ok|exact Hd|exact Hou].
Qed.

Lemma redeem_planned w prefix ctx p record ctx' : coins_typed w → plan_redeem w prefix ctx = Ok (p, record, ctx') →
  shape_typed (pe_shape p) ∧ is_redeem p = true.
Proof.
  intros Hc E. unfold plan_redeem in E. apply bind_Ok in E as (s & [Hin _]%find_coin_Ok & E).
  apply bind_Ok in E as (i & _ & E). apply bind_Ok in E as (q & _ & E). apply bind_Ok in E as (proof & _ & E).
  apply bind_Ok in E as (enc & _ & [= <- _ _]). split; [|done]. cbn. apply anchor_length. by apply (proj1 (Forall_forall _ _) Hc).
Qed.

End pendings.
