(* ===== verification/WalletDemo.v ===== *)
(** * A concrete wallet (ffi)

    A wallet with coins of one asset on the transparent proof system of [PcdDemo.v], and
    encodings of its texts that satisfy their laws: the witnesses of the theorems about
    wallets. *)

From S2P Require Import Prelude Text Field Commitments Kernel Anchor Batch Chain Accept NodeChain AccountText Circuit Pcd PcdLedger PcdAccept PcdProve PcdDemo Snapshot Wallet WalletFacts WalletSelect WalletPay WalletExport.
#[local] Open Scope Z_scope.
#[local] Existing Instances demo_permutation permutation_sponge permutation_sponge_laws demo_sponge_of.

(** ** Encodings *)
#[local] Instance genesis_json_dec : EqDecision GenesisJson.
Proof. solve_decision. Defined.
#[local] Instance genesis_json_countable : Countable GenesisJson.
Proof.
  refine (inj_countable' (λ g, (gj_issuer_pk g, gj_currency_code g, gj_terms_hash g, gj_nonce g))
    (λ '(a, b, c, d), {| gj_issuer_pk := a; gj_currency_code := b; gj_terms_hash := c; gj_nonce := d |}) _). by intros [].
Defined.
#[local] Instance shape_json_dec : EqDecision ShapeJson.
Proof. solve_decision. Defined.
#[local] Instance shape_json_countable : Countable ShapeJson.
Proof.
  refine (inj_countable'
    (λ s, match s with JFixed r => inl r | JXfer nfs => inr (inl nfs) | JRedeem a v nf => inr (inr (a, v, nf)) end)
    (λ x, match x with inl r => JFixed r | inr (inl nfs) => JXfer nfs | inr (inr (a, v, nf)) => JRedeem a v nf end) _). by intros [].
Defined.
#[local] Instance opening_json_dec : EqDecision OpeningJson.
Proof. solve_decision. Defined.
#[local] Instance opening_json_countable : Countable OpeningJson.
Proof.
  refine (inj_countable' (λ o, (oj_asset_id o, oj_value o, oj_owner o, oj_randomness o))
    (λ '(a, b, c, d), {| oj_asset_id := a; oj_value := b; oj_owner := c; oj_randomness := d |}) _). by intros [].
Defined.
#[local] Instance export_dec : EqDecision PendingExport.
Proof. solve_decision. Defined.
#[local] Instance export_countable : Countable PendingExport.
Proof.
  refine (inj_countable'
    (λ e, (px_version e, px_shape e, px_openings e, px_nullifiers e, (px_proof_base64 e, px_aux e, px_spent_ids e, px_unconfirmed_dependencies e)))
    (λ '(a, b, c, d, (e, f, g, h)), {| px_version := a; px_shape := b; px_openings := c; px_nullifiers := d; px_proof_base64 := e;
       px_aux := f; px_spent_ids := g; px_unconfirmed_dependencies := h |}) _). by intros [].
Defined.
#[local] Instance issuer_json_dec : EqDecision IssuerJson.
Proof. solve_decision. Defined.
#[local] Instance issuer_json_countable : Countable IssuerJson.
Proof. refine (inj_countable' (λ i, (ij_isk i, ij_genesis i)) (λ '(a, b), {| ij_isk := a; ij_genesis := b |}) _). by intros []. Defined.
#[local] Instance secrets_json_dec : EqDecision SecretsJson.
Proof. solve_decision. Defined.
#[local] Instance secrets_json_countable : Countable SecretsJson.
Proof.
  refine (inj_countable' (λ s, (sj_version s, sj_owner_secrets s, sj_issuers s, sj_assets s))
    (λ '(a, b, c, d), {| sj_version := a; sj_owner_secrets := b; sj_issuers := c; sj_assets := d |}) _). by intros [].
Defined.

(** A text of one number that codes the value. *)
Definition coded {A} `{Countable A} (a : A) : rstring := [Zpos (encode a)].
Definition uncoded {A} `{Countable A} (s : rstring) : option A := match s with [Zpos p] => decode p | _ => None end.
Lemma uncoded_coded {A} `{Countable A} (a : A) : uncoded (coded a) = Some a.
Proof. apply decode_encode. Qed.

#[local] Instance demo_json : WalletJson := {|
  pending_to_string := coded; pending_from_str := uncoded; secrets_to_string := coded; secrets_from_str := uncoded;
  base64_encode b := bval <$> b; base64_decode s := Some (bof <$> s) |}.
#[local] Instance demo_json_laws : WalletJsonLaws demo_json.
Proof.
  split; cbn; [apply uncoded_coded|apply uncoded_coded|]. intros b. rewrite <- list_fmap_compose. f_equal.
  induction b as [|x b IH]; [done|]. rewrite fmap_cons, IH. unfold compose. by rewrite bof_bval.
Qed.

#[local] Instance demo_consignments : ConsignmentCodec := {| consignment_to_bytes := Accept.proof; consignment_from_bytes _ := None |}.

(** ** A wallet with the two minted coins *)
Definition demo_coin (enc : bytes) (c : Coin) (k : nat) : StoredCoin :=
  {| sc_coin := c; sc_status := Unspent; sc_proof := enc; sc_selector := k; sc_unconfirmed_anchor := None |}.
Definition demo_wallet (enc : bytes) : MemWallet := {|
  keys := [secret 1]; issuers := [{| isk := seed; ir_genesis := usd |}]; assets := [usd];
  w_coins := [demo_coin enc minted0 0; demo_coin enc minted1 1]; pending := ∅; next_pending := 1 |}.
Definition usd_hex : rstring := to_hex usd_id.
Definition bob_hex : rstring := to_hex (secret_owner (secret 2)).

Lemma demo_ids enc : NoDup (ids (w_coins (demo_wallet enc))).
Proof. apply (bool_decide_unpack _). vm_compute. exact I. Qed.
Lemma demo_values enc : Forall (λ s, is_u64 (coin_value (sc_coin s))) (w_coins (demo_wallet enc)).
Proof. repeat constructor; cbn; unfold u64_max; lia. Qed.
Lemma usd_parses : parse_digest usd_hex = Ok usd_id.
Proof. vm_compute. reflexivity. Qed.

(** The coin of 60 alone: the coin of 40 is too small and both leave more change. *)
Example selected_fifty : select_transfer_inputs (demo_wallet []) usd_hex 50 = Ok ([to_hex (commitment minted0)], 60).
Proof. vm_compute. reflexivity. Qed.

Lemma selection_is_optimal_witness :
  covers (demo_wallet []) usd_id 50 ([to_hex (commitment minted0)], 60) ∧
  (¬ ∃ m, select_transfer_inputs (demo_wallet []) usd_hex 50 = Err (Failed m)).
Proof.
  assert (0 < 50) as Hpos by lia.
  destruct (selection_is_optimal (demo_wallet []) usd_hex usd_id 50 (demo_ids []) (demo_values []) usd_parses Hpos) as [Hsel Hno].
  destruct (proj1 (Hsel _) selected_fifty) as [Hcov _]. split; [exact Hcov|]. intros He. exact (proj1 Hno He _ Hcov).
Defined.

(** ** A payment of 70 *)
Abbreviation payment_proof_result :=
  (Pcd.prove_transfer usd_id ((minted1, secret 1), (minted0, secret 1)) (paid, change) (usd_mint, usd_mint) (1, 0)%nat).
Definition payment_proof : CoinProof Transparent := proved payment_proof_result.
Definition payment_ids : list rstring := [to_hex (commitment minted1); to_hex (commitment minted0)].
Definition payment_drawn : bytes * bytes := (demo_digest 3, demo_digest 4).

Lemma payment_proof_ok : payment_proof_result = Ok payment_proof.
Proof. apply proved_Ok. vm_compute. reflexivity. Qed.

Lemma selected_seventy enc : select_transfer_inputs (demo_wallet enc) usd_hex 70 = Ok (payment_ids, 100).
Proof. vm_compute. reflexivity. Qed.

(** The proofs that are stored and made have an encoding. *)
Lemma mint_encoded : ∃ enc, encode_coin_proof usd_mint = Some enc ∧ decode_coin_proof enc = Some usd_mint.
Proof. apply proof_envelope_roundtrip; [apply (bool_decide_unpack _); vm_compute; exact I|vm_compute; reflexivity]. Qed.
Lemma payment_encoded : ∃ enc, encode_coin_proof payment_proof = Some enc ∧ decode_coin_proof enc = Some payment_proof.
Proof. apply proof_envelope_roundtrip; [apply (bool_decide_unpack _); vm_compute; exact I|vm_compute; reflexivity]. Qed.

Definition payment_pending (enc : bytes) : Pending := {|
  pe_shape := SXfer (live_nullifiers payment_proof); pe_openings := openings_of (paid, change);
  pe_nullifiers := live_nullifiers payment_proof; pe_proof := enc; pe_aux := Some usd; pe_spent_ids := payment_ids;
  pe_unconfirmed_dependencies := [] |}.
Definition payment_draws : list bytes := [demo_digest 40].

Lemma payment_planned_demo enc e : decode_coin_proof enc = Some usd_mint → encode_coin_proof payment_proof = Some e →
  ∃ record ctx, plan_transfer (demo_wallet enc) payment_ids bob_hex [70; 30] payment_drawn payment_draws = Ok (payment_pending e, record, ctx).
Proof.
  intros Hd He.
  assert (∃ r, fresh_xfer_record (live_nullifiers payment_proof) payment_draws = Ok r) as [[record ctx] Hr].
  { apply is_ok_Ok. vm_compute. reflexivity. }
  exists record, ctx.
  rewrite (plan_transfer_runs (demo_wallet enc) payment_ids bob_hex [70; 30] payment_drawn payment_draws (secret_owner (secret 2))
    [demo_coin enc minted1 1; demo_coin enc minted0 0] [(minted1, secret 1); (minted0, secret 1)] usd_id 100 (paid, change)
    [usd_mint; usd_mint] payment_proof record ctx e).
  - reflexivity.
  - vm_compute. reflexivity.
  - split.
    + cbn. lia.
    + apply (bool_decide_unpack _). vm_compute. exact I.
    + constructor; [vm_compute; reflexivity|]. constructor; [vm_compute; reflexivity|constructor].
    + constructor; [vm_compute; reflexivity|]. constructor; [vm_compute; reflexivity|constructor].
    + repeat constructor.
    + reflexivity.
    + reflexivity.
    + exists (secret 1). split; [reflexivity|]. vm_compute. reflexivity.
    + assert (∀ c k, stored_proof (demo_coin enc c k) = Ok usd_mint) as Hs by (intros c k; unfold stored_proof; cbn; by rewrite Hd).
      constructor; [apply Hs|]. constructor; [apply Hs|constructor].
    + cbn [prove_inputs fmap list_fmap demo_coin sc_selector]. rewrite payment_proof_ok. reflexivity.
  - vm_compute. discriminate.
  - exact Hr.
  - exact He.
Qed.

(** The wallet after the plan, and after finalizing it. *)
Definition planned_wallet (enc e : bytes) : MemWallet :=
  with_pending (<[1 := payment_pending e]> ∅) (with_next 2 (demo_wallet enc)).
Definition mined : AnchorRef := with_bob.2.
Definition settled (enc e : bytes) : MemWallet := (finalize 1 mined (planned_wallet enc e)).2.

Lemma payment_planned_wallet enc e : decode_coin_proof enc = Some usd_mint → encode_coin_proof payment_proof = Some e →
  ∃ pr, prove_transfer_amount usd_hex bob_hex 70 payment_drawn payment_draws (demo_wallet enc) = (Ok pr, planned_wallet enc e) ∧
    pv_pending_id pr = 1.
Proof.
  intros Hd He. destruct (payment_planned_demo enc e Hd He) as (record & ctx & Hp).
  exists {| pv_pending_id := 1; pv_anchor_record := record_to_bytes record; pv_ctx := ctx; pv_spends := payment_ids; pv_dependencies := [] |}.
  split; [|reflexivity]. unfold prove_transfer_amount. apply prog_bind_Ok. exists (payment_ids, 100), (demo_wallet enc).
  split; [apply reading_Ok; split; [apply selected_seventy|reflexivity]|]. cbn match. change (100 =? 70) with false. cbn match.
  change (100 - 70) with 30. unfold prove_transfer. apply prog_bind_Ok. exists (payment_pending e, record, ctx), (demo_wallet enc).
  split; [apply reading_Ok; split; [exact Hp|reflexivity]|]. reflexivity.
Qed.

Lemma payment_accounting_witness : ∃ enc e blob spent,
  finalize 1 mined (planned_wallet enc e) = (Ok (blob, spent), settled enc e) ∧ NoDup spent ∧
  unspent_total (settled enc e) usd_id = unspent_total (demo_wallet enc) usd_id - 70.
Proof.
  destruct mint_encoded as (enc & _ & Hd). destruct payment_encoded as (e & He & _).
  destruct (payment_planned_wallet enc e Hd He) as (pr & Hpr & Hid).
  assert (finalize 1 mined (planned_wallet enc e) = (Ok (e, payment_ids), settled enc e)) as Hf by reflexivity.
  exists enc, e, e, payment_ids. split; [exact Hf|].
  destruct (payment_accounting (demo_wallet enc) (planned_wallet enc e) (settled enc e) usd_hex usd_id bob_hex (secret_owner (secret 2)) 70
    payment_drawn payment_draws pr (payment_pending e) mined e payment_ids) as (_ & Hnd & _ & _ & Htot & _).
  - apply (bool_decide_unpack _). vm_compute. exact I.
  - exact usd_parses.
  - vm_compute. reflexivity.
  - vm_compute. reflexivity.
  - exact Hpr.
  - rewrite Hid. vm_compute. reflexivity.
  - apply (bool_decide_unpack _). vm_compute. exact I.
  - rewrite Hid. exact Hf.
  - split; [exact Hnd|]. rewrite Htot. rewrite bool_decide_eq_true_2 by reflexivity. reflexivity.
Defined.

(** ** The spent coins stay spent *)
(** Two further calls: a new key, and a pending id that does not exist. *)
Definition later (enc e : bytes) : MemWallet := (cancel_pending 1 (keygen (demo_digest 50) (settled enc e)).2).2.

Lemma spent_coin_is_never_respent_witness : ∃ enc e c,
  coin_at (w_coins (later enc e)) (to_hex (commitment minted0)) = Some c ∧ sc_status c = Spent ∧
  ¬ plans_to_spend (later enc e) (to_hex (commitment minted0)).
Proof.
  destruct mint_encoded as (enc & _ & Hd). destruct payment_encoded as (e & He & _).
  assert (coin_at (w_coins (settled enc e)) (to_hex (commitment minted0)) = Some (set_status Spent (demo_coin enc minted0 0))) as Hc
    by (vm_compute; reflexivity).
  destruct (spent_coin_is_never_respent (settled enc e) (later enc e) (to_hex (commitment minted0)) _
    (rtc_l _ _ _ _ (step_keygen _ _) (rtc_once _ _ (step_cancel _ _))) Hc) as (_ & c' & Hc' & _ & Hs).
  exists enc, e, c'. split; [exact Hc'|]. exact (Hs eq_refl).
Defined.

(** ** Saved secrets *)
Lemma demo_typed enc : wallet_typed (demo_wallet enc).
Proof. apply (bool_decide_unpack _). vm_compute. exact I. Qed.

Lemma secrets_reopen_witness : open (secrets_to_string (secrets_json (demo_wallet []))) = Ok (reopened (demo_wallet [])).
Proof.
  refine (proj2 (secrets_reopen (demo_wallet []) demo_json_laws (demo_typed [])) _).
  apply (bool_decide_unpack _). vm_compute. exact I.
Defined.

(** A currency code that is the beginning of a four-byte character is saved as U+FFFD, which is three bytes again. *)
Definition foreign : AssetGenesis := {|
  issuer_pk := issuer_public_key seed; currency_code := [xf0; x9f; x98]; terms_hash := demo_digest 5; nonce := 1 |}.
Example foreign_reopens_as_another : ∃ g, genesis_from_json (genesis_to_json foreign) = Ok g ∧
  currency_code g = [xef; xbf; xbd] ∧ genesis_asset_id g ≠ genesis_asset_id foreign.
Proof. eexists. split; [vm_compute; reflexivity|]. split; [vm_compute; reflexivity|]. vm_compute. discriminate. Qed.
Example unreadable_reopens_not : genesis_from_json (genesis_to_json {| issuer_pk := issuer_public_key seed;
  currency_code := [xff; xff; xff]; terms_hash := demo_digest 5; nonce := 1 |}) = Err (Failed "currency code is not 3 bytes").
Proof. vm_compute. reflexivity. Qed.


(** ** Corners *)

(** Two equal outputs are one coin, and are reported as two. *)
Definition twins : Consignment := {|
  coin_openings := [opening_of minted0; opening_of minted0]; nullifiers := []; Accept.proof := []; anchor_ref := mined; aux := None |}.
Definition twins_received : result OpStop (list CreditJson * list CoinJson) * MemWallet :=
  receive_coins twins None [minted0; minted0] [] [] (with_keys [secret 1] wallet_empty).
Example twins_credited_twice :
  (∃ credits views, twins_received.1 = Ok (credits, views) ∧ amount_of credits usd_hex = 120) ∧
  amount_of (balance twins_received.2) usd_hex = 60.
Proof. split; [do 2 eexists; split; vm_compute; reflexivity|vm_compute; reflexivity]. Qed.

(** A frozen coin is not selected, but it can be spent by id. *)
Example frozen_is_spendable : let s := set_status Frozen (demo_coin [] minted0 0) in
  let w := with_coins [s] (demo_wallet []) in
  eligible_coins w usd_id = [] ∧ owned_input w s = Ok (minted0, secret 1).
Proof. split; vm_compute; reflexivity. Qed.

(** The number of nullifiers of an imported transfer is not checked, and rebinding it panics. *)
Example three_nullifiers_panic : let nf := to_hex (demo_digest 7) in
  ∃ p, import_value {| px_version := 1; px_shape := JXfer [nf; nf; nf]; px_openings := []; px_nullifiers := []; px_proof_base64 := [];
         px_aux := None; px_spent_ids := []; px_unconfirmed_dependencies := [] |} = Ok p ∧
    rebind_pending (with_pending (<[1 := p]> ∅) wallet_empty) 1 (demo_digest 8) = Err Crashed.
Proof. eexists. split; [vm_compute; reflexivity|vm_compute; reflexivity]. Qed.
